(* ===== verification/_CoqProject ===== *)
-Q . S2P
Prelude.v
Text.v
Types.v
Ffs.v
Tiano.v
TianoFacts.v
Codec.v
Parser.v
Target.v
Ops.v
Hii.v
Values.v
Ifr.v
Gates.v
StringPack.v
Schema.v
Spf.v
FormsetAdd.v
PeResource.v
Nvar.v
NvarStores.v
ImageStrings.v
ImageGates.v
ImageValues.v
Channels.v
SetupAdd.v
QuestionAdd.v
Hijack.v
Tse.v
FormExport.v
Storage.v
Listing.v
Instances.v
HiiInst.v
ImageParser.v
Builder.v
Server.v
Terminal.v
FormTree.v
App.v
Completion.v
Envelope.v
Client.v
Commands.v
MainLoop.v
StorageFacts.v
ServerFacts.v
StoredFacts.v
RequestFacts.v
ServiceFacts.v
ParserFacts.v
BuilderFacts.v
RoundTrip.v
OpsFacts.v
NvarFacts.v
NvarStoresFacts.v
ListingFacts.v
HiiFacts.v
StringFacts.v
PeFacts.v
PeListFacts.v
IfrFacts.v
FormFacts.v
GatesFacts.v
ImageFacts.v
ImageValuesFacts.v
SetupFacts.v
TseFacts.v
EditBuild.v
TerminalFacts.v
GotoFacts.v
FormTreeFacts.v
KeyFacts.v
ClientFacts.v
Witnesses.v
HiiWitnesses.v
PeWitnesses.v
ImageWitnesses.v
ServiceWitnesses.v
TuiWitnesses.v
