(* ===== verification/Prelude.v ===== *)
(** * A verified model of the UEFI patch engine and its terminal client

    UEFIPatcher opens a firmware image, shows its tree of flash regions, firmware
    volumes, FFS files and sections, edits it (insert, remove, replace, NVRAM variables,
    setup forms) and writes it back. This library models the engine, the crate
    [src/crates/uefi-engine], and its terminal client, the crate [src/crates/uefi-tui], with
    the helpers they take from [src/crates/uefi-common]: the image operations as executable
    functions on lists of bytes, the service around them as programs over a shared disk,
    database and cache, the client as a reducer of keys whose commands are programs that ask
    the engine. It proves what makes the edits safe.

    ** How the code is modelled

    - A function that can fail is a value of [outcome]: [Ok]/[Err] are [Result], [Panic]
      is an aborted computation (slice index out of range, overflow of the dev profile,
      [unwrap] of [None]) and [Diverge] is exhausted fuel, which the totality theorems
      exclude. [pure] is the outcome of a function without a [Result]. A loop is [loop]
      over a step function that returns the next state or the result; a [for] loop is
      [foldM].
    - Bytes are [Byte.byte], machine integers are [Z] with the wrap-around or the overflow
      panic of the code written out ([wrap], [uadd], [usub], [add32], [checked_add]), and
      a [String] is the list of its Unicode scalar values.
    - A [&mut] node is the state before and after, addressed by its path.
    - Fuel: every scan over a buffer gets one turn more than the buffer has bytes, since
      each turn passes at least one byte ([HiiFacts.scan_loop], [walk_tiles]); the parser
      gets the nesting depth of the image ([ParserFacts]: decompression can nest without a
      bound in the size, so the depth is the measure); the Tiano decoder gets the
      announced output size; the reachability loop of the client gets one turn per queued form
      and edge, the recursion along the edges the number of forms ([FormTreeFacts]).
    - External crates are type classes with the laws the code relies on: [GuidLib]
      (uguid), [LzmaLib] (lzma-rs, liblzma), [Lowercase] (Unicode tables), [RefiHii]
      (r-efi: opcodes are pairwise different), [ObjectPe] (object: the parsed headers and
      resource tree of a PE image), [SchemaText] (the JSON texts of schemas),
      [Segmentation] (grapheme clusters and words of a text), [JsonLib] (the documents of
      serde_json, which read back when they have no floats and are nested less than 128
      deep). [Instances], [HiiInst], [PeWitnesses], [ServiceWitnesses] and
      [TuiWitnesses] instantiate all of them, and the witnesses evaluate every theorem
      with hypotheses there.

    - A handler of the service is a [prog]: a tree of atomic steps, one per system call
      or per region under one lock, each given an [input] with the clock, a fresh
      identifier and the faults of this step. [run] executes one request, and ends early
      (with no answer) when the inputs run out, which is a crash; [schedule] interleaves
      requests step by step. Paths are resolved lexically, without symbolic links. A
      status carries the error value whose text is its message. A panic inside an edit is
      taken to leave the image as before the edit.
    - A command of the client is a [cmd]: a program over the state of the screen and of the
      session that asks the engine, the disk and the environment and goes on with the
      answer. [runs] relates it to the list of what was asked and answered; nothing is
      assumed of the answers but their type.

    ** Files and code

    Foundations: [Prelude] (outcomes, rules for total correctness, integers, byte
    buffers, tactics), [Text] (conversions and UTF-8/UTF-16), [Types] ([types.rs]), [Ffs]
    ([ffs.rs], [pi.rs], [align.rs]).

    Images: [Tiano] ([tiano.rs]), [Codec] ([decompress.rs], [compress.rs]), [Parser]
    ([parser/volume.rs], [file.rs], [section.rs]), [ImageParser] ([parser/image.rs],
    [parser/region.rs]), [Target] ([parser/target.rs]), [Ops] ([ops.rs], and the walks over
    a tree), [Builder] ([builder/mod.rs]), [Listing] (listing and search of
    [parser/image.rs], [search.rs]), [Nvar] and [NvarStores] ([nvar.rs]).

    Setup data: [Hii] ([hii/package_list.rs], [ref_variant.rs], scopes and spans of
    [ifr.rs]), [Values] ([values.rs], [questions.rs], package level of [ref_tree.rs] and
    [form_hijack.rs]), [Ifr] (forms and insertions of [ifr.rs]), [Gates] ([gates.rs]),
    [StringPack] ([strings.rs], [string_pack.rs]), [Schema] ([schema.rs],
    [ifr_builder.rs]), [FormsetAdd] ([formset_add.rs], [form_add.rs],
    [ffs_assembler.rs], records of [ami_patcher.rs]), [Spf] ([spf.rs]), [PeResource]
    ([pe_resource.rs]).

    Setup data of an image: [ImageStrings] (item texts: [hii/mod.rs], [strings.rs]),
    [ImageGates] ([list_gates] and [unlock] of [hii/mod.rs], [cross_formset.rs],
    [forms.rs]), [ImageValues] ([set_value], [get_value], the lists of questions and
    variable stores of [hii/mod.rs], [ref_tree.rs]), [Channels] (strings, packages and AMI
    payloads brought into an image: [string_pack.rs], [ami_patcher.rs],
    [formset_add.rs]), [SetupAdd] (form sets and forms), [QuestionAdd] (questions,
    references, variable stores and pages: [hii/mod.rs]), [Hijack] ([form_hijack.rs]),
    [Tse] ([tse.rs]), [FormExport] ([form_export.rs]).

    The service: [Storage] (paths, files and their system calls, the tables of
    [storage/mod.rs] and [storage/schema.rs], [storage/image.rs], [storage/artifact.rs],
    [session.rs]), [Server] ([rpc/server.rs], [rpc/auth.rs]).

    The terminal client: [Terminal] ([line.rs], [history.rs], [tree.rs], the menu and
    [ui/scroll.rs]), [FormTree] ([forms.rs]), [App] ([app.rs]), [Completion] ([complete] of
    [commands.rs], [cmd_key] of [app.rs]), [Envelope] ([uefi-common/envelope.rs]),
    [Client] (requests, session and refreshes of [commands.rs], [uefi-common/state.rs]),
    [Commands] ([execute_command] of [commands.rs], [uefi-common/cli.rs]), [MainLoop]
    ([main.rs], prefills of [commands.rs]).

    The parts interact as in the code: [parse_image] makes the tree that the operations
    of [Ops] and [NvarStores] edit and mark, [Builder] copies unmarked nodes verbatim and
    rebuilds marked ones; the setup operations edit the bodies of sections, as packages
    of opcodes and strings. A handler of [Server] looks up or parses the image in the
    cache, applies one of these operations and flushes: it builds the image, checks that
    the output parses and did not shrink, replaces the stored file atomically and the
    image in memory by the parse. A key goes through [MainLoop] to the cursors of [App] or
    to the command line of [Completion], whose line [Commands] executes with requests of
    [Server.Request].

    ** Theorems

    - Images: parsing is total up to three panics, each with its cause in the image
      ([ParserFacts]); building a parsed image gives its bytes ([RoundTrip]); edits are
      specified on every branch, none is pending below a node the builder copies as long
      as nothing is inserted into padding or free space, and they stay inside the edited
      volumes ([OpsFacts], [EditBuild]); rebuilt files and
      recompressed sections read back ([BuilderFacts], [Codec]); the Tiano decoder is
      total ([TianoFacts]).
    - Lookups: the listing and the search are exact, printed paths resolve, the two
      lookups agree ([ListingFacts], [Target]).
    - Variables: records, nested stores and the stores of an image are read exactly; an
      edit writes every copy and nothing else, every failure has its cause ([NvarFacts],
      [NvarStoresFacts]).
    - Packages: package lists tile ([HiiFacts]); suppressed scopes are balanced and
      [unsuppress] reorders opcodes ([HiiFacts]); inserted opcodes land in the addressed
      form outside its scopes ([FormFacts]); the IFR of a schema is balanced and reads
      back ([IfrFacts]); added strings read back and appended question records are found
      ([StringFacts]).
    - PE images: growing the resource section keeps every section ([PeFacts]); an appended
      package reads back when the list lies behind its data entry, the scan for form
      packages is sound ([PeListFacts]).
    - Gates: the search returns only scopes open at a statement of the target
      and plans stay inside the package, apply atomically and unlock ([GatesFacts]).
    - Setup data of an image: unlocking is atomic and marks what it changed for the
      builder with all its ancestors ([ImageFacts]);
      setting a value writes every reachable default store and nothing else, and the
      value reads back ([NvarFacts], [ImageValuesFacts]); what the additions change is
      marked for the builder with all its ancestors, and lists of additions are atomic
      ([SetupFacts]); the hide entries of the setup browser are found exactly and
      removed ([TseFacts]).
    - Service: the tables keep their keys and references under every interleaving
      ([ServerFacts]); every image and snapshot of the tables has a file
      that parses whatever call fails and wherever the process ends ([StoredFacts],
      [RequestFacts]), for requests one after the other that write no output into the data
      directory; a flush is atomic, an acknowledged edit of a request that runs alone is on
      the disk, a snapshot that can be restored has its bytes, the collector removes exactly the expired sessions, a token
      identifies its session ([ServiceFacts]).
    - Client: the edit line refines a text split at the cursor, the history reads back, a
      list keeps its cursor in view ([TerminalFacts]); a jump finds every node
      ([GotoFacts]); the tree of forms is built along cycles and shows every form
      with an identifier of its own ([FormTreeFacts]); keys on the command line never panic on ASCII data ([KeyFacts]);
      edits go to the image on the screen and only by a key that confirms them, an import
      is checked first, a reopened image loses no edit, and packages without floats that
      are not nested too deep read back ([ClientFacts]).

    [Witnesses], [HiiWitnesses], [PeWitnesses], [ImageWitnesses], [ServiceWitnesses] and
    [TuiWitnesses] apply the theorems to concrete images, packages, states of the service
    and sessions of the client, and hold the concrete inputs behind the findings.

    ** Not modelled

    Log output; the start-up of the server (tokio, tonic, [open_db]); the drawing of the
    client with ratatui except what it writes into the state, the texts of its panes
    ([form_panel], [node_label], details), the set-up of its terminal and its connection;
    the command-line client, the HTTP gateway and the web interface, which have no firmware
    logic of their own; generated protobuf code. Of [serde_json] only the results of its
    conversions are parameters, and the [Debug] text of a wrapped target or of a string is a
    parameter of the messages that use it. *)
From Stdlib Require Export ZArith Lia.
From Stdlib Require Export Init.Byte.
From Stdlib Require Strings.Byte Strings.Ascii Strings.String.
From stdpp Require Export base list list_numbers numbers option strings.

#[global] Open Scope Z_scope.
#[global] Set Default Goal Selector "!".

(** ** Outcomes of Rust code *)

(** [Ok]/[Err] are the two constructors of [Result]; [Panic] is an aborted
    computation (slice index out of range, arithmetic overflow under the dev
    profile, [unwrap] of [None]); [Diverge] is a loop or a recursion that
    exhausted its fuel. *)
Inductive outcome (E A : Type) : Type :=
| Ok (a : A)
| Err (e : E)
| Panic
| Diverge.
Arguments Ok {E A} a.
Arguments Err {E A} e.
Arguments Panic {E A}.
Arguments Diverge {E A}.

(** A function that returns no [Result]. *)
Abbreviation pure := (outcome Empty_set).

#[global] Instance outcome_ret {E} : MRet (outcome E) := fun A a => Ok a.
#[global] Instance outcome_bind {E} : MBind (outcome E) := fun A B k m =>
  match m with
  | Ok a => k a
  | Err e => Err e
  | Panic => Panic
  | Diverge => Diverge
  end.
#[global] Instance outcome_fmap {E} : FMap (outcome E) := fun A B f m =>
  match m with
  | Ok a => Ok (f a)
  | Err e => Err e
  | Panic => Panic
  | Diverge => Diverge
  end.

(** [Result::map_err]. *)
Definition map_err {E F A} (f : E -> F) (m : outcome E A) : outcome F A :=
  match m with
  | Ok a => Ok a
  | Err e => Err (f e)
  | Panic => Panic
  | Diverge => Diverge
  end.

(** [Option::ok_or]. *)
Definition ok_or {E A} (e : E) (o : option A) : outcome E A :=
  match o with Some a => Ok a | None => Err e end.

(** [Option::unwrap]. *)
Definition unwrap {E A} (o : option A) : outcome E A :=
  match o with Some a => Ok a | None => Panic end.

(** [?] on an [Option] in a function that returns [Option]. *)
Definition try_opt {E A B} (o : option A) (k : A -> outcome E (option B)) : outcome E (option B) :=
  match o with Some a => k a | None => Ok None end.
Notation "x ←? o ; k" := (try_opt o (fun x => k))
  (at level 20, o at level 100, k at level 200, right associativity) : stdpp_scope.

(** A Rust function that returns [Vec]/[Option] (no [Result]) has the empty
    error type; [lift] uses it inside one that returns [Result]. *)
Definition lift {E A} (m : outcome Empty_set A) : outcome E A :=
  map_err (fun e : Empty_set => match e with end) m.

(** ** Total correctness of an outcome *)

(** [post m Q QE]: [m] neither panics nor diverges, its value satisfies [Q]
    and its error [QE]. *)
Definition post {E A} (m : outcome E A) (Q : A -> Prop) (QE : E -> Prop) : Prop :=
  match m with
  | Ok a => Q a
  | Err e => QE e
  | Panic => False
  | Diverge => False
  end.

(** Partial correctness: only the value is constrained. *)
Definition okpost {E A} (m : outcome E A) (Q : A -> Prop) : Prop :=
  forall a, m = Ok a -> Q a.

Section Post.
Context {E A B : Type}.
Implicit Types (m : outcome E A) (k : A -> outcome E B).

Lemma post_bind m k Q QE :
    post m (fun a => post (k a) Q QE) QE -> post (m ≫= k) Q QE.
Proof. by destruct m. Qed.

Lemma post_ret a (Q : A -> Prop) (QE : E -> Prop) : Q a -> post (Ok a) Q QE.
Proof. done. Qed.

Lemma post_mono m (Q Q' : A -> Prop) (QE QE' : E -> Prop) :
    post m Q QE -> (forall a, Q a -> Q' a) -> (forall e, QE e -> QE' e) ->
    post m Q' QE'.
Proof. destruct m; simpl; auto. Qed.

Lemma post_Ok m Q QE a : post m Q QE -> m = Ok a -> Q a.
Proof. by intros H ->. Qed.

Lemma okpost_bind m k Q :
    okpost m (fun a => okpost (k a) Q) -> okpost (m ≫= k) Q.
Proof. destruct m; intros H b Hb; simplify_eq/=. by eapply H. Qed.

Lemma okpost_ret (a : A) (Q : A -> Prop) : Q a -> okpost (E := E) (Ok a) Q.
Proof. by intros ? ? [= <-]. Qed.

Lemma okpost_mono m (Q Q' : A -> Prop) :
    okpost m Q -> (forall a, Q a -> Q' a) -> okpost m Q'.
Proof. intros H Himp a Ha. apply Himp, H, Ha. Qed.

Lemma bind_Ok m k b : m ≫= k = Ok b <-> exists a, m = Ok a /\ k a = Ok b.
Proof.
    destruct m; simpl; (split; [|intros (? & ? & ?)]); try congruence; eauto.
    all: intros; discriminate.
  Qed.

Lemma bind_Panic m k :
    m ≫= k = Panic <-> m = Panic \/ exists a, m = Ok a /\ k a = Panic.
Proof.
    destruct m; simpl; (split; [|intros [?|(? & ? & ?)]]); try congruence; eauto.
  Qed.
End Post.

Lemma Ok_inj {E A} (a b : A) : Ok (E := E) a = Ok b -> a = b.
Proof. by intros [= ->]. Qed.

Lemma Ok_not_Err {E A} (a : A) (e : E) : Ok a <> Err e.
Proof. done. Qed.

Lemma map_err_Ok {E F A} (f : E -> F) (m : outcome E A) a :
  map_err f m = Ok a <-> m = Ok a.
Proof. destruct m; simpl; split; congruence. Qed.

Lemma lift_Ok {E A} (m : outcome Empty_set A) a :
  lift (E := E) m = Ok a <-> m = Ok a.
Proof. apply map_err_Ok. Qed.

Lemma lift_post {E A} (m : outcome Empty_set A) (Q : A -> Prop) (QE : E -> Prop) :
  post m Q (fun _ => True) -> post (lift m) Q QE.
Proof. by destruct m as [|[]| |]. Qed.

(** ** Loops *)

(** [loop fuel body s] runs [body] until it breaks: [Ok (inl s')] continues
    with the new loop state, [Ok (inr r)] leaves the loop. *)
Fixpoint loop {E S R} (fuel : nat) (body : S -> outcome E (S + R)) (s : S)
  : outcome E R :=
  match fuel with
  | O => Diverge
  | Datatypes.S f =>
      r ← body s;
      match r with
      | inl s' => loop f body s'
      | inr r => Ok r
      end
  end.

Section Loop.
Context {E S R : Type} (body : S -> outcome E (S + R)).

  (** Total-correctness rule: an invariant and a decreasing measure. *)
Lemma loop_post (I : S -> Prop) (mu : S -> nat) (Q : R -> Prop) (QE : E -> Prop) :
    (forall s, I s ->
       post (body s) (fun r => match r with
                               | inl s' => I s' /\ (mu s' < mu s)%nat
                               | inr r => Q r
                               end) QE) ->
    forall fuel s, I s -> (mu s < fuel)%nat -> post (loop fuel body s) Q QE.
Proof.
    intros Hstep fuel. induction fuel as [|f IH]; intros s HI Hmu; [lia|].
    simpl. apply post_bind. eapply post_mono; [by apply Hstep| |done].
    intros [s'|r]; simpl; [|done]. intros [HI' Hlt]. apply IH; [done|lia].
  Qed.

  (** Partial-correctness rule. *)
Lemma loop_okpost (I : S -> Prop) (Q : R -> Prop) :
    (forall s, I s ->
       okpost (body s) (fun r => match r with inl s' => I s' | inr r => Q r end)) ->
    forall fuel s, I s -> okpost (loop fuel body s) Q.
Proof.
    intros Hstep fuel. induction fuel as [|f IH]; intros s HI; [by intros ? ?|].
    simpl. apply okpost_bind. eapply okpost_mono; [by apply Hstep|].
    intros [s'|r]; [apply IH|apply okpost_ret].
  Qed.

Lemma loop_Ok (I : S -> Prop) (Q : R -> Prop) fuel s r :
    (forall s, I s ->
       okpost (body s) (fun r => match r with inl s' => I s' | inr r => Q r end)) ->
    I s -> loop fuel body s = Ok r -> Q r.
Proof. intros Hs HI. revert r. by apply (loop_okpost I). Qed.

  (** More fuel does not change a result that was reached. *)
Lemma loop_fuel_mono fuel fuel' s :
    (fuel <= fuel')%nat -> loop fuel body s <> Diverge ->
    loop fuel' body s = loop fuel body s.
Proof.
    revert fuel' s. induction fuel as [|f IH]; intros fuel' s Hle Hd; [done|].
    destruct fuel' as [|f']; [lia|]. simpl in *.
    destruct (body s) as [[s'|r]| | |]; simpl in *; try done.
    apply IH; [lia|done].
  Qed.
End Loop.

(** A [for] loop over a list with a fallible body. *)
Section FoldMDef.
Context {E A S : Type} (f : S -> A -> outcome E S).
Fixpoint foldM (l : list A) (s : S) : outcome E S :=
    match l with
    | [] => Ok s
    | a :: l => s' ← f s a; foldM l s'
    end.
End FoldMDef.

Section FoldM.
Context {E A S : Type} (f : S -> A -> outcome E S).

Lemma foldM_app l1 l2 s : foldM f (l1 ++ l2) s = (s' ← foldM f l1 s; foldM f l2 s').
Proof.
    revert s. induction l1 as [|a l1 IH]; intros s; simpl; [done|].
    destruct (f s a); simpl; auto.
  Qed.

Lemma foldM_post (I : S -> Prop) (QE : E -> Prop) l :
    (forall s a, a ∈ l -> I s -> post (f s a) I QE) ->
    forall s, I s -> post (foldM f l s) I QE.
Proof.
    induction l as [|a l IH]; intros Hf s HI; [done|]. simpl.
    apply post_bind. eapply post_mono; [apply Hf; [by left|done]| |done].
    intros s' HI'. apply IH; [|done]. intros; apply Hf; [by right|done].
  Qed.

Lemma foldM_okpost (I : S -> Prop) l :
    (forall s a, a ∈ l -> I s -> okpost (f s a) I) ->
    forall s, I s -> okpost (foldM f l s) I.
Proof.
    induction l as [|a l IH]; intros Hf s HI; [by apply okpost_ret|]. simpl.
    apply okpost_bind. eapply okpost_mono; [apply Hf; [by left|done]|].
    intros s' HI'. apply IH; [|done]. intros; apply Hf; [by right|done].
  Qed.

Lemma foldM_Ok (I : S -> Prop) l s r :
    (forall s a, a ∈ l -> I s -> okpost (f s a) I) -> I s -> foldM f l s = Ok r -> I r.
Proof. intros Hf HI. revert r. by apply foldM_okpost. Qed.
End FoldM.

(** ** Where a panic can come from *)

(** [m] panics only if [P] holds. *)
Definition panics_only {E A} (P : Prop) (m : outcome E A) : Prop := m = Panic -> P.

Section PanicsOnly.
Context {E : Type} (P : Prop).

Lemma po_Ok {A} (a : A) : panics_only P (Ok (E := E) a).
Proof. done. Qed.
Lemma po_Err {A} (e : E) : panics_only P (Err (A := A) e).
Proof. done. Qed.
Lemma po_bind {A B} (m : outcome E A) (k : A -> outcome E B) :
    panics_only P m -> (forall a, m = Ok a -> panics_only P (k a)) -> panics_only P (m ≫= k).
Proof.
    intros Hm Hk H. apply bind_Panic in H as [H|(a & Ha & H)]; [by apply Hm|].
    by eapply Hk.
  Qed.
Lemma po_post {A} (m : outcome E A) Q QE : post m Q QE -> panics_only P m.
Proof. by intros H ->. Qed.
Lemma po_if {A} (b : bool) (m m' : outcome E A) :
    (b = true -> panics_only P m) -> (b = false -> panics_only P m') ->
    panics_only P (if b then m else m').
Proof. destruct b; auto. Qed.
Lemma po_loop {S R} (body : S -> outcome E (S + R)) (I : S -> Prop) :
    (forall s, I s -> panics_only P (body s)) ->
    (forall s s', I s -> body s = Ok (inl s') -> I s') ->
    forall fuel s, I s -> panics_only P (loop fuel body s).
Proof.
    intros Hp HI fuel. induction fuel as [|f IH]; intros s Hs; [done|]. simpl.
    apply po_bind; [by apply Hp|]. intros [s'|r] Hb; [|done]. by eapply IH, HI.
  Qed.
Lemma po_foldM {S A} (f : S -> A -> outcome E S) l :
    (forall s a, a ∈ l -> panics_only P (f s a)) -> forall s, panics_only P (foldM f l s).
Proof.
    induction l as [|a l IH]; intros Hf s; [done|]. simpl. apply po_bind; [apply Hf; by left|].
    intros s' _. apply IH. intros; apply Hf; by right.
  Qed.
End PanicsOnly.

Lemma po_lift {E A} P (m : outcome Empty_set A) : panics_only P m -> panics_only P (lift (E := E) m).
Proof. intros Hm H. apply Hm. by destruct m as [|[]| |]. Qed.
Lemma po_map_err {E F A} P (f : E -> F) (m : outcome E A) :
  panics_only P m -> panics_only P (map_err f m).
Proof. intros Hm H. apply Hm. by destruct m. Qed.

(** ** Correctness up to named failures *)

(** [upto PP PD m Q]: the value of [m] satisfies [Q]; it panics only if [PP] and
    diverges only if [PD]. With [False] twice this is total correctness, with
    [True] twice partial correctness. *)
Definition upto {E A} (PP PD : Prop) (m : outcome E A) (Q : A -> Prop) : Prop :=
  match m with
  | Ok a => Q a
  | Err _ => True
  | Panic => PP
  | Diverge => PD
  end.

Section Upto.
Context {PP PD : Prop}.

Lemma upto_bind {E A B} (m : outcome E A) (k : A -> outcome E B) Q :
    upto PP PD m (fun a => upto PP PD (k a) Q) -> upto PP PD (m ≫= k) Q.
Proof. by destruct m. Qed.

Lemma upto_mono {E A} (m : outcome E A) (Q Q' : A -> Prop) :
    upto PP PD m Q -> (forall a, Q a -> Q' a) -> upto PP PD m Q'.
Proof. destruct m; simpl; auto. Qed.

Lemma upto_eq {E A} (m : outcome E A) (Q : A -> Prop) :
    upto PP PD m Q -> upto PP PD m (fun a => m = Ok a /\ Q a).
Proof. destruct m; simpl; auto. Qed.

Lemma upto_post {E A} (m : outcome E A) (Q : A -> Prop) (QE : E -> Prop) :
    post m Q QE -> upto PP PD m Q.
Proof. by destruct m. Qed.

Lemma upto_lift {E A} (m : outcome Empty_set A) (Q : A -> Prop) :
    upto PP PD m Q -> upto PP PD (lift (E := E) m) Q.
Proof. by destruct m as [|[]| |]. Qed.

Lemma upto_map_err {E F A} (f : E -> F) (m : outcome E A) (Q : A -> Prop) :
    upto PP PD m Q -> upto PP PD (map_err f m) Q.
Proof. by destruct m. Qed.

Lemma upto_foldM {E S A} (f : S -> A -> outcome E S) (I : S -> Prop) l :
    (forall s a, a ∈ l -> I s -> upto PP PD (f s a) I) ->
    forall s, I s -> upto PP PD (foldM f l s) I.
Proof.
    induction l as [|a l IH]; intros Hf s HI; [done|]. simpl.
    apply upto_bind. eapply upto_mono; [apply Hf; [by left|done]|].
    intros s' HI'. apply IH; [|done]. intros; apply Hf; [by right|done].
  Qed.

Lemma upto_loop {E S R} (body : S -> outcome E (S + R)) (I : S -> Prop) (mu : S -> nat)
    (Q : R -> Prop) :
    (forall s, I s ->
       upto PP PD (body s) (fun r => match r with
                                     | inl s' => I s' /\ (mu s' < mu s)%nat
                                     | inr r => Q r
                                     end)) ->
    forall fuel s, I s -> (mu s < fuel)%nat -> upto PP PD (loop fuel body s) Q.
Proof.
    intros Hstep fuel. induction fuel as [|f IH]; intros s HI Hmu; [lia|].
    simpl. apply upto_bind. eapply upto_mono; [by apply Hstep|].
    intros [s'|r]; simpl; [|done]. intros [HI' Hlt]. apply IH; [done|lia].
  Qed.
End Upto.

Lemma upto_okpost {E A} (m : outcome E A) (Q : A -> Prop) :
  upto True True m Q <-> okpost m Q.
Proof.
  unfold okpost. destruct m as [a| | |]; simpl; split; try done.
  - by intros ? ? [= <-].
  - intros H. by apply H.
Qed.

Lemma upto_imp {E A} (PP PP' PD PD' : Prop) (m : outcome E A) (Q : A -> Prop) :
  upto PP PD m Q -> (PP -> PP') -> (PD -> PD') -> upto PP' PD' m Q.
Proof. destruct m; simpl; auto. Qed.

(** ** Machine integers *)

(** Truncating cast to [w] bits ([as u8], [as u16], [as u32], [as u64]). *)
Definition wrap (w z : Z) : Z := z mod 2 ^ w.

(** [usize]/[u64] arithmetic under the dev profile: overflow panics. *)
Definition usize_max : Z := 2 ^ 64 - 1.
Definition uadd {E} (a b : Z) : outcome E Z :=
  if a + b <=? usize_max then Ok (a + b) else Panic.
Definition usub {E} (a b : Z) : outcome E Z :=
  if b <=? a then Ok (a - b) else Panic.
(** [saturating_sub]. *)
Definition sat_sub (a b : Z) : Z := Z.max 0 (a - b).

Lemma wrap_bounds w z : 0 <= w -> 0 <= wrap w z < 2 ^ w.
Proof. intros. apply Z.mod_pos_bound. lia. Qed.

Lemma wrap_small w z : 0 <= z < 2 ^ w -> wrap w z = z.
Proof. apply Z.mod_small. Qed.

Lemma wrap_idemp w z : 0 <= w -> wrap w (wrap w z) = wrap w z.
Proof. intros. apply wrap_small, wrap_bounds. done. Qed.

Lemma wrap_add_l w a b : wrap w (wrap w a + b) = wrap w (a + b).
Proof. apply Zplus_mod_idemp_l. Qed.

Lemma wrap_add_r w a b : wrap w (a + wrap w b) = wrap w (a + b).
Proof. apply Zplus_mod_idemp_r. Qed.

Lemma wrap_sub_l w a b : wrap w (wrap w a - b) = wrap w (a - b).
Proof. apply Zminus_mod_idemp_l. Qed.

Lemma wrap_sub_r w a b : wrap w (a - wrap w b) = wrap w (a - b).
Proof. apply Zminus_mod_idemp_r. Qed.

(** ** Bytes *)

#[global] Instance byte_eq_dec : EqDecision byte := Strings.Byte.byte_eq_dec.
#[global] Instance byte_inhabited : Inhabited byte := populate x00.

Definition b2z (b : byte) : Z := Z.of_N (Strings.Byte.to_N b).
Definition z2b (z : Z) : byte :=
  default x00 (Strings.Byte.of_N (Z.to_N (z mod 256))).

Lemma b2z_bounds b : 0 <= b2z b < 256.
Proof. unfold b2z. pose proof (Strings.Byte.to_N_bounded b). lia. Qed.

Lemma z2b_b2z b : z2b (b2z b) = b.
Proof.
  unfold z2b. rewrite Z.mod_small by apply b2z_bounds. unfold b2z.
  by rewrite N2Z.id, Strings.Byte.of_to_N.
Qed.

Lemma b2z_z2b z : b2z (z2b z) = z mod 256.
Proof.
  unfold z2b, b2z. pose proof (Z.mod_pos_bound z 256 ltac:(lia)).
  destruct (Strings.Byte.of_N _) as [b|] eqn:Hb; simpl.
  - apply Strings.Byte.to_of_N in Hb. rewrite Hb. lia.
  - apply Strings.Byte.of_N_None_iff in Hb. lia.
Qed.

Lemma b2z_z2b_wrap z : b2z (z2b z) = wrap 8 z.
Proof. apply b2z_z2b. Qed.

Lemma b2z_inj a b : b2z a = b2z b -> a = b.
Proof. intros H. by rewrite <-(z2b_b2z a), H, z2b_b2z. Qed.

Lemma z2b_wrap z : z2b (wrap 8 z) = z2b z.
Proof. apply b2z_inj. rewrite !b2z_z2b. apply Zmod_mod. Qed.

Lemma b2z_wrap b : wrap 8 (b2z b) = b2z b.
Proof. apply wrap_small, b2z_bounds. Qed.

(** ** Byte buffers *)

(** Length of a slice as a [usize]. *)
Definition blen {A} (l : list A) : Z := Z.of_nat (length l).

Lemma blen_nonneg {A} (l : list A) : 0 <= blen l.
Proof. unfold blen. lia. Qed.
Lemma blen_nil {A} : blen (@nil A) = 0.
Proof. done. Qed.
Lemma blen_cons {A} (a : A) l : blen (a :: l) = 1 + blen l.
Proof. unfold blen. simpl. lia. Qed.
Lemma blen_app {A} (l k : list A) : blen (l ++ k) = blen l + blen k.
Proof. unfold blen. rewrite length_app. lia. Qed.
Lemma blen_replicate {A} n (a : A) : blen (replicate n a) = Z.of_nat n.
Proof. unfold blen. by rewrite length_replicate. Qed.

(** The bytes [l[a..b]] for a valid range. *)
Definition sub {A} (l : list A) (a b : Z) : list A :=
  take (Z.to_nat (b - a)) (drop (Z.to_nat a) l).

Definition range_ok {A} (l : list A) (a b : Z) : bool :=
  (0 <=? a) && (a <=? b) && (b <=? blen l).

(** [&l[a..b]]: panics on an invalid range. *)
Definition slice {E A} (l : list A) (a b : Z) : outcome E (list A) :=
  if range_ok l a b then Ok (sub l a b) else Panic.
(** [&l[a..]]. *)
Definition slice_from {E A} (l : list A) (a : Z) : outcome E (list A) :=
  slice l a (blen l).
(** [l.get(a..b)]. *)
Definition get_range {A} (l : list A) (a b : Z) : option (list A) :=
  if range_ok l a b then Some (sub l a b) else None.
(** [l.get(i)]. *)
Definition get {A} (l : list A) (i : Z) : option A :=
  if 0 <=? i then l !! Z.to_nat i else None.
(** [l[i]]: panics out of range. *)
Definition index {E A} (l : list A) (i : Z) : outcome E A := unwrap (get l i).
(** [l[i] = x]: panics out of range. *)
Definition set_at {E A} (l : list A) (i : Z) (x : A) : outcome E (list A) :=
  if (0 <=? i) && (i <? blen l) then Ok (<[Z.to_nat i := x]> l) else Panic.
(** [l[a..b].copy_from_slice(bs)]: panics on an invalid range or length. *)
Definition splice {A} (l : list A) (a : Z) (bs : list A) : list A :=
  take (Z.to_nat a) l ++ bs ++ drop (Z.to_nat a + length bs) l.
Definition copy_into {E A} (l : list A) (a b : Z) (bs : list A) : outcome E (list A) :=
  if range_ok l a b && (b - a =? blen bs) then Ok (splice l a bs) else Panic.
(** [v.resize(n, x)]. *)
Definition resize_to {A} (l : list A) (n : Z) (x : A) : list A :=
  resize (Z.to_nat n) x l.

(** [l.iter().position(p)], counted from [i]. *)
Fixpoint position {A} (p : A -> bool) (l : list A) (i : Z) : option Z :=
  match l with
  | [] => None
  | a :: l => if p a then Some i else position p l (i + 1)
  end.
(** [l.iter().take_while(p)]. *)
Fixpoint take_while {A} (p : A -> bool) (l : list A) : list A :=
  match l with
  | [] => []
  | a :: l => if p a then a :: take_while p l else []
  end.
(** [matches!(x, a | b | ...)]. *)
Definition one_of {A} `{EqDecision A} (x : A) (l : list A) : bool := bool_decide (x ∈ l).

Section Buffers.
Context {A : Type}.
Implicit Types (l k : list A) (a b c d : Z).

Lemma range_ok_spec l a b :
    range_ok l a b = true <-> 0 <= a /\ a <= b /\ b <= blen l.
Proof. unfold range_ok. rewrite !andb_true_iff, !Z.leb_le. tauto. Qed.

Lemma slice_Ok {E} l a b s :
    slice (E := E) l a b = Ok s <-> (0 <= a /\ a <= b /\ b <= blen l) /\ s = sub l a b.
Proof.
    unfold slice. destruct (range_ok l a b) eqn:Hr.
    - apply range_ok_spec in Hr. split; [intros [= <-]; done|intros [_ ->]; done].
    - split; [done|]. intros [Hr' _]. apply range_ok_spec in Hr'. congruence.
  Qed.

Lemma slice_post {E} l a b (Q : list A -> Prop) (QE : E -> Prop) :
    0 <= a -> a <= b -> b <= blen l -> Q (sub l a b) -> post (slice l a b) Q QE.
Proof.
    intros. unfold slice. replace (range_ok l a b) with true; [done|].
    symmetry. by apply range_ok_spec.
  Qed.

Lemma get_range_Some l a b s :
    get_range l a b = Some s <-> (0 <= a /\ a <= b /\ b <= blen l) /\ s = sub l a b.
Proof.
    unfold get_range. destruct (range_ok l a b) eqn:Hr.
    - apply range_ok_spec in Hr. split; [intros [= <-]; done|intros [_ ->]; done].
    - split; [done|]. intros [Hr' _]. apply range_ok_spec in Hr'. congruence.
  Qed.

Lemma blen_sub l a b :
    0 <= a -> a <= b -> b <= blen l -> blen (sub l a b) = b - a.
Proof. unfold blen, sub. intros. rewrite length_take, length_drop. lia. Qed.

Lemma sub_full l : sub l 0 (blen l) = l.
Proof.
    unfold sub, blen. rewrite drop_0. apply take_ge. lia.
  Qed.

Lemma sub_empty l a : sub l a a = [].
Proof. unfold sub. by rewrite Z.sub_diag. Qed.

Lemma sub_join l a b c :
    0 <= a -> a <= b -> b <= c -> c <= blen l ->
    sub l a b ++ sub l b c = sub l a c.
Proof.
    unfold sub, blen. intros.
    replace (Z.to_nat (c - a)) with (Z.to_nat (b - a) + Z.to_nat (c - b))%nat by lia.
    rewrite <-take_take_drop, drop_drop. do 3 f_equal. lia.
  Qed.

Lemma sub_sub l a b c d :
    0 <= a -> a <= b -> b <= blen l -> 0 <= c -> c <= d -> d <= b - a ->
    sub (sub l a b) c d = sub l (a + c) (a + d).
Proof.
    unfold sub, blen. intros.
    rewrite skipn_firstn_comm, take_take, drop_drop. f_equal; [lia|]. f_equal. lia.
  Qed.

Lemma sub_app_l l k a b : 0 <= a -> b <= blen l -> sub (l ++ k) a b = sub l a b.
Proof.
    unfold sub, blen. intros. destruct (decide (a <= b)).
    - rewrite drop_app_le by lia. rewrite take_app_le; [done|]. rewrite length_drop. lia.
    - replace (Z.to_nat (b - a)) with 0%nat by lia. done.
  Qed.

Lemma sub_app_r l k a b :
    blen l <= a -> sub (l ++ k) a b = sub k (a - blen l) (b - blen l).
Proof.
    unfold sub, blen. intros. rewrite drop_app_ge by lia. f_equal; [lia|]. f_equal. lia.
  Qed.

Lemma sub_app_exact l k : sub (l ++ k) 0 (blen l) = l.
Proof. rewrite sub_app_l by lia. apply sub_full. Qed.

Lemma sub_app_rest l k : sub (l ++ k) (blen l) (blen l + blen k) = k.
Proof.
    rewrite sub_app_r by lia. rewrite Z.sub_diag.
    replace (blen l + blen k - blen l) with (blen k) by lia. apply sub_full.
  Qed.

Lemma get_Some l i x :
    get l i = Some x <-> 0 <= i /\ l !! Z.to_nat i = Some x.
Proof. unfold get. destruct (Z.leb_spec 0 i); split; try naive_solver. lia. Qed.

Lemma get_is_Some l i : is_Some (get l i) <-> 0 <= i < blen l.
Proof.
    unfold get, blen. destruct (Z.leb_spec 0 i).
    - rewrite lookup_lt_is_Some. lia.
    - split; [intros []; done|lia].
  Qed.

Lemma get_None l i : get l i = None <-> i < 0 \/ blen l <= i.
Proof.
    pose proof (get_is_Some l i) as H. destruct (get l i) eqn:Hg.
    - split; [done|]. pose proof (proj1 H (mk_is_Some _ _ eq_refl)). lia.
    - split; [intros _|done]. destruct (decide (0 <= i < blen l)) as [Hi|]; [|lia].
      apply H in Hi as [? ?]. done.
  Qed.

Lemma get_app_l l k i : i < blen l -> get (l ++ k) i = get l i.
Proof.
    unfold get, blen. intros. destruct (Z.leb_spec 0 i); [|done].
    apply lookup_app_l. lia.
  Qed.

Lemma get_app_r l k i : blen l <= i -> get (l ++ k) i = get k (i - blen l).
Proof.
    unfold get, blen. intros. destruct (Z.leb_spec 0 i); [|lia].
    destruct (Z.leb_spec 0 (i - Z.of_nat (length l))); [|lia].
    rewrite lookup_app_r by lia. f_equal. lia.
  Qed.

Lemma get_sub l a b i :
    0 <= a -> b <= blen l -> 0 <= i < b - a -> get (sub l a b) i = get l (a + i).
Proof.
    unfold get, sub, blen. intros.
    destruct (Z.leb_spec 0 i); [|lia]. destruct (Z.leb_spec 0 (a + i)); [|lia].
    rewrite lookup_take by lia. destruct (decide _); [|lia].
    rewrite lookup_drop. f_equal. lia.
  Qed.

Lemma index_Ok {E} l i x : index (E := E) l i = Ok x <-> get l i = Some x.
Proof. unfold index. destruct (get l i); simpl; split; congruence. Qed.

Lemma index_post {E} l i (Q : A -> Prop) (QE : E -> Prop) :
    0 <= i < blen l -> (forall x, get l i = Some x -> Q x) -> post (index l i) Q QE.
Proof.
    intros Hi HQ. apply get_is_Some in Hi as [x Hx]. unfold index. rewrite Hx. by apply HQ.
  Qed.

Lemma list_get_ext l k :
    (forall i, get l i = get k i) -> l = k.
Proof.
    intros H. apply list_eq. intros i. specialize (H (Z.of_nat i)).
    unfold get in H. rewrite Nat2Z.id in H. destruct (Z.leb_spec 0 (Z.of_nat i)); [done|lia].
  Qed.

Lemma blen_splice l a k :
    0 <= a -> a + blen k <= blen l -> blen (splice l a k) = blen l.
Proof. unfold splice, blen. intros. rewrite !length_app, length_take, length_drop. lia. Qed.

Lemma sub_splice_same l a k :
    0 <= a -> a + blen k <= blen l -> sub (splice l a k) a (a + blen k) = k.
Proof.
    intros. unfold splice.
    assert (blen (take (Z.to_nat a) l) = a) as Hl
      by (unfold blen in *; rewrite length_take; lia).
    rewrite sub_app_r by lia. rewrite Hl, sub_app_l by lia.
    replace (a - a) with 0 by lia. replace (a + blen k - a) with (blen k) by lia.
    apply sub_full.
  Qed.

Lemma get_splice l a k i :
    0 <= a -> a + blen k <= blen l ->
    get (splice l a k) i =
      if (a <=? i) && (i <? a + blen k) then get k (i - a) else get l i.
Proof.
    intros Ha Hk. unfold splice.
    assert (blen (take (Z.to_nat a) l) = a) as Hl
      by (unfold blen in *; rewrite length_take; lia).
    destruct (Z.ltb_spec i a).
    - rewrite get_app_l by lia. replace (a <=? i) with false by lia. simpl.
      destruct (Z.leb_spec 0 i).
      + unfold get. replace (0 <=? i) with true by lia.
        rewrite lookup_take. destruct (decide _); [done|lia].
      + rewrite !(proj2 (get_None _ _)); [done|lia|lia].
    - rewrite get_app_r by lia. rewrite Hl. replace (a <=? i) with true by lia. simpl.
      destruct (Z.ltb_spec i (a + blen k)); [by rewrite get_app_l by lia|].
      rewrite get_app_r by lia. unfold get, blen in *.
      replace (0 <=? i - a - Z.of_nat (length k)) with true by lia.
      replace (0 <=? i) with true by lia. rewrite lookup_drop. f_equal. lia.
  Qed.

Lemma splice_sub_id l a b :
    0 <= a -> a <= b -> b <= blen l -> splice l a (sub l a b) = l.
Proof.
    intros. apply list_get_ext. intros i.
    rewrite get_splice by (rewrite ?blen_sub; lia). rewrite blen_sub by lia.
    destruct ((a <=? i) && (i <? a + (b - a))) eqn:Hb; [|done].
    rewrite get_sub by lia. f_equal. lia.
  Qed.

Lemma copy_into_Ok {E} l a b k r :
    copy_into (E := E) l a b k = Ok r <->
      (0 <= a /\ a <= b /\ b <= blen l) /\ b - a = blen k /\ r = splice l a k.
Proof.
    unfold copy_into. destruct (range_ok l a b) eqn:Hr; simpl.
    - apply range_ok_spec in Hr. destruct (Z.eqb_spec (b - a) (blen k)); naive_solver.
    - split; [done|]. intros [Hr' _]. apply range_ok_spec in Hr'. congruence.
  Qed.

Lemma copy_into_post {E} l a b k (Q : list A -> Prop) (QE : E -> Prop) :
    0 <= a -> b <= blen l -> b - a = blen k -> Q (splice l a k) ->
    post (copy_into l a b k) Q QE.
Proof.
    intros. pose proof (blen_nonneg k).
    replace (copy_into l a b k) with (Ok (E := E) (splice l a k)); [done|].
    symmetry. apply copy_into_Ok. split_and!; auto; lia.
  Qed.

Lemma set_at_Ok {E} l i x r :
    set_at (E := E) l i x = Ok r <-> 0 <= i < blen l /\ r = <[Z.to_nat i := x]> l.
Proof.
    unfold set_at. destruct ((0 <=? i) && (i <? blen l)) eqn:Hb.
    - split; [intros [= <-]; split; [lia|done]|intros [_ ->]; done].
    - split; [done|]. intros [? _]. lia.
  Qed.

Lemma set_at_post {E} l i x (Q : list A -> Prop) (QE : E -> Prop) :
    0 <= i < blen l -> Q (<[Z.to_nat i := x]> l) -> post (set_at l i x) Q QE.
Proof.
    intros. unfold set_at. replace ((0 <=? i) && (i <? blen l)) with true by lia. done.
  Qed.

Lemma blen_insert l i x : blen (<[i := x]> l) = blen l.
Proof. unfold blen. by rewrite length_insert. Qed.

Lemma get_insert l i x j :
    0 <= i < blen l -> get (<[Z.to_nat i := x]> l) j = if j =? i then Some x else get l j.
Proof.
    unfold get, blen. intros. destruct (Z.leb_spec 0 j).
    - destruct (Z.eqb_spec j i) as [->|].
      + apply list_lookup_insert_eq. lia.
      + apply list_lookup_insert_ne. lia.
    - destruct (Z.eqb_spec j i); [lia|done].
  Qed.

Lemma blen_resize_to l n x : 0 <= n -> blen (resize_to l n x) = n.
Proof. unfold blen, resize_to. intros. rewrite length_resize. lia. Qed.
End Buffers.

(** Slices with the same elements. *)
Lemma sub_ext {A} (l l' : list A) a b :
  0 <= a -> (forall k, a <= k < b -> get l k = get l' k) -> sub l a b = sub l' a b.
Proof.
  intros Ha Hk. apply list_eq. intros j. unfold sub.
  destruct (decide (j < Z.to_nat (b - a))%nat).
  - rewrite !lookup_take_lt, !lookup_drop by lia. specialize (Hk (a + Z.of_nat j)). unfold get in Hk.
    assert ((0 <=? a + Z.of_nat j) = true) as Hle by lia. rewrite Hle in Hk.
    replace (Z.to_nat (a + Z.of_nat j)) with (Z.to_nat a + j)%nat in Hk by lia. apply Hk. lia.
  - by rewrite !lookup_take_ge by lia.
Qed.

(** ** Little-endian integers *)

(** [uN::from_le_bytes]. *)
Fixpoint le_dec (bs : list byte) : Z :=
  match bs with
  | [] => 0
  | b :: bs => b2z b + 256 * le_dec bs
  end.
(** The [n] low bytes of [z.to_le_bytes()]. *)
Fixpoint le_enc (n : nat) (z : Z) : list byte :=
  match n with
  | O => []
  | S n => z2b z :: le_enc n (z / 256)
  end.
(** [uN::from_le_bytes] of [n] bytes read by index at [off]. *)
Definition rd_le {E} (n : Z) (l : list byte) (off : Z) : outcome E Z :=
  bs ← slice l off (off + n); mret (le_dec bs).

Lemma le_dec_bounds bs : 0 <= le_dec bs < 256 ^ blen bs.
Proof.
  induction bs as [|b bs IH]; simpl; [done|].
  rewrite blen_cons, Z.pow_add_r by (pose proof (blen_nonneg bs); lia).
  pose proof (b2z_bounds b). lia.
Qed.

Lemma length_le_enc n z : length (le_enc n z) = n.
Proof. revert z. induction n; intros; simpl; auto. Qed.

Lemma blen_le_enc n z : blen (le_enc n z) = Z.of_nat n.
Proof. unfold blen. by rewrite length_le_enc. Qed.

Lemma le_dec_enc n z : le_dec (le_enc n z) = z mod 256 ^ Z.of_nat n.
Proof.
  revert z. induction n as [|n IH]; intros z.
  - simpl. by rewrite Z.mod_1_r.
  - cbn [le_enc le_dec]. rewrite IH, b2z_z2b, Nat2Z.inj_succ, Z.pow_succ_r by lia.
    rewrite (Z.rem_mul_r z 256); [lia|lia|]. apply Z.pow_pos_nonneg; lia.
Qed.

Lemma le_dec_enc_small n z : 0 <= z < 256 ^ Z.of_nat n -> le_dec (le_enc n z) = z.
Proof. intros. rewrite le_dec_enc. by apply Z.mod_small. Qed.

Lemma le_enc_dec bs : le_enc (length bs) (le_dec bs) = bs.
Proof.
  induction bs as [|b bs IH]; [done|]. cbn [length le_enc le_dec].
  pose proof (b2z_bounds b). f_equal.
  - apply b2z_inj. rewrite b2z_z2b, Z.mul_comm, Z_mod_plus_full.
    by apply Z.mod_small.
  - rewrite Z.mul_comm, Z.div_add, Z.div_small by lia. apply IH.
Qed.

Lemma le_dec_inj bs bs' : length bs = length bs' -> le_dec bs = le_dec bs' -> bs = bs'.
Proof. intros Hl Hd. by rewrite <-(le_enc_dec bs), <-(le_enc_dec bs'), Hl, Hd. Qed.

Lemma rd_le_Ok {E} n l off z :
  rd_le (E := E) n l off = Ok z <->
    (0 <= off /\ 0 <= n /\ off + n <= blen l) /\ z = le_dec (sub l off (off + n)).
Proof.
  unfold rd_le. rewrite bind_Ok. split.
  - intros (bs & Hs & Hz). apply slice_Ok in Hs as [? ->].
    injection Hz as <-. split; [lia|done].
  - intros [? ->]. eexists. split; [|done]. apply slice_Ok. split; [lia|done].
Qed.

Lemma rd_le_post {E} n l off (Q : Z -> Prop) (QE : E -> Prop) :
  0 <= off -> 0 <= n -> off + n <= blen l ->
  (forall z, z = le_dec (sub l off (off + n)) -> 0 <= z < 256 ^ n -> Q z) ->
  post (rd_le n l off) Q QE.
Proof.
  intros Ho Hn Hl HQ. unfold rd_le. apply post_bind, slice_post; [lia..|].
  apply HQ; [done|]. pose proof (le_dec_bounds (sub l off (off + n))) as Hb.
  rewrite blen_sub in Hb by lia. by replace (off + n - off) with n in Hb by lia.
Qed.

(** Reads of a buffer that starts with a written field. *)
Lemma rd_le_enc {E} n z l off (k : list byte) :
  0 <= z < 256 ^ Z.of_nat n -> blen k = off ->
  rd_le (E := E) (Z.of_nat n) (k ++ le_enc n z ++ l) off = Ok z.
Proof.
  intros Hz <-. apply rd_le_Ok. pose proof (blen_nonneg k).
  rewrite !blen_app, blen_le_enc. pose proof (blen_nonneg l). split; [lia|].
  rewrite sub_app_r by lia. rewrite Z.sub_diag, sub_app_l by (rewrite ?blen_le_enc; lia).
  replace (blen k + Z.of_nat n - blen k) with (blen (le_enc n z))
    by (rewrite blen_le_enc; lia).
  by rewrite sub_full, le_dec_enc_small.
Qed.

(** ** Strings *)

(** A Rust [String] is the list of its Unicode scalar values. *)
Abbreviation ustring := (list Z).

(** A string literal of the source (ASCII). *)
Fixpoint us (s : String.string) : ustring :=
  match s with
  | String.EmptyString => []
  | String.String c s => Z.of_nat (Ascii.nat_of_ascii c) :: us s
  end.
Arguments us _%_string_scope.

(** Number of UTF-8 bytes of a scalar value, and of a string ([str::len]). *)
Definition len_utf8 (c : Z) : Z :=
  if c <? 0x80 then 1 else if c <? 0x800 then 2 else if c <? 0x10000 then 3 else 4.
Definition str_len (s : ustring) : Z := foldr (fun c n => len_utf8 c + n) 0 s.

(** ** Tactics *)

(** Splits an equation [m = Ok r] along the binds and guards of [m]. *)
Ltac ok_step :=
  match goal with
  | H : true = false |- _ => discriminate H
  | H : false = true |- _ => discriminate H
  | H : _ ≫= _ = Ok _ |- _ => apply bind_Ok in H as (? & ? & H)
  | H : mret _ = Ok _ |- _ => injection H as H
  | H : Ok _ = Ok _ |- _ => injection H as H
  | H : Err _ = Ok _ |- _ => discriminate H
  | H : Panic = Ok _ |- _ => discriminate H
  | H : Diverge = Ok _ |- _ => discriminate H
  | H : slice _ _ _ = Ok _ |- _ => apply slice_Ok in H as [(? & ? & ?) ->]
  | H : rd_le _ _ _ = Ok _ |- _ => apply rd_le_Ok in H as [(? & ? & ?) ?]
  | H : index _ _ = Ok _ |- _ => apply index_Ok in H
  | H : lift _ = Ok _ |- _ => apply lift_Ok in H
  | H : map_err _ _ = Ok _ |- _ => apply map_err_Ok in H
  | H : (if ?b then _ else _) = Ok _ |- _ => let Hb := fresh "Hb" in destruct b eqn:Hb
  end.
Ltac ok_inv := repeat (ok_step; try subst).

(** Boolean tests of the source as arithmetic for [lia]. *)
Ltac bool_to_prop :=
  repeat match goal with
  | H : negb _ = true |- _ => apply negb_true_iff in H
  | H : negb _ = false |- _ => apply negb_false_iff in H
  | H : _ && _ = true |- _ => apply andb_true_iff in H as [? ?]
  | H : _ || _ = false |- _ => apply orb_false_iff in H as [? ?]
  | H : bool_decide _ = true |- _ => apply bool_decide_eq_true in H
  | H : bool_decide _ = false |- _ => apply bool_decide_eq_false in H
  end.

(** Lengths of buffers as linear arithmetic. *)
Create HintDb blen discriminated.
#[export] Hint Rewrite @blen_nil @blen_cons @blen_app @blen_replicate @blen_le_enc
  @blen_insert : blen.
Ltac blen_lia := autorewrite with blen in *; lia.

(** [lia] with division and remainder by constants. *)
Ltac zdm := Z.div_mod_to_equations; lia.

(** Splits a total-correctness goal along the binds and guards of its outcome. *)
Ltac post_step :=
  match goal with
  | |- post (_ ≫= _) _ _ => apply post_bind
  | |- post (slice_from _ _) _ _ => unfold slice_from
  | |- post (slice _ _ _) _ _ => apply slice_post; [lia|lia|lia|]
  | |- post (rd_le _ _ _) _ _ =>
      apply rd_le_post; [lia|lia|rewrite ?blen_sub by lia; lia|intros ? _ ?]
  | |- post (index _ _) _ _ => apply index_post; [rewrite ?blen_sub by lia; lia|intros ? ?]
  | |- post (mret _) _ _ => simpl
  | |- post (Ok _) _ _ => simpl
  | |- post (Err _) _ _ => simpl
  | |- post (if ?b then _ else _) _ _ => let Hb := fresh "Hb" in destruct b eqn:Hb
  end.
Ltac post_auto := repeat post_step; try done.

(** The same for goals up to named failures. *)
Ltac upto_step :=
  match goal with
  | |- upto _ _ (_ ≫= _) _ => apply upto_bind
  | |- upto _ _ (slice_from _ _) _ => unfold slice_from
  | |- upto _ _ (slice _ _ _) _ =>
      apply (upto_post _ _ (fun _ => True)), slice_post; [lia|lia|lia|]
  | |- upto _ _ (rd_le _ _ _) _ =>
      apply (upto_post _ _ (fun _ => True)), rd_le_post;
        [lia|lia|rewrite ?blen_sub by lia; lia|intros ? ? ?]
  | |- upto _ _ (index _ _) _ =>
      apply (upto_post _ _ (fun _ => True)), index_post;
        [rewrite ?blen_sub by lia; lia|intros ? ?]
  | |- upto _ _ (mret _) _ => simpl
  | |- upto _ _ (Ok _) _ => simpl
  | |- upto _ _ (Err _) _ => simpl
  | |- upto _ _ (lift _) _ => apply upto_lift
  | |- upto _ _ (if ?b then _ else _) _ => let Hb := fresh "Hb" in destruct b eqn:Hb
  end.
Ltac upto_auto := repeat upto_step; try done.
