(* ===== verification/Text.v ===== *)
(** Text conversions of the Rust standard library that the engine uses:
    [str::split], [join], [usize::to_string], [uN::from_str_radix],
    [trim_start_matches], hexadecimal formatting, and the lossy decoders of UTF-16LE and UTF-8. *)
From S2P Require Import Prelude.

(** ** Splitting and joining *)

(** [s.split(sep)] for one separator character: at least one part. *)
Fixpoint split_on (sep : Z) (s : ustring) : list ustring :=
  match s with
  | [] => [[]]
  | c :: s =>
      if c =? sep then [] :: split_on sep s
      else match split_on sep s with
           | [] => [[c]]
           | p :: ps => (c :: p) :: ps
           end
  end.

(** [parts.join(sep)] *)
Fixpoint join (sep : ustring) (parts : list ustring) : ustring :=
  match parts with
  | [] => []
  | [p] => p
  | p :: ps => p ++ sep ++ join sep ps
  end.

(** [s.split_once]-like search: the text before and after the first [sep]. *)
Fixpoint break_at (sep : Z) (s : ustring) : option (ustring * ustring) :=
  match s with
  | [] => None
  | c :: s =>
      if c =? sep then Some ([], s)
      else match break_at sep s with
           | Some (a, b) => Some (c :: a, b)
           | None => None
           end
  end.

(** [s.rsplit_once(sep)]. *)
Definition rsplit_once (sep : Z) (s : ustring) : option (ustring * ustring) :=
  match break_at sep (rev s) with Some (b, a) => Some (rev a, rev b) | None => None end.

(** [s.trim_start_matches("0x")]: removes the prefix as often as it occurs. *)
Fixpoint trim_0x (s : ustring) : ustring :=
  match s with
  | 48 :: 120 :: s' => trim_0x s'
  | _ => s
  end.

(** ** Numbers *)

Definition is_ascii_digit (c : Z) : bool := (48 <=? c) && (c <=? 57).

(** [char::to_digit(radix)]. *)
Definition to_digit (radix c : Z) : option Z :=
  let d := if (48 <=? c) && (c <=? 57) then Some (c - 48)
           else if (97 <=? c) && (c <=? 122) then Some (c - 87)
           else if (65 <=? c) && (c <=? 90) then Some (c - 55)
           else None in
  v ← d; if v <? radix then Some v else None.

(** The digit loop of [from_str_radix] with its overflow check. *)
Fixpoint digits_value (radix max acc : Z) (s : ustring) : option Z :=
  match s with
  | [] => Some acc
  | c :: s =>
      d ← to_digit radix c;
      let v := acc * radix + d in
      if max <? v then None else digits_value radix max v s
  end.

(** [uN::from_str_radix]: an optional plus sign, then at least one digit. *)
Definition parse_uint (radix max : Z) (s : ustring) : option Z :=
  match s with
  | [] => None
  | [c] => if c =? 43 then None else digits_value radix max 0 s
  | c :: s' => if c =? 43 then digits_value radix max 0 s' else digits_value radix max 0 s
  end.

Definition parse_usize (s : ustring) : option Z := parse_uint 10 usize_max s.

(** [usize::to_string]. *)
Fixpoint dec_digits (fuel : nat) (n : Z) (acc : ustring) : ustring :=
  match fuel with
  | O => acc
  | S fuel =>
      let acc := (48 + n mod 10) :: acc in
      if n <? 10 then acc else dec_digits fuel (n / 10) acc
  end.
(** 64 digits are more than a 64-bit value has. *)
Definition dec_string (n : Z) : ustring := dec_digits 64 n [].

(** ** Formatting *)

Definition hex_digit (d : Z) : Z := if d <? 10 then 48 + d else 87 + d.
(** The digits of [{:x}]. *)
Fixpoint hex_digits (fuel : nat) (n : Z) (acc : ustring) : ustring :=
  match fuel with
  | O => acc
  | S fuel =>
      let acc := hex_digit (n mod 16) :: acc in
      if n <? 16 then acc else hex_digits fuel (n / 16) acc
  end.
(** [{:#x}] of a [usize]: at most sixteen digits. *)
Definition fmt_hex (n : Z) : ustring := us "0x" ++ hex_digits 16 n [].
(** [{:02x}] of a [u8]. *)
Definition fmt_02x (b : byte) : ustring := [hex_digit (b2z b / 16); hex_digit (b2z b mod 16)].
(** [{:#04x}] of a [u8]. *)
Definition fmt_04x (b : byte) : ustring := us "0x" ++ fmt_02x b.

(** ** Lossy decoders *)

(** The 16-bit units of a byte buffer ([chunks_exact(2)]). *)
Fixpoint utf16_units (bs : list byte) : list Z :=
  match bs with
  | a :: b :: bs => le_dec [a; b] :: utf16_units bs
  | _ => []
  end.

Definition REPLACEMENT : Z := 0xFFFD.

(** [String::from_utf16_lossy]: a surrogate pair is one character, a lone
    surrogate the replacement character. *)
Fixpoint from_utf16_lossy (us : list Z) : ustring :=
  match us with
  | [] => []
  | u :: us =>
      if (0xD800 <=? u) && (u <? 0xDC00) then
        match us with
        | v :: us' =>
            if (0xDC00 <=? v) && (v <? 0xE000)
            then (0x10000 + (u - 0xD800) * 0x400 + (v - 0xDC00)) :: from_utf16_lossy us'
            else REPLACEMENT :: from_utf16_lossy us
        | [] => [REPLACEMENT]
        end
      else if (0xDC00 <=? u) && (u <? 0xE000) then REPLACEMENT :: from_utf16_lossy us
      else u :: from_utf16_lossy us
  end.

(** The admissible second bytes after a lead byte, and the number of
    continuation bytes (Unicode, table 3-7). *)
Definition utf8_lead (b : Z) : option (nat * Z * Z * Z) :=
  if (0xC2 <=? b) && (b <=? 0xDF) then Some (1%nat, b - 0xC0, 0x80, 0xBF)
  else if b =? 0xE0 then Some (2%nat, 0, 0xA0, 0xBF)
  else if (0xE1 <=? b) && (b <=? 0xEC) then Some (2%nat, b - 0xE0, 0x80, 0xBF)
  else if b =? 0xED then Some (2%nat, 0xD, 0x80, 0x9F)
  else if (0xEE <=? b) && (b <=? 0xEF) then Some (2%nat, b - 0xE0, 0x80, 0xBF)
  else if b =? 0xF0 then Some (3%nat, 0, 0x90, 0xBF)
  else if (0xF1 <=? b) && (b <=? 0xF3) then Some (3%nat, b - 0xF0, 0x80, 0xBF)
  else if b =? 0xF4 then Some (3%nat, 4, 0x80, 0x8F)
  else None.

(** State of the decoder inside a sequence: continuation bytes left, value so
    far, bounds of the next byte. *)
Fixpoint utf8_go (bs : list Z) (st : option (nat * Z * Z * Z)) : ustring :=
  match bs with
  | [] => match st with Some _ => [REPLACEMENT] | None => [] end
  | b :: bs =>
      let fresh (_ : unit) :=
        if b <? 0x80 then b :: utf8_go bs None
        else match utf8_lead b with
             | Some s => utf8_go bs (Some s)
             | None => REPLACEMENT :: utf8_go bs None
             end in
      match st with
      | Some (n, acc, lo, hi) =>
          if (lo <=? b) && (b <=? hi) then
            let acc := acc * 64 + (b - 0x80) in
            match n with
            | S (S m) => utf8_go bs (Some (S m, acc, 0x80, 0xBF))
            | _ => acc :: utf8_go bs None
            end
          else REPLACEMENT :: fresh tt
      | None => fresh tt
      end
  end.

(** [String::from_utf8_lossy]: each maximal invalid prefix is one replacement
    character. *)
Definition from_utf8_lossy (bs : list byte) : ustring := utf8_go (map b2z bs) None.

(** ** Encoders and substrings *)

(** [str::as_bytes]: the UTF-8 bytes of one scalar value, and of a string. *)
Definition utf8_char (c : Z) : list byte :=
  if c <? 0x80 then [z2b c]
  else if c <? 0x800 then [z2b (0xC0 + c / 0x40); z2b (0x80 + c mod 0x40)]
  else if c <? 0x10000 then
    [z2b (0xE0 + c / 0x1000); z2b (0x80 + c / 0x40 mod 0x40); z2b (0x80 + c mod 0x40)]
  else [z2b (0xF0 + c / 0x40000); z2b (0x80 + c / 0x1000 mod 0x40);
        z2b (0x80 + c / 0x40 mod 0x40); z2b (0x80 + c mod 0x40)].
Definition as_bytes (s : ustring) : list byte := concat (map utf8_char s).

(** [str::encode_utf16]. *)
Definition utf16_char (c : Z) : list Z :=
  if c <? 0x10000 then [c]
  else [0xD800 + (c - 0x10000) / 0x400; 0xDC00 + (c - 0x10000) mod 0x400].
Definition encode_utf16 (s : ustring) : list Z := concat (map utf16_char s).

(** [char::is_whitespace]: the Unicode property White_Space. *)
Definition is_whitespace (c : Z) : bool :=
  ((9 <=? c) && (c <=? 13)) || (c =? 32) || (c =? 0x85) || (c =? 0xA0) || (c =? 0x1680)
  || ((0x2000 <=? c) && (c <=? 0x200A)) || (c =? 0x2028) || (c =? 0x2029) || (c =? 0x202F)
  || (c =? 0x205F) || (c =? 0x3000).

Section Substrings.
Context {A : Type} `{EqDecision A}.
Fixpoint starts_with (s p : list A) : bool :=
  match p, s with
  | [], _ => true
  | b :: p, a :: s => bool_decide (a = b) && starts_with s p
  | _ :: _, [] => false
  end.

(** [str::contains] of a string, and [windows(n).any(|w| w == p)] for a needle
    that is not empty. *)
Fixpoint contains (s p : list A) : bool :=
  starts_with s p || match s with [] => false | _ :: s => contains s p end.

Lemma starts_with_spec s p : starts_with s p = true <-> exists r, s = p ++ r.
Proof.
  revert s. induction p as [|b p IH]; intros s; [split; [intros _; by exists s|by destruct s]|].
  destruct s as [|a s]; simpl; [split; [done|]; by intros [r ?]|].
  rewrite andb_true_iff, bool_decide_eq_true, IH. split.
  - intros [-> [r ->]]. by exists r.
  - intros [r [= -> ->]]. split; [done|]. by exists r.
Qed.

Lemma contains_spec s p : contains s p = true <-> exists l r, s = l ++ p ++ r.
Proof.
  induction s as [|a s IH]; cbn [contains]; rewrite orb_true_iff, starts_with_spec.
  - split.
    + intros [[r Hr]|]; [|done]. by exists [], r.
    + intros (l & r & Hr). left. symmetry in Hr. apply app_eq_nil in Hr as [_ Hr].
      exists r. by symmetry.
  - rewrite IH. split.
    + intros [[r ->]|(l & r & ->)]; [by exists [], r|by exists (a :: l), r].
    + intros ([|x l] & r & Hr); [left; by exists r|right]. injection Hr as _ ->. by exists l, r.
Qed.
End Substrings.

(** ** Lemmas *)

Lemma split_on_none sep s : Forall (fun c => c <> sep) s -> split_on sep s = [s].
Proof.
  induction 1 as [|c s Hc _ IH]; simpl; [done|].
  destruct (Z.eqb_spec c sep); [done|]. by rewrite IH.
Qed.

Lemma split_on_app sep p s :
  Forall (fun c => c <> sep) p ->
  split_on sep (p ++ sep :: s) = p :: split_on sep s.
Proof.
  induction 1 as [|c p Hc _ IH]; simpl; [by rewrite Z.eqb_refl|].
  destruct (Z.eqb_spec c sep); [done|]. by rewrite IH.
Qed.

Lemma split_join sep ps :
  ps <> [] -> Forall (Forall (fun c => c <> sep)) ps -> split_on sep (join [sep] ps) = ps.
Proof.
  intros Hne Hps. induction Hps as [|p ps Hp Hps IH]; [done|].
  destruct ps as [|p' ps]; simpl; [by apply split_on_none|].
  change ([sep] ++ join [sep] (p' :: ps)) with (sep :: join [sep] (p' :: ps)).
  simpl app. rewrite split_on_app by done. f_equal. by apply IH.
Qed.

Lemma break_at_none sep s : Forall (fun c => c <> sep) s -> break_at sep s = None.
Proof.
  induction 1 as [|c s Hc _ IH]; simpl; [done|].
  destruct (Z.eqb_spec c sep); [done|]. by rewrite IH.
Qed.

(** The value of a decimal text read from the left. *)
Lemma digits_value_app radix max acc s t :
  digits_value radix max acc (s ++ t) =
  (v ← digits_value radix max acc s; digits_value radix max v t).
Proof.
  revert acc. induction s as [|c s IH]; intros acc; simpl; [done|].
  destruct (to_digit radix c); simpl; [|done]. destruct (max <? _); [done|]. apply IH.
Qed.

Lemma to_digit_dec d : 0 <= d < 10 -> to_digit 10 (48 + d) = Some d.
Proof.
  intros. unfold to_digit. replace ((48 <=? 48 + d) && (48 + d <=? 57)) with true by lia.
  simpl. replace (48 + d - 48) with d by lia. by replace (d <? 10) with true by lia.
Qed.

Lemma digits_value_digit max acc d :
  0 <= d < 10 -> acc * 10 + d <= max -> digits_value 10 max acc [48 + d] = Some (acc * 10 + d).
Proof.
  intros Hd Hm. cbn [digits_value]. rewrite to_digit_dec by done.
  change (mbind ?k (Some d)) with (k d). cbv beta zeta.
  destruct (Z.ltb_spec max (acc * 10 + d)); [lia|done].
Qed.

Lemma dec_digits_app fuel n acc : dec_digits fuel n acc = dec_digits fuel n [] ++ acc.
Proof.
  revert n acc. induction fuel as [|f IH]; intros n acc; simpl; [done|].
  destruct (n <? 10); [done|].
  rewrite IH, (IH _ [_]), <-app_assoc. done.
Qed.

Lemma dec_digits_value fuel n :
  0 <= n <= usize_max -> (0 < fuel)%nat -> n < 10 ^ Z.of_nat fuel ->
  digits_value 10 usize_max 0 (dec_digits fuel n []) = Some n.
Proof.
  revert n. induction fuel as [|f IH]; intros n Hn Hpos Hf; [lia|].
  rewrite Nat2Z.inj_succ, Z.pow_succ_r in Hf by lia. cbn [dec_digits].
  assert (0 <= n mod 10 < 10) by (apply Z.mod_pos_bound; lia).
  destruct (Z.ltb_spec n 10).
  - rewrite digits_value_digit by zdm. f_equal. zdm.
  - assert (0 < f)%nat by (destruct f; [simpl in Hf; lia|lia]).
    rewrite dec_digits_app, digits_value_app, IH by (lia || zdm).
    change (mbind ?k (Some ?a)) with (k a). cbv beta.
    rewrite digits_value_digit by zdm. f_equal. zdm.
Qed.

Lemma dec_digits_chars fuel n acc :
  Forall (fun c => is_ascii_digit c = true) acc ->
  Forall (fun c => is_ascii_digit c = true) (dec_digits fuel n acc).
Proof.
  revert n acc. induction fuel as [|f IH]; intros n acc Ha; simpl; [done|].
  assert (is_ascii_digit (48 + n mod 10) = true).
  { unfold is_ascii_digit. pose proof (Z.mod_pos_bound n 10). lia. }
  destruct (n <? 10); auto.
Qed.

Lemma dec_string_chars n : Forall (fun c => is_ascii_digit c = true) (dec_string n).
Proof. apply dec_digits_chars. constructor. Qed.

Lemma dec_digits_nonempty f n : dec_digits (S f) n [] <> [].
Proof.
  cbn [dec_digits]. destruct (n <? 10); [done|].
  rewrite dec_digits_app. by intros [_ ?]%app_eq_nil.
Qed.

Lemma dec_string_nonempty n : dec_string n <> [].
Proof. apply (dec_digits_nonempty 63). Qed.

Lemma parse_usize_dec n : 0 <= n <= usize_max -> parse_usize (dec_string n) = Some n.
Proof.
  intros Hn. unfold parse_usize, parse_uint.
  assert (digits_value 10 usize_max 0 (dec_string n) = Some n) as Hv
    by (apply dec_digits_value; [done|lia|unfold usize_max in *; lia]).
  pose proof (dec_string_chars n) as Hc. pose proof (dec_string_nonempty n).
  destruct (dec_string n) as [|c s]; [done|]. apply Forall_cons in Hc as [Hc _].
  unfold is_ascii_digit in Hc. replace (c =? 43) with false by lia. by destruct s.
Qed.
