(* ===== verification/Types.v ===== *)
(** The data of the engine ([crates/uefi-engine/src/types.rs]): the enums with
    their [repr(u8)] codes, the parsed tree [FfsNode], images and targets, and
    the interface of the external crate [uguid]. *)
From S2P Require Import Prelude.

(** ** The external crate [uguid] *)

(** Hyphenated 8-4-4-4-12 hexadecimal text. *)
Definition is_hex_digit (c : Z) : bool :=
  ((48 <=? c) && (c <=? 57)) || ((65 <=? c) && (c <=? 70)) || ((97 <=? c) && (c <=? 102)).
Definition guid_text_ok (s : ustring) : bool :=
  (Nat.eqb (length s) 36) &&
  forallb (fun ic : nat * Z =>
             let '(i, c) := ic in
             if bool_decide (i ∈ [8; 13; 18; 23]%nat) then c =? 45 else is_hex_digit c)
          (imap pair s).

(** [char::to_ascii_uppercase] on every character ([str::to_ascii_uppercase]). *)
Definition to_ascii_uppercase (s : ustring) : ustring :=
  map (fun c => if (97 <=? c) && (c <=? 122) then c - 32 else c) s.

(** [uguid::Guid]: a 16-byte value with a textual form. The laws state the
    documented behaviour the engine relies on: [to_bytes]/[from_bytes] are
    inverse on 16-byte arrays, the parser accepts hyphenated hexadecimal text of
    either case, and [Display] prints text that parses back. *)
Class GuidLib := {
  Guid : Type;
  Guid_eq_dec :: EqDecision Guid;
  guid_to_bytes : Guid -> list byte;
  guid_of_array : list byte -> Guid;
  guid_to_string : Guid -> ustring;
  guid_try_parse : ustring -> option Guid;
  length_guid_to_bytes : forall g, length (guid_to_bytes g) = 16%nat;
  guid_of_to_bytes : forall g, guid_of_array (guid_to_bytes g) = g;
  guid_to_of_bytes : forall bs, length bs = 16%nat -> guid_to_bytes (guid_of_array bs) = bs;
  guid_parse_text : forall s, guid_text_ok s = true -> is_Some (guid_try_parse s);
  guid_parse_display : forall g,
    guid_try_parse (to_ascii_uppercase (guid_to_string g)) = Some g;
  guid_display_text : forall g, guid_text_ok (guid_to_string g) = true
}.

(** [Guid::try_parse("...").unwrap()] on a literal. *)
Definition guid_const {GL : GuidLib} (s : ustring) : Guid :=
  default (guid_of_array (replicate 16 x00)) (guid_try_parse s).

Section Types.
Context {GL : GuidLib}.

Definition guid_to_upper_string (g : Guid) : ustring :=
  to_ascii_uppercase (guid_to_string g).

Inductive FfsType :=
| T_Root | T_Capsule | T_Image | T_Region | T_Padding | T_Volume | T_File
| T_Section | T_FreeSpace.

#[export] Instance FfsType_eq_dec : EqDecision FfsType.
Proof. solve_decision. Defined.

(** [node_type as u32]. *)
Definition ffs_type_code (t : FfsType) : Z :=
  match t with
  | T_Root => 60 | T_Capsule => 61 | T_Image => 62 | T_Region => 63
  | T_Padding => 64 | T_Volume => 65 | T_File => 66 | T_Section => 67
  | T_FreeSpace => 68
  end.

Inductive Action :=
| NoAction | A_Create | A_Insert | A_Replace | A_Remove | A_Rebuild | A_Rebase.

#[export] Instance Action_eq_dec : EqDecision Action.
Proof. solve_decision. Defined.

(** [action as u32]. *)
Definition action_code (a : Action) : Z :=
  match a with
  | NoAction => 50 | A_Create => 51 | A_Insert => 52 | A_Replace => 53
  | A_Remove => 54 | A_Rebuild => 55 | A_Rebase => 56
  end.

Record VolumeParsingData := {
  extended_header_guid : option Guid;
  alignment : Z;
  ffs_version : Z;
  empty_byte : byte;
  revision : byte
}.
Record FileParsingData := {
  fd_empty_byte : byte;
  fd_guid : Guid
}.
Record GuidedSectionParsingData := {
  gs_guid : Guid;
  gs_dictionary_size : Z
}.
Record CompressedSectionParsingData := {
  uncompressed_size : Z;
  compression_type : byte;
  algorithm : byte;
  cs_dictionary_size : Z
}.

Inductive FlashRegionKind :=
| R_Descriptor | R_Bios | R_Me | R_Gbe | R_Pdr | R_DevExpansion1
| R_SecondaryBios | R_Microcode | R_Ec | R_DevExpansion2 | R_Ie | R_Tgbe1
| R_Tgbe2 | R_Reserved1 | R_Reserved2 | R_Ptt.

#[export] Instance FlashRegionKind_eq_dec : EqDecision FlashRegionKind.
Proof. solve_decision. Defined.

Definition from_flreg_index (i : Z) : option FlashRegionKind :=
  match i with
  | 0 => Some R_Descriptor
  | 1 => Some R_Bios
  | 2 => Some R_Me
  | 3 => Some R_Gbe
  | 4 => Some R_Pdr
  | 5 => Some R_DevExpansion1
  | 6 => Some R_SecondaryBios
  | 7 => Some R_Microcode
  | 8 => Some R_Ec
  | 9 => Some R_DevExpansion2
  | 10 => Some R_Ie
  | 11 => Some R_Tgbe1
  | 12 => Some R_Tgbe2
  | 13 => Some R_Reserved1
  | 14 => Some R_Reserved2
  | 15 => Some R_Ptt
  | _ => None
  end.

Definition region_label (k : FlashRegionKind) : ustring :=
  match k with
  | R_Descriptor => us "Descriptor"
  | R_Bios => us "BIOS"
  | R_Me => us "ME"
  | R_Gbe => us "GbE"
  | R_Pdr => us "PDR"
  | R_DevExpansion1 => us "Dev Expansion 1"
  | R_SecondaryBios => us "Secondary BIOS"
  | R_Microcode => us "Microcode"
  | R_Ec => us "EC"
  | R_DevExpansion2 => us "Dev Expansion 2"
  | R_Ie => us "IE"
  | R_Tgbe1 => us "10GbE 1"
  | R_Tgbe2 => us "10GbE 2"
  | R_Reserved1 => us "Reserved 1"
  | R_Reserved2 => us "Reserved 2"
  | R_Ptt => us "PTT"
  end.

Inductive ParsingData :=
| PD_None
| PD_Volume (d : VolumeParsingData)
| PD_File (d : FileParsingData)
| PD_GuidedSection (d : GuidedSectionParsingData)
| PD_CompressedSection (d : CompressedSectionParsingData)
| PD_Region (kind : FlashRegionKind)
| PD_FptPartition (name : ustring).

Inductive FfsNode := mkNode {
  n_guid : option Guid;
  node_type : FfsType;
  subtype : byte;
  offset : Z;
  header : list byte;
  body : list byte;
  tail : list byte;
  children : list FfsNode;
  action : Action;
  parsing_data : ParsingData;
  fixed : bool;
  compressed : bool;
  alignment_bytes : list byte
}.

Inductive ImageMode := IM_Read | IM_Write.

#[export] Instance ImageMode_eq_dec : EqDecision ImageMode.
Proof. solve_decision. Defined.

Record Image := {
  image_id : ustring;
  session_id : ustring;
  root : FfsNode;
  mode : ImageMode
}.

Inductive Target :=
| TG_Guid (g : Guid)
| TG_Path (indices : list Z)
| TG_GuidSection (g : Guid) (section_type : byte) (section_index : option Z).

(** ** Assignments to one field of a node *)

Definition set_action (a : Action) (n : FfsNode) : FfsNode :=
  let '(mkNode g t st o h b tl ch _ pd fx cp al) := n in
  mkNode g t st o h b tl ch a pd fx cp al.
Definition set_children (ch : list FfsNode) (n : FfsNode) : FfsNode :=
  let '(mkNode g t st o h b tl _ a pd fx cp al) := n in
  mkNode g t st o h b tl ch a pd fx cp al.
Definition set_body (b : list byte) (n : FfsNode) : FfsNode :=
  let '(mkNode g t st o h _ tl ch a pd fx cp al) := n in
  mkNode g t st o h b tl ch a pd fx cp al.
Definition set_header (h : list byte) (n : FfsNode) : FfsNode :=
  let '(mkNode g t st o _ b tl ch a pd fx cp al) := n in
  mkNode g t st o h b tl ch a pd fx cp al.
Definition set_offset (o : Z) (n : FfsNode) : FfsNode :=
  let '(mkNode g t st _ h b tl ch a pd fx cp al) := n in
  mkNode g t st o h b tl ch a pd fx cp al.

(** The bytes of a node as they were read: header, body and tail. *)
Definition raw (n : FfsNode) : list byte := header n ++ body n ++ tail n.

(** ** Induction over the tree *)

Lemma FfsNode_tree_ind (P : FfsNode -> Prop) :
  (forall n, Forall P (children n) -> P n) -> forall n, P n.
Proof.
  intros Hstep. fix IH 1. intros n. apply Hstep.
  destruct n as [g t st o h b tl ch a pd fx cp al]. simpl.
  induction ch as [|c ch IHch]; constructor; [apply IH|exact IHch].
Qed.

(** Every node of a tree satisfies [P]. *)
Inductive everywhere (P : FfsNode -> Prop) : FfsNode -> Prop :=
| everywhere_node n : P n -> Forall (everywhere P) (children n) -> everywhere P n.

Lemma everywhere_mono (P Q : FfsNode -> Prop) n :
  (forall m, P m -> Q m) -> everywhere P n -> everywhere Q n.
Proof.
  intros HPQ. induction n as [n IH] using FfsNode_tree_ind.
  intros H. inversion H as [? Hp Hc]; subst. constructor; [by apply HPQ|].
  rewrite !Forall_forall in *. eauto.
Qed.

(** A boolean test on every node. *)
Fixpoint all_nodes (f : FfsNode -> bool) (n : FfsNode) : bool :=
  f n && forallb (all_nodes f) (children n).

Lemma all_nodes_everywhere (P : FfsNode -> Prop) f n :
  (forall m, f m = true -> P m) -> all_nodes f n = true -> everywhere P n.
Proof.
  intros Hf. induction n as [n IH] using FfsNode_tree_ind. intros H.
  assert (f n && forallb (all_nodes f) (children n) = true) as [Hn Hc]%andb_true_iff
    by (by destruct n). constructor; [by apply Hf|].
  rewrite forallb_forall in Hc. rewrite Forall_forall in *. intros c Hin.
  apply IH; [done|]. by apply Hc, list_elem_of_In.
Qed.

(** Number of nodes of a tree. *)
Fixpoint tree_size (n : FfsNode) : nat :=
  S (sum_list_with tree_size (children n)).

End Types.

#[export] Hint Constructors everywhere : core.
Arguments set_action : simpl never.
Arguments set_children : simpl never.
Arguments set_body : simpl never.
Arguments set_header : simpl never.
Arguments set_offset : simpl never.

Section Setters.
Context {GL : GuidLib}.
Implicit Types (n : FfsNode).

(** Projections of updated nodes, as one rewrite database. *)
Ltac setter := intros; match goal with |- _ = ?r => idtac end;
  match goal with n : FfsNode |- _ => by destruct n end.

Lemma action_set_action a n : action (set_action a n) = a. Proof. setter. Qed.
Lemma children_set_action a n : children (set_action a n) = children n. Proof. setter. Qed.
Lemma body_set_action a n : body (set_action a n) = body n. Proof. setter. Qed.
Lemma header_set_action a n : header (set_action a n) = header n. Proof. setter. Qed.
Lemma tail_set_action a n : tail (set_action a n) = tail n. Proof. setter. Qed.
Lemma node_type_set_action a n : node_type (set_action a n) = node_type n. Proof. setter. Qed.
Lemma subtype_set_action a n : subtype (set_action a n) = subtype n. Proof. setter. Qed.
Lemma pd_set_action a n : parsing_data (set_action a n) = parsing_data n. Proof. setter. Qed.
Lemma action_set_children c n : action (set_children c n) = action n. Proof. setter. Qed.
Lemma children_set_children c n : children (set_children c n) = c. Proof. setter. Qed.
Lemma body_set_children c n : body (set_children c n) = body n. Proof. setter. Qed.
Lemma header_set_children c n : header (set_children c n) = header n. Proof. setter. Qed.
Lemma tail_set_children c n : tail (set_children c n) = tail n. Proof. setter. Qed.
Lemma node_type_set_children c n : node_type (set_children c n) = node_type n. Proof. setter. Qed.
Lemma subtype_set_children c n : subtype (set_children c n) = subtype n. Proof. setter. Qed.
Lemma pd_set_children c n : parsing_data (set_children c n) = parsing_data n. Proof. setter. Qed.
Lemma offset_set_children c n : offset (set_children c n) = offset n. Proof. setter. Qed.
Lemma guid_set_children c n : n_guid (set_children c n) = n_guid n. Proof. setter. Qed.
Lemma set_children_id n : set_children (children n) n = n. Proof. setter. Qed.
Lemma set_children_twice c c' n : set_children c (set_children c' n) = set_children c n.
Proof. setter. Qed.
Lemma raw_set_children c n : raw (set_children c n) = raw n. Proof. setter. Qed.
Lemma raw_set_action a n : raw (set_action a n) = raw n. Proof. setter. Qed.
Lemma offset_set_action a n : offset (set_action a n) = offset n. Proof. setter. Qed.
Lemma guid_set_action a n : n_guid (set_action a n) = n_guid n. Proof. setter. Qed.
End Setters.

Create HintDb setters discriminated.
#[export] Hint Rewrite @action_set_action @children_set_action @body_set_action
  @header_set_action @tail_set_action @node_type_set_action @subtype_set_action
  @pd_set_action @action_set_children @children_set_children @body_set_children
  @header_set_children @tail_set_children @node_type_set_children
  @subtype_set_children @pd_set_children @offset_set_children @guid_set_children
  @raw_set_children @raw_set_action @offset_set_action @guid_set_action : setters.
