(* ===== verification/Ffs.v ===== *)
(** Constants and byte-level helpers of the PI firmware file system
    ([crates/uefi-engine/src/ffs.rs], [crates/uefi-common/src/pi.rs]) and the
    alignment arithmetic of the builder ([builder/align.rs]). *)
From S2P Require Import Prelude Types.

(** ** [uefi_common::pi] *)

Inductive SectionType :=
| ST_Compression | ST_GuidDefined | ST_Disposable | ST_Pe32 | ST_Pic | ST_Te
| ST_DxeDepex | ST_Version | ST_UserInterface | ST_Compatibility16
| ST_FirmwareVolumeImage | ST_FreeformSubtypeGuid | ST_Raw | ST_PeiDepex
| ST_MmDepex.

(** [SectionType as u8]. *)
Definition section_type_code (t : SectionType) : byte :=
  match t with
  | ST_Compression => x01
  | ST_GuidDefined => x02
  | ST_Disposable => x03
  | ST_Pe32 => x10
  | ST_Pic => x11
  | ST_Te => x12
  | ST_DxeDepex => x13
  | ST_Version => x14
  | ST_UserInterface => x15
  | ST_Compatibility16 => x16
  | ST_FirmwareVolumeImage => x17
  | ST_FreeformSubtypeGuid => x18
  | ST_Raw => x19
  | ST_PeiDepex => x1b
  | ST_MmDepex => x1c
  end.

Inductive FileType :=
| FT_All | FT_Raw | FT_Freeform | FT_SecurityCore | FT_PeiCore | FT_DxeCore | FT_Peim | FT_Driver
| FT_CombinedPeimDriver | FT_Application | FT_Mm | FT_FirmwareVolumeImage | FT_CombinedMmDxe
| FT_MmCore | FT_MmStandalone | FT_MmCoreStandalone | FT_Pad.

(** [FileType as u8]. *)
Definition file_type_code (t : FileType) : byte :=
  match t with
  | FT_All => x00
  | FT_Raw => x01
  | FT_Freeform => x02
  | FT_SecurityCore => x03
  | FT_PeiCore => x04
  | FT_DxeCore => x05
  | FT_Peim => x06
  | FT_Driver => x07
  | FT_CombinedPeimDriver => x08
  | FT_Application => x09
  | FT_Mm => x0a
  | FT_FirmwareVolumeImage => x0b
  | FT_CombinedMmDxe => x0c
  | FT_MmCore => x0d
  | FT_MmStandalone => x0e
  | FT_MmCoreStandalone => x0f
  | FT_Pad => xf0
  end.

Inductive CompressionType := CT_NotCompressed | CT_Standard | CT_Lzma.

Definition compression_type_code (t : CompressionType) : byte :=
  match t with
  | CT_NotCompressed => x00
  | CT_Standard => x01
  | CT_Lzma => x02
  end.

Definition EFI_FVH_SIGNATURE : Z := 0x4856465F.
Definition EFI_FVB2_ERASE_POLARITY : Z := 0x00000800.

(** ** [ffs.rs] *)

Definition EFI_SECTION_COMPRESSION : byte := section_type_code ST_Compression.
Definition EFI_SECTION_GUID_DEFINED : byte := section_type_code ST_GuidDefined.
Definition EFI_SECTION_UI : byte := section_type_code ST_UserInterface.
Definition EFI_SECTION_VERSION : byte := section_type_code ST_Version.
Definition EFI_SECTION_PE32 : byte := section_type_code ST_Pe32.
Definition EFI_SECTION_RAW : byte := section_type_code ST_Raw.
Definition EFI_SECTION_FREEFORM_SUBTYPE_GUID : byte := section_type_code ST_FreeformSubtypeGuid.
Definition EFI_FV_FILETYPE_RAW : byte := file_type_code FT_Raw.
Definition EFI_SECTION_FV_IMAGE : byte := section_type_code ST_FirmwareVolumeImage.

Section Guids.
Context {GL : GuidLib}.

Definition tiano_guid : Guid := guid_const (us "a31280ad-481e-41b6-95e8-127f4c984779").
Definition lzma_guid : Guid := guid_const (us "ee4e5898-3914-4259-9d6e-dc7bd79403cf").
Definition lzma_hp_guid : Guid := guid_const (us "0ed85e23-f253-413f-a03c-901987b04397").
Definition lzma_ms_guid : Guid := guid_const (us "bd9921ea-ed91-404a-8b2f-b4d724747c8c").
Definition lzmaf86_guid : Guid := guid_const (us "d42ae6bd-1352-4bfb-909a-ca72a6eae889").

Definition is_lzma_guid (g : Guid) : bool :=
  let b := guid_to_bytes g in
  bool_decide (b = guid_to_bytes lzma_guid)
  || bool_decide (b = guid_to_bytes lzma_hp_guid)
  || bool_decide (b = guid_to_bytes lzma_ms_guid)
  || bool_decide (b = guid_to_bytes lzmaf86_guid).

Definition is_recompressable_lzma_guid (g : Guid) : bool :=
  let b := guid_to_bytes g in
  bool_decide (b = guid_to_bytes lzma_guid)
  || bool_decide (b = guid_to_bytes lzma_hp_guid)
  || bool_decide (b = guid_to_bytes lzma_ms_guid).

Definition is_tiano_guid (g : Guid) : bool :=
  bool_decide (guid_to_bytes g = guid_to_bytes tiano_guid).

Lemma recompressable_is_lzma g :
  is_recompressable_lzma_guid g = true -> is_lzma_guid g = true.
Proof.
  unfold is_recompressable_lzma_guid, is_lzma_guid. intros H.
  by rewrite H.
Qed.

(** The literals are valid GUID text, so [try_parse(..).unwrap()] succeeds. *)
Lemma guid_const_parses s :
  guid_text_ok s = true -> guid_try_parse s = Some (guid_const s).
Proof.
  intros Hs. apply guid_parse_text in Hs as [g Hg]. unfold guid_const. by rewrite Hg.
Qed.
End Guids.

Definition calculate_checksum8 (data : list byte) : Z :=
  let sum := fold_left (fun acc b => wrap 8 (acc + b2z b)) data 0 in
  wrap 8 (0 - sum).

Definition calculate_checksum16 (data : list byte) : Z :=
  let sum := fold_left (fun sum b => wrap 16 (sum + b2z b)) data 0 in
  wrap 16 (0 - sum).

Definition size_to_uint24 (size : Z) : list byte :=
  [z2b size; z2b (Z.shiftr size 8); z2b (Z.shiftr size 16)].

(** On the three bytes of the argument array. *)
Definition uint24_to_u32 (b0 b1 b2 : byte) : Z :=
  Z.lor (Z.lor (b2z b0) (Z.shiftl (b2z b1) 8)) (Z.shiftl (b2z b2) 16).

Definition is_large_section (header : list byte) : bool :=
  (8 <=? blen header) && bool_decide (get header 0 = Some xff)
  && bool_decide (get header 1 = Some xff) && bool_decide (get header 2 = Some xff).

Definition is_large_ffs (header : list byte) : bool :=
  (32 <=? blen header) && bool_decide (get header 20 = Some xff)
  && bool_decide (get header 21 = Some xff) && bool_decide (get header 22 = Some xff).

(** Reads the three-byte size field at [off] by index (panics when short). *)
Definition read_uint24 {E} (l : list byte) (off : Z) : outcome E Z :=
  b0 ← index l off; b1 ← index l (off + 1); b2 ← index l (off + 2);
  mret (uint24_to_u32 b0 b1 b2).

Definition section_size {E} (header : list byte) : outcome E Z :=
  if is_large_section header then rd_le 4 header 4
  else read_uint24 header 0.

Definition ffs_file_size {E} (header : list byte) : outcome E Z :=
  if is_large_ffs header then
    if 32 <=? blen header then rd_le 4 header 24 else Ok 0
  else read_uint24 header 20.

(** ** [builder/align.rs] *)

Definition FFS_ALIGN : Z := 8.
Definition SECTION_ALIGN : Z := 4.

Definition align_up (offset align : Z) : Z :=
  Z.land (offset + align - 1) (Z.lnot (align - 1)).
Definition align8 (offset : Z) : Z := align_up offset FFS_ALIGN.
Definition align4 (offset : Z) : Z := align_up offset SECTION_ALIGN.

Definition pad_to (buf : list byte) (target : Z) (fill : byte) : list byte :=
  if blen buf <? target then resize_to buf target fill else buf.

(** ** Lemmas *)

Lemma uint24_to_u32_le b0 b1 b2 : uint24_to_u32 b0 b1 b2 = le_dec [b0; b1; b2].
Proof.
  unfold uint24_to_u32. cbn [le_dec].
  pose proof (b2z_bounds b0); pose proof (b2z_bounds b1); pose proof (b2z_bounds b2).
  rewrite !Z.shiftl_mul_pow2 by lia.
  assert (forall a b k, 0 <= k -> 0 <= a < 2 ^ k -> Z.lor a (b * 2 ^ k) = a + b * 2 ^ k) as Hlor.
  { intros a b k Hk Ha. rewrite Z.add_nocarry_lxor, Z.lxor_lor; [done| |].
    all: apply Z.bits_inj'; intros n Hn; rewrite Z.land_spec, Z.bits_0;
      rewrite <-Z.shiftl_mul_pow2, Z.shiftl_spec by lia;
      destruct (Z.ltb_spec n k);
      [rewrite (Z.testbit_neg_r b) by lia; apply andb_false_r|];
      rewrite <-(Z.mod_small a (2 ^ k)) by lia;
      rewrite Z.mod_pow2_bits_high by lia; done. }
  rewrite (Hlor (b2z b0)) by lia. rewrite (Hlor (b2z b0 + _)) by lia. lia.
Qed.

Lemma size_to_uint24_le size : size_to_uint24 size = le_enc 3 size.
Proof.
  unfold size_to_uint24. cbn [le_enc]. rewrite !Z.shiftr_div_pow2 by lia.
  rewrite Z.div_div by lia. done.
Qed.

Lemma uint24_bounds b0 b1 b2 : 0 <= uint24_to_u32 b0 b1 b2 < 2 ^ 24.
Proof. rewrite uint24_to_u32_le. apply (le_dec_bounds [b0; b1; b2]). Qed.

Lemma align_up_pow2 x k :
  0 <= k -> align_up x (2 ^ k) = (x + 2 ^ k - 1) / 2 ^ k * 2 ^ k.
Proof.
  intros. unfold align_up.
  assert (Z.lnot (2 ^ k - 1) = Z.shiftl (-1) k) as ->.
  { rewrite Z.shiftl_mul_pow2 by lia. unfold Z.lnot. lia. }
  rewrite <-Z.shiftl_mul_pow2, <-Z.shiftr_div_pow2 by lia.
  apply Z.bits_inj'. intros n Hn. rewrite Z.land_spec, !Z.shiftl_spec by lia.
  destruct (Z.ltb_spec n k).
  - rewrite !(Z.testbit_neg_r _ (n - k)) by lia. apply andb_false_r.
  - rewrite Z.bits_m1, andb_true_r, Z.shiftr_spec by lia. f_equal. lia.
Qed.

Lemma align8_eq x : align8 x = (x + 7) / 8 * 8.
Proof.
  unfold align8, FFS_ALIGN. pose proof (align_up_pow2 x 3 ltac:(lia)) as H.
  change (2 ^ 3) with 8 in H. rewrite H. do 2 f_equal. lia.
Qed.

Lemma align4_eq x : align4 x = (x + 3) / 4 * 4.
Proof.
  unfold align4, SECTION_ALIGN. pose proof (align_up_pow2 x 2 ltac:(lia)) as H.
  change (2 ^ 2) with 4 in H. rewrite H. do 2 f_equal. lia.
Qed.

Lemma align8_spec x : 0 <= x -> x <= align8 x < x + 8 /\ align8 x mod 8 = 0.
Proof. intros. rewrite align8_eq, Z.mod_mul by lia. split; [zdm|done]. Qed.

Lemma align4_spec x : 0 <= x -> x <= align4 x < x + 4 /\ align4 x mod 4 = 0.
Proof. intros. rewrite align4_eq, Z.mod_mul by lia. split; [zdm|done]. Qed.

Lemma align8_id x : x mod 8 = 0 -> align8 x = x.
Proof. intros. rewrite align8_eq. zdm. Qed.

Lemma blen_pad_to buf target fill :
  blen (pad_to buf target fill) = Z.max (blen buf) target.
Proof.
  unfold pad_to. pose proof (blen_nonneg buf).
  destruct (Z.ltb_spec (blen buf) target); [|lia].
  rewrite blen_resize_to by lia. lia.
Qed.

Lemma pad_to_prefix buf target fill :
  exists n, pad_to buf target fill = buf ++ replicate n fill.
Proof.
  unfold pad_to, resize_to, blen. destruct (Z.ltb_spec (Z.of_nat (length buf)) target).
  - eexists. rewrite resize_ge by lia. done.
  - exists 0%nat. by rewrite app_nil_r.
Qed.

#[export] Hint Rewrite blen_pad_to : blen.
