(* ===== verification/Tiano.v ===== *)
(** The EFI 1.1 / Tiano decoder ([crates/uefi-engine/src/tiano.rs]): an
    LZ77 + Huffman decoder over a 32-bit bit buffer. The fields of the struct
    [Decoder] are grouped into the bit reader [Bits], the Huffman tables
    [Tables] and the rest; every array is a list and every index is checked. *)
From S2P Require Import Prelude.

Inductive DecompressError := Unsupported | Corrupted.

(** Checked operators of the dev profile: a shift by the width or more and an
    addition that overflows [w] bits panic. *)
Definition shl_w {E} (w x n : Z) : outcome E Z :=
  if (0 <=? n) && (n <? w) then Ok (wrap w (Z.shiftl x n)) else Panic.
Definition shr_w {E} (w x n : Z) : outcome E Z :=
  if (0 <=? n) && (n <? w) then Ok (Z.shiftr x n) else Panic.
Definition add_w {E} (w a b : Z) : outcome E Z :=
  if a + b <? 2 ^ w then Ok (a + b) else Panic.

Definition BITBUF : Z := 32.
Definition THRESHOLD : Z := 3.
Definition NC : Z := 510.
Definition CBIT : Z := 9.
Definition MAXPBIT : Z := 5.
Definition TBIT : Z := 5.
Definition MAXNP : Z := 31.
Definition NT : Z := 19.
Definition NPT : Z := if MAXNP <? NT then NT else MAXNP.
Definition MAX_ORIG_SIZE : Z := 512 * 1024 * 1024.
Definition TREE : Z := 2 * NC - 1.

Inductive Pbit := Pbit_Efi | Pbit_Tiano.
Inductive Which := W_Pt | W_Cl.
Inductive Slot := S_Table (i : Z) | S_Left (i : Z) | S_Right (i : Z).

Record Bits := mkBits {
  src : list byte;
  in_buf : Z;
  comp_size : Z;
  bit_count : Z;
  bit_buf : Z;
  sub_bit_buf : Z
}.
Record Tables := mkTables {
  left : list Z;
  right : list Z;
  c_len : list Z;
  pt_len : list Z;
  c_table : list Z;
  pt_table : list Z
}.
Record Decoder := mkDecoder {
  bits : Bits;
  tables : Tables;
  orig_size : Z;
  out : list byte;
  out_pos : Z;
  block_size : Z;
  p_bit : Z
}.

Definition set_c_len (v : list Z) (t : Tables) : Tables :=
  mkTables (left t) (right t) v (pt_len t) (c_table t) (pt_table t).
Definition set_pt_len (v : list Z) (t : Tables) : Tables :=
  mkTables (left t) (right t) (c_len t) v (c_table t) (pt_table t).
Definition set_c_table (v : list Z) (t : Tables) : Tables :=
  mkTables (left t) (right t) (c_len t) (pt_len t) v (pt_table t).
Definition set_pt_table (v : list Z) (t : Tables) : Tables :=
  mkTables (left t) (right t) (c_len t) (pt_len t) (c_table t) v.
Definition set_left (v : list Z) (t : Tables) : Tables :=
  mkTables v (right t) (c_len t) (pt_len t) (c_table t) (pt_table t).
Definition set_right (v : list Z) (t : Tables) : Tables :=
  mkTables (left t) v (c_len t) (pt_len t) (c_table t) (pt_table t).
Definition set_bits (b : Bits) (d : Decoder) : Decoder :=
  mkDecoder b (tables d) (orig_size d) (out d) (out_pos d) (block_size d) (p_bit d).
Definition set_tables (b : Bits) (t : Tables) (d : Decoder) : Decoder :=
  mkDecoder b t (orig_size d) (out d) (out_pos d) (block_size d) (p_bit d).
Definition set_block_size (s : Z) (d : Decoder) : Decoder :=
  mkDecoder (bits d) (tables d) (orig_size d) (out d) (out_pos d) s (p_bit d).

Abbreviation dres := (outcome DecompressError).

(** ** Bit reader *)

(** One turn of the refill loop of [fill_buf]: consumes the bits of
    [sub_bit_buf] and loads the next source byte (zero past the end). *)
Definition fill_step (s : Z * Bits) : dres (Z * Bits + Z * Bits) :=
  let '(num_bits, b) := s in
  if bit_count b <? num_bits then
    let n := num_bits - bit_count b in
    sh ← shl_w 64 (sub_bit_buf b) n;
    let buf := Z.lor (bit_buf b) (wrap 32 sh) in
    if 0 <? comp_size b then
      x ← index (src b) (in_buf b);
      mret (inl (n, mkBits (src b) (in_buf b + 1) (comp_size b - 1) 8 buf (b2z x)))
    else mret (inl (n, mkBits (src b) (in_buf b) (comp_size b) 8 buf 0))
  else mret (inr (num_bits, b)).

Definition fill_buf (b : Bits) (num_bits : Z) : dres Bits :=
  sh ← shl_w 64 (bit_buf b) num_bits;
  r ← loop (Z.to_nat (2 * num_bits) + 2)%nat fill_step
        (num_bits, mkBits (src b) (in_buf b) (comp_size b) (bit_count b)
                          (wrap 32 sh) (sub_bit_buf b));
  let '(n, b) := r in
  cnt ← usub (bit_count b) n;
  lo ← shr_w 32 (sub_bit_buf b) cnt;
  mret (mkBits (src b) (in_buf b) (comp_size b) cnt (Z.lor (bit_buf b) lo) (sub_bit_buf b)).

Definition get_bits (b : Bits) (num_bits : Z) : dres (Z * Bits) :=
  if num_bits =? 0 then Ok (0, b)
  else
    k ← usub BITBUF num_bits;
    o ← shr_w 32 (bit_buf b) k;
    b' ← fill_buf b num_bits;
    mret (o, b').

(** ** Huffman tables *)

Definition slot_get (t : Tables) (s : Slot) (w : Which) : dres Z :=
  match s with
  | S_Table i => match w with W_Pt => index (pt_table t) i | W_Cl => index (c_table t) i end
  | S_Left i => index (left t) i
  | S_Right i => index (right t) i
  end.

Definition slot_set (t : Tables) (s : Slot) (w : Which) (v : Z) : dres Tables :=
  match s with
  | S_Table i =>
      match w with
      | W_Pt => l ← set_at (pt_table t) i v; mret (set_pt_table l t)
      | W_Cl => l ← set_at (c_table t) i v; mret (set_c_table l t)
      end
  | S_Left i => l ← set_at (left t) i v; mret (set_left l t)
  | S_Right i => l ← set_at (right t) i v; mret (set_right l t)
  end.

(** [table[from..].fill(0)]. *)
Definition fill_zero_from (l : list Z) (from : Z) : list Z :=
  take (Z.to_nat from) l ++ replicate (length l - Z.to_nat from) 0.

(** Code-length histogram. *)
Definition count_step (count : list Z) (len : Z) : dres (list Z) :=
  if 16 <? len then Err Corrupted
  else
    c ← index count len;
    c' ← add_w 16 c 1;
    set_at count len c'.

(** First code of each length, left-aligned in 16 bits. *)
Definition start_step (count start : list Z) (i : Z) : dres (list Z) :=
  s ← index start i;
  c ← index count i;
  sh ← shl_w 16 c (16 - i);
  set_at start (i + 1) (wrap 16 (s + sh)).

Definition weight_step (table_bits ju_bits : Z) (sw : list Z * list Z) (i : Z)
  : dres (list Z * list Z) :=
  let '(start, weight) := sw in
  s ← index start i;
  s' ← shr_w 16 s ju_bits;
  start' ← set_at start i s';
  w ← shl_w 16 1 (table_bits - i);
  weight' ← set_at weight i w;
  mret (start', weight').

Definition weight_high_step (weight : list Z) (i : Z) : dres (list Z) :=
  w ← shl_w 16 1 (16 - i);
  set_at weight i w.

(** The tree node under [pointer] is allocated when missing, then the next bit
    of the code selects its left or right child. *)
Definition tree_step (w : Which) (mask : Z) (s : Tables * Z * Slot * Z) (_ : Z)
  : dres (Tables * Z * Slot * Z) :=
  let '(t, avail, pointer, index3) := s in
  cur ← slot_get t pointer w;
  ta ← (if (cur =? 0) && (avail <? TREE) then
          r ← set_at (right t) avail 0;
          l ← set_at (left t) avail 0;
          t' ← slot_set (set_left l (set_right r t)) pointer w avail;
          mret (t', avail + 1)
        else mret (t, avail));
  let '(t, avail) := ta : Tables * Z in
  cur ← slot_get t pointer w;
  let pointer :=
    if cur <? TREE then
      if negb (Z.land index3 mask =? 0) then S_Right cur else S_Left cur
    else pointer in
  mret (t, avail, pointer, wrap 32 (Z.shiftl index3 1)).

(** Assigns the next code of its length to one symbol. *)
Definition symbol_step (w : Which) (table_bits ju_bits table_max mask : Z) (weight : list Z)
  (s : list Z * Tables * Z) (cl : Z * Z) : dres (list Z * Tables * Z) :=
  let '(start, t, avail) := s in
  let '(char_idx, len) := cl in
  if (len =? 0) || (17 <=? len) then Ok (start, t, avail)
  else
    st ← index start len;
    wt ← index weight len;
    let next_code := wrap 16 (st + wt) in
    ta ← (if len <=? table_bits then
            t ← foldM (fun t i => if table_max <=? i then Err Corrupted
                                  else slot_set t (S_Table i) w (wrap 16 char_idx))
                      (seqZ st (next_code - st)) t;
            mret (t, avail)
          else
            r ← foldM (tree_step w mask) (seqZ 0 (len - table_bits))
                      (t, avail, S_Table (Z.shiftr st ju_bits), st);
            let '(t, avail, pointer, _) := r : Tables * Z * Slot * Z in
            t ← slot_set t pointer w (wrap 16 char_idx);
            mret (t, avail));
    let '(t, avail) := ta : Tables * Z in
    start ← set_at start len next_code;
    mret (start, t, avail).

Definition make_table (t : Tables) (num_of_char table_bits : Z) (w : Which) : dres Tables :=
  if 16 <=? table_bits then Err Corrupted
  else
    let bit_len := match w with W_Pt => pt_len t | W_Cl => c_len t end in
    lens ← slice bit_len 0 num_of_char;
    count ← foldM count_step lens (replicate 17 0);
    start ← foldM (start_step count) (seqZ 1 16) (replicate 18 0);
    s17 ← index start 17;
    if negb (s17 =? 0) then Err Corrupted
    else
      let ju_bits := 16 - table_bits in
      sw ← foldM (weight_step table_bits ju_bits) (seqZ 1 table_bits) (start, replicate 17 0);
      let '(start, weight) := sw : list Z * list Z in
      weight ← foldM weight_high_step (seqZ (table_bits + 1) (16 - table_bits)) weight;
      let table_max := Z.shiftl 1 table_bits in
      s ← index start (table_bits + 1);
      zero_from ← shr_w 16 s ju_bits;
      let t :=
        if negb (zero_from =? 0) && (zero_from <? table_max) then
          match w with
          | W_Pt => set_pt_table (fill_zero_from (pt_table t) zero_from) t
          | W_Cl => set_c_table (fill_zero_from (c_table t) zero_from) t
          end
        else t in
      mask ← shl_w 16 1 (15 - table_bits);
      r ← foldM (symbol_step w table_bits ju_bits table_max mask weight)
                (zip (seqZ 0 num_of_char) lens) (start, t, num_of_char);
      let '(_, t, _) := r : list Z * Tables * Z in
      mret t.

(** ** Reading the code lengths *)

(** [l[..n].fill(0)]. *)
Definition fill_zero_to (l : list Z) (n : Z) : dres (list Z) :=
  if range_ok l 0 n then Ok (replicate (Z.to_nat n) 0 ++ drop (Z.to_nat n) l) else Panic.

(** The unary extension of a length code: counts the one bits from [mask] on. *)
Definition unary_step (buf : Z) (s : Z * Z) : dres (Z * Z + Z) :=
  let '(mask, char_c) := s in
  if negb (Z.land mask buf =? 0) then mret (inl (Z.shiftr mask 1, char_c + 1))
  else mret (inr char_c).

(** [for _ in 0..zeros]: writes zero lengths while [index < limit]. *)
Definition zeros_step (limit : Z) (s : list Z * Z) (_ : Z) : dres (list Z * Z) :=
  let '(l, idx) := s in
  if limit <=? idx then Ok (l, idx)
  else l' ← set_at l idx 0; mret (l', idx + 1).

(** One turn of the main loop of [read_pt_len]. *)
Definition pt_len_step (number special : Z) (s : Bits * list Z * Z)
  : dres (Bits * list Z * Z + Bits * list Z * Z) :=
  let '(b, l, idx) := s in
  if (idx <? number) && (idx <? NPT) then
    let c0 := Z.shiftr (bit_buf b) (BITBUF - 3) in
    char_c ← (if c0 =? 7
              then loop 40 (unary_step (bit_buf b)) (Z.shiftl 1 (BITBUF - 1 - 3), c0)
              else mret c0);
    b ← fill_buf b (if char_c <? 7 then 3 else char_c - 3);
    l ← set_at l idx (wrap 8 char_c);
    let idx := idx + 1 in
    if wrap 16 idx =? special then
      zb ← get_bits b 2;
      li ← foldM (zeros_step NPT) (seqZ 0 (wrap 16 (fst zb))) (l, idx);
      mret (inl (snd zb, fst li, snd li))
    else mret (inl (b, l, idx))
  else mret (inr (b, l, idx)).

Definition read_pt_len (b : Bits) (t : Tables) (nn nbit special : Z) : dres (Bits * Tables) :=
  nb ← get_bits b nbit;
  let number := wrap 16 (fst nb) in
  let b := snd nb in
  if (NPT <? number) || (NPT <? nn) then Err Corrupted
  else if number =? 0 then
    cb ← get_bits b nbit;
    l ← fill_zero_to (pt_len t) nn;
    mret (snd cb, set_pt_len l (set_pt_table (replicate 256 (wrap 16 (fst cb))) t))
  else
    r ← loop 40 (pt_len_step number special) (b, pt_len t, 0);
    let '(b, l, idx) := r : Bits * list Z * Z in
    li ← foldM (zeros_step NPT) (seqZ 0 (nn - idx)) (l, idx);
    t ← make_table (set_pt_len (fst li) t) nn 8 W_Pt;
    mret (b, t).

(** Walks the Huffman tree from node [c] until a symbol below [limit]; the walk
    is bounded by the bit mask. *)
Definition walk_step (t : Tables) (buf limit : Z) (s : Z * Z) : dres (Z * Z + Z) :=
  let '(mask, c) := s in
  c ← (if negb (Z.land mask buf =? 0) then index (right t) c else index (left t) c);
  let mask := Z.shiftr mask 1 in
  if c <? limit then mret (inr c)
  else if mask =? 0 then Err Corrupted
  else mret (inl (mask, c)).

(** A symbol looked up in a table of [bits] leading bits, completed by a walk. *)
Definition decode_symbol (t : Tables) (table : list Z) (buf bits limit : Z) : dres Z :=
  c ← index table (Z.shiftr buf (BITBUF - bits));
  if limit <=? c
  then loop 40 (walk_step t buf limit) (Z.shiftl 1 (BITBUF - 1 - bits), c)
  else mret c.

(** One turn of the main loop of [read_clen]. *)
Definition c_len_step (t : Tables) (number : Z) (s : Bits * list Z * Z)
  : dres (Bits * list Z * Z + Bits * list Z * Z) :=
  let '(b, l, idx) := s in
  if (idx <? number) && (idx <? NC) then
    char_c ← decode_symbol t (pt_table t) (bit_buf b) 8 NT;
    n ← index (pt_len t) char_c;
    b ← fill_buf b n;
    if char_c <=? 2 then
      zb ← (if char_c =? 0 then mret (1, b)
            else if char_c =? 1 then r ← get_bits b 4; mret (wrap 16 (fst r) + 3, snd r)
            else r ← get_bits b CBIT; mret (wrap 16 (fst r) + 20, snd r));
      let '(zeros, b) := zb : Z * Bits in
      li ← foldM (zeros_step NC) (seqZ 0 zeros) (l, idx);
      mret (inl (b, fst li, snd li))
    else
      l ← set_at l idx (wrap 8 (char_c - 2));
      mret (inl (b, l, idx + 1))
  else mret (inr (b, l, idx)).

Definition read_clen (b : Bits) (t : Tables) : dres (Bits * Tables) :=
  nb ← get_bits b CBIT;
  let number := wrap 16 (fst nb) in
  let b := snd nb in
  if number =? 0 then
    cb ← get_bits b CBIT;
    mret (snd cb, set_c_table (replicate 4096 (wrap 16 (fst cb)))
                    (set_c_len (replicate (Z.to_nat NC) 0) t))
  else
    r ← loop (Z.to_nat NC + 1) (c_len_step t number) (b, c_len t, 0);
    let '(b, l, idx) := r : Bits * list Z * Z in
    li ← foldM (zeros_step NC) (seqZ 0 (NC - idx)) (l, idx);
    t ← make_table (set_c_len (fst li) t) NC 12 W_Cl;
    mret (b, t).

(** ** Decoding *)

Definition decode_c (d : Decoder) : dres (Z * Decoder) :=
  d ← (if block_size d =? 0 then
         sb ← get_bits (bits d) 16;
         bt ← read_pt_len (snd sb) (tables d) NT TBIT 3;
         bt ← read_clen (fst bt) (snd bt);
         bt ← read_pt_len (fst bt) (snd bt) MAXNP (p_bit d) 0xFFFF;
         mret (set_block_size (wrap 16 (fst sb)) (set_tables (fst bt) (snd bt) d))
       else mret d);
  let d := set_block_size (wrap 16 (block_size d - 1)) d in
  c ← decode_symbol (tables d) (c_table (tables d)) (bit_buf (bits d)) 12 NC;
  n ← index (c_len (tables d)) c;
  b ← fill_buf (bits d) n;
  mret (c, set_bits b d).

Definition decode_p (d : Decoder) : dres (Z * Decoder) :=
  v ← decode_symbol (tables d) (pt_table (tables d)) (bit_buf (bits d)) 8 MAXNP;
  n ← index (pt_len (tables d)) v;
  b ← fill_buf (bits d) n;
  if 1 <? v then
    let extra := v - 1 in
    hi ← shl_w 32 1 extra;
    lo ← get_bits b extra;
    pos ← add_w 32 hi (fst lo);
    mret (pos, set_bits (snd lo) d)
  else mret (v, set_bits b d).

(** The output cursor and one byte written under it. *)
Definition emit (d : Decoder) (x : byte) : dres Decoder :=
  o ← set_at (out d) (out_pos d) x;
  mret (mkDecoder (bits d) (tables d) (orig_size d) o (out_pos d + 1) (block_size d) (p_bit d)).

(** [for data_idx in (start..).take(len)]: advancing a [RangeFrom<u32>] past
    [u32::MAX] overflows. The boolean tells whether [decode] returned. *)
Fixpoint copy_match (len : nat) (data_idx : Z) (d : Decoder) : dres (bool * Decoder) :=
  match len with
  | O => Ok (false, d)
  | S len =>
      next ← add_w 32 data_idx 1;
      if orig_size d <=? out_pos d then Ok (true, d)
      else if wrap 32 (orig_size d) <=? data_idx then Err Corrupted
      else
        x ← index (out d) data_idx;
        d ← emit d x;
        copy_match len next d
  end.

Definition decode_step (d : Decoder) : dres (Decoder + Decoder) :=
  cd ← decode_c d;
  let '(char_c, d) := cd : Z * Decoder in
  if char_c <? 256 then
    if orig_size d <=? out_pos d then mret (inr d)
    else d ← emit d (z2b char_c); mret (inl d)
  else
    let len := char_c - (0x100 - THRESHOLD) in
    pd ← decode_p d;
    let '(pos, d) := pd : Z * Decoder in
    r ← copy_match (Z.to_nat len) (wrap 32 (wrap 32 (wrap 32 (out_pos d) - pos) - 1)) d;
    let '(stop, d) := r : bool * Decoder in
    if stop then mret (inr d)
    else if orig_size d <=? out_pos d then mret (inr d)
    else mret (inl d).

(** Every turn of the loop writes at least one byte or leaves it, so
    [orig_size + 1] turns are enough. *)
Definition decode (d : Decoder) : dres Decoder :=
  loop (Z.to_nat (orig_size d) + 2) decode_step d.

Definition new_decoder (data : list byte) (comp orig : Z) (pbit : Pbit) : Decoder :=
  let z n := replicate (Z.to_nat n) 0 in
  mkDecoder (mkBits (drop 8 data) 0 comp 0 0 0)
    (mkTables (z TREE) (z TREE) (z NC) (z NPT) (z 4096) (z 256))
    orig (replicate (Z.to_nat orig) x00) 0 0
    (match pbit with Pbit_Efi => 4 | Pbit_Tiano => 5 end).

Definition decompress (data : list byte) (pbit : Pbit) : dres (list byte) :=
  if blen data <? 8 then Err Corrupted
  else
    comp ← rd_le 4 data 0;
    orig ← rd_le 4 data 4;
    if orig =? 0 then Ok []
    else if MAX_ORIG_SIZE <? orig then Err Corrupted
    else if 2 ^ 32 <=? comp + 8 then Err Corrupted
    else if blen data <? comp + 8 then Err Corrupted
    else
      let d := new_decoder data comp orig pbit in
      b ← fill_buf (bits d) BITBUF;
      d ← decode (set_bits b d);
      mret (out d).

(** ** Concrete streams *)

Definition bits_to_bytes (n : nat) (z : Z) : list byte := rev (le_enc n z).
