(* ===== verification/TianoFacts.v ===== *)
(** The Tiano decoder terminates, fills exactly the announced output and indexes
    nothing out of range, whatever the stream: the invariants of the bit reader and
    of the Huffman tables, kept by every step. *)
From S2P Require Import Prelude Tiano.

(** ** Checked operators *)

Lemma lor_bound k a b : 0 <= k -> 0 <= a < 2 ^ k -> 0 <= b < 2 ^ k -> 0 <= Z.lor a b < 2 ^ k.
Proof.
  intros Hk Ha Hb.
  assert (Z.lor a b = wrap k (Z.lor a b)) as ->; [|by apply wrap_bounds].
  unfold wrap. apply Z.bits_inj'. intros n Hn. destruct (Z.ltb_spec n k).
  - by rewrite Z.mod_pow2_bits_low by lia.
  - rewrite Z.mod_pow2_bits_high, Z.lor_spec by lia.
    rewrite <-(Z.mod_small a (2 ^ k)), <-(Z.mod_small b (2 ^ k)) by lia.
    by rewrite !Z.mod_pow2_bits_high by lia.
Qed.

Lemma shiftr_bound a n k : 0 <= n -> 0 <= k -> 0 <= a < 2 ^ (k + n) -> 0 <= Z.shiftr a n < 2 ^ k.
Proof.
  intros Hn Hk Ha. rewrite Z.shiftr_div_pow2 by lia. rewrite Z.pow_add_r in Ha by lia.
  pose proof (Z.pow_pos_nonneg 2 n ltac:(lia) Hn). split.
  - apply Z.div_pos; lia.
  - apply Z.div_lt_upper_bound; lia.
Qed.

Section Checked.
Context {E : Type} (Q : Z -> Prop) (QE : E -> Prop).

Lemma shl_w_post w x n :
  0 <= n < w -> (forall z, 0 <= z < 2 ^ w -> Q z) -> post (shl_w w x n) Q QE.
Proof.
  intros Hn HQ. unfold shl_w. replace ((0 <=? n) && (n <? w)) with true by lia.
  apply HQ, wrap_bounds. lia.
Qed.

Lemma shr_w_post w x n : 0 <= n < w -> Q (Z.shiftr x n) -> post (shr_w w x n) Q QE.
Proof. intros Hn HQ. unfold shr_w. by replace ((0 <=? n) && (n <? w)) with true by lia. Qed.

Lemma add_w_post w a b : a + b < 2 ^ w -> Q (a + b) -> post (add_w w a b) Q QE.
Proof. intros Hn HQ. unfold add_w. by replace (a + b <? 2 ^ w) with true by lia. Qed.
End Checked.

(** ** Arrays *)

(** An array of [n] cells with values below [hi]. *)
Definition array (n hi : Z) (l : list Z) : Prop :=
  blen l = n /\ Forall (fun x => 0 <= x < hi) l.

Section Arrays.
Context {E : Type} (QE : E -> Prop).

Lemma array_index n hi l i (Q : Z -> Prop) :
  array n hi l -> 0 <= i < n -> (forall x, get l i = Some x -> 0 <= x < hi -> Q x) ->
  post (index l i) Q QE.
Proof.
  intros [Hl Hf] Hi HQ. apply index_post; [lia|]. intros x Hx. apply HQ; [done|].
  apply get_Some in Hx as [_ Hx]. by eapply (Forall_lookup_1 _ _ _ _ Hf).
Qed.

Lemma array_set n hi l i x (Q : list Z -> Prop) :
  array n hi l -> 0 <= i < n -> 0 <= x < hi ->
  (array n hi (<[Z.to_nat i := x]> l) -> Q (<[Z.to_nat i := x]> l)) -> post (set_at l i x) Q QE.
Proof.
  intros [Hl Hf] Hi Hx HQ. apply set_at_post; [lia|]. apply HQ.
  split; [by rewrite blen_insert|by apply Forall_insert].
Qed.
End Arrays.

Lemma array_replicate n hi x : 0 <= n -> 0 <= x < hi -> array n hi (replicate (Z.to_nat n) x).
Proof.
  intros. split; [rewrite blen_replicate; lia|]. by apply Forall_replicate.
Qed.

Lemma array_zero_from n hi l z : 0 <= z <= n -> 0 < hi -> array n hi l -> array n hi (fill_zero_from l z).
Proof.
  intros Hz Hhi [Hl Hf]. unfold fill_zero_from. unfold blen in Hl. split.
  - unfold blen. rewrite length_app, length_take, length_replicate. lia.
  - apply Forall_app. split; [by apply Forall_take|]. apply Forall_replicate. lia.
Qed.

(** ** The bit reader *)

Record bits_wf (b : Bits) : Prop := {
  bw_in : 0 <= in_buf b;
  bw_comp : 0 <= comp_size b;
  bw_src : in_buf b + comp_size b <= blen (src b);
  bw_count : 0 <= bit_count b <= 8;
  bw_buf : 0 <= bit_buf b < 2 ^ 32;
  bw_sub : 0 <= sub_bit_buf b < 256
}.

Section Reader.
Context (QE : DecompressError -> Prop).

Definition fill_inv (s : Z * Bits) : Prop := 0 <= fst s < 64 /\ bits_wf (snd s).
Definition fill_measure (s : Z * Bits) : nat :=
  Z.to_nat (2 * fst s + (if bit_count (snd s) <? 8 then 1 else 0)).

Lemma fill_step_post s :
  fill_inv s ->
  post (fill_step s) (fun r =>
    match r with
    | inl s' => fill_inv s' /\ (fill_measure s' < fill_measure s)%nat
    | inr s' => fill_inv s' /\ fst s' <= bit_count (snd s')
    end) QE.
Proof.
  destruct s as [n b]. intros [Hn [Hin Hc Hs Hb Hbuf Hsub]]. simpl in *.
  unfold fill_step. destruct (Z.ltb_spec (bit_count b) n) as [Hlt|Hge]; [|done].
  apply post_bind, shl_w_post; [lia|]. intros sh _.
  pose proof (wrap_bounds 32 sh ltac:(lia)).
  pose proof (lor_bound 32 (bit_buf b) (wrap 32 sh) ltac:(lia) Hbuf ltac:(lia)).
  unfold fill_inv, fill_measure. destruct (Z.ltb_spec 0 (comp_size b)).
  - apply post_bind, index_post; [lia|]. intros x _. pose proof (b2z_bounds x). simpl.
    split; [split; [lia|constructor; simpl; lia]|]. destruct (bit_count b <? 8) eqn:?; lia.
  - simpl. split; [split; [lia|constructor; simpl; lia]|].
    destruct (bit_count b <? 8) eqn:?; lia.
Qed.

Lemma fill_buf_post b n : bits_wf b -> 0 <= n < 64 -> post (fill_buf b n) bits_wf QE.
Proof.
  intros [Hin Hc Hs Hb Hbuf Hsub] Hn. unfold fill_buf.
  apply post_bind, shl_w_post; [lia|]. intros sh _. pose proof (wrap_bounds 32 sh ltac:(lia)).
  apply post_bind. eapply post_mono.
  - apply (loop_post _ fill_inv fill_measure); [apply fill_step_post| |].
    + split; [simpl; lia|]. constructor; simpl; lia.
    + unfold fill_measure. simpl. destruct (bit_count b <? 8); lia.
  - intros [n' b'] [[Hn' Hb'] Hle]. simpl in *. destruct Hb'.
    unfold usub. replace (n' <=? bit_count b') with true by lia. simpl.
    apply post_bind, shr_w_post; [lia|]. constructor; simpl; try lia.
    apply lor_bound; [lia|lia|]. apply shiftr_bound; [lia|lia|].
    split; [lia|]. apply Z.lt_le_trans with (2 ^ 32); [lia|]. apply Z.pow_le_mono_r; lia.
  - done.
Qed.

Lemma get_bits_post b n :
  bits_wf b -> 0 <= n <= 32 -> post (get_bits b n) (fun r => 0 <= fst r < 2 ^ n /\ bits_wf (snd r)) QE.
Proof.
  intros Hb Hn. unfold get_bits. destruct (Z.eqb_spec n 0) as [->|]; [by simpl|].
  unfold usub, BITBUF. replace (n <=? 32) with true by lia. simpl.
  apply post_bind, shr_w_post; [lia|]. apply post_bind.
  eapply post_mono; [apply fill_buf_post; [done|lia]| |done]. intros b' Hb'. simpl. split; [|done].
  apply shiftr_bound; [lia|lia|]. replace (n + (32 - n)) with 32 by lia. apply Hb.
Qed.
End Reader.

(** ** The tables *)

Record tables_wf (t : Tables) : Prop := {
  tw_left : array TREE TREE (left t);
  tw_right : array TREE TREE (right t);
  tw_c_len : array NC 256 (c_len t);
  tw_pt_len : array NPT 256 (pt_len t);
  tw_c_table : array 4096 TREE (c_table t);
  tw_pt_table : array 256 TREE (pt_table t)
}.

(** The code lengths a table was built from are at most 16. *)
Definition lens_ok (n : Z) (l : list Z) : Prop := Forall (fun x => 0 <= x <= 16) (sub l 0 n).

Lemma lens_ok_get n l i x : lens_ok n l -> 0 <= i < n -> n <= blen l -> get l i = Some x -> 0 <= x <= 16.
Proof.
  intros Hl Hi Hn Hx. rewrite <-(Z.add_0_l i) in Hx. rewrite <-(get_sub l 0 n) in Hx by lia.
  apply get_Some in Hx as [_ Hx]. by eapply (Forall_lookup_1 _ _ _ _ Hl).
Qed.

Lemma lens_ok_zero n k : lens_ok n (replicate (Z.to_nat k) 0).
Proof. unfold lens_ok, sub. apply Forall_take, Forall_drop, Forall_replicate. lia. Qed.

Definition table_size (w : Which) : Z := match w with W_Pt => 256 | W_Cl => 4096 end.

Definition slot_ok (w : Which) (s : Slot) : Prop :=
  match s with
  | S_Table i => 0 <= i < table_size w
  | S_Left i | S_Right i => 0 <= i < TREE
  end.

(** The lengths are not touched while a table is filled. *)
Definition same_lens (t t' : Tables) : Prop := c_len t' = c_len t /\ pt_len t' = pt_len t.

Section TableSteps.
Context (QE : DecompressError -> Prop).

Lemma slot_get_post t s w :
  tables_wf t -> slot_ok w s -> post (slot_get t s w) (fun x => 0 <= x < TREE) QE.
Proof.
  intros [] Hs. destruct s, w; simpl in *; (eapply array_index; [done|done|done]).
Qed.

Lemma slot_set_post t s w v :
  tables_wf t -> slot_ok w s -> 0 <= v < TREE ->
  post (slot_set t s w v) (fun t' => tables_wf t' /\ same_lens t t') QE.
Proof.
  intros [] Hs Hv. destruct s, w; simpl in *;
    (try apply post_bind); (eapply array_set; [done|done|done|]); intros ?; (split; [by constructor|done]).
Qed.

Lemma tree_step_post w mask t avail p idx i :
  tables_wf t -> slot_ok w p -> 0 <= avail ->
  post (tree_step w mask (t, avail, p, idx) i) (fun s =>
    let '(t', avail', p', _) := s in
    tables_wf t' /\ same_lens t t' /\ slot_ok w p' /\ 0 <= avail') QE.
Proof.
  intros Ht Hp Ha. unfold tree_step.
  apply post_bind. eapply post_mono; [by apply (slot_get_post t p w)| |done]. intros cur Hcur.
  apply post_bind. apply (post_mono _ (fun ta : Tables * Z =>
    tables_wf (fst ta) /\ same_lens t (fst ta) /\ 0 <= snd ta) _ (fun e => QE e) _).
  - destruct (_ && _) eqn:Hc; [|by split_and!]. bool_to_prop.
    assert (0 <= avail < TREE) as Hav by lia.
    apply post_bind. eapply array_set; [apply Ht|done|unfold TREE, NC; lia|]. intros Hr.
    apply post_bind. eapply array_set; [apply Ht|done|unfold TREE, NC; lia|]. intros Hl.
    apply post_bind. eapply post_mono; [apply slot_set_post; [|done|done]| |done].
    + destruct Ht. by constructor.
    + intros t' [Hw [Hs1 Hs2]]. simpl. split_and!; [done|by split|lia].
  - intros [t' avail'] (Ht' & Hs' & Ha'). simpl in *.
    apply post_bind. eapply post_mono; [by apply (slot_get_post t' p w)| |done]. intros cur' Hcur'.
    simpl. split_and!; auto. destruct (cur' <? TREE); [|done]. destruct (negb _); exact Hcur'.
  - done.
Qed.
End TableSteps.

#[local] Arguments slot_set : simpl never.
#[local] Arguments slot_get : simpl never.
#[local] Arguments tree_step : simpl never.

Section MakeTable.
Context (QE : DecompressError -> Prop) (QE_corrupted : QE Corrupted).

Lemma count_post lens count k :
  array 17 (k + 1) count -> 0 <= k -> k + blen lens < 2 ^ 16 -> Forall (fun x => 0 <= x) lens ->
  post (foldM count_step lens count)
    (fun c => array 17 (2 ^ 16) c /\ Forall (fun x => 0 <= x <= 16) lens) QE.
Proof.
  intros Hc Hk Hlen Hpos. revert count k Hc Hk Hlen.
  induction Hpos as [|len lens Hl _ IH]; intros count k [Hc Hf] Hk Hlen.
  - simpl. split; [|constructor]. split; [done|]. rewrite blen_nil in Hlen.
    eapply Forall_impl; [exact Hf|]. intros; cbn beta in *; lia.
  - rewrite blen_cons in Hlen. pose proof (blen_nonneg lens). cbn [foldM]. apply post_bind.
    unfold count_step. destruct (Z.ltb_spec 16 len); [done|].
    apply post_bind. eapply (array_index _ 17 (k + 1)); [by split|lia|]. intros c _ Hcb.
    apply post_bind, add_w_post; [lia|].
    assert (array 17 (k + 1 + 1) count) as Hc'.
    { split; [done|]. eapply Forall_impl; [exact Hf|]. intros; cbn beta in *; lia. }
    eapply array_set; [exact Hc'|lia|lia|]. intros Hc''.
    eapply post_mono; [apply (IH _ (k + 1)); [done|lia|lia]| |done].
    intros c' [Ha Hls]. split; [done|]. constructor; [lia|done].
Qed.

Lemma start_step_post count start i :
  array 17 (2 ^ 16) count -> array 18 (2 ^ 16) start -> 1 <= i <= 16 ->
  post (start_step count start i) (array 18 (2 ^ 16)) QE.
Proof.
  intros Hc Hs Hi. unfold start_step.
  apply post_bind. eapply array_index; [exact Hs|lia|]. intros s _ _.
  apply post_bind. eapply array_index; [exact Hc|lia|]. intros c _ _.
  apply post_bind, shl_w_post; [lia|]. intros sh _.
  eapply array_set; [exact Hs|lia|by apply wrap_bounds|done].
Qed.

Lemma weight_step_post tb sw i :
  1 <= tb <= 15 -> array 18 (2 ^ 16) (fst sw) -> array 17 (2 ^ 16) (snd sw) -> 1 <= i <= tb ->
  post (weight_step tb (16 - tb) sw i)
    (fun sw => array 18 (2 ^ 16) (fst sw) /\ array 17 (2 ^ 16) (snd sw)) QE.
Proof.
  destruct sw as [start weight]. simpl. intros Htb Hs Hw Hi. unfold weight_step.
  apply post_bind. eapply array_index; [exact Hs|lia|]. intros s _ Hsb.
  apply post_bind, shr_w_post; [lia|].
  apply post_bind. eapply array_set; [exact Hs|lia| |].
  { apply shiftr_bound; [lia|lia|]. split; [lia|]. apply Z.lt_le_trans with (2 ^ 16); [lia|].
    apply Z.pow_le_mono_r; lia. }
  intros Hs'. apply post_bind, shl_w_post; [lia|]. intros w Hwb.
  apply post_bind. eapply array_set; [exact Hw|lia|exact Hwb|]. intros Hw'. by simpl.
Qed.

Lemma weight_high_step_post weight i :
  array 17 (2 ^ 16) weight -> 1 <= i <= 16 ->
  post (weight_high_step weight i) (array 17 (2 ^ 16)) QE.
Proof.
  intros Hw Hi. unfold weight_high_step. apply post_bind, shl_w_post; [lia|]. intros w Hwb.
  eapply array_set; [exact Hw|lia|exact Hwb|done].
Qed.

(** The state of the symbol loop. *)
Definition sym_inv (t0 : Tables) (s : list Z * Tables * Z) : Prop :=
  let '(start, t, avail) := s in
  array 18 (2 ^ 16) start /\ tables_wf t /\ same_lens t0 t /\ 0 <= avail.

Lemma same_lens_trans a b c : same_lens a b -> same_lens b c -> same_lens a c.
Proof. intros [] []. split; congruence. Qed.

Definition width_ok (w : Which) (tb : Z) : Prop := 1 <= tb <= 15 /\ 2 ^ tb = table_size w.

Lemma symbol_step_post t0 w tb mask weight s cl :
  width_ok w tb -> array 17 (2 ^ 16) weight -> sym_inv t0 s ->
  0 <= fst cl < TREE -> 0 <= snd cl ->
  post (symbol_step w tb (16 - tb) (Z.shiftl 1 tb) mask weight s cl) (sym_inv t0) QE.
Proof.
  destruct s as [[start t] avail], cl as [ci len]. intros [Htb Hts] Hw (Hst & Ht & Hsl & Ha) Hci Hlen.
  simpl in *. unfold symbol_step.
  destruct (_ || _) eqn:Hg; [by split_and!|]. bool_to_prop.
  assert (1 <= len <= 16) as Hl by lia.
  apply post_bind. eapply array_index; [exact Hst|lia|]. intros st _ Hstb.
  apply post_bind. eapply array_index; [exact Hw|lia|]. intros wt _ Hwtb.
  rewrite (wrap_small 16 ci) by (unfold TREE, NC in Hci; lia).
  apply post_bind. apply (post_mono _ (fun ta : Tables * Z =>
    tables_wf (fst ta) /\ same_lens t0 (fst ta) /\ 0 <= snd ta) _ (fun e => QE e) _).
  - destruct (len <=? tb) eqn:Hlt.
    + apply post_bind. eapply post_mono.
      * apply (foldM_post _ (fun t => tables_wf t /\ same_lens t0 t)); [|by split].
        intros t1 i Hi%elem_of_seqZ [Ht1 Hs1]. destruct (Z.leb_spec (Z.shiftl 1 tb) i); [done|].
        rewrite Z.shiftl_1_l in *.
        eapply post_mono; [apply slot_set_post; [done| |done]| |done].
        -- simpl. rewrite <-Hts. lia.
        -- intros t' [? ?]. split; [done|]. by eapply same_lens_trans.
      * intros t1 [? ?]. by simpl.
      * done.
    + apply post_bind. eapply post_mono.
      * apply (foldM_post _ (fun s : Tables * Z * Slot * Z =>
          let '(t1, a1, p1, _) := s in
          tables_wf t1 /\ same_lens t0 t1 /\ slot_ok w p1 /\ 0 <= a1)).
        -- intros [[[t1 a1] p1] i1] i _ (Ht1 & Hs1 & Hp1 & Ha1).
           eapply post_mono; [by apply tree_step_post| |done].
           intros [[[t2 a2] p2] i2] (? & ? & ? & ?). split_and!; auto. by eapply same_lens_trans.
        -- split_and!; auto. simpl. rewrite <-Hts. apply shiftr_bound; [lia|lia|].
           by replace (tb + (16 - tb)) with 16 by lia.
      * intros [[[t1 a1] p1] i1] (Ht1 & Hs1 & Hp1 & Ha1). apply post_bind.
        eapply post_mono; [by apply slot_set_post| |done].
        intros t2 [? ?]. simpl. split_and!; auto. by eapply same_lens_trans.
      * done.
  - intros [t1 a1] (Ht1 & Hs1 & Ha1). simpl in *. apply post_bind.
    eapply array_set; [exact Hst|lia|by apply wrap_bounds|]. intros Hst'. by simpl.
  - done.
Qed.

Definition bit_len (t : Tables) (w : Which) : list Z :=
  match w with W_Pt => pt_len t | W_Cl => c_len t end.

Lemma make_table_post t n tb w :
  tables_wf t -> width_ok w tb -> 0 <= n <= blen (bit_len t w) -> n <= NC ->
  post (make_table t n tb w)
    (fun t' => tables_wf t' /\ same_lens t t' /\ lens_ok n (bit_len t w)) QE.
Proof.
  intros Ht Hwok Hn HnC. pose proof Hwok as [Htb Hts].
  unfold make_table. replace (16 <=? tb) with false by lia. fold (bit_len t w).
  apply post_bind, slice_post; [lia..|]. fold (lens_ok n (bit_len t w)).
  set (lens := sub (bit_len t w) 0 n).
  assert (blen lens = n) as Hlens by (unfold lens; rewrite blen_sub; lia).
  assert (Forall (fun x => 0 <= x) lens) as Hpos.
  { unfold lens, sub. apply Forall_take, Forall_drop.
    destruct Ht, w; simpl; eapply Forall_impl; (apply tw_pt_len0 || apply tw_c_len0 || idtac);
      intros; cbn beta in *; lia. }
  unfold NC in HnC. apply post_bind. eapply post_mono; [apply (count_post _ _ 0)| |done].
  { apply (array_replicate 17 (0 + 1) 0); lia. } { lia. } { lia. } { done. }
  intros count [Hcount Hlen]. apply post_bind. eapply post_mono.
  { apply (foldM_post _ (array 18 (2 ^ 16))); [|apply (array_replicate 18); lia].
    intros s i Hi%elem_of_seqZ Hs. apply start_step_post; [done|done|lia]. }
  2: done.
  intros start Hstart. apply post_bind. eapply array_index; [exact Hstart|lia|]. intros s17 _ _.
  destruct (negb _); [done|]. apply post_bind. eapply post_mono.
  { apply (foldM_post _ (fun sw => array 18 (2 ^ 16) (fst sw) /\ array 17 (2 ^ 16) (snd sw))).
    - intros sw i Hi%elem_of_seqZ [? ?]. apply weight_step_post; auto; lia.
    - split; [done|]. apply (array_replicate 17); lia. }
  2: done.
  intros [start' weight] [Hst Hwt]. simpl in Hst, Hwt. apply post_bind. eapply post_mono.
  { apply (foldM_post _ (array 17 (2 ^ 16))); [|done].
    intros w' i Hi%elem_of_seqZ Hs. apply weight_high_step_post; [done|lia]. }
  2: done.
  intros weight' Hwt'. apply post_bind. eapply array_index; [exact Hst|lia|]. intros s _ Hsb.
  apply post_bind, shr_w_post; [lia|].
  set (t1 := if _ && _ then _ else t).
  assert (tables_wf t1 /\ same_lens t t1) as [Ht1 Hs1].
  { unfold t1. destruct (_ && _) eqn:Hz; [|by split]. bool_to_prop.
    rewrite Z.shiftl_1_l in *.
    assert (0 <= Z.shiftr s (16 - tb) <= table_size w) as Hzb.
    { split; [apply Z.shiftr_nonneg; lia|lia]. }
    destruct Ht, w; (split; [|done]); constructor; simpl; try done;
      apply array_zero_from; auto; unfold TREE, NC; lia. }
  apply post_bind, shl_w_post; [lia|]. intros mask _. apply post_bind. eapply post_mono.
  { apply (foldM_post _ (sym_inv t)).
    - intros s1 cl Hcl Hinv. destruct cl as [ci len].
      apply symbol_step_post; auto; simpl.
      + apply elem_of_zip_l, elem_of_seqZ in Hcl. unfold TREE, NC. lia.
      + apply elem_of_zip_r in Hcl. rewrite Forall_forall in Hpos. by apply Hpos.
    - split_and!; auto; lia. }
  - intros [[s1 t2] a2] (_ & Ht2 & Hs2 & _). by simpl.
  - done.
Qed.
End MakeTable.

(** ** Code lengths and symbols *)

#[local] Arguments fill_buf : simpl never.
#[local] Arguments Z.shiftr : simpl never.
#[local] Arguments Z.shiftl : simpl never.
#[local] Arguments get_bits : simpl never.
#[local] Arguments make_table : simpl never.
#[local] Arguments decode_symbol : simpl never.

Section Symbols.
Context (QE : DecompressError -> Prop) (QE_corrupted : QE Corrupted).

Lemma log2_half m : 1 < m -> Z.log2 (Z.shiftr m 1) = Z.log2 m - 1.
Proof.
  intros Hm. rewrite Z.log2_shiftr by lia.
  assert (1 <= Z.log2 m) by (apply (Z.log2_le_pow2 m 1); lia). lia.
Qed.

Lemma shiftr1_pos m : 1 < m -> 0 < Z.shiftr m 1.
Proof. intros. rewrite Z.shiftr_div_pow2 by lia. change (2 ^ 1) with 2. zdm. Qed.

(** Bits left under the mask of a length code. *)
Definition mask_left (m : Z) : Z := if m =? 0 then 0 else Z.log2 m + 1.

Lemma mask_left_half m : 0 < m -> 0 <= Z.shiftr m 1 /\ mask_left (Z.shiftr m 1) = mask_left m - 1.
Proof.
  intros Hm. unfold mask_left. replace (m =? 0) with false by lia.
  destruct (decide (m = 1)) as [->|]; [done|].
  pose proof (shiftr1_pos m ltac:(lia)). split; [lia|].
  replace (Z.shiftr m 1 =? 0) with false by lia. rewrite log2_half by lia. lia.
Qed.

Lemma unary_post buf :
  post (loop 40 (unary_step buf) (Z.shiftl 1 (BITBUF - 1 - 3), 7)) (fun c => 7 <= c <= 36) QE.
Proof.
  apply (loop_post _ (fun s => 0 <= fst s /\ 7 <= snd s /\ snd s + mask_left (fst s) <= 36)
    (fun s => Z.to_nat (mask_left (fst s)))).
  - intros [m c] (Hm & Hc & Hs). simpl in *. unfold unary_step.
    assert (0 <= mask_left m) as Hml
      by (unfold mask_left; pose proof (Z.log2_nonneg m); destruct (m =? 0); lia).
    destruct (negb _) eqn:Hb; simpl; [|lia].
    assert (0 < m) as Hm'.
    { destruct (decide (m = 0)) as [->|]; [|lia]. by rewrite Z.land_0_l in Hb. }
    destruct (mask_left_half m Hm') as [? Heq]. rewrite Heq. unfold mask_left in *.
    replace (m =? 0) with false in * by lia. pose proof (Z.log2_nonneg m). lia.
  - done.
  - vm_compute. lia.
Qed.

Lemma walk_post t buf limit k c :
  tables_wf t -> 0 <= k < 32 -> 0 <= c < TREE ->
  post (loop 40 (walk_step t buf limit) (Z.shiftl 1 k, c)) (fun c => 0 <= c < limit) QE.
Proof.
  intros Ht Hk Hc. rewrite Z.shiftl_1_l.
  apply (loop_post _ (fun s => 0 < fst s /\ 0 <= snd s < TREE) (fun s => Z.to_nat (Z.log2 (fst s)))).
  - intros [m x] [Hm Hx]. simpl in *. unfold walk_step. apply post_bind.
    apply (post_mono _ (fun x => 0 <= x < TREE) _ (fun e => QE e) _); [| |done].
    + destruct (negb _); (eapply array_index; [apply Ht|done|done]).
    + intros y Hy. destruct (Z.ltb_spec y limit); simpl; [lia|].
      destruct (Z.eqb_spec (Z.shiftr m 1) 0) as [|Hne]; [done|].
      assert (1 < m) as Hm1.
      { destruct (decide (m = 1)) as [->|]; [|lia]. by destruct Hne. }
      pose proof (shiftr1_pos m Hm1). simpl. split; [done|]. rewrite log2_half by done.
      assert (1 <= Z.log2 m) by (apply (Z.log2_le_pow2 m 1); lia). lia.
  - split; [|done]. simpl. apply Z.pow_pos_nonneg; lia.
  - simpl. rewrite Z.log2_pow2 by lia. lia.
Qed.

Lemma decode_symbol_post t table buf bits limit :
  tables_wf t -> array (2 ^ bits) TREE table -> 0 <= buf < 2 ^ 32 -> 0 < bits < 32 ->
  post (decode_symbol t table buf bits limit) (fun c => 0 <= c < limit) QE.
Proof.
  intros Ht Ha Hb Hbits. unfold decode_symbol, BITBUF. apply post_bind.
  eapply array_index; [exact Ha| |].
  { apply shiftr_bound; [lia|lia|]. by replace (bits + (32 - bits)) with 32 by lia. }
  intros c _ Hc. destruct (Z.leb_spec limit c); [|simpl; lia].
  apply walk_post; [done|lia|done].
Qed.

Lemma zeros_post n limit ks l idx :
  array n 256 l -> limit <= n -> 0 <= idx ->
  post (foldM (zeros_step limit) ks (l, idx)) (fun r =>
    array n 256 (fst r) /\ idx <= snd r /\ (ks <> [] -> idx < limit -> idx < snd r)) QE.
Proof.
  intros Ha Hlim. revert l idx Ha. induction ks as [|k ks IH]; intros l idx Ha Hi; [by split_and!|].
  cbn [foldM]. apply post_bind. unfold zeros_step at 1. destruct (Z.leb_spec limit idx).
  - apply post_ret. eapply post_mono; [by apply IH| |done]. intros r (? & ? & ?).
    split_and!; auto. lia.
  - apply post_bind. eapply array_set; [exact Ha|lia|lia|]. intros Ha'.
    apply post_ret. eapply post_mono; [apply IH; [done|lia]| |done]. intros r (? & ? & ?).
    split_and!; auto; lia.
Qed.

Lemma fill_zero_to_post n l k :
  array n 256 l -> 0 <= k <= n ->
  post (fill_zero_to l k) (fun l' => array n 256 l' /\ lens_ok k l') QE.
Proof.
  intros [Hl Hf] Hk. unfold fill_zero_to, range_ok.
  replace ((0 <=? 0) && (0 <=? k) && (k <=? blen l)) with true by lia. simpl.
  assert (blen (replicate (Z.to_nat k) 0) = k) as Hr by (rewrite blen_replicate; lia).
  split; [split|].
  - rewrite blen_app, Hr. unfold blen in *. rewrite length_drop. lia.
  - apply Forall_app. split; [apply Forall_replicate; lia|by apply Forall_drop].
  - unfold lens_ok. pose proof (sub_app_exact (replicate (Z.to_nat k) 0) (drop (Z.to_nat k) l)) as Hs.
    rewrite Hr in Hs. rewrite Hs. apply Forall_replicate. lia.
Qed.

Lemma pt_len_step_post number special s :
  (let '(b, l, idx) := s in bits_wf b /\ array NPT 256 l /\ 0 <= idx) ->
  post (pt_len_step number special s) (fun r =>
    match r with
    | inl s' => (let '(b, l, idx) := s' in bits_wf b /\ array NPT 256 l /\ 0 <= idx) /\
                snd s < NPT /\ snd s < snd s'
    | inr (b, l, idx) => bits_wf b /\ array NPT 256 l /\ 0 <= idx
    end) QE.
Proof.
  destruct s as [[b l] idx]. intros (Hb & Hl & Hi). unfold pt_len_step.
  destruct (_ && _) eqn:Hg; [|done]. bool_to_prop.
  pose proof Hb as [_ _ _ _ Hbuf _].
  assert (0 <= Z.shiftr (bit_buf b) (BITBUF - 3) < 2 ^ 3) as Hc0
    by (apply shiftr_bound; [done|done|exact Hbuf]).
  apply post_bind. apply (post_mono _ (fun c => 0 <= c <= 36) _ (fun e => QE e) _); [| |done].
  { destruct (Z.eqb_spec (Z.shiftr (bit_buf b) (BITBUF - 3)) 7) as [->|].
    - eapply post_mono; [apply unary_post| |done]. simpl. lia.
    - simpl. lia. }
  intros c Hc. apply post_bind. eapply post_mono; [apply fill_buf_post; [done|]| |done].
  { destruct (c <? 7) eqn:?; lia. }
  intros b' Hb'. apply post_bind. eapply array_set; [exact Hl|lia|apply wrap_bounds; lia|].
  intros Hl'. destruct (_ =? special).
  - apply post_bind. eapply post_mono; [apply get_bits_post; [done|lia]| |done].
    intros [z b2] [_ Hb2]. cbn [fst snd] in *. apply post_bind.
    eapply post_mono; [by apply (zeros_post NPT); [done|done|lia]| |done].
    intros [l2 i2] (? & ? & _). simpl in *. split_and!; auto; lia.
  - simpl. split_and!; auto; lia.
Qed.

Definition reader_ok (nn : Z) (t : Tables) (bt : Bits * Tables) : Prop :=
  bits_wf (fst bt) /\ tables_wf (snd bt) /\ lens_ok nn (pt_len (snd bt)) /\
  c_len (snd bt) = c_len t.

Lemma set_pt_len_wf t l : tables_wf t -> array NPT 256 l -> tables_wf (set_pt_len l t).
Proof. intros [] ?. by constructor. Qed.

Lemma set_c_len_wf t l : tables_wf t -> array NC 256 l -> tables_wf (set_c_len l t).
Proof. intros [] ?. by constructor. Qed.

Lemma read_pt_len_post b t nn nbit special :
  bits_wf b -> tables_wf t -> 0 <= nn <= NPT -> 0 <= nbit <= 5 ->
  post (read_pt_len b t nn nbit special) (reader_ok nn t) QE.
Proof.
  intros Hb Ht Hnn Hnb. unfold read_pt_len, reader_ok. apply post_bind.
  eapply post_mono; [apply get_bits_post; [done|lia]| |done]. intros [n1 b1] [_ Hb1].
  cbn [fst snd] in *. destruct (_ || _) eqn:Hg; [done|]. bool_to_prop.
  destruct (_ =? 0).
  - apply post_bind. eapply post_mono; [apply get_bits_post; [done|lia]| |done].
    intros [c b2] [Hc Hb2]. cbn [fst snd] in *.
    apply post_bind. eapply post_mono; [apply fill_zero_to_post; [apply Ht|done]| |done].
    intros l [Hl Hlens]. cbn. split_and!; auto. apply set_pt_len_wf; [|done].
    destruct Ht. constructor; cbn; auto.
    assert (2 ^ nbit <= 2 ^ 5) by (apply Z.pow_le_mono_r; lia).
    apply (array_replicate 256 TREE); [done|]. rewrite wrap_small by lia. unfold TREE, NC. lia.
  - apply post_bind. eapply post_mono.
    + apply (loop_post _ (fun s : Bits * list Z * Z =>
        let '(b, l, idx) := s in bits_wf b /\ array NPT 256 l /\ 0 <= idx)
        (fun s => Z.to_nat (NPT - snd s)) (fun s : Bits * list Z * Z =>
          let '(b, l, idx) := s in bits_wf b /\ array NPT 256 l /\ 0 <= idx) QE).
      * intros s Hs. eapply post_mono; [by apply pt_len_step_post| |done].
        intros [s'|s']; [|done]. intros (? & ? & ?). split; [done|lia].
      * split_and!; [done|apply Ht|done].
      * vm_compute. lia.
    + intros [[b2 l2] i2] (Hb2 & Hl2 & Hi2). apply post_bind.
      eapply post_mono; [by apply (zeros_post NPT)| |done].
      intros [l3 i3] (Hl3 & _). cbn [fst snd] in *. apply post_bind.
      pose proof (set_pt_len_wf t l3 Ht Hl3) as Ht3. eapply post_mono.
      * apply (make_table_post QE QE_corrupted _ nn 8 W_Pt); [done|split; [lia|done]| |].
        -- change (0 <= nn <= blen l3). destruct Hl3 as [-> _]. done.
        -- change NPT with 31 in Hnn. unfold NC. lia.
      * intros t4 (Ht4 & [Hc Hp] & Hlens). simpl. split_and!; auto. by rewrite Hp.
      * done.
    + done.
Qed.
End Symbols.

#[local] Arguments read_pt_len : simpl never.
#[local] Arguments make_table : simpl never.

Section Decoding.
Context (QE : DecompressError -> Prop) (QE_corrupted : QE Corrupted).

Lemma pt_table_array t : tables_wf t -> array (2 ^ 8) TREE (pt_table t).
Proof. by intros []. Qed.

Lemma c_table_array t : tables_wf t -> array (2 ^ 12) TREE (c_table t).
Proof. by intros []. Qed.

Definition clen_inv (s : Bits * list Z * Z) : Prop :=
  let '(b, l, idx) := s in bits_wf b /\ array NC 256 l /\ 0 <= idx.

Lemma c_len_step_post t number s :
  tables_wf t -> lens_ok NT (pt_len t) -> clen_inv s ->
  post (c_len_step t number s) (fun r =>
    match r with
    | inl s' => clen_inv s' /\ snd s < NC /\ snd s < snd s'
    | inr s' => clen_inv s'
    end) QE.
Proof.
  destruct s as [[b l] idx]. intros Ht Hlens (Hb & Hl & Hi). unfold c_len_step.
  destruct (_ && _) eqn:Hg; [|by split_and!]. bool_to_prop. pose proof Hb as [_ _ _ _ Hbuf _].
  apply post_bind. eapply post_mono;
    [apply decode_symbol_post; [done|done|by apply pt_table_array|exact Hbuf|lia]| |done].
  intros c Hc. apply post_bind.
  eapply array_index; [apply Ht|unfold NT in Hc; change NPT with 31; lia|]. intros n Hn _.
  assert (0 <= n <= 16) as Hn'.
  { eapply lens_ok_get; [exact Hlens|exact Hc| |exact Hn]. destruct Ht as [_ _ _ [-> _] _ _]. done. }
  apply post_bind. eapply post_mono; [apply fill_buf_post; [done|lia]| |done]. intros b1 Hb1.
  destruct (Z.leb_spec c 2) as [Hc2|Hc2].
  - apply post_bind. apply (post_mono _ (fun zb : Z * Bits => 0 < fst zb /\ bits_wf (snd zb)) _
      (fun e => QE e) _).
    + destruct (c =? 0); [by simpl|].
      destruct (c =? 1); apply post_bind;
        (eapply post_mono; [apply get_bits_post; [done|unfold CBIT; lia]| |done]);
        intros [z b2] [_ Hb2]; cbn [fst snd] in *; pose proof (wrap_bounds 16 z ltac:(lia));
        simpl; split; done || lia.
    + intros [zeros b2] [Hz Hb2]. cbn [fst snd] in *. apply post_bind.
      eapply post_mono; [by apply (zeros_post QE NC NC (seqZ 0 zeros))| |done].
      intros [l2 i2] (? & ? & Hlt). simpl in *. split_and!; auto; [lia|lia|].
      apply Hlt; [|lia]. intros Hnil. apply (f_equal length) in Hnil.
      rewrite length_seqZ in Hnil. simpl in Hnil. lia.
    + done.
  - apply post_bind. eapply array_set; [exact Hl|lia|apply wrap_bounds; lia|]. intros Hl'.
    simpl. split_and!; auto; lia.
Qed.

Lemma read_clen_post b t :
  bits_wf b -> tables_wf t -> lens_ok NT (pt_len t) ->
  post (read_clen b t) (fun bt =>
    bits_wf (fst bt) /\ tables_wf (snd bt) /\ lens_ok NC (c_len (snd bt)) /\
    pt_len (snd bt) = pt_len t) QE.
Proof.
  intros Hb Ht Hlens. unfold read_clen. apply post_bind.
  eapply post_mono; [apply get_bits_post; [done|unfold CBIT; lia]| |done].
  intros [n1 b1] [_ Hb1]. cbn [fst snd] in *. destruct (_ =? 0).
  - apply post_bind. eapply post_mono; [apply get_bits_post; [done|unfold CBIT; lia]| |done].
    intros [c b2] [Hc Hb2]. cbn [fst snd] in *. cbn -[replicate]. split_and!; auto.
    + destruct Ht. constructor; cbn -[replicate]; auto.
      * by apply (array_replicate NC 256).
      * apply (array_replicate 4096 TREE); [done|]. unfold CBIT in Hc.
        rewrite wrap_small by lia. unfold TREE, NC. lia.
    + apply (lens_ok_zero NC NC).
  - apply post_bind. eapply post_mono.
    + apply (loop_post _ clen_inv (fun s => Z.to_nat (NC - snd s)) clen_inv QE).
      * intros s Hs. eapply post_mono; [by apply c_len_step_post| |done].
        intros [s'|s']; [|done]. intros (? & ? & ?). split; [done|lia].
      * split_and!; [done|apply Ht|done].
      * unfold NC. simpl. lia.
    + intros [[b2 l2] i2] (Hb2 & Hl2 & Hi2). apply post_bind.
      eapply post_mono; [by apply (zeros_post QE NC)| |done].
      intros [l3 i3] (Hl3 & _). cbn [fst snd] in *. apply post_bind.
      pose proof (set_c_len_wf t l3 Ht Hl3) as Ht3. eapply post_mono.
      * apply (make_table_post QE QE_corrupted _ NC 12 W_Cl); [done|split; [lia|done]| |done].
        change (0 <= NC <= blen l3). destruct Hl3 as [-> _]. done.
      * intros t4 (Ht4 & [Hc Hp] & Hl4). simpl. split_and!; auto. by rewrite Hc.
      * done.
    + done.
Qed.

(** ** The decoder *)

Record dec_wf (d : Decoder) : Prop := {
  dw_bits : bits_wf (bits d);
  dw_tables : tables_wf (tables d);
  dw_pt : lens_ok MAXNP (pt_len (tables d));
  dw_c : lens_ok NC (c_len (tables d));
  dw_orig : blen (out d) = orig_size d;
  dw_max : orig_size d <= MAX_ORIG_SIZE;
  dw_pos : 0 <= out_pos d <= orig_size d;
  dw_pbit : 4 <= p_bit d <= 5
}.

(** The output side of the decoder is unchanged. *)
Definition same_out (d d' : Decoder) : Prop :=
  out d' = out d /\ out_pos d' = out_pos d /\ orig_size d' = orig_size d.

Lemma dec_wf_set_bits b d : bits_wf b -> dec_wf d -> dec_wf (set_bits b d).
Proof. intros ? []. by constructor. Qed.

Lemma decode_c_post d :
  dec_wf d ->
  post (decode_c d) (fun cd => 0 <= fst cd < NC /\ dec_wf (snd cd) /\ same_out d (snd cd)) QE.
Proof.
  intros Hd. unfold decode_c. apply post_bind.
  apply (post_mono _ (fun d' => dec_wf d' /\ same_out d d') _ (fun e => QE e) _); [| |done].
  - destruct (_ =? 0); [|by split].
    destruct Hd as [Hb Ht Hpt Hc Ho Hm Hp Hpb]. apply post_bind.
    eapply post_mono; [apply get_bits_post; [done|lia]| |done]. intros [sz b1] [_ Hb1].
    apply post_bind. eapply post_mono;
      [apply (read_pt_len_post QE QE_corrupted b1 (tables d) NT TBIT 3); [done|done|done|done]| |done].
    intros [b2 t2] (Hb2 & Ht2 & Hl2 & Hc2). cbn [fst snd] in *. apply post_bind.
    eapply post_mono; [by apply read_clen_post| |done].
    intros [b3 t3] (Hb3 & Ht3 & Hl3 & Hp3). cbn [fst snd] in *. apply post_bind.
    eapply post_mono;
      [apply (read_pt_len_post QE QE_corrupted b3 t3 MAXNP); [done|done|done|lia]| |done].
    intros [b4 t4] (Hb4 & Ht4 & Hl4 & Hc4). cbn [fst snd] in *. simpl.
    split; [|done]. constructor; simpl; auto. by rewrite Hc4.
  - intros d1 [Hd1 Hs1]. set (d2 := set_block_size _ d1).
    assert (dec_wf d2 /\ same_out d d2) as [Hd2 Hs2] by (destruct Hd1; split; [by constructor|done]).
    clearbody d2. pose proof Hd2 as [Hb2 Ht2 _ Hc2 _ _ _ _]. pose proof Hb2 as [_ _ _ _ Hbuf _].
    apply post_bind. eapply post_mono;
      [apply decode_symbol_post; [done|done|by apply c_table_array|exact Hbuf|lia]| |done].
    intros c Hc. apply post_bind. eapply array_index; [apply Ht2|exact Hc|]. intros n Hn _.
    assert (0 <= n <= 16) as Hn'.
    { eapply lens_ok_get; [exact Hc2|exact Hc| |exact Hn]. destruct Ht2 as [_ _ [-> _] _ _ _]. done. }
    apply post_bind. eapply post_mono; [apply fill_buf_post; [done|lia]| |done]. intros b3 Hb3.
    apply post_ret. split; [exact Hc|]. split; [by apply dec_wf_set_bits|exact Hs2].
Qed.

Lemma decode_p_post d :
  dec_wf d ->
  post (decode_p d) (fun pd => 0 <= fst pd < 2 ^ 30 /\ dec_wf (snd pd) /\ same_out d (snd pd)) QE.
Proof.
  intros Hd. pose proof Hd as [Hb Ht Hpt _ _ _ _ _]. pose proof Hb as [_ _ _ _ Hbuf _].
  unfold decode_p. apply post_bind. eapply post_mono;
    [apply decode_symbol_post; [done|done|by apply pt_table_array|exact Hbuf|lia]| |done].
  intros v Hv. unfold MAXNP in Hv. apply post_bind.
  eapply array_index; [apply Ht|change NPT with 31; lia|]. intros n Hn _.
  assert (0 <= n <= 16) as Hn'.
  { eapply lens_ok_get; [exact Hpt|exact Hv| |exact Hn]. destruct Ht as [_ _ _ [-> _] _ _]. done. }
  apply post_bind. eapply post_mono; [apply fill_buf_post; [done|lia]| |done]. intros b1 Hb1.
  destruct (Z.ltb_spec 1 v).
  - unfold shl_w. replace ((0 <=? v - 1) && (v - 1 <? 32)) with true by lia. simpl.
    apply post_bind. eapply post_mono; [apply get_bits_post; [done|lia]| |done].
    intros [lo b2] [Hlo Hb2]. cbn [fst snd] in *. rewrite Z.shiftl_1_l.
    assert (2 ^ (v - 1) <= 2 ^ 29) by (apply Z.pow_le_mono_r; lia).
    pose proof (Z.pow_pos_nonneg 2 (v - 1) ltac:(lia) ltac:(lia)).
    rewrite wrap_small by lia. apply post_bind, add_w_post; [lia|].
    apply post_ret. cbn [fst snd]. split; [lia|]. split; [by apply dec_wf_set_bits|done].
  - apply post_ret. cbn [fst snd]. split; [lia|]. split; [by apply dec_wf_set_bits|done].
Qed.

Lemma emit_post d x :
  dec_wf d -> out_pos d < orig_size d ->
  post (emit d x) (fun d' => dec_wf d' /\ orig_size d' = orig_size d /\ out_pos d' = out_pos d + 1) QE.
Proof.
  intros [Hb Ht Hpt Hc Ho Hm Hp Hpb] Hlt. unfold emit.
  apply post_bind, set_at_post; [lia|]. simpl. split_and!; auto.
  constructor; simpl; auto; [by rewrite blen_insert|lia].
Qed.

(** Copying a match moves the cursor to the end of the match or of the output. *)
Lemma copy_match_post len idx d :
  dec_wf d -> 0 <= idx < 2 ^ 32 - 1 ->
  post (copy_match len idx d) (fun r => dec_wf (snd r) /\ orig_size (snd r) = orig_size d /\
    (fst r = false -> out_pos (snd r) = out_pos d + Z.of_nat len)) QE.
Proof.
  revert idx d. induction len as [|len IH]; intros idx d Hd Hi.
  { simpl. split_and!; auto. lia. }
  cbn [copy_match]. apply post_bind, add_w_post; [lia|].
  destruct (Z.leb_spec (orig_size d) (out_pos d)); [by simpl|].
  pose proof Hd as [_ _ _ _ Ho Hm Hp _]. unfold MAX_ORIG_SIZE in Hm.
  rewrite wrap_small by lia. destruct (Z.leb_spec (orig_size d) idx); [done|].
  apply post_bind, index_post; [lia|]. intros x _.
  apply post_bind. eapply post_mono; [by apply emit_post| |done].
  intros d1 (Hd1 & Hs1 & Hp1). eapply post_mono; [apply IH; [done|lia]| |done].
  intros [stop d2] (Hd2 & Hs2 & Hp2). simpl in *. split_and!; [done|congruence|].
  intros ->. rewrite Hp2 by done. lia.
Qed.
End Decoding.

(** A back reference to the output cursor itself: the start of the copied range is
    the largest index, whose successor does not exist. *)
Definition self_reference (d : Decoder) : Prop :=
  exists c d1 pos d2, decode_c d = Ok (c, d1) /\ 256 <= c /\ decode_p d1 = Ok (pos, d2) /\
    pos = out_pos d2.

Section Total.
Context (PP : Prop).

Lemma decode_step_upto d :
  dec_wf d -> (self_reference d -> PP) ->
  upto PP False (decode_step d) (fun r =>
    match r with
    | inl d' => dec_wf d' /\ orig_size d' = orig_size d /\ out_pos d < out_pos d' /\
                out_pos d < orig_size d
    | inr d' => dec_wf d' /\ orig_size d' = orig_size d
    end).
Proof.
  intros Hd Hself. unfold decode_step. apply upto_bind, (upto_mono _ (fun cd =>
    decode_c d = Ok cd /\ 0 <= fst cd < NC /\ dec_wf (snd cd) /\ same_out d (snd cd))).
  { apply upto_eq, (upto_post _ _ (fun _ => True)). by apply decode_c_post. }
  intros [c d1] (Hc & Hcb & Hd1 & _ & Hp1 & Ho1). cbn [fst snd] in *.
  destruct (Z.ltb_spec c 256).
  - destruct (Z.leb_spec (orig_size d1) (out_pos d1)); [by simpl|].
    apply upto_bind, (upto_post _ _ (fun _ => True)). eapply post_mono;
      [by apply (emit_post (fun _ => True))| |done].
    intros d2 (Hd2 & Ho2 & Hp2). simpl. split_and!; [done|lia|lia|lia].
  - apply upto_bind, (upto_mono _ (fun pd =>
      decode_p d1 = Ok pd /\ 0 <= fst pd < 2 ^ 30 /\ dec_wf (snd pd) /\ same_out d1 (snd pd))).
    { apply upto_eq, (upto_post _ _ (fun _ => True)). by apply decode_p_post. }
    intros [pos d2] (Hpd & Hpos & Hd2 & _ & Hp2 & Ho2). cbn [fst snd] in *.
    assert (out_pos d2 < 2 ^ 30) as Hlt by (destruct Hd2; unfold MAX_ORIG_SIZE in *; lia).
    assert (0 <= out_pos d2) as Hge by (destruct Hd2; lia).
    rewrite (wrap_small 32 (out_pos d2)) by lia. rewrite wrap_sub_l.
    set (len := Z.to_nat (c - (0x100 - THRESHOLD))).
    assert (3 <= Z.of_nat len) as Hlen by (unfold len, THRESHOLD; lia).
    apply upto_bind. destruct (decide (pos = out_pos d2)) as [Heq|Hne].
    + assert (copy_match len (wrap 32 (out_pos d2 - pos - 1)) d2 = Panic) as ->.
      { rewrite Heq. replace (out_pos d2 - out_pos d2 - 1) with (-1) by lia.
        destruct len as [|len]; [lia|]. done. }
      simpl. apply Hself. by exists c, d1, pos, d2.
    + apply (upto_post _ _ (fun _ => True)). eapply post_mono;
        [apply (copy_match_post (fun _ => True)); [done|done|]| |done].
      { pose proof (wrap_bounds 32 (out_pos d2 - pos - 1) ltac:(lia)) as Hw. split; [lia|].
        destruct (decide (0 <= out_pos d2 - pos - 1)).
        - rewrite wrap_small by lia. lia.
        - replace (out_pos d2 - pos - 1) with (2 ^ 32 + (out_pos d2 - pos - 1) + -1 * 2 ^ 32) by lia.
          unfold wrap. rewrite Z_mod_plus_full. rewrite Z.mod_small by lia. lia. }
      intros [stop d3] (Hd3 & Ho3 & Hp3). cbn [fst snd] in *. destruct stop; simpl; [split; [done|lia]|].
      specialize (Hp3 eq_refl).
      assert (out_pos d3 <= orig_size d3) by apply Hd3.
      destruct (_ <=? _); simpl; split_and!; done || lia.
Qed.

(** The decoder states of one run. *)
Inductive reaches (d0 : Decoder) : Decoder -> Prop :=
| reaches_refl : reaches d0 d0
| reaches_step d d' : reaches d0 d -> decode_step d = Ok (inl d') -> reaches d0 d'.

Lemma decode_upto d0 :
  dec_wf d0 -> (forall d, reaches d0 d -> self_reference d -> PP) ->
  upto PP False (decode d0) (fun d => dec_wf d /\ orig_size d = orig_size d0).
Proof.
  intros Hd0 Hself. unfold decode.
  apply (upto_loop _ (fun d => dec_wf d /\ orig_size d = orig_size d0 /\ reaches d0 d)
    (fun d => Z.to_nat (orig_size d0 - out_pos d))).
  - intros d (Hd & Ho & Hr).
    eapply upto_mono; [apply upto_eq, decode_step_upto; eauto|].
    intros [d'|d'] [Hs H]; cbn beta iota in *.
    + destruct H as (Hd' & Ho' & Hlt & Hlt'). split; [|lia].
      split_and!; [done|congruence|]. by eapply reaches_step.
    + destruct H. split; [done|congruence].
  - split_and!; auto. constructor.
  - pose proof (dw_pos _ Hd0). lia.
Qed.
End Total.

Lemma new_decoder_wf data comp orig pbit :
  0 <= comp -> comp + 8 <= blen data -> 0 <= orig <= MAX_ORIG_SIZE ->
  dec_wf (new_decoder data comp orig pbit).
Proof.
  intros Hc Hd Ho. unfold new_decoder. constructor; simpl.
  - constructor; simpl; try lia. unfold blen in *. rewrite length_drop. lia.
  - constructor; simpl; [by apply (array_replicate TREE TREE)|by apply (array_replicate TREE TREE)
      |by apply (array_replicate NC 256)|by apply (array_replicate NPT 256)
      |by apply (array_replicate 4096 TREE)|by apply (array_replicate 256 TREE)].
  - apply (lens_ok_zero MAXNP NPT).
  - apply (lens_ok_zero NC NC).
  - rewrite blen_replicate. lia.
  - lia.
  - lia.
  - by destruct pbit.
Qed.

(** The state in which the decoding of [data] starts. *)
Definition initial (data : list byte) (pbit : Pbit) (d0 : Decoder) : Prop :=
  exists b, let d := new_decoder data (le_dec (sub data 0 4)) (le_dec (sub data 4 8)) pbit in
    fill_buf (bits d) BITBUF = Ok b /\ d0 = set_bits b d.

Lemma decompress_upto (PP : Prop) data pbit :
  (forall d0 d, initial data pbit d0 -> reaches d0 d -> self_reference d -> PP) ->
  upto PP False (decompress data pbit) (fun o => blen o = le_dec (sub data 4 8)).
Proof.
  intros Hself. unfold decompress. destruct (Z.ltb_spec (blen data) 8) as [|Hl]; [done|].
  upto_step. apply (upto_post _ _ (fun _ => True)), rd_le_post; [lia|lia|lia|]. intros comp -> Hcb.
  upto_step. apply (upto_post _ _ (fun _ => True)), rd_le_post; [lia|lia|lia|]. intros orig -> Hob.
  change (0 + 4) with 4 in *. change (4 + 4) with 8 in *.
  set (comp := le_dec (sub data 0 4)) in *. set (orig := le_dec (sub data 4 8)) in *.
  destruct (Z.eqb_spec orig 0) as [Hz|Hz]; [simpl; by rewrite Hz|].
  destruct (Z.ltb_spec MAX_ORIG_SIZE orig); [done|].
  destruct (_ <=? _); [done|]. destruct (Z.ltb_spec (blen data) (comp + 8)); [done|].
  assert (dec_wf (new_decoder data comp orig pbit)) as Hwf by (apply new_decoder_wf; lia).
  upto_step. eapply upto_mono.
  - apply upto_eq, (upto_post _ _ (fun _ => True)), fill_buf_post; [apply Hwf|done].
  - intros b [Hb Hbw]. upto_step.
    eapply upto_mono; [apply decode_upto; [by apply dec_wf_set_bits|]|].
    + intros d Hr. apply Hself with (2 := Hr). by exists b.
    + intros d [Hd Ho]. cbn. rewrite (dw_orig _ Hd), Ho. done.
Qed.

(** C19. The Tiano decoder is total on every input: it returns exactly as many
    bytes as the header announces or reports [Corrupted], and every loop ends. The
    one panic is a match whose distance reaches one byte before the start of the
    output, met in a state of the run. *)
Theorem tiano_decompress_total data pbit :
  match decompress data pbit with
  | Ok o => blen o = le_dec (sub data 4 8)
  | Err _ => True
  | Panic => exists d0 d, initial data pbit d0 /\ reaches d0 d /\ self_reference d
  | Diverge => False
  end.
Proof.
  exact (decompress_upto (exists d0 d, initial data pbit d0 /\ reaches d0 d /\ self_reference d)
    data pbit (fun d0 d Hi Hr Hs => ex_intro _ d0 (ex_intro _ d (conj Hi (conj Hr Hs))))).
Qed.
