(* ===== verification/Codec.v ===== *)
(** Section decompression and LZMA recompression
    ([crates/uefi-engine/src/decompress.rs], [compress.rs]). The LZMA codecs
    themselves are the external crates [lzma-rs] and [liblzma]. *)
From S2P Require Import Prelude Tiano.

Inductive CompressError := EmptyInput | CompressFailed | RoundTripFailed.

Inductive LzmaMatchFinder := Bt2 | Bt3 | Bt4 | Hc4.

Record LzmaEncodeParams := {
  lc : Z;
  lp : Z;
  pb : Z;
  dict_size : Z;
  nice_len : Z;
  mf : LzmaMatchFinder
}.

(** The external codecs: [lzma_rs::lzma_decompress] on a whole stream and the
    raw LZMA1 encoder of [liblzma] run to the end of its input. Nothing is
    assumed of either: the engine checks every stream it produces. *)
Class LzmaLib := {
  lzma_rs_decompress : list byte -> option (list byte);
  encode_raw_lzma1 : list byte -> LzmaEncodeParams -> option (list byte)
}.

Section Codec.
Context {LL : LzmaLib}.

(** ** [decompress.rs] *)

Definition decompress_tiano (data : list byte) : dres (list byte) :=
  match Tiano.decompress data Pbit_Efi with
  | Err _ => Tiano.decompress data Pbit_Tiano
  | r => r
  end.

Definition decompress_lzma (data : list byte) : dres (list byte) :=
  if blen data <? 13 then Err Corrupted
  else ok_or Corrupted (lzma_rs_decompress data).

Definition decompress (data : list byte) (algorithm : byte) : dres (list byte) :=
  match algorithm with
  | x00 => Ok data
  | x01 => decompress_tiano data
  | x02 => decompress_lzma data
  | _ => Err Unsupported
  end.

Definition lzma_dictionary_size (data : list byte) : Z :=
  if 5 <=? blen data then le_dec (sub data 1 5) else 0.

(** ** [compress.rs] *)

Definition LzmaEncodeParams_default : LzmaEncodeParams :=
  {| lc := 0; lp := 0; pb := 0; dict_size := 0x01000000; nice_len := 273; mf := Bt4 |}.

Definition lzma_props_byte (lc lp pb : Z) : byte := z2b ((pb * 5 + lp) * 9 + lc).

Definition alone_stream (input : list byte) (p : LzmaEncodeParams)
  : outcome CompressError (list byte) :=
  raw ← ok_or CompressFailed (encode_raw_lzma1 input p);
  mret (lzma_props_byte (lc p) (lp p) (pb p) :: le_enc 4 (dict_size p)
        ++ le_enc 8 (blen input) ++ raw).

Definition round_trip_check (input stream : list byte) : outcome CompressError unit :=
  decoded ← map_err (fun _ => RoundTripFailed) (decompress stream x02);
  if bool_decide (decoded = input) then Ok tt else Err RoundTripFailed.

Definition compress_lzma (input : list byte) : outcome CompressError (list byte) :=
  if bool_decide (input = []) then Err EmptyInput
  else
    out ← alone_stream input LzmaEncodeParams_default;
    _ ← round_trip_check input out;
    mret out.

(** The sweep grid: [pb] in [0..=2], [lc] in [0..=4]. *)
Definition fit_grid : list LzmaEncodeParams :=
  pb ← seqZ 0 3;
  lc ← seqZ 0 5;
  mret {| lc := lc; lp := 0; pb := pb; dict_size := dict_size LzmaEncodeParams_default;
          nice_len := nice_len LzmaEncodeParams_default;
          mf := mf LzmaEncodeParams_default |}.

Definition fits (budget : option Z) (stream : list byte) : option Z :=
  match budget with
  | Some b => if blen stream <=? b then Some b else None
  | None => None
  end.

(** The two nested loops over the grid with their early return. *)
Fixpoint fit_sweep (input : list byte) (budget : option Z) (grid : list LzmaEncodeParams)
  (best : option (list byte)) : outcome CompressError (list byte) :=
  match grid with
  | [] =>
      stream ← unwrap best;
      _ ← round_trip_check input stream;
      mret stream
  | params :: grid =>
      stream ← alone_stream input params;
      match fits budget stream with
      | Some b =>
          let padded := resize_to stream b x00 in
          _ ← round_trip_check input padded;
          mret padded
      | None =>
          let shorter := match best with None => true | Some s => blen stream <? blen s end in
          fit_sweep input budget grid (if shorter then Some stream else best)
      end
  end.

Definition compress_lzma_fit (input : list byte) (budget : option Z)
  : outcome CompressError (list byte) :=
  if bool_decide (input = []) then Err EmptyInput
  else fit_sweep input budget fit_grid None.

(** ** Properties *)

Lemma round_trip_check_Ok input stream u :
  round_trip_check input stream = Ok u -> decompress stream x02 = Ok input.
Proof.
  unfold round_trip_check. intros H. ok_inv. by bool_to_prop; subst.
Qed.

(** What a result of the sweep is: it decodes to the input, and either fills
    the budget exactly or no candidate fits and it is as short as any. *)
Definition fit_result (input : list byte) (budget : option Z) (cands : list LzmaEncodeParams)
  (best : option (list byte)) (r : list byte) : Prop :=
  decompress r x02 = Ok input /\
  ((exists b, budget = Some b /\ blen r = b) \/
   ((forall p s, p ∈ cands -> alone_stream input p = Ok s ->
       fits budget s = None /\ blen r <= blen s) /\
    (forall s, best = Some s -> blen r <= blen s))).

Lemma fit_sweep_Ok input budget grid best r :
  fit_sweep input budget grid best = Ok r -> fit_result input budget grid best r.
Proof.
  revert best. induction grid as [|p grid IH]; intros best H; cbn [fit_sweep] in H.
  - ok_inv. destruct best as [s|]; simplify_eq/=. split.
    + by eapply round_trip_check_Ok.
    + right. split; [by intros ? ? ?%elem_of_nil|]. intros ? [= <-]. lia.
  - apply bind_Ok in H as (s & Hs & H). destruct (fits budget s) as [b|] eqn:Hf.
    + ok_inv. split; [by eapply round_trip_check_Ok|]. left. exists b.
      destruct budget as [b'|]; simpl in Hf; [|done].
      destruct (Z.leb_spec (blen s) b'); simplify_eq/=. split; [done|].
      apply blen_resize_to. pose proof (blen_nonneg s). lia.
    + apply IH in H as [Hd [Hb|[Hc Hb]]]; (split; [done|]); [by left|right].
      set (shorter := match best with None => true | Some s' => blen s <? blen s' end) in Hb.
      assert (blen r <= blen s) as Hrs.
      { destruct shorter eqn:Hsh; [by apply Hb|]. unfold shorter in Hsh.
        destruct best as [s'|]; [|done]. specialize (Hb s' eq_refl). lia. }
      split.
      * intros p' s' [->|Hin]%elem_of_cons Hs'; [|by eapply Hc].
        rewrite Hs in Hs'. injection Hs' as <-. done.
      * intros s' ->. unfold shorter in Hb. destruct (Z.ltb_spec (blen s) (blen s')).
        -- lia.
        -- by apply Hb.
Qed.

(** The check decodes with the LZMA algorithm only, so it never panics. *)
Lemma round_trip_check_post input stream :
  post (round_trip_check input stream) (fun _ => decompress stream x02 = Ok input)
    (fun e => e = RoundTripFailed).
Proof.
  unfold round_trip_check. cbn [decompress]. unfold decompress_lzma.
  destruct (_ <? _); simpl; [done|]. destruct (lzma_rs_decompress stream) as [d|]; simpl; [|done].
  case_bool_decide as Hd; simpl; [by rewrite Hd|done].
Qed.

(** How a sweep fails: a candidate that cannot be encoded, or a stream that does
    not decode to the input. *)
Definition fit_error (input : list byte) (cands : list LzmaEncodeParams) (e : CompressError) : Prop :=
  e = CompressFailed /\ (exists p, p ∈ cands /\ encode_raw_lzma1 input p = None) \/
  e = RoundTripFailed.

Lemma fit_sweep_total input budget grid best :
  is_Some best \/ grid <> [] ->
  post (fit_sweep input budget grid best) (fun _ => True) (fit_error input grid).
Proof.
  revert best. induction grid as [|p grid IH]; intros best Hb; cbn [fit_sweep].
  - destruct Hb as [[s ->]|]; [|done]. simpl. apply post_bind.
    eapply post_mono; [apply round_trip_check_post|done|]. intros e ->. by right.
  - apply post_bind. unfold alone_stream.
    destruct (encode_raw_lzma1 input p) as [r|] eqn:He; simpl.
    2:{ left. split; [done|]. exists p. split; [by left|done]. }
    destruct (fits budget _) as [b|].
    + apply post_bind. eapply post_mono; [apply round_trip_check_post|done|]. intros e ->. by right.
    + eapply post_mono; [apply IH|done|].
      * left. destruct best as [s|]; simpl; [destruct (_ <? _)|]; by eexists.
      * intros e [[-> (q & Hq & Hn)] | ->]; [left|by right]. split; [done|]. exists q.
        split; [by right|done].
Qed.

(** The slot-fitting compressor never panics, and a stream it returns decodes to
    its input; it has exactly the size of the slot when some parameters fit, and
    otherwise is as short as every candidate. *)
Theorem compress_lzma_fit_correct input budget :
  match compress_lzma_fit input budget with
  | Ok r => input <> [] /\ fit_result input budget fit_grid None r
  | Err EmptyInput => input = []
  | Err e => input <> [] /\ fit_error input fit_grid e
  | _ => False
  end.
Proof.
  unfold compress_lzma_fit. case_bool_decide as Hi; [done|].
  assert (fit_grid <> []) as Hgrid by (vm_compute; discriminate).
  pose proof (fit_sweep_total input budget fit_grid None (or_intror Hgrid)) as Ht.
  destruct (fit_sweep input budget fit_grid None) as [r|e| |] eqn:Hs; simpl in Ht; [|..|done|done].
  - split; [done|]. by apply fit_sweep_Ok.
  - destruct Ht as [[-> ?] | ->]; (split; [done|]); [by left; auto|by right].
Qed.

End Codec.
