(* ===== verification/Parser.v ===== *)
(** Volumes, files and sections ([parser/volume.rs], [parser/file.rs],
    [parser/section.rs], and [parse_firmware_volume]/[parse_volume_files] of
    [parser/image.rs]). The functions are mutually recursive through
    decompressed section data and nested firmware volumes: each takes the
    section parser of one level deeper as [rec], and [parse_sections] closes the
    recursion with the nesting depth as fuel. *)
From S2P Require Import Prelude Types Ffs Tiano Codec.

Inductive ParserError := InvalidHeader | UnknownType | EndOfBuffer.

Section Parser.
Context {GL : GuidLib} {LL : LzmaLib}.
Abbreviation pres := (outcome ParserError).

(** ** [parser/volume.rs] *)

Definition parse_volume (buf : list byte) (offset : Z) : pres FfsNode :=
  let off := offset in
  if blen buf <? off + 56 then Err EndOfBuffer
  else
    sig ← rd_le 4 buf (off + 40);
    if negb (sig =? EFI_FVH_SIGNATURE) then Err InvalidHeader
    else
      fv_length ← rd_le 8 buf (off + 32);
      let vol_size := fv_length in
      header_len ← rd_le 2 buf (off + 48);
      attributes ← rd_le 4 buf (off + 44);
      bad ← (if header_len <? 56 then mret true
             else if vol_size <? header_len then mret true
             else e ← uadd off vol_size; mret (blen buf <? e));
      if bad : bool then Err InvalidHeader
      else
        let empty := if negb (Z.land attributes EFI_FVB2_ERASE_POLARITY =? 0)
                     then xff else x00 in
        header ← slice buf off (off + header_len);
        body ← slice buf (off + header_len) (off + vol_size);
        rev ← index buf (off + 55);
        mret (mkNode None T_Volume x00 offset header body [] [] NoAction
                (PD_Volume {| extended_header_guid := None;
                              alignment := wrap 32 (Z.shiftl 1 (Z.land attributes 0x1F));
                              ffs_version := 2; empty_byte := empty; revision := rev |})
                false false []).

(** ** [parser/file.rs] *)

(** [b.get(..16)?.try_into().unwrap()]. *)
Definition guid_from_bytes (b : list byte) : option Guid :=
  arr ← get_range b 0 16; Some (guid_of_array arr).

Definition parse_file (buf : list byte) (offset : Z) (erase_polarity revision : byte)
  : pres FfsNode :=
  let off := offset in
  if blen buf <? off + 24 then Err EndOfBuffer
  else
    at_off ← slice_from buf off;
    let large := is_large_ffs at_off in
    let hdr_len := if large then 32 else 24 in
    if blen buf <? off + hdr_len then Err EndOfBuffer
    else
      gb ← slice buf off (off + 16);
      guid ← ok_or InvalidHeader (guid_from_bytes gb);
      ftype ← index buf (off + 18);
      total ← ffs_file_size at_off;
      if blen buf <? off + total then Err EndOfBuffer
      else if total <? hdr_len then Err InvalidHeader
      else
        header ← slice buf off (off + hdr_len);
        let tail_len := if bool_decide (revision = x01) then 2 else 0 in
        let body_end := off + total - tail_len in
        body ← (if off + hdr_len <? body_end then slice buf (off + hdr_len) body_end
                else mret []);
        tail ← (if 0 <? tail_len then slice buf body_end (body_end + tail_len) else mret []);
        mret (mkNode (Some guid) T_File ftype offset header body tail [] NoAction
                (PD_File {| fd_empty_byte := erase_polarity; fd_guid := guid |})
                false false []).

(** ** [parser/section.rs] *)

(** [data_offset.checked_sub(4)] and [body.get(start..)]. *)
Definition guided_payload (body : list byte) (data_offset : Z) : option (list byte) :=
  if data_offset <? 4 then None else get_range body (data_offset - 4) (blen body).

Definition guided_algorithm (guid : Guid) : option byte :=
  if is_lzma_guid guid then Some (compression_type_code CT_Lzma)
  else if is_tiano_guid guid then Some (compression_type_code CT_Standard)
  else None.

Definition decompress_guided_payload (guid : Guid) (body : list byte) (data_offset : Z)
  : option (list byte) :=
  payload ← guided_payload body data_offset;
  match guided_algorithm guid with
  | Some _ => Some payload
  | None => None
  end.

Section Nested.
(** [parse_sections] one level deeper. *)
Context (rec : list byte -> Z -> pure (list FfsNode)).

(** [match decompress(..) { Ok(d) => parse_sections(&d, 0), Err(_) => vec![] }]. *)
Definition sections_of_payload (payload : list byte) (algo : byte) : pure (list FfsNode) :=
  match Codec.decompress payload algo with
  | Ok decompressed => rec decompressed 0
  | Err _ => Ok []
  | Panic => Panic
  | Diverge => Diverge
  end.

Definition decompress_guided (guid : Guid) (body : list byte) (data_offset : Z)
  : pure (list FfsNode) :=
  match guided_algorithm guid with
  | None => Ok []
  | Some algo =>
      match guided_payload body data_offset with
      | None => Ok []
      | Some payload => sections_of_payload payload algo
      end
  end.

(** One turn of the file loop of [parse_volume_files]. *)
Definition volume_files_step (vbody : list byte) (body_start : Z) (erase rev : byte)
  (s : Z * list FfsNode) : pure (Z * list FfsNode + list FfsNode) :=
  let '(foff, files) := s in
  if foff + 24 <=? blen vbody then
    let foff := align8 foff in
    if blen vbody <? foff + 24 then mret (inr files)
    else
      head ← slice vbody foff (foff + 24);
      if forallb (fun b => bool_decide (b = erase)) head then mret (inr files)
      else
        match parse_file vbody (wrap 32 foff) erase rev with
        | Ok file_node =>
            let total := blen (header file_node) + blen (body file_node)
                         + blen (tail file_node) in
            ch ← rec (body file_node) 0;
            let file_node := set_children ch (set_offset (wrap 32 (body_start + foff)) file_node) in
            let files := files ++ [file_node] in
            if total =? 0 then mret (inr files) else mret (inl (foff + total, files))
        | Err _ => mret (inr files)
        | Panic => Panic
        | Diverge => Diverge
        end
  else mret (inr files).

Definition parse_volume_files (vbody : list byte) (body_start : Z) (erase rev : byte)
  : pure (list FfsNode) :=
  loop (length vbody + 1) (volume_files_step vbody body_start erase rev) (0, []).

Definition parse_firmware_volume (buf : list byte) (off : Z) : pure (option FfsNode) :=
  match parse_volume buf (wrap 32 off) with
  | Ok vol =>
      let vol_size := blen (header vol) + blen (body vol) in
      let '(erase, rev) :=
        match parsing_data vol with
        | PD_Volume vd => (empty_byte vd, revision vd)
        | _ => (xff, x02)
        end in
      let header_len := blen (header vol) in
      let body_start := off + header_len in
      let body_end := off + vol_size in
      vbody ← slice buf body_start body_end;
      ch ← parse_volume_files vbody body_start erase rev;
      mret (Some (set_children ch vol))
  | Err _ => mret None
  | Panic => Panic
  | Diverge => Diverge
  end.

Definition parse_nested_fv (sbody : list byte) : pure (list FfsNode) :=
  vol ← parse_firmware_volume sbody 0;
  match vol with
  | None => mret []
  | Some vol =>
      if negb (blen (header vol) + blen (body vol) =? blen sbody) then mret []
      else mret [vol]
  end.

(** The [match stype] of [parse_section]. *)
Definition section_contents (stype : byte) (sbody : list byte)
  : pres (ParsingData * list FfsNode) :=
  if bool_decide (stype = EFI_SECTION_GUID_DEFINED) && (20 <=? blen sbody) then
    gb ← slice sbody 0 16;
    guid ← ok_or InvalidHeader (guid_from_bytes gb);
    data_offset ← rd_le 2 sbody 16;
    _ ← rd_le 2 sbody 18;
    let dictionary_size :=
      match decompress_guided_payload guid sbody data_offset with
      | Some p => lzma_dictionary_size p
      | None => 0
      end in
    ch ← lift (decompress_guided guid sbody data_offset);
    mret (PD_GuidedSection {| gs_guid := guid; gs_dictionary_size := dictionary_size |}, ch)
  else if bool_decide (stype = EFI_SECTION_COMPRESSION) && (5 <=? blen sbody) then
    uncomp_size ← rd_le 4 sbody 0;
    comp_type ← index sbody 4;
    ch ← (if 5 <? blen sbody then
            payload ← slice_from sbody 5;
            lift (sections_of_payload payload comp_type)
          else mret []);
    mret (PD_CompressedSection {| uncompressed_size := uncomp_size;
                                  compression_type := comp_type;
                                  algorithm := comp_type; cs_dictionary_size := 0 |}, ch)
  else if bool_decide (stype = EFI_SECTION_FV_IMAGE) then
    ch ← lift (parse_nested_fv sbody);
    mret (PD_None, ch)
  else mret (PD_None, []).

Definition parse_section (buf : list byte) (offset : Z) : pres FfsNode :=
  let off := offset in
  if blen buf <? off + 4 then Err EndOfBuffer
  else
    at_off ← slice_from buf off;
    let hdr_len := if is_large_section at_off then 8 else 4 in
    size ← section_size at_off;
    if (size <? hdr_len) || (blen buf <? off + size) then Err InvalidHeader
    else
      stype ← index buf (off + 3);
      header ← slice buf off (off + hdr_len);
      sbody ← slice buf (off + hdr_len) (off + size);
      pc ← section_contents stype sbody;
      mret (mkNode None T_Section stype offset header sbody [] (snd pc) NoAction (fst pc)
              false (bool_decide (stype = EFI_SECTION_COMPRESSION)) []).

(** One turn of the loop of [parse_sections]. *)
Definition sections_step (buf : list byte) (s : Z * list FfsNode)
  : pure (Z * list FfsNode + list FfsNode) :=
  let '(off, nodes) := s in
  if off + 4 <=? blen buf then
    at_off ← slice_from buf off;
    let hdr_len := if is_large_section at_off then 8 else 4 in
    size ← section_size at_off;
    if (size <? hdr_len) || (blen buf <? off + size) then mret (inr nodes)
    else
      let aligned := Z.land (size + 3) (Z.lnot 3) in
      match parse_section buf (wrap 32 off) with
      | Ok node => mret (inl (off + aligned, nodes ++ [node]))
      | Err _ => mret (inr nodes)
      | Panic => Panic
      | Diverge => Diverge
      end
  else mret (inr nodes).
End Nested.

(** Closed over the nesting depth. *)
Fixpoint parse_sections (depth : nat) (buf : list byte) (start : Z)
  : pure (list FfsNode) :=
  match depth with
  | O => Diverge
  | S d => loop (length buf + 1) (sections_step (parse_sections d) buf) (start, [])
  end.

End Parser.
