(* ===== verification/Target.v ===== *)
(** Addressing nodes of the tree ([parser/target.rs]): the textual target
    grammar and the lookups by path, by GUID and by section of a GUID. *)
From S2P Require Import Prelude Text Types Ffs Tiano Codec Parser.

Section Target.
Context {GL : GuidLib}.
Abbreviation pres := (outcome ParserError).

(** ** The grammar *)

Definition COLON : Z := 58.
Definition SLASH : Z := 47.

(** [collect::<Result<Vec<usize>, _>>()] over the parts of a path. *)
Fixpoint parse_indices (parts : list ustring) : option (list Z) :=
  match parts with
  | [] => Some []
  | p :: ps => i ← parse_usize p; rest ← parse_indices ps; Some (i :: rest)
  end.

(** [Guid::from_str]. *)
Definition parse_guid (s : ustring) : pres Guid := ok_or InvalidHeader (guid_try_parse s).

Definition parse_guid_section (guid_str rest : ustring) : pres Target :=
  guid ← parse_guid guid_str;
  let parts := split_on COLON rest in
  part0 ← index parts 0;
  stype ← ok_or InvalidHeader (parse_uint 16 255 (trim_0x part0));
  sidx ← (if 1 <? blen parts then
            part1 ← index parts 1;
            i ← ok_or InvalidHeader (parse_usize part1);
            mret (Some i)
          else mret None);
  mret (TG_GuidSection guid (z2b stype) sidx).

Definition parse_target (s : ustring) : pres Target :=
  if match s with
     | [] => false
     | c :: _ => is_ascii_digit c && forallb (fun c => is_ascii_digit c || (c =? SLASH)) s
     end
  then match parse_indices (split_on SLASH s) with
       | Some path => Ok (TG_Path path)
       | None => Err InvalidHeader
       end
  else
    match break_at COLON s with
    | Some (guid_str, rest) =>
        if 36 <=? str_len guid_str then parse_guid_section guid_str rest
        else if str_len s =? 36 then guid ← parse_guid s; mret (TG_Guid guid)
        else Err InvalidHeader
    | None =>
        if str_len s =? 36 then guid ← parse_guid s; mret (TG_Guid guid)
        else Err InvalidHeader
    end.

(** ** Lookups *)

(** [node.children.get(i)]. *)
Definition child_at (n : FfsNode) (i : Z) : option FfsNode := get (children n) i.

Fixpoint node_at_path (n : FfsNode) (path : list Z) : option FfsNode :=
  match path with
  | [] => Some n
  | i :: path => c ← child_at n i; node_at_path c path
  end.

(** The three tests shared by [find_by_guid] and [find_path_by_guid]. *)
Definition guid_matches (g : Guid) (n : FfsNode) : bool :=
  bool_decide (n_guid n = Some g)
  || match parsing_data n with
     | PD_Volume vd => bool_decide (extended_header_guid vd = Some g)
     | _ => false
     end
  || match parsing_data n with
     | PD_GuidedSection gs => bool_decide (gs_guid gs = g)
     | _ => false
     end.

(** A [for] loop over enumerated children that returns the first hit. *)
Section FirstHit.
Context {R : Type} (f : Z -> FfsNode -> option R).
Fixpoint first_hit (i : Z) (cs : list FfsNode) : option R :=
  match cs with
  | [] => None
  | c :: cs => match f i c with Some r => Some r | None => first_hit (i + 1) cs end
  end.
End FirstHit.

Fixpoint find_by_guid (g : Guid) (n : FfsNode) : option FfsNode :=
  if guid_matches g n then Some n
  else first_hit (fun _ c => find_by_guid g c) 0 (children n).

Fixpoint find_path_by_guid (g : Guid) (n : FfsNode) (path : list Z) : option (list Z) :=
  if guid_matches g n then Some path
  else first_hit (fun i c => find_path_by_guid g c (path ++ [i])) 0 (children n).

(** The same loop threading the counter of matching sections. *)
Section CountedHit.
Context {R : Type} (f : Z -> FfsNode -> Z -> option R * Z).
Fixpoint counted_hit (i : Z) (cs : list FfsNode) (count : Z) : option R * Z :=
  match cs with
  | [] => (None, count)
  | c :: cs =>
      match f i c count with
      | (Some r, k) => (Some r, k)
      | (None, k) => counted_hit (i + 1) cs k
      end
  end.
End CountedHit.

(** One child of the search, [rec] being the search below it. *)
Definition section_hit (rec : FfsNode -> list Z -> Z -> option (FfsNode * list Z) * Z)
  (section_type : byte) (wanted : option Z) (path : list Z) (i : Z) (child : FfsNode) (count : Z)
  : option (FfsNode * list Z) * Z :=
  if negb (bool_decide (node_type child = T_Section)) then (None, count)
  else
    let is_type := bool_decide (subtype child = section_type) in
    let hit := is_type && match wanted with None => true | Some w => w =? count end in
    let count := if is_type then count + 1 else count in
    if hit then (Some (child, path ++ [i]), count)
    else if bool_decide (subtype child = EFI_SECTION_COMPRESSION)
            || bool_decide (subtype child = EFI_SECTION_GUID_DEFINED)
    then rec child (path ++ [i]) count
    else (None, count).

Fixpoint find_guid_section_dfs (section_type : byte) (wanted : option Z) (n : FfsNode)
  (path : list Z) (count : Z) {struct n} : option (FfsNode * list Z) * Z :=
  counted_hit (section_hit (find_guid_section_dfs section_type wanted) section_type wanted path)
    0 (children n) count.

Definition find_item (root : FfsNode) (t : Target) : pres FfsNode :=
  match t with
  | TG_Guid g => ok_or InvalidHeader (find_by_guid g root)
  | TG_Path indices => ok_or InvalidHeader (node_at_path root indices)
  | TG_GuidSection guid section_type section_index =>
      file ← ok_or InvalidHeader (find_by_guid guid root);
      ok_or InvalidHeader
        (fst <$> fst (find_guid_section_dfs section_type section_index file [] 0))
  end.

Definition find_item_path (root : FfsNode) (t : Target) : option (list Z) :=
  match t with
  | TG_Path indices => _ ← node_at_path root indices; Some indices
  | TG_Guid g => find_path_by_guid g root []
  | TG_GuidSection guid section_type section_index =>
      file_path ← find_path_by_guid guid root [];
      file ← node_at_path root file_path;
      r ← fst (find_guid_section_dfs section_type section_index file [] 0);
      Some (file_path ++ snd r)
  end.

(** ** Correctness of the lookups *)

Lemma node_at_path_app n p q :
  node_at_path n (p ++ q) = (m ← node_at_path n p; node_at_path m q).
Proof.
  revert n. induction p as [|i p IH]; intros n; simpl; [done|].
  destruct (child_at n i); simpl; auto.
Qed.

Section FirstHitFacts.
Context {R : Type}.

Lemma first_hit_Some (f : Z -> FfsNode -> option R) i cs r :
  first_hit f i cs = Some r ->
  exists k c, cs !! k = Some c /\ f (i + Z.of_nat k) c = Some r /\
    forall j c', (j < k)%nat -> cs !! j = Some c' -> f (i + Z.of_nat j) c' = None.
Proof.
  revert i. induction cs as [|c cs IH]; intros i; simpl; [done|].
  destruct (f i c) as [r'|] eqn:Hf.
  - intros [= ->]. exists 0%nat, c. rewrite Z.add_0_r. split_and!; auto; lia.
  - intros (k & c' & Hk & Hr & Hn)%IH. exists (S k), c'. split_and!; [done| |].
    + rewrite <-Hr. f_equal. lia.
    + intros [|j] d Hj Hd; simpl in *; [simplify_eq; by rewrite Z.add_0_r|].
      rewrite <-(Hn j d); [f_equal; lia|lia|done].
Qed.

Lemma first_hit_None (f : Z -> FfsNode -> option R) i cs :
  first_hit f i cs = None <->
  forall k c, cs !! k = Some c -> f (i + Z.of_nat k) c = None.
Proof.
  revert i. induction cs as [|c cs IH]; intros i; simpl; [done|].
  destruct (f i c) as [r|] eqn:Hf.
  - split; [done|]. intros H. specialize (H 0%nat c eq_refl). rewrite Z.add_0_r in H. congruence.
  - rewrite IH. split.
    + intros H [|k] d Hk; simpl in *; [simplify_eq; by rewrite Z.add_0_r|].
      rewrite <-(H k d Hk). f_equal. lia.
    + intros H k d Hk. rewrite <-(H (S k) d Hk). f_equal. lia.
Qed.
End FirstHitFacts.

Lemma child_at_lookup n k c :
  children n !! k = Some c -> child_at n (Z.of_nat k) = Some c.
Proof. intros H. apply get_Some. rewrite Nat2Z.id. split; [lia|done]. Qed.

(** Both lookups by GUID find the same node: the second gives its path. *)
Lemma find_by_guid_path g n path :
  match find_by_guid g n, find_path_by_guid g n path with
  | Some m, Some p => exists q, p = path ++ q /\ node_at_path n q = Some m
  | None, None => True
  | _, _ => False
  end.
Proof.
  revert path. induction n as [n IH] using FfsNode_tree_ind. intros path.
  destruct n as [gd ty st o h b tl ch a pd fx cp al]. cbn [find_by_guid find_path_by_guid].
  set (n := mkNode _ _ _ _ _ _ _ _ _ _ _ _ _) in *.
  destruct (guid_matches g n); [exists []; by rewrite app_nil_r|].
  change (children n) with ch. rewrite Forall_lookup in IH. change (children n) with ch in IH.
  destruct (first_hit (fun _ c => find_by_guid g c) 0 ch) as [m|] eqn:H1,
    (first_hit (fun i c => find_path_by_guid g c (path ++ [i])) 0 ch) as [p|] eqn:H2; [..|done].
  - apply first_hit_Some in H1 as (k & c & Hk & Hm & Hn1).
    apply first_hit_Some in H2 as (k' & c' & Hk' & Hp & Hn2).
    assert (k = k') as <-.
    { destruct (decide (k < k')%nat) as [Hlt|]; [|destruct (decide (k' < k)%nat) as [Hlt|]; [|lia]].
      - specialize (Hn2 _ _ Hlt Hk). specialize (IH _ _ Hk (path ++ [0 + Z.of_nat k])).
        by rewrite Hm, Hn2 in IH.
      - specialize (Hn1 _ _ Hlt Hk'). specialize (IH _ _ Hk' (path ++ [0 + Z.of_nat k'])).
        by rewrite Hn1, Hp in IH. }
    assert (c' = c) as -> by congruence.
    specialize (IH _ _ Hk (path ++ [0 + Z.of_nat k])).
    rewrite Hm, Hp in IH. destruct IH as (q & -> & Hq).
    exists ((0 + Z.of_nat k) :: q). rewrite <-app_assoc. split; [done|].
    cbn [node_at_path]. by rewrite Z.add_0_l, (child_at_lookup n k c).
  - apply first_hit_Some in H1 as (k & c & Hk & Hm & _).
    rewrite first_hit_None in H2. specialize (H2 _ _ Hk).
    specialize (IH _ _ Hk (path ++ [0 + Z.of_nat k])). by rewrite Hm, H2 in IH.
  - apply first_hit_Some in H2 as (k & c & Hk & Hp & _).
    rewrite first_hit_None in H1. specialize (H1 _ _ Hk). simpl in H1.
    specialize (IH _ _ Hk (path ++ [0 + Z.of_nat k])). by rewrite H1, Hp in IH.
Qed.

(** The section search returns the node at the relative path it reports. *)
Lemma find_guid_section_dfs_path st w n path count m p k :
  find_guid_section_dfs st w n path count = (Some (m, p), k) ->
  exists q, p = path ++ q /\ node_at_path n q = Some m /\
            node_type m = T_Section /\ subtype m = st.
Proof.
  revert path count m p k. induction n as [n IH] using FfsNode_tree_ind.
  intros path count m p k. destruct n as [gd ty sb o h b tl ch a pd fx cp al].
  cbn [find_guid_section_dfs]. set (n := mkNode _ _ _ _ _ _ _ _ _ _ _ _ _) in *.
  change (children n) with ch. change (children n) with ch in IH.
  assert (forall cs i, (forall j, cs !! j = ch !! (Z.to_nat i + j)%nat) -> 0 <= i ->
    forall count, counted_hit (section_hit (find_guid_section_dfs st w) st w path) i cs count
                  = (Some (m, p), k) ->
    exists q, p = path ++ q /\ node_at_path n q = Some m /\ node_type m = T_Section /\ subtype m = st)
    as Hgo; [|by apply (Hgo ch 0)].
  induction cs as [|c cs IHcs]; intros i Hcs Hi count' H; cbn [counted_hit] in H; [done|].
  assert (child_at n i = Some c) as Hc.
  { apply get_Some. split; [done|]. specialize (Hcs 0%nat). simpl in Hcs.
    rewrite Nat.add_0_r in Hcs. by symmetry. }
  assert (forall j, cs !! j = ch !! (Z.to_nat (i + 1) + j)%nat) as Hcs'.
  { intros j. specialize (Hcs (S j)). simpl in Hcs. rewrite Hcs. f_equal. lia. }
  destruct (section_hit _ st w path i c count') as [[[m' p']|] k'] eqn:Hhit;
    [|by eapply IHcs in H; [|done|lia]].
  injection H as -> -> ->. unfold section_hit in Hhit.
  destruct (bool_decide (node_type c = T_Section)) eqn:Hty; simpl in Hhit; [|done].
  apply bool_decide_eq_true in Hty.
  match type of Hhit with (if ?b then _ else _) = _ => destruct b eqn:Hb end.
  - injection Hhit as <- <- <-. exists [i]. simpl. rewrite Hc. simpl. bool_to_prop. auto.
  - match type of Hhit with (if ?b then _ else _) = _ => destruct b end; [|done].
    rewrite Forall_forall in IH. apply IH in Hhit as (q & -> & Hq & ? & ?).
    + exists (i :: q). rewrite <-app_assoc. simpl. by rewrite Hc.
    + apply get_Some in Hc as [_ Hc]. by eapply list_elem_of_lookup_2.
Qed.

(** Both resolvers fail, or they find the same node. *)
Lemma find_item_path_node root t :
  match find_item_path root t with
  | Some p => exists n, node_at_path root p = Some n /\ find_item root t = Ok n
  | None => find_item root t = Err InvalidHeader
  end.
Proof.
  destruct t as [g|indices|g st w]; simpl.
  - pose proof (find_by_guid_path g root []) as H.
    destruct (find_by_guid g root) as [m|], (find_path_by_guid g root []) as [p|]; simpl; try done.
    destruct H as (q & -> & Hq). eauto.
  - destruct (node_at_path root indices) as [m|] eqn:Hm; simpl; eauto.
  - pose proof (find_by_guid_path g root []) as H.
    destruct (find_by_guid g root) as [file|], (find_path_by_guid g root []) as [p|]; simpl;
      try done.
    destruct H as (q & -> & Hq). simpl. rewrite Hq. simpl.
    destruct (find_guid_section_dfs st w file [] 0) as [[[m r]|] k] eqn:Hd; simpl; [|done].
    apply find_guid_section_dfs_path in Hd as (q' & -> & Hq' & _). simpl in *.
    exists m. split; [|done]. by rewrite node_at_path_app, Hq.
Qed.

(** The two resolvers agree: [find_item] finds a node exactly when
    [find_item_path] gives a path, and the node is the one at that path. This is
    what makes the mutating operations, which go through the path, act on the
    node the read operations show. *)
Theorem find_item_iff_path root t n :
  find_item root t = Ok n <->
  exists p, find_item_path root t = Some p /\ node_at_path root p = Some n.
Proof.
  pose proof (find_item_path_node root t) as H.
  destruct (find_item_path root t) as [p|].
  - destruct H as (m & Hm & ->). split.
    + intros [= ->]. eauto.
    + intros (p' & [= <-] & Hn). congruence.
  - rewrite H. split; [done|]. by intros (? & ? & ?).
Qed.

(** ** The grammar reads back what the listings print *)

(** Rendering of a path: [indices.map(to_string).join("/")]. *)
Definition path_string (p : list Z) : ustring := join [SLASH] (map dec_string p).

Lemma digits_no_slash s :
  Forall (fun c => is_ascii_digit c = true) s -> Forall (fun c => c <> SLASH) s.
Proof.
  intros H. eapply Forall_impl; [exact H|]. unfold is_ascii_digit, SLASH.
  simpl. intros c Hc. lia.
Qed.

Lemma join_chars (P : Z -> Prop) sep ps :
  P sep -> Forall (Forall P) ps -> Forall P (join [sep] ps).
Proof.
  intros Hs. induction 1 as [|p ps Hp _ IH]; simpl; [done|].
  destruct ps as [|p' ps]; [done|]. apply Forall_app; split; [done|].
  by constructor.
Qed.

Lemma parse_indices_dec p :
  Forall (fun i => 0 <= i <= usize_max) p -> parse_indices (map dec_string p) = Some p.
Proof.
  induction 1 as [|i p Hi _ IH]; [done|]. cbn [map parse_indices].
  rewrite parse_usize_dec by done. simpl. by rewrite IH.
Qed.

Lemma parse_target_path_string p :
  p <> [] -> Forall (fun i => 0 <= i <= usize_max) p ->
  parse_target (path_string p) = Ok (TG_Path p).
Proof.
  intros Hne Hp. unfold parse_target.
  assert (Forall (Forall (fun c => is_ascii_digit c = true)) (map dec_string p)) as Hd.
  { apply Forall_map. apply Forall_true. intros. apply dec_string_chars. }
  assert (split_on SLASH (path_string p) = map dec_string p) as Hsplit.
  { apply split_join; [by destruct p|]. eapply Forall_impl; [exact Hd|].
    intros. by apply digits_no_slash. }
  assert (Forall (fun c => is_ascii_digit c || (c =? SLASH) = true) (path_string p)) as Hall.
  { apply join_chars; [done|]. eapply Forall_impl; [exact Hd|]. intros s Hs.
    eapply Forall_impl; [exact Hs|]. simpl. by intros c ->. }
  assert (exists c s, path_string p = c :: s /\ is_ascii_digit c = true) as (c & s & Heq & Hc).
  { destruct p as [|i p]; [done|]. pose proof (dec_string_nonempty i).
    pose proof (dec_string_chars i) as Hi. unfold path_string. cbn [map join].
    destruct (dec_string i) as [|c s]; [done|]. apply Forall_cons in Hi as [Hi _].
    destruct (map dec_string p); simpl; eauto. }
  rewrite Hsplit, parse_indices_dec by done. rewrite Heq in *.
  rewrite Hc, (proj2 (forallb_forall _ _)); [done|].
  intros x Hx. rewrite Forall_forall in Hall. by apply Hall, list_elem_of_In.
Qed.

(** Every non-empty path printed by the listings parses back to itself. *)
Theorem parse_target_path p :
  p <> [] -> Forall (fun i => 0 <= i <= usize_max) p ->
  parse_target (path_string p) = Ok (TG_Path p).
Proof. apply parse_target_path_string. Qed.

End Target.
