(* ===== verification/Ops.v ===== *)
(** Editing the tree ([crates/uefi-engine/src/ops.rs]): insert, remove, replace
    and rebuild, with the guards on flash regions and compression barriers and
    the marking of the path that has to be rebuilt. A [&mut] node is the path to
    it; every operation fails before it changes anything, so an error leaves the
    tree as it was. *)
From S2P Require Import Prelude Types Ffs Tiano Codec Parser Target.
From S2P Require Import Text.

Inductive OpsError :=
| NotFound | InvalidParent | InvalidFfs | MutationBehindCompression | ImmutableRegion.

Inductive InsertMode := Into | Before | After.

#[export] Instance InsertMode_eq_dec : EqDecision InsertMode.
Proof. solve_decision. Defined.

Section Ops.
Context {GL : GuidLib}.
Notation ores := (outcome OpsError).

(** [*find_mut(root, path)? = f(..)]. *)
Fixpoint update_at (n : FfsNode) (path : list Z) (f : FfsNode -> FfsNode) : option FfsNode :=
  match path with
  | [] => Some (f n)
  | i :: path =>
      c ← child_at n i;
      c' ← update_at c path f;
      Some (set_children (<[Z.to_nat i := c']> (children n)) n)
  end.

Definition find_mut (n : FfsNode) (path : list Z) : option FfsNode := node_at_path n path.

(** [if node.action == NoAction { node.action = Rebuild }]. *)
Definition touch (n : FfsNode) : FfsNode :=
  if bool_decide (action n = NoAction) then set_action A_Rebuild n else n.

Fixpoint mark_rebuild_to_root_by_path (n : FfsNode) (path : list Z) : FfsNode :=
  let n := touch n in
  match path with
  | [] => n
  | i :: path =>
      match child_at n i with
      | None => n
      | Some c =>
          set_children
            (<[Z.to_nat i := mark_rebuild_to_root_by_path c path]> (children n)) n
      end
  end.

(** The guards on one node of the path, [inside] being [depth < n]. *)
Definition barrier_check (child : FfsNode) (inside : bool) : ores unit :=
  if bool_decide (node_type child = T_Region) then Err ImmutableRegion
  else if inside then
    if bool_decide (node_type child = T_Section)
       && bool_decide (subtype child = EFI_SECTION_COMPRESSION)
    then Err MutationBehindCompression
    else if bool_decide (node_type child = T_Section)
            && bool_decide (subtype child = EFI_SECTION_GUID_DEFINED)
            && negb (match parsing_data child with
                     | PD_GuidedSection d => is_recompressable_lzma_guid (gs_guid d)
                     | _ => false
                     end)
    then Err MutationBehindCompression
    else Ok tt
  else Ok tt.

Fixpoint ensure_from (node : FfsNode) (path : list Z) (depth n : Z) : ores unit :=
  match path with
  | [] => Ok tt
  | i :: path =>
      match child_at node i with
      | None => Ok tt
      | Some child =>
          _ ← barrier_check child (depth <? n);
          ensure_from child path (depth + 1) n
      end
  end.

Definition ensure_mutable (root : FfsNode) (path : list Z) (include_target : bool) : ores unit :=
  let n := if include_target then blen path else sat_sub (blen path) 1 in
  ensure_from root path 0 n.

Definition target_path (root : FfsNode) (t : Target) : ores (list Z) :=
  ok_or NotFound (find_item_path root t).

(** The chain of nodes from the root along [path]. *)
Fixpoint node_chain (n : FfsNode) (path : list Z) : option (list FfsNode) :=
  match path with
  | [] => Some [n]
  | i :: path => c ← child_at n i; rest ← node_chain c path; Some (n :: rest)
  end.

Definition enclosing_volume_empty_byte (root : FfsNode) (path : list Z) : option byte :=
  chain ← node_chain root path;
  (fix go (l : list FfsNode) : option byte :=
     match l with
     | [] => None
     | n :: l => match parsing_data n with
                 | PD_Volume vd => Some (empty_byte vd)
                 | _ => go l
                 end
     end) (rev chain).

Definition parse_ffs_bytes (data : list byte) : outcome ParserError FfsNode :=
  parse_file data 0 xff x02.

(** [v.insert(at, x)]: panics past the end. *)
Definition vec_insert {A E} (l : list A) (at_ : Z) (x : A) : outcome E (list A) :=
  if (0 <=? at_) && (at_ <=? blen l)
  then Ok (take (Z.to_nat at_) l ++ x :: drop (Z.to_nat at_) l) else Panic.

(** In a volume erased to [0xFF] the state byte of the new file is inverted. *)
Definition fix_state_byte (root : FfsNode) (vol_path : list Z) (new_node : FfsNode) : ores FfsNode :=
  if bool_decide (enclosing_volume_empty_byte root vol_path = Some xff)
     && bool_decide (get (header new_node) 23 = Some x07)
  then h ← set_at (header new_node) 23 xf8; mret (set_header h new_node)
  else mret new_node.

Definition insert (root : FfsNode) (t : Target) (ffs_bytes : list byte) (m : InsertMode)
  : ores FfsNode :=
  new_node ← map_err (fun _ => InvalidFfs) (parse_ffs_bytes ffs_bytes);
  parent_path ← match t with TG_Path p => Ok p | _ => Err NotFound end;
  vol_path ← match m with
             | Into => Ok parent_path
             | Before | After =>
                 if bool_decide (parent_path = []) then Err InvalidParent
                 else mret (take (length parent_path - 1) parent_path)
             end;
  _ ← match m with
      | Into => ensure_mutable root parent_path true
      | Before | After => ensure_mutable root parent_path false
      end;
  new_node ← fix_state_byte root vol_path new_node;
  match m with
  | Into =>
      root ← ok_or NotFound
        (update_at root parent_path (fun p => set_children (children p ++ [new_node]) p));
      mret (mark_rebuild_to_root_by_path root parent_path)
  | Before | After =>
      idx ← unwrap (last parent_path);
      let grandparent_path := take (length parent_path - 1) parent_path in
      grandparent ← ok_or NotFound (find_mut root grandparent_path);
      if blen (children grandparent) <? idx then Err InvalidParent
      else
        let insert_at := match m with Before => idx | _ => idx + 1 end in
        ch ← vec_insert (children grandparent) insert_at new_node;
        root ← ok_or NotFound (update_at root grandparent_path (set_children ch));
        mret (mark_rebuild_to_root_by_path root parent_path)
  end.

Definition remove (root : FfsNode) (t : Target) : ores FfsNode :=
  path ← target_path root t;
  _ ← ensure_mutable root path true;
  root ← ok_or NotFound (update_at root path (set_action A_Remove));
  mret (mark_rebuild_to_root_by_path root path).

(** The assignments of the two branches of [replace]. *)
Definition replace_body (data : list byte) (n : FfsNode) : FfsNode :=
  set_action A_Replace (set_body data (set_children [] n)).
Definition replace_node (new n : FfsNode) : FfsNode :=
  mkNode (n_guid new) (node_type new) (subtype new) (offset n) (header new) (body new)
    (tail new) (children new) A_Replace (parsing_data new) (fixed n) (compressed n)
    (alignment_bytes n).

Definition replace (root : FfsNode) (t : Target) (data : list byte) (body_only : bool)
  : ores FfsNode :=
  path ← target_path root t;
  _ ← ensure_mutable root path true;
  _ ← ok_or NotFound (find_mut root path);
  f ← (if body_only then Ok (replace_body data)
       else new_node ← map_err (fun _ => InvalidFfs) (parse_ffs_bytes data);
            mret (replace_node new_node));
  root ← ok_or NotFound (update_at root path f);
  mret (mark_rebuild_to_root_by_path root path).

Definition rebuild (root : FfsNode) (t : Target) : ores FfsNode :=
  path ← target_path root t;
  _ ← ensure_mutable root path true;
  node ← ok_or NotFound (find_mut root path);
  if bool_decide (action node = A_Remove) then Ok root
  else
    root ← ok_or NotFound (update_at root path (set_action A_Rebuild));
    mret (mark_rebuild_to_root_by_path root path).

End Ops.

(** Pre-order traversals of the tree: the accumulating [for] loop over enumerated
    children, the lists such loops build, and the enumeration of all nodes with
    their paths. *)

Section Traverse.
Context {GL : GuidLib}.

(** A [for] loop over the enumerated children with an accumulator. *)
Section EachChild.
Context {E S : Type} (f : S -> Z -> FfsNode -> outcome E S).
Fixpoint each_child (i : Z) (cs : list FfsNode) (s : S) : outcome E S :=
  match cs with
  | [] => Ok s
  | c :: cs => s ← f s i c; each_child (i + 1) cs s
  end.
End EachChild.

(** The list such a loop appends to its accumulator. *)
Section ConcatChildren.
Context {A : Type} (f : Z -> FfsNode -> list A).
Fixpoint concat_children (i : Z) (cs : list FfsNode) : list A :=
  match cs with
  | [] => []
  | c :: cs => f i c ++ concat_children (i + 1) cs
  end.
End ConcatChildren.

(** A [for] loop over the enumerated children that returns at the first hit; the state
    of the search is kept. *)
Section FindChild.
Context {E R S : Type} (f : Z -> FfsNode -> S -> outcome E (option R * S)).
Fixpoint find_child (i : Z) (cs : list FfsNode) (s : S) : outcome E (option R * S) :=
  match cs with
  | [] => Ok (None, s)
  | c :: cs =>
      r ← f i c s;
      match fst r with
      | Some _ => Ok r
      | None => find_child (i + 1) cs (snd r)
      end
  end.
End FindChild.

Lemma each_child_fold {E S A} (f : S -> Z -> FfsNode -> outcome E S) (g : S -> A -> outcome E S)
    (h : Z -> FfsNode -> list A) i cs s :
  (forall j c s, c ∈ cs -> f s j c = foldM g (h j c) s) ->
  each_child f i cs s = foldM g (concat_children h i cs) s.
Proof.
  revert i s. induction cs as [|c cs IH]; intros i s Hf; [done|]. simpl.
  rewrite Hf, foldM_app by (by left). destruct (foldM g (h i c) s); simpl; try done.
  apply IH. intros. apply Hf. by right.
Qed.

Lemma each_child_okpost {E S} (f : S -> Z -> FfsNode -> outcome E S) (I : S -> Prop) n s :
  (forall i c s, child_at n i = Some c -> I s -> okpost (f s i c) I) ->
  I s -> okpost (each_child f 0 (children n) s) I.
Proof.
  intros Hf. assert (forall i k s, drop (Z.to_nat i) (children n) = k -> 0 <= i -> I s ->
    okpost (each_child f i k s) I) as H.
  2:{ intros HI. by apply H. }
  intros i k. revert i. induction k as [|c k IH]; intros i s' Hk Hi HI; [by intros ? [= <-]|].
  cbn [each_child]. apply okpost_bind. eapply okpost_mono; [apply Hf; [|done]|].
  - unfold child_at, get. rewrite (proj2 (Z.leb_le _ _)) by lia.
    by rewrite <-(Nat.add_0_r (Z.to_nat i)), <-lookup_drop, Hk.
  - intros s2 Hs2. apply IH; [|lia|done].
    replace (Z.to_nat (i + 1)) with (1 + Z.to_nat i)%nat by lia.
    by rewrite Nat.add_comm, <-drop_drop, Hk.
Qed.

Lemma concat_children_elem {A} (h : Z -> FfsNode -> list A) i cs x :
  x ∈ concat_children h i cs <->
  exists k c, cs !! k = Some c /\ x ∈ h (i + Z.of_nat k) c.
Proof.
  revert i. induction cs as [|c cs IH]; intros i; simpl.
  - split; [by intros ?%elem_of_nil|]. by intros (k & c & ? & _).
  - rewrite elem_of_app, IH. split.
    + intros [Hx|(k & c' & Hk & Hx)]; [exists 0%nat, c|exists (S k), c']; (split; [done|]).
      * by rewrite Z.add_0_r.
      * by replace (i + Z.of_nat (S k)) with (i + 1 + Z.of_nat k) by lia.
    + intros ([|k] & c' & Hk & Hx); simpl in Hk; [left|right].
      * simplify_eq. by rewrite Z.add_0_r in Hx.
      * exists k, c'. split; [done|].
        by replace (i + 1 + Z.of_nat k) with (i + Z.of_nat (S k)) by lia.
Qed.

Lemma concat_children_NoDup {A} (g : A -> list Z) (h : Z -> FfsNode -> list A) path i cs :
  (forall j c, c ∈ cs -> NoDup (map g (h j c))) ->
  (forall j c x, x ∈ h j c -> exists q, g x = path ++ j :: q) ->
  NoDup (map g (concat_children h i cs)).
Proof.
  intros Hn Hp. revert i Hn. induction cs as [|c cs IH]; intros i Hn; simpl; [constructor|].
  rewrite map_app. apply NoDup_app. split_and!.
  - apply Hn. by left.
  - intros z (x & -> & Hx)%list_elem_of_fmap (y & Hy & Hin)%list_elem_of_fmap.
    apply concat_children_elem in Hin as (k & c' & _ & Hin).
    apply Hp in Hx as [q Hq]. apply Hp in Hin as [q' Hq']. rewrite Hq, Hq' in Hy.
    apply app_inv_head in Hy. injection Hy as Hi _. lia.
  - apply IH. intros. apply Hn. by right.
Qed.

(** Every node below a node with its path, parents first. *)
Fixpoint preorder (n : FfsNode) (path : list Z) : list (list Z * FfsNode) :=
  (path, n) :: concat_children (fun i c => preorder c (path ++ [i])) 0 (children n).

Lemma preorder_eq n path :
  preorder n path = (path, n) :: concat_children (fun i c => preorder c (path ++ [i])) 0 (children n).
Proof. by destruct n. Qed.

Lemma preorder_elem n path p m :
  (p, m) ∈ preorder n path <-> exists q, p = path ++ q /\ node_at_path n q = Some m.
Proof.
  revert path. induction n as [n IH] using FfsNode_tree_ind. intros path.
  rewrite Forall_forall in IH. rewrite preorder_eq, elem_of_cons, concat_children_elem. split.
  - intros [[= -> ->]|(k & c & Hk & Hx)]; [exists []; by rewrite app_nil_r|].
    apply IH in Hx as (q & -> & Hq); [|by eapply list_elem_of_lookup_2].
    exists ((0 + Z.of_nat k) :: q). split; [by rewrite <-app_assoc|].
    cbn [node_at_path]. unfold child_at, get. rewrite Z.add_0_l, (proj2 (Z.leb_le _ _)) by lia.
    by rewrite Nat2Z.id, Hk.
  - intros (q & -> & Hq). destruct q as [|i q]; simpl in Hq.
    + simplify_eq. left. by rewrite app_nil_r.
    + right. destruct (child_at n i) as [c|] eqn:Hc; [|done]. simpl in Hq.
      apply get_Some in Hc as [Hi Hk]. exists (Z.to_nat i), c. split; [done|].
      replace (0 + Z.of_nat (Z.to_nat i)) with i by lia.
      apply IH; [by eapply list_elem_of_lookup_2|]. exists q. by rewrite <-app_assoc.
Qed.

Lemma preorder_NoDup n path : NoDup (map fst (preorder n path)).
Proof.
  revert path. induction n as [n IH] using FfsNode_tree_ind. intros path.
  rewrite Forall_forall in IH. rewrite preorder_eq. cbn [map fst]. apply NoDup_cons. split.
  - intros ([p m] & Hp & Hin)%list_elem_of_fmap.
    apply concat_children_elem in Hin as (k & c & _ & Hin).
    apply preorder_elem in Hin as (q & -> & _). simpl in Hp. rewrite <-app_assoc in Hp.
    rewrite <-(app_nil_r path) in Hp at 1. by apply app_inv_head in Hp.
  - apply (concat_children_NoDup _ _ path).
    + intros j c Hc. by apply IH.
    + intros j c [p m] (q & -> & _)%preorder_elem. exists q. simpl. by rewrite <-app_assoc.
Qed.

Lemma concat_children_length {A} (h : Z -> FfsNode -> list A) (g : FfsNode -> nat) i cs :
  (forall j c, c ∈ cs -> length (h j c) = g c) ->
  length (concat_children h i cs) = sum_list_with g cs.
Proof.
  revert i. induction cs as [|c cs IH]; intros i Hl; [done|]. simpl.
  rewrite length_app, Hl by (by left). f_equal. apply IH. intros. apply Hl. by right.
Qed.

Lemma preorder_length n path : length (preorder n path) = tree_size n.
Proof.
  revert path. induction n as [n IH] using FfsNode_tree_ind. intros path.
  rewrite Forall_forall in IH. rewrite preorder_eq. cbn [length].
  transitivity (S (sum_list_with tree_size (children n))); [|by destruct n]. f_equal.
  apply concat_children_length. intros j c Hc. by apply IH.
Qed.

End Traverse.
