(* ===== verification/Hii.v ===== *)
(** The HII data of setup modules: the constants of the crate [r-efi], package
    lists ([hii/package_list.rs]), REF statements ([hii/ref_variant.rs]) and the
    IFR byte code with its scopes ([hii/ifr.rs]). *)
From S2P Require Import Prelude Text Types Ffs.

(** ** The external crate [r-efi] *)

(** The opcodes and package kinds the engine uses; the code relies on the opcodes
    being different from each other, and writes the END opcode as [0x29]. *)
Class RefiHii := {
  IFR_FORM_OP : byte; IFR_SUBTITLE_OP : byte; IFR_TEXT_OP : byte; IFR_ONE_OF_OP : byte;
  IFR_CHECKBOX_OP : byte; IFR_NUMERIC_OP : byte; IFR_PASSWORD_OP : byte;
  IFR_ONE_OF_OPTION_OP : byte; IFR_SUPPRESS_IF_OP : byte; IFR_ACTION_OP : byte;
  IFR_FORM_SET_OP : byte; IFR_REF_OP : byte; IFR_EQ_ID_VAL_OP : byte; IFR_GRAY_OUT_IF_OP : byte;
  IFR_DATE_OP : byte; IFR_TIME_OP : byte; IFR_STRING_OP : byte; IFR_ORDERED_LIST_OP : byte;
  IFR_END_OP : byte; IFR_EQUAL_OP : byte; IFR_UINT64_OP : byte; IFR_TRUE_OP : byte;
  IFR_FALSE_OP : byte; IFR_DEFAULT_OP : byte; IFR_VARSTORE_OP : byte; IFR_VARSTORE_EFI_OP : byte;
  IFR_VARSTORE_NAME_VALUE_OP : byte; IFR_DEFAULTSTORE_OP : byte;
  IFR_NUMERIC_SIZE : Z;
  IFR_DISPLAY : Z;
  IFR_DISPLAY_INT_DEC : Z; IFR_DISPLAY_UINT_DEC : Z; IFR_DISPLAY_UINT_HEX : Z;
  IFR_CHECKBOX_DEFAULT : Z; IFR_CHECKBOX_DEFAULT_MFG : Z;
  IFR_OPTION_DEFAULT : Z; IFR_OPTION_DEFAULT_MFG : Z;
  IFR_TYPE_NUM_SIZE_8 : Z;
  PACKAGE_FORMS : byte; PACKAGE_STRINGS : byte; PACKAGE_END : byte;
  ifr_opcodes : list byte :=
    [IFR_FORM_OP; IFR_SUBTITLE_OP; IFR_TEXT_OP; IFR_ONE_OF_OP; IFR_CHECKBOX_OP; IFR_NUMERIC_OP;
     IFR_PASSWORD_OP; IFR_ONE_OF_OPTION_OP; IFR_SUPPRESS_IF_OP; IFR_ACTION_OP; IFR_FORM_SET_OP;
     IFR_REF_OP; IFR_EQ_ID_VAL_OP; IFR_GRAY_OUT_IF_OP; IFR_DATE_OP; IFR_TIME_OP; IFR_STRING_OP;
     IFR_ORDERED_LIST_OP; IFR_END_OP; IFR_EQUAL_OP; IFR_UINT64_OP; IFR_TRUE_OP; IFR_FALSE_OP;
     IFR_DEFAULT_OP; IFR_VARSTORE_OP; IFR_VARSTORE_EFI_OP; IFR_VARSTORE_NAME_VALUE_OP;
     IFR_DEFAULTSTORE_OP];
  ifr_opcodes_distinct : NoDup ifr_opcodes;
  hii_packages_distinct : NoDup [PACKAGE_FORMS; PACKAGE_STRINGS; PACKAGE_END];
  ifr_end_op : IFR_END_OP = x29;
  ifr_numeric_size : IFR_NUMERIC_SIZE = 3;
  ifr_display : IFR_DISPLAY = 0x30 /\ IFR_DISPLAY_INT_DEC = 0 /\ IFR_DISPLAY_UINT_DEC = 0x10
                /\ IFR_DISPLAY_UINT_HEX = 0x20;
  ifr_option_default : IFR_OPTION_DEFAULT = 0x10 /\ IFR_OPTION_DEFAULT_MFG = 0x20;
  ifr_type_num_size_8 : IFR_TYPE_NUM_SIZE_8 = 0
}.

(** ** Errors *)

Inductive HiiError :=
| HE_NotFound
| HE_InvalidItemId (s : ustring)
| HE_NotASetupItem
| HE_InvalidIfr
| HE_InvalidSchema (s : ustring)
| HE_StringPackageNotFound
| HE_IdOccupied (id : Z)
| HE_StringIdExhausted (next : Z)
| HE_AmiFilesNotFound
| HE_IfrBuildError (s : ustring)
| HE_FfsAssemblyError (s : ustring)
| HE_NotWritable
| HE_MutationBehindCompression
| HE_PeGrowthUnsupported
| HE_GateExpressionUnsupported (s : ustring)
| HE_ValueOpUnsupported (s : ustring)
| HE_NoSuppressScope
| HE_HidingUnsupported.

Section Hii.
Context {GL : GuidLib} {RH : RefiHii}.

(** [bytes[pos] | bytes[pos + 1] << 8 | bytes[pos + 2] << 16]. *)
Definition u24_at (bytes : list byte) (pos : Z) : pure Z :=
  b0 ← index bytes pos;
  b1 ← index bytes (pos + 1);
  b2 ← index bytes (pos + 2);
  mret (Z.lor (Z.lor (b2z b0) (Z.shiftl (b2z b1) 8)) (Z.shiftl (b2z b2) 16)).

(** ** Package lists *)

Record HiiPackage := {
  pk_kind : byte;
  pk_bytes : list byte;
  pk_offset : Z
}.
Record HiiPackageList := {
  pl_guid : Guid;
  packages : list HiiPackage
}.

(** One turn of the strict loop. *)
Definition list_step (bytes : list byte) (guid : Guid) (s : Z * list HiiPackage)
  : pure (Z * list HiiPackage + option HiiPackageList) :=
  let '(pos, packages) := s in
  if pos + 4 <=? blen bytes then
    plen ← u24_at bytes pos;
    kind ← index bytes (pos + 3);
    if bool_decide (kind = PACKAGE_END) then
      mret (inr (Some {| pl_guid := guid; packages := packages |}))
    else if (plen <? 4) || (blen bytes <? pos + plen) then mret (inr None)
    else
      data ← slice bytes pos (pos + plen);
      mret (inl (pos + plen, packages ++ [{| pk_kind := kind; pk_bytes := data; pk_offset := pos |}]))
  else mret (inr None).

Definition parse_package_list (bytes : list byte) : pure (option HiiPackageList) :=
  if blen bytes <? 20 then Ok None
  else
    gb ← slice bytes 0 16;
    loop (length bytes + 1) (list_step bytes (guid_of_array gb)) (20, []).

(** One turn of the tolerant loop. *)
Definition exact_step (bytes : list byte) (guid : Guid) (s : Z * list HiiPackage)
  : pure (Z * list HiiPackage + option HiiPackageList) :=
  let '(pos, packages) := s in
  if pos =? blen bytes then mret (inr (Some {| pl_guid := guid; packages := packages |}))
  else if blen bytes <? pos + 4 then mret (inr None)
  else
    plen ← u24_at bytes pos;
    kind ← index bytes (pos + 3);
    if bool_decide (kind = PACKAGE_END) then
      if negb (pos + 4 =? blen bytes) then mret (inr None)
      else mret (inr (Some {| pl_guid := guid; packages := packages |}))
    else if (plen <? 4) || (blen bytes <? pos + plen) then mret (inr None)
    else
      data ← slice bytes pos (pos + plen);
      mret (inl (pos + plen, packages ++ [{| pk_kind := kind; pk_bytes := data; pk_offset := pos |}])).

Definition parse_package_list_exact (bytes : list byte) : pure (option HiiPackageList) :=
  if blen bytes <? 20 then Ok None
  else
    gb ← slice bytes 0 16;
    loop (length bytes + 1) (exact_step bytes (guid_of_array gb)) (20, []).

(** ** REF statements *)

Inductive RefTarget :=
| RT_Form (form_id : Z)
| RT_FormQuestion (form_id question_id : Z)
| RT_Formset (formset_guid : Guid) (form_id question_id : Z)
| RT_Dynamic.

Definition u16_at (stmt : list byte) (at_ : Z) : option Z := le_dec <$> get_range stmt at_ (at_ + 2).

(** [stmt[1]] is read behind the length check. *)
Definition parse_ref (op : byte) (stmt : list byte) : option RefTarget :=
  if negb (bool_decide (op = IFR_REF_OP)) || (blen stmt <? 2) then None
  else
    ls ← get stmt 1;
    let len := Z.land (b2z ls) 0x7F in
    if blen stmt <? len then None
    else if len =? 13 then Some RT_Dynamic
    else if len =? 15 then form_id ← u16_at stmt 13; Some (RT_Form form_id)
    else if len =? 17 then
      form_id ← u16_at stmt 13; question_id ← u16_at stmt 15;
      Some (RT_FormQuestion form_id question_id)
    else if (len =? 33) || (len =? 35) then
      form_id ← u16_at stmt 13; question_id ← u16_at stmt 15;
      guid ← get_range stmt 17 33;
      Some (RT_Formset (guid_of_array guid) form_id question_id)
    else None.

(** ** IFR packages *)

Definition is_form_package (body : list byte) : bool :=
  (5 <=? blen body) && bool_decide (get body 3 = Some PACKAGE_FORMS)
  && bool_decide (get body 4 = Some IFR_FORM_SET_OP).

Definition package_bounds (body : list byte) : pure (Z * Z) :=
  if is_form_package body then
    plen ← u24_at body 0;
    mret (4, Z.min plen (blen body))
  else mret (0, blen body).

(** The opcode at a position, its length-and-scope byte and its length; [None] for
    a length below 2 or past the end. *)
Record IfrOp := {
  op_code : byte;
  op_ls : byte;
  op_len : Z
}.
Definition read_op (body : list byte) (i end_ : Z) : pure (option IfrOp) :=
  op ← index body i;
  ls ← index body (i + 1);
  let len := Z.land (b2z ls) 0x7F in
  mret (if (len <? 2) || (end_ <? i + len) then None
        else Some {| op_code := op; op_ls := ls; op_len := len |}).
(** [ls & 0x80 != 0]. *)
Definition op_scoped (o : IfrOp) : bool := negb (Z.land (b2z (op_ls o)) 0x80 =? 0).
Definition is_end (o : IfrOp) : bool := bool_decide (op_code o = IFR_END_OP).

(** [u16::from_le_bytes([body[at], body[at + 1]])]. *)
Definition u16_in (body : list byte) (at_ : Z) : pure Z :=
  b0 ← index body at_;
  b1 ← index body (at_ + 1);
  mret (le_dec [b0; b1]).

(** *** Scopes *)

Record SuppressScope := {
  sc_start : Z;
  sc_end : Z
}.

(** How the inner scan of [find_suppress_if_scopes] ends: at the END of the scope, at
    the end of the package, or at a malformed opcode. *)
Inductive scan_end := SE_Closed (j : Z) | SE_Ran (j : Z) | SE_Malformed.

(** One turn of the inner scan; [k] is the depth at which the scope is closed. *)
Definition close_step (body : list byte) (end_ k : Z) (s : Z * Z) : pure (Z * Z + scan_end) :=
  let '(j, depth) := s in
  if j + 2 <=? end_ then
    o ← read_op body j end_;
    match o with
    | None => mret (inr SE_Malformed)
    | Some o =>
        if is_end o then
          depth ← usub depth 1;
          if depth =? k then mret (inr (SE_Closed j)) else mret (inl (j + op_len o, depth))
        else mret (inl (j + op_len o, if op_scoped o then depth + 1 else depth))
    end
  else mret (inr (SE_Ran j)).

Definition close_scope (body : list byte) (end_ k j depth : Z) : pure scan_end :=
  loop (length body + 1) (close_step body end_ k) (j, depth).

Definition suppress_step (body : list byte) (end_ : Z) (s : Z * list SuppressScope)
  : pure (Z * list SuppressScope + list SuppressScope) :=
  let '(i, scopes) := s in
  if i + 2 <=? end_ then
    o ← read_op body i end_;
    match o with
    | None => mret (inr scopes)
    | Some o =>
        if bool_decide (op_code o = IFR_SUPPRESS_IF_OP) && op_scoped o then
          let scope_start := i + 2 in
          e ← close_scope body end_ 0 scope_start 1;
          match e with
          | SE_Closed j => mret (inl (j + 2, scopes ++ [{| sc_start := scope_start; sc_end := j |}]))
          | SE_Ran j => mret (inl (j + 2, scopes))
          | SE_Malformed => mret (inr scopes)
          end
        else mret (inl (i + op_len o, scopes))
    end
  else mret (inr scopes).

Definition find_suppress_if_scopes (body : list byte) : pure (list SuppressScope) :=
  se ← package_bounds body;
  loop (length body + 1) (suppress_step body (snd se)) (fst se, []).

(** [for i in (start..end).rev() { ifr[i + 2] = ifr[i] }]. *)
Definition shift_step (ifr : list byte) (i : Z) : pure (list byte) :=
  b ← index ifr i; set_at ifr (i + 2) b.

Definition unsuppress (ifr : list byte) (scope : SuppressScope) : pure (list byte) :=
  if blen ifr <? sc_end scope + 2 then Ok ifr
  else
    e0 ← index ifr (sc_end scope);
    if negb (bool_decide (e0 = x29)) then Ok ifr
    else
      e1 ← index ifr (sc_end scope + 1);
      if negb (bool_decide (e1 = x02)) then Ok ifr
      else
        ifr ← foldM shift_step
                (rev (map (fun k => sc_start scope + Z.of_nat k)
                        (seq 0 (Z.to_nat (sc_end scope - sc_start scope))))) ifr;
        ifr ← set_at ifr (sc_start scope) x29;
        set_at ifr (sc_start scope + 1) x02.

(** *** Formset spans *)

(** One turn of [formset_spans]. *)
Definition span_step (body : list byte) (end_ : Z) (s : Z * list (Z * Z))
  : pure (Z * list (Z * Z) + option (list (Z * Z))) :=
  let '(i, spans) := s in
  if i + 2 <=? end_ then
    o ← read_op body i end_;
    match o with
    | None => mret (inr None)
    | Some o =>
        if bool_decide (op_code o = IFR_FORM_SET_OP) then
          e ← close_scope body end_ 0 (i + op_len o) 1;
          match e with
          | SE_Closed j => mret (inl (i + op_len o, spans ++ [(i + op_len o, j)]))
          | _ => mret (inr None)
          end
        else mret (inl (i + op_len o, spans))
    end
  else mret (inr (Some spans)).

Definition formset_spans (body : list byte) : pure (option (list (Z * Z))) :=
  if negb (is_form_package body) then Ok None
  else
    plen ← u24_at body 0;
    loop (length body + 1) (span_step body (Z.min plen (blen body))) (4, []).

Definition locate_formset_insert_points (body : list byte) (formset_idx : Z)
  : pure (option (Z * Z)) :=
  spans ← formset_spans body;
  mret (spans ← spans; get spans formset_idx).

Definition formset_at (pkg : list byte) (formset_idx : Z) : pure bool :=
  p ← locate_formset_insert_points pkg formset_idx;
  mret (match p with Some _ => true | None => false end).

Definition formset_insert_points (pkg : list byte) (formset_idx : Z) : pure (option (Z * Z)) :=
  locate_formset_insert_points pkg formset_idx.

(** [v.splice(at..at, bs)]: panics past the end. *)
Definition splice_in {E} (v : list byte) (at_ : Z) (bs : list byte) : outcome E (list byte) :=
  if (0 <=? at_) && (at_ <=? blen v)
  then Ok (take (Z.to_nat at_) v ++ bs ++ drop (Z.to_nat at_) v) else Panic.

(** The three bytes of the package length. *)
Definition set_u24 (pkg : list byte) (plen : Z) : pure (list byte) :=
  p ← set_at pkg 0 (z2b (Z.land plen 0xFF));
  p ← set_at p 1 (z2b (Z.land (Z.shiftr plen 8) 0xFF));
  set_at p 2 (z2b (Z.land (Z.shiftr plen 16) 0xFF)).

(** The result is the package and whether the formset was found. *)
Definition insert_form_into_package (pkg : list byte) (formset_idx : Z)
  (form_ifr varstores : list byte) : pure (list byte * bool) :=
  points ← locate_formset_insert_points pkg formset_idx;
  match points with
  | None => Ok (pkg, false)
  | Some (after_header, before_end) =>
      pkg ← splice_in pkg before_end form_ifr;
      pkg ← splice_in pkg after_header varstores;
      let grow := blen varstores + blen form_ifr in
      plen ← u24_at pkg 0;
      pkg ← set_u24 pkg (plen + grow);
      mret (pkg, true)
  end.

(** *** Balance *)

Definition balance_step (pkg : list byte) (s : Z * Z) : pure (Z * Z + Z) :=
  let '(i, bal) := s in
  if i + 2 <=? blen pkg then
    op ← index pkg i;
    ls ← index pkg (i + 1);
    let len := Z.land (b2z ls) 0x7F in
    if len <? 2 then mret (inr bal)
    else
      let bal := if bool_decide (op = IFR_END_OP) then bal - 1
                 else if negb (Z.land (b2z ls) 0x80 =? 0) then bal + 1 else bal in
      mret (inl (i + len, bal))
  else mret (inr bal).

(** The counter is an [i32]; at most half the length of the package. *)
Definition scope_balance (pkg : list byte) : pure Z :=
  loop (length pkg + 1) (balance_step pkg) (4, 0).

End Hii.
