(* ===== verification/Values.v ===== *)
(** The statements of a form package ([hii/values.rs]): the walk over statements
    with their form, variable stores, questions with their options and defaults;
    and the questions of a form ([hii/questions.rs]), its REF edges
    ([hii/ref_tree.rs]) and its position ([hii/form_hijack.rs]). *)
From stdpp Require Import gmap.
From S2P Require Import Prelude Text Types Ffs Hii.

Section Values.
Context {GL : GuidLib} {RH : RefiHii}.

Inductive VarStoreKind := VK_Buffer | VK_Efi | VK_NameValue.
#[export] Instance VarStoreKind_eq_dec : EqDecision VarStoreKind.
Proof. solve_decision. Defined.
Record VarStoreMap := {
  vs_id : Z;
  vs_guid : option Guid;
  vs_size : Z;
  vs_name : ustring;
  vs_kind : VarStoreKind;
  vs_attributes : Z
}.
Inductive QuestionKind := QK_OneOf | QK_CheckBox | QK_Numeric | QK_Other.
#[export] Instance QuestionKind_eq_dec : EqDecision QuestionKind.
Proof. solve_decision. Defined.
Record OptionEntry := {
  oe_string_id : Z;
  oe_flags : byte;
  oe_value : Z
}.
Record DefaultEntry := {
  de_default_id : Z;
  de_type : byte;
  de_value : Z
}.
Record QuestionMap := {
  qm_question_id : Z;
  qm_kind : QuestionKind;
  qm_var_store_id : Z;
  qm_var_offset : Z;
  qm_width : Z;
  qm_varstore : option VarStoreMap;
  qm_options : list OptionEntry;
  qm_defaults : list DefaultEntry;
  qm_min : Z;
  qm_max : Z;
  qm_step : Z
}.

(** ** The walk over statements *)

Definition is_gate_op (op : byte) : bool :=
  bool_decide (op = IFR_SUPPRESS_IF_OP) || bool_decide (op = IFR_GRAY_OUT_IF_OP).
Definition is_statement_op (op : byte) : bool :=
  one_of op [IFR_FORM_OP; IFR_SUBTITLE_OP; IFR_TEXT_OP; IFR_REF_OP; IFR_ONE_OF_OP; IFR_CHECKBOX_OP;
             IFR_NUMERIC_OP; IFR_PASSWORD_OP; IFR_ORDERED_LIST_OP; IFR_STRING_OP; IFR_DATE_OP;
             IFR_TIME_OP; IFR_ACTION_OP; IFR_ONE_OF_OPTION_OP; IFR_DEFAULT_OP; IFR_VARSTORE_OP;
             IFR_VARSTORE_EFI_OP; IFR_VARSTORE_NAME_VALUE_OP].
Definition is_question_op (op : byte) : bool :=
  one_of op [IFR_ONE_OF_OP; IFR_CHECKBOX_OP; IFR_NUMERIC_OP; IFR_PASSWORD_OP; IFR_ORDERED_LIST_OP;
             IFR_STRING_OP; IFR_DATE_OP; IFR_TIME_OP; IFR_ACTION_OP].

(** The stack is kept with its last frame first. *)
Record VFrame := {
  vf_op : byte;
  vf_expr_end : option Z;
  vf_form_id : option Z
}.
Definition mark_expr (i : Z) (f : VFrame) : VFrame :=
  match vf_expr_end f with
  | None => {| vf_op := vf_op f; vf_expr_end := Some i; vf_form_id := vf_form_id f |}
  | Some _ => f
  end.
(** [stack.iter().rev().find_map(|f| f.form_id)]. *)
Fixpoint current_form (stack : list VFrame) : option Z :=
  match stack with
  | [] => None
  | f :: stack => match vf_form_id f with Some id => Some id | None => current_form stack end
  end.
Definition in_gate_expr (stack : list VFrame) : bool :=
  match stack with
  | f :: _ => is_gate_op (vf_op f) && bool_decide (vf_expr_end f = None)
  | [] => false
  end.

(** The operand of a FORM opcode. *)
Definition form_id_of (body : list byte) (i : Z) (o : IfrOp) : pure (option Z) :=
  if bool_decide (op_code o = IFR_FORM_OP) && (6 <=? op_len o)
  then id ← u16_in body (i + 2); mret (Some id) else mret None.

Section Walk.
(** [visit op off len current_form] on the state of the visitor. *)
Context {S : Type} (visit : S -> byte -> Z -> Z -> option Z -> pure S).

(** One opcode that is neither an END nor a plain part of a gate's expression: the
    visitor's state, the stack and the form it opens. *)
Definition visit_op (body : list byte) (i : Z) (o : IfrOp) (stack : list VFrame) (s : S)
  : pure (S * list VFrame * option Z) :=
  if is_statement_op (op_code o) then
    let stack := map (mark_expr i) stack in
    s ← visit s (op_code o) i (op_len o) (current_form stack);
    form_id ← form_id_of body i o;
    mret (s, stack, form_id)
  else if is_gate_op (op_code o) then
    s ← visit s (op_code o) i (op_len o) (current_form stack);
    mret (s, stack, None)
  else mret (s, stack, None).

Definition statement_step (body : list byte) (end_ : Z) (st : Z * list VFrame * S)
  : pure (Z * list VFrame * S + S) :=
  let '(i, stack, s) := st in
  if i + 2 <=? end_ then
    o ← read_op body i end_;
    match o with
    | None => mret (inr s)
    | Some o =>
        if is_end o then mret (inl (i + op_len o, list.tail stack, s))
        else if in_gate_expr stack && negb (is_statement_op (op_code o))
                && negb (is_gate_op (op_code o)) && negb (op_scoped o)
        then mret (inl (i + op_len o, stack, s))
        else
          v ← visit_op body i o stack s;
          let '(s, stack, form_id) := v in
          let stack := if op_scoped o
                       then {| vf_op := op_code o; vf_expr_end := None; vf_form_id := form_id |} :: stack
                       else stack in
          mret (inl (i + op_len o, stack, s))
    end
  else mret (inr s).

Definition walk_statements (body : list byte) (s : S) : pure S :=
  se ← package_bounds body;
  loop (length body + 1) (statement_step body (snd se)) (fst se, [], s).
End Walk.

(** ** Values *)

Definition read_le_u64 (pkg : list byte) (off count : Z) : Z :=
  if blen pkg <=? off then 0
  else le_dec (sub pkg off (off + Z.min (Z.min count 8) (sat_sub (blen pkg) off))).

Definition ascii_strz (bytes : list byte) : ustring :=
  from_utf8_lossy (take_while (fun b => negb (bool_decide (b = x00))) bytes).
Definition ucs2_strz (bytes : list byte) : ustring :=
  from_utf16_lossy (take_while (fun u => negb (u =? 0)) (utf16_units bytes)).

Definition u32_in (pkg : list byte) (at_ : Z) : pure Z :=
  b0 ← index pkg at_; b1 ← index pkg (at_ + 1);
  b2 ← index pkg (at_ + 2); b3 ← index pkg (at_ + 3);
  mret (le_dec [b0; b1; b2; b3]).

(** ** Variable stores *)

Definition parse_varstore_op (pkg : list byte) (op : byte) (off len : Z) : pure (option VarStoreMap) :=
  if bool_decide (op = IFR_VARSTORE_OP) && (22 <=? len) then
    guid_bytes ← slice pkg (off + 2) (off + 18);
    id ← u16_in pkg (off + 18);
    size ← u16_in pkg (off + 20);
    name ← slice pkg (off + 22) (off + len);
    mret (Some {| vs_id := id; vs_guid := Some (guid_of_array guid_bytes); vs_size := size;
                  vs_name := ascii_strz name; vs_kind := VK_Buffer; vs_attributes := 0 |})
  else if bool_decide (op = IFR_VARSTORE_EFI_OP) && (26 <=? len) then
    guid_bytes ← slice pkg (off + 4) (off + 20);
    id ← u16_in pkg (off + 2);
    size ← u16_in pkg (off + 24);
    name ← slice pkg (off + 26) (off + len);
    attributes ← u32_in pkg (off + 20);
    mret (Some {| vs_id := id; vs_guid := Some (guid_of_array guid_bytes); vs_size := size;
                  vs_name := ucs2_strz name; vs_kind := VK_Efi; vs_attributes := attributes |})
  else if bool_decide (op = IFR_VARSTORE_NAME_VALUE_OP) && (6 <=? len) then
    id ← u16_in pkg (off + 2);
    name ← slice pkg (off + 4) (off + len);
    mret (Some {| vs_id := id; vs_guid := None; vs_size := 0; vs_name := ucs2_strz name;
                  vs_kind := VK_NameValue; vs_attributes := 0 |})
  else mret None.

Definition push_some {A} (out : list A) (m : option A) : list A :=
  match m with Some a => out ++ [a] | None => out end.

Definition varstore_map (pkg : list byte) : pure (list VarStoreMap) :=
  walk_statements
    (fun out op off len _ => m ← parse_varstore_op pkg op off len; mret (push_some out m)) pkg [].

Definition varstore_map_formset (pkg : list byte) (formset_idx : Z) : pure (option (list VarStoreMap)) :=
  spans ← formset_spans pkg;
  span ←? (spans ← spans; get spans formset_idx);
  out ← walk_statements
    (fun out op off len _ =>
       if (fst span <=? off) && (off <? snd span)
       then m ← parse_varstore_op pkg op off len; mret (push_some out m)
       else mret out) pkg [];
  mret (Some out).

(** ** Questions *)

(** What one opcode at depth 0 adds. *)
Definition option_op (pkg : list byte) (i : Z) (o : IfrOp) (out : list OptionEntry * list DefaultEntry)
  : pure (list OptionEntry * list DefaultEntry) :=
  let '(options, defaults) := out in
  if bool_decide (op_code o = IFR_ONE_OF_OPTION_OP) && (7 <=? op_len o) then
    string_id ← u16_in pkg (i + 2);
    flags ← index pkg (i + 4);
    mret (options ++ [{| oe_string_id := string_id; oe_flags := flags;
                         oe_value := read_le_u64 pkg (i + 6) (op_len o - 6) |}], defaults)
  else if bool_decide (op_code o = IFR_DEFAULT_OP) && (6 <=? op_len o) then
    default_id ← u16_in pkg (i + 2);
    type_ ← index pkg (i + 4);
    mret (options, defaults ++ [{| de_default_id := default_id; de_type := type_;
                                   de_value := read_le_u64 pkg (i + 5) (op_len o - 5) |}])
  else mret (options, defaults).

Definition options_step (pkg : list byte) (end_ : Z)
  (st : Z * Z * (list OptionEntry * list DefaultEntry))
  : pure (Z * Z * (list OptionEntry * list DefaultEntry) + (list OptionEntry * list DefaultEntry)) :=
  let '(i, depth, out) := st in
  if i + 2 <=? end_ then
    o ← read_op pkg i end_;
    match o with
    | None => mret (inr out)
    | Some o =>
        if is_end o then
          if depth =? 0 then mret (inr out)
          else mret (inl (i + op_len o, depth - 1, out))
        else
          out ← (if depth =? 0 then option_op pkg i o out else mret out);
          mret (inl (i + op_len o, if op_scoped o then depth + 1 else depth, out))
    end
  else mret (inr out).

Definition scan_options (pkg : list byte) (i : Z) : pure (list OptionEntry * list DefaultEntry) :=
  se ← package_bounds pkg;
  loop (length pkg + 1) (options_step pkg (Z.min (snd se) (blen pkg))) (i, 0, ([], [])).

(** [(64 - v.leading_zeros()).div_ceil(8)]. *)
Definition value_bytes_needed (v : Z) : Z := if v =? 0 then 0 else (Z.log2 v + 1 + 7) / 8.

Definition one_of_width (options : list OptionEntry) (defaults : list DefaultEntry) : Z :=
  let width := fold_left (fun w o => Z.max w (value_bytes_needed (oe_value o))) options 1 in
  fold_left (fun w d => if (1 <=? b2z (de_type d)) && (b2z (de_type d) <=? 4)
                        then Z.max w (Z.shiftl 1 (b2z (de_type d) - 1)) else w) defaults width.

Definition question_kind (op : byte) : QuestionKind :=
  if bool_decide (op = IFR_ONE_OF_OP) then QK_OneOf
  else if bool_decide (op = IFR_CHECKBOX_OP) then QK_CheckBox
  else if bool_decide (op = IFR_NUMERIC_OP) then QK_Numeric
  else QK_Other.

(** [1u8 << (pkg[off + 13] & IFR_NUMERIC_SIZE)]. *)
Definition numeric_width (pkg : list byte) (off : Z) : pure Z :=
  b ← index pkg (off + 13); mret (Z.shiftl 1 (Z.land (b2z b) IFR_NUMERIC_SIZE)).

(** The width of the storage of a question at [off], [len] bytes long. *)
Definition slot_width (pkg : list byte) (kind : QuestionKind) (off len : Z) : pure Z :=
  match kind with
  | QK_CheckBox => mret 1
  | QK_Numeric => if 14 <=? len then numeric_width pkg off else mret 0
  | QK_OneOf => od ← scan_options pkg (off + len); mret (one_of_width (fst od) (snd od))
  | QK_Other => mret 0
  end.

Record QuestionSlot := {
  qs_question_id : Z;
  qs_var_store_id : Z;
  qs_var_offset : Z;
  qs_width : Z
}.

Definition question_slot (pkg : list byte) (q : Z * Z) : pure QuestionSlot :=
  let '(q_off, q_len) := q in
  op ← index pkg q_off;
  width ← slot_width pkg (question_kind op) q_off q_len;
  question_id ← u16_in pkg (q_off + 6);
  var_store_id ← u16_in pkg (q_off + 8);
  var_offset ← u16_in pkg (q_off + 10);
  mret {| qs_question_id := question_id; qs_var_store_id := var_store_id;
          qs_var_offset := var_offset; qs_width := width |}.

Definition scan_question_slots (pkg : list byte) : pure (list QuestionSlot) :=
  hits ← walk_statements
    (fun hits op off len _ =>
       mret (if is_question_op op && (13 <=? len) then hits ++ [(off, len)] else hits)) pkg [];
  foldM (fun out q => s ← question_slot pkg q; mret (out ++ [s])) hits [].

(** [read(pos)] of a NUMERIC question: min, max and step follow the flags. *)
Definition read_bound (pkg : list byte) (q_off q_len w pos : Z) : Z :=
  let start := q_off + 14 + pos * w in
  read_le_u64 pkg start (Z.min w (sat_sub (q_off + q_len) start)).

Definition build_question_map (pkg : list byte) (q_off q_len : Z) (varstore : option VarStoreMap)
  : pure QuestionMap :=
  op ← index pkg q_off;
  let kind := question_kind op in
  question_id ← u16_in pkg (q_off + 6);
  var_store_id ← u16_in pkg (q_off + 8);
  var_offset ← u16_in pkg (q_off + 10);
  let q width od min max step :=
    {| qm_question_id := question_id; qm_kind := kind; qm_var_store_id := var_store_id;
       qm_var_offset := var_offset; qm_width := width; qm_varstore := varstore;
       qm_options := fst od; qm_defaults := snd od; qm_min := min; qm_max := max; qm_step := step |} in
  match kind with
  | QK_CheckBox => mret (q 1 ([], []) 0 0 0)
  | QK_Numeric =>
      if 14 <=? q_len then
        w ← numeric_width pkg q_off;
        mret (q w ([], []) (read_bound pkg q_off q_len w 0) (read_bound pkg q_off q_len w 1)
                (read_bound pkg q_off q_len w 2))
      else mret (q 0 ([], []) 0 0 0)
  | QK_OneOf =>
      od ← scan_options pkg (q_off + q_len);
      mret (q (one_of_width (fst od) (snd od)) od 0 0 0)
  | QK_Other => mret (q 0 ([], []) 0 0 0)
  end.

(** The declaration with the identifier of the question's variable store. *)
Definition find_varstore (stores : list VarStoreMap) (id : Z) : option VarStoreMap :=
  if id =? 0 then None else List.find (fun v => vs_id v =? id) stores.

Definition find_question (pkg : list byte) (form_id question_id : Z) : pure (option QuestionMap) :=
  found ← walk_statements
    (fun found op off len current =>
       if bool_decide (found = None) && is_question_op op && (13 <=? len) then
         id ← u16_in pkg (off + 6);
         mret (if (id =? question_id) && bool_decide (current = Some form_id)
               then Some (off, len) else found)
       else mret found) pkg None;
  q ←? found;
  let '(q_off, q_len) := q in
  var_store_id ← u16_in pkg (q_off + 8);
  stores ← (if var_store_id =? 0 then mret [] else varstore_map pkg);
  m ← build_question_map pkg q_off q_len (find_varstore stores var_store_id);
  mret (Some m).

Definition question_maps_step (pkg : list byte) (varstores : list VarStoreMap)
  (out : gmap (Z * Z) QuestionMap) (hit : Z * Z * Z) : pure (gmap (Z * Z) QuestionMap) :=
  let '(form_id, q_off, q_len) := hit in
  question_id ← u16_in pkg (q_off + 6);
  let key := (form_id, question_id) in
  if bool_decide (is_Some (out !! key)) then mret out
  else
    var_store_id ← u16_in pkg (q_off + 8);
    m ← build_question_map pkg q_off q_len (find_varstore varstores var_store_id);
    mret (<[key := m]> out).

Definition question_maps (pkg : list byte) : pure (gmap (Z * Z) QuestionMap) :=
  hits ← walk_statements
    (fun hits op off len current =>
       mret (if is_question_op op && (13 <=? len) then
               match current with Some form_id => hits ++ [(form_id, off, len)] | None => hits end
             else hits)) pkg [];
  varstores ← varstore_map pkg;
  foldM (question_maps_step pkg varstores) hits ∅.

(** ** The questions of a form *)

Record RawQuestion := {
  rq_question_id : Z;
  rq_prompt_sid : Z;
  rq_kind : QuestionKind;
  rq_var_store_id : Z;
  rq_var_offset : Z;
  rq_width : Z
}.

Definition question_visit (pkg : list byte) (form_id : Z) (out : list RawQuestion)
  (op : byte) (off len : Z) (current : option Z) : pure (list RawQuestion) :=
  if negb (bool_decide (current = Some form_id)) || negb (is_question_op op) || (len <? 13)
  then mret out
  else
    let kind := question_kind op in
    width ← slot_width pkg kind off len;
    prompt_sid ← u16_in pkg (off + 2);
    question_id ← u16_in pkg (off + 6);
    var_store_id ← u16_in pkg (off + 8);
    var_offset ← u16_in pkg (off + 10);
    mret (out ++ [{| rq_question_id := question_id; rq_prompt_sid := prompt_sid; rq_kind := kind;
                     rq_var_store_id := var_store_id; rq_var_offset := var_offset;
                     rq_width := width |}]).

Definition questions (pkg : list byte) (form_id : Z) : pure (list RawQuestion) :=
  walk_statements (question_visit pkg form_id) pkg [].

(** ** The REF edges of a package *)

(** [(child, formset)] of a REF, [None] for a dynamic or malformed one. *)
Definition ref_target (op : byte) (stmt : list byte) : option (Z * option Guid) :=
  match parse_ref op stmt with
  | Some (RT_Formset formset_guid form_id _) => Some (form_id, Some formset_guid)
  | Some (RT_Form form_id) | Some (RT_FormQuestion form_id _) => Some (form_id, None)
  | _ => None
  end.

Definition edge_visit (pkg : list byte) (out : list (Z * Z * option Guid))
  (op : byte) (off len : Z) (current : option Z) : pure (list (Z * Z * option Guid)) :=
  if negb (bool_decide (op = IFR_REF_OP)) || (len <? 15) then mret out
  else
    match current with
    | None => mret out
    | Some parent =>
        stmt ← slice pkg off (off + len);
        mret (match ref_target op stmt with
              | Some (child, cross) =>
                  if bool_decide ((parent, child, cross) ∈ out) then out
                  else out ++ [(parent, child, cross)]
              | None => out
              end)
    end.

Definition package_edges (pkg : list byte) : pure (list (Z * Z * option Guid)) :=
  walk_statements (edge_visit pkg) pkg [].

(** ** The position of a form *)

Record HijackFormSpan := {
  hs_form_op : Z;
  hs_next_form_op : Z
}.

Definition form_visit (pkg : list byte) (forms : list (Z * Z)) (op : byte) (off len : Z)
  (_ : option Z) : pure (list (Z * Z)) :=
  if bool_decide (op = IFR_FORM_OP) && (6 <=? len)
  then id ← u16_in pkg (off + 2); mret (forms ++ [(off, id)]) else mret forms.

Definition locate_form (pkg : list byte) (form_id : Z) : pure (option HijackFormSpan) :=
  forms ← walk_statements (form_visit pkg) pkg [];
  idx ←? position (fun f => snd f =? form_id) forms 0;
  f ← index forms idx;
  mret (Some {| hs_form_op := fst f;
                hs_next_form_op := match get forms (idx + 1) with
                                   | Some g => fst g
                                   | None => blen pkg
                                   end |}).

Definition locate_form_attribution (pkg : list byte) (form_id : Z)
  : pure (option (Z * HijackFormSpan)) :=
  span ← locate_form pkg form_id;
  span ←? span;
  spans ← formset_spans pkg;
  spans ←? spans;
  mret (idx ← position (fun se => (fst se <=? hs_form_op span) && (hs_form_op span <? snd se)) spans 0;
        Some (idx, span)).

Definition locate_questions (pkg : list byte) (form_id : Z) : pure (list (Z * Z)) :=
  walk_statements
    (fun qs op off len current =>
       if is_question_op op && (13 <=? len) && bool_decide (current = Some form_id)
       then id ← u16_in pkg (off + 6); mret (qs ++ [(off, id)]) else mret qs) pkg [].

Definition rewrite_question_strings (pkg : list byte) (q_off prompt_id help_id : Z)
  : pure (list byte) :=
  pkg ← copy_into pkg (q_off + 2) (q_off + 4) (le_enc 2 prompt_id);
  copy_into pkg (q_off + 4) (q_off + 6) (le_enc 2 help_id).

End Values.
