(* ===== verification/Ifr.v ===== *)
(** Locating and editing the forms of a package ([hii/ifr.rs]): the scope that hides a
    form, the strings of a form, the formsets and forms of a package, and the
    insertion of opcodes behind the package's length. *)
From stdpp Require Import gmap.
From S2P Require Import Prelude Text Types Ffs Hii Values.

Section Ifr.
Context {GL : GuidLib} {RH : RefiHii}.

(** [op_code == IFR_FORM_OP && length >= 6 && id == form_id]. *)
Definition is_form (body : list byte) (i : Z) (o : IfrOp) (form_id : Z) : pure bool :=
  id ← form_id_of body i o; mret (bool_decide (id = Some form_id)).

(** *** The scope that hides a form *)

(** The open scopes, the outermost first: opcode and start of the contents. *)
Definition form_suppress_step (body : list byte) (end_ form_id : Z) (s : Z * list (byte * Z))
  : pure (Z * list (byte * Z) + option SuppressScope) :=
  let '(i, open) := s in
  if i + 2 <=? end_ then
    o ← read_op body i end_;
    match o with
    | None => mret (inr None)
    | Some o =>
        hit ← is_form body i o form_id;
        match (if hit : bool then position (fun f => bool_decide (fst f = IFR_SUPPRESS_IF_OP)) open 0
               else None) with
        | Some k =>
            e ← close_scope body end_ k (i + op_len o) (blen open);
            match e with
            | SE_Closed j =>
                f ← index open k; mret (inr (Some {| sc_start := snd f; sc_end := j |}))
            | _ => mret (inr None)
            end
        | None =>
            let open := if is_end o then removelast open
                        else if op_scoped o then open ++ [(op_code o, i + 2)] else open in
            mret (inl (i + op_len o, open))
        end
    end
  else mret (inr None).

Definition find_form_suppress_scope (body : list byte) (form_id : Z) : pure (option SuppressScope) :=
  se ← package_bounds body;
  loop (length body + 1) (form_suppress_step body (snd se) form_id) (fst se, []).

(** *** The strings of a form *)

Definition push_id (st : list Z * gset Z) (id : Z) : list Z * gset Z :=
  if negb (id =? 0) && negb (bool_decide (id ∈ snd st)) then (fst st ++ [id], {[id]} ∪ snd st) else st.

(** The opcodes whose header holds a prompt and a help string. *)
Definition prompt_help_ops : list byte :=
  [IFR_SUBTITLE_OP; IFR_ONE_OF_OP; IFR_CHECKBOX_OP; IFR_NUMERIC_OP; IFR_PASSWORD_OP; IFR_ACTION_OP;
   IFR_REF_OP; IFR_DATE_OP; IFR_TIME_OP; IFR_STRING_OP; IFR_ORDERED_LIST_OP].

Definition op_string_ids (body : list byte) (j : Z) (o : IfrOp) (st : list Z * gset Z)
  : pure (list Z * gset Z) :=
  if one_of (op_code o) prompt_help_ops then
    if 6 <=? op_len o then
      p ← u16_in body (j + 2); h ← u16_in body (j + 4);
      mret (push_id (push_id st p) h)
    else mret st
  else if bool_decide (op_code o = IFR_TEXT_OP) then
    if 8 <=? op_len o then
      p ← u16_in body (j + 2); h ← u16_in body (j + 4); t ← u16_in body (j + 6);
      mret (push_id (push_id (push_id st p) h) t)
    else mret st
  else if bool_decide (op_code o = IFR_ONE_OF_OPTION_OP) && (4 <=? op_len o) then
    t ← u16_in body (j + 2); mret (push_id st t)
  else mret st.

Definition form_strings_step (body : list byte) (end_ : Z) (s : Z * Z * (list Z * gset Z))
  : pure (Z * Z * (list Z * gset Z) + list Z) :=
  let '(j, depth, st) := s in
  if j + 2 <=? end_ then
    o ← read_op body j end_;
    match o with
    | None => mret (inr (fst st))
    | Some o =>
        if is_end o then
          if depth =? 0 then mret (inr (fst st)) else mret (inl (j + op_len o, depth - 1, st))
        else
          st ← op_string_ids body j o st;
          mret (inl (j + op_len o, if op_scoped o then depth + 1 else depth, st))
    end
  else mret (inr (fst st)).

Definition string_ids_step (body : list byte) (end_ form_id : Z) (i : Z) : pure (Z + list Z) :=
  if i + 2 <=? end_ then
    o ← read_op body i end_;
    match o with
    | None => mret (inr [])
    | Some o =>
        hit ← is_form body i o form_id;
        if hit : bool then
          title ← u16_in body (i + 4);
          ids ← loop (length body + 1) (form_strings_step body end_)
                  (i + op_len o, 0, push_id ([], ∅) title);
          mret (inr ids)
        else mret (inl (i + op_len o))
    end
  else mret (inr []).

Definition collect_form_string_ids (body : list byte) (form_id : Z) : pure (list Z) :=
  se ← package_bounds body;
  loop (length body + 1) (string_ids_step body (snd se) form_id) (fst se).

(** *** The span of a form *)

(** The scan of the formset for the form; the scan of the form for its END. *)
Definition formset_form_step (body : list byte) (end_ form_id : Z) (s : Z * Z)
  : pure (Z * Z + option (Z * Z)) :=
  let '(j, depth) := s in
  if j + 2 <=? end_ then
    o ← read_op body j end_;
    match o with
    | None => mret (inr None)
    | Some o =>
        hit ← is_form body j o form_id;
        if hit : bool then
          e ← close_scope body end_ 0 (j + op_len o) 1;
          mret (inr (match e with SE_Closed k => Some (j, k) | _ => None end))
        else if is_end o then
          depth ← usub depth 1;
          if depth =? 0 then mret (inr None) else mret (inl (j + op_len o, depth))
        else mret (inl (j + op_len o, if op_scoped o then depth + 1 else depth))
    end
  else mret (inr None).

Definition form_span_step (body : list byte) (end_ formset_idx form_id : Z) (s : Z * Z)
  : pure (Z * Z + option (Z * Z)) :=
  let '(i, seen) := s in
  if i + 2 <=? end_ then
    o ← read_op body i end_;
    match o with
    | None => mret (inr None)
    | Some o =>
        if bool_decide (op_code o = IFR_FORM_SET_OP) then
          if seen =? formset_idx then
            r ← loop (length body + 1) (formset_form_step body end_ form_id) (i + op_len o, 1);
            mret (inr r)
          else mret (inl (i + op_len o, seen + 1))
        else mret (inl (i + op_len o, seen))
    end
  else mret (inr None).

Definition form_span (body : list byte) (formset_idx form_id : Z) : pure (option (Z * Z)) :=
  if negb (is_form_package body) then Ok None
  else
    plen ← u24_at body 0;
    loop (length body + 1) (form_span_step body (Z.min plen (blen body)) formset_idx form_id) (4, 0).

(** *** The point of an insertion *)

Inductive InsertPos := IP_End | IP_BeforeGoto (t : Z) | IP_BeforeQuestion (q : Z).
#[export] Instance InsertPos_eq_dec : EqDecision InsertPos.
Proof. solve_decision. Defined.

(** The state of the search: the open scopes, the outermost first, the listings of the
    error messages and the anchor. *)
Record AnchorState := {
  an_refs : list ustring;
  an_qids : list ustring;
  an_scopes : list Z;
  an_anchor : option Z
}.

(** [{t:#x}@0x{i:x}]. *)
Definition fmt_anchor (t i : Z) : ustring := fmt_hex t ++ us "@" ++ fmt_hex i.
(** The anchor is raised to the outermost open scope. *)
Definition raise_anchor (st : AnchorState) (hit : bool) (i : Z) : option Z :=
  if hit && bool_decide (an_anchor st = None)
  then Some (match an_scopes st with sc :: _ => sc | [] => i end) else an_anchor st.

Definition ref_anchor (body : list byte) (pos : InsertPos) (i : Z) (o : IfrOp) (st : AnchorState)
  : pure AnchorState :=
  if bool_decide (op_code o = IFR_REF_OP) && (15 <=? op_len o) then
    stmt ← slice body i (i + op_len o);
    mret (match ref_target (op_code o) stmt with
          | Some (t, _) =>
              {| an_refs := an_refs st ++ [fmt_anchor t i]; an_qids := an_qids st;
                 an_scopes := an_scopes st;
                 an_anchor := raise_anchor st (bool_decide (pos = IP_BeforeGoto t)) i |}
          | None => st
          end)
  else mret st.

Definition question_anchor (body : list byte) (pos : InsertPos) (i : Z) (o : IfrOp) (st : AnchorState)
  : pure AnchorState :=
  if is_question_op (op_code o) && (8 <=? op_len o) then
    q ← u16_in body (i + 6);
    mret {| an_refs := an_refs st; an_qids := an_qids st ++ [fmt_anchor q i];
            an_scopes := an_scopes st;
            an_anchor := raise_anchor st (bool_decide (pos = IP_BeforeQuestion q)) i |}
  else mret st.

Definition set_scopes (st : AnchorState) (scopes : list Z) : AnchorState :=
  {| an_refs := an_refs st; an_qids := an_qids st; an_scopes := scopes; an_anchor := an_anchor st |}.

Definition anchor_step (body : list byte) (pos : InsertPos) (form_end : Z) (s : Z * AnchorState)
  : pure (Z * AnchorState + AnchorState) :=
  let '(i, st) := s in
  if i + 2 <=? form_end then
    o ← read_op body i form_end;
    match o with
    | None => mret (inr st)
    | Some o =>
        if is_end o then mret (inl (i + op_len o, set_scopes st (removelast (an_scopes st))))
        else
          st ← ref_anchor body pos i o st;
          st ← question_anchor body pos i o st;
          let st := if op_scoped o then set_scopes st (an_scopes st ++ [i]) else st in
          mret (inl (i + op_len o, st))
    end
  else mret (inr st).

Definition listing (l : list ustring) : ustring :=
  match l with [] => us "(none)" | _ => join (us ", ") l end.
Definition anchor_error (pos : InsertPos) (form_id : Z) (st : AnchorState) : ustring :=
  match pos with
  | IP_BeforeGoto t =>
      us "insert_before goto_form_id " ++ fmt_hex t ++ us " not found in form " ++ fmt_hex form_id
      ++ us "; available REF targets: " ++ listing (an_refs st)
  | IP_BeforeQuestion q =>
      us "insert_before question_id " ++ fmt_hex q ++ us " not found in form " ++ fmt_hex form_id
      ++ us "; available question ids: " ++ listing (an_qids st)
  | IP_End => []
  end.

(** The [unreachable!] of [End] is behind the early return. *)
Definition locate_insert_at (body : list byte) (formset_idx form_id : Z) (pos : InsertPos)
  : outcome HiiError Z :=
  span ← lift (form_span body formset_idx form_id);
  match span with
  | None => Err HE_NotFound
  | Some (form_op, form_end) =>
      if bool_decide (pos = IP_End) then Ok form_end
      else
        hdr ← index body (form_op + 1);
        let form_hdr := Z.land (b2z hdr) 0x7F in
        st ← lift (loop (length body + 1) (anchor_step body pos form_end)
                     (form_op + form_hdr, {| an_refs := []; an_qids := []; an_scopes := [];
                                             an_anchor := None |}));
        match an_anchor st with
        | Some a => Ok a
        | None => if bool_decide (pos = IP_End) then Panic
                  else Err (HE_InvalidSchema (anchor_error pos form_id st))
        end
  end.

(** *** Insertions *)

Definition checked_package_len (package : list byte) (grow : Z) : outcome HiiError Z :=
  plen ← lift (u24_at package 0);
  let new_len := plen + grow in
  if 0xFFFFFF <? new_len
  then Err (HE_ValueOpUnsupported (us "IFR package length " ++ dec_string new_len
                                   ++ us " exceeds u24 after splice"))
  else Ok new_len.

(** The result is the package, the position and the length of the insertion. *)
Definition splice_question_ops (package : list byte) (formset_idx form_id : Z) (pos : InsertPos)
  (ops : list byte) : outcome HiiError (list byte * (Z * Z)) :=
  match ops with
  | [] => Err (HE_InvalidSchema (us "empty ops"))
  | _ =>
      new_len ← checked_package_len package (blen ops);
      insert_at ← locate_insert_at package formset_idx form_id pos;
      package ← splice_in package insert_at ops;
      package ← lift (set_u24 package new_len);
      mret (package, (insert_at, blen ops))
  end.

Definition locate_formset_prelude_end (package : list byte) (formset_idx : Z) : pure (option Z) :=
  spans ← formset_spans package;
  span ←? (spans ← spans; get spans formset_idx);
  walk_statements
    (fun first op off _ _ =>
       mret (if bool_decide (op = IFR_FORM_OP) && bool_decide (first = None)
                && (fst span <=? off) && (off <? snd span)
             then Some off else first)) package None.

Definition splice_varstore_ops (package ops : list byte) (formset_idx : Z)
  : outcome HiiError (list byte * (Z * Z)) :=
  match ops with
  | [] => Err (HE_InvalidSchema (us "empty ops"))
  | _ =>
      new_len ← checked_package_len package (blen ops);
      p ← lift (locate_formset_prelude_end package formset_idx);
      match p with
      | None => Err HE_NotFound
      | Some insert_at =>
          package ← splice_in package insert_at ops;
          package ← lift (set_u24 package new_len);
          mret (package, (insert_at, blen ops))
      end
  end.

(** *** The formsets of a package *)

Record RawForm := {
  rf_form_id : Z;
  rf_title : Z;
  rf_suppressed : bool
}.
Record FormSetInfo := {
  fi_guid : Guid;
  fi_title : Z;
  fi_forms : list RawForm
}.

(** The GUID and the title of a FORM_SET, and the row of a FORM. *)
Definition formset_header (body : list byte) (i : Z) : pure (Guid * Z) :=
  arr ← slice body (i + 2) (i + 18);
  title ← u16_in body (i + 18);
  mret (guid_of_array arr, title).
Definition raw_form (body : list byte) (i : Z) (scope_stack : list byte) : pure RawForm :=
  form_id ← u16_in body (i + 2);
  title ← u16_in body (i + 4);
  mret {| rf_form_id := form_id; rf_title := title;
          rf_suppressed := bool_decide (IFR_SUPPRESS_IF_OP ∈ scope_stack) |}.

Record PackageScan := {
  ps_guid : option Guid;
  ps_title : Z;
  ps_forms : list RawForm
}.

(** The stack has its last opcode first; an END pops before a scope bit pushes. *)
Definition scan_stack (o : IfrOp) (stack : list byte) : list byte :=
  let stack := if is_end o then list.tail stack else stack in
  if op_scoped o then op_code o :: stack else stack.

Definition package_op (body : list byte) (i : Z) (o : IfrOp) (stack : list byte) (st : PackageScan)
  : pure (option PackageScan) :=
  if bool_decide (op_code o = IFR_FORM_SET_OP) then
    if op_len o <? 23 then mret None
    else gt ← formset_header body i;
         mret (Some {| ps_guid := Some (fst gt); ps_title := snd gt; ps_forms := ps_forms st |})
  else if bool_decide (op_code o = IFR_FORM_OP) then
    if op_len o <? 6 then mret None
    else f ← raw_form body i stack;
         mret (Some {| ps_guid := ps_guid st; ps_title := ps_title st; ps_forms := ps_forms st ++ [f] |})
  else mret (Some st).

Definition form_package_step (body : list byte) (end_ : Z) (s : Z * list byte * PackageScan)
  : pure (Z * list byte * PackageScan + option PackageScan) :=
  let '(i, stack, st) := s in
  if i + 2 <=? end_ then
    o ← read_op body i end_;
    match o with
    | None => mret (inr None)
    | Some o =>
        st ← package_op body i o stack st;
        mret (match st with
              | Some st => inl (i + op_len o, scan_stack o stack, st)
              | None => inr None
              end)
    end
  else mret (inr (Some st)).

Definition parse_form_package (body : list byte) : pure (option FormSetInfo) :=
  if negb (is_form_package body) then Ok None
  else
    se ← package_bounds body;
    st ← loop (length body + 1) (form_package_step body (snd se))
           (fst se, [], {| ps_guid := None; ps_title := 0; ps_forms := [] |});
    mret (st ← st; g ← ps_guid st;
          Some {| fi_guid := g; fi_title := ps_title st; fi_forms := ps_forms st |}).

(** The finished formsets with their ordinals, and the open one. *)
Definition close_set (sets : list (Z * FormSetInfo)) (cur : option FormSetInfo)
  : list (Z * FormSetInfo) :=
  match cur with Some fs => sets ++ [(blen sets, fs)] | None => sets end.

Definition sets_op (body : list byte) (i : Z) (o : IfrOp) (stack : list byte)
  (st : list (Z * FormSetInfo) * option FormSetInfo)
  : pure (option (list (Z * FormSetInfo) * option FormSetInfo)) :=
  let '(sets, cur) := st in
  if bool_decide (op_code o = IFR_FORM_SET_OP) then
    if op_len o <? 23 then mret None
    else gt ← formset_header body i;
         mret (Some (close_set sets cur,
                     Some {| fi_guid := fst gt; fi_title := snd gt; fi_forms := [] |}))
  else if bool_decide (op_code o = IFR_FORM_OP) then
    if op_len o <? 6 then mret None
    else match cur with
         | Some fs =>
             f ← raw_form body i stack;
             mret (Some (sets, Some {| fi_guid := fi_guid fs; fi_title := fi_title fs;
                                       fi_forms := fi_forms fs ++ [f] |}))
         | None => mret (Some (sets, None))
         end
  else mret (Some (sets, cur)).

Definition form_sets_step (body : list byte) (end_ : Z)
  (s : Z * list byte * (list (Z * FormSetInfo) * option FormSetInfo))
  : pure (Z * list byte * (list (Z * FormSetInfo) * option FormSetInfo)
          + option (list (Z * FormSetInfo))) :=
  let '(i, stack, st) := s in
  if i + 2 <=? end_ then
    o ← read_op body i end_;
    match o with
    | None => mret (inr None)
    | Some o =>
        st ← sets_op body i o stack st;
        mret (match st with
              | Some st => inl (i + op_len o, scan_stack o stack, st)
              | None => inr None
              end)
    end
  else mret (inr (Some (close_set (fst st) (snd st)))).

Definition parse_form_package_sets (body : list byte) : pure (option (list (Z * FormSetInfo))) :=
  if negb (is_form_package body) then Ok None
  else
    se ← package_bounds body;
    loop (length body + 1) (form_sets_step body (snd se)) (fst se, [], ([], None)).

End Ifr.
