(* ===== verification/Gates.v ===== *)
(** Gates around forms and questions ([hii/gates.rs]): the expressions that suppress or
    gray out a statement, their search, the planned changes of literals that unlock
    them, and the application of a plan. *)
From S2P Require Import Prelude Text Types Ffs Hii.

Section Gates.
Context {GL : GuidLib} {RH : RefiHii}.

Inductive GateKind := GK_Suppress | GK_Grayout.
#[export] Instance GateKind_eq_dec : EqDecision GateKind.
Proof. solve_decision. Defined.
Definition gate_kind_str (k : GateKind) : ustring :=
  match k with GK_Suppress => us "suppress" | GK_Grayout => us "grayout" end.

Inductive Wraps :=
| WR_Form (form_id : Z)
| WR_Ref (form_id host_form_id : Z)
| WR_CrossFormsetRef (form_id host_form_id : Z) (formset_guid : Guid)
| WR_Question (form_id question_id : Z).

Inductive GateExpr :=
| GE_EqConst (a b : Z)
| GE_EqIdVal (question_id value : Z)
| GE_True
| GE_False
| GE_Other.
#[export] Instance GateExpr_eq_dec : EqDecision GateExpr.
Proof. solve_decision. Defined.

Record Gate := {
  g_kind : GateKind;
  g_wraps : Wraps;
  scope_offset : Z;
  expr_offset : Z;
  expr_end : Z;
  g_expr : GateExpr
}.
Record GateTarget := {
  gt_form_id : Z;
  gt_question_id : option Z;
  gt_formset_guid : option Guid
}.

(** ** Expressions *)

(** The opcodes of a region without its ENDs, with their operands. *)
Definition expr_ops_step (region : list byte) (s : Z * list (byte * list byte))
  : pure (Z * list (byte * list byte) + option (list (byte * list byte))) :=
  let '(i, ops) := s in
  if i + 2 <=? blen region then
    o ← read_op region i (blen region);
    match o with
    | None => mret (inr None)
    | Some o =>
        if is_end o then mret (inl (i + op_len o, ops))
        else data ← slice region (i + 2) (i + op_len o);
             mret (inl (i + op_len o, ops ++ [(op_code o, data)]))
    end
  else mret (inr (Some ops)).

Definition expr_of_ops (ops : list (byte * list byte)) : GateExpr :=
  match ops with
  | [(o1, a); (o2, b); (o3, _)] =>
      if bool_decide (o1 = IFR_UINT64_OP) && bool_decide (o2 = IFR_UINT64_OP)
         && bool_decide (o3 = IFR_EQUAL_OP) && (blen a =? 8) && (blen b =? 8)
      then GE_EqConst (le_dec a) (le_dec b) else GE_Other
  | [(o1, p)] =>
      if bool_decide (o1 = IFR_EQ_ID_VAL_OP) && (blen p =? 4)
      then GE_EqIdVal (le_dec (sub p 0 2)) (le_dec (sub p 2 4))
      else if bool_decide (o1 = IFR_TRUE_OP) then GE_True
      else if bool_decide (o1 = IFR_FALSE_OP) then GE_False
      else GE_Other
  | _ => GE_Other
  end.

Definition decode_expr (region : list byte) : pure GateExpr :=
  ops ← loop (length region + 1) (expr_ops_step region) (0, []);
  mret (match ops with Some ops => expr_of_ops ops | None => GE_Other end).

(** ** The search *)

Definition is_gate_op (op : byte) : bool :=
  bool_decide (op = IFR_SUPPRESS_IF_OP) || bool_decide (op = IFR_GRAY_OUT_IF_OP).
Definition is_statement_op (op : byte) : bool :=
  one_of op [IFR_FORM_OP; IFR_SUBTITLE_OP; IFR_TEXT_OP; IFR_REF_OP; IFR_ONE_OF_OP; IFR_CHECKBOX_OP;
             IFR_NUMERIC_OP; IFR_PASSWORD_OP; IFR_ORDERED_LIST_OP; IFR_STRING_OP; IFR_DATE_OP;
             IFR_TIME_OP; IFR_ACTION_OP; IFR_ONE_OF_OPTION_OP; IFR_DEFAULT_OP].
Definition is_question_op (op : byte) : bool :=
  one_of op [IFR_ONE_OF_OP; IFR_CHECKBOX_OP; IFR_NUMERIC_OP; IFR_PASSWORD_OP; IFR_ORDERED_LIST_OP;
             IFR_STRING_OP; IFR_DATE_OP; IFR_TIME_OP; IFR_ACTION_OP].

(** The stack is kept with its last frame first. *)
Record Frame := {
  fr_op : byte;
  fr_offset : Z;
  fr_expr_end : option Z;
  fr_form_id : option Z
}.
Definition mark_end (i : Z) (f : Frame) : Frame :=
  match fr_expr_end f with
  | None => {| fr_op := fr_op f; fr_offset := fr_offset f; fr_expr_end := Some i;
               fr_form_id := fr_form_id f |}
  | Some _ => f
  end.
Fixpoint host_form (stack : list Frame) : option Z :=
  match stack with
  | [] => None
  | f :: stack => match fr_form_id f with Some id => Some id | None => host_form stack end
  end.
Definition in_expr (stack : list Frame) : bool :=
  match stack with
  | f :: _ => is_gate_op (fr_op f) && bool_decide (fr_expr_end f = None)
  | [] => false
  end.

(** What the statement is to the target. *)
Definition wraps_of (body : list byte) (stack : list Frame) (stmt_offset : Z) (o : IfrOp)
  (target : GateTarget) : pure (option Wraps) :=
  let current_form := host_form stack in
  let host := default 0 current_form in
  if bool_decide (op_code o = IFR_FORM_OP) && (6 <=? op_len o) then
    fid ← u16_in body (stmt_offset + 2);
    mret (if (fid =? gt_form_id target) && bool_decide (gt_question_id target = None)
          then Some (WR_Form fid) else None)
  else if bool_decide (op_code o = IFR_REF_OP) && bool_decide (gt_question_id target = None) then
    stmt ← slice body stmt_offset (stmt_offset + op_len o);
    mret (match parse_ref (op_code o) stmt with
          | Some (RT_Formset formset_guid form_id _) =>
              if bool_decide (gt_formset_guid target = Some formset_guid)
                 && (form_id =? gt_form_id target)
              then Some (WR_CrossFormsetRef form_id host formset_guid) else None
          | Some (RT_Form form_id) | Some (RT_FormQuestion form_id _) =>
              if bool_decide (gt_formset_guid target = None) && (form_id =? gt_form_id target)
              then Some (WR_Ref form_id host) else None
          | _ => None
          end)
  else if is_question_op (op_code o) && (8 <=? op_len o) then
    qid ← u16_in body (stmt_offset + 6);
    mret (if bool_decide (gt_question_id target = Some qid)
             && bool_decide (current_form = Some (gt_form_id target))
          then Some (WR_Question (gt_form_id target) qid) else None)
  else mret None.

(** The gate of one frame. *)
Definition frame_gate (body : list byte) (stmt_offset : Z) (wraps : Wraps) (gates : list Gate)
  (f : Frame) : pure (list Gate) :=
  if negb (is_gate_op (fr_op f)) then mret gates
  else
    let e := default stmt_offset (fr_expr_end f) in
    region ← slice body (fr_offset f + 2) (Z.min e (blen body));
    expr ← decode_expr region;
    mret (gates ++ [{| g_kind := if bool_decide (fr_op f = IFR_SUPPRESS_IF_OP)
                                 then GK_Suppress else GK_Grayout;
                       g_wraps := wraps; scope_offset := fr_offset f;
                       expr_offset := fr_offset f + 2; expr_end := e; g_expr := expr |}]).

Definition emit_gates (body : list byte) (stack : list Frame) (stmt_offset : Z) (o : IfrOp)
  (target : GateTarget) (gates : list Gate) : pure (list Gate) :=
  w ← wraps_of body stack stmt_offset o target;
  match w with
  | None => mret gates
  | Some wraps => foldM (frame_gate body stmt_offset wraps) stack gates
  end.

(** A statement ends the open expressions and emits its gates. *)
Definition gate_stmt (body : list byte) (target : GateTarget) (i : Z) (o : IfrOp)
  (stack : list Frame) (gates : list Gate) : pure (list Frame * list Gate * option Z) :=
  if is_statement_op (op_code o) then
    let stack := map (mark_end i) stack in
    gates ← emit_gates body stack i o target gates;
    if bool_decide (op_code o = IFR_FORM_OP) && (6 <=? op_len o)
    then id ← u16_in body (i + 2); mret (stack, gates, Some id)
    else mret (stack, gates, None)
  else mret (stack, gates, None).

Definition gates_step (body : list byte) (end_ : Z) (target : GateTarget)
  (s : Z * list Frame * list Gate) : pure (Z * list Frame * list Gate + list Gate) :=
  let '(i, stack, gates) := s in
  if i + 2 <=? end_ then
    o ← read_op body i end_;
    match o with
    | None => mret (inr gates)
    | Some o =>
        if is_end o then mret (inl (i + op_len o, list.tail stack, gates))
        else if in_expr stack && negb (is_statement_op (op_code o))
                && negb (is_gate_op (op_code o)) && negb (op_scoped o)
        then mret (inl (i + op_len o, stack, gates))
        else
          r ← gate_stmt body target i o stack gates;
          let '(stack, gates, form_id) := r in
          let stack := if op_scoped o
                       then {| fr_op := op_code o; fr_offset := i; fr_expr_end := None;
                               fr_form_id := form_id |} :: stack
                       else stack in
          mret (inl (i + op_len o, stack, gates))
    end
  else mret (inr gates).

Definition find_gates (body : list byte) (target : GateTarget) : pure (list Gate) :=
  se ← package_bounds body;
  loop (length body + 1) (gates_step body (snd se) target) (fst se, [], []).

(** ** Plans *)

Record PlannedFlip := {
  flip_offset : Z;
  flip_from : list byte;
  flip_to : list byte
}.

Definition width_step (body : list byte) (end_ question_id : Z) (i : Z) : pure (Z + option Z) :=
  if i + 2 <=? end_ then
    o ← read_op body i end_;
    match o with
    | None => mret (inr None)
    | Some o =>
        id ← (if is_question_op (op_code o) && (8 <=? op_len o)
              then id ← u16_in body (i + 6); mret (Some id) else mret None);
        if bool_decide (id = Some question_id) then
          if bool_decide (op_code o = IFR_CHECKBOX_OP) then mret (inr (Some 1))
          else if bool_decide (op_code o = IFR_NUMERIC_OP) && (14 <=? op_len o) then
            b ← index body (i + 13);
            mret (inr (Some (Z.shiftl 1 (Z.land (b2z b) IFR_NUMERIC_SIZE))))
          else mret (inr None)
        else mret (inl (i + op_len o))
    end
  else mret (inr None).

Definition question_storage_width (body : list byte) (question_id : Z) : pure (option Z) :=
  se ← package_bounds body;
  loop (length body + 1) (width_step body (snd se) question_id) (fst se).

(** [usize::checked_add]. *)
Definition checked_add (a b : Z) : option Z := if a + b <=? usize_max then Some (a + b) else None.

(** [pkg_off] of [hii/mod.rs]. *)
Definition pkg_off (off : Z) : ustring := us "pkg+" ++ fmt_hex off.
Definition bounds_err (gate : Gate) : ustring :=
  us "gate bounds out of package at " ++ pkg_off (expr_offset gate).

(** [checked_add(..).is_none_or(|e| e > limit)]. *)
Definition past (a b limit : Z) : bool :=
  match checked_add a b with Some e => limit <? e | None => true end.

Definition plan_flip (body : list byte) (gate : Gate) : outcome ustring (option PlannedFlip) :=
  if past (expr_offset gate) 2 (Z.min (expr_end gate) (blen body)) then Err (bounds_err gate)
  else
    match g_expr gate with
    | GE_EqConst a b =>
        if a =? b then
          ls ← index body (expr_offset gate + 1);
          let first_len := Z.land (b2z ls) 0x7F in
          match (o ← checked_add (expr_offset gate) first_len; checked_add o 2) with
          | None => Err (bounds_err gate)
          | Some offset =>
              match get body offset with
              | None => Err (bounds_err gate)
              | Some from =>
                  mret (Some {| flip_offset := offset; flip_from := [from];
                                flip_to := [z2b (b2z from + 1)] |})
              end
          end
        else mret None
    | GE_EqIdVal question_id value =>
        if negb (value =? 0xFFFF) then
          w ← lift (question_storage_width body question_id);
          if match w with Some w => 1 <? w | None => false end then mret None
          else if past (expr_offset gate) 6 (blen body) then Err (bounds_err gate)
          else mret (Some {| flip_offset := expr_offset gate + 4; flip_from := le_enc 2 value;
                             flip_to := le_enc 2 0xFFFF |})
        else mret None
    | GE_True =>
        if negb (bool_decide (get body (expr_offset gate) = Some IFR_TRUE_OP))
        then Err (bounds_err gate)
        else mret (Some {| flip_offset := expr_offset gate; flip_from := [IFR_TRUE_OP];
                           flip_to := [IFR_FALSE_OP] |})
    | _ => mret None
    end.

(** The message names the gate and the bytes of its expression; the wrapped target is
    printed with [Debug], which the parameter [dbg] stands for. *)
Definition flip_class_err (dbg : Wraps -> ustring) (body : list byte) (gate : Gate) : ustring :=
  let region := default [] (get_range body (expr_offset gate) (Z.min (expr_end gate) (blen body))) in
  gate_kind_str (g_kind gate) ++ us " gate at " ++ pkg_off (scope_offset gate) ++ us " wrapping "
  ++ dbg (g_wraps gate) ++ us ": expression [" ++ join (us " ") (map fmt_02x region)
  ++ us "] is not a hardware-validated flip class".

Definition plan_gate (dbg : Wraps -> ustring) (body : list byte) (flips : list PlannedFlip)
  (gate : Gate) : outcome ustring (list PlannedFlip) :=
  f ← plan_flip body gate;
  match f with
  | Some flip => mret (flips ++ [flip])
  | None => Err (flip_class_err dbg body gate)
  end.

Definition plan_gates (dbg : Wraps -> ustring) (body : list byte) (gates : list Gate)
  : outcome ustring (list PlannedFlip) :=
  foldM (plan_gate dbg body) gates [].

Definition is_unlocked_expr (expr : GateExpr) : bool :=
  match expr with
  | GE_EqConst a b => negb (a =? b)
  | GE_EqIdVal _ value => value =? 0xFFFF
  | GE_False => true
  | _ => false
  end.

Definition plan_gates_skip_unlocked (dbg : Wraps -> ustring) (body : list byte) (gates : list Gate)
  : outcome ustring (list PlannedFlip) :=
  foldM (fun flips gate => if is_unlocked_expr (g_expr gate) then mret flips
                           else plan_gate dbg body flips gate) gates [].

(** ** Application *)

Definition flip_check (body : list byte) (_ : unit) (flip : PlannedFlip) : outcome ustring unit :=
  let err := Err (us "flip at pkg+" ++ fmt_hex (flip_offset flip) ++ us " precondition failed") in
  e ← uadd (flip_offset flip) (blen (flip_from flip));
  if blen body <? e then err
  else
    e' ← uadd (flip_offset flip) (blen (flip_to flip));
    if blen body <? e' then err
    else
      old ← slice body (flip_offset flip) e;
      if negb (bool_decide (old = flip_from flip)) then err else mret tt.

Definition flip_write (body : list byte) (flip : PlannedFlip) : outcome ustring (list byte) :=
  copy_into body (flip_offset flip) (flip_offset flip + blen (flip_to flip)) (flip_to flip).

(** All preconditions are checked before the first write. *)
Definition apply_flips (body : list byte) (flips : list PlannedFlip) : outcome ustring (list byte) :=
  _ ← foldM (flip_check body) flips tt;
  foldM flip_write flips body.

End Gates.
