(* ===== verification/StringPack.v ===== *)
(** String packages: the parser of a package ([hii/strings.rs]) and the addition of
    strings to its SIBT blocks ([hii/string_pack.rs]). *)
From stdpp Require Import gmap.
From S2P Require Import Prelude Text Types Ffs Hii.

Section StringPack.
Context {GL : GuidLib} {RH : RefiHii}.

(** ** Block types *)

Definition SIBT_END : byte := x00.
Definition SIBT_STRING_SCSU : byte := x10.
Definition SIBT_STRING_SCSU_FONT : byte := x11.
Definition SIBT_STRINGS_SCSU : byte := x12.
Definition SIBT_STRINGS_SCSU_FONT : byte := x13.
Definition SIBT_STRING_UCS2 : byte := x14.
Definition SIBT_STRING_UCS2_FONT : byte := x15.
Definition SIBT_STRINGS_UCS2 : byte := x16.
Definition SIBT_STRINGS_UCS2_FONT : byte := x17.
Definition SIBT_DUPLICATE : byte := x20.
Definition SIBT_SKIP2 : byte := x21.
Definition SIBT_SKIP1 : byte := x22.
Definition SIBT_EXT1 : byte := x30.
Definition SIBT_EXT2 : byte := x31.
Definition SIBT_EXT4 : byte := x32.
Definition HEADER_LEN : Z := 4.
Definition STRING_INFO_OFFSET_POS : Z := 8.
Definition LANGUAGE_OFFSET : Z := 46.

Definition is_string_package (body : list byte) : bool :=
  (HEADER_LEN <=? blen body) && bool_decide (get body 3 = Some PACKAGE_STRINGS).

Definition declared_len_sane (body : list byte) : pure bool :=
  if 4 <=? blen body then l ← u24_at body 0; mret (l <=? blen body) else mret false.

(** [u16::checked_add], and [+=] on a [u16]. *)
Definition checked_add16 (a b : Z) : option Z := if a + b <=? 0xFFFF then Some (a + b) else None.
Definition add16 {E} (a b : Z) : outcome E Z := unwrap (checked_add16 a b).

Definition nonzero (b : byte) : bool := negb (bool_decide (b = x00)).
(** The bytes up to a NUL, and the units up to a zero unit, from a position. *)
Definition scsu_bytes (body : list byte) (start : Z) : list byte :=
  take_while nonzero (sub body start (blen body)).
Definition ucs2_units (body : list byte) (start : Z) : list Z :=
  take_while (fun u => negb (u =? 0)) (utf16_units (sub body start (blen body))).

(** ** The parser of a package *)

Record ParsedStringPackage := {
  sp_language : ustring;
  sp_strings : list (Z * ustring)
}.

Definition read_u32 (body : list byte) (pos : Z) : option Z := le_dec <$> get_range body pos (pos + 4).
Definition read_u16 (body : list byte) (pos : Z) : option (Z * Z) :=
  v ← get_range body pos (pos + 2); Some (le_dec v, pos + 2).

Definition sibt_ext_next (body : list byte) (pos len_width : Z) : option Z :=
  length ← get_range body (pos + 2) (pos + 2 + len_width);
  let next := pos + 2 + len_width + le_dec length in
  if next <=? blen body then Some next else None.

Definition read_language (body : list byte) (start end_ : Z) : ustring :=
  map b2z (take_while nonzero (sub body start (Z.min end_ (blen body)))).

Definition read_scsu (body : list byte) (start : Z) : option (ustring * Z) :=
  if blen body <=? start then None
  else
    let text := scsu_bytes body start in
    let i := start + blen text in
    Some (from_utf8_lossy text, if i <? blen body then i + 1 else blen body).

Definition read_ucs2 (body : list byte) (start : Z) : option (ustring * Z) :=
  if sat_sub (blen body) start <? 2 then None
  else
    let units := ucs2_units body start in
    let i := start + 2 * blen units in
    Some (from_utf16_lossy units, if i + 1 <? blen body then i + 2 else blen body).

(** The strings so far, their index and the next identifier. *)
Record StringScan := {
  ss_strings : list (Z * ustring);
  ss_by_id : gmap Z ustring;
  ss_next_id : Z
}.

Definition push (st : StringScan) (text : ustring) : option StringScan :=
  if ss_next_id st =? 0xFFFF then None
  else Some {| ss_strings := ss_strings st ++ [(ss_next_id st, text)];
               ss_by_id := <[ss_next_id st := text]> (ss_by_id st);
               ss_next_id := ss_next_id st + 1 |}.

(** A block either continues the parse or stops it, with the strings read so far. *)
Definition block : Type := Z * StringScan + StringScan.

Definition one_string (r : option (ustring * Z)) (st : StringScan) : block :=
  match r with
  | None => inr st
  | Some (text, p) => match push st text with Some st => inl (p, st) | None => inr st end
  end.

(** [for _ in 0..count]; both readers stop the parse at a truncated string. *)
Fixpoint many_strings (read : Z -> option (ustring * Z)) (len : Z) (count : nat) (p : Z)
  (st : StringScan) : block :=
  match count with
  | O => inl (p, st)
  | S count =>
      if len <=? p then inr st
      else match one_string (read p) st with
           | inl (p, st) => many_strings read len count p st
           | inr st => inr st
           end
  end.
Definition strings_block (body : list byte) (read : Z -> option (ustring * Z)) (at_ : Z)
  (st : StringScan) : block :=
  match read_u16 body at_ with
  | None => inr st
  | Some (count, p) => many_strings read (blen body) (Z.to_nat count) p st
  end.
Definition skip_block (st : StringScan) (count p : Z) : block :=
  match checked_add16 (ss_next_id st) count with
  | Some n => inl (p, {| ss_strings := ss_strings st; ss_by_id := ss_by_id st; ss_next_id := n |})
  | None => inr st
  end.
Definition ext_block (body : list byte) (pos len_width : Z) (st : StringScan) : block :=
  match sibt_ext_next body pos len_width with Some next => inl (next, st) | None => inr st end.

(** The [match] on the block type. *)
Definition sibt_block (body : list byte) (op : byte) (pos : Z) (st : StringScan) : block :=
  if bool_decide (op = SIBT_END) then inr st
  else if bool_decide (op = SIBT_STRING_SCSU) then one_string (read_scsu body (pos + 1)) st
  else if bool_decide (op = SIBT_STRING_SCSU_FONT) then one_string (read_scsu body (pos + 2)) st
  else if bool_decide (op = SIBT_STRINGS_SCSU) then strings_block body (read_scsu body) (pos + 1) st
  else if bool_decide (op = SIBT_STRINGS_SCSU_FONT) then strings_block body (read_scsu body) (pos + 2) st
  else if bool_decide (op = SIBT_STRING_UCS2) then one_string (read_ucs2 body (pos + 1)) st
  else if bool_decide (op = SIBT_STRING_UCS2_FONT) then one_string (read_ucs2 body (pos + 2)) st
  else if bool_decide (op = SIBT_STRINGS_UCS2) then strings_block body (read_ucs2 body) (pos + 1) st
  else if bool_decide (op = SIBT_STRINGS_UCS2_FONT) then strings_block body (read_ucs2 body) (pos + 2) st
  else if bool_decide (op = SIBT_DUPLICATE) then
    match read_u16 body (pos + 1) with
    | None => inr st
    | Some (ref_id, _) => one_string (Some (default [] (ss_by_id st !! ref_id), pos + 3)) st
    end
  else if bool_decide (op = SIBT_SKIP2) then
    match read_u16 body (pos + 1) with
    | None => inr st
    | Some (count, p) => skip_block st count p
    end
  else if bool_decide (op = SIBT_SKIP1) then
    skip_block st (default 0 (b2z <$> get body (pos + 1))) (pos + 2)
  else if bool_decide (op = SIBT_EXT1) then ext_block body pos 1 st
  else if bool_decide (op = SIBT_EXT2) then ext_block body pos 2 st
  else if bool_decide (op = SIBT_EXT4) then ext_block body pos 4 st
  else inr st.

Definition string_step (body : list byte) (s : Z * StringScan) : pure (Z * StringScan + StringScan) :=
  let '(pos, st) := s in
  if pos <? blen body then
    op ← index body pos;
    if negb (bool_decide (op = SIBT_END)) && (ss_next_id st =? 0xFFFF) then mret (inr st)
    else mret (sibt_block body op pos st)
  else mret (inr st).

Definition string_info (body : list byte) : Z :=
  match read_u32 body STRING_INFO_OFFSET_POS with
  | Some o => if (HEADER_LEN <=? o) && (o <=? blen body) then o else HEADER_LEN
  | None => HEADER_LEN
  end.

Definition parse_string_package (body : list byte) : pure (option ParsedStringPackage) :=
  if negb (is_string_package body) then Ok None
  else
    let info_off := string_info body in
    let language := read_language body LANGUAGE_OFFSET info_off in
    st ← loop (length body + 1) (string_step body)
           (info_off, {| ss_strings := []; ss_by_id := ∅; ss_next_id := 1 |});
    mret (Some {| sp_language := language; sp_strings := ss_strings st |}).

(** ** The addition of strings *)

Definition string_info_offset (body : list byte) : Z :=
  match read_u32 body STRING_INFO_OFFSET_POS with
  | Some off => if (HEADER_LEN <=? off) && (off <? blen body) then off else HEADER_LEN
  | None => HEADER_LEN
  end.

Definition skip_scsu (body : list byte) (start : Z) : Z :=
  let p := start + blen (scsu_bytes body start) in
  if p <? blen body then p + 1 else p.
Definition skip_ucs2 (body : list byte) (start : Z) : Z :=
  let p := start + 2 * blen (ucs2_units body start) in
  if p + 1 <? blen body then p + 2 else blen body.
Definition read_u16_count (body : list byte) (pos : Z) : Z * Z :=
  match get_range body pos (pos + 2) with
  | Some v => (le_dec v, pos + 2)
  | None => (0, blen body)
  end.

(** [for _ in 0..ids]. *)
Fixpoint skip_strings (skip : Z -> Z) (ids : nat) (next_id pos : Z) : option (Z * Z) :=
  match ids with
  | O => Some (next_id, pos)
  | S ids => next_id ← checked_add16 next_id 1; skip_strings skip ids next_id (skip pos)
  end.
Definition skip_counted (body : list byte) (skip : Z -> Z) (at_ next_id : Z) : option (Z * Z) :=
  let '(ids, p) := read_u16_count body at_ in skip_strings skip (Z.to_nat ids) next_id p.

(** The [match] on the block type: [None] is an overflow, [Some None] leaves the loop. *)
Definition scan_block (body : list byte) (op : byte) (pos next_id : Z) : option (option (Z * Z)) :=
  let one p := n ← checked_add16 next_id 1; Some (Some (n, p)) in
  if bool_decide (op = SIBT_STRING_SCSU) then one (skip_scsu body (pos + 1))
  else if bool_decide (op = SIBT_STRING_SCSU_FONT) then one (skip_scsu body (pos + 2))
  else if bool_decide (op = SIBT_STRINGS_SCSU) then Some <$> skip_counted body (skip_scsu body) (pos + 1) next_id
  else if bool_decide (op = SIBT_STRINGS_SCSU_FONT) then
    Some <$> skip_counted body (skip_scsu body) (pos + 2) next_id
  else if bool_decide (op = SIBT_STRING_UCS2) then one (skip_ucs2 body (pos + 1))
  else if bool_decide (op = SIBT_STRING_UCS2_FONT) then one (skip_ucs2 body (pos + 2))
  else if bool_decide (op = SIBT_STRINGS_UCS2) then Some <$> skip_counted body (skip_ucs2 body) (pos + 1) next_id
  else if bool_decide (op = SIBT_STRINGS_UCS2_FONT) then
    Some <$> skip_counted body (skip_ucs2 body) (pos + 2) next_id
  else if bool_decide (op = SIBT_DUPLICATE) then one (pos + 1 + 2)
  else if bool_decide (op = SIBT_SKIP2) then
    let '(c, p) := read_u16_count body (pos + 1) in
    n ← checked_add16 next_id c; Some (Some (n, p))
  else if bool_decide (op = SIBT_SKIP1) then
    n ← checked_add16 next_id (default 0 (b2z <$> get body (pos + 1))); Some (Some (n, pos + 2))
  else Some None.

(** The state is (next_id, pos). *)
Definition sibt_step (body : list byte) (s : Z * Z) : pure (Z * Z + option (Z * Z)) :=
  let '(next_id, pos) := s in
  if pos <? blen body then
    op ← index body pos;
    if bool_decide (op = SIBT_END) then mret (inr (Some (next_id, pos)))
    else
      mret (match scan_block body op pos next_id with
            | None => inr None
            | Some None => inr (Some (next_id, blen body))
            | Some (Some s) => inl s
            end)
  else mret (inr (Some (next_id, blen body))).

Definition scan_sibt (body : list byte) (start : Z) : pure (option (Z * Z)) :=
  loop (length body + 1) (sibt_step body) (1, start).

Definition build_scsu_block (text : ustring) : list byte := [SIBT_STRING_SCSU] ++ as_bytes text ++ [x00].

Definition append_scsu_string {E} (body : list byte) (end_pos : Z) (text : ustring)
  : outcome E (list byte * Z) :=
  let block := build_scsu_block text in
  body ← splice_in body end_pos block;
  mret (body, end_pos + blen block).

Definition update_package_length (body : list byte) : pure (list byte) := set_u24 body (wrap 32 (blen body)).

Record StringIdExhausted := {
  sie_next : Z;
  sie_requested : Z
}.

(** One turn of the loop over the strings: the body, the position, the next identifier
    and the mapping. *)
Definition add_string (s : list byte * Z * Z * gmap ustring Z) (text : ustring)
  : outcome StringIdExhausted (list byte * Z * Z * gmap ustring Z) :=
  let '(body, end_pos, next_id, mapping) := s in
  next ← add16 next_id 1;
  be ← append_scsu_string body end_pos text;
  mret (fst be, snd be, next, <[text := next_id]> mapping).

Definition add_strings_to_body (body : list byte) (strings : list ustring)
  : outcome StringIdExhausted (list byte * gmap ustring Z) :=
  match strings with
  | [] => Ok (body, ∅)
  | _ =>
      let sibt_start := string_info_offset body in
      let n := blen strings in
      scan ← lift (scan_sibt body sibt_start);
      match scan with
      | None => Err {| sie_next := 0xFFFF; sie_requested := n |}
      | Some (next_id, end_pos) =>
          let span := if n - 1 <=? 0xFFFF then checked_add16 next_id (n - 1) else None in
          if match span with Some last => last <=? 0xFFFE | None => false end then
            s ← foldM add_string strings (body, end_pos, next_id, ∅);
            let '(body, _, _, mapping) := s in
            body ← lift (update_package_length body);
            mret (body, mapping)
          else Err {| sie_next := next_id; sie_requested := n |}
      end
  end.

End StringPack.
