(* ===== verification/Schema.v ===== *)
(** The schemas of the setup operations ([hii/schema.rs]): the data that the JSON
    documents hold, and the checks behind their deserialisation. *)
From S2P Require Import Prelude Text Types Hii.
From S2P Require Import Ffs.

(** ** Form sets *)

Inductive VarStoreType := VT_Buffer | VT_Efi.
#[export] Instance VarStoreType_eq_dec : EqDecision VarStoreType.
Proof. solve_decision. Defined.
Record VarStoreSchema := {
  vss_id : Z;
  vss_guid : ustring;
  vss_size : Z;
  vss_name : ustring;
  vss_var_type : VarStoreType;
  vss_attributes : Z
}.
Definition default_varstore_attributes : Z := 7.
Record DefaultStoreSchema := {
  ds_name : ustring;
  ds_id : Z
}.
Inductive DefaultClass := DC_Optimized | DC_Failsafe.
Inductive DisplayMode := DM_IntDec | DM_UintDec | DM_UintHex.
Definition default_display : DisplayMode := DM_UintDec.
Record Defaults := {
  d_optimized : option Z;
  d_failsafe : option Z
}.
Record OptionSchema := {
  os_text : ustring;
  os_value : Z;
  os_default : option DefaultClass
}.
Record OneOfItem := {
  oo_prompt : ustring;
  oo_help : ustring;
  oo_question_id : Z;
  oo_var_store_id : Z;
  oo_var_offset : Z;
  oo_size : Z;
  oo_display : DisplayMode;
  oo_options : list OptionSchema;
  oo_defaults : Defaults
}.
Record CheckBoxItem := {
  cb_prompt : ustring;
  cb_help : ustring;
  cb_question_id : Z;
  cb_var_store_id : Z;
  cb_var_offset : Z;
  cb_defaults : Defaults
}.
Record NumericItem := {
  nu_prompt : ustring;
  nu_help : ustring;
  nu_question_id : Z;
  nu_var_store_id : Z;
  nu_var_offset : Z;
  nu_size : Z;
  nu_min : Z;
  nu_max : Z;
  nu_step : Z;
  nu_display : DisplayMode;
  nu_defaults : Defaults
}.
Record TextItem := {
  tx_prompt : ustring;
  tx_help : ustring;
  tx_text_two : ustring
}.
Record RefItem := {
  re_prompt : ustring;
  re_help : ustring;
  re_question_id : Z;
  re_form_id : Z
}.
Record StringItem := {
  st_prompt : ustring;
  st_help : ustring;
  st_question_id : Z;
  st_var_store_id : Z;
  st_var_offset : Z;
  st_min_size : Z;
  st_max_size : Z
}.
Record ActionItem := {
  ac_prompt : ustring;
  ac_help : ustring;
  ac_question_id : Z;
  ac_config : ustring
}.
Record OrderedListItem := {
  ol_prompt : ustring;
  ol_help : ustring;
  ol_question_id : Z;
  ol_var_store_id : Z;
  ol_var_offset : Z;
  ol_max_containers : Z
}.
Inductive ItemSchema :=
| IS_OneOf (i : OneOfItem)
| IS_CheckBox (i : CheckBoxItem)
| IS_Numeric (i : NumericItem)
| IS_Text (i : TextItem)
| IS_Ref (i : RefItem)
| IS_String (i : StringItem)
| IS_Action (i : ActionItem)
| IS_OrderedList (i : OrderedListItem).
Record FormSchema := {
  fs_id : Z;
  fs_title : ustring;
  fs_items : list ItemSchema
}.
Record FormSetSchema := {
  fss_formset_guid : ustring;
  fss_title : ustring;
  fss_help : ustring;
  fss_class_guids : list ustring;
  fss_varstores : list VarStoreSchema;
  fss_default_stores : list DefaultStoreSchema;
  fss_forms : list FormSchema;
  fss_setupdata_guid : option ustring;
  fss_amitse_guid : option ustring
}.

(** ** Questions, references and pages to add *)

Record HijackQuestionSchema := {
  hq_question_id : Z;
  hq_prompt : ustring;
  hq_help : ustring
}.
Record HijackSchema := {
  hj_questions : list HijackQuestionSchema
}.
Record QuestionAddOption := {
  qo_text : ustring;
  qo_value : Z;
  qo_default : option DefaultClass
}.
Record QuestionAddDefaults := {
  qd_optimized : Z
}.
Record InsertBefore := {
  ib_goto_form_id : option Z;
  ib_question_id : option Z
}.
Record QuestionAddSchema := {
  qa_form_id : Z;
  qa_prompt : ustring;
  qa_help : ustring;
  qa_question_id : Z;
  qa_var_store_id : Z;
  qa_var_offset : Z;
  qa_size : Z;
  qa_options : list QuestionAddOption;
  qa_defaults : option QuestionAddDefaults;
  qa_insert_before : option InsertBefore
}.
Record QuestionAddRefSchema := {
  ra_form_id : Z;
  ra_prompt : ustring;
  ra_help : ustring;
  ra_question_id : Z;
  ra_formset_guid : option ustring;
  ra_insert_before : option InsertBefore
}.
Record QuestionAddList := {
  qal_questions : list QuestionAddSchema;
  qal_refs : list QuestionAddRefSchema;
  qal_varstores : list VarStoreSchema
}.
Record PageAddSchema := {
  pa_form_id : Z;
  pa_title : ustring
}.

(** The texts of other crates: [serde_json] reads and prints schemas, with an error message
    for a document that is none; uguid explains why a string is no GUID. *)
Class SchemaText := {
  formset_of_json : ustring -> outcome ustring FormSetSchema;
  hijack_of_json : ustring -> outcome ustring HijackSchema;
  question_add_of_json : ustring -> outcome ustring QuestionAddList;
  page_add_of_json : ustring -> outcome ustring PageAddSchema;
  json_of_formset : FormSetSchema -> outcome ustring ustring;
  guid_error : ustring -> ustring
}.

Section Schema.
Context {GL : GuidLib} {ST : SchemaText}.

Definition parse_schema (json : ustring) : outcome HiiError FormSetSchema :=
  map_err HE_InvalidSchema (formset_of_json json).

Definition parse_hijack_schema (json : ustring) : outcome HiiError HijackSchema :=
  s ← map_err HE_InvalidSchema (hijack_of_json json);
  if bool_decide (length (hj_questions s) = 0%nat)
  then Err (HE_InvalidSchema (us "questions must not be empty")) else Ok s.

Definition validate_insert_before (ib : InsertBefore) : outcome HiiError unit :=
  match ib_goto_form_id ib, ib_question_id ib with
  | Some _, Some _ => Err (HE_InvalidSchema
      (us "insert_before: exactly one of goto_form_id/question_id is required, got both"))
  | None, None => Err (HE_InvalidSchema
      (us "insert_before: exactly one of goto_form_id/question_id is required, got none"))
  | _, _ => Ok tt
  end.
Definition validate_anchor (_ : unit) (ib : option InsertBefore) : outcome HiiError unit :=
  match ib with Some ib => validate_insert_before ib | None => Ok tt end.

(** The identifiers seen so far; every declaration is new and has a GUID. *)
Definition check_varstore (seen : list Z) (vs : VarStoreSchema) : outcome HiiError (list Z) :=
  if bool_decide (vss_id vs ∈ seen)
  then Err (HE_InvalidSchema (us "duplicate varstore id " ++ fmt_hex (vss_id vs)))
  else match guid_try_parse (vss_guid vs) with
       | None => Err (HE_InvalidSchema (us "varstore guid '" ++ vss_guid vs ++ us "' is not a GUID"))
       | Some _ => Ok (seen ++ [vss_id vs])
       end.

Definition check_question (u : unit) (q : QuestionAddSchema) : outcome HiiError unit :=
  if qa_question_id q =? 0
  then Err (HE_InvalidSchema (us "question_id 0 is navigation-only (refs); storage questions require a nonzero question_id"))
  else validate_anchor u (qa_insert_before q).

Definition parse_question_add_schema (json : ustring) : outcome HiiError QuestionAddList :=
  s ← map_err HE_InvalidSchema (question_add_of_json json);
  _ ← foldM check_varstore (qal_varstores s) [];
  if bool_decide (length (qal_questions s) = 0%nat) && bool_decide (length (qal_refs s) = 0%nat)
  then Err (HE_InvalidSchema (us "questions and refs must not both be empty"))
  else
    _ ← foldM check_question (qal_questions s) tt;
    _ ← foldM (fun u r => validate_anchor u (ra_insert_before r)) (qal_refs s) tt;
    Ok s.

Definition parse_page_add_schema (json : ustring) : outcome HiiError PageAddSchema :=
  s ← map_err HE_InvalidSchema (page_add_of_json json);
  if bool_decide (length (pa_title s) = 0%nat)
  then Err (HE_InvalidSchema (us "title must not be empty")) else Ok s.

End Schema.

(** The emission of IFR opcodes ([hii/ifr_builder.rs]). *)

Section IfrBuilder.
Context {GL : GuidLib} {RH : RefiHii}.

Definition DEFAULT_ID_STANDARD : Z := 0x0000.
Definition DEFAULT_ID_MANUFACTURING : Z := 0x0001.

(** A builder is its buffer. *)
Definition IfrBuilder : Type := list byte.
Definition new_builder : IfrBuilder := [].

(** [(data_len + 2) as u8], then [& 0x7F]. *)
Definition write_header (buf : IfrBuilder) (opcode : byte) (scope : bool) (data_len : Z) : IfrBuilder :=
  let total := wrap 8 (data_len + 2) in
  let length := Z.land total 0x7F in
  let scope_bit := if scope then 0x80 else 0x00 in
  buf ++ [opcode; z2b (Z.lor length scope_bit)].

Definition value_to_bytes (v size : Z) : list byte :=
  if size =? 1 then [z2b v]
  else if size =? 2 then le_enc 2 v
  else if size =? 4 then le_enc 4 v
  else if size =? 8 then le_enc 8 v
  else [z2b v].

Definition min_max_step_default (size : Z) : list byte * list byte * list byte :=
  let z := value_to_bytes 0 size in
  let m := value_to_bytes (if size =? 1 then 0xFF else if size =? 2 then 0xFFFF
                           else if size =? 4 then 0xFFFFFFFF else 0xFFFFFFFFFFFFFFFF) size in
  (z, m, z).

Definition emit_form_set (buf : IfrBuilder) (guid : Guid) (title_id help_id : Z)
  (class_guids : list Guid) : IfrBuilder :=
  let flags := z2b (Z.land (wrap 8 (blen class_guids)) 0x03) in
  write_header buf IFR_FORM_SET_OP true (21 + 16 * blen class_guids)
  ++ guid_to_bytes guid ++ le_enc 2 title_id ++ le_enc 2 help_id ++ [flags]
  ++ concat (map guid_to_bytes class_guids).

Definition emit_var_store (buf : IfrBuilder) (id : Z) (guid : Guid) (size : Z) (name : ustring)
  : IfrBuilder :=
  let name_bytes := as_bytes name in
  write_header buf IFR_VARSTORE_OP false (20 + blen name_bytes + 1)
  ++ guid_to_bytes guid ++ le_enc 2 id ++ le_enc 2 size ++ name_bytes ++ [x00].

Definition emit_var_store_efi (buf : IfrBuilder) (id : Z) (guid : Guid) (size : Z) (name : ustring)
  (attributes : Z) : IfrBuilder :=
  let name_bytes := concat (map (le_enc 2) (encode_utf16 name)) ++ [x00; x00] in
  write_header buf IFR_VARSTORE_EFI_OP false (24 + blen name_bytes)
  ++ le_enc 2 id ++ guid_to_bytes guid ++ le_enc 4 attributes ++ le_enc 2 size ++ name_bytes.

Definition emit_default_store (buf : IfrBuilder) (name_id default_id : Z) : IfrBuilder :=
  write_header buf IFR_DEFAULTSTORE_OP false 4 ++ le_enc 2 name_id ++ le_enc 2 default_id.

Definition emit_form (buf : IfrBuilder) (id title_id : Z) : IfrBuilder :=
  write_header buf IFR_FORM_OP true 4 ++ le_enc 2 id ++ le_enc 2 title_id.

(** The part that the questions share: prompt, help, identifier, variable store and
    offset, question flags. *)
Definition question_header (prompt_id help_id qid vsid voff : Z) : list byte :=
  le_enc 2 prompt_id ++ le_enc 2 help_id ++ le_enc 2 qid ++ le_enc 2 vsid ++ le_enc 2 voff ++ [x00].

(** [(size - 1) & 0x03]: panics for size 0. *)
Definition numeric_flags (size : Z) : pure Z := s ← usub size 1; mret (Z.land s 0x03).

Definition emit_one_of (buf : IfrBuilder) (prompt_id help_id qid vsid voff flags size : Z)
  : pure IfrBuilder :=
  let buf := write_header buf IFR_ONE_OF_OP true (12 + 3 * size)
             ++ question_header prompt_id help_id qid vsid voff in
  numeric_flags ← numeric_flags size;
  let '(min, max, step) := min_max_step_default size in
  mret (buf ++ [z2b (Z.lor numeric_flags flags)] ++ min ++ max ++ step).

Definition emit_one_of_option (buf : IfrBuilder) (text_id flags value_type value size : Z)
  : IfrBuilder :=
  let val_bytes := value_to_bytes value size in
  write_header buf IFR_ONE_OF_OPTION_OP false (4 + blen val_bytes)
  ++ le_enc 2 text_id ++ [z2b (Z.lor flags value_type); z2b value_type] ++ val_bytes.

Definition emit_check_box (buf : IfrBuilder) (prompt_id help_id qid vsid voff flags : Z) : IfrBuilder :=
  write_header buf IFR_CHECKBOX_OP true 12
  ++ question_header prompt_id help_id qid vsid voff ++ [z2b flags].

Definition emit_numeric (buf : IfrBuilder) (prompt_id help_id qid vsid voff flags size min max step : Z)
  : pure IfrBuilder :=
  let buf := write_header buf IFR_NUMERIC_OP true (12 + 3 * size)
             ++ question_header prompt_id help_id qid vsid voff in
  numeric_flags ← numeric_flags size;
  mret (buf ++ [z2b (Z.lor numeric_flags flags)]
        ++ value_to_bytes min size ++ value_to_bytes max size ++ value_to_bytes step size).

Definition emit_ref (buf : IfrBuilder) (prompt_id help_id qid vsid voff form_id : Z) : IfrBuilder :=
  write_header buf IFR_REF_OP false 13
  ++ question_header prompt_id help_id qid vsid voff ++ le_enc 2 form_id.

Definition emit_ref3 (buf : IfrBuilder) (prompt_id help_id qid form_id : Z) (formset : Guid)
  : IfrBuilder :=
  write_header buf IFR_REF_OP false 31
  ++ question_header prompt_id help_id qid 0 0xFFFF ++ le_enc 2 form_id ++ le_enc 2 0
  ++ guid_to_bytes formset.

Definition emit_text (buf : IfrBuilder) (prompt_id help_id text_two_id : Z) : IfrBuilder :=
  write_header buf IFR_TEXT_OP false 6
  ++ le_enc 2 prompt_id ++ le_enc 2 help_id ++ le_enc 2 text_two_id.

Definition emit_default (buf : IfrBuilder) (default_id value_type value size : Z) : IfrBuilder :=
  let val_bytes := value_to_bytes value size in
  write_header buf IFR_DEFAULT_OP false (3 + blen val_bytes)
  ++ le_enc 2 default_id ++ [z2b value_type] ++ val_bytes.

Definition emit_end (buf : IfrBuilder) : IfrBuilder := write_header buf IFR_END_OP false 0.

End IfrBuilder.
