(* ===== verification/Spf.v ===== *)
(** The [$SPF] container of AMI setup data ([hii/spf.rs]): its scans, and the edits of
    its records, controls, pages and page table. *)
From S2P Require Import Prelude Text Types Ffs.

Section Spf.
Context {GL : GuidLib}.

Definition SPF_RECORD_SIZE : Z := 72.
Definition SPF_RECORD_IFR_OFFSET : Z := 28.
Definition SPF_RECORD_FAILSAFE : Z := 52.
Definition SPF_RECORD_OPTIMAL : Z := 53.
Definition SPF_RECORD_HELP_ID : Z := 0x14.
Definition SPF_RECORD_COUNTER_OFFSET : Z := 0x18.
Definition SPF_RECORD_PROMPT_ID_OFFSET : Z := 0x30.
Definition SPF_HEADER_REGION_OFFSETS : Z := 0x30.
Definition SPF_PAGE_COUNT_OFFSET : Z := 0x60.
Definition SPF_PAGE_TABLE_OFFSET : Z := 0x64.
Definition SPF_PAGE_HEADER_SIZE : Z := 0x20.
Definition SPF_PAGE_FORM_ID_OFFSET : Z := 0x0A.
Definition SPF_PAGE_TITLE_ID_OFFSET : Z := 0x0E.
Definition SPF_PAGE_SEQ_OFFSET : Z := 0x10.
Definition SPF_PAGE_PARENT_OFFSET : Z := 0x12.
Definition SPF_PAGE_CNT_OFFSET : Z := 0x1C.
Definition SPF_PAGE_LIST_OFFSET : Z := 0x20.
Definition SPF_STRING_CONTROL_SIZE : Z := 0x0C.
Definition SPF_SLOT_VAR_CATALOG : Z := 0x34.
Definition SPF_SLOT_FORMSETS : Z := 0x40.
Definition SPF_FORMSET_ENTRY_SIZE : Z := 0x14.
Definition SPF_VAR_ENTRY_SIZE : Z := 0x7C.
Definition SPF_STRING_CONTROL_STR_ID : Z := 2.
Definition SPF_SIGNATURE : list byte := [xf8; xff; xff; xff; xff; xff; xff; xff].
Definition SPF_TAIL : list byte := [x01; x00; x01; x00].
Definition SPF_CONTAINER_SIG : list byte := [x24; x53; x50; x46].

(** [0..n]. *)
Definition upto_n (n : Z) : list Z := Z.of_nat <$> seq 0 (Z.to_nat n).
(** [+] on [u32]. *)
Definition add32 {E} (a b : Z) : outcome E Z := if a + b <=? 0xFFFFFFFF then Ok (a + b) else Panic.

Definition container_start (body : list byte) : option Z :=
  if blen body <? 4 then None
  else List.find (fun p => bool_decide (sub body p (p + 4) = SPF_CONTAINER_SIG)) (upto_n (blen body - 4 + 1)).

(** ** Inventory *)

Record SpfFormsetEntry := {
  sf_guid : Guid;
  sf_raw_u32 : Z
}.
Record SpfVarEntry := {
  sv_guid : Guid;
  sv_name : ustring;
  sv_attrs : Z;
  sv_size : Z
}.

Definition header_slot (body : list byte) (slot : Z) : option Z :=
  m ← container_start body;
  le_dec <$> get_range body (m + slot) (m + slot + 4).

(** One turn of the loop over the offsets of an indexed blob. *)
Definition blob_step {T} (parse : list byte -> T) (body : list byte) (base count entry_size : Z)
  (s : Z * list T) : pure (Z * list T + list T) :=
  let '(i, out) := s in
  if i <? count then
    match get_range body (base + 4 + i * 4) (base + 8 + i * 4) with
    | None => mret (inr out)
    | Some op =>
        let rel := le_dec op in
        match get_range body (base + rel) (base + rel + entry_size) with
        | None => mret (inl (i + 1, out))
        | Some rec => mret (inl (i + 1, out ++ [parse rec]))
        end
    end
  else mret (inr out).

(** Every turn reads another four bytes of the table. *)
Definition read_indexed_blob {T} (body : list byte) (slot entry_size : Z) (parse : list byte -> T)
  : pure (list T) :=
  match container_start body, header_slot body slot with
  | Some m, Some blob =>
      let base := m + blob in
      match get_range body base (base + 4) with
      | None => mret []
      | Some h => loop (length body + 1) (blob_step parse body base (le_dec h) entry_size) (0, [])
      end
  | _, _ => mret []
  end.

Definition scan_formsets (body : list byte) : pure (list SpfFormsetEntry) :=
  read_indexed_blob body SPF_SLOT_FORMSETS SPF_FORMSET_ENTRY_SIZE
    (fun rec => {| sf_guid := guid_of_array (sub rec 0 16); sf_raw_u32 := le_dec (sub rec 16 20) |}).

Definition scan_var_catalog (body : list byte) : pure (list SpfVarEntry) :=
  read_indexed_blob body SPF_SLOT_VAR_CATALOG SPF_VAR_ENTRY_SIZE
    (fun rec =>
       let units := take_while (fun u => negb (u =? 0)) (utf16_units (sub rec 0x10 0x60)) in
       {| sv_guid := guid_of_array (sub rec 0 16); sv_name := from_utf16_lossy units;
          sv_attrs := le_dec (sub rec 0x60 0x64); sv_size := le_dec (sub rec 0x78 0x7C) |}).

Definition pages_count (body : list byte) : Z :=
  match container_start body with
  | None => 0
  | Some m =>
      let count := default 0 (le_dec <$> get_range body (m + SPF_PAGE_COUNT_OFFSET)
                                          (m + SPF_PAGE_COUNT_OFFSET + 4)) in
      if blen body / 4 <? count then 0 else count
  end.

(** [*counts.entry(fs).or_default() += 1] on a map ordered by its keys. *)
Fixpoint bump (counts : list (Z * Z)) (fs : Z) : list (Z * Z) :=
  match counts with
  | [] => [(fs, 1)]
  | (k, n) :: counts' =>
      if fs =? k then (k, n + 1) :: counts'
      else if fs <? k then (fs, 1) :: counts
      else (k, n) :: bump counts' fs
  end.

Definition pages_step (body : list byte) (m count : Z) (s : Z * list (Z * Z))
  : pure (Z * list (Z * Z) + list (Z * Z)) :=
  let '(i, counts) := s in
  if i <? count then
    let tp := m + SPF_PAGE_TABLE_OFFSET + 4 * i in
    match get_range body tp (tp + 4) with
    | None => mret (inr counts)
    | Some relb =>
        let rel := le_dec relb in
        match get_range body (m + rel) (m + rel + SPF_PAGE_HEADER_SIZE) with
        | None => mret (inl (i + 1, counts))
        | Some page => mret (inl (i + 1, bump counts (le_dec (sub page 0x08 0x0A))))
        end
    end
  else mret (inr counts).

Definition pages_fs_counts (body : list byte) : pure (list (Z * Z)) :=
  match container_start body with
  | None => mret []
  | Some m => loop (length body + 1) (pages_step body m (pages_count body)) (0, [])
  end.

(** ** Question records and string controls *)

Record SpfQuestionRecord := {
  qr_offset : Z;
  qr_question_id : Z;
  qr_ifr_offset : Z;
  qr_failsafe : byte;
  qr_optimal : byte
}.

Definition question_record (body : list byte) (out : list SpfQuestionRecord) (p : Z)
  : pure (list SpfQuestionRecord) :=
  sig ← slice body (p + 36) (p + 44);
  tail ← slice body (p + 44) (p + 48);
  if negb (bool_decide (sig = SPF_SIGNATURE)) || negb (bool_decide (tail = SPF_TAIL)) then mret out
  else
    qid ← slice body p (p + 4);
    let qid := le_dec qid in
    if (qid =? 0) || (0xFFFF <? qid) then mret out
    else
      ifr ← slice body (p + SPF_RECORD_IFR_OFFSET) (p + SPF_RECORD_IFR_OFFSET + 4);
      failsafe ← index body (p + SPF_RECORD_FAILSAFE);
      optimal ← index body (p + SPF_RECORD_OPTIMAL);
      mret (out ++ [{| qr_offset := p; qr_question_id := qid; qr_ifr_offset := le_dec ifr;
                       qr_failsafe := failsafe; qr_optimal := optimal |}]).

Definition scan_question_records (body : list byte) : pure (list SpfQuestionRecord) :=
  if blen body <? SPF_RECORD_SIZE then mret []
  else foldM (question_record body) (upto_n (blen body - SPF_RECORD_SIZE + 1)) [].

Definition write_record_defaults (body : list byte) (offset : Z) (failsafe optimal : byte)
  : pure (list byte) :=
  body ← set_at body (offset + SPF_RECORD_FAILSAFE) failsafe;
  set_at body (offset + SPF_RECORD_OPTIMAL) optimal.

Definition write_record_help_id (body : list byte) (offset help_id : Z) : pure (list byte) :=
  copy_into body (offset + SPF_RECORD_HELP_ID) (offset + SPF_RECORD_HELP_ID + 2) (le_enc 2 help_id).

Record SpfStringControl := {
  sc_offset : Z;
  sc_string_id : Z
}.

Definition u16_of (body : list byte) (at_ : Z) : pure Z :=
  b0 ← index body at_; b1 ← index body (at_ + 1); mret (le_dec [b0; b1]).

Definition string_control (body : list byte) (out : list SpfStringControl) (p : Z)
  : pure (list SpfStringControl) :=
  a ← u16_of body p;
  b ← u16_of body (p + 4);
  c ← u16_of body (p + 0xA);
  if (a =? 5) && (b =? 0) && (c =? 78) then
    id ← u16_of body (p + 2);
    mret (out ++ [{| sc_offset := p + SPF_STRING_CONTROL_STR_ID; sc_string_id := id |}])
  else mret out.

Definition scan_string_controls (body : list byte) : pure (list SpfStringControl) :=
  if blen body <? 0xC then mret []
  else foldM (string_control body) (upto_n (blen body - 0xC + 1)) [].

Definition write_string_control (body : list byte) (offset string_id : Z) : pure (list byte) :=
  copy_into body offset (offset + 2) (le_enc 2 string_id).

(** ** Growth: every operation appends and returns the offset from the container. *)

Definition append_question_record (body : list byte) (template qid help_id prompt_id ifr_offset counter : Z)
  (failsafe optimal : byte) : pure (list byte * Z) :=
  base ← unwrap (container_start body);
  let src := base + template in
  rec ← slice body src (src + SPF_RECORD_SIZE);
  rec ← copy_into rec 0 4 (le_enc 4 qid);
  rec ← copy_into rec SPF_RECORD_HELP_ID (SPF_RECORD_HELP_ID + 2) (le_enc 2 help_id);
  rec ← copy_into rec SPF_RECORD_PROMPT_ID_OFFSET (SPF_RECORD_PROMPT_ID_OFFSET + 2) (le_enc 2 prompt_id);
  rec ← copy_into rec SPF_RECORD_IFR_OFFSET (SPF_RECORD_IFR_OFFSET + 4) (le_enc 4 ifr_offset);
  rec ← copy_into rec SPF_RECORD_COUNTER_OFFSET (SPF_RECORD_COUNTER_OFFSET + 4) (le_enc 4 counter);
  rec ← set_at rec SPF_RECORD_FAILSAFE failsafe;
  rec ← set_at rec SPF_RECORD_OPTIMAL optimal;
  mret (body ++ rec, blen body - base).

Definition append_string_control (body : list byte) (template string_id : Z) : pure (list byte * Z) :=
  base ← unwrap (container_start body);
  src ← usub (base + template) SPF_STRING_CONTROL_STR_ID;
  ctrl ← slice body src (src + SPF_STRING_CONTROL_SIZE);
  ctrl ← copy_into ctrl SPF_STRING_CONTROL_STR_ID (SPF_STRING_CONTROL_STR_ID + 2) (le_enc 2 string_id);
  mret (body ++ ctrl, blen body - base + SPF_STRING_CONTROL_STR_ID).

Definition clone_page_with_controls (body : list byte) (page_offset : Z) (extra_ctrls : list Z)
  : pure (list byte * Z) :=
  base ← unwrap (container_start body);
  let page := base + page_offset in
  cnt ← slice body (page + SPF_PAGE_CNT_OFFSET) (page + SPF_PAGE_CNT_OFFSET + 4);
  let cnt := le_dec cnt in
  let list := page + SPF_PAGE_LIST_OFFSET in
  let tail := list + 4 * cnt in
  trailing ← (if tail + 4 <=? blen body then
                t ← slice body tail (tail + 4);
                mret (if le_dec t =? 0 then None else Some (le_dec t))
              else mret None);
  head ← slice body page (page + SPF_PAGE_HEADER_SIZE);
  ctrls ← slice body list tail;
  let clone := head ++ ctrls ++ concat (map (le_enc 4) extra_ctrls)
               ++ match trailing with Some t => le_enc 4 t | None => [] end in
  new_cnt ← add32 cnt (wrap 32 (blen extra_ctrls));
  clone ← copy_into clone SPF_PAGE_CNT_OFFSET (SPF_PAGE_CNT_OFFSET + 4) (le_enc 4 new_cnt);
  mret (body ++ clone, blen body - base).

Definition append_page_skeleton (body : list byte) (template form_id title_id seq parent_slot : Z)
  : pure (list byte * Z) :=
  base ← unwrap (container_start body);
  let src := base + template in
  page ← slice body src (src + SPF_PAGE_HEADER_SIZE);
  page ← copy_into page SPF_PAGE_FORM_ID_OFFSET (SPF_PAGE_FORM_ID_OFFSET + 2) (le_enc 2 form_id);
  page ← copy_into page SPF_PAGE_TITLE_ID_OFFSET (SPF_PAGE_TITLE_ID_OFFSET + 2) (le_enc 2 title_id);
  page ← copy_into page SPF_PAGE_SEQ_OFFSET (SPF_PAGE_SEQ_OFFSET + 2) (le_enc 2 seq);
  page ← copy_into page SPF_PAGE_PARENT_OFFSET (SPF_PAGE_PARENT_OFFSET + 2) (le_enc 2 parent_slot);
  page ← copy_into page SPF_PAGE_CNT_OFFSET (SPF_PAGE_CNT_OFFSET + 4) (le_enc 4 0);
  mret (body ++ page, blen body - base).

(** ** The page table *)

Definition repoint_page_slot (body : list byte) (slot new_offset : Z) : pure (list byte) :=
  base ← unwrap (container_start body);
  let at_ := base + SPF_PAGE_TABLE_OFFSET + 4 * slot in
  copy_into body at_ (at_ + 4) (le_enc 4 new_offset).

Definition register_page_slot (body : list byte) (skeleton_offset : Z)
  : pure (list byte * option Z) :=
  base ← unwrap (container_start body);
  let count_at := base + SPF_PAGE_COUNT_OFFSET in
  count ← slice body count_at (count_at + 4);
  let count := le_dec count in
  let slot_at := base + SPF_PAGE_TABLE_OFFSET + 4 * count in
  old ← slice body slot_at (slot_at + 4);
  if negb (le_dec old =? 0) then mret (body, None)
  else
    body ← copy_into body slot_at (slot_at + 4) (le_enc 4 (wrap 32 skeleton_offset));
    next ← add32 count 1;
    body ← copy_into body count_at (count_at + 4) (le_enc 4 next);
    mret (body, Some count).

(** [(0x30..0x60).step_by(4).skip(1)]; the last of the greatest fields is rewritten. *)
Definition region_fields : list Z := (fun k => SPF_HEADER_REGION_OFFSETS + 4 * k) <$> [1; 2; 3; 4; 5; 6; 7; 8; 9; 10; 11].
Definition region_max (body : list byte) (base : Z) (s : Z * Z) (p : Z) : pure (Z * Z) :=
  let '(at_, max) := s in
  let field := base + p in
  v ← slice body field (field + 4);
  mret (if max <=? le_dec v then (field, le_dec v) else (at_, max)).
Definition bump_container_length (body : list byte) (new_len : Z) : pure (list byte) :=
  base ← unwrap (container_start body);
  let at0 := base + SPF_HEADER_REGION_OFFSETS in
  v ← slice body at0 (at0 + 4);
  am ← foldM (region_max body base) region_fields (at0, le_dec v);
  copy_into body (fst am) (fst am + 4) (le_enc 4 (wrap 32 new_len)).

(** ** IFR offsets of the records *)

(** The records are scanned before the first write. *)
Definition fixup_record (threshold delta : Z) (s : list byte * Z) (rec : SpfQuestionRecord)
  : pure (list byte * Z) :=
  let '(body, patched) := s in
  if threshold <=? qr_ifr_offset rec then
    let at_ := qr_offset rec + SPF_RECORD_IFR_OFFSET in
    v ← add32 (qr_ifr_offset rec) delta;
    body ← copy_into body at_ (at_ + 4) (le_enc 4 v);
    mret (body, patched + 1)
  else mret (body, patched).
Definition fixup_record_ifr_offsets (body : list byte) (threshold delta : Z) : pure (list byte * Z) :=
  _ ← unwrap (container_start body);
  recs ← scan_question_records body;
  foldM (fixup_record threshold delta) recs (body, 0).

Definition fixup_selected (threshold delta : Z) (s : list byte * Z) (off : Z) : pure (list byte * Z) :=
  let '(body, patched) := s in
  let at_ := off + SPF_RECORD_IFR_OFFSET in
  ifr ← slice body at_ (at_ + 4);
  if threshold <=? le_dec ifr then
    v ← add32 (le_dec ifr) delta;
    body ← copy_into body at_ (at_ + 4) (le_enc 4 v);
    mret (body, patched + 1)
  else mret (body, patched).
Definition fixup_selected_record_ifr_offsets (body : list byte) (record_offsets : list Z)
  (threshold delta : Z) : pure (list byte * Z) :=
  _ ← unwrap (container_start body);
  foldM (fixup_selected threshold delta) record_offsets (body, 0).

End Spf.
