(* ===== verification/FormsetAdd.v ===== *)
(** The IFR of a schema ([hii/formset_add.rs], [hii/form_add.rs]): the strings of its
    items, the emission of its form set and forms, its questions, and the FFS file
    that carries them ([hii/ffs_assembler.rs]). *)
From stdpp Require Import gmap.
From S2P Require Import Prelude Text Types Ffs Hii Schema.

Section FormsetAdd.
Context {GL : GuidLib} {RH : RefiHii}.

(** ** Strings *)

Definition collect_item_strings (item : ItemSchema) (strings : list ustring) : list ustring :=
  match item with
  | IS_OneOf o => strings ++ [oo_prompt o; oo_help o] ++ map os_text (oo_options o)
  | IS_CheckBox c => strings ++ [cb_prompt c; cb_help c]
  | IS_Numeric n => strings ++ [nu_prompt n; nu_help n]
  | IS_Text t => strings ++ [tx_prompt t; tx_help t; tx_text_two t]
  | IS_Ref r => strings ++ [re_prompt r; re_help r]
  | IS_String s => strings ++ [st_prompt s; st_help s]
  | IS_Action a => strings ++ [ac_prompt a; ac_help a; ac_config a]
  | IS_OrderedList o => strings ++ [ol_prompt o; ol_help o]
  end.
Definition collect_form_strings (strings : list ustring) (form : FormSchema) : list ustring :=
  fold_left (fun ss item => collect_item_strings item ss) (fs_items form) (strings ++ [fs_title form]).
(** The strings that [add_setup_formset] adds, in order. *)
Definition formset_strings (schema : FormSetSchema) : list ustring :=
  fold_left collect_form_strings (fss_forms schema)
    ([fss_title schema; fss_help schema] ++ map vss_name (fss_varstores schema)).

(** ** Emission *)

(** [string_ids[&s]]: panics for a string without an identifier. *)
Definition string_id {E : Type} (string_ids : gmap ustring Z) (s : ustring) : outcome E Z :=
  unwrap (string_ids !! s).

Definition display_flags (d : DisplayMode) : Z :=
  match d with
  | DM_IntDec => IFR_DISPLAY_INT_DEC
  | DM_UintDec => IFR_DISPLAY_UINT_DEC
  | DM_UintHex => IFR_DISPLAY_UINT_HEX
  end.
Definition option_flags (d : option DefaultClass) : Z :=
  match d with
  | Some DC_Optimized => IFR_OPTION_DEFAULT
  | Some DC_Failsafe => IFR_OPTION_DEFAULT_MFG
  | None => 0
  end.

(** The defaults of a question of [size] bytes. *)
Definition emit_default_value (b : IfrBuilder) (default_id size : Z) (v : option Z) : pure IfrBuilder :=
  match v with
  | Some v => t ← usub size 1; mret (emit_default b default_id t v size)
  | None => mret b
  end.
Definition emit_defaults (b : IfrBuilder) (size : Z) (d : Defaults) : pure IfrBuilder :=
  b ← emit_default_value b DEFAULT_ID_STANDARD size (d_optimized d);
  emit_default_value b DEFAULT_ID_MANUFACTURING size (d_failsafe d).
Definition emit_option (string_ids : gmap ustring Z) (size : Z) (b : IfrBuilder) (opt : OptionSchema)
  : pure IfrBuilder :=
  tid ← string_id string_ids (os_text opt);
  t ← usub size 1;
  mret (emit_one_of_option b tid (option_flags (os_default opt)) t (os_value opt) size).

Definition emit_item (b : IfrBuilder) (item : ItemSchema) (string_ids : gmap ustring Z) : pure IfrBuilder :=
  match item with
  | IS_OneOf o =>
      pid ← string_id string_ids (oo_prompt o);
      hid ← string_id string_ids (oo_help o);
      b ← emit_one_of b pid hid (oo_question_id o) (oo_var_store_id o) (oo_var_offset o)
            (display_flags (oo_display o)) (oo_size o);
      b ← foldM (emit_option string_ids (oo_size o)) (oo_options o) b;
      b ← emit_defaults b (oo_size o) (oo_defaults o);
      mret (emit_end b)
  | IS_CheckBox c =>
      pid ← string_id string_ids (cb_prompt c);
      hid ← string_id string_ids (cb_help c);
      let optimized := if default 0 (d_optimized (cb_defaults c)) =? 0 then 0 else IFR_CHECKBOX_DEFAULT in
      let failsafe := if default 0 (d_failsafe (cb_defaults c)) =? 0 then 0 else IFR_CHECKBOX_DEFAULT_MFG in
      mret (emit_end (emit_check_box b pid hid (cb_question_id c) (cb_var_store_id c) (cb_var_offset c)
                        (Z.lor optimized failsafe)))
  | IS_Numeric n =>
      pid ← string_id string_ids (nu_prompt n);
      hid ← string_id string_ids (nu_help n);
      b ← emit_numeric b pid hid (nu_question_id n) (nu_var_store_id n) (nu_var_offset n)
            (display_flags (nu_display n)) (nu_size n) (nu_min n) (nu_max n) (nu_step n);
      b ← emit_defaults b (nu_size n) (nu_defaults n);
      mret (emit_end b)
  | IS_Text t =>
      pid ← string_id string_ids (tx_prompt t);
      hid ← string_id string_ids (tx_help t);
      t2 ← string_id string_ids (tx_text_two t);
      mret (emit_text b pid hid t2)
  | IS_Ref r =>
      pid ← string_id string_ids (re_prompt r);
      hid ← string_id string_ids (re_help r);
      mret (emit_ref b pid hid (re_question_id r) 0 0xFFFF (re_form_id r))
  | IS_String _ | IS_Action _ | IS_OrderedList _ => mret (emit_end b)
  end.

Definition emit_schema_form (string_ids : gmap ustring Z) (b : IfrBuilder) (form : FormSchema)
  : pure IfrBuilder :=
  title_id ← string_id string_ids (fs_title form);
  b ← foldM (fun b item => emit_item b item string_ids) (fs_items form) (emit_form b (fs_id form) title_id);
  mret (emit_end b).
Definition emit_forms (b : IfrBuilder) (schema : FormSetSchema) (string_ids : gmap ustring Z)
  : pure IfrBuilder :=
  foldM (emit_schema_form string_ids) (fss_forms schema) b.

(** The error text of the GUID parser is the parameter [guid_error]. *)
Definition parse_schema_guid (guid_error : ustring -> ustring) (s : ustring) : outcome HiiError Guid :=
  ok_or (HE_InvalidSchema (guid_error s)) (guid_try_parse s).

Definition emit_varstore (guid_error : ustring -> ustring) (b : IfrBuilder) (vs : VarStoreSchema)
  : outcome HiiError IfrBuilder :=
  g ← parse_schema_guid guid_error (vss_guid vs);
  mret (emit_var_store b (vss_id vs) g (vss_size vs) (vss_name vs)).
(** [hii/form_add.rs]. *)
Definition build_varstores (guid_error : ustring -> ustring) (schema : FormSetSchema)
  : outcome HiiError (list byte) :=
  foldM (emit_varstore guid_error) (fss_varstores schema) new_builder.

Definition emit_store_default (string_ids : gmap ustring Z) (b : IfrBuilder) (ds : DefaultStoreSchema)
  : outcome HiiError IfrBuilder :=
  id ← string_id string_ids (ds_name ds); mret (emit_default_store b id (ds_id ds)).

Definition build_ifr (guid_error : ustring -> ustring) (schema : FormSetSchema)
  (string_ids : gmap ustring Z) : outcome HiiError (list byte) :=
  formset_guid ← parse_schema_guid guid_error (fss_formset_guid schema);
  title_id ← string_id string_ids (fss_title schema);
  help_id ← string_id string_ids (fss_help schema);
  let class_guids := omap guid_try_parse (fss_class_guids schema) in
  let b := emit_form_set new_builder formset_guid title_id help_id class_guids in
  b ← foldM (emit_varstore guid_error) (fss_varstores schema) b;
  b ← foldM (emit_store_default string_ids) (fss_default_stores schema) b;
  b ← lift (emit_forms b schema string_ids);
  mret (emit_end b).

(** The package of an IFR that goes into a resource. *)
Definition form_package (ifr_bytes : list byte) : list byte :=
  let form_pkg_len := 4 + blen ifr_bytes in
  [z2b (Z.land form_pkg_len 0xFF); z2b (Z.land (Z.shiftr form_pkg_len 8) 0xFF);
   z2b (Z.land (Z.shiftr form_pkg_len 16) 0xFF); PACKAGE_FORMS] ++ ifr_bytes.

(** ** Questions *)

(** Identifier, page, failsafe and optimal value ([as u8]). *)
Definition extract_question (item : ItemSchema) : option (Z * option Z * byte * byte) :=
  let dflt v := z2b (wrap 8 (default 0 v)) in
  match item with
  | IS_OneOf o => Some (oo_question_id o, None, dflt (d_failsafe (oo_defaults o)), dflt (d_optimized (oo_defaults o)))
  | IS_CheckBox c => Some (cb_question_id c, None, dflt (d_failsafe (cb_defaults c)), dflt (d_optimized (cb_defaults c)))
  | IS_Numeric n => Some (nu_question_id n, None, dflt (d_failsafe (nu_defaults n)), dflt (d_optimized (nu_defaults n)))
  | IS_Ref r => Some (re_question_id r, Some (re_form_id r), x00, x00)
  | _ => None
  end.

Record QuestionAmiRecord := {
  ar_question_id : Z;
  ar_page_id : option Z;
  ar_access_level : byte;
  ar_failsafe : byte;
  ar_optimal : byte
}.
Definition AMI_DEFAULT_ACCESS_LEVEL : byte := x05.

Definition extract_form_ids_and_questions (schema : FormSetSchema) : list Z * list QuestionAmiRecord :=
  (map fs_id (fss_forms schema),
   form ← fss_forms schema;
   item ← fs_items form;
   match extract_question item with
   | Some (qid, page_id, failsafe, optimal) =>
       [{| ar_question_id := qid; ar_page_id := page_id; ar_access_level := AMI_DEFAULT_ACCESS_LEVEL;
           ar_failsafe := failsafe; ar_optimal := optimal |}]
   | None => []
   end).

(** [hii/ami_patcher.rs]: the record of a question. *)
Definition AMI_RECORD_SIZE : Z := 108.
Definition AMI_PAGE_ID_OFFSET : Z := 24.
Definition AMI_ACCESS_LEVEL_OFFSET : Z := 32.
Definition AMI_FAILSAFE_OFFSET : Z := 104.
Definition AMI_OPTIMAL_OFFSET : Z := 106.
Definition make_ami_record (rec : QuestionAmiRecord) : pure (list byte) :=
  let buf := replicate (Z.to_nat AMI_RECORD_SIZE) x00 in
  buf ← copy_into buf 0 2 (le_enc 2 (ar_question_id rec));
  buf ← match ar_page_id rec with
        | Some pid => copy_into buf AMI_PAGE_ID_OFFSET (AMI_PAGE_ID_OFFSET + 2) (le_enc 2 pid)
        | None => mret buf
        end;
  buf ← set_at buf AMI_ACCESS_LEVEL_OFFSET (ar_access_level rec);
  buf ← set_at buf AMI_FAILSAFE_OFFSET (ar_failsafe rec);
  set_at buf AMI_OPTIMAL_OFFSET (ar_optimal rec).

Definition item_var_store_id (item : ItemSchema) : option Z :=
  match item with
  | IS_OneOf i => Some (oo_var_store_id i)
  | IS_CheckBox i => Some (cb_var_store_id i)
  | IS_Numeric i => Some (nu_var_store_id i)
  | IS_String i => Some (st_var_store_id i)
  | IS_OrderedList i => Some (ol_var_store_id i)
  | IS_Text _ | IS_Ref _ | IS_Action _ => None
  end.

(** ** The file of a form set *)

Definition FFS_HEADER_SIZE : Z := 24.

Definition emit_raw_section (out data : list byte) : list byte :=
  let total := 4 + blen data in
  let out := out ++ size_to_uint24 (wrap 32 total) ++ [EFI_SECTION_RAW] ++ data in
  let aligned := Z.land (blen out + 3) (Z.lnot 3) in
  out ++ replicate (Z.to_nat (aligned - blen out)) x00.

Definition assemble_ffs (ifr_bytes string_package_bytes : list byte) (file_guid : Guid)
  : pure (list byte) :=
  let body := emit_raw_section (emit_raw_section [] ifr_bytes) string_package_bytes in
  let total := FFS_HEADER_SIZE + blen body in
  let header := replicate (Z.to_nat FFS_HEADER_SIZE) x00 in
  header ← copy_into header 0 16 (guid_to_bytes file_guid);
  header ← set_at header 18 EFI_FV_FILETYPE_RAW;
  header ← set_at header 19 x00;
  header ← copy_into header 20 23 (size_to_uint24 (wrap 32 total));
  header ← set_at header 16 (z2b (calculate_checksum8 header));
  mret (header ++ body).

End FormsetAdd.
