(* ===== verification/PeResource.v ===== *)
(** HII resources of PE images ([hii/pe_resource.rs]): the leaves of the resource
    directory, form packages in the image body, growth of the resource section, and the
    append of a package to the HII package list. *)
From S2P Require Import Prelude Text Types Ffs Hii Ifr Gates.

(** ** The external crate [object] *)

(** The fields of an entry of the section table that the engine reads. *)
Record PeSection := {
  virtual_address : Z;
  virtual_size : Z;
  size_of_raw_data : Z;
  pointer_to_raw_data : Z
}.
(** A data entry of the resource directory: its offset in the directory, and the RVA
    and size of its data. *)
Record RsrcData := {
  data_offset : Z;
  offset_to_data : Z;
  data_size : Z
}.
(** The three levels of the directory: types with their names, names and languages;
    [None] is an entry of another kind. *)
Definition RsrcTree : Type := list (option ustring * option (list (option (list (option RsrcData))))).

(** The parsers of the two image formats and what the engine asks a parsed image for;
    the directory entry is [data_directories().get(IMAGE_DIRECTORY_ENTRY_RESOURCE)]. The
    fields of a section are [u32]s. *)
Class ObjectPe := {
  PeFile : Type;
  pe64_parse : list byte -> option PeFile;
  pe32_parse : list byte -> option PeFile;
  section_table : PeFile -> list PeSection;
  resource_entry : PeFile -> option (Z * Z);
  resource_tree : PeFile -> option RsrcTree;
  pe_file_range_at : PeFile -> Z -> option (Z * Z);
  section_table_u32 file : Forall (fun s =>
    0 <= virtual_address s < 2 ^ 32 /\ 0 <= virtual_size s < 2 ^ 32 /\
    0 <= size_of_raw_data s < 2 ^ 32 /\ 0 <= pointer_to_raw_data s < 2 ^ 32) (section_table file)
}.

Section PeResource.
Context {GL : GuidLib} {RH : RefiHii} {OP : ObjectPe}.

(** [PeFile64::parse], then [PeFile32::parse]. *)
Definition parse_pe (pe : list byte) : option PeFile :=
  match pe64_parse pe with Some file => Some file | None => pe32_parse pe end.
Definition with_pe {A} (pe : list byte) (k : PeFile -> A) (none : A) : A :=
  match parse_pe pe with Some file => k file | None => none end.

(** ** Leaves *)

Record LeafRef := {
  lf_type_name : option ustring;
  lf_entry_off : Z;
  lf_off : Z;
  lf_len : Z;
  lf_rva : Z
}.

Definition push_leaf (file : PeFile) (dir_off : Z) (type_name : option ustring)
  (entry_rel rva size : Z) (out : list LeafRef) : list LeafRef :=
  match pe_file_range_at file rva with
  | None => out
  | Some (off, avail) =>
      match checked_add dir_off entry_rel with
      | None => out
      | Some entry_off =>
          out ++ [{| lf_type_name := type_name; lf_entry_off := entry_off; lf_off := off;
                     lf_len := Z.min size avail; lf_rva := rva |}]
      end
  end.

Definition push_lang (file : PeFile) (dir_off : Z) (type_name : option ustring)
  (out : list LeafRef) (lang_entry : option RsrcData) : list LeafRef :=
  match lang_entry with
  | Some d => push_leaf file dir_off type_name (data_offset d) (offset_to_data d) (data_size d) out
  | None => out
  end.
Definition push_name (file : PeFile) (dir_off : Z) (type_name : option ustring)
  (out : list LeafRef) (name_entry : option (list (option RsrcData))) : list LeafRef :=
  match name_entry with
  | Some lang_table => fold_left (push_lang file dir_off type_name) lang_table out
  | None => out
  end.

Definition resource_leaf_locations (file : PeFile) : list LeafRef :=
  match resource_tree file, (e ← resource_entry file; pe_file_range_at file (fst e)) with
  | Some root, Some (dir_off, _) =>
      fold_left (fun out te => match snd te with
                               | Some name_table => fold_left (push_name file dir_off (fst te)) name_table out
                               | None => out
                               end) root []
  | _, _ => []
  end.

Definition is_hii (leaf : LeafRef) : bool := bool_decide (lf_type_name leaf = Some (us "HII")).
Definition hii_entries (file : PeFile) : list (Z * Z * Z) :=
  map (fun leaf => (lf_entry_off leaf, lf_off leaf, lf_len leaf))
    (List.filter is_hii (resource_leaf_locations file)).
Definition hii_entry_locations (pe : list byte) : list (Z * Z * Z) := with_pe pe hii_entries [].
Definition hii_resource_ranges (pe : list byte) : list (Z * Z) :=
  map (fun '(_, off, len) => (off, len)) (hii_entry_locations pe).
Definition hii_resource_blobs (pe : list byte) : list (list byte) :=
  omap (fun '(off, len) => get_range pe off (off + len)) (hii_resource_ranges pe).

(** ** Form packages in the body *)

Fixpoint covered (exclude : list (Z * Z)) (pos : Z) : pure bool :=
  match exclude with
  | [] => Ok false
  | (o, l) :: exclude =>
      if o <=? pos then e ← uadd o l; if pos <? e then Ok true else covered exclude pos
      else covered exclude pos
  end.

Definition bare_step (pe : list byte) (exclude : list (Z * Z)) (s : Z * list (Z * Z))
  : pure (Z * list (Z * Z) + list (Z * Z)) :=
  let '(pos, out) := s in
  if pos + 5 <=? blen pe then
    plen ← u24_at pe pos;
    kind ← index pe (pos + 3);
    op ← index pe (pos + 4);
    if bool_decide (kind = PACKAGE_FORMS) && bool_decide (op = IFR_FORM_SET_OP) && (24 <=? plen)
       && (pos + plen <=? blen pe)
    then
      cov ← covered exclude pos;
      out ← (if negb cov then
               pkg ← slice pe pos (pos + plen);
               f ← parse_form_package pkg;
               mret (match f with Some _ => out ++ [(pos, plen)] | None => out end)
             else mret out);
      mret (inl (pos + plen, out))
    else mret (inl (pos + 1, out))
  else mret (inr out).
Definition bare_form_package_ranges (pe : list byte) (exclude : list (Z * Z)) : pure (list (Z * Z)) :=
  loop (length pe + 1) (bare_step pe exclude) (0, []).
Definition bare_form_packages (pe : list byte) (exclude : list (Z * Z)) : pure (list (list byte)) :=
  ranges ← bare_form_package_ranges pe exclude;
  foldM (fun out r => p ← slice pe (fst r) (fst r + snd r); mret (out ++ [p])) ranges [].

(** ** Reads and writes *)

Definition is_power_of_two (value : Z) : bool := (0 <? value) && (value =? 2 ^ Z.log2 value).
Definition pow2_or_one (value : Z) : Z := if is_power_of_two value then value else 1.
Definition read_le_u32 (pe : list byte) (off : Z) : option Z :=
  e ← checked_add off 4; le_dec <$> get_range pe off e.
Definition read_le_u16 (pe : list byte) (off : Z) : option Z :=
  e ← checked_add off 2; le_dec <$> get_range pe off e.
Definition write_le_u32 (pe : list byte) (off value : Z) : pure (list byte) :=
  copy_into pe off (off + 4) (le_enc 4 value).
(** [pe.copy_within(a..b, d)]. *)
Definition copy_within (pe : list byte) (a b d : Z) : pure (list byte) :=
  if range_ok pe a b && (0 <=? d) && (d + (b - a) <=? blen pe)
  then Ok (splice pe d (sub pe a b)) else Panic.

(** [u64::checked_mul], [u64::div_ceil] and [+] on [u32] fields. *)
Definition checked_mul (a b : Z) : option Z := if a * b <=? usize_max then Some (a * b) else None.
Definition div_ceil (a b : Z) : Z := if a mod b =? 0 then a / b else a / b + 1.
Definition add_u32 {E} (a b : Z) : outcome E Z := if a + b <=? 0xFFFFFFFF then Ok (a + b) else Panic.

(** ** The section that carries the resources *)

Record RsrcSpan := {
  sp_header_off : Z;
  sp_va : Z;
  sp_vsize : Z;
  sp_raw_size : Z;
  sp_raw_ptr : Z
}.

(** The section headers with their offsets, from the first one. *)
Fixpoint spans_from (table_off idx : Z) (l : list PeSection) : list RsrcSpan :=
  match l with
  | [] => []
  | s :: l => {| sp_header_off := table_off + idx * 40; sp_va := virtual_address s;
                 sp_vsize := virtual_size s; sp_raw_size := size_of_raw_data s;
                 sp_raw_ptr := pointer_to_raw_data s |} :: spans_from table_off (idx + 1) l
  end.

(** The offsets of the optional header and of the section table. *)
Definition header_offsets (pe : list byte) : option (Z * Z) :=
  pe_off ← read_le_u32 pe 0x3c;
  opt_off ← checked_add pe_off 24;
  at_ ← checked_add pe_off 20;
  opt_size ← read_le_u16 pe at_;
  table_off ← checked_add opt_off opt_size;
  Some (opt_off, table_off).

(** [rsrc_rva.checked_sub(va).is_some_and(|off| off < size)]. *)
Definition in_span (rsrc_rva va size : Z) : bool := (va <=? rsrc_rva) && (rsrc_rva - va <? size).

Definition resolve_rsrc_section (file : PeFile) (pe : list byte) : option RsrcSpan :=
  e ← resource_entry file;
  let rsrc_rva := fst e in
  if rsrc_rva =? 0 then None
  else
    offs ← header_offsets pe;
    let sections := spans_from (snd offs) 0 (section_table file) in
    match List.filter (fun s => in_span rsrc_rva (sp_va s) (Z.max (sp_vsize s) (sp_raw_size s))) sections with
    | [chosen] =>
        match List.filter (fun s => in_span rsrc_rva (sp_va s) (Z.min (sp_vsize s) (sp_raw_size s))) sections with
        | m :: _ => if negb (sp_header_off m =? sp_header_off chosen) then None else Some chosen
        | [] => Some chosen
        end
    | _ => None
    end.

Definition rsrc_raw_end (file : PeFile) (pe : list byte) : option Z :=
  s ← resolve_rsrc_section file pe; checked_add (sp_raw_ptr s) (sp_raw_size s).
Definition rsrc_virt_end (file : PeFile) (pe : list byte) : option Z :=
  s ← resolve_rsrc_section file pe; checked_add (sp_va s) (sp_vsize s).

Fixpoint last_raw_from (last : Z) (l : list PeSection) : option Z :=
  match l with
  | [] => Some last
  | s :: l =>
      if size_of_raw_data s =? 0 then last_raw_from last l
      else e ← checked_add (pointer_to_raw_data s) (size_of_raw_data s); last_raw_from (Z.max last e) l
  end.
Definition last_raw_end (file : PeFile) : option Z := last_raw_from 0 (section_table file).

(** ** Growth of the resource section *)

Record RawShift := {
  rs_header_off : Z;
  rs_start : Z;
  rs_len : Z
}.
Record VirtShift := {
  vs_header_off : Z;
  vs_old_va : Z;
  vs_vsize : Z
}.
Record RsrcGrowPlan := {
  gp_section_off : Z;
  gp_size_of_image_off : Z;
  gp_zero_off : Z;
  gp_old_virt : Z;
  gp_old_raw : Z;
  gp_pad : Z;
  gp_vshift : Z;
  gp_raw_shifts : list RawShift;
  gp_virt_shifts : list VirtShift;
  gp_dir_shifts : list (Z * Z);
  gp_new_image : Z
}.

(** [sort_by_key(|s| s.start)]: a stable sort. *)
Fixpoint insert_shift (s : RawShift) (l : list RawShift) : list RawShift :=
  match l with
  | [] => [s]
  | t :: l => if rs_start s <=? rs_start t then s :: t :: l else t :: insert_shift s l
  end.
Definition sort_shifts (l : list RawShift) : list RawShift := foldr insert_shift [] l.

Definition move_raw (pad : Z) (pe : list byte) (s : RawShift) : pure (list byte) :=
  copy_within pe (rs_start s) (rs_start s + rs_len s) (rs_start s + pad).
Definition repoint_raw (pad : Z) (pe : list byte) (s : RawShift) : pure (list byte) :=
  write_le_u32 pe (rs_header_off s + 20) (rs_start s + pad).
Definition repoint_virt (vshift : Z) (pe : list byte) (v : VirtShift) : pure (list byte) :=
  va ← add_u32 (vs_old_va v) vshift; write_le_u32 pe (vs_header_off v + 12) va.

(** [RsrcGrowPlan::apply]. *)
Definition apply_grow (p : RsrcGrowPlan) (pe : list byte) : pure (list byte) :=
  let pad := gp_pad p in
  let pe := resize_to pe (blen pe + pad) x00 in
  let raw_shifts := sort_shifts (gp_raw_shifts p) in
  pe ← foldM (move_raw pad) (rev raw_shifts) pe;
  pe ← foldM (repoint_raw pad) raw_shifts pe;
  pe ← copy_into pe (gp_zero_off p) (gp_zero_off p + pad) (replicate (Z.to_nat pad) x00);
  pe ← foldM (repoint_virt (gp_vshift p)) (gp_virt_shifts p) pe;
  virt ← add_u32 (gp_old_virt p) pad;
  pe ← write_le_u32 pe (gp_section_off p + 8) virt;
  raw ← add_u32 (gp_old_raw p) pad;
  pe ← write_le_u32 pe (gp_section_off p + 16) raw;
  pe ← write_le_u32 pe (gp_size_of_image_off p) (gp_new_image p);
  foldM (fun pe d => write_le_u32 pe (fst d) (snd d)) (gp_dir_shifts p) pe.

(** The raw ranges are disjoint; the result is the greatest end. *)
Fixpoint raw_extent (ranges : list (Z * Z)) (last : Z) (l : list RsrcSpan) : option Z :=
  match l with
  | [] => Some last
  | s :: l =>
      if sp_raw_size s =? 0 then raw_extent ranges last l
      else
        let start := sp_raw_ptr s in
        e ← checked_add start (sp_raw_size s);
        if existsb (fun r => (start <? snd r) && (fst r <? e)) ranges then None
        else raw_extent (ranges ++ [(start, e)]) (Z.max last e) l
  end.

(** The raw and the virtual order of the other sections agree. *)
Definition same_order (rsrc : RsrcSpan) (raw_end : Z) (s : RsrcSpan) : bool :=
  (sp_header_off s =? sp_header_off rsrc) || (sp_raw_size s =? 0)
  || Bool.eqb (raw_end <=? sp_raw_ptr s) (sp_va rsrc <? sp_va s).

Fixpoint shifts (rsrc : RsrcSpan) (raw_end pad vshift : Z) (l : list RsrcSpan)
  : option (list RawShift * list VirtShift) :=
  match l with
  | [] => Some ([], [])
  | s :: l =>
      if sp_header_off s =? sp_header_off rsrc then shifts rsrc raw_end pad vshift l
      else
        raw ← (if (0 <? sp_raw_size s) && (raw_end <=? sp_raw_ptr s) then
                 if 0xFFFFFFFF <? sp_raw_ptr s + pad then None
                 else Some [{| rs_header_off := sp_header_off s; rs_start := sp_raw_ptr s;
                               rs_len := sp_raw_size s |}]
               else Some []);
        virt ← (if sp_va rsrc <? sp_va s then
                  if 0xFFFFFFFF <? sp_va s + vshift then None
                  else Some [{| vs_header_off := sp_header_off s; vs_old_va := sp_va s;
                                vs_vsize := sp_vsize s |}]
                else Some []);
        rest ← shifts rsrc raw_end pad vshift l;
        Some (raw ++ fst rest, virt ++ snd rest)
  end.

(** The data directories inside shifted sections. *)
Definition dir_shift (pe : list byte) (dir_table_off vshift : Z) (virt : list VirtShift)
  (out : list (Z * Z)) (i : nat) : option (list (Z * Z)) :=
  let off := dir_table_off + Z.of_nat i * 8 in
  dir_rva ← read_le_u32 pe off;
  if dir_rva =? 0 then Some out
  else if existsb (fun v => (vs_old_va v <=? dir_rva) && (dir_rva - vs_old_va v <? vs_vsize v)) virt
  then if dir_rva + wrap 32 vshift <=? 0xFFFFFFFF then Some (out ++ [(off, dir_rva + wrap 32 vshift)]) else None
  else Some out.
Fixpoint fold_opt {A B} (f : A -> B -> option A) (l : list B) (a : A) : option A :=
  match l with [] => Some a | b :: l => a ← f a b; fold_opt f l a end.

(** The end of the image in memory. *)
Definition extent_step (rsrc : RsrcSpan) (vshift max : Z) (s : RsrcSpan) : option Z :=
  if sp_header_off s =? sp_header_off rsrc then Some max
  else
    final_va ← (if sp_va rsrc <? sp_va s then checked_add (sp_va s) vshift else Some (sp_va s));
    extent ← checked_add final_va (Z.max (sp_vsize s) (sp_raw_size s));
    Some (Z.max max extent).

(** [Some tt] only without a security directory that the header has room for. *)
Definition unsigned_image (pe : list byte) (dir_table_off table_off : Z) : option unit :=
  e ← checked_add dir_table_off 40;
  if e <=? table_off then
    a ← checked_add dir_table_off 32; cert_rva ← read_le_u32 pe a;
    b ← checked_add dir_table_off 36; cert_size ← read_le_u32 pe b;
    if negb (cert_rva =? 0) || negb (cert_size =? 0) then None else Some tt
  else Some tt.

Definition rsrc_grow_plan (file : PeFile) (pe : list byte) (delta : Z) : option RsrcGrowPlan :=
  offs ← header_offsets pe;
  let '(opt_off, table_off) := offs : Z * Z in
  magic ← read_le_u16 pe opt_off;
  dir_table_off ← checked_add opt_off (if magic =? 0x20b then 112 else 96);
  e ← resource_entry file;
  if fst e =? 0 then None
  else
    _ ← unsigned_image pe dir_table_off table_off;
    let sections := spans_from table_off 0 (section_table file) in
    rsrc ← resolve_rsrc_section file pe;
    raw_end ← checked_add (sp_raw_ptr rsrc) (sp_raw_size rsrc);
    last ← raw_extent [] 0 sections;
    if negb (blen pe =? last) then None
    else if negb (forallb (same_order rsrc raw_end) sections) then None
    else
      fa_off ← checked_add opt_off 36; fa ← read_le_u32 pe fa_off;
      let file_align := pow2_or_one fa in
      sa_off ← checked_add opt_off 32; sa ← read_le_u32 pe sa_off;
      let section_align := if is_power_of_two sa then sa else file_align in
      pad ← checked_mul (div_ceil delta file_align) file_align;
      vshift ← checked_mul (div_ceil delta section_align) section_align;
      new_raw ← checked_add (sp_raw_size rsrc) pad;
      new_virt ← checked_add (sp_vsize rsrc) pad;
      if (0xFFFFFFFF <? new_raw) || (0xFFFFFFFF <? new_virt) || (0xFFFFFFFF <? vshift) then None
      else
        sh ← shifts rsrc raw_end pad vshift sections;
        c_off ← (if dir_table_off <? 4 then None else Some (dir_table_off - 4));
        count ← read_le_u32 pe c_off;
        let dir_count := Z.min count 16 in
        dirs_end ← checked_add dir_table_off (dir_count * 8);
        if table_off <? dirs_end then None
        else
          dirs ← fold_opt (dir_shift pe dir_table_off vshift (snd sh)) (seq 0 (Z.to_nat dir_count)) [];
          extent0 ← checked_add (sp_va rsrc) new_virt;
          max_extent ← fold_opt (extent_step rsrc vshift) sections extent0;
          new_image ← checked_mul (div_ceil max_extent section_align) section_align;
          if 0xFFFFFFFF <? new_image then None
          else Some {| gp_section_off := sp_header_off rsrc; gp_size_of_image_off := opt_off + 56;
                       gp_zero_off := raw_end; gp_old_virt := sp_vsize rsrc; gp_old_raw := sp_raw_size rsrc;
                       gp_pad := pad; gp_vshift := vshift; gp_raw_shifts := fst sh;
                       gp_virt_shifts := snd sh; gp_dir_shifts := dirs; gp_new_image := new_image |}.

Definition rsrc_grow_plan_bytes (pe : list byte) (delta : Z) : option RsrcGrowPlan :=
  with_pe pe (fun file => rsrc_grow_plan file pe delta) None.
Definition can_grow_rsrc_tail (pe : list byte) (delta : Z) : bool :=
  (delta =? 0) || match rsrc_grow_plan_bytes pe delta with Some _ => true | None => false end.
(** The image after the growth, and whether it grew. *)
Definition try_grow_rsrc_tail (pe : list byte) (delta : Z) : pure (list byte * bool) :=
  if delta =? 0 then Ok (pe, true)
  else match rsrc_grow_plan_bytes pe delta with
       | Some plan => pe ← apply_grow plan pe; mret (pe, true)
       | None => Ok (pe, false)
       end.

(** ** Growth of the package list *)

Definition write_length_chain (pe : list byte) (entry_off blob_off entry_size total : Z)
  : pure (list byte) :=
  pe ← write_le_u32 pe (entry_off + 4) entry_size;
  write_le_u32 pe (blob_off + 16) total.

Record RsrcBlobGrowthPlan := {
  bg_entry_off : Z;
  bg_blob_off : Z;
  bg_blob_len : Z;
  bg_grow : Z
}.

(** No other leaf ends behind the start of the list. *)
Definition leaf_before (target leaf : LeafRef) : bool :=
  (lf_entry_off leaf =? lf_entry_off target)
  || match checked_add (lf_off leaf) (lf_len leaf) with Some e => e <=? lf_off target | None => false end.

Definition plan_rsrc_blob_growth_for (file : PeFile) (pe : list byte) (added : Z)
  : option RsrcBlobGrowthPlan :=
  let leaves := resource_leaf_locations file in
  target ← List.find is_hii leaves;
  if negb (forallb (leaf_before target) leaves) then None
  else
    let blob_len := lf_len target in
    raw_end ← rsrc_raw_end file pe;
    virt_end ← rsrc_virt_end file pe;
    blob_end ← checked_add (lf_off target) blob_len;
    file_end ← checked_add blob_end added;
    virt_blob ← checked_add (lf_rva target) blob_len;
    virt_need ← checked_add virt_blob added;
    let grow := Z.max (sat_sub file_end raw_end) (sat_sub virt_need virt_end) in
    last_end ← last_raw_end file;
    if negb (blen pe =? last_end) then None
    else Some {| bg_entry_off := lf_entry_off target; bg_blob_off := lf_off target;
                 bg_blob_len := blob_len; bg_grow := grow |}.
Definition plan_rsrc_blob_growth (pe : list byte) (added : Z) : option RsrcBlobGrowthPlan :=
  with_pe pe (fun file => plan_rsrc_blob_growth_for file pe added) None.

(** [bytes[0] | bytes[1] << 8 | bytes[2] << 16] is read behind the length check. *)
Definition package_len (pkg_bytes : list byte) : option Z :=
  let pkg_len := blen pkg_bytes in
  if pkg_len <? 4 then None
  else if negb (le_dec (sub pkg_bytes 0 3) =? pkg_len) then None
  else if bool_decide (get pkg_bytes 3 = Some PACKAGE_END) then None
  else Some pkg_len.

Record AppendPlan := {
  ap_insert_off : Z;
  ap_insert_tail : Z;
  ap_entry_off : Z;
  ap_blob_off : Z;
  ap_new_entry_size : Z;
  ap_new_total : Z;
  ap_grow : Z
}.

(** [AppendPlan::apply]. *)
Definition apply_append (p : AppendPlan) (pe pkg_bytes : list byte) : pure (list byte * bool) :=
  g ← (if 0 <? ap_grow p then try_grow_rsrc_tail pe (ap_grow p) else Ok (pe, true));
  let '(pe, ok) := g : list byte * bool in
  if negb ok then Ok (pe, false)
  else
    let pkg_len := blen pkg_bytes in
    pe ← copy_within pe (ap_insert_off p) (ap_insert_tail p) (ap_insert_off p + pkg_len);
    pe ← copy_into pe (ap_insert_off p) (ap_insert_off p + pkg_len) pkg_bytes;
    pe ← write_length_chain pe (ap_entry_off p) (ap_blob_off p) (ap_new_entry_size p) (ap_new_total p);
    mret (pe, true).

Definition append_plan_for (file : PeFile) (pe : list byte) (pkg_len : Z) : pure (option AppendPlan) :=
  growth ←? plan_rsrc_blob_growth_for file pe pkg_len;
  blob_end ←? checked_add (bg_blob_off growth) (bg_blob_len growth);
  blob ←? get_range pe (bg_blob_off growth) blob_end;
  pl ← parse_package_list blob;
  pl ←? pl;
  let sum := foldr (fun p n => blen (pk_bytes p) + n) 0 (packages pl) in
  insert_off ←? (a ← checked_add (bg_blob_off growth) 20; checked_add a sum);
  raw_end ←? rsrc_raw_end file pe;
  tail ←? checked_add raw_end (bg_grow growth);
  insert_tail ←? (if tail <? pkg_len then None else Some (tail - pkg_len));
  if insert_tail <? insert_off then mret None
  else
    let new_total := 20 + sum + pkg_len + 4 in
    new_entry_size ←? checked_add (bg_blob_len growth) pkg_len;
    if (0xFFFFFFFF <? new_total) || (0xFFFFFFFF <? new_entry_size) then mret None
    else mret (Some {| ap_insert_off := insert_off; ap_insert_tail := insert_tail;
                       ap_entry_off := bg_entry_off growth; ap_blob_off := bg_blob_off growth;
                       ap_new_entry_size := new_entry_size; ap_new_total := new_total;
                       ap_grow := bg_grow growth |}).

Definition append_plan (pe pkg_bytes : list byte) : pure (option AppendPlan) :=
  pkg_len ←? package_len pkg_bytes;
  with_pe pe (fun file => append_plan_for file pe pkg_len) (mret None).

(** The image afterwards, and whether the package was appended. *)
Definition append_package_to_resource (pe pkg_bytes : list byte) : pure (list byte * bool) :=
  plan ← append_plan pe pkg_bytes;
  match plan with
  | Some plan => apply_append plan pe pkg_bytes
  | None => Ok (pe, false)
  end.

End PeResource.
