(* ===== verification/Nvar.v ===== *)
(** NVRAM variable stores ([nvar.rs]): the NVAR record parser, the walk over a
    store, nested stores, lookups by name, the listing of the stores of an image
    and the edit of a variable in all its copies. *)
From S2P Require Import Prelude Text Types Ffs Tiano Codec Parser Target Ops.

Section Nvar.
Context {GL : GuidLib}.

(** ** Records *)

Definition SIG : list byte := [x4e; x56; x41; x52].
Definition ATTR_VALID : Z := 0x80.
Definition ATTR_EXTENDED_HEADER : Z := 0x10.
Definition ATTR_DATA_ONLY : Z := 0x08.
Definition ATTR_LOCAL_GUID : Z := 0x04.
Definition ATTR_ASCII_NAME : Z := 0x02.

Record NvarRecord := {
  nv_offset : Z;
  nv_size : Z;
  nv_attributes : byte;
  nv_guid_index : option byte;
  nv_guid : option Guid;
  nv_next : option Z;
  nv_extended_size : Z;
  nv_name : option ustring;
  nv_data_offset : Z;
  nv_data_len : Z
}.

(** [attributes & flag != 0]. *)
Definition has_attr (attributes : byte) (flag : Z) : bool :=
  negb (Z.land (b2z attributes) flag =? 0).
(** [attributes & ATTR_VALID != 0 && attributes & ATTR_DATA_ONLY == 0]. *)
Definition is_named (attributes : byte) : bool :=
  has_attr attributes ATTR_VALID && negb (has_attr attributes ATTR_DATA_ONLY).

(** The index of the GUID, or the GUID itself, and the position after it. *)
Definition guid_field (buf : list byte) (attributes : byte) (p entry_end : Z)
  : option (option byte * Z) :=
  if is_named attributes then
    gp ← (if has_attr attributes ATTR_LOCAL_GUID then Some (None, p + 16)
          else gi ← get buf p; Some (Some gi, p + 1));
    if entry_end <? snd gp then None else Some gp
  else Some (None, p).

(** [iter().position(|&b| b == 0)]. *)
Fixpoint position_zero (bs : list byte) (i : Z) : option Z :=
  match bs with
  | [] => None
  | b :: bs => if bool_decide (b = x00) then Some i else position_zero bs (i + 1)
  end.

(** One turn of the search for the double NUL. *)
Definition name_end_step (buf : list byte) (entry_end : Z) (e : Z) : pure (Z + Z) :=
  if e + 1 <? entry_end then
    lo ← index buf e;
    hi ← (if bool_decide (lo = x00) then index buf (e + 1) else mret x01);
    if bool_decide (lo = x00) && bool_decide (hi = x00) then mret (inr e)
    else mret (inl (e + 2))
  else mret (inr e).

(** The name and the position after it. *)
Definition name_field (buf : list byte) (attributes : byte) (p entry_end : Z)
  : pure (option (option ustring * Z)) :=
  if is_named attributes then
    if has_attr attributes ATTR_ASCII_NAME then
      rest ← slice buf p entry_end;
      k ←? position_zero rest 0;
      let e := k + p in
      bytes ← slice buf p e;
      if entry_end <? e + 1 then Ok None
      else Ok (Some (Some (from_utf8_lossy bytes), e + 1))
    else
      e ← loop (Z.to_nat (entry_end - p) + 1) (name_end_step buf entry_end) p;
      if entry_end <=? e + 1 then Ok None
      else
        bytes ← slice buf p e;
        if entry_end <? e + 2 then Ok None
        else Ok (Some (Some (from_utf16_lossy (utf16_units bytes)), e + 2))
  else Ok (Some (None, p)).

(** [extended_size], 0 when there is no trailer. *)
Definition extended_field (buf : list byte) (attributes : byte) (size entry_end : Z) : pure Z :=
  if has_attr attributes ATTR_EXTENDED_HEADER && (14 <? size) then
    e0 ← index buf (entry_end - 2);
    e1 ← index buf (entry_end - 1);
    let esz := le_dec [e0; e1] in
    mret (if (3 <=? esz) && (esz <=? size - 10) then esz else 0)
  else mret 0.

Definition parse_entry (buf : list byte) (off : Z) : pure (option NvarRecord) :=
  sig ←? get_range buf off (off + 4);
  if negb (bool_decide (sig = SIG)) then Ok None
  else
    s0 ←? get buf (off + 4);
    s1 ←? get buf (off + 5);
    let size := le_dec [s0; s1] in
    if (size <? 10) || (blen buf <? off + size) then Ok None
    else
      attributes ← index buf (off + 9);
      n0 ← index buf (off + 6);
      n1 ← index buf (off + 7);
      n2 ← index buf (off + 8);
      let next_raw := Z.lor (Z.lor (b2z n0) (Z.shiftl (b2z n1) 8)) (Z.shiftl (b2z n2) 16) in
      let next := if next_raw =? 0xFFFFFF then None else Some next_raw in
      let entry_end := off + size in
      gp ←? guid_field buf attributes (off + 10) entry_end;
      np ← name_field buf attributes (snd gp) entry_end;
      np ←? np;
      extended_size ← extended_field buf attributes size entry_end;
      let data_end := entry_end - extended_size in
      let p := snd np in
      if data_end <? p then Ok None
      else
        Ok (Some {| nv_offset := off; nv_size := size; nv_attributes := attributes;
                    nv_guid_index := fst gp; nv_guid := None; nv_next := next;
                    nv_extended_size := extended_size; nv_name := fst np;
                    nv_data_offset := p; nv_data_len := data_end - p |}).

(** ** Stores *)

Definition is_nvar_body (node : FfsNode) : pure bool :=
  if (bool_decide (node_type node = T_File) || bool_decide (node_type node = T_Section))
     && bool_decide (length (children node) = 0%nat)
  then e ← parse_entry (body node) 0; mret (match e with Some _ => true | None => false end)
  else mret false.

Definition walk_step (buf : list byte) (s : Z * list NvarRecord)
  : pure (Z * list NvarRecord + list NvarRecord) :=
  let '(off, out) := s in
  e ← parse_entry buf off;
  match e with
  | Some r => mret (inl (off + nv_size r, out ++ [r]))
  | None => mret (inr out)
  end.

(** Every record has at least ten bytes, so the store bounds the turns. *)
Definition walk (buf : list byte) : pure (list NvarRecord) :=
  loop (length buf + 1) (walk_step buf) (0, []).

Definition std_defaults_data (buf : list byte) : pure (option (Z * list byte)) :=
  first ← parse_entry buf 0;
  first ←? first;
  if negb (bool_decide (nv_name first = Some (us "StdDefaults"))) then Ok None
  else
    data ←? get_range buf (nv_data_offset first) (nv_data_offset first + nv_data_len first);
    Ok (Some (nv_data_offset first, data)).

Definition is_std_defaults (body : list byte) : pure bool :=
  d ← std_defaults_data body; mret (match d with Some _ => true | None => false end).

(** The first record of the list with that name and length. *)
Definition record_matches (name : ustring) (data_len : Z) (r : NvarRecord) : bool :=
  bool_decide (nv_name r = Some name) && (nv_data_len r =? data_len).

Definition find_varstore_record (body : list byte) (name : ustring) (data_len : Z)
  : pure (option (Z * list byte)) :=
  d ← std_defaults_data body;
  d ←? d;
  rs ← walk (snd d);
  match find (record_matches name data_len) rs with
  | Some r =>
      data ← slice (snd d) (nv_data_offset r) (nv_data_offset r + nv_data_len r);
      Ok (Some (fst d + nv_data_offset r, data))
  | None => Ok None
  end.

(** ** Errors *)

(** The payload of a refusal is kept as the values its message prints. *)
Inductive ValueRefusal :=
| WidthNotAllowed (width : Z)
| ValueTooWide (value width : Z)
| InvalidGuid (s : ustring)
| ExtendedHeader
| ExceedsData (offset width data_len : Z)
| NoSuchVariable (name : ustring)
| DataOutOfBounds.
Inductive StoreRefusal :=
| BadPath (p : ustring)
| PathNotFound (p : ustring)
| NotAStore (p : ustring).
Inductive NvarError :=
| NV_NotFound
| NV_NotWritable
| NV_MutationBehindCompression
| NV_ValueOpUnsupported (why : ValueRefusal)
| NV_AmbiguousName (name : ustring) (candidates : list ustring)
| NV_InvalidStore (why : StoreRefusal).

(** ** Nested stores *)

Definition resolve_guid (buf : list byte) (guid_index : byte) : option Guid :=
  let idx := b2z guid_index in
  if blen buf <? 16 * (idx + 1) then None
  else
    arr ← get_range buf (blen buf - 16 * (idx + 1)) (blen buf - 16 * idx);
    Some (guid_of_array arr).

Record FlatRecord := {
  fl_record : NvarRecord;
  fl_depth : Z;
  fl_data_off : Z
}.

Definition MAX_DEPTH : Z := 4.

(** [r.guid = g]. *)
Definition set_guid (g : option Guid) (r : NvarRecord) : NvarRecord :=
  {| nv_offset := nv_offset r; nv_size := nv_size r; nv_attributes := nv_attributes r;
     nv_guid_index := nv_guid_index r; nv_guid := g; nv_next := nv_next r;
     nv_extended_size := nv_extended_size r; nv_name := nv_name r;
     nv_data_offset := nv_data_offset r; nv_data_len := nv_data_len r |}.

Definition flat_record (buf : list byte) (base depth : Z) (r : NvarRecord) : FlatRecord :=
  {| fl_data_off := base + nv_data_offset r; fl_depth := depth;
     fl_record := match nv_guid_index r with
                  | Some gi => set_guid (resolve_guid buf gi) r
                  | None => r
                  end |}.

(** One record of the loop of [flatten_inner]; [rec] is the recursive call. *)
Definition flatten_step (rec : list byte -> Z -> Z -> list FlatRecord -> pure (list FlatRecord))
  (buf : list byte) (base depth : Z) (out : list FlatRecord) (r : NvarRecord)
  : pure (list FlatRecord) :=
  let out := out ++ [flat_record buf base depth r] in
  if (MAX_DEPTH <=? depth) || (nv_data_len r <? 10) then Ok out
  else
    inner ← slice buf (nv_data_offset r) (nv_data_offset r + nv_data_len r);
    e ← parse_entry inner 0;
    match e with
    | Some _ => rec inner (base + nv_data_offset r) (depth + 1) out
    | None => Ok out
    end.

Fixpoint flatten_inner (fuel : nat) (buf : list byte) (base depth : Z) (out : list FlatRecord)
  : pure (list FlatRecord) :=
  match fuel with
  | O => Diverge
  | S fuel =>
      rs ← walk buf;
      foldM (flatten_step (flatten_inner fuel) buf base depth) rs out
  end.

(** The depth starts at 0 and stops at [MAX_DEPTH], so five levels suffice. *)
Definition flatten (buf : list byte) : pure (list FlatRecord) := flatten_inner 5 buf 0 0 [].

Definition var_matches (name : ustring) (guid : option Guid) (f : FlatRecord) : bool :=
  bool_decide (nv_name (fl_record f) = Some name)
  && match guid with
     | None => true
     | Some g => bool_decide (nv_guid (fl_record f) = Some g)
     end.

(** [format!("{} {} ({} bytes)", name, guid, len)]. *)
Definition candidate (f : FlatRecord) : ustring :=
  default [] (nv_name (fl_record f)) ++ us " "
  ++ match nv_guid (fl_record f) with Some g => guid_to_upper_string g | None => us "-" end
  ++ us " (" ++ dec_string (nv_data_len (fl_record f)) ++ us " bytes)".

Definition find_var (buf : list byte) (name : ustring) (guid : option Guid)
  : outcome NvarError (option FlatRecord) :=
  flats ← lift (flatten buf);
  match List.filter (var_matches name guid) flats with
  | [] => Ok None
  | [f] => Ok (Some f)
  | hits => Err (NV_AmbiguousName name (map candidate hits))
  end.

End Nvar.
