(* ===== verification/NvarStores.v ===== *)
(** The NVAR stores of an image ([nvar.rs]): which nodes are stores, the listing
    of their variables, and [nvar_set], the edit of one variable in every copy
    that the builder can rebuild. *)
From S2P Require Import Prelude Text Types Ffs Tiano Codec Parser Target Ops Nvar.

Section NvarStores.
Context {GL : GuidLib}.

(** ** Nodes by path ([hii/mod.rs]) *)

Definition node_at {E} (root : FfsNode) (path : list Z) : outcome E FfsNode :=
  unwrap (node_at_path root path).

(** [node_at_mut(root, path).body[off..off + width].copy_from_slice(to)]. *)
Definition write_body {E} (root : FfsNode) (path : list Z) (off width : Z) (to_ : list byte)
  : outcome E FfsNode :=
  node ← node_at root path;
  b ← copy_into (body node) off (off + width) to_;
  unwrap (update_at root path (set_body b)).

(** ** Collecting the stores *)

Definition section_blocks_mutation (node : FfsNode) : bool :=
  bool_decide (node_type node = T_Section)
  && (bool_decide (subtype node = EFI_SECTION_COMPRESSION)
      || bool_decide (subtype node = EFI_SECTION_GUID_DEFINED))
  && negb (match parsing_data node with
           | PD_GuidedSection d => is_recompressable_lzma_guid (gs_guid d)
           | _ => false
           end).

Definition store_desc (node : FfsNode) (file_guid : option Guid) : ustring :=
  let guid_text := match file_guid with
                   | Some g => guid_to_upper_string g
                   | None => us "unknown"
                   end in
  if bool_decide (node_type node = T_File) then us "file " ++ guid_text ++ us " (raw body)"
  else us "file " ++ guid_text ++ us " section " ++ fmt_04x (subtype node) ++ us " raw body".

Record StoreNodeHit := {
  sh_path : list Z;
  sh_desc : ustring
}.

(** [own_file_guid] of a node. *)
Definition own_file_guid (node : FfsNode) (file_guid : option Guid) : option Guid :=
  if bool_decide (node_type node = T_File) then n_guid node else file_guid.

Fixpoint collect_stores (node : FfsNode) (path : list Z) (barrier : bool)
  (file_guid : option Guid) (out : list StoreNodeHit) : pure (list StoreNodeHit) :=
  let own := own_file_guid node file_guid in
  is_store ← is_nvar_body node;
  if (is_store : bool) then
    mret (if barrier then out
          else out ++ [{| sh_path := path; sh_desc := store_desc node own |}])
  else
    let child_barrier := barrier || section_blocks_mutation node in
    each_child (fun out i child => collect_stores child (path ++ [i]) child_barrier own out)
      0 (children node) out.

(** ** The listing *)

Record NvarVarRow := {
  row_name : ustring;
  row_guid : option Guid;
  row_offset : Z;
  row_size : Z;
  row_attributes : byte;
  row_depth : Z;
  row_data : list byte
}.
Record NvarStoreListing := {
  ls_path : ustring;
  ls_desc : ustring;
  ls_rows : list NvarVarRow;
  ls_records : Z;
  ls_free_tail : Z;
  ls_guid_store_size : Z
}.

Fixpoint owning_from (node : FfsNode) (indices : list Z) (guid : option Guid) : option Guid :=
  match indices with
  | [] => guid
  | i :: indices =>
      node ← child_at node i;
      owning_from node indices
        (if bool_decide (node_type node = T_File) then n_guid node else guid)
  end.
Definition owning_file_guid (root : FfsNode) (indices : list Z) : option Guid :=
  owning_from root indices None.

Definition listing_row (buf : list byte) (body_base : Z) (include_data : bool) (f : FlatRecord)
  : pure NvarVarRow :=
  let r := fl_record f in
  data ← (if include_data then slice buf (fl_data_off f) (fl_data_off f + nv_data_len r)
          else mret []);
  mret {| row_name := default (us "(data-only)") (nv_name r); row_guid := nv_guid r;
          row_offset := body_base + fl_data_off f; row_size := nv_data_len r;
          row_attributes := nv_attributes r; row_depth := fl_depth f; row_data := data |}.

Definition listing_of (node : FfsNode) (path_str desc : ustring) (include_data : bool)
  : pure NvarStoreListing :=
  let buf := body node in
  flats ← flatten buf;
  let body_base := offset node + blen (header node) in
  rows ← foldM (fun rows f => row ← listing_row buf body_base include_data f;
                              mret (rows ++ [row])) flats [];
  top ← walk buf;
  let consumed := match last top with Some r => nv_offset r + nv_size r | None => 0 end in
  let guid_count := foldr (fun r m => match nv_guid_index r with
                                      | Some g => Z.max (b2z g + 1) m
                                      | None => m
                                      end) 0 top in
  let guid_store_size := 16 * guid_count in
  mret {| ls_path := path_str; ls_desc := desc; ls_records := blen rows;
          ls_free_tail := sat_sub (blen buf) (consumed + guid_store_size);
          ls_guid_store_size := guid_store_size; ls_rows := rows |}.

Definition nvar_list (image : Image) (path : option ustring) (include_data : bool)
  : outcome NvarError (list NvarStoreListing) :=
  match path with
  | Some p =>
      target ← map_err (fun _ => NV_InvalidStore (BadPath p)) (parse_target p);
      node ← map_err (fun _ => NV_InvalidStore (PathNotFound p)) (find_item (root image) target);
      is_store ← lift (is_nvar_body node);
      if negb is_store then Err (NV_InvalidStore (NotAStore p))
      else
        let indices := default [] (find_item_path (root image) target) in
        let desc := store_desc node (owning_file_guid (root image) indices) in
        l ← lift (listing_of node (path_string indices) desc include_data);
        mret [l]
  | None =>
      hits ← lift (collect_stores (root image) [] false None []);
      foldM (fun out h =>
               node ← node_at (root image) (sh_path h);
               l ← lift (listing_of node (path_string (sh_path h)) (sh_desc h) include_data);
               mret (out ++ [l])) hits []
  end.

(** ** Editing a variable *)

Record NvarSetOutcome := {
  applied : list ustring;
  stores : list ustring
}.
Record VarHit := {
  vh_path : list Z;
  vh_desc : ustring;
  vh_data_off : Z
}.
Record VarHits := {
  hits : list VarHit;
  var_behind_barrier : bool
}.

(** The body of [collect_var_hits] for a store. *)
Definition store_hit (node : FfsNode) (path : list Z) (barrier : bool) (own : option Guid)
  (name : ustring) (guid : option Guid) (offset width : Z) (out : VarHits)
  : outcome NvarError VarHits :=
  if barrier then
    match find_var (body node) name guid with
    | Ok (Some _) => Ok {| hits := hits out; var_behind_barrier := true |}
    | Ok None => Ok out
    | Err _ => Ok out
    | Panic => Panic
    | Diverge => Diverge
    end
  else
    f ← find_var (body node) name guid;
    match f with
    | None => Ok out
    | Some f =>
        if 0 <? nv_extended_size (fl_record f) then Err (NV_ValueOpUnsupported ExtendedHeader)
        else
          e ← uadd offset width;
          if nv_data_len (fl_record f) <? e then
            Err (NV_ValueOpUnsupported (ExceedsData offset width (nv_data_len (fl_record f))))
          else
            Ok {| hits := hits out ++ [{| vh_path := path; vh_desc := store_desc node own;
                                          vh_data_off := fl_data_off f |}];
                  var_behind_barrier := var_behind_barrier out |}
    end.

Fixpoint collect_var_hits (node : FfsNode) (path : list Z) (barrier : bool)
  (file_guid : option Guid) (name : ustring) (guid : option Guid) (offset width : Z)
  (out : VarHits) : outcome NvarError VarHits :=
  let own := own_file_guid node file_guid in
  is_store ← lift (is_nvar_body node);
  if (is_store : bool) then store_hit node path barrier own name guid offset width out
  else
    let child_barrier := barrier || section_blocks_mutation node in
    each_child (fun out i child =>
                  collect_var_hits child (path ++ [i]) child_barrier own name guid offset width out)
      0 (children node) out.

(** A planned write: the hit, the position in its body, the bytes before and
    after. *)
Record Plan := {
  pl_hit : VarHit;
  pl_off : Z;
  pl_from : list byte;
  pl_to : list byte
}.

Definition hex_bytes (bs : list byte) : ustring := join (us " ") (map fmt_02x bs).

Definition plan_step (root : FfsNode) (offset value width : Z) (plans : list Plan) (hit : VarHit)
  : outcome NvarError (list Plan) :=
  off ← uadd (vh_data_off hit) offset;
  node ← node_at root (vh_path hit);
  e ← uadd off width;
  from ← ok_or (NV_ValueOpUnsupported DataOutOfBounds) (get_range (body node) off e);
  let to_ := take (Z.to_nat width) (le_enc 8 value) in
  mret (plans ++ [{| pl_hit := hit; pl_off := off; pl_from := from; pl_to := to_ |}]).

Definition apply_step {E} (width : Z) (s : FfsNode * list ustring) (plan : Plan)
  : outcome E (FfsNode * list ustring) :=
  let '(root, applied) := s in
  if bool_decide (pl_from plan = pl_to plan) then Ok s
  else
    let hit := pl_hit plan in
    root ← write_body root (vh_path hit) (pl_off plan) width (pl_to plan);
    mret (mark_rebuild_to_root_by_path root (vh_path hit),
          applied ++ [vh_desc hit ++ us " store+" ++ fmt_hex (pl_off plan) ++ us ": "
                      ++ hex_bytes (pl_from plan) ++ us " -> " ++ hex_bytes (pl_to plan)]).

Definition nvar_set (image : Image) (name : ustring) (guid : option ustring)
  (offset value width : Z) : outcome NvarError (Image * NvarSetOutcome) :=
  if negb (bool_decide (mode image = IM_Write)) then Err NV_NotWritable
  else if negb (bool_decide (width ∈ [1; 2; 4; 8])) then
    Err (NV_ValueOpUnsupported (WidthNotAllowed width))
  else if (width <? 8) && (Z.shiftl 1 (8 * width) <=? value) then
    Err (NV_ValueOpUnsupported (ValueTooWide value width))
  else
    guid ← match guid with
           | Some s => g ← ok_or (NV_ValueOpUnsupported (InvalidGuid s)) (guid_try_parse s);
                       mret (Some g)
           | None => mret None
           end;
    found ← collect_var_hits (root image) [] false None name guid offset width
              {| hits := []; var_behind_barrier := false |};
    if bool_decide (length (hits found) = 0%nat) then
      if var_behind_barrier found then Err NV_MutationBehindCompression
      else Err (NV_ValueOpUnsupported (NoSuchVariable name))
    else
      plans ← foldM (plan_step (root image) offset value width) (hits found) [];
      ra ← foldM (apply_step width) plans (root image, []);
      mret ({| image_id := image_id image; session_id := session_id image; root := fst ra;
               mode := mode image |},
            {| applied := snd ra; stores := map vh_desc (hits found) |}).

End NvarStores.
