(* ===== verification/ImageStrings.v ===== *)
(** The walks over an image for its HII strings, form references and forms: string
    packages by channel ([hii/strings.rs]), the strings of a file and the largest pool
    ([hii/questions.rs]), the REF edges ([hii/ref_tree.rs]) and the forms with their
    ordinals ([hii/forms.rs]). *)
From stdpp Require Import gmap.
From S2P Require Import Prelude Text Types Ffs Tiano Codec Parser Target Ops.
From S2P Require Import Hii Values Ifr Gates StringPack PeResource.

(** The strings of a file by identifier. *)
Abbreviation titles := (gmap Z ustring).

Section ImageStrings.
Context {GL : GuidLib} {RH : RefiHii} {OP : ObjectPe}.

Definition is_section (n : FfsNode) : bool := bool_decide (node_type n = T_Section).
Definition is_file (n : FfsNode) : bool := bool_decide (node_type n = T_File).
Definition has_subtype (n : FfsNode) (t : byte) : bool := bool_decide (subtype n = t).
(** The sections the walks descend into. *)
Definition is_container (n : FfsNode) : bool :=
  has_subtype n EFI_SECTION_COMPRESSION || has_subtype n EFI_SECTION_GUID_DEFINED.
Definition has_kind (kind : byte) (p : HiiPackage) : bool := bool_decide (pk_kind p = kind).

(** ** String packages of the image *)

Record StringInfo := {
  si_language : ustring;
  si_string_id : Z;
  si_text : ustring;
  si_source : ustring
}.

Inductive StringPackageChannel := SC_Bare | SC_Resource.
(** [StringPackageChannel::suffix]. *)
Definition suffix (c : StringPackageChannel) : ustring :=
  match c with SC_Bare => us "bare" | SC_Resource => us "res" end.

Record StringPackageRef := {
  sr_file_guid : option Guid;
  sr_channel : StringPackageChannel;
  sr_section_path : list Z;
  sr_language : ustring;
  sr_strings : list (Z * ustring)
}.

Definition resource_string_packages (pe : list byte) : pure (list ParsedStringPackage) :=
  foldM (fun out blob =>
    l ← parse_package_list blob;
    match l with
    | None => mret out
    | Some l =>
        foldM (fun out pkg =>
          if has_kind PACKAGE_STRINGS pkg then
            sp ← parse_string_package (pk_bytes pkg);
            mret (match sp with Some sp => out ++ [sp] | None => out end)
          else mret out) (packages l) out
    end) (hii_resource_blobs pe) [].

Definition package_ref (owner : option Guid) (channel : StringPackageChannel) (path : list Z)
  (pkg : ParsedStringPackage) : StringPackageRef :=
  {| sr_file_guid := owner; sr_channel := channel; sr_section_path := path;
     sr_language := sp_language pkg; sr_strings := sp_strings pkg |}.

(** The string packages of one node. *)
Definition node_string_packages (node : FfsNode) (owner : option Guid) (path : list Z)
  (out : list StringPackageRef) : pure (list StringPackageRef) :=
  if is_section node then
    sane ← declared_len_sane (body node);
    out ← (if (sane : bool) && is_string_package (body node) then
             p ← parse_string_package (body node);
             mret (match p with Some p => out ++ [package_ref owner SC_Bare path p] | None => out end)
           else mret out);
    if has_subtype node EFI_SECTION_PE32 then
      ps ← resource_string_packages (body node);
      mret (out ++ map (package_ref owner SC_Resource path) ps)
    else mret out
  else mret out.

Fixpoint walk_string_packages (node : FfsNode) (owner : option Guid) (path : list Z)
  (out : list StringPackageRef) : pure (list StringPackageRef) :=
  out ← node_string_packages node owner path out;
  each_child (fun out i child =>
    walk_string_packages child (if is_file child then n_guid child else owner) (path ++ [i]) out)
    0 (children node) out.

Definition collect_string_packages (image : Image) : pure (list StringPackageRef) :=
  walk_string_packages (root image) None [] [].

Definition string_source (pkg : StringPackageRef) : ustring :=
  match sr_file_guid pkg with
  | Some g => guid_to_upper_string g ++ us "/" ++ suffix (sr_channel pkg)
  | None => suffix (sr_channel pkg)
  end.
Definition string_infos (pkg : StringPackageRef) : list StringInfo :=
  map (fun st => {| si_language := sr_language pkg; si_string_id := fst st; si_text := snd st;
                    si_source := string_source pkg |}) (sr_strings pkg).
Definition collect_strings (image : Image) : pure (list StringInfo) :=
  pkgs ← collect_string_packages image; mret (concat (map string_infos pkgs)).

(** ** The strings of a file *)

(** [titles.entry(sid).or_insert(text)] for the strings of a package. *)
Definition or_insert (t : titles) (st : Z * ustring) : titles :=
  match t !! fst st with Some _ => t | None => <[fst st := snd st]> t end.
Definition add_strings (t : titles) (p : option ParsedStringPackage) : titles :=
  match p with Some p => fold_left or_insert (sp_strings p) t | None => t end.

Definition add_package (t : titles) (pkg : HiiPackage) : pure titles :=
  if has_kind PACKAGE_STRINGS pkg
  then p ← parse_string_package (pk_bytes pkg); mret (add_strings t p)
  else mret t.
Definition add_list (t : titles) (l : option HiiPackageList) : pure titles :=
  match l with Some l => foldM add_package (packages l) t | None => mret t end.

Fixpoint collect_string_sections (node : FfsNode) (t : titles) : pure titles :=
  each_child (fun t _ child =>
    if negb (is_section child) then mret t
    else if has_subtype child EFI_SECTION_RAW then
      sane ← declared_len_sane (body child);
      if (sane : bool) then p ← parse_string_package (body child); mret (add_strings t p) else mret t
    else if has_subtype child EFI_SECTION_PE32 then
      foldM (fun t blob => l ← parse_package_list blob; add_list t l) (hii_resource_blobs (body child)) t
    else if has_subtype child EFI_SECTION_FREEFORM_SUBTYPE_GUID then
      l ← parse_package_list_exact (body child); add_list t l
    else if is_container child then collect_string_sections child t
    else mret t) 0 (children node) t.

Definition prompt_texts_own (file : FfsNode) : pure titles := collect_string_sections file ∅.
(** The own strings win over the fallback. *)
Definition prompt_texts (file : FfsNode) (fallback : titles) : pure titles :=
  own ← prompt_texts_own file; mret (own ∪ fallback).

(** ** The largest pool *)

(** [u24_at] of [questions.rs] is 0 past the end. *)
Definition u24_or_0 (bytes : list byte) (off : Z) : Z :=
  match get_range bytes off (off + 3) with Some b => le_dec b | None => 0 end.

(** The longest string package of a list. *)
Definition list_max (l : option HiiPackageList) : Z :=
  match l with
  | Some l => foldr (fun p m => if has_kind PACKAGE_STRINGS p then Z.max (blen (pk_bytes p)) m else m) 0 (packages l)
  | None => 0
  end.

(** The candidate of a section. *)
Definition section_pool_len (child : FfsNode) : pure Z :=
  let b := body child in
  if has_subtype child EFI_SECTION_RAW then
    if (4 <? blen b) && bool_decide (get b 3 = Some PACKAGE_STRINGS) then
      sane ← declared_len_sane b; mret (if (sane : bool) then u24_or_0 b 0 else 0)
    else mret 0
  else if has_subtype child EFI_SECTION_PE32 then
    foldM (fun m blob => l ← parse_package_list blob; mret (Z.max m (list_max l))) (hii_resource_blobs b) 0
  else if has_subtype child EFI_SECTION_FREEFORM_SUBTYPE_GUID then
    l ← parse_package_list_exact b; mret (list_max l)
  else mret 0.

Fixpoint max_string_pkg_len (node : FfsNode) : pure Z :=
  each_child (fun best _ child =>
    if negb (is_section child) then mret best
    else
      cand ← section_pool_len child;
      let best := Z.max best cand in
      if is_container child then m ← max_string_pkg_len child; mret (Z.max best m) else mret best)
    0 (children node) 0.

Fixpoint find_largest_pool_file (node : FfsNode) (best : Z * option FfsNode) : pure (Z * option FfsNode) :=
  best ← (if is_file node then
            len ← max_string_pkg_len node;
            mret (if fst best <? len then (len, Some node) else best)
          else mret best);
  each_child (fun best _ child => find_largest_pool_file child best) 0 (children node) best.

Definition image_string_fallback (root : FfsNode) : pure titles :=
  best ← find_largest_pool_file root (0, None);
  match snd best with Some file => collect_string_sections file ∅ | None => mret ∅ end.

(** ** REF edges *)

Record FormEdge := {
  ed_formset_guid : ustring;
  ed_parent_form_id : Z;
  ed_form_id : Z;
  ed_target_formset_guid : ustring
}.
#[export] Instance FormEdge_eq_dec : EqDecision FormEdge.
Proof. solve_decision. Defined.

Definition push_edges (pkg : list byte) (formset : Guid) (out : list FormEdge) : pure (list FormEdge) :=
  edges ← package_edges pkg;
  mret (fold_left (fun out '(parent, child, cross) =>
    let e := {| ed_formset_guid := guid_to_upper_string formset; ed_parent_form_id := parent;
                ed_form_id := child;
                ed_target_formset_guid := match cross with Some g => guid_to_upper_string g | None => [] end |} in
    if bool_decide (e ∈ out) then out else out ++ [e]) edges out).

(** The edges of a package that parses as a form package. *)
Definition form_edges (out : list FormEdge) (pkg : list byte) : pure (list FormEdge) :=
  fs ← parse_form_package pkg;
  match fs with Some fs => push_edges pkg (fi_guid fs) out | None => mret out end.
Definition list_edges (out : list FormEdge) (l : option HiiPackageList) : pure (list FormEdge) :=
  match l with
  | Some l => foldM (fun out p => if has_kind PACKAGE_FORMS p then form_edges out (pk_bytes p) else mret out)
                (packages l) out
  | None => mret out
  end.

Fixpoint edge_sections (node : FfsNode) (out : list FormEdge) : pure (list FormEdge) :=
  each_child (fun out _ child =>
    if negb (is_section child) then mret out
    else if has_subtype child EFI_SECTION_RAW then form_edges out (body child)
    else if has_subtype child EFI_SECTION_PE32 then
      let ranges := hii_resource_ranges (body child) in
      out ← foldM (fun out blob => l ← parse_package_list blob; list_edges out l)
              (hii_resource_blobs (body child)) out;
      bare ← bare_form_packages (body child) ranges;
      foldM form_edges bare out
    else if has_subtype child EFI_SECTION_FREEFORM_SUBTYPE_GUID then
      l ← parse_package_list_exact (body child); list_edges out l
    else if is_container child then edge_sections child out
    else mret out) 0 (children node) out.

Definition collect_file_edges (file : FfsNode) (out : list FormEdge) : pure (list FormEdge) :=
  match n_guid file with None => mret out | Some _ => edge_sections file out end.
Fixpoint edge_files (node : FfsNode) (out : list FormEdge) : pure (list FormEdge) :=
  each_child (fun out _ child =>
    out ← (if is_file child then collect_file_edges child out else mret out);
    edge_files child out) 0 (children node) out.
Definition collect_edges (image : Image) : pure (list FormEdge) := edge_files (root image) [].

(** ** Forms *)

Record FormInfo := {
  fo_form_id : ustring;
  fo_formset_guid : ustring;
  fo_form_id_ifr : Z;
  fo_title : ustring;
  fo_visible : bool;
  fo_formset_ordinal : option Z
}.

(** The state of the walk over the sections of a file: titles, formsets found with
    their target and ordinal, and the sections counted by type. *)
Record FormWalk := {
  fw_titles : titles;
  fw_found : list (ustring * FormSetInfo * option Z);
  fw_counters : gmap Z Z
}.
Definition with_titles (t : titles) (w : FormWalk) : FormWalk :=
  {| fw_titles := t; fw_found := fw_found w; fw_counters := fw_counters w |}.
Definition with_found (f : list (ustring * FormSetInfo * option Z)) (w : FormWalk) : FormWalk :=
  {| fw_titles := fw_titles w; fw_found := fw_found w ++ f; fw_counters := fw_counters w |}.

(** One package of a list; [ordinal] is taken by the first form package. *)
Definition drain_package (target : ustring) (s : FormWalk * option Z) (pkg : HiiPackage)
  : pure (FormWalk * option Z) :=
  let '(w, ordinal) := s in
  if has_kind PACKAGE_FORMS pkg then
    sets ← parse_form_package_sets (pk_bytes pkg);
    mret (match sets with
          | Some sets => with_found (map (fun '(i, fs) => (target, fs, b ← ordinal; Some (b + i))) sets) w
          | None => w
          end, None)
  else if has_kind PACKAGE_STRINGS pkg then
    p ← parse_string_package (pk_bytes pkg);
    mret (with_titles (add_strings (fw_titles w) p) w, ordinal)
  else mret (w, ordinal).
Definition drain_list_packages (l : HiiPackageList) (target : ustring) (writable : bool) (w : FormWalk)
  : pure FormWalk :=
  s ← foldM (drain_package target) (packages l) (w, if writable then Some 0 else None);
  mret (fst s).

(** One resource range, with those before it; the first range is the writable one. *)
Definition drain_range (b : list byte) (target : ustring) (s : FormWalk * list (Z * Z) * Z) (r : Z * Z)
  : pure (FormWalk * list (Z * Z) * Z) :=
  let '(w, drained, i) := s in
  if bool_decide (r ∈ drained) then mret (w, drained, i + 1)
  else
    w ← match get_range b (fst r) (fst r + snd r) with
        | None => mret w
        | Some blob =>
            l ← parse_package_list blob;
            match l with
            | None => mret w
            | Some l => drain_list_packages l target (i =? 0) w
            end
        end;
    mret (w, drained ++ [r], i + 1).

Definition form_section (fg : Guid) (w : FormWalk) (child : FfsNode) : pure FormWalk :=
  let idx := default 0 (fw_counters w !! b2z (subtype child)) in
  let w := {| fw_titles := fw_titles w; fw_found := fw_found w;
              fw_counters := <[b2z (subtype child) := idx + 1]> (fw_counters w) |} in
  let target := guid_to_upper_string fg ++ us ":" ++ fmt_04x (subtype child) ++ us ":" ++ dec_string idx in
  let b := body child in
  if has_subtype child EFI_SECTION_RAW then
    sane ← declared_len_sane b;
    p ← (if (sane : bool) then parse_string_package b else mret None);
    match p with
    | Some _ => mret (with_titles (add_strings (fw_titles w) p) w)
    | None =>
        sets ← parse_form_package_sets b;
        mret (match sets with
              | Some sets => with_found (map (fun '(i, fs) => (target, fs, Some i)) sets) w
              | None => w
              end)
    end
  else if has_subtype child EFI_SECTION_PE32 then
    let ranges := hii_resource_ranges b in
    s ← foldM (drain_range b target) ranges (w, [], 0);
    bare ← bare_form_packages b ranges;
    foldM (fun w pkg =>
      sets ← parse_form_package_sets pkg;
      mret (match sets with
            | Some sets => with_found (map (fun '(_, fs) => (target, fs, None)) sets) w
            | None => w
            end)) bare (fst (fst s))
  else if has_subtype child EFI_SECTION_FREEFORM_SUBTYPE_GUID then
    l ← parse_package_list_exact b;
    match l with Some l => drain_list_packages l target false w | None => mret w end
  else mret w.

Fixpoint form_sections (node : FfsNode) (fg : Guid) (w : FormWalk) : pure FormWalk :=
  each_child (fun w _ child =>
    if negb (is_section child) then mret w
    else
      w ← form_section fg w child;
      if is_container child then form_sections child fg w else mret w) 0 (children node) w.

Definition collect_file_forms (file : FfsNode) (fallback : titles) (out : list (FormInfo * option Z))
  : pure (list (FormInfo * option Z)) :=
  match n_guid file with
  | None => mret out
  | Some fg =>
      w ← form_sections file fg {| fw_titles := ∅; fw_found := []; fw_counters := ∅ |};
      mret (out ++ concat (map (fun '(target, fs, ord) =>
        map (fun raw =>
          ({| fo_form_id := target; fo_formset_guid := guid_to_upper_string (fi_guid fs);
              fo_form_id_ifr := rf_form_id raw;
              fo_title := default [] (match fw_titles w !! rf_title raw with
                                      | Some t => Some t
                                      | None => fallback !! rf_title raw
                                      end);
              fo_visible := negb (rf_suppressed raw); fo_formset_ordinal := None |}, ord))
          (fi_forms fs)) (fw_found w)))
  end.
Fixpoint form_files (node : FfsNode) (fallback : titles) (out : list (FormInfo * option Z))
  : pure (list (FormInfo * option Z)) :=
  each_child (fun out _ child =>
    out ← (if is_file child then collect_file_forms child fallback out else mret out);
    form_files child fallback out) 0 (children node) out.

Definition collect_forms_with_ordinals (image : Image) : pure (list (FormInfo * option Z)) :=
  fallback ← image_string_fallback (root image);
  form_files (root image) fallback [].
Definition collect_forms (image : Image) : pure (list FormInfo) :=
  fs ← collect_forms_with_ordinals image;
  mret (map (fun '(f, ord) => {| fo_form_id := fo_form_id f; fo_formset_guid := fo_formset_guid f;
    fo_form_id_ifr := fo_form_id_ifr f; fo_title := fo_title f; fo_visible := fo_visible f;
    fo_formset_ordinal := ord |}) fs).

End ImageStrings.
