(* ===== verification/ImageGates.v ===== *)
(** Form packages of an image ([hii/mod.rs]): item identifiers, the guard on writable
    paths, the packages of a section, the visibility of a form, the listing of gates and
    their unlocking, in the own section and in the other formsets
    ([hii/cross_formset.rs]). *)
From stdpp Require Import gmap.
From S2P Require Import Prelude Text Types Ffs Tiano Codec Parser Target Ops Nvar NvarStores.
From S2P Require Import Hii Values Ifr Gates StringPack PeResource ImageStrings.

(** ** Operations that keep the image on an error *)

Section Act.
Context {GL : GuidLib}.

(** The image afterwards and the outcome. *)
Definition act (A : Type) : Type := Image -> Image * outcome HiiError A.

Definition act_bind {A B} (m : act A) (k : A -> act B) : act B := fun image =>
  let '(image', r) := m image in
  match r with
  | Ok a => k a image'
  | Err e => (image', Err e)
  | Panic => (image', Panic)
  | Diverge => (image', Diverge)
  end.
Definition act_ret {A} (a : A) : act A := fun image => (image, Ok a).
Definition act_of {A} (m : outcome HiiError A) : act A := fun image => (image, m).
Definition act_err {A} (e : HiiError) : act A := act_of (Err e).
Definition get_image : act Image := fun image => (image, Ok image).
Definition with_root (r : FfsNode) (image : Image) : Image :=
  {| image_id := image_id image; session_id := session_id image; root := r; mode := mode image |}.
Definition set_root (r : FfsNode) : act unit := fun image => (with_root r image, Ok tt).
(** A loop over a list. *)
Fixpoint act_fold {A S} (f : S -> A -> act S) (l : list A) (s : S) : act S :=
  match l with
  | [] => act_ret s
  | a :: l => act_bind (f s a) (act_fold f l)
  end.

Definition with_rollback {A} (f : act A) : act A := fun image =>
  let '(image', r) := f image in
  match r with
  | Err e => (with_root (root image) image', Err e)
  | r => (image', r)
  end.

End Act.

Notation "x ⇐ m ; k" := (act_bind m (fun x => k))
  (at level 20, m at level 100, k at level 200, right associativity) : stdpp_scope.

Section ImageGates.
Context {GL : GuidLib} {RH : RefiHii} {OP : ObjectPe}.
(** The [Debug] text of a wrapped target. *)
Context (dbg : Wraps -> ustring).

(** ** Item identifiers *)

(** [s.parse::<u16>()]. *)
Definition parse_u16 (s : ustring) : option Z := parse_uint 10 0xFFFF s.
Definition parse_u16_loose (s : ustring) : option Z :=
  match s with
  | 48 :: 120 :: hex => parse_uint 16 0xFFFF hex
  | _ => parse_u16 s
  end.

Definition HASH : Z := 35.
Definition parse_item_id (item_id : ustring) : outcome HiiError (Target * Z * option Z) :=
  td ← ok_or (HE_InvalidItemId item_id) (rsplit_once HASH item_id);
  let '(target_str, disc) := td : ustring * ustring in
  let '(form_str, qid_str) := match break_at COLON disc with
                              | Some (f, q) => (f, Some q)
                              | None => (disc, None)
                              end in
  form_id ← ok_or (HE_InvalidItemId disc) (parse_u16 form_str);
  question_id ← match qid_str with
                | Some q => q ← ok_or (HE_InvalidItemId disc) (parse_u16_loose q); mret (Some q)
                | None => mret None
                end;
  target ← map_err (fun _ => HE_InvalidItemId target_str) (parse_target target_str);
  mret (target, form_id, question_id).

(** ** Paths that can be edited *)

(** The ancestors along a path. *)
Fixpoint check_ancestors (node : FfsNode) (path : list Z) : outcome HiiError unit :=
  match path with
  | [] => Ok tt
  | i :: path =>
      child ← unwrap (child_at node i);
      if section_blocks_mutation child then Err HE_MutationBehindCompression
      else check_ancestors child path
  end.
Definition resolve_writable_path (image : Image) (target : Target) : outcome HiiError (list Z) :=
  path ← ok_or HE_NotFound (find_item_path (root image) target);
  if negb (bool_decide (mode image = IM_Write)) then Err HE_NotWritable
  else
    n ← usub (blen path) 1;
    _ ← check_ancestors (root image) (take (Z.to_nat n) path);
    mret path.

(** ** The form packages of a section *)

Definition pe_resource_form_packages (b : list byte) : pure (option (list (Z * Z))) :=
  out ← foldM (fun out r =>
    match get_range b (fst r) (fst r + snd r) with
    | None => mret out
    | Some blob =>
        l ← parse_package_list blob;
        match l with
        | None => mret out
        | Some l => mret (out ++ map (fun p => (fst r + pk_offset p, blen (pk_bytes p)))
                                   (List.filter (has_kind PACKAGE_FORMS) (packages l)))
        end
    end) (hii_resource_ranges b) [];
  mret (if bool_decide (out = []) then None else Some out).

Definition freeform_form_package_ranges (b : list byte) : pure (option (list (Z * Z))) :=
  l ← parse_package_list_exact b;
  mret (l ← l; Some (map (fun p => (pk_offset p, blen (pk_bytes p)))
                       (List.filter (has_kind PACKAGE_FORMS) (packages l)))).

(** The packages of a RAW section or of a body that is a form package. *)
Definition whole_package (b : list byte) : list (Z * Z) :=
  if is_form_package b then [(0, blen b)] else [].

Definition form_package_ranges (node : FfsNode) : pure (list (Z * Z)) :=
  let b := body node in
  if has_subtype node EFI_SECTION_RAW || is_form_package b then mret (whole_package b)
  else if has_subtype node EFI_SECTION_PE32 then
    out ← pe_resource_form_packages b; mret (default [] out)
  else if has_subtype node EFI_SECTION_FREEFORM_SUBTYPE_GUID then
    out ← freeform_form_package_ranges b; mret (default [] out)
  else mret [].

Definition form_package_ranges_read (node : FfsNode) : pure (list (Z * Z)) :=
  let b := body node in
  if has_subtype node EFI_SECTION_RAW || is_form_package b then mret (whole_package b)
  else if has_subtype node EFI_SECTION_PE32 then
    out ← pe_resource_form_packages b;
    bare ← bare_form_package_ranges b (hii_resource_ranges b);
    mret (default [] out ++ bare)
  else if has_subtype node EFI_SECTION_FREEFORM_SUBTYPE_GUID then
    out ← freeform_form_package_ranges b; mret (default [] out)
  else mret [].

(** ** Visibility *)

Definition own_scope (form_id : option Z) (pkg : list byte) : pure (option SuppressScope) :=
  match form_id with
  | Some fid => find_form_suppress_scope pkg fid
  | None => scopes ← find_suppress_if_scopes pkg; mret (head scopes)
  end.

(** The first package of the list with a scope, and the body without it. *)
Fixpoint unsuppress_first (form_id : option Z) (b : list byte) (ranges : list (Z * Z))
  : pure (option (list byte)) :=
  match ranges with
  | [] => mret None
  | (start, len) :: ranges =>
      seg ← slice b start (start + len);
      scope ← own_scope form_id seg;
      match scope with
      | Some scope => seg ← unsuppress seg scope; mret (Some (splice b start seg))
      | None => unsuppress_first form_id b ranges
      end
  end.

(** The target and the form of an identifier with or without [#]. *)
Definition visibility_target (item_id : ustring) : outcome HiiError (Target * option Z) :=
  match rsplit_once HASH item_id with
  | Some _ =>
      tfq ← parse_item_id item_id;
      let '(target, form_id, question_id) := tfq : Target * Z * option Z in
      match question_id with Some _ => Err HE_NotFound | None => mret (target, Some form_id) end
  | None => target ← map_err (fun _ => HE_InvalidItemId item_id) (parse_target item_id); mret (target, None)
  end.

Definition set_item_visibility (item_id : ustring) (visible : bool) : act unit :=
  tf ⇐ act_of (visibility_target item_id);
  image ⇐ get_image;
  path ⇐ act_of (resolve_writable_path image (fst tf));
  node ⇐ act_of (node_at (root image) path);
  if negb (is_section node) then act_err HE_NotASetupItem
  else if negb visible then act_err HE_HidingUnsupported
  else
    let b := body node in
    b' ⇐ act_of
      (if has_subtype node EFI_SECTION_RAW || is_form_package b then
         scope ← lift (own_scope (snd tf) b);
         match scope with
         | Some scope => b' ← lift (unsuppress b scope); mret (Some b')
         | None => mret None
         end
       else if has_subtype node EFI_SECTION_PE32 then
         ps ← lift (pe_resource_form_packages b);
         match ps with
         | None => Err HE_NotASetupItem
         | Some ps => lift (unsuppress_first (snd tf) b ps)
         end
       else Err HE_NotASetupItem);
    match b' with
    | Some b' =>
        r ⇐ act_of (unwrap (update_at (root image) path (set_body b')));
        set_root (mark_rebuild_to_root_by_path r path)
    | None => act_err HE_NoSuppressScope
    end.

(** ** What is printed of a gate *)

(** The upper-case hexadecimal digits of [n], [k] of them. *)
Fixpoint upper_hex (k : nat) (n : Z) : ustring :=
  match k with
  | O => []
  | Datatypes.S k => upper_hex k (n / 16) ++ [if n mod 16 <? 10 then 48 + n mod 16 else 55 + n mod 16]
  end.
(** [{:#06X}] of a [u16]. *)
Definition fmt_06X (n : Z) : ustring := us "0x" ++ upper_hex 4 n.
Definition hex (bytes : list byte) : ustring := join (us " ") (map fmt_02x bytes).

Definition expr_text (expr : GateExpr) (region : list byte) : ustring :=
  match expr with
  | GE_EqConst a b => dec_string a ++ us " == " ++ dec_string b
  | GE_EqIdVal question_id value => fmt_06X question_id ++ us " == " ++ fmt_06X value
  | GE_True => us "true"
  | GE_False => us "false"
  | GE_Other => us "[" ++ join (us " ") (map fmt_02x region) ++ us "]"
  end.

Definition flip_text (flip : PlannedFlip) : ustring :=
  pkg_off (flip_offset flip) ++ us ": " ++ hex (flip_from flip) ++ us " -> " ++ hex (flip_to flip).

(** The message [GateInfo]; offsets are cut to 32 bits. *)
Record GateInfo := {
  gi_gate_kind : ustring;
  gi_wraps : ustring;
  gi_form_id : Z;
  gi_host_form_id : Z;
  gi_question_id : Z;
  gi_expression : ustring;
  gi_flippable : bool;
  gi_flip : ustring;
  gi_scope_offset : Z;
  gi_source_target : ustring
}.

Definition wraps_fields (w : Wraps) : ustring * Z * Z * Z :=
  match w with
  | WR_Form form_id => (us "form", form_id, form_id, 0)
  | WR_Ref form_id host_form_id => (us "ref", form_id, host_form_id, 0)
  | WR_CrossFormsetRef form_id host_form_id _ => (us "cross_ref", form_id, host_form_id, 0)
  | WR_Question form_id question_id => (us "question", form_id, form_id, question_id)
  end.

Definition gate_info (pkg : list byte) (source : ustring) (gate : Gate) : pure GateInfo :=
  let region := default [] (get_range pkg (expr_offset gate) (Z.min (expr_end gate) (blen pkg))) in
  flip ← match plan_flip pkg gate with
         | Ok f => Ok f
         | Err _ => Ok None
         | Panic => Panic
         | Diverge => Diverge
         end;
  let '(wraps, form_id, host_form_id, question_id) := wraps_fields (g_wraps gate) in
  mret {| gi_gate_kind := gate_kind_str (g_kind gate); gi_wraps := wraps; gi_form_id := form_id;
          gi_host_form_id := host_form_id; gi_question_id := question_id;
          gi_expression := expr_text (g_expr gate) region;
          gi_flippable := match flip with Some _ => true | None => false end;
          gi_flip := match flip with Some f => flip_text f | None => [] end;
          gi_scope_offset := wrap 32 (scope_offset gate); gi_source_target := source |}.
Definition gate_infos (pkg : list byte) (source : ustring) (gates : list Gate) (out : list GateInfo)
  : pure (list GateInfo) :=
  foldM (fun out g => i ← gate_info pkg source g; mret (out ++ [i])) gates out.

(** ** Gates in the other formsets *)

Record CrossGateSite := {
  cs_path : list Z;
  cs_source_ffs : ustring;
  cs_pkg_start : Z;
  cs_pkg_len : Z;
  cs_gates : list Gate
}.

Definition scan_section (sec : FfsNode) (path : list Z) (file_guid : Guid) (skip_path : list Z)
  (gt : GateTarget) (out : list CrossGateSite) : pure (list CrossGateSite) :=
  if bool_decide (path = skip_path) then mret out
  else
    ranges ← form_package_ranges sec;
    foldM (fun out r =>
      pkg ← slice (body sec) (fst r) (fst r + snd r);
      found ← find_gates pkg gt;
      mret (match found with
            | [] => out
            | _ => out ++ [{| cs_path := path; cs_source_ffs := guid_to_upper_string file_guid;
                              cs_pkg_start := fst r; cs_pkg_len := snd r; cs_gates := found |}]
            end)) ranges out.

Fixpoint cross_sections (file : FfsNode) (path : list Z) (file_guid : Guid) (skip_path : list Z)
  (gt : GateTarget) (out : list CrossGateSite) : pure (list CrossGateSite) :=
  each_child (fun out i sec =>
    if negb (is_section sec) then mret out
    else if has_subtype sec EFI_SECTION_RAW || has_subtype sec EFI_SECTION_PE32
    then scan_section sec (path ++ [i]) file_guid skip_path gt out
    else if is_container sec then cross_sections sec (path ++ [i]) file_guid skip_path gt out
    else mret out) 0 (children file) out.

Fixpoint cross_files (node : FfsNode) (path : list Z) (skip_path : list Z) (gt : GateTarget)
  (out : list CrossGateSite) : pure (list CrossGateSite) :=
  each_child (fun out i child =>
    out ← (if is_file child then
             match n_guid child with
             | Some g => cross_sections child (path ++ [i]) g skip_path gt out
             | None => mret out
             end
           else mret out);
    cross_files child (path ++ [i]) skip_path gt out) 0 (children node) out.

Definition find_cross_gates (image : Image) (skip_path : list Z) (gt : GateTarget)
  : pure (list CrossGateSite) :=
  cross_files (root image) [] skip_path gt [].

(** The GUID of the first formset of a section. *)
Fixpoint first_formset (b : list byte) (ranges : list (Z * Z)) : pure (option Guid) :=
  match ranges with
  | [] => mret None
  | r :: ranges =>
      pkg ← slice b (fst r) (fst r + snd r);
      fs ← parse_form_package pkg;
      match fs with Some fs => mret (Some (fi_guid fs)) | None => first_formset b ranges end
  end.
Definition own_formset_guid (node : FfsNode) : pure (option Guid) :=
  ranges ← form_package_ranges node; first_formset (body node) ranges.

(** [GateTarget { formset_guid: Some(own), ..gt }]. *)
Definition cross_target (own : Guid) (gt : GateTarget) : GateTarget :=
  {| gt_form_id := gt_form_id gt; gt_question_id := gt_question_id gt; gt_formset_guid := Some own |}.

(** ** The listing *)

Definition gates_list (image : Image) (item_id : ustring) : outcome HiiError (list GateInfo) :=
  tfq ← parse_item_id item_id;
  let '(target, form_id, question_id) := tfq : Target * Z * option Z in
  node ← map_err (fun _ => HE_NotFound) (find_item (root image) target);
  if negb (is_section node) then Err HE_NotASetupItem
  else
    ranges ← lift (form_package_ranges_read node);
    if bool_decide (ranges = []) then Err HE_NotASetupItem
    else
      let gt := {| gt_form_id := form_id; gt_question_id := question_id; gt_formset_guid := None |} in
      out ← lift (foldM (fun out r =>
              pkg ← slice (body node) (fst r) (fst r + snd r);
              found ← find_gates pkg gt;
              gate_infos pkg [] found out) ranges []);
      match question_id with
      | Some _ => mret out
      | None =>
          own ← lift (own_formset_guid node);
          match own, find_item_path (root image) target with
          | Some own, Some skip_path =>
              sites ← lift (find_cross_gates image skip_path (cross_target own gt));
              foldM (fun out site =>
                n ← node_at (root image) (cs_path site);
                pkg ← slice (body n) (cs_pkg_start site) (cs_pkg_start site + cs_pkg_len site);
                lift (gate_infos pkg (cs_source_ffs site) (cs_gates site) out)) sites out
          | _, _ => mret out
          end
      end.

(** ** Unlocking *)

Record UnlockOutcome := {
  uo_gates : list GateInfo;
  uo_applied : list ustring
}.

(** [PlannedFlip { offset: start + f.offset, ..f }]. *)
Definition shift_flip (start : Z) (f : PlannedFlip) : PlannedFlip :=
  {| flip_offset := start + flip_offset f; flip_from := flip_from f; flip_to := flip_to f |}.

(** The plan for one package: what is printed, and the flips in the body. *)
Definition plan_range (b : list byte) (gt : GateTarget)
  (s : list GateInfo * list ustring * list PlannedFlip) (r : Z * Z)
  : outcome HiiError (list GateInfo * list ustring * list PlannedFlip) :=
  let '(infos, applied, flips) := s in
  pkg ← slice b (fst r) (fst r + snd r);
  found ← lift (find_gates pkg gt);
  match found with
  | [] => mret s
  | _ =>
      fs ← map_err HE_GateExpressionUnsupported (plan_gates_skip_unlocked dbg pkg found);
      infos ← lift (gate_infos pkg [] found infos);
      mret (infos, applied ++ map flip_text fs, flips ++ map (shift_flip (fst r)) fs)
  end.

Definition site_body (flips : list PlannedFlip) (b : list byte) : outcome HiiError (list byte) :=
  map_err HE_GateExpressionUnsupported (apply_flips b flips).
(** In the own section the length is asserted to be the same. *)
Definition flipped_body (flips : list PlannedFlip) (b : list byte) : outcome HiiError (list byte) :=
  b' ← site_body flips b;
  if blen b' =? blen b then mret b' else Panic.

(** The flips of one section written and marked; [apply] gives the new body. *)
Definition flip_node (apply : list byte -> outcome HiiError (list byte)) (path : list Z) : act unit :=
  image ⇐ get_image;
  node ⇐ act_of (node_at (root image) path);
  b ⇐ act_of (apply (body node));
  r ⇐ act_of (unwrap (update_at (root image) path (set_body b)));
  set_root (mark_rebuild_to_root_by_path r path).

(** The own section. *)
Definition unlock_own (path : list Z) (gt : GateTarget) : act (list GateInfo * list ustring) :=
  image ⇐ get_image;
  node ⇐ act_of (node_at (root image) path);
  if negb (is_section node) then act_err HE_NotASetupItem
  else
    readable ⇐ act_of (lift (form_package_ranges_read node));
    if bool_decide (readable = []) then act_err HE_NotASetupItem
    else
      ranges ⇐ act_of (lift (form_package_ranges node));
      p ⇐ act_of (foldM (plan_range (body node) gt) ranges ([], [], []));
      let '(infos, applied, flips) := p : list GateInfo * list ustring * list PlannedFlip in
      match flips with
      | [] => act_ret (infos, applied)
      | _ => _ ⇐ flip_node (flipped_body flips) path; act_ret (infos, applied)
      end.

(** One site of another formset: what is printed, and whether a flip was applied. *)
Definition unlock_site (s : bool * list GateInfo * list ustring) (site : CrossGateSite)
  : act (bool * list GateInfo * list ustring) :=
  let '(any, infos, applied) := s in
  image ⇐ get_image;
  _ ⇐ act_of (resolve_writable_path image (TG_Path (cs_path site)));
  node ⇐ act_of (node_at (root image) (cs_path site));
  pkg ⇐ act_of (slice (body node) (cs_pkg_start site) (cs_pkg_start site + cs_pkg_len site));
  flips ⇐ act_of (map_err HE_GateExpressionUnsupported (plan_gates_skip_unlocked dbg pkg (cs_gates site)));
  infos ⇐ act_of (lift (gate_infos pkg (cs_source_ffs site) (cs_gates site) infos));
  match flips with
  | [] => act_ret (any, infos, applied)
  | _ =>
      _ ⇐ flip_node (site_body (map (shift_flip (cs_pkg_start site)) flips)) (cs_path site);
      act_ret (true, infos, applied ++ map flip_text flips)
  end.

(** Whether a flip was applied in another formset; rolled back on an error. *)
Definition apply_cross_formset_gates (target : Target) (gt : GateTarget) (infos : list GateInfo)
  (applied : list ustring) : act (bool * list GateInfo * list ustring) :=
  match gt_question_id gt with
  | Some _ => act_ret (false, infos, applied)
  | None =>
      image ⇐ get_image;
      node ⇐ act_of (map_err (fun _ => HE_NotFound) (find_item (root image) target));
      own ⇐ act_of (lift (own_formset_guid node));
      match own with
      | None => act_ret (false, infos, applied)
      | Some own =>
          skip_path ⇐ act_of (ok_or HE_NotFound (find_item_path (root image) target));
          sites ⇐ act_of (lift (find_cross_gates image skip_path (cross_target own gt)));
          with_rollback (act_fold unlock_site sites (false, infos, applied))
      end
  end.

Definition unlock (item_id : ustring) : act UnlockOutcome :=
  tfq ⇐ act_of (parse_item_id item_id);
  let '(target, form_id, question_id) := tfq : Target * Z * option Z in
  image ⇐ get_image;
  path ⇐ act_of (resolve_writable_path image target);
  let gt := {| gt_form_id := form_id; gt_question_id := question_id; gt_formset_guid := None |} in
  with_rollback
    (own ⇐ unlock_own path gt;
     cross ⇐ apply_cross_formset_gates target gt (fst own) (snd own);
     let '(any, infos, applied) := cross : bool * list GateInfo * list ustring in
     _ ⇐ (if any then
            image ⇐ get_image; set_root (mark_rebuild_to_root_by_path (root image) path)
          else act_ret tt);
     act_ret {| uo_gates := infos; uo_applied := applied |}).

End ImageGates.
