(* ===== verification/ImageValues.v ===== *)
(** The values of questions in an image ([hii/mod.rs]): the StdDefaults stores, the
    value a question has there, the listing of questions and variable stores, and
    [set_value], which writes a value into every store that can be reached. *)
From stdpp Require Import gmap.
From S2P Require Import Prelude Text Types Ffs Tiano Codec Parser Target Ops Nvar NvarStores.
From S2P Require Import Hii Values Ifr Gates StringPack PeResource ImageStrings ImageGates.

Section ImageValues.
Context {GL : GuidLib} {RH : RefiHii} {OP : ObjectPe}.
(** The [Debug] text of a string. *)
Context (dbg_str : ustring -> ustring).

Definition question_kind_str (kind : QuestionKind) : ustring :=
  match kind with
  | QK_OneOf => us "one_of"
  | QK_CheckBox => us "checkbox"
  | QK_Numeric => us "numeric"
  | QK_Other => us "other"
  end.

(** ** The StdDefaults stores *)

Record StdDefaultsBody := {
  sd_node : FfsNode;
  sd_file_guid : option Guid;
  sd_path : list Z
}.

Definition is_store_body (node : FfsNode) : pure bool :=
  if (is_file node || is_section node) && bool_decide (children node = [])
  then is_std_defaults (body node) else mret false.

(** The stores found so far, and whether one was skipped behind a barrier. *)
Fixpoint collect_std_defaults_bodies (node : FfsNode) (barrier : bool) (file_guid : option Guid)
  (path : list Z) (s : list StdDefaultsBody * bool) : pure (list StdDefaultsBody * bool) :=
  let own := own_file_guid node file_guid in
  is_store ← is_store_body node;
  if (is_store : bool) then
    mret (if barrier then (fst s, true)
          else (fst s ++ [{| sd_node := node; sd_file_guid := own; sd_path := path |}], snd s))
  else
    let child_barrier := barrier || section_blocks_mutation node in
    each_child (fun s i child => collect_std_defaults_bodies child child_barrier own (path ++ [i]) s)
      0 (children node) s.

(** ** Reading a value *)

(** The first store with the record and the bytes in range. *)
Fixpoint seed_in (bodies : list StdDefaultsBody) (name : ustring) (size off w : Z) : pure (option Z) :=
  match bodies with
  | [] => mret None
  | b :: bodies =>
      r ← find_varstore_record (body (sd_node b)) name size;
      match r ≫= (fun r => get_range (snd r) off (off + w)) with
      | Some bytes => mret (Some (le_dec bytes))
      | None => seed_in bodies name size off w
      end
  end.
Definition seed_lookup (node : FfsNode) (barrier : bool) (name : ustring) (size off w : Z)
  : pure (option Z) :=
  if bool_decide (name = []) || (w =? 0) || (8 <? w) || (size <? off + w) then mret None
  else
    s ← collect_std_defaults_bodies node barrier None [] ([], false);
    seed_in (fst s) name size off w.

Definition seed_option_of (kind : QuestionKind) (seed : option Z) (options : list OptionEntry)
  (texts : titles) : option ustring :=
  v ← seed;
  match kind with
  | QK_CheckBox => Some (if v =? 0 then us "Disabled" else us "Enabled")
  | QK_OneOf =>
      o ← List.find (fun o => oe_value o =? v) options;
      t ← texts !! oe_string_id o;
      if bool_decide (t = []) then None else Some t
  | QK_Numeric => Some (dec_string v)
  | QK_Other => None
  end.

(** The messages. *)
Record VarStoreInfo := {
  vi_id : Z;
  vi_guid : ustring;
  vi_size : Z;
  vi_name : ustring
}.
Record OptionInfo := {
  oi_string_id : Z;
  oi_value : Z;
  oi_flags : Z;
  oi_text : ustring
}.
Record QuestionInfo := {
  qi_form_id : Z;
  qi_question_id : Z;
  qi_kind : ustring;
  qi_var_store_id : Z;
  qi_varstore : option VarStoreInfo;
  qi_var_offset : Z;
  qi_width : Z;
  qi_min : Z;
  qi_max : Z;
  qi_step : Z;
  qi_options : list OptionInfo;
  qi_defaults : list DefaultEntry;
  qi_seed_value : option Z;
  qi_seed_option : option ustring
}.

Definition varstore_info (v : VarStoreMap) : VarStoreInfo :=
  {| vi_id := vs_id v; vi_guid := match vs_guid v with Some g => guid_to_upper_string g | None => [] end;
     vi_size := vs_size v; vi_name := vs_name v |}.

(** The seed of a question whose variable store is declared. *)
Definition map_seed (root : FfsNode) (map : QuestionMap) : pure (option Z) :=
  match qm_varstore map with
  | Some vs => seed_lookup root false (vs_name vs) (vs_size vs) (qm_var_offset map) (qm_width map)
  | None => mret None
  end.

Definition question_info_proto (image : Image) (form_id : Z) (map : QuestionMap) (texts : titles)
  : pure QuestionInfo :=
  seed ← map_seed (root image) map;
  mret {| qi_form_id := form_id; qi_question_id := qm_question_id map;
          qi_kind := question_kind_str (qm_kind map); qi_var_store_id := qm_var_store_id map;
          qi_varstore := varstore_info <$> qm_varstore map;
          qi_var_offset := qm_var_offset map; qi_width := qm_width map;
          qi_min := qm_min map; qi_max := qm_max map; qi_step := qm_step map;
          qi_options := (fun o => {| oi_string_id := oe_string_id o; oi_value := oe_value o;
                                     oi_flags := b2z (oe_flags o);
                                     oi_text := default [] (texts !! oe_string_id o) |}) <$> qm_options map;
          qi_defaults := qm_defaults map; qi_seed_value := seed;
          qi_seed_option := seed_option_of (qm_kind map) seed (qm_options map) texts |}.

(** ** The question of an identifier *)

Fixpoint first_question (b : list byte) (ranges : list (Z * Z)) (form_id question_id : Z)
  : pure (option QuestionMap) :=
  match ranges with
  | [] => mret None
  | r :: ranges =>
      pkg ← slice b (fst r) (fst r + snd r);
      m ← find_question pkg form_id question_id;
      match m with Some m => mret (Some m) | None => first_question b ranges form_id question_id end
  end.

(** The section at a path, which must be a section, and the node that holds it. *)
Definition section_and_file (root : FfsNode) (path : list Z) : outcome HiiError (FfsNode * FfsNode) :=
  node ← node_at root path;
  if negb (is_section node) then Err HE_NotASetupItem
  else
    n ← usub (blen path) 1;
    file ← node_at root (take (Z.to_nat n) path);
    mret (node, file).

Definition find_question_map (image : Image) (target : Target) (form_id question_id : Z)
  : outcome HiiError (QuestionMap * titles) :=
  path ← ok_or HE_NotFound (find_item_path (root image) target);
  nf ← section_and_file (root image) path;
  fallback ← lift (image_string_fallback (root image));
  texts ← lift (prompt_texts (snd nf) fallback);
  ranges ← lift (form_package_ranges_read (fst nf));
  m ← lift (first_question (body (fst nf)) ranges form_id question_id);
  match m with Some m => mret (m, texts) | None => Err HE_NotFound end.

Definition question_info (image : Image) (item_id : ustring) : outcome HiiError QuestionInfo :=
  tfq ← parse_item_id item_id;
  let '(target, form_id, question_id) := tfq : Target * Z * option Z in
  question_id ← ok_or HE_NotFound question_id;
  mt ← find_question_map image target form_id question_id;
  lift (question_info_proto image form_id (fst mt) (snd mt)).

(** ** The stores with a record *)

Definition no_record (desc name : ustring) (data_len : Z) : HiiError :=
  HE_ValueOpUnsupported (us "StdDefaults store " ++ desc ++ us " has no record " ++ dbg_str name
    ++ us " of " ++ dec_string data_len ++ us " bytes").

Definition record_hit (name : ustring) (data_len : Z) (hits : list VarHit) (b : StdDefaultsBody)
  : outcome HiiError (list VarHit) :=
  let desc := store_desc (sd_node b) (sd_file_guid b) in
  r ← lift (find_varstore_record (body (sd_node b)) name data_len);
  match r with
  | None => Err (no_record desc name data_len)
  | Some r => mret (hits ++ [{| vh_path := sd_path b; vh_desc := desc; vh_data_off := fst r |}])
  end.
(** The hits, and whether a store was skipped behind a barrier. *)
Definition collect_std_defaults_hits (node : FfsNode) (name : ustring) (data_len : Z)
  : outcome HiiError (list VarHit * bool) :=
  s ← lift (collect_std_defaults_bodies node false None [] ([], false));
  hits ← foldM (record_hit name data_len) (fst s) [];
  mret (hits, snd s).

Record GetValueOutcome := {
  gv_value : option Z;
  gv_option : option ustring;
  gv_store_path : option ustring;
  gv_var_offset : Z;
  gv_width : Z
}.

Definition get_value (image : Image) (item_id : ustring) : outcome HiiError GetValueOutcome :=
  tfq ← parse_item_id item_id;
  let '(target, form_id, question_id) := tfq : Target * Z * option Z in
  question_id ← ok_or HE_NotFound question_id;
  mt ← find_question_map image target form_id question_id;
  let '(map, texts) := mt : QuestionMap * titles in
  let result v o p := Ok {| gv_value := v; gv_option := o; gv_store_path := p;
                            gv_var_offset := qm_var_offset map; gv_width := qm_width map |} in
  let none := result None None None in
  match qm_varstore map with
  | None => none
  | Some vs =>
      let off := qm_var_offset map in
      let w := qm_width map in
      if bool_decide (vs_name vs = []) || (w =? 0) || (8 <? w) || (vs_size vs <? off + w) then none
      else
        scan ← collect_std_defaults_hits (root image) (vs_name vs) (vs_size vs);
        match fst scan with
        | [] => none
        | hit :: _ =>
            node ← node_at (root image) (vh_path hit);
            abs ← uadd (vh_data_off hit) off;
            e ← uadd abs w;
            match get_range (body node) abs e with
            | None => none
            | Some b =>
                let v := Some (le_dec b) in
                result v (seed_option_of (qm_kind map) v (qm_options map) texts)
                        (Some (path_string (vh_path hit)))
            end
        end
  end.

(** ** Listings *)

(** The first form package of the first HII entry, in the body of a PE section. *)
Fixpoint first_forms (blob_off prefix : Z) (pkgs : list HiiPackage) : option (Z * Z) :=
  match pkgs with
  | [] => None
  | p :: pkgs =>
      if has_kind PACKAGE_FORMS p then Some (blob_off + 20 + prefix, blen (pk_bytes p))
      else first_forms blob_off (prefix + blen (pk_bytes p)) pkgs
  end.
Definition resource_forms_package (pe : list byte) : pure (option (Z * Z)) :=
  match hii_entry_locations pe with
  | [] => mret None
  | (_, blob_off, blob_len) :: _ =>
      match e ← checked_add blob_off blob_len; get_range pe blob_off e with
      | None => mret None
      | Some blob =>
          l ← parse_package_list blob;
          mret (l ← l; first_forms blob_off 0 (packages l))
      end
  end.

(** [<target>] or [<target>#<n>]. *)
Definition formset_target (item_id : ustring) : outcome HiiError (Target * Z) :=
  tn ← match rsplit_once HASH item_id with
       | Some (t, n) => n ← ok_or HE_NotFound (parse_u16 n); mret (t, n)
       | None => mret (item_id, 0)
       end;
  let '(target_str, idx) := tn : ustring * Z in
  target ← map_err (fun _ => HE_NotFound) (parse_target target_str);
  mret (target, idx).

Definition list_varstores (image : Image) (item_id : ustring) : outcome HiiError (list VarStoreInfo) :=
  ti ← formset_target item_id;
  node ← map_err (fun _ => HE_NotFound) (find_item (root image) (fst ti));
  if negb (is_section node) then Err HE_NotASetupItem
  else
    pkg ← (if has_subtype node EFI_SECTION_RAW && is_form_package (body node) then Ok (body node)
           else if has_subtype node EFI_SECTION_PE32 then
             r ← lift (resource_forms_package (body node));
             r ← ok_or HE_NotASetupItem r;
             ok_or HE_InvalidIfr (get_range (body node) (fst r) (fst r + snd r))
           else Err HE_NotASetupItem);
    at_ ← lift (formset_at pkg (snd ti));
    if negb at_ then Err HE_NotFound
    else
      stores ← lift (varstore_map_formset pkg (snd ti));
      stores ← ok_or HE_InvalidIfr stores;
      Ok (map varstore_info stores).

Record QuestionSummary := {
  su_question_id : Z;
  su_kind : ustring;
  su_prompt : ustring;
  su_var_store_id : Z;
  su_var_offset : Z;
  su_width : Z;
  su_seed_value : option Z;
  su_ifr_default : option Z
}.

Definition question_summary (root : FfsNode) (own fallback : titles)
  (maps : gmap (Z * Z) QuestionMap) (form_id : Z) (q : RawQuestion) : pure QuestionSummary :=
  sd ← match maps !! (form_id, rq_question_id q) with
       | Some m => seed ← map_seed root m; mret (seed, de_value <$> head (qm_defaults m))
       | None => mret (None, None)
       end;
  mret {| su_question_id := rq_question_id q; su_kind := question_kind_str (rq_kind q);
          su_prompt := default [] (match own !! rq_prompt_sid q with
                                   | Some t => Some t
                                   | None => fallback !! rq_prompt_sid q
                                   end);
          su_var_store_id := rq_var_store_id q; su_var_offset := rq_var_offset q;
          su_width := rq_width q; su_seed_value := fst sd; su_ifr_default := snd sd |}.

Definition list_questions (image : Image) (target_str : ustring) (form_id : Z)
  : outcome HiiError (list QuestionSummary) :=
  target ← map_err (fun _ => HE_NotFound) (parse_target target_str);
  path ← ok_or HE_NotFound (find_item_path (root image) target);
  nf ← section_and_file (root image) path;
  own ← lift (prompt_texts_own (snd nf));
  fallback ← lift (image_string_fallback (root image));
  ranges ← lift (form_package_ranges_read (fst nf));
  lift (foldM (fun out r =>
    pkg ← slice (body (fst nf)) (fst r) (fst r + snd r);
    maps ← question_maps pkg;
    qs ← questions pkg form_id;
    foldM (fun out q => s ← question_summary (root image) own fallback maps form_id q; mret (out ++ [s]))
      qs out) ranges []).

(** ** Setting a value *)

Definition unsupported {A} (s : ustring) : outcome HiiError A := Err (HE_ValueOpUnsupported s).

Definition validate_set_value (map : QuestionMap) (value : Z) : outcome HiiError Z :=
  if bool_decide (qm_kind map = QK_Other) then unsupported (us "question kind is not value-settable")
  else if (qm_width map =? 0) || (8 <? qm_width map) then
    unsupported (us "question width " ++ dec_string (qm_width map) ++ us " is not settable")
  else
    let bits := 8 * qm_width map in
    if (bits <? 64) && (Z.shiftl 1 bits <=? value) then
      unsupported (us "value " ++ dec_string value ++ us " does not fit in " ++ dec_string bits ++ us " bits")
    else
      match qm_kind map with
      | QK_CheckBox =>
          if 1 <? value then unsupported (us "checkbox accepts only 0 or 1") else mret (qm_width map)
      | QK_OneOf =>
          if negb (existsb (fun o => oe_value o =? value) (qm_options map)) then
            unsupported (us "value " ++ dec_string value ++ us " is not among one_of options ["
              ++ join (us ", ") (dec_string ∘ oe_value <$> qm_options map) ++ us "]")
          else mret (qm_width map)
      | QK_Numeric =>
          if negb ((qm_min map <=? value) && (value <=? qm_max map)) then
            unsupported (us "value " ++ dec_string value ++ us " is outside numeric range "
              ++ dec_string (qm_min map) ++ us "..=" ++ dec_string (qm_max map))
          else mret (qm_width map)
      | QK_Other => mret (qm_width map)
      end.

Record ValueOutcome := {
  vo_question : QuestionInfo;
  vo_applied : list ustring;
  vo_stores : list ustring
}.

(** The plan for one store. *)
Definition plan_value (root : FfsNode) (var_offset value width : Z) (plans : list Plan) (hit : VarHit)
  : outcome HiiError (list Plan) :=
  node ← node_at root (vh_path hit);
  off ← uadd (vh_data_off hit) var_offset;
  e ← uadd off width;
  from ← ok_or (HE_ValueOpUnsupported (us "record data out of bounds")) (get_range (body node) off e);
  let to_ := take (Z.to_nat width) (le_enc 8 value) in
  mret (plans ++ [{| pl_hit := hit; pl_off := off; pl_from := from; pl_to := to_ |}]).

(** The stores and the plans for a value; nothing is written before all are made. *)
Definition value_plans (root : FfsNode) (map : QuestionMap) (value : Z)
  : outcome HiiError (list VarHit * list Plan) :=
  width ← validate_set_value map value;
  vs ← ok_or (HE_ValueOpUnsupported (us "question varstore is not declared in the form package"))
         (qm_varstore map);
  if bool_decide (vs_name vs = []) then
    unsupported (us "varstore has no name; cannot match a StdDefaults record")
  else if vs_size vs <? qm_var_offset map + width then
    unsupported (us "var_offset " ++ fmt_hex (qm_var_offset map) ++ us " + width " ++ dec_string width
      ++ us " exceeds varstore size " ++ fmt_hex (vs_size vs))
  else
    scan ← collect_std_defaults_hits root (vs_name vs) (vs_size vs);
    match fst scan with
    | [] => if (snd scan : bool) then Err HE_MutationBehindCompression
            else unsupported (us "no NVAR StdDefaults stores found in the image")
    | hits =>
        plans ← foldM (plan_value root (qm_var_offset map) value width) hits [];
        mret (hits, plans)
    end.

Definition set_value (item_id : ustring) (value : Z) : act ValueOutcome :=
  tfq ⇐ act_of (parse_item_id item_id);
  let '(target, form_id, question_id) := tfq : Target * Z * option Z in
  question_id ⇐ act_of (ok_or HE_NotFound question_id);
  image ⇐ get_image;
  mt ⇐ act_of (find_question_map image target form_id question_id);
  let '(map, texts) := (mt : QuestionMap * titles) in
  if negb (bool_decide (mode image = IM_Write)) then act_err HE_NotWritable
  else
    info ⇐ act_of (lift (question_info_proto image form_id map texts));
    hp ⇐ act_of (value_plans (root image) map value);
    let '(hits, plans) := hp : list VarHit * list Plan in
    ra ⇐ act_of (foldM (apply_step (qm_width map)) plans (root image, []));
    _ ⇐ set_root (fst (ra : FfsNode * list ustring));
    act_ret {| vo_question := info; vo_applied := snd ra; vo_stores := vh_desc <$> hits |}.

End ImageValues.
