(* ===== verification/Channels.v ===== *)
(** How setup data is brought into an image: strings into the string package of a file or
    of a PE resource ([hii/string_pack.rs]), packages of a resource that grow in place, and
    the payloads of the AMI modules ([hii/ami_patcher.rs], [hii/formset_add.rs]). *)
From stdpp Require Import gmap.
From S2P Require Import Prelude Text Types Ffs Tiano Codec Parser Target Ops Nvar NvarStores.
From S2P Require Import Hii Values Ifr Gates StringPack Schema FormsetAdd Spf PeResource.
From S2P Require Import ImageStrings ImageGates ImageValues.

(** ** Edits of one body *)

Section Edit.
Context {GL : GuidLib}.

(** [node_at_mut(root, path).body], changed by [f]; an error changes nothing. *)
Definition edit_body {A} (path : list Z) (f : list byte -> outcome HiiError (list byte * A)) : act A :=
  image ⇐ get_image;
  node ⇐ act_of (node_at (root image) path);
  r ⇐ act_of (f (body node));
  root' ⇐ act_of (unwrap (update_at (root image) path (set_body (fst r))));
  _ ⇐ set_root root';
  act_ret (snd r).

(** The same for [find_item_mut(root, target)]. *)
Definition edit_item {A} (target : Target) (f : list byte -> outcome HiiError (list byte * A)) : act A :=
  image ⇐ get_image;
  path ⇐ act_of (ok_or HE_NotFound (find_item_path (root image) target));
  _ ⇐ act_of (ok_or HE_NotFound (find_mut (root image) path));
  edit_body path f.

Definition mark (path : list Z) : act unit :=
  image ⇐ get_image; set_root (mark_rebuild_to_root_by_path (root image) path).

End Edit.

Section Channels.
Context {GL : GuidLib} {RH : RefiHii} {OP : ObjectPe}.

(** ** String packages *)

Fixpoint walk_for_string_package (node : FfsNode) (ffs_guid owner : option Guid) (path : list Z)
  : pure (option (list Z) * unit) :=
  find_child (fun i child _ =>
    let child_owner := if is_file child then n_guid child else owner in
    sane ← (if is_section child && bool_decide (children child = [])
            then declared_len_sane (body child) else mret false);
    if sane && is_string_package (body child)
       && match ffs_guid with Some _ => bool_decide (owner = ffs_guid) | None => true end
    then mret (Some (path ++ [i]), tt)
    else walk_for_string_package child ffs_guid child_owner (path ++ [i])) 0 (children node) tt.

Definition string_package_section_path (root : FfsNode) (ffs_guid : option Guid) : pure (option (list Z)) :=
  r ← walk_for_string_package root ffs_guid None []; mret (fst r).

Definition add_strings (ffs_guid : option Guid) (strings : list ustring) : act (gmap ustring Z) :=
  image ⇐ get_image;
  path ⇐ act_of (lift (string_package_section_path (root image) ffs_guid));
  path ⇐ act_of (ok_or HE_StringPackageNotFound path);
  mapping ⇐ edit_body path (fun b =>
    map_err (fun e => HE_StringIdExhausted (sie_next e)) (add_strings_to_body b strings));
  _ ⇐ mark path;
  act_ret mapping.

(** The HII list of a PE image: its place and its packages. *)
Definition is_strings (p : HiiPackage) : bool :=
  has_kind PACKAGE_STRINGS p && is_string_package (pk_bytes p).
Definition sum_bytes (pkgs : list HiiPackage) : Z := foldr (fun p n => blen (pk_bytes p) + n) 0 pkgs.

Definition pe_resource_has_string_package (pe : list byte) : pure bool :=
  match hii_entry_locations pe with
  | [] => mret false
  | (_, blob_off, blob_len) :: _ =>
      match end_ ← checked_add blob_off blob_len; get_range pe blob_off end_ with
      | None => mret false
      | Some blob =>
          l ← parse_package_list blob;
          mret match l with Some l => existsb is_strings (packages l) | None => false end
      end
  end.

(** [new] in the place of the package that ends at [pkg_end], after the resource section
    has grown by the plan; [false] when it cannot grow. *)
Definition write_grown (pe : list byte) (plan : RsrcBlobGrowthPlan) (pkg_off pkg_end blob_end : Z)
  (new : list byte) (new_blob_len new_total : Z) : pure (list byte * bool) :=
  g ← (if 0 <? bg_grow plan then try_grow_rsrc_tail pe (bg_grow plan) else mret (pe, true));
  let '(pe, grown) := g : list byte * bool in
  if grown then
    pe ← copy_within pe pkg_end blob_end (pkg_off + blen new);
    pe ← copy_into pe pkg_off (pkg_off + blen new) new;
    pe ← write_length_chain pe (bg_entry_off plan) (bg_blob_off plan) (wrap 32 new_blob_len)
           (wrap 32 new_total);
    mret (pe, true)
  else mret (pe, false).

Definition u32_max : Z := 0xFFFFFFFF.

Inductive AddStringsToResourceError := AR_NotFound | AR_GrowthUnsupported | AR_IdExhausted (next : Z).

Definition add_strings_to_resource (pe : list byte) (strings : list ustring)
  : outcome AddStringsToResourceError (list byte * gmap ustring Z) :=
  loc ← ok_or AR_NotFound (head (hii_entry_locations pe));
  let '(_, blob_off, blob_len) := loc : Z * Z * Z in
  blob_end ← ok_or AR_NotFound (checked_add blob_off blob_len);
  blob ← ok_or AR_NotFound (get_range pe blob_off blob_end);
  parsed ← lift (parse_package_list blob);
  parsed ← ok_or AR_NotFound parsed;
  idx ← ok_or AR_NotFound (position is_strings (packages parsed) 0);
  let prefix := sum_bytes (take (Z.to_nat idx) (packages parsed)) in
  pkg ← index (packages parsed) idx;
  let old_len := blen (pk_bytes pkg) in
  grown ← slice blob (20 + prefix) (20 + prefix + old_len);
  gm ← map_err (fun e => AR_IdExhausted (sie_next e)) (add_strings_to_body grown strings);
  let '(grown, mapping) := gm : list byte * gmap ustring Z in
  delta ← usub (blen grown) old_len;
  new_blob_len ← ok_or AR_GrowthUnsupported (checked_add blob_len delta);
  let new_total := 20 + sum_bytes (packages parsed) + delta + 4 in
  if (u32_max <? new_total) || (u32_max <? new_blob_len) then Err AR_GrowthUnsupported
  else
    let pkg_off := blob_off + 20 + prefix in
    plan ← ok_or AR_GrowthUnsupported (plan_rsrc_blob_growth pe delta);
    r ← lift (write_grown pe plan pkg_off (pkg_off + old_len) blob_end grown new_blob_len new_total);
    if (snd r : bool) then mret (fst r, mapping) else Err AR_GrowthUnsupported.

Definition resource_error (e : AddStringsToResourceError) : HiiError :=
  match e with
  | AR_NotFound => HE_StringPackageNotFound
  | AR_GrowthUnsupported => HE_PeGrowthUnsupported
  | AR_IdExhausted next => HE_StringIdExhausted next
  end.

(** The GUID of the innermost file along a path. *)
Fixpoint owner_from (node : FfsNode) (path : list Z) (guid : option Guid) : option Guid :=
  match path with
  | [] => guid
  | i :: path => c ← child_at node i; owner_from c path (if is_file c then n_guid c else guid)
  end.
Definition owner_guid_by_path (root : FfsNode) (path : list Z) : option Guid := owner_from root path None.

(** The strings of a target: in the string package of its file, or in its own resource. *)
Definition add_target_strings (target : Target) (path : list Z) (bare_channel : bool)
  (strings : list ustring) : act (gmap ustring Z) :=
  if bare_channel then image ⇐ get_image; add_strings (owner_guid_by_path (root image) path) strings
  else edit_item target (fun b => map_err resource_error (add_strings_to_resource b strings)).

(** ** The first form package of a resource *)

(** The bytes of the package that is edited. *)
Definition question_forms_package (root : FfsNode) (target : Target) (bare_channel : bool)
  : outcome HiiError (list byte) :=
  node ← map_err (fun _ => HE_NotFound) (find_item root target);
  if bare_channel then mret (body node)
  else
    r ← lift (resource_forms_package (body node));
    r ← ok_or HE_NotASetupItem r;
    ok_or HE_InvalidIfr (get_range (body node) (fst r) (fst r + snd r)).

(** The place of the list, and its lengths with [added] bytes more. *)
Record ListGrowth := {
  lg_blob_end : Z;
  lg_blob_len : Z;
  lg_total : Z
}.
Definition list_growth (pe : list byte) (added : Z) : outcome HiiError ListGrowth :=
  loc ← ok_or HE_InvalidIfr (head (hii_entry_locations pe));
  let '(_, blob_off, blob_len) := loc : Z * Z * Z in
  blob_end ← ok_or HE_InvalidIfr (checked_add blob_off blob_len);
  blob ← ok_or HE_InvalidIfr (get_range pe blob_off blob_end);
  l ← lift (parse_package_list blob);
  l ← ok_or HE_InvalidIfr l;
  new_blob_len ← ok_or HE_PeGrowthUnsupported (checked_add blob_len added);
  let new_total := 20 + sum_bytes (packages l) + added + 4 in
  if (u32_max <? new_total) || (u32_max <? new_blob_len) then Err HE_PeGrowthUnsupported
  else mret {| lg_blob_end := blob_end; lg_blob_len := new_blob_len; lg_total := new_total |}.

(** ** Payloads of the AMI modules *)

Definition is_non_recompressable_wrapper (node : FfsNode) : bool :=
  is_section node && is_container node
  && negb match parsing_data node with
          | PD_GuidedSection d => is_recompressable_lzma_guid (gs_guid d)
          | _ => false
          end.

Definition is_pfs_payload (node : FfsNode) : bool :=
  is_section node && bool_decide (children node = []) && (20 <=? blen (body node))
  && contains (take (Z.to_nat 0x40) (body node)) SPF_CONTAINER_SIG.
Definition is_pe32_payload (node : FfsNode) : bool :=
  is_section node && bool_decide (children node = []) && has_subtype node EFI_SECTION_PE32.

(** The flag is set when a payload was skipped behind a wrapper. *)
Fixpoint walk_for_payload (node : FfsNode) (pred : FfsNode -> bool) (behind_bad_wrapper : bool)
  (path : list Z) (skipped : bool) : pure (option (list Z) * bool) :=
  find_child (fun i child skipped =>
    if pred child then
      if behind_bad_wrapper then mret (None, true) else mret (Some (path ++ [i]), skipped)
    else walk_for_payload child pred (behind_bad_wrapper || is_non_recompressable_wrapper child)
           (path ++ [i]) skipped) 0 (children node) skipped.

Definition find_payload_path (file : FfsNode) (pred : FfsNode -> bool) : outcome HiiError (list Z) :=
  r ← lift (walk_for_payload file pred false [] false);
  match r with
  | (Some p, _) => mret p
  | (None, true) => Err HE_MutationBehindCompression
  | (None, false) => Err HE_AmiFilesNotFound
  end.

Definition ascii_lower (c : Z) : Z := if (65 <=? c) && (c <=? 90) then c + 32 else c.
Definition eq_ignore_ascii_case (a b : ustring) : bool :=
  bool_decide (map ascii_lower a = map ascii_lower b).
Definition ui_name_matches (section_name hint : ustring) : bool :=
  eq_ignore_ascii_case section_name hint
  || (bool_decide (hint = us "setupdata") && eq_ignore_ascii_case section_name (us "AMITSESetupData")).
Definition ucs2_body_to_string (b : list byte) : ustring :=
  from_utf16_lossy (take_while (fun u => negb (u =? 0)) (utf16_units b)).

Fixpoint subtree_has_ui_name (node : FfsNode) (name : ustring) : bool :=
  (is_section node && has_subtype node EFI_SECTION_UI
   && ui_name_matches (ucs2_body_to_string (body node)) name)
  || existsb (fun c => subtree_has_ui_name c name) (children node).
Definition has_name_section (cs : list FfsNode) (name : ustring) : bool :=
  existsb (fun c => has_subtype c EFI_SECTION_UI
                    && ui_name_matches (ucs2_body_to_string (body c)) name) cs.
Definition has_question_id_markers (b : list byte) : bool :=
  (AMI_RECORD_SIZE <=? blen b) && (blen b mod AMI_RECORD_SIZE =? 0).

(** The files of the volumes with their positions, in order. *)
Definition volume_files (image : Image) : list (Z * Z * FfsNode) :=
  concat_children (fun vi vol => concat_children (fun fi file => [(vi, fi, file)]) 0 (children vol))
    0 (children (root image)).
Definition first_file (image : Image) (p : FfsNode -> bool) : option (Z * Z) :=
  r ← List.find (fun f => p (snd f)) (volume_files image); Some (fst r).

Definition find_ami_module (image : Image) (guid : option Guid) (name_hint : ustring)
  : outcome HiiError (Z * Z) :=
  match first_file image (fun f => match guid with Some _ => bool_decide (n_guid f = guid) | None => false end) with
  | Some r => mret r
  | None =>
      match first_file image (fun f => has_name_section (children f) name_hint) with
      | Some r => mret r
      | None => ok_or HE_AmiFilesNotFound (first_file image (fun f => has_question_id_markers (body f)))
      end
  end.

Definition payload_in (image : Image) (at_ : Z * Z) (pred : FfsNode -> bool) : outcome HiiError (list Z) :=
  file ← node_at (root image) [fst at_; snd at_];
  rel ← find_payload_path file pred;
  mret ([fst at_; snd at_] ++ rel).

Definition resolve_ami_payloads (image : Image) (setupdata_guid amitse_guid : option Guid)
  : outcome HiiError (list Z * list Z) :=
  sd ← find_ami_module image setupdata_guid (us "setupdata");
  am ← find_ami_module image amitse_guid (us "AMITSE");
  sd_path ← payload_in image sd is_pfs_payload;
  am_path ← payload_in image am is_pe32_payload;
  mret (sd_path, am_path).
Definition precheck_ami_modules (image : Image) (setupdata_guid amitse_guid : option Guid)
  : outcome HiiError unit :=
  _ ← resolve_ami_payloads image setupdata_guid amitse_guid; mret tt.
Definition pfs_payload_path (image : Image) (setupdata_guid : option Guid) : outcome HiiError (list Z) :=
  at_ ← find_ami_module image setupdata_guid (us "setupdata"); payload_in image at_ is_pfs_payload.

(** The payload of the first file that has one, among all files. *)
Fixpoint first_payload (fs : list (Z * Z * FfsNode)) (blocked : bool) : outcome HiiError (list Z) :=
  match fs with
  | [] => if blocked then Err HE_MutationBehindCompression else Err HE_AmiFilesNotFound
  | (vi, fi, file) :: fs =>
      match find_payload_path file is_pfs_payload with
      | Ok rel => mret ([vi; fi] ++ rel)
      | Err HE_MutationBehindCompression => first_payload fs true
      | Err _ => first_payload fs blocked
      | Panic => Panic
      | Diverge => Diverge
      end
  end.
Definition discover_pfs_payload_path (image : Image) : outcome HiiError (list Z) :=
  match first_file image (fun f => subtree_has_ui_name f (us "setupdata")) with
  | Some at_ => payload_in image at_ is_pfs_payload
  | None => first_payload (volume_files image) false
  end.

(** ** Patching the AMI modules *)

(** [body.windows(2).position(|w| w == marker)]. *)
Definition find_formset_marker_position (b marker : list byte) : option Z :=
  List.find (fun p => bool_decide (sub b p (p + 2) = marker)) (upto_n (blen b - 1)).

Definition ami_records (questions : list QuestionAmiRecord) (b : list byte) : pure (list byte) :=
  foldM (fun b q => r ← make_ami_record q; mret (b ++ r)) questions b.
Definition ami_form_ids (formset_guid : Guid) (form_ids : list Z) (b : list byte) : list byte :=
  let pos := default (blen b) (find_formset_marker_position b (sub (guid_to_bytes formset_guid) 12 14)) in
  take (Z.to_nat pos) b ++ concat (map (le_enc 2) form_ids) ++ drop (Z.to_nat pos) b.

Definition patch_ami (formset_guid : Guid) (form_ids : list Z) (questions : list QuestionAmiRecord)
  (setupdata_guid amitse_guid : option Guid) : act unit :=
  image ⇐ get_image;
  paths ⇐ act_of (resolve_ami_payloads image setupdata_guid amitse_guid);
  let '(sd_path, am_path) := paths : list Z * list Z in
  _ ⇐ edit_body sd_path (fun b => b ← lift (ami_records questions b); mret (b, tt));
  _ ⇐ mark sd_path;
  _ ⇐ edit_body am_path (fun b => mret (ami_form_ids formset_guid form_ids b, tt));
  mark am_path.

End Channels.
