(* ===== verification/SetupAdd.v ===== *)
(** Adding forms to an image: a whole form set ([hii/formset_add.rs]) as a new file next to
    the string package or as a package of a PE resource, and the forms of a schema to a form
    set that exists ([hii/form_add.rs]). *)
From stdpp Require Import gmap.
From S2P Require Import Prelude Text Types Ffs Tiano Codec Parser Target Ops Nvar NvarStores.
From S2P Require Import Hii Values Ifr Gates StringPack Schema FormsetAdd Spf PeResource.
From S2P Require Import ImageStrings ImageGates ImageValues Channels.

Section SetupAdd.
Context {GL : GuidLib} {RH : RefiHii} {OP : ObjectPe}.
(** The text of an error of the GUID parser. *)
Context (guid_error : ustring -> ustring).

(** ** The section that holds the strings of a form set in a PE resource *)

(** The flag is set when a candidate was skipped behind a wrapper. *)
Fixpoint walk_for_pe_resource_channel (node : FfsNode) (ffs_guid owner : option Guid)
  (behind_bad_wrapper : bool) (path : list Z) (skipped : bool) : pure (option (list Z) * bool) :=
  find_child (fun i child skipped =>
    let child_owner := if is_file child then n_guid child else owner in
    hit ← (if is_pe32_payload child
              && match ffs_guid with Some _ => bool_decide (owner = ffs_guid) | None => true end
           then pe_resource_has_string_package (body child) else mret false);
    if (hit : bool) then
      if behind_bad_wrapper then mret (None, true) else mret (Some (path ++ [i]), skipped)
    else walk_for_pe_resource_channel child ffs_guid child_owner
           (behind_bad_wrapper || is_non_recompressable_wrapper child) (path ++ [i]) skipped)
    0 (children node) skipped.

Definition pe_resource_channel_path (root : FfsNode) (ffs_guid : option Guid)
  : outcome HiiError (option (list Z)) :=
  found ← lift (walk_for_pe_resource_channel root ffs_guid None false [] false);
  match found with
  | (Some path, _) => mret (Some path)
  | (None, true) => Err HE_MutationBehindCompression
  | (None, false) => mret None
  end.

(** ** A form set *)

Record AddSetupResult := {
  as_new_ffs_guid : Guid;
  as_inserted_form_ids : list Z;
  as_string_ids : gmap ustring Z
}.

Definition ops_error_text (e : OpsError) : ustring :=
  match e with
  | NotFound => us "not found"
  | InvalidParent => us "invalid parent"
  | InvalidFfs => us "invalid FFS data"
  | MutationBehindCompression => us "mutation behind non-recompressable compression barrier"
  | ImmutableRegion => us "flash region is read-only"
  end.

Definition new_formset_guid (root : FfsNode) : outcome HiiError Guid :=
  n ← add32 0xB00B0000 (wrap 32 (blen (children root)));
  let text := upper_hex 8 n ++ us "-BEEF-1234-8000-000000000001" in
  ok_or (HE_IfrBuildError (guid_error text)) (guid_try_parse text).

(** A new file with the IFR and a copy of the string package, in the same volume. *)
Definition add_formset_file (schema : FormSetSchema) (target_ffs_guid : option Guid)
  (formset_guid : Guid) (strings : list ustring) (setupdata_guid amitse_guid : option Guid)
  (sp_path : list Z) (sp_vi : Z) : act AddSetupResult :=
  let '(form_ids, questions) := extract_form_ids_and_questions schema in
  image ⇐ get_image;
  _ ⇐ act_of (precheck_ami_modules image setupdata_guid amitse_guid);
  string_ids ⇐ add_strings target_ffs_guid strings;
  ifr_bytes ⇐ act_of (build_ifr guid_error schema string_ids);
  image ⇐ get_image;
  strpkg ⇐ act_of (node_at (root image) sp_path);
  new_ffs_guid ⇐ act_of (new_formset_guid (root image));
  ffs_bytes ⇐ act_of (lift (assemble_ffs ifr_bytes (body strpkg) new_ffs_guid));
  _ ⇐ patch_ami formset_guid form_ids questions setupdata_guid amitse_guid;
  image ⇐ get_image;
  r ⇐ act_of (map_err (fun e => HE_FfsAssemblyError (ops_error_text e))
                (insert (root image) (TG_Path [sp_vi]) ffs_bytes Into));
  _ ⇐ set_root r;
  act_ret {| as_new_ffs_guid := new_ffs_guid; as_inserted_form_ids := form_ids;
             as_string_ids := string_ids |}.

(** The form package appended to the list of a PE resource. *)
Definition append_form_package (ifr_bytes b : list byte) : outcome HiiError (list byte * bool) :=
  lift (append_package_to_resource b (form_package ifr_bytes)).
Definition add_formset_package (schema : FormSetSchema) (formset_guid : Guid) (strings : list ustring)
  (setupdata_guid amitse_guid : option Guid) (pe_path : list Z) : act AddSetupResult :=
  let '(form_ids, questions) := extract_form_ids_and_questions schema in
  image ⇐ get_image;
  _ ⇐ act_of (precheck_ami_modules image setupdata_guid amitse_guid);
  string_ids ⇐ edit_body pe_path (fun b => map_err resource_error (add_strings_to_resource b strings));
  ifr_bytes ⇐ act_of (build_ifr guid_error schema string_ids);
  appended ⇐ edit_body pe_path (append_form_package ifr_bytes);
  if (appended : bool) then
    _ ⇐ patch_ami formset_guid form_ids questions setupdata_guid amitse_guid;
    _ ⇐ mark pe_path;
    act_ret {| as_new_ffs_guid := formset_guid; as_inserted_form_ids := form_ids;
               as_string_ids := string_ids |}
  else act_err HE_PeGrowthUnsupported.

Definition add_setup_formset (schema : FormSetSchema) (target_ffs_guid : option Guid)
  : act AddSetupResult :=
  formset_guid ⇐ act_of (parse_schema_guid guid_error (fss_formset_guid schema));
  let strings := formset_strings schema in
  let setupdata_guid := fss_setupdata_guid schema ≫= guid_try_parse in
  let amitse_guid := fss_amitse_guid schema ≫= guid_try_parse in
  image ⇐ get_image;
  sp_path ⇐ act_of (lift (string_package_section_path (root image) target_ffs_guid));
  match sp_path with
  | Some ([sp_vi; _; _] as p) =>
      add_formset_file schema target_ffs_guid formset_guid strings setupdata_guid amitse_guid p sp_vi
  | _ =>
      pe_path ⇐ act_of (pe_resource_channel_path (root image) target_ffs_guid);
      match pe_path with
      | None => act_err HE_StringPackageNotFound
      | Some pe_path =>
          add_formset_package schema formset_guid strings setupdata_guid amitse_guid pe_path
      end
  end.

(** ** The forms of a schema *)

Record AddFormResult := {
  af_inserted_form_ids : list Z;
  af_string_ids : gmap ustring Z
}.

Definition already_exists (id : Z) : HiiError :=
  HE_InvalidSchema (us "varstore id " ++ fmt_hex id ++ us " already exists in the formset").
Definition not_declared (id : Z) : HiiError :=
  HE_InvalidSchema (us "var store id " ++ fmt_hex id
    ++ us " is not declared (add it to schema varstores)").
Definition declared (stores : list VarStoreMap) (id : Z) : bool := existsb (fun m => vs_id m =? id) stores.

Definition check_new_store (existing : list VarStoreMap) (seen : list Z) (vs : VarStoreSchema)
  : outcome HiiError (list Z) :=
  if declared existing (vss_id vs) || bool_decide (vss_id vs ∈ seen)
  then Err (already_exists (vss_id vs)) else mret (seen ++ [vss_id vs]).
Definition check_item_store (existing : list VarStoreMap) (seen : list Z) (_ : unit) (item : ItemSchema)
  : outcome HiiError unit :=
  match item_var_store_id item with
  | None => mret tt
  | Some id =>
      if negb (id =? 0) && negb (bool_decide (id ∈ seen)) && negb (declared existing id)
      then Err (not_declared id) else mret tt
  end.

Definition validate_form_varstores (image : Image) (target : Target) (bare_channel : bool)
  (formset_idx : Z) (schema : FormSetSchema) : outcome HiiError unit :=
  pkg ← question_forms_package (root image) target bare_channel;
  existing ← lift (varstore_map_formset pkg formset_idx);
  existing ← ok_or HE_InvalidIfr existing;
  seen ← foldM (check_new_store existing) (fss_varstores schema) [];
  foldM (fun u form => foldM (check_item_store existing seen) (fs_items form) u) (fss_forms schema) tt.

(** The record of the question at its offset in the package. *)
Definition spf_record_resolves (pkg : list byte) (question_id ifr_offset : Z) : pure bool :=
  if ifr_offset + 8 <=? blen pkg then
    op ← index pkg ifr_offset;
    if is_question_op op then id ← u16_in pkg (ifr_offset + 6); mret (id =? question_id) else mret false
  else mret false.
Definition select_resolving_records (records : list SpfQuestionRecord) (pkg : list byte)
  : pure (list Z) :=
  foldM (fun out r =>
    hit ← spf_record_resolves pkg (qr_question_id r) (qr_ifr_offset r);
    mret (if (hit : bool) then out ++ [qr_offset r] else out)) records [].

Record SpfFixup := {
  fx_path : list Z;
  fx_after_header : Z;
  fx_formset_end : Z;
  fx_selected : list Z
}.
Definition form_spf_fixup (image : Image) (target : Target) (bare_channel : bool) (formset_idx : Z)
  (varstores : list byte) : outcome HiiError (option SpfFixup) :=
  match varstores with
  | [] => mret None
  | _ =>
      pkg_pre ← question_forms_package (root image) target bare_channel;
      points ← lift (formset_insert_points pkg_pre formset_idx);
      points ← ok_or HE_InvalidIfr points;
      match discover_pfs_payload_path image with
      | Ok sd_path =>
          node ← node_at (root image) sd_path;
          records ← lift (scan_question_records (body node));
          selected ← lift (select_resolving_records records pkg_pre);
          mret (Some {| fx_path := sd_path; fx_after_header := wrap 32 (fst points);
                        fx_formset_end := wrap 32 (snd points); fx_selected := selected |})
      | Err HE_AmiFilesNotFound => mret None
      | Err e => Err e
      | Panic => Panic
      | Diverge => Diverge
      end
  end.

Definition insert_form_into_resource (pe : list byte) (formset_idx : Z) (form_ifr varstores : list byte)
  : outcome HiiError (list byte * unit) :=
  r ← lift (resource_forms_package pe);
  r ← ok_or HE_InvalidIfr r;
  let '(pkg_off, old_len) := r : Z * Z in
  pkg ← slice pe pkg_off (pkg_off + old_len);
  pb ← lift (insert_form_into_package pkg formset_idx form_ifr varstores);
  let '(pkg, ok) := pb : list byte * bool in
  if negb ok then Err HE_InvalidIfr
  else
    delta ← usub (blen pkg) old_len;
    g ← list_growth pe delta;
    plan ← ok_or HE_PeGrowthUnsupported (plan_rsrc_blob_growth pe delta);
    w ← lift (write_grown pe plan pkg_off (pkg_off + old_len) (lg_blob_end g) pkg (lg_blob_len g) (lg_total g));
    if (snd w : bool) then mret (fst w, tt) else Err HE_PeGrowthUnsupported.
Definition insert_form_bare (formset_idx : Z) (form_ifr varstores b : list byte)
  : outcome HiiError (list byte * unit) :=
  pb ← lift (insert_form_into_package b formset_idx form_ifr varstores);
  let '(b, ok) := pb : list byte * bool in
  if ok then mret (b, tt) else Err HE_InvalidIfr.

(** The channel of the section: a bare form package, or the resource of a PE image. *)
Definition form_channel (node : FfsNode) (formset_idx : Z) : outcome HiiError bool :=
  if negb (is_section node) then Err HE_NotASetupItem
  else if has_subtype node EFI_SECTION_RAW && is_form_package (body node) then
    ok ← lift (formset_at (body node) formset_idx);
    if (ok : bool) then mret true else Err HE_NotFound
  else if has_subtype node EFI_SECTION_PE32 then
    r ← lift (resource_forms_package (body node));
    match r with
    | None => Err HE_NotASetupItem
    | Some (off, len) =>
        match get_range (body node) off (off + len) with
        | None => Err HE_NotFound
        | Some pkg =>
            ok ← lift (formset_at pkg formset_idx);
            if (ok : bool) then mret false else Err HE_NotFound
        end
    end
  else Err HE_NotASetupItem.

(** The ancestors of a path that is not empty. *)
Definition check_path (image : Image) (path : list Z) : outcome HiiError unit :=
  n ← usub (blen path) 1; check_ancestors (root image) (take (Z.to_nat n) path).

Definition form_strings (schema : FormSetSchema) : list ustring :=
  fold_left collect_form_strings (fss_forms schema) (map vss_name (fss_varstores schema)).

(** The offsets of the records behind the two insertions. *)
Definition shift_form_records (fx : SpfFixup) (form_len stores_len : Z) (b : list byte)
  : outcome HiiError (list byte * unit) :=
  r ← lift (fixup_selected_record_ifr_offsets b (fx_selected fx) (fx_formset_end fx) (wrap 32 form_len));
  r ← lift (fixup_selected_record_ifr_offsets (fst r) (fx_selected fx) (fx_after_header fx) (wrap 32 stores_len));
  mret (fst r, tt).

Definition add_form (item_id : ustring) (schema : FormSetSchema) : act AddFormResult :=
  image ⇐ get_image;
  if negb (bool_decide (mode image = IM_Write)) then act_err HE_NotWritable
  else
    ti ⇐ act_of (formset_target item_id);
    let '(target, formset_idx) := ti : Target * Z in
    path ⇐ act_of (ok_or HE_NotFound (find_item_path (root image) target));
    _ ⇐ act_of (check_path image path);
    node ⇐ act_of (map_err (fun _ => HE_NotFound) (find_item (root image) target));
    bare_channel ⇐ act_of (form_channel node formset_idx);
    _ ⇐ act_of (validate_form_varstores image target bare_channel formset_idx schema);
    varstores ⇐ act_of (build_varstores guid_error schema);
    spf_fixup ⇐ act_of (form_spf_fixup image target bare_channel formset_idx varstores);
    string_ids ⇐ add_target_strings target path bare_channel (form_strings schema);
    form_ifr ⇐ act_of (lift (emit_forms new_builder schema string_ids));
    _ ⇐ edit_item target (if (bare_channel : bool) then insert_form_bare formset_idx form_ifr varstores
                           else fun b => insert_form_into_resource b formset_idx form_ifr varstores);
    _ ⇐ match spf_fixup with
        | Some fx =>
            _ ⇐ edit_body (fx_path fx) (shift_form_records fx (blen form_ifr) (blen varstores));
            mark (fx_path fx)
        | None => act_ret tt
        end;
    _ ⇐ mark path;
    act_ret {| af_inserted_form_ids := map fs_id (fss_forms schema); af_string_ids := string_ids |}.

End SetupAdd.
