(* ===== verification/QuestionAdd.v ===== *)
(** Adding questions, references, variable stores and pages to the setup of an image
    ([hii/mod.rs]): the checks of a whole request, and the operations, which edit the
    strings, the form package and the records of the [$SPF] container together. *)
From stdpp Require Import gmap sorting.
From S2P Require Import Prelude Text Types Ffs Tiano Codec Parser Target Ops Nvar NvarStores.
From S2P Require Import Hii Values Ifr Gates StringPack Schema FormsetAdd Spf PeResource.
From S2P Require Import ImageStrings ImageGates ImageValues Channels SetupAdd.

(** [dedup] of a vector: equal neighbours are merged. *)
Section Dedup.
Context {A : Type} `{EqDecision A}.
Fixpoint dedup (l : list A) : list A :=
  match l with
  | a :: ((b :: _) as l') => if decide (a = b) then dedup l' else a :: dedup l'
  | _ => l
  end.
End Dedup.

(** The order of strings. *)
Fixpoint ustr_leb (a b : ustring) : bool :=
  match a, b with
  | [], _ => true
  | _, [] => false
  | x :: a, y :: b => (x <? y) || ((x =? y) && ustr_leb a b)
  end.
Definition ustr_le (a b : ustring) : Prop := ustr_leb a b = true.
#[export] Instance ustr_le_dec : RelDecision ustr_le.
Proof. intros a b. unfold ustr_le. apply _. Defined.

Section QuestionAdd.
Context {GL : GuidLib} {RH : RefiHii} {OP : ObjectPe}.

(** ** The schema of a question *)

Definition invalid {A} (s : ustring) : outcome HiiError A := Err (HE_InvalidSchema s).

Definition has_default (class : DefaultClass) (o : QuestionAddOption) : bool :=
  match qo_default o, class with
  | Some DC_Optimized, DC_Optimized | Some DC_Failsafe, DC_Failsafe => true
  | _, _ => false
  end.
Definition marked (schema : QuestionAddSchema) (class : DefaultClass) : Z :=
  blen (List.filter (has_default class) (qa_options schema)).
Definition check_option_value (_ : unit) (o : QuestionAddOption) : outcome HiiError unit :=
  if 0xFF <? qo_value o
  then invalid (us "option value " ++ fmt_hex (qo_value o) ++ us " does not fit one_of u8 semantics")
  else mret tt.

(** The optimized and the failsafe value. *)
Definition validate_question_add (schema : QuestionAddSchema) : outcome HiiError (option Z * option Z) :=
  if negb (qa_size schema =? 1) then
    invalid (us "size " ++ dec_string (qa_size schema) ++ us " violates one_of u8 semantics (must be 1)")
  else if bool_decide (length (qa_options schema) = 0%nat) then invalid (us "options must not be empty")
  else
    _ ← foldM check_option_value (qa_options schema) tt;
    if 1 <? marked schema DC_Optimized then
      invalid ((us "only one option may carry default ") ++ [34] ++ us "optimized" ++ [34])
    else if 1 <? marked schema DC_Failsafe then
      invalid ((us "only one option may carry default ") ++ [34] ++ us "failsafe" ++ [34])
    else
      optimized ← match List.find (has_default DC_Optimized) (qa_options schema), qa_defaults schema with
                  | Some o, Some d =>
                      if negb (qo_value o =? qd_optimized d) then
                        invalid (us "defaults.optimized " ++ dec_string (qd_optimized d)
                          ++ us " disagrees with the option marked optimized ("
                          ++ dec_string (qo_value o) ++ us ")")
                      else mret (Some (qo_value o))
                  | Some o, None => mret (Some (qo_value o))
                  | None, Some d => mret (Some (qd_optimized d))
                  | None, None => mret None
                  end;
      if match optimized with
         | Some v => negb (existsb (fun o => qo_value o =? v) (qa_options schema))
         | None => false
         end
      then invalid (us "optimized default " ++ dec_string (default 0 optimized)
             ++ us " is not among option values")
      else mret (optimized, qo_value <$> List.find (has_default DC_Failsafe) (qa_options schema)).

Definition insert_pos_of (ib : option InsertBefore) : outcome HiiError InsertPos :=
  match ib with
  | None => mret IP_End
  | Some a =>
      match ib_goto_form_id a, ib_question_id a with
      | Some f, None => mret (IP_BeforeGoto f)
      | None, Some q => mret (IP_BeforeQuestion q)
      | _, _ => invalid (us "insert_before: exactly one of goto_form_id/question_id is required")
      end
  end.

(** ** Opcodes *)

Definition emit_add_option (string_id_of : ustring -> option Z) (b : IfrBuilder) (o : QuestionAddOption)
  : outcome HiiError IfrBuilder :=
  text_id ← ok_or HE_InvalidIfr (string_id_of (qo_text o));
  mret (emit_one_of_option b text_id (option_flags (qo_default o)) IFR_TYPE_NUM_SIZE_8 (qo_value o) 1).
Definition build_question_ops (schema : QuestionAddSchema) (prompt_id help_id : Z)
  (string_id_of : ustring -> option Z) (optimized : option Z) : outcome HiiError (list byte) :=
  b ← lift (emit_one_of new_builder prompt_id help_id (qa_question_id schema) (qa_var_store_id schema)
              (qa_var_offset schema) 0 1);
  b ← foldM (emit_add_option string_id_of) (qa_options schema) b;
  let b := match optimized with
           | Some v => emit_default b DEFAULT_ID_STANDARD IFR_TYPE_NUM_SIZE_8 v 1
           | None => b
           end in
  mret (emit_end b).

Definition build_ref_ops (schema : QuestionAddRefSchema) (prompt_id help_id : Z)
  : outcome HiiError (list byte) :=
  match ra_formset_guid schema with
  | None => mret (emit_ref new_builder prompt_id help_id (ra_question_id schema) 0 0xFFFF (ra_form_id schema))
  | Some gs =>
      g ← ok_or (HE_InvalidSchema (us "formset_guid '" ++ gs ++ us "' is not a GUID")) (guid_try_parse gs);
      mret (emit_ref3 new_builder prompt_id help_id (ra_question_id schema) (ra_form_id schema) g)
  end.

(** ** Splices into the form package of a resource *)

Record RsrcSpliceCheck := {
  rc_pkg_off : Z;
  rc_old_len : Z;
  rc_growth : ListGrowth
}.

(** The first form package of a resource. *)
Definition resource_package (pe : list byte) : outcome HiiError (Z * Z * list byte) :=
  r ← lift (resource_forms_package pe);
  r ← ok_or HE_NotASetupItem r;
  pkg ← ok_or HE_InvalidIfr (get_range pe (fst r) (fst r + snd r));
  mret (fst r, snd r, pkg).
(** The growth of the list when the resource section can grow with it. *)
Definition checked_growth (pe : list byte) (added : Z) : outcome HiiError (ListGrowth * RsrcBlobGrowthPlan) :=
  g ← list_growth pe added;
  plan ← ok_or HE_PeGrowthUnsupported (plan_rsrc_blob_growth pe added);
  if (0 <? bg_grow plan) && negb (can_grow_rsrc_tail pe (bg_grow plan)) then Err HE_PeGrowthUnsupported
  else mret (g, plan).

Definition check_rsrc_question_splice (pe : list byte) (formset_idx form_id : Z) (pos : InsertPos)
  (ops_len : Z) : outcome HiiError RsrcSpliceCheck :=
  p ← resource_package pe;
  let '(pkg_off, old_len, pkg) := p : Z * Z * list byte in
  _ ← locate_insert_at pkg formset_idx form_id pos;
  g ← checked_growth pe ops_len;
  mret {| rc_pkg_off := pkg_off; rc_old_len := old_len; rc_growth := fst g |}.

(** The edited package in its place. *)
Definition put_package (pe : list byte) (plan : RsrcBlobGrowthPlan) (pkg_off old_len : Z) (g : ListGrowth)
  (pkg : list byte) : outcome HiiError (list byte) :=
  w ← lift (write_grown pe plan pkg_off (pkg_off + old_len) (lg_blob_end g) pkg (lg_blob_len g) (lg_total g));
  if (snd w : bool) then mret (fst w) else Err HE_PeGrowthUnsupported.

Definition splice_question_ops_into_resource (pe : list byte) (formset_idx form_id : Z) (pos : InsertPos)
  (ops : list byte) : outcome HiiError (list byte * (Z * Z)) :=
  chk ← check_rsrc_question_splice pe formset_idx form_id pos (blen ops);
  pkg ← slice pe (rc_pkg_off chk) (rc_pkg_off chk + rc_old_len chk);
  pr ← splice_question_ops pkg formset_idx form_id pos ops;
  let '(pkg, res) := pr : list byte * (Z * Z) in
  delta ← usub (blen pkg) (rc_old_len chk);
  plan ← ok_or HE_PeGrowthUnsupported (plan_rsrc_blob_growth pe delta);
  pe ← put_package pe plan (rc_pkg_off chk) (rc_old_len chk) (rc_growth chk) pkg;
  mret (pe, res).

Definition splice_varstore_ops_into_resource (pe ops : list byte) (formset_idx : Z)
  : outcome HiiError (list byte * (Z * Z)) :=
  p ← resource_package pe;
  let '(pkg_off, old_len, pkg) := p : Z * Z * list byte in
  prelude ← lift (locate_formset_prelude_end pkg formset_idx);
  _ ← ok_or HE_NotFound prelude;
  g ← checked_growth pe (blen ops);
  pr ← splice_varstore_ops pkg ops formset_idx;
  let '(pkg, res) := pr : list byte * (Z * Z) in
  pe ← put_package pe (snd g) pkg_off old_len (fst g) pkg;
  mret (pe, res).

(** ** Plans for the records of the container *)

Record SpfAppendPlan := {
  sa_page_slot : Z;
  sa_page_offset : Z;
  sa_record_template : Z;
  sa_ctrl_template : option Z;
  sa_counter : Z;
  sa_selected_records : list Z
}.

Definition record_counter (b : list byte) (offset : Z) : pure Z :=
  c ← slice b (offset + SPF_RECORD_COUNTER_OFFSET) (offset + SPF_RECORD_COUNTER_OFFSET + 4);
  mret (le_dec c).

Definition plan_spf_fixup (b pkg : list byte) : outcome HiiError (list Z) :=
  _ ← ok_or HE_NotFound (container_start b);
  records ← lift (scan_question_records b);
  lift (select_resolving_records records pkg).

(** The first slot of the page table with a page of the form: slot and offset of the page.
    The table ends with its count or with the buffer. *)
Definition page_step (b : list byte) (base count form_id : Z) (slot : Z)
  : pure (Z + option (Z * Z)) :=
  if slot <? count then
    let at_ := base + SPF_PAGE_TABLE_OFFSET + 4 * slot in
    match get_range b at_ (at_ + 4) with
    | None => mret (inr None)
    | Some s =>
        let off := le_dec s in
        let fid_at := base + off + SPF_PAGE_FORM_ID_OFFSET in
        if off =? 0 then mret (inl (slot + 1))
        else if bool_decide (le_dec <$> get_range b fid_at (fid_at + 2) = Some form_id)
        then mret (inr (Some (slot, off))) else mret (inl (slot + 1))
    end
  else mret (inr None).
Definition find_page (b : list byte) (base count form_id : Z) : pure (option (Z * Z)) :=
  loop (length b + 1) (page_step b base count form_id) 0.
Definition page_count_at (b : list byte) (base : Z) : outcome HiiError Z :=
  c ← ok_or HE_NotFound (get_range b (base + SPF_PAGE_COUNT_OFFSET) (base + SPF_PAGE_COUNT_OFFSET + 4));
  mret (le_dec c).

(** [x.offset - base] of an entry that was found. *)
Definition relative {E} (base : Z) (o : option Z) : outcome E (option Z) :=
  match o with Some off => r ← usub off base; mret (Some r) | None => mret None end.

Definition plan_spf_append (b pkg : list byte) (form_start form_end form_id : Z)
  : outcome HiiError SpfAppendPlan :=
  base ← ok_or HE_NotFound (container_start b);
  records ← lift (scan_question_records b);
  first ← ok_or HE_NotFound (head records);
  let template := default first (List.find (fun r => (form_start <=? qr_ifr_offset r)
                                                     && (qr_ifr_offset r <? form_end)) records) in
  max_low ← lift (foldM (fun m r => c ← record_counter b (qr_offset r); mret (Z.max m (Z.land c 0xFFFF)))
                    records 0);
  let counter := Z.lor (Z.shiftl 1 16) (1 + max_low) in
  selected ← lift (select_resolving_records records pkg);
  page_count ← page_count_at b base;
  page ← lift (find_page b base page_count form_id);
  page ← ok_or HE_NotFound page;
  controls ← lift (scan_string_controls b);
  let control := match List.find (fun c => base + snd page <=? sc_offset c) controls with
                 | Some c => Some c
                 | None => head controls
                 end in
  ctrl_template ← relative base (sc_offset <$> control);
  record_template ← usub (qr_offset template) base;
  mret {| sa_page_slot := fst page; sa_page_offset := snd page; sa_record_template := record_template;
          sa_ctrl_template := ctrl_template; sa_counter := counter; sa_selected_records := selected |}.

(** The container after the question was added, and the offset of its record. *)
Definition apply_spf_question (plan : SpfAppendPlan) (schema : QuestionAddSchema)
  (prompt_id help_id insert_at delta : Z) (optimized failsafe : option Z) (b : list byte)
  : outcome HiiError (list byte * Z) :=
  lift (f ← fixup_selected_record_ifr_offsets b (sa_selected_records plan) insert_at delta;
        let as_u8 v := z2b (wrap 8 (default 0 v)) in
        r ← append_question_record (fst f) (sa_record_template plan) (qa_question_id schema) help_id prompt_id
              insert_at (sa_counter plan) (as_u8 failsafe) (as_u8 optimized);
        let '(b, rec_off) := r : list byte * Z in
        ctrl ← unwrap (sa_ctrl_template plan);
        c ← append_string_control b ctrl help_id;
        p ← clone_page_with_controls (fst c) (sa_page_offset plan) [wrap 32 rec_off];
        b ← repoint_page_slot (fst p) (sa_page_slot plan) (wrap 32 (snd p));
        base ← unwrap (container_start b);
        b ← bump_container_length b (blen b - base);
        mret (b, rec_off)).

(** ** The target of an addition *)

Record QuestionTarget := {
  qt_target : Target;
  qt_form_id : Z;
  qt_bare_channel : bool;
  qt_formset_idx : Z;
  qt_pkg : list byte;
  qt_span : HijackFormSpan
}.

(** A bare form package, or a PE image whose resource has one. *)
Definition question_channel (node : FfsNode) : outcome HiiError bool :=
  if negb (is_section node) then Err HE_NotASetupItem
  else if has_subtype node EFI_SECTION_RAW && is_form_package (body node) then mret true
  else if has_subtype node EFI_SECTION_PE32 then
    r ← lift (resource_forms_package (body node));
    match r with Some _ => mret false | None => Err HE_NotASetupItem end
  else Err HE_NotASetupItem.

Definition resolve_question_target (image : Image) (item_id : ustring) : outcome HiiError QuestionTarget :=
  tfq ← parse_item_id item_id;
  let '(target, form_id, question_id) := tfq : Target * Z * option Z in
  match question_id with
  | Some _ => Err HE_NotFound
  | None =>
      node ← map_err (fun _ => HE_NotFound) (find_item (root image) target);
      bare_channel ← question_channel node;
      pkg ← question_forms_package (root image) target bare_channel;
      a ← lift (locate_form_attribution pkg form_id);
      a ← ok_or HE_NotFound a;
      mret {| qt_target := target; qt_form_id := form_id; qt_bare_channel := bare_channel;
              qt_formset_idx := fst a; qt_pkg := pkg; qt_span := snd a |}
  end.

(** ** Collisions *)

Definition exists_already (id : Z) : ustring :=
  us "question id " ++ fmt_hex id ++ us " already exists in the formset".
Definition duplicates (id : Z) : ustring :=
  us "question id " ++ fmt_hex id ++ us " duplicates an earlier question in the same request".

Definition check_slot (schema : QuestionAddSchema) (_ : unit) (s : QuestionSlot) : outcome HiiError unit :=
  let n_start := qa_var_offset schema in
  let n_end := n_start + qa_size schema in
  let width := if qs_width s =? 0 then 1 else qs_width s in
  let s_start := qs_var_offset s in
  if (qs_var_store_id s =? qa_var_store_id schema) && (n_start <? s_start + width) && (s_start <? n_end)
  then invalid (us "var_offset " ++ fmt_hex (qa_var_offset schema) ++ us " overlaps question "
         ++ fmt_hex (qs_question_id s) ++ us " at var_offset " ++ fmt_hex (qs_var_offset s)
         ++ us " in var store " ++ dec_string (qa_var_store_id schema))
  else mret tt.
(** The questions of the request before this one: identifier, store, start and end. *)
Definition check_pending (schema : QuestionAddSchema) (_ : unit) (p : Z * Z * Z * Z)
  : outcome HiiError unit :=
  let '(qid, vsid, s_start, s_end) := p in
  let n_start := qa_var_offset schema in
  if qid =? qa_question_id schema then invalid (duplicates (qa_question_id schema))
  else if (vsid =? qa_var_store_id schema) && (n_start <? s_end) && (s_start <? n_start + qa_size schema)
  then invalid (us "var_offset " ++ fmt_hex (qa_var_offset schema) ++ us " overlaps question "
         ++ fmt_hex qid ++ us " in the same request")
  else mret tt.

Definition check_question_slots (schema : QuestionAddSchema) (pkg : list byte) (formset_idx : Z)
  (pending : list (Z * Z * Z * Z)) (extra_varstores : list VarStoreSchema) : outcome HiiError unit :=
  slots ← lift (scan_question_slots pkg);
  if existsb (fun s => qs_question_id s =? qa_question_id schema) slots
  then invalid (exists_already (qa_question_id schema))
  else
    _ ← foldM (check_slot schema) slots tt;
    _ ← foldM (check_pending schema) pending tt;
    stores ← lift (varstore_map_formset pkg formset_idx);
    stores ← ok_or HE_InvalidIfr stores;
    let size := match List.find (fun v => vs_id v =? qa_var_store_id schema) stores with
                | Some v => Some (vs_size v)
                | None => vss_size <$> List.find (fun v => vss_id v =? qa_var_store_id schema) extra_varstores
                end in
    declared_size ← ok_or (HE_InvalidSchema (us "var store " ++ dec_string (qa_var_store_id schema)
                             ++ us " is not declared in the formset")) size;
    if declared_size <? qa_var_offset schema + qa_size schema
    then invalid (us "var_offset " ++ fmt_hex (qa_var_offset schema) ++ us " + size "
           ++ dec_string (qa_size schema) ++ us " exceeds var store size " ++ fmt_hex declared_size)
    else mret tt.

Definition check_ref_slots (schema : QuestionAddRefSchema) (pkg : list byte) (pending_qids : list Z)
  : outcome HiiError unit :=
  slots ← lift (scan_question_slots pkg);
  let id := ra_question_id schema in
  if negb (id =? 0) && existsb (fun s => qs_question_id s =? id) slots then invalid (exists_already id)
  else if negb (id =? 0) && bool_decide (id ∈ pending_qids) then invalid (duplicates id)
  else mret tt.

(** ** The target of a reference *)

Definition sorted_ids (ids : list Z) : ustring := join (us ", ") (map dec_string (dedup (merge_sort Z.le ids))).
Definition malformed : HiiError := HE_InvalidSchema (us "owning form package malformed").

Definition validate_ref_target (image : Image) (qt : QuestionTarget) (schema : QuestionAddRefSchema)
  : outcome HiiError unit :=
  match ra_formset_guid schema with
  | None =>
      sets ← lift (parse_form_package_sets (qt_pkg qt));
      sets ← ok_or malformed sets;
      fs ← ok_or malformed (snd <$> get sets (qt_formset_idx qt));
      if existsb (fun f => rf_form_id f =? ra_form_id schema) (fi_forms fs) then mret tt
      else invalid (us "ref target form " ++ dec_string (ra_form_id schema)
             ++ us " not declared in owning formset " ++ guid_to_upper_string (fi_guid fs)
             ++ us " (have: " ++ sorted_ids (map rf_form_id (fi_forms fs)) ++ us ")")
  | Some gs =>
      g ← ok_or (HE_InvalidSchema (us "formset_guid '" ++ gs ++ us "' is not a GUID")) (guid_try_parse gs);
      let want := guid_to_upper_string g in
      all ← lift (collect_forms image);
      match List.filter (fun f => bool_decide (fo_formset_guid f = want)) all with
      | [] =>
          invalid (us "ref target formset " ++ want ++ us " not found in image (have: "
            ++ join (us ", ") (dedup (merge_sort ustr_le (map fo_formset_guid all))) ++ us ")")
      | in_set =>
          if existsb (fun f => fo_form_id_ifr f =? ra_form_id schema) in_set then mret tt
          else invalid (us "ref target form " ++ dec_string (ra_form_id schema) ++ us " not found in formset "
                 ++ want ++ us " (have: " ++ sorted_ids (map fo_form_id_ifr in_set) ++ us ")")
      end
  end.

(** ** The check before anything is written *)

Definition preflight_question_splice (image : Image) (qt : QuestionTarget) (pos : InsertPos)
  (ops_len : Z) (strings : list ustring) : outcome HiiError unit :=
  node ← map_err (fun _ => HE_NotFound) (find_item (root image) (qt_target qt));
  if qt_bare_channel qt then
    _ ← locate_insert_at (body node) (qt_formset_idx qt) (qt_form_id qt) pos; mret tt
  else
    post_strings ← map_err resource_error (add_strings_to_resource (body node) strings);
    _ ← check_rsrc_question_splice (fst post_strings) (qt_formset_idx qt) (qt_form_id qt) pos ops_len;
    mret tt.

(** The splice in the channel of the target. *)
Definition splice_into_target (qt : QuestionTarget) (pos : InsertPos) (ops : list byte) : act (Z * Z) :=
  edit_item (qt_target qt) (fun b =>
    if qt_bare_channel qt then splice_question_ops b (qt_formset_idx qt) (qt_form_id qt) pos ops
    else splice_question_ops_into_resource b (qt_formset_idx qt) (qt_form_id qt) pos ops).

Definition target_plan (image : Image) (sd_path : list Z) (qt : QuestionTarget)
  : outcome HiiError SpfAppendPlan :=
  node ← node_at (root image) sd_path;
  plan_spf_append (body node) (qt_pkg qt) (wrap 32 (hs_form_op (qt_span qt)))
    (wrap 32 (hs_next_form_op (qt_span qt))) (qt_form_id qt).

Definition form_mismatch (schema : QuestionAddSchema) (qt : QuestionTarget) : HiiError :=
  HE_InvalidSchema (us "schema form_id " ++ dec_string (qa_form_id schema)
    ++ us " does not match target form " ++ dec_string (qt_form_id qt)).

Definition question_strings (schema : QuestionAddSchema) : list ustring :=
  dedup ([qa_prompt schema; qa_help schema] ++ map qo_text (qa_options schema)).

(** The size of the opcodes is that of the opcodes with all identifiers 0. *)
Definition preflight_question (image : Image) (qt : QuestionTarget) (schema : QuestionAddSchema)
  (pos : InsertPos) (optimized : option Z) : outcome HiiError unit :=
  ops ← build_question_ops schema 0 0 (fun _ => Some 0) optimized;
  preflight_question_splice image qt pos (blen ops) (question_strings schema).
Definition ref_strings (schema : QuestionAddRefSchema) : list ustring := dedup [ra_prompt schema; ra_help schema].
Definition preflight_ref (image : Image) (qt : QuestionTarget) (schema : QuestionAddRefSchema)
  (pos : InsertPos) : outcome HiiError unit :=
  ops ← build_ref_ops schema 0 0;
  preflight_question_splice image qt pos (blen ops) (ref_strings schema).

(** ** Questions *)

Record AddQuestionResult := {
  aq_question_id : Z;
  aq_string_ids : gmap ustring Z;
  aq_spf_record_offset : Z
}.

Definition add_question (item_id : ustring) (schema : QuestionAddSchema) : act AddQuestionResult :=
  image ⇐ get_image;
  if negb (bool_decide (mode image = IM_Write)) then act_err HE_NotWritable
  else
    qt ⇐ act_of (resolve_question_target image item_id);
    pos ⇐ act_of (insert_pos_of (qa_insert_before schema));
    if negb (qa_form_id schema =? qt_form_id qt) then act_err (form_mismatch schema qt)
    else
      of_ ⇐ act_of (validate_question_add schema);
      let '(optimized, failsafe) := of_ : option Z * option Z in
      path ⇐ act_of (resolve_writable_path image (qt_target qt));
      sd_path ⇐ act_of (discover_pfs_payload_path image);
      plan ⇐ act_of (target_plan image sd_path qt);
      _ ⇐ act_of (ok_or HE_NotFound (sa_ctrl_template plan));
      _ ⇐ act_of (check_question_slots schema (qt_pkg qt) (qt_formset_idx qt) [] []);
      _ ⇐ act_of (preflight_question image qt schema pos optimized);
      string_ids ⇐ add_target_strings (qt_target qt) path (qt_bare_channel qt) (question_strings schema);
      prompt_id ⇐ act_of (ok_or HE_InvalidIfr (string_ids !! qa_prompt schema));
      help_id ⇐ act_of (ok_or HE_InvalidIfr (string_ids !! qa_help schema));
      ops ⇐ act_of (build_question_ops schema prompt_id help_id (fun s => string_ids !! s) optimized);
      ad ⇐ splice_into_target qt pos ops;
      _ ⇐ mark path;
      rec_off ⇐ edit_body sd_path (apply_spf_question plan schema prompt_id help_id
                  (wrap 32 (fst (ad : Z * Z))) (wrap 32 (snd ad)) optimized failsafe);
      _ ⇐ mark sd_path;
      act_ret {| aq_question_id := qa_question_id schema; aq_string_ids := string_ids;
                 aq_spf_record_offset := rec_off |}.

Definition check_one_question (image : Image) (qt : QuestionTarget) (varstores : list VarStoreSchema)
  (pending : list (Z * Z * Z * Z)) (schema : QuestionAddSchema) : outcome HiiError (list (Z * Z * Z * Z)) :=
  of_ ← validate_question_add schema;
  pos ← insert_pos_of (qa_insert_before schema);
  stores ← (if existsb (fun v => vss_id v =? qa_var_store_id schema) varstores then mret true
            else m ← lift (varstore_map_formset (qt_pkg qt) (qt_formset_idx qt));
                 mret match m with Some m => declared m (qa_var_store_id schema) | None => false end);
  if negb (qa_var_store_id schema =? 0) && negb stores then Err (not_declared (qa_var_store_id schema))
  else
    _ ← check_question_slots schema (qt_pkg qt) (qt_formset_idx qt) pending varstores;
    _ ← preflight_question image qt schema pos (fst of_);
    mret (pending ++ [(qa_question_id schema, qa_var_store_id schema, qa_var_offset schema,
                       qa_var_offset schema + qa_size schema)]).

Definition check_question_add (image : Image) (item_id : ustring) (schemas : list QuestionAddSchema)
  (varstores : list VarStoreSchema) : outcome HiiError unit :=
  if negb (bool_decide (mode image = IM_Write)) then Err HE_NotWritable
  else
    qt ← resolve_question_target image item_id;
    match List.find (fun s => negb (qa_form_id s =? qt_form_id qt)) schemas with
    | Some s => Err (form_mismatch s qt)
    | None =>
        existing ← lift (varstore_map_formset (qt_pkg qt) (qt_formset_idx qt));
        existing ← ok_or HE_InvalidIfr existing;
        match List.find (fun v => declared existing (vss_id v)) varstores with
        | Some v => Err (already_exists (vss_id v))
        | None =>
            _ ← resolve_writable_path image (qt_target qt);
            sd_path ← discover_pfs_payload_path image;
            plan ← target_plan image sd_path qt;
            _ ← (if bool_decide (length schemas = 0%nat) then mret 0
                 else ok_or HE_NotFound (sa_ctrl_template plan));
            _ ← foldM (check_one_question image qt varstores) schemas [];
            mret tt
        end
    end.

(** ** Variable stores *)

Definition varstore_op (vs : VarStoreSchema) : outcome HiiError (list byte) :=
  g ← ok_or (HE_InvalidSchema (us "varstore guid '" ++ vss_guid vs ++ us "' is not a GUID"))
        (guid_try_parse (vss_guid vs));
  mret match vss_var_type vs with
       | VT_Buffer => emit_var_store new_builder (vss_id vs) g (vss_size vs) (vss_name vs)
       | VT_Efi => emit_var_store_efi new_builder (vss_id vs) g (vss_size vs) (vss_name vs) (vss_attributes vs)
       end.

Definition mutation_forms_package (node : FfsNode) : outcome HiiError (Z * Z) :=
  if has_subtype node EFI_SECTION_PE32 then
    r ← lift (resource_forms_package (body node)); ok_or HE_NotASetupItem r
  else ranges ← lift (form_package_ranges node); ok_or HE_NotASetupItem (head ranges).

(** The package after the splice is the one before with the opcodes and its length. *)
Definition verify_spliced_snapshot (spliced pkg_before ops : list byte) (insert_at delta : Z)
  : outcome HiiError unit :=
  ok ← (if blen spliced =? blen pkg_before + delta then
          a ← lift (u24_at spliced 0);
          b ← lift (u24_at pkg_before 0);
          mret ((a =? b + delta)
                && bool_decide (get_range spliced 3 insert_at = get_range pkg_before 3 insert_at)
                && bool_decide (get_range spliced insert_at (insert_at + delta) = Some ops)
                && bool_decide (get_range spliced (insert_at + delta) (blen spliced)
                                = get_range pkg_before insert_at (blen pkg_before)))
        else mret false);
  if (ok : bool) then mret tt else Err HE_InvalidIfr.

Definition shift_resolving_records (pkg_before : list byte) (insert_at delta : Z) (b : list byte)
  : outcome HiiError (list byte * unit) :=
  records ← lift (scan_question_records b);
  selected ← lift (select_resolving_records
                     (List.filter (fun r => wrap 32 insert_at <=? qr_ifr_offset r) records) pkg_before);
  r ← lift (fixup_selected_record_ifr_offsets b selected (wrap 32 insert_at) (wrap 32 delta));
  mret (fst r, tt).

Definition add_varstores (item_id : ustring) (varstores : list VarStoreSchema) : act (list Z) :=
  if bool_decide (length varstores = 0%nat) then act_ret []
  else
    tfq ⇐ act_of (parse_item_id item_id);
    let '(target, form_id, _) := tfq : Target * Z * option Z in
    image ⇐ get_image;
    path ⇐ act_of (resolve_writable_path image target);
    sd_path ⇐ act_of (discover_pfs_payload_path image);
    ops ⇐ act_of (foldM (fun ops vs => o ← varstore_op vs; mret (ops ++ o)) varstores []);
    node ⇐ act_of (map_err (fun _ => HE_NotFound) (find_item (root image) target));
    if negb (is_section node) then act_err HE_NotASetupItem
    else
      r ⇐ act_of (mutation_forms_package node);
      pkg_before ⇐ act_of (slice (body node) (fst (r : Z * Z)) (fst r + snd r));
      a ⇐ act_of (lift (locate_form_attribution pkg_before form_id));
      a ⇐ act_of (ok_or HE_NotFound a);
      let formset_idx := fst (a : Z * HijackFormSpan) in
      existing ⇐ act_of (lift (varstore_map_formset pkg_before formset_idx));
      existing ⇐ act_of (ok_or HE_InvalidIfr existing);
      match List.find (fun v => declared existing (vss_id v)) varstores with
      | Some v => act_err (already_exists (vss_id v))
      | None =>
          ad ⇐ edit_item target (fun b =>
                 if has_subtype node EFI_SECTION_RAW then splice_varstore_ops b ops formset_idx
                 else splice_varstore_ops_into_resource b ops formset_idx);
          let '(insert_at, delta) := ad : Z * Z in
          image ⇐ get_image;
          node ⇐ act_of (map_err (fun _ => HE_NotFound) (find_item (root image) target));
          r ⇐ act_of (mutation_forms_package node);
          spliced ⇐ act_of (ok_or HE_InvalidIfr (get_range (body node) (fst (r : Z * Z)) (fst r + snd r)));
          _ ⇐ act_of (verify_spliced_snapshot spliced pkg_before ops insert_at delta);
          _ ⇐ mark path;
          _ ⇐ edit_body sd_path (shift_resolving_records pkg_before insert_at delta);
          _ ⇐ mark sd_path;
          act_ret (map vss_id varstores)
      end.

(** ** References *)

Record AddRefResult := {
  rr_question_id : Z;
  rr_string_ids : gmap ustring Z
}.

Definition shift_selected (selected : list Z) (insert_at delta : Z) (b : list byte)
  : outcome HiiError (list byte * unit) :=
  r ← lift (fixup_selected_record_ifr_offsets b selected insert_at delta); mret (fst r, tt).

Definition fixup_plan (image : Image) (sd_path : list Z) (qt : QuestionTarget) : outcome HiiError (list Z) :=
  node ← node_at (root image) sd_path; plan_spf_fixup (body node) (qt_pkg qt).

Definition add_ref (item_id : ustring) (schema : QuestionAddRefSchema) : act AddRefResult :=
  image ⇐ get_image;
  if negb (bool_decide (mode image = IM_Write)) then act_err HE_NotWritable
  else
    qt ⇐ act_of (resolve_question_target image item_id);
    pos ⇐ act_of (insert_pos_of (ra_insert_before schema));
    path ⇐ act_of (resolve_writable_path image (qt_target qt));
    _ ⇐ act_of (validate_ref_target image qt schema);
    sd_path ⇐ act_of (discover_pfs_payload_path image);
    spf_records ⇐ act_of (fixup_plan image sd_path qt);
    _ ⇐ act_of (check_ref_slots schema (qt_pkg qt) []);
    _ ⇐ act_of (preflight_ref image qt schema pos);
    string_ids ⇐ add_target_strings (qt_target qt) path (qt_bare_channel qt) (ref_strings schema);
    prompt_id ⇐ act_of (ok_or HE_InvalidIfr (string_ids !! ra_prompt schema));
    help_id ⇐ act_of (ok_or HE_InvalidIfr (string_ids !! ra_help schema));
    ops ⇐ act_of (build_ref_ops schema prompt_id help_id);
    ad ⇐ splice_into_target qt pos ops;
    _ ⇐ mark path;
    _ ⇐ edit_body sd_path (shift_selected spf_records (wrap 32 (fst (ad : Z * Z))) (wrap 32 (snd ad)));
    _ ⇐ mark sd_path;
    act_ret {| rr_question_id := ra_question_id schema; rr_string_ids := string_ids |}.

Definition check_one_ref (image : Image) (qt : QuestionTarget) (pending : list Z)
  (schema : QuestionAddRefSchema) : outcome HiiError (list Z) :=
  _ ← validate_ref_target image qt schema;
  _ ← check_ref_slots schema (qt_pkg qt) pending;
  pos ← insert_pos_of (ra_insert_before schema);
  _ ← preflight_ref image qt schema pos;
  mret (pending ++ [ra_question_id schema]).

Definition check_ref_add (image : Image) (item_id : ustring) (refs : list QuestionAddRefSchema)
  (question_qids : list Z) : outcome HiiError unit :=
  if negb (bool_decide (mode image = IM_Write)) then Err HE_NotWritable
  else
    qt ← resolve_question_target image item_id;
    _ ← resolve_writable_path image (qt_target qt);
    sd_path ← discover_pfs_payload_path image;
    _ ← fixup_plan image sd_path qt;
    _ ← foldM (check_one_ref image qt) refs question_qids;
    mret tt.

(** ** Pages *)

Record AddPageResult := {
  ap_form_id : Z;
  ap_slot : Z;
  ap_page_offset : Z;
  ap_title_string_id : Z
}.

(** The free slot behind the page table. *)
Definition gap_occupied : HiiError := HE_InvalidSchema (us "page table gap occupied").
Definition spf_page_registration_slot (b : list byte) (form_id : Z) : outcome HiiError Z :=
  base ← ok_or HE_NotFound (container_start b);
  count ← page_count_at b base;
  page ← lift (find_page b base count form_id);
  match page with
  | Some _ => invalid (us "page " ++ dec_string form_id ++ us " is already registered in the $SPF page table")
  | None =>
      let gap_at := base + SPF_PAGE_TABLE_OFFSET + 4 * count in
      gap ← ok_or HE_NotFound (get_range b gap_at (gap_at + 4));
      if negb (le_dec gap =? 0) then Err gap_occupied else mret (wrap 16 count)
  end.

Definition register_page (skeleton : Z) (b : list byte) : outcome HiiError (list byte * Z) :=
  r ← lift (register_page_slot b skeleton);
  slot ← ok_or gap_occupied (snd r);
  b ← lift (base ← unwrap (container_start (fst r)); bump_container_length (fst r) (blen (fst r) - base));
  mret (b, slot).

Definition add_page (item_id : ustring) (schema : PageAddSchema) : act AddPageResult :=
  image ⇐ get_image;
  if negb (bool_decide (mode image = IM_Write)) then act_err HE_NotWritable
  else if bool_decide (pa_title schema = []) then act_err (HE_InvalidSchema (us "title must not be empty"))
  else
    qt ⇐ act_of (resolve_question_target image item_id);
    path ⇐ act_of (resolve_writable_path image (qt_target qt));
    sd_path ⇐ act_of (discover_pfs_payload_path image);
    plan ⇐ act_of (target_plan image sd_path qt);
    sd ⇐ act_of (node_at (root image) sd_path);
    seq ⇐ act_of (spf_page_registration_slot (body sd) (pa_form_id schema));
    string_ids ⇐ add_target_strings (qt_target qt) path (qt_bare_channel qt) [pa_title schema];
    title_id ⇐ act_of (ok_or HE_InvalidIfr (string_ids !! pa_title schema));
    _ ⇐ mark path;
    skeleton ⇐ edit_body sd_path (fun b =>
      lift (append_page_skeleton b (sa_page_offset plan) (pa_form_id schema) title_id seq
              (wrap 16 (sa_page_slot plan))));
    slot ⇐ edit_body sd_path (register_page skeleton);
    _ ⇐ mark sd_path;
    act_ret {| ap_form_id := pa_form_id schema; ap_slot := slot; ap_page_offset := skeleton;
               ap_title_string_id := title_id |}.

End QuestionAdd.
