(* ===== verification/Hijack.v ===== *)
(** Taking over the questions of a form ([hii/form_hijack.rs]): new prompts and helps, the
    gates before the form and the questions unlocked, and the help strings of the [$SPF]
    records and controls repointed. *)
From stdpp Require Import gmap.
From S2P Require Import Prelude Text Types Ffs Tiano Codec Parser Target Ops Nvar NvarStores.
From S2P Require Import Hii Values Ifr Gates StringPack Schema FormsetAdd Spf PeResource.
From S2P Require Import ImageStrings ImageGates ImageValues Channels SetupAdd QuestionAdd.

Section Hijack.
Context {GL : GuidLib} {RH : RefiHii} {OP : ObjectPe}.
(** The [Debug] text of a wrapped target. *)
Context (dbg : Wraps -> ustring).

Record HelpControlEdit := {
  hc_question_id : Z;
  hc_offset : Z;
  hc_old_string_id : Z;
  hc_new_string_id : Z
}.
Record HelpRecordEdit := {
  hr_question_id : Z;
  hr_record_offset : Z;
  hr_old_string_id : Z;
  hr_new_string_id : Z
}.
Record HijackResult := {
  hj_string_ids : gmap ustring Z;
  hj_unlock_flips : list ustring;
  hj_help_controls : list HelpControlEdit;
  hj_help_records : list HelpRecordEdit;
  hj_form_ifr_start : Z;
  hj_form_ifr_end : Z
}.

(** ** The package of the target *)

(** Where the package is in the body. *)
Definition package_range (node : FfsNode) : outcome HiiError (Z * Z) :=
  if has_subtype node EFI_SECTION_RAW then mret (0, blen (body node))
  else
    r ← lift (resource_forms_package (body node));
    r ← ok_or HE_NotASetupItem r;
    _ ← ok_or HE_InvalidIfr (get_range (body node) (fst r) (fst r + snd r));
    mret (fst r, fst r + snd r).
Definition package_of (root : FfsNode) (target : Target) : outcome HiiError (list byte) :=
  node ← map_err (fun _ => HE_NotFound) (find_item root target);
  r ← package_range node;
  mret (sub (body node) (fst r) (snd r)).

(** ** Planning *)

Definition question_offset (qs : list (Z * Z)) (question_id : Z) : option Z :=
  fst <$> List.find (fun q => snd q =? question_id) qs.
Definition all_located (qs : list (Z * Z)) (hijack : HijackSchema) : bool :=
  forallb (fun q => existsb (fun l => snd l =? hq_question_id q) qs) (hj_questions hijack).

(** The flips of one target, without those at an offset that is planned already. *)
Definition merge_flip (merged : list PlannedFlip) (f : PlannedFlip) : list PlannedFlip :=
  if existsb (fun m => flip_offset m =? flip_offset f) merged then merged else merged ++ [f].
Definition plan_target (pkg : list byte) (merged : list PlannedFlip) (gt : GateTarget)
  : outcome HiiError (list PlannedFlip) :=
  found ← lift (find_gates pkg gt);
  match found with
  | [] => mret merged
  | _ =>
      flips ← map_err HE_GateExpressionUnsupported (plan_gates_skip_unlocked dbg pkg found);
      mret (fold_left merge_flip flips merged)
  end.
Definition plan_unlock (pkg : list byte) (form_id : Z) (hijack : HijackSchema)
  : outcome HiiError (list PlannedFlip) :=
  let gt q := {| gt_form_id := form_id; gt_question_id := q; gt_formset_guid := None |} in
  foldM (plan_target pkg) (gt None :: map (fun q => gt (Some (hq_question_id q))) (hj_questions hijack)) [].

(** The only record of the question within the form, and its help. *)
Definition plan_record (b : list byte) (records : list SpfQuestionRecord) (form_start form_end : Z)
  (out : list (Z * Z * Z)) (q : HijackQuestionSchema) : outcome HiiError (list (Z * Z * Z)) :=
  match List.filter (fun r => (qr_question_id r =? hq_question_id q) && (form_start <=? qr_ifr_offset r)
                              && (qr_ifr_offset r <? form_end)) records with
  | [r] =>
      old ← lift (u16_of b (qr_offset r + SPF_RECORD_HELP_ID));
      mret (out ++ [(hq_question_id q, qr_offset r, old)])
  | _ => Err HE_NotFound
  end.
Definition plan_records (b : list byte) (form_start form_end : Z) (hijack : HijackSchema)
  : outcome HiiError (list (Z * Z * Z)) :=
  records ← lift (scan_question_records b);
  foldM (plan_record b records form_start form_end) (hj_questions hijack) [].

(** The help of a question in the package. *)
Definition plan_help (pkg : list byte) (qs : list (Z * Z)) (out : list (Z * Z)) (q : HijackQuestionSchema)
  : outcome HiiError (list (Z * Z)) :=
  off ← ok_or HE_NotFound (question_offset qs (hq_question_id q));
  sid ← lift (u16_of pkg (off + 4));
  mret (out ++ [(hq_question_id q, sid)]).
Definition check_help (seen : list Z) (h : Z * Z) : outcome HiiError (list Z) :=
  if bool_decide (snd h ∈ seen)
  then invalid (us "questions share help string id " ++ fmt_hex (snd h)
         ++ us ": one $SPF control cannot be repointed for two questions")
  else mret (seen ++ [snd h]).

(** The only control with the help. *)
Definition plan_control (controls : list SpfStringControl) (out : list (Z * Z * Z)) (h : Z * Z)
  : outcome HiiError (list (Z * Z * Z)) :=
  match List.filter (fun c => sc_string_id c =? snd h) controls with
  | [c] => mret (out ++ [(fst h, sc_offset c, snd h)])
  | _ => Err HE_NotFound
  end.
Definition plan_controls (b : list byte) (help_ids : list (Z * Z)) : outcome HiiError (list (Z * Z * Z)) :=
  controls ← lift (scan_string_controls b);
  foldM (plan_control controls) help_ids [].

(** ** Writing *)

Definition hijack_question (qs : list (Z * Z)) (string_ids : gmap ustring Z) (pkg : list byte)
  (q : HijackQuestionSchema) : outcome HiiError (list byte) :=
  prompt_id ← ok_or HE_InvalidIfr (string_ids !! hq_prompt q);
  help_id ← ok_or HE_InvalidIfr (string_ids !! hq_help q);
  q_off ← ok_or HE_NotFound (question_offset qs (hq_question_id q));
  lift (rewrite_question_strings pkg q_off prompt_id help_id).
(** The package within the body. *)
Definition in_package {E} (r : Z * Z) (f : list byte -> outcome E (list byte)) (b : list byte)
  : outcome E (list byte * unit) :=
  pkg ← f (sub b (fst r) (snd r)); mret (splice b (fst r) pkg, tt).
Definition apply_hijack_ifr (path : list Z) (r : Z * Z) (form_id : Z) (hijack : HijackSchema)
  (string_ids : gmap ustring Z) : act unit :=
  image ⇐ get_image;
  node ⇐ act_of (node_at (root image) path);
  qs ⇐ act_of (lift (locate_questions (sub (body node) (fst r) (snd r)) form_id));
  act_fold (fun _ q => edit_body path (in_package r (fun pkg => hijack_question qs string_ids pkg q)))
    (hj_questions hijack) tt.
Definition edit_package (target : Target) (form_id : Z) (hijack : HijackSchema)
  (string_ids : gmap ustring Z) (flips : list PlannedFlip) : act unit :=
  image ⇐ get_image;
  path ⇐ act_of (ok_or HE_NotFound (find_item_path (root image) target));
  node ⇐ act_of (ok_or HE_NotFound (find_mut (root image) path));
  r ⇐ act_of (package_range node);
  _ ⇐ apply_hijack_ifr path r form_id hijack string_ids;
  edit_body path (in_package r (fun pkg => map_err HE_GateExpressionUnsupported (apply_flips pkg flips))).

(** One control and one record repointed. *)
Definition repoint_help (sd_path : list Z) (hijack : HijackSchema) (string_ids : gmap ustring Z)
  (s : list HelpControlEdit * list HelpRecordEdit) (e : Z * Z * Z * (Z * Z * Z))
  : act (list HelpControlEdit * list HelpRecordEdit) :=
  let '((qid, off, old), (_, rec_off, rec_old)) := e in
  q ⇐ act_of (unwrap (List.find (fun q => hq_question_id q =? qid) (hj_questions hijack)));
  new_id ⇐ act_of (ok_or HE_InvalidIfr (string_ids !! hq_help q));
  _ ⇐ edit_body sd_path (fun b =>
    lift (b ← write_record_help_id b rec_off new_id; b ← write_string_control b off new_id; mret (b, tt)));
  act_ret (fst s ++ [{| hc_question_id := qid; hc_offset := off; hc_old_string_id := old;
                        hc_new_string_id := new_id |}],
           snd s ++ [{| hr_question_id := qid; hr_record_offset := rec_off; hr_old_string_id := rec_old;
                        hr_new_string_id := new_id |}]).

Definition hijack_strings (hijack : HijackSchema) : list ustring :=
  dedup (concat (map (fun q => [hq_prompt q; hq_help q]) (hj_questions hijack))).

Definition hijack_form (item_id : ustring) (hijack : HijackSchema) (setupdata_guid : option Guid)
  : act HijackResult :=
  image ⇐ get_image;
  if negb (bool_decide (mode image = IM_Write)) then act_err HE_NotWritable
  else
    tfq ⇐ act_of (parse_item_id item_id);
    let '(target, form_id, question_id) := tfq : Target * Z * option Z in
    match question_id with
    | Some _ => act_err HE_NotFound
    | None =>
        path ⇐ act_of (ok_or HE_NotFound (find_item_path (root image) target));
        _ ⇐ act_of (check_path image path);
        node ⇐ act_of (map_err (fun _ => HE_NotFound) (find_item (root image) target));
        bare_channel ⇐ act_of (question_channel node);
        pkg ⇐ act_of (package_of (root image) target);
        span ⇐ act_of (lift (locate_form pkg form_id));
        span ⇐ act_of (ok_or HE_NotFound span);
        let form_ifr_start := wrap 32 (hs_form_op span) in
        let form_ifr_end := wrap 32 (hs_next_form_op span) in
        qs ⇐ act_of (lift (locate_questions pkg form_id));
        if negb (all_located qs hijack) then act_err HE_NotFound
        else
          unlock_flips ⇐ act_of (plan_unlock pkg form_id hijack);
          sd_path ⇐ act_of (pfs_payload_path image setupdata_guid);
          sd ⇐ act_of (node_at (root image) sd_path);
          record_edits ⇐ act_of (plan_records (body sd) form_ifr_start form_ifr_end hijack);
          help_ids ⇐ act_of (foldM (plan_help pkg qs) (hj_questions hijack) []);
          _ ⇐ act_of (foldM check_help help_ids []);
          control_edits ⇐ act_of (plan_controls (body sd) help_ids);
          string_ids ⇐ add_target_strings target path bare_channel (hijack_strings hijack);
          _ ⇐ edit_package target form_id hijack string_ids unlock_flips;
          _ ⇐ mark path;
          edits ⇐ act_fold (repoint_help sd_path hijack string_ids) (combine control_edits record_edits) ([], []);
          _ ⇐ mark sd_path;
          act_ret {| hj_string_ids := string_ids; hj_unlock_flips := map flip_text unlock_flips;
                     hj_help_controls := fst (edits : list HelpControlEdit * list HelpRecordEdit);
                     hj_help_records := snd edits; hj_form_ifr_start := form_ifr_start;
                     hj_form_ifr_end := form_ifr_end |}
    end.

End Hijack.
