(* ===== verification/Tse.v ===== *)
(** The tables of the AMITSE setup browser ([hii/tse.rs]): series of form entries in its PE
    image, what is reported of them and of its [$SPF] section, and the removal of the entry
    that hides a form. *)
From stdpp Require Import gmap.
From S2P Require Import Prelude Text Types Ffs Tiano Codec Parser Target Ops Nvar NvarStores.
From S2P Require Import Hii Values Ifr Gates StringPack Schema FormsetAdd Spf PeResource.
From S2P Require Import ImageStrings ImageGates ImageValues Channels.

Section Tse.
Context {GL : GuidLib} {RH : RefiHii} {OP : ObjectPe}.
(** The text of an error of the GUID parser. *)
Context (guid_error : ustring -> ustring).

Definition AMITSE_GUID_STR : ustring := us "B1DA0ADF-4F77-4070-A88E-BFFE1C60529A".
Definition STRIDE_ENTRY_SIZE : Z := 0x20.

Record StrideEntry := {
  te_guid : Guid;
  te_form_id : Z
}.
Record StrideBlock := {
  sb_pe_offset : Z;
  sb_entries : list StrideEntry
}.

(** ** The scan *)

(** One entry; a zero entry ends the series, a malformed one or the end of the image
    refuses it. *)
Definition series_step (pe : list byte) (s : Z * list StrideEntry)
  : pure (Z * list StrideEntry + option (list StrideEntry)) :=
  let '(p, entries) := s in
  if p + STRIDE_ENTRY_SIZE <=? blen pe then
    rec ← slice pe p (p + STRIDE_ENTRY_SIZE);
    if forallb (fun b => bool_decide (b = x00)) rec then mret (inr (Some entries))
    else
      let form_id := le_dec (sub rec 16 24) in
      if negb (le_dec (sub rec 24 32) =? 0) || (form_id =? 0) || (0x10000 <=? form_id)
      then mret (inr None)
      else mret (inl (p + STRIDE_ENTRY_SIZE,
                      entries ++ [{| te_guid := guid_of_array (sub rec 0 16); te_form_id := form_id |}]))
  else mret (inr None).
Definition stride_series_at (pe : list byte) (off : Z) : pure (option (list StrideEntry)) :=
  loop (length pe + 1) (series_step pe) (off, []).

Definition scan_block_at (pe : list byte) (known_formsets : list Guid) (out : list StrideBlock) (off : Z)
  : pure (list StrideBlock) :=
  entries ← stride_series_at pe off;
  mret match entries with
       | Some entries =>
           if (2 <=? blen entries) && forallb (fun e => bool_decide (te_guid e ∈ known_formsets)) entries
           then out ++ [{| sb_pe_offset := off; sb_entries := entries |}] else out
       | None => out
       end.
Definition scan_stride_blocks (pe : list byte) (known_formsets : list Guid) : pure (list StrideBlock) :=
  foldM (scan_block_at pe known_formsets)
    ((fun i => STRIDE_ENTRY_SIZE * i) <$> upto_n (blen pe / STRIDE_ENTRY_SIZE)) [].

(** ** The form sets of the image *)

(** [roots.entry(g).and_modify(min).or_insert(fid)] on an association list. *)
Fixpoint put_root (roots : list (Guid * Z)) (g : Guid) (fid : Z) : list (Guid * Z) :=
  match roots with
  | [] => [(g, fid)]
  | (k, r) :: roots => if bool_decide (k = g) then (k, Z.min r fid) :: roots else (k, r) :: put_root roots g fid
  end.
Definition root_of (roots : list (Guid * Z)) (g : Guid) : option Z :=
  snd <$> List.find (fun r => bool_decide (fst r = g)) roots.
Definition add_root (roots : list (Guid * Z)) (f : FormInfo) : list (Guid * Z) :=
  match guid_try_parse (fo_formset_guid f) with
  | Some g => if fo_form_id_ifr f <=? 0xFFFF then put_root roots g (fo_form_id_ifr f) else roots
  | None => roots
  end.
Definition formset_roots (image : Image) : pure (list (Guid * Z)) :=
  forms ← collect_forms image; mret (fold_left add_root forms []).

(** ** The module *)

Fixpoint find_file (node : FfsNode) (guid : Guid) (path : list Z) : option (list Z * FfsNode) :=
  if is_file node && bool_decide (n_guid node = Some guid) then Some (path, node)
  else first_hit (fun i c => find_file c guid (path ++ [i])) 0 (children node).
Fixpoint pe32_rel (node : FfsNode) (path : list Z) : option (list Z) :=
  if is_pe32_payload node then Some path
  else first_hit (fun i c => pe32_rel c (path ++ [i])) 0 (children node).
Fixpoint walk_spf (node : FfsNode) (path : list Z) : option (list byte * list Z) :=
  if is_section node && bool_decide (children node = []) && bool_decide (is_Some (container_start (body node)))
  then Some (body node, path)
  else first_hit (fun i c => walk_spf c (path ++ [i])) 0 (children node).
Definition spf_section_body (file : FfsNode) : option (list byte) := fst <$> walk_spf file [].

Definition amitse_file (image : Image) : outcome HiiError (list Z * FfsNode) :=
  g ← ok_or (HE_InvalidItemId (guid_error AMITSE_GUID_STR)) (guid_try_parse AMITSE_GUID_STR);
  ok_or HE_NotFound (find_file (root image) g []).
(** The path of its PE image. *)
Definition amitse_pe (image : Image) : outcome HiiError (list Z * FfsNode) :=
  pf ← amitse_file image;
  rel ← ok_or HE_NotFound (pe32_rel (snd pf) []);
  mret (fst pf ++ rel, snd pf).

Definition known_formsets (image : Image) : pure (list Guid) :=
  roots ← formset_roots image;
  match amitse_file image with
  | Ok (_, file) =>
      match spf_section_body file with
      | Some b => fs ← scan_formsets b; mret (map fst roots ++ map sf_guid fs)
      | None => mret (map fst roots)
      end
  | _ => mret (map fst roots)
  end.

(** ** Removing an entry *)

Record UnhideOutcome := {
  uh_pe_offset : Z;
  uh_entry_pe_offset : Z;
  uh_formset_guid : Guid;
  uh_form_id : Z
}.

Definition entry_bytes (guid : Guid) (form_id : Z) : list byte :=
  guid_to_bytes guid ++ le_enc 8 form_id ++ replicate 8 x00.
Definition entry_bytes_match (pe : list byte) (off : Z) (guid : Guid) (form_id : Z) : bool :=
  match end_ ← checked_add off STRIDE_ENTRY_SIZE; get_range pe off end_ with
  | None => false
  | Some rec =>
      bool_decide (sub rec 0 16 = guid_to_bytes guid) && bool_decide (sub rec 16 24 = le_enc 8 form_id)
      && bool_decide (sub rec 24 32 = replicate 8 x00)
  end.

(** All entries of the block are the root forms of their form sets. *)
Definition all_roots (roots : list (Guid * Z)) (b : StrideBlock) : bool :=
  forallb (fun e => bool_decide (root_of roots (te_guid e) = Some (te_form_id e))) (sb_entries b).
Definition is_entry (guid : Guid) (form_id : Z) (e : StrideEntry) : bool :=
  bool_decide (te_guid e = guid) && (te_form_id e =? form_id).
(** The entry of the form in a block of root forms: the block and the entry. *)
Definition candidate (roots : list (Guid * Z)) (guid : Guid) (form_id : Z) (b : StrideBlock)
  : option (Z * Z) :=
  if all_roots roots b then
    pos ← position (is_entry guid form_id) (sb_entries b) 0;
    Some (sb_pe_offset b, sb_pe_offset b + STRIDE_ENTRY_SIZE * pos)
  else None.
Definition candidates (image : Image) (pe : list byte) (guid : Guid) (form_id : Z) : pure (list (Z * Z)) :=
  roots ← formset_roots image;
  known ← known_formsets image;
  blocks ← scan_stride_blocks pe known;
  mret (omap (candidate roots guid form_id) (blocks : list StrideBlock)).

Definition quoted (s : ustring) : ustring := [34] ++ s ++ [34].
Definition ambiguous (cands : list (Z * Z)) : HiiError :=
  HE_InvalidSchema (us "ambiguous: entry in " ++ dec_string (blen cands) ++ us " hide-candidate blocks at ["
    ++ join (us ", ") (map (fun c => quoted (fmt_hex (fst c))) cands) ++ us "]").

(** The block and the entry to clear. *)
Definition find_entry (image : Image) (pe : list byte) (guid : Guid) (form_id : Z)
  (block_pe_offset : option Z) : outcome HiiError (Z * Z) :=
  match block_pe_offset with
  | Some off =>
      if entry_bytes_match pe off guid form_id then mret (off, off)
      else Err (HE_InvalidSchema (us "guard mismatch at pe+" ++ fmt_hex off))
  | None =>
      cands ← lift (candidates image pe guid form_id);
      match cands with
      | [] => Err HE_NotFound
      | [single] => mret single
      | many => Err (ambiguous many)
      end
  end.

Definition clear_entry (at_ : Z) (b : list byte) : outcome HiiError (list byte * unit) :=
  b ← copy_into b at_ (at_ + STRIDE_ENTRY_SIZE) (replicate (Z.to_nat STRIDE_ENTRY_SIZE) x00); mret (b, tt).

Definition tse_unhide (formset_guid : Guid) (form_id : Z) (block_pe_offset : option Z)
  : act UnhideOutcome :=
  with_rollback
    (image ⇐ get_image;
     pf ⇐ act_of (amitse_pe image);
     let path := fst (pf : list Z * FfsNode) in
     if negb (bool_decide (mode image = IM_Write)) then act_err HE_NotWritable
     else
       node ⇐ act_of (node_at (root image) path);
       at_ ⇐ act_of (find_entry image (body node) formset_guid form_id block_pe_offset);
       _ ⇐ edit_body path (clear_entry (snd (at_ : Z * Z)));
       _ ⇐ mark path;
       act_ret {| uh_pe_offset := fst at_; uh_entry_pe_offset := snd at_;
                  uh_formset_guid := formset_guid; uh_form_id := form_id |}).

(** ** The report *)

Record SpfSummary := {
  ss_page_count : Z;
  ss_pages_per_formset : list (Z * Z);
  ss_formsets : list SpfFormsetEntry;
  ss_vars : list SpfVarEntry;
  ss_string_controls : Z
}.
Record TseReport := {
  tr_blocks : list StrideBlock;
  tr_spf : option SpfSummary;
  tr_pe_len : Z
}.

Definition spf_summary (b : list byte) : pure SpfSummary :=
  pages ← pages_fs_counts b;
  formsets ← scan_formsets b;
  vars ← scan_var_catalog b;
  controls ← scan_string_controls b;
  mret {| ss_page_count := pages_count b; ss_pages_per_formset := pages; ss_formsets := formsets;
          ss_vars := vars; ss_string_controls := blen controls |}.

Definition tse_report (image : Image) : outcome HiiError TseReport :=
  pf ← amitse_pe image;
  node ← node_at (root image) (fst pf);
  known ← lift (known_formsets image);
  blocks ← lift (scan_stride_blocks (body node) known);
  spf ← match spf_section_body (snd pf) with
        | Some b => s ← lift (spf_summary b); mret (Some s)
        | None => mret None
        end;
  mret {| tr_blocks := blocks; tr_spf := spf; tr_pe_len := blen (body node) |}.

End Tse.
