(* ===== verification/FormExport.v ===== *)
(** The export of a form as a schema ([hii/form_export.rs]): its items with their texts,
    what is lost, the variable stores they refer to, and the entries of its parent. *)
From stdpp Require Import gmap sorting.
From S2P Require Import Prelude Text Types Ffs Tiano Codec Parser Target Ops Nvar NvarStores.
From S2P Require Import Hii Values Ifr Gates StringPack Schema FormsetAdd Spf PeResource.
From S2P Require Import ImageStrings ImageGates ImageValues Channels SetupAdd QuestionAdd.

Section FormExport.
Context {GL : GuidLib} {RH : RefiHii} {OP : ObjectPe}.

Record ParentEntry := {
  pe_prompt : ustring;
  pe_help : ustring
}.
Record FormExport := {
  fe_schema : FormSetSchema;
  fe_formset_guid : ustring;
  fe_parent_form_id : Z;
  fe_parent_entries : list ParentEntry;
  fe_lossy : list ustring
}.

(** ** Fields of an opcode *)

Definition display_mode (flags : byte) : DisplayMode :=
  let d := Z.land (b2z flags) IFR_DISPLAY in
  if d =? IFR_DISPLAY_INT_DEC then DM_IntDec
  else if d =? IFR_DISPLAY_UINT_HEX then DM_UintHex
  else DM_UintDec.
Definition op_display (pkg : list byte) (off len : Z) : pure DisplayMode :=
  if 14 <=? len then b ← index pkg (off + 13); mret (display_mode b) else mret DM_UintDec.

Definition numeric_field (pkg : list byte) (off len size pos : Z) : Z :=
  let start := off + 14 + pos * size in
  read_le_u64 pkg start (Z.min size (sat_sub (off + len) start)).
Definition numeric_min_max_step (pkg : list byte) (off len size : Z) : Z * Z * Z :=
  (numeric_field pkg off len size 0, numeric_field pkg off len size 1, numeric_field pkg off len size 2).

Definition no_defaults : Defaults := {| d_optimized := None; d_failsafe := None |}.
(** The last failsafe value and the first of the others. *)
Definition map_default (d : Defaults) (e : DefaultEntry) : Defaults :=
  if de_default_id e =? 1 then {| d_optimized := d_optimized d; d_failsafe := Some (de_value e) |}
  else {| d_optimized := match d_optimized d with Some v => Some v | None => Some (de_value e) end;
          d_failsafe := d_failsafe d |}.
Definition map_defaults (entries : list DefaultEntry) : Defaults := fold_left map_default entries no_defaults.

Definition text_of (texts : titles) (s : Z) : ustring := default [] (texts !! s).
(** [get(sid(pos))]. *)
Definition text_at (pkg : list byte) (texts : titles) (off pos : Z) : pure ustring :=
  s ← u16_in pkg (off + pos); mret (text_of texts s).

Definition option_class (flags : byte) : option DefaultClass :=
  if negb (Z.land (b2z flags) IFR_OPTION_DEFAULT =? 0) then Some DC_Optimized
  else if negb (Z.land (b2z flags) IFR_OPTION_DEFAULT_MFG =? 0) then Some DC_Failsafe
  else None.
Definition export_option (texts : titles) (o : OptionEntry) : OptionSchema :=
  {| os_text := text_of texts (oe_string_id o); os_value := oe_value o;
     os_default := option_class (oe_flags o) |}.

(** ** Items *)

(** How often something was lost, in the order of the first time. *)
Fixpoint bump_count (counts : list (ustring * Z)) (key : ustring) : list (ustring * Z) :=
  match counts with
  | [] => [(key, 1)]
  | (k, n) :: counts => if bool_decide (k = key) then (k, n + 1) :: counts else (k, n) :: bump_count counts key
  end.
Definition unknown_op (op : byte) : ustring := us "unknown_op_" ++ fmt_02x op.

(** The state of the walk. *)
Definition Exported : Type := list ItemSchema * list (ustring * Z).
Definition put_item (s : Exported) (i : ItemSchema) : Exported := (fst s ++ [i], snd s).
Definition count_lost (s : Exported) (key : ustring) : Exported := (fst s, bump_count (snd s) key).

Definition export_one_of (pkg : list byte) (texts : titles) (off len : Z) : pure ItemSchema :=
  od ← scan_options pkg (off + len);
  prompt ← text_at pkg texts off 2; help ← text_at pkg texts off 4;
  qid ← u16_in pkg (off + 6); vsid ← u16_in pkg (off + 8); voff ← u16_in pkg (off + 10);
  display ← op_display pkg off len;
  mret (IS_OneOf {| oo_prompt := prompt; oo_help := help; oo_question_id := qid; oo_var_store_id := vsid;
                    oo_var_offset := voff; oo_size := one_of_width (fst od) (snd od); oo_display := display;
                    oo_options := map (export_option texts) (fst od); oo_defaults := map_defaults (snd od) |}).
Definition export_numeric (pkg : list byte) (texts : titles) (off len : Z) : pure ItemSchema :=
  size ← (if 14 <=? len then numeric_width pkg off else mret 0);
  let '(min, max, step) := numeric_min_max_step pkg off len size in
  od ← scan_options pkg (off + len);
  prompt ← text_at pkg texts off 2; help ← text_at pkg texts off 4;
  qid ← u16_in pkg (off + 6); vsid ← u16_in pkg (off + 8); voff ← u16_in pkg (off + 10);
  display ← op_display pkg off len;
  mret (IS_Numeric {| nu_prompt := prompt; nu_help := help; nu_question_id := qid; nu_var_store_id := vsid;
                      nu_var_offset := voff; nu_size := size; nu_min := min; nu_max := max; nu_step := step;
                      nu_display := display; nu_defaults := map_defaults (snd od) |}).
Definition export_check_box (pkg : list byte) (texts : titles) (off : Z) : pure ItemSchema :=
  prompt ← text_at pkg texts off 2; help ← text_at pkg texts off 4;
  qid ← u16_in pkg (off + 6); vsid ← u16_in pkg (off + 8); voff ← u16_in pkg (off + 10);
  mret (IS_CheckBox {| cb_prompt := prompt; cb_help := help; cb_question_id := qid; cb_var_store_id := vsid;
                       cb_var_offset := voff; cb_defaults := no_defaults |}).
Definition export_text (pkg : list byte) (texts : titles) (off : Z) (two : bool) : pure ItemSchema :=
  prompt ← text_at pkg texts off 2; help ← text_at pkg texts off 4;
  text_two ← (if two then text_at pkg texts off 6 else mret []);
  mret (IS_Text {| tx_prompt := prompt; tx_help := help; tx_text_two := text_two |}).
Definition export_action (pkg : list byte) (texts : titles) (off : Z) : pure ItemSchema :=
  prompt ← text_at pkg texts off 2; help ← text_at pkg texts off 4;
  qid ← u16_in pkg (off + 6); config ← text_at pkg texts off 13;
  mret (IS_Action {| ac_prompt := prompt; ac_help := help; ac_question_id := qid; ac_config := config |}).
Definition export_ref (pkg : list byte) (texts : titles) (off target : Z) : pure ItemSchema :=
  prompt ← text_at pkg texts off 2; help ← text_at pkg texts off 4;
  qid ← u16_in pkg (off + 6);
  mret (IS_Ref {| re_prompt := prompt; re_help := help; re_question_id := qid; re_form_id := target |}).

Definition item_visit (pkg : list byte) (form_id : Z) (texts : titles) (s : Exported)
  (op : byte) (off len : Z) (current : option Z) : pure Exported :=
  let at_op o := bool_decide (op = o) in
  if negb (bool_decide (current = Some form_id)) then mret s
  else if at_op IFR_ONE_OF_OP && (13 <=? len) then i ← export_one_of pkg texts off len; mret (put_item s i)
  else if at_op IFR_NUMERIC_OP && (13 <=? len) then i ← export_numeric pkg texts off len; mret (put_item s i)
  else if at_op IFR_CHECKBOX_OP && (13 <=? len) then i ← export_check_box pkg texts off; mret (put_item s i)
  else if at_op IFR_TEXT_OP && (8 <=? len) then i ← export_text pkg texts off true; mret (put_item s i)
  else if at_op IFR_SUBTITLE_OP && (6 <=? len) then i ← export_text pkg texts off false; mret (put_item s i)
  else if at_op IFR_ACTION_OP && (15 <=? len) then i ← export_action pkg texts off; mret (put_item s i)
  else if at_op IFR_REF_OP then
    stmt ← slice pkg off (off + len);
    match parse_ref op stmt with
    | Some (RT_Form target) => i ← export_ref pkg texts off target; mret (put_item s i)
    | Some (RT_FormQuestion target _) =>
        i ← export_ref pkg texts off target; mret (count_lost (put_item s i) (us "ref_question_target"))
    | Some (RT_Formset _ _ _) => mret (count_lost s (us "cross_formset_ref"))
    | Some RT_Dynamic => mret (count_lost s (us "dynamic_ref"))
    | None => mret (count_lost s (unknown_op op))
    end
  else if at_op IFR_SUPPRESS_IF_OP then mret (count_lost s (us "suppress_if"))
  else if at_op IFR_GRAY_OUT_IF_OP then mret (count_lost s (us "grayout_if"))
  else if at_op IFR_FORM_OP || at_op IFR_ONE_OF_OPTION_OP || at_op IFR_DEFAULT_OP then mret s
  else mret (count_lost s (unknown_op op)).

(** The items and the lines of what is lost. *)
Definition collect_items (pkg : list byte) (form_id : Z) (texts : titles)
  : pure (list ItemSchema * list ustring) :=
  s ← walk_statements (item_visit pkg form_id texts) pkg ([], []);
  mret (fst s, map (fun c => fst c ++ us ":" ++ dec_string (snd c)) (snd s)).

(** ** Variable stores *)

Definition referenced_stores (items : list ItemSchema) : list Z :=
  dedup (merge_sort Z.le (List.filter (fun id => negb (id =? 0)) (omap item_var_store_id items))).
Definition export_varstore (vs : VarStoreMap) (type : VarStoreType) (attributes : Z) : VarStoreSchema :=
  {| vss_id := vs_id vs; vss_guid := match vs_guid vs with Some g => guid_to_upper_string g | None => [] end;
     vss_size := vs_size vs; vss_name := vs_name vs; vss_var_type := type; vss_attributes := attributes |}.
Definition fill_varstore (stores : list VarStoreMap) (s : list VarStoreSchema * list ustring) (id : Z)
  : list VarStoreSchema * list ustring :=
  match List.find (fun m => vs_id m =? id) stores with
  | None => s
  | Some vs =>
      match vs_kind vs with
      | VK_Buffer => (fst s ++ [export_varstore vs VT_Buffer 7], snd s)
      | VK_Efi => (fst s ++ [export_varstore vs VT_Efi (vs_attributes vs)], snd s)
      | VK_NameValue =>
          (fst s, snd s ++ [us "varstore " ++ fmt_hex id ++ us " is name-value, not exportable"])
      end
  end.
Definition fill_varstores (form_items : list ItemSchema) (pkg : list byte) (lossy : list ustring)
  : pure (list VarStoreSchema * list ustring) :=
  stores ← varstore_map pkg;
  mret (fold_left (fill_varstore stores) (referenced_stores form_items) ([], lossy)).

(** ** The parent *)

Definition parent_form_id (image : Image) (formset_guid : ustring) (form_id : Z) : pure Z :=
  edges ← collect_edges image;
  let parents := map ed_parent_form_id
    (List.filter (fun e => (ed_form_id e =? form_id) && bool_decide (ed_formset_guid e = formset_guid)
                           && bool_decide (ed_target_formset_guid e = [])) edges) in
  mret match dedup (merge_sort Z.le parents) with [only] => only | _ => 0 end.

Definition goto_visit (pkg : list byte) (parent form_id : Z) (texts : titles) (out : list ParentEntry)
  (op : byte) (off len : Z) (current : option Z) : pure (list ParentEntry) :=
  if negb (bool_decide (op = IFR_REF_OP)) || (len <? 15) || negb (bool_decide (current = Some parent))
  then mret out
  else
    stmt ← slice pkg off (off + len);
    let target := match parse_ref op stmt with
                  | Some (RT_Form t) | Some (RT_FormQuestion t _) => Some t
                  | _ => None
                  end in
    if bool_decide (target = Some form_id) then
      prompt ← text_at pkg texts off 2; help ← text_at pkg texts off 4;
      mret (out ++ [{| pe_prompt := prompt; pe_help := help |}])
    else mret out.
Definition parent_goto_entries (pkg : list byte) (parent form_id : Z) (texts : titles)
  : pure (list ParentEntry) :=
  if 0xFFFF <? parent then mret [] else walk_statements (goto_visit pkg parent form_id texts) pkg [].

(** ** The form *)

Definition resolve_form (image : Image) (item_id : ustring) : outcome HiiError (FfsNode * FfsNode * Z) :=
  tfq ← parse_item_id item_id;
  let '(target, form_id, question_id) := tfq : Target * Z * option Z in
  match question_id with
  | Some _ => Err HE_NotFound
  | None =>
      path ← ok_or HE_NotFound (find_item_path (root image) target);
      node ← map_err (fun _ => HE_NotFound) (find_item (root image) target);
      if negb (is_section node) then Err HE_NotASetupItem
      else
        n ← usub (blen path) 1;
        file ← node_at (root image) (take (Z.to_nat n) path);
        mret (file, node, form_id)
  end.

Definition has_form (form_id : Z) (fs : FormSetInfo) : bool :=
  existsb (fun f => rf_form_id f =? form_id) (fi_forms fs).
Fixpoint find_form_package (b : list byte) (ranges : list (Z * Z)) (form_id : Z)
  : pure (option (list byte)) :=
  match ranges with
  | [] => mret None
  | r :: ranges =>
      pkg ← slice b (fst r) (fst r + snd r);
      fs ← parse_form_package pkg;
      if match fs with Some fs => has_form form_id fs | None => false end then mret (Some pkg)
      else find_form_package b ranges form_id
  end.

Definition package_formset_guid (pkg : list byte) : pure ustring :=
  fs ← parse_form_package pkg;
  mret match fs with Some fs => guid_to_upper_string (fi_guid fs) | None => [] end.
Definition form_title (pkg : list byte) (form_id : Z) (texts : titles) : pure (option ustring) :=
  fs ← parse_form_package pkg;
  mret (fs ← fs; form ← List.find (fun f => rf_form_id f =? form_id) (fi_forms fs); texts !! rf_title form).

Definition export_form (image : Image) (item_id : ustring) : outcome HiiError FormExport :=
  fnf ← resolve_form image item_id;
  let '(file, node, form_id) := fnf : FfsNode * FfsNode * Z in
  ranges ← lift (form_package_ranges_read node);
  pkg ← lift (find_form_package (body node) ranges form_id);
  pkg ← ok_or HE_NotFound pkg;
  fallback ← lift (image_string_fallback (root image));
  texts ← lift (prompt_texts file fallback);
  il ← lift (collect_items pkg form_id texts);
  vl ← lift (fill_varstores (fst il) pkg (snd il));
  formset_guid ← lift (package_formset_guid pkg);
  title ← lift (form_title pkg form_id texts);
  let form := {| fs_id := form_id; fs_title := default (us "Form " ++ dec_string form_id) title;
                 fs_items := fst il |} in
  parent ← lift (parent_form_id image formset_guid form_id);
  entries ← (if negb (parent =? 0) then lift (parent_goto_entries pkg parent form_id texts) else mret []);
  mret {| fe_schema := {| fss_formset_guid := formset_guid; fss_title := []; fss_help := [];
                          fss_class_guids := []; fss_varstores := fst vl; fss_default_stores := [];
                          fss_forms := [form]; fss_setupdata_guid := None; fss_amitse_guid := None |};
          fe_formset_guid := formset_guid; fe_parent_form_id := parent; fe_parent_entries := entries;
          fe_lossy := snd vl |}.

End FormExport.
