(* ===== verification/Storage.v ===== *)
(** The disk and the storage of the engine: paths, files and their system calls, the tables
    of the database ([storage/schema.rs], [storage/mod.rs]), and the
    storage as programs over a shared state: the files of images, artifacts and snapshots ([storage/image.rs], [storage/artifact.rs]), the statements on
    the database under its lock ([storage/mod.rs]) and the sessions ([session.rs]). *)
From stdpp Require Import gmap sorting.
From S2P Require Import Prelude Text Types.

(** ** Paths *)

Definition DOT : Z := 46.
Definition SEP : Z := 47.

(** The components of a path from the root, after the system resolved it. *)
Definition path : Type := list ustring.

Definition is_absolute (s : ustring) : bool :=
  match s with c :: _ => c =? SEP | [] => false end.

(** [base.join(s)]: an absolute path replaces the base. *)
Definition join_path (base s : ustring) : ustring :=
  if is_absolute s then s
  else match last base with
       | None => s
       | Some c => if c =? SEP then base ++ s else base ++ SEP :: s
       end.

Definition component (acc : path) (c : ustring) : path :=
  if bool_decide (c = [] \/ c = [DOT]) then acc
  else if bool_decide (c = [DOT; DOT]) then removelast acc
  else acc ++ [c].
(** No symbolic links: [..] is the parent. *)
Definition resolve (cwd : path) (s : ustring) : path :=
  fold_left component (split_on SEP s) (if is_absolute s then [] else cwd).

Definition parent (p : path) : path := removelast p.

(** [path.file_name()]. *)
Definition file_name (s : ustring) : option ustring :=
  c ← last (List.filter (fun c => negb (bool_decide (c = [] \/ c = [DOT]))) (split_on SEP s));
  if bool_decide (c = [DOT; DOT]) then None else Some c.

(** [path.file_stem()] of a file name: up to the last dot, unless it is the first. *)
Definition file_stem (name : ustring) : ustring :=
  match rsplit_once DOT name with
  | Some (c :: stem, _) => c :: stem
  | _ => name
  end.
(** [path.with_extension(ext)] of a path that ends in a file name. *)
Definition with_extension (s ext : ustring) : ustring :=
  match rsplit_once SEP s with
  | Some (dir, name) => dir ++ SEP :: file_stem name ++ DOT :: ext
  | None => file_stem s ++ DOT :: ext
  end.

(** ** Files *)

Inductive entry := File (data : list byte) | Dir.
#[export] Instance entry_eq_dec : EqDecision entry.
Proof. solve_decision. Defined.

Abbreviation files := (gmap path entry).

Inductive IoError := IO_NotFound | IO_IsADirectory | IO_NotADirectory | IO_Fault.

(** An operation that the system fails: how much of it was done, and what a failed
    removal of a directory leaves. *)
Record Fault := { f_done : nat; f_left : list path }.

Definition is_dir (d : files) (p : path) : bool :=
  bool_decide (p = []) || bool_decide (d !! p = Some Dir).

Definition io (A : Type) : Type := files -> files * outcome IoError A.

Definition fs_read (f : option Fault) (p : path) : io (list byte) := fun d =>
  (d, match f, d !! p with
      | Some _, _ => Err IO_Fault
      | None, Some (File b) => Ok b
      | None, Some Dir => Err IO_IsADirectory
      | None, None => Err IO_NotFound
      end).

(** [fs::write]: creates or truncates the file, then writes. *)
Definition fs_write (f : option Fault) (p : path) (b : list byte) : io unit := fun d =>
  if is_dir d p then (d, Err IO_IsADirectory)
  else if negb (is_dir d (parent p)) then (d, Err IO_NotFound)
  else match f with
       | None => (<[p := File b]> d, Ok tt)
       | Some f => match f_done f with
                   | O => (d, Err IO_Fault)
                   | S n => (<[p := File (take n b)]> d, Err IO_Fault)
                   end
       end.

Definition fs_rename (f : option Fault) (p q : path) : io unit := fun d =>
  match f, d !! p with
  | Some _, _ => (d, Err IO_Fault)
  | None, Some (File b) =>
      if is_dir d q then (d, Err IO_IsADirectory)
      else if negb (is_dir d (parent q)) then (d, Err IO_NotFound)
      else (<[q := File b]> (delete p d), Ok tt)
  | None, Some Dir => (d, Err IO_IsADirectory)
  | None, None => (d, Err IO_NotFound)
  end.

(** The ancestors of a path from the root down, with the path. *)
Definition ancestors (p : path) : list path :=
  map (fun n => take (S n) p) (seq 0 (length p)).
Definition make_dir (s : files * option IoError) (p : path) : files * option IoError :=
  match s with
  | (d, Some e) => (d, Some e)
  | (d, None) => match d !! p with
                 | Some (File _) => (d, Some IO_NotADirectory)
                 | Some Dir => (d, None)
                 | None => (<[p := Dir]> d, None)
                 end
  end.
Definition fs_create_dir_all (f : option Fault) (p : path) : io unit := fun d =>
  let dirs := match f with None => ancestors p | Some f => take (f_done f) (ancestors p) end in
  let '(d, e) := fold_left make_dir dirs (d, None) in
  (d, match f, e with
      | _, Some e => Err e
      | Some _, None => Err IO_Fault
      | None, None => Ok tt
      end).

Definition fs_remove_file (f : option Fault) (p : path) : io unit := fun d =>
  match f, d !! p with
  | Some _, _ => (d, Err IO_Fault)
  | None, Some (File _) => (delete p d, Ok tt)
  | None, Some Dir => (d, Err IO_IsADirectory)
  | None, None => (d, Err IO_NotFound)
  end.

(** Everything at or below [p] but what is left. *)
Definition without (p : path) (left : list path) (d : files) : files :=
  filter (fun qe => ~ p `prefix_of` fst qe \/ fst qe ∈ left) d.
Definition fs_remove_dir_all (f : option Fault) (p : path) : io unit := fun d =>
  match d !! p, f with
  | Some Dir, None => (without p [] d, Ok tt)
  | Some Dir, Some f => (without p (f_left f) d, Err IO_Fault)
  | Some (File _), _ => (d, Err IO_NotADirectory)
  | None, _ => (d, Err IO_NotFound)
  end.

Definition fs_exists (d : files) (p : path) : bool := bool_decide (is_Some (d !! p)) || bool_decide (p = []).

(** [metadata.len()]; a directory has the length of a block. *)
Definition DIR_LEN : Z := 4096.
Definition fs_len (f : option Fault) (d : files) (p : path) : option Z :=
  match f, d !! p with
  | None, Some (File b) => Some (blen b)
  | None, Some Dir => Some DIR_LEN
  | _, _ => None
  end.

(** ** Tables *)

Record SessionRow := {
  se_id : ustring; se_token : ustring; se_name : ustring;
  se_created_at : Z; se_last_activity : Z
}.
Record ArtifactRow := {
  ar_id : ustring; ar_session_id : ustring; ar_kind : ustring; ar_path : ustring;
  ar_size : Z; ar_source : ustring; ar_created_at : Z
}.
Record ImageRow := {
  im_id : ustring; im_session_id : ustring; im_name : ustring; im_path : ustring;
  im_mode : Z; im_size : Z; im_created_at : Z; im_last_activity : Z
}.
Record ImageSnapshotRow := {
  sn_id : ustring; sn_image_id : ustring; sn_name : ustring; sn_size : Z; sn_created_at : Z
}.

(** The rows of each table in the order of their insertion. *)
Record Db := {
  sessions : list SessionRow;
  artifacts : list ArtifactRow;
  images : list ImageRow;
  image_snapshots : list ImageSnapshotRow
}.

(** A constraint is violated, or the database cannot be read or written. *)
Inductive SqlError := SQL_Constraint | SQL_Fault.
Abbreviation sql := (outcome SqlError).

Definition is_id {R} (id : R -> ustring) (k : ustring) (r : R) : bool := bool_decide (id r = k).
Definition rows {R} (key : R -> ustring) (k : ustring) (l : list R) : list R := List.filter (is_id key k) l.
Definition others {R} (key : R -> ustring) (k : ustring) (l : list R) : list R :=
  List.filter (fun r => negb (is_id key k r)) l.
(** [query_row(..).optional()] *)
Definition find_row {R} (key : R -> ustring) (k : ustring) (l : list R) : option R := head (rows key k l).
Definition update_rows {R} (key : R -> ustring) (k : ustring) (f : R -> R) (l : list R) : list R :=
  map (fun r => if is_id key k r then f r else r) l.

(** Inserting a row: the primary key is new, the referenced row exists. *)
Definition insert_row {R} (key : R -> ustring) (r : R) (referenced : bool) (l : list R) : sql (list R) :=
  if bool_decide (rows key (key r) l = []) && referenced then Ok (l ++ [r]) else Err SQL_Constraint.
Definition has_row {R} (key : R -> ustring) (k : ustring) (l : list R) : bool :=
  negb (bool_decide (rows key k l = [])).

Definition insert_session (id token name : ustring) (now : Z) (db : Db) : sql Db :=
  l ← insert_row se_id {| se_id := id; se_token := token; se_name := name;
                          se_created_at := now; se_last_activity := now |} true (sessions db);
  mret {| sessions := l; artifacts := artifacts db; images := images db;
          image_snapshots := image_snapshots db |}.
Definition get_session (id : ustring) (db : Db) : option SessionRow := find_row se_id id (sessions db).
Definition touch_session (id : ustring) (now : Z) (db : Db) : Db :=
  {| sessions := update_rows se_id id (fun r =>
       {| se_id := se_id r; se_token := se_token r; se_name := se_name r;
          se_created_at := se_created_at r; se_last_activity := now |}) (sessions db);
     artifacts := artifacts db; images := images db; image_snapshots := image_snapshots db |}.

Definition delete_artifacts_for_session (session_id : ustring) (db : Db) : Db :=
  {| sessions := sessions db; artifacts := others ar_session_id session_id (artifacts db);
     images := images db; image_snapshots := image_snapshots db |}.

(** [ON DELETE CASCADE]: what referenced a row that is gone. *)
Definition cascade_snapshots (db : Db) : Db :=
  {| sessions := sessions db; artifacts := artifacts db; images := images db;
     image_snapshots := List.filter (fun s => has_row im_id (sn_image_id s) (images db)) (image_snapshots db) |}.
Definition cascade_sessions (db : Db) : Db :=
  cascade_snapshots
    {| sessions := sessions db;
       artifacts := List.filter (fun a => has_row se_id (ar_session_id a) (sessions db)) (artifacts db);
       images := List.filter (fun i => has_row se_id (im_session_id i) (sessions db)) (images db);
       image_snapshots := image_snapshots db |}.
Definition delete_session_row (id : ustring) (db : Db) : Db :=
  cascade_sessions
    {| sessions := others se_id id (sessions db); artifacts := artifacts db; images := images db;
       image_snapshots := image_snapshots db |}.
Definition delete_image (id : ustring) (db : Db) : Db :=
  cascade_snapshots
    {| sessions := sessions db; artifacts := artifacts db; images := others im_id id (images db);
       image_snapshots := image_snapshots db |}.
Definition delete_images_for_session (session_id : ustring) (db : Db) : Db :=
  cascade_snapshots
    {| sessions := sessions db; artifacts := artifacts db;
       images := others im_session_id session_id (images db);
       image_snapshots := image_snapshots db |}.

Definition list_sessions (db : Db) : list SessionRow := sessions db.
Definition list_expired (ttl_secs now : Z) (db : Db) : list ustring :=
  map se_id (List.filter (fun r => se_last_activity r <? now - ttl_secs) (sessions db)).

Definition insert_artifact (id session_id kind path : ustring) (size : Z) (source : ustring) (now : Z)
  (db : Db) : sql Db :=
  l ← insert_row ar_id {| ar_id := id; ar_session_id := session_id; ar_kind := kind; ar_path := path;
                          ar_size := size; ar_source := source; ar_created_at := now |}
        (has_row se_id session_id (sessions db)) (artifacts db);
  mret {| sessions := sessions db; artifacts := l; images := images db;
          image_snapshots := image_snapshots db |}.
Definition get_artifact (id : ustring) (db : Db) : option ArtifactRow := find_row ar_id id (artifacts db).
Definition list_artifacts (session_id : ustring) (db : Db) : list ArtifactRow :=
  rows ar_session_id session_id (artifacts db).

Definition insert_image (id session_id name path : ustring) (mode size now : Z) (db : Db) : sql Db :=
  l ← insert_row im_id {| im_id := id; im_session_id := session_id; im_name := name; im_path := path;
                          im_mode := mode; im_size := size; im_created_at := now;
                          im_last_activity := now |}
        (has_row se_id session_id (sessions db)) (images db);
  mret {| sessions := sessions db; artifacts := artifacts db; images := l;
          image_snapshots := image_snapshots db |}.
Definition get_image (id : ustring) (db : Db) : option ImageRow := find_row im_id id (images db).
Definition list_images (session_id : ustring) (db : Db) : list ImageRow :=
  rows im_session_id session_id (images db).
Definition touch_image (id : ustring) (now : Z) (db : Db) : Db :=
  {| sessions := sessions db; artifacts := artifacts db;
     images := update_rows im_id id (fun r =>
       {| im_id := im_id r; im_session_id := im_session_id r; im_name := im_name r;
          im_path := im_path r; im_mode := im_mode r; im_size := im_size r;
          im_created_at := im_created_at r; im_last_activity := now |}) (images db);
     image_snapshots := image_snapshots db |}.

Definition insert_image_snapshot (id image_id name : ustring) (size created_at : Z) (db : Db) : sql Db :=
  l ← insert_row sn_id {| sn_id := id; sn_image_id := image_id; sn_name := name; sn_size := size;
                          sn_created_at := created_at |}
        (has_row im_id image_id (images db)) (image_snapshots db);
  mret {| sessions := sessions db; artifacts := artifacts db; images := images db;
          image_snapshots := l |}.
Definition get_image_snapshot (id : ustring) (db : Db) : option ImageSnapshotRow :=
  find_row sn_id id (image_snapshots db).

(** [ORDER BY created_at]. *)
Definition created_le (a b : ImageSnapshotRow) : Prop := sn_created_at a <= sn_created_at b.
#[export] Instance created_le_dec a b : Decision (created_le a b).
Proof. unfold created_le. apply _. Defined.
Definition list_image_snapshots (image_id : ustring) (db : Db) : list ImageSnapshotRow :=
  merge_sort created_le (rows sn_image_id image_id (image_snapshots db)).

(** ** Programs *)

Section Programs.
Context {GL : GuidLib}.

(** The database, the files and the images in memory, which all requests share. *)
Record World := { db : Db; disk : files; cache : gmap ustring Image }.
Definition with_db (d : Db) (w : World) : World := {| db := d; disk := disk w; cache := cache w |}.
Definition with_disk (d : files) (w : World) : World := {| db := db w; disk := d; cache := cache w |}.
Definition with_cache (c : gmap ustring Image) (w : World) : World :=
  {| db := db w; disk := disk w; cache := c |}.

(** What the system gives to one step: the time, a fresh uuid, and whether its calls fail. *)
Record Input := { i_now : Z; i_uuid : ustring; i_fault : list (option Fault) }.
Definition fault (k : nat) (i : Input) : option Fault := default None (i_fault i !! k).

(** A request is a sequence of steps. A step is a call of the system or what runs under
    one lock; between two steps other requests can run, or the process can end. *)
Inductive prog (E A : Type) : Type :=
| Done (o : outcome E A)
| Step (f : Input -> World -> World * prog E A).
Arguments Done {E A} o.
Arguments Step {E A} f.

Fixpoint prog_bind {E A B} (p : prog E A) (k : A -> prog E B) : prog E B :=
  match p with
  | Done (Ok a) => k a
  | Done (Err e) => Done (Err e)
  | Done Panic => Done Panic
  | Done Diverge => Done Diverge
  | Step f => Step (fun i w => match f i w with (w', p') => (w', prog_bind p' k) end)
  end.
#[export] Instance prog_mret {E} : MRet (prog E) := fun A a => Done (Ok a).
#[export] Instance prog_mbind {E} : MBind (prog E) := fun A B k p => prog_bind p k.

(** [p.map_err(g)] and [let _ = p]. *)
Fixpoint on_error {E F A} (g : E -> outcome F A) (p : prog E A) : prog F A :=
  match p with
  | Done (Ok a) => Done (Ok a)
  | Done (Err e) => Done (g e)
  | Done Panic => Done Panic
  | Done Diverge => Done Diverge
  | Step f => Step (fun i w => match f i w with (w', p') => (w', on_error g p') end)
  end.
Definition prog_map_err {E F A} (g : E -> F) : prog E A -> prog F A := on_error (fun e => Err (g e)).
Definition ignore {E F} (p : prog E unit) : prog F unit := on_error (fun _ => Ok tt) p.

(** One step with a result. *)
Definition step {E A} (f : Input -> World -> World * outcome E A) : prog E A :=
  Step (fun i w => let '(w', o) := f i w in (w', Done o)).
(** What reads the clock or draws a uuid only. *)
Definition draw {E A} (f : Input -> A) : prog E A := step (fun i w => (w, Ok (f i))).
Fixpoint prog_each {E A} (f : A -> prog E unit) (l : list A) : prog E unit :=
  match l with
  | [] => mret tt
  | a :: l => _ ← f a; prog_each f l
  end.

(** *** Runs *)

(** The inputs of the steps; without an outcome the process ended before the next step. *)
Fixpoint run {E A} (ins : list Input) (p : prog E A) (w : World) : World * option (outcome E A) :=
  match p with
  | Done o => (w, Some o)
  | Step f => match ins with
              | [] => (w, None)
              | i :: ins => let '(w', p') := f i w in run ins p' w'
              end
  end.

(** Requests that run at the same time: which one makes the next step, with which input. *)
Fixpoint schedule {E A} (s : list (nat * Input)) (ps : list (prog E A)) (w : World)
  : World * list (prog E A) :=
  match s with
  | [] => (w, ps)
  | (t, i) :: s =>
      match ps !! t with
      | Some (Step f) => let '(w', p') := f i w in schedule s (<[t := p']> ps) w'
      | _ => schedule s ps w
      end
  end.

(** ** Calls of the system *)

(** [anyhow::Error]. *)
Inductive Anyhow := AE_Io (e : IoError) | AE_Sql (e : SqlError).

Definition on_disk {A} (f : option Fault -> io A) : prog Anyhow A :=
  step (fun i w => let '(d, o) := f (fault 0 i) (disk w) in (with_disk d w, map_err AE_Io o)).
Definition io_fault {A} (f : option Fault -> files -> A) : prog Anyhow A :=
  step (fun i w => (w, Ok (f (fault 0 i) (disk w)))).

(** A statement: what fails has no effect. *)
Definition execute (k : nat) (st : Z -> Db -> sql Db) (i : Input) (d : Db) : Db * outcome Anyhow unit :=
  match fault k i with
  | Some _ => (d, Err (AE_Sql SQL_Fault))
  | None => match st (i_now i) d with
            | Ok d' => (d', Ok tt)
            | Err e => (d, Err (AE_Sql e))
            | Panic => (d, Panic)
            | Diverge => (d, Diverge)
            end
  end.
Definition locked_db {A} (f : Input -> Db -> Db * outcome Anyhow A) : prog Anyhow A :=
  step (fun i w => let '(d, o) := f i (db w) in (with_db d w, o)).
Definition statement (st : Z -> Db -> sql Db) : prog Anyhow unit := locked_db (execute 0 st).
Definition query {A} (q : Z -> Db -> A) : prog Anyhow A :=
  locked_db (fun i d => (d, match fault 0 i with
                            | Some _ => Err (AE_Sql SQL_Fault)
                            | None => Ok (q (i_now i) d)
                            end)).

End Programs.
Arguments Step {GL E A} f.
Arguments Done {GL E A} o.

Section Storage.
Context {GL : GuidLib}.
(** The current directory, and the configuration of [SessionManager]. *)
Context (cwd : path) (data_dir : ustring) (ttl_secs : Z) (purge_artifacts : bool).

Definition at_path (s : ustring) : path := resolve cwd s.

(** ** [storage/image.rs] *)

Definition BIN : ustring := us ".bin".

Definition session_dir (id : ustring) : ustring := join_path (join_path data_dir (us "sessions")) id.
Definition images_dir (session_id : ustring) : ustring := join_path (session_dir session_id) (us "images").
Definition image_file (session_id image_id : ustring) : ustring :=
  join_path (images_dir session_id) (image_id ++ BIN).
Definition snapshots_dir (session_id image_id : ustring) : ustring :=
  join_path (images_dir session_id) (image_id ++ us ".snapshots").
Definition snapshot_file (session_id image_id snapshot_id : ustring) : ustring :=
  join_path (snapshots_dir session_id image_id) (snapshot_id ++ BIN).

Definition atomic_write (p : ustring) (b : list byte) : prog Anyhow unit :=
  _ ← on_disk (fun f => fs_create_dir_all f (parent (at_path p)));
  let tmp := with_extension p (us "bin.tmp") in
  _ ← on_disk (fun f => fs_write f (at_path tmp) b);
  on_disk (fun f => fs_rename f (at_path tmp) (at_path p)).

Definition store_image_file (session_id image_id : ustring) (b : list byte) : prog Anyhow ustring :=
  _ ← on_disk (fun f => fs_create_dir_all f (at_path (images_dir session_id)));
  let p := image_file session_id image_id in
  _ ← atomic_write p b;
  mret p.

Definition read_image_file (session_id image_id : ustring) : prog Anyhow (list byte) :=
  on_disk (fun f => fs_read f (at_path (image_file session_id image_id))).

Definition remove_image_file (session_id image_id : ustring) : prog Anyhow unit :=
  let p := at_path (image_file session_id image_id) in
  exist ← io_fault (fun _ d => fs_exists d p);
  if (exist : bool) then on_disk (fun f => fs_remove_file f p) else mret tt.

Definition store_snapshot_file (session_id image_id snapshot_id : ustring) (b : list byte)
  : prog Anyhow unit :=
  _ ← on_disk (fun f => fs_create_dir_all f (at_path (snapshots_dir session_id image_id)));
  atomic_write (snapshot_file session_id image_id snapshot_id) b.

Definition read_snapshot_file (session_id image_id snapshot_id : ustring) : prog Anyhow (list byte) :=
  on_disk (fun f => fs_read f (at_path (snapshot_file session_id image_id snapshot_id))).

(** ** [storage/artifact.rs] *)

Definition artifacts_dir (session_id : ustring) : ustring :=
  join_path (session_dir session_id) (us "artifacts").
Definition artifact_file (session_id artifact_id : ustring) : ustring :=
  join_path (artifacts_dir session_id) (artifact_id ++ BIN).

Definition store_artifact_file (session_id artifact_id : ustring) (b : list byte) : prog Anyhow ustring :=
  _ ← on_disk (fun f => fs_create_dir_all f (at_path (artifacts_dir session_id)));
  let p := artifact_file session_id artifact_id in
  _ ← on_disk (fun f => fs_write f (at_path p) b);
  mret p.

Definition read_artifact_file (session_id artifact_id : ustring) : prog Anyhow (list byte) :=
  on_disk (fun f => fs_read f (at_path (artifact_file session_id artifact_id))).

Definition write_artifact_to_output (session_id artifact_id output_path : ustring) : prog Anyhow unit :=
  b ← read_artifact_file session_id artifact_id;
  on_disk (fun f => fs_write f (at_path output_path) b).

(** ** [session.rs] *)

Definition create_session (name : ustring) : prog Anyhow (ustring * ustring) :=
  id ← draw i_uuid;
  token ← draw i_uuid;
  _ ← statement (fun now => insert_session id token name now);
  _ ← on_disk (fun f => fs_create_dir_all f (at_path (session_dir id)));
  mret (id, token).

(** Two statements under one lock. *)
Definition delete_session (id : ustring) : prog Anyhow unit :=
  locked_db (fun i d =>
    match execute 0 (fun _ d => Ok (delete_artifacts_for_session id d)) i d with
    | (d, Ok _) => execute 1 (fun _ d => Ok (delete_session_row id d)) i d
    | r => r
    end).
Definition delete_session_metadata (id : ustring) : prog Anyhow unit := delete_session id.

Definition destroy_session (id : ustring) (purge_files : bool) : prog Anyhow unit :=
  _ ← delete_session_metadata id;
  if purge_files
  then ignore (on_disk (fun f => fs_remove_dir_all f (at_path (session_dir id))))
  else mret tt.

Definition touch (id : ustring) : prog Anyhow unit := statement (fun now d => Ok (touch_session id now d)).

Definition validate_token {E} (session_id token : ustring) : prog E bool :=
  on_error (fun _ => Ok false)
    (row ← query (fun _ => get_session session_id);
     mret (match row with Some row => bool_decide (se_token row = token) | None => false end)).

Definition session_exists {E} (id : ustring) : prog E bool :=
  on_error (fun _ => Ok false) (row ← query (fun _ => get_session id); mret (bool_decide (is_Some row))).

(** One tick of the collector. *)
Definition gc_tick {E} : prog E unit :=
  expired ← on_error (fun _ => Ok []) (query (list_expired ttl_secs));
  prog_each (fun id => ignore (destroy_session id purge_artifacts)) expired.

End Storage.
