(* ===== verification/Listing.v ===== *)
(** Listing and searching the tree of an image ([parser/image.rs]). *)
From S2P Require Import Prelude Text Types Ffs Tiano Codec Parser Target Ops Nvar.

(** The Unicode lower-case mapping of the standard library; the code relies on it
    mapping ASCII text to ASCII lower case. *)
Definition ascii_lower (c : Z) : Z := if (65 <=? c) && (c <=? 90) then c + 32 else c.
Class Lowercase := {
  to_lowercase : ustring -> ustring;
  to_lowercase_ascii : forall s, Forall (fun c => 0 <= c < 128) s -> to_lowercase s = map ascii_lower s
}.

Inductive SearchMode := SM_Name | SM_Utf8 | SM_Utf16Le | SM_Bytes.

Definition match_name `{Lowercase} (name query : ustring) : bool :=
  match query with
  | [] => false
  | _ => contains (to_lowercase name) (to_lowercase query)
  end.

Definition find_utf8 (body needle : list byte) : bool :=
  match needle with
  | [] => false
  | _ => contains body needle
  end.

Definition find_utf16le (body : list byte) (query : ustring) : bool :=
  match query with
  | [] => false
  | _ => find_utf8 body (concat (map (le_enc 2) (encode_utf16 query)))
  end.

Definition hex_nibble (c : byte) : option Z :=
  let c := b2z c in
  if (48 <=? c) && (c <=? 57) then Some (c - 48)
  else if (97 <=? c) && (c <=? 102) then Some (c - 97 + 10)
  else if (65 <=? c) && (c <=? 70) then Some (c - 65 + 10)
  else None.

(** The loop over pairs; the length is even, so [bytes[i + 1]] exists. *)
Fixpoint hex_pairs (bs : list byte) : option (list byte) :=
  match bs with
  | h :: l :: bs =>
      hi ← hex_nibble h;
      lo ← hex_nibble l;
      rest ← hex_pairs bs;
      Some (z2b (Z.lor (Z.shiftl hi 4) lo) :: rest)
  | _ => Some []
  end.

Definition parse_hex_pattern (s : ustring) : option (list byte) :=
  let cleaned := List.filter (fun c => negb (is_whitespace c)) s in
  if bool_decide (cleaned = []) || negb (str_len cleaned mod 2 =? 0) then None
  else hex_pairs (as_bytes cleaned).

(** ** Properties *)

Lemma find_utf8_spec body needle :
  find_utf8 body needle = true <->
  needle <> [] /\ exists i, 0 <= i /\ i + blen needle <= blen body /\
                    sub body i (i + blen needle) = needle.
Proof.
  destruct needle as [|b needle]; [split; [done|]; by intros [? _]|]. unfold find_utf8.
  set (p := b :: needle). rewrite contains_spec. pose proof (blen_nonneg p). split.
  - intros (l & r & ->). split; [done|]. pose proof (blen_nonneg l). pose proof (blen_nonneg r).
    exists (blen l). rewrite !blen_app. split_and!; [lia|lia|].
    rewrite sub_app_r, Z.sub_diag by lia. replace (blen l + blen p - blen l) with (blen p) by lia.
    apply sub_app_exact.
  - intros (_ & i & Hi & Hle & Hs). exists (sub body 0 i), (sub body (i + blen p) (blen body)).
    rewrite <-Hs at 1. rewrite sub_join by lia. rewrite sub_join by lia. by rewrite sub_full.
Qed.

(** The message [Node] of [engine.proto]. *)
Record Node := {
  nd_path : ustring;
  nd_type : Z;
  nd_subtype : Z;
  nd_guid : ustring;
  nd_offset : Z;
  nd_size : Z;
  nd_name : ustring;
  nd_action : Z;
  nd_region : ustring;
  nd_is_nvar : bool
}.

Section Listing.
Context {GL : GuidLib} {LC : Lowercase}.

(** ** Names *)

(** [take_while(|&c| c != 0)]. *)
Fixpoint until_zero (us : list Z) : list Z :=
  match us with
  | [] => []
  | u :: us => if u =? 0 then [] else u :: until_zero us
  end.

(** [trim_end_matches('\u{0}')]. *)
Definition trim_end_nul (s : ustring) : ustring :=
  foldr (fun c r => match r with [] => if c =? 0 then [] else [c] | _ => c :: r end) [] s.

Definition decode_utf16le_body (body : list byte) : ustring :=
  trim_end_nul (from_utf16_lossy (until_zero (utf16_units body))).

Definition is_ui_or_version (n : FfsNode) : bool :=
  bool_decide (node_type n = T_Section)
  && (bool_decide (subtype n = EFI_SECTION_UI) || bool_decide (subtype n = EFI_SECTION_VERSION)).
Definition is_encapsulation (n : FfsNode) : bool :=
  bool_decide (node_type n = T_Section)
  && (bool_decide (subtype n = EFI_SECTION_COMPRESSION)
      || bool_decide (subtype n = EFI_SECTION_GUID_DEFINED)).

(** [find_lifted_name(&n.children, depth)]. *)
Fixpoint find_lifted_name (n : FfsNode) (depth : Z) : option ustring :=
  if 8 <=? depth then None
  else
    match first_hit (fun _ child => if is_ui_or_version child
                                    then Some (decode_utf16le_body (body child)) else None)
            0 (children n) with
    | Some name => Some name
    | None =>
        first_hit (fun _ child => if is_encapsulation child
                                  then find_lifted_name child (depth + 1) else None)
          0 (children n)
    end.

Definition node_name (n : FfsNode) : pure ustring :=
  match node_type n with
  | T_Section =>
      if bool_decide (subtype n = EFI_SECTION_UI) || bool_decide (subtype n = EFI_SECTION_VERSION)
      then Ok (decode_utf16le_body (body n))
      else
        s ← is_nvar_body n;
        Ok (if (s : bool) then us "NVRAM store" else [])
  | T_File =>
      s ← is_nvar_body n;
      Ok (if (s : bool) then us "NVRAM store" else default [] (find_lifted_name n 0))
  | T_Region =>
      Ok (match parsing_data n with
          | PD_Region kind => region_label kind ++ us " region"
          | PD_FptPartition name => name
          | _ => []
          end)
  | _ => Ok []
  end.

(** ** Rows *)

Definition region_of (n : FfsNode) : ustring :=
  match parsing_data n with
  | PD_Region kind => region_label kind
  | PD_FptPartition _ => us "ME"
  | _ => []
  end.

(** The [Node] pushed by both traversals. *)
Definition make_row (n : FfsNode) (path name : ustring) : pure Node :=
  is_nvar ← is_nvar_body n;
  mret {| nd_path := path; nd_type := ffs_type_code (node_type n); nd_subtype := b2z (subtype n);
          nd_guid := match n_guid n with Some g => guid_to_upper_string g | None => [] end;
          nd_offset := offset n;
          nd_size := blen (header n) + blen (body n) + blen (tail n);
          nd_name := name; nd_action := action_code (action n); nd_region := region_of n;
          nd_is_nvar := is_nvar |}.

Definition child_path (path : ustring) (i : Z) : ustring :=
  match path with
  | [] => dec_string i
  | _ => path ++ [SLASH] ++ dec_string i
  end.

Definition passes (filter : option ustring) (name path : ustring) : bool :=
  match filter with
  | None => true
  | Some f => contains name f || contains path f
  end.

Fixpoint list_recursive (n : FfsNode) (path : ustring) (items : list Node)
  (filter : option ustring) : pure (list Node) :=
  name ← node_name n;
  items ← (if passes filter name path then row ← make_row n path name; mret (items ++ [row])
           else mret items);
  each_child (fun items i child => list_recursive child (child_path path i) items filter)
    0 (children n) items.

Definition list_items (root : FfsNode) (filter : option ustring) : pure (list Node) :=
  list_recursive root [] [] filter.

(** ** Search *)

Definition mode_hit (n : FfsNode) (name query : ustring) (m : SearchMode) : bool :=
  match m with
  | SM_Name => match_name name query
  | SM_Utf8 => find_utf8 (body n) (as_bytes query)
  | SM_Utf16Le => find_utf16le (body n) query
  | SM_Bytes => match parse_hex_pattern query with
                | Some p => find_utf8 (body n) p
                | None => false
                end
  end.

Definition section_matches (n : FfsNode) (query : ustring) (modes : list SearchMode) : pure bool :=
  name ← node_name n;
  mret (existsb (mode_hit n name query) modes).

(** [String::truncate] to a number of UTF-8 bytes. *)
Fixpoint truncate (s : ustring) (n : Z) : ustring :=
  match s with
  | [] => []
  | c :: s => if n <=? 0 then [] else c :: truncate s (n - len_utf8 c)
  end.

(** The state of the search: the path buffer and the rows found. *)
Definition push_child (path : ustring) (i : Z) : ustring :=
  (match path with [] => path | _ => path ++ [SLASH] end) ++ dec_string i.

(** The children loop with its early return ([inr]). *)
Section SearchLoop.
Context (rec : FfsNode -> ustring -> list Node -> pure (ustring * list Node)) (limit saved_len : Z).
Fixpoint search_children (i : Z) (cs : list FfsNode) (path : ustring) (out : list Node)
  : pure (ustring * list Node) :=
  match cs with
  | [] => Ok (path, out)
  | c :: cs =>
      r ← rec c (push_child path i) out;
      let path := truncate (fst r) saved_len in
      if limit <=? blen (snd r) then Ok (path, snd r)
      else search_children (i + 1) cs path (snd r)
  end.
End SearchLoop.

Fixpoint search_recursive (n : FfsNode) (path : ustring) (query : ustring)
  (modes : list SearchMode) (limit : Z) (out : list Node) : pure (ustring * list Node) :=
  if limit <=? blen out then Ok (path, out)
  else
    hit ← (if bool_decide (node_type n = T_Section) then section_matches n query modes
           else mret false);
    out ← (if (hit : bool) then name ← node_name n; row ← make_row n path name; mret (out ++ [row])
           else mret out);
    if hit && (limit <=? blen out) then Ok (path, out)
    else
      search_children (fun c path out => search_recursive c path query modes limit out)
        limit (str_len path) 0 (children n) path out.

Definition search (root : FfsNode) (query : ustring) (modes : list SearchMode) (limit : Z)
  : pure (list Node) :=
  match modes with
  | [] => Ok []
  | _ =>
      let effective_limit := if limit =? 0 then usize_max else limit in
      r ← search_recursive root [] query modes effective_limit [];
      mret (snd r)
  end.

End Listing.
