(* ===== verification/Instances.v ===== *)
(** A concrete instance of the interfaces of the external crates, on which the
    definitions of the development evaluate: GUIDs as 16-byte arrays with the
    mixed-endian text form of the UEFI specification, and an LZMA codec that
    stores its input behind the 13-byte header of an LZMA-alone stream. *)
From S2P Require Import Prelude Types Codec Listing.
From S2P Require Import Ffs.

Module GuidInst.

Inductive t := mk (b0 b1 b2 b3 b4 b5 b6 b7 b8 b9 b10 b11 b12 b13 b14 b15 : byte).

Definition to_bytes (g : t) : list byte :=
  let '(mk b0 b1 b2 b3 b4 b5 b6 b7 b8 b9 b10 b11 b12 b13 b14 b15) := g in
  [b0; b1; b2; b3; b4; b5; b6; b7; b8; b9; b10; b11; b12; b13; b14; b15].

Definition nth_byte (bs : list byte) (i : nat) : byte := default x00 (bs !! i).

Definition of_array (bs : list byte) : t :=
  let b := nth_byte bs in
  mk (b 0%nat) (b 1%nat) (b 2%nat) (b 3%nat) (b 4%nat) (b 5%nat) (b 6%nat) (b 7%nat)
    (b 8%nat) (b 9%nat) (b 10%nat) (b 11%nat) (b 12%nat) (b 13%nat) (b 14%nat) (b 15%nat).

Lemma length_to_bytes (g : t) : length (to_bytes g) = 16%nat.
Proof. by destruct g. Qed.

Lemma of_to_bytes (g : t) : of_array (to_bytes g) = g.
Proof. by destruct g. Qed.

Lemma to_of_bytes bs : length bs = 16%nat -> to_bytes (of_array bs) = bs.
Proof. intros Hl. do 16 (destruct bs as [|? bs]; [done|]). by destruct bs. Qed.

(** Lower-case hexadecimal digit of a nibble, and its value in either case. *)
Definition hexc (n : Z) : Z := if n <? 10 then 48 + n else 87 + n.
Definition unhex (c : Z) : Z :=
  if c <=? 57 then c - 48 else if c <=? 70 then c - 55 else c - 87.

Definition hi (b : byte) : Z := b2z b / 16.
Definition lo (b : byte) : Z := b2z b mod 16.

(** The text of a GUID: the first three groups are little-endian. *)
Definition to_string (bs : list byte) : ustring :=
  let h i := [hexc (hi (nth_byte bs i)); hexc (lo (nth_byte bs i))] in
  h 3%nat ++ h 2%nat ++ h 1%nat ++ h 0%nat ++ [45] ++ h 5%nat ++ h 4%nat ++ [45] ++
  h 7%nat ++ h 6%nat ++ [45] ++ h 8%nat ++ h 9%nat ++ [45] ++
  h 10%nat ++ h 11%nat ++ h 12%nat ++ h 13%nat ++ h 14%nat ++ h 15%nat.

Definition byte_at (s : ustring) (k : nat) : byte :=
  z2b (unhex (default 0 (s !! k)) * 16 + unhex (default 0 (s !! S k))).

Definition of_text (s : ustring) : list byte :=
  map (byte_at s) [6; 4; 2; 0; 11; 9; 16; 14; 19; 21; 24; 26; 28; 30; 32; 34]%nat.

Definition try_parse (s : ustring) : option t :=
  if guid_text_ok s then Some (of_array (of_text s)) else None.

Lemma hi_bounds b : 0 <= hi b < 16.
Proof. unfold hi. pose proof (b2z_bounds b). zdm. Qed.
Lemma lo_bounds b : 0 <= lo b < 16.
Proof. unfold lo. apply Z.mod_pos_bound. lia. Qed.

Definition upc (c : Z) : Z := if (97 <=? c) && (c <=? 122) then c - 32 else c.

Lemma hexc_digit n : 0 <= n < 16 ->
  is_hex_digit (hexc n) = true /\ is_hex_digit (upc (hexc n)) = true /\
  unhex (upc (hexc n)) = n /\ (hexc n =? 45) = false /\ (upc (hexc n) =? 45) = false.
Proof.
  intros Hn. unfold is_hex_digit, upc, unhex, hexc. destruct (Z.ltb_spec n 10).
  - replace ((97 <=? 48 + n) && (48 + n <=? 122)) with false by lia. repeat split; try lia.
    replace (48 + n <=? 57) with true by lia. lia.
  - replace ((97 <=? 87 + n) && (87 + n <=? 122)) with true by lia. repeat split; try lia.
    replace (87 + n - 32 <=? 57) with false by lia.
    replace (87 + n - 32 <=? 70) with true by lia. lia.
Qed.

Lemma hex_byte b :
  z2b (unhex (upc (hexc (hi b))) * 16 + unhex (upc (hexc (lo b)))) = b.
Proof.
  destruct (hexc_digit (hi b) (hi_bounds b)) as (_ & _ & -> & _).
  destruct (hexc_digit (lo b) (lo_bounds b)) as (_ & _ & -> & _).
  rewrite <-(z2b_b2z b) at 3. f_equal. unfold hi, lo. zdm.
Qed.

Lemma hi_hex b : is_hex_digit (hexc (hi b)) = true.
Proof. apply hexc_digit, hi_bounds. Qed.
Lemma lo_hex b : is_hex_digit (hexc (lo b)) = true.
Proof. apply hexc_digit, lo_bounds. Qed.
Lemma hi_uhex b : is_hex_digit (upc (hexc (hi b))) = true.
Proof. apply hexc_digit, hi_bounds. Qed.
Lemma lo_uhex b : is_hex_digit (upc (hexc (lo b))) = true.
Proof. apply hexc_digit, lo_bounds. Qed.

Lemma text_ok bs : guid_text_ok (to_string bs) = true.
Proof.
  unfold guid_text_ok, to_string. generalize (nth_byte bs). intros f.
  cbn -[is_hex_digit hexc hi lo Z.eqb]. rewrite !hi_hex, !lo_hex. done.
Qed.

Lemma upper_text_ok bs : guid_text_ok (to_ascii_uppercase (to_string bs)) = true.
Proof.
  unfold guid_text_ok, to_string, to_ascii_uppercase. fold upc.
  generalize (nth_byte bs). intros f.
  change (fun c : Z => if (97 <=? c) && (c <=? 122) then c - 32 else c) with upc.
  cbn -[is_hex_digit hexc hi lo Z.eqb upc]. rewrite !hi_uhex, !lo_uhex. done.
Qed.

Lemma of_to_text bs :
  length bs = 16%nat -> of_text (to_ascii_uppercase (to_string bs)) = bs.
Proof.
  intros Hl. unfold of_text, to_string, to_ascii_uppercase.
  change (fun c : Z => if (97 <=? c) && (c <=? 122) then c - 32 else c) with upc.
  do 16 (destruct bs as [|? bs]; [done|]). destruct bs; [|done].
  cbn -[hexc hi lo upc byte_at]. unfold byte_at. cbn -[hexc hi lo upc unhex z2b Z.mul Z.add].
  by rewrite !hex_byte.
Qed.

#[export] Instance eq_dec : EqDecision t.
Proof.
  intros a b. destruct (decide (to_bytes a = to_bytes b)) as [H|H].
  - left. by rewrite <-(of_to_bytes a), <-(of_to_bytes b), H.
  - right. by intros ->.
Defined.

Lemma parse_text s : guid_text_ok s = true -> is_Some (try_parse s).
Proof. unfold try_parse. by intros ->. Qed.

Lemma parse_display (g : t) :
  try_parse (to_ascii_uppercase (to_string (to_bytes g))) = Some g.
Proof.
  unfold try_parse. rewrite upper_text_ok, of_to_text by apply length_to_bytes.
  by rewrite of_to_bytes.
Qed.

#[export] Instance lib : GuidLib := {|
  Guid := t;
  guid_to_bytes := to_bytes;
  guid_of_array := of_array;
  guid_to_string g := to_string (to_bytes g);
  guid_try_parse := try_parse;
  length_guid_to_bytes := length_to_bytes;
  guid_of_to_bytes := of_to_bytes;
  guid_to_of_bytes := to_of_bytes;
  guid_parse_text := parse_text;
  guid_parse_display := parse_display;
  guid_display_text g := text_ok (to_bytes g)
|}.
End GuidInst.

Module LowerInst.
(** Lower case on ASCII only. *)
#[export] Instance lib : Lowercase := {|
  to_lowercase := map ascii_lower;
  to_lowercase_ascii s _ := eq_refl
|}.
End LowerInst.

Module LzmaInst.

(** A stream is the 13-byte header, whose last eight bytes are the length of
    the data, and the data; trailing bytes are ignored. *)
#[export] Instance lib : LzmaLib := {|
  lzma_rs_decompress data :=
    let n := le_dec (sub data 5 13) in get_range data 13 (13 + n);
  encode_raw_lzma1 input _ := Some input
|}.
End LzmaInst.

(** Concrete firmware images on which the theorems are instantiated. *)

(** Closes an equation of closed terms by evaluating both sides. *)
Ltac vm_eq := match goal with |- ?a = ?b => exact (@eq_refl _ b <: a = b) end.

Module Samples.

#[export] Existing Instances GuidInst.lib LzmaInst.lib LowerInst.lib.

Definition zeros (n : nat) : list byte := replicate n x00.

(** An FFS file of revision 2 with an unchecked header. *)
Definition ffs_file (tag ftype : byte) (content : list byte) : list byte :=
  replicate 16 tag ++ [x00; xaa; ftype; x00] ++ le_enc 3 (24 + blen content) ++ [xf8]
  ++ content.

(** A section. *)
Definition section_bytes (stype : byte) (content : list byte) : list byte :=
  le_enc 3 (4 + blen content) ++ [stype] ++ content.

(** A firmware volume with a 56-byte header, erased to [0xFF], revision 2. *)
Definition volume (files : list byte) : list byte :=
  zeros 32 ++ le_enc 8 (56 + blen files) ++ le_enc 4 EFI_FVH_SIGNATURE
  ++ le_enc 4 EFI_FVB2_ERASE_POLARITY ++ le_enc 2 56 ++ zeros 5 ++ [x02] ++ files.

Definition file_a : list byte := ffs_file x11 x07 (section_bytes x19 [x01; x02; x03; x04]).
Definition file_b : list byte := ffs_file x22 x07 (section_bytes x10 [x05; x06; x07; x08]).
Definition file_c : list byte := ffs_file x33 x07 (section_bytes x19 [x09; x0a; x0b; x0c]).

(** Padding, one volume with two files and free space, padding. *)
Definition image : list byte :=
  replicate 16 x5a ++ volume (file_a ++ file_b ++ replicate 64 xff) ++ replicate 8 xa5.

(** An NVAR record with an ASCII name. *)
Definition nvar_record (name data : list byte) : list byte :=
  [x4e; x56; x41; x52] ++ le_enc 2 (12 + blen name + blen data) ++ replicate 3 xff ++ [x82; x00]
  ++ name ++ [x00] ++ data.

(** A store with the variables [Setup] and [Boot] and one GUID at its end. *)
Definition nvar_store : list byte :=
  nvar_record [x53; x65; x74; x75; x70] [x01; x02; x03; x04]
  ++ nvar_record [x42; x6f; x6f; x74] [x05; x06] ++ replicate 8 xff ++ replicate 16 x77.

(** A volume whose second file is a store. *)
Definition nvar_image : list byte :=
  volume (file_a ++ ffs_file x44 x01 nvar_store ++ replicate 64 xff).

Definition guid_of (tag : byte) : GuidInst.t := GuidInst.of_array (replicate 16 tag).

End Samples.
