(* ===== verification/HiiInst.v ===== *)
(** The constants of the crate [r-efi] as the UEFI specification fixes them, and HII
    data to instantiate the theorems on. *)
From stdpp Require Import gmap.
From S2P Require Import Prelude Text Types Ffs Instances Hii Gates Schema FormsetAdd StringPack Spf.

Module HiiInst.

#[export] Instance lib : RefiHii.
Proof.
  refine {|
    IFR_FORM_OP := x01; IFR_SUBTITLE_OP := x02; IFR_TEXT_OP := x03; IFR_ONE_OF_OP := x05;
    IFR_CHECKBOX_OP := x06; IFR_NUMERIC_OP := x07; IFR_PASSWORD_OP := x08;
    IFR_ONE_OF_OPTION_OP := x09; IFR_SUPPRESS_IF_OP := x0a; IFR_ACTION_OP := x0c;
    IFR_FORM_SET_OP := x0e; IFR_REF_OP := x0f; IFR_EQ_ID_VAL_OP := x12; IFR_GRAY_OUT_IF_OP := x19;
    IFR_DATE_OP := x1a; IFR_TIME_OP := x1b; IFR_STRING_OP := x1c; IFR_ORDERED_LIST_OP := x23;
    IFR_END_OP := x29; IFR_EQUAL_OP := x2f; IFR_UINT64_OP := x45; IFR_TRUE_OP := x46;
    IFR_FALSE_OP := x47; IFR_DEFAULT_OP := x5b; IFR_VARSTORE_OP := x24; IFR_VARSTORE_EFI_OP := x26;
    IFR_VARSTORE_NAME_VALUE_OP := x25; IFR_DEFAULTSTORE_OP := x5c;
    IFR_NUMERIC_SIZE := 3;
    IFR_DISPLAY := 0x30; IFR_DISPLAY_INT_DEC := 0x00; IFR_DISPLAY_UINT_DEC := 0x10; IFR_DISPLAY_UINT_HEX := 0x20;
    IFR_CHECKBOX_DEFAULT := 1; IFR_CHECKBOX_DEFAULT_MFG := 2;
    IFR_OPTION_DEFAULT := 0x10; IFR_OPTION_DEFAULT_MFG := 0x20; IFR_TYPE_NUM_SIZE_8 := 0;
    PACKAGE_FORMS := x02; PACKAGE_STRINGS := x04; PACKAGE_END := xdf
  |}; [apply (bool_decide_unpack _); vm_compute; exact I..|reflexivity|reflexivity|by split_and!|by split|reflexivity].
Defined.

End HiiInst.

Module HiiSamples.
#[export] Existing Instances GuidInst.lib HiiInst.lib.

(** A form behind a SUPPRESS_IF that compares two equal constants. *)
Definition uint64 (v : Z) : list byte := [IFR_UINT64_OP; x0a] ++ le_enc 8 v.
Definition gated : list byte :=
  [IFR_SUPPRESS_IF_OP; x82] ++ uint64 1 ++ uint64 1 ++ [IFR_EQUAL_OP; x02]
  ++ [IFR_FORM_OP; x86; x07; x00; x02; x00] ++ [IFR_END_OP; x02] ++ [IFR_END_OP; x02].
Definition target : GateTarget := {| gt_form_id := 7; gt_question_id := None; gt_formset_guid := None |}.
Definition gate : Gate :=
  {| g_kind := GK_Suppress; g_wraps := WR_Form 7; scope_offset := 0; expr_offset := 2; expr_end := 24;
     g_expr := GE_EqConst 1 1 |}.
Definition flip : PlannedFlip := {| flip_offset := 14; flip_from := [x01]; flip_to := [x02] |}.

(** The same comparison with operands that open and close a scope. *)
Definition quirk : list byte :=
  [IFR_SUPPRESS_IF_OP; x82; IFR_UINT64_OP; x8a] ++ le_enc 8 1 ++ [IFR_END_OP; x02; IFR_UINT64_OP; x8a]
  ++ le_enc 8 1 ++ [IFR_END_OP; x02; IFR_EQUAL_OP; x02; IFR_FORM_OP; x86; x07; x00; x02; x00; IFR_END_OP; x02; IFR_END_OP; x02].
Definition quirk_gate : Gate :=
  {| g_kind := GK_Suppress; g_wraps := WR_Form 7; scope_offset := 0; expr_offset := 2; expr_end := 28;
     g_expr := GE_EqConst 1 1 |}.

(** A schema with every kind of item the builder supports. *)
Definition ids : gmap ustring Z := list_to_map (zip (map us ["T"; "H"; "F"; "P"; "O"]%string) [2; 3; 4; 5; 6]).
Definition defaults : Defaults := {| d_optimized := Some 1; d_failsafe := None |}.
Definition form : FormSchema :=
  {| fs_id := 0x101; fs_title := us "F";
     fs_items := [IS_OneOf {| oo_prompt := us "P"; oo_help := us "H"; oo_question_id := 1; oo_var_store_id := 1;
                              oo_var_offset := 0; oo_size := 1; oo_display := DM_UintDec;
                              oo_options := [{| os_text := us "O"; os_value := 1; os_default := Some DC_Optimized |}];
                              oo_defaults := defaults |};
                  IS_CheckBox {| cb_prompt := us "P"; cb_help := us "H"; cb_question_id := 2; cb_var_store_id := 1;
                                 cb_var_offset := 1; cb_defaults := defaults |};
                  IS_Numeric {| nu_prompt := us "P"; nu_help := us "H"; nu_question_id := 3; nu_var_store_id := 1;
                                nu_var_offset := 2; nu_size := 2; nu_min := 0; nu_max := 9; nu_step := 1;
                                nu_display := DM_UintHex; nu_defaults := defaults |};
                  IS_Text {| tx_prompt := us "P"; tx_help := us "H"; tx_text_two := us "T" |};
                  IS_Ref {| re_prompt := us "P"; re_help := us "H"; re_question_id := 0; re_form_id := 0x101 |}] |}.
Definition schema : FormSetSchema :=
  {| fss_formset_guid := us "00112233-4455-6677-8899-AABBCCDDEEFF"; fss_title := us "T"; fss_help := us "H";
     fss_class_guids := [us "00112233-4455-6677-8899-AABBCCDDEEFF"];
     fss_varstores := [{| vss_id := 1; vss_guid := us "00112233-4455-6677-8899-AABBCCDDEEFF"; vss_size := 8;
                          vss_name := us "Setup"; vss_var_type := VT_Buffer; vss_attributes := 7 |}];
     fss_default_stores := [{| ds_name := us "T"; ds_id := 0 |}];
     fss_forms := [form]; fss_setupdata_guid := None; fss_amitse_guid := None |}.
Definition ifr : list byte := match build_ifr id schema ids with Ok b => b | _ => [] end.
Definition package : list byte := form_package ifr.
(** A TEXT statement. *)
Definition text_op : list byte := [IFR_TEXT_OP; x08; x05; x00; x03; x00; x02; x00].

(** A string package: header, language [en], two strings and an END. *)
Definition strings : list byte :=
  [x3a; x00; x00; PACKAGE_STRINGS] ++ le_enc 4 49 ++ le_enc 4 49 ++ replicate 34 x00 ++ [x65; x6e; x00]
  ++ [x14; x41; x00; x00; x00] ++ [x10; x42; x00; x00].
Definition after_strings : StringScan :=
  {| ss_strings := [(1, us "A"); (2, us "B")]; ss_by_id := <[2 := us "B"]> (<[1 := us "A"]> ∅); ss_next_id := 3 |}.
(** The same strings with an extension block between them. *)
Definition ext_strings : list byte :=
  [x3e; x00; x00; PACKAGE_STRINGS] ++ le_enc 4 49 ++ le_enc 4 49 ++ replicate 34 x00 ++ [x65; x6e; x00]
  ++ [x14; x41; x00; x00; x00] ++ [x30; x00; x01; x00] ++ [x10; x42; x00; x00].

(** A container with one question record. *)
Definition record : list byte :=
  le_enc 4 5 ++ replicate 24 x00 ++ le_enc 4 0x40 ++ replicate 4 x00 ++ SPF_SIGNATURE ++ SPF_TAIL ++ replicate 24 x00.
Definition container : list byte := SPF_CONTAINER_SIG ++ replicate 12 x00 ++ record.

End HiiSamples.
