(* ===== verification/ImageParser.v ===== *)
(** The Intel flash descriptor and the ME partition table ([parser/region.rs]), and the
    image level of the parser ([parse_image], [scan_volumes] and the node counters of
    [parser/image.rs]). *)
From S2P Require Import Prelude Types Ffs Tiano Codec Parser.

Definition FLASH_DESCRIPTOR_SIGNATURE : Z := 0x0FF0A55A.
Definition FLASH_DESCRIPTOR_SIZE : Z := 0x1000.
Definition DESCRIPTOR_VECTOR_SIZE : Z := 0x10.
Definition FLMAP0_OFFSET : Z := DESCRIPTOR_VECTOR_SIZE + 4.
Definition REGION_SECTION_ALIGN : Z := 0x10.
Definition REGION_GRANULARITY : Z := 0x1000.
Definition FPT_SIGNATURE : Z := 0x54504624.
Definition FPT_MAX_ENTRIES : Z := 0x100.
Definition FPT_HEADER_LEN : Z := 0x20.
Definition FPT_ENTRY_LEN : Z := 0x20.
Definition ME_ROM_BYPASS_VECTOR_SIZE : Z := 0x10.

Record FlashRegion := mkRegion {
  r_kind : FlashRegionKind;
  r_offset : Z;
  r_size : Z
}.

Record FptPartition := mkFpt {
  p_name : ustring;
  p_offset : Z;
  p_size : Z
}.

(** One entry of the FLREG table; [limit + 1 - base] is unsigned. *)
Definition flreg_step (buf : list byte) (region_base : Z) (out : list FlashRegion) (i : Z)
  : pure (list FlashRegion) :=
  base ← rd_le 2 buf (region_base + i * 4);
  limit ← rd_le 2 buf (region_base + i * 4 + 2);
  if (limit =? 0) || ((base =? 0xFFFF) && (limit =? 0xFFFF)) then Ok out
  else
    match from_flreg_index i with
    | None => Ok out
    | Some kind =>
        let offset := base * REGION_GRANULARITY in
        blocks ← usub (limit + 1) base;
        let size := blocks * REGION_GRANULARITY in
        if blen buf <? offset + size then Ok out
        else Ok (out ++ [mkRegion kind offset size])
    end.

Definition parse_flash_regions (buf : list byte) : pure (option (list FlashRegion)) :=
  if blen buf <? FLASH_DESCRIPTOR_SIZE then mret None
  else
    sig ← rd_le 4 buf DESCRIPTOR_VECTOR_SIZE;
    if negb (sig =? FLASH_DESCRIPTOR_SIGNATURE) then mret None
    else
      flmap0 ← rd_le 4 buf FLMAP0_OFFSET;
      let region_base := Z.land (Z.shiftr flmap0 16) 0xFF * REGION_SECTION_ALIGN in
      if FLASH_DESCRIPTOR_SIZE <? region_base + 64 then mret None
      else
        out ← foldM (flreg_step buf region_base) (seqZ 1 15)
                [mkRegion R_Descriptor 0 FLASH_DESCRIPTOR_SIZE];
        if negb (existsb (fun r => bool_decide (r_kind r = R_Bios)) out) then mret None
        else mret (Some out).

Section Region.
Context {GL : GuidLib}.

Definition make_region_node (buf : list byte) (kind : FlashRegionKind) (offset size : Z)
  : pure FfsNode :=
  body ← slice buf offset (offset + size);
  mret (mkNode None T_Region x00 (wrap 32 offset) [] body [] [] NoAction
          (PD_Region kind) true false []).

(** [char::is_ascii_graphic]. *)
Definition is_ascii_graphic (c : Z) : bool := (33 <=? c) && (c <=? 126).

Definition fpt_entry (hdr : list byte) (out : list FptPartition) (i : Z)
  : pure (list FptPartition) :=
  e ← slice_from hdr (FPT_HEADER_LEN + i * FPT_ENTRY_LEN);
  nb ← slice e 0 4;
  let name := List.filter is_ascii_graphic (map b2z nb) in
  offset ← rd_le 4 e 8;
  size ← rd_le 4 e 12;
  mret (out ++ [mkFpt name offset size]).

Definition parse_fpt (body : list byte) : pure (option (list FptPartition)) :=
  at0 ← (if 4 <=? blen body then s ← rd_le 4 body 0; mret (s =? FPT_SIGNATURE)
         else mret false);
  base ← (if at0 : bool then mret (Some 0)
          else if ME_ROM_BYPASS_VECTOR_SIZE + 4 <=? blen body then
            s ← rd_le 4 body ME_ROM_BYPASS_VECTOR_SIZE;
            mret (if s =? FPT_SIGNATURE then Some ME_ROM_BYPASS_VECTOR_SIZE else None)
          else mret None);
  match base with
  | None => mret None
  | Some base =>
      hdr ← slice_from body base;
      num ← rd_le 4 hdr 4;
      if (FPT_MAX_ENTRIES <=? num)
         || (blen body <? base + FPT_HEADER_LEN + num * FPT_ENTRY_LEN)
      then mret None
      else
        out ← foldM (fpt_entry hdr) (seqZ 0 num) [];
        mret (Some out)
  end.

Definition fpt_child (body : list byte) (region_offset region_size : Z) (p : FptPartition)
  : pure FfsNode :=
  let last := Z.min (p_offset p + p_size p) region_size in
  b ← slice body (p_offset p) last;
  mret (mkNode None T_Region x00 (wrap 32 (region_offset + p_offset p)) [] b [] []
          NoAction (PD_FptPartition (p_name p)) true false []).

Definition fpt_children (body : list byte) (region_offset region_size : Z)
  : pure (list FfsNode) :=
  parts ← parse_fpt body;
  match parts with
  | None => mret []
  | Some parts =>
      foldM (fun out p => n ← fpt_child body region_offset region_size p; mret (out ++ [n]))
        (List.filter (fun p => (0 <? p_size p) && (p_offset p <? region_size)) parts) []
  end.

(** ** Properties *)

(** What the rest of the parser relies on: regions inside the image. *)
Definition region_in (buf : list byte) (r : FlashRegion) : Prop :=
  0 <= r_offset r /\ 0 <= r_size r /\ r_offset r + r_size r <= blen buf.

Lemma flreg_step_ok buf rb out i :
  okpost (flreg_step buf rb out i) (fun out' =>
    out' = out \/ exists r, out' = out ++ [r] /\ region_in buf r /\
                           from_flreg_index i = Some (r_kind r)).
Proof.
  intros out' H. unfold flreg_step in H. ok_inv; [by left|].
  destruct (from_flreg_index i) as [k|]; [|ok_inv; by left].
  apply bind_Ok in H as (blocks & Hbl & H). unfold usub in Hbl.
  unfold REGION_GRANULARITY in *. ok_inv; [by left|]. right. eexists. split; [done|].
  split; [|done]. unfold region_in; simpl.
  pose proof (le_dec_bounds (sub buf (rb + i * 4) (rb + i * 4 + 2))). lia.
Qed.

Definition regions_wf (buf : list byte) (rs : list FlashRegion) : Prop :=
  Forall (region_in buf) rs /\ exists rest, rs = mkRegion R_Descriptor 0 0x1000 :: rest.

Lemma parse_flash_regions_wf buf rs :
  parse_flash_regions buf = Ok (Some rs) -> regions_wf buf rs /\
    exists r, r ∈ rs /\ r_kind r = R_Bios.
Proof.
  unfold parse_flash_regions. intros H. ok_inv; try done.
  match goal with
  | Hf : foldM _ _ _ = Ok ?out, He : negb (existsb _ ?out) = false |- _ =>
      apply negb_false_iff, existsb_exists in He as (r & Hin & Hk);
      rename Hf into Hfold
  end.
  unfold FLASH_DESCRIPTOR_SIZE in *. split.
  - revert Hfold. apply (foldM_okpost _ (regions_wf buf)).
    + intros out i _ [Hout (rest & ->)]. eapply okpost_mono; [apply flreg_step_ok|].
      intros ? [->|(r' & -> & Hr & _)]; [split; eauto|].
      split; [|by eexists]. apply Forall_app. auto.
    + split; [|by eexists]. repeat constructor; unfold region_in; simpl; lia.
  - exists r. apply list_elem_of_In in Hin. by bool_to_prop.
Qed.

End Region.

Definition FVH_SCAN_STEP : Z := 16.

(** [regions.sort_by_key(|r| r.offset)]: the stable sort by offset. *)
Fixpoint insert_region (r : FlashRegion) (rs : list FlashRegion) : list FlashRegion :=
  match rs with
  | [] => [r]
  | r' :: rs' => if r_offset r <=? r_offset r' then r :: rs else r' :: insert_region r rs'
  end.
Definition sort_regions (rs : list FlashRegion) : list FlashRegion :=
  foldr insert_region [] rs.

Section ImageParser.
Context {GL : GuidLib} {LL : LzmaLib}.

Definition make_padding_node (buf : list byte) (start last : Z) : pure FfsNode :=
  b ← slice buf start last;
  mret (mkNode None T_Padding x00 (wrap 32 start) [] b [] [] NoAction PD_None false false []).

(** [children] and [last_end], the two [&mut] arguments of [scan_volumes]. *)
Definition layout : Type := list FfsNode * Z.

(** [if start > *last_end { children.push(make_padding_node(..)) }]. *)
Definition pad_gap (buf : list byte) (l : layout) (start : Z) : pure (list FfsNode) :=
  let '(ch, last_end) := l in
  if last_end <? start then
    p ← make_padding_node buf last_end start;
    mret (ch ++ [p])
  else mret ch.

Section Depth.
Context (depth : nat).

(** One turn of the scan: a volume is taken whole, anything else is stepped
    over in 16-byte units. *)
Definition scan_step (buf : list byte) (wend : Z) (s : Z * layout)
  : pure (Z * layout + layout) :=
  let '(off, (ch, last_end)) := s in
  if off + 44 <=? wend then
    sig ← rd_le 4 buf (off + 40);
    if negb (sig =? EFI_FVH_SIGNATURE) then mret (inl (off + FVH_SCAN_STEP, (ch, last_end)))
    else
      v ← parse_firmware_volume (parse_sections depth) buf off;
      match v with
      | Some vol =>
          let vol_size := blen (header vol) + blen (body vol) in
          if vol_size =? 0 then mret (inl (off + FVH_SCAN_STEP, (ch, last_end)))
          else
            ch ← pad_gap buf (ch, last_end) off;
            mret (inl (off + vol_size, (ch ++ [vol], off + vol_size)))
      | None => mret (inl (off + FVH_SCAN_STEP, (ch, last_end)))
      end
  else mret (inr (ch, last_end)).

Definition scan_volumes (buf : list byte) (wstart wend : Z) (l : layout) : pure layout :=
  loop (Z.to_nat (wend - wstart) + 1) (scan_step buf wend) (wstart, l).

(** One region of the descriptor table. *)
Definition region_step (buf : list byte) (l : layout) (r : FlashRegion) : pure layout :=
  let '(_, last_end) := l in
  ch ← pad_gap buf l (r_offset r);
  match r_kind r with
  | R_Bios => scan_volumes buf (r_offset r) (r_offset r + r_size r) (ch, last_end)
  | _ =>
      node ← make_region_node buf (r_kind r) (r_offset r) (r_size r);
      node ← (if bool_decide (r_kind r = R_Me) then
                fc ← fpt_children (body node) (r_offset r) (r_size r);
                mret (set_children fc node)
              else mret node);
      mret (ch ++ [node], r_offset r + r_size r)
  end.

(** The tree of [parse_image]. *)
Definition parse_root (buf : list byte) : pure FfsNode :=
  regions ← parse_flash_regions buf;
  l ← match regions with
      | Some rs => foldM (region_step buf) (sort_regions rs) ([], 0)
      | None => scan_volumes buf 0 (blen buf) ([], 0)
      end;
  ch ← pad_gap buf l (blen buf);
  mret (mkNode None T_Image x00 0 [] [] [] ch NoAction PD_None false false []).

Definition parse_image (buf : list byte) (m : ImageMode) (iid sid : ustring)
  : outcome ParserError Image :=
  r ← lift (parse_root buf);
  mret {| image_id := iid; session_id := sid; root := r; mode := m |}.
End Depth.

Fixpoint count_files (n : FfsNode) : Z :=
  (if bool_decide (node_type n = T_File) then 1 else 0)
  + foldr (fun c acc => count_files c + acc) 0 (children n).

Fixpoint count_live_files (n : FfsNode) : Z :=
  if bool_decide (action n = A_Remove) then 0
  else (if bool_decide (node_type n = T_File) then 1 else 0)
       + foldr (fun c acc => count_live_files c + acc) 0 (children n).

End ImageParser.
