(* ===== verification/Builder.v ===== *)
(** Rebuilding an image from its tree ([crates/uefi-engine/src/builder/mod.rs]).
    [build_node] appends to the buffer [out]; the functions for volumes, files
    and sections take it as [rec]. *)
From S2P Require Import Prelude Types Ffs Tiano Codec.

Inductive BuilderError :=
| SizeMismatch
| ChecksumFailed
| Compression (e : CompressError)
| RecompressionUnsupported.

Definition FFS_ATTRIB_CHECKSUM : Z := 0x40.

Section Builder.
Context {GL : GuidLib} {LL : LzmaLib}.
Abbreviation bres := (outcome BuilderError).

(** ** Headers *)

Definition set_ffs_size (hdr : list byte) (total : Z) : bres (list byte) :=
  if 32 <=? blen hdr then
    h ← copy_into hdr 24 32 (le_enc 8 total);
    h ← set_at h 20 xff;
    h ← set_at h 21 xff;
    set_at h 22 xff
  else
    let sb := size_to_uint24 (wrap 32 total) in
    h ← set_at hdr 20 (nth 0 sb x00);
    h ← set_at h 21 (nth 1 sb x00);
    set_at h 22 (nth 2 sb x00).

Definition set_section_size (hdr : list byte) (total : Z) : bres (list byte) :=
  if is_large_section hdr then
    let sb := le_enc 4 (wrap 32 total) in
    h ← set_at hdr 4 (nth 0 sb x00);
    h ← set_at h 5 (nth 1 sb x00);
    h ← set_at h 6 (nth 2 sb x00);
    set_at h 7 (nth 3 sb x00)
  else
    let sb := size_to_uint24 (wrap 32 total) in
    h ← set_at hdr 0 (nth 0 sb x00);
    h ← set_at h 1 (nth 1 sb x00);
    set_at h 2 (nth 2 sb x00).

Definition recompute_ffs_checksums (hdr body : list byte) : bres (list byte) :=
  if blen hdr <? 24 then Ok hdr
  else
    let sum_all := fold_left (fun a b => wrap 8 (a + b2z b)) hdr 0 in
    old_header_cs ← index hdr 16;
    file_cs ← index hdr 17;
    state ← index hdr 23;
    let without := wrap 8 (wrap 8 (wrap 8 (sum_all - b2z old_header_cs) - b2z file_cs)
                           - b2z state) in
    h ← set_at hdr 16 (z2b (0 - without));
    attrs ← index h 19;
    if negb (Z.land (b2z attrs) FFS_ATTRIB_CHECKSUM =? 0)
    then set_at h 17 (z2b (calculate_checksum8 body))
    else mret h.

Definition recompressable_guid (n : FfsNode) : bool :=
  match parsing_data n with
  | PD_GuidedSection d => is_recompressable_lzma_guid (gs_guid d)
  | _ => false
  end.

Definition is_compressed_or_guided (n : FfsNode) : bool :=
  bool_decide (subtype n = EFI_SECTION_COMPRESSION)
  || bool_decide (subtype n = EFI_SECTION_GUID_DEFINED).

Fixpoint subtree_dirty (n : FfsNode) : bool :=
  negb (bool_decide (action n = NoAction)) || existsb subtree_dirty (children n).

(** ** Nodes *)

Section Nodes.
Context (rec : FfsNode -> list byte -> bres (list byte)).

(** The loop shared by files and sections: every child but the last is padded
    to four bytes. *)
Fixpoint build_children (cs : list FfsNode) (buf : list byte) : bres (list byte) :=
  match cs with
  | [] => Ok buf
  | c :: cs =>
      buf ← rec c buf;
      build_children cs
        (match cs with [] => buf | _ => pad_to buf (align4 (blen buf)) x00 end)
  end.

(** The children of an image, each with its offset and bytes, and the size of
    the image. *)
Definition place_step (s : list (Z * list byte) * Z) (child : FfsNode)
  : bres (list (Z * list byte) * Z) :=
  let '(placed, total) := s in
  buf ← rec child [];
  mret (placed ++ [(offset child, buf)], Z.max total (offset child + blen buf)).

Definition build_root (n : FfsNode) (out : list byte) : bres (list byte) :=
  if negb (bool_decide (out = [])) then Panic
  else
    pt ← foldM place_step (children n) ([], 0);
    foldM (fun out (ob : Z * list byte) =>
             copy_into out (fst ob) (fst ob + blen (snd ob)) (snd ob))
          (fst pt) (resize_to out (snd pt) xff).

Definition volume_child_step (vol_start : Z) (empty : byte) (out : list byte) (child : FfsNode)
  : bres (list byte) :=
  if bool_decide (action child = A_Remove) then Ok out
  else
    let target := vol_start + align8 (blen out - vol_start) in
    rec child (pad_to out target empty).

Definition build_volume (n : FfsNode) (out : list byte) : bres (list byte) :=
  if bool_decide (action n = A_Remove) then Ok out
  else if bool_decide (action n = NoAction) then Ok (out ++ header n ++ body n ++ tail n)
  else
    let vol_start := blen out in
    let empty := match parsing_data n with PD_Volume vd => empty_byte vd | _ => xff end in
    out ← foldM (volume_child_step vol_start empty) (children n) (out ++ header n);
    let old_total := vol_start + blen (header n) + blen (body n) in
    if old_total <? blen out then Err SizeMismatch
    else mret (pad_to out old_total empty ++ tail n).

Definition build_file (n : FfsNode) (out : list byte) : bres (list byte) :=
  if bool_decide (action n = A_Remove) then Ok out
  else if bool_decide (action n = NoAction) then Ok (out ++ header n ++ body n ++ tail n)
  else
    body ← build_children (children n) (match children n with [] => body n | _ => [] end);
    let total := blen (header n) + blen body + blen (tail n) in
    h ← set_ffs_size (header n) total;
    h ← recompute_ffs_checksums h body;
    mret (out ++ h ++ body ++ tail n).

Definition build_recompressed_guided (n : FfsNode) (out : list byte) : bres (list byte) :=
  if blen (body n) <? 18 then Err RecompressionUnsupported
  else
    data_offset ← rd_le 2 (body n) 16;
    let prefix_len := wrap 64 (data_offset - 4) in
    if negb ((20 <=? prefix_len) && (prefix_len <=? blen (body n)))
    then Err RecompressionUnsupported
    else
      ch ← build_children (children n) [];
      let budget := blen (body n) - prefix_len in
      stream ← map_err Compression (compress_lzma_fit ch (Some budget));
      let total := blen (header n) + prefix_len + blen stream in
      h ← set_section_size (header n) total;
      prefix ← slice (body n) 0 prefix_len;
      mret (out ++ h ++ prefix ++ stream).

Definition build_section (n : FfsNode) (out : list byte) : bres (list byte) :=
  if bool_decide (action n = A_Remove) then Ok out
  else if is_compressed_or_guided n then
    if bool_decide (action n = NoAction) && negb (subtree_dirty n)
    then Ok (out ++ header n ++ body n ++ tail n)
    else if bool_decide (subtype n = EFI_SECTION_GUID_DEFINED) && recompressable_guid n
            && negb (bool_decide (length (children n) = 0%nat))
    then build_recompressed_guided n out
    else Err RecompressionUnsupported
  else if bool_decide (action n = NoAction) then Ok (out ++ header n ++ body n ++ tail n)
  else
    body ← build_children (children n) (match children n with [] => body n | _ => [] end);
    let total := blen (header n) + blen body in
    h ← set_section_size (header n) total;
    mret (out ++ h ++ body).
End Nodes.

Fixpoint build_node (n : FfsNode) (out : list byte) : bres (list byte) :=
  match node_type n with
  | T_Image | T_Capsule | T_Root => build_root build_node n out
  | T_Volume => build_volume build_node n out
  | T_File => build_file build_node n out
  | T_Section => build_section build_node n out
  | T_Padding | T_FreeSpace | T_Region => Ok (out ++ body n)
  end.

Lemma build_node_eq n out :
  build_node n out =
  match node_type n with
  | T_Image | T_Capsule | T_Root => build_root build_node n out
  | T_Volume => build_volume build_node n out
  | T_File => build_file build_node n out
  | T_Section => build_section build_node n out
  | T_Padding | T_FreeSpace | T_Region => Ok (out ++ body n)
  end.
Proof. by destruct n. Qed.

Definition build_image (img : Image) : bres (list byte) := build_node (root img) [].

End Builder.
