(* ===== verification/Server.v ===== *)
(** The service of the engine ([rpc/server.rs], [rpc/auth.rs]): how errors become statuses,
    the checks before a changed image replaces the stored one, the images in memory, and a
    handler per request. *)
From stdpp Require Import gmap.
From S2P Require Import Prelude Text Types Ffs Tiano Codec Listing Parser Target Ops Nvar NvarStores.
From S2P Require Import Hii Values Ifr Gates StringPack Schema Spf PeResource ImageStrings ImageGates ImageValues.
From S2P Require Import SetupAdd QuestionAdd Hijack Tse FormExport.
From S2P Require Import Storage Listing ImageParser Builder.

(** ** Statuses *)

Inductive Code := C_NotFound | C_InvalidArgument | C_FailedPrecondition | C_ResourceExhausted
  | C_Unauthenticated | C_Internal.

(** The text of a status: written by the server, or the [Display] of an error. *)
Inductive Message :=
| M_Text (s : ustring)
| M_Reparse (e : ParserError)
| M_Parser (e : ParserError)
| M_Builder (e : BuilderError)
| M_Ops (e : OpsError)
| M_Hii (e : HiiError)
| M_Nvar (e : NvarError)
| M_Anyhow (e : Anyhow).
Record Status := { code : Code; message : Message }.

Definition not_found (s : ustring) : Status := {| code := C_NotFound; message := M_Text s |}.
Definition invalid_argument (s : ustring) : Status := {| code := C_InvalidArgument; message := M_Text s |}.
Definition failed_precondition (s : ustring) : Status :=
  {| code := C_FailedPrecondition; message := M_Text s |}.
Definition unauthenticated (s : ustring) : Status := {| code := C_Unauthenticated; message := M_Text s |}.
Definition internal (e : Anyhow) : Status := {| code := C_Internal; message := M_Anyhow e |}.
Definition bad_argument (e : ParserError) : Status := {| code := C_InvalidArgument; message := M_Parser e |}.

Definition builder_error_status (e : BuilderError) : Status :=
  {| code := match e with
             | RecompressionUnsupported | Compression EmptyInput => C_FailedPrecondition
             | _ => C_Internal
             end;
     message := M_Builder e |}.

Definition ops_error_status (e : OpsError) : Status :=
  {| code := match e with
             | MutationBehindCompression | ImmutableRegion => C_FailedPrecondition
             | _ => C_Internal
             end;
     message := M_Ops e |}.

Definition hii_error_status (e : HiiError) : Status :=
  {| code := match e with
             | HE_NotFound | HE_StringPackageNotFound | HE_NoSuppressScope => C_NotFound
             | HE_NotASetupItem | HE_InvalidItemId _ | HE_InvalidSchema _ | HE_HidingUnsupported =>
                 C_InvalidArgument
             | HE_NotWritable | HE_GateExpressionUnsupported _ | HE_MutationBehindCompression
             | HE_PeGrowthUnsupported | HE_ValueOpUnsupported _ | HE_IdOccupied _ =>
                 C_FailedPrecondition
             | HE_StringIdExhausted _ => C_ResourceExhausted
             | _ => C_Internal
             end;
     message := M_Hii e |}.

Definition hii_error_status_ctx (e : HiiError) (ctx : ustring) : Status :=
  match e with
  | HE_NotFound => not_found (ctx ++ us " not found")
  | _ => hii_error_status e
  end.

Definition nvar_error_status (e : NvarError) : Status :=
  {| code := match e with
             | NV_NotFound => C_NotFound
             | NV_AmbiguousName _ _ | NV_InvalidStore _ => C_InvalidArgument
             | NV_NotWritable | NV_MutationBehindCompression | NV_ValueOpUnsupported _ =>
                 C_FailedPrecondition
             end;
     message := M_Nvar e |}.

(** [n as i32]. *)
Definition as_i32 (n : Z) : Z := let m := wrap 32 n in if m <? 2 ^ 31 then m else m - 2 ^ 32.

(** ** Responses *)

Record SessionInfo := {
  si_session_id : ustring; si_name : ustring; si_created_at : Z; si_last_activity : Z
}.
Record ImageInfo := {
  ii_image_id : ustring; ii_name : ustring; ii_path : ustring; ii_mode : Z; ii_size : Z;
  ii_created_at : Z; ii_last_activity : Z
}.
Record ArtifactInfo := {
  ai_artifact_id : ustring; ai_kind : ustring; ai_size : Z; ai_created_at : Z; ai_source : ustring
}.
Record NvarVarInfo := {
  nv_name : ustring; nv_guid : ustring; nv_offset : Z; nv_size : Z; nv_attributes : Z;
  nv_depth : Z; nv_data : list byte
}.
Record NvarStoreInfo := {
  ns_path : ustring; ns_desc : ustring; ns_records : Z; ns_free_tail : Z;
  ns_guid_store_size : Z; ns_vars : list NvarVarInfo
}.
Record TseSpfFormset := {
  sf_proto_guid : ustring; sf_proto_raw_u32 : Z; sf_proto_pages : Z
}.
Record TseSpfVar := {
  tv_guid : ustring; tv_name : ustring; tv_attrs : Z; tv_size : Z
}.
Record TseSpfSummary := {
  ts_page_count : Z; ts_formsets : list TseSpfFormset; ts_vars : list TseSpfVar; ts_string_controls : Z
}.
Record TseStrideBlock := {
  tb_pe_offset : Z; tb_entries : list (ustring * Z)
}.
Record HiiQuestionAddOutcome := {
  qo_question_id : Z; qo_string_ids : gmap ustring Z; qo_spf_record_offset : Z
}.
Record ImageSnapshotInfo := {
  sp_snapshot_id : ustring; sp_name : ustring; sp_created_at : Z; sp_size : Z
}.

Inductive Response :=
| R_Empty
| R_SessionCreate (session_id token : ustring)
| R_Sessions (l : list SessionInfo)
| R_ImageOpen (image_id root_guid name : ustring)
| R_Images (l : list ImageInfo)
| R_ImageStatus (info : ImageInfo)
| R_Nodes (l : list Node)
| R_Node (item_id : ustring)
| R_Artifact (artifact_id : ustring)
| R_Artifacts (l : list ArtifactInfo)
| R_Forms (l : list FormInfo)
| R_VarStores (l : list VarStoreInfo)
| R_Edges (l : list FormEdge)
| R_Strings (l : list StringInfo)
| R_Gates (l : list GateInfo)
| R_Unlock (gates : list GateInfo) (applied_flips : list ustring)
| R_Question (q : QuestionInfo)
| R_Questions (l : list QuestionSummary)
| R_SetValue (q : QuestionInfo) (applied_flips stores : list ustring)
| R_GetValue (value : option Z) (option_ store_path : option ustring) (var_offset width : Z)
| R_NvarStores (l : list NvarStoreInfo)
| R_NvarSet (applied stores : list ustring)
| R_FormSetAdd (new_ffs_id : ustring) (inserted_form_ids : list Z) (string_ids : gmap ustring Z)
| R_FormAdd (inserted_form_ids : list Z) (string_ids : gmap ustring Z)
| R_FormExport (schema_json formset_guid : ustring) (parent_form_id : Z) (lossy : list ustring)
    (parent_entries : list ParentEntry)
| R_FormHijack (string_ids : gmap ustring Z) (form_ifr_start form_ifr_end : Z)
    (unlock_flips : list ustring) (help_controls : list HelpControlEdit)
    (help_records : list HelpRecordEdit)
| R_QuestionAdd (questions refs : list HiiQuestionAddOutcome)
| R_PageAdd (form_id slot page_offset title_string_id : Z)
| R_TseReport (blocks : list TseStrideBlock) (spf : option TseSpfSummary) (pe_len : Z)
| R_TseUnhide (pe_offset entry_pe_offset : Z)
| R_SnapshotCreate (snapshot_id : ustring) (created_at : Z)
| R_Snapshots (l : list ImageSnapshotInfo).

Definition session_info (r : SessionRow) : SessionInfo :=
  {| si_session_id := se_id r; si_name := se_name r; si_created_at := se_created_at r;
     si_last_activity := se_last_activity r |}.
Definition image_info (r : ImageRow) : ImageInfo :=
  {| ii_image_id := im_id r; ii_name := im_name r; ii_path := im_path r; ii_mode := as_i32 (im_mode r);
     ii_size := wrap 64 (im_size r); ii_created_at := im_created_at r;
     ii_last_activity := im_last_activity r |}.
Definition artifact_info (a : ArtifactRow) : ArtifactInfo :=
  {| ai_artifact_id := ar_id a; ai_kind := ar_kind a; ai_size := wrap 64 (ar_size a);
     ai_created_at := ar_created_at a; ai_source := ar_source a |}.
Definition snapshot_info (s : ImageSnapshotRow) : ImageSnapshotInfo :=
  {| sp_snapshot_id := sn_id s; sp_name := sn_name s; sp_created_at := sn_created_at s;
     sp_size := wrap 64 (sn_size s) |}.

(** [p.map_err(|e| Status::internal(e.to_string()))?] *)
Definition or_internal `{GuidLib} {A} : prog Anyhow A -> prog Status A := prog_map_err internal.
Definition some_or `{GuidLib} {A} (s : Status) (o : option A) : prog Status A := Done (ok_or s o).
Definition fail `{GuidLib} {A} (s : Status) : prog Status A := Done (Err s).

(** ** [rpc/auth.rs] *)

(** [v.to_str()] of a header. *)
Definition header_text (v : ustring) : option ustring :=
  if forallb (fun c => ((32 <=? c) && (c <? 127)) || (c =? 9)) v then Some v else None.
Definition strip_prefix (p s : ustring) : option ustring :=
  if bool_decide (take (length p) s = p) then Some (drop (length p) s) else None.

Definition check_auth `{GuidLib} (metadata : ustring -> option ustring) : prog Status unit :=
  auth ← some_or (unauthenticated (us "missing Authorization"))
           (v ← metadata (us "authorization"); header_text v);
  token ← some_or (unauthenticated (us "bad Bearer")) (strip_prefix (us "Bearer ") auth);
  session_id ← some_or (unauthenticated (us "missing session-id"))
                 (v ← metadata (us "x-session-id"); header_text v);
  valid ← validate_token session_id token;
  if negb valid then fail (unauthenticated (us "invalid token")) else mret tt.

Section Server.
Context {GL : GuidLib} {LL : LzmaLib} {LC : Lowercase} {RH : RefiHii} {OP : ObjectPe} {ST : SchemaText}.
(** The [Debug] text of a wrapped target and of a string. *)
Context (dbg : Wraps -> ustring) (dbg_str : ustring -> ustring).
(** The fuel of the parser; the directory and the [PWD] of the process; the configuration. *)
Context (depth : nat) (cwd : path) (pwd : ustring).
Context (data_dir : ustring) (ttl_secs : Z) (purge_artifacts : bool).
Abbreviation rpc := (prog Status Response).

(** ** Images in memory *)

Definition nvar_store_proto (l : NvarStoreListing) : NvarStoreInfo :=
  {| ns_path := ls_path l; ns_desc := ls_desc l; ns_records := wrap 32 (ls_records l);
     ns_free_tail := wrap 32 (ls_free_tail l); ns_guid_store_size := wrap 32 (ls_guid_store_size l);
     ns_vars := map (fun r =>
       {| nv_name := row_name r;
          nv_guid := match row_guid r with Some g => guid_to_upper_string g | None => [] end;
          nv_offset := wrap 64 (row_offset r); nv_size := wrap 32 (row_size r);
          nv_attributes := b2z (row_attributes r); nv_depth := row_depth r; nv_data := row_data r |})
       (ls_rows l) |}.

Definition artifact_output_path_is_relative (p : ustring) : bool := negb (is_absolute p).

Fixpoint volume_count (node : FfsNode) : Z :=
  (if bool_decide (node_type node = T_Volume) then 1 else 0)
  + foldr (fun c acc => volume_count c + acc) 0 (children node).

Definition validate_flush_bytes (current : Image) (bytes : list byte) : outcome Status Image :=
  refreshed ← map_err (fun e => {| code := C_FailedPrecondition; message := M_Reparse e |})
                (parse_image depth bytes (mode current) (image_id current) (session_id current));
  let before := count_live_files (root current) in
  let after := count_files (root refreshed) in
  if after <? before then
    Err (failed_precondition (us "build output reparses with " ++ dec_string after ++ us " files vs "
      ++ dec_string before ++ us " live; refusing write to prevent data loss"))
  else if (volume_count (root refreshed) =? 0) && (0 <? volume_count (root current)) then
    Err (failed_precondition
      (us "build output reparses with no volumes; refusing write to prevent data loss"))
  else mret refreshed.

Definition no_image : Status := not_found (us "image not found").

(** Under the lock of the images: reading one, and editing one in place. *)
Definition with_image {A} (image_id : ustring) (f : Image -> outcome Status A) : prog Status A :=
  step (fun _ w => (w, img ← ok_or no_image (cache w !! image_id); f img)).
Definition edit_image {A} (image_id : ustring) (f : Image -> Image * outcome Status A) : prog Status A :=
  step (fun _ w =>
    match cache w !! image_id with
    | None => (w, Err no_image)
    | Some img => let '(img', o) := f img in (with_cache (<[image_id := img']> (cache w)) w, o)
    end).

(** The second half of a flush: the bytes are checked, written, and their parse replaces the
    image in memory. *)
Definition write_flushed (image_id p : ustring) (bytes : list byte) : prog Status unit :=
  refreshed ← with_image image_id (fun img => validate_flush_bytes img bytes);
  _ ← or_internal (atomic_write cwd p bytes);
  _ ← step (fun _ w =>
        (match cache w !! image_id with
         | Some _ => with_cache (<[image_id := refreshed]> (cache w)) w
         | None => w
         end, Ok tt));
  or_internal (statement (fun now d => Ok (touch_image image_id now d))).

Definition flush_image (image_id : ustring) : prog Status unit :=
  bs ← with_image image_id (fun img =>
         b ← map_err builder_error_status (build_image img); mret (b, session_id img));
  let '(bytes, session_id) := bs : list byte * ustring in
  let p := image_file data_dir session_id image_id in
  metadata ← or_internal (io_fault (fun f d => fs_len f d (at_path cwd p)));
  match metadata with
  | Some existing_size =>
      if blen bytes <? existing_size then
        fail (failed_precondition (us "build_image output (" ++ dec_string (blen bytes)
          ++ us ") is smaller than stored file (" ++ dec_string existing_size
          ++ us "); refusing write to prevent data loss"))
      else write_flushed image_id p bytes
  | None => write_flushed image_id p bytes
  end.

Definition ensure_image_loaded (image_id : ustring) : prog Status unit :=
  loaded ← step (fun _ w => (w, Ok (bool_decide (is_Some (cache w !! image_id)))));
  if (loaded : bool) then mret tt
  else
    row ← or_internal (query (fun _ => get_image image_id));
    row ← some_or no_image row;
    bytes ← or_internal (read_image_file cwd data_dir (im_session_id row) image_id);
    let mode := if im_mode row =? 1 then IM_Write else IM_Read in
    img ← Done (map_err (fun e => {| code := C_Internal; message := M_Parser e |})
                  (parse_image depth bytes mode image_id (im_session_id row)));
    step (fun _ w => (with_cache (<[image_id := img]> (cache w)) w, Ok tt)).

Definition get_or_load_image (image_id : ustring) : prog Status Image :=
  _ ← ensure_image_loaded image_id;
  with_image image_id (fun img => Ok img).

Definition touch_quietly (session_id : ustring) : prog Status unit := ignore (touch session_id).

Definition mode_i64 (m : ImageMode) : Z := match m with IM_Read => 0 | IM_Write => 1 end.

Definition open_from_bytes (session_id : ustring) (bytes : list byte) (mode : ImageMode)
  (name path : ustring) : rpc :=
  known ← session_exists session_id;
  if negb known then fail (not_found (us "session not found"))
  else
    image_id ← draw i_uuid;
    img ← Done (map_err (fun e => {| code := C_Internal; message := M_Parser e |})
                  (parse_image depth bytes mode image_id session_id));
    _ ← or_internal (store_image_file cwd data_dir session_id image_id bytes);
    _ ← or_internal (statement (insert_image image_id session_id name path (mode_i64 mode) (blen bytes)));
    let root_guid := match n_guid (root img) with Some g => guid_to_upper_string g | None => [] end in
    _ ← step (fun _ w => (with_cache (<[image_id := img]> (cache w)) w, Ok tt));
    _ ← touch_quietly session_id;
    mret (R_ImageOpen image_id root_guid name).

(** ** Handlers of sessions and images *)

Definition session_create (name : ustring) : rpc :=
  let name := if bool_decide (name = []) then pwd else name in
  it ← or_internal (create_session cwd data_dir name);
  mret (R_SessionCreate (fst it) (snd it)).

Definition session_destroy (session_id : ustring) : rpc :=
  _ ← or_internal (destroy_session cwd data_dir session_id purge_artifacts);
  mret R_Empty.

Definition sessions_list : rpc :=
  l ← or_internal (query (fun _ => list_sessions));
  mret (R_Sessions (map session_info l)).

Definition image_mode (mode : Z) : prog Status ImageMode :=
  match mode with
  | 0 => mret IM_Read
  | 1 => mret IM_Write
  | _ => fail (invalid_argument (us "bad mode"))
  end.

(** [fs::read(path).map_err(not_found)] *)
Definition read_path (p : ustring) : prog Status (list byte) :=
  prog_map_err (fun e => {| code := C_NotFound; message := M_Anyhow e |})
    (on_disk (fun f => fs_read f (at_path cwd p))).

Definition image_open (session_id path : ustring) (mode : Z) (name : ustring) : rpc :=
  m ← image_mode mode;
  bytes ← read_path path;
  let name := if bool_decide (name = []) then default [] (file_name path) else name in
  open_from_bytes session_id bytes m name path.

Definition image_upload (session_id : ustring) (data : list byte) (mode : Z) (name : ustring) : rpc :=
  m ← image_mode mode;
  let name := if bool_decide (name = []) then us "upload" else name in
  open_from_bytes session_id data m name name.

Definition get_row (image_id : ustring) : prog Status ImageRow :=
  row ← or_internal (query (fun _ => get_image image_id));
  some_or no_image row.

Definition image_close (image_id : ustring) : rpc :=
  row ← get_row image_id;
  _ ← or_internal (statement (fun _ d => Ok (delete_image image_id d)));
  _ ← or_internal (remove_image_file cwd data_dir (im_session_id row) image_id);
  _ ← step (fun _ w => (with_cache (delete image_id (cache w)) w, Ok tt));
  mret R_Empty.

Definition images_list (session_id : ustring) : rpc :=
  l ← or_internal (query (fun _ => list_images session_id));
  mret (R_Images (map image_info l)).

Definition image_status (image_id : ustring) : rpc :=
  row ← get_row image_id;
  mret (R_ImageStatus (image_info row)).

Definition image_nodes_list (image_id filter : ustring) : rpc :=
  img ← get_or_load_image image_id;
  nodes ← Done (lift (list_items (root img) (if bool_decide (filter = []) then None else Some filter)));
  _ ← touch_quietly (session_id img);
  mret (R_Nodes nodes).

Definition search_mode (m : Z) : SearchMode :=
  match m with 0 => SM_Name | 1 => SM_Utf8 | 2 => SM_Utf16Le | _ => SM_Bytes end.
Definition image_nodes_search (image_id query : ustring) (modes : list Z) (limit : Z) : rpc :=
  img ← get_or_load_image image_id;
  nodes ← Done (lift (search (root img) query (map search_mode modes) limit));
  mret (R_Nodes nodes).

(** ** Handlers that edit the tree *)

(** The bytes of an artifact, or of a file. *)
Definition source_bytes (artifact_id ffs_path : ustring) : prog Status (list byte) :=
  if negb (bool_decide (artifact_id = [])) then
    art ← or_internal (query (fun _ => get_artifact artifact_id));
    art ← some_or (not_found (us "artifact not found")) art;
    or_internal (read_artifact_file cwd data_dir (ar_session_id art) (ar_id art))
  else read_path ffs_path.

(** An operation on the tree; an error leaves it as it was. *)
Definition on_root (f : FfsNode -> outcome Status FfsNode) (img : Image) : Image * outcome Status unit :=
  match f (root img) with
  | Ok r => (with_root r img, Ok tt)
  | Err e => (img, Err e)
  | Panic => (img, Panic)
  | Diverge => (img, Diverge)
  end.

Definition insert_mode (mode : Z) : outcome Status InsertMode :=
  match mode with
  | 0 => Ok Into
  | 1 => Ok Before
  | 2 => Ok After
  | _ => Err (invalid_argument (us "bad mode"))
  end.

Definition image_node_insert (image_id target ffs_path artifact_id : ustring) (mode : Z) : rpc :=
  ffs_bytes ← source_bytes artifact_id ffs_path;
  t ← Done (map_err bad_argument (parse_target target));
  mode ← Done (insert_mode mode);
  img ← get_or_load_image image_id;
  _ ← edit_image image_id (on_root (fun r => map_err ops_error_status (insert r t ffs_bytes mode)));
  _ ← flush_image image_id;
  _ ← touch_quietly (session_id img);
  mret (R_Node target).

Definition image_node_remove (image_id target : ustring) : rpc :=
  img ← get_or_load_image image_id;
  _ ← edit_image image_id (on_root (fun r =>
        t ← map_err bad_argument (parse_target target);
        map_err ops_error_status (remove r t)));
  _ ← flush_image image_id;
  _ ← touch_quietly (session_id img);
  mret R_Empty.

Definition image_node_replace (image_id target ffs_path artifact_id : ustring) (body_only : bool) : rpc :=
  data ← source_bytes artifact_id ffs_path;
  img ← get_or_load_image image_id;
  _ ← edit_image image_id (on_root (fun r =>
        t ← map_err bad_argument (parse_target target);
        map_err ops_error_status (replace r t data body_only)));
  _ ← flush_image image_id;
  _ ← touch_quietly (session_id img);
  mret (R_Node target).

Definition image_node_rebuild (image_id target : ustring) : rpc :=
  img ← get_or_load_image image_id;
  _ ← edit_image image_id (on_root (fun r =>
        t ← map_err bad_argument (parse_target target);
        map_err ops_error_status (rebuild r t)));
  _ ← flush_image image_id;
  _ ← touch_quietly (session_id img);
  mret R_Empty.

(** ** Handlers of artifacts *)

Definition image_node_extract (image_id target : ustring) (body_only : bool) : rpc :=
  img ← get_or_load_image image_id;
  t ← Done (map_err bad_argument (parse_target target));
  node ← Done (map_err (fun e => {| code := C_NotFound; message := M_Parser e |}) (find_item (root img) t));
  let bytes := if body_only then body node else header node ++ body node in
  artifact_id ← draw i_uuid;
  p ← or_internal (store_artifact_file cwd data_dir (session_id img) artifact_id bytes);
  let kind := if body_only then us "body" else us "whole" in
  let source := target ++ (if body_only then us ":body" else []) in
  _ ← or_internal (statement (insert_artifact artifact_id (session_id img) kind p (blen bytes) source));
  mret (R_Artifact artifact_id).

Definition artifact_export (artifact_id output_path : ustring) : rpc :=
  if artifact_output_path_is_relative output_path then
    fail (invalid_argument (us "output_path must be absolute"))
  else
    art ← or_internal (query (fun _ => get_artifact artifact_id));
    art ← some_or (not_found (us "artifact not found")) art;
    _ ← or_internal (write_artifact_to_output cwd data_dir (ar_session_id art) (ar_id art) output_path);
    mret R_Empty.

Definition artifact_import (session_id path : ustring) : rpc :=
  known ← session_exists session_id;
  if negb known then fail (not_found (us "session not found"))
  else
    bytes ← read_path path;
    artifact_id ← draw i_uuid;
    p ← or_internal (store_artifact_file cwd data_dir session_id artifact_id bytes);
    let source := default [] (file_name path) in
    _ ← or_internal (statement
          (insert_artifact artifact_id session_id (us "imported") p (blen bytes) source));
    mret (R_Artifact artifact_id).

Definition artifacts_list (session_id : ustring) : rpc :=
  l ← or_internal (query (fun _ => list_artifacts session_id));
  mret (R_Artifacts (map artifact_info l)).

(** ** Handlers of setup data *)

(** An operation on the image with its status. *)
Definition on_image {A} (f : act A) (ctx : ustring) (img : Image) : Image * outcome Status A :=
  let '(img', o) := f img in (img', map_err (fun e => hii_error_status_ctx e ctx) o).

Definition hii_set_form_visibility (image_id item_id : ustring) (visible : bool) : rpc :=
  img ← get_or_load_image image_id;
  _ ← edit_image image_id (on_image (set_item_visibility item_id visible) item_id);
  _ ← flush_image image_id;
  _ ← touch_quietly (session_id img);
  mret R_Empty.

Definition hii_list_forms (image_id : ustring) : rpc :=
  img ← get_or_load_image image_id;
  forms ← Done (lift (collect_forms img));
  _ ← touch_quietly (session_id img);
  mret (R_Forms forms).

(** A query of the setup data of an image. *)
Definition ask {A} (o : outcome HiiError A) (ctx : ustring) : prog Status A :=
  Done (map_err (fun e => hii_error_status_ctx e ctx) o).

Definition hii_list_varstores (image_id target : ustring) : rpc :=
  img ← get_or_load_image image_id;
  varstores ← ask (list_varstores img target) target;
  _ ← touch_quietly (session_id img);
  mret (R_VarStores varstores).

Definition hii_form_tree (image_id : ustring) : rpc :=
  img ← get_or_load_image image_id;
  edges ← Done (lift (collect_edges img));
  _ ← touch_quietly (session_id img);
  mret (R_Edges edges).

Definition hii_list_strings (image_id : ustring) : rpc :=
  img ← get_or_load_image image_id;
  strings ← Done (lift (collect_strings img));
  _ ← touch_quietly (session_id img);
  mret (R_Strings strings).

Definition image_save (image_id output_path : ustring) : rpc :=
  img ← get_or_load_image image_id;
  bytes ← Done (map_err builder_error_status (build_image img));
  _ ← or_internal (on_disk (fun f => fs_write f (at_path cwd output_path) bytes));
  mret R_Empty.

Definition hii_gates_list (image_id item_id : ustring) : rpc :=
  img ← get_or_load_image image_id;
  gates ← ask (gates_list img item_id) item_id;
  _ ← touch_quietly (session_id img);
  mret (R_Gates gates).

(** The session of the image goes with the result of an edit. *)
Definition with_session {A} (f : act A) (ctx : ustring) (img : Image)
  : Image * outcome Status (A * ustring) :=
  let '(img', o) := on_image f ctx img in (img', a ← o; Ok (a, session_id img)).

Definition hii_unlock (image_id item_id : ustring) : rpc :=
  _ ← ensure_image_loaded image_id;
  os ← edit_image image_id (with_session (unlock dbg item_id) item_id);
  let '(outcome, session_id) := os : UnlockOutcome * ustring in
  _ ← (if negb (bool_decide (uo_applied outcome = [])) then flush_image image_id else mret tt);
  _ ← touch_quietly session_id;
  mret (R_Unlock (uo_gates outcome) (uo_applied outcome)).

Definition hii_question_info (image_id item_id : ustring) : rpc :=
  img ← get_or_load_image image_id;
  question ← ask (question_info img item_id) item_id;
  _ ← touch_quietly (session_id img);
  mret (R_Question question).

Definition hii_list_questions (image_id target : ustring) (form_id : Z) : rpc :=
  img ← get_or_load_image image_id;
  if 0xFFFF <? form_id then
    fail (invalid_argument (us "form_id out of range: " ++ dec_string form_id))
  else
    questions ← ask (list_questions img target form_id) target;
    _ ← touch_quietly (session_id img);
    mret (R_Questions questions).

Definition hii_set_value (image_id item_id : ustring) (value : Z) : rpc :=
  _ ← ensure_image_loaded image_id;
  os ← edit_image image_id (with_session (set_value dbg_str item_id value) item_id);
  let '(outcome, session_id) := os : ValueOutcome * ustring in
  _ ← (if negb (bool_decide (vo_applied outcome = [])) then flush_image image_id else mret tt);
  _ ← touch_quietly session_id;
  mret (R_SetValue (vo_question outcome) (vo_applied outcome) (vo_stores outcome)).

Definition hii_get_value (image_id item_id : ustring) : rpc :=
  img ← get_or_load_image image_id;
  v ← ask (get_value dbg_str img item_id) item_id;
  _ ← touch_quietly (session_id img);
  mret (R_GetValue (gv_value v) (gv_option v) (gv_store_path v) (gv_var_offset v) (gv_width v)).

(** ** Handlers that add setup data *)

Definition bad_schema (e : HiiError) : Status := {| code := C_InvalidArgument; message := M_Hii e |}.
(** [Guid::try_parse(s).map_err(invalid_argument)] *)
Definition guid_argument (s : ustring) : outcome Status Guid :=
  ok_or (invalid_argument (guid_error s)) (guid_try_parse s).
Definition optional_guid (s : ustring) : outcome Status (option Guid) :=
  if bool_decide (s = []) then mret None else g ← guid_argument s; mret (Some g).

(** An operation on the image with a status of its own. *)
Definition on_image_with {A} (status : HiiError -> Status) (f : act A) (img : Image)
  : Image * outcome Status A :=
  let '(img', o) := f img in (img', map_err status o).

Definition formset_add_status (e : HiiError) : Status :=
  match e with
  | HE_InvalidSchema s => invalid_argument s
  | HE_StringPackageNotFound => not_found (us "string package not found")
  | HE_AmiFilesNotFound => not_found (us "AMI setupdataBin/amitseSct not found")
  | HE_MutationBehindCompression | HE_PeGrowthUnsupported =>
      {| code := C_FailedPrecondition; message := M_Hii e |}
  | _ => {| code := C_Internal; message := M_Hii e |}
  end.
Definition hii_form_set_add (image_id schema_json target_ffs_guid : ustring) : rpc :=
  schema ← Done (map_err bad_schema (parse_schema schema_json));
  target_guid ← Done (optional_guid target_ffs_guid);
  img ← get_or_load_image image_id;
  r ← edit_image image_id (on_image_with formset_add_status (add_setup_formset guid_error schema target_guid));
  _ ← flush_image image_id;
  _ ← touch_quietly (session_id img);
  mret (R_FormSetAdd (guid_to_string (as_new_ffs_guid r)) (as_inserted_form_ids r) (as_string_ids r)).

Definition hii_form_add (image_id target schema_json : ustring) : rpc :=
  schema ← Done (map_err bad_schema (parse_schema schema_json));
  img ← get_or_load_image image_id;
  r ← edit_image image_id (on_image (add_form guid_error target schema) target);
  _ ← flush_image image_id;
  _ ← touch_quietly (session_id img);
  mret (R_FormAdd (af_inserted_form_ids r) (af_string_ids r)).

Definition hii_form_export (image_id item_id : ustring) : rpc :=
  img ← get_or_load_image image_id;
  export ← ask (export_form img item_id) item_id;
  schema_json ← Done (map_err (fun s => {| code := C_Internal; message := M_Text s |})
                        (json_of_formset (fe_schema export)));
  _ ← touch_quietly (session_id img);
  mret (R_FormExport schema_json (fe_formset_guid export) (fe_parent_form_id export) (fe_lossy export)
          (fe_parent_entries export)).

Definition hijack_status (ctx : ustring) (e : HiiError) : Status :=
  match e with
  | HE_AmiFilesNotFound => {| code := C_NotFound; message := M_Hii e |}
  | _ => hii_error_status_ctx e ctx
  end.
(** [c.offset as u32] *)
Definition help_control_proto (c : HelpControlEdit) : HelpControlEdit :=
  {| hc_question_id := hc_question_id c; hc_offset := wrap 32 (hc_offset c);
     hc_old_string_id := hc_old_string_id c; hc_new_string_id := hc_new_string_id c |}.
Definition help_record_proto (r : HelpRecordEdit) : HelpRecordEdit :=
  {| hr_question_id := hr_question_id r; hr_record_offset := wrap 32 (hr_record_offset r);
     hr_old_string_id := hr_old_string_id r; hr_new_string_id := hr_new_string_id r |}.
Definition hii_form_hijack (image_id target schema_json setupdata_guid : ustring) : rpc :=
  schema ← Done (map_err bad_schema (parse_hijack_schema schema_json));
  sd ← Done (optional_guid setupdata_guid);
  img ← get_or_load_image image_id;
  r ← edit_image image_id (on_image_with (hijack_status target) (hijack_form dbg target schema sd));
  _ ← flush_image image_id;
  _ ← touch_quietly (session_id img);
  mret (R_FormHijack (hj_string_ids r) (hj_form_ifr_start r) (hj_form_ifr_end r) (hj_unlock_flips r)
          (map help_control_proto (hj_help_controls r)) (map help_record_proto (hj_help_records r))).

Definition question_outcome (r : AddQuestionResult) : HiiQuestionAddOutcome :=
  {| qo_question_id := aq_question_id r; qo_string_ids := aq_string_ids r;
     qo_spf_record_offset := wrap 32 (aq_spf_record_offset r) |}.
Definition ref_outcome (r : AddRefResult) : HiiQuestionAddOutcome :=
  {| qo_question_id := rr_question_id r; qo_string_ids := rr_string_ids r; qo_spf_record_offset := 0 |}.
(** Everything is checked first; the additions are rolled back together on an error. *)
Definition add_questions (target : ustring) (schema : QuestionAddList)
  : act (list HiiQuestionAddOutcome * list HiiQuestionAddOutcome) :=
  image ⇐ ImageGates.get_image;
  _ ⇐ act_of (check_question_add image target (qal_questions schema) (qal_varstores schema));
  _ ⇐ act_of (check_ref_add image target (qal_refs schema) (map qa_question_id (qal_questions schema)));
  with_rollback
    (_ ⇐ (if bool_decide (length (qal_varstores schema) = 0%nat) then act_ret []
          else add_varstores target (qal_varstores schema));
     outcomes ⇐ act_fold (fun out q => r ⇐ add_question target q; act_ret (out ++ [question_outcome r]))
                  (qal_questions schema) [];
     ref_outcomes ⇐ act_fold (fun out rf => r ⇐ add_ref target rf; act_ret (out ++ [ref_outcome r]))
                      (qal_refs schema) [];
     act_ret (outcomes, ref_outcomes)).
Definition hii_question_add (image_id target schema_json : ustring) : rpc :=
  schema ← Done (map_err bad_schema (parse_question_add_schema schema_json));
  img ← get_or_load_image image_id;
  r ← edit_image image_id (on_image (add_questions target schema) target);
  _ ← flush_image image_id;
  _ ← touch_quietly (session_id img);
  mret (R_QuestionAdd (fst r) (snd r)).

Definition hii_page_add (image_id target schema_json : ustring) : rpc :=
  schema ← Done (map_err bad_schema (parse_page_add_schema schema_json));
  img ← get_or_load_image image_id;
  r ← edit_image image_id (on_image (add_page target schema) target);
  _ ← flush_image image_id;
  _ ← touch_quietly (session_id img);
  mret (R_PageAdd (ap_form_id r) (wrap 32 (ap_slot r)) (wrap 32 (ap_page_offset r)) (ap_title_string_id r)).

(** ** Handlers of the setup browser *)

(** [u32::try_from(n).unwrap_or(u32::MAX)] *)
Definition sat32 (n : Z) : Z := Z.min n 0xFFFFFFFF.
Definition spf_summary_proto (s : SpfSummary) : TseSpfSummary :=
  {| ts_page_count := ss_page_count s;
     ts_formsets := imap (fun idx f =>
       {| sf_proto_guid := guid_to_upper_string (sf_guid f); sf_proto_raw_u32 := sf_raw_u32 f;
          sf_proto_pages := default 0 (snd <$> List.find (fun p => fst p =? Z.of_nat idx)
                                                 (ss_pages_per_formset s)) |}) (ss_formsets s);
     ts_vars := map (fun v => {| tv_guid := guid_to_upper_string (sv_guid v); tv_name := sv_name v;
                                 tv_attrs := sv_attrs v; tv_size := sv_size v |}) (ss_vars s);
     ts_string_controls := sat32 (ss_string_controls s) |}.
Definition stride_block_proto (b : StrideBlock) : TseStrideBlock :=
  {| tb_pe_offset := sat32 (sb_pe_offset b);
     tb_entries := map (fun e => (guid_to_upper_string (te_guid e), te_form_id e)) (sb_entries b) |}.

Definition tse_report (image_id : ustring) : rpc :=
  img ← get_or_load_image image_id;
  rep ← ask (Tse.tse_report guid_error img) image_id;
  _ ← touch_quietly (session_id img);
  mret (R_TseReport (map stride_block_proto (tr_blocks rep)) (spf_summary_proto <$> tr_spf rep)
          (sat32 (tr_pe_len rep))).

Definition tse_unhide (image_id formset_guid : ustring) (form_id : Z) (block_pe_offset : option Z) : rpc :=
  guid ← Done (ok_or (invalid_argument (us "invalid formset guid: " ++ guid_error formset_guid))
                 (guid_try_parse formset_guid));
  fid ← Done (if 0xFFFF <? form_id then Err (invalid_argument (us "form_id exceeds u16")) else Ok form_id);
  _ ← ensure_image_loaded image_id;
  os ← edit_image image_id (with_session (Tse.tse_unhide guid_error guid fid block_pe_offset) formset_guid);
  let '(outcome, session_id) := os : UnhideOutcome * ustring in
  _ ← flush_image image_id;
  _ ← touch_quietly session_id;
  mret (R_TseUnhide (sat32 (uh_pe_offset outcome)) (sat32 (uh_entry_pe_offset outcome))).

(** ** Handlers of variables *)

Definition nvar_list (image_id : ustring) (p : option ustring) (include_data : bool) : rpc :=
  img ← get_or_load_image image_id;
  listings ← Done (map_err nvar_error_status (NvarStores.nvar_list img p include_data));
  _ ← touch_quietly (session_id img);
  mret (R_NvarStores (map nvar_store_proto listings)).

Definition set_variable (name : ustring) (guid : option ustring) (offset value width : Z) (img : Image)
  : Image * outcome Status NvarSetOutcome :=
  match NvarStores.nvar_set img name guid offset value width with
  | Ok (img', o) => (img', Ok o)
  | Err e => (img, Err (nvar_error_status e))
  | Panic => (img, Panic)
  | Diverge => (img, Diverge)
  end.

Definition nvar_set (image_id name : ustring) (guid : option ustring) (offset value width : Z) : rpc :=
  img ← get_or_load_image image_id;
  outcome ← edit_image image_id (set_variable name guid offset value width);
  _ ← flush_image image_id;
  _ ← touch_quietly (session_id img);
  mret (R_NvarSet (applied outcome) (stores outcome)).

(** ** Handlers of snapshots *)

Definition image_snapshot_create (image_id name : ustring) : rpc :=
  row ← get_row image_id;
  bytes ← or_internal (read_image_file cwd data_dir (im_session_id row) image_id);
  snapshot_id ← draw i_uuid;
  now_secs ← draw i_now;
  let name := if bool_decide (name = []) then us "snap-" ++ dec_string now_secs else name in
  _ ← or_internal (store_snapshot_file cwd data_dir (im_session_id row) image_id snapshot_id bytes);
  _ ← or_internal (statement (fun _ =>
        insert_image_snapshot snapshot_id image_id name (blen bytes) now_secs));
  _ ← touch_quietly (im_session_id row);
  mret (R_SnapshotCreate snapshot_id now_secs).

Definition image_snapshots_list (image_id : ustring) : rpc :=
  l ← or_internal (query (fun _ => list_image_snapshots image_id));
  mret (R_Snapshots (map snapshot_info l)).

Definition image_snapshot_restore (image_id snapshot_id : ustring) : rpc :=
  snap ← or_internal (query (fun _ => get_image_snapshot snapshot_id));
  snap ← some_or (not_found (us "snapshot not found")) snap;
  if negb (bool_decide (sn_image_id snap = image_id)) then
    fail (invalid_argument (us "snapshot belongs to another image"))
  else
    row ← get_row image_id;
    bytes ← or_internal (read_snapshot_file cwd data_dir (im_session_id row) image_id snapshot_id);
    _ ← or_internal (atomic_write cwd (image_file data_dir (im_session_id row) image_id) bytes);
    _ ← step (fun _ w => (with_cache (delete image_id (cache w)) w, Ok tt));
    _ ← or_internal (statement (fun now d => Ok (touch_image image_id now d)));
    mret R_Empty.

(** ** The service *)

Inductive Request :=
| Q_SessionCreate (name : ustring)
| Q_SessionDestroy (session_id : ustring)
| Q_SessionsList
| Q_ImageOpen (session_id path : ustring) (mode : Z) (name : ustring)
| Q_ImageUpload (session_id : ustring) (data : list byte) (mode : Z) (name : ustring)
| Q_ImageClose (image_id : ustring)
| Q_ImagesList (session_id : ustring)
| Q_ImageStatus (image_id : ustring)
| Q_ImageNodesList (image_id filter : ustring)
| Q_ImageNodesSearch (image_id query : ustring) (modes : list Z) (limit : Z)
| Q_ImageNodeInsert (image_id target ffs_path artifact_id : ustring) (mode : Z)
| Q_ImageNodeRemove (image_id target : ustring)
| Q_ImageNodeReplace (image_id target ffs_path artifact_id : ustring) (body_only : bool)
| Q_ImageNodeRebuild (image_id target : ustring)
| Q_ImageNodeExtract (image_id target : ustring) (body_only : bool)
| Q_ArtifactExport (artifact_id output_path : ustring)
| Q_ArtifactImport (session_id path : ustring)
| Q_ArtifactsList (session_id : ustring)
| Q_HiiSetFormVisibility (image_id item_id : ustring) (visible : bool)
| Q_HiiListForms (image_id : ustring)
| Q_HiiListVarstores (image_id target : ustring)
| Q_HiiFormTree (image_id : ustring)
| Q_HiiListStrings (image_id : ustring)
| Q_ImageSave (image_id output_path : ustring)
| Q_HiiGatesList (image_id item_id : ustring)
| Q_HiiUnlock (image_id item_id : ustring)
| Q_HiiQuestionInfo (image_id item_id : ustring)
| Q_HiiListQuestions (image_id target : ustring) (form_id : Z)
| Q_HiiSetValue (image_id item_id : ustring) (value : Z)
| Q_HiiGetValue (image_id item_id : ustring)
| Q_NvarList (image_id : ustring) (p : option ustring) (include_data : bool)
| Q_NvarSet (image_id name : ustring) (guid : option ustring) (offset value width : Z)
| Q_HiiFormSetAdd (image_id schema_json target_ffs_guid : ustring)
| Q_HiiFormAdd (image_id target schema_json : ustring)
| Q_HiiFormExport (image_id item_id : ustring)
| Q_HiiFormHijack (image_id target schema_json setupdata_guid : ustring)
| Q_HiiQuestionAdd (image_id target schema_json : ustring)
| Q_HiiPageAdd (image_id target schema_json : ustring)
| Q_TseReport (image_id : ustring)
| Q_TseUnhide (image_id formset_guid : ustring) (form_id : Z) (block_pe_offset : option Z)
| Q_ImageSnapshotCreate (image_id name : ustring)
| Q_ImageSnapshotsList (image_id : ustring)
| Q_ImageSnapshotRestore (image_id snapshot_id : ustring).

Definition handle (q : Request) : rpc :=
  match q with
  | Q_SessionCreate name => session_create name
  | Q_SessionDestroy id => session_destroy id
  | Q_SessionsList => sessions_list
  | Q_ImageOpen s p m n => image_open s p m n
  | Q_ImageUpload s d m n => image_upload s d m n
  | Q_ImageClose i => image_close i
  | Q_ImagesList s => images_list s
  | Q_ImageStatus i => image_status i
  | Q_ImageNodesList i f => image_nodes_list i f
  | Q_ImageNodesSearch i q ms l => image_nodes_search i q ms l
  | Q_ImageNodeInsert i t p a m => image_node_insert i t p a m
  | Q_ImageNodeRemove i t => image_node_remove i t
  | Q_ImageNodeReplace i t p a b => image_node_replace i t p a b
  | Q_ImageNodeRebuild i t => image_node_rebuild i t
  | Q_ImageNodeExtract i t b => image_node_extract i t b
  | Q_ArtifactExport a o => artifact_export a o
  | Q_ArtifactImport s p => artifact_import s p
  | Q_ArtifactsList s => artifacts_list s
  | Q_HiiSetFormVisibility i t v => hii_set_form_visibility i t v
  | Q_HiiListForms i => hii_list_forms i
  | Q_HiiListVarstores i t => hii_list_varstores i t
  | Q_HiiFormTree i => hii_form_tree i
  | Q_HiiListStrings i => hii_list_strings i
  | Q_ImageSave i o => image_save i o
  | Q_HiiGatesList i t => hii_gates_list i t
  | Q_HiiUnlock i t => hii_unlock i t
  | Q_HiiQuestionInfo i t => hii_question_info i t
  | Q_HiiListQuestions i t f => hii_list_questions i t f
  | Q_HiiSetValue i t v => hii_set_value i t v
  | Q_HiiGetValue i t => hii_get_value i t
  | Q_NvarList i p d => nvar_list i p d
  | Q_NvarSet i n g o v w => nvar_set i n g o v w
  | Q_HiiFormSetAdd i s g => hii_form_set_add i s g
  | Q_HiiFormAdd i t s => hii_form_add i t s
  | Q_HiiFormExport i t => hii_form_export i t
  | Q_HiiFormHijack i t s g => hii_form_hijack i t s g
  | Q_HiiQuestionAdd i t s => hii_question_add i t s
  | Q_HiiPageAdd i t s => hii_page_add i t s
  | Q_TseReport i => tse_report i
  | Q_TseUnhide i g f o => tse_unhide i g f o
  | Q_ImageSnapshotCreate i n => image_snapshot_create i n
  | Q_ImageSnapshotsList i => image_snapshots_list i
  | Q_ImageSnapshotRestore i s => image_snapshot_restore i s
  end.

(** What runs in the process: requests and ticks of the collector. A restart begins with no
    image in memory. *)
Inductive Job := J_Request (q : Request) | J_Collect.
Definition job (j : Job) : rpc :=
  match j with
  | J_Request q => handle q
  | J_Collect => _ ← gc_tick cwd data_dir ttl_secs purge_artifacts; mret R_Empty
  end.
Definition restart (w : World) : World := with_cache ∅ w.

End Server.
