(* ===== verification/Terminal.v ===== *)
(** State of the terminal client ([crates/uefi-tui]): the edit line ([line.rs]), the history
    of commands ([history.rs]), the completion menu ([app.rs]) and the windows over lists
    ([ui/scroll.rs], [tree.rs]). A [&mut self] is the state before and after. *)
From S2P Require Import Prelude Text Types Ffs Tiano Codec Parser Target Ops Nvar Listing.

(** ** Functional update of one field of a record

    [r <| field := v |>] copies all other fields. A record takes part by an instance of
    [Eta] that lists its fields. *)

(** The eta expansion of a value of a record. *)
Class Eta (R : Type) := eta : R -> R.
#[global] Hint Mode Eta ! : typeclass_instances.

(** The setter of the projection [proj]: in the eta expansion the result of [proj] is
    replaced. *)
Class Setter {R T : Type} (proj : R -> T) := set_field : T -> R -> R.
#[global] Hint Mode Setter - - ! : typeclass_instances.

Ltac make_setter proj :=
  match type of proj with
  | ?R -> ?T =>
      let e := constr:(_ : Eta R) in
      let e := eval hnf in e in
      let b := eval pattern proj in e in
      match b with
      | ?f _ => let s := constr:(fun (v : T) => f (fun _ : R => v)) in
                let s := eval cbv beta in s in exact s
      end
  end.
#[global] Hint Extern 1 (Setter ?proj) => make_setter proj : typeclass_instances.

Declare Scope update_scope.
Delimit Scope update_scope with update.
Notation "r <| p := v |>" := (set_field (proj := p) v r)
  (at level 12, left associativity, p constr, v at level 200) : update_scope.
#[global] Open Scope update_scope.

Ltac updated := cbv [set_field] in *; simpl in *.

(** ** Text of the standard library *)

(** Splitting a string at a byte index: the slices [&s[..n]] and [&s[n..]] panic outside
    the string and inside a character. *)
Fixpoint split_at (s : ustring) (n : Z) : pure (ustring * ustring) :=
  if n =? 0 then Ok ([], s)
  else match s with
       | [] => Panic
       | c :: s =>
           if n <? len_utf8 c then Panic
           else p ← split_at s (n - len_utf8 c); mret (c :: fst p, snd p)
       end.

(** [s.replace_range(a..b, t)] and [s.drain(a..b)]. *)
Definition replace_range (s : ustring) (a b : Z) (t : ustring) : pure ustring :=
  p ← split_at s b;
  q ← split_at (fst p) a;
  mret (fst q ++ t ++ snd p).

Fixpoint drop_while (p : Z -> bool) (s : ustring) : ustring :=
  match s with
  | [] => []
  | c :: s' => if p c then drop_while p s' else s
  end.
(** [str::trim]. *)
Definition trim (s : ustring) : ustring :=
  rev (drop_while is_whitespace (rev (drop_while is_whitespace s))).

(** [str::lines]: a line ends at a line feed, with the carriage return before it; an
    unterminated last line is kept as it is. *)
Definition strip_cr (s : ustring) : ustring :=
  match rev s with 13 :: r => rev r | _ => s end.
Fixpoint terminated_lines (parts : list ustring) : list ustring :=
  match parts with
  | [] => []
  | [last] => match last with [] => [] | _ => [last] end
  | p :: ps => strip_cr p :: terminated_lines ps
  end.
Definition lines (s : ustring) : list ustring := terminated_lines (split_on 10 s).

(** [Vec::dedup]: of equal neighbours the first one stays. *)
Fixpoint dedup_adjacent (l : list ustring) : list ustring :=
  match l with
  | [] => []
  | a :: l =>
      match dedup_adjacent l with
      | b :: r => if bool_decide (a = b) then a :: r else a :: b :: r
      | [] => [a]
      end
  end.

(** The tables of the crate unicode_segmentation: grapheme clusters and word bounds cut a
    string into non-empty pieces; and [char::is_alphanumeric]. *)
Class Segmentation := {
  graphemes : ustring -> list ustring;
  split_word_bounds : ustring -> list ustring;
  is_alphanumeric : Z -> bool;
  graphemes_concat : forall s, concat (graphemes s) = s;
  graphemes_nonempty : forall s, Forall (fun g => g <> []) (graphemes s);
  split_word_bounds_concat : forall s, concat (split_word_bounds s) = s;
  split_word_bounds_nonempty : forall s, Forall (fun w => w <> []) (split_word_bounds s)
}.

(** The pieces with their byte offsets ([grapheme_indices], [split_word_bound_indices]). *)
Fixpoint indices (off : Z) (ps : list ustring) : list (Z * ustring) :=
  match ps with
  | [] => []
  | p :: ps => (off, p) :: indices (off + str_len p) ps
  end.

(** ** The edit line *)

Record LineBuffer := { ln_s : ustring; ln_cursor : Z }.
Definition with_cursor (i : Z) (b : LineBuffer) : LineBuffer := {| ln_s := ln_s b; ln_cursor := i |}.

Definition line_new : LineBuffer := {| ln_s := []; ln_cursor := 0 |}.
Definition line_set_str (s : ustring) : LineBuffer := {| ln_s := s; ln_cursor := str_len s |}.
Definition line_clear (b : LineBuffer) : LineBuffer := line_new.

Section Line.
Context {SG : Segmentation}.
Implicit Types (b : LineBuffer).

Definition cursor_grapheme (b : LineBuffer) : pure Z :=
  p ← split_at (ln_s b) (ln_cursor b); mret (blen (graphemes (fst p))).

Definition line_insert (c : Z) (b : LineBuffer) : pure LineBuffer :=
  p ← split_at (ln_s b) (ln_cursor b);
  mret {| ln_s := fst p ++ c :: snd p; ln_cursor := ln_cursor b + len_utf8 c |}.

(** [s[..cursor].grapheme_indices(true).next_back()]. *)
Definition grapheme_before (b : LineBuffer) : pure (option (Z * ustring)) :=
  p ← split_at (ln_s b) (ln_cursor b); mret (last (indices 0 (graphemes (fst p)))).
(** [s[cursor..].grapheme_indices(true).next()]. *)
Definition grapheme_after (b : LineBuffer) : pure (option (Z * ustring)) :=
  p ← split_at (ln_s b) (ln_cursor b); mret (head (indices 0 (graphemes (snd p)))).

Definition line_left (b : LineBuffer) : pure LineBuffer :=
  g ← grapheme_before b;
  mret match g with Some (i, _) => with_cursor i b | None => b end.
Definition line_right (b : LineBuffer) : pure LineBuffer :=
  g ← grapheme_after b;
  mret match g with Some (i, w) => with_cursor (ln_cursor b + (i + str_len w)) b | None => b end.
Definition line_home (b : LineBuffer) : LineBuffer := with_cursor 0 b.
Definition line_end (b : LineBuffer) : LineBuffer := with_cursor (str_len (ln_s b)) b.

Definition line_backspace (b : LineBuffer) : pure LineBuffer :=
  g ← grapheme_before b;
  match g with
  | Some (i, _) =>
      s ← replace_range (ln_s b) i (ln_cursor b) [];
      mret {| ln_s := s; ln_cursor := i |}
  | None => mret b
  end.
Definition line_delete (b : LineBuffer) : pure LineBuffer :=
  g ← grapheme_after b;
  match g with
  | Some (i, w) =>
      s ← replace_range (ln_s b) (ln_cursor b) (ln_cursor b + i + str_len w) [];
      mret {| ln_s := s; ln_cursor := ln_cursor b |}
  | None => mret b
  end.

Definition alphanumeric_word (w : ustring) : bool :=
  match w with c :: _ => is_alphanumeric c | [] => false end.
(** [.filter(|(i, _)| *i < cursor).rev().find(alphanumeric)]. *)
Definition word_before (b : LineBuffer) : option (Z * ustring) :=
  List.find (fun iw => alphanumeric_word (snd iw))
    (rev (List.filter (fun iw => fst iw <? ln_cursor b) (indices 0 (split_word_bounds (ln_s b))))).
Definition word_after (b : LineBuffer) : option (Z * ustring) :=
  List.find (fun iw => (ln_cursor b <? fst iw + str_len (snd iw)) && alphanumeric_word (snd iw))
    (indices 0 (split_word_bounds (ln_s b))).

Definition word_left (b : LineBuffer) : LineBuffer :=
  match word_before b with Some (i, _) => with_cursor i b | None => b end.
Definition word_right (b : LineBuffer) : LineBuffer :=
  match word_after b with
  | Some (i, w) => with_cursor (i + str_len w) b
  | None => with_cursor (str_len (ln_s b)) b
  end.
Definition kill_word (b : LineBuffer) : pure LineBuffer :=
  let start := match word_before b with Some (i, _) => i | None => 0 end in
  s ← replace_range (ln_s b) start (ln_cursor b) [];
  mret {| ln_s := s; ln_cursor := start |}.
Definition kill_to_start (b : LineBuffer) : pure LineBuffer :=
  s ← replace_range (ln_s b) 0 (ln_cursor b) [];
  mret {| ln_s := s; ln_cursor := 0 |}.
(** [String::truncate]: without effect behind the end, a panic inside a character. *)
Definition truncate_str (s : ustring) (n : Z) : pure ustring :=
  if n <=? str_len s then p ← split_at s n; mret (fst p) else mret s.
Definition kill_to_end (b : LineBuffer) : pure LineBuffer :=
  s ← truncate_str (ln_s b) (ln_cursor b);
  mret {| ln_s := s; ln_cursor := ln_cursor b |}.
End Line.

(** ** The history of commands *)

Definition CAP : Z := 500.
Record History := {
  hs_entries : list ustring;
  hs_recall : option Z;
  hs_saved : option ustring
}.
Definition history_empty : History := {| hs_entries := []; hs_recall := None; hs_saved := None |}.

(** [content] is what [read_to_string] returns. *)
Definition load_from (content : option ustring) : History :=
  match content with
  | None => history_empty
  | Some content =>
      let es := dedup_adjacent (List.filter (fun l => negb (bool_decide (l = []))) (lines content)) in
      let es := if CAP <? blen es then drop (Z.to_nat (blen es - CAP)) es else es in
      {| hs_entries := es; hs_recall := None; hs_saved := None |}
  end.

Definition history_reset (h : History) : History :=
  {| hs_entries := hs_entries h; hs_recall := None; hs_saved := None |}.

Definition submit (line : ustring) (h : History) : History :=
  let line := trim line in
  let h := history_reset h in
  if bool_decide (line = []) || bool_decide (last (hs_entries h) = Some line) then h
  else
    let es := hs_entries h ++ [line] in
    {| hs_entries := if CAP <? blen es then drop 1 es else es; hs_recall := None; hs_saved := None |}.

(** The text that [save_to] writes; a failure of the write is ignored. *)
Definition save_to (h : History) : ustring :=
  let out := join [10] (hs_entries h) in
  match out with [] => [] | _ => out ++ [10] end.

Definition effective_prefix (h : History) (current : ustring) : ustring :=
  match hs_recall h, hs_saved h with Some _, Some s => s | _, _ => current end.

(** [while i > 0 { i -= 1; if entries[i].starts_with(&p) { ... } }] *)
Fixpoint prev_from (es : list ustring) (p : ustring) (i : nat) : pure (option (Z * ustring)) :=
  match i with
  | O => Ok None
  | S i =>
      e ← index es (Z.of_nat i);
      if starts_with e p then mret (Some (Z.of_nat i, e)) else prev_from es p i
  end.
Definition history_prev (prefix : ustring) (h : History) : pure (History * option ustring) :=
  let h := match hs_recall h with
           | None => {| hs_entries := hs_entries h; hs_recall := None; hs_saved := Some prefix |}
           | Some _ => h
           end in
  let p := effective_prefix h prefix in
  let i := default (blen (hs_entries h)) (hs_recall h) in
  r ← prev_from (hs_entries h) p (Z.to_nat i);
  mret match r with
       | Some (i, e) => ({| hs_entries := hs_entries h; hs_recall := Some i; hs_saved := hs_saved h |}, Some e)
       | None => (h, None)
       end.

(** [while i < len { if entries[i].starts_with(&p) { ... } i += 1 }] over the entries from [i]. *)
Fixpoint next_from (es : list ustring) (p : ustring) (i : Z) : option (Z * ustring) :=
  match es with
  | [] => None
  | e :: es => if starts_with e p then Some (i, e) else next_from es p (i + 1)
  end.
Definition history_next (prefix : ustring) (h : History) : History * option ustring :=
  let p := effective_prefix h prefix in
  match hs_recall h with
  | None => (h, None)
  | Some r =>
      match next_from (drop (Z.to_nat (r + 1)) (hs_entries h)) p (r + 1) with
      | Some (i, e) =>
          ({| hs_entries := hs_entries h; hs_recall := Some i; hs_saved := hs_saved h |}, Some e)
      | None => ({| hs_entries := hs_entries h; hs_recall := None; hs_saved := None |}, hs_saved h)
      end
  end.

(** ** The completion menu *)

Definition MENU_ROWS : Z := 8.
Record MenuItem := { mi_display : ustring; mi_apply : ustring }.
Record MenuState := {
  mn_open : bool;
  mn_items : list MenuItem;
  mn_selected : Z;
  mn_offset : Z
}.
Definition menu_close (m : MenuState) : MenuState :=
  {| mn_open := false; mn_items := []; mn_selected := 0; mn_offset := 0 |}.
Definition open_with (items : list MenuItem) (m : MenuState) : MenuState :=
  {| mn_open := true; mn_items := items; mn_selected := 0; mn_offset := 0 |}.
Definition menu_refresh (items : list MenuItem) (m : MenuState) : MenuState :=
  match items with [] => menu_close m | _ => open_with items m end.
Definition with_selected (i : Z) (m : MenuState) : MenuState :=
  {| mn_open := mn_open m; mn_items := mn_items m; mn_selected := i; mn_offset := mn_offset m |}.
Definition menu_scroll (m : MenuState) : MenuState :=
  let offset :=
    if mn_selected m <? mn_offset m then mn_selected m
    else if mn_offset m + MENU_ROWS <=? mn_selected m then mn_selected m + 1 - MENU_ROWS
    else mn_offset m in
  {| mn_open := mn_open m; mn_items := mn_items m; mn_selected := mn_selected m; mn_offset := offset |}.
Definition menu_down (m : MenuState) : MenuState :=
  match mn_items m with
  | [] => m
  | _ => menu_scroll (with_selected ((mn_selected m + 1) mod blen (mn_items m)) m)
  end.
Definition menu_up (m : MenuState) : MenuState :=
  match mn_items m with
  | [] => m
  | _ => menu_scroll (with_selected (if mn_selected m =? 0 then blen (mn_items m) - 1
                                     else mn_selected m - 1) m)
  end.
Definition selected_apply (m : MenuState) : option ustring :=
  i ← get (mn_items m) (mn_selected m); Some (mi_apply i).

(** ** Windows over lists *)

Definition sat_add (a b : Z) : Z := Z.min usize_max (a + b).

Definition page_down (cursor total page : Z) : Z :=
  if total =? 0 then 0 else Z.min (sat_add cursor page) (total - 1).
Definition page_up (cursor page : Z) : Z := sat_sub cursor page.

Definition compute_scrolled_offset (cursor prev_off inner_h total pad : Z) : pure Z :=
  if (inner_h =? 0) || (total <=? inner_h) then Ok 0
  else
    let max_off := total - inner_h in
    let pad := Z.min pad (sat_sub inner_h 1 / 2) in
    let first := prev_off in
    last ← uadd prev_off inner_h;
    last ← usub last 1;
    top ← uadd first pad;
    if cursor <? top then mret (Z.min (sat_sub cursor pad) max_off)
    else if sat_sub last pad <? cursor then
      mret (Z.min (sat_sub (sat_add cursor pad) (inner_h - 1)) max_off)
    else mret (Z.min prev_off max_off).

(** ** The tree of the image *)

Record TreeNode := {
  tn_path : ustring;
  tn_depth : Z;
  tn_node_type : Z;
  tn_subtype : Z;
  tn_guid : option ustring;
  tn_name : ustring;
  tn_region : ustring;
  tn_action : Z;
  tn_expanded : bool;
  tn_has_children : bool;
  tn_is_nvar : bool
}.
Definition with_expanded (e : bool) (n : TreeNode) : TreeNode :=
  {| tn_path := tn_path n; tn_depth := tn_depth n; tn_node_type := tn_node_type n;
     tn_subtype := tn_subtype n; tn_guid := tn_guid n; tn_name := tn_name n;
     tn_region := tn_region n; tn_action := tn_action n; tn_expanded := e;
     tn_has_children := tn_has_children n; tn_is_nvar := tn_is_nvar n |}.

Definition segments (path : ustring) : list ustring :=
  List.filter (fun s => negb (bool_decide (s = []))) (split_on SLASH path).

(** [next_segs.len() > depth && next_segs[..depth] == segs[..]] *)
Definition is_below (segs next_segs : list ustring) : bool :=
  (blen segs <? blen next_segs) && bool_decide (take (length segs) next_segs = segs).

Definition tree_node (nd : Node) (next : option Node) : TreeNode :=
  let segs := segments (nd_path nd) in
  let depth := blen segs in
  {| tn_path := nd_path nd; tn_depth := depth;
     tn_node_type := wrap 8 (nd_type nd); tn_subtype := wrap 8 (nd_subtype nd);
     tn_guid := match nd_guid nd with [] => None | g => Some g end;
     tn_name := nd_name nd; tn_region := nd_region nd; tn_action := wrap 8 (nd_action nd);
     tn_expanded := depth =? 0;
     tn_has_children := match next with
                        | Some next => is_below segs (segments (nd_path next))
                        | None => false
                        end;
     tn_is_nvar := nd_is_nvar nd |}.
Fixpoint build_tree (nodes : list Node) : list TreeNode :=
  match nodes with
  | [] => []
  | nd :: rest => tree_node nd (head rest) :: build_tree rest
  end.

(** The loop of [visible_rows] with its stack of flags. *)
Fixpoint visible_from (i : Z) (ancestor_expanded : list bool) (tree : list TreeNode) : list Z :=
  match tree with
  | [] => []
  | node :: tree =>
      let anc := take (Z.to_nat (tn_depth node)) ancestor_expanded in
      let rest := visible_from (i + 1) (anc ++ [tn_expanded node]) tree in
      if forallb (fun e => e) anc then i :: rest else rest
  end.
Definition visible_rows (tree : list TreeNode) : list Z := visible_from 0 [] tree.
