(* ===== verification/FormTree.v ===== *)
(** Rows of the forms view of the terminal client ([crates/uefi-tui/src/forms.rs]): the flat
    list of form sets and the tree along the REF edges. *)
From stdpp Require Import gmap.
From S2P Require Import Prelude Text Types Ffs Tiano Codec Parser Target Ops Nvar Hii Values Ifr.
From S2P Require Import Gates ImageStrings.

Record FormKey := {
  fk_target : ustring;
  fk_formset_guid : ustring;
  fk_form_id_ifr : Z;
  fk_title : ustring
}.
#[export] Instance FormKey_eq_dec : EqDecision FormKey.
Proof. solve_decision. Defined.

Inductive FormsRow :=
| FR_FormSet (guid : ustring) (expanded : bool)
| FR_Form (key : FormKey) (visible : bool) (depth : Z) (path : ustring) (has_children expanded : bool)
| FR_DanglingRef (form_id depth : Z).

Definition form_key (f : FormInfo) : FormKey :=
  {| fk_target := fo_form_id f; fk_formset_guid := fo_formset_guid f;
     fk_form_id_ifr := fo_form_id_ifr f; fk_title := fo_title f |}.
(** [format!("{guid}#{form_id}")] *)
Definition row_key (guid : ustring) (form_id : Z) : ustring := guid ++ us "#" ++ dec_string form_id.

(** The form sets in the order of their first form, and the forms of each. *)
Definition group_step (s : list ustring * gmap ustring (list FormInfo)) (f : FormInfo)
  : list ustring * gmap ustring (list FormInfo) :=
  let '(order, by_set) := s in
  let g := fo_formset_guid f in
  (if bool_decide (is_Some (by_set !! g)) then order else order ++ [g],
   <[g := default [] (by_set !! g) ++ [f]]> by_set).
Definition group_forms (forms : list FormInfo) : list ustring * gmap ustring (list FormInfo) :=
  fold_left group_step forms ([], ∅).

(** ** The flat list *)

Definition flat_row (f : FormInfo) : FormsRow := FR_Form (form_key f) (fo_visible f) 1 [] false false.
Definition build_rows (forms : list FormInfo) (expanded : gset ustring) : list FormsRow :=
  let '(order, by_set) := group_forms forms in
  fold_left (fun rows guid =>
    let is_expanded := bool_decide (guid ∈ expanded) in
    let rows := rows ++ [FR_FormSet guid is_expanded] in
    if is_expanded then
      match by_set !! guid with Some l => rows ++ map flat_row l | None => rows end
    else rows) order [].

(** ** The tree along the REF edges *)

Abbreviation kids_map := (gmap Z (list (Z * ustring))).

(** The edges of a form set: the children of each form, without repetition, and the forms
    with an incoming edge. *)
Definition edge_step (guid : ustring) (s : kids_map * gset Z) (e : FormEdge) : kids_map * gset Z :=
  let '(children, has_incoming) := s in
  if negb (bool_decide (ed_formset_guid e = guid)) then s
  else
    let kids := default [] (children !! ed_parent_form_id e) in
    let kid := (ed_form_id e, ed_target_formset_guid e) in
    (<[ed_parent_form_id e := if bool_decide (kid ∈ kids) then kids else kids ++ [kid]]> children,
     {[ed_form_id e]} ∪ has_incoming).
Definition formset_edges (guid : ustring) (edges : list FormEdge) : kids_map * gset Z :=
  fold_left (edge_step guid) edges (∅, ∅).

(** [iter().map(|f| (key(f), f)).collect()]: a later form replaces an earlier one. *)
Definition forms_by_id (l : list FormInfo) : gmap Z FormInfo :=
  fold_left (fun m f => <[fo_form_id_ifr f := f]> m) l ∅.
Definition forms_global (l : list FormInfo) : gmap (ustring * Z) FormInfo :=
  fold_left (fun m f => <[(fo_formset_guid f, fo_form_id_ifr f) := f]> m) l ∅.

(** The children of a form that are forms of the set. *)
Definition own_children (by_id : gmap Z FormInfo) (children : kids_map) (cur : Z) : list Z :=
  List.filter (fun c => bool_decide (is_Some (by_id !! c))) (map fst (default [] (children !! cur))).

(** One turn of the reachability loop; the top of the stack comes first. *)
Definition reach_step (by_id : gmap Z FormInfo) (children : kids_map) (s : list Z * gset Z)
  : pure ((list Z * gset Z) + gset Z) :=
  let '(stack, reachable) := s in
  match stack with
  | [] => Ok (inr reachable)
  | cur :: stack =>
      if bool_decide (cur ∈ reachable) then Ok (inl (stack, reachable))
      else Ok (inl (rev (own_children by_id children cur) ++ stack, {[cur]} ∪ reachable))
  end.
(** Every edge pushes once, so the pops are at most the roots and the edges. *)
Definition reach_fuel (children : kids_map) (queue : list Z) : nat :=
  S (length queue + map_fold (fun _ kids n => (length kids + n)%nat) 0%nat children).
Definition reachable_from (by_id : gmap Z FormInfo) (children : kids_map) (queue : list Z)
  : pure (gset Z) :=
  loop (reach_fuel children queue) (reach_step by_id children) (rev queue, ∅).

(** The roots: forms without an incoming edge, then those no root reaches. *)
Definition root_queue (l : list FormInfo) (by_id : gmap Z FormInfo) (children : kids_map)
  (has_incoming : gset Z) : pure (list Z) :=
  let queue := map fo_form_id_ifr
                 (List.filter (fun f => negb (bool_decide (fo_form_id_ifr f ∈ has_incoming))) l) in
  reachable ← reachable_from by_id children queue;
  mret (fold_left (fun queue f =>
    let id := fo_form_id_ifr f in
    if negb (bool_decide (id ∈ reachable)) && negb (bool_decide (id ∈ queue)) then queue ++ [id]
    else queue) l queue).

Definition arrow : ustring := [32; 0x2192; 32].
Definition form_row (f : FormInfo) (guid : ustring) (depth : Z) (path : list ustring)
  (has_children expanded : bool) : FormsRow :=
  FR_Form {| fk_target := fo_form_id f; fk_formset_guid := guid;
             fk_form_id_ifr := fo_form_id_ifr f; fk_title := fo_title f |}
    (fo_visible f) depth (join arrow path) has_children expanded.
(** The row of a form of another form set. *)
Definition cross_row (x : FormInfo) (expanded : gset ustring) (depth : Z) (path : list ustring)
  : FormsRow :=
  FR_Form (form_key x) (fo_visible x) depth (join arrow path ++ arrow ++ fo_title x) false
    (bool_decide (row_key (fo_formset_guid x) (fo_form_id_ifr x) ∈ expanded)).

Section Emit.
Context (by_id : gmap Z FormInfo) (children : kids_map) (global : gmap (ustring * Z) FormInfo).
Context (guid : ustring) (expanded : gset ustring).

(** [emit_form]; what it pushes to [path] and inserts into [on_path] it removes before it
    returns, so both are arguments, and the state is [emitted] and [rows]. *)
Fixpoint emit_form (fuel : nat) (form_id depth : Z) (path : list ustring) (on_path : gset Z)
  (st : gset Z * list FormsRow) : pure (gset Z * list FormsRow) :=
  match fuel with
  | O => Diverge
  | S fuel =>
      if bool_decide (form_id ∈ on_path) then Ok st
      else
        match by_id !! form_id with
        | None => Ok st
        | Some f =>
            let kids := default [] (children !! form_id) in
            let is_expanded := bool_decide (row_key guid form_id ∈ expanded) in
            let path := path ++ [fo_title f] in
            let st := ({[form_id]} ∪ fst st,
                       snd st ++ [form_row f guid depth path (negb (bool_decide (kids = []))) is_expanded]) in
            if negb (bool_decide (kids = [])) && is_expanded then
              foldM (fun st '(child, target) =>
                if bool_decide (is_Some (by_id !! child)) then
                  emit_form fuel child (depth + 1) path ({[form_id]} ∪ on_path) st
                else
                  let dangling := (fst st, snd st ++ [FR_DanglingRef child (depth + 1)]) in
                  if bool_decide (target = []) then mret dangling
                  else
                    match global !! (target, child) with
                    | Some x => mret (fst st, snd st ++ [cross_row x expanded (depth + 1) path])
                    | None => mret dangling
                    end) kids st
            else mret st
        end
  end.
End Emit.

(** A path through a form set repeats no form, so it is at most as deep as the set is large. *)
Definition formset_rows (forms : list FormInfo) (edges : list FormEdge) (expanded : gset ustring)
  (by_set : gmap ustring (list FormInfo)) (rows : list FormsRow) (guid : ustring) : pure (list FormsRow) :=
  let rows := rows ++ [FR_FormSet guid (bool_decide (guid ∈ expanded))] in
  if negb (bool_decide (guid ∈ expanded)) then mret rows
  else
    match by_set !! guid with
    | None => mret rows
    | Some l =>
        let '(children, has_incoming) := formset_edges guid edges in
        let by_id := forms_by_id l in
        queue ← root_queue l by_id children has_incoming;
        st ← foldM (fun (st : gset Z * list FormsRow) root =>
               if bool_decide (root ∈ fst st) then mret st
               else emit_form by_id children (forms_global forms) guid expanded (S (size by_id))
                      root 1 [] ∅ st) queue (∅, rows);
        mret (snd st)
    end.

Definition build_tree_rows (forms : list FormInfo) (edges : list FormEdge) (expanded : gset ustring)
  : pure (list FormsRow) :=
  let '(order, by_set) := group_forms forms in
  foldM (formset_rows forms edges expanded by_set) order [].

(** ** Keys of expanded rows *)

Definition all_formset_guids (forms : list FormInfo) : gset ustring :=
  list_to_set (map fo_formset_guid forms).
Definition all_row_keys (forms : list FormInfo) (edges : list FormEdge) : gset ustring :=
  let parents : gset (ustring * Z) :=
    list_to_set (map (fun e => (ed_formset_guid e, ed_parent_form_id e)) edges) in
  fold_left (fun (set : gset ustring) f =>
    if bool_decide ((fo_formset_guid f, fo_form_id_ifr f) ∈ parents)
    then {[row_key (fo_formset_guid f) (fo_form_id_ifr f)]} ∪ set else set)
    forms (all_formset_guids forms).

Definition selected_key (rows : list FormsRow) (cursor : Z) : option FormKey :=
  match get rows cursor with
  | Some (FR_Form key _ _ _ _ _) => Some key
  | _ => None
  end.
