(* ===== verification/App.v ===== *)
(** The state of the terminal client ([crates/uefi-tui/src/app.rs]): the record [App] with
    the methods that move its cursors, expand its trees and change its mode. Fields of type
    [ListState] (crate ratatui), which only rendering writes, are left out. *)
From stdpp Require Import gmap.
From S2P Require Import Prelude Text Types Ffs Tiano Codec Parser Target Ops Nvar Listing Hii.
From S2P Require Import Values Ifr Gates ImageStrings ImageGates ImageValues.
From S2P Require Server.
From S2P Require Import Terminal FormTree.

(** ** Data *)

Inductive Mode := MD_Normal | MD_Command | MD_Insert.

Inductive Focus := FC_Tree | FC_Details | FC_Registry.
Definition focus_succ (f : Focus) : Focus :=
  match f with FC_Tree => FC_Details | FC_Details => FC_Registry | FC_Registry => FC_Tree end.
Definition focus_pred (f : Focus) : Focus :=
  match f with FC_Tree => FC_Registry | FC_Details => FC_Tree | FC_Registry => FC_Details end.

Inductive View := VW_Image | VW_Forms.

Inductive FormsFocus := FF_List | FF_Details.
Definition forms_focus_next (f : FormsFocus) : FormsFocus :=
  match f with FF_List => FF_Details | FF_Details => FF_List end.

Record FormsData := {
  fd_forms : list FormInfo;
  fd_edges : list FormEdge;
  fd_flat_mode : bool;
  fd_expanded : gset ustring;
  fd_cursor : Z;
  fd_focus : FormsFocus;
  fd_questions : list QuestionSummary;
  fd_questions_key : option FormKey;
  fd_gates : list GateInfo;
  fd_question_cursor : Z;
  fd_question_info : option QuestionInfo;
  fd_question_info_key : option (FormKey * Z);
  fd_current_value : option GetValueOutcome;
  fd_current_value_key : option (FormKey * Z);
  fd_questions_viewport : Z;
  fd_list_viewport : Z;
  fd_show_strings : bool;
  fd_strings : list StringInfo;
  fd_strings_filter : ustring;
  fd_strings_cursor : Z;
  fd_strings_viewport : Z;
  fd_show_varstores : bool;
  fd_varstores : list VarStoreInfo;
  fd_varstores_target : option ustring;
  fd_varstores_cursor : Z;
  fd_varstores_viewport : Z;
  fd_bottom_cursor : Z;
  fd_bottom_viewport : Z
}.
#[export] Instance FormsData_eta : Eta FormsData := fun f => {|
  fd_forms := fd_forms f; fd_edges := fd_edges f; fd_flat_mode := fd_flat_mode f;
  fd_expanded := fd_expanded f; fd_cursor := fd_cursor f; fd_focus := fd_focus f;
  fd_questions := fd_questions f; fd_questions_key := fd_questions_key f; fd_gates := fd_gates f;
  fd_question_cursor := fd_question_cursor f; fd_question_info := fd_question_info f;
  fd_question_info_key := fd_question_info_key f; fd_current_value := fd_current_value f;
  fd_current_value_key := fd_current_value_key f; fd_questions_viewport := fd_questions_viewport f;
  fd_list_viewport := fd_list_viewport f; fd_show_strings := fd_show_strings f;
  fd_strings := fd_strings f; fd_strings_filter := fd_strings_filter f;
  fd_strings_cursor := fd_strings_cursor f; fd_strings_viewport := fd_strings_viewport f;
  fd_show_varstores := fd_show_varstores f; fd_varstores := fd_varstores f;
  fd_varstores_target := fd_varstores_target f; fd_varstores_cursor := fd_varstores_cursor f;
  fd_varstores_viewport := fd_varstores_viewport f; fd_bottom_cursor := fd_bottom_cursor f;
  fd_bottom_viewport := fd_bottom_viewport f |}.

Record RegistryData := {
  rg_images : list Server.ImageInfo;
  rg_artifacts : list Server.ArtifactInfo;
  rg_cursor : Z
}.
#[export] Instance RegistryData_eta : Eta RegistryData := fun r =>
  {| rg_images := rg_images r; rg_artifacts := rg_artifacts r; rg_cursor := rg_cursor r |}.

Record NvarPane := {
  np_key : option ustring;
  np_stores : list Server.NvarStoreInfo;
  np_loading : bool;
  np_cursor : Z;
  np_hex_scroll : Z;
  np_hex_viewport : Z
}.
#[export] Instance NvarPane_eta : Eta NvarPane := fun p =>
  {| np_key := np_key p; np_stores := np_stores p; np_loading := np_loading p;
     np_cursor := np_cursor p; np_hex_scroll := np_hex_scroll p; np_hex_viewport := np_hex_viewport p |}.

Inductive RegistryRow := RR_Image (i : Z) | RR_Artifact (i : Z).

Record App := {
  ap_mode : Mode;
  ap_tree : list TreeNode;
  ap_cursor : Z;
  ap_focus : Focus;
  ap_registry : RegistryData;
  ap_view : View;
  ap_forms : FormsData;
  ap_nvar : NvarPane;
  ap_active_image_id : option ustring;
  ap_selected : option ustring;
  ap_cmdline : LineBuffer;
  ap_menu : MenuState;
  ap_history : History;
  ap_insert_cmd : ustring;
  ap_status_msg : ustring;
  ap_image_loaded : bool;
  ap_engine_online : bool;
  ap_quit : bool;
  ap_show_help : bool;
  ap_help_scroll : Z;
  ap_details_scroll : Z;
  ap_details_anchor : option ustring;
  ap_tree_viewport_rows : Z
}.
#[export] Instance App_eta : Eta App := fun a => {|
  ap_mode := ap_mode a; ap_tree := ap_tree a; ap_cursor := ap_cursor a; ap_focus := ap_focus a;
  ap_registry := ap_registry a; ap_view := ap_view a; ap_forms := ap_forms a; ap_nvar := ap_nvar a;
  ap_active_image_id := ap_active_image_id a; ap_selected := ap_selected a;
  ap_cmdline := ap_cmdline a; ap_menu := ap_menu a; ap_history := ap_history a;
  ap_insert_cmd := ap_insert_cmd a; ap_status_msg := ap_status_msg a;
  ap_image_loaded := ap_image_loaded a; ap_engine_online := ap_engine_online a;
  ap_quit := ap_quit a; ap_show_help := ap_show_help a; ap_help_scroll := ap_help_scroll a;
  ap_details_scroll := ap_details_scroll a; ap_details_anchor := ap_details_anchor a;
  ap_tree_viewport_rows := ap_tree_viewport_rows a |}.

Definition FormsData_default : FormsData := {|
  fd_forms := []; fd_edges := []; fd_flat_mode := false; fd_expanded := ∅; fd_cursor := 0;
  fd_focus := FF_List; fd_questions := []; fd_questions_key := None; fd_gates := [];
  fd_question_cursor := 0; fd_question_info := None; fd_question_info_key := None;
  fd_current_value := None; fd_current_value_key := None; fd_questions_viewport := 0;
  fd_list_viewport := 0; fd_show_strings := false; fd_strings := []; fd_strings_filter := [];
  fd_strings_cursor := 0; fd_strings_viewport := 0; fd_show_varstores := false;
  fd_varstores := []; fd_varstores_target := None; fd_varstores_cursor := 0;
  fd_varstores_viewport := 0; fd_bottom_cursor := 0; fd_bottom_viewport := 0 |}.

(** [history] is the text of the history file, if it can be read. *)
Definition app_new (history : option ustring) : App := {|
  ap_mode := MD_Normal; ap_tree := []; ap_cursor := 0; ap_focus := FC_Tree;
  ap_registry := {| rg_images := []; rg_artifacts := []; rg_cursor := 0 |};
  ap_view := VW_Image; ap_forms := FormsData_default;
  ap_nvar := {| np_key := None; np_stores := []; np_loading := false; np_cursor := 0;
                np_hex_scroll := 0; np_hex_viewport := 0 |};
  ap_active_image_id := None; ap_selected := None; ap_cmdline := line_new;
  ap_menu := {| mn_open := false; mn_items := []; mn_selected := 0; mn_offset := 0 |};
  ap_history := load_from history; ap_insert_cmd := [];
  ap_status_msg := us "Welcome. Press : for commands, ? for help";
  ap_image_loaded := false; ap_engine_online := true; ap_quit := false; ap_show_help := false;
  ap_help_scroll := 0; ap_details_scroll := 0; ap_details_anchor := None;
  ap_tree_viewport_rows := 0 |}.

(** ** The tree of the image *)

Definition visible (a : App) : list Z := visible_rows (ap_tree a).
Definition selected_tree_idx (a : App) : option Z := get (visible a) (ap_cursor a).
Definition selected_node (a : App) : option TreeNode :=
  i ← selected_tree_idx a; get (ap_tree a) i.
Definition selected_path (a : App) : option ustring := tn_path <$> selected_node a.

(** One step down a list of [n] rows, and one step up. *)
Definition step_down (n cursor : Z) : Z := if (0 <? n) && (cursor + 1 <? n) then cursor + 1 else cursor.
Definition step_up (cursor : Z) : Z := if 0 <? cursor then cursor - 1 else cursor.
(** The size of a page: ten rows as long as the height is not known. *)
Definition page_rows (viewport : Z) : Z := if viewport =? 0 then 10 else viewport.

Definition cursor_down (a : App) : App :=
  a <| ap_cursor := step_down (blen (visible a)) (ap_cursor a) |>.
Definition cursor_up (a : App) : App := a <| ap_cursor := step_up (ap_cursor a) |>.
Definition page_size (a : App) : Z := page_rows (ap_tree_viewport_rows a).
Definition cursor_page_down (a : App) : App :=
  let n := blen (visible a) in
  if n =? 0 then a else a <| ap_cursor := page_down (ap_cursor a) n (page_size a) |>.
Definition cursor_page_up (a : App) : App :=
  a <| ap_cursor := page_up (ap_cursor a) (page_size a) |>.

(** The node at [idx] changes when it has children. *)
Definition expand_at (idx : Z) (e : TreeNode -> bool) (a : App) : App :=
  a <| ap_tree := alter (fun n => if tn_has_children n then with_expanded (e n) n else n)
                    (Z.to_nat idx) (ap_tree a) |>.
Definition toggle_expand_selected (a : App) : App :=
  match selected_tree_idx a with
  | Some idx => expand_at idx (fun n => negb (tn_expanded n)) a
  | None => a
  end.
Definition set_expand_selected (expand : bool) (a : App) : App :=
  match selected_tree_idx a with
  | Some idx => expand_at idx (fun _ => expand) a
  | None => a
  end.

(** The cursor of a list of [n] rows that may have shrunk. *)
Definition clamp_cursor (n cursor : Z) : Z :=
  if n =? 0 then 0 else if n <=? cursor then n - 1 else cursor.
Definition sanitize_cursor (a : App) : App :=
  a <| ap_cursor := clamp_cursor (blen (visible a)) (ap_cursor a) |>.

(** [target.trim_start_matches('/')] *)
Definition normal_path (target : ustring) : ustring := drop_while (Z.eqb SLASH) target.
(** A node whose segments are a proper prefix of [want]. *)
Definition is_ancestor (want : list ustring) (n : TreeNode) : bool :=
  let segs := segments (tn_path n) in
  (blen segs <? blen want) && bool_decide (take (length segs) want = segs).
Definition expand_ancestors (want : list ustring) (tree : list TreeNode) : list TreeNode :=
  map (fun n => if is_ancestor want n && tn_has_children n then with_expanded true n else n) tree.

Inductive GotoError := GE_NoNode (target : ustring) | GE_Hidden.
(** The state is the one after the call, also on an error. *)
Definition goto_path (target : ustring) (a : App) : App * option GotoError :=
  let norm := normal_path target in
  match position (fun n => bool_decide (tn_path n = norm)) (ap_tree a) 0 with
  | None => (a, Some (GE_NoNode target))
  | Some idx =>
      let a := a <| ap_tree := expand_ancestors (segments norm) (ap_tree a) |> in
      match position (Z.eqb idx) (visible a) 0 with
      | Some i => (a <| ap_cursor := i |>, None)
      | None => (a, Some GE_Hidden)
      end
  end.

Definition focus_next (a : App) : App := a <| ap_focus := focus_succ (ap_focus a) |>.
Definition focus_prev (a : App) : App := a <| ap_focus := focus_pred (ap_focus a) |>.
Definition toggle_help (a : App) : App :=
  a <| ap_show_help := negb (ap_show_help a) |> <| ap_help_scroll := 0 |>.

(** [scroll] moves by an [i32] and saturates as a [u16]; [delta as u16] keeps the low bits,
    [-i32::MIN] overflows. *)
Definition scroll_by (delta scroll : Z) : pure Z :=
  if 0 <=? delta then Ok (Z.min 65535 (scroll + wrap 16 delta))
  else if delta =? - 2 ^ 31 then Panic else Ok (sat_sub scroll (wrap 16 (- delta))).
Definition details_scroll_by (delta : Z) (a : App) : pure App :=
  s ← scroll_by delta (ap_details_scroll a); mret (a <| ap_details_scroll := s |>).

(** ** The NVRAM pane *)

Definition selected_is_nvar (a : App) : bool :=
  match selected_node a with Some n => tn_is_nvar n | None => false end.
Definition nvar_vars (a : App) : list Server.NvarVarInfo :=
  match np_stores (ap_nvar a) with s :: _ => Server.ns_vars s | [] => [] end.
Definition nvar_cursor_down (a : App) : App :=
  let len := blen (nvar_vars a) in
  if 0 <? len
  then a <| ap_nvar := ap_nvar a <| np_cursor := Z.min (np_cursor (ap_nvar a) + 1) (len - 1) |> |>
  else a.
Definition nvar_cursor_up (a : App) : App :=
  a <| ap_nvar := ap_nvar a <| np_cursor := sat_sub (np_cursor (ap_nvar a)) 1 |> |>.
Definition nvar_hex_scroll_by (delta : Z) (a : App) : pure App :=
  s ← scroll_by delta (np_hex_scroll (ap_nvar a));
  mret (a <| ap_nvar := ap_nvar a <| np_hex_scroll := s |> |>).

(** ** The registry *)

Definition registry_selectable (a : App) : list RegistryRow :=
  map (fun i => RR_Image (Z.of_nat i)) (seq 0 (length (rg_images (ap_registry a))))
  ++ map (fun i => RR_Artifact (Z.of_nat i)) (seq 0 (length (rg_artifacts (ap_registry a)))).
Definition current_registry_row (a : App) : option RegistryRow :=
  get (registry_selectable a) (rg_cursor (ap_registry a)).
Definition set_registry_cursor (i : Z) (a : App) : App :=
  a <| ap_registry := ap_registry a <| rg_cursor := i |> |>.
Definition registry_cursor_down (a : App) : App :=
  set_registry_cursor (step_down (blen (registry_selectable a)) (rg_cursor (ap_registry a))) a.
Definition registry_cursor_up (a : App) : App :=
  set_registry_cursor (step_up (rg_cursor (ap_registry a))) a.
Definition registry_selected_full_id (a : App) : option ustring :=
  r ← current_registry_row a;
  match r with
  | RR_Image i => Server.ii_image_id <$> get (rg_images (ap_registry a)) i
  | RR_Artifact i => Server.ai_artifact_id <$> get (rg_artifacts (ap_registry a)) i
  end.

(** ** The forms view *)

Definition with_forms (f : FormsData -> FormsData) (a : App) : App :=
  a <| ap_forms := f (ap_forms a) |>.

Definition forms_rows (f : FormsData) : pure (list FormsRow) :=
  if fd_flat_mode f then mret (build_rows (fd_forms f) (fd_expanded f))
  else build_tree_rows (fd_forms f) (fd_edges f) (fd_expanded f).
Definition selected_form_key (f : FormsData) : pure (option FormKey) :=
  rows ← forms_rows f; mret (selected_key rows (fd_cursor f)).
Definition forms_cursor_down (f : FormsData) : pure FormsData :=
  rows ← forms_rows f; mret (f <| fd_cursor := step_down (blen rows) (fd_cursor f) |>).
Definition forms_cursor_up (f : FormsData) : FormsData := f <| fd_cursor := step_up (fd_cursor f) |>.
Definition forms_page_down (f : FormsData) : pure FormsData :=
  rows ← forms_rows f;
  mret (if blen rows =? 0 then f
        else f <| fd_cursor := page_down (fd_cursor f) (blen rows) (page_rows (fd_list_viewport f)) |>).
Definition forms_page_up (f : FormsData) : FormsData :=
  f <| fd_cursor := page_up (fd_cursor f) (page_rows (fd_list_viewport f)) |>.
Definition forms_sanitize_cursor (f : FormsData) : pure FormsData :=
  rows ← forms_rows f; mret (f <| fd_cursor := clamp_cursor (blen rows) (fd_cursor f) |>).

Definition forms_question_cursor_down (f : FormsData) : FormsData :=
  f <| fd_question_cursor := step_down (blen (fd_questions f)) (fd_question_cursor f) |>
    <| fd_bottom_cursor := 0 |>.
Definition forms_question_cursor_up (f : FormsData) : FormsData :=
  f <| fd_question_cursor := step_up (fd_question_cursor f) |> <| fd_bottom_cursor := 0 |>.
Definition forms_bottom_down (f : FormsData) : pure FormsData :=
  i ← uadd (fd_bottom_cursor f) 1; mret (f <| fd_bottom_cursor := i |>).
Definition forms_bottom_up (f : FormsData) : FormsData :=
  f <| fd_bottom_cursor := sat_sub (fd_bottom_cursor f) 1 |>.
Definition forms_question_page_down (f : FormsData) : FormsData :=
  let f := f <| fd_bottom_cursor := 0 |> in
  let n := blen (fd_questions f) in
  if n =? 0 then f
  else f <| fd_question_cursor :=
              page_down (fd_question_cursor f) n (page_rows (fd_questions_viewport f)) |>.
Definition forms_question_page_up (f : FormsData) : FormsData :=
  f <| fd_bottom_cursor := 0 |>
    <| fd_question_cursor := page_up (fd_question_cursor f) (page_rows (fd_questions_viewport f)) |>.

(** Only while the cached questions belong to the selected form. *)
Definition selected_question_id (f : FormsData) : pure (option Z) :=
  key ← selected_form_key f;
  mret (key ← key;
        if bool_decide (fd_questions_key f = Some key)
        then su_question_id <$> get (fd_questions f) (fd_question_cursor f) else None).
Definition selected_form_visible (f : FormsData) : pure (option bool) :=
  rows ← forms_rows f;
  mret match get rows (fd_cursor f) with
       | Some (FR_Form _ visible _ _ _ _) => Some visible
       | _ => None
       end.

(** The key that [h] and [l] expand, and the row that stays selected. *)
Definition expand_target (f : FormsData) (row : option FormsRow)
  : option ustring * option (ustring * option Z) :=
  match row with
  | Some (FR_FormSet guid _) => (Some guid, Some (guid, None))
  | Some (FR_Form key _ _ _ has_children _) =>
      let guid := fk_formset_guid key in
      (if negb (fd_flat_mode f) && has_children then Some (row_key guid (fk_form_id_ifr key))
       else if negb (fd_flat_mode f) then
         match List.find (fun e => bool_decide (ed_formset_guid e = guid)
                                   && (ed_form_id e =? fk_form_id_ifr key)) (fd_edges f) with
         | Some e => Some (row_key guid (ed_parent_form_id e))
         | None => Some guid
         end
       else Some guid,
       Some (guid, Some (fk_form_id_ifr key)))
  | _ => (None, None)
  end.
Definition is_selected_row (sel : ustring * option Z) (r : FormsRow) : bool :=
  match snd sel, r with
  | Some fid, FR_Form key _ _ _ _ _ =>
      bool_decide (fk_formset_guid key = fst sel) && (fk_form_id_ifr key =? fid)
  | None, FR_FormSet g _ => bool_decide (g = fst sel)
  | _, _ => false
  end.
Definition is_expanded_row (flat : bool) (k : ustring) (r : FormsRow) : bool :=
  match r with
  | FR_FormSet guid _ => bool_decide (guid = k)
  | FR_Form key _ _ _ _ _ =>
      negb flat && bool_decide (k = row_key (fk_formset_guid key) (fk_form_id_ifr key))
  | _ => false
  end.
Definition forms_set_expanded (expand : bool) (f : FormsData) : pure FormsData :=
  rows ← forms_rows f;
  let '(exp_key, sel) := expand_target f (get rows (fd_cursor f)) in
  let f := match exp_key with
           | Some key => f <| fd_expanded := if expand then {[key]} ∪ fd_expanded f
                                             else fd_expanded f ∖ {[key]} |>
           | None => f
           end in
  rows ← forms_rows f;
  let target :=
    match (sel ← sel; position (is_selected_row sel) rows 0) with
    | Some i => Some i
    | None => k ← exp_key; position (is_expanded_row (fd_flat_mode f) k) rows 0
    end in
  let f := match target with Some i => f <| fd_cursor := i |> | None => f end in
  mret (if blen rows <=? fd_cursor f then f <| fd_cursor := sat_sub (blen rows) 1 |> else f).

(** ** The panels of strings and variable stores *)

Section Strings.
Context {LC : Lowercase}.

(** The positions of the strings that contain the filter. *)
Definition string_visible (f : FormsData) (i : Z) : bool :=
  match get (fd_strings f) i with
  | Some s =>
      let needle := to_lowercase (fd_strings_filter f) in
      bool_decide (needle = []) || contains (to_lowercase (si_text s)) needle
  | None => false
  end.
Definition strings_visible (f : FormsData) : list Z :=
  List.filter (string_visible f) (map Z.of_nat (seq 0 (length (fd_strings f)))).
Definition strings_cursor_down (f : FormsData) : FormsData :=
  match List.find (fun i => fd_strings_cursor f <? i) (strings_visible f) with
  | Some next => f <| fd_strings_cursor := next |>
  | None => f
  end.
Definition strings_cursor_up (f : FormsData) : FormsData :=
  match List.find (fun i => i <? fd_strings_cursor f) (rev (strings_visible f)) with
  | Some prev => f <| fd_strings_cursor := prev |>
  | None => f
  end.
(** [strings_page_down] and [strings_page_up] jump to the position [to] of the visible
    strings. *)
Definition strings_jump (to : Z -> Z) (f : FormsData) : pure FormsData :=
  match position (Z.eqb (fd_strings_cursor f)) (strings_visible f) 0 with
  | None => mret f
  | Some pos => i ← index (strings_visible f) (to pos); mret (f <| fd_strings_cursor := i |>)
  end.
Definition strings_page_down (f : FormsData) : pure FormsData :=
  strings_jump (fun pos => page_down pos (blen (strings_visible f)) (page_rows (fd_strings_viewport f))) f.
Definition strings_page_up (f : FormsData) : pure FormsData :=
  strings_jump (fun pos => page_up pos (page_rows (fd_strings_viewport f))) f.
End Strings.

Definition varstores_cursor_down (f : FormsData) : FormsData :=
  match fd_varstores f with
  | [] => f
  | l => f <| fd_varstores_cursor := Z.min (fd_varstores_cursor f + 1) (blen l - 1) |>
  end.
Definition varstores_cursor_up (f : FormsData) : FormsData :=
  f <| fd_varstores_cursor := sat_sub (fd_varstores_cursor f) 1 |>.
Definition varstores_page_down (f : FormsData) : FormsData :=
  let n := blen (fd_varstores f) in
  if n =? 0 then f
  else f <| fd_varstores_cursor :=
              page_down (fd_varstores_cursor f) n (page_rows (fd_varstores_viewport f)) |>.
Definition varstores_page_up (f : FormsData) : FormsData :=
  f <| fd_varstores_cursor := page_up (fd_varstores_cursor f) (page_rows (fd_varstores_viewport f)) |>.

(** ** Modes *)

Definition enter_command_mode (a : App) : App :=
  a <| ap_mode := MD_Command |> <| ap_cmdline := line_clear (ap_cmdline a) |>
    <| ap_insert_cmd := [] |> <| ap_menu := menu_close (ap_menu a) |>
    <| ap_history := history_reset (ap_history a) |>.
Definition enter_insert_mode (cmd prefill : ustring) (a : App) : App :=
  a <| ap_mode := MD_Insert |> <| ap_insert_cmd := cmd |> <| ap_cmdline := line_set_str prefill |>
    <| ap_menu := menu_close (ap_menu a) |> <| ap_history := history_reset (ap_history a) |>.
Definition exit_to_normal (a : App) : App :=
  a <| ap_mode := MD_Normal |> <| ap_cmdline := line_clear (ap_cmdline a) |>
    <| ap_insert_cmd := [] |> <| ap_menu := menu_close (ap_menu a) |>.
