(* ===== verification/Completion.v ===== *)
(** Completion of the command line ([complete] of [crates/uefi-tui/src/commands.rs]) and the
    key reducer of the command mode ([cmd_key] of [app.rs], [map_key] of [input.rs]). *)
From stdpp Require Import gmap sorting.
From S2P Require Import Prelude Text Types Ffs Tiano Codec Parser Target Ops Nvar Listing Hii.
From S2P Require Import Values Ifr Gates ImageStrings ImageGates ImageValues.
From S2P Require Server.
From S2P Require Import Terminal FormTree App.

(** What the process finds outside: the variable [HOME] (empty if it is not set) and the
    entries of a directory with their kind, if it can be read. *)
Record Shell := {
  sh_home : ustring;
  sh_read_dir : ustring -> option (list (ustring * bool))
}.

Record Completion := { cm_common : option ustring; cm_items : list MenuItem }.

(** ** Text *)

(** [str::split_whitespace] *)
Fixpoint split_whitespace_go (acc s : ustring) : list ustring :=
  let flush (rest : list ustring) := match acc with [] => rest | _ => rev acc :: rest end in
  match s with
  | [] => flush []
  | c :: s => if is_whitespace c then flush (split_whitespace_go [] s)
              else split_whitespace_go (c :: acc) s
  end.
Definition split_whitespace (s : ustring) : list ustring := split_whitespace_go [] s.

(** [Ord] of strings: UTF-8 keeps the order of the scalar values. *)
Fixpoint str_le (a b : ustring) : bool :=
  match a, b with
  | [], _ => true
  | _ :: _, [] => false
  | x :: a, y :: b => (x <? y) || ((x =? y) && str_le a b)
  end.

Definition str_ord (a b : ustring) : Prop := str_le a b = true.
#[export] Instance str_ord_dec : RelDecision str_ord.
Proof. intros a b. unfold str_ord. apply _. Defined.

(** [matches!(s, a | b | ...)] and [s == a] on literals. *)
Definition is_word (s : ustring) (w : String.string) : bool := bool_decide (s = us w).
Definition is_words (s : ustring) (ws : list String.string) : bool := existsb (is_word s) ws.
(** [head.get(i) == Some(&w)] *)
Definition word_at (head : list ustring) (i : nat) (w : String.string) : bool :=
  match head !! i with Some s => is_word s w | None => false end.
Definition last_is (head : list ustring) (w : String.string) : bool :=
  match last head with Some s => is_word s w | None => false end.
Definition is_flag (s : ustring) : bool := starts_with s (us "--").

(** [filter(|c| c.starts_with(token))] *)
Definition starting (token : ustring) (cs : list ustring) : list ustring :=
  List.filter (fun c => starts_with c token) cs.
Definition literals (token : ustring) (ws : list String.string) : list ustring :=
  starting token (map us ws).
(** [filter(|c| seen.insert(c.clone()))] *)
Fixpoint unique_from (seen l : list ustring) : list ustring :=
  match l with
  | [] => []
  | c :: l => if bool_decide (c ∈ seen) then unique_from seen l else c :: unique_from (c :: seen) l
  end.
Definition unique (l : list ustring) : list ustring := unique_from [] l.

(** ** Candidates *)

Definition COMMANDS : list ustring := map us
  ["open"; "o"; "save"; "s"; "extract"; "export"; "import"; "artifacts"; "insert"; "replace";
   "remove"; "rebuild"; "switch"; "close"; "reopen"; "image"; "refresh"; "forms"; "f"; "filter";
   "goto"; "g"; "hii"; "nvar"; "upload"; "snapshot"; "snapshots"; "restore"; "tse"; "tse-unhide";
   "help"; "h"; "quit"; "q"]%string.

Definition unique_form_targets (f : FormsData) : list ustring := unique (map fo_form_id (fd_forms f)).
Definition unique_formset_guids (f : FormsData) : list ustring :=
  unique (map fo_formset_guid (fd_forms f)).
Definition nvar_vars_all (p : NvarPane) : list Server.NvarVarInfo :=
  concat (map Server.ns_vars (np_stores p)).
Definition nvar_var_names (p : NvarPane) : list ustring := unique (map Server.nv_name (nvar_vars_all p)).
Definition nvar_var_guids (p : NvarPane) : list ustring :=
  unique (map Server.nv_guid
    (List.filter (fun v => negb (bool_decide (Server.nv_guid v = []))) (nvar_vars_all p))).
Definition fmt_item (target : ustring) (form_id_ifr : Z) : ustring :=
  target ++ us "#" ++ dec_string form_id_ifr.
Definition item_id_candidates (f : FormsData) : list ustring :=
  map (fun i => fmt_item (fo_form_id i) (fo_form_id_ifr i)) (fd_forms f).

Definition expand_tilde (token home : ustring) : ustring :=
  if is_word token "~" then home
  else if starts_with token (us "~/") then home ++ us "/" ++ drop 2 token
  else token.

(** [token.rfind('/')]: the directory with its slash, and the rest. *)
Definition dir_and_prefix (token : ustring) : ustring * ustring :=
  match rsplit_once SLASH token with
  | Some (dir, prefix) => (dir ++ [SLASH], prefix)
  | None => ([], token)
  end.
Definition complete_path (sh : Shell) (token : ustring) : list ustring :=
  let token := expand_tilde token (sh_home sh) in
  let '(dir_part, prefix) := dir_and_prefix token in
  let dir := match dir_part with [] => us "." | _ => dir_part end in
  match sh_read_dir sh dir with
  | None => []
  | Some rd =>
      merge_sort str_ord
        (map (fun '(name, is_dir) => dir_part ++ name ++ if (is_dir : bool) then us "/" else [])
          (List.filter (fun '(name, _) => negb (starts_with name (us ".")) || starts_with prefix (us "."))
            (List.filter (fun '(name, _) => starts_with name prefix) rd)))
  end.

(** What is typed behind [formset add]: a file, and [--ffs]. *)
Fixpoint formset_add_typed_state (tokens : list ustring) (file ffs : bool) : bool * bool :=
  match tokens with
  | [] => (file, ffs)
  | t :: tokens =>
      if is_word t "--ffs" then
        match tokens with
        | _ :: tokens => formset_add_typed_state tokens file true
        | [] => (file, true)
        end
      else if is_flag t then formset_add_typed_state tokens file ffs
      else formset_add_typed_state tokens true ffs
  end.

(** The flags of a command at this position. *)
Definition flag_names (cmd : ustring) (head : list ustring) : list String.string :=
  let len := length head in
  if is_word cmd "insert" then ["--file"; "--artifact-id"; "--mode"]%string
  else if is_word cmd "replace" then ["--file"; "--artifact-id"; "--body-only"]%string
  else if is_word cmd "extract" then ["--body-only"]%string
  else if is_word cmd "reopen" then ["--mode"]%string
  else if is_words cmd ["open"; "o"]%string then ["--mode"]%string
  else if is_word cmd "hii" && (3 <=? len)%nat && word_at head 1 "formset" && word_at head 2 "add"
          && bool_decide (formset_add_typed_state (drop 3 head) false false = (true, false))
  then ["--ffs"]%string
  else if is_word cmd "hii" && (len =? 4)%nat && word_at head 1 "form" && word_at head 2 "export"
  then ["--out"]%string
  else if is_word cmd "hii" && (len =? 3)%nat && word_at head 1 "import" then ["--file"]%string
  else if is_word cmd "nvar" && (len =? 2)%nat && word_at head 1 "list" then ["--var"]%string
  else if is_word cmd "nvar" && (2 <=? len)%nat && word_at head 1 "set"
  then ["--guid"; "--offset"; "--value"; "--width"]%string
  else [].

Definition visible_paths (a : App) : pure (list ustring) :=
  foldM (fun out i => n ← index (ap_tree a) i; mret (out ++ [tn_path n])) (visible a) [].

(** The branch [cmd == hii]. *)
Definition hii_candidates (sh : Shell) (f : FormsData) (head : list ustring) (token : ustring)
  : list ustring :=
  let len := length head in
  if (len =? 1)%nat then
    literals token ["formset"; "form"; "question"; "page"; "hijack"; "set-value"; "visibility";
                    "unlock"; "import"]%string
  else
    let noun := default [] (head !! 1%nat) in
    if is_words noun ["formset"; "question"; "page"]%string then
      if (len =? 2)%nat then literals token ["add"]%string
      else if negb (word_at head 2 "add") then []
      else if is_word noun "formset" then
        if fst (formset_add_typed_state (drop 3 head) false false) then [] else complete_path sh token
      else if (len =? 4)%nat then complete_path sh token
      else if (len =? 3)%nat then
        starting token (if is_word noun "question" then item_id_candidates f else unique_form_targets f)
      else []
    else if is_word noun "form" then
      if (len =? 2)%nat then literals token ["add"; "export"]%string
      else if word_at head 2 "add" && (len =? 4)%nat then complete_path sh token
      else if word_at head 2 "add" && (len =? 3)%nat then starting token (unique_form_targets f)
      else if word_at head 2 "export" && (len =? 3)%nat then starting token (item_id_candidates f)
      else []
    else if is_word noun "import" then
      if (len =? 2)%nat then starting token (unique_form_targets f) else []
    else if is_word noun "hijack" then
      if (len =? 2)%nat then starting token (unique_form_targets f)
      else if (len =? 3)%nat then complete_path sh token
      else []
    else if is_words noun ["set-value"; "visibility"; "unlock"]%string
            && negb (existsb (fun s => negb (is_flag s)) (drop 2 head))
    then starting token (item_id_candidates f)
    else [].

Definition nvar_candidates (a : App) (head : list ustring) (token : ustring) : pure (list ustring) :=
  if (length head =? 1)%nat then mret (literals token ["list"; "set"]%string)
  else if (length head =? 2)%nat && word_at head 1 "list" then
    ps ← visible_paths a; mret (starting token ps)
  else if (length head =? 2)%nat && word_at head 1 "set" then
    mret (starting token (nvar_var_names (ap_nvar a)))
  else mret [].

Definition context_candidates (sh : Shell) (a : App) (cmd : ustring) (head : list ustring)
  (token : ustring) : pure (list ustring) :=
  let f := ap_forms a in
  let artifact_ids := map Server.ai_artifact_id (rg_artifacts (ap_registry a)) in
  if last_is head "--file" then mret (complete_path sh token)
  else if is_word cmd "hii" && word_at head 1 "form" && word_at head 2 "export" && last_is head "--out"
  then mret (complete_path sh token)
  else if last_is head "--mode" then
    mret (literals token (if is_words cmd ["reopen"; "open"; "o"]%string then ["read"; "write"]%string
                          else ["into"; "before"; "after"]%string))
  else if last_is head "--artifact-id" then mret (starting token artifact_ids)
  else if is_words cmd ["switch"; "close"]%string && (length head =? 1)%nat then
    mret (starting token (map Server.ii_image_id (rg_images (ap_registry a))))
  else if last_is head "--ffs" then mret (starting token (unique_formset_guids f))
  else if last_is head "--var" then mret (starting token (nvar_var_names (ap_nvar a)))
  else if is_word cmd "nvar" && last_is head "--guid" then
    mret (starting token (nvar_var_guids (ap_nvar a)))
  else if is_word cmd "nvar" && last_is head "--width" then
    mret (literals token ["1"; "2"; "4"; "8"]%string)
  else if is_flag token then mret (literals token (flag_names cmd head))
  else if is_word cmd "export" then
    mret (if (length head =? 1)%nat then starting token artifact_ids
          else if (length head =? 2)%nat then complete_path sh token else [])
  else if is_words cmd ["open"; "o"; "save"; "s"; "upload"; "import"]%string && (length head =? 1)%nat
  then mret (complete_path sh token)
  else if is_word cmd "hii" then mret (hii_candidates sh f head token)
  else if is_word cmd "nvar" then nvar_candidates a head token
  else if is_words cmd ["insert"; "replace"; "remove"; "rebuild"; "extract"; "goto"; "restore"]%string
          && negb (existsb (fun s => negb (is_flag s)) (drop 1 head))
  then ps ← visible_paths a; mret (starting token ps)
  else mret [].

(** The number of equal characters becomes a number of bytes. *)
Fixpoint equal_chars (p s : ustring) : Z :=
  match p, s with
  | a :: p, b :: s => if a =? b then 1 + equal_chars p s else 0
  | _, _ => 0
  end.
Definition common_prefix (items : list ustring) : pure ustring :=
  match items with
  | [] => Panic
  | first :: _ => foldM (fun p s => truncate_str p (equal_chars p s)) items first
  end.

Definition menu_item (base c : ustring) : MenuItem :=
  {| mi_display := c; mi_apply := base ++ c ++ if bool_decide (last c = Some SLASH) then [] else [32] |}.
(** The last token unless the line ends with a space, and the words before it. *)
Definition command_words (cmdline : ustring) : list ustring * ustring :=
  let parts := split_whitespace cmdline in
  if bool_decide (last cmdline = Some 32) then (parts, [])
  else match rev parts with token :: head => (rev head, token) | [] => ([], []) end.
Definition complete (sh : Shell) (a : App) (cmdline : ustring) : pure Completion :=
  let '(head, token) := command_words cmdline in
  candidates ← match head with
               | [] => mret (starting token COMMANDS)
               | cmd :: _ => context_candidates sh a cmd head token
               end;
  let base := match head with [] => [] | _ => join [32] head ++ [32] end in
  let items := map (menu_item base) candidates in
  match items with
  | [] => mret {| cm_common := None; cm_items := [] |}
  | [only] => mret {| cm_common := Some (mi_apply only); cm_items := [] |}
  | _ =>
      prefix ← common_prefix candidates;
      mret {| cm_common := Some (base ++ prefix); cm_items := items |}
  end.

(** ** Keys *)

Inductive AppEvent :=
| E_Key (c : Z) | E_Ctrl (c : Z) | E_Enter | E_Esc | E_Backspace | E_Tab | E_BackTab | E_Up | E_Down
| E_PageUp | E_PageDown | E_Left | E_Right | E_Home | E_End | E_Delete | E_WordLeft | E_WordRight
| E_Quit | E_Tick.

Inductive CmdFlow := CF_Execute | CF_Exit | CF_None.

Section Keys.
Context {SG : Segmentation} (sh : Shell).

(** [Command line after the key]: the edit of the buffer by the method [f]. *)
Definition edit_line (f : LineBuffer -> pure LineBuffer) (a : App) : pure App :=
  b ← f (ap_cmdline a); mret (a <| ap_cmdline := b |>).
Definition set_line (s : ustring) (a : App) : App := a <| ap_cmdline := line_set_str s |>.
Definition with_menu (f : MenuState -> MenuState) (a : App) : App := a <| ap_menu := f (ap_menu a) |>.
Definition reset_history (a : App) : App := a <| ap_history := history_reset (ap_history a) |>.

(** [let comp = complete(self, self.cmdline.as_str()); self.menu.refresh(comp.items)] *)
Definition refresh_menu (a : App) : pure App :=
  comp ← complete sh a (ln_s (ap_cmdline a)); mret (with_menu (menu_refresh (cm_items comp)) a).

Definition accept_menu_selection (a : App) : pure App :=
  match selected_apply (ap_menu a) with
  | Some apply => refresh_menu (reset_history (set_line apply a))
  | None => mret a
  end.

(** What [Tab] does while the menu is closed. *)
Definition open_completion (a : App) : pure App :=
  comp ← complete sh a (ln_s (ap_cmdline a));
  let a := match cm_common comp with Some c => set_line c a | None => a end in
  let a := with_menu (match cm_items comp with [] => menu_close | items => open_with items end) a in
  mret (reset_history a).

(** A line recalled from the history. *)
Definition recall_line (r : History * option ustring) (a : App) : App :=
  let a := a <| ap_history := fst r |> in
  match snd r with Some s => set_line s a | None => a end.

(** The reducer before the menu is refreshed: the state, the flow and whether the text
    changed. *)
Definition key_step (ev : AppEvent) (a : App) : pure (App * CmdFlow * bool) :=
  let moved (m : pure App) := a ← m; mret (a, CF_None, false) in
  let mutated (m : pure App) := a ← m; mret (a, CF_None, true) in
  let is_open := mn_open (ap_menu a) in
  match ev with
  | E_Key c =>
      if (c =? 106) && is_open then moved (mret (with_menu menu_down a))
      else if (c =? 107) && is_open then moved (mret (with_menu menu_up a))
      else mutated (edit_line (line_insert c) a)
  | E_Ctrl c =>
      if c =? 97 then moved (edit_line (fun b => mret (line_home b)) a)
      else if c =? 101 then moved (edit_line (fun b => mret (line_end b)) a)
      else if c =? 119 then mutated (edit_line kill_word a)
      else if c =? 117 then mutated (edit_line kill_to_start a)
      else if c =? 107 then mutated (edit_line kill_to_end a)
      else moved (mret a)
  | E_Backspace => mutated (edit_line line_backspace a)
  | E_Delete => mutated (edit_line line_delete a)
  | E_Left => moved (edit_line line_left a)
  | E_Right => moved (if is_open then accept_menu_selection a else edit_line line_right a)
  | E_WordLeft => moved (edit_line (fun b => mret (word_left b)) a)
  | E_WordRight => moved (edit_line (fun b => mret (word_right b)) a)
  | E_Home => moved (edit_line (fun b => mret (line_home b)) a)
  | E_End => moved (edit_line (fun b => mret (line_end b)) a)
  | E_Up =>
      moved (if is_open then mret (with_menu menu_up a)
             else r ← history_prev (ln_s (ap_cmdline a)) (ap_history a); mret (recall_line r a))
  | E_Down =>
      moved (mret (if is_open then with_menu menu_down a
                   else recall_line (history_next (ln_s (ap_cmdline a)) (ap_history a)) a))
  | E_Tab => moved (if is_open then accept_menu_selection a else open_completion a)
  | E_BackTab => moved (mret (if is_open then with_menu menu_up a else a))
  | E_Enter =>
      if is_open then moved (accept_menu_selection a) else mret (a, CF_Execute, false)
  | E_Esc =>
      if is_open then moved (mret (with_menu menu_close a)) else mret (a, CF_Exit, false)
  | _ => moved (mret a)
  end.

Definition cmd_key (ev : AppEvent) (a : App) : pure (App * CmdFlow) :=
  r ← key_step ev a;
  let '(a, flow, mutated) := r in
  if (mutated : bool) then
    let a := reset_history a in
    a ← (if mn_open (ap_menu a) then refresh_menu a else mret a);
    mret (a, flow)
  else mret (a, flow).

(** [handle_command] of [main.rs] behind the execution of the command, which leaves the
    state [executed]: the line goes to the history, whose text is written to the file. *)
Definition after_command (cmd : ustring) (executed : App) : App * ustring :=
  let a := executed <| ap_history := submit cmd (ap_history executed) |> in
  (exit_to_normal a, save_to (ap_history a)).
End Keys.
