(* ===== verification/Envelope.v ===== *)
(** Packages of forms ([crates/uefi-common/src/envelope.rs]): a JSON document that holds the
    body of a form set with its origin and the references that lead to it. The client cuts a
    package before it sends the parts to the engine. *)
From S2P Require Import Prelude Text Types.

(** ** Data *)

Record SourceMeta := { sm_formset_guid : ustring }.
Record Meta := { mt_source : option SourceMeta; mt_lossy : list ustring }.
Definition Meta_default : Meta := {| mt_source := None; mt_lossy := [] |}.
Record RefEntry := {
  rf_form_id : option Z;
  rf_formset_guid : option ustring;
  rf_prompt : option ustring;
  rf_help : option ustring;
  rf_question_id : option Z
}.
Definition RefEntry_default : RefEntry :=
  {| rf_form_id := None; rf_formset_guid := None; rf_prompt := None; rf_help := None;
     rf_question_id := None |}.
Record RefsSection := { rs_parent_form_id : Z; rs_entries : list RefEntry }.
Record Envelope := { env_meta : Meta; env_refs : option RefsSection; env_body : ustring }.
Record RefRecord := {
  rr_form_id : Z; rr_prompt : ustring; rr_help : ustring; rr_question_id : Z;
  rr_formset_guid : option ustring
}.
Record RefStepPlan := { rp_parent_form_id : Z; rp_records : list RefRecord }.
Record VarstoreBrief := { vb_id : Z; vb_guid : ustring; vb_size : Z; vb_name : ustring }.

Inductive EnvelopeError :=
| EE_InvalidJson (e : ustring)
| EE_InvalidMeta (e : ustring)
| EE_InvalidRefs (e : ustring)
| EE_MissingFormsetBody
| EE_FormNotInserted
| EE_VarstoreConflict (id : Z).

(** The numbers of a section are [u16]. *)
Definition fits_u16 (n : Z) : bool := (0 <=? n) && (n <? 0x10000).
Definition refs_fit (r : RefsSection) : bool :=
  fits_u16 (rs_parent_form_id r)
  && forallb (fun e => forallb fits_u16 (option_list (rf_form_id e) ++ option_list (rf_question_id e))) (rs_entries r).

(** [Value] of serde_json with the methods the code calls, and the derived conversions of
    the types above. [set_member] replaces or adds a member of an object; [depth] is the
    nesting of arrays and objects, and [has_float] tells whether a number is no integer of
    64 bits. The parser of serde_json stops at 128 nested values, and a printed float need
    not be read back exactly without its feature [float_roundtrip]: the laws only ask for
    documents without floats that are nested less deep. *)
Class JsonLib := {
  Value : Set;
  from_str : ustring -> outcome ustring Value;
  to_json : Value -> ustring;
  to_json_pretty : Value -> ustring;
  is_object : Value -> bool;
  member : ustring -> Value -> option Value;
  set_member : ustring -> Value -> Value -> Value;
  empty_object : Value;
  of_array : list Value -> Value;
  as_array : Value -> option (list Value);
  as_u64 : Value -> option Z;
  as_str : Value -> option ustring;
  meta_of : Value -> outcome ustring Meta;
  of_meta : Meta -> Value;
  refs_of : Value -> outcome ustring RefsSection;
  of_refs : RefsSection -> Value;
  of_records : list RefRecord -> Value;
  depth : Value -> Z;
  has_float : Value -> bool;
  (* a document never aborts the parser, and a printed value is read back *)
  from_str_total s : from_str s <> Panic /\ from_str s <> Diverge;
  from_str_to_json v : has_float v = false -> depth v < 128 -> from_str (to_json v) = Ok v;
  from_str_to_json_pretty v :
    has_float v = false -> depth v < 128 -> from_str (to_json_pretty v) = Ok v;
  (* nesting and floats of an object are those of its members *)
  depth_empty : depth empty_object = 1;
  depth_set k x v : depth (set_member k x v) <= Z.max (depth v) (1 + depth x);
  has_float_empty : has_float empty_object = false;
  has_float_set k x v :
    has_float x = false -> has_float v = false -> has_float (set_member k x v) = false;
  (* members belong to objects, and [set_member] changes one of them *)
  is_object_empty : is_object empty_object = true;
  member_empty k : member k empty_object = None;
  is_object_set k x v : is_object v = true -> is_object (set_member k x v) = true;
  member_set k x v : is_object v = true -> member k (set_member k x v) = Some x;
  member_set_ne k k' x v : k <> k' -> member k' (set_member k x v) = member k' v;
  as_array_of l : as_array (of_array l) = Some l;
  (* the derived conversions are inverse *)
  meta_of_total v : meta_of v <> Panic /\ meta_of v <> Diverge;
  meta_of_meta m : meta_of (of_meta m) = Ok m;
  refs_of_total v : refs_of v <> Panic /\ refs_of v <> Diverge;
  refs_of_refs r : refs_fit r = true -> refs_of (of_refs r) = Ok r;
  (* they print strings and integers, in objects and arrays of a fixed nesting *)
  depth_meta m : depth (of_meta m) <= 2;
  has_float_meta m : has_float (of_meta m) = false;
  depth_refs r : depth (of_refs r) <= 3;
  has_float_refs r : has_float (of_refs r) = false
}.

Section Envelope.
Context {JL : JsonLib}.

(** ** Cutting and wrapping a package *)

Definition parse_refs (raw : Value) : outcome EnvelopeError RefsSection :=
  map_err EE_InvalidRefs (refs_of raw).
Definition refs_only (meta : Meta) (raw : Value) : outcome EnvelopeError Envelope :=
  refs ← parse_refs raw;
  if bool_decide (rs_entries refs = []) || existsb (fun e => bool_decide (rf_form_id e = None)) (rs_entries refs)
  then Err (EE_InvalidRefs (us "refs-only package entries must be non-empty with explicit form_id"))
  else mret {| env_meta := meta; env_refs := Some refs; env_body := [] |}.
Definition bare (text : ustring) : Envelope :=
  {| env_meta := Meta_default; env_refs := None; env_body := text |}.

(** [obj.get("refs").filter(|r| r.is_object())] *)
Definition refs_object (v : Value) : option Value :=
  raw ← member (us "refs") v; if is_object raw then Some raw else None.

Definition split_envelope (text : ustring) : outcome EnvelopeError Envelope :=
  v ← map_err EE_InvalidJson (from_str text);
  if negb (is_object v) then mret (bare text)
  else
    match member (us "meta") v with
    | None =>
        match refs_object v with
        | Some raw =>
            match member (us "formset") v with
            | Some formset =>
                refs ← parse_refs raw;
                mret {| env_meta := Meta_default; env_refs := Some refs; env_body := to_json formset |}
            | None => refs_only Meta_default raw
            end
        | None => mret (bare text)
        end
    | Some m =>
        meta ← map_err EE_InvalidMeta (meta_of m);
        refs ← match member (us "refs") v with
               | Some r => refs ← parse_refs r; mret (Some (r, refs))
               | None => mret None
               end;
        match member (us "formset") v with
        | Some b => mret {| env_meta := meta; env_refs := snd <$> refs; env_body := to_json b |}
        | None =>
            match refs with
            | Some (raw, _) => refs_only meta raw
            | None => Err EE_MissingFormsetBody
            end
        end
    end.

(** [serde_json::from_str(body).expect(..)] *)
Definition expect_json (body : ustring) : outcome Empty_set Value :=
  match from_str body with Ok v => Ok v | _ => Panic end.
Definition wrap_export (body : ustring) (source : option SourceMeta) (refs : option RefsSection)
  (lossy : list ustring) : pure ustring :=
  v ← expect_json body;
  let obj := set_member (us "formset") v empty_object in
  let obj := set_member (us "meta") (of_meta {| mt_source := source; mt_lossy := lossy |}) obj in
  let obj := match refs with Some r => set_member (us "refs") (of_refs r) obj | None => obj end in
  Ok (to_json_pretty obj).

(** ** The references of a package *)

Definition next_qid (busy : list Z) : Z :=
  match busy with
  | [] => 0x7F00
  | b :: bs => Z.max (Z.min 0xFFFF (fold_left Z.max bs b + 1)) 0x7F00
  end.

(** [v.get("forms")?.get(0)?.get("title")?.as_str()] *)
Definition first_title (v : Value) : option ustring :=
  forms ← member (us "forms") v;
  l ← as_array forms;
  form ← head l;
  title ← member (us "title") form;
  as_str title.
Definition body_form_title (body : ustring) : option ustring :=
  match from_str body with Ok v => first_title v | _ => None end.

Definition plan_record (title : ustring) (inserted busy : list Z) (e : RefEntry)
  : outcome EnvelopeError RefRecord :=
  form_id ← match rf_form_id e with
            | Some id => mret id
            | None => match inserted with first :: _ => mret (wrap 16 first) | [] => Err EE_FormNotInserted end
            end;
  let fallback := if bool_decide (title = []) then us "Form " ++ dec_string form_id else title in
  mret {| rr_form_id := form_id; rr_prompt := default fallback (rf_prompt e);
          rr_help := default fallback (rf_help e);
          rr_question_id := default (next_qid busy) (rf_question_id e);
          rr_formset_guid := rf_formset_guid e |}.
(** A section without entries stands for one entry with the defaults. *)
Definition ref_entries (refs : RefsSection) : list RefEntry :=
  match rs_entries refs with [] => [RefEntry_default] | l => l end.
Definition plan_ref_step (refs : RefsSection) (body : option ustring) (inserted busy : list Z)
  : outcome EnvelopeError (option RefStepPlan) :=
  let title := default [] (mbind body_form_title body) in
  records ← foldM (fun records e => r ← plan_record title inserted busy e; mret (records ++ [r]))
              (ref_entries refs) [];
  mret (Some {| rp_parent_form_id := rs_parent_form_id refs; rp_records := records |}).

(** ** The variable stores of a package *)

(** [d["id"].as_u64().unwrap_or(0) as u16] and the like; a member that is missing, or an
    element that is no object, is [Null]. *)
Definition u16_member (k : ustring) (d : Value) : Z :=
  wrap 16 (default 0 (v ← member k d; as_u64 v)).
Definition str_member (k : ustring) (d : Value) : ustring := default [] (v ← member k d; as_str v).
Definition brief_of (d : Value) : VarstoreBrief :=
  {| vb_id := u16_member (us "id") d; vb_guid := to_ascii_uppercase (str_member (us "guid") d);
     vb_size := u16_member (us "size") d; vb_name := str_member (us "name") d |}.
Definition identical (t b : VarstoreBrief) : bool :=
  bool_decide (to_ascii_uppercase (vb_guid t) = vb_guid b) && (vb_size t =? vb_size b)
  && bool_decide (vb_name t = vb_name b).
(** [target.iter().find(|t| t.id == id)] *)
Definition store_of (target : list VarstoreBrief) (b : VarstoreBrief) : option VarstoreBrief :=
  List.find (fun t => vb_id t =? vb_id b) target.
Definition retained (target : list VarstoreBrief) (d : Value) : bool :=
  match store_of target (brief_of d) with
  | None => true
  | Some t => negb (identical t (brief_of d))
  end.
(** The second pass, over what the first one retained. *)
Definition check_conflict (target : list VarstoreBrief) (d : Value) : outcome EnvelopeError unit :=
  match store_of target (brief_of d) with
  | Some t => if identical t (brief_of d) then mret tt else Err (EE_VarstoreConflict (vb_id (brief_of d)))
  | None => mret tt
  end.
Definition declared_stores (v : Value) : option (list Value) :=
  d ← member (us "varstores") v; as_array d.
Definition plan_varstores (body : ustring) (target : list VarstoreBrief) : outcome EnvelopeError ustring :=
  v ← map_err EE_InvalidJson (from_str body);
  match declared_stores v with
  | None => mret body
  | Some declared =>
      let kept := List.filter (retained target) declared in
      _ ← foldM (fun _ d => check_conflict target d) kept tt;
      mret (to_json (set_member (us "varstores") (of_array kept) v))
  end.
End Envelope.

(** [thiserror]'s texts. *)
Definition fmt_hex_pad (width : nat) (n : Z) : ustring :=
  let digits := hex_digits 16 n [] in us "0x" ++ replicate (width - length digits) 48 ++ digits.
Definition envelope_error_text (e : EnvelopeError) : ustring :=
  match e with
  | EE_InvalidJson e => us "invalid json: " ++ e
  | EE_InvalidMeta e => us "invalid meta: " ++ e
  | EE_InvalidRefs e => us "invalid refs section: " ++ e
  | EE_MissingFormsetBody => us "envelope with refs entries has no formset body"
  | EE_FormNotInserted => us "refs entries reference the inserted form, but no form was inserted"
  | EE_VarstoreConflict id => us "varstore id " ++ fmt_hex id ++ us " already exists with different definition"
  end.
