(* ===== verification/Client.v ===== *)
(** The terminal client at work ([crates/uefi-tui/src/commands.rs], [main.rs]): a command is
    a program that asks the engine, the disk and the environment, over the state of the
    screen and of the session. The engine answers a request with what its handler returns
    ([Server.Request]) or with the text of a status. *)
From stdpp Require Import gmap sorting.
From S2P Require Import Prelude Text Types Ffs Tiano Codec Parser Target Ops Nvar NvarStores Listing.
From S2P Require Import Hii Values Ifr Gates Schema ImageStrings ImageGates ImageValues Channels Hijack FormExport.
From S2P Require Import Storage Server.
From S2P Require Import Terminal FormTree App Completion Envelope.

(** Literals with characters outside ASCII. *)
Definition tx (s : String.string) : ustring := utf8_go (us s) None.
Arguments tx _%_string_scope.
Definition sep : ustring := tx " · ".

(** ** What the client asks *)

Record ImageOpenReply := { io_image_id : ustring; io_root_guid : ustring; io_name : ustring }.
Record FormSetAddReply := {
  fs_new_ffs_id : ustring; fs_inserted_form_ids : list Z; fs_string_ids : gmap ustring Z
}.
Record FormAddReply := { fa_inserted_form_ids : list Z; fa_string_ids : gmap ustring Z }.
Record FormExportReply := {
  fx_schema_json : ustring; fx_formset_guid : ustring; fx_parent_form_id : Z;
  fx_lossy : list ustring; fx_parent_entries : list ParentEntry
}.
Record FormHijackReply := {
  fh_string_ids : gmap ustring Z; fh_form_ifr_start : Z; fh_form_ifr_end : Z;
  fh_unlock_flips : list ustring; fh_help_controls : list HelpControlEdit;
  fh_help_records : list HelpRecordEdit
}.
Record PageAddReply := {
  pg_form_id : Z; pg_slot : Z; pg_page_offset : Z; pg_title_string_id : Z
}.
Record TseReportReply := {
  tr_proto_blocks : list TseStrideBlock; tr_proto_spf : option TseSpfSummary; tr_proto_pe_len : Z
}.

(** The message a request is answered with. *)
Definition reply (q : Request) : Type :=
  match q with
  | Q_SessionCreate _ => (ustring * ustring)%type
  | Q_SessionsList => list SessionInfo
  | Q_ImageOpen _ _ _ _ | Q_ImageUpload _ _ _ _ => ImageOpenReply
  | Q_ImagesList _ => list ImageInfo
  | Q_ImageStatus _ => ImageInfo
  | Q_ImageNodesList _ _ | Q_ImageNodesSearch _ _ _ _ => list Node
  | Q_ImageNodeInsert _ _ _ _ _ | Q_ImageNodeReplace _ _ _ _ _ => ustring
  | Q_ImageNodeExtract _ _ _ | Q_ArtifactImport _ _ => ustring
  | Q_ArtifactsList _ => list ArtifactInfo
  | Q_HiiListForms _ => list FormInfo
  | Q_HiiListVarstores _ _ => list VarStoreInfo
  | Q_HiiFormTree _ => list FormEdge
  | Q_HiiListStrings _ => list StringInfo
  | Q_HiiGatesList _ _ => list GateInfo
  | Q_HiiUnlock _ _ => (list GateInfo * list ustring)%type
  | Q_HiiQuestionInfo _ _ => QuestionInfo
  | Q_HiiListQuestions _ _ _ => list QuestionSummary
  | Q_HiiSetValue _ _ _ => (QuestionInfo * list ustring * list ustring)%type
  | Q_HiiGetValue _ _ => GetValueOutcome
  | Q_NvarList _ _ _ => list NvarStoreInfo
  | Q_NvarSet _ _ _ _ _ _ => (list ustring * list ustring)%type
  | Q_HiiFormSetAdd _ _ _ => FormSetAddReply
  | Q_HiiFormAdd _ _ _ => FormAddReply
  | Q_HiiFormExport _ _ => FormExportReply
  | Q_HiiFormHijack _ _ _ _ => FormHijackReply
  | Q_HiiQuestionAdd _ _ _ => (list HiiQuestionAddOutcome * list HiiQuestionAddOutcome)%type
  | Q_HiiPageAdd _ _ _ => PageAddReply
  | Q_TseReport _ => TseReportReply
  | Q_TseUnhide _ _ _ _ => (Z * Z)%type
  | Q_ImageSnapshotCreate _ _ => (ustring * Z)%type
  | Q_ImageSnapshotsList _ => list ImageSnapshotInfo
  | Q_SessionDestroy _ | Q_ImageClose _ | Q_ImageNodeRemove _ _ | Q_ImageNodeRebuild _ _
  | Q_ArtifactExport _ _ | Q_HiiSetFormVisibility _ _ _ | Q_ImageSave _ _
  | Q_ImageSnapshotRestore _ _ => unit
  end.

(** [uefi_common::state::State] *)
Record State := {
  st_session_id : option ustring;
  st_token : option ustring;
  st_active_image_id : option ustring;
  st_sock_path : option ustring
}.
#[export] Instance State_eta : Eta State := fun s =>
  {| st_session_id := st_session_id s; st_token := st_token s;
     st_active_image_id := st_active_image_id s; st_sock_path := st_sock_path s |}.

Inductive Call :=
| K_Rpc (auth : option (ustring * ustring)) (q : Request)
| K_Read (p : ustring)
| K_ReadText (p : ustring)
| K_Write (p text : ustring)
| K_WriteState (s : State)
| K_SaveHistory (text : ustring)
| K_Cwd
| K_TmpDir.
(** A [Result] with the text of the error; the variable [TMPDIR] and the directory of the
    process can be missing. *)
Definition answer (c : Call) : Type :=
  match c with
  | K_Rpc _ q => (reply q + ustring)%type
  | K_Read _ => (list byte + ustring)%type
  | K_ReadText _ => (ustring + ustring)%type
  | K_Write _ _ | K_WriteState _ => (unit + ustring)%type
  | K_SaveHistory _ => unit
  | K_Cwd | K_TmpDir => option ustring
  end.

(** ** Programs *)

Inductive proc (A : Type) : Type :=
| Ret (a : A)
| Ask (c : Call) (k : answer c -> proc A).
Arguments Ret {A} a.
Arguments Ask {A} c k.

Fixpoint proc_bind {A B} (p : proc A) (f : A -> proc B) : proc B :=
  match p with
  | Ret a => f a
  | Ask c k => Ask c (fun r => proc_bind (k r) f)
  end.

(** The screen and the session of the client. *)
Record CS := { cs_app : App; cs_state : State }.
#[export] Instance CS_eta : Eta CS := fun s => {| cs_app := cs_app s; cs_state := cs_state s |}.

(** A command: it changes the state also when it fails; the error is its text. *)
Definition cmd (A : Type) : Type := CS -> proc (CS * outcome ustring A).
#[export] Instance cmd_mret : MRet cmd := fun A a s => Ret (s, Ok a).
#[export] Instance cmd_mbind : MBind cmd := fun A B k m s =>
  proc_bind (m s) (fun '(s, r) =>
    match r with
    | Ok a => k a s
    | Err e => Ret (s, Err e)
    | Panic => Ret (s, Panic)
    | Diverge => Ret (s, Diverge)
    end).

Definition fail {A} (e : ustring) : cmd A := fun s => Ret (s, Err e).
Definition of_outcome {A} (o : outcome ustring A) : cmd A := fun s => Ret (s, o).
Definition of_pure {A} (m : pure A) : cmd A := of_outcome (lift m).
Definition ok_or_fail {A} (e : ustring) (o : option A) : cmd A := of_outcome (ok_or e o).
Definition get_app : cmd App := fun s => Ret (s, Ok (cs_app s)).
Definition get_state : cmd State := fun s => Ret (s, Ok (cs_state s)).
Definition on_app (f : App -> App) : cmd unit := fun s => Ret (s <| cs_app := f (cs_app s) |>, Ok tt).
Definition on_state (f : State -> State) : cmd unit :=
  fun s => Ret (s <| cs_state := f (cs_state s) |>, Ok tt).
Definition on_forms (f : FormsData -> FormsData) : cmd unit := on_app (with_forms f).
Definition set_status (m : ustring) : cmd unit := on_app (fun a => a <| ap_status_msg := m |>).
(** [let _ = m.await] *)
Definition quietly {A} (m : cmd A) : cmd unit := fun s =>
  proc_bind (m s) (fun '(s, r) =>
    Ret (s, match r with Panic => Panic | Diverge => Diverge | _ => Ok tt end)).
Definition ask (c : Call) : cmd (answer c) := fun s => Ask c (fun r => Ret (s, Ok r)).
Definition or_fail {A} (r : A + ustring) : cmd A :=
  match r with inl a => mret a | inr e => fail e end.

Section Client.
(** Whether a text parses as a header of a request. *)
Context (header_ok : ustring -> bool).

(** [auth_req]: the headers of the session, if there is one; [unwrap] panics on a text that
    is no header. *)
Definition rpc (q : Request) : cmd (reply q + ustring) := fun s =>
  match st_session_id (cs_state s), st_token (cs_state s) with
  | Some sid, Some tok =>
      if header_ok (us "Bearer " ++ tok) && header_ok sid then ask (K_Rpc (Some (sid, tok)) q) s
      else Ret (s, Panic)
  | _, _ => ask (K_Rpc None q) s
  end.
Definition call (q : Request) : cmd (reply q) := r ← rpc q; or_fail r.

(** ** The session *)

Definition set_active (id : option ustring) (s : State) : State := s <| st_active_image_id := id |>.

Definition create_and_persist_session : cmd unit :=
  r ← ask (K_Rpc None (Q_SessionCreate []));
  r ← or_fail r;
  _ ← on_state (fun s => s <| st_session_id := Some (fst r) |> <| st_token := Some (snd r) |>);
  st ← get_state;
  w ← ask (K_WriteState st);
  match w with
  | inl _ => mret tt
  | inr e => fail (us "session created but state not saved: " ++ e)
  end.
Definition ensure_session : cmd unit :=
  st ← get_state;
  match st_session_id st with None => create_and_persist_session | Some _ => mret tt end.
Definition session_gone (err : ustring) : bool := contains err (us "session not found").
Definition persist_state_best_effort : cmd unit :=
  st ← get_state;
  w ← ask (K_WriteState st);
  match w with inl _ => mret tt | inr e => set_status (us "warning: state not saved: " ++ e) end.

Definition session : cmd ustring := st ← get_state; ok_or_fail (us "no session") (st_session_id st).
(** A request of the session, sent once more under a new session when the engine does not
    know this one. *)
Definition session_call {R} (send : ustring -> cmd (R + ustring)) : cmd R :=
  _ ← ensure_session;
  sid ← session;
  r ← send sid;
  match r with
  | inl r => mret r
  | inr e =>
      if session_gone e then
        _ ← on_state (fun s => s <| st_session_id := None |>);
        _ ← create_and_persist_session;
        sid ← session;
        r ← send sid;
        or_fail r
      else fail e
  end.

(** [client.state.active_image_id], and the image of the screen before it. *)
Definition NO_IMAGE : ustring := us "no active image".
Definition active_image : cmd ustring := st ← get_state; ok_or_fail NO_IMAGE (st_active_image_id st).
Definition shown_image : cmd ustring :=
  a ← get_app;
  st ← get_state;
  ok_or_fail NO_IMAGE (match ap_active_image_id a with Some i => Some i | None => st_active_image_id st end).

(** ** Fresh data of the engine *)

Definition show_tree (id : ustring) (nodes : list Node) : cmd unit :=
  _ ← on_app (fun a => a <| ap_tree := build_tree nodes |> <| ap_cursor := 0 |>
                         <| ap_active_image_id := Some id |>);
  on_state (set_active (Some id)).

(** The rows that were expanded are again, and the cursor follows its path. *)
Definition keep_view (before : App) (nodes : list Node) (a : App) : App :=
  let expanded := map tn_path (List.filter tn_expanded (ap_tree before)) in
  let a := a <| ap_tree := map (fun n => if bool_decide (tn_path n ∈ expanded) then with_expanded true n else n)
                             (build_tree nodes) |> in
  match (p ← selected_path before; position (fun n => bool_decide (tn_path n = p)) (ap_tree a) 0) with
  | Some idx =>
      match position (Z.eqb idx) (visible a) 0 with
      | Some i => a <| ap_cursor := i |>
      | None => sanitize_cursor a
      end
  | None => sanitize_cursor a
  end.
Definition refresh_tree : cmd unit :=
  iid ← active_image;
  before ← get_app;
  nodes ← call (Q_ImageNodesList iid []);
  on_app (keep_view before nodes).

Definition refresh_registry : cmd unit :=
  sid ← session;
  imgs ← call (Q_ImagesList sid);
  arts ← call (Q_ArtifactsList sid);
  on_app (fun a =>
    let a := a <| ap_registry := ap_registry a <| rg_images := imgs |> <| rg_artifacts := arts |> |> in
    if blen (registry_selectable a) <=? rg_cursor (ap_registry a) then set_registry_cursor 0 a else a).

Definition forget_question (f : FormsData) : FormsData :=
  f <| fd_question_info := None |> <| fd_question_info_key := None |>
    <| fd_current_value := None |> <| fd_current_value_key := None |>.
Definition refresh_forms : cmd unit :=
  image_id ← shown_image;
  forms ← call (Q_HiiListForms image_id);
  edges ← call (Q_HiiFormTree image_id);
  on_forms (fun f =>
    forget_question f <| fd_forms := forms |> <| fd_edges := edges |>
      <| fd_expanded := all_row_keys forms edges |> <| fd_cursor := 0 |>
      <| fd_questions := [] |> <| fd_questions_key := None |> <| fd_bottom_cursor := 0 |>
      <| fd_strings := [] |> <| fd_strings_filter := [] |> <| fd_strings_cursor := 0 |>
      <| fd_show_strings := false |> <| fd_varstores := [] |> <| fd_varstores_target := None |>
      <| fd_varstores_cursor := 0 |> <| fd_show_varstores := false |>).

(** The cursor goes back to the form it was on. *)
Definition select_form (sel : option FormKey) (f : FormsData) : pure FormsData :=
  match sel with
  | Some key =>
      rows ← forms_rows f;
      match position (is_selected_row (fk_formset_guid key, Some (fk_form_id_ifr key))) rows 0 with
      | Some i => mret (f <| fd_cursor := i |>)
      | None => forms_sanitize_cursor f
      end
  | None => forms_sanitize_cursor f
  end.
Definition update_forms (g : FormsData -> pure FormsData) : cmd unit :=
  a ← get_app;
  f ← of_pure (g (ap_forms a));
  on_forms (fun _ => f).
Definition reload_forms : cmd unit :=
  image_id ← shown_image;
  a ← get_app;
  sel ← of_pure (selected_form_key (ap_forms a));
  forms ← call (Q_HiiListForms image_id);
  edges ← call (Q_HiiFormTree image_id);
  _ ← on_forms (fun f =>
        forget_question f <| fd_forms := forms |> <| fd_edges := edges |>
          <| fd_questions := [] |> <| fd_questions_key := None |> <| fd_gates := [] |>
          <| fd_question_cursor := 0 |> <| fd_bottom_cursor := 0 |> <| fd_varstores_target := None |>);
  update_forms (select_form sel).

Definition selected_key_of_app : cmd (option FormKey) :=
  a ← get_app; of_pure (selected_form_key (ap_forms a)).
Definition selected_question_of_app : cmd (option Z) :=
  a ← get_app; of_pure (selected_question_id (ap_forms a)).

(** The questions and gates of the selected form; an error of the gates is shown only. *)
Definition refresh_form_details_if_needed : cmd unit :=
  key ← selected_key_of_app;
  a ← get_app;
  match key with
  | None => mret tt
  | Some key =>
      if bool_decide (fd_questions_key (ap_forms a) = Some key) then mret tt
      else
        image_id ← shown_image;
        questions ← call (Q_HiiListQuestions image_id (fk_target key) (fk_form_id_ifr key));
        _ ← on_forms (fun f => f <| fd_questions := questions |> <| fd_questions_key := Some key |>
                                 <| fd_question_cursor := 0 |> <| fd_question_info := None |>
                                 <| fd_question_info_key := None |>);
        r ← rpc (Q_HiiGatesList image_id (fmt_item (fk_target key) (fk_form_id_ifr key)));
        match r with
        | inl gates => on_forms (fun f => f <| fd_gates := gates |>)
        | inr e => _ ← on_forms (fun f => f <| fd_gates := [] |>); set_status (us "gates: " ++ e)
        end
  end.

Definition NvarPane_default : NvarPane :=
  {| np_key := None; np_stores := []; np_loading := false; np_cursor := 0; np_hex_scroll := 0;
     np_hex_viewport := 0 |}.
Definition show_stores (key : ustring) (stores : list NvarStoreInfo) (a : App) : App :=
  a <| ap_nvar := ap_nvar a <| np_stores := stores |> <| np_cursor := 0 |> <| np_hex_scroll := 0 |>
                    <| np_key := Some key |> |>.
Definition refresh_nvars_if_needed : cmd unit :=
  a ← get_app;
  match selected_path a with
  | None => mret tt
  | Some path =>
      if negb (selected_is_nvar a) then
        if negb (bool_decide (np_key (ap_nvar a) = None)) || negb (blen (np_stores (ap_nvar a)) =? 0)
        then on_app (fun a => a <| ap_nvar := NvarPane_default |>) else mret tt
      else
        image_id ← shown_image;
        let key := image_id ++ [COLON] ++ path in
        if bool_decide (np_key (ap_nvar a) = Some key) then mret tt
        else
          stores ← call (Q_NvarList image_id (Some path) true);
          on_app (show_stores key stores)
  end.

(** The item identifier of a question. *)
Definition fmt_question (key : FormKey) (qid : Z) : ustring :=
  fmt_item (fk_target key) (fk_form_id_ifr key) ++ [COLON] ++ fmt_hex qid.
Definition refresh_question_info_if_needed : cmd unit :=
  key ← selected_key_of_app;
  qid ← selected_question_of_app;
  a ← get_app;
  match key, qid with
  | None, _ => mret tt
  | Some _, None => on_forms (fun f => f <| fd_question_info := None |> <| fd_question_info_key := None |>)
  | Some key, Some qid =>
      if bool_decide (fd_question_info_key (ap_forms a) = Some (key, qid)) then mret tt
      else
        image_id ← shown_image;
        q ← call (Q_HiiQuestionInfo image_id (fmt_question key qid));
        on_forms (fun f => f <| fd_question_info := Some q |> <| fd_question_info_key := Some (key, qid) |>)
  end.
Definition refresh_current_value_if_needed : cmd unit :=
  key ← selected_key_of_app;
  qid ← selected_question_of_app;
  a ← get_app;
  match key, qid with
  | None, _ => mret tt
  | Some _, None => on_forms (fun f => f <| fd_current_value := None |> <| fd_current_value_key := None |>)
  | Some key, Some qid =>
      if bool_decide (fd_current_value_key (ap_forms a) = Some (key, qid)) then mret tt
      else
        image_id ← shown_image;
        v ← call (Q_HiiGetValue image_id (fmt_question key qid));
        on_forms (fun f => f <| fd_current_value := Some v |> <| fd_current_value_key := Some (key, qid) |>)
  end.
Definition refresh_strings : cmd unit :=
  image_id ← shown_image;
  strings ← call (Q_HiiListStrings image_id);
  on_forms (fun f => f <| fd_strings := strings |> <| fd_strings_cursor := 0 |>).
Definition refresh_varstores (target : ustring) : cmd unit :=
  image_id ← shown_image;
  stores ← call (Q_HiiListVarstores image_id target);
  on_forms (fun f => f <| fd_varstores := stores |> <| fd_varstores_target := Some target |>
                       <| fd_varstores_cursor := 0 |>).

(** The image of the saved state is shown again; one that is gone is forgotten. *)
Definition restore_session : cmd unit :=
  _ ← (fun s => proc_bind (refresh_registry s) (fun '(s, r) =>
        match r with
        | Err e => set_status (us "registry: " ++ e) s
        | r => Ret (s, r)
        end));
  st ← get_state;
  match st_active_image_id st with
  | None => mret tt
  | Some id =>
      r ← rpc (Q_ImageNodesList id []);
      match r with
      | inl nodes =>
          _ ← show_tree id nodes;
          on_app (fun a => sanitize_cursor (a <| ap_image_loaded := true |>)
                             <| ap_status_msg := us "restored" |>)
      | inr e =>
          _ ← on_app (fun a => a <| ap_active_image_id := None |>);
          _ ← on_state (set_active None);
          set_status (us "active image unavailable: " ++ e)
      end
  end.
End Client.
