(* ===== verification/Commands.v ===== *)
(** The commands of the terminal client ([execute_command] of
    [crates/uefi-tui/src/commands.rs], [uefi_common::cli]): their arguments, their status
    lines, and for each the requests it sends. *)
From stdpp Require Import gmap sorting.
From S2P Require Import Prelude Text Types Ffs Tiano Codec Parser Target Ops Nvar NvarStores Listing.
From S2P Require Import Hii Values Ifr Gates Schema ImageStrings ImageGates ImageValues Channels Hijack FormExport.
From S2P Require Import Storage Server.
From S2P Require Import Terminal FormTree App Completion Envelope Client.

Section Commands.
Context {JL : JsonLib} (header_ok : ustring -> bool).
#[local] Abbreviation rpc := (Client.rpc header_ok).
#[local] Abbreviation call := (Client.call header_ok).
#[local] Abbreviation refresh_tree := (Client.refresh_tree header_ok).
#[local] Abbreviation refresh_registry := (Client.refresh_registry header_ok).
#[local] Abbreviation refresh_forms := (Client.refresh_forms header_ok).
#[local] Abbreviation reload_forms := (Client.reload_forms header_ok).
#[local] Abbreviation refresh_form_details_if_needed := (Client.refresh_form_details_if_needed header_ok).
#[local] Abbreviation refresh_nvars_if_needed := (Client.refresh_nvars_if_needed header_ok).
#[local] Abbreviation refresh_question_info_if_needed := (Client.refresh_question_info_if_needed header_ok).
#[local] Abbreviation refresh_current_value_if_needed := (Client.refresh_current_value_if_needed header_ok).

(** ** Arguments of commands *)

Definition usage {A} (s : String.string) : cmd A := fail (us s).
Definition has_word (parts : list ustring) (w : String.string) : bool := existsb (fun p => is_word p w) parts.
(** The argument behind the first [flag]. *)
Definition behind (parts : list ustring) (flag : String.string) : option ustring :=
  match position (fun p => is_word p flag) parts 0 with
  | Some i => get parts (i + 1)
  | None => None
  end.
Definition flag_value (parts : list ustring) (flag : String.string) : option ustring :=
  v ← behind parts flag; if is_flag v then None else Some v.

(** The text of a [ParseIntError] for a text that does not parse. *)
Fixpoint digits_error (radix max acc : Z) (s : ustring) : ustring :=
  match s with
  | [] => []
  | c :: s =>
      match to_digit radix c with
      | Some d => if d <? radix then
                    if max <? acc * radix + d then us "number too large to fit in target type"
                    else digits_error radix max (acc * radix + d) s
                  else us "invalid digit found in string"
      | None => us "invalid digit found in string"
      end
  end.
Definition int_error (radix max : Z) (s : ustring) : ustring :=
  match s with
  | [] => us "cannot parse integer from empty string"
  | [c] => if (c =? 43) || (c =? 45) then us "invalid digit found in string" else digits_error radix max 0 s
  | c :: s' => if c =? 43 then digits_error radix max 0 s' else digits_error radix max 0 s
  end.
Definition u64_max : Z := 2 ^ 64 - 1.
Definition u32_max : Z := 2 ^ 32 - 1.
Definition strip_0x (s : ustring) : option ustring :=
  match s with 48 :: 120 :: hex => Some hex | _ => None end.
Definition parse_u64_loose (s : ustring) : outcome ustring Z :=
  let '(radix, digits) := match strip_0x s with Some hex => (16, hex) | None => (10, s) end in
  ok_or (us "invalid value '" ++ s ++ us "': " ++ int_error radix u64_max digits)
        (parse_uint radix u64_max digits).

Definition mode_to_i32 (s : ustring) : outcome ustring Z :=
  if bool_decide (s = []) || is_word s "into" then Ok 0
  else if is_word s "before" then Ok 1
  else if is_word s "after" then Ok 2
  else Err (us "unknown mode: " ++ s ++ us " (into|before|after)").

(** [uefi_common::cli] *)
Record NodeCmdArgs := {
  nc_target : option ustring; nc_file : option ustring; nc_artifact_id : option ustring;
  nc_mode : option ustring; nc_body_only : bool
}.
#[export] Instance NodeCmdArgs_eta : Eta NodeCmdArgs := fun a =>
  {| nc_target := nc_target a; nc_file := nc_file a; nc_artifact_id := nc_artifact_id a;
     nc_mode := nc_mode a; nc_body_only := nc_body_only a |}.
Definition NodeCmdArgs_default : NodeCmdArgs :=
  {| nc_target := None; nc_file := None; nc_artifact_id := None; nc_mode := None; nc_body_only := false |}.
Inductive Source := SRC_File | SRC_Artifact.
Definition ONE_SOURCE : ustring := us "exactly one of --file / --artifact-id is required".
Definition source (a : NodeCmdArgs) : outcome ustring (option Source) :=
  match nc_file a, nc_artifact_id a with
  | Some _, None => Ok (Some SRC_File)
  | None, Some _ => Ok (Some SRC_Artifact)
  | None, None => Ok None
  | Some _, Some _ => Err ONE_SOURCE
  end.
(** A flag with a value takes the next word, whatever it is. *)
Fixpoint node_flags (parts : list ustring) (a : NodeCmdArgs) : NodeCmdArgs :=
  match parts with
  | [] => a
  | p :: rest =>
      let value (set : option ustring -> NodeCmdArgs) :=
        match rest with v :: rest => node_flags rest (set (Some v)) | [] => set None end in
      if is_word p "--file" then value (fun v => a <| nc_file := v |>)
      else if is_word p "--artifact-id" then value (fun v => a <| nc_artifact_id := v |>)
      else if is_word p "--mode" then value (fun v => a <| nc_mode := v |>)
      else if is_word p "--body-only" then node_flags rest (a <| nc_body_only := true |>)
      else if negb (is_flag p) && bool_decide (nc_target a = None)
           then node_flags rest (a <| nc_target := Some p |>)
      else node_flags rest a
  end.
Definition parse_node_flags (parts : list ustring) : NodeCmdArgs :=
  node_flags (list.tail parts) NodeCmdArgs_default.
Definition parse_hex_offset (s : ustring) : option Z :=
  parse_uint 16 usize_max (default s (strip_0x s)).

Definition NVAR_SET_USAGE : ustring :=
  us "usage: :nvar set NAME --offset OFF --value VAL [--guid GUID] [--width 1|2|4|8]".
Record NvarSetArgs := {
  na_name : ustring; na_guid : option ustring; na_offset : Z; na_value : Z; na_width : Z
}.
Fixpoint check_nvar_flags (parts : list ustring) : outcome ustring unit :=
  match parts with
  | [] => Ok tt
  | p :: rest =>
      if is_words p ["--offset"; "--value"; "--guid"; "--width"]%string
      then match rest with _ :: rest => check_nvar_flags rest | [] => Ok tt end
      else Err (us "unexpected argument " ++ p ++ us " (" ++ NVAR_SET_USAGE ++ us ")")
  end.
Definition WIDTHS : ustring := us "width must be one of 1, 2, 4, 8".
Definition parse_nvar_set (parts : list ustring) : outcome ustring NvarSetArgs :=
  name ← ok_or NVAR_SET_USAGE (p ← parts !! 2%nat; if is_flag p then None else Some p);
  offset ← ok_or NVAR_SET_USAGE (flag_value parts "--offset");
  offset ← parse_u64_loose offset;
  value ← ok_or NVAR_SET_USAGE (flag_value parts "--value");
  value ← parse_u64_loose value;
  width ← match flag_value parts "--width" with
          | Some w => ok_or WIDTHS (parse_uint 10 u32_max w)
          | None => mret 1
          end;
  _ ← (if (width =? 1) || (width =? 2) || (width =? 4) || (width =? 8) then mret tt else Err WIDTHS);
  _ ← check_nvar_flags (drop 3 parts);
  mret {| na_name := name; na_guid := flag_value parts "--guid"; na_offset := offset;
          na_value := value; na_width := width |}.

Definition FORMSET_ADD_USAGE : ustring := us "usage: :hii formset add FILE [--ffs GUID]".
Fixpoint formset_add_args (tokens : list ustring) (file ffs : option ustring)
  : outcome ustring (ustring * option ustring) :=
  match tokens with
  | [] => ok_or FORMSET_ADD_USAGE (f ← file; Some (f, ffs))
  | t :: rest =>
      if is_word t "--ffs" then
        match rest with v :: rest => formset_add_args rest file (Some v) | [] => Err FORMSET_ADD_USAGE end
      else if is_flag t then Err (us "unknown flag " ++ t ++ us ": " ++ FORMSET_ADD_USAGE)
      else match file with
           | None => formset_add_args rest (Some t) ffs
           | Some _ => Err FORMSET_ADD_USAGE
           end
  end.
Definition parse_formset_add_args (tokens : list ustring) : outcome ustring (ustring * option ustring) :=
  formset_add_args tokens None None.

(** ** Paths and files *)

Definition absolutize_path (raw : ustring) : cmd ustring :=
  if is_absolute raw then mret raw
  else cwd ← ask K_Cwd; mret (match cwd with Some cwd => join_path cwd raw | None => raw end).
Definition export_output_path (arg : option ustring) (artifact_id : ustring) : cmd ustring :=
  match arg with
  | Some p => absolutize_path p
  | None => cwd ← ask K_Cwd;
            mret (match cwd with Some cwd => join_path cwd artifact_id | None => artifact_id end)
  end.
Definition read_schema (file : ustring) : cmd ustring :=
  r ← ask (K_ReadText file);
  match r with inl text => mret text | inr e => fail (file ++ us ": " ++ e) end.
Definition ensure_bare_schema (schema_json : ustring) : outcome ustring unit :=
  let is_package := match split_envelope schema_json with
                    | Ok env => negb (bool_decide (env_body env = schema_json))
                    | Err (EE_InvalidJson _) => false
                    | _ => true
                    end in
  if is_package then Err (us "package file: use hii import") else Ok tt.
Definition export_default_path_in (dir item_id : ustring) : ustring :=
  let dir := match dir with [] => us "/tmp" | _ => dir end in
  let fid := match rsplit_once HASH item_id with
             | Some (_, d) => match break_at COLON d with Some (f, _) => f | None => d end
             | None => us "form"
             end in
  dir ++ us "/uefipatcher-export-" ++ fid ++ us ".json".
Definition export_default_path (item_id : ustring) : cmd ustring :=
  dir ← ask K_TmpDir; mret (export_default_path_in (default [] dir) item_id).

(** ** Status lines *)

Definition or_none (l : list ustring) (sp : ustring) : ustring :=
  match l with [] => us "none" | _ => join sp l end.
Definition fmt_list (l : list ustring) : ustring :=
  match l with [] => us "(none)" | _ => join (us ",") l end.
Definition fmt_u32_ids (ids : list Z) : ustring := fmt_list (map dec_string ids).
Definition by_name (a b : ustring * Z) : Prop := str_ord (fst a) (fst b).
#[local] Instance by_name_dec : RelDecision by_name.
Proof. intros a b. unfold by_name. apply _. Defined.
Definition fmt_named (l : list (ustring * Z)) : ustring :=
  fmt_list (map (fun '(n, s) => n ++ us "=" ++ dec_string s) (merge_sort by_name l)).
(** The keys of the map are different, so the order of its iteration does not matter. *)
Definition fmt_string_ids (ids : gmap ustring Z) : ustring := fmt_named (map_to_list ids).
Definition formset_add_status (r : FormSetAddReply) : ustring :=
  us "formset added: ffs " ++ fs_new_ffs_id r ++ sep ++ us "forms " ++ fmt_u32_ids (fs_inserted_form_ids r)
  ++ sep ++ us "strings " ++ fmt_string_ids (fs_string_ids r).
Definition form_add_status (r : FormAddReply) : ustring :=
  us "form added: forms " ++ fmt_u32_ids (fa_inserted_form_ids r)
  ++ sep ++ us "strings " ++ fmt_string_ids (fa_string_ids r).
Definition import_status (form_ids : list Z) (string_ids : gmap ustring Z)
  (ref_outcome : option (Z * list Z + ustring)) : ustring :=
  us "import: forms " ++ fmt_u32_ids form_ids ++ sep ++ us "strings " ++ fmt_string_ids string_ids
  ++ match ref_outcome with
     | None => []
     | Some (inl (parent, qids)) =>
         sep ++ us "refs built under " ++ dec_string parent ++ us ": " ++ fmt_list (map (fmt_hex_pad 4) qids)
     | Some (inr cause) => sep ++ us "refs not built: " ++ cause
     end.
(** The names of all outcomes in one list, sorted by the name (a stable sort). *)
Definition question_add_status (questions refs : list HiiQuestionAddOutcome) : ustring :=
  let ids l := fmt_list (map (fun o => fmt_hex (qo_question_id o)) l) in
  us "question add: questions " ++ ids questions ++ sep ++ us "refs " ++ ids refs
  ++ sep ++ us "strings " ++ fmt_named (concat (map (fun o => map_to_list (qo_string_ids o)) (questions ++ refs))).
Definition page_add_status (r : PageAddReply) : ustring :=
  us "page added: form " ++ dec_string (pg_form_id r) ++ sep ++ us "slot " ++ dec_string (pg_slot r)
  ++ sep ++ us "offset " ++ dec_string (pg_page_offset r)
  ++ sep ++ us "title sid " ++ dec_string (pg_title_string_id r).
Definition hijack_status (r : FormHijackReply) : ustring :=
  us "hijack: ifr " ++ fmt_hex (fh_form_ifr_start r) ++ us ".." ++ fmt_hex (fh_form_ifr_end r)
  ++ sep ++ us "flips " ++ or_none (fh_unlock_flips r) sep
  ++ sep ++ us "strings " ++ dec_string (Z.of_nat (size (fh_string_ids r))).
Definition nvar_summary_status (stores : list NvarStoreInfo) : ustring :=
  match stores with
  | [] => us "nvar: no stores (behind-barrier copy? :nvar list PATH)"
  | _ =>
      us "nvar: " ++ dec_string (blen stores) ++ us " stores" ++ sep
      ++ dec_string (foldr Z.add 0 (map (fun s => blen (ns_vars s)) stores)) ++ us " vars ("
      ++ join sep (map ns_path stores) ++ us ")"
  end.
Definition nvar_var_rows (stores : list NvarStoreInfo) (name : ustring) : list ustring :=
  concat (map (fun s =>
    map (fun v => nv_name v ++ [32] ++ fmt_hex_pad 8 (nv_offset v) ++ [32] ++ dec_string (nv_size v)
                  ++ us "B @" ++ ns_path s)
      (List.filter (fun v => bool_decide (nv_name v = name)) (ns_vars s))) stores).
Definition is_form_level_item (item_id : ustring) : bool :=
  match rsplit_once HASH item_id with
  | Some (_, disc) => negb (contains disc [COLON])
  | None => false
  end.

(** ** Export and import of a form *)

Definition fit_u16 (v : Z) (what : ustring) : outcome ustring Z :=
  if v <? 2 ^ 16 then Ok v else Err (what ++ [32] ++ dec_string v ++ us " does not fit u16").
Definition busy_qids (questions : list QuestionSummary) : outcome ustring (list Z) :=
  foldM (fun l q => id ← fit_u16 (su_question_id q) (us "question_id"); mret (l ++ [id])) questions [].
Definition varstore_brief (v : VarStoreInfo) : outcome ustring VarstoreBrief :=
  id ← fit_u16 (vi_id v) (us "varstore id");
  sz ← fit_u16 (vi_size v) (us "varstore size");
  mret {| vb_id := id; vb_guid := vi_guid v; vb_size := sz; vb_name := vi_name v |}.
Definition varstore_briefs (stores : list VarStoreInfo) : outcome ustring (list VarstoreBrief) :=
  foldM (fun l v => b ← varstore_brief v; mret (l ++ [b])) stores [].

Definition refs_from_parent (parent_form_id : Z) (parent_entries : list ParentEntry)
  : outcome ustring (option RefsSection) :=
  if parent_form_id =? 0 then mret None
  else
    id ← fit_u16 parent_form_id (us "parent_form_id");
    mret (Some {| rs_parent_form_id := id;
                  rs_entries := map (fun e => {| rf_form_id := None; rf_formset_guid := None;
                                                 rf_prompt := Some (pe_prompt e); rf_help := Some (pe_help e);
                                                 rf_question_id := None |}) parent_entries |}).
Definition hii_form_export (image_id item_id : ustring) (out : option ustring) : cmd ustring :=
  r ← call (Q_HiiFormExport image_id item_id);
  refs ← of_outcome (refs_from_parent (fx_parent_form_id r) (fx_parent_entries r));
  envelope ← of_pure (wrap_export (fx_schema_json r) (Some {| sm_formset_guid := fx_formset_guid r |}) refs
                        (fx_lossy r));
  path ← match out with Some p => absolutize_path p | None => export_default_path item_id end;
  w ← ask (K_Write path (envelope ++ [10]));
  match w with
  | inr e => fail (path ++ us ": " ++ e)
  | inl _ =>
      let lossy := match fx_lossy r with [] => [] | l => sep ++ us "lossy " ++ join (us ",") l end in
      _ ← set_status (us "form exported to " ++ path ++ lossy);
      mret path
  end.

(** The checks before an import: the parent form exists in the target, the identifiers of
    the package are free in it, and the forms the references lead to exist. *)
Definition form_in_target (target : ustring) (form : Z) (f : FormInfo) : bool :=
  eq_ignore_ascii_case (fo_form_id f) target && (fo_form_id_ifr f =? form).
Definition form_in_formset (guid : ustring) (form : Z) (f : FormInfo) : bool :=
  (fo_form_id_ifr f =? form) && eq_ignore_ascii_case (fo_formset_guid f) guid.
Definition check_parent (forms : list FormInfo) (target : ustring) (parent : Z) : outcome ustring unit :=
  if existsb (form_in_target target parent) forms then Ok tt
  else Err (us "parent form " ++ dec_string parent ++ us " not found in target '" ++ target
            ++ us "'; see 'hii form list'").
Definition check_qids (refs : RefsSection) (busy : list Z) : outcome ustring unit :=
  foldM (fun _ e =>
    match rf_question_id e with
    | Some qid =>
        if bool_decide (qid ∈ busy)
        then Err (us "question_id " ++ fmt_hex_pad 4 qid ++ us " already busy in parent form "
                  ++ dec_string (rs_parent_form_id refs))
        else Ok tt
    | None => Ok tt
    end) (rs_entries refs) tt.
Definition check_targets (forms : list FormInfo) (target : ustring) (refs : RefsSection) : outcome ustring unit :=
  foldM (fun _ e =>
    match rf_form_id e with
    | None => Ok tt
    | Some id =>
        let '(found, where_) :=
          match rf_formset_guid e with
          | Some guid => (existsb (form_in_formset guid id) forms, us "formset " ++ guid)
          | None => (existsb (form_in_target target id) forms, us "target '" ++ target ++ us "'")
          end in
        if (found : bool) then Ok tt
        else Err (us "refs target form " ++ dec_string id ++ us " not found in " ++ where_)
    end) (rs_entries refs) tt.

(** The warning for a package of another form set. *)
Definition foreign_warning (forms : list FormInfo) (target : ustring) (meta : Meta) : ustring :=
  match mt_source meta, List.find (fun f => eq_ignore_ascii_case (fo_form_id f) target) forms with
  | Some src, Some f =>
      if eq_ignore_ascii_case (sm_formset_guid src) (fo_formset_guid f) then []
      else us "warn: foreign formset (package " ++ sm_formset_guid src ++ tx " → target "
           ++ fo_formset_guid f ++ us ")" ++ sep
  | _, _ => []
  end.
(** The checks of a package: the used question identifiers and the warning. *)
Definition precheck_refs (image_id target : ustring) (env : Envelope) : cmd (list Z * ustring) :=
  match env_refs env with
  | None => mret ([], [])
  | Some refs =>
      forms ← call (Q_HiiListForms image_id);
      _ ← of_outcome (check_parent forms target (rs_parent_form_id refs));
      questions ← call (Q_HiiListQuestions image_id target (rs_parent_form_id refs));
      busy ← of_outcome (busy_qids questions);
      _ ← of_outcome (check_qids refs busy);
      _ ← of_outcome (check_targets forms target refs);
      mret (busy, foreign_warning forms target (env_meta env))
  end.
(** The first phase adds the form, without the stores the target has. *)
Definition import_form (image_id target : ustring) (body : ustring)
  : cmd (option ustring * FormAddReply) :=
  if bool_decide (body = []) then mret (None, {| fa_inserted_form_ids := []; fa_string_ids := ∅ |})
  else
    stores ← call (Q_HiiListVarstores image_id target);
    briefs ← of_outcome (varstore_briefs stores);
    planned ← of_outcome (map_err envelope_error_text (plan_varstores body briefs));
    r ← call (Q_HiiFormAdd image_id target planned);
    mret (Some planned, r).
(** The second phase adds the references; its failure is part of the status. *)
Definition import_refs (image_id target : ustring) (refs : option RefsSection) (body : option ustring)
  (inserted busy : list Z) : cmd (option (Z * list Z + ustring)) :=
  match refs with
  | None => mret None
  | Some refs =>
      match plan_ref_step refs body inserted busy with
      | Ok (Some plan) =>
          let schema := to_json (set_member (us "refs") (of_records (rp_records plan)) empty_object) in
          let qids := map rr_question_id (rp_records plan) in
          r ← rpc (Q_HiiQuestionAdd image_id (fmt_item target (rs_parent_form_id refs)) schema);
          mret (Some (match r with inl _ => inl (rs_parent_form_id refs, qids) | inr e => inr e end))
      | Ok None => mret (Some (inr (us "refs plan is empty")))
      | Err e => mret (Some (inr (envelope_error_text e)))
      | Panic => of_outcome Panic
      | Diverge => of_outcome Diverge
      end
  end.
Definition refresh_after_edit : cmd unit :=
  _ ← refresh_tree;
  _ ← reload_forms;
  quietly refresh_form_details_if_needed.
Definition hii_import (image_id target file : ustring) : cmd ustring :=
  text ← read_schema file;
  env ← of_outcome (map_err envelope_error_text (split_envelope text));
  pre ← precheck_refs image_id target env;
  added ← import_form image_id target (env_body env);
  let inserted := fa_inserted_form_ids (snd added) in
  refs ← import_refs image_id target (env_refs env) (fst added) inserted (fst pre);
  _ ← refresh_after_edit;
  _ ← set_status (snd pre ++ import_status inserted (fa_string_ids (snd added)) refs);
  mret (match inserted with [] => target | _ => join (us ",") (map dec_string inserted) end).

(** ** Commands on images and artifacts *)

Definition open_mode (parts : list ustring) : Z := if has_word parts "write" then 1 else 0.
Definition cmd_open (parts : list ustring) : cmd ustring :=
  path ← ok_or_fail (us "usage: :open PATH [--mode read|write]") (parts !! 1%nat);
  r ← session_call (fun sid => rpc (Q_ImageOpen sid path (open_mode parts) []));
  let id := io_image_id r in
  _ ← on_app (fun a => a <| ap_image_loaded := true |> <| ap_status_msg := us "opened image " ++ id |>);
  nodes ← call (Q_ImageNodesList id []);
  _ ← show_tree id nodes;
  _ ← persist_state_best_effort;
  _ ← quietly refresh_registry;
  mret id.
Definition cmd_upload (parts : list ustring) : cmd ustring :=
  path ← ok_or_fail (us "usage: :upload PATH [--mode read|write]") (parts !! 1%nat);
  b ← ask (K_Read path);
  data ← match b with inl data => mret data | inr e => fail (path ++ us ": " ++ e) end;
  let name := default [] (file_name path) in
  r ← session_call (fun sid => rpc (Q_ImageUpload sid data (open_mode parts) name));
  let id := io_image_id r in
  _ ← on_app (fun a => a <| ap_active_image_id := Some id |>);
  _ ← on_state (set_active (Some id));
  _ ← persist_state_best_effort;
  _ ← on_app (fun a => a <| ap_image_loaded := true |> <| ap_cursor := 0 |>);
  _ ← refresh_tree;
  _ ← refresh_registry;
  _ ← set_status (us "uploaded " ++ io_name r ++ us " (" ++ id ++ us ")");
  mret id.
Definition cmd_snapshot (parts : list ustring) : cmd ustring :=
  iid ← active_image;
  let name := default [] (parts !! 1%nat) in
  r ← call (Q_ImageSnapshotCreate iid name);
  _ ← set_status (us "snapshot " ++ fst r ++ us " (" ++ name ++ us ")");
  mret (fst r).
Definition two_spaces : ustring := us "  ".
Definition cmd_snapshots : cmd ustring :=
  iid ← active_image;
  snaps ← call (Q_ImageSnapshotsList iid);
  _ ← set_status match snaps with
                 | [] => us "no snapshots"
                 | _ => join (two_spaces ++ tx "·" ++ two_spaces)
                          (map (fun s => sp_snapshot_id s ++ two_spaces ++ sp_name s ++ two_spaces
                                         ++ dec_string (sp_size s) ++ us "B") snaps)
                 end;
  mret (join (us ",") (map sp_snapshot_id snaps)).
Definition cmd_restore (parts : list ustring) : cmd ustring :=
  iid ← active_image;
  snap_id ← ok_or_fail (us "usage: :restore SNAPSHOT_ID (see :snapshots)") (parts !! 1%nat);
  _ ← call (Q_ImageSnapshotRestore iid snap_id);
  _ ← refresh_tree;
  _ ← refresh_registry;
  _ ← set_status (us "restored " ++ snap_id);
  mret snap_id.
Definition cmd_save (parts : list ustring) : cmd ustring :=
  raw ← ok_or_fail (us "usage: :save OUTPUT") (parts !! 1%nat);
  path ← absolutize_path raw;
  iid ← active_image;
  _ ← call (Q_ImageSave iid path);
  _ ← set_status (us "saved to " ++ path);
  mret path.
Definition cmd_extract (parts : list ustring) : cmd ustring :=
  target ← ok_or_fail (us "usage: :extract TARGET [--body-only]") (parts !! 1%nat);
  iid ← active_image;
  id ← call (Q_ImageNodeExtract iid target (has_word parts "--body-only"));
  _ ← set_status (us "extracted artifact " ++ id);
  _ ← quietly refresh_registry;
  mret id.
Definition cmd_export (parts : list ustring) : cmd ustring :=
  artifact_id ← ok_or_fail (us "usage: :export ARTIFACT_ID [PATH]") (parts !! 1%nat);
  path ← export_output_path (parts !! 2%nat) artifact_id;
  _ ← call (Q_ArtifactExport artifact_id path);
  _ ← set_status (us "exported " ++ artifact_id ++ us " to " ++ path);
  mret artifact_id.
Definition cmd_import (parts : list ustring) : cmd ustring :=
  file ← ok_or_fail (us "usage: :import FILE") (parts !! 1%nat);
  id ← session_call (fun sid => rpc (Q_ArtifactImport sid file));
  _ ← set_status (us "imported artifact " ++ id);
  _ ← quietly refresh_registry;
  mret id.
Definition cmd_artifacts : cmd ustring :=
  _ ← ensure_session;
  sid ← session;
  l ← call (Q_ArtifactsList sid);
  let s := dec_string (blen l) ++ us " artifacts" in
  _ ← set_status s;
  mret s.

(** The node a command is about, and the source of the new bytes. *)
Definition node_target (a : NodeCmdArgs) (e : ustring) : cmd ustring :=
  app ← get_app;
  ok_or_fail e (match nc_target a with Some t => Some t | None => selected_path app end).
Definition node_source (a : NodeCmdArgs) : outcome ustring (ustring * ustring) :=
  s ← source a;
  match s with
  | Some SRC_File => Ok (default [] (nc_file a), [])
  | Some SRC_Artifact => Ok ([], default [] (nc_artifact_id a))
  | None => Err ONE_SOURCE
  end.
Definition cmd_insert (parts : list ustring) : cmd ustring :=
  let a := parse_node_flags parts in
  iid ← active_image;
  target ← node_target a (us "no target (select a node or pass TARGET)");
  src ← of_outcome (node_source a);
  mode ← of_outcome (mode_to_i32 (default [] (nc_mode a)));
  id ← call (Q_ImageNodeInsert iid target (fst src) (snd src) mode);
  _ ← set_status (us "inserted " ++ id);
  _ ← quietly refresh_registry;
  _ ← quietly refresh_tree;
  mret id.
Definition cmd_replace (parts : list ustring) : cmd ustring :=
  let a := parse_node_flags parts in
  iid ← active_image;
  target ← node_target a (us "no target");
  src ← of_outcome (node_source a);
  id ← call (Q_ImageNodeReplace iid target (fst src) (snd src) (nc_body_only a));
  _ ← set_status (us "replaced " ++ id);
  _ ← quietly refresh_registry;
  _ ← quietly refresh_tree;
  mret id.
Definition cmd_remove (parts : list ustring) : cmd ustring :=
  iid ← active_image;
  target ← node_target (parse_node_flags parts) (us "no target");
  _ ← call (Q_ImageNodeRemove iid target);
  _ ← set_status (us "removed " ++ target);
  _ ← quietly refresh_tree;
  mret target.
Definition cmd_rebuild (parts : list ustring) : cmd ustring :=
  iid ← active_image;
  target ← node_target (parse_node_flags parts) (us "no target");
  _ ← call (Q_ImageNodeRebuild iid target);
  _ ← set_status (us "rebuilt " ++ target);
  _ ← quietly refresh_tree;
  mret target.
Definition cmd_image (parts : list ustring) : cmd ustring :=
  if 1 <? blen parts then usage "image subcommands moved: :switch ID | :close [ID]"
  else _ ← on_app (fun a => a <| ap_view := VW_Image |>); mret (us "image").
Definition refresh_forms_view : cmd unit :=
  a ← get_app;
  match ap_view a with VW_Forms => refresh_forms | VW_Image => mret tt end.
Definition cmd_switch (parts : list ustring) : cmd ustring :=
  id ← ok_or_fail (us "usage: :switch ID") (parts !! 1%nat);
  _ ← ensure_session;
  nodes ← call (Q_ImageNodesList id []);
  _ ← show_tree id nodes;
  _ ← on_app (fun a => a <| ap_image_loaded := true |> <| ap_status_msg := us "switched to " ++ id |>);
  _ ← persist_state_best_effort;
  _ ← quietly refresh_registry;
  _ ← refresh_forms_view;
  mret id.
Definition cmd_close (parts : list ustring) : cmd ustring :=
  st ← get_state;
  id ← ok_or_fail NO_IMAGE (match parts !! 1%nat with Some s => Some s | None => st_active_image_id st end);
  _ ← call (Q_ImageClose id);
  a ← get_app;
  _ ← (if bool_decide (ap_active_image_id a = Some id) then
         _ ← on_app (fun a => a <| ap_active_image_id := None |> <| ap_tree := [] |> <| ap_cursor := 0 |>
                                <| ap_image_loaded := false |> <| ap_view := VW_Image |>);
         _ ← on_state (set_active None);
         persist_state_best_effort
       else mret tt);
  _ ← set_status (us "closed " ++ id);
  _ ← quietly refresh_registry;
  mret id.

Inductive ReopenPlan := RP_OpenWrite | RP_AlreadyWrite | RP_AlreadyRead | RP_RefuseUnsavedWrite.
Definition reopen_plan (want_write current_write : bool) : ReopenPlan :=
  match want_write, current_write with
  | true, false => RP_OpenWrite
  | true, true => RP_AlreadyWrite
  | false, false => RP_AlreadyRead
  | false, true => RP_RefuseUnsavedWrite
  end.
Definition reopen_target (a : App) : option ustring :=
  match ap_focus a, current_registry_row a with
  | FC_Registry, Some (RR_Image i) =>
      match get (rg_images (ap_registry a)) i with
      | Some im => Some (ii_image_id im)
      | None => ap_active_image_id a
      end
  | _, _ => ap_active_image_id a
  end.
(** The image is opened for writing before the old one is closed. *)
Definition open_for_writing (im : ImageInfo) (target_id : ustring) : cmd ustring :=
  r ← session_call (fun sid => rpc (Q_ImageOpen sid (ii_path im) 1 []));
  nodes ← call (Q_ImageNodesList (io_image_id r) []);
  _ ← show_tree (io_image_id r) nodes;
  _ ← persist_state_best_effort;
  _ ← rpc (Q_ImageClose target_id);
  _ ← quietly refresh_registry;
  _ ← refresh_forms_view;
  _ ← set_status (us "reopened " ++ ii_name im ++ us " in write mode");
  mret (io_image_id r).
Definition reopen (want_write : bool) : cmd ustring :=
  a ← get_app;
  target_id ← ok_or_fail (us "no image selected (registry row or active)") (reopen_target a);
  im ← ok_or_fail (tx "image not in registry — :refresh")
         (List.find (fun i => bool_decide (ii_image_id i = target_id)) (rg_images (ap_registry a)));
  match reopen_plan want_write (ii_mode im =? 1) with
  | RP_AlreadyWrite => _ ← set_status (us "already in write mode: " ++ ii_image_id im); mret (ii_image_id im)
  | RP_AlreadyRead => _ ← set_status (us "already read-only: " ++ ii_image_id im); mret (ii_image_id im)
  | RP_RefuseUnsavedWrite =>
      fail (tx "refusing: unsaved write-mode image; :save first — " ++ ii_image_id im)
  | RP_OpenWrite => open_for_writing im target_id
  end.
Definition cmd_forms : cmd ustring :=
  a ← get_app;
  st ← get_state;
  if bool_decide (ap_active_image_id a = None) && bool_decide (st_active_image_id st = None)
  then fail (tx "no active image — :open PATH first")
  else
    _ ← refresh_forms;
    _ ← on_app (fun a => a <| ap_view := VW_Forms |>
                           <| ap_status_msg := us "forms: " ++ dec_string (blen (fd_forms (ap_forms a))) |>);
    mret (us "forms").

(** ** Commands on setup data *)

Definition hii_set_value_cmd (iid : ustring) (parts : list ustring) : cmd ustring :=
  item ← ok_or_fail (us "usage: :hii set-value ITEM VALUE") (parts !! 2%nat);
  value ← ok_or_fail (us "usage: :hii set-value ITEM VALUE") (parts !! 3%nat);
  value ← of_outcome (parse_u64_loose value);
  r ← call (Q_HiiSetValue iid item value);
  let '(_, applied_flips, stores) := r in
  prev_qid ← selected_question_of_app;
  _ ← reload_forms;
  _ ← quietly refresh_form_details_if_needed;
  a ← get_app;
  _ ← match (qid ← prev_qid; position (fun q => su_question_id q =? qid) (fd_questions (ap_forms a)) 0) with
      | Some pos =>
          _ ← on_forms (fun f => f <| fd_question_cursor := pos |>);
          _ ← quietly refresh_question_info_if_needed;
          quietly refresh_current_value_if_needed
      | None => mret tt
      end;
  _ ← set_status (us "set " ++ item ++ us "=" ++ dec_string value ++ us ": flips " ++ or_none applied_flips sep
                  ++ sep ++ us "stores " ++ or_none stores sep);
  mret item.
Definition hii_visibility_cmd (iid : ustring) (parts : list ustring) : cmd ustring :=
  item ← ok_or_fail (us "usage: :hii visibility ITEM on|off") (parts !! 2%nat);
  visible ← match parts !! 3%nat with
            | Some w => if is_word w "on" then mret true
                        else if is_word w "off" then mret false
                        else usage "usage: :hii visibility ITEM on|off"
            | None => usage "usage: :hii visibility ITEM on|off"
            end;
  _ ← call (Q_HiiSetFormVisibility iid item visible);
  _ ← reload_forms;
  _ ← quietly refresh_form_details_if_needed;
  _ ← set_status (us "visibility " ++ item ++ us ": " ++ (if visible : bool then us "on" else us "off"));
  mret item.
Definition hii_unlock_cmd (iid : ustring) (parts : list ustring) : cmd ustring :=
  item ← ok_or_fail (us "usage: :hii unlock ITEM") (parts !! 2%nat);
  r ← call (Q_HiiUnlock iid item);
  _ ← reload_forms;
  _ ← quietly refresh_form_details_if_needed;
  let status :=
    match snd r with
    | [] => us "unlock " ++ item ++ us ": no flippable gates (" ++ dec_string (blen (fst r)) ++ us " gates)"
    | flips => us "unlock " ++ item ++ us ": " ++ join sep flips
    end in
  let note :=
    if is_form_level_item item
    then us "; note: form-level unlock does not unlock per-question gates (list: hii question gates, unlock: hii question unlock <item>#<form>:<qid>)"
    else [] in
  _ ← set_status (status ++ note);
  mret item.
Definition hii_formset_cmd (iid : ustring) (parts : list ustring) : cmd ustring :=
  if negb (word_at parts 2 "add") then fail FORMSET_ADD_USAGE
  else
    args ← of_outcome (parse_formset_add_args (drop 3 parts));
    schema_json ← read_schema (fst args);
    r ← call (Q_HiiFormSetAdd iid schema_json (default [] (snd args)));
    _ ← refresh_after_edit;
    _ ← set_status (formset_add_status r);
    mret (fs_new_ffs_id r).
Definition hii_form_cmd (iid : ustring) (parts : list ustring) : cmd ustring :=
  if word_at parts 2 "add" then
    target ← ok_or_fail (us "usage: :hii form add TARGET FILE") (parts !! 3%nat);
    file ← ok_or_fail (us "usage: :hii form add TARGET FILE") (parts !! 4%nat);
    schema_json ← read_schema file;
    _ ← of_outcome (ensure_bare_schema schema_json);
    r ← call (Q_HiiFormAdd iid target schema_json);
    _ ← refresh_after_edit;
    _ ← set_status (form_add_status r);
    mret (join (us ",") (map dec_string (fa_inserted_form_ids r)))
  else if word_at parts 2 "export" then
    item ← ok_or_fail (us "usage: :hii form export ITEM [--out FILE]") (parts !! 3%nat);
    hii_form_export iid item (behind parts "--out")
  else usage "usage: :hii form add TARGET FILE | :hii form export ITEM [--out FILE]".
Definition IMPORT_USAGE : ustring := us "usage: :hii import TARGET --file FILE".
Definition hii_import_cmd (iid : ustring) (parts : list ustring) : cmd ustring :=
  target ← ok_or_fail IMPORT_USAGE (parts !! 2%nat);
  file ← ok_or_fail IMPORT_USAGE (behind parts "--file");
  hii_import iid target file.
Definition QUESTION_ADD_USAGE : ustring :=
  tx "usage: :hii question add TARGET#FORM FILE (insert_before {goto_form_id|question_id} в JSON задаёт позицию; без — конец формы)".
Definition hii_question_cmd (iid : ustring) (parts : list ustring) : cmd ustring :=
  if negb (word_at parts 2 "add") then fail QUESTION_ADD_USAGE
  else
    item ← ok_or_fail QUESTION_ADD_USAGE (parts !! 3%nat);
    file ← ok_or_fail QUESTION_ADD_USAGE (parts !! 4%nat);
    schema_json ← read_schema file;
    r ← call (Q_HiiQuestionAdd iid item schema_json);
    _ ← refresh_after_edit;
    _ ← set_status (question_add_status (fst r) (snd r));
    mret (join (us ",") (map (fun o => fmt_hex (qo_question_id o)) (fst r))).
Definition hii_page_cmd (iid : ustring) (parts : list ustring) : cmd ustring :=
  if negb (word_at parts 2 "add") then usage "usage: :hii page add TARGET FILE"
  else
    target ← ok_or_fail (us "usage: :hii page add TARGET FILE") (parts !! 3%nat);
    file ← ok_or_fail (us "usage: :hii page add TARGET FILE") (parts !! 4%nat);
    schema_json ← read_schema file;
    r ← call (Q_HiiPageAdd iid target schema_json);
    _ ← refresh_after_edit;
    _ ← set_status (page_add_status r);
    mret (dec_string (pg_form_id r)).
Definition HIJACK_USAGE : ustring := us "usage: :hii hijack TARGET FILE [SETUPDATA-GUID]".
Definition hii_hijack_cmd (iid : ustring) (parts : list ustring) : cmd ustring :=
  target ← ok_or_fail HIJACK_USAGE (parts !! 2%nat);
  file ← ok_or_fail HIJACK_USAGE (parts !! 3%nat);
  schema_json ← read_schema file;
  r ← call (Q_HiiFormHijack iid target schema_json (default [] (parts !! 4%nat)));
  _ ← refresh_after_edit;
  _ ← set_status (hijack_status r);
  mret target.
Definition HII_USAGE : ustring :=
  us "usage: :hii set-value ITEM VALUE | :hii visibility ITEM on|off | :hii unlock ITEM | :hii formset add FILE [--ffs GUID] | :hii form add TARGET FILE | :hii form export ITEM [--out FILE] | :hii question add TARGET#FORM FILE | :hii page add TARGET FILE | :hii hijack TARGET FILE [SETUPDATA-GUID] | :hii import TARGET --file FILE".
Definition cmd_hii (parts : list ustring) : cmd ustring :=
  sub ← ok_or_fail HII_USAGE (parts !! 1%nat);
  iid ← active_image;
  if is_word sub "set-value" then hii_set_value_cmd iid parts
  else if is_word sub "visibility" then hii_visibility_cmd iid parts
  else if is_word sub "unlock" then hii_unlock_cmd iid parts
  else if is_word sub "formset" then hii_formset_cmd iid parts
  else if is_word sub "form" then hii_form_cmd iid parts
  else if is_word sub "import" then hii_import_cmd iid parts
  else if is_word sub "question" then hii_question_cmd iid parts
  else if is_word sub "page" then hii_page_cmd iid parts
  else if is_word sub "hijack" then hii_hijack_cmd iid parts
  else fail (us "unknown hii subcommand: " ++ sub).

(** ** Commands on variables and the setup browser *)

Definition goto_error_text (e : GotoError) : ustring :=
  match e with
  | GE_NoNode target => us "no node at path " ++ target
  | GE_Hidden => us "node hidden after expand"
  end.
Definition goto (target : ustring) : cmd unit := fun s =>
  let '(a, e) := goto_path target (cs_app s) in
  Ret (s <| cs_app := a |>, match e with Some e => Err (goto_error_text e) | None => Ok tt end).

Definition nvar_list_at (iid p : ustring) : cmd ustring :=
  _ ← goto p;
  stores ← call (Q_NvarList iid (Some p) true);
  store ← ok_or_fail (us "no NVRAM store at " ++ p) (head stores);
  _ ← on_app (show_stores (iid ++ [COLON] ++ p) stores);
  _ ← set_status (us "nvar " ++ p ++ us ": " ++ dec_string (blen (ns_vars store)) ++ us " vars" ++ sep
                  ++ us "records " ++ dec_string (ns_records store) ++ sep
                  ++ us "free " ++ fmt_hex (ns_free_tail store) ++ us "B");
  mret p.
Definition nvar_list_all (iid : ustring) (var : option ustring) : cmd ustring :=
  stores ← call (Q_NvarList iid None false);
  match var with
  | Some name =>
      let rows := nvar_var_rows stores name in
      _ ← set_status match rows with
                     | [] => us "nvar: no vars named " ++ name
                     | _ => us "nvar " ++ name ++ us ": " ++ dec_string (blen rows) ++ sep ++ join sep rows
                     end;
      mret name
  | None => _ ← set_status (nvar_summary_status stores); mret (dec_string (blen stores))
  end.
Definition cmd_nvar_list (iid : ustring) (parts : list ustring) : cmd ustring :=
  let p := p ← parts !! 2%nat; if is_flag p then None else Some p in
  let var := flag_value parts "--var" in
  match p, var with
  | Some _, Some _ => fail (tx "usage: :nvar list [PATH] [--var NAME] — --var only without PATH")
  | Some p, None => nvar_list_at iid p
  | None, var => nvar_list_all iid var
  end.
Definition cmd_nvar_set (iid : ustring) (parts : list ustring) : cmd ustring :=
  args ← of_outcome (parse_nvar_set parts);
  r ← call (Q_NvarSet iid (na_name args) (na_guid args) (na_offset args) (na_value args) (na_width args));
  _ ← on_app (fun a => a <| ap_nvar := ap_nvar a <| np_key := None |> |>);
  a ← get_app;
  _ ← (if selected_is_nvar a then quietly refresh_nvars_if_needed else mret tt);
  _ ← set_status (us "nvar set " ++ na_name args ++ us "+" ++ fmt_hex (na_offset args) ++ us "="
                  ++ fmt_hex (na_value args) ++ us " (w" ++ dec_string (na_width args) ++ us "): applied "
                  ++ or_none (fst r) sep ++ sep ++ us "stores " ++ dec_string (blen (snd r)));
  mret (na_name args).
Definition NVAR_USAGE : ustring :=
  us "usage: :nvar list [PATH] [--var NAME] | :nvar set NAME --offset OFF --value VAL [--guid GUID] [--width 1|2|4|8]".
Definition cmd_nvar (parts : list ustring) : cmd ustring :=
  sub ← ok_or_fail NVAR_USAGE (parts !! 1%nat);
  iid ← active_image;
  if is_word sub "list" then cmd_nvar_list iid parts
  else if is_word sub "set" then cmd_nvar_set iid parts
  else fail NVAR_USAGE.

Definition cmd_tse : cmd ustring :=
  iid ← shown_image;
  r ← call (Q_TseReport iid);
  let spf := match tr_proto_spf r with
             | Some s => us "spf: " ++ dec_string (ts_page_count s) ++ us " pages, "
                         ++ dec_string (blen (ts_formsets s)) ++ us " formsets, "
                         ++ dec_string (blen (ts_vars s)) ++ us " vars"
             | None => us "spf: none"
             end in
  let status := dec_string (blen (tr_proto_blocks r)) ++ us " stride blocks, " ++ spf in
  _ ← set_status status;
  mret status.
Definition TSE_USAGE : ustring := us "usage: :tse-unhide FORMSET-GUID FORM-ID [--block-offset HEX]".
Definition block_offset (parts : list ustring) : outcome ustring (option Z) :=
  match position (fun p => is_word p "--block-offset") parts 0 with
  | None => mret None
  | Some i =>
      raw ← ok_or TSE_USAGE (get parts (i + 1));
      off ← ok_or TSE_USAGE (parse_hex_offset raw);
      if u32_max <? off then Err (us "block offset exceeds u32") else mret (Some off)
  end.
Definition cmd_tse_unhide (parts : list ustring) : cmd ustring :=
  iid ← shown_image;
  guid ← ok_or_fail TSE_USAGE (parts !! 1%nat);
  fid ← ok_or_fail TSE_USAGE (parts !! 2%nat);
  fid ← ok_or_fail TSE_USAGE (parse_uint 10 u32_max fid);
  off ← of_outcome (block_offset parts);
  r ← call (Q_TseUnhide iid guid fid off);
  let status := us "unhidden " ++ guid ++ us " #" ++ dec_string fid ++ us " @ " ++ fmt_hex (snd r) in
  _ ← set_status status;
  mret status.

(** ** All commands *)

Definition cmd_filter (parts : list ustring) : cmd ustring :=
  a ← get_app;
  if negb (fd_show_strings (ap_forms a)) then usage "filter is for the strings browser (S to open)"
  else
    let text := join [32] (drop 1 parts) in
    _ ← on_forms (fun f => f <| fd_strings_filter := text |> <| fd_strings_cursor := 0 |>);
    mret text.
Definition cmd_refresh : cmd ustring :=
  _ ← refresh_registry;
  a ← get_app;
  _ ← set_status (us "registry: " ++ dec_string (blen (rg_images (ap_registry a))) ++ us " images, "
                  ++ dec_string (blen (rg_artifacts (ap_registry a))) ++ us " artifacts");
  mret (us "refreshed").
Definition cmd_goto (parts : list ustring) : cmd ustring :=
  target ← ok_or_fail (us "usage: :goto PATH (e.g. 1/28/1)") (parts !! 1%nat);
  _ ← goto target;
  mret (tx "→ " ++ target).
Definition cmd_quit : cmd ustring := _ ← on_app (fun a => a <| ap_quit := true |>); mret (us "quitting").
Definition cmd_help : cmd ustring := _ ← on_app toggle_help; mret (us "help toggled").

Definition execute_command (cmdline : ustring) : cmd ustring :=
  let parts := split_whitespace cmdline in
  match parts with
  | [] => usage "empty command"
  | w :: _ =>
      if is_words w ["open"; "o"]%string then cmd_open parts
      else if is_word w "upload" then cmd_upload parts
      else if is_word w "snapshot" then cmd_snapshot parts
      else if is_word w "snapshots" then cmd_snapshots
      else if is_word w "restore" then cmd_restore parts
      else if is_words w ["save"; "s"]%string then cmd_save parts
      else if is_word w "extract" then cmd_extract parts
      else if is_word w "export" then cmd_export parts
      else if is_word w "import" then cmd_import parts
      else if is_word w "artifacts" then cmd_artifacts
      else if is_word w "insert" then cmd_insert parts
      else if is_word w "replace" then cmd_replace parts
      else if is_word w "remove" then cmd_remove parts
      else if is_word w "rebuild" then cmd_rebuild parts
      else if is_word w "image" then cmd_image parts
      else if is_word w "switch" then cmd_switch parts
      else if is_word w "close" then cmd_close parts
      else if is_word w "reopen" then reopen (negb (has_word parts "read"))
      else if is_words w ["forms"; "f"]%string then cmd_forms
      else if is_word w "hii" then cmd_hii parts
      else if is_word w "nvar" then cmd_nvar parts
      else if is_word w "tse" then cmd_tse
      else if is_word w "tse-unhide" then cmd_tse_unhide parts
      else if is_word w "filter" then cmd_filter parts
      else if is_word w "refresh" then cmd_refresh
      else if is_words w ["goto"; "g"]%string then cmd_goto parts
      else if is_words w ["quit"; "q"]%string then cmd_quit
      else if is_words w ["help"; "h"]%string then cmd_help
      else fail (us "unknown command: :" ++ w ++ us ", try :help")
  end.
End Commands.
