(* ===== verification/MainLoop.v ===== *)
(** The main loop of the terminal client ([crates/uefi-tui/src/main.rs]): what a key does in
    each mode and view, and the command lines the keys prefill ([commands.rs]). Of the drawing
    only what it writes into the state is kept; the client is [None] when the engine was not
    reachable. *)
From stdpp Require Import gmap sorting.
From S2P Require Import Prelude Text Types Ffs Tiano Codec Parser Target Ops Nvar NvarStores Listing.
From S2P Require Import Hii Values Ifr Gates Schema ImageStrings ImageGates ImageValues Channels Hijack FormExport.
From S2P Require Import Storage Server.
From S2P Require Import Terminal FormTree App Completion Envelope Client Commands.

(** ** Prefilled command lines *)

Definition nvar_set_prefill (a : App) : option ustring :=
  v ← get (nvar_vars a) (np_cursor (ap_nvar a));
  let guid := match nv_guid v with [] => [] | g => us "--guid " ++ g ++ [32] end in
  Some (us "nvar set " ++ nv_name v ++ [32] ++ guid ++ us "--offset 0 --value ").
Definition selected_form_item_id (f : FormsData) : pure (option ustring) :=
  key ← selected_form_key f;
  mret (option_map (fun k => fmt_item (fk_target k) (fk_form_id_ifr k)) key).
(** The row under the cursor of the forms view. *)
Definition cursor_row (f : FormsData) : pure (option FormsRow) :=
  rows ← forms_rows f; mret (get rows (fd_cursor f)).
Definition selected_form_target (f : FormsData) : pure (option ustring) :=
  key ← selected_form_key f;
  row ← cursor_row f;
  mret match key, row with
       | Some k, _ => Some (fk_target k)
       | None, Some (FR_FormSet guid _) =>
           option_map fo_form_id (List.find (fun i => eq_ignore_ascii_case (fo_formset_guid i) guid) (fd_forms f))
       | None, _ => None
       end.
Definition set_value_prefill (f : FormsData) : pure (option ustring) :=
  key ← selected_form_key f;
  qid ← selected_question_id f;
  mret (k ← key; q ← qid; Some (us "hii set-value " ++ fmt_question k q ++ [32])).
Definition add_prefill (f : FormsData) : pure (option ustring) :=
  row ← cursor_row f;
  mret match row with
       | Some (FR_FormSet _ _) => Some (us "hii formset add ")
       | Some (FR_Form key _ _ _ _ _) => Some (us "hii form add " ++ fk_target key ++ [32])
       | _ => None
       end.
Definition export_prefill (f : FormsData) : pure (option ustring) :=
  item ← selected_form_item_id f;
  mret (option_map (fun item => us "hii form export " ++ item ++ us " --out ") item).
Definition import_prefill (f : FormsData) : pure ustring :=
  row ← cursor_row f;
  let target := match row with
                | Some (FR_FormSet guid _) =>
                    option_map fo_form_id (List.find (fun i => bool_decide (fo_formset_guid i = guid)) (fd_forms f))
                | _ => None
                end in
  mret match target with Some t => us "hii import " ++ t ++ [32] | None => us "hii import " end.
Definition question_add_prefill (f : FormsData) : pure (option ustring) :=
  item ← selected_form_item_id f;
  mret (option_map (fun item => us "hii question add " ++ item ++ [32]) item).
Definition ref_import_prefill (key : FormKey) : ustring :=
  us "hii import " ++ fk_target key ++ us " --file refs.json".
Definition ref_import_hint (key : FormKey) : ustring :=
  us "refs.json entries: form_id " ++ dec_string (fk_form_id_ifr key) ++ sep
  ++ us "formset_guid " ++ fk_formset_guid key.
(** The artifact under the cursor of the registry, if there is one. *)
Definition mutation_prefill (kind path : ustring) (row : option RegistryRow) (artifacts : list ArtifactInfo)
  : ustring :=
  match (r ← row; match r with RR_Artifact i => get artifacts i | RR_Image _ => None end) with
  | Some a => kind ++ [32] ++ path ++ us " --artifact-id " ++ ai_artifact_id a ++ [32]
  | None => kind ++ [32] ++ path ++ us " --file "
  end.
Definition form_visibility_command (item : ustring) (visible : bool) : option ustring :=
  if visible then None else Some (us "hii visibility " ++ item ++ us " on").

(** ** Drawing *)

(** What [ui::render] writes into the state: the heights of the panes and the clamped offsets
    of the details. *)
Record Frame := {
  fr_tree_rows : Z; fr_list : Z; fr_questions : Z; fr_bottom : Z; fr_strings : Z; fr_varstores : Z;
  fr_hex_rows : Z; fr_hex_scroll : Z; fr_details_scroll : Z; fr_details_anchor : option ustring
}.
Definition draw (fr : Frame) (a : App) : App :=
  with_forms (fun f => f <| fd_list_viewport := fr_list fr |> <| fd_questions_viewport := fr_questions fr |>
                         <| fd_bottom_viewport := fr_bottom fr |> <| fd_strings_viewport := fr_strings fr |>
                         <| fd_varstores_viewport := fr_varstores fr |>)
    (a <| ap_tree_viewport_rows := fr_tree_rows fr |>
       <| ap_nvar := ap_nvar a <| np_hex_viewport := fr_hex_rows fr |> <| np_hex_scroll := fr_hex_scroll fr |> |>
       <| ap_details_scroll := fr_details_scroll fr |> <| ap_details_anchor := fr_details_anchor fr |>).

(** ** Steps of the loop *)

Record UI := { ui_app : App; ui_client : option State }.
Definition ui_step : Type := UI -> proc (pure UI).

Definition skip : ui_step := fun u => Ret (Ok u).
Definition then_ (p q : ui_step) : ui_step := fun u =>
  proc_bind (p u) (fun r => match r with Ok u => q u | r => Ret r end).
Definition app_step (f : App -> pure App) : ui_step := fun u =>
  Ret (match f (ui_app u) with
       | Ok a => Ok {| ui_app := a; ui_client := ui_client u |}
       | Err e => Err e
       | Panic => Panic
       | Diverge => Diverge
       end).
Definition change (f : App -> App) : ui_step := app_step (fun a => Ok (f a)).
Definition forms_step (f : FormsData -> pure FormsData) : ui_step :=
  app_step (fun a => d ← f (ap_forms a); mret (with_forms (fun _ => d) a)).
Definition change_forms (f : FormsData -> FormsData) : ui_step := change (with_forms f).
Definition status (m : ustring) : ui_step := change (fun a => a <| ap_status_msg := m |>).
(** [if let Some(c) = client.as_mut()]: a command when there is an engine; the error is
    dropped, or shown. *)
Definition with_engine (m : cmd unit) : ui_step := fun u =>
  match ui_client u with
  | None => Ret (Ok u)
  | Some st =>
      proc_bind (m {| cs_app := ui_app u; cs_state := st |}) (fun '(s, r) =>
        Ret match r with
            | Panic => Panic
            | Diverge => Diverge
            | _ => Ok {| ui_app := cs_app s; ui_client := Some (cs_state s) |}
            end)
  end.
Definition shown {A} (m : cmd A) : cmd unit := fun s =>
  proc_bind (m s) (fun '(s, r) =>
    match r with
    | Ok _ => Ret (s, Ok tt)
    | Err e => set_status (us "error: " ++ e) s
    | Panic => Ret (s, Panic)
    | Diverge => Ret (s, Diverge)
    end).
(** A step that depends on the state. *)
Definition on_view (f : App -> ui_step) : ui_step := fun u => f (ui_app u) u.
Definition on_pure {A} (f : FormsData -> pure A) (k : A -> ui_step) : ui_step := fun u =>
  match f (ap_forms (ui_app u)) with
  | Ok a => k a u
  | Err e => Ret (Err e)
  | Panic => Ret Panic
  | Diverge => Ret Diverge
  end.

(** [AppEvent::Key(c)] and [AppEvent::Ctrl(c)] for a literal. *)
Definition pressed (ev : AppEvent) (c : String.string) : bool :=
  match ev with E_Key k => is_word [k] c | _ => false end.
Definition ctrl (ev : AppEvent) (c : String.string) : bool :=
  match ev with E_Ctrl k => is_word [k] c | _ => false end.
Definition is_down (ev : AppEvent) : bool := pressed ev "j" || match ev with E_Down => true | _ => false end.
Definition is_up (ev : AppEvent) : bool := pressed ev "k" || match ev with E_Up => true | _ => false end.
Definition is_page_down (ev : AppEvent) : bool := match ev with E_PageDown => true | _ => false end.
Definition is_page_up (ev : AppEvent) : bool := match ev with E_PageUp => true | _ => false end.
Definition is_enter (ev : AppEvent) : bool := match ev with E_Enter => true | _ => false end.
Definition is_esc (ev : AppEvent) : bool := match ev with E_Esc => true | _ => false end.
Definition is_quit (ev : AppEvent) : bool := pressed ev "q" || match ev with E_Quit => true | _ => false end.
Definition is_tab (ev : AppEvent) : bool := match ev with E_Tab | E_BackTab => true | _ => false end.

Section MainLoop.
Context {JL : JsonLib} {SG : Segmentation} {LC : Lowercase}.
Context (header_ok : ustring -> bool) (sh : Shell).
#[local] Abbreviation execute := (execute_command header_ok).
#[local] Abbreviation fresh_nvars := (with_engine (quietly (refresh_nvars_if_needed header_ok))).
#[local] Abbreviation fresh_details := (with_engine (quietly (refresh_form_details_if_needed header_ok))).
#[local] Abbreviation fresh_question :=
  (with_engine (_ ← quietly (refresh_question_info_if_needed header_ok);
                quietly (refresh_current_value_if_needed header_ok))).

Definition quit_step : ui_step := change (fun a => a <| ap_quit := true |>).
Definition scroll_help (f : Z -> Z) : ui_step := change (fun a => a <| ap_help_scroll := f (ap_help_scroll a) |>).
Definition handle_help (ev : AppEvent) : ui_step :=
  if pressed ev "?" then change toggle_help
  else if is_quit ev then quit_step
  else if is_down ev then scroll_help (fun n => Z.min 65535 (n + 1))
  else if is_up ev then scroll_help (fun n => sat_sub n 1)
  else if is_page_down ev then scroll_help (fun n => Z.min 65535 (n + 10))
  else if is_page_up ev then scroll_help (fun n => sat_sub n 10)
  else skip.

Definition insert_mode (cmd prefill : ustring) : ui_step := change (enter_insert_mode cmd prefill).
Definition insert_mode_opt (cmd : ustring) (prefill : option ustring) : ui_step :=
  match prefill with Some p => insert_mode cmd p | None => skip end.

(** [Tab] goes between the image and its forms. *)
Definition switch_view : ui_step := on_view (fun a =>
  match ap_view a with
  | VW_Image => fun u =>
      let has_image := negb (bool_decide (ap_active_image_id a = None))
                       || negb (bool_decide ((st ← ui_client u; st_active_image_id st) = None)) in
      (if negb has_image then status (tx "no active image — :open PATH first")
       else then_ (change (fun a => a <| ap_view := VW_Forms |>))
                  (with_engine (shown (refresh_forms header_ok)))) u
  | VW_Forms => then_ (change (fun a => a <| ap_view := VW_Image |>)) fresh_nvars
  end).

Definition handle_registry_enter : ui_step := fun u =>
  match ui_client u with
  | None => Ret (Ok u)
  | Some _ =>
      on_view (fun a =>
        match current_registry_row a with
        | Some (RR_Image i) =>
            match get (rg_images (ap_registry a)) i with
            | Some im =>
                then_ (with_engine (shown (execute (us "switch " ++ ii_image_id im))))
                      (change (fun a => a <| ap_focus := FC_Tree |>))
            | None => skip
            end
        | Some (RR_Artifact i as row) =>
            match get (rg_artifacts (ap_registry a)) i with
            | Some _ =>
                insert_mode (us "insert")
                  (mutation_prefill (us "insert") (default [] (selected_path a)) (Some row)
                     (rg_artifacts (ap_registry a)))
            | None => skip
            end
        | None => skip
        end) u
  end.

(** The focus moves; the variables are read when it arrives at the details. *)
Definition move_focus (f : App -> App) : ui_step :=
  then_ (change f)
    (on_view (fun a => match ap_view a, ap_focus a with VW_Image, FC_Details => fresh_nvars | _, _ => skip end)).
Definition edit_prefill (ev : AppEvent) (a : App) : ustring * ustring :=
  let path := default [] (selected_path a) in
  let prefill kind := mutation_prefill kind path (current_registry_row a) (rg_artifacts (ap_registry a)) in
  if pressed ev "i" then (us "insert", prefill (us "insert"))
  else if pressed ev "r" then (us "replace", prefill (us "replace"))
  else (us "remove", us "remove " ++ path).
Definition move_tree (f : App -> App) : ui_step := then_ (change f) fresh_nvars.
(** A key that moves in the focused pane. *)
Definition move_in (registry tree : ui_step) (vars details : App -> pure App) : ui_step := on_view (fun a =>
  match ap_focus a with
  | FC_Registry => registry
  | FC_Tree => tree
  | FC_Details => app_step (if selected_is_nvar a then vars else details)
  end).
Definition as_pure (f : App -> App) (a : App) : pure App := Ok (f a).
Definition hex_page (sign : Z) (a : App) : pure App :=
  nvar_hex_scroll_by (sign * np_hex_viewport (ap_nvar a)) a.

(** The keys of the image view. *)
Definition handle_image (ev : AppEvent) : ui_step := on_view (fun a =>
  let focus := ap_focus a in
  let in_tree := match focus with FC_Tree => true | _ => false end in
  let in_details := match focus with FC_Details => true | _ => false end in
  let in_registry := match focus with FC_Registry => true | _ => false end in
  if ctrl ev "h" || ctrl ev "k" then move_focus focus_prev
  else if ctrl ev "l" || ctrl ev "j" then move_focus focus_next
  else if pressed ev "?" then change toggle_help
  else if is_quit ev then quit_step
  else if pressed ev ":" then change enter_command_mode
  else if (pressed ev "i" || pressed ev "r" || pressed ev "d") && in_tree then
    let '(cmd, prefill) := edit_prefill ev a in insert_mode cmd prefill
  else if pressed ev "w" && negb in_details then fun u =>
    match ui_client u with
    | Some _ => with_engine (shown (reopen header_ok true)) u
    | None => status (us "no engine connection") u
    end
  else if is_down ev then
    move_in (change registry_cursor_down) (move_tree cursor_down) (as_pure nvar_cursor_down) (details_scroll_by 1)
  else if is_up ev then
    move_in (change registry_cursor_up) (move_tree cursor_up) (as_pure nvar_cursor_up) (details_scroll_by (-1))
  else if is_page_down ev then
    move_in skip (move_tree cursor_page_down) (hex_page 1) (details_scroll_by 10)
  else if is_page_up ev then
    move_in skip (move_tree cursor_page_up) (hex_page (-1)) (details_scroll_by (-10))
  else if pressed ev "h" then (if in_tree then change (set_expand_selected false) else skip)
  else if pressed ev "l" then (if in_tree then change (set_expand_selected true) else skip)
  else if is_enter ev && in_registry then handle_registry_enter
  else if is_enter ev && in_details && selected_is_nvar a then insert_mode_opt (us "nvar") (nvar_set_prefill a)
  else if pressed ev "/" then insert_mode (us "goto") (us "goto ")
  else skip).

(** ** The keys of the forms view *)

(** [S] and [V] show the panels of strings and variable stores. *)
Definition toggle_strings : ui_step := on_view (fun a =>
  let need_fetch := bool_decide (fd_strings (ap_forms a) = []) in
  then_ (change_forms (fun f => f <| fd_show_strings := negb (fd_show_strings f) |>))
    (if negb (fd_show_strings (ap_forms a)) && need_fetch
     then with_engine (shown (refresh_strings header_ok)) else skip)).
Definition toggle_varstores : ui_step := on_view (fun a =>
  on_pure selected_form_target (fun target =>
    let need_fetch := match fd_varstores_target (ap_forms a), target with
                      | Some cached, Some cur => negb (bool_decide (cached = cur))
                      | None, Some _ => true
                      | _, None => false
                      end in
    then_ (change_forms (fun f => f <| fd_show_varstores := negb (fd_show_varstores f) |>))
      (match target with
       | Some t => if negb (fd_show_varstores (ap_forms a)) && need_fetch
                   then with_engine (shown (refresh_varstores header_ok t)) else skip
       | None => skip
       end))).
(** [v] shows the selected form, [u] unlocks it. *)
Definition show_selected_form : ui_step :=
  on_pure selected_form_item_id (fun item =>
    on_pure selected_form_visible (fun vis =>
      match item, vis with
      | Some item, Some vis =>
          match form_visibility_command item vis with
          | Some c => with_engine (shown (execute c))
          | None => status (tx "already visible — hiding not supported (engine implements unsuppress only): " ++ item)
          end
      | _, _ => skip
      end)).
Definition unlock_selected_form : ui_step :=
  on_pure selected_form_item_id (fun item =>
    match item with
    | Some item => with_engine (shown (execute (us "hii unlock " ++ item)))
    | None => skip
    end).
Definition reference_selected_form : ui_step :=
  on_pure selected_form_key (fun key =>
    match key with
    | Some key => then_ (status (ref_import_hint key)) (insert_mode (us "hii") (ref_import_prefill key))
    | None => skip
    end).
(** [/] opens the strings with the filter; an error of the engine keeps the mode. *)
Definition filter_strings : ui_step := on_view (fun a =>
  let need_fetch := bool_decide (fd_strings (ap_forms a) = []) in
  let filter := insert_mode (us "filter") (us "filter ") in
  then_ (change_forms (fun f => f <| fd_show_strings := true |>)) (fun u =>
    match ui_client u with
    | Some st =>
        if need_fetch then
          proc_bind (refresh_strings header_ok {| cs_app := ui_app u; cs_state := st |}) (fun '(s, r) =>
            let u := {| ui_app := cs_app s; ui_client := Some (cs_state s) |} in
            match r with
            | Ok _ => filter u
            | Err e => status (us "error: " ++ e) u
            | Panic => Ret Panic
            | Diverge => Ret Diverge
            end)
        else filter u
    | None => filter u
    end)).
Definition forms_as_pure (f : FormsData -> FormsData) (d : FormsData) : pure FormsData := Ok (f d).

Definition handle_normal_forms (ev : AppEvent) : ui_step := on_view (fun a =>
  let f := ap_forms a in
  let strings := fd_show_strings f in
  let stores := fd_show_varstores f in
  let main := negb strings && negb stores in
  let in_list := match fd_focus f with FF_List => main | FF_Details => false end in
  let in_details := match fd_focus f with FF_Details => main | FF_List => false end in
  let list_move g := then_ (forms_step g) fresh_details in
  let question_move g := then_ (change_forms g) fresh_question in
  let other_focus := change_forms (fun f => f <| fd_focus := forms_focus_next (fd_focus f) |>) in
  if pressed ev "?" then change toggle_help
  else if is_quit ev then quit_step
  else if pressed ev ":" then change enter_command_mode
  else if ctrl ev "h" || ctrl ev "k" || ctrl ev "l" || ctrl ev "j" then other_focus
  else if is_down ev && in_list then list_move forms_cursor_down
  else if is_up ev && in_list then list_move (forms_as_pure forms_cursor_up)
  else if is_down ev && in_details then question_move forms_question_cursor_down
  else if is_up ev && in_details then question_move forms_question_cursor_up
  else if is_page_down ev && in_list then list_move forms_page_down
  else if is_page_up ev && in_list then list_move (forms_as_pure forms_page_up)
  else if is_page_down ev && in_details then question_move forms_question_page_down
  else if is_page_up ev && in_details then question_move forms_question_page_up
  else if pressed ev "J" && main then forms_step forms_bottom_down
  else if pressed ev "K" && main then change_forms forms_bottom_up
  else if is_enter ev && in_details then on_pure set_value_prefill (insert_mode_opt (us "hii"))
  else if is_down ev && strings && negb stores then change_forms strings_cursor_down
  else if is_up ev && strings && negb stores then change_forms strings_cursor_up
  else if is_down ev && stores then change_forms varstores_cursor_down
  else if is_up ev && stores then change_forms varstores_cursor_up
  else if is_page_down ev && strings && negb stores then forms_step strings_page_down
  else if is_page_up ev && strings && negb stores then forms_step strings_page_up
  else if is_page_down ev && stores then change_forms varstores_page_down
  else if is_page_up ev && stores then change_forms varstores_page_up
  else if pressed ev "h" && in_list then list_move (forms_set_expanded false)
  else if pressed ev "l" && in_list then list_move (forms_set_expanded true)
  else if pressed ev "S" then toggle_strings
  else if pressed ev "V" then toggle_varstores
  else if pressed ev "v" && main then show_selected_form
  else if pressed ev "u" && main then unlock_selected_form
  else if pressed ev "a" && main then on_pure add_prefill (insert_mode_opt (us "hii"))
  else if pressed ev "e" && main then on_pure export_prefill (insert_mode_opt (us "hii"))
  else if pressed ev "I" && main then on_pure import_prefill (insert_mode (us "hii"))
  else if pressed ev "A" && main then on_pure question_add_prefill (insert_mode_opt (us "hii"))
  else if pressed ev "R" && main then reference_selected_form
  else if pressed ev "T" && main then
    then_ (change_forms (fun f => f <| fd_flat_mode := negb (fd_flat_mode f) |>))
      (then_ (forms_step forms_sanitize_cursor) fresh_details)
  else if pressed ev "/" then filter_strings
  else if is_esc ev && strings then change_forms (fun f => f <| fd_show_strings := false |>)
  else if is_esc ev && stores then change_forms (fun f => f <| fd_show_varstores := false |>)
  else skip).

Definition handle_normal (ev : AppEvent) : ui_step := on_view (fun a =>
  if ap_show_help a then handle_help ev
  else if is_tab ev then switch_view
  else match ap_view a with
       | VW_Forms => handle_normal_forms ev
       | VW_Image => handle_image ev
       end).

(** ** The command line *)

(** The line is executed, kept in the history, and the history is saved. *)
Definition run_line (cmd : ustring) : ui_step :=
  then_ (fun u => match ui_client u with
                  | Some _ => with_engine (shown (execute cmd)) u
                  | None => status (us "no engine connection") u
                  end)
    (fun u =>
       let '(a, text) := after_command cmd (ui_app u) in
       Ask (K_SaveHistory text) (fun _ => Ret (Ok {| ui_app := a; ui_client := ui_client u |}))).
Definition handle_command (ev : AppEvent) : ui_step := fun u =>
  match cmd_key sh ev (ui_app u) with
  | Ok (a, flow) =>
      let u := {| ui_app := a; ui_client := ui_client u |} in
      match flow with
      | CF_Execute => run_line (ln_s (ap_cmdline a)) u
      | CF_Exit => change exit_to_normal u
      | CF_None => Ret (Ok u)
      end
  | Err e => Ret (Err e)
  | Panic => Ret Panic
  | Diverge => Ret Diverge
  end.

(** One turn of the loop. *)
Definition handle_event (ev : AppEvent) : ui_step := on_view (fun a =>
  match ap_mode a with
  | MD_Normal => handle_normal ev
  | MD_Command | MD_Insert => handle_command ev
  end).
(** The turns of the loop, each with the frame that was drawn before its event. *)
Fixpoint main_loop (evs : list (Frame * AppEvent)) (u : UI) : proc (pure UI) :=
  match evs with
  | [] => Ret (Ok u)
  | (fr, ev) :: evs =>
      proc_bind (handle_event ev {| ui_app := draw fr (ui_app u); ui_client := ui_client u |}) (fun r =>
        match r with
        | Ok u => if ap_quit (ui_app u) then Ret (Ok u) else main_loop evs u
        | r => Ret r
        end)
  end.
(** The client starts with the saved state and shows its image again, or without an engine,
    whose error it shows. *)
Definition start (history : option ustring) (client : State + ustring) : proc (pure UI) :=
  let a := app_new history in
  match client with
  | inl st => with_engine (quietly (restore_session header_ok)) {| ui_app := a; ui_client := Some st |}
  | inr e =>
      Ret (Ok {| ui_app := a <| ap_engine_online := false |>
                             <| ap_status_msg := us "ENGINE OFFLINE: " ++ e |>; ui_client := None |})
  end.
End MainLoop.
