(* ===== verification/StorageFacts.v ===== *)
(** Facts on the storage: where the files are, what the calls of the system keep, rules
    for programs, the keys of the tables, and the atomic replacement of a file. *)
From stdpp Require Import gmap sorting.
From S2P Require Import Prelude Text Types Storage.

(** ** Paths *)

Lemma split_on_ne c s : split_on c s <> [].
Proof. destruct s as [|x s]; cbn; [done|]. destruct (x =? c); [done|]. by destruct (split_on c s). Qed.

Lemma split_on_sep c a b : split_on c (a ++ c :: b) = split_on c a ++ split_on c b.
Proof.
  induction a as [|x a IH]; cbn.
  - by rewrite Z.eqb_refl.
  - rewrite IH. destruct (x =? c); [done|]. pose proof (split_on_ne c a). by destruct (split_on c a).
Qed.

Lemma split_on_free c s : c ∉ s -> split_on c s = [s].
Proof. intros H. apply split_on_none, Forall_forall. by intros x Hx ->. Qed.

Lemma break_at_free c a b : c ∉ a -> break_at c (a ++ c :: b) = Some (a, b).
Proof.
  induction a as [|x a IH]; cbn; intros H.
  - by rewrite Z.eqb_refl.
  - apply not_elem_of_cons in H as [H1 H2]. destruct (Z.eqb_spec x c); [by subst|]. by rewrite IH.
Qed.

Lemma rsplit_once_free c a b : c ∉ b -> rsplit_once c (a ++ c :: b) = Some (a, b).
Proof.
  intros H. unfold rsplit_once. rewrite rev_app_distr. cbn [rev]. rewrite <- app_assoc. cbn [app].
  rewrite break_at_free by (by rewrite list_elem_of_In, <- in_rev, <- list_elem_of_In).
  by rewrite !rev_involutive.
Qed.

(** A name that is one component: no separator, neither empty nor a dot name. *)
Definition name_ok (c : ustring) : Prop := (SEP ∉ c) /\ c <> [] /\ c <> [DOT] /\ c <> [DOT; DOT].
#[export] Instance name_ok_dec c : Decision (name_ok c).
Proof. unfold name_ok. apply _. Defined.

Lemma component_ok acc c : name_ok c -> component acc c = acc ++ [c].
Proof.
  intros (_ & H1 & H2 & H3). unfold component.
  rewrite bool_decide_false by tauto. by rewrite bool_decide_false.
Qed.

Lemma resolve_join cwd base c : name_ok c -> resolve cwd (join_path base c) = resolve cwd base ++ [c].
Proof.
  intros H. pose proof H as (Hs & Hne & _).
  assert (is_absolute c = false) as Hr.
  { destruct c as [|x c]; cbn; [done|]. apply not_elem_of_cons in Hs as [? _]. by apply Z.eqb_neq. }
  assert (forall acc, fold_left component (split_on SEP c) acc = acc ++ [c]) as Hc.
  { intros acc. rewrite split_on_free by done. by apply component_ok. }
  unfold join_path. rewrite Hr. unfold resolve.
  assert (forall t, base <> [] -> is_absolute (base ++ t) = is_absolute base) as Hab by by destruct base.
  destruct (last base) as [l|] eqn:Hl.
  2:{ apply last_None in Hl as ->. rewrite Hr. by rewrite Hc. }
  apply last_Some in Hl as [b' ->].
  destruct (Z.eqb_spec l SEP) as [->|Hn].
  - rewrite Hab by by destruct b'. rewrite <- app_assoc. cbn [app].
    rewrite !split_on_sep, !fold_left_app, Hc. done.
  - rewrite Hab by by destruct b'. rewrite split_on_sep, fold_left_app, Hc. done.
Qed.

Lemma join_join base c t :
  name_ok c -> is_absolute t = false -> join_path (join_path base c) t = join_path base c ++ SEP :: t.
Proof.
  intros (Hs & Hne & _) Ht. unfold join_path at 1. rewrite Ht.
  assert (exists l, last (join_path base c) = Some l /\ l <> SEP) as (l & Hl & Hn).
  { destruct (exists_last Hne) as (c' & l & Hc). exists l. split.
    - assert (forall p, last (p ++ c) = Some l) as Hlast by (intros p; rewrite Hc, app_assoc; apply last_snoc).
      unfold join_path. destruct (is_absolute c); [apply (Hlast [])|].
      destruct (last base) as [x|]; [|apply (Hlast [])]. destruct (x =? SEP); [apply Hlast|].
      change (base ++ SEP :: c) with (base ++ [SEP] ++ c). rewrite app_assoc. apply Hlast.
    - intros ->. apply Hs. rewrite Hc. set_solver. }
  rewrite Hl. destruct (Z.eqb_spec l SEP); done.
Qed.

(** The identifiers that uuids give: no separator and no dot. *)
Definition plain (u : ustring) : Prop := u <> [] /\ (SEP ∉ u) /\ (DOT ∉ u).
#[export] Instance plain_dec u : Decision (plain u).
Proof. unfold plain. apply _. Defined.

Lemma plain_name u : plain u -> name_ok u.
Proof. intros (H1 & H2 & H3). unfold name_ok. split_and!; [done..| |]; intros ->; set_solver. Qed.

Lemma plain_ext u x e : plain u -> SEP ∉ (x :: e) -> name_ok (u ++ DOT :: x :: e).
Proof.
  intros (H1 & H2 & H3) He. split_and!.
  - rewrite not_elem_of_app, not_elem_of_cons. split_and!; done.
  - by destruct u.
  - destruct u as [|a [|b u]]; cbn; try done.
  - destruct u as [|a u]; [done|]. cbn. intros [= -> _]. set_solver.
Qed.

(** Equal names with a suffix that starts at a dot have equal stems. *)
Lemma stem_inj u v x y : plain u -> plain v -> u ++ DOT :: x = v ++ DOT :: y -> u = v /\ x = y.
Proof.
  intros (_ & _ & Hu) (_ & _ & Hv). clear -Hu Hv. revert v Hv. induction u as [|a u IH]; intros [|b v] Hv H; cbn in H.
  - by injection H as ->.
  - injection H as <- _. set_solver.
  - injection H as -> _. set_solver.
  - injection H as -> H. apply not_elem_of_cons in Hu as [_ Hu], Hv as [_ Hv].
    destruct (IH Hu v Hv H) as [-> ->]. done.
Qed.

(** ** Where the files are *)

Section Layout.
Context (cwd : path) (data_dir : ustring).

Definition data_path : path := resolve cwd data_dir.
Definition image_at (s i : ustring) : path := data_path ++ [us "sessions"; s; us "images"; i ++ BIN].
Definition snapshot_at (s i n : ustring) : path :=
  data_path ++ [us "sessions"; s; us "images"; i ++ us ".snapshots"; n ++ BIN].
Definition artifact_at (s a : ustring) : path := data_path ++ [us "sessions"; s; us "artifacts"; a ++ BIN].
(** The temporary file beside a file. *)
Definition TMP : ustring := us ".bin.tmp".
Definition image_tmp_at (s i : ustring) : path := data_path ++ [us "sessions"; s; us "images"; i ++ TMP].
Definition snapshot_tmp_at (s i n : ustring) : path :=
  data_path ++ [us "sessions"; s; us "images"; i ++ us ".snapshots"; n ++ TMP].

Lemma name_us c : bool_decide (name_ok (us c)) = true -> name_ok (us c).
Proof. apply bool_decide_eq_true. Qed.

Lemma at_session_dir s : plain s -> at_path cwd (session_dir data_dir s) = data_path ++ [us "sessions"; s].
Proof.
  intros Hs. unfold at_path, session_dir. rewrite !resolve_join; [by rewrite <- app_assoc|by apply name_us|by apply plain_name].
Qed.
Lemma at_images_dir s :
  plain s -> at_path cwd (images_dir data_dir s) = data_path ++ [us "sessions"; s; us "images"].
Proof.
  intros Hs. unfold at_path, images_dir. rewrite resolve_join by by apply name_us.
  fold (at_path cwd (session_dir data_dir s)). rewrite at_session_dir by done. by rewrite <- app_assoc.
Qed.

Lemma ext_ok u e : plain u -> bool_decide (SEP ∉ us e) = true -> head (us e) = Some DOT -> name_ok (u ++ us e).
Proof.
  intros Hu He Hh. apply bool_decide_eq_true in He. destruct (us e) as [|x t]; [done|]. injection Hh as ->.
  destruct t as [|y t]; [|apply plain_ext; set_solver].
  destruct Hu as (H1 & H2 & H3). split_and!.
  - set_solver.
  - by destruct u.
  - destruct u as [|? [|? ?]]; try done. 
  - destruct u as [|a [|? [|? ?]]]; cbn; try done. intros [= ->]. set_solver.
Qed.

Lemma at_image_file s i : plain s -> plain i -> at_path cwd (image_file data_dir s i) = image_at s i.
Proof.
  intros Hs Hi. unfold at_path, image_file. rewrite resolve_join by by apply ext_ok.
  fold (at_path cwd (images_dir data_dir s)). rewrite at_images_dir by done. unfold image_at. by rewrite <- app_assoc.
Qed.
Lemma at_snapshots_dir s i : plain s -> plain i ->
  at_path cwd (snapshots_dir data_dir s i) = data_path ++ [us "sessions"; s; us "images"; i ++ us ".snapshots"].
Proof.
  intros Hs Hi. unfold at_path, snapshots_dir. rewrite resolve_join by by apply ext_ok.
  fold (at_path cwd (images_dir data_dir s)). rewrite at_images_dir by done. by rewrite <- app_assoc.
Qed.
Lemma at_snapshot_file s i n : plain s -> plain i -> plain n ->
  at_path cwd (snapshot_file data_dir s i n) = snapshot_at s i n.
Proof.
  intros Hs Hi Hn. unfold at_path, snapshot_file. rewrite resolve_join by by apply ext_ok.
  fold (at_path cwd (snapshots_dir data_dir s i)). rewrite at_snapshots_dir by done.
  unfold snapshot_at. by rewrite <- app_assoc.
Qed.
Lemma at_artifact_file s a : plain s -> plain a -> at_path cwd (artifact_file data_dir s a) = artifact_at s a.
Proof.
  intros Hs Ha. unfold at_path, artifact_file, artifacts_dir.
  rewrite resolve_join by by apply ext_ok. rewrite resolve_join by by apply name_us.
  fold (at_path cwd (session_dir data_dir s)). rewrite at_session_dir by done.
  unfold artifact_at. by rewrite <- !app_assoc.
Qed.

Lemma tmp_name base d u :
  name_ok d -> plain u -> with_extension (join_path (join_path base d) (u ++ BIN)) (us "bin.tmp")
    = join_path (join_path base d) (u ++ TMP).
Proof.
  intros Hd Hu.
  assert (forall e, head (us e) = Some DOT -> is_absolute (u ++ us e) = false) as Habs.
  { intros e _. destruct Hu as (Hne & Hs & _). destruct u as [|x u]; [done|]. cbn.
    apply Z.eqb_neq. intros ->. set_solver. }
  rewrite !join_join by (done || by apply Habs). unfold with_extension.
  rewrite rsplit_once_free.
  - f_equal. f_equal. unfold file_stem, BIN, TMP. change (us ".bin") with (DOT :: us "bin").
    rewrite rsplit_once_free by by apply (bool_decide_unpack _). destruct Hu as (Hne & _). by destruct u.
  - destruct Hu as (_ & Hs & _). rewrite not_elem_of_app. split; [done|]. by apply (bool_decide_unpack _).
Qed.
Lemma at_image_tmp s i : plain s -> plain i ->
  at_path cwd (with_extension (image_file data_dir s i) (us "bin.tmp")) = image_tmp_at s i.
Proof.
  intros Hs Hi. unfold image_file, images_dir. rewrite tmp_name by (done || by apply name_us).
  unfold at_path. rewrite resolve_join by by apply ext_ok.
  fold (images_dir data_dir s). fold (at_path cwd (images_dir data_dir s)). rewrite at_images_dir by done.
  unfold image_tmp_at. by rewrite <- app_assoc.
Qed.
Lemma at_snapshot_tmp s i n : plain s -> plain i -> plain n ->
  at_path cwd (with_extension (snapshot_file data_dir s i n) (us "bin.tmp")) = snapshot_tmp_at s i n.
Proof.
  intros Hs Hi Hn. unfold snapshot_file, snapshots_dir. rewrite tmp_name by (done || by apply ext_ok).
  unfold at_path. rewrite resolve_join by by apply ext_ok.
  fold (snapshots_dir data_dir s i). fold (at_path cwd (snapshots_dir data_dir s i)). rewrite at_snapshots_dir by done.
  unfold snapshot_tmp_at. by rewrite <- app_assoc.
Qed.

Lemma bin_inj u v : plain u -> plain v -> u ++ BIN = v ++ BIN -> u = v.
Proof. intros Hu Hv H. by apply (stem_inj u v (us "bin") (us "bin")) in H as [? _]. Qed.
Lemma bin_tmp u v : plain u -> plain v -> u ++ BIN <> v ++ TMP.
Proof. intros Hu Hv H. by apply (stem_inj u v (us "bin") (us "bin.tmp")) in H as [_ ?]. Qed.
Lemma snaps_inj u v : plain u -> plain v -> u ++ us ".snapshots" = v ++ us ".snapshots" -> u = v.
Proof. intros Hu Hv H. by apply (stem_inj u v (us "snapshots") (us "snapshots")) in H as [? _]. Qed.

Lemma image_at_inj s i s' i' : plain i -> plain i' -> image_at s i = image_at s' i' -> s = s' /\ i = i'.
Proof. intros Hi Hi' H%app_inv_head. injection H as -> H. split; [done|]. by apply bin_inj. Qed.
Lemma snapshot_at_inj s i n s' i' n' :
  plain i -> plain i' -> plain n -> plain n' ->
  snapshot_at s i n = snapshot_at s' i' n' -> s = s' /\ i = i' /\ n = n'.
Proof.
  intros Hi Hi' Hn Hn' H%app_inv_head. injection H as -> H1 H2.
  split_and!; [done|by apply snaps_inj|by apply bin_inj].
Qed.
Lemma image_tmp_ne s i s' i' : plain i -> plain i' -> image_at s i <> image_tmp_at s' i'.
Proof. intros Hi Hi' H%app_inv_head. injection H as -> H. by apply bin_tmp in H. Qed.
Lemma snapshot_tmp_ne s i n s' i' n' : plain n -> plain n' -> snapshot_at s i n <> snapshot_tmp_at s' i' n'.
Proof. intros Hi Hi' H%app_inv_head. injection H as -> H1 H2. by apply bin_tmp in H2. Qed.

(** Whatever starts like another directory is elsewhere. *)
Lemma image_snapshot_ne s i s' i' n' : image_at s i <> snapshot_at s' i' n'.
Proof. by intros H%app_inv_head. Qed.
Lemma image_snapshot_tmp_ne s i s' i' n' : image_at s i <> snapshot_tmp_at s' i' n'.
Proof. by intros H%app_inv_head. Qed.
Lemma snapshot_image_tmp_ne s i n s' i' : snapshot_at s i n <> image_tmp_at s' i'.
Proof. by intros H%app_inv_head. Qed.
Lemma image_artifact_ne s i s' a : image_at s i <> artifact_at s' a.
Proof. by intros H%app_inv_head. Qed.
Lemma snapshot_artifact_ne s i n s' a : snapshot_at s i n <> artifact_at s' a.
Proof. by intros H%app_inv_head. Qed.

End Layout.

(** ** Files kept by the calls of the system *)

Definition file_at (d : files) (p : path) : option (list byte) :=
  match d !! p with Some (File b) => Some b | _ => None end.
(** All files outside [S] are as before. *)
Definition kept (S : list path) (d d' : files) : Prop := forall p, p ∉ S -> file_at d' p = file_at d p.

#[export] Instance kept_preorder S : PreOrder (kept S).
Proof. split; [done|]. intros a b c H1 H2 p Hp. by rewrite H2, H1. Qed.
Lemma kept_sub S S' d d' : S ⊆ S' -> kept S d d' -> kept S' d d'.
Proof. intros Hs H p Hp. apply H. set_solver. Qed.

Lemma file_at_insert d p b q : file_at (<[p := File b]> d) q = if decide (p = q) then Some b else file_at d q.
Proof. unfold file_at. rewrite lookup_insert. by case_decide. Qed.
Lemma file_at_delete d p q : file_at (delete p d) q = if decide (p = q) then None else file_at d q.
Proof. unfold file_at. rewrite lookup_delete. by case_decide. Qed.

Lemma kept_insert p b d : kept [p] d (<[p := File b]> d).
Proof. intros q Hq. rewrite file_at_insert. case_decide; set_solver. Qed.
Lemma kept_delete p d : kept [p] d (delete p d).
Proof. intros q Hq. rewrite file_at_delete. case_decide; set_solver. Qed.

Lemma write_kept f p b d : kept [p] d (fst (fs_write f p b d)).
Proof.
  unfold fs_write. destruct (is_dir d p), (is_dir d (parent p)); try done.
  destruct f as [[[|n] l]|]; try done; apply kept_insert.
Qed.
Lemma write_ok f p b d d' : fs_write f p b d = (d', Ok tt) -> d' = <[p := File b]> d.
Proof.
  unfold fs_write. destruct (is_dir d p), (is_dir d (parent p)); try done.
  destruct f as [[[|n] l]|]; try done. by intros [= <-].
Qed.
Lemma rename_kept f p q d : kept [p; q] d (fst (fs_rename f p q d)).
Proof.
  unfold fs_rename. destruct f; [done|]. destruct (d !! p) as [[b|]|]; try done.
  destruct (is_dir d q), (is_dir d (parent q)); try done. cbn. etransitivity.
  - apply (kept_sub [p]); [set_solver|apply kept_delete].
  - apply (kept_sub [q]); [set_solver|apply kept_insert].
Qed.
Lemma rename_ok f p q d d' b :
  file_at d p = Some b -> fs_rename f p q d = (d', Ok tt) -> d' = <[q := File b]> (delete p d).
Proof.
  unfold fs_rename, file_at. destruct f; [done|]. destruct (d !! p) as [[b'|]|]; try done. intros [= ->].
  destruct (is_dir d q), (is_dir d (parent q)); try done. by intros [= <-].
Qed.
Lemma rename_err f p q d d' e : fs_rename f p q d = (d', Err e) -> d' = d.
Proof.
  unfold fs_rename. destruct f; [by intros [= <-]|]. destruct (d !! p) as [[b'|]|]; try by intros [= <-].
  destruct (is_dir d q), (is_dir d (parent q)); try done; by intros [= <-].
Qed.
Lemma remove_kept f p d : kept [p] d (fst (fs_remove_file f p d)).
Proof. unfold fs_remove_file. destruct f, (d !! p) as [[]|]; try done. apply kept_delete. Qed.

Lemma make_dir_kept s p : kept [] (fst s) (fst (make_dir s p)).
Proof.
  destruct s as [d [e|]]; [done|]. cbn. destruct (d !! p) as [[]|] eqn:Hp; try done.
  intros q _. cbn. unfold file_at. rewrite lookup_insert. case_decide; [|done]. subst. by rewrite Hp.
Qed.
Lemma create_dir_all_kept f p d : kept [] d (fst (fs_create_dir_all f p d)).
Proof.
  unfold fs_create_dir_all.
  assert (forall l s, kept [] (fst s) (fst (fold_left make_dir l s))) as H.
  { induction l as [|q l IH]; intros s; cbn; [done|]. etransitivity; [apply make_dir_kept|apply IH]. }
  match goal with |- context [fold_left make_dir ?l ?s] => specialize (H l s); destruct (fold_left make_dir l s) end.
  done.
Qed.
Lemma read_kept f p d : fst (fs_read f p d) = d.
Proof. done. Qed.
Lemma read_ok f p d b : snd (fs_read f p d) = Ok b -> file_at d p = Some b.
Proof. unfold fs_read, file_at. destruct f; [done|]. destruct (d !! p) as [[b'|]|]; try done. by intros [= ->]. Qed.

(** No call of the system panics or runs out of fuel. *)
Definition total {E A} (o : outcome E A) : Prop := match o with Panic | Diverge => False | _ => True end.
Lemma write_total f p b d : total (snd (fs_write f p b d)).
Proof. unfold fs_write. repeat case_match; done. Qed.
Lemma rename_total f p q d : total (snd (fs_rename f p q d)).
Proof. unfold fs_rename. repeat case_match; done. Qed.
Lemma create_dir_all_total f p d : total (snd (fs_create_dir_all f p d)).
Proof. unfold fs_create_dir_all. repeat case_match; done. Qed.
Lemma remove_dir_all_total f p d : total (snd (fs_remove_dir_all f p d)).
Proof. unfold fs_remove_dir_all. repeat case_match; done. Qed.

(** ** Rules for programs *)

Section Rules.
Context {GL : GuidLib}.

Lemma prog_induction {E A} (P : prog E A -> Prop) :
  (forall o, P (Done o)) ->
  (forall f, (forall i w, P (snd (f i w))) -> P (Step f)) ->
  forall p, P p.
Proof.
  intros HD HS. exact (fix go p := match p with
    | Done o => HD o
    | Step f => HS f (fun i w => match f i w as x return P (snd x) with (w', p') => go p' end)
    end).
Qed.

(** [wp R I p Q w]: from [w], with inputs that satisfy [R], every state between two steps
    satisfies [I], and the outcome with the last state satisfies [Q]. *)
Section Wp.
Context (R : Input -> World -> Prop) (I : World -> Prop).

Fixpoint wp {E A} (p : prog E A) (Q : outcome E A -> World -> Prop) (w : World) : Prop :=
  match p with
  | Done o => Q o w
  | Step f => forall i, R i w -> match f i w with (w', p') => I w' /\ wp p' Q w' end
  end.

(** Every input of the run is one that [R] allows. *)
Fixpoint admissible {E A} (ins : list Input) (p : prog E A) (w : World) : Prop :=
  match p with
  | Done _ => True
  | Step f => match ins with
              | [] => True
              | i :: ins => R i w /\ match f i w with (w', p') => admissible ins p' w' end
              end
  end.

Lemma wp_run {E A} ins (p : prog E A) Q w :
  I w -> wp p Q w -> admissible ins p w ->
  match run ins p w with
  | (w', Some o) => Q o w'
  | (w', None) => I w'
  end.
Proof.
  revert p w. induction ins as [|i ins IH]; intros [o|f] w Hi Hw Ha; try done.
  cbn in *. destruct Ha as [Hr Ha]. specialize (Hw i Hr). destruct (f i w) as [w' p'].
  destruct Hw as [Hi' Hw]. by apply IH.
Qed.

Lemma wp_mono {E A} (p : prog E A) (Q Q' : outcome E A -> World -> Prop) w :
  (forall o w, Q o w -> Q' o w) -> wp p Q w -> wp p Q' w.
Proof.
  intros HQ. revert w. induction p as [o|f IH] using prog_induction; intros w; cbn; [apply HQ|].
  intros H i Hr. specialize (H i Hr). specialize (IH i w). destruct (f i w) as [w' p']. cbn in IH.
  destruct H as [Hi H]. split; [done|]. by apply IH.
Qed.

(** What is asked of the outcome of the first part of a sequence. *)
Definition then_ {E A B} (k : A -> prog E B) (Q : outcome E B -> World -> Prop) (o : outcome E A) : World -> Prop :=
  match o with
  | Ok a => wp (k a) Q
  | Err e => Q (Err e)
  | Panic => Q Panic
  | Diverge => Q Diverge
  end.

Lemma wp_bind {E A B} (p : prog E A) (k : A -> prog E B) Q w : wp p (then_ k Q) w -> wp (p ≫= k) Q w.
Proof.
  unfold mbind, prog_mbind. revert w. induction p as [o|f IH] using prog_induction; intros w; cbn.
  - by destruct o.
  - intros H i Hr. specialize (H i Hr). specialize (IH i w). destruct (f i w) as [w' p']. cbn in IH.
    destruct H as [Hi H]. split; [done|]. by apply IH.
Qed.

Definition on_err {E F A} (g : E -> outcome F A) (Q : outcome F A -> World -> Prop) (o : outcome E A) : World -> Prop :=
  match o with
  | Ok a => Q (Ok a)
  | Err e => Q (g e)
  | Panic => Q Panic
  | Diverge => Q Diverge
  end.
Lemma wp_on_error {E F A} (g : E -> outcome F A) (p : prog E A) Q w :
  wp p (on_err g Q) w -> wp (on_error g p) Q w.
Proof.
  revert w. induction p as [o|f IH] using prog_induction; intros w; cbn.
  - by destruct o.
  - intros H i Hr. specialize (H i Hr). specialize (IH i w). destruct (f i w) as [w' p']. cbn in IH.
    destruct H as [Hi H]. split; [done|]. by apply IH.
Qed.

Lemma wp_step {E A} (f : Input -> World -> World * outcome E A) Q w :
  (forall i, R i w -> I (fst (f i w)) /\ Q (snd (f i w)) (fst (f i w))) -> wp (step f) Q w.
Proof. intros H i Hr. specialize (H i Hr). by destruct (f i w). Qed.
End Wp.

(** [safe I p]: every step of [p] keeps [I], in whatever state of [I] it starts. *)
Section Safe.
Context (I : World -> Prop).

Fixpoint safe {E A} (p : prog E A) : Prop :=
  match p with
  | Done _ => True
  | Step f => forall i w, I w -> match f i w with (w', p') => I w' /\ safe p' end
  end.

Lemma safe_step {E A} (f : Input -> World -> World * outcome E A) :
  (forall i w, I w -> I (fst (f i w))) -> safe (step f).
Proof. intros H i w Hw. specialize (H i w Hw). by destruct (f i w). Qed.
Lemma safe_bind {E A B} (p : prog E A) (k : A -> prog E B) :
  safe p -> (forall a, safe (k a)) -> safe (p ≫= k).
Proof.
  intros Hp Hk. unfold mbind, prog_mbind. induction p as [o|f IH] using prog_induction; cbn in *.
  - destruct o; done || apply Hk.
  - intros i w Hw. specialize (Hp i w Hw). specialize (IH i w). destruct (f i w) as [w' p']. cbn in IH.
    destruct Hp as [Hi Hp]. split; [done|]. by apply IH.
Qed.
Lemma safe_on_error {E F A} (g : E -> outcome F A) (p : prog E A) : safe p -> safe (on_error g p).
Proof.
  intros Hp. induction p as [o|f IH] using prog_induction; cbn in *.
  - by destruct o.
  - intros i w Hw. specialize (Hp i w Hw). specialize (IH i w). destruct (f i w) as [w' p']. cbn in IH.
    destruct Hp as [Hi Hp]. split; [done|]. by apply IH.
Qed.
Lemma safe_each {E A} (f : A -> prog E unit) l : (forall a, safe (f a)) -> safe (prog_each f l).
Proof. intros H. induction l as [|a l IH]; cbn [prog_each]; [done|]. by apply safe_bind. Qed.

(** Requests that run at the same time keep it in every order of their steps. *)
Lemma schedule_safe {E A} s (ps : list (prog E A)) w :
  I w -> Forall safe ps -> I (fst (schedule s ps w)).
Proof.
  revert ps w. induction s as [|[t i] s IH]; intros ps w Hw Hps; cbn; [done|].
  destruct (ps !! t) as [[o|f]|] eqn:Ht; try by apply IH.
  pose proof (Forall_lookup_1 _ _ _ _ Hps Ht i w Hw) as H. destruct (f i w) as [w' p']. destruct H as [Hw' Hp].
  apply IH; [done|]. by apply Forall_insert.
Qed.
End Safe.

(** ** The atomic replacement of a file *)

Lemma wp_on_disk R I {A} (f : option Fault -> io A) Q w :
  (forall i, R i w -> I (with_disk (fst (f (fault 0 i) (disk w))) w) /\
     Q (map_err AE_Io (snd (f (fault 0 i) (disk w)))) (with_disk (fst (f (fault 0 i) (disk w))) w)) ->
  wp R I (on_disk f) Q w.
Proof.
  intros H. apply wp_step. intros i Hi. specialize (H i Hi). by destruct (f (fault 0 i) (disk w)).
Qed.

(** Up to the last call only the temporary file changes; that call puts all bytes into the
    file at once. *)
Lemma wp_atomic_write R I cwd s b Q w p t :
  at_path cwd s = p -> at_path cwd (with_extension s (us "bin.tmp")) = t -> p <> t ->
  (forall d, kept [t] (disk w) d -> I (with_disk d w) /\ forall e, Q (Err e) (with_disk d w)) ->
  (forall d, kept [p; t] (disk w) d -> file_at d p = Some b -> I (with_disk d w) /\ Q (Ok tt) (with_disk d w)) ->
  wp R I (atomic_write cwd s b) Q w.
Proof.
  intros <- <- Hne Herr Hok. unfold atomic_write.
  set (p := at_path cwd s) in *. set (t := at_path cwd (with_extension s (us "bin.tmp"))) in *.
  apply wp_bind, wp_on_disk. intros i1 _. pose proof (create_dir_all_kept (fault 0 i1) (parent p) (disk w)) as K1.
  pose proof (create_dir_all_total (fault 0 i1) (parent p) (disk w)) as T1.
  destruct (fs_create_dir_all (fault 0 i1) (parent p) (disk w)) as [d1 o1]. cbn [fst snd] in *.
  assert (kept [t] (disk w) d1) as K1' by (apply (kept_sub []); [set_solver|done]).
  split; [by apply Herr|]. destruct o1 as [[]|e| |]; try done; [|by apply Herr]. cbn [map_err then_].
  apply wp_bind, wp_on_disk. intros i2 _. cbn [disk with_disk].
  pose proof (write_kept (fault 0 i2) t b d1) as K2. pose proof (write_total (fault 0 i2) t b d1) as T2.
  destruct (fs_write (fault 0 i2) t b d1) as [d2 o2] eqn:H2. cbn [fst snd] in *.
  assert (kept [t] (disk w) d2) as K2' by by transitivity d1.
  split; [by apply Herr|]. destruct o2 as [[]|e| |]; try done; [|by apply Herr]. cbn [map_err then_].
  apply write_ok in H2 as ->. apply wp_on_disk. intros i3 _. cbn [disk with_disk].
  pose proof (rename_kept (fault 0 i3) t p (<[t := File b]> d1)) as K3.
  pose proof (rename_total (fault 0 i3) t p (<[t := File b]> d1)) as T3.
  destruct (fs_rename (fault 0 i3) t p (<[t := File b]> d1)) as [d3 o3] eqn:H3. cbn [fst snd] in *.
  destruct o3 as [[]|e| |]; try done; cbn [map_err].
  - apply Hok.
    + transitivity (<[t := File b]> d1); [apply (kept_sub [t]); [set_solver|done]|].
      apply (kept_sub [t; p]); [set_solver|done].
    + apply (rename_ok _ _ _ _ _ b) in H3 as ->; by rewrite file_at_insert, decide_True by done.
  - apply rename_err in H3 as ->. split; by apply Herr.
Qed.
End Rules.
