(* ===== verification/ServerFacts.v ===== *)
(** The service keeps its state consistent: the tables under every interleaving of
    requests, the stored images whatever fails or ends, snapshots, sessions. *)
From stdpp Require Import gmap sorting.
From S2P Require Import Prelude Text Types Ffs Tiano Codec Listing Parser Target Ops Nvar NvarStores.
From S2P Require Import Hii Values Ifr Gates StringPack Schema Spf PeResource ImageStrings ImageGates ImageValues.
From S2P Require Import Channels SetupAdd QuestionAdd Hijack Tse FormExport.
From S2P Require Import Storage Listing ImageParser Builder Server StorageFacts.

(** ** The tables: primary keys are unique and every reference has its row *)

Section Keys.
Context {R : Type} (key : R -> ustring).

Lemma rows_elem k l r : r ∈ rows key k l <-> r ∈ l /\ key r = k.
Proof. unfold rows, is_id. by rewrite list_elem_of_In, filter_In, <- list_elem_of_In, bool_decide_eq_true. Qed.
Lemma rows_nil k l : rows key k l = [] <-> k ∉ key <$> l.
Proof.
  split.
  - intros H (r & -> & Hr)%list_elem_of_fmap. assert (r ∈ rows key (key r) l) as Hin by by apply rows_elem.
    rewrite H in Hin. by apply elem_of_nil in Hin.
  - intros H. destruct (rows key k l) as [|r l'] eqn:Hl; [done|]. destruct H.
    assert (r ∈ rows key k l) as [Hr <-]%rows_elem by (rewrite Hl; by left). by apply list_elem_of_fmap_2.
Qed.
Lemma has_row_elem k l : has_row key k l = true <-> k ∈ key <$> l.
Proof.
  unfold has_row. rewrite negb_true_iff, bool_decide_eq_false, rows_nil.
  split; [apply dec_stable|tauto].
Qed.
Lemma find_row_elem k l r : find_row key k l = Some r -> r ∈ l /\ key r = k.
Proof.
  unfold find_row. destruct (rows key k l) as [|r' l'] eqn:Hl; [done|]. intros [= ->].
  apply rows_elem. rewrite Hl. by left.
Qed.
Lemma others_elem k l r : r ∈ others key k l <-> r ∈ l /\ key r <> k.
Proof.
  unfold others, is_id.
  by rewrite list_elem_of_In, filter_In, <- list_elem_of_In, negb_true_iff, bool_decide_eq_false.
Qed.
(** With unique keys, the row found is the row of the key. *)
Lemma find_row_unique k l r : NoDup (key <$> l) -> r ∈ l -> key r = k -> find_row key k l = Some r.
Proof.
  intros Hd Hr Hk. unfold find_row. assert (r ∈ rows key k l) as Hin by by apply rows_elem.
  destruct (rows key k l) as [|r' l'] eqn:Hl; [by apply elem_of_nil in Hin|]. cbn. f_equal.
  assert (r' ∈ rows key k l) as [Hr' Hk']%rows_elem by (rewrite Hl; by left).
  apply list_elem_of_lookup in Hr as [i Hi], Hr' as [j Hj].
  assert (i = j) as ->.
  { apply (NoDup_lookup _ i j k Hd); rewrite list_lookup_fmap; [rewrite Hi|rewrite Hj]; cbn; congruence. }
  congruence.
Qed.

Lemma NoDup_filter_rows f l : NoDup (key <$> l) -> NoDup (key <$> List.filter f l).
Proof.
  induction l as [|r l IH]; cbn; [done|]. rewrite NoDup_cons. intros [Hn Hd].
  destruct (f r); [|by apply IH]. cbn. rewrite NoDup_cons. split; [|by apply IH].
  intros (r' & Hk & Hr')%list_elem_of_fmap. apply list_elem_of_In, filter_In in Hr' as [Hr' _].
  apply Hn. rewrite Hk. by apply list_elem_of_fmap_2, list_elem_of_In.
Qed.
Lemma update_rows_keys k f l : (forall r, key (f r) = key r) -> key <$> update_rows key k f l = key <$> l.
Proof.
  intros Hf. unfold update_rows. rewrite <- list_fmap_compose. apply list_fmap_ext.
  intros _ r _. cbn. destruct (is_id key k r); [apply Hf|done].
Qed.
Lemma insert_row_ok r b l l' :
  insert_row key r b l = Ok l' -> l' = l ++ [r] /\ b = true /\ key r ∉ key <$> l.
Proof.
  unfold insert_row. destruct (bool_decide_reflect (rows key (key r) l = [])) as [H|H], b; try done. cbn.
  intros [= <-]. by rewrite <- rows_nil.
Qed.
Lemma NoDup_insert_row r b l l' : insert_row key r b l = Ok l' -> NoDup (key <$> l) -> NoDup (key <$> l').
Proof.
  intros (-> & _ & Hn)%insert_row_ok Hd. rewrite fmap_app. apply NoDup_app. split_and!; [done| |].
  - intros x Hx [->|Hc]%elem_of_cons; [done|]. by apply elem_of_nil in Hc.
  - apply NoDup_singleton.
Qed.
End Keys.

(** Every [r] of [l] references a row of [l']. *)
Definition references {R S} (fk : R -> ustring) (key : S -> ustring) (l : list R) (l' : list S) : Prop :=
  forall r, r ∈ l -> fk r ∈ key <$> l'.

Lemma references_filter {R S} (fk : R -> ustring) (key : S -> ustring) f l l' :
  references fk key l l' -> references fk key (List.filter f l) l'.
Proof. intros H r Hr. apply list_elem_of_In, filter_In in Hr as [Hr _]. by apply H, list_elem_of_In. Qed.
Lemma references_keys {R S} (fk : R -> ustring) (key : S -> ustring) l l' l'' :
  key <$> l'' = key <$> l' -> references fk key l l' -> references fk key l l''.
Proof. intros Hk H r Hr. rewrite Hk. by apply H. Qed.
Lemma references_cascade {R S} (fk : R -> ustring) (key : S -> ustring) l l' :
  references fk key (List.filter (fun r => has_row key (fk r) l') l) l'.
Proof. intros r Hr. apply list_elem_of_In, filter_In in Hr as [_ Hr]. by apply has_row_elem. Qed.
Lemma references_insert {R S} (fk : R -> ustring) (key : S -> ustring) (keyr : R -> ustring) r b l l1 l' :
  insert_row keyr r b l = Ok l1 -> b = has_row key (fk r) l' -> references fk key l l' ->
  references fk key l1 l'.
Proof.
  intros (-> & Hb & _)%insert_row_ok -> H x [Hx|Hx]%elem_of_app; [by apply H|].
  apply elem_of_cons in Hx as [->|Hx]; [|by apply elem_of_nil in Hx]. by apply has_row_elem.
Qed.
Lemma references_grow {R S} (fk : R -> ustring) (key : S -> ustring) l l1 (x : S) :
  references fk key l l1 -> references fk key l (l1 ++ [x]).
Proof. intros H r Hr. rewrite fmap_app. apply elem_of_app. left. by apply H. Qed.

Record db_ok (d : Db) : Prop := {
  ok_sessions : NoDup (se_id <$> sessions d);
  ok_artifacts : NoDup (ar_id <$> artifacts d);
  ok_images : NoDup (im_id <$> images d);
  ok_snapshots : NoDup (sn_id <$> image_snapshots d);
  ok_artifact_session : references ar_session_id se_id (artifacts d) (sessions d);
  ok_image_session : references im_session_id se_id (images d) (sessions d);
  ok_snapshot_image : references sn_image_id im_id (image_snapshots d) (images d)
}.

Create HintDb tables.
#[export] Hint Resolve ok_sessions ok_artifacts ok_images ok_snapshots ok_artifact_session
  ok_image_session ok_snapshot_image NoDup_filter_rows references_filter references_cascade
  references_grow : tables.

Ltac tables := split; cbn; eauto 3 with tables.

Lemma insert_session_ok id t n now d d' : insert_session id t n now d = Ok d' -> db_ok d -> db_ok d'.
Proof.
  unfold insert_session. intros H Hd. ok_inv. match goal with H : insert_row _ _ _ _ = _ |- _ => pose proof H as Hi end.
  apply insert_row_ok in Hi as (-> & _ & _). tables. by eapply NoDup_insert_row, ok_sessions.
Qed.
Lemma touch_session_ok id now d : db_ok d -> db_ok (touch_session id now d).
Proof.
  intros Hd. assert (forall f, (forall r, se_id (f r) = se_id r) ->
    se_id <$> update_rows se_id id f (sessions d) = se_id <$> sessions d) as Hk by (intros; by apply update_rows_keys).
  tables; [rewrite Hk by done; auto with tables|eapply references_keys; [by apply Hk|auto with tables]..].
Qed.
Lemma delete_artifacts_ok id d : db_ok d -> db_ok (delete_artifacts_for_session id d).
Proof. intros Hd. unfold delete_artifacts_for_session, others. tables. Qed.
Lemma cascade_snapshots_ok d d' :
  db_ok d -> images d' ⊆ images d -> NoDup (im_id <$> images d') -> sessions d' = sessions d ->
  artifacts d' = artifacts d -> image_snapshots d' = image_snapshots d -> db_ok (cascade_snapshots d').
Proof.
  intros Hd Hi Hn Hs Ha Hsn. unfold cascade_snapshots. split; cbn; rewrite ?Hs, ?Ha, ?Hsn; auto with tables.
  intros r Hr. apply (ok_image_session _ Hd), Hi, Hr.
Qed.
Lemma filter_sub {R} (f : R -> bool) l : List.filter f l ⊆ l.
Proof. intros r Hr. apply list_elem_of_In, filter_In in Hr as [Hr _]. by apply list_elem_of_In. Qed.
Lemma delete_image_ok id d : db_ok d -> db_ok (delete_image id d).
Proof. intros Hd. apply (cascade_snapshots_ok d); unfold others; cbn; auto using filter_sub with tables. Qed.
Lemma delete_images_for_session_ok id d : db_ok d -> db_ok (delete_images_for_session id d).
Proof. intros Hd. apply (cascade_snapshots_ok d); unfold others; cbn; auto using filter_sub with tables. Qed.
Lemma delete_session_row_ok id d : db_ok d -> db_ok (delete_session_row id d).
Proof.
  intros Hd. unfold delete_session_row, cascade_sessions, cascade_snapshots, others. split; cbn; auto with tables.
Qed.
Lemma insert_artifact_ok id s k p z src now d d' :
  insert_artifact id s k p z src now d = Ok d' -> db_ok d -> db_ok d'.
Proof.
  unfold insert_artifact. intros H Hd. ok_inv. tables; [by eapply NoDup_insert_row, ok_artifacts|].
  eapply references_insert; [eassumption|done|auto with tables].
Qed.
Lemma insert_image_ok id s n p m z now d d' : insert_image id s n p m z now d = Ok d' -> db_ok d -> db_ok d'.
Proof.
  unfold insert_image. intros H Hd. ok_inv. match goal with H : insert_row _ _ _ _ = _ |- _ => pose proof H as Hi end.
  apply insert_row_ok in Hi as (Hl & _ & _). tables.
  - by eapply NoDup_insert_row, ok_images.
  - eapply references_insert; [eassumption|done|auto with tables].
  - rewrite Hl. auto with tables.
Qed.
Lemma touch_image_ok id now d : db_ok d -> db_ok (touch_image id now d).
Proof.
  intros Hd. unfold touch_image. tables.
  - rewrite update_rows_keys by done. auto with tables.
  - intros r Hr. unfold update_rows in Hr. apply list_elem_of_fmap in Hr as (r' & -> & Hr').
    destruct (is_id _ _ _); by apply (ok_image_session _ Hd r').
  - eapply references_keys; [by apply update_rows_keys|auto with tables].
Qed.
Lemma insert_image_snapshot_ok id i n z c d d' :
  insert_image_snapshot id i n z c d = Ok d' -> db_ok d -> db_ok d'.
Proof.
  unfold insert_image_snapshot. intros H Hd. ok_inv. tables; [by eapply NoDup_insert_row, ok_snapshots|].
  eapply references_insert; [eassumption|done|auto with tables].
Qed.

#[export] Hint Resolve insert_session_ok touch_session_ok delete_artifacts_ok delete_image_ok
  delete_session_row_ok insert_artifact_ok insert_image_ok touch_image_ok insert_image_snapshot_ok : tables.

(** ** The tables *)

Section Tables.
Context {GL : GuidLib}.

Definition tables_ok (w : World) : Prop := db_ok (db w).

Lemma safe_locked_db {A} (f : Input -> Db -> Db * outcome Anyhow A) :
  (forall i d, db_ok d -> db_ok (fst (f i d))) -> safe tables_ok (locked_db f).
Proof. intros H. apply safe_step. intros i w Hw. specialize (H i (db w) Hw). cbn. by destruct (f i (db w)). Qed.
Lemma execute_ok k st i d :
  (forall now d d', st now d = Ok d' -> db_ok d -> db_ok d') -> db_ok d -> db_ok (fst (execute k st i d)).
Proof.
  intros H Hd. unfold execute. destruct (fault k i); [done|]. destruct (st (i_now i) d) eqn:Hs; try done.
  by eapply H.
Qed.
Lemma safe_statement st :
  (forall now d d', st now d = Ok d' -> db_ok d -> db_ok d') -> safe tables_ok (statement st).
Proof. intros H. apply safe_locked_db. intros i d. by apply execute_ok. Qed.
Lemma safe_query {A} (q : Z -> Db -> A) : safe tables_ok (query q).
Proof. by apply safe_locked_db. Qed.
Lemma safe_on_disk {A} (f : option Fault -> io A) : safe tables_ok (on_disk f).
Proof. apply safe_step. intros i w Hw. by destruct (f (fault 0 i) (disk w)). Qed.
Lemma safe_delete_session id : safe tables_ok (delete_session id).
Proof.
  apply safe_locked_db. intros i d Hd.
  pose proof (execute_ok 0 (fun _ d => Ok (delete_artifacts_for_session id d)) i d) as H.
  destruct (execute 0 _ i d) as [d1 [[]|e| |]]; cbn in H.
  1: apply execute_ok; [by intros ? ? ? [= <-] ?; apply delete_session_row_ok|].
  all: apply H; [|done]; intros ? ? ? [= <-] ?; by apply delete_artifacts_ok.
Qed.

End Tables.

Create HintDb safe.
#[local] Hint Resolve safe_query safe_on_disk safe_delete_session : safe.

(** Goes through a handler step by step. *)
Ltac safe_steps :=
  repeat match goal with
  | |- safe _ (_ ≫= _) => apply safe_bind; [|intros]
  | |- safe _ (mret _) => exact I
  | |- safe _ (Done _) => exact I
  | |- safe _ (fail _) => exact I
  | |- safe _ (some_or _ _) => exact I
  | |- safe _ (ask _ _) => exact I
  | |- safe _ (on_error _ _) => apply safe_on_error
  | |- safe _ (prog_map_err _ _) => apply safe_on_error
  | |- safe _ (or_internal _) => apply safe_on_error
  | |- safe _ (ignore _) => apply safe_on_error
  | |- safe _ (prog_each _ _) => apply safe_each; intros
  | |- safe _ (statement _) => apply safe_statement; intros ? ? ?;
        try (intros [= <-]); eauto with tables
  | |- safe _ (draw _) => by apply safe_step
  | |- safe _ (io_fault _) => by apply safe_step
  | |- safe _ (with_image _ _) => by apply safe_step
  | |- safe _ (match ?x with _ => _ end) => destruct x
  | |- safe _ (let '(_, _) := ?x in _) => destruct x
  | |- safe _ _ => solve [auto with safe]
  end.

Section Interleavings.
Context {GL : GuidLib} {LL : LzmaLib} {LC : Lowercase} {RH : RefiHii} {OP : ObjectPe} {ST : SchemaText}.
Context (dbg : Wraps -> ustring) (dbg_str : ustring -> ustring).
Context (depth : nat) (cwd : path) (pwd data_dir : ustring) (ttl_secs : Z) (purge_artifacts : bool).

Lemma safe_edit_image {A} id (f : Image -> Image * outcome Status A) : safe tables_ok (edit_image id f).
Proof. apply safe_step. intros _ w Hw. destruct (cache w !! id); [|done]. by destruct (f i). Qed.
Lemma safe_set_cache {E A : Type} (f : World -> gmap ustring Image) (o : World -> outcome E A) :
  safe tables_ok (step (fun _ w => (with_cache (f w) w, o w))).
Proof. by apply safe_step. Qed.
#[local] Hint Resolve safe_edit_image safe_set_cache : safe.
Lemma safe_atomic_write p b : safe tables_ok (atomic_write cwd p b).
Proof. unfold atomic_write. safe_steps. Qed.
Lemma safe_store_artifact s a b : safe tables_ok (store_artifact_file cwd data_dir s a b).
Proof. unfold store_artifact_file. safe_steps. Qed.
Lemma safe_read_path p : safe tables_ok (read_path cwd p).
Proof. unfold read_path. safe_steps. Qed.
#[local] Hint Resolve safe_atomic_write safe_store_artifact safe_read_path : safe.
Lemma safe_flush id : safe tables_ok (flush_image depth cwd data_dir id).
Proof.
  unfold flush_image, write_flushed. safe_steps.
  all: apply safe_step; intros _ w Hw; by destruct (cache w !! id).
Qed.
Lemma safe_loaded id : safe tables_ok (ensure_image_loaded depth cwd data_dir id).
Proof. unfold ensure_image_loaded, read_image_file. safe_steps. by apply safe_step. Qed.
Lemma safe_get_or_load id : safe tables_ok (get_or_load_image depth cwd data_dir id).
Proof. unfold get_or_load_image. safe_steps. apply safe_loaded. Qed.
#[local] Hint Resolve safe_flush safe_loaded safe_get_or_load : safe.

Lemma safe_open sid b m n p : safe tables_ok (open_from_bytes depth cwd data_dir sid b m n p).
Proof.
  unfold open_from_bytes, session_exists, store_image_file, touch_quietly, touch. safe_steps.
Qed.
Lemma safe_source a p : safe tables_ok (source_bytes cwd data_dir a p).
Proof. unfold source_bytes, read_artifact_file. safe_steps. Qed.
Lemma safe_row id : safe tables_ok (get_row id).
Proof. unfold get_row. safe_steps. Qed.
Lemma safe_touch id : safe tables_ok (touch_quietly id).
Proof. unfold touch_quietly, touch. safe_steps. Qed.
Lemma safe_destroy id b : safe tables_ok (destroy_session cwd data_dir id b).
Proof. unfold destroy_session, delete_session_metadata. safe_steps. Qed.
#[local] Hint Resolve safe_open safe_source safe_row safe_touch safe_destroy : safe.

Lemma safe_handle q : safe tables_ok (handle dbg dbg_str depth cwd pwd data_dir purge_artifacts q).
Proof.
  destruct q; cbn [handle];
    unfold session_create, create_session, session_destroy, sessions_list, image_open, image_upload, image_mode,
      image_close, remove_image_file, images_list, image_status, image_nodes_list,
      image_nodes_search, image_node_insert, image_node_remove, image_node_replace, image_node_rebuild,
      image_node_extract, artifact_export, write_artifact_to_output,
      read_artifact_file, artifact_import, session_exists, artifacts_list, hii_set_form_visibility,
      hii_list_forms, hii_list_varstores, hii_form_tree, hii_list_strings, image_save, hii_gates_list,
      hii_unlock, hii_question_info, hii_list_questions, hii_set_value, hii_get_value, hii_form_set_add,
      hii_form_add, hii_form_export, hii_form_hijack, hii_question_add, hii_page_add, tse_report, tse_unhide,
      nvar_list, nvar_set,
      image_snapshot_create, read_image_file, store_snapshot_file, image_snapshots_list,
      image_snapshot_restore, read_snapshot_file; safe_steps.
Qed.

Lemma safe_job j : safe tables_ok (job dbg dbg_str depth cwd pwd data_dir ttl_secs purge_artifacts j).
Proof. destruct j; cbn [job]; [apply safe_handle|unfold gc_tick; safe_steps]. Qed.

(** C8. However the steps of any requests and ticks of the collector interleave, and
    whatever calls of the system fail in between, the primary keys of the tables stay
    unique, and every artifact and image keeps its session and every snapshot its image. *)
Theorem tables_consistent jobs s w :
  db_ok (db w) ->
  db_ok (db (fst (schedule s (map (job dbg dbg_str depth cwd pwd data_dir ttl_secs purge_artifacts) jobs) w))).
Proof.
  intros Hw. apply (schedule_safe tables_ok); [done|]. apply Forall_fmap, Forall_true. intros j. apply safe_job.
Qed.
End Interleavings.
