(* ===== verification/StoredFacts.v ===== *)
(** The stored images: each image and each snapshot of the tables has its file, and the
    file parses, in every state between two requests, whatever calls of the system fail
    and wherever the process ends. *)
From stdpp Require Import gmap sorting.
From S2P Require Import Prelude Text Types Ffs Tiano Codec Listing Parser Target Ops Nvar NvarStores.
From S2P Require Import Hii Values Ifr Gates StringPack PeResource ImageStrings ImageGates ImageValues.
From S2P Require Import Storage Listing ImageParser Builder Server StorageFacts ServerFacts.

Section Stored.
Context {GL : GuidLib} {LL : LzmaLib} {LC : Lowercase} {RH : RefiHii} {OP : ObjectPe}.
Context (depth : nat) (cwd : path) (data_dir : ustring).

(** ** The invariant *)

Definition im_keys (d : Db) : list (ustring * ustring) := (fun r => (im_id r, im_session_id r)) <$> images d.
Definition sn_keys (d : Db) : list (ustring * ustring) := (fun r => (sn_id r, sn_image_id r)) <$> image_snapshots d.

Definition parses (b : list byte) : Prop := exists r, parse_root depth b = Ok r.
Definition has_file (d : files) (p : path) : Prop := exists b, file_at d p = Some b /\ parses b.

Record sound (w : World) : Prop := {
  so_db : db_ok (db w);
  so_sessions : forall s, s ∈ se_id <$> sessions (db w) -> plain s;
  so_images : forall i s, (i, s) ∈ im_keys (db w) -> plain i /\ plain s;
  so_snapshots : forall n i, (n, i) ∈ sn_keys (db w) -> plain n;
  so_cache : forall k img, cache w !! k = Some img ->
    plain k /\ plain (session_id img) /\ image_id img = k /\
    (forall s, (k, s) ∈ im_keys (db w) -> s = session_id img);
  so_stored : forall i s, (i, s) ∈ im_keys (db w) -> has_file (disk w) (image_at cwd data_dir s i);
  so_snaps : forall n i s, (n, i) ∈ sn_keys (db w) -> (i, s) ∈ im_keys (db w) ->
    has_file (disk w) (snapshot_at cwd data_dir s i n)
}.

(** The snapshot [n], as long as it exists, has the bytes [b]. *)
Context (n0 : ustring) (b0 : list byte).
Definition snapshot_kept (w : World) : Prop := forall i s,
  (n0, i) ∈ sn_keys (db w) -> (i, s) ∈ im_keys (db w) ->
  file_at (disk w) (snapshot_at cwd data_dir s i n0) = Some b0.
Definition Inv (w : World) : Prop := sound w /\ snapshot_kept w.

(** A uuid is one component of a path and occurs nowhere yet. *)
Definition fresh (i : Input) (w : World) : Prop :=
  plain (i_uuid i) /\ i_uuid i <> n0 /\ (i_uuid i ∉ im_id <$> images (db w)) /\
  cache w !! i_uuid i = None /\ (i_uuid i ∉ sn_id <$> image_snapshots (db w)).

Lemma im_keys_id i s d : (i, s) ∈ im_keys d -> i ∈ im_id <$> images d.
Proof. intros (r & [= -> ->] & Hr)%list_elem_of_fmap. by apply list_elem_of_fmap_2. Qed.
Lemma im_keys_row r d : r ∈ images d -> (im_id r, im_session_id r) ∈ im_keys d.
Proof. intros Hr. by apply (list_elem_of_fmap_2 (fun r => (im_id r, im_session_id r))). Qed.
Lemma im_keys_fun d i s s' : db_ok d -> (i, s) ∈ im_keys d -> (i, s') ∈ im_keys d -> s = s'.
Proof.
  intros Hd (r & [= -> ->] & Hr)%list_elem_of_fmap (r' & [= He ->] & Hr')%list_elem_of_fmap.
  pose proof (find_row_unique _ _ _ r (ok_images _ Hd) Hr He) as H1.
  pose proof (find_row_unique _ _ _ r' (ok_images _ Hd) Hr' eq_refl) as H2. congruence.
Qed.
Lemma sn_keys_image d n i : db_ok d -> (n, i) ∈ sn_keys d -> i ∈ im_id <$> images d.
Proof. intros Hd (r & [= -> ->] & Hr)%list_elem_of_fmap. by apply (ok_snapshot_image _ Hd). Qed.

(** What happens to a file that no row of the tables needs does not matter. *)
Inductive guarded (w : World) : path -> Prop :=
| guarded_image i s : (i, s) ∈ im_keys (db w) -> guarded w (image_at cwd data_dir s i)
| guarded_snapshot n i s : (n, i) ∈ sn_keys (db w) -> (i, s) ∈ im_keys (db w) ->
    guarded w (snapshot_at cwd data_dir s i n).

Lemma Inv_disk w d :
  Inv w -> (forall p, guarded w p -> file_at d p = file_at (disk w) p) -> Inv (with_disk d w).
Proof.
  intros [[] Hk] Hg. split; [split; cbn; try done|].
  - intros i s Hi. unfold has_file. rewrite Hg by by constructor. by apply so_stored0.
  - intros n i s Hn Hi. unfold has_file. rewrite Hg by by constructor. by apply so_snaps0.
  - intros i s Hn Hi. cbn. rewrite Hg by by constructor. by apply Hk.
Qed.
Lemma Inv_kept w S d : Inv w -> (forall p, guarded w p -> p ∉ S) -> kept S (disk w) d -> Inv (with_disk d w).
Proof. intros Hi Hg Hk. apply Inv_disk; [done|]. intros p Hp. by apply Hk, Hg. Qed.

(** Statements that add no image and no snapshot. *)
Lemma Inv_db w d :
  Inv w -> db_ok d -> (forall s, s ∈ se_id <$> sessions d -> s ∈ se_id <$> sessions (db w) \/ plain s) ->
  im_keys d ⊆ im_keys (db w) -> sn_keys d ⊆ sn_keys (db w) -> Inv (with_db d w).
Proof.
  intros [[] Hk] Hd Hs Hi Hn. split; [split; cbn|].
  - done.
  - intros s [Hx|Hx]%Hs; auto.
  - eauto.
  - eauto.
  - intros k img Hc. destruct (so_cache0 k img Hc) as (H1 & H2 & H3 & H4). split_and!; auto.
  - eauto.
  - eauto.
  - intros i s Hx Hy. apply Hk; auto.
Qed.

Lemma Inv_cache_insert w k img :
  Inv w -> plain k -> plain (session_id img) -> image_id img = k ->
  (forall s, (k, s) ∈ im_keys (db w) -> s = session_id img) ->
  Inv (with_cache (<[k := img]> (cache w)) w).
Proof.
  intros [[] Hk] H1 H2 H3 H4. split; [split; cbn; try done|done].
  intros k' img'. rewrite lookup_insert. case_decide; [|apply so_cache0]. intros [= <-]. subst k'. done.
Qed.
Lemma Inv_cache_delete w k : Inv w -> Inv (with_cache (delete k (cache w)) w).
Proof.
  intros [[] Hk]. split; [split; cbn; try done|done].
  intros k' img'. rewrite lookup_delete. case_decide; [done|apply so_cache0].
Qed.
Lemma Inv_restart w : Inv w -> Inv (restart w).
Proof. intros [[] Hk]. split; [split; cbn; try done|done]. Qed.

Lemma with_same w : with_db (db w) w = w /\ with_disk (disk w) w = w /\ with_cache (cache w) w = w.
Proof. by destruct w. Qed.

(** A new image with its stored file. *)
Lemma Inv_insert_image w id s n p m z now d :
  Inv w -> insert_image id s n p m z now (db w) = Ok d -> plain id -> cache w !! id = None ->
  has_file (disk w) (image_at cwd data_dir s id) -> Inv (with_db d w).
Proof.
  intros [[] Hk] Hins Hid Hc Hf. pose proof (insert_image_ok _ _ _ _ _ _ _ _ _ Hins so_db0) as Hd.
  unfold insert_image in Hins. ok_inv.
  match goal with H : insert_row _ _ _ _ = _ |- _ => apply insert_row_ok in H as (-> & Hs%has_row_elem & Hnew) end.
  cbn in Hnew.
  assert (forall i s', (i, s') ∈ im_keys (db w) \/ (i = id /\ s' = s) <->
    (i, s') ∈ (fun r => (im_id r, im_session_id r)) <$> images (db w) ++
      [{| im_id := id; im_session_id := s; im_name := n; im_path := p; im_mode := m; im_size := z;
          im_created_at := now; im_last_activity := now |}]) as Hkeys.
  { intros i s'. rewrite fmap_app, elem_of_app. cbn. rewrite elem_of_cons, elem_of_nil.
    split; [intros [?|[-> ->]]; auto|intros [?|[[= -> ->]|[]]]; auto]. }
  assert (forall n' i, (n', i) ∈ sn_keys (db w) -> i <> id) as Hsn.
  { intros n' i Hx ->. apply Hnew. by eapply sn_keys_image. }
  split; [split; cbn|].
  - done.
  - done.
  - intros i s' [Hx|[-> ->]]%Hkeys; [eauto|]. auto.
  - done.
  - intros k img Hci. destruct (so_cache0 k img Hci) as (H1 & H2 & H3 & H4). split_and!; try done.
    intros s' [Hx|[-> ->]]%Hkeys; [auto|congruence].
  - intros i s' [Hx|[-> ->]]%Hkeys; [auto|done].
  - intros n' i s' Hx [Hy|[-> ->]]%Hkeys; [auto|]. by apply Hsn in Hx.
  - intros i s' Hx [Hy|[-> ->]]%Hkeys; [auto|]. by apply Hsn in Hx.
Qed.

(** A new snapshot with its file. *)
Lemma Inv_insert_snapshot w id i s n z c d :
  Inv w -> insert_image_snapshot id i n z c (db w) = Ok d -> plain id -> id <> n0 ->
  (i, s) ∈ im_keys (db w) -> has_file (disk w) (snapshot_at cwd data_dir s i id) -> Inv (with_db d w).
Proof.
  intros [[] Hk] Hins Hid Hn0 Hi Hf. pose proof (insert_image_snapshot_ok _ _ _ _ _ _ _ Hins so_db0) as Hd.
  unfold insert_image_snapshot in Hins. ok_inv.
  match goal with H : insert_row _ _ _ _ = _ |- _ => apply insert_row_ok in H as (-> & _ & Hnew) end.
  assert (forall n' i', (n', i') ∈ sn_keys (db w) \/ (n' = id /\ i' = i) <->
    (n', i') ∈ (fun r => (sn_id r, sn_image_id r)) <$> image_snapshots (db w) ++
      [{| sn_id := id; sn_image_id := i; sn_name := n; sn_size := z; sn_created_at := c |}]) as Hkeys.
  { intros n' i'. rewrite fmap_app, elem_of_app. cbn. rewrite elem_of_cons, elem_of_nil.
    split; [intros [?|[-> ->]]; auto|intros [?|[[= -> ->]|[]]]; auto]. }
  split; [split; cbn; try done|].
  - intros n' i' [Hx|[-> ->]]%Hkeys; eauto.
  - intros n' i' s' [Hx|[-> ->]]%Hkeys Hy; [auto|]. by rewrite (im_keys_fun _ _ _ _ so_db0 Hy Hi).
  - intros i' s' [Hx|[Hx ->]]%Hkeys Hy; [auto|]. congruence.
Qed.

(** ** Rules for the invariant *)

(** From [w] on, the invariant holds in every state; a result satisfies [P]. *)
Definition spec {E A} (p : prog E A) (P : A -> World -> Prop) (w : World) : Prop :=
  wp fresh Inv p (fun o w' => Inv w' /\ match o with Ok a => P a w' | _ => True end) w.

Lemma spec_weaken {E A} (p : prog E A) (P P' : A -> World -> Prop) w :
  (forall a w, Inv w -> P a w -> P' a w) -> spec p P w -> spec p P' w.
Proof. intros H. apply wp_mono. intros [a|e| |] w' [Hi Ha]; auto. Qed.
Lemma pspec_bind {E A B} (p : prog E A) (k : A -> prog E B) P Q w :
  spec p P w -> (forall a w', Inv w' -> P a w' -> spec (k a) Q w') -> spec (p ≫= k) Q w.
Proof.
  intros Hp Hk. apply wp_bind. eapply wp_mono; [|exact Hp]. intros [a|e| |] w' [Hi Ha]; try done. by apply Hk.
Qed.
Lemma spec_on_error {E F A} (g : E -> outcome F A) (p : prog E A) P w :
  (forall e w', Inv w' -> match g e with Ok a => P a w' | _ => True end) -> spec p P w -> spec (on_error g p) P w.
Proof.
  intros Hg Hp. apply wp_on_error. eapply wp_mono; [|exact Hp]. intros [a|e| |] w' [Hi Ha]; try done.
  split; [done|]. by apply Hg.
Qed.
Lemma spec_map_err {E F A} (g : E -> F) (p : prog E A) P w : spec p P w -> spec (prog_map_err g p) P w.
Proof. by apply spec_on_error. Qed.
Lemma spec_or_internal {A} (p : prog Anyhow A) P w : spec p P w -> spec (or_internal p) P w.
Proof. apply spec_map_err. Qed.
Lemma spec_ignore {E F} (p : prog E unit) P w : spec p P w -> spec (@ignore _ E F p) (fun _ _ => True) w.
Proof. intros H. apply spec_on_error; [done|]. by eapply spec_weaken; [|exact H]. Qed.
Lemma pspec_ret {E A} (a : A) (P : A -> World -> Prop) w : Inv w -> P a w -> spec (E := E) (mret a) P w.
Proof. by split. Qed.
Lemma spec_done {E A} (o : outcome E A) (P : A -> World -> Prop) w :
  Inv w -> (forall a, o = Ok a -> P a w) -> spec (Done o) P w.
Proof. intros Hi H. split; [done|]. destruct o; auto. Qed.
Lemma spec_step {E A} (f : Input -> World -> World * outcome E A) P w :
  (forall i, fresh i w -> Inv (fst (f i w)) /\ forall a, snd (f i w) = Ok a -> P a (fst (f i w))) ->
  spec (step f) P w.
Proof.
  intros H. apply wp_step. intros i Hi. destruct (H i Hi) as [H1 H2]. split_and!; [done..|].
  destruct (snd (f i w)); auto.
Qed.
Lemma spec_pure {E A} (f : Input -> World -> outcome E A) P w :
  Inv w -> (forall i a, fresh i w -> f i w = Ok a -> P a w) -> spec (step (fun i w => (w, f i w))) P w.
Proof. intros Hw H. apply spec_step. intros i Hi. split; [done|]. eauto. Qed.
Lemma spec_each {E A} (f : A -> prog E unit) l w :
  (forall a w, a ∈ l -> Inv w -> spec (f a) (fun _ _ => True) w) -> Inv w ->
  spec (prog_each f l) (fun _ _ => True) w.
Proof.
  revert w. induction l as [|a l IH]; intros w H Hw; cbn [prog_each]; [by apply pspec_ret|].
  eapply pspec_bind; [apply H; [by left|done]|]. intros _ w' Hw' _. apply IH; [|done]. intros b w1 Hb. apply H. by right.
Qed.

(** *** Calls of the system *)

Lemma spec_query {A} (q : Z -> Db -> A) w :
  Inv w -> spec (query q) (fun a w' => w' = w /\ exists now, a = q now (db w)) w.
Proof.
  intros Hw. apply spec_step. intros i _. cbn. destruct (with_same w) as (-> & _). split; [done|].
  destruct (fault 0 i); intros a [= <-]. eauto.
Qed.
Lemma spec_statement st w :
  Inv w -> (forall now d, st now (db w) = Ok d -> Inv (with_db d w)) ->
  spec (statement st) (fun _ w' => exists now d, st now (db w) = Ok d /\ w' = with_db d w) w.
Proof.
  intros Hw H. apply spec_step. intros i _. cbn. unfold execute.
  destruct (fault 0 i); cbn; [by destruct (with_same w) as (-> & _)|].
  destruct (st (i_now i) (db w)) as [d|e| |] eqn:Hst; cbn; try by destruct (with_same w) as (-> & _).
  split; [eauto|]. intros [] _. eauto.
Qed.
Lemma spec_on_disk {A} (f : option Fault -> io A) P w :
  (forall fl, Inv (with_disk (fst (f fl (disk w))) w) /\
     forall a, snd (f fl (disk w)) = Ok a -> P a (with_disk (fst (f fl (disk w))) w)) ->
  spec (on_disk f) P w.
Proof.
  intros H. apply spec_step. intros i _. specialize (H (fault 0 i)). destruct (f (fault 0 i) (disk w)) as [d o].
  destruct H as [H1 H2]. split; [done|]. cbn. destruct o; try done. intros ? [= <-]. auto.
Qed.
Lemma spec_mkdir p w :
  Inv w -> spec (on_disk (fun f => fs_create_dir_all f p)) (fun _ w' => exists d, w' = with_disk d w /\ kept [] (disk w) d) w.
Proof.
  intros Hw. apply spec_on_disk. intros fl. pose proof (create_dir_all_kept fl p (disk w)) as Hk. split; eauto.
  eapply Inv_kept; [done| |exact Hk]. set_solver.
Qed.
(** Writing to a file that no row needs. *)
Lemma spec_write p b w :
  Inv w -> ~ guarded w p ->
  spec (on_disk (fun f => fs_write f p b)) (fun _ w' => w' = with_disk (<[p := File b]> (disk w)) w) w.
Proof.
  intros Hw Hp. apply spec_on_disk. intros fl. split.
  - eapply Inv_kept; [done| |apply write_kept]. intros q Hq Hin%list_elem_of_singleton. by subst.
  - intros [] H. destruct (fs_write fl p b (disk w)) as [d o] eqn:Hf. cbn in *. subst o.
    by apply write_ok in Hf as ->.
Qed.
Lemma spec_read p w :
  Inv w -> spec (on_disk (fun f => fs_read f p)) (fun b w' => w' = w /\ file_at (disk w) p = Some b) w.
Proof.
  intros Hw. apply spec_on_disk. intros fl. rewrite read_kept. destruct (with_same w) as (_ & -> & _). split; [done|].
  intros b Hb. split; [done|]. by eapply read_ok.
Qed.

(** What a file is replaced with must parse when a row needs the file. *)
Lemma spec_atomic_write s b w p t :
  Inv w -> at_path cwd s = p -> at_path cwd (with_extension s (us "bin.tmp")) = t -> p <> t -> ~ guarded w t ->
  (forall d, kept [p; t] (disk w) d -> file_at d p = Some b -> Inv (with_disk d w)) ->
  spec (atomic_write cwd s b)
    (fun _ w' => exists d, w' = with_disk d w /\ kept [p; t] (disk w) d /\ file_at d p = Some b) w.
Proof.
  intros Hw Hp Ht Hne Hg Hok. apply (wp_atomic_write _ _ _ _ _ _ _ p t); [done..| |].
  - intros d Hk. assert (Inv (with_disk d w)) as Hi; [|done].
    eapply Inv_kept; [done| |exact Hk]. intros q Hq Hin%list_elem_of_singleton. by subst q.
  - intros d Hk Hf. split_and!; eauto 10.
Qed.

(** *** The files of the storage *)

Lemma not_guarded_image_tmp w s i : Inv w -> plain i -> ~ guarded w (image_tmp_at cwd data_dir s i).
Proof.
  intros [[] _] Hi Hg. remember (image_tmp_at cwd data_dir s i) as p eqn:Hp. destruct Hg as [i' s' H|n i' s' Hn H].
  - eapply image_tmp_ne; [| |exact Hp]; [by apply (so_images0 _ _ H)|done].
  - by apply snapshot_image_tmp_ne in Hp.
Qed.
Lemma not_guarded_snapshot_tmp w s i n : Inv w -> plain n -> ~ guarded w (snapshot_tmp_at cwd data_dir s i n).
Proof.
  intros [[] _] Hn Hg. remember (snapshot_tmp_at cwd data_dir s i n) as p eqn:Hp. destruct Hg as [i' s' H|n' i' s' Hn' H].
  - by apply image_snapshot_tmp_ne in Hp.
  - eapply snapshot_tmp_ne; [| |exact Hp]; [by apply (so_snapshots0 _ _ Hn')|done].
Qed.
Lemma not_guarded_artifact w s a : ~ guarded w (artifact_at cwd data_dir s a).
Proof.
  intros Hg. remember (artifact_at cwd data_dir s a) as p eqn:Hp. destruct Hg.
  - by apply image_artifact_ne in Hp.
  - by apply snapshot_artifact_ne in Hp.
Qed.
Lemma not_guarded_new_image w s i : Inv w -> plain i -> (i ∉ im_id <$> images (db w)) -> ~ guarded w (image_at cwd data_dir s i).
Proof.
  intros [[] _] Hi Hn Hg. remember (image_at cwd data_dir s i) as p eqn:Hp. destruct Hg as [i' s' H|n' i' s' Hn' H].
  - apply image_at_inj in Hp as [-> ->]; [|by apply (so_images0 _ _ H)|done]. apply Hn. by eapply im_keys_id.
  - symmetry in Hp. by apply image_snapshot_ne in Hp.
Qed.
Lemma not_guarded_new_snapshot w s i n :
  Inv w -> plain i -> plain n -> (n ∉ sn_id <$> image_snapshots (db w)) -> ~ guarded w (snapshot_at cwd data_dir s i n).
Proof.
  intros [[] _] Hi Hpn Hn Hg. remember (snapshot_at cwd data_dir s i n) as p eqn:Hp. destruct Hg as [i' s' H|n' i' s' Hn' H].
  - by apply image_snapshot_ne in Hp.
  - apply snapshot_at_inj in Hp as (-> & -> & ->); [|by apply (so_images0 _ _ H)|done|by apply (so_snapshots0 _ _ Hn')|done].
    apply Hn. apply list_elem_of_fmap in Hn' as (r & [= -> ->] & Hr). by apply list_elem_of_fmap_2.
Qed.
Lemma guarded_data w p : guarded w p -> data_path cwd data_dir `prefix_of` p.
Proof. intros []; unfold image_at, snapshot_at; by eexists. Qed.

(** The file of an image is replaced with one that parses. *)
Lemma Inv_replace_image w s i b d :
  Inv w -> plain i -> parses b ->
  kept [image_at cwd data_dir s i; image_tmp_at cwd data_dir s i] (disk w) d ->
  file_at d (image_at cwd data_dir s i) = Some b -> Inv (with_disk d w).
Proof.
  intros Hw Hpi Hb Hk Hf. pose proof Hw as [[] Hkeep].
  assert (forall p, guarded w p -> p <> image_at cwd data_dir s i -> file_at d p = file_at (disk w) p) as Hrest.
  { intros p Hp Hne. apply Hk. intros [->|[->|H%elem_of_nil]%elem_of_cons]%elem_of_cons; try done.
    by apply (not_guarded_image_tmp w s i). }
  assert (forall n i' s', (n, i') ∈ sn_keys (db w) -> (i', s') ∈ im_keys (db w) ->
    file_at d (snapshot_at cwd data_dir s' i' n) = file_at (disk w) (snapshot_at cwd data_dir s' i' n)) as Hsn.
  { intros n i' s' Hn Hi'. apply Hrest; [by constructor|]. intros H. by apply (eq_sym), image_snapshot_ne in H. }
  split; [split; cbn; try done|].
  - intros i' s' Hi'. destruct (decide (image_at cwd data_dir s' i' = image_at cwd data_dir s i)) as [->|Hne].
    + by exists b.
    + unfold has_file. rewrite Hrest by (done || by constructor). by apply so_stored0.
  - intros n i' s' Hn Hi'. unfold has_file. rewrite Hsn by done. by apply so_snaps0.
  - intros i' s' Hn Hi'. cbn. rewrite Hsn by done. by apply Hkeep.
Qed.

(** After a file was replaced, only the files changed. *)
Definition replaced (w : World) (p : path) (b : list byte) (w' : World) : Prop :=
  exists d, w' = with_disk d w /\ file_at d p = Some b.

Lemma spec_replace_image w s i b :
  Inv w -> plain s -> plain i -> parses b ->
  spec (atomic_write cwd (image_file data_dir s i) b)
    (fun _ => replaced w (image_at cwd data_dir s i) b) w.
Proof.
  intros Hw Hs Hi Hb. eapply spec_weaken; [|apply (spec_atomic_write _ _ _ (image_at cwd data_dir s i) (image_tmp_at cwd data_dir s i))].
  - intros _ w' _ (d & -> & _ & Hf). by exists d.
  - done.
  - by apply at_image_file.
  - by apply at_image_tmp.
  - by apply image_tmp_ne.
  - by apply not_guarded_image_tmp.
  - intros d Hk Hf. by eapply Inv_replace_image.
Qed.

Lemma spec_store_image w s i b :
  Inv w -> plain s -> plain i -> parses b -> spec (store_image_file cwd data_dir s i b)
    (fun _ => replaced w (image_at cwd data_dir s i) b) w.
Proof.
  intros Hw Hs Hi Hb. unfold store_image_file. eapply pspec_bind; [by apply spec_mkdir|].
  intros _ w1 Hw1 (d1 & -> & Hk1). eapply pspec_bind; [by apply spec_replace_image|].
  intros _ w2 Hw2 (d2 & -> & Hf). apply pspec_ret; [done|]. by exists d2.
Qed.

Lemma spec_store_snapshot w s i n b :
  Inv w -> plain s -> plain i -> plain n -> (n ∉ sn_id <$> image_snapshots (db w)) ->
  spec (store_snapshot_file cwd data_dir s i n b)
    (fun _ => replaced w (snapshot_at cwd data_dir s i n) b) w.
Proof.
  intros Hw Hs Hi Hn Hnew. unfold store_snapshot_file. eapply pspec_bind; [by apply spec_mkdir|].
  intros _ w1 Hw1 (d1 & -> & Hk1).
  eapply spec_weaken; [|apply (spec_atomic_write _ _ _ (snapshot_at cwd data_dir s i n) (snapshot_tmp_at cwd data_dir s i n))].
  - intros _ w' _ (d & -> & _ & Hf). by exists d.
  - done.
  - by apply at_snapshot_file.
  - by apply at_snapshot_tmp.
  - by apply snapshot_tmp_ne.
  - by apply not_guarded_snapshot_tmp.
  - intros d Hk _. eapply Inv_kept; [done| |exact Hk].
    intros p Hg [->|[->|H%elem_of_nil]%elem_of_cons]%elem_of_cons; [| |done].
    + by apply (not_guarded_new_snapshot (with_disk d1 w) s i n) in Hg.
    + by apply (not_guarded_snapshot_tmp (with_disk d1 w) s i n) in Hg.
Qed.

Lemma spec_store_artifact w s a b :
  Inv w -> plain s -> plain a -> spec (store_artifact_file cwd data_dir s a b) (fun _ _ => True) w.
Proof.
  intros Hw Hs Ha. unfold store_artifact_file. eapply pspec_bind; [by apply spec_mkdir|].
  intros _ w1 Hw1 (d1 & -> & Hk1). eapply pspec_bind.
  - apply spec_write; [done|]. rewrite at_artifact_file by done. apply not_guarded_artifact.
  - intros _ w2 Hw2 ->. by apply pspec_ret.
Qed.

(** Reading leaves the state. *)
Definition reads {E A} (p : prog E A) : Prop := forall w, Inv w -> spec p (fun _ w' => w' = w) w.
Lemma reads_disk p : reads (on_disk (fun f => fs_read f p)).
Proof. intros w Hw. eapply spec_weaken; [|by apply spec_read]. by intros ? ? _ [? _]. Qed.

End Stored.
