(* ===== verification/RequestFacts.v ===== *)
(** The handlers of the service keep the stored images ([StoredFacts]); what each request
    that changes an image leaves on the disk and in memory. *)
From stdpp Require Import gmap sorting.
From S2P Require Import Prelude Text Types Ffs Tiano Codec Listing Parser Target Ops Nvar NvarStores.
From S2P Require Import Hii Values Ifr Gates StringPack Schema Spf PeResource ImageStrings ImageGates ImageValues.
From S2P Require Import Channels SetupAdd QuestionAdd Hijack Tse FormExport.
From S2P Require Import Storage Listing ImageParser Builder Server StorageFacts ServerFacts StoredFacts.

(** ** Operations on an image change its tree only *)

Section OnlyRoot.
Context {GL : GuidLib} {RH : RefiHii} {OP : ObjectPe}.

Definition only_root (img img' : Image) : Prop := img' = with_root (root img') img.
Definition act_root {A} (m : act A) : Prop := forall img, only_root img (fst (m img)).

#[export] Instance only_root_preorder : PreOrder only_root.
Proof.
  split.
  - by intros [].
  - intros [] [] [] H1 H2. unfold only_root, with_root in *. cbn in *. congruence.
Qed.
Lemma root_bind {A B} (m : act A) (k : A -> act B) : act_root m -> (forall a, act_root (k a)) -> act_root (act_bind m k).
Proof.
  intros Hm Hk img. unfold act_bind. specialize (Hm img). destruct (m img) as [img' [a|e| |]]; try done.
  etransitivity; [exact Hm|apply Hk].
Qed.
Lemma root_of {A} (o : outcome HiiError A) : act_root (act_of o).
Proof. by intros []. Qed.
Lemma root_get : act_root ImageGates.get_image.
Proof. by intros []. Qed.
Lemma root_set r : act_root (set_root r).
Proof. by intros []. Qed.
Lemma root_fold {A S} (f : S -> A -> act S) l s : (forall s a, act_root (f s a)) -> act_root (act_fold f l s).
Proof. intros Hf. revert s. induction l as [|a l IH]; intros s; cbn [act_fold]; [apply root_of|]. by apply root_bind. Qed.
Lemma root_rollback {A} (m : act A) : act_root m -> act_root (with_rollback m).
Proof.
  intros Hm img. unfold with_rollback. specialize (Hm img). destruct (m img) as [img' [a|e| |]]; try done.
  cbn in *. unfold only_root in *. rewrite Hm. by destruct img.
Qed.

Ltac act_steps :=
  repeat match goal with
  | |- act_root (act_bind _ _) => apply root_bind; [|intros]
  | |- act_root (act_of _) => apply root_of
  | |- act_root (act_err _) => apply root_of
  | |- act_root (act_ret _) => apply root_of
  | |- act_root ImageGates.get_image => apply root_get
  | |- act_root (set_root _) => apply root_set
  | |- act_root (with_rollback _) => apply root_rollback
  | |- act_root (act_fold _ _ _) => apply root_fold; intros
  | |- act_root (match ?x with _ => _ end) => destruct x
  end.

Lemma set_item_visibility_root id v : act_root (set_item_visibility id v).
Proof. unfold set_item_visibility. act_steps. Qed.
Lemma unlock_root dbg id : act_root (unlock dbg id).
Proof.
  unfold unlock, unlock_own, apply_cross_formset_gates, unlock_site, flip_node. act_steps.
Qed.
Lemma set_value_root dbg_str id v : act_root (set_value dbg_str id v).
Proof. unfold set_value. act_steps. Qed.

Lemma edit_body_root {A} p (f : list byte -> outcome HiiError (list byte * A)) : act_root (edit_body p f).
Proof. unfold edit_body. act_steps. Qed.
Lemma edit_item_root {A} t (f : list byte -> outcome HiiError (list byte * A)) : act_root (edit_item t f).
Proof. unfold edit_item. act_steps. apply edit_body_root. Qed.
Lemma mark_root p : act_root (Channels.mark p).
Proof. unfold Channels.mark. act_steps. Qed.
Create HintDb root.
#[local] Hint Resolve edit_body_root edit_item_root mark_root : root.
Ltac setup_steps := repeat progress (act_steps; auto with root nocore).
Lemma add_strings_root g ss : act_root (Channels.add_strings g ss).
Proof. unfold Channels.add_strings. setup_steps. Qed.
#[local] Hint Resolve add_strings_root : root.
Lemma target_strings_root t p b ss : act_root (add_target_strings t p b ss).
Proof. unfold add_target_strings. setup_steps. Qed.
Lemma patch_ami_root g ids qs sd am : act_root (patch_ami g ids qs sd am).
Proof. unfold patch_ami. setup_steps. Qed.
#[local] Hint Resolve target_strings_root patch_ami_root : root.
Lemma add_setup_formset_root ge sch g : act_root (add_setup_formset ge sch g).
Proof. unfold add_setup_formset, add_formset_file, add_formset_package. setup_steps. Qed.
Lemma add_form_root ge item sch : act_root (add_form ge item sch).
Proof. unfold add_form. setup_steps. Qed.
Lemma add_question_root item sch : act_root (add_question item sch).
Proof. unfold add_question, splice_into_target. setup_steps. Qed.
Lemma add_ref_root item sch : act_root (add_ref item sch).
Proof. unfold add_ref, splice_into_target. setup_steps. Qed.
Lemma add_varstores_root item vs : act_root (add_varstores item vs).
Proof. unfold add_varstores. setup_steps. Qed.
Lemma add_page_root item sch : act_root (add_page item sch).
Proof. unfold add_page. setup_steps. Qed.
#[local] Hint Resolve add_question_root add_ref_root add_varstores_root : root.
Lemma add_questions_root t sch : act_root (add_questions t sch).
Proof. unfold add_questions. setup_steps. Qed.
Lemma hijack_form_root dbg item h sd : act_root (hijack_form dbg item h sd).
Proof. unfold hijack_form, edit_package, apply_hijack_ifr, repoint_help. setup_steps. Qed.
Lemma tse_unhide_root ge g f o : act_root (Tse.tse_unhide ge g f o).
Proof. unfold Tse.tse_unhide. setup_steps. Qed.
End OnlyRoot.

Section Requests.
Context {GL : GuidLib} {LL : LzmaLib} {LC : Lowercase} {RH : RefiHii} {OP : ObjectPe} {ST : SchemaText}.
Context (dbg : Wraps -> ustring) (dbg_str : ustring -> ustring).
Context (depth : nat) (cwd : path) (pwd data_dir : ustring) (ttl_secs : Z) (purge_artifacts : bool).
Context (n0 : ustring) (b0 : list byte).
Abbreviation Inv := (Inv depth cwd data_dir n0 b0).
Abbreviation spec := (spec depth cwd data_dir n0 b0).
Abbreviation image_path := (image_at cwd data_dir).
Abbreviation parse := (parse_image depth).

(** ** Statements *)

Lemma others_sub {R} (key : R -> ustring) k l : others key k l ⊆ l.
Proof. apply filter_sub. Qed.
Lemma keys_sub {R K} (f : R -> K) (l l' : list R) : l ⊆ l' -> f <$> l ⊆ f <$> l'.
Proof. intros H x (r & -> & Hr)%list_elem_of_fmap. by apply list_elem_of_fmap_2, H. Qed.
Lemma update_rows_sub {R K} (key : R -> ustring) (f : R -> R) (g : R -> K) k l :
  (forall r, g (f r) = g r) -> g <$> update_rows key k f l ⊆ g <$> l.
Proof.
  intros Hf x (r & -> & Hr)%list_elem_of_fmap. apply list_elem_of_fmap in Hr as (r' & -> & Hr').
  destruct (is_id key k r'); [rewrite Hf|]; by apply list_elem_of_fmap_2.
Qed.

Ltac by_keys :=
  intros Hw; apply (Inv_db _ _ _ _ _ _ _ Hw); cbn; unfold im_keys, sn_keys; cbn;
    auto using filter_sub, keys_sub, others_sub with tables.

Lemma Inv_touch_session id now w : Inv w -> Inv (with_db (touch_session id now (db w)) w).
Proof.
  by_keys.
  - apply touch_session_ok, Hw.
  - intros s Hs. left. by eapply (update_rows_sub se_id); [|exact Hs].
Qed.
Lemma Inv_touch_image id now w : Inv w -> Inv (with_db (touch_image id now (db w)) w).
Proof.
  by_keys.
  - apply touch_image_ok, Hw.
  - by apply (update_rows_sub im_id).
Qed.
Lemma Inv_delete_image id w : Inv w -> Inv (with_db (delete_image id (db w)) w).
Proof. by_keys. apply delete_image_ok, Hw. Qed.
Lemma Inv_delete_session_row id w : Inv w -> Inv (with_db (delete_session_row id (db w)) w).
Proof.
  by_keys.
  - apply delete_session_row_ok, Hw.
  - intros s Hs. left. by eapply (keys_sub se_id); [apply others_sub|].
Qed.
Lemma Inv_delete_artifacts id w : Inv w -> Inv (with_db (delete_artifacts_for_session id (db w)) w).
Proof. by_keys. apply delete_artifacts_ok, Hw. Qed.
Lemma Inv_insert_session id t n now d w :
  Inv w -> plain id -> insert_session id t n now (db w) = Ok d -> Inv (with_db d w).
Proof.
  intros Hw Hid H. pose proof (insert_session_ok _ _ _ _ _ _ H (so_db _ _ _ _ (proj1 Hw))) as Hd.
  unfold insert_session in H. ok_inv.
  match goal with H : insert_row _ _ _ _ = _ |- _ => apply insert_row_ok in H as (-> & _ & _) end.
  apply (Inv_db _ _ _ _ _ _ _ Hw); try done. cbn. intros s. rewrite fmap_app, elem_of_app. cbn.
  intros [?|[->|H%elem_of_nil]%elem_of_cons]; auto; done.
Qed.
Lemma Inv_insert_artifact id s k p z src now d w :
  Inv w -> insert_artifact id s k p z src now (db w) = Ok d -> Inv (with_db d w).
Proof.
  intros Hw H. pose proof (insert_artifact_ok _ _ _ _ _ _ _ _ _ H (so_db _ _ _ _ (proj1 Hw))) as Hd.
  unfold insert_artifact in H. ok_inv. apply (Inv_db _ _ _ _ _ _ _ Hw); auto; done.
Qed.

Lemma spec_quiet_statement st w :
  Inv w -> (forall now d, st now (db w) = Ok d -> Inv (with_db d w)) ->
  spec (statement st) (fun _ w' => disk w' = disk w /\ cache w' = cache w) w.
Proof.
  intros Hw H. eapply spec_weaken; [|by apply spec_statement]. by intros _ w' _ (now & d & _ & ->).
Qed.
Lemma spec_touch id w : Inv w -> spec (touch_quietly id) (fun _ w' => disk w' = disk w /\ cache w' = cache w) w.
Proof.
  intros Hw i _. unfold execute. cbn. destruct (fault 0 i); cbn.
  - by destruct (with_same w) as (-> & _).
  - split_and!; try done; by apply Inv_touch_session.
Qed.

(** ** Images in memory *)

(** The image [img] that a request on [id] in the state [w] works on, and the state after
    it was loaded. *)
Inductive loads (w : World) (id : ustring) (img : Image) : World -> Prop :=
| in_cache : cache w !! id = Some img -> loads w id img w
| from_disk row b m :
    cache w !! id = None -> row ∈ images (db w) -> im_id row = id ->
    file_at (disk w) (image_path (im_session_id row) id) = Some b ->
    parse b m id (im_session_id row) = Ok img ->
    loads w id img (with_cache (<[id := img]> (cache w)) w).

Lemma loads_cache w id img w' : loads w id img w' -> cache w' !! id = Some img /\ disk w' = disk w /\ db w' = db w.
Proof. intros []; [done|]. cbn. by rewrite lookup_insert_eq. Qed.

Lemma parse_ids b m id sid img :
  parse b m id sid = Ok img -> image_id img = id /\ session_id img = sid /\ mode img = m /\ parses depth b.
Proof.
  unfold parse_image. destruct (parse_root depth b) as [r|[]| |] eqn:H; cbn; try done.
  intros [= <-]. cbn. split_and!; try done. by exists r.
Qed.
Lemma parses_parse b m id sid :
  parses depth b -> exists img, parse b m id sid = Ok img.
Proof. intros [r H]. unfold parse_image. rewrite H. cbn. eauto. Qed.

Lemma row_key w row : Inv w -> row ∈ images (db w) -> plain (im_id row) /\ plain (im_session_id row).
Proof. intros [[] _] Hr. by apply so_images, im_keys_row. Qed.

Lemma spec_ensure id w : Inv w -> spec (ensure_image_loaded depth cwd data_dir id) (fun _ w' => exists img, loads w id img w') w.
Proof.
  intros Hw. unfold ensure_image_loaded. eapply pspec_bind.
  { apply (spec_pure _ _ _ _ _ (fun _ w => Ok (bool_decide (is_Some (cache w !! id)))) (fun a w' => w' = w /\ a = bool_decide (is_Some (cache w !! id)))); [done|].
    by intros _ a _ [= <-]. }
  intros a w1 _ [-> ->]. destruct (bool_decide_reflect (is_Some (cache w !! id))) as [[img Hc]|Hc].
  { apply pspec_ret; [done|]. exists img. by constructor. }
  apply eq_None_not_Some in Hc.
  eapply pspec_bind; [by apply spec_or_internal, spec_query|]. intros o w1 _ (-> & now & ->).
  eapply pspec_bind; [apply (spec_done _ _ _ _ _ _ (fun row w' => w' = w /\ get_image id (db w) = Some row)); [done|]|].
  { intros row. destruct (get_image id (db w)) as [row'|]; [|done]. by intros [= ->]. }
  intros row w1 _ [-> Hrow]. unfold get_image in Hrow. apply find_row_elem in Hrow as [Hrow Hid].
  destruct (row_key w row Hw Hrow) as [Hpi Hps]. rewrite Hid in Hpi.
  eapply pspec_bind; [by apply spec_or_internal, spec_read|]. intros b w1 _ [-> Hb].
  rewrite at_image_file in Hb by done.
  eapply pspec_bind; [apply (spec_done _ _ _ _ _ _ (fun img w' => w' = w /\ exists m, parse b m id (im_session_id row) = Ok img)); [done|]|].
  { intros img Himg. split; [done|]. destruct (parse b _ id (im_session_id row)) eqn:Hp; cbn in Himg; try done.
    injection Himg as ->. eauto. }
  intros img w1 _ [-> [m Himg]]. destruct (parse_ids _ _ _ _ _ Himg) as (H1 & H2 & _ & H4).
  apply spec_step. intros i _. cbn. split.
  - apply Inv_cache_insert; try done; [by rewrite H2|]. intros s Hs. rewrite H2, <- Hid in *.
    eapply im_keys_fun; [apply Hw|exact Hs|by apply im_keys_row].
  - intros _ _. exists img. eapply from_disk; done.
Qed.

Lemma spec_with_image {A} id (f : Image -> outcome Status A) w :
  Inv w -> spec (with_image id f) (fun a w' => w' = w /\ exists img, cache w !! id = Some img /\ f img = Ok a) w.
Proof.
  intros Hw. apply (spec_pure _ _ _ _ _ (fun _ w => img ← ok_or no_image (cache w !! id); f img)); [done|].
  intros _ a _. destruct (cache w !! id) as [img|]; [|done]. cbn. eauto.
Qed.

Lemma spec_load id w : Inv w -> spec (get_or_load_image depth cwd data_dir id) (fun img w' => loads w id img w') w.
Proof.
  intros Hw. unfold get_or_load_image. eapply pspec_bind; [by apply spec_ensure|]. intros _ w1 Hw1 (img & Hl).
  eapply spec_weaken; [|by apply spec_with_image]. intros img' w2 _ (-> & img'' & Hc & [= <-]).
  destruct (loads_cache _ _ _ _ Hl) as (Hc' & _). by rewrite Hc in Hc'; injection Hc' as <-.
Qed.

Lemma cache_facts w id img : Inv w -> cache w !! id = Some img ->
  plain id /\ plain (session_id img) /\ image_id img = id.
Proof. intros [[] _] H. by destruct (so_cache id img H) as (? & ? & ? & _). Qed.

Lemma Inv_cache_edit w id img img' :
  Inv w -> cache w !! id = Some img -> image_id img' = image_id img -> session_id img' = session_id img ->
  Inv (with_cache (<[id := img']> (cache w)) w).
Proof.
  intros Hw Hc H1 H2. pose proof Hw as [[] _]. destruct (so_cache id img Hc) as (Hp & Hs & Hi & Hk).
  apply Inv_cache_insert; rewrite ?H1, ?H2; done.
Qed.

Lemma spec_edit {A} id (f : Image -> Image * outcome Status A) w :
  Inv w -> (forall img, only_root img (fst (f img))) ->
  spec (edit_image id f)
    (fun a w' => exists img img', cache w !! id = Some img /\ f img = (img', Ok a) /\
                                  w' = with_cache (<[id := img']> (cache w)) w) w.
Proof.
  intros Hw Hf. apply spec_step. intros i _. destruct (cache w !! id) as [img|] eqn:Hc; [|done].
  specialize (Hf img). destruct (f img) as [img' o] eqn:He. cbn in *. split.
  - eapply Inv_cache_edit; [done..| |]; by rewrite Hf.
  - intros a ->. eauto 10.
Qed.

(** ** Flushing *)

Lemma flush_parse img b r :
  validate_flush_bytes depth img b = Ok r ->
  parse b (mode img) (image_id img) (session_id img) = Ok r /\
  count_live_files (root img) <= count_files (root r) /\
  (volume_count (root r) = 0 -> volume_count (root img) <= 0).
Proof.
  unfold validate_flush_bytes. destruct (parse b _ _ _) as [r'|e| |]; cbn; try done.
  destruct (Z.ltb_spec (count_files (root r')) (count_live_files (root img))); [done|].
  destruct (Z.eqb_spec (volume_count (root r')) 0), (Z.ltb_spec 0 (volume_count (root img))); cbn; intros [= <-];
    split_and!; try done; lia.
Qed.

(** What a flush of [img] leaves: the build output on the disk, its parse in memory. *)
Definition saved (w : World) (id : ustring) (img : Image) (w' : World) : Prop :=
  exists b r, build_image img = Ok b /\ parse b (mode img) id (session_id img) = Ok r /\
    count_live_files (root img) <= count_files (root r) /\
    file_at (disk w') (image_path (session_id img) id) = Some b /\
    cache w' = <[id := r]> (cache w).

Lemma spec_flush id img w :
  Inv w -> cache w !! id = Some img ->
  spec (flush_image depth cwd data_dir id) (fun _ w' => saved w id img w') w.
Proof.
  intros Hw Hc. destruct (cache_facts w id img Hw Hc) as (Hpi & Hps & Hid). unfold flush_image.
  eapply pspec_bind; [by apply spec_with_image|]. intros [b sid] w1 _ (-> & img1 & Hc1 & Hb).
  rewrite Hc in Hc1. injection Hc1 as <-.
  destruct (build_image img) as [b1|e| |] eqn:Hbuild; cbn in Hb; try done. injection Hb as -> <-.
  eapply pspec_bind.
  { apply spec_or_internal, (spec_pure _ _ _ _ _ (fun i w => Ok (fs_len (fault 0 i) (disk w) _)) (fun _ w' => w' = w)); done. }
  intros len w1 _ ->.
  assert (spec (write_flushed depth cwd id (image_file data_dir (session_id img) id) b) (fun _ w' => saved w id img w') w) as Htail.
  2: { destruct len as [len|]; [destruct (blen b <? len); [by apply spec_done|]|]; exact Htail. }
  unfold write_flushed.
  eapply pspec_bind; [by apply spec_with_image|]. intros r w1 _ (-> & img1 & Hc1 & Hr).
  rewrite Hc in Hc1. injection Hc1 as <-. apply flush_parse in Hr as (Hr & Hcount & _). rewrite Hid in Hr.
  destruct (parse_ids _ _ _ _ _ Hr) as (Hri & Hrs & _ & Hpb).
  eapply pspec_bind; [by apply spec_or_internal, spec_replace_image|]. intros _ w1 Hw1 (d & -> & Hf).
  eapply (pspec_bind _ _ _ _ _ _ _ (fun _ w' => disk w' = d /\ cache w' = <[id := r]> (cache w))).
  { apply spec_step. intros i _. cbn. rewrite Hc. cbn. split; [|done].
    apply (Inv_cache_edit (with_disk d w) id img); try done; congruence. }
  intros _ w2 Hw2 [Hd2 Hc2]. eapply (spec_weaken _ _ _ _ _ _ (fun _ w' => disk w' = disk w2 /\ cache w' = cache w2)).
  - intros _ w3 _ [Hd3 Hc3]. exists b, r. split_and!; [done..|by rewrite Hd3, Hd2|by rewrite Hc3].
  - apply spec_or_internal, spec_quiet_statement; [done|]. intros now d' [= <-]. by apply Inv_touch_image.
Qed.

(** ** Every handler keeps the invariant *)

Abbreviation keeps p w := (spec p (fun _ _ => True) w).

Lemma spec_known id w : Inv w -> spec (session_exists id : prog Status bool) (fun a _ => a = true -> plain id) w.
Proof.
  intros Hw. unfold session_exists. apply spec_on_error; [done|].
  eapply pspec_bind; [by apply spec_query|]. intros row w1 _ (-> & now & ->). apply pspec_ret; [done|].
  intros [r Hr]%bool_decide_eq_true. unfold get_session in Hr. apply find_row_elem in Hr as [Hr <-].
  apply (so_sessions _ _ _ _ (proj1 Hw)). by apply list_elem_of_fmap_2.
Qed.

Lemma spec_uuid w : Inv w -> spec (draw i_uuid : prog Status ustring) (fun a w' => w' = w /\ exists i, i_uuid i = a /\ fresh n0 i w) w.
Proof. intros Hw. apply (spec_pure _ _ _ _ _ (fun i _ => Ok (i_uuid i))); [done|]. intros i a Hi [= <-]. eauto. Qed.

Lemma insert_image_key id s n p m z now d d' : insert_image id s n p m z now d = Ok d' -> (id, s) ∈ im_keys d'.
Proof.
  unfold insert_image. intros H. ok_inv.
  match goal with H : insert_row _ _ _ _ = _ |- _ => apply insert_row_ok in H as (-> & _ & _) end.
  unfold im_keys. cbn. rewrite fmap_app. apply elem_of_app. right. by left.
Qed.

Lemma spec_set_cache {E : Type} (f : World -> gmap ustring Image) w :
  Inv (with_cache (f w) w) -> spec (step (fun _ w => (with_cache (f w) w, Ok tt)) : prog E unit) (fun _ w' => w' = with_cache (f w) w) w.
Proof. intros H. apply spec_step. intros i _. by split. Qed.

Lemma keeps_open sid b m n p w : Inv w -> keeps (open_from_bytes depth cwd data_dir sid b m n p) w.
Proof.
  intros Hw. unfold open_from_bytes. eapply pspec_bind; [by apply spec_known|]. intros known w1 Hw1 Hp.
  destruct known; [|by apply spec_done]. specialize (Hp eq_refl). cbn [negb].
  eapply pspec_bind; [by apply spec_uuid|]. intros id w2 _ (-> & i & <- & Hid & Hn0 & Hnew & Hcache & _).
  set (id := i_uuid i) in *.
  eapply (pspec_bind _ _ _ _ _ _ _ (fun img w' => w' = w1 /\ parse b m id sid = Ok img)).
  { apply spec_done; [done|]. intros img Himg. split; [done|]. destruct (parse b m id sid) eqn:Hpa; cbn in Himg; try done.
    congruence. }
  intros img w2 _ [-> Himg]. destruct (parse_ids _ _ _ _ _ Himg) as (H1 & H2 & _ & Hpb).
  eapply pspec_bind; [by apply spec_or_internal, spec_store_image|]. intros _ w3 Hw3 (d & -> & Hf).
  eapply pspec_bind.
  { apply spec_or_internal, spec_statement; [done|]. intros now d' Hd'.
    eapply (Inv_insert_image _ _ _ _ _ _ id sid); [exact Hw3|exact Hd'|done|done|]. by exists b. }
  intros _ w4 Hw4 (now & d' & Hd' & ->). apply insert_image_key in Hd'.
  eapply pspec_bind; [apply (spec_set_cache (fun w => <[id := img]> (cache w)))|].
  { apply Inv_cache_insert; [done|done|by rewrite H2|done|]. intros s Hs. rewrite H2.
    eapply im_keys_fun; [apply (so_db _ _ _ _ (proj1 Hw4))|done|done]. }
  intros _ w5 Hw5 _. eapply pspec_bind; [by apply spec_touch|]. intros _ w6 Hw6 _. by apply pspec_ret.
Qed.

Lemma keeps_session_create n w : Inv w -> keeps (session_create cwd pwd data_dir n) w.
Proof.
  intros Hw. unfold session_create. eapply (pspec_bind _ _ _ _ _ _ _ (fun _ _ => True)).
  2: { intros it w1 Hw1 _. by apply pspec_ret. }
  apply spec_or_internal. unfold create_session.
  assert (forall w, Inv w -> spec (draw i_uuid : prog Anyhow ustring) (fun a w' => w' = w /\ plain a) w) as Hdraw.
  { intros w' Hw'. apply (spec_pure _ _ _ _ _ (fun i _ => Ok (i_uuid i))); [done|]. intros i a (Hi & _) [= <-]. done. }
  eapply pspec_bind; [by apply Hdraw|]. intros id w1 _ [-> Hid].
  eapply pspec_bind; [by apply Hdraw|]. intros tok w1 _ [-> _].
  eapply pspec_bind.
  { apply spec_quiet_statement; [done|]. intros now d Hd. by eapply Inv_insert_session. }
  intros _ w1 Hw1 _. eapply pspec_bind; [by apply spec_mkdir|]. intros _ w2 Hw2 _. by apply pspec_ret.
Qed.

Lemma remove_dir_all_other f (p : path) d (q : path) : ~ p `prefix_of` q -> file_at (fst (fs_remove_dir_all f p d)) q = file_at d q.
Proof.
  intros Hq. unfold fs_remove_dir_all.
  assert (forall left, file_at (without p left d) q = file_at d q) as H.
  { intros left. unfold file_at, without. destruct (d !! q) as [e|] eqn:Hd.
    - rewrite (map_lookup_filter_Some_2 _ _ _ _ Hd) by by left. done.
    - rewrite map_lookup_filter_None_2 by by left. done. }
  destruct (d !! p) as [[|]|], f; cbn; auto.
Qed.

Lemma execute_keeps k st i w :
  Inv w -> (forall now d, st now (db w) = Ok d -> Inv (with_db d w)) ->
  Inv (with_db (fst (execute k st i (db w))) w) /\
  forall a, snd (execute k st i (db w)) = Ok a -> exists now, st now (db w) = Ok (fst (execute k st i (db w))).
Proof.
  intros Hw H. unfold execute. destruct (fault k i); cbn; [by destruct (with_same w) as (-> & _)|].
  destruct (st (i_now i) (db w)) as [d|e| |] eqn:Hst; cbn; try by destruct (with_same w) as (-> & _).
  split; [eauto|]. intros [] _. eauto.
Qed.

Lemma spec_delete_session id w :
  Inv w -> spec (delete_session id) (fun _ w' => forall i, ((i, id) ∉ im_keys (db w'))) w.
Proof.
  intros Hw. apply spec_step. intros i _.
  pose proof (execute_keeps 0 (fun _ d => Ok (delete_artifacts_for_session id d)) i w Hw) as H1.
  destruct (execute 0 _ i (db w)) as [d1 o1]. cbn [fst snd] in *.
  destruct H1 as [Hw1 _]; [intros now d [= <-]; by apply Inv_delete_artifacts|].
  destruct o1 as [[]|e| |]; try done.
  pose proof (execute_keeps 1 (fun _ d => Ok (delete_session_row id d)) i (with_db d1 w) Hw1) as H2.
  destruct (execute 1 _ i d1) as [d2 o2] eqn:He. cbn [fst snd db with_db] in *. rewrite He in H2.
  destruct H2 as [Hw2 Ho2]; [intros now d [= <-]; by apply (Inv_delete_session_row id (with_db d1 w))|].
  split; [exact Hw2|]. intros a Ha. cbn in Ha. subst o2. destruct (Ho2 a eq_refl) as [now [= <-]]. cbn.
  intros j (r & [= -> Hid] & Hr)%list_elem_of_fmap. apply list_elem_of_In, filter_In in Hr as [_ Hr].
  apply has_row_elem in Hr. cbn in Hr. rewrite <- Hid in Hr.
  apply list_elem_of_fmap in Hr as (x & -> & Hx). by apply others_elem in Hx as [_ Hx].
Qed.

Lemma keeps_destroy id purge w :
  Inv w -> (purge = true -> plain id) -> keeps (destroy_session cwd data_dir id purge) w.
Proof.
  intros Hw Hp. unfold destroy_session, delete_session_metadata.
  eapply pspec_bind; [by apply spec_delete_session|]. intros [] w1 Hw1 Hgone.
  destruct purge; [|by apply pspec_ret]. specialize (Hp eq_refl).
  eapply spec_ignore. apply (spec_on_disk _ _ _ _ _ _ (fun _ _ => True)). intros fl. split; [|done].
  apply Inv_disk; [done|]. intros p Hg. apply remove_dir_all_other.
  rewrite at_session_dir by done. intros Hpre.
  assert (forall s l, data_path cwd data_dir ++ [us "sessions"; id] `prefix_of` data_path cwd data_dir ++ us "sessions" :: s :: l -> s = id) as Hs.
  { intros s l H%prefix_app_inv. apply prefix_cons_inv_2, prefix_cons_inv_1 in H. done. }
  destruct Hg as [i s Hi|n i s Hn Hi]; apply Hs in Hpre; rewrite Hpre in Hi; by apply Hgone in Hi.
Qed.

Lemma keeps_gc w : Inv w -> keeps (gc_tick cwd data_dir ttl_secs purge_artifacts : prog Status unit) w.
Proof.
  intros Hw. unfold gc_tick.
  eapply (pspec_bind _ _ _ _ _ _ _ (fun l _ => forall id, id ∈ l -> plain id)).
  - apply spec_on_error; [intros e w' _ id H; by apply elem_of_nil in H|].
    eapply spec_weaken; [|by apply spec_query]. intros l w' _ (-> & now & ->) id Hid.
    apply (so_sessions _ _ _ _ (proj1 Hw)). unfold list_expired in Hid.
    apply list_elem_of_In, in_map_iff in Hid as (r & <- & Hr). apply filter_In in Hr as [Hr _].
    by apply list_elem_of_fmap_2, list_elem_of_In.
  - intros l w1 Hw1 Hl. apply spec_each; [|done]. intros id w2 Hid Hw2.
    eapply spec_ignore. apply keeps_destroy; auto.
Qed.

Lemma spec_row id w :
  Inv w -> spec (get_row id) (fun row w' => w' = w /\ row ∈ images (db w) /\ im_id row = id) w.
Proof.
  intros Hw. unfold get_row. eapply pspec_bind; [by apply spec_or_internal, spec_query|].
  intros o w1 _ (-> & now & ->). apply spec_done; [done|]. intros row Hrow. split; [done|].
  unfold get_image in Hrow. destruct (find_row im_id id (images (db w))) eqn:H; [|done]. injection Hrow as ->.
  by apply find_row_elem in H.
Qed.

Lemma keeps_weaken {E A} (p : prog E A) P w : spec p P w -> keeps p w.
Proof. by apply spec_weaken. Qed.
Lemma spec_opt {A} (s : Status) (o : option A) w : Inv w -> spec (some_or s o) (fun a w' => w' = w /\ o = Some a) w.
Proof. intros Hw. apply spec_done; [done|]. intros a. destruct o; [|done]. by intros [= ->]. Qed.
Lemma spec_outcome {A} (o : outcome Status A) w : Inv w -> spec (Done o) (fun a w' => w' = w /\ o = Ok a) w.
Proof. intros Hw. by apply spec_done. Qed.

Lemma keeps_close id w : Inv w -> keeps (image_close cwd data_dir id) w.
Proof.
  intros Hw. unfold image_close. eapply pspec_bind; [by apply spec_row|]. intros row w1 _ (-> & Hrow & <-).
  destruct (row_key w row Hw Hrow) as [Hpi Hps].
  eapply pspec_bind.
  { apply spec_or_internal, spec_statement; [done|]. intros now d [= <-]. by apply Inv_delete_image. }
  intros _ w1 Hw1 (now & d & [= <-] & ->).
  eapply (pspec_bind _ _ _ _ _ _ _ (fun _ _ => True)).
  { apply spec_or_internal. unfold remove_image_file. rewrite at_image_file by done.
    eapply pspec_bind; [apply (spec_pure _ _ _ _ _ (fun i w => Ok (fs_exists (disk w) _)) (fun _ w' => w' = with_db (delete_image (im_id row) (db w)) w)); done|].
    intros ex w2 _ ->. destruct ex; [|by apply pspec_ret]. apply (spec_on_disk _ _ _ _ _ _ (fun _ _ => True)).
    intros fl. split; [|done]. eapply Inv_kept; [done| |apply remove_kept].
    intros p Hg Hin%list_elem_of_singleton. subst p.
    eapply not_guarded_new_image; [exact Hw1|exact Hpi| |exact Hg]. cbn.
    intros (r & Hr1 & Hr2)%list_elem_of_fmap. apply others_elem in Hr2 as [_ Hr2]. by rewrite Hr1 in Hr2. }
  intros _ w2 Hw2 _.
  eapply pspec_bind; [apply (spec_set_cache (fun w => delete (im_id row) (cache w))); by apply Inv_cache_delete|].
  intros _ w3 Hw3 _. by apply pspec_ret.
Qed.

Lemma spec_source a p w : Inv w -> spec (source_bytes cwd data_dir a p) (fun _ w' => w' = w) w.
Proof.
  intros Hw. unfold source_bytes. destruct (negb _).
  - eapply pspec_bind; [by apply spec_or_internal, spec_query|]. intros o w1 _ (-> & now & ->).
    eapply pspec_bind; [by apply spec_opt|]. intros art w1 _ [-> _]. by apply spec_or_internal, reads_disk.
  - by apply spec_map_err, reads_disk.
Qed.

(** A query of an image: it is loaded, asked, and its session touched. *)
Lemma keeps_ask {A} id (f : Image -> outcome Status A) (g : A -> Response) w :
  Inv w -> keeps (img ← get_or_load_image depth cwd data_dir id; a ← Done (f img);
                  _ ← touch_quietly (session_id img); mret (g a)) w.
Proof.
  intros Hw. eapply pspec_bind; [by apply spec_load|]. intros img w1 Hw1 _.
  eapply pspec_bind; [by apply spec_outcome|]. intros a w2 _ [-> _].
  eapply pspec_bind; [by apply spec_touch|]. intros _ w3 Hw3 _. by apply pspec_ret.
Qed.

(** What an edit of the image leaves, when its flush succeeds. *)
Definition edited (w : World) (id : ustring) (f : Image -> Image -> Prop) (w' : World) : Prop :=
  exists img img' w1, loads w id img w1 /\ f img img' /\
    saved (with_cache (<[id := img']> (cache w1)) w1) id img' w'.

Lemma saved_later w id img w' w'' : disk w'' = disk w' -> cache w'' = cache w' -> saved w id img w' -> saved w id img w''.
Proof. intros Hd Hc (b & r & ? & ? & ? & ? & ?). exists b, r. rewrite Hd, Hc. done. Qed.

(** An edit with an unconditional flush. *)
Lemma spec_edit_flush {A} id (f : Image -> Image * outcome Status A) (g : A -> Response) w :
  Inv w -> (forall img, only_root img (fst (f img))) ->
  spec (img ← get_or_load_image depth cwd data_dir id; a ← edit_image id f;
        _ ← flush_image depth cwd data_dir id; _ ← touch_quietly (session_id img); mret (g a))
    (fun _ w' => edited w id (fun img img' => exists a, f img = (img', Ok a)) w') w.
Proof.
  intros Hw Hf. eapply pspec_bind; [by apply spec_load|]. intros img w1 Hw1 Hl.
  eapply pspec_bind; [by apply spec_edit|]. intros a w2 Hw2 (img1 & img' & Hc & He & ->).
  destruct (loads_cache _ _ _ _ Hl) as (Hc1 & _). rewrite Hc in Hc1. injection Hc1 as ->.
  eapply pspec_bind; [apply (spec_flush id img'); [done|by apply lookup_insert_eq]|].
  intros [] w3 Hw3 Hs. eapply pspec_bind; [by apply spec_touch|]. intros _ w4 Hw4 [Hd Hc4].
  apply pspec_ret; [done|]. exists img, img', w1. split_and!; [done|by exists a|by eapply saved_later].
Qed.

(** An edit that flushes only when something was changed. *)
Lemma spec_edit_some {A} id (f : act A) ctx (changed : A -> bool) (g : A -> Response) w :
  Inv w -> act_root f ->
  spec (_ ← ensure_image_loaded depth cwd data_dir id;
        os ← edit_image id (with_session f ctx);
        let '(outcome, session_id) := os : A * ustring in
        _ ← (if changed outcome then flush_image depth cwd data_dir id else mret tt);
        _ ← touch_quietly session_id; mret (g outcome))
    (fun resp w' => exists a, resp = g a /\
       if changed a then edited w id (fun img img' => f img = (img', Ok a)) w'
       else disk w' = disk w /\ exists img img' w1, loads w id img w1 /\ f img = (img', Ok a) /\
              cache w' = <[id := img']> (cache w1)) w.
Proof.
  intros Hw Hf. eapply pspec_bind; [by apply spec_ensure|]. intros _ w1 Hw1 (img & Hl).
  destruct (loads_cache _ _ _ _ Hl) as (Hc1 & Hd1 & _).
  eapply pspec_bind.
  { apply spec_edit; [done|]. intros i. specialize (Hf i). unfold with_session, on_image. destruct (f i) as [i' o]. exact Hf. }
  intros [a sid] w2 Hw2 (img1 & img' & Hc & He & ->). rewrite Hc in Hc1. injection Hc1 as ->.
  assert (f img = (img', Ok a)) as Hfi.
  { unfold with_session, on_image in He. destruct (f img) as [i' o]. destruct o; cbn in He; try done. by injection He as -> -> _. }
  eapply (pspec_bind _ _ _ _ _ _ _ (fun _ w' =>
    if changed a then saved (with_cache (<[id := img']> (cache w1)) w1) id img' w'
    else w' = with_cache (<[id := img']> (cache w1)) w1)).
  { destruct (changed a); [|by apply pspec_ret]. apply spec_flush; [done|by apply lookup_insert_eq]. }
  intros [] w3 Hw3 Hs. eapply pspec_bind; [by apply spec_touch|]. intros _ w4 Hw4 [Hd4 Hc4].
  apply pspec_ret; [done|]. exists a. split; [done|]. destruct (changed a).
  - exists img, img', w1. split_and!; [done..|by eapply saved_later].
  - rewrite Hd4, Hs. split; [done|]. exists img, img', w1. by rewrite Hc4, Hs.
Qed.

Lemma on_root_only f img : only_root img (fst (on_root f img)).
Proof. unfold on_root, only_root. destruct (f (root img)); cbn; by destruct img. Qed.
Lemma on_image_only {A} (f : act A) ctx img : act_root f -> only_root img (fst (on_image f ctx img)).
Proof. intros Hf. unfold on_image. specialize (Hf img). by destruct (f img). Qed.
Lemma set_variable_only n g o v wd img : only_root img (fst (set_variable n g o v wd img)).
Proof.
  unfold set_variable. destruct (NvarStores.nvar_set img n g o v wd) as [[img' out]|e| |] eqn:H; cbn; try by destruct img.
  unfold NvarStores.nvar_set in H. destruct (negb _); [done|]. destruct (negb _); [done|]. destruct (_ && _); [done|].
  ok_inv. all: repeat case_match; ok_inv; done.
Qed.

Lemma keeps_extract id t bo w : Inv w -> keeps (image_node_extract depth cwd data_dir id t bo) w.
Proof.
  intros Hw. unfold image_node_extract. eapply pspec_bind; [by apply spec_load|]. intros img w1 Hw1 Hl.
  destruct (loads_cache _ _ _ _ Hl) as (Hc & _). destruct (cache_facts _ _ _ Hw1 Hc) as (_ & Hps & _).
  eapply pspec_bind; [by apply spec_outcome|]. intros tg w2 _ [-> _].
  eapply pspec_bind; [by apply spec_outcome|]. intros node w2 _ [-> _].
  eapply pspec_bind; [by apply spec_uuid|]. intros a w2 _ (-> & i & <- & Ha & _).
  eapply pspec_bind; [by apply spec_or_internal, spec_store_artifact|]. intros p w2 Hw2 _.
  eapply pspec_bind; [|intros _ w3 Hw3 _; by apply pspec_ret].
  apply spec_or_internal, spec_quiet_statement; [done|]. intros now d Hd. by eapply Inv_insert_artifact.
Qed.
Lemma keeps_import s p w : Inv w -> keeps (artifact_import cwd data_dir s p) w.
Proof.
  intros Hw. unfold artifact_import. eapply pspec_bind; [by apply spec_known|]. intros known w1 Hw1 Hp.
  destruct known; [|by apply spec_done]. specialize (Hp eq_refl). cbn [negb].
  eapply pspec_bind; [by apply spec_map_err, spec_read|]. intros b w2 _ [-> _].
  eapply pspec_bind; [by apply spec_uuid|]. intros a w2 _ (-> & i & <- & Ha & _).
  eapply pspec_bind; [by apply spec_or_internal, spec_store_artifact|]. intros q w2 Hw2 _.
  eapply pspec_bind; [|intros _ w3 Hw3 _; by apply pspec_ret].
  apply spec_or_internal, spec_quiet_statement; [done|]. intros now d Hd. by eapply Inv_insert_artifact.
Qed.

(** Writing outside of the data of the service. *)
Definition outside (p : ustring) : Prop := ~ data_path cwd data_dir `prefix_of` at_path cwd p.
Lemma keeps_output p b w : Inv w -> outside p -> keeps (on_disk (fun f => fs_write f (at_path cwd p) b)) w.
Proof. intros Hw Hp. eapply keeps_weaken, spec_write; [done|]. by intros H%guarded_data. Qed.

Lemma keeps_export a p w : Inv w -> outside p -> keeps (artifact_export cwd data_dir a p) w.
Proof.
  intros Hw Hp. unfold artifact_export. destruct (artifact_output_path_is_relative p); [by apply spec_done|].
  eapply pspec_bind; [by apply spec_or_internal, spec_query|]. intros o w1 _ (-> & now & ->).
  eapply pspec_bind; [by apply spec_opt|]. intros art w1 _ [-> _].
  eapply pspec_bind; [|intros _ w3 Hw3 _; by apply pspec_ret]. apply spec_or_internal.
  eapply pspec_bind; [by apply spec_read|]. intros b w1 _ [-> _]. by apply keeps_output.
Qed.
Lemma keeps_save id p w : Inv w -> outside p -> keeps (image_save depth cwd data_dir id p) w.
Proof.
  intros Hw Hp. unfold image_save. eapply pspec_bind; [by apply spec_load|]. intros img w1 Hw1 _.
  eapply pspec_bind; [by apply spec_outcome|]. intros b w2 _ [-> _].
  eapply pspec_bind; [by apply spec_or_internal, keeps_output|]. intros _ w3 Hw3 _. by apply pspec_ret.
Qed.

(** ** Snapshots *)

Definition stored (w : World) (id : ustring) (b : list byte) : Prop :=
  exists s, (id, s) ∈ im_keys (db w) /\ file_at (disk w) (image_path s id) = Some b.
Definition snapped (w : World) (id n : ustring) (b : list byte) : Prop :=
  (n, id) ∈ sn_keys (db w) /\
  forall s, (id, s) ∈ im_keys (db w) -> file_at (disk w) (snapshot_at cwd data_dir s id n) = Some b.

Lemma insert_snapshot_key n i m z c d d' : insert_image_snapshot n i m z c d = Ok d' ->
  (n, i) ∈ sn_keys d' /\ im_keys d' = im_keys d.
Proof.
  unfold insert_image_snapshot. intros H. ok_inv.
  match goal with H : insert_row _ _ _ _ = _ |- _ => apply insert_row_ok in H as (-> & _ & _) end.
  split; [|done]. unfold sn_keys. cbn. rewrite fmap_app. apply elem_of_app. right. by left.
Qed.

Lemma spec_touch_keys id w : Inv w -> spec (touch_quietly id) (fun _ w' => disk w' = disk w /\
  im_keys (db w') = im_keys (db w) /\ sn_keys (db w') = sn_keys (db w)) w.
Proof.
  intros Hw i _. unfold execute. cbn. destruct (fault 0 i); cbn.
  - by destruct (with_same w) as (-> & _).
  - split_and!; try done; by apply Inv_touch_session.
Qed.

Lemma spec_snapshot_create id n w :
  Inv w -> spec (image_snapshot_create cwd data_dir id n)
    (fun resp w' => exists sid t b, resp = R_SnapshotCreate sid t /\ plain sid /\
                      stored w id b /\ snapped w' id sid b) w.
Proof.
  intros Hw. unfold image_snapshot_create. eapply pspec_bind; [by apply spec_row|].
  intros row w1 _ (-> & Hrow & <-). destruct (row_key w row Hw Hrow) as [Hpi Hps].
  pose proof (im_keys_row _ _ Hrow) as Hkey.
  eapply pspec_bind; [by apply spec_or_internal, spec_read|]. intros b w1 _ [-> Hb]. rewrite at_image_file in Hb by done.
  assert (parses depth b) as Hpb.
  { destruct (so_stored _ _ _ _ (proj1 Hw) _ _ Hkey) as (b' & Hb' & Hp). rewrite Hb in Hb'. by injection Hb' as ->. }
  eapply pspec_bind; [by apply spec_uuid|]. intros sid w1 _ (-> & i & <- & Hsid & Hne & _ & _ & Hnew).
  set (sid := i_uuid i) in *.
  eapply pspec_bind; [apply (spec_pure _ _ _ _ _ (fun i _ => Ok (i_now i)) (fun _ w' => w' = w)); done|]. intros t w1 _ ->.
  eapply pspec_bind; [by apply spec_or_internal, spec_store_snapshot|]. intros _ w1 Hw1 (d & -> & Hf).
  eapply pspec_bind.
  { apply spec_or_internal, spec_statement; [done|]. intros now d' Hd'.
    eapply (Inv_insert_snapshot _ _ _ _ _ _ sid (im_id row) (im_session_id row)); [exact Hw1|exact Hd'|done..|by exists b]. }
  intros _ w2 Hw2 (now & d' & Hd' & ->). apply insert_snapshot_key in Hd' as [Hs Hk].
  eapply pspec_bind; [by apply spec_touch_keys|]. intros _ w3 Hw3 (Hd3 & Hk3 & Hs3). apply pspec_ret; [done|].
  exists sid, t, b. cbn in Hd3, Hk3, Hs3. unfold stored, snapped. rewrite Hd3, Hk3, Hs3, Hk. split_and!; try done.
  - by exists (im_session_id row).
  - intros s Hi. by rewrite (im_keys_fun _ _ _ _ (so_db _ _ _ _ (proj1 Hw)) Hi Hkey).
Qed.

Lemma spec_restore id n w :
  Inv w -> spec (image_snapshot_restore cwd data_dir id n)
    (fun _ w' => exists b, snapped w id n b /\ stored w' id b /\ cache w' !! id = None) w.
Proof.
  intros Hw. unfold image_snapshot_restore. eapply pspec_bind; [by apply spec_or_internal, spec_query|].
  intros o w1 _ (-> & now & ->). eapply pspec_bind; [by apply spec_opt|]. intros sn w1 _ [-> Hsn].
  unfold get_image_snapshot in Hsn. apply find_row_elem in Hsn as [Hsn <-].
  destruct (bool_decide_reflect (sn_image_id sn = id)) as [<-|Hne]; [|by apply spec_done]. cbn [negb].
  assert ((sn_id sn, sn_image_id sn) ∈ sn_keys (db w)) as Hkn.
  { by apply (list_elem_of_fmap_2 (fun r => (sn_id r, sn_image_id r))). }
  eapply pspec_bind; [by apply spec_row|]. intros row w1 _ (-> & Hrow & Hid).
  destruct (row_key w row Hw Hrow) as [Hpi Hps]. pose proof (im_keys_row _ _ Hrow) as Hkey. rewrite Hid in Hpi, Hkey.
  assert (plain (sn_id sn)) as Hpn by by apply (so_snapshots _ _ _ _ (proj1 Hw) _ _ Hkn).
  eapply pspec_bind; [by apply spec_or_internal, spec_read|]. intros b w1 _ [-> Hb]. rewrite at_snapshot_file in Hb by done.
  assert (parses depth b) as Hpb.
  { destruct (so_snaps _ _ _ _ (proj1 Hw) _ _ _ Hkn Hkey) as (b' & Hb' & Hp). rewrite Hb in Hb'. by injection Hb' as ->. }
  eapply pspec_bind; [by apply spec_or_internal, spec_replace_image|]. intros _ w1 Hw1 (d & -> & Hf).
  eapply pspec_bind; [apply (spec_set_cache (fun w => delete (sn_image_id sn) (cache w))); by apply Inv_cache_delete|].
  intros _ w2 Hw2 ->. eapply pspec_bind.
  { apply spec_or_internal, spec_statement; [done|]. intros now' d' [= <-]. exact (Inv_touch_image _ _ _ Hw2). }
  intros _ w3 Hw3 (now' & d' & [= <-] & ->). apply pspec_ret; [done|]. exists b. split_and!.
  - split; [done|]. intros s Hs. by rewrite (im_keys_fun _ _ _ _ (so_db _ _ _ _ (proj1 Hw)) Hs Hkey).
  - exists (im_session_id row). split; [|done]. unfold im_keys. cbn.
    assert ((sn_image_id sn, im_session_id row) ∈ im_keys (db w)) as (r & [= Hr1 Hr2] & Hr)%list_elem_of_fmap by done.
    rewrite Hr1, Hr2. unfold update_rows. rewrite <- list_fmap_compose. apply list_elem_of_fmap. exists r.
    split; [|done]. cbn. by destruct (is_id im_id _ r).
  - cbn. apply lookup_delete_eq.
Qed.

(** ** The service *)

(** Requests that keep out of the data of the service: outputs go elsewhere, and what is
    destroyed together with its files is named by an identifier. *)
Definition careful (j : Job) : Prop :=
  match j with
  | J_Request (Q_ArtifactExport _ p) | J_Request (Q_ImageSave _ p) => outside p
  | J_Request (Q_SessionDestroy id) => purge_artifacts = true -> plain id
  | _ => True
  end.

(** The images and the relation of an edit; [None] for the other requests. *)
Definition tree_edit (q : Request) : option (ustring * (FfsNode -> FfsNode -> Prop)) :=
  match q with
  | Q_ImageNodeInsert id t _ _ m => Some (id, fun r r' => exists tg data mode,
      parse_target t = Ok tg /\ insert_mode m = Ok mode /\ insert r tg data mode = Ok r')
  | Q_ImageNodeRemove id t => Some (id, fun r r' => exists tg, parse_target t = Ok tg /\ remove r tg = Ok r')
  | Q_ImageNodeReplace id t _ _ body_only => Some (id, fun r r' => exists tg data,
      parse_target t = Ok tg /\ replace r tg data body_only = Ok r')
  | Q_ImageNodeRebuild id t => Some (id, fun r r' => exists tg, parse_target t = Ok tg /\ rebuild r tg = Ok r')
  | _ => None
  end.

(** The same for the edits of setup data and variables that always flush. *)
Definition setup_edit (q : Request) : option (ustring * (Image -> Image -> Prop)) :=
  match q with
  | Q_HiiSetFormVisibility id item v =>
      Some (id, fun img img' => set_item_visibility item v img = (img', Ok tt))
  | Q_NvarSet id name g off v wd =>
      Some (id, fun img img' => exists o, NvarStores.nvar_set img name g off v wd = Ok (img', o))
  | Q_HiiFormSetAdd id json g => Some (id, fun img img' => exists schema tg r,
      parse_schema json = Ok schema /\ optional_guid g = Ok tg /\
      add_setup_formset guid_error schema tg img = (img', Ok r))
  | Q_HiiFormAdd id t json => Some (id, fun img img' => exists schema r,
      parse_schema json = Ok schema /\ add_form guid_error t schema img = (img', Ok r))
  | Q_HiiFormHijack id t json g => Some (id, fun img img' => exists schema sd r,
      parse_hijack_schema json = Ok schema /\ optional_guid g = Ok sd /\
      hijack_form dbg t schema sd img = (img', Ok r))
  | Q_HiiQuestionAdd id t json => Some (id, fun img img' => exists schema r,
      parse_question_add_schema json = Ok schema /\ add_questions t schema img = (img', Ok r))
  | Q_HiiPageAdd id t json => Some (id, fun img img' => exists schema r,
      parse_page_add_schema json = Ok schema /\ add_page t schema img = (img', Ok r))
  | Q_TseUnhide id g f o => Some (id, fun img img' => exists guid r,
      guid_try_parse g = Some guid /\ Tse.tse_unhide guid_error guid f o img = (img', Ok r))
  | _ => None
  end.

Definition persists (q : Request) (w : World) (resp : Response) (w' : World) : Prop :=
  match tree_edit q, setup_edit q with
  | Some (id, f), _ => edited w id (fun img img' => exists r, f (root img) r /\ img' = with_root r img) w'
  | None, Some (id, f) => edited w id f w'
  | None, None =>
      match q with
      | Q_HiiUnlock id item =>
          match resp with
          | R_Unlock gates (_ :: _) => edited w id (fun img img' => exists o, unlock dbg item img = (img', Ok o)) w'
          | R_Unlock _ [] => disk w' = disk w
          | _ => False
          end
      | Q_HiiSetValue id item v =>
          match resp with
          | R_SetValue q (_ :: _) _ => edited w id (fun img img' => exists o, set_value dbg_str item v img = (img', Ok o)) w'
          | R_SetValue _ [] _ => disk w' = disk w
          | _ => False
          end
      | Q_ImageSnapshotCreate id _ =>
          exists sid t b, resp = R_SnapshotCreate sid t /\ plain sid /\ stored w id b /\ snapped w' id sid b
      | Q_ImageSnapshotRestore id n => exists b, snapped w id n b /\ stored w' id b /\ cache w' !! id = None
      | _ => True
      end
  end.

Lemma edited_mono w id (f g : Image -> Image -> Prop) w' :
  (forall img img', f img img' -> g img img') -> edited w id f w' -> edited w id g w'.
Proof. intros H (img & img' & w1 & ? & ? & ?). exists img, img', w1. auto. Qed.

Lemma on_root_ok f img img' a : on_root f img = (img', Ok a) -> exists r, f (root img) = Ok r /\ img' = with_root r img.
Proof. unfold on_root. destruct (f (root img)); intros [= <- _]; eauto. Qed.

Lemma spec_root_edit id (f : FfsNode -> outcome Status FfsNode) (h : FfsNode -> FfsNode -> Prop) (g : unit -> Response) w :
  Inv w -> (forall r r', f r = Ok r' -> h r r') ->
  spec (img ← get_or_load_image depth cwd data_dir id; a ← edit_image id (on_root f);
        _ ← flush_image depth cwd data_dir id; _ ← touch_quietly (session_id img); mret (g a))
    (fun _ w' => edited w id (fun img img' => exists r, h (root img) r /\ img' = with_root r img) w') w.
Proof.
  intros Hw Hf. eapply spec_weaken; [|by apply spec_edit_flush, on_root_only].
  intros resp w' _. apply edited_mono. intros img img' [a (r & Hr & ->)%on_root_ok]. eauto.
Qed.

Lemma map_err_ok {E F A} (g : E -> F) (o : outcome E A) a : map_err g o = Ok a -> o = Ok a.
Proof. destruct o; try done. by intros [= ->]. Qed.

Lemma spec_tree_edit q id f w :
  Inv w -> tree_edit q = Some (id, f) ->
  spec (handle dbg dbg_str depth cwd pwd data_dir purge_artifacts q)
    (fun _ w' => edited w id (fun img img' => exists r, f (root img) r /\ img' = with_root r img) w') w.
Proof.
  intros Hw Hq. destruct q; try done; injection Hq as <- Hf; cbn [handle].
  - unfold image_node_insert. eapply pspec_bind; [by apply spec_source|]. intros data w1 _ ->.
    eapply pspec_bind; [by apply spec_outcome|]. intros tg w1 _ [-> Ht%map_err_ok].
    eapply pspec_bind; [by apply spec_outcome|]. intros m w1 _ [-> Hm].
    apply (spec_root_edit image_id _ f (fun _ => R_Node target)); [done|]. intros r r' Hr%map_err_ok. subst f. eauto 10.
  - unfold image_node_remove. apply (spec_root_edit image_id _ f (fun _ => R_Empty)); [done|].
    intros r r' Hr. subst f. ok_inv. eauto 10 using map_err_ok.
  - unfold image_node_replace. eapply pspec_bind; [by apply spec_source|]. intros data w1 _ ->.
    apply (spec_root_edit image_id _ f (fun _ => R_Node target)); [done|]. intros r r' Hr. subst f. ok_inv. eauto 10 using map_err_ok.
  - unfold image_node_rebuild. apply (spec_root_edit image_id _ f (fun _ => R_Empty)); [done|].
    intros r r' Hr. subst f. ok_inv. eauto 10 using map_err_ok.
Qed.

Abbreviation handle := (handle dbg dbg_str depth cwd pwd data_dir purge_artifacts).
Abbreviation job := (job dbg dbg_str depth cwd pwd data_dir ttl_secs purge_artifacts).

Lemma keeps_listed {A} (q : Z -> Db -> A) (g : A -> Response) w :
  Inv w -> keeps (l ← or_internal (query q); mret (g l)) w.
Proof.
  intros Hw. eapply pspec_bind; [by apply spec_or_internal, spec_query|]. intros l w1 _ (-> & _). by apply pspec_ret.
Qed.
Lemma keeps_search id q ms l w : Inv w -> keeps (image_nodes_search depth cwd data_dir id q ms l) w.
Proof.
  intros Hw. unfold image_nodes_search. eapply pspec_bind; [by apply spec_load|]. intros img w1 Hw1 _.
  eapply pspec_bind; [by apply spec_outcome|]. intros a w2 _ [-> _]. by apply pspec_ret.
Qed.
Lemma keeps_list_questions id t f w : Inv w -> keeps (hii_list_questions depth cwd data_dir id t f) w.
Proof.
  intros Hw. unfold hii_list_questions. eapply pspec_bind; [by apply spec_load|]. intros img w1 Hw1 _.
  destruct (65535 <? f); [by apply spec_done|].
  eapply pspec_bind; [by apply spec_outcome|]. intros a w2 _ [-> _].
  eapply pspec_bind; [by apply spec_touch|]. intros _ w3 Hw3 _. by apply pspec_ret.
Qed.
Lemma keeps_form_export id t w : Inv w -> keeps (hii_form_export depth cwd data_dir id t) w.
Proof.
  intros Hw. unfold hii_form_export. eapply pspec_bind; [by apply spec_load|]. intros img w1 Hw1 _.
  eapply pspec_bind; [by apply spec_outcome|]. intros a w2 _ [-> _].
  eapply pspec_bind; [by apply spec_outcome|]. intros j w2 _ [-> _].
  eapply pspec_bind; [by apply spec_touch|]. intros _ w3 Hw3 _. by apply pspec_ret.
Qed.
Lemma spec_mode m w : Inv w -> spec (image_mode m) (fun _ w' => w' = w) w.
Proof. intros Hw. unfold image_mode. repeat case_match; by apply spec_done. Qed.
Lemma keeps_image_open s p m n w : Inv w -> keeps (image_open depth cwd data_dir s p m n) w.
Proof.
  intros Hw. unfold image_open. eapply pspec_bind; [by apply spec_mode|]. intros md w1 _ ->.
  eapply pspec_bind; [by apply spec_map_err, reads_disk|]. intros b w1 _ ->. by apply keeps_open.
Qed.
Lemma keeps_upload s b m n w : Inv w -> keeps (image_upload depth cwd data_dir s b m n) w.
Proof.
  intros Hw. unfold image_upload. eapply pspec_bind; [by apply spec_mode|]. intros md w1 _ ->. by apply keeps_open.
Qed.
Lemma keeps_status id w : Inv w -> keeps (image_status id) w.
Proof. intros Hw. eapply pspec_bind; [by apply spec_row|]. intros r w1 _ (-> & _). by apply pspec_ret. Qed.
Lemma keeps_session_destroy id w :
  Inv w -> (purge_artifacts = true -> plain id) -> keeps (session_destroy cwd data_dir purge_artifacts id) w.
Proof.
  intros Hw Hp. eapply pspec_bind; [by apply spec_or_internal, keeps_destroy|]. intros _ w1 Hw1 _. by apply pspec_ret.
Qed.

Lemma spec_handle q w :
  Inv w -> careful (J_Request q) -> tree_edit q = None -> setup_edit q = None ->
  match q with
  | Q_HiiUnlock _ _ | Q_HiiSetValue _ _ _ | Q_ImageSnapshotCreate _ _ | Q_ImageSnapshotRestore _ _ => True
  | _ => keeps (handle q) w
  end.
Proof.
  intros Hw Hc Hq Hs. destruct q; try done; cbn [Server.handle]; cbn [careful] in Hc;
    eauto using keeps_session_create, keeps_session_destroy, keeps_image_open, keeps_upload, keeps_close,
      keeps_status, keeps_search, keeps_form_export, keeps_extract, keeps_export, keeps_import, keeps_save, keeps_list_questions.
  all: try apply (keeps_listed (fun _ d => _)); try done.
  all: apply keeps_ask; done.
Qed.

Lemma spec_unlock id item w : Inv w -> spec (handle (Q_HiiUnlock id item)) (persists (Q_HiiUnlock id item) w) w.
Proof.
  intros Hw. cbn [Server.handle]. unfold hii_unlock. eapply spec_weaken; [|apply (spec_edit_some id (unlock dbg item) item
    (fun o => negb (bool_decide (uo_applied o = []))) (fun o => R_Unlock (uo_gates o) (uo_applied o)));
    [done|apply unlock_root]].
  intros resp w' _ (a & -> & H). unfold persists. cbn [tree_edit setup_edit].
  destruct (uo_applied a); cbn in H; [by destruct H|]. eapply edited_mono; [|exact H]. intros img img' Hx. by exists a.
Qed.
Lemma spec_set_value id item v w :
  Inv w -> spec (handle (Q_HiiSetValue id item v)) (persists (Q_HiiSetValue id item v) w) w.
Proof.
  intros Hw. cbn [Server.handle]. unfold hii_set_value. eapply spec_weaken; [|apply (spec_edit_some id (set_value dbg_str item v) item
    (fun o => negb (bool_decide (vo_applied o = []))) (fun o => R_SetValue (vo_question o) (vo_applied o) (vo_stores o)));
    [done|apply set_value_root]].
  intros resp w' _ (a & -> & H). unfold persists. cbn [tree_edit setup_edit].
  destruct (vo_applied a); cbn in H; [by destruct H|]. eapply edited_mono; [|exact H]. intros img img' Hx. by exists a.
Qed.
(** The result of an operation with its status. *)
Lemma on_image_ok {A} (status : HiiError -> Status) (f : act A) img img' a :
  on_image_with status f img = (img', Ok a) -> f img = (img', Ok a).
Proof. unfold on_image_with. destruct (f img) as [i o]. intros [= -> ->%map_err_ok]. done. Qed.
Lemma on_image_with_only {A} (status : HiiError -> Status) (f : act A) img :
  act_root f -> only_root img (fst (on_image_with status f img)).
Proof. intros Hf. unfold on_image_with. specialize (Hf img). by destruct (f img). Qed.
Lemma spec_setup {A} id status (f : act A) (g : A -> Response) (P : Image -> Image -> Prop) w :
  Inv w -> act_root f -> (forall img img' a, f img = (img', Ok a) -> P img img') ->
  spec (img ← get_or_load_image depth cwd data_dir id; a ← edit_image id (on_image_with status f);
        _ ← flush_image depth cwd data_dir id; _ ← touch_quietly (session_id img); mret (g a))
    (fun _ w' => edited w id P w') w.
Proof.
  intros Hw Hf Hp. eapply spec_weaken; [|apply (spec_edit_flush id (on_image_with status f) g); [done|]].
  - intros resp w' _. apply edited_mono. intros img img' [a H%on_image_ok]. by eapply Hp.
  - intros img. by apply on_image_with_only.
Qed.
Lemma spec_argument {A B} (o : outcome Status A) (k : A -> prog Status B) (P : B -> World -> Prop) w :
  Inv w -> (forall a, o = Ok a -> spec (k a) P w) -> spec (a ← Done o; k a) P w.
Proof. intros Hw Hk. eapply pspec_bind; [by apply spec_outcome|]. intros a w1 _ [-> Ha]. by apply Hk. Qed.

Lemma spec_unhide id g f o w :
  Inv w -> spec (tse_unhide depth cwd data_dir id g f o)
    (fun _ w' => edited w id (fun img img' => exists guid r,
       guid_try_parse g = Some guid /\ Tse.tse_unhide guid_error guid f o img = (img', Ok r)) w') w.
Proof.
  intros Hw. unfold tse_unhide. apply spec_argument; [done|]. intros guid Hg. apply spec_argument; [done|].
  intros fid Hf. assert (fid = f) as -> by (destruct (65535 <? f); congruence).
  assert (guid_try_parse g = Some guid) as Hg' by (destruct (guid_try_parse g); [by injection Hg as ->|done]).
  eapply spec_weaken; [|apply (spec_edit_some id (Tse.tse_unhide guid_error guid f o) g (fun _ => true)
    (fun out => R_TseUnhide (sat32 (uh_pe_offset out)) (sat32 (uh_entry_pe_offset out))));
    [done|apply tse_unhide_root]].
  intros resp w' _ (a & _ & H). eapply edited_mono; [|exact H]. intros img img' Hx. by exists guid, a.
Qed.

Lemma spec_setup_edit q id f w :
  Inv w -> setup_edit q = Some (id, f) -> spec (handle q) (fun _ w' => edited w id f w') w.
Proof.
  intros Hw Hq. destruct q; try done; injection Hq as <- <-; cbn [Server.handle].
  - unfold hii_set_form_visibility.
    apply (spec_setup image_id _ (set_item_visibility item_id visible) (fun _ => R_Empty));
      [done|apply set_item_visibility_root|by intros img img' []].
  - unfold nvar_set. eapply spec_weaken; [|apply (spec_edit_flush image_id (set_variable name guid offset value width)
      (fun out => R_NvarSet (applied out) (stores out))); [done|intros img; apply set_variable_only]].
    intros resp w' _. apply edited_mono. intros img img' [a H]. unfold set_variable in H.
    destruct (NvarStores.nvar_set img name guid offset value width) as [[i x]|e| |] eqn:Hn; try done. injection H as -> ->. eauto.
  - unfold hii_form_set_add. apply spec_argument; [done|]. intros sch Hs%map_err_ok.
    apply spec_argument; [done|]. intros tg Ht.
    apply (spec_setup image_id _ (add_setup_formset guid_error sch tg)
      (fun r => R_FormSetAdd (guid_to_string (as_new_ffs_guid r)) (as_inserted_form_ids r) (as_string_ids r)));
      [done|apply add_setup_formset_root|eauto 10].
  - unfold hii_form_add. apply spec_argument; [done|]. intros sch Hs%map_err_ok.
    apply (spec_setup image_id _ (add_form guid_error target sch)
      (fun r => R_FormAdd (af_inserted_form_ids r) (af_string_ids r))); [done|apply add_form_root|eauto 10].
  - unfold hii_form_hijack. apply spec_argument; [done|]. intros sch Hs%map_err_ok.
    apply spec_argument; [done|]. intros sd Ht.
    apply (spec_setup image_id _ (hijack_form dbg target sch sd)
      (fun r => R_FormHijack (hj_string_ids r) (hj_form_ifr_start r) (hj_form_ifr_end r) (hj_unlock_flips r)
          (map help_control_proto (hj_help_controls r)) (map help_record_proto (hj_help_records r))));
      [done|apply hijack_form_root|eauto 10].
  - unfold hii_question_add. apply spec_argument; [done|]. intros sch Hs%map_err_ok.
    apply (spec_setup image_id _ (add_questions target sch) (fun r => R_QuestionAdd (fst r) (snd r)));
      [done|apply add_questions_root|eauto 10].
  - unfold hii_page_add. apply spec_argument; [done|]. intros sch Hs%map_err_ok.
    apply (spec_setup image_id _ (add_page target sch)
      (fun r => R_PageAdd (ap_form_id r) (wrap 32 (ap_slot r)) (wrap 32 (ap_page_offset r)) (ap_title_string_id r)));
      [done|apply add_page_root|eauto 10].
  - by apply spec_unhide.
Qed.

Lemma spec_persists q w : Inv w -> careful (J_Request q) -> spec (handle q) (persists q w) w.
Proof.
  intros Hw Hc. destruct (tree_edit q) as [[id f]|] eqn:Ht.
  - eapply spec_weaken; [|by eapply spec_tree_edit]. intros resp w' _. unfold persists. by rewrite Ht.
  - destruct (setup_edit q) as [[id f]|] eqn:Hs.
    + eapply spec_weaken; [|by eapply spec_setup_edit]. intros resp w' _. unfold persists. by rewrite Ht, Hs.
    + pose proof (spec_handle q w Hw Hc Ht Hs) as H. unfold persists. rewrite Ht, Hs.
      destruct q; try exact H; clear H.
      all: first [exact (spec_unlock _ _ _ Hw)|exact (spec_set_value _ _ _ _ Hw)
        |exact (spec_snapshot_create _ _ _ Hw)|exact (spec_restore _ _ _ Hw)].
Qed.
Lemma spec_job j w : Inv w -> careful j -> keeps (job j) w.
Proof.
  intros Hw Hc. destruct j as [q|]; cbn [Server.job].
  - by eapply keeps_weaken, spec_persists.
  - eapply pspec_bind; [by apply keeps_gc|]. intros _ w1 Hw1 _. by apply pspec_ret.
Qed.
End Requests.
