(* ===== verification/ServiceFacts.v ===== *)
(** What the service promises: the stored images survive every failure, acknowledged edits
    are on the disk, snapshots restore their bytes, a flush is atomic, the collector
    removes exactly the expired sessions, and tokens identify sessions. *)
From stdpp Require Import gmap sorting.
From S2P Require Import Prelude Text Types Ffs Tiano Codec Listing Parser Target Ops Nvar NvarStores.
From S2P Require Import Hii Values Ifr Gates StringPack Schema Spf PeResource ImageStrings ImageGates ImageValues.
From S2P Require Import Channels SetupAdd QuestionAdd Hijack Tse FormExport.
From S2P Require Import Storage Listing ImageParser Builder Server.
From S2P Require Import StorageFacts ServerFacts StoredFacts RequestFacts.

Section Service.
Context {GL : GuidLib} {LL : LzmaLib} {LC : Lowercase} {RH : RefiHii} {OP : ObjectPe} {ST : SchemaText}.
Context (dbg : Wraps -> ustring) (dbg_str : ustring -> ustring).
Context (depth : nat) (cwd : path) (pwd data_dir : ustring) (ttl_secs : Z) (purge_artifacts : bool).
Abbreviation handle := (handle dbg dbg_str depth cwd pwd data_dir purge_artifacts).
Abbreviation job := (job dbg dbg_str depth cwd pwd data_dir ttl_secs purge_artifacts).
Abbreviation careful := (careful cwd data_dir purge_artifacts).
Abbreviation sound := (sound depth cwd data_dir).

(** ** Sequences of requests *)

(** One request or tick that runs to its end, or in which the process ends and starts
    again; no uuid is [n]. *)
Inductive serve (n : ustring) (w : World) : World -> Prop :=
| serve_done j ins w' o :
    careful j -> admissible (fresh n) ins (job j) w -> run ins (job j) w = (w', Some o) -> serve n w w'
| serve_ended j ins w' :
    careful j -> admissible (fresh n) ins (job j) w -> run ins (job j) w = (w', None) -> serve n w (restart w').
Definition serves (n : ustring) : World -> World -> Prop := rtc (serve n).

Lemma sound_Inv b w : sound w -> Inv depth cwd data_dir [] b w.
Proof.
  intros H. split; [done|]. intros i s Hn _. destruct (so_snapshots _ _ _ _ H _ _ Hn) as [[] _]. done.
Qed.

Lemma spec_run {A} n b (p : prog Status A) P ins w :
  Inv depth cwd data_dir n b w -> spec depth cwd data_dir n b p P w -> admissible (fresh n) ins p w ->
  match run ins p w with
  | (w', Some (Ok a)) => Inv depth cwd data_dir n b w' /\ P a w'
  | (w', _) => Inv depth cwd data_dir n b w'
  end.
Proof.
  intros Hw Hp Ha. pose proof (wp_run _ _ _ _ _ _ Hw Hp Ha) as H.
  destruct (run ins p w) as [w' [[a|e| |]|]]; tauto.
Qed.

Lemma serve_Inv n b w w' : Inv depth cwd data_dir n b w -> serve n w w' -> Inv depth cwd data_dir n b w'.
Proof.
  intros Hw Hs. destruct Hs as [j ins w' o Hc Ha Hr|j ins w' Hc Ha Hr];
    pose proof (spec_run n b _ _ _ _ Hw (spec_job dbg dbg_str depth cwd pwd data_dir ttl_secs purge_artifacts n b j w Hw Hc) Ha) as H;
    rewrite Hr in H.
  - destruct o; tauto.
  - by apply Inv_restart.
Qed.
Lemma serves_Inv n b w w' : Inv depth cwd data_dir n b w -> serves n w w' -> Inv depth cwd data_dir n b w'.
Proof. intros Hw H. induction H as [|? ? ? Hs _ IH]; [done|]. apply IH. by eapply serve_Inv. Qed.

(** The state of a new installation. *)
Definition empty_world : World :=
  {| db := {| sessions := []; artifacts := []; images := []; image_snapshots := [] |}; disk := ∅; cache := ∅ |}.
Lemma sound_empty : sound empty_world.
Proof.
  split; cbn; try by intros.
  - split; cbn; try apply NoDup_nil_2; by intros ? ?%elem_of_nil.
  - by intros ? ?%elem_of_nil.
  - by intros ? ? ?%elem_of_nil.
  - by intros ? ? ?%elem_of_nil.
  - by intros ? ? ?%elem_of_nil.
  - by intros ? ? ? ?%elem_of_nil.
Qed.

(** C6. After any sequence of careful requests, one after the other, and ticks of the
    collector, with calls of the system failing and the process ending anywhere in between,
    the tables are consistent, every image and every snapshot has its file, and each of
    these files parses. Careful means that outputs are written outside of the data
    directory and that, when files are purged, sessions are destroyed by an identifier. *)
Theorem stored_images_sound w w' : sound w -> serves [] w w' -> sound w'.
Proof. intros Hw Hs. by apply (serves_Inv [] [] w w' (sound_Inv [] w Hw) Hs). Qed.

(** C4. An acknowledged edit of a request that runs alone is on the disk: when a request
    that edits an image succeeds, with no other request between its steps, the edit was applied to the image in memory or to the parse of its file, the stored file
    is the build output of the edited tree, the image in memory is its parse, and that has
    no fewer files than the edited tree; requests that changed nothing left the disk as it
    was. Of the requests that write an output elsewhere or destroy a session this only
    speaks when they are careful. *)
Theorem acknowledged_edits_persist q ins w w' resp :
  sound w -> careful (J_Request q) -> admissible (fresh []) ins (handle q) w ->
  run ins (handle q) w = (w', Some (Ok resp)) ->
  persists dbg dbg_str depth cwd data_dir q w resp w'.
Proof.
  intros Hw Hc Ha Hr. pose proof (sound_Inv [] w Hw) as Hi.
  pose proof (spec_run _ _ _ _ _ _ Hi (spec_persists dbg dbg_str depth cwd pwd data_dir purge_artifacts [] [] q w Hi Hc) Ha) as H.
  rewrite Hr in H. by destruct H.
Qed.

(** C7. A snapshot that was created restores bit by bit, if it can still be restored, after
    any sequence of careful jobs one after the other: when restoring it succeeds (the image
    was not closed and the snapshot not removed in between), the stored file of the image has the bytes it had
    when the snapshot was made, and the image in memory is dropped, so it is read again. *)
Theorem snapshots_restore id name ins1 ins2 w0 w1 w2 w3 n t resp :
  sound w0 ->
  admissible (fresh []) ins1 (handle (Q_ImageSnapshotCreate id name)) w0 ->
  run ins1 (handle (Q_ImageSnapshotCreate id name)) w0 = (w1, Some (Ok (R_SnapshotCreate n t))) ->
  serves n w1 w2 ->
  admissible (fresh n) ins2 (handle (Q_ImageSnapshotRestore id n)) w2 ->
  run ins2 (handle (Q_ImageSnapshotRestore id n)) w2 = (w3, Some (Ok resp)) ->
  exists b, stored cwd data_dir w0 id b /\ stored cwd data_dir w3 id b /\ cache w3 !! id = None.
Proof.
  intros Hw0 Ha1 Hr1 Hs Ha2 Hr2. pose proof (sound_Inv [] w0 Hw0) as Hi.
  pose proof (spec_run _ _ _ _ _ _ Hi (spec_persists dbg dbg_str depth cwd pwd data_dir purge_artifacts [] [] (Q_ImageSnapshotCreate id name) w0 Hi I) Ha1) as H1.
  rewrite Hr1 in H1. destruct H1 as [[Hw1 _] (n' & t' & b & [= <- <-] & Hn & Hst & Hsn & Hf)].
  assert (Inv depth cwd data_dir n b w1) as Hi1.
  { split; [done|]. intros i s Hni His. assert (i = id) as ->; [|by apply Hf].
    apply list_elem_of_fmap in Hni as (r & [= Hr1' ->] & Hrr), Hsn as (r' & [= Hr2' ->] & Hrr').
    pose proof (find_row_unique sn_id n _ r (ok_snapshots _ (so_db _ _ _ _ Hw1)) Hrr (eq_sym Hr1')) as F1.
    pose proof (find_row_unique sn_id n _ r' (ok_snapshots _ (so_db _ _ _ _ Hw1)) Hrr' (eq_sym Hr2')) as F2. congruence. }
  pose proof (serves_Inv _ _ _ _ Hi1 Hs) as Hi2.
  pose proof (spec_run _ _ _ _ _ _ Hi2 (spec_persists dbg dbg_str depth cwd pwd data_dir purge_artifacts n b (Q_ImageSnapshotRestore id n) w2 Hi2 I) Ha2) as H2.
  rewrite Hr2 in H2. destruct H2 as [_ (b' & [Hk Hb'] & Hst3 & Hc)]. exists b. split_and!; [done| |done].
  assert (b' = b) as ->; [|done].
  pose proof (sn_keys_image _ _ _ (so_db _ _ _ _ (proj1 Hi2)) Hk) as (r & -> & Hr)%list_elem_of_fmap.
  pose proof (im_keys_row _ _ Hr) as Hkey. pose proof (Hb' _ Hkey) as H1. pose proof (proj2 Hi2 _ _ Hk Hkey) as H2. congruence.
Qed.

(** ** Flushing *)

(** The build output that may replace the stored file of [img]. *)
Definition flushable (img : Image) (b : list byte) : Prop :=
  build_image img = Ok b /\
  exists r, parse_image depth b (mode img) (image_id img) (session_id img) = Ok r /\
    count_live_files (root img) <= count_files (root r) /\
    (volume_count (root r) = 0 -> volume_count (root img) <= 0).

(** The file of the image before and after. *)
Definition file_flushed (ins : list Input) (w : World) (img : Image) (b : list byte) (w' : World) : Prop :=
  let p := image_at cwd data_dir (session_id img) (image_id img) in
  flushable img b /\ file_at (disk w') p = Some b /\
  (forall old, file_at (disk w) p = Some old -> blen old <= blen b \/ exists i, i ∈ ins /\ i_fault i <> []).

Lemma wp_pure {E A} R (I : World -> Prop) (f : Input -> World -> outcome E A) Q w :
  I w -> (forall i, R i w -> Q (f i w) w) -> wp R I (step (fun i w => (w, f i w))) Q w.
Proof. intros Hw H. apply wp_step. intros i Hi. split; [done|]. by apply H. Qed.

Section Flush.
Context (ins : list Input) (id : ustring) (img : Image) (w : World).
Context (Hc : cache w !! id = Some img) (Hid : plain id) (Hs : plain (session_id img)) (Hi : image_id img = id).
Let p := image_at cwd data_dir (session_id img) (image_id img).
Let same w' := file_at (disk w') p = file_at (disk w) p.
Let flushed w' := exists b, file_flushed ins w img b w'.
Let R (i : Input) (_ : World) := i ∈ ins.
Let I w' := same w' \/ flushed w'.
Let Q (o : outcome Status unit) w' := flushed w' \/ same w' /\ o <> Ok tt.

Lemma write_flushed_wp b :
  build_image img = Ok b ->
  (forall old, file_at (disk w) p = Some old -> blen old <= blen b \/ exists i, i ∈ ins /\ i_fault i <> []) ->
  wp R I (write_flushed depth cwd id (image_file data_dir (session_id img) id) b) Q w.
Proof.
  intros Hb Hsize. unfold write_flushed. apply wp_bind, wp_pure; [by left|]. intros i _.
  rewrite Hc. cbn [ok_or mbind outcome_bind].
  destruct (validate_flush_bytes depth img b) as [r|e| |] eqn:Hv; cbn [then_]; try (by right).
  assert (flushable img b) as Hfl by (split; [done|]; exists r; by apply flush_parse).
  apply wp_bind, wp_on_error.
  apply (wp_atomic_write _ _ _ _ _ _ _ p (image_tmp_at cwd data_dir (session_id img) id)).
  - unfold p. rewrite Hi. by apply at_image_file.
  - by apply at_image_tmp.
  - unfold p. rewrite Hi. by apply image_tmp_ne.
  - intros d Hk.
    assert (same (with_disk d w)) as Hsame.
    { apply Hk. unfold p. rewrite Hi. intros H%list_elem_of_singleton. by apply image_tmp_ne in H. }
    split; [by left|]. intros e. by right.
  - intros d _ Hf. assert (flushed (with_disk d w)) as Hdone by by exists b.
    split; [by right|]. cbn [on_err then_].
    apply wp_bind, wp_step. intros i1 _. cbn [fst snd then_].
    assert (forall w', disk w' = d -> flushed w') as Hany.
    { intros w' Hd. exists b. unfold file_flushed. by rewrite Hd. }
    assert (forall w', disk w' = d ->
      wp R I (or_internal (statement (fun now d => Ok (touch_image id now d)))) Q w') as Htouch.
    { intros w' Hd. apply wp_on_error, wp_step. intros i2 _. unfold execute. cbn.
      destruct (fault 0 i2); cbn; (split; [right; by apply Hany|left; by apply Hany]). }
    cbn [cache with_disk]. rewrite Hc. split; [right; by apply Hany|]. by apply Htouch.
Qed.

Lemma flush_wp : wp R I (flush_image depth cwd data_dir id) Q w.
Proof.
  unfold flush_image. apply wp_bind, wp_pure; [by left|]. intros i0 _. rewrite Hc. cbn [ok_or mbind outcome_bind].
  destruct (build_image img) as [b|e| |] eqn:Hb; cbn [map_err mbind outcome_bind mret outcome_ret then_]; try (by right).
  apply wp_bind, wp_on_error, (wp_pure R I (fun i w => Ok (fs_len (fault 0 i) (disk w) _))); [by left|].
  intros i1 Hi1. rewrite at_image_file by done. cbn [on_err then_].
  pose proof (write_flushed_wp b Hb) as Hrest. unfold p in Hrest. rewrite Hi in Hrest.
  unfold fs_len. destruct (fault 0 i1) as [f|] eqn:Hf.
  - apply Hrest. intros old _. right. exists i1. split; [done|]. intros Hn. unfold fault in Hf. by rewrite Hn in Hf.
  - destruct (disk w !! image_at cwd data_dir (session_id img) id) as [[old|]|] eqn:Hd.
    + destruct (Z.ltb_spec (blen b) (blen old)); [by right|]. apply Hrest. unfold file_at. rewrite Hd. intros ? [= <-]. by left.
    + destruct (blen b <? DIR_LEN); [by right|]. apply Hrest. unfold file_at. by rewrite Hd.
    + apply Hrest. unfold file_at. by rewrite Hd.
Qed.
End Flush.

Lemma admissible_elem {E A} l ins (p : prog E A) w : ins ⊆ l -> admissible (fun i _ => i ∈ l) ins p w.
Proof.
  revert p w. induction ins as [|i ins IH]; intros [o|f] w Hl; cbn; try done. split; [apply Hl; by left|].
  destruct (f i w) as [w' p']. apply IH. intros x Hx. apply Hl. by right.
Qed.

(** C5. A flush never damages the stored file: wherever a call of the system fails or the
    process ends, the file is as before, or it is the whole build output of the image,
    which was checked before: it parses, with no fewer files than the image has and not
    without volumes, and it is not shorter than what was stored unless a call failed. When
    the flush succeeds it is the build output. *)
Theorem flush_atomic ins id img w w' o :
  cache w !! id = Some img -> plain id -> plain (session_id img) -> image_id img = id ->
  run ins (flush_image depth cwd data_dir id) w = (w', o) ->
  (exists b, file_flushed ins w img b w') \/
  file_at (disk w') (image_at cwd data_dir (session_id img) id) =
    file_at (disk w) (image_at cwd data_dir (session_id img) id) /\ o <> Some (Ok tt).
Proof.
  intros Hc Hid Hs Hi Hr. pose proof (flush_wp ins id img w Hc Hid Hs Hi) as H.
  eapply wp_run in H; [|by left|by apply (admissible_elem ins ins)].
  rewrite Hr, Hi in H. destruct o as [o|]; [|by destruct H as [H|H]; [right|left]].
  destruct H as [H|[H Hn]]; [by left|right]. split; [done|]. congruence.
Qed.

(** ** The collector *)

Definition gone (id : ustring) (d : Db) : Db := delete_session_row id (delete_artifacts_for_session id d).

Lemma gone_ok id d : db_ok d -> db_ok (gone id d).
Proof. intros H. by apply delete_session_row_ok, delete_artifacts_ok. Qed.
Lemma gone_sessions id d r : r ∈ sessions (gone id d) <-> r ∈ sessions d /\ se_id r <> id.
Proof. apply others_elem. Qed.
Lemma gone_images id d r : db_ok d -> r ∈ images (gone id d) <-> r ∈ images d /\ im_session_id r <> id.
Proof.
  intros Hd. unfold gone, delete_session_row, cascade_sessions, cascade_snapshots. cbn.
  rewrite list_elem_of_In, filter_In, <- list_elem_of_In, has_row_elem, list_elem_of_fmap.
  split; intros [Hr H]; (split; [done|]).
  - destruct H as (s & -> & Hs). by apply others_elem in Hs as [_ ?].
  - apply (ok_image_session _ Hd) in Hr as (s & Hs & Hin)%list_elem_of_fmap. exists s. split; [done|].
    apply others_elem. split; [done|]. congruence.
Qed.

Definition all_gone (l : list ustring) (d : Db) : Db := fold_left (fun d id => gone id d) l d.
Lemma all_gone_elem l d :
  db_ok d ->
  (forall r, r ∈ sessions (all_gone l d) <-> r ∈ sessions d /\ (se_id r ∉ l)) /\
  (forall r, r ∈ images (all_gone l d) <-> r ∈ images d /\ (im_session_id r ∉ l)).
Proof.
  revert d. induction l as [|id l IH]; intros d Hd; cbn.
  - split; intros r; (split; [intros H; split; [done|apply not_elem_of_nil]|by intros []]).
  - destruct (IH (gone id d) (gone_ok id d Hd)) as [H1 H2]. split; intros r.
    + rewrite H1, gone_sessions, not_elem_of_cons. tauto.
    + rewrite H2, gone_images, not_elem_of_cons by done. tauto.
Qed.

(** No call of the system fails. *)
Definition faultless (i : Input) : Prop := i_fault i = [].
Lemma faultless_fault i k : faultless i -> fault k i = None.
Proof. unfold faultless, fault. by intros ->. Qed.

Lemma run_gone l ins w :
  Forall faultless ins -> (2 * length l <= length ins)%nat ->
  exists w', run ins (prog_each (fun id => @ignore _ Anyhow Status (destroy_session cwd data_dir id purge_artifacts)) l) w
    = (w', Some (Ok tt)) /\ db w' = all_gone l (db w).
Proof.
  revert ins w. induction l as [|id l IH]; intros ins w Hf Hlen; [exists w; by destruct ins|].
  destruct ins as [|i [|j ins]]; cbn [length] in Hlen; [lia..|].
  apply Forall_cons in Hf as [Hi Hf]. cbn [prog_each].
  unfold destroy_session, delete_session_metadata, delete_session, locked_db, execute, step.
  cbn. rewrite !(faultless_fault _ _ Hi). cbn. fold (gone id (db w)).
  destruct purge_artifacts; cbn.
  - apply Forall_cons in Hf as [Hj Hf]. unfold ignore, on_disk, step. cbn. rewrite (faultless_fault _ _ Hj).
    match goal with |- context [fs_remove_dir_all None ?p ?d] =>
      pose proof (remove_dir_all_total None p d) as Ht; destruct (fs_remove_dir_all None p d) as [d1 o] end.
    destruct (IH ins (with_disk d1 (with_db (gone id (db w)) w)) Hf ltac:(lia)) as (w' & Hrun & Hdb).
    exists w'. split; [|done]. destruct o; done || exact Hrun.
  - destruct (IH (j :: ins) (with_db (gone id (db w)) w) Hf) as (w' & Hrun & Hdb); [cbn; lia|].
    exists w'. split; [|done]. exact Hrun.
Qed.

Lemma run_then_ret {E A B} ins (p : prog E A) (g : A -> B) w w' a :
  run ins p w = (w', Some (Ok a)) -> run ins (p ≫= fun a => mret (g a)) w = (w', Some (Ok (g a))).
Proof.
  unfold mbind, prog_mbind. revert p w. induction ins as [|i ins IH]; intros [o|f] w; cbn; try done.
  - by intros [= -> ->].
  - by intros [= -> ->].
  - destruct (f i w) as [w1 p1]. apply IH.
Qed.

Lemma expired_elem now d r :
  db_ok d -> r ∈ sessions d -> (se_id r ∉ list_expired ttl_secs now d) <-> now - ttl_secs <= se_last_activity r.
Proof.
  intros Hd Hr. unfold list_expired. rewrite list_elem_of_In, in_map_iff. split.
  - intros H. destruct (Z.le_gt_cases (now - ttl_secs) (se_last_activity r)) as [?|Hlt]; [done|]. destruct H.
    exists r. split; [done|]. rewrite filter_In, <- list_elem_of_In, Z.ltb_lt. lia || done.
  - intros Hle (r' & Hid & [Hr' Hlt%Z.ltb_lt]%filter_In). apply list_elem_of_In in Hr'.
    pose proof (find_row_unique _ _ _ r (ok_sessions _ Hd) Hr eq_refl).
    pose proof (find_row_unique _ _ _ r' (ok_sessions _ Hd) Hr' Hid). assert (r' = r) as -> by congruence. lia.
Qed.

(** C9. A tick of the collector removes what is due: when no call fails it runs to its end,
    and then the sessions that were idle for longer than the time to live are gone with
    their images, while all other sessions and their images are still there. *)
Theorem gc_collects i ins w :
  db_ok (db w) -> Forall faultless (i :: ins) -> (2 * length (sessions (db w)) <= length ins)%nat ->
  exists w',
    run (i :: ins) (job J_Collect) w = (w', Some (Ok R_Empty)) /\
    (forall r, r ∈ sessions (db w') <-> r ∈ sessions (db w) /\ i_now i - ttl_secs <= se_last_activity r) /\
    (forall r, r ∈ images (db w') <->
       r ∈ images (db w) /\ exists s, s ∈ sessions (db w') /\ se_id s = im_session_id r).
Proof.
  intros Hd [Hi Hf]%Forall_cons Hlen. set (l := list_expired ttl_secs (i_now i) (db w)).
  destruct (run_gone l ins (with_db (db w) w) Hf) as (w' & Hrun & Hdb).
  { unfold l, list_expired. rewrite length_map. pose proof (filter_length_le (fun r => se_last_activity r <? i_now i - ttl_secs) (sessions (db w))). lia. }
  exists w'. destruct (all_gone_elem l (db w) Hd) as [H1 H2]. cbn [db with_db] in Hdb. rewrite <- Hdb in H1, H2.
  assert (forall r, r ∈ sessions (db w') <-> r ∈ sessions (db w) /\ i_now i - ttl_secs <= se_last_activity r) as Hs.
  { intros r. rewrite H1. split; intros [Hr H]; (split; [done|]); by apply (expired_elem (i_now i) (db w) r Hd Hr). }
  split_and!; [|done|].
  - cbn [Server.job]. apply (run_then_ret _ _ (fun _ => R_Empty) _ _ tt). unfold gc_tick, query, locked_db, step. cbn.
    rewrite (faultless_fault _ _ Hi). cbn. exact Hrun.
  - intros r. rewrite H2. split.
    + intros [Hr Hn]. split; [done|]. apply (ok_image_session _ Hd) in Hr as Hx.
      apply list_elem_of_fmap in Hx as (s & Hs1 & Hs2). exists s. split; [|done]. apply H1. split; [done|]. by rewrite <- Hs1.
    + intros [Hr (s & Hs1 & Hs2)]. split; [done|]. apply H1 in Hs1 as [_ Hn]. by rewrite <- Hs2.
Qed.

(** ** Tokens *)

(** A request is let through exactly when it names a session that exists and carries
    its token. *)
Theorem check_auth_spec i md w :
  faultless i -> db_ok (db w) ->
  snd (run [i] (check_auth md) w) = Some (Ok tt) <->
  exists auth sid tok r,
    (md (us "authorization") ≫= header_text) = Some auth /\ (md (us "x-session-id") ≫= header_text) = Some sid /\
    strip_prefix (us "Bearer ") auth = Some tok /\
    r ∈ sessions (db w) /\ se_id r = sid /\ se_token r = tok.
Proof.
  intros Hi Hd. unfold check_auth, some_or. generalize (us "Bearer ") as bearer. intros bearer.
  destruct (md (us "authorization") ≫= header_text) as [auth|]; [|split; [done|by intros (? & ? & ? & ? & ? & _)]].
  cbn [ok_or mbind prog_mbind prog_bind].
  destruct (strip_prefix bearer auth) as [tok|] eqn:Ht;
    [|split; [done|intros (? & ? & ? & ? & [= <-] & _ & H & _); congruence]].
  cbn [ok_or mbind prog_mbind prog_bind].
  destruct (md (us "x-session-id") ≫= header_text) as [sid|]; [|split; [done|by intros (? & ? & ? & ? & _ & ? & _)]].
  cbn [ok_or mbind prog_mbind prog_bind].
  unfold validate_token, query, locked_db, step. cbn. rewrite (faultless_fault _ _ Hi). cbn.
  destruct (get_session sid (db w)) as [r|] eqn:Hr; cbn.
  - unfold get_session in Hr. apply find_row_elem in Hr as [Hr Hid].
    destruct (bool_decide_reflect (se_token r = tok)) as [Heq|Hne]; cbn.
    + split; [|done]. intros _. by exists auth, sid, tok, r.
    + split; [done|].
      intros (auth' & sid' & tok' & r' & [= <-] & [= <-] & Ht' & Hr' & Hid' & Htok'). destruct Hne.
      pose proof (find_row_unique _ _ _ r (ok_sessions _ Hd) Hr Hid).
      pose proof (find_row_unique _ _ _ r' (ok_sessions _ Hd) Hr' Hid'). congruence.
  - split; [done|]. intros (auth' & sid' & tok' & r' & [= <-] & [= <-] & Ht' & Hr' & Hid' & Htok').
    pose proof (find_row_unique _ _ _ r' (ok_sessions _ Hd) Hr' Hid'). unfold get_session in Hr. congruence.
Qed.
End Service.
