(* ===== verification/ParserFacts.v ===== *)
(** What the parsers guarantee: a parsed volume, file or section is a verbatim
    slice of its buffer, the lists of files and sections tile theirs, and no
    parser of this level panics or loops. *)
From S2P Require Import Prelude Types Ffs Tiano Codec Parser.
From S2P Require Import TianoFacts ImageParser.

Section ParserFacts.
Context {GL : GuidLib} {LL : LzmaLib}.

(** The node [n] is the slice of [buf] that starts at [off]. *)
Definition verbatim (buf : list byte) (off : Z) (n : FfsNode) : Prop :=
  0 <= off /\ off + blen (raw n) <= blen buf /\
  raw n = sub buf off (off + blen (raw n)) /\ action n = NoAction.

Lemma verbatim_set_children buf off c n :
  verbatim buf off n -> verbatim buf off (set_children c n).
Proof. unfold verbatim. by autorewrite with setters. Qed.

Lemma verbatim_set_offset buf off o n :
  verbatim buf off n -> verbatim buf off (set_offset o n).
Proof. by destruct n. Qed.

(** ** Volumes *)

Lemma parse_volume_Ok buf off v :
  0 <= off -> parse_volume buf off = Ok v ->
  verbatim buf off v /\ offset v = off /\ node_type v = T_Volume /\ tail v = [] /\
  children v = [] /\ 56 <= blen (header v).
Proof.
  intros Ho H. unfold parse_volume in H. ok_inv; simpl.
  all: try match goal with H : uadd _ _ = Ok _ |- _ => unfold uadd in H; ok_inv end.
  unfold verbatim, raw; simpl. rewrite app_nil_r, blen_app, !blen_sub by lia.
  rewrite sub_join by lia. split_and!; auto; try lia. f_equal. lia.
Qed.

(** ** Files *)

Lemma read_uint24_bounds {E} l off z :
  read_uint24 (E := E) l off = Ok z -> 0 <= z < 2 ^ 24.
Proof. unfold read_uint24. intros H. ok_inv. apply uint24_bounds. Qed.

Lemma section_size_bounds {E} h z : section_size (E := E) h = Ok z -> 0 <= z < 2 ^ 32.
Proof.
  unfold section_size. intros H. ok_inv.
  - pose proof (le_dec_bounds (sub h 4 (4 + 4))) as Hd. rewrite blen_sub in Hd by lia. lia.
  - apply read_uint24_bounds in H. lia.
Qed.

Lemma ffs_file_size_bounds {E} h z : ffs_file_size (E := E) h = Ok z -> 0 <= z < 2 ^ 32.
Proof.
  unfold ffs_file_size. intros H. ok_inv; [|lia|].
  - pose proof (le_dec_bounds (sub h 24 (24 + 4))) as Hd. rewrite blen_sub in Hd by lia. lia.
  - apply read_uint24_bounds in H. lia.
Qed.

(** The length of the checksum tail of a revision-1 file. *)
Definition tail_len (rev : byte) : Z := if bool_decide (rev = x01) then 2 else 0.

Lemma tail_len_cases rev : tail_len rev = 0 /\ rev <> x01 \/ tail_len rev = 2 /\ rev = x01.
Proof. unfold tail_len. case_bool_decide; auto. Qed.

Lemma tail_len_bounds rev : 0 <= tail_len rev <= 2.
Proof. unfold tail_len. case_bool_decide; lia. Qed.

(** The slices of the buffer a parsed file is made of. *)
Record file_shape (buf : list byte) (off : Z) (rev : byte) (f : FfsNode) (hdr total : Z) : Prop := {
  fs_hdr : hdr = 24 \/ hdr = 32;
  fs_total : hdr <= total;
  fs_range : off + total <= blen buf;
  fs_header : header f = sub buf off (off + hdr);
  fs_body : body f = if off + hdr <? off + total - tail_len rev
                     then sub buf (off + hdr) (off + total - tail_len rev) else [];
  fs_tail : tail f = sub buf (off + total - tail_len rev) (off + total);
  fs_type : node_type f = T_File;
  fs_offset : offset f = off;
  fs_children : children f = [];
  fs_action : action f = NoAction
}.

Lemma parse_file_shape buf off erase rev f :
  0 <= off -> parse_file buf off erase rev = Ok f ->
  exists hdr total, file_shape buf off rev f hdr total.
Proof.
  intros Ho H. unfold parse_file, slice_from in H. fold (tail_len rev) in H.
  ok_inv.
  all: match goal with H : ffs_file_size _ = Ok ?t |- _ =>
    apply ffs_file_size_bounds in H;
    exists (if is_large_ffs (sub buf off (blen buf)) then 32 else 24), t end.
  all: destruct (is_large_ffs _), (tail_len_cases rev) as [[Ht ?]|[Ht ?]];
    rewrite Ht in *; try lia.
  all: constructor; simpl; rewrite ?Ht; auto; try lia.
  all: try match goal with |- context [if ?b then _ else _] => destruct b eqn:?; try lia end.
  all: rewrite ?Z.sub_0_r, ?sub_empty; try done; f_equal; lia.
Qed.

(** Unless the tail of a revision-1 file overlaps its header, the file is the
    verbatim slice of its [total] bytes. *)
Lemma file_shape_verbatim buf off rev f hdr total :
  0 <= off -> file_shape buf off rev f hdr total -> hdr + tail_len rev <= total ->
  blen (raw f) = total /\ verbatim buf off f.
Proof.
  intros Ho [Hh Ht Hr Hhd Hbd Htl _ _ _ Ha] Hfit. pose proof (tail_len_bounds rev).
  assert (raw f = sub buf off (off + total)) as Hraw.
  { unfold raw. rewrite Hhd, Hbd, Htl.
    destruct (Z.ltb_spec (off + hdr) (off + total - tail_len rev)).
    - rewrite (sub_join buf (off + hdr)) by lia. rewrite sub_join by lia. done.
    - replace (off + hdr) with (off + total - tail_len rev) by lia. simpl.
      rewrite sub_join by lia. done. }
  assert (blen (raw f) = total) as Hlen by (rewrite Hraw, blen_sub; lia).
  split; [done|]. unfold verbatim. rewrite Hlen. auto.
Qed.

(** ** Sections *)

(** A run of nodes laid out from the cursor [off]: each one is at the aligned
    cursor and moves the cursor to its end. *)
Inductive tiled (al : Z -> Z) (P : Z -> FfsNode -> Prop) : Z -> list FfsNode -> Z -> Prop :=
| tiled_nil off : tiled al P off [] off
| tiled_snoc off ns n cur :
    tiled al P off ns cur -> P (al cur) n ->
    tiled al P off (ns ++ [n]) (al cur + blen (raw n)).

Definition section_at (buf : list byte) (off : Z) (n : FfsNode) : Prop :=
  verbatim buf off n /\ offset n = off /\ node_type n = T_Section /\ tail n = [] /\
  4 <= blen (header n).

(** The size field does not depend on the error type of the caller. *)
Lemma section_size_error E {F} h z :
  section_size (E := E) h = Ok z -> section_size (E := F) h = Ok z.
Proof.
  unfold section_size. destruct (is_large_section h).
  - rewrite !rd_le_Ok. done.
  - unfold read_uint24, index. destruct (get h 0), (get h (0 + 1)), (get h (0 + 2));
      intros H; try discriminate H; injection H as <-; done.
Qed.

Lemma parse_section_Ok rec buf off n :
  0 <= off -> parse_section rec buf off = Ok n ->
  section_at buf off n /\
  section_size (E := Empty_set) (sub buf off (blen buf)) = Ok (blen (raw n)).
Proof.
  intros Ho H. unfold parse_section, slice_from in H. ok_inv. bool_to_prop.
  match goal with H : section_size _ = Ok ?s |- _ =>
    rename H into Hs; pose proof (section_size_bounds _ _ Hs); set (size := s) in * end.
  assert (4 <= (if is_large_section (sub buf off (blen buf)) then 8 else 4)) as Hh
    by (destruct (is_large_section _); lia).
  set (hd := if is_large_section (sub buf off (blen buf)) then 8 else 4) in *.
  match goal with |- context [blen (raw ?n)] =>
    assert (raw n = sub buf off (off + size)) as Hraw
      by (unfold raw; simpl; by rewrite app_nil_r, sub_join by lia) end.
  assert (blen (sub buf off (off + size)) = size) as Hlen by (rewrite blen_sub; lia).
  unfold section_at, verbatim. rewrite Hraw, Hlen. simpl. rewrite blen_sub by lia.
  split; [split_and!; auto; lia|].
  by apply (section_size_error ParserError).
Qed.

(** Where the section loop stops: no room for a header, or a size that does not
    fit the buffer. *)
Definition sections_stop (buf : list byte) (cur : Z) : Prop :=
  blen buf < cur + 4 \/
  exists size, section_size (E := Empty_set) (sub buf cur (blen buf)) = Ok size /\
    (size < 4 \/ is_large_section (sub buf cur (blen buf)) = true /\ size < 8 \/
     blen buf < cur + size).

Lemma land_align4 size : Z.land (size + 3) (Z.lnot 3) = align4 size.
Proof. unfold align4, align_up, SECTION_ALIGN. do 2 f_equal. lia. Qed.

Lemma align4_step off size :
  0 <= off -> 0 <= size -> align4 (align4 off + size) = align4 off + align4 size.
Proof.
  intros. pose proof (align4_spec off) as [_ Hm]; [done|].
  rewrite (align4_eq (align4 off + size)), (align4_eq size). zdm.
Qed.

(** The loop invariant of [parse_sections]. *)
Definition sections_inv (buf : list byte) (s : Z * list FfsNode) : Prop :=
  exists cur, 0 <= cur /\ fst s = align4 cur /\ tiled align4 (section_at buf) 0 (snd s) cur.

Lemma sections_step_inv rec buf s :
  blen buf < 2 ^ 32 -> sections_inv buf s ->
  okpost (sections_step rec buf s) (fun r =>
    match r with
    | inl s' => sections_inv buf s'
    | inr ns => exists cur, tiled align4 (section_at buf) 0 ns cur
    end).
Proof.
  intros Hbuf (cur & Hc & Hs & Ht). destruct s as [off ns]; simpl in *; subst off.
  pose proof (align4_spec cur Hc) as [Hal _].
  unfold sections_step, slice_from. intros r H. ok_inv; [by eauto| |by eauto].
  bool_to_prop. rewrite wrap_small in H by lia.
  destruct (parse_section rec buf (align4 cur)) as [n|e| |] eqn:Hp; ok_inv; [|by eauto].
  apply parse_section_Ok in Hp as [Hn Hsz]; [|lia].
  match goal with H1 : section_size _ = Ok ?s |- _ =>
    rewrite H1 in Hsz; injection Hsz as -> end.
  pose proof (blen_nonneg (raw n)). exists (align4 cur + blen (raw n)). simpl.
  rewrite land_align4, align4_step by lia. split_and!; [lia|done|].
  by constructor.
Qed.

Lemma parse_sections_tiled d buf ns :
  blen buf < 2 ^ 32 -> parse_sections d buf 0 = Ok ns ->
  exists cur, tiled align4 (section_at buf) 0 ns cur.
Proof.
  destruct d as [|d]; [done|]. intros Hbuf H.
  apply (loop_Ok _ (sections_inv buf) 
    (fun ns => exists cur, tiled align4 (section_at buf) 0 ns cur)) in H; [done| |].
  - intros. by apply sections_step_inv.
  - exists 0. split_and!; [lia|done|constructor].
Qed.

(** ** Files of a volume *)

Definition file_at (vbody : list byte) (body_start off : Z) (n : FfsNode) : Prop :=
  verbatim vbody off n /\ node_type n = T_File /\ offset n = wrap 32 (body_start + off) /\
  24 <= blen (header n).

Lemma parse_file_rev2 buf off erase rev f :
  0 <= off -> rev <> x01 -> parse_file buf off erase rev = Ok f ->
  verbatim buf off f /\ node_type f = T_File /\ 24 <= blen (header f).
Proof.
  intros Ho Hrev H. apply parse_file_shape in H as (hdr & total & Hs); [|done].
  destruct (file_shape_verbatim _ _ _ _ _ _ Ho Hs) as [_ Hv].
  { destruct (tail_len_cases rev) as [[-> _]|[_ ?]]; [|done]. destruct Hs. lia. }
  destruct Hs as [Hh ?? Hhd]. split_and!; auto.
  rewrite Hhd, blen_sub by lia. lia.
Qed.

Definition files_inv (vbody : list byte) (body_start : Z) (s : Z * list FfsNode) : Prop :=
  0 <= fst s /\ tiled align8 (file_at vbody body_start) 0 (snd s) (fst s).

Lemma volume_files_step_inv rec vbody body_start erase rev s :
  blen vbody < 2 ^ 32 -> rev <> x01 -> files_inv vbody body_start s ->
  okpost (volume_files_step rec vbody body_start erase rev s) (fun r =>
    match r with
    | inl s' => files_inv vbody body_start s'
    | inr ns => exists cur, tiled align8 (file_at vbody body_start) 0 ns cur
    end).
Proof.
  intros Hb Hrev [Hc Ht]. destruct s as [cur ns]; simpl in *.
  pose proof (align8_spec cur Hc) as [Hal _].
  intros r H. unfold volume_files_step in H. ok_inv; eauto.
  rewrite wrap_small in H by lia.
  destruct (parse_file vbody (align8 cur) erase rev) as [f|e| |] eqn:Hp; ok_inv; eauto.
  all: apply parse_file_rev2 in Hp as (Hv & Hty & Hh); [|lia|done].
  all: set (f' := set_children _ _) in *.
  all: assert (raw f' = raw f) as Hraw by (by destruct f).
  all: assert (blen (header f) + blen (body f) + blen (tail f) = blen (raw f')) as Hlen
    by (rewrite Hraw; unfold raw; rewrite !blen_app; lia).
  all: assert (file_at vbody body_start (align8 cur) f')
    by (unfold file_at, verbatim in *; rewrite Hraw; by destruct f).
  all: rewrite ?Hlen.
  - eexists. by constructor.
  - split; simpl; [pose proof (blen_nonneg (raw f')); lia|by constructor].
Qed.

Lemma parse_volume_files_tiled rec vbody body_start erase rev ns :
  blen vbody < 2 ^ 32 -> rev <> x01 ->
  parse_volume_files rec vbody body_start erase rev = Ok ns ->
  exists cur, tiled align8 (file_at vbody body_start) 0 ns cur.
Proof.
  intros Hb Hrev H. unfold parse_volume_files in H.
  apply (loop_Ok _ (files_inv vbody body_start)
    (fun ns => exists cur, tiled align8 (file_at vbody body_start) 0 ns cur)) in H; [done| |].
  - intros. by apply volume_files_step_inv.
  - split; simpl; [lia|constructor].
Qed.

Lemma parse_firmware_volume_Ok rec buf off v :
  0 <= off < 2 ^ 32 -> parse_firmware_volume rec buf off = Ok (Some v) ->
  verbatim buf off v /\ offset v = off /\ node_type v = T_Volume /\ tail v = [] /\
  56 <= blen (header v).
Proof.
  intros Ho H. unfold parse_firmware_volume in H. rewrite wrap_small in H by lia.
  destruct (parse_volume buf off) as [vol|e| |] eqn:Hp; ok_inv; try done.
  apply parse_volume_Ok in Hp as (Hv & ? & ? & ? & ? & ?); [|lia].
  destruct (match parsing_data vol with PD_Volume _ => _ | _ => _ end) as [erase rev].
  ok_inv. split; [by apply verbatim_set_children|]. by autorewrite with setters.
Qed.

(** ** No panics *)

Lemma read_uint24_post {E} l off (Q : Z -> Prop) (QE : E -> Prop) :
  0 <= off -> off + 3 <= blen l -> (forall z, 0 <= z < 2 ^ 24 -> Q z) ->
  post (read_uint24 l off) Q QE.
Proof. intros. unfold read_uint24. post_auto. auto using uint24_bounds. Qed.

Lemma is_large_ffs_blen l : is_large_ffs l = true -> 32 <= blen l.
Proof. unfold is_large_ffs. intros. bool_to_prop. lia. Qed.

Lemma is_large_section_blen l : is_large_section l = true -> 8 <= blen l.
Proof. unfold is_large_section. intros. bool_to_prop. lia. Qed.

Lemma ffs_file_size_post {E} l (Q : Z -> Prop) (QE : E -> Prop) :
  24 <= blen l -> (forall z, 0 <= z < 2 ^ 32 -> Q z) -> post (ffs_file_size l) Q QE.
Proof.
  intros Hl HQ. unfold ffs_file_size. post_auto.
  - apply HQ. lia.
  - apply HQ. lia.
  - apply read_uint24_post; [lia..|]. intros. apply HQ. lia.
Qed.

Lemma section_size_post {E} l (Q : Z -> Prop) (QE : E -> Prop) :
  4 <= blen l -> (forall z, 0 <= z < 2 ^ 32 -> Q z) -> post (section_size l) Q QE.
Proof.
  intros Hl HQ. unfold section_size. destruct (is_large_section l) eqn:Hs.
  - apply is_large_section_blen in Hs. post_auto. apply HQ. lia.
  - apply read_uint24_post; [lia..|]. intros. apply HQ. lia.
Qed.

(** [parse_file] never panics: it returns a file or one of its errors. *)
Lemma parse_file_post buf off erase rev :
  0 <= off -> post (parse_file buf off erase rev) (fun _ => True) (fun _ => True).
Proof.
  intros Ho. unfold parse_file. fold (tail_len rev). post_auto.
  pose proof (is_large_ffs_blen (sub buf off (blen buf))) as Hl.
  rewrite blen_sub in Hl by lia. pose proof (tail_len_bounds rev).
  unfold guid_from_bytes, get_range, range_ok. rewrite blen_sub by lia.
  replace ((0 <=? 0) && (0 <=? 16) && (16 <=? off + 16 - off)) with true by lia.
  destruct (is_large_ffs _); simpl; post_auto.
  all: apply ffs_file_size_post; [rewrite blen_sub; lia|]; intros; post_auto.
Qed.

End ParserFacts.

(** Totality of the parsers and the shape of the trees they return: every node of
    a parsed tree is clean, the recursion is bounded by the nesting of the data,
    and the only panics are those of the Tiano decoder, of a volume length that
    overflows the address space and of an inverted flash region. *)

Section ParserTotal.
Context {GL : GuidLib} {LL : LzmaLib}.

(** A gap between the other nodes: padding or free space. *)
Definition is_gap (n : FfsNode) : bool :=
  bool_decide (node_type n = T_Padding) || bool_decide (node_type n = T_FreeSpace).

Lemma is_gap_type t n : node_type n = t -> t <> T_Padding -> t <> T_FreeSpace -> is_gap n = false.
Proof. intros <- ??. unfold is_gap. by rewrite !bool_decide_eq_false_2. Qed.

(** A node of a tree no editing operation has touched: it has no action, and a
    gap has no children. *)
Definition clean_node (n : FfsNode) : Prop :=
  action n = NoAction /\ (is_gap n = true -> children n = []).
Definition clean : FfsNode -> Prop := everywhere clean_node.

Lemma clean_leaf n : action n = NoAction -> children n = [] -> clean n.
Proof. intros Ha Hc. constructor; [by split|]. by rewrite Hc. Qed.

Lemma clean_set_children c n :
  action n = NoAction -> is_gap n = false -> Forall clean c -> clean (set_children c n).
Proof.
  intros Ha Hg Hc. constructor; autorewrite with setters; [|done].
  split; [by autorewrite with setters|]. unfold is_gap in *. autorewrite with setters. by rewrite Hg.
Qed.

Lemma clean_action n : clean n -> action n = NoAction.
Proof. by inversion 1 as [? [? _] _]. Qed.

(** A section of [buf] at [off], as [parse_section] delimits it. *)
Definition delimited_section (buf : list byte) (off : Z) (stype : byte) (sbody : list byte) : Prop :=
  let at_off := sub buf off (blen buf) in
  let hdr_len := if is_large_section at_off then 8 else 4 in
  0 <= off /\ off + 4 <= blen buf /\ exists size,
    section_size (E := ParserError) at_off = Ok size /\ hdr_len <= size /\ off + size <= blen buf /\
    get buf (off + 3) = Some stype /\ sbody = sub buf (off + hdr_len) (off + size).

(** The data such a section hands to the decompressor, with its algorithm. *)
Definition payload_of (stype : byte) (sbody : list byte) (algo : byte) (p : list byte) : Prop :=
  (stype = EFI_SECTION_GUID_DEFINED /\ exists g,
     guid_from_bytes (sub sbody 0 16) = Some g /\ guided_algorithm g = Some algo /\
     guided_payload sbody (le_dec (sub sbody 16 18)) = Some p) \/
  (stype = EFI_SECTION_COMPRESSION /\ 5 < blen sbody /\ get sbody 4 = Some algo /\
   p = sub sbody 5 (blen sbody)).

Definition section_payload (buf : list byte) (algo : byte) (p : list byte) : Prop :=
  exists off stype sbody, delimited_section buf off stype sbody /\ payload_of stype sbody algo p.

(** The buffers the section parser descends into from [buf]: the decompressed
    payload of a section, or the body of a file in a part of [buf] behind the
    header of a nested volume. *)
Inductive inner (buf : list byte) : list byte -> Prop :=
| inner_payload algo p c :
    section_payload buf algo p -> Codec.decompress p algo = Ok c -> inner buf c
| inner_body a b off erase rev f :
    0 <= a <= b -> b <= blen buf -> b - a < blen buf -> 0 <= off ->
    parse_file (sub buf a b) off erase rev = Ok f -> inner buf (body f).

(** The buffers the parser may reach from [buf]. *)
Inductive within (buf : list byte) : list byte -> Prop :=
| within_refl : within buf buf
| within_inner b c : within buf b -> inner b c -> within buf c.

(** [nesting d buf]: the chains of inner buffers are shorter than [d]. *)
Inductive nesting : nat -> list byte -> Prop :=
| nesting_intro d buf : (forall c, inner buf c -> nesting d c) -> nesting (S d) buf.

(** A part of [buf] that is shorter than [buf]. *)
Definition strict_part (buf s : list byte) : Prop :=
  exists a b, 0 <= a <= b /\ b <= blen buf /\ b - a < blen buf /\ s = sub buf a b.

Lemma strict_part_sub buf s x y :
  strict_part buf s -> 0 <= x <= y -> y <= blen s -> strict_part buf (sub s x y).
Proof.
  intros (a & b & Ha & Hb & Hab & ->) Hx Hy. rewrite blen_sub in Hy by lia.
  exists (a + x), (a + y). rewrite sub_sub by lia. split_and!; auto; lia.
Qed.

Lemma parse_file_inner vbody off erase rev f :
  0 <= off -> parse_file vbody off erase rev = Ok f ->
  action f = NoAction /\ node_type f = T_File /\ 24 <= blen (header f) /\
  exists x y, 0 <= x <= y /\ y <= blen vbody /\ body f = sub vbody x y.
Proof.
  intros Ho Hs.
  apply parse_file_shape in Hs as (hdr & total & [Hh Ht Hr Hhd Hb Htl Hty _ _ Ha]); [|done].
  pose proof (tail_len_bounds rev). split_and!; auto.
  - rewrite Hhd, blen_sub by lia. lia.
  - rewrite Hb. destruct (Z.ltb_spec (off + hdr) (off + total - tail_len rev)).
    + exists (off + hdr), (off + total - tail_len rev). split_and!; auto; lia.
    + exists 0, 0. rewrite sub_empty. pose proof (blen_nonneg vbody). split_and!; auto; lia.
Qed.

Lemma section_payload_part buf algo p : section_payload buf algo p -> strict_part buf p.
Proof.
  intros (off & stype & s & (Ho & Ho4 & size & _ & Hh & Hs & _ & ->) & Hp).
  set (hd := if is_large_section _ then 8 else 4) in *.
  assert (4 <= hd) by (unfold hd; destruct (is_large_section _); lia).
  assert (strict_part buf (sub buf (off + hd) (off + size))) as Hst.
  { exists (off + hd), (off + size). split_and!; done || lia. }
  destruct Hp as [(_ & g & _ & _ & Hp)|(_ & H5 & _ & ->)]; [|by apply strict_part_sub; [|lia..]].
  unfold guided_payload in Hp. destruct (Z.ltb_spec (le_dec (sub (sub buf (off + hd) (off + size)) 16 18)) 4);
    [done|].
  apply get_range_Some in Hp as [? ->]. by apply strict_part_sub; [|lia..].
Qed.

(** The two ways down, by the part of [buf] they read. *)
Lemma inner_cases buf c :
  inner buf c -> exists s, strict_part buf s /\
    (c = s \/ exists algo, Codec.decompress s algo = Ok c).
Proof.
  intros [algo p c' Hp Hd|a b off erase rev f Ha Hb Hab Ho Hf].
  - exists p. split; [by eapply section_payload_part|eauto].
  - apply parse_file_inner in Hf as (_ & _ & _ & x & y & Hx & Hy & ->); [|done].
    eexists. split; [|by left]. apply strict_part_sub; [|lia|lia].
    exists a, b. split_and!; done || lia.
Qed.

Section Nested.
(** What may make the data codecs panic or diverge, and the section parser of
    the level below on the inner buffers of [buf]. *)
Context (PP PD : Prop) (rec : list byte -> Z -> pure (list FfsNode)) (buf : list byte).
Hypothesis codec_upto : forall algo p,
  section_payload buf algo p -> upto PP PD (Codec.decompress p algo) (fun _ => True).
Hypothesis rec_upto : forall c, inner buf c -> upto PP PD (rec c 0) (Forall clean).

Lemma volume_files_step_upto a b body_start erase rev s :
  0 <= a <= b -> b <= blen buf -> b - a < blen buf ->
  0 <= fst s -> Forall clean (snd s) ->
  let vbody := sub buf a b in
  upto PP PD (volume_files_step rec vbody body_start erase rev s) (fun r =>
    match r with
    | inl s' => (0 <= fst s' /\ Forall clean (snd s')) /\
                fst s + 24 <= blen vbody /\ fst s < fst s'
    | inr ns => Forall clean ns
    end).
Proof.
  intros Ha Hb Hab Hs Hc vbody. destruct s as [foff files]; simpl in *.
  pose proof (align8_spec foff Hs) as [Hal _].
  unfold volume_files_step. upto_auto.
  pose proof (wrap_bounds 32 (align8 foff) ltac:(lia)) as Hw.
  pose proof (parse_file_post vbody (wrap 32 (align8 foff)) erase rev ltac:(lia)) as Hpf.
  destruct (parse_file vbody (wrap 32 (align8 foff)) erase rev) as [f|e| |] eqn:Hp;
    [|done|by destruct Hpf|by destruct Hpf].
  assert (inner buf (body f)) as Hin by (eapply (inner_body buf a b _ _ _ _ Ha Hb Hab); [|exact Hp]; lia).
  apply parse_file_inner in Hp as (Hact & Hty & Hh & _); [|lia].
  upto_step. eapply upto_mono; [by apply rec_upto|]. intros ch Hclean.
  assert (Forall clean (files ++ [set_children ch (set_offset (wrap 32 (body_start + align8 foff)) f)])).
  { apply Forall_app. split; [done|]. rewrite Forall_singleton.
    apply clean_set_children; [by destruct f| |done].
    apply (is_gap_type T_File); [by destruct f|done..]. }
  pose proof (blen_nonneg (body f)). pose proof (blen_nonneg (tail f)).
  upto_auto. split_and!; simpl; auto; lia.
Qed.

Lemma parse_volume_files_upto a b body_start erase rev :
  0 <= a <= b -> b <= blen buf -> b - a < blen buf ->
  upto PP PD (parse_volume_files rec (sub buf a b) body_start erase rev) (Forall clean).
Proof.
  intros Ha Hb Hab. set (vbody := sub buf a b). unfold parse_volume_files.
  pose proof (blen_nonneg vbody).
  apply (upto_loop _ (fun s => 0 <= fst s /\ Forall clean (snd s))
           (fun s => Z.to_nat (blen vbody - fst s))).
  - intros s [Hs Hc]. eapply upto_mono; [by apply volume_files_step_upto|].
    intros [s'|ns]; [|done]. fold vbody. intros (Hi & Hle & Hlt). split; [done|lia].
  - split; [simpl; lia|constructor].
  - simpl. unfold blen. lia.
Qed.

(** A volume at [off] whose length field overflows the address space. *)
Definition fv_overflow (b : list byte) (off : Z) : Prop :=
  off + 56 <= blen b /\ usize_max < off + le_dec (sub b (off + 32) (off + 40)).

Lemma parse_volume_upto b off :
  0 <= off -> (fv_overflow b off -> PP) ->
  upto PP PD (parse_volume b off) (fun v =>
    action v = NoAction /\ node_type v = T_Volume /\ 0 < blen (header v) /\
    blen (header v) + blen (body v) <= blen b - off).
Proof.
  intros Ho Hov. unfold parse_volume. upto_auto.
  match goal with H : ?x = le_dec (sub b (off + 32) _) |- _ => rename x into fvl; rename H into Hfvl end.
  match goal with H : ?x = le_dec (sub b (off + 48) _) |- _ => rename x into hl end.
  replace (off + 32 + 8) with (off + 40) in Hfvl by lia.
  destruct (Z.ltb_spec hl 56) as [|Hhl]; [done|].
  destruct (Z.ltb_spec fvl hl) as [|Hfl]; [done|].
  unfold uadd. destruct (Z.leb_spec (off + fvl) usize_max) as [Hle|Hgt]; simpl.
  - upto_auto. rewrite !blen_sub by lia. split_and!; [done|done|lia|lia].
  - apply Hov. split; [lia|]. rewrite <-Hfvl. lia.
Qed.

Lemma parse_firmware_volume_upto b off a' b' :
  0 <= off < 2 ^ 32 -> off <= blen b -> (fv_overflow b off -> PP) ->
  0 <= a' <= b' -> b' <= blen buf -> b = sub buf a' b' ->
  upto PP PD (parse_firmware_volume rec b off) (fun o =>
    match o with
    | Some v => clean v /\ 0 < blen (header v) /\
                off + blen (header v) + blen (body v) <= blen b
    | None => True
    end).
Proof.
  intros Ho Hob Hov Ha' Hb' ->. unfold parse_firmware_volume. rewrite wrap_small by lia.
  pose proof (parse_volume_upto (sub buf a' b') off ltac:(lia) Hov) as Hv.
  destruct (parse_volume (sub buf a' b') off) as [v|e| |]; [|done..].
  destruct Hv as (Hact & Hty & Hh & Hlen). rewrite blen_sub in Hlen, Hob by lia.
  destruct (match parsing_data v with PD_Volume _ => _ | _ => _ end) as [erase rev].
  pose proof (blen_nonneg (body v)). upto_step.
  apply (upto_post _ _ (fun _ => True)), slice_post; [lia|lia|rewrite blen_sub; lia|].
  rewrite sub_sub by lia. upto_step. eapply upto_mono.
  - apply parse_volume_files_upto; lia.
  - intros ch Hch. simpl. rewrite blen_sub by lia. autorewrite with setters.
    split_and!; [|lia|lia]. apply clean_set_children; [done| |done].
    by apply (is_gap_type T_Volume).
Qed.

Lemma parse_nested_fv_upto s :
  strict_part buf s -> upto PP PD (parse_nested_fv rec s) (Forall clean).
Proof.
  intros (a & b & Ha & Hb & Hab & ->). unfold parse_nested_fv. upto_step.
  eapply upto_mono.
  - eapply (parse_firmware_volume_upto _ 0 a b); [lia|apply blen_nonneg| |lia|lia|done].
    intros [Hl Ho]. exfalso. pose proof (le_dec_bounds (sub (sub buf a b) (0 + 32) (0 + 40))) as Hd.
    rewrite (blen_sub (sub buf a b)) in Hd by lia.
    change (256 ^ (0 + 40 - (0 + 32))) with (2 ^ 64) in Hd. unfold usize_max in Ho. lia.
  - intros [v|]; [|intros _; simpl; by constructor].
    intros (Hc & _). upto_auto. by rewrite Forall_singleton.
Qed.

Lemma sections_of_payload_upto p algo :
  section_payload buf algo p -> upto PP PD (sections_of_payload rec p algo) (Forall clean).
Proof.
  intros Hp. unfold sections_of_payload. pose proof (codec_upto algo p Hp) as Hc.
  destruct (Codec.decompress p algo) as [c|e| |] eqn:Hd; simpl in *; [|by auto..].
  apply rec_upto. by eapply inner_payload.
Qed.

Lemma decompress_guided_upto g s doff :
  (forall algo p, guided_algorithm g = Some algo -> guided_payload s doff = Some p ->
     section_payload buf algo p) ->
  upto PP PD (decompress_guided rec g s doff) (Forall clean).
Proof.
  intros Hc. unfold decompress_guided.
  destruct (guided_algorithm g) as [algo|]; [|by constructor].
  destruct (guided_payload s doff) as [p|] eqn:Hp; [|by constructor].
  apply sections_of_payload_upto. by apply Hc.
Qed.

Lemma section_contents_upto stype s :
  strict_part buf s ->
  (forall algo p, payload_of stype s algo p -> section_payload buf algo p) ->
  upto PP PD (section_contents rec stype s) (fun pc => Forall clean (snd pc)).
Proof.
  intros Hs Hpay. unfold section_contents.
  destruct (_ && (20 <=? blen s)) eqn:Hg.
  - bool_to_prop. upto_auto. unfold guid_from_bytes, get_range, range_ok.
    rewrite blen_sub by lia. simpl. upto_auto. subst.
    eapply upto_mono; [apply decompress_guided_upto|done].
    intros algo p Ha Hp. apply Hpay. left. split; [done|].
    eexists. split_and!; [|exact Ha|exact Hp].
    unfold guid_from_bytes, get_range, range_ok. by rewrite blen_sub by lia.
  - destruct (_ && (5 <=? blen s)) eqn:Hc.
    + bool_to_prop. upto_auto.
      eapply upto_mono; [|by intros ch; simpl].
      apply sections_of_payload_upto, Hpay. right. split_and!; auto; lia.
    + upto_auto. eapply upto_mono; [by apply parse_nested_fv_upto|done].
Qed.

Lemma parse_section_upto off :
  0 <= off -> upto PP PD (parse_section rec buf off) clean.
Proof.
  intros Ho. unfold parse_section. upto_auto.
  pose proof (is_large_section_blen (sub buf off (blen buf))) as Hl.
  rewrite blen_sub in Hl by lia. eapply upto_mono.
  { apply upto_eq, (upto_post _ _ (fun _ => True)), section_size_post; [rewrite blen_sub; lia|].
    intros z Hz. exact Hz. }
  intros size [Hse Hsize].
  destruct (Z.ltb_spec size (if is_large_section (sub buf off (blen buf)) then 8 else 4));
    [done|]. cbn [orb].
  assert (4 <= (if is_large_section (sub buf off (blen buf)) then 8 else 4) <= 8)
    by (destruct (is_large_section _); lia).
  destruct (Z.ltb_spec (blen buf) (off + size)); [done|]. upto_auto. eapply upto_mono.
  - apply section_contents_upto.
    + eexists _, (off + size). split_and!; [..|reflexivity]; lia.
    + intros algo p Hp. eexists off, _, _. split; [|exact Hp].
      split_and!; [lia|lia|]. exists size. split_and!; auto; lia.
  - intros pc Hpc. simpl. constructor; [|done]. split; [done|discriminate].
Qed.

Lemma sections_step_upto s :
  0 <= fst s -> Forall clean (snd s) ->
  upto PP PD (sections_step rec buf s) (fun r =>
    match r with
    | inl s' => (0 <= fst s' /\ Forall clean (snd s')) /\
                fst s < blen buf /\ fst s < fst s'
    | inr ns => Forall clean ns
    end).
Proof.
  intros Hs Hc. destruct s as [off nodes]; simpl in *. unfold sections_step. upto_auto.
  apply (upto_post _ _ (fun _ => True)), section_size_post; [rewrite blen_sub; lia|].
  intros size Hsize. set (hd := if is_large_section _ then 8 else 4) in *.
  assert (4 <= hd) by (unfold hd; destruct (is_large_section _); lia).
  upto_auto.
  pose proof (parse_section_upto (wrap 32 off)
    (proj1 (wrap_bounds 32 off ltac:(lia)))) as Hp.
  destruct (parse_section rec buf (wrap 32 off)) as [n|e| |]; simpl in *; [|done..].
  rewrite land_align4. pose proof (align4_spec size ltac:(lia)).
  split_and!; try lia. apply Forall_app; auto.
Qed.

Lemma sections_loop_upto start :
  0 <= start ->
  upto PP PD (loop (length buf + 1) (sections_step rec buf) (start, [])) (Forall clean).
Proof.
  intros Hs. apply (upto_loop _ (fun s => 0 <= fst s /\ Forall clean (snd s))
    (fun s => Z.to_nat (blen buf - fst s))).
  - intros s [Hs' Hc]. eapply upto_mono; [by apply sections_step_upto|].
    intros [s'|ns]; [|done]. intros (Hi & Hle & Hlt). split; [done|lia].
  - split; [done|constructor].
  - simpl. unfold blen. lia.
Qed.
End Nested.

(** ** The recursion over nested buffers *)

Section Depth.
Context (PP PD : Prop) (top : list byte).
Hypothesis codec_upto : forall c algo p, within top c -> section_payload c algo p ->
  upto PP PD (Codec.decompress p algo) (fun _ => True).

Lemma parse_sections_upto d buf :
  within top buf -> (nesting d buf \/ PD) ->
  upto PP PD (parse_sections d buf 0) (Forall clean).
Proof.
  revert buf. induction d as [|d IH]; intros buf Ht Hn.
  - destruct Hn as [Hn|]; [inversion Hn|done].
  - simpl. apply sections_loop_upto; [by eauto| |lia].
    intros c Hc. apply IH; [by eapply within_inner|]. destruct Hn as [Hn|]; [|by right].
    left. inversion Hn; subst. auto.
Qed.

(** ** Regions *)

(** An entry of the FLREG table that ends before it begins. *)
Definition flreg_inverted (buf : list byte) : Prop :=
  exists o, 0 <= o /\ o + 4 <= blen buf /\
    le_dec (sub buf (o + 2) (o + 4)) + 1 < le_dec (sub buf o (o + 2)).

Definition whole_blocks (r : FlashRegion) : Prop := exists k, r_size r = k * 0x1000.

Lemma flreg_step_upto buf rb out i :
  (flreg_inverted buf -> PP) -> 0 <= rb -> 0 <= i -> rb + i * 4 + 4 <= blen buf ->
  Forall (fun r => region_in buf r /\ whole_blocks r) out ->
  upto PP PD (flreg_step buf rb out i) (Forall (fun r => region_in buf r /\ whole_blocks r)).
Proof.
  intros Hinv Hrb Hi Hlen Hout. unfold flreg_step. upto_auto.
  destruct (from_flreg_index i) as [k|]; [|done]. upto_step. unfold usub.
  match goal with |- context [?b <=? ?l + 1] =>
    destruct (Z.leb_spec b (l + 1)) as [Hle|Hgt] end; simpl.
  - unfold REGION_GRANULARITY. upto_auto. apply Forall_app. split; [done|].
    rewrite Forall_singleton. unfold region_in; simpl. split; [lia|by eexists].
  - apply Hinv. exists (rb + i * 4). subst.
    replace (rb + i * 4 + 4) with (rb + i * 4 + 2 + 2) by lia. split_and!; lia.
Qed.

Lemma parse_flash_regions_upto buf :
  (flreg_inverted buf -> PP) ->
  upto PP PD (parse_flash_regions buf) (fun o =>
    match o with
    | Some rs => Forall (fun r => region_in buf r /\ whole_blocks r) rs
    | None => True
    end).
Proof.
  intros Hinv. unfold parse_flash_regions, FLASH_DESCRIPTOR_SIZE, DESCRIPTOR_VECTOR_SIZE,
    FLMAP0_OFFSET, DESCRIPTOR_VECTOR_SIZE, REGION_SECTION_ALIGN.
  upto_step; [done|]. upto_step. upto_step. upto_step; [done|]. upto_step. upto_step.
  upto_step; [done|]. upto_step.
  match goal with |- context [Z.land ?x 0xFF] =>
    assert (0 <= Z.land x 0xFF) by (apply Z.land_nonneg; lia);
    set (rb := Z.land x 0xFF) in * end.
  eapply upto_mono.
  - apply (upto_foldM _ (Forall (fun r => region_in buf r /\ whole_blocks r))).
    + intros out i Hi%elem_of_seqZ Hout. apply flreg_step_upto; auto; lia.
    + rewrite Forall_singleton. unfold region_in, whole_blocks; simpl.
      split; [lia|by exists 1].
  - intros out Hout. by destruct (negb (existsb _ out)).
Qed.

Lemma parse_fpt_upto body :
  (exists k, blen body = k * 0x1000) ->
  upto PP PD (parse_fpt body) (fun o =>
    match o with
    | Some ps => Forall (fun p => 0 <= p_offset p /\ 0 <= p_size p) ps
    | None => True
    end).
Proof.
  intros [k Hk]. unfold parse_fpt, ME_ROM_BYPASS_VECTOR_SIZE, FPT_HEADER_LEN, FPT_ENTRY_LEN,
    FPT_MAX_ENTRIES.
  upto_step. apply upto_mono with (Q := fun b : bool => b = true -> 4 <= blen body).
  { upto_auto. lia. }
  intros at0 Hat. upto_step.
  apply upto_mono with (Q := fun o => forall b, o = Some b -> 0 <= b <= 16 /\ 4 + b <= blen body).
  { upto_auto; try (intros b [= <-]; lia).
    intros b Hbb. destruct (_ =? _); [|done]. injection Hbb as <-. lia. }
  intros [base|] Hbase; [|done]. destruct (Hbase base eq_refl) as [Hb1 Hb2]. upto_auto.
  eapply upto_mono.
  - apply (upto_foldM _ (Forall (fun p => 0 <= p_offset p /\ 0 <= p_size p))); [|constructor].
    intros out i Hi%elem_of_seqZ Hout. unfold fpt_entry, FPT_HEADER_LEN, FPT_ENTRY_LEN.
    bool_to_prop.
    upto_step. upto_step. apply (upto_post _ _ (fun _ => True)), slice_post;
      [lia|rewrite blen_sub; lia|lia|].
    set (e := sub _ (0x20 + i * 0x20) _).
    assert (32 <= blen e) by (unfold e; rewrite !blen_sub by (rewrite ?blen_sub; lia); lia).
    upto_auto. apply Forall_app. split; [done|]. rewrite Forall_singleton. simpl. lia.
  - intros out Hout. by simpl.
Qed.

Lemma fpt_children_upto body ro :
  (exists k, blen body = k * 0x1000) ->
  upto PP PD (fpt_children body ro (blen body)) (Forall clean).
Proof.
  intros Hk. unfold fpt_children. upto_step. eapply upto_mono; [by apply parse_fpt_upto|].
  intros [ps|] Hps; [|by constructor].
  apply (upto_foldM _ (Forall clean)); [|constructor].
  intros out p Hp Hout. apply list_elem_of_In, filter_In in Hp as [Hp Hb].
  rewrite Forall_forall in Hps. apply list_elem_of_In, Hps in Hp as [Hp1 Hp2]. bool_to_prop.
  unfold fpt_child. upto_auto. apply Forall_app. split; [done|]. rewrite Forall_singleton.
  by apply clean_leaf.
Qed.

(** ** The image *)

Section Image.
Context (depth : nat).
Abbreviation buf := top.
Hypothesis buf_small : blen buf < 2 ^ 32.
Hypothesis nested : PD \/ forall c, inner buf c -> nesting depth c.
Hypothesis overflow_ok : forall off, 0 < off -> fv_overflow buf off -> PP.
Hypothesis inverted_ok : flreg_inverted buf -> PP.

Lemma pad_gap_upto ch last_end start :
  0 <= last_end -> start <= blen buf -> Forall clean ch ->
  upto PP PD (pad_gap buf (ch, last_end) start) (Forall clean).
Proof.
  intros Hl Hs Hc. unfold pad_gap, make_padding_node. upto_auto.
  apply Forall_app. split; [done|]. rewrite Forall_singleton. by apply clean_leaf.
Qed.

Definition layout_ok (l : layout) : Prop :=
  Forall clean (fst l) /\ 0 <= snd l.

Lemma scan_step_upto wend s :
  wend <= blen buf -> 0 <= fst s -> layout_ok (snd s) ->
  upto PP PD (scan_step depth buf wend s) (fun r =>
    match r with
    | inl s' => (0 <= fst s' /\ layout_ok (snd s')) /\ fst s < wend /\ fst s < fst s'
    | inr l => layout_ok l
    end).
Proof.
  intros Hw. destruct s as [off [ch last_end]]. simpl. intros Ho [Hc Hl]. simpl in *.
  unfold scan_step, FVH_SCAN_STEP. destruct (Z.leb_spec (off + 44) wend); [|by split].
  unfold layout_ok in *.
  upto_auto; [by split_and!; simpl; auto; lia|].
  eapply upto_mono.
  - apply (parse_firmware_volume_upto PP PD _ buf) with (a' := 0) (b' := blen buf); try lia.
    + intros c Hc'. apply parse_sections_upto; [by eapply within_inner; [constructor|]|]. destruct nested; auto.
    + intros Hov. destruct (decide (0 < off)); [by eapply overflow_ok|].
      exfalso. destruct Hov as [? Hov]. replace off with 0 in * by lia.
      pose proof (le_dec_bounds (sub buf (0 + 32) (0 + 40))) as Hd.
      rewrite blen_sub in Hd by lia. change (256 ^ (0 + 40 - (0 + 32))) with (2 ^ 64) in Hd.
      unfold usize_max in Hov. lia.
    + by rewrite sub_full.
  - intros [vol|]; [|intros _; simpl; split_and!; done || lia].
    intros (Hcl & Hh & Hlen). pose proof (blen_nonneg (body vol)).
    upto_step; [exfalso; lia|]. upto_step.
    eapply upto_mono; [apply pad_gap_upto; auto; lia|].
    intros ch' Hch'. simpl. unfold layout_ok. simpl. split_and!; try lia.
    apply Forall_app; auto.
Qed.

Lemma scan_volumes_upto ws we l :
  0 <= ws -> we <= blen buf -> layout_ok l ->
  upto PP PD (scan_volumes depth buf ws we l) layout_ok.
Proof.
  intros Hs He Hl. unfold scan_volumes.
  apply (upto_loop _ (fun s => 0 <= fst s /\ layout_ok (snd s)) (fun s => Z.to_nat (we - fst s))).
  - intros s [Hs' Hl']. eapply upto_mono; [by apply scan_step_upto|].
    intros [s'|l']; [|done]. intros (? & ? & ?). split; [done|lia].
  - by split.
  - simpl. lia.
Qed.

Lemma region_step_upto l r :
  region_in buf r -> whole_blocks r -> layout_ok l ->
  upto PP PD (region_step depth buf l r) layout_ok.
Proof.
  intros (Hr1 & Hr2 & Hr3) Hk [Hc Hl]. destruct l as [ch last_end]. unfold region_step. simpl in *.
  upto_step. eapply upto_mono; [apply pad_gap_upto; auto; lia|]. intros ch' Hch'.
  assert (forall k : FlashRegionKind, upto PP PD
    (node ← make_region_node buf k (r_offset r) (r_size r);
     node ← (if bool_decide (k = R_Me) then
               fc ← fpt_children (body node) (r_offset r) (r_size r);
               mret (set_children fc node)
             else mret node);
     mret (ch' ++ [node], r_offset r + r_size r)) layout_ok) as Hreg.
  { intros k. unfold make_region_node. upto_step. upto_step. upto_step. simpl. upto_step.
    apply upto_mono with (Q := clean).
    - destruct (bool_decide _); [|simpl; by apply clean_leaf]. upto_step. cbn [body].
      set (b := sub _ _ _). assert (blen b = r_size r) as Hlen
        by (unfold b; rewrite blen_sub by lia; lia).
      rewrite <-Hlen. eapply upto_mono; [apply fpt_children_upto; by rewrite Hlen|].
      intros fc Hfc. simpl. apply clean_set_children; [done| |done].
      by apply (is_gap_type T_Region).
    - intros n Hn. simpl. unfold layout_ok. simpl. split; [|lia]. apply Forall_app. auto. }
  destruct (r_kind r); try apply (Hreg _).
  apply scan_volumes_upto; [lia|lia|by split].
Qed.

Lemma parse_root_upto : upto PP PD (parse_root depth buf) clean.
Proof.
  unfold parse_root. upto_step. eapply upto_mono; [by apply parse_flash_regions_upto|].
  intros rs Hrs. upto_step. pose proof (blen_nonneg buf).
  apply upto_mono with (Q := layout_ok).
  - destruct rs as [rs|].
    + apply upto_foldM; [|by split].
      intros l r Hin Hl. assert (region_in buf r /\ whole_blocks r) as [? ?].
      { revert r Hin. rewrite <-Forall_forall. clear -Hrs.
        induction Hrs as [|r rs Hr _ IH]; simpl; [constructor|].
        revert IH. generalize (sort_regions rs). intros ss IH.
        induction IH; simpl; [auto|]. destruct (_ <=? _); auto. }
      by apply region_step_upto.
    + apply scan_volumes_upto; [lia|lia|by split].
  - intros [ch last_end] [Hc Hl]. upto_step.
    eapply upto_mono; [by apply pad_gap_upto|]. intros ch' Hch'. simpl. by constructor.
Qed.
End Image.
End Depth.

(** Partial correctness for every image: a parsed tree is clean. *)
Lemma parse_image_clean depth buf m iid sid img :
  blen buf < 2 ^ 32 -> parse_image depth buf m iid sid = Ok img -> clean (root img).
Proof.
  intros Hb H. unfold parse_image in H. ok_inv. simpl.
  match goal with H : parse_root _ _ = Ok ?r |- _ => revert r H end.
  apply upto_okpost, parse_root_upto; auto.
  intros c algo p _ _. by destruct (Codec.decompress p algo).
Qed.

Lemma parse_file_clean buf off erase rev f :
  0 <= off -> parse_file buf off erase rev = Ok f -> clean f.
Proof.
  intros Ho H. apply parse_file_shape in H as (hdr & total & []); [|done]. by apply clean_leaf.
Qed.

(** ** Bounds on the nesting *)

(** On a class of buffers that is closed under descent and whose inner buffers are
    strictly shorter, the length bounds the nesting. *)
Lemma nesting_shrinking (P : list byte -> Prop) buf :
  (forall b c, P b -> inner b c -> P c /\ blen c < blen b) ->
  P buf -> nesting (S (length buf)) buf.
Proof.
  intros Hstep. remember (length buf) as n eqn:Hn.
  assert (length buf <= n)%nat as Hle by lia. clear Hn. revert buf Hle.
  induction n as [|n IH]; intros buf Hle HP; constructor; intros c Hc;
    destruct (Hstep _ _ HP Hc) as [HPc Hlt]; unfold blen in Hlt; [lia|].
  apply IH; [lia|done].
Qed.

Lemma nesting_mono d d' buf : (d <= d')%nat -> nesting d buf -> nesting d' buf.
Proof.
  revert d' buf. induction d as [|d IH]; intros d' buf Hle Hn; [inversion Hn|].
  destruct d' as [|d']; [lia|]. inversion Hn; subst. constructor. intros c Hc.
  apply IH; [lia|auto].
Qed.




End ParserTotal.
