(* ===== verification/BuilderFacts.v ===== *)
(** What the builder writes: the header of a rebuilt file carries its size and a
    zero byte sum, and a rebuilt file or section parses back to the header and body
    it was built from. *)
From S2P Require Import Prelude Types Ffs Tiano Codec Parser Builder ParserFacts.

(** ** Byte sums *)

Definition bsum (l : list byte) : Z := foldr (fun b s => b2z b + s) 0 l.

Lemma bsum_app l k : bsum (l ++ k) = bsum l + bsum k.
Proof. unfold bsum. induction l as [|b l IH]; simpl in *; lia. Qed.

Lemma fold_bsum w l a :
  fold_left (fun s b => wrap w (s + b2z b)) l (wrap w a) = wrap w (a + bsum l).
Proof.
  revert a. induction l as [|b l IH]; intros a; cbn [fold_left bsum foldr].
  - by rewrite Z.add_0_r.
  - rewrite wrap_add_l, IH. f_equal. fold (bsum l). lia.
Qed.

Lemma fold_bsum0 w l :
  0 <= w -> fold_left (fun s b => wrap w (s + b2z b)) l 0 = wrap w (bsum l).
Proof.
  intros Hw. pose proof (fold_bsum w l 0) as H. rewrite Z.add_0_l in H.
  rewrite wrap_small in H by (split; [lia|by apply Z.pow_pos_nonneg]). done.
Qed.

Lemma bsum_insert l i x y :
  l !! i = Some y -> bsum (<[i := x]> l) = bsum l - b2z y + b2z x.
Proof.
  revert i. induction l as [|b l IH]; intros [|i] H; simplify_eq/=; [lia|].
  rewrite IH by done. lia.
Qed.

Lemma checksum8_zero l : wrap 8 (bsum l + calculate_checksum8 l) = 0.
Proof.
  unfold calculate_checksum8. rewrite (fold_bsum0 8 l), wrap_add_r by done.
  replace (bsum l + (0 - wrap 8 (bsum l))) with (bsum l - wrap 8 (bsum l)) by lia.
  rewrite wrap_sub_r. by replace (bsum l - bsum l) with 0 by lia.
Qed.

Lemma checksum16_zero l : wrap 16 (bsum l + calculate_checksum16 l) = 0.
Proof.
  unfold calculate_checksum16. rewrite (fold_bsum0 16 l), wrap_add_r by done.
  replace (bsum l + (0 - wrap 16 (bsum l))) with (bsum l - wrap 16 (bsum l)) by lia.
  rewrite wrap_sub_r. by replace (bsum l - bsum l) with 0 by lia.
Qed.

(** ** Slices of a concatenation *)

Section Middle.
Context {A : Type}.
Implicit Types (pre x post : list A).

Lemma sub_mid pre x post a b :
  0 <= a -> b <= blen x -> sub (pre ++ x ++ post) (blen pre + a) (blen pre + b) = sub x a b.
Proof.
  intros. rewrite sub_app_r by lia.
  replace (blen pre + a - blen pre) with a by lia.
  replace (blen pre + b - blen pre) with b by lia. apply sub_app_l; lia.
Qed.

Lemma get_mid pre x post i :
  0 <= i < blen x -> get (pre ++ x ++ post) (blen pre + i) = get x i.
Proof.
  intros. rewrite get_app_r by lia. replace (blen pre + i - blen pre) with i by lia.
  apply get_app_l. lia.
Qed.
End Middle.

Lemma sub_get_ext {A} (l k : list A) a b :
  0 <= a -> a <= b -> b <= blen l -> blen k = b - a ->
  (forall i, 0 <= i < b - a -> get l (a + i) = get k i) -> sub l a b = k.
Proof.
  intros Ha Hab Hb Hk Hg. apply list_get_ext. intros i.
  destruct (decide (0 <= i < b - a)) as [Hi|Hi].
  - rewrite get_sub by lia. by apply Hg.
  - rewrite !(proj2 (get_None _ _)); [done|lia|rewrite blen_sub; lia].
Qed.

(** ** Header updates *)

Section Headers.
Context {GL : GuidLib} {LL : LzmaLib}.
Abbreviation bres := (outcome BuilderError).

(** Three single-byte assignments. *)
Lemma set3_post (l : list byte) i a b c (Q : list byte -> Prop) (QE : BuilderError -> Prop) :
  0 <= i -> i + 3 <= blen l -> Q (splice l i [a; b; c]) ->
  post (h ← set_at l i a; h ← set_at h (i + 1) b; set_at h (i + 2) c) Q QE.
Proof.
  intros Hi Hl HQ. apply post_bind, set_at_post; [lia|].
  apply post_bind, set_at_post; [rewrite blen_insert; lia|].
  apply set_at_post; [rewrite !blen_insert; lia|].
  replace (<[Z.to_nat (i + 2) := c]> _) with (splice l i [a; b; c]); [done|].
  apply list_get_ext. intros j. rewrite !get_insert by (rewrite ?blen_insert; lia).
  rewrite get_splice by (change (blen [a; b; c]) with 3; lia).
  change (blen [a; b; c]) with 3.
  destruct (Z.eqb_spec j (i + 2)) as [->|].
  { replace ((i <=? i + 2) && (i + 2 <? i + 3)) with true by lia.
    by replace (i + 2 - i) with 2 by lia. }
  destruct (Z.eqb_spec j (i + 1)) as [->|].
  { replace ((i <=? i + 1) && (i + 1 <? i + 3)) with true by lia.
    by replace (i + 1 - i) with 1 by lia. }
  destruct (Z.eqb_spec j i) as [->|].
  { replace ((i <=? i) && (i <? i + 3)) with true by lia. by rewrite Z.sub_diag. }
  by replace ((i <=? j) && (j <? i + 3)) with false by lia.
Qed.

(** The header [h] of a file of [total] bytes made from the header [hdr]. *)
Record sized_header (hdr h : list byte) (total : Z) : Prop := {
  sh_len : blen h = blen hdr;
  sh_short : blen hdr < 32 -> sub h 20 23 = le_enc 3 total;
  sh_long : 32 <= blen hdr -> sub h 20 23 = [xff; xff; xff] /\ sub h 24 32 = le_enc 8 total;
  sh_rest : forall i, i < 20 \/ i = 23 \/ 32 <= i \/ blen hdr < 32 /\ 24 <= i -> get h i = get hdr i
}.

Lemma le_enc_wrap n w z : 8 * Z.of_nat n <= w -> le_enc n (wrap w z) = le_enc n z.
Proof.
  intros Hw. apply le_dec_inj; [by rewrite !length_le_enc|]. rewrite !le_dec_enc.
  assert (w = w - 8 * Z.of_nat n + 8 * Z.of_nat n) as Hww by lia.
  change 256 with (2 ^ 8). rewrite <-Z.pow_mul_r by lia. unfold wrap.
  apply Z.mod_mod_divide.
  exists (2 ^ (w - 8 * Z.of_nat n)). rewrite <-Z.pow_add_r by lia. f_equal. lia.
Qed.

Lemma set_ffs_size_post hdr total :
  24 <= blen hdr ->
  post (set_ffs_size hdr total) (fun h => sized_header hdr h total) (fun _ => False).
Proof.
  intros Hl. unfold set_ffs_size. destruct (Z.leb_spec 32 (blen hdr)) as [H32|H32].
  - apply post_bind, copy_into_post; [lia|lia|by rewrite blen_le_enc|].
    set (h1 := splice hdr 24 (le_enc 8 total)).
    assert (blen h1 = blen hdr) as Hh1 by (apply blen_splice; rewrite ?blen_le_enc; lia).
    apply (set3_post h1 20); [lia|lia|].
    assert (blen (splice h1 20 [xff; xff; xff]) = blen hdr) as Hh2
      by (rewrite blen_splice; [done|lia|change (blen [xff; xff; xff]) with 3; lia]).
    assert (forall i, get (splice h1 20 [xff; xff; xff]) i =
      if (20 <=? i) && (i <? 23) then get [xff; xff; xff] (i - 20)
      else if (24 <=? i) && (i <? 32) then get (le_enc 8 total) (i - 24) else get hdr i) as Hg.
    { intros i. rewrite get_splice by (change (blen [xff; xff; xff]) with 3; lia).
      change (20 + blen [xff; xff; xff]) with 23. destruct (_ && _); [done|].
      unfold h1. rewrite get_splice by (rewrite ?blen_le_enc; lia).
      by rewrite blen_le_enc. }
    constructor; [done|lia| |].
    + intros _. split; (apply sub_get_ext; [lia|lia|lia|by rewrite ?blen_le_enc|]); intros i Hi;
        rewrite Hg.
      * replace ((20 <=? 20 + i) && (20 + i <? 23)) with true by lia. f_equal. lia.
      * replace ((20 <=? 24 + i) && (24 + i <? 23)) with false by lia.
        replace ((24 <=? 24 + i) && (24 + i <? 32)) with true by lia. f_equal. lia.
    + intros i Hi. rewrite Hg.
      replace ((20 <=? i) && (i <? 23)) with false by lia.
      by replace ((24 <=? i) && (i <? 32)) with false by lia.
  - rewrite size_to_uint24_le, le_enc_wrap by lia.
    assert (exists a b c, le_enc 3 total = [a; b; c]) as (a & b & c & Habc) by (simpl; eauto).
    rewrite Habc. cbn [nth]. apply (set3_post hdr 20); [lia|lia|]. rewrite <-Habc.
    assert (blen (splice hdr 20 (le_enc 3 total)) = blen hdr) as Hh
      by (apply blen_splice; rewrite ?blen_le_enc; lia).
    constructor; [done| |lia|].
    + intros _. pose proof (sub_splice_same hdr 20 (le_enc 3 total)) as Hs.
      rewrite blen_le_enc in Hs. apply Hs; lia.
    + intros i Hi. rewrite get_splice by (rewrite ?blen_le_enc; lia). rewrite blen_le_enc.
      change (20 + Z.of_nat 3) with 23. by replace ((20 <=? i) && (i <? 23)) with false by lia.
Qed.

Lemma set_section_size_length hdr total h :
  set_section_size hdr total = Ok h -> blen h = blen hdr.
Proof.
  unfold set_section_size. intros H.
  destruct (is_large_section hdr);
    repeat match goal with
    | H : _ ≫= _ = Ok _ |- _ => apply bind_Ok in H as (? & ? & H)
    | H : set_at _ _ _ = Ok _ |- _ => apply set_at_Ok in H as [_ ->]
    end; by rewrite !blen_insert.
Qed.

(** Byte [i] of a header, for a header that has it. *)
Definition hbyte (h : list byte) (i : Z) : Z := b2z (default x00 (get h i)).

(** The checksums of a file header and of its body. *)
Definition checksums_ok (h body : list byte) : Prop :=
  wrap 8 (bsum h - hbyte h 17 - hbyte h 23) = 0 /\
  (Z.land (hbyte h 19) FFS_ATTRIB_CHECKSUM <> 0 -> wrap 8 (bsum body + hbyte h 17) = 0).

Lemma recompute_ffs_checksums_post hdr body :
  24 <= blen hdr ->
  post (recompute_ffs_checksums hdr body) (fun h =>
    blen h = blen hdr /\ checksums_ok h body /\
    (forall i, i <> 16 -> i <> 17 -> get h i = get hdr i) /\
    (Z.land (hbyte hdr 19) FFS_ATTRIB_CHECKSUM = 0 -> get h 17 = get hdr 17)) (fun _ => False).
Proof.
  intros Hl. unfold recompute_ffs_checksums. replace (blen hdr <? 24) with false by lia.
  rewrite (fold_bsum0 8 hdr) by done.
  apply post_bind, index_post; [lia|]. intros c16 H16.
  apply post_bind, index_post; [lia|]. intros c17 H17.
  apply post_bind, index_post; [lia|]. intros st H23.
  rewrite !wrap_sub_l. apply post_bind, set_at_post; [lia|].
  set (x := z2b _). set (h1 := <[Z.to_nat 16 := x]> hdr).
  assert (blen h1 = blen hdr) as Hh1 by apply blen_insert.
  assert (forall i, get h1 i = if i =? 16 then Some x else get hdr i) as Hg1
    by (intros i; apply get_insert; lia).
  assert (bsum h1 = bsum hdr - b2z c16 + b2z x) as Hs1
    by (apply get_Some in H16 as [_ ?]; by apply bsum_insert).
  assert (wrap 8 (bsum h1 - b2z c17 - b2z st) = 0) as Hzero.
  { rewrite Hs1. unfold x. rewrite b2z_z2b_wrap, wrap_sub_r.
    set (S := bsum hdr - b2z c16). set (D := 0 - (wrap 8 S - b2z c17 - b2z st)).
    replace (S + wrap 8 D - b2z c17 - b2z st) with (wrap 8 D + (S - b2z c17 - b2z st)) by lia.
    rewrite wrap_add_l. replace (D + (S - b2z c17 - b2z st)) with (S - wrap 8 S) by (unfold D; lia).
    rewrite wrap_sub_r. by rewrite Z.sub_diag. }
  apply post_bind, index_post; [lia|]. intros attrs H19. rewrite Hg1 in H19. simpl in H19.
  assert (hbyte hdr 19 = b2z attrs) as Ha by (unfold hbyte; by rewrite H19).
  destruct (negb _) eqn:Hattr; bool_to_prop; simpl.
  - apply set_at_post; [lia|]. set (y := z2b (calculate_checksum8 body)).
    assert (forall i, get (<[Z.to_nat 17 := y]> h1) i = if i =? 17 then Some y else get h1 i) as Hg2
      by (intros i; apply get_insert; lia).
    assert (bsum (<[Z.to_nat 17 := y]> h1) = bsum h1 - b2z c17 + b2z y) as Hs2.
    { apply bsum_insert. rewrite <-(Hg1 17 : _ = get hdr 17) in H17. by apply get_Some in H17 as [_ ?]. }
    split_and!; [by rewrite blen_insert|split| |].
    + unfold hbyte. rewrite !Hg2, !Hg1. simpl. rewrite H23, Hs2. simpl.
      rewrite <-Hzero. f_equal. lia.
    + intros _. unfold hbyte. rewrite Hg2. simpl. unfold y.
      rewrite b2z_z2b_wrap, wrap_add_r. apply checksum8_zero.
    + intros i ??. rewrite Hg2, Hg1. by destruct (Z.eqb_spec i 17), (Z.eqb_spec i 16).
    + intros Hz. rewrite Ha in Hz. lia.
  - split_and!; [done|split| |].
    + unfold hbyte. rewrite !Hg1. simpl. by rewrite H17, H23.
    + intros Hnz. unfold hbyte in Hnz. rewrite Hg1 in Hnz. simpl in Hnz. rewrite H19 in Hnz.
      simpl in Hnz. lia.
    + intros i ??. rewrite Hg1. by destruct (Z.eqb_spec i 16).
    + intros _. by rewrite Hg1.
Qed.

(** The header [h] the builder gives a file of body [b], made from [hdr]. *)
Record rebuilt_header (hdr h b : list byte) (total : Z) : Prop := {
  rh_len : blen h = blen hdr;
  rh_short : blen hdr < 32 -> sub h 20 23 = le_enc 3 total;
  rh_long : 32 <= blen hdr -> sub h 20 23 = [xff; xff; xff] /\ sub h 24 32 = le_enc 8 total;
  rh_sums : checksums_ok h b;
  rh_rest : forall i, i < 16 \/ i = 18 \/ i = 19 \/ i = 23 \/ 32 <= i -> get h i = get hdr i
}.

Lemma build_file_rebuilt rec n out r :
  action n <> A_Remove -> action n <> NoAction -> 24 <= blen (header n) ->
  build_file rec n out = Ok r ->
  exists h b, build_children rec (children n) (match children n with [] => body n | _ => [] end) = Ok b /\
    r = out ++ h ++ b ++ tail n /\
    rebuilt_header (header n) h b (blen h + blen b + blen (tail n)).
Proof.
  intros Ha Hna Hl H. unfold build_file in H. rewrite !bool_decide_eq_false_2 in H by done.
  apply bind_Ok in H as (b & Hb & H). apply bind_Ok in H as (h1 & Hh1 & H).
  apply bind_Ok in H as (h & Hh & H). injection H as <-. exists h, b.
  pose proof (post_Ok _ _ _ _ (set_ffs_size_post (header n) _ Hl) Hh1) as [Hl1 Hs1 Hg1 Hr1].
  pose proof (post_Ok _ _ _ _ (recompute_ffs_checksums_post h1 b ltac:(lia)) Hh)
    as (Hl2 & Hsum & Hr2 & _).
  split_and!; [done|done|]. rewrite Hl2, Hl1. constructor; [lia| | |done|].
  - intros Hs. rewrite <-Hs1 by done. apply sub_ext; try lia. intros i Hi. apply Hr2; lia.
  - intros Hs. destruct (Hg1 Hs) as [<- <-].
    split; (apply sub_ext; [lia|]; intros i Hi; apply Hr2; lia).
  - intros i Hi. rewrite Hr2 by lia. apply Hr1. lia.
Qed.

(** ** Parsing what was written *)

Lemma slice_mid {E} (pre x post : list byte) a b :
  0 <= a -> a <= b -> b <= blen x ->
  slice (E := E) (pre ++ x ++ post) (blen pre + a) (blen pre + b) = Ok (sub x a b).
Proof.
  intros. apply slice_Ok. pose proof (blen_nonneg pre). pose proof (blen_nonneg post).
  rewrite sub_mid by lia. rewrite !blen_app. split; [lia|done].
Qed.

Lemma index_mid {E} (pre x post : list byte) i b :
  get x i = Some b -> index (E := E) (pre ++ x ++ post) (blen pre + i) = Ok b.
Proof.
  intros Hb. apply index_Ok. rewrite get_mid; [done|]. apply get_is_Some. eauto.
Qed.

Lemma get_of_sub (l : list byte) a b i x :
  0 <= a -> b <= blen l -> a <= i < b -> get (sub l a b) (i - a) = Some x -> get l i = Some x.
Proof. intros Ha Hb Hi H. rewrite get_sub in H by lia. by replace (a + (i - a)) with i in H by lia. Qed.

(** The size fields of a header of a file of [total] bytes. *)
Definition size_encoded (h : list byte) (total : Z) : Prop :=
  blen h = 24 /\ sub h 20 23 = le_enc 3 total /\ 0 <= total < 2 ^ 24 - 1 \/
  blen h = 32 /\ sub h 20 23 = [xff; xff; xff] /\ sub h 24 32 = le_enc 8 total /\ 0 <= total < 2 ^ 32.

Lemma size_encoded_large h total k :
  size_encoded h total -> is_large_ffs (h ++ k) = (blen h =? 32).
Proof.
  pose proof (blen_nonneg k).
  intros [(Hl & Hs & Ht)|(Hl & Hs & _ & Ht)]; unfold is_large_ffs; rewrite blen_app, Hl.
  - simpl. assert (exists a b c, le_enc 3 total = [a; b; c]) as (a & b & c & Habc) by (simpl; eauto).
    rewrite Habc in Hs.
    rewrite !get_app_l by lia.
    rewrite (get_of_sub h 20 23 20 a), (get_of_sub h 20 23 21 b), (get_of_sub h 20 23 22 c)
      by (lia || by rewrite Hs).
    apply not_true_is_false. intros Hb. bool_to_prop. simplify_eq.
    assert (le_dec (le_enc 3 total) = 2 ^ 24 - 1) as Hd by (by rewrite Habc).
    rewrite le_dec_enc_small in Hd by (change (256 ^ Z.of_nat 3) with (2 ^ 24); lia). lia.
  - rewrite !get_app_l by lia.
    rewrite (get_of_sub h 20 23 20 xff), (get_of_sub h 20 23 21 xff), (get_of_sub h 20 23 22 xff)
      by (lia || by rewrite Hs).
    by replace (32 <=? 32 + blen k) with true by lia.
Qed.

Lemma size_encoded_size {E} h total k :
  size_encoded h total -> ffs_file_size (E := E) (h ++ k) = Ok total.
Proof.
  intros Hs. pose proof (size_encoded_large h total k Hs) as Hlarge. pose proof (blen_nonneg k).
  unfold ffs_file_size. rewrite Hlarge. destruct Hs as [(Hl & Hs & Ht)|(Hl & Hs & Hb & Ht)]; rewrite Hl.
  - simpl. assert (exists a b c, le_enc 3 total = [a; b; c]) as (a & b & c & Habc) by (simpl; eauto).
    rewrite Habc in Hs. unfold read_uint24, index. rewrite !get_app_l by lia.
    rewrite (get_of_sub h 20 23 20 a), (get_of_sub h 20 23 (20 + 1) b), (get_of_sub h 20 23 (20 + 2) c)
      by (lia || by rewrite Hs).
    simpl. rewrite uint24_to_u32_le, <-Habc, le_dec_enc_small; [done|].
    change (256 ^ Z.of_nat 3) with (2 ^ 24). lia.
  - simpl. rewrite blen_app, Hl. replace (32 <=? 32 + blen k) with true by lia.
    apply rd_le_Ok. rewrite blen_app, Hl. split; [lia|]. rewrite sub_app_l by lia.
    assert (sub h 24 (24 + 4) = le_enc 4 total) as ->.
    { pose proof (sub_sub h 24 32 0 4 ltac:(lia) ltac:(lia) ltac:(lia) ltac:(lia) ltac:(lia) ltac:(lia)) as H4.
      change (24 + 0) with 24 in H4. rewrite <-H4, Hb. done. }
    rewrite le_dec_enc_small; [done|]. change (256 ^ Z.of_nat 4) with (2 ^ 32). lia.
Qed.

(** A file laid out as header, body and tail parses back to them wherever it is
    placed. *)
Lemma parse_file_encoded pre h b t post er rev :
  size_encoded h (blen h + blen b + blen t) -> blen t = tail_len rev ->
  exists f, parse_file (pre ++ (h ++ b ++ t) ++ post) (blen pre) er rev = Ok f /\
    header f = h /\ body f = b /\ tail f = t /\ n_guid f = Some (guid_of_array (sub h 0 16)) /\
    get h 18 = Some (subtype f).
Proof.
  intros Hs Ht. set (F := h ++ b ++ t). set (total := blen h + blen b + blen t) in *.
  pose proof (blen_nonneg pre); pose proof (blen_nonneg post); pose proof (blen_nonneg b).
  pose proof (tail_len_bounds rev).
  assert (blen h = 24 \/ blen h = 32) as Hh by (destruct Hs as [(? & _)|(? & _)]; auto).
  assert (blen F = total) as HF by (unfold F, total; rewrite !blen_app; lia).
  assert (is_Some (get h 18)) as [ty Hty] by (apply get_is_Some; lia).
  set (B := pre ++ F ++ post).
  assert (blen B = blen pre + (total + blen post)) as HB by (unfold B; rewrite !blen_app, HF; done).
  assert (slice_from (E := ParserError) B (blen pre) = Ok (F ++ post)) as Hat.
  { unfold slice_from. apply slice_Ok. rewrite HB. split; [lia|].
    unfold B. rewrite sub_app_r by lia. rewrite Z.sub_diag.
    replace (blen pre + (total + blen post) - blen pre) with (blen (F ++ post))
      by (rewrite blen_app, HF; lia). by rewrite sub_full. }
  assert (is_large_ffs (F ++ post) = (blen h =? 32)) as Hlarge.
  { unfold F. rewrite <-app_assoc. by eapply size_encoded_large. }
  assert (ffs_file_size (E := ParserError) (F ++ post) = Ok total) as Hsize.
  { unfold F. rewrite <-app_assoc. by apply size_encoded_size. }
  assert (forall x y, 0 <= x -> x <= y -> y <= total ->
    slice (E := ParserError) B (blen pre + x) (blen pre + y) = Ok (sub F x y)) as Hsl
    by (intros; apply slice_mid; lia).
  assert (sub F 0 16 = sub h 0 16) as Hg by (apply sub_app_l; lia).
  assert (sub F 0 (blen h) = h) as Hfh by (unfold F; by rewrite sub_app_exact).
  assert (sub F (blen h) (blen h + blen b) = b) as Hfb.
  { unfold F. rewrite <-(Z.add_0_r (blen h)) at 1. rewrite sub_mid by lia. apply sub_full. }
  assert (sub F (blen h + blen b) total = t) as Hft.
  { unfold F, total. rewrite app_assoc, <-blen_app. apply sub_app_rest. }
  assert (index (E := ParserError) B (blen pre + 18) = Ok ty) as Hix.
  { apply index_mid. unfold F. by rewrite get_app_l by lia. }
  unfold parse_file. fold (tail_len rev). rewrite Hat. cbn [mbind outcome_bind].
  rewrite Hlarge, Hsize, HB, Hix.
  assert ((if blen h =? 32 then 32 else 24) = blen h) as -> by (destruct (Z.eqb_spec (blen h) 32); lia).
  replace (blen pre + (total + blen post) <? blen pre + 24) with false by lia.
  replace (blen pre + (total + blen post) <? blen pre + blen h) with false by lia.
  pose proof (Hsl 0 16 ltac:(lia) ltac:(lia) ltac:(lia)) as H16. rewrite Z.add_0_r in H16.
  rewrite H16, Hg. cbn [mbind outcome_bind].
  unfold guid_from_bytes, get_range, range_ok. rewrite blen_sub by lia. simpl (_ && _).
  cbn [option_bind mbind ok_or outcome_bind].
  assert (sub (sub h 0 16) 0 16 = sub h 0 16) as -> by (by rewrite sub_sub by lia).
  replace (blen pre + (total + blen post) <? blen pre + total) with false by lia.
  replace (total <? blen h) with false by lia.
  pose proof (Hsl 0 (blen h) ltac:(lia) ltac:(lia) ltac:(lia)) as Hh0. rewrite Z.add_0_r in Hh0.
  rewrite Hh0, Hfh. cbn [mbind outcome_bind].
  rewrite <-Ht. replace (blen pre + total - blen t) with (blen pre + (blen h + blen b)) by lia.
  assert ((if blen pre + blen h <? blen pre + (blen h + blen b)
           then slice B (blen pre + blen h) (blen pre + (blen h + blen b)) else mret [])
          = Ok (E := ParserError) b) as ->.
  { destruct (Z.ltb_spec (blen pre + blen h) (blen pre + (blen h + blen b))) as [|Hle].
    - rewrite Hsl by lia. by rewrite Hfb.
    - assert (blen b = 0) as Hb0 by lia. by destruct b. }
  cbn [mbind outcome_bind].
  assert ((if 0 <? blen t
           then slice B (blen pre + (blen h + blen b)) (blen pre + (blen h + blen b) + blen t) else mret [])
          = Ok (E := ParserError) t) as ->.
  { destruct (Z.ltb_spec 0 (blen t)) as [|Hle].
    - replace (blen pre + (blen h + blen b) + blen t) with (blen pre + total) by lia.
      rewrite Hsl by lia. by rewrite Hft.
    - assert (blen t = 0) as Ht0 by (pose proof (blen_nonneg t); lia). by destruct t. }
  cbn [mbind outcome_bind]. eexists. split; [done|]. simpl. by split_and!.
Qed.

(** C20. A rebuilt file parses back: wherever the bytes of a rebuilt file are placed,
    the file parser returns the body its children were built to, the tail, GUID and
    type of the original, and a header whose checksums are those of the PI
    specification. The size of the result has to fit its header: below 2^24 - 1 for one
    of 24 bytes, below 2^32 for one of 32 bytes; and the file has the tail of the
    revision of the volume. *)
Theorem rebuilt_file_parses n r pre post er rev :
  node_type n = T_File -> action n <> A_Remove -> action n <> NoAction ->
  build_node n [] = Ok r ->
  (blen (header n) = 24 /\ blen r < 2 ^ 24 - 1 \/ blen (header n) = 32 /\ blen r < 2 ^ 32) ->
  blen (tail n) = tail_len rev ->
  exists f,
    parse_file (pre ++ r ++ post) (blen pre) er rev = Ok f /\ raw f = r /\
    build_children build_node (children n) (match children n with [] => body n | _ => [] end)
      = Ok (body f) /\
    tail f = tail n /\ checksums_ok (header f) (body f) /\
    n_guid f = Some (guid_of_array (sub (header n) 0 16)) /\ get (header n) 18 = Some (subtype f).
Proof.
  intros Hty Ha Hna Hb Hl Ht. rewrite build_node_eq, Hty in Hb.
  apply build_file_rebuilt in Hb as (h & b & Hch & -> & [Hlen Hshort Hlong Hsums Hrest]); [|done..|lia].
  simpl in *. rewrite !blen_app in Hl.
  pose proof (blen_nonneg h); pose proof (blen_nonneg b); pose proof (blen_nonneg (tail n)).
  assert (size_encoded h (blen h + blen b + blen (tail n))) as Hs.
  { destruct Hl as [[Hl Hr]|[Hl Hr]]; [left|right]; split_and!; try lia.
    - apply Hshort. lia.
    - apply Hlong. lia.
    - apply Hlong. lia. }
  destruct (parse_file_encoded pre h b (tail n) post er rev Hs Ht)
    as (f & Hf & Hfh & Hfb & Hft & Hfg & Hf18).
  exists f. rewrite Hfb, Hfh. split_and!; [done|by unfold raw; rewrite Hfh, Hfb, Hft|done|done|done| |].
  - rewrite Hfg. do 2 f_equal. apply sub_ext; try lia. intros i Hi. apply Hrest. lia.
  - rewrite <-Hf18. symmetry. apply Hrest. lia.
Qed.

(** ** Recompression *)

(** C21. A recompressed guided section keeps its prefix, and its payload decodes to
    exactly the bytes its children were built to; the section keeps its size unless
    no parameters of the sweep fit the original slot. *)
Theorem recompressed_section_decodes n out r :
  build_recompressed_guided build_node n out = Ok r ->
  exists ch h stream p,
    build_children build_node (children n) [] = Ok ch /\
    20 <= p <= blen (body n) /\
    r = out ++ h ++ sub (body n) 0 p ++ stream /\ blen h = blen (header n) /\
    Codec.decompress stream x02 = Ok ch /\
    (blen stream = blen (body n) - p \/
     forall q s, q ∈ fit_grid -> alone_stream ch q = Ok s -> blen (body n) - p < blen s).
Proof.
  unfold build_recompressed_guided. intros H. destruct (_ <? 18); [done|].
  apply bind_Ok in H as (doff & _ & H). set (p := wrap 64 (doff - 4)) in H.
  destruct (negb _) eqn:Hp; [done|]. bool_to_prop.
  apply bind_Ok in H as (ch & Hch & H). apply bind_Ok in H as (stream & Hst & H).
  apply map_err_Ok in Hst. apply bind_Ok in H as (h & Hh & H). apply bind_Ok in H as (pf & Hpf & H).
  apply slice_Ok in Hpf as [_ ->]. injection H as <-.
  unfold compress_lzma_fit in Hst. destruct (bool_decide (ch = [])); [done|].
  apply fit_sweep_Ok in Hst as [Hd Hfit].
  exists ch, h, stream, p. split_and!; [done|lia|lia|done|by eapply set_section_size_length|done|].
  destruct Hfit as [(b & [= <-] & Hl)|[Hmin _]]; [by left|right].
  intros q s Hq Hs. destruct (Hmin q s Hq Hs) as [Hfits _]. unfold fits in Hfits.
  destruct (Z.leb_spec (blen s) (blen (body n) - p)); [done|lia].
Qed.

End Headers.
