(* ===== verification/RoundTrip.v ===== *)
(** Parsing an image and building it back is the identity on its bytes: the
    top-level nodes of [parse_image] are verbatim slices that cover the whole
    buffer, and the builder places verbatim slices by offset. *)
From S2P Require Import Prelude Types Ffs Tiano Codec Parser ImageParser Builder.
From S2P Require Import ParserFacts.

Section RoundTrip.
Context {GL : GuidLib} {LL : LzmaLib}.

(** A top-level node the builder copies out as it is: a clean volume, or a
    region or padding whose bytes are its body. *)
Definition top_node (n : FfsNode) : Prop :=
  action n = NoAction /\
  (node_type n = T_Volume \/
   (node_type n = T_Region \/ node_type n = T_Padding) /\ header n = [] /\ tail n = []).

Definition placed (buf : list byte) (n : FfsNode) : Prop :=
  top_node n /\ verbatim buf (offset n) n.

(** Byte [i] belongs to the node [n]. *)
Definition in_node (i : Z) (n : FfsNode) : Prop :=
  offset n <= i < offset n + blen (raw n).

#[local] Instance in_node_dec i n : Decision (in_node i n).
Proof. unfold in_node. apply _. Defined.

(** The invariant of [parse_image]: everything below [last_end] is covered. *)
Definition covers (buf : list byte) (ch : list FfsNode) (last_end : Z) : Prop :=
  Forall (placed buf) ch /\ 0 <= last_end <= blen buf /\
  forall i, 0 <= i < last_end -> Exists (in_node i) ch.

(** Appending a node at or before the frontier moves the frontier to its end. *)
Lemma covers_snoc buf ch last_end n :
  covers buf ch last_end -> placed buf n -> offset n <= last_end ->
  covers buf (ch ++ [n]) (offset n + blen (raw n)).
Proof.
  intros (Hp & Hl & Hc) Hn Ho. pose proof Hn as [_ (? & ? & _)].
  pose proof (blen_nonneg (raw n)). split_and!; try lia.
  - apply Forall_app. auto.
  - intros i Hi. apply Exists_app. unfold in_node in *.
    destruct (Z.ltb_spec i (offset n)).
    + left. apply Hc. lia.
    + right. constructor. lia.
Qed.

Lemma covers_weaken buf ch l l' : covers buf ch l -> 0 <= l' <= l -> covers buf ch l'.
Proof. intros (? & ? & Hc) ?. split_and!; auto; try lia. intros; apply Hc; lia. Qed.

Lemma covers_start buf : covers buf [] 0.
Proof. split_and!; [constructor|lia|pose proof (blen_nonneg buf); lia|lia]. Qed.

Section Parse.
Context (buf : list byte) (Hbuf : blen buf < 2 ^ 32).

Lemma make_padding_node_placed start last n :
  make_padding_node buf start last = Ok n -> start <= last ->
  placed buf n /\ offset n = start /\ start + blen (raw n) = last.
Proof.
  unfold make_padding_node. intros H Hle. ok_inv. unfold placed, top_node, verbatim, raw. simpl.
  rewrite app_nil_r, blen_sub, wrap_small by lia.
  replace (start + (last - start)) with last by lia. split_and!; auto; lia.
Qed.

Lemma pad_gap_covers ch last_end start :
  covers buf ch last_end -> 0 <= start <= blen buf ->
  okpost (pad_gap buf (ch, last_end) start) (fun ch' => covers buf ch' (Z.max last_end start)).
Proof.
  intros Hc Hs ch' H. unfold pad_gap in H. pose proof Hc as (_ & ? & _). ok_inv.
  - match goal with H : make_padding_node _ _ _ = Ok _ |- _ =>
      apply make_padding_node_placed in H as (Hp & Ho & He); [|lia] end.
    replace (Z.max last_end start) with start by lia.
    rewrite <-He, <-Ho. eapply covers_snoc; eauto. lia.
  - by replace (Z.max last_end start) with last_end by lia.
Qed.

Lemma make_region_node_placed k o s n :
  make_region_node buf k o s = Ok n ->
  placed buf n /\ offset n = o /\ blen (raw n) = s.
Proof.
  unfold make_region_node. intros H. ok_inv. unfold placed, top_node, verbatim, raw. simpl.
  rewrite app_nil_r, blen_sub, wrap_small by lia.
  replace (o + (o + s - o)) with (o + s) by lia. split_and!; auto; lia.
Qed.

Lemma placed_set_children c n : placed buf n -> placed buf (set_children c n).
Proof. unfold placed, top_node, verbatim. by autorewrite with setters. Qed.

(** The scan of a window keeps the coverage of the part before its cursor. *)
Definition scan_inv (s : Z * layout) : Prop :=
  let '(off, (ch, last_end)) := s in 0 <= off /\ covers buf ch last_end.

Lemma scan_step_inv depth wend s :
  wend <= blen buf -> scan_inv s ->
  okpost (scan_step depth buf wend s) (fun r =>
    match r with
    | inl s' => scan_inv s'
    | inr (ch, last_end) => covers buf ch last_end
    end).
Proof.
  intros Hw. destruct s as [off [ch last_end]]. intros [Ho Hc] r H.
  unfold scan_step in H. unfold FVH_SCAN_STEP in H.
  destruct (Z.leb_spec (off + 44) wend); [|by ok_inv].
  ok_inv; [split; [lia|done]|].
  match goal with H : match ?v with Some _ => _ | None => _ end = _ |- _ =>
    destruct v as [vol|]; [|ok_inv; split; [lia|done]] end.
  match goal with H : parse_firmware_volume _ _ _ = Ok _ |- _ =>
    apply parse_firmware_volume_Ok in H as (Hv & Hof & Hty & Htl & Hh); [|lia] end.
  assert (blen (header vol) + blen (body vol) = blen (raw vol)) as Hlen
    by (unfold raw; rewrite Htl, app_nil_r, blen_app; done).
  rewrite Hlen in H. ok_inv; [split; [lia|done]|].
  match goal with H : pad_gap _ _ _ = Ok _ |- _ =>
    eapply pad_gap_covers in H; [|done|lia] end.
  pose proof (blen_nonneg (raw vol)). split; [lia|].
  eapply covers_snoc; eauto; [|lia].
  split; [|done]. destruct Hv as (_ & _ & _ & ?). by split; [|left].
Qed.

Lemma scan_volumes_covers depth ws we ch last_end l :
  0 <= ws -> we <= blen buf -> covers buf ch last_end ->
  scan_volumes depth buf ws we (ch, last_end) = Ok l -> covers buf (fst l) (snd l).
Proof.
  intros Hs He Hc H. unfold scan_volumes in H.
  apply (loop_Ok _ scan_inv (fun l => covers buf (fst l) (snd l))) in H; [done| |by split].
  intros s Hs'. eapply okpost_mono; [by apply scan_step_inv|]. by intros [?|[]].
Qed.

Lemma region_step_covers depth l r :
  region_in buf r -> covers buf (fst l) (snd l) ->
  okpost (region_step depth buf l r) (fun l' => covers buf (fst l') (snd l')).
Proof.
  intros (Hr1 & Hr2 & Hr3) Hc l' H. destruct l as [ch last_end]. unfold region_step in H.
  apply bind_Ok in H as (ch' & Hch & H).
  eapply pad_gap_covers in Hch; [|done|lia].
  pose proof Hc as (_ & Hl & _). simpl in Hl.
  assert (forall (k : FlashRegionKind) (l' : layout),
    (node ← make_region_node buf k (r_offset r) (r_size r);
     node ← (if bool_decide (k = R_Me) then
               fc ← fpt_children (body node) (r_offset r) (r_size r);
               mret (set_children fc node)
             else mret node);
     mret (ch' ++ [node], r_offset r + r_size r)) = Ok l' ->
    covers buf (fst l') (snd l')) as Hreg.
  { intros k l'' Hk. ok_inv; simpl.
    all: match goal with H : make_region_node _ _ _ _ = Ok _ |- _ =>
      apply make_region_node_placed in H as (Hp & Ho & Hs) end.
    - match goal with |- covers _ (_ ++ [set_children ?c ?n]) _ =>
        rewrite <-Hs, <-Ho, <-(raw_set_children c n), <-(offset_set_children c n) end.
      eapply covers_snoc; eauto using placed_set_children. autorewrite with setters. lia.
    - rewrite <-Hs, <-Ho. eapply covers_snoc; eauto. lia. }
  revert H. destruct (r_kind r); intros H; try by eapply (Hreg _ _ H).
  eapply scan_volumes_covers; [| | |exact H]; [lia|lia|].
  eapply covers_weaken; [done|lia].
Qed.

Lemma insert_region_Forall P r rs :
  P r -> Forall P rs -> Forall P (insert_region r rs).
Proof.
  intros Hr. induction 1 as [|r' rs Hr' Hrs IH]; simpl; [auto|].
  destruct (_ <=? _); auto.
Qed.

Lemma sort_regions_Forall P rs : Forall P rs -> Forall P (sort_regions rs).
Proof. induction 1; simpl; auto using insert_region_Forall. Qed.

(** The tree of [parse_image]: an image node whose children cover the buffer. *)
Lemma parse_root_covers depth n :
  parse_root depth buf = Ok n ->
  node_type n = T_Image /\ action n = NoAction /\ covers buf (children n) (blen buf).
Proof.
  unfold parse_root. intros H. apply bind_Ok in H as (rs & Hrs & H).
  apply bind_Ok in H as ([ch last_end] & Hl & H).
  assert (covers buf ch last_end) as Hc.
  { destruct rs as [rs|].
    - apply parse_flash_regions_wf in Hrs as [[Hrs _] _].
      apply sort_regions_Forall in Hrs. rewrite Forall_forall in Hrs.
      apply (foldM_Ok _ (fun l : layout => covers buf (fst l) (snd l))) in Hl; [done| |].
      + intros s r Hin Hs. apply region_step_covers; auto.
      + apply covers_start.
    - eapply (scan_volumes_covers _ _ _ _ _ (ch, last_end)) in Hl; eauto using covers_start.
      all: pose proof (blen_nonneg buf); lia. }
  pose proof (blen_nonneg buf).
  apply bind_Ok in H as (ch' & Hp & H). eapply pad_gap_covers in Hp; [|done|lia].
  ok_inv. simpl. split_and!; try done. eapply covers_weaken; [done|]. lia.
Qed.
End Parse.

(** ** Building *)

Section Build.
Context (buf : list byte).

(** A clean top-level node contributes its own bytes. *)
Lemma build_node_top n : top_node n -> build_node n [] = Ok (raw n).
Proof.
  intros [Ha Ht]. rewrite build_node_eq. unfold build_volume, raw.
  destruct Ht as [Ht|[[Ht|Ht] [Hh Htl]]]; rewrite Ht, ?Ha, ?Hh, ?Htl; [done|..].
  all: by rewrite app_nil_r.
Qed.

Definition piece (n : FfsNode) : Z * list byte := (offset n, raw n).

Lemma place_all ch s :
  Forall (placed buf) ch ->
  foldM (place_step build_node) ch s =
  Ok (fst s ++ map piece ch,
      foldl (fun t n => Z.max t (offset n + blen (raw n))) (snd s) ch).
Proof.
  intros Hch. revert s. induction Hch as [|n ch [Hn _] _ IH]; intros [pl t]; simpl.
  - by rewrite app_nil_r.
  - rewrite build_node_top by done. simpl. rewrite IH. simpl. by rewrite <-app_assoc.
Qed.

Definition total_of (t : Z) (ch : list FfsNode) : Z :=
  foldl (fun t n => Z.max t (offset n + blen (raw n))) t ch.

Lemma total_of_bounds ch t :
  Forall (placed buf) ch -> 0 <= t <= blen buf ->
  t <= total_of t ch <= blen buf /\
  Forall (fun n => offset n + blen (raw n) <= total_of t ch) ch.
Proof.
  intros Hch. revert t. induction Hch as [|n ch [_ (? & ? & _)] _ IH]; intros t Ht; simpl.
  - split; [lia|constructor].
  - destruct (IH (Z.max t (offset n + blen (raw n)))) as [? ?]; [lia|].
    split; [unfold total_of in *; simpl; lia|]. constructor; [|done].
    unfold total_of in *; simpl; lia.
Qed.

Definition copy_step (out : list byte) (ob : Z * list byte) : outcome BuilderError (list byte) :=
  copy_into out (fst ob) (fst ob + blen (snd ob)) (snd ob).

(** Copying verbatim pieces writes the bytes of [buf] and keeps the others. *)
Lemma copy_all ch out :
  Forall (fun n => placed buf n /\ offset n + blen (raw n) <= blen out) ch ->
  exists out', foldM copy_step (map piece ch) out = Ok out' /\ blen out' = blen out /\
    forall i, (Exists (in_node i) ch -> get out' i = get buf i) /\
              (~ Exists (in_node i) ch -> get out' i = get out i).
Proof.
  intros Hch. revert out Hch. induction ch as [|n ch IH]; intros out Hch; simpl.
  - exists out. split_and!; auto. intros i. split; [by intros ?%Exists_nil|done].
  - apply Forall_cons in Hch as [[[_ Hv] Hle] Hch].
    destruct Hv as (Hv1 & Hv2 & Hv3 & _).
    assert (copy_step out (piece n) = Ok (splice out (offset n) (raw n))) as Hcp.
    { apply copy_into_Ok. pose proof (blen_nonneg (raw n)). simpl. split_and!; lia || done. }
    rewrite Hcp. simpl.
    assert (blen (splice out (offset n) (raw n)) = blen out) as Hlen by (apply blen_splice; lia).
    destruct (IH (splice out (offset n) (raw n))) as (out' & Hf & Hl & Hi).
    { eapply Forall_impl; [exact Hch|]. intros m [??]. split; [done|lia]. }
    exists out'. split_and!; [done|lia|]. intros i. destruct (Hi i) as [Hi1 Hi2].
    assert (in_node i n -> get (splice out (offset n) (raw n)) i = get buf i) as Hn.
    { unfold in_node. intros Hin. rewrite get_splice by lia.
      replace ((offset n <=? i) && (i <? offset n + blen (raw n))) with true by lia.
      rewrite Hv3. rewrite get_sub by lia. f_equal. lia. }
    rewrite Exists_cons. destruct (decide (Exists (in_node i) ch)) as [He|He].
    + split; [by intros _; apply Hi1|]. naive_solver.
    + rewrite (Hi2 He). split; [intros [?|?]; [by apply Hn|done]|].
      intros Hno. rewrite get_splice by lia.
      destruct ((offset n <=? i) && (i <? offset n + blen (raw n))) eqn:Hb; [|done].
      exfalso. apply Hno. left. unfold in_node. lia.
Qed.
End Build.

(** The size the builder computes for children that cover [buf]. *)
Lemma total_covers buf ch : covers buf ch (blen buf) -> total_of 0 ch = blen buf.
Proof.
  intros (Hp & _ & Hc). pose proof (blen_nonneg buf).
  destruct (total_of_bounds buf ch 0 Hp) as [Ht Hle]; [lia|].
  destruct (decide (total_of 0 ch = blen buf)); [done|]. exfalso.
  assert (Exists (in_node (blen buf - 1)) ch) as (m & Hm & Him)%Exists_exists by (apply Hc; lia).
  rewrite Forall_forall in Hle. specialize (Hle m Hm). unfold in_node in Him. lia.
Qed.

(** A tree whose top-level children cover [buf] builds back to [buf]. *)
Lemma build_covers buf n :
  node_type n = T_Image -> covers buf (children n) (blen buf) ->
  build_node n [] = Ok buf.
Proof.
  intros Hty (Hp & _ & Hc). rewrite build_node_eq, Hty. unfold build_root. simpl.
  set (ch := children n) in *.
  rewrite (place_all buf) by done. simpl.
  pose proof (blen_nonneg buf).
  destruct (total_of_bounds buf ch 0 Hp) as [Ht Hle]; [lia|].
  fold (total_of 0 ch). set (T := total_of 0 ch) in *.
  assert (T = blen buf) as HT by (apply total_covers; by split_and!).
  destruct (copy_all buf ch (resize_to [] T xff)) as (out & Hf & Hl & Hi).
  { rewrite blen_resize_to by lia. rewrite !Forall_forall in *. intros m Hm. auto. }
  rewrite blen_resize_to in Hl by lia.
  unfold copy_step in Hf. rewrite Hf. f_equal. apply list_get_ext. intros i.
  destruct (Hi i) as [Hi1 _]. destruct (decide (0 <= i < blen buf)) as [Hin|Hout].
  - apply Hi1, Hc, Hin.
  - rewrite !(proj2 (get_None _ _)); [done|lia|lia].
Qed.

(** C1. *)
Theorem parse_build_identity depth buf m iid sid img :
  blen buf < 2 ^ 32 ->
  parse_image depth buf m iid sid = Ok img -> build_image img = Ok buf.
Proof.
  intros Hb H. unfold parse_image in H. ok_inv. unfold build_image. simpl.
  match goal with H : parse_root _ _ = Ok _ |- _ =>
    apply parse_root_covers in H as (Hty & _ & Hc); [|done] end.
  by apply build_covers.
Qed.
End RoundTrip.
