(* ===== verification/OpsFacts.v ===== *)
(** What the editing operations guarantee: the tree stays dirty-closed (a node without
    an action has no edited descendant) and, as long as nothing is inserted into padding
    or free space, sealed (nothing is edited below a gap or a flash region, whose bodies
    the builder copies); an edit changes the addressed node and nothing off its path, and
    no edit reaches behind a flash region or a compression barrier. *)
From S2P Require Import Prelude Types Ffs Tiano Codec Parser ImageParser Target Ops Builder.
From S2P Require Import ParserFacts.

Section OpsFacts.
Context {GL : GuidLib}.

(** ** Navigation in an updated tree *)

Lemma child_at_bounds n i c : child_at n i = Some c -> 0 <= i < blen (children n).
Proof. intros H. apply get_is_Some. by eexists. Qed.

Lemma child_at_insert n i c c' j :
  child_at n i = Some c ->
  child_at (set_children (<[Z.to_nat i := c']> (children n)) n) j =
  if j =? i then Some c' else child_at n j.
Proof.
  intros H. apply child_at_bounds in H. unfold child_at.
  rewrite children_set_children. by apply get_insert.
Qed.

Lemma child_at_elem n i c : child_at n i = Some c -> c ∈ children n.
Proof. intros [_ H]%get_Some. by eapply list_elem_of_lookup_2. Qed.

Lemma update_at_Some n p f :
  is_Some (update_at n p f) <-> is_Some (node_at_path n p).
Proof.
  revert n. induction p as [|i p IH]; intros n; simpl; [by split; eexists|].
  destruct (child_at n i) as [c|]; simpl; [|done]. rewrite <-IH.
  destruct (update_at c p f); simpl; split; intros []; done || by eexists.
Qed.

Lemma update_at_same n p f n' m :
  update_at n p f = Some n' -> node_at_path n p = Some m -> node_at_path n' p = Some (f m).
Proof.
  revert n n'. induction p as [|i p IH]; intros n n' H Hm; simpl in *; [congruence|].
  destruct (child_at n i) as [c|] eqn:Hc; simpl in *; [|done].
  destruct (update_at c p f) as [c'|] eqn:Hu; simplify_eq/=.
  rewrite (child_at_insert n i c) by done. rewrite Z.eqb_refl. simpl. by eapply IH.
Qed.

Lemma update_at_ext n p f g m :
  node_at_path n p = Some m -> f m = g m -> update_at n p f = update_at n p g.
Proof.
  revert n. induction p as [|i p IH]; intros n Hm Hfg; simpl in *; [congruence|].
  destruct (child_at n i) as [c|]; simpl in *; [|done]. by rewrite (IH c).
Qed.

Lemma update_at_off n p f n' q :
  update_at n p f = Some n' -> ~ p `prefix_of` q -> ~ q `prefix_of` p ->
  node_at_path n' q = node_at_path n q.
Proof.
  revert n n' q. induction p as [|i p IH]; intros n n' q H Hpq Hqp.
  { destruct Hpq. apply prefix_nil. }
  destruct q as [|j q]; [destruct Hqp; apply prefix_nil|].
  simpl in *. destruct (child_at n i) as [c|] eqn:Hc; simpl in *; [|done].
  destruct (update_at c p f) as [c'|] eqn:Hu; simplify_eq/=.
  rewrite (child_at_insert n i c) by done. destruct (Z.eqb_spec j i) as [->|]; simpl; [|done].
  rewrite Hc. simpl. apply IH; [done| |]; intros Hp; [apply Hpq|apply Hqp]; by apply prefix_cons.
Qed.

(** ** Marking *)

Lemma action_touch n : action (touch n) <> NoAction.
Proof.
  unfold touch. case_bool_decide; [|done]. by rewrite action_set_action.
Qed.

Lemma touch_children n : children (touch n) = children n.
Proof. unfold touch. case_bool_decide; autorewrite with setters; done. Qed.

Lemma child_at_touch n i : child_at (touch n) i = child_at n i.
Proof. unfold child_at. by rewrite touch_children. Qed.

Lemma mark_cons n i p :
  mark_rebuild_to_root_by_path n (i :: p) =
  match child_at n i with
  | None => touch n
  | Some c => set_children (<[Z.to_nat i := mark_rebuild_to_root_by_path c p]> (children n)) (touch n)
  end.
Proof. simpl. rewrite child_at_touch, touch_children. done. Qed.

Lemma action_mark n p : action (mark_rebuild_to_root_by_path n p) = action (touch n).
Proof.
  destruct p as [|i p]; [done|]. rewrite mark_cons.
  destruct (child_at n i); autorewrite with setters; done.
Qed.

Lemma action_mark_dirty n p : action (mark_rebuild_to_root_by_path n p) <> NoAction.
Proof. rewrite action_mark. apply action_touch. Qed.

Lemma child_at_mark n i p j c :
  child_at n i = Some c ->
  child_at (mark_rebuild_to_root_by_path n (i :: p)) j =
  if j =? i then Some (mark_rebuild_to_root_by_path c p) else child_at n j.
Proof.
  intros Hc. rewrite mark_cons, Hc, <-(touch_children n).
  rewrite (child_at_insert (touch n) i c) by (by rewrite child_at_touch).
  by rewrite child_at_touch.
Qed.

(** Nodes off the marked path are untouched. *)
Lemma mark_off n p q :
  ~ q `prefix_of` p ->
  node_at_path (mark_rebuild_to_root_by_path n p) q = node_at_path n q.
Proof.
  revert n q. induction p as [|i p IH]; intros n q Hq.
  - destruct q as [|j q]; [destruct Hq; done|]. simpl. by rewrite child_at_touch.
  - destruct q as [|j q]; [destruct Hq; apply prefix_nil|].
    destruct (child_at n i) as [c|] eqn:Hc.
    + cbn [node_at_path]. rewrite (child_at_mark n i p j c) by done.
      destruct (Z.eqb_spec j i) as [->|]; [|done]. rewrite Hc. simpl.
      apply IH. intros Hp. apply Hq. by apply prefix_cons.
    + rewrite mark_cons, Hc. cbn [node_at_path]. by rewrite child_at_touch.
Qed.

(** Nodes on the marked path are marked, and keep an action they had. *)
Lemma mark_on n q r m :
  node_at_path n q = Some m ->
  node_at_path (mark_rebuild_to_root_by_path n (q ++ r)) q =
  Some (mark_rebuild_to_root_by_path m r).
Proof.
  revert n. induction q as [|i q IH]; intros n Hm; simpl in Hm; [by simplify_eq|].
  destruct (child_at n i) as [c|] eqn:Hc; [|done]. simpl in Hm.
  rewrite <-app_comm_cons. cbn [node_at_path].
  rewrite (child_at_mark n i (q ++ r) i c), Z.eqb_refl by done. simpl. by apply IH.
Qed.

(** ** The tree without its actions *)

Fixpoint strip (n : FfsNode) : FfsNode :=
  set_children (map strip (children n)) (set_action NoAction n).

Lemma strip_eq n : strip n = set_children (map strip (children n)) (set_action NoAction n).
Proof. by destruct n. Qed.

Lemma strip_set_action a n : strip (set_action a n) = strip n.
Proof. rewrite !strip_eq. destruct n; done. Qed.

Lemma strip_touch n : strip (touch n) = strip n.
Proof. unfold touch. case_bool_decide; [apply strip_set_action|done]. Qed.

Lemma strip_replace_child n i c c' :
  child_at n i = Some c -> strip c' = strip c ->
  strip (set_children (<[Z.to_nat i := c']> (children n)) n) = strip n.
Proof.
  intros Hc Hs. rewrite !strip_eq. rewrite children_set_children.
  apply get_Some in Hc as [_ Hc].
  assert (map strip (<[Z.to_nat i := c']> (children n)) = map strip (children n)) as ->.
  { change (strip <$> <[Z.to_nat i := c']> (children n) = strip <$> children n).
    rewrite list_fmap_insert, Hs. apply list_insert_id. by rewrite list_lookup_fmap, Hc. }
  by destruct n.
Qed.

Lemma strip_mark n p : strip (mark_rebuild_to_root_by_path n p) = strip n.
Proof.
  revert n. induction p as [|i p IH]; intros n; [apply strip_touch|].
  rewrite mark_cons. destruct (child_at n i) as [c|] eqn:Hc; [|apply strip_touch].
  rewrite <-(strip_touch n), <-(touch_children n).
  eapply strip_replace_child; [by rewrite child_at_touch|apply IH].
Qed.

Lemma strip_update n p f n' :
  update_at n p f = Some n' -> (forall m, strip (f m) = strip m) -> strip n' = strip n.
Proof.
  revert n n'. induction p as [|i p IH]; intros n n' H Hf; simpl in H; [simplify_eq; auto|].
  destruct (child_at n i) as [c|] eqn:Hc; simpl in H; [|done].
  destruct (update_at c p f) as [c'|] eqn:Hu; simplify_eq/=.
  eapply strip_replace_child; eauto.
Qed.

(** ** Dirty-closed trees *)

(** A node without an action has no child with one. *)
Definition clean_below (n : FfsNode) : Prop :=
  action n = NoAction -> Forall (fun c => action c = NoAction) (children n).
Definition dirty_closed : FfsNode -> Prop := everywhere clean_below.

Lemma dirty_closed_children n : dirty_closed n -> Forall dirty_closed (children n).
Proof. by inversion 1. Qed.

Lemma dirty_closed_dirty n :
  action n <> NoAction -> Forall dirty_closed (children n) -> dirty_closed n.
Proof. intros Ha Hc. constructor; [by intros ?|done]. Qed.

Lemma Forall_insert_list {A} (P : A -> Prop) l i x :
  Forall P l -> P x -> Forall P (<[i := x]> l).
Proof. intros. by apply Forall_insert. Qed.

Lemma mark_closed m p :
  Forall dirty_closed (children m) -> dirty_closed (mark_rebuild_to_root_by_path m p).
Proof.
  revert m. induction p as [|i p IH]; intros m Hm;
    (apply dirty_closed_dirty; [apply action_mark_dirty|]).
  - simpl. by rewrite touch_children.
  - rewrite mark_cons. destruct (child_at m i) as [c|] eqn:Hc.
    + rewrite children_set_children. apply Forall_insert_list; [done|]. apply IH.
      apply child_at_elem in Hc. rewrite Forall_forall in Hm.
      by apply dirty_closed_children, Hm.
    + by rewrite touch_children.
Qed.

(** Updating a node and marking a path through it closes the tree again. *)
Lemma update_mark_closed n p f rest n' :
  dirty_closed n -> update_at n p f = Some n' ->
  (forall m, node_at_path n p = Some m -> dirty_closed m ->
     Forall dirty_closed (children (f m))) ->
  dirty_closed (mark_rebuild_to_root_by_path n' (p ++ rest)).
Proof.
  revert n n'. induction p as [|i p IH]; intros n n' Hn Hu Hf; simpl in Hu.
  - simplify_eq/=. apply mark_closed. by apply Hf.
  - destruct (child_at n i) as [c|] eqn:Hc; simpl in Hu; [|done].
    destruct (update_at c p f) as [c'|] eqn:Huc; simplify_eq/=.
    apply dirty_closed_children in Hn.
    pose proof (child_at_elem _ _ _ Hc) as Hin.
    assert (dirty_closed c) as Hdc by (rewrite Forall_forall in Hn; by apply Hn).
    set (n1 := set_children _ n).
    assert (child_at n1 i = Some c') as Hc'
      by (unfold n1; rewrite (child_at_insert n i c), Z.eqb_refl by done; done).
    apply dirty_closed_dirty; [apply (action_mark_dirty n1 (i :: p ++ rest))|].
    change (Forall dirty_closed (children (mark_rebuild_to_root_by_path n1 (i :: p ++ rest)))).
    rewrite mark_cons, Hc', children_set_children.
    unfold n1. rewrite children_set_children, list_insert_insert_eq.
    apply Forall_insert_list; [done|].
    apply (IH c); auto. intros m Hm. apply Hf. simpl. by rewrite Hc.
Qed.

Lemma clean_dirty_closed n : clean n -> dirty_closed n.
Proof.
  unfold clean, dirty_closed. induction n as [n IH] using FfsNode_tree_ind.
  intros H. inversion H as [? Ha Hc]; subst. constructor.
  - intros _. eapply Forall_impl; [exact Hc|]. apply clean_action.
  - rewrite Forall_forall in *. auto.
Qed.

(** In a dirty-closed tree the builder's test for edits below a clean node is
    always negative. *)
Lemma dirty_closed_clean n :
  dirty_closed n -> action n = NoAction -> subtree_dirty n = false.
Proof.
  unfold dirty_closed. induction n as [n IH] using FfsNode_tree_ind. intros Hd Ha.
  inversion Hd as [? Hb Hc]; subst. specialize (Hb Ha).
  assert (subtree_dirty n = negb (bool_decide (action n = NoAction))
            || existsb subtree_dirty (children n)) as -> by (by destruct n).
  rewrite Ha. simpl. apply not_true_is_false. intros (c & Hin & Hdc)%existsb_exists.
  apply list_elem_of_In in Hin. rewrite Forall_forall in IH, Hb, Hc.
  by rewrite (IH c) in Hdc by auto.
Qed.

(** ** Sealed trees *)

(** The builder copies the body of a gap or of a flash region, so nothing may be
    edited below it: a gap has no children, a region only unedited ones. *)
Definition is_region (n : FfsNode) : Prop := node_type n = T_Region.
Definition seals_below (n : FfsNode) : Prop :=
  (is_gap n = true -> children n = []) /\ (is_region n -> Forall clean (children n)).
Definition sealed : FfsNode -> Prop := everywhere seals_below.

Lemma clean_sealed n : clean n -> sealed n.
Proof.
  unfold clean, sealed. induction n as [n IH] using FfsNode_tree_ind.
  intros H. inversion H as [? [Ha Hg] Hc]; subst. constructor; [by split|].
  rewrite Forall_forall in *. auto.
Qed.

Lemma sealed_children n : sealed n -> Forall sealed (children n).
Proof. by inversion 1. Qed.

(** Only the type and the children of a node count. *)
Lemma sealed_ext n n' :
  node_type n' = node_type n -> children n' = children n -> sealed n -> sealed n'.
Proof.
  intros Ht Hc. inversion 1 as [? Hs Hf]; subst. constructor; [|by rewrite Hc].
  unfold seals_below, is_gap, is_region in *. by rewrite Ht, Hc.
Qed.

(** Any sealed nodes may be the children of a node that is neither. *)
Lemma sealed_host n :
  is_gap n = false -> ~ is_region n -> Forall sealed (children n) -> sealed n.
Proof. intros Hg Hr Hc. constructor; [|done]. split; congruence. Qed.

Lemma touch_type n : node_type (touch n) = node_type n.
Proof. unfold touch. case_bool_decide; [|done]. by autorewrite with setters. Qed.

Lemma sealed_touch n : sealed n -> sealed (touch n).
Proof. apply sealed_ext; [apply touch_type|apply touch_children]. Qed.

(** A gap has no child to descend to. *)
Lemma sealed_child_at n i c :
  sealed n -> child_at n i = Some c -> is_gap n = false /\ sealed c.
Proof.
  inversion 1 as [? [Hg _] Hf]; subst. intros Hc%child_at_elem. split.
  - destruct (is_gap n); [|done]. rewrite (Hg eq_refl) in Hc. by apply not_elem_of_nil in Hc.
  - rewrite Forall_forall in Hf. by apply Hf.
Qed.

(** [f] keeps a tree sealed when it is applied to one of its nodes. *)
Definition keeps_sealed (f : FfsNode -> FfsNode) : Prop :=
  forall n, sealed n -> sealed (f n) /\ (is_region (f n) -> is_region n).

Lemma sealed_replace n i c c' m :
  sealed n -> ~ is_region n -> child_at n i = Some c -> sealed c' ->
  node_type m = node_type n -> children m = <[Z.to_nat i := c']> (children n) -> sealed m.
Proof.
  intros Hn Hr Hc Hc' Ht Hm. destruct (sealed_child_at n i c Hn Hc) as [Hg _].
  apply sealed_host; [|unfold is_region; by rewrite Ht|].
  - unfold is_gap in *. by rewrite Ht.
  - rewrite Hm. apply Forall_insert_list; [by apply sealed_children|done].
Qed.

(** Marking a node, or one of its children too. *)
Lemma mark_sealed n rest :
  sealed n -> ~ is_region n -> rest = [] \/ (exists i, rest = [i]) ->
  sealed (mark_rebuild_to_root_by_path n rest).
Proof.
  intros Hn Hr [->|[i ->]]; [by apply sealed_touch|].
  rewrite mark_cons. destruct (child_at n i) as [c|] eqn:Hc; [|by apply sealed_touch].
  apply (sealed_replace n i c (touch c)); auto.
  - apply sealed_touch. by eapply sealed_child_at.
  - autorewrite with setters. apply touch_type.
  - by autorewrite with setters.
Qed.

(** Updating a node below nodes that are no regions keeps a tree sealed. *)
Lemma update_mark_sealed n p f rest n' :
  sealed n -> update_at n p f = Some n' ->
  (forall q m, q `prefix_of` p -> q <> p -> node_at_path n q = Some m -> ~ is_region m) ->
  (forall m, node_at_path n p = Some m -> sealed m ->
     sealed (mark_rebuild_to_root_by_path (f m) rest)) ->
  sealed (mark_rebuild_to_root_by_path n' (p ++ rest)).
Proof.
  revert n n'. induction p as [|i p IH]; intros n n' Hn Hu Hr Hf; simpl in Hu.
  { injection Hu as <-. by apply Hf. }
  destruct (child_at n i) as [c|] eqn:Hc; simpl in Hu; [|done].
  destruct (update_at c p f) as [c'|] eqn:Huc; [|done]. injection Hu as <-.
  destruct (sealed_child_at n i c Hn Hc) as [Hg Hsc].
  assert (~ is_region n) as Hrn by (by apply (Hr [] n); [apply prefix_nil| |]).
  assert (sealed (mark_rebuild_to_root_by_path c' (p ++ rest))) as Hm.
  { apply (IH c); auto.
    - intros q m Hq Hne Hm. apply (Hr (i :: q) m); [by apply prefix_cons|congruence|].
      simpl. by rewrite Hc.
    - intros m Hm. apply Hf. simpl. by rewrite Hc. }
  cbn [app]. rewrite mark_cons, (child_at_insert n i c), Z.eqb_refl by done.
  apply (sealed_replace n i c _ _ Hn Hrn Hc Hm).
  - autorewrite with setters. rewrite touch_type. by autorewrite with setters.
  - autorewrite with setters. by rewrite list_insert_insert_eq.
Qed.

(** ** Edits *)

(** One request of a client, and its effect on the tree. *)
Inductive edit :=
| E_Insert (t : Target) (data : list byte) (m : InsertMode)
| E_Remove (t : Target)
| E_Replace (t : Target) (data : list byte) (body_only : bool)
| E_Rebuild (t : Target).

Definition apply_edit (r : FfsNode) (e : edit) : outcome OpsError FfsNode :=
  match e with
  | E_Insert t data m => insert r t data m
  | E_Remove t => remove r t
  | E_Replace t data body_only => replace r t data body_only
  | E_Rebuild t => rebuild r t
  end.

(** The trees reachable by successful edits that satisfy [ok]. *)
Inductive edited (ok : FfsNode -> edit -> Prop) (r0 : FfsNode) : FfsNode -> Prop :=
| edited_nil : edited ok r0 r0
| edited_step r e r' :
    edited ok r0 r -> ok r e -> apply_edit r e = Ok r' -> edited ok r0 r'.

Lemma edited_ind_inv ok (I : FfsNode -> Prop) r0 r :
  (forall r e r', ok r e -> I r -> apply_edit r e = Ok r' -> I r') ->
  I r0 -> edited ok r0 r -> I r.
Proof. intros Hs H0. induction 1; eauto. Qed.

Definition edit_target (e : edit) : option Target :=
  match e with
  | E_Insert _ _ _ => None
  | E_Remove t | E_Replace t _ _ | E_Rebuild t => Some t
  end.

(** How a successful edit changes the tree: nothing, the list of children of the
    node at [p], or the node at the path of the target; then the path is marked. *)
Inductive edit_shape (r : FfsNode) : edit -> FfsNode -> Prop :=
| es_none e : edit_shape r e r
| es_insert p rest data m g r1 :
    (m = Into /\ rest = [] \/ m <> Into /\ exists i, rest = [i]) ->
    ensure_mutable r (p ++ rest) (bool_decide (m = Into)) = Ok tt ->
    update_at r p (fun n => set_children (g n) n) = Some r1 ->
    (forall n, node_at_path r p = Some n ->
       exists new k, clean new /\ g n = take k (children n) ++ new :: drop k (children n)) ->
    edit_shape r (E_Insert (TG_Path (p ++ rest)) data m)
      (mark_rebuild_to_root_by_path r1 (p ++ rest))
| es_target e t p f r1 :
    edit_target e = Some t -> find_item_path r t = Some p ->
    ensure_mutable r p true = Ok tt -> update_at r p f = Some r1 ->
    (forall n, Forall dirty_closed (children n) -> Forall dirty_closed (children (f n))) ->
    keeps_sealed f ->
    edit_shape r e (mark_rebuild_to_root_by_path r1 p).

Lemma ok_or_Ok {E A} (e : E) (o : option A) a : ok_or e o = Ok a <-> o = Some a.
Proof. destruct o; simpl; split; congruence. Qed.

Lemma parse_ffs_bytes_clean data n : parse_ffs_bytes data = Ok n -> clean n.
Proof. apply parse_file_clean. lia. Qed.

Lemma clean_set_header h n : clean n -> clean (set_header h n).
Proof. inversion 1 as [? [Ha Hg] Hc]; subst. destruct n. by constructor. Qed.

Lemma fix_state_byte_clean r p n n' :
  fix_state_byte r p n = Ok n' -> clean n -> clean n'.
Proof. unfold fix_state_byte. intros H Hn. ok_inv; [by apply clean_set_header|done]. Qed.

Lemma take_last_app {A} (l : list A) x :
  last l = Some x -> take (length l - 1) l ++ [x] = l.
Proof.
  intros (l' & ->)%last_Some. rewrite length_app. simpl.
  rewrite take_app_length' by lia. done.
Qed.

Lemma keeps_set_action a : keeps_sealed (set_action a).
Proof.
  intros n Hn. unfold is_region. autorewrite with setters.
  split; [|done]. by apply (sealed_ext n); autorewrite with setters.
Qed.

Lemma keeps_replace_body data : keeps_sealed (replace_body data).
Proof.
  intros n Hn. split; [|by destruct n].
  constructor; [|by destruct n]. split; [by destruct n|]. intros _. by destruct n.
Qed.

Lemma keeps_replace_node data new :
  parse_ffs_bytes data = Ok new -> keeps_sealed (replace_node new).
Proof.
  intros Hp n _. split.
  - apply (sealed_ext new); [done..|]. by eapply clean_sealed, parse_ffs_bytes_clean.
  - apply parse_file_inner in Hp as (_ & Hty & _); [|lia].
    unfold is_region, replace_node. simpl. by rewrite Hty.
Qed.

Lemma insert_shape r t data m r' :
  insert r t data m = Ok r' -> edit_shape r (E_Insert t data m) r'.
Proof.
  unfold insert. intros H. apply bind_Ok in H as (new & Hnew & H).
  apply map_err_Ok, parse_ffs_bytes_clean in Hnew.
  apply bind_Ok in H as (p & Hp & H). destruct t as [|p'|]; simplify_eq/=.
  apply bind_Ok in H as (vp & _ & H). apply bind_Ok in H as ([] & Hg & H).
  apply bind_Ok in H as (new' & Hfix & H). eapply fix_state_byte_clean in Hfix; [|done].
  destruct (decide (m = Into)) as [->|Hm].
  - ok_inv. rewrite <-(app_nil_r p). match goal with H : ok_or _ _ = Ok _ |- _ => rename H into Hu end.
    apply ok_or_Ok in Hu.
    apply es_insert with (g := fun n => children n ++ [new']); [by left|by rewrite app_nil_r|done|].
    intros n _. exists new', (length (children n)). split; [done|].
    rewrite take_ge, drop_ge by lia. done.
  - assert (exists i gp at_ ch r1,
      last p = Some i /\ find_mut r (take (length p - 1) p) = Some gp /\
      vec_insert (E := OpsError) (children gp) at_ new' = Ok ch /\
      update_at r (take (length p - 1) p) (set_children ch) = Some r1 /\
      r' = mark_rebuild_to_root_by_path r1 p) as (i & gp & at_ & ch & r1 & Hl & Hgp & Hv & Hu & ->).
    { destruct m; [done|..]; apply bind_Ok in H as (i & Hi & H);
        apply bind_Ok in H as (gp & Hgp & H); destruct (_ <? i); try done;
        apply bind_Ok in H as (ch & Hch & H); apply bind_Ok in H as (r1 & Hr1 & H);
        apply ok_or_Ok in Hgp, Hr1; injection H as <-;
        (destruct (last p) eqn:Hlast; [|done]); injection Hi as ->; eauto 10. }
    rewrite <-(take_last_app p i Hl) at 1 2.
    assert (ensure_mutable r p (bool_decide (m = Into)) = Ok tt) as Hg'.
    { rewrite bool_decide_eq_false_2 by done. by destruct m. }
    unfold vec_insert in Hv. destruct (_ && _); [|done]. injection Hv as <-.
    apply es_insert with (g := fun _ => take (Z.to_nat at_) (children gp) ++ new' ::
                                        drop (Z.to_nat at_) (children gp)); eauto.
    + by rewrite take_last_app.
    + intros n Hn. unfold find_mut in Hgp. assert (n = gp) as -> by congruence. eauto.
Qed.

Lemma apply_edit_shape r e r' : apply_edit r e = Ok r' -> edit_shape r e r'.
Proof.
  destruct e as [t data m|t|t data bo|t]; simpl.
  - apply insert_shape.
  - unfold remove, target_path. intros H. apply bind_Ok in H as (p & Hp & H).
    apply bind_Ok in H as ([] & Hg & H). apply bind_Ok in H as (r1 & Hu & H).
    apply ok_or_Ok in Hp, Hu. injection H as <-. eapply es_target; eauto.
    + intros n. by rewrite children_set_action.
    + apply keeps_set_action.
  - unfold replace, target_path. intros H. apply bind_Ok in H as (p & Hp & H).
    apply bind_Ok in H as ([] & Hg & H). apply bind_Ok in H as (n0 & _ & H).
    apply bind_Ok in H as (f & Hf & H). apply bind_Ok in H as (r1 & Hu & H).
    apply ok_or_Ok in Hp, Hu. injection H as <-. eapply es_target; eauto.
    + intros n Hn. destruct bo.
      * injection Hf as <-. unfold replace_body. destruct n. constructor.
      * apply bind_Ok in Hf as (new & Hnew & Hf). injection Hf as <-.
        apply map_err_Ok, parse_ffs_bytes_clean, clean_dirty_closed in Hnew.
        unfold replace_node. simpl. by apply dirty_closed_children.
    + destruct bo; [injection Hf as <-; apply keeps_replace_body|].
      apply bind_Ok in Hf as (new & Hnew & Hf). injection Hf as <-.
      apply map_err_Ok, keeps_replace_node in Hnew. done.
  - unfold rebuild, target_path. intros H. apply bind_Ok in H as (p & Hp & H).
    apply bind_Ok in H as ([] & Hg & H). apply bind_Ok in H as (n0 & _ & H).
    destruct (bool_decide _); [injection H as <-; constructor|].
    apply bind_Ok in H as (r1 & Hu & H).
    apply ok_or_Ok in Hp, Hu. injection H as <-. eapply es_target; eauto.
    + intros n. by rewrite children_set_action.
    + apply keeps_set_action.
Qed.

Lemma apply_edit_closed r e r' : apply_edit r e = Ok r' -> dirty_closed r -> dirty_closed r'.
Proof.
  intros H%apply_edit_shape Hr. destruct H as [|p rest data m g r1 _ _ Hu Hg|e t p f r1 _ _ _ Hu Hf _].
  - done.
  - eapply update_mark_closed; [done|done|]. intros n Hn Hd.
    destruct (Hg n Hn) as (new & k & Hnew & Heq). rewrite children_set_children, Heq.
    apply dirty_closed_children in Hd. apply Forall_app. split; [by apply Forall_take|].
    constructor; [by apply clean_dirty_closed|by apply Forall_drop].
  - rewrite <-(app_nil_r p). eapply update_mark_closed; [done|done|].
    intros n _ Hd. by apply Hf, dirty_closed_children.
Qed.

(** ** The guards *)

(** A node no edit may touch or pass: a flash region, a compressed section, or a
    guided section the builder cannot recompress. *)
Definition is_barrier (n : FfsNode) : Prop :=
  node_type n = T_Section /\
  (subtype n = EFI_SECTION_COMPRESSION \/
   subtype n = EFI_SECTION_GUID_DEFINED /\ recompressable_guid n = false).

Lemma barrier_check_spec n inside :
  match barrier_check n inside with
  | Ok _ => ~ is_region n /\ (inside = true -> ~ is_barrier n)
  | Err ImmutableRegion => is_region n
  | Err MutationBehindCompression => is_barrier n /\ inside = true
  | _ => False
  end.
Proof.
  unfold barrier_check, is_region, is_barrier. case_bool_decide as Hr; [done|].
  destruct inside; [|done]. destruct (bool_decide (node_type n = T_Section)) eqn:Hs;
    [|bool_to_prop; naive_solver].
  destruct (bool_decide (subtype n = EFI_SECTION_COMPRESSION)) eqn:Hc; simpl;
    [bool_to_prop; auto|].
  destruct (bool_decide (subtype n = EFI_SECTION_GUID_DEFINED)) eqn:Hg; simpl;
    [|bool_to_prop; naive_solver].
  fold (recompressable_guid n). destruct (recompressable_guid n) eqn:Hrec; simpl;
    bool_to_prop; naive_solver.
Qed.

(** What forbids an edit along [p]: a region on it, or a barrier among its first
    [n] steps. *)
Definition forbids (r : FfsNode) (p : list Z) (n : Z) (e : OpsError) : Prop :=
  exists q m, q <> [] /\ q `prefix_of` p /\ node_at_path r q = Some m /\
    (e = ImmutableRegion /\ is_region m \/
     e = MutationBehindCompression /\ is_barrier m /\ blen q <= n).

Lemma forbids_cons r i c p n e :
  child_at r i = Some c -> forbids c p (n - 1) e -> forbids r (i :: p) n e.
Proof.
  intros Hc (q & m & Hq & Hp & Hm & H). exists (i :: q), m.
  rewrite blen_cons. cbn [node_at_path]. rewrite Hc. split_and!; auto.
  - by apply prefix_cons.
  - destruct H as [?|(? & ? & ?)]; [auto|]. right. split_and!; auto. lia.
Qed.

Lemma ensure_from_spec r p d n :
  match ensure_from r p d n with
  | Ok _ => forall e, ~ forbids r p (n - d) e
  | Err e => forbids r p (n - d) e
  | _ => False
  end.
Proof.
  revert r d. induction p as [|i p IH]; intros r d; cbn [ensure_from].
  - intros e (q & m & Hq & Hp & _). by apply prefix_nil_inv in Hp.
  - destruct (child_at r i) as [c|] eqn:Hc.
    2:{ intros e (q & m & Hq & Hp & Hm & _). destruct q as [|j q]; [done|].
        apply prefix_cons_inv_1 in Hp as ->. simpl in Hm. by rewrite Hc in Hm. }
    pose proof (barrier_check_spec c (d <? n)) as Hb.
    assert (node_at_path r [i] = Some c) as Hci by (simpl; by rewrite Hc).
    assert ([i] `prefix_of` i :: p) as Hpre by (apply prefix_cons, prefix_nil).
    destruct (barrier_check c (d <? n)) as [u|[]| |]; simpl; try done.
    + destruct Hb as [Hr Hbar]. specialize (IH c (d + 1)).
      replace (n - (d + 1)) with (n - d - 1) in IH by lia.
      destruct (ensure_from c p (d + 1) n) as [v|e| |]; try done.
      * intros e (q & m & Hq & Hp & Hm & H). destruct q as [|j q]; [done|].
        pose proof Hp as ->%prefix_cons_inv_1. apply prefix_cons_inv_2 in Hp.
        simpl in Hm. rewrite Hc in Hm. simpl in Hm. rewrite blen_cons in H.
        destruct q as [|k q].
        -- simpl in Hm. injection Hm as <-. rewrite blen_nil in H.
           destruct H as [[_ ?]|(_ & ? & ?)]; [done|]. apply Hbar; [lia|done].
        -- apply (IH e). exists (k :: q), m. split_and!; auto.
           destruct H as [?|(? & ? & ?)]; [auto|]. right. split_and!; auto. lia.
      * by eapply forbids_cons.
    + destruct Hb as [Hb Hd]. exists [i], c. split_and!; auto. right.
      split_and!; auto. unfold blen; simpl. lia.
    + exists [i], c. split_and!; auto.
Qed.

Definition mutable_depth (p : list Z) (include_target : bool) : Z :=
  if include_target then blen p else sat_sub (blen p) 1.

Lemma ensure_mutable_spec r p incl :
  match ensure_mutable r p incl with
  | Ok _ => forall e, ~ forbids r p (mutable_depth p incl) e
  | Err e => forbids r p (mutable_depth p incl) e
  | _ => False
  end.
Proof.
  unfold ensure_mutable. fold (mutable_depth p incl).
  pose proof (ensure_from_spec r p 0 (mutable_depth p incl)) as H.
  by rewrite Z.sub_0_r in H.
Qed.

Lemma forbids_error r p n e :
  forbids r p n e -> e = ImmutableRegion \/ e = MutationBehindCompression.
Proof. intros (q & m & _ & _ & _ & [[-> _]|[-> _]]); auto. Qed.

(** ** The effect of one operation *)

(** [r'] is [r] with [f] applied to the node at [p]; the nodes above it are only
    marked, the nodes off the path are untouched. *)
Definition changed_at (r : FfsNode) (p : list Z) (f : FfsNode -> FfsNode) (r' : FfsNode) : Prop :=
  exists n, node_at_path r p = Some n /\ node_at_path r' p = Some (touch (f n)) /\
    (forall q m, node_at_path r q = Some m -> q `prefix_of` p -> q <> p ->
       exists m', node_at_path r' q = Some m' /\ raw m' = raw m /\
                  node_type m' = node_type m /\ action m' = action (touch m)) /\
    (forall q, ~ p `prefix_of` q -> ~ q `prefix_of` p ->
       node_at_path r' q = node_at_path r q).

Lemma update_at_prefix n p f n' q m :
  update_at n p f = Some n' -> q `prefix_of` p -> q <> p -> node_at_path n q = Some m ->
  exists c, node_at_path n' q = Some (set_children c m).
Proof.
  revert n n' q. induction p as [|i p IH]; intros n n' q Hu Hq Hne Hm.
  { by apply prefix_nil_inv in Hq. }
  simpl in Hu. destruct (child_at n i) as [c|] eqn:Hc; simpl in Hu; [|done].
  destruct (update_at c p f) as [c'|] eqn:Hu'; simplify_eq/=.
  destruct q as [|j q]; simpl in Hm; [simplify_eq/=; by eexists|].
  pose proof Hq as ->%prefix_cons_inv_1. apply prefix_cons_inv_2 in Hq.
  rewrite Hc in Hm. simpl in Hm. cbn [node_at_path].
  rewrite (child_at_insert n i c), Z.eqb_refl by done. simpl.
  eapply IH; eauto. congruence.
Qed.

Lemma changed_at_intro r p f r1 n :
  update_at r p f = Some r1 -> node_at_path r p = Some n ->
  changed_at r p f (mark_rebuild_to_root_by_path r1 p).
Proof.
  intros Hu Hn. exists n. split_and!; auto.
  - pose proof (update_at_same _ _ _ _ _ Hu Hn) as H.
    apply (mark_on _ _ []) in H. by rewrite app_nil_r in H.
  - intros q m Hm Hq Hne. destruct (update_at_prefix _ _ _ _ _ _ Hu Hq Hne Hm) as (c & Hc).
    destruct Hq as [k ->]. apply (mark_on _ _ k) in Hc. eexists. split; [done|].
    destruct k as [|i k]; [by rewrite app_nil_r in Hne|]. rewrite mark_cons.
    assert (forall x, raw (touch x) = raw x /\ node_type (touch x) = node_type x) as Ht.
    { intros x. unfold touch. case_bool_decide; autorewrite with setters; done. }
    assert (action (touch (set_children c m)) = action (touch m)) as Ha.
    { unfold touch. autorewrite with setters. case_bool_decide; by autorewrite with setters. }
    destruct (child_at _ i); autorewrite with setters.
    all: destruct (Ht (set_children c m)) as [-> ->]; by autorewrite with setters.
  - intros q Hpq Hqp. rewrite mark_off by done. by eapply update_at_off.
Qed.

(** ** The operations on every branch *)

Lemma update_at_valid r p n f :
  node_at_path r p = Some n -> exists r1, update_at r p f = Some r1.
Proof.
  intros Hn. assert (is_Some (update_at r p f)) as [r1 ?]; [|eauto].
  apply update_at_Some. eauto.
Qed.

(** The common shape of [remove], [replace] and [rebuild]: the target is
    resolved, the guard checked, and [k] runs on the path. *)
Definition guarded_outcome (r : FfsNode) (t : Target) (res : outcome OpsError FfsNode)
  (k : list Z -> FfsNode -> Prop) : Prop :=
  match find_item_path r t with
  | None => res = Err NotFound
  | Some p =>
      (exists e, forbids r p (blen p) e /\ res = Err e) \/
      (forall e, ~ forbids r p (blen p) e) /\
      exists n, node_at_path r p = Some n /\ k p n
  end.

Lemma guarded_intro r t (f : list Z -> outcome OpsError FfsNode) (k : list Z -> FfsNode -> Prop) :
  (forall p n, node_at_path r p = Some n ->
     (p' ← target_path r t; _ ← ensure_mutable r p' true; f p') = f p -> k p n) ->
  guarded_outcome r t (p ← target_path r t; _ ← ensure_mutable r p true; f p) k.
Proof.
  intros Hk. unfold guarded_outcome, target_path in *.
  pose proof (find_item_path_node r t) as Hv. destruct (find_item_path r t) as [p|]; [|done].
  destruct Hv as (n & Hn & _). simpl in *. pose proof (ensure_mutable_spec r p true) as Hg.
  specialize (Hk p n Hn). destruct (ensure_mutable r p true) as [u|e| |]; simpl in *; try done.
  - right. split; [done|]. eauto.
  - left. eauto.
Qed.

(** [remove] on every branch: it reports a missing target or the region or
    barrier that protects it, and otherwise marks exactly the addressed node for
    removal; no content of the tree changes. *)
Theorem remove_spec r t :
  guarded_outcome r t (remove r t) (fun p n =>
    exists r', remove r t = Ok r' /\ changed_at r p (set_action A_Remove) r' /\
      strip r' = strip r).
Proof.
  unfold remove at 1. apply guarded_intro. intros p n Hn Heq. unfold remove. rewrite Heq.
  destruct (update_at_valid r p n (set_action A_Remove) Hn) as [r1 Hu]. rewrite Hu. simpl.
  eexists. split_and!; [done|by eapply changed_at_intro|].
  rewrite strip_mark. eapply strip_update; [done|]. intros. apply strip_set_action.
Qed.

(** What [replace] writes, when its data is acceptable. *)
Definition replacement (data : list byte) (body_only : bool) : option (FfsNode -> FfsNode) :=
  if body_only then Some (replace_body data)
  else match parse_ffs_bytes data with
       | Ok new => Some (replace_node new)
       | _ => None
       end.

(** [replace] on every branch: past the guard it rejects data that is not an
    FFS file, and otherwise rewrites exactly the addressed node. *)
Theorem replace_spec r t data body_only :
  guarded_outcome r t (replace r t data body_only) (fun p n =>
    match replacement data body_only with
    | None => replace r t data body_only = Err InvalidFfs
    | Some f => exists r', replace r t data body_only = Ok r' /\ changed_at r p f r'
    end).
Proof.
  unfold replace at 1. apply guarded_intro. intros p n Hn Heq.
  unfold replace. rewrite Heq. clear Heq. unfold find_mut, replacement. rewrite Hn. simpl.
  pose proof (parse_file_post data 0 xff x02 ltac:(lia)) as Hp. fold (parse_ffs_bytes data) in Hp.
  destruct body_only; simpl; [|destruct (parse_ffs_bytes data) as [new|e| |]; simpl; try done].
  all: match goal with H : node_at_path ?r ?p = Some ?n |- context [update_at ?r ?p ?f] =>
    destruct (update_at_valid r p n f H) as [r1 Hu] end.
  all: rewrite Hu; simpl; eexists; split; [done|]; by eapply changed_at_intro.
Qed.

(** The state byte of an inserted file, in the polarity of its volume. *)
Definition state_fixed (r : FfsNode) (hp : list Z) (new : FfsNode) : FfsNode :=
  if bool_decide (enclosing_volume_empty_byte r hp = Some xff)
     && bool_decide (get (header new) 23 = Some x07)
  then set_header (<[23%nat := xf8]> (header new)) new else new.

Lemma fix_state_byte_eq r hp new : fix_state_byte r hp new = Ok (state_fixed r hp new).
Proof.
  unfold fix_state_byte, state_fixed. destruct (_ && _) eqn:Hb; [|done]. bool_to_prop.
  assert (0 <= 23 < blen (header new)) by (apply get_is_Some; eauto).
  unfold set_at. replace ((0 <=? 23) && (23 <? blen (header new))) with true by lia. done.
Qed.

(** The node that receives the file, and the position of the file in it. *)
Definition host (m : InsertMode) (p : list Z) : option (list Z) :=
  match m with
  | Into => Some p
  | _ => match p with [] => None | _ => Some (take (length p - 1) p) end
  end.
Definition position (m : InsertMode) (p : list Z) (gp : FfsNode) : Z :=
  match m with
  | Into => blen (children gp)
  | Before => default 0 (last p)
  | After => default 0 (last p) + 1
  end.
Definition insert_at {A} (k : Z) (x : A) (l : list A) : list A :=
  take (Z.to_nat k) l ++ x :: drop (Z.to_nat k) l.

(** What a successful insertion does below the host [gp] at [hp]. *)
Definition inserted (r : FfsNode) (p hp : list Z) (k : Z) (new gp r' : FfsNode) : Prop :=
  exists gp', node_at_path r' hp = Some gp' /\
    strip gp' = strip (set_children (insert_at k (state_fixed r hp new) (children gp)) gp) /\
    forall q, ~ hp `prefix_of` q -> ~ q `prefix_of` hp -> node_at_path r' q = node_at_path r q.

Lemma inserted_intro r hp rest new gp k r1 :
  node_at_path r hp = Some gp ->
  update_at r hp (fun n => set_children (insert_at k (state_fixed r hp new) (children gp)) n) = Some r1 ->
  inserted r (hp ++ rest) hp k new gp (mark_rebuild_to_root_by_path r1 (hp ++ rest)).
Proof.
  intros Hgp Hu. pose proof (update_at_same _ _ _ _ _ Hu Hgp) as Hs.
  eexists. split_and!; [by apply mark_on|apply strip_mark|].
  intros q Hpq Hqp. rewrite mark_off; [by eapply update_at_off|].
  intros Hq. destruct (prefix_weak_total hp q (hp ++ rest)); auto. by eexists.
Qed.

(** The second half of [insert]: the position is known, the guard has passed. *)
Lemma insert_tail r p hp m new gp :
  Forall (fun i => 0 <= i) p -> host m p = Some hp -> node_at_path r hp = Some gp ->
  let res :=
    match m with
    | Into =>
        root ← ok_or NotFound
          (update_at r p (fun n => set_children (children n ++ [state_fixed r hp new]) n));
        mret (mark_rebuild_to_root_by_path root p)
    | Before | After =>
        idx ← unwrap (last p);
        grandparent ← ok_or NotFound (find_mut r (take (length p - 1) p));
        if blen (children grandparent) <? idx then Err InvalidParent
        else
          ch ← vec_insert (children grandparent)
                 (match m with Before => idx | _ => idx + 1 end) (state_fixed r hp new);
          root ← ok_or NotFound (update_at r (take (length p - 1) p) (set_children ch));
          mret (mark_rebuild_to_root_by_path root p)
    end in
  if position m p gp <=? blen (children gp) then
    exists r', res = Ok r' /\ inserted r p hp (position m p gp) new gp r'
  else if bool_decide (m = After) && (position m p gp =? blen (children gp) + 1) then res = Panic
  else res = Err InvalidParent.
Proof.
  intros Hpos Hh Hgp res. destruct (decide (m = Into)) as [->|Hm].
  - simpl in Hh. injection Hh as <-. unfold position. rewrite Z.leb_refl.
    destruct (update_at_valid r p gp
      (fun n => set_children (insert_at (blen (children gp)) (state_fixed r p new) (children gp)) n) Hgp)
      as [r1 Hu].
    assert (update_at r p (fun n => set_children (children n ++ [state_fixed r p new]) n) = Some r1)
      as Hu'.
    { rewrite <-Hu. eapply update_at_ext; [exact Hgp|]. unfold insert_at, blen.
      rewrite Nat2Z.id, take_ge, drop_ge by lia. done. }
    unfold res. rewrite Hu'. simpl. eexists. split; [done|].
    pose proof (inserted_intro r p [] new gp _ r1 Hgp Hu) as H. by rewrite app_nil_r in H.
  - assert (p <> [] /\ hp = take (length p - 1) p) as [Hne ->].
    { destruct m, p; simplify_eq/=; done. }
    destruct (last p) as [i|] eqn:Hl; [|by apply last_None in Hl].
    assert (0 <= i) as Hi.
    { apply last_Some in Hl as [p' ->]. apply Forall_app in Hpos as [_ Hpos].
      by apply Forall_cons in Hpos as [? _]. }
    assert (position m p gp = match m with Before => i | _ => i + 1 end) as Hp.
    { unfold position. rewrite Hl. by destruct m. }
    set (k := position m p gp) in *.
    assert (res = (if blen (children gp) <? i then Err InvalidParent
      else ch ← vec_insert (children gp) k (state_fixed r (take (length p - 1) p) new);
           root ← ok_or NotFound (update_at r (take (length p - 1) p) (set_children ch));
           mret (mark_rebuild_to_root_by_path root p))) as ->.
    { unfold res, find_mut. rewrite Hgp, Hp. by destruct m. }
    unfold vec_insert. destruct (Z.leb_spec k (blen (children gp))) as [Hle|Hgt].
    + replace (blen (children gp) <? i) with false by (destruct m; lia).
      replace (0 <=? k) with true by (destruct m; lia). simpl.
      destruct (update_at_valid r _ gp (set_children (insert_at k
        (state_fixed r (take (length p - 1) p) new) (children gp))) Hgp) as [r1 Hu].
      unfold insert_at in Hu. rewrite Hu. simpl. eexists. split; [done|].
      pose proof (inserted_intro r (take (length p - 1) p) [i] new gp k r1 Hgp Hu) as H.
      by rewrite (take_last_app p i Hl) in H.
    + replace (0 <=? k) with true by (destruct m; lia). simpl.
      destruct m; simpl; [done|by replace (blen (children gp) <? i) with true by lia|].
      destruct (Z.eqb_spec k (blen (children gp) + 1)).
      * by replace (blen (children gp) <? i) with false by lia.
      * by replace (blen (children gp) <? i) with true by lia.
Qed.

(** [insert] on every branch. The one panic is an insertion after a position
    one past the last child; otherwise the file, with its state byte in the
    polarity of the enclosing volume, ends up at the requested position of its
    host and nothing off the path of the host changes. *)
Theorem insert_spec r p data m :
  Forall (fun i => 0 <= i) p ->
  match parse_ffs_bytes data, host m p with
  | Ok new, Some hp =>
      (exists e, forbids r p (mutable_depth p (bool_decide (m = Into))) e /\
                 insert r (TG_Path p) data m = Err e) \/
      (forall e, ~ forbids r p (mutable_depth p (bool_decide (m = Into))) e) /\
      match node_at_path r hp with
      | None => insert r (TG_Path p) data m = Err NotFound
      | Some gp =>
          if position m p gp <=? blen (children gp) then
            exists r', insert r (TG_Path p) data m = Ok r' /\
                       inserted r p hp (position m p gp) new gp r'
          else if bool_decide (m = After) && (position m p gp =? blen (children gp) + 1)
          then insert r (TG_Path p) data m = Panic
          else insert r (TG_Path p) data m = Err InvalidParent
      end
  | Ok _, None => insert r (TG_Path p) data m = Err InvalidParent
  | _, _ => insert r (TG_Path p) data m = Err InvalidFfs
  end.
Proof.
  intros Hpos. pose proof (parse_file_post data 0 xff x02 ltac:(lia)) as Hpost.
  fold (parse_ffs_bytes data) in Hpost. unfold insert.
  destruct (parse_ffs_bytes data) as [new|e| |]; simpl; try done.
  destruct (host m p) as [hp|] eqn:Hh.
  2:{ destruct m; simpl in *; [done|..]; by destruct p. }
  assert ((match m with
           | Into => Ok p
           | _ => if bool_decide (p = []) then Err InvalidParent
                  else mret (take (length p - 1) p)
           end : outcome OpsError (list Z)) = Ok hp) as ->.
  { destruct m; simpl in Hh; [by simplify_eq|..]; destruct p; simplify_eq/=; done. }
  simpl. pose proof (ensure_mutable_spec r p (bool_decide (m = Into))) as Hg.
  replace (match m with Into => ensure_mutable r p true | _ => ensure_mutable r p false end)
    with (ensure_mutable r p (bool_decide (m = Into))) by (by destruct m).
  destruct (ensure_mutable r p (bool_decide (m = Into))) as [u|e| |]; simpl; try done; [|by eauto].
  right. split; [done|]. rewrite fix_state_byte_eq. simpl.
  destruct (node_at_path r hp) as [gp|] eqn:Hgp.
  - by apply insert_tail.
  - destruct m; simpl in Hh; simplify_eq/=.
    + destruct (update_at r hp _) eqn:Hu; [|done].
      assert (is_Some (node_at_path r hp)) as [? ?]; [|congruence].
      eapply update_at_Some. by eexists.
    + destruct p as [|i p]; [done|]. simplify_eq/=. unfold find_mut. simpl in Hgp.
      destruct (last (i :: p)) eqn:Hl; [|by apply last_None in Hl]. simpl. by rewrite Hgp.
    + destruct p as [|i p]; [done|]. simplify_eq/=. unfold find_mut. simpl in Hgp.
      destruct (last (i :: p)) eqn:Hl; [|by apply last_None in Hl]. simpl. by rewrite Hgp.
Qed.

Lemma dirty_closed_copied r :
  dirty_closed r -> everywhere (fun n => action n = NoAction -> subtree_dirty n = false) r.
Proof.
  induction r as [r IH] using FfsNode_tree_ind. intros Hd. constructor.
  - by apply dirty_closed_clean.
  - apply dirty_closed_children in Hd. rewrite Forall_forall in *. auto.
Qed.

(** An insertion puts its file into another node than padding or free space. *)
Definition into_container (r : FfsNode) (e : edit) : Prop :=
  match e with
  | E_Insert (TG_Path p) _ m =>
      forall hp n, host m p = Some hp -> node_at_path r hp = Some n -> is_gap n = false
  | _ => True
  end.

Lemma host_split m p rest :
  m = Into /\ rest = [] \/ m <> Into /\ (exists i, rest = [i]) -> host m (p ++ rest) = Some p.
Proof.
  intros [[-> ->]|[Hm [i ->]]]; [by rewrite app_nil_r|]. unfold host.
  rewrite length_app. simpl. rewrite Nat.add_sub, take_app_length.
  destruct m, p; done.
Qed.

(** The guard of an edit keeps its path clear of regions. *)
Lemma guard_no_region r p incl q m :
  ensure_mutable r p incl = Ok tt -> ~ is_region r ->
  q `prefix_of` p -> node_at_path r q = Some m -> ~ is_region m.
Proof.
  intros Hg Hr Hq Hm Hreg. pose proof (ensure_mutable_spec r p incl) as Hs. rewrite Hg in Hs.
  destruct q as [|i q]; [by injection Hm as <-|].
  apply (Hs ImmutableRegion). exists (i :: q), m. split_and!; auto.
Qed.

Lemma mark_region n p : is_region (mark_rebuild_to_root_by_path n p) -> is_region n.
Proof.
  unfold is_region. destruct p as [|i p]; [simpl; by rewrite touch_type|].
  rewrite mark_cons. destruct (child_at n i); autorewrite with setters; by rewrite touch_type.
Qed.

Lemma update_at_region n p f n' :
  update_at n p f = Some n' -> (is_region (f n) -> is_region n) -> is_region n' -> is_region n.
Proof.
  destruct p as [|i p]; simpl; [by intros [= <-]|].
  destruct (child_at n i) as [c|]; simpl; [|done].
  destruct (update_at c p f); simpl; [|done]. intros [= <-] _.
  unfold is_region. by autorewrite with setters.
Qed.

(** Every accepted edit that inserts into a container keeps the tree sealed. *)
Lemma apply_edit_sealed r e r' :
  apply_edit r e = Ok r' -> into_container r e ->
  sealed r /\ ~ is_region r -> sealed r' /\ ~ is_region r'.
Proof.
  intros H%apply_edit_shape Hin [Hs Hr].
  destruct H as [|p rest data m g r1 Hrest Hg Hu Hch|e t p f r1 _ _ Hg Hu _ Hf]; [done|split..].
  - eapply update_mark_sealed; [exact Hs|exact Hu| |].
    { intros q n Hq _ Hn. eapply guard_no_region; [exact Hg|done| |exact Hn].
      by apply prefix_app_r. }
    intros n Hn Hsn. destruct (Hch n Hn) as (new & k & Hnew & Heq).
    assert (~ is_region (set_children (g n) n)) as Hrn.
    { assert (~ is_region n) by (eapply guard_no_region; [exact Hg|done| |exact Hn];
        by apply prefix_app_r).
      unfold is_region in *. by autorewrite with setters. }
    apply mark_sealed; [|done|destruct Hrest as [[_ ->]|[_ ?]]; auto].
    apply sealed_host; [|done|].
    + assert (is_gap n = false) as Hgap by (eapply Hin; [by eapply host_split|done]).
      unfold is_gap in *. by autorewrite with setters.
    + autorewrite with setters. rewrite Heq. apply sealed_children in Hsn.
      apply Forall_app. split; [by apply Forall_take|].
      constructor; [by apply clean_sealed|by apply Forall_drop].
  - intros Hr'%mark_region. apply Hr. eapply update_at_region; [exact Hu| |exact Hr'].
    unfold is_region. by autorewrite with setters.
  - rewrite <-(app_nil_r p). eapply update_mark_sealed; [exact Hs|exact Hu| |].
    { intros q n Hq _ Hn. by eapply guard_no_region. }
    intros n Hn Hsn. apply sealed_touch. by apply Hf.
  - intros Hr'%mark_region. apply Hr. eapply update_at_region; [exact Hu| |exact Hr'].
    by apply Hf.
Qed.

(** What the builder does with a node whose children it does not look at: it
    copies a volume, file or section without an action, and padding, free space
    and regions whatever their action. *)
Definition copied_whole (n : FfsNode) : bool :=
  match node_type n with
  | T_Root | T_Image | T_Capsule => false
  | T_Volume | T_File | T_Section => bool_decide (action n = NoAction)
  | T_Padding | T_FreeSpace | T_Region => true
  end.
Definition own_bytes (n : FfsNode) : list byte :=
  match node_type n with
  | T_Padding | T_FreeSpace | T_Region => body n
  | _ => header n ++ body n ++ tail n
  end.

Lemma build_copied_whole {LL : LzmaLib} n out :
  copied_whole n = true -> subtree_dirty n = false \/ is_gap n = true \/ is_region n ->
  build_node n out = Ok (out ++ own_bytes n).
Proof.
  intros Hc Hd. rewrite build_node_eq. unfold copied_whole, own_bytes, is_gap, is_region in *.
  destruct (node_type n); simpl in *; try done; bool_to_prop.
  - unfold build_volume. by rewrite Hc.
  - unfold build_file. by rewrite Hc.
  - unfold build_section. rewrite Hc. destruct Hd as [->|[|]]; [|done..]. simpl.
    by destruct (is_compressed_or_guided n).
Qed.

Lemma clean_subtree n : clean n -> subtree_dirty n = false.
Proof. intros Hn. apply dirty_closed_clean; [by apply clean_dirty_closed|by apply clean_action]. Qed.

(** Nothing is pending below a node that is copied whole. *)
Lemma sealed_copied {LL : LzmaLib} r :
  dirty_closed r -> sealed r ->
  everywhere (fun n => copied_whole n = true ->
    existsb subtree_dirty (children n) = false /\
    forall out, build_node n out = Ok (out ++ own_bytes n)) r.
Proof.
  induction r as [r IH] using FfsNode_tree_ind. intros Hd Hs. constructor.
  2:{ apply dirty_closed_children in Hd. apply sealed_children in Hs.
      rewrite Forall_forall in *. auto. }
  intros Hc. assert (subtree_dirty r = negb (bool_decide (action r = NoAction))
    || existsb subtree_dirty (children r)) as He by (by destruct r).
  assert (subtree_dirty r = false \/ is_gap r = true \/ is_region r) as Hr.
  { unfold copied_whole, is_gap, is_region in *. destruct (node_type r); bool_to_prop; auto.
    all: left; by apply dirty_closed_clean. }
  split; [|intros out; by apply build_copied_whole].
  inversion Hs as [? [Hg Hreg] _]; subst. destruct Hr as [Hr|[Hr|Hr]].
  - rewrite Hr in He. symmetry in He. by apply orb_false_iff in He as [_ ?].
  - by rewrite (Hg Hr).
  - specialize (Hreg Hr). apply not_true_is_false. intros (c & Hin & Hdc)%existsb_exists.
    apply list_elem_of_In in Hin. rewrite Forall_forall in Hreg.
    by rewrite clean_subtree in Hdc by auto.
Qed.

Lemma parse_image_no_region {LL : LzmaLib} depth buf m iid sid img :
  parse_image depth buf m iid sid = Ok img -> ~ is_region (root img).
Proof.
  unfold parse_image, parse_root. intros H. ok_inv. by simpl in *.
Qed.

(** C3. The builder overlooks no edit: after any sequence of successful edits of a
    parsed image whose insertions go into other nodes than padding and free
    space, nothing is pending below a node without an action, nor below a node
    whose own bytes the builder copies out (an untouched volume, file or section,
    and every padding, free-space and region node, whatever its action). *)
Theorem edits_not_lost {LL : LzmaLib} depth buf m iid sid img r :
  blen buf < 2 ^ 32 -> parse_image depth buf m iid sid = Ok img ->
  edited into_container (root img) r ->
  everywhere (fun n => action n = NoAction -> subtree_dirty n = false) r /\
  everywhere (fun n => copied_whole n = true ->
    existsb subtree_dirty (children n) = false /\
    forall out, build_node n out = Ok (out ++ own_bytes n)) r.
Proof.
  intros Hb Hp He. pose proof Hp as Hc%parse_image_clean; [|done].
  apply parse_image_no_region in Hp.
  assert (dirty_closed r /\ sealed r /\ ~ is_region r) as (Hd & Hs & _).
  { eapply (edited_ind_inv _ (fun r => dirty_closed r /\ sealed r /\ ~ is_region r)); [| |exact He].
    - intros r0 e r' Hok (Hd & Hs) Hr'. split; [by eapply apply_edit_closed|].
      by eapply apply_edit_sealed.
    - split_and!; [by apply clean_dirty_closed|by apply clean_sealed|done]. }
  split; [by apply dirty_closed_copied|by apply sealed_copied].
Qed.
End OpsFacts.
