(* ===== verification/NvarFacts.v ===== *)
(** Correctness of the NVAR record parser: no input makes it panic, every record
    it returns lies inside the buffer with its fields in order, it reads back the
    records an encoder writes, the walk tiles the store, and the nested walk
    locates every record in the outermost buffer. *)
From S2P Require Import Prelude Text Types Ffs Tiano Codec Parser Target Ops Nvar.

Section NvarFacts.
Context {GL : GuidLib}.

(** ** One record *)

(** What the layout of a parsed record guarantees. *)
Record entry_ok (buf : list byte) (off : Z) (r : NvarRecord) : Prop := {
  eo_offset : nv_offset r = off;
  eo_sig : sub buf off (off + 4) = SIG;
  eo_size : nv_size r = le_dec (sub buf (off + 4) (off + 6));
  eo_range : 0 <= off /\ 10 <= nv_size r < 2 ^ 16 /\ off + nv_size r <= blen buf;
  eo_attr : get buf (off + 9) = Some (nv_attributes r);
  eo_data : off + 10 <= nv_data_offset r /\ 0 <= nv_data_len r;
  eo_end : nv_data_offset r + nv_data_len r + nv_extended_size r = off + nv_size r;
  eo_ext : nv_extended_size r = 0 \/ 3 <= nv_extended_size r <= nv_size r - 10;
  eo_name : is_Some (nv_name r) <-> is_named (nv_attributes r) = true;
  eo_guid_index : nv_guid_index r =
    if is_named (nv_attributes r) && negb (has_attr (nv_attributes r) ATTR_LOCAL_GUID)
    then get buf (off + 10) else None;
  eo_guid : nv_guid r = None
}.

Lemma guid_field_Some buf attributes p entry_end gp :
  guid_field buf attributes p entry_end = Some gp ->
  p <= snd gp /\ (p <= entry_end -> snd gp <= entry_end) /\
  fst gp = if is_named attributes && negb (has_attr attributes ATTR_LOCAL_GUID)
           then get buf p else None.
Proof.
  unfold guid_field. destruct (is_named attributes); simpl.
  - destruct (has_attr attributes ATTR_LOCAL_GUID); simpl.
    + destruct (Z.ltb_spec entry_end (p + 16)); [done|]. intros [= <-]. simpl. split_and!; done || lia.
    + destruct (get buf p) as [gi|]; simpl; [|done].
      destruct (Z.ltb_spec entry_end (p + 1)); [done|]. intros [= <-]. simpl. split_and!; done || lia.
  - intros [= <-]. simpl. split_and!; done || lia.
Qed.

Lemma position_zero_Some bs i k :
  position_zero bs i = Some k ->
  i <= k < i + blen bs /\ get bs (k - i) = Some x00 /\
  Forall (fun b => b <> x00) (sub bs 0 (k - i)).
Proof.
  revert i. induction bs as [|b bs IH]; intros i; simpl; [done|].
  case_bool_decide as Hb.
  - intros [= ->]. rewrite Z.sub_diag. pose proof (blen_nonneg bs).
    split_and!; [blen_lia..|by rewrite Hb|constructor].
  - intros [Hk [Hg Hf]]%IH. split_and!; [blen_lia..| |].
    + change (b :: bs) with ([b] ++ bs). rewrite get_app_r by (change (blen [b]) with 1; lia).
      rewrite <-Hg. f_equal. change (blen [b]) with 1. lia.
    + unfold sub in *. rewrite !drop_0 in *.
      replace (Z.to_nat (k - i - 0)) with (S (Z.to_nat (k - (i + 1) - 0))) by lia.
      by constructor.
Qed.

Lemma sub_two (l : list byte) i a b :
  get l i = Some a -> get l (i + 1) = Some b -> sub l i (i + 2) = [a; b].
Proof.
  intros Ha Hb. assert (0 <= i < blen l) by (apply get_is_Some; by eexists).
  assert (0 <= i + 1 < blen l) by (apply get_is_Some; by eexists).
  apply list_get_ext. intros k. destruct (decide (0 <= k < 2)).
  - rewrite get_sub by lia. assert (k = 0 \/ k = 1) as [-> | ->] by lia; [by rewrite Z.add_0_r, Ha|].
    by rewrite Hb.
  - rewrite !(proj2 (get_None _ _)); [done|change (blen [a; b]) with 2; lia|].
    rewrite blen_sub by lia. lia.
Qed.

(** The search for the double NUL stays inside the record. *)
Lemma name_end_loop buf p entry_end fuel :
  0 <= p <= entry_end -> entry_end <= blen buf -> entry_end - p < Z.of_nat fuel ->
  post (loop fuel (name_end_step buf entry_end) p)
    (fun e => p <= e /\ (e + 1 < entry_end -> sub buf e (e + 2) = [x00; x00]) /\
              exists k, e = p + 2 * k) (fun _ => True).
Proof.
  intros Hp Hend Hf.
  apply (loop_post _ (fun e => p <= e /\ exists k, e = p + 2 * k) (fun e => Z.to_nat (entry_end - e)));
    [|split; [lia|exists 0; lia]|lia].
  intros e [He [k Hk]]. unfold name_end_step. destruct (Z.ltb_spec (e + 1) entry_end) as [Hlt|].
  2:{ simpl. split_and!; [lia|lia|by exists k]. }
  apply post_bind, index_post; [lia|]. intros lo Hlo. apply post_bind.
  eapply (post_mono _ (fun hi => lo = x00 -> get buf (e + 1) = Some hi) _ (fun _ => True));
    [|intros hi Hhi|done].
  { case_bool_decide; [|simpl; by intros ?].
    apply index_post; [lia|]. by intros hi Hhi _. }
  destruct (bool_decide (lo = x00) && bool_decide (hi = x00)) eqn:Hz; simpl.
  - bool_to_prop. subst. split_and!; [lia| |by exists k]. intros _. apply sub_two; auto.
  - split; [split; [lia|]; exists (k + 1); lia|lia].
Qed.

Lemma name_field_post buf attributes p entry_end :
  0 <= p <= entry_end -> entry_end <= blen buf ->
  post (name_field buf attributes p entry_end)
    (fun o => forall np, o = Some np ->
       p <= snd np <= entry_end /\ (is_Some (fst np) <-> is_named attributes = true))
    (fun _ => True).
Proof.
  intros Hp Hend. unfold name_field. destruct (is_named attributes); simpl.
  2:{ intros np [= <-]. simpl. split; [lia|]. split; [by intros []|done]. }
  destruct (has_attr attributes ATTR_ASCII_NAME).
  - post_step. post_step. unfold try_opt.
    destruct (position_zero (sub buf p entry_end) 0) as [k|] eqn:Hk; [|done].
    apply position_zero_Some in Hk as [Hk _]. rewrite blen_sub in Hk by lia.
    post_step. post_step. post_step; simpl; [done|].
    intros np [= <-]. simpl. split; [lia|]. split; [done|by eexists].
  - post_step. eapply post_mono; [apply name_end_loop; lia| |done].
    intros e [He _]. destruct (Z.leb_spec entry_end (e + 1)); [done|].
    post_step. post_step. destruct (Z.ltb_spec entry_end (e + 2)); simpl; [done|].
    intros np [= <-]. simpl. split; [lia|]. split; [done|by eexists].
Qed.

Lemma extended_field_post buf attributes size entry_end :
  10 <= size -> size <= entry_end -> entry_end <= blen buf ->
  post (extended_field buf attributes size entry_end)
    (fun e => e = 0 \/ 3 <= e <= size - 10) (fun _ => True).
Proof.
  intros. unfold extended_field. destruct (has_attr attributes _ && _); [|by left].
  apply post_bind, index_post; [lia|]. intros e0 _. apply post_bind, index_post; [lia|]. intros e1 _.
  cbn [mret outcome_ret post]. generalize (le_dec [e0; e1]). intros esz.
  destruct ((3 <=? esz) && (esz <=? size - 10)) eqn:Hb; [right; lia|by left].
Qed.

Lemma parse_entry_post buf off :
  post (parse_entry buf off) (fun o => forall r, o = Some r -> entry_ok buf off r) (fun _ => True).
Proof.
  unfold parse_entry, try_opt. destruct (get_range buf off (off + 4)) as [sig|] eqn:Hsig; [|done].
  apply get_range_Some in Hsig as [(H0 & H1 & H2) ->]. post_step; [done|]. bool_to_prop.
  destruct (get buf (off + 4)) as [s0|] eqn:Hs0; [|done].
  destruct (get buf (off + 5)) as [s1|] eqn:Hs1; [|done].
  assert (le_dec [s0; s1] = le_dec (sub buf (off + 4) (off + 6))) as Hsize.
  { f_equal. symmetry. replace (off + 6) with (off + 4 + 2) by lia. apply sub_two; [done|].
    by replace (off + 4 + 1) with (off + 5) by lia. }
  rewrite Hsize. set (size := le_dec (sub buf (off + 4) (off + 6))) in *.
  assert (size < 2 ^ 16) as Hmax.
  { rewrite <-Hsize. pose proof (le_dec_bounds [s0; s1]) as Hd. change (256 ^ blen [s0; s1]) with (2 ^ 16) in Hd. lia. }
  post_step; [done|]. apply orb_false_iff in Hb0 as [Hge Hle].
  apply post_bind, index_post; [lia|]. intros attributes Hattr.
  do 3 (apply post_bind, index_post; [lia|]; intros ? _).
  destruct (guid_field buf attributes (off + 10) (off + size)) as [gp|] eqn:Hgp; [|done].
  apply guid_field_Some in Hgp as (Hg1 & Hg2 & Hgi).
  apply post_bind. eapply post_mono; [apply name_field_post; lia| |done].
  intros [np|] Hnp; [|done]. destruct (Hnp np eq_refl) as [Hp Hname].
  apply post_bind. eapply post_mono; [apply extended_field_post; lia| |done].
  intros ext Hext. post_step; [done|]. cbn [post]. intros r [= <-].
  constructor; cbn; try done; lia.
Qed.

(** C26. The record parser is total: on any buffer and position it returns a record or
    none, without a panic; a record it returns starts with the signature and the
    size at that position, lies inside the buffer, and its header, GUID field, name,
    data and trailer follow each other and fill exactly its size. *)
Theorem parse_entry_total buf off :
  exists o, parse_entry buf off = Ok o /\ forall r, o = Some r -> entry_ok buf off r.
Proof.
  pose proof (parse_entry_post buf off) as H.
  destruct (parse_entry buf off) as [o|[]| |]; [by exists o|done..].
Qed.

Lemma parse_entry_ok buf off r : parse_entry buf off = Ok (Some r) -> entry_ok buf off r.
Proof. intros H. by eapply (post_Ok _ _ _ _ (parse_entry_post buf off)). Qed.

(** Where the data of a record lies. *)
Lemma parse_entry_data buf off r :
  parse_entry buf off = Ok (Some r) ->
  0 <= nv_data_offset r /\ 0 <= nv_data_len r /\ nv_data_offset r + nv_data_len r <= blen buf.
Proof. intros [? ? ? ? ? ? ? ? ? ? ?]%parse_entry_ok. lia. Qed.

(** ** The walk over a store *)

(** [rs] are the records found one after the other from [off] to [e]. *)
Fixpoint chained (buf : list byte) (off : Z) (rs : list NvarRecord) (e : Z) : Prop :=
  match rs with
  | [] => off = e
  | r :: rs => parse_entry buf off = Ok (Some r) /\ chained buf (off + nv_size r) rs e
  end.

Lemma chained_snoc buf off rs e r :
  chained buf off rs e -> parse_entry buf e = Ok (Some r) ->
  chained buf off (rs ++ [r]) (e + nv_size r).
Proof.
  revert off. induction rs as [|x rs IH]; intros off; simpl; [by intros -> ?|].
  intros [? Hc] Hr. split; [done|]. by apply IH.
Qed.

Lemma chained_bytes buf off rs e :
  0 <= off <= blen buf -> chained buf off rs e ->
  off <= e <= blen buf /\
  concat (map (fun r => sub buf (nv_offset r) (nv_offset r + nv_size r)) rs) = sub buf off e.
Proof.
  revert off. induction rs as [|r rs IH]; intros off Hoff; simpl.
  { intros <-. split; [lia|]. by rewrite sub_empty. }
  intros [Hr Hc]. apply parse_entry_ok in Hr as [Ho _ _ Hrange _ _ _ _ _ _ _].
  apply IH in Hc as [He ->]; [|lia]. split; [lia|]. rewrite Ho. apply sub_join; lia.
Qed.

Lemma chained_elem buf off rs e r :
  chained buf off rs e -> r ∈ rs -> parse_entry buf (nv_offset r) = Ok (Some r).
Proof.
  revert off. induction rs as [|x rs IH]; intros off; simpl; [by intros ? ?%elem_of_nil|].
  intros [Hx Hc] [->|Hin]%elem_of_cons; [|by eapply IH].
  pose proof (eo_offset _ _ _ (parse_entry_ok _ _ _ Hx)) as Ho. by rewrite Ho.
Qed.

Lemma walk_spec buf :
  post (walk buf) (fun rs => exists e, chained buf 0 rs e /\ parse_entry buf e = Ok None)
    (fun _ => True).
Proof.
  apply (loop_post _ (fun s => chained buf 0 (snd s) (fst s) /\ 0 <= fst s <= blen buf)
    (fun s => Z.to_nat (blen buf - fst s))).
  - intros [off out] [Hc Hoff]. simpl in *. pose proof (parse_entry_post buf off) as Hp.
    destruct (parse_entry buf off) as [[r|]|[]| |] eqn:Hr; simpl in *; try done.
    + specialize (Hp r eq_refl) as [_ _ _ Hrange _ _ _ _ _ _ _].
      split; [split; [by apply chained_snoc|lia]|lia].
    + by exists off.
  - simpl. split; [done|]. pose proof (blen_nonneg buf). lia.
  - simpl. unfold blen. lia.
Qed.

(** The walk over a store terminates without a panic; the records it returns lie
    one behind the other from the start of the store, are read back by the record
    parser at their offsets, tile a prefix of the store, and no record starts where
    they end. *)
Theorem walk_tiles buf :
  exists rs e,
    walk buf = Ok rs /\ 0 <= e <= blen buf /\ parse_entry buf e = Ok None /\
    (forall r, r ∈ rs -> parse_entry buf (nv_offset r) = Ok (Some r)) /\
    concat (map (fun r => sub buf (nv_offset r) (nv_offset r + nv_size r)) rs) = sub buf 0 e.
Proof.
  pose proof (walk_spec buf) as H. destruct (walk buf) as [rs|[]| |]; try done.
  destruct H as (e & Hc & He). exists rs, e. pose proof (blen_nonneg buf).
  destruct (chained_bytes buf 0 rs e) as [Hb Ht]; [lia|done|].
  split_and!; try done; try lia. intros r. by eapply chained_elem.
Qed.

(** ** Nested stores *)

Definition in_store (buf : list byte) (r : NvarRecord) : Prop :=
  exists rs, walk buf = Ok rs /\ r ∈ rs.

Lemma in_store_parse buf r : in_store buf r -> parse_entry buf (nv_offset r) = Ok (Some r).
Proof.
  intros (rs & Hw & Hr). apply (post_Ok _ _ _ _ (walk_spec buf)) in Hw as (e & Hc & _).
  by eapply chained_elem.
Qed.

Definition data_of (buf : list byte) (r : NvarRecord) : list byte :=
  sub buf (nv_data_offset r) (nv_data_offset r + nv_data_len r).

(** The data of a record is entered as a store of its own. *)
Definition enters (buf : list byte) (depth : Z) (r : NvarRecord) : Prop :=
  depth < MAX_DEPTH /\ 10 <= nv_data_len r /\ exists e, parse_entry (data_of buf r) 0 = Ok (Some e).

(** [inner] is a store inside [buf], [b] bytes from its start and [d] levels deep. *)
Inductive store_in (buf : list byte) (base depth : Z) : list byte -> Z -> Z -> Prop :=
| store_here : store_in buf base depth buf base depth
| store_deeper r inner b d :
    in_store buf r -> enters buf depth r ->
    store_in (data_of buf r) (base + nv_data_offset r) (depth + 1) inner b d ->
    store_in buf base depth inner b d.

(** The records [flatten] has to find. *)
Definition flat_in (buf : list byte) (base depth : Z) (f : FlatRecord) : Prop :=
  exists inner b d r,
    store_in buf base depth inner b d /\ in_store inner r /\ f = flat_record inner b d r.

(** What one record contributes. *)
Definition flat_from (buf : list byte) (base depth : Z) (r : NvarRecord) (f : FlatRecord) : Prop :=
  f = flat_record buf base depth r \/
  enters buf depth r /\ flat_in (data_of buf r) (base + nv_data_offset r) (depth + 1) f.

Lemma flat_in_from buf base depth f :
  flat_in buf base depth f <-> exists r, in_store buf r /\ flat_from buf base depth r f.
Proof.
  split.
  - intros (inner & b & d & r & Hs & Hr & ->). destruct Hs as [|x inner b d Hx He Hs].
    + exists r. split; [done|by left].
    + exists x. split; [done|]. right. split; [done|]. by exists inner, b, d, r.
  - intros (r & Hr & [-> | [He (inner & b & d & r' & Hs & Hr' & ->)]]).
    + exists buf, base, depth, r. split_and!; [constructor|done|done].
    + exists inner, b, d, r'. split_and!; [by eapply store_deeper|done|done].
Qed.

(** The recursion adds exactly the records it has to find. *)
Definition flattens (buf : list byte) (base depth : Z)
  (k : list FlatRecord -> pure (list FlatRecord)) (P : FlatRecord -> Prop) : Prop :=
  exists l, (forall out, k out = Ok (out ++ l)) /\ forall f, f ∈ l <-> P f.

Lemma flatten_step_spec rec buf base depth r :
  (enters buf depth r ->
   flattens (data_of buf r) (base + nv_data_offset r) (depth + 1)
     (rec (data_of buf r) (base + nv_data_offset r) (depth + 1))
     (flat_in (data_of buf r) (base + nv_data_offset r) (depth + 1))) ->
  parse_entry buf (nv_offset r) = Ok (Some r) ->
  flattens buf base depth (fun out => flatten_step rec buf base depth out r)
    (flat_from buf base depth r).
Proof.
  intros Hrec Hr. destruct (parse_entry_data _ _ _ Hr) as (H0 & H1 & H2).
  unfold flattens, flatten_step, flat_from.
  assert (~ enters buf depth r ->
    exists l, (forall out, Ok (E := Empty_set) (out ++ [flat_record buf base depth r])
      = Ok (out ++ l)) /\ forall f, f ∈ l <-> f = flat_record buf base depth r \/
      enters buf depth r /\ flat_in (data_of buf r) (base + nv_data_offset r) (depth + 1) f) as Hleaf.
  { intros Hn. exists [flat_record buf base depth r]. split; [done|]. intros f.
    rewrite list_elem_of_singleton. tauto. }
  destruct ((MAX_DEPTH <=? depth) || (nv_data_len r <? 10)) eqn:Hb.
  { apply Hleaf. unfold enters. intros (? & ? & _). lia. }
  apply orb_false_iff in Hb as [Hb1 Hb2].
  unfold slice. replace (range_ok _ _ _) with true
    by (symmetry; apply range_ok_spec; lia).
  cbn [mbind outcome_bind]. fold (data_of buf r).
  pose proof (parse_entry_post (data_of buf r) 0) as Hp.
  destruct (parse_entry (data_of buf r) 0) as [[e|]|[]| |] eqn:He; try done; simpl.
  - assert (enters buf depth r) as Hent by (split_and!; [lia|lia|by exists e]).
    destruct (Hrec Hent) as (l & Hl & Hin). exists (flat_record buf base depth r :: l).
    split; [intros out; by rewrite Hl, <-app_assoc|]. intros f.
    rewrite elem_of_cons, Hin. tauto.
  - apply Hleaf. unfold enters. intros (_ & _ & e & ?). congruence.
Qed.

Lemma flatten_fold_spec rec buf base depth rs :
  (forall r, r ∈ rs -> flattens buf base depth
     (fun out => flatten_step rec buf base depth out r) (flat_from buf base depth r)) ->
  flattens buf base depth (foldM (flatten_step rec buf base depth) rs)
    (fun f => exists r, r ∈ rs /\ flat_from buf base depth r f).
Proof.
  induction rs as [|r rs IH]; intros Hstep.
  - exists []. split; [intros out; by rewrite app_nil_r|]. intros f.
    split; [by intros ?%elem_of_nil|by intros (? & ?%elem_of_nil & _)].
  - destruct (Hstep r) as (l1 & Hl1 & Hin1); [by left|].
    destruct IH as (l2 & Hl2 & Hin2); [intros; apply Hstep; by right|].
    exists (l1 ++ l2). split.
    + intros out. cbn [foldM]. rewrite Hl1. cbn [mbind outcome_bind]. by rewrite Hl2, app_assoc.
    + intros f. rewrite elem_of_app, Hin1, Hin2. setoid_rewrite elem_of_cons. split.
      * intros [?|(x & ? & ?)]; [exists r|exists x]; auto.
      * intros (x & [-> | ?] & ?); [by left|right; by exists x].
Qed.

Lemma flatten_inner_spec fuel buf base depth :
  MAX_DEPTH - depth < Z.of_nat fuel -> depth <= MAX_DEPTH ->
  flattens buf base depth (flatten_inner fuel buf base depth) (flat_in buf base depth).
Proof.
  revert buf base depth. induction fuel as [|fuel IH]; intros buf base depth Hf Hd; [lia|].
  pose proof (walk_spec buf) as Hw. destruct (walk buf) as [rs|[]| |] eqn:Hrs; try done.
  destruct Hw as (e & Hc & _).
  destruct (flatten_fold_spec (flatten_inner fuel) buf base depth rs) as (l & Hl & Hin).
  { intros r Hr. apply flatten_step_spec; [|by eapply chained_elem].
    intros (Hlt & _). apply IH; lia. }
  exists l. split; [intros out; cbn [flatten_inner]; rewrite Hrs; apply Hl|].
  intros f. rewrite Hin, flat_in_from. split.
  - intros (r & Hr & Hfr). exists r. split; [by exists rs|done].
  - intros (r & (rs' & Hw & Hr) & Hfr). assert (rs' = rs) as -> by congruence. by exists r.
Qed.

(** A nested store is a slice of the outermost one. *)
Lemma store_in_slice buf base depth inner b d :
  store_in buf base depth inner b d -> 0 <= depth ->
  base <= b /\ b - base + blen inner <= blen buf /\ inner = sub buf (b - base) (b - base + blen inner) /\
  depth <= d /\ d <= Z.max depth MAX_DEPTH.
Proof.
  induction 1 as [buf base depth|buf base depth r inner b d Hr He Hs IH]; intros Hd.
  { rewrite Z.sub_diag. rewrite Z.add_0_l, sub_full. split_and!; done || lia. }
  apply in_store_parse, parse_entry_data in Hr as (H0 & H1 & H2). destruct He as [He _].
  destruct IH as (Hb & Hl & Hi & Hd1 & Hd2); [lia|]. unfold data_of in *.
  rewrite blen_sub in Hl by lia. split_and!; try lia.
  pose proof (blen_nonneg inner). rewrite Hi at 1. rewrite sub_sub by lia. f_equal; lia.
Qed.

Lemma flatten_located buf :
  exists fs, flatten buf = Ok fs /\ (forall f, f ∈ fs <-> flat_in buf 0 0 f) /\
    forall f, f ∈ fs -> 0 <= fl_depth f <= MAX_DEPTH /\ 0 <= fl_data_off f /\
      0 <= nv_data_len (fl_record f) /\ fl_data_off f + nv_data_len (fl_record f) <= blen buf.
Proof.
  destruct (flatten_inner_spec 5 buf 0 0) as (fs & Hfs & Hin); [done|done|].
  exists fs. split; [by rewrite <-(app_nil_l fs); apply Hfs|]. split; [done|].
  intros f Hf. apply Hin in Hf as (inner & b & d & r & Hs & Hr & ->).
  apply in_store_parse, parse_entry_data in Hr as (H0 & H1 & H2).
  apply store_in_slice in Hs as (Hb & Hl & _ & Hd1 & Hd2); [|done].
  unfold MAX_DEPTH in *. simpl. destruct (nv_guid_index r); simpl; lia.
Qed.

(** Flattening a store terminates within its recursion bound and without a panic;
    it returns exactly the records of the store and of the stores nested in its data
    down to depth 4, and the data of each is the slice of the outermost buffer at
    [data_off]. *)
Theorem flatten_exact buf :
  exists fs, flatten buf = Ok fs /\ (forall f, f ∈ fs <-> flat_in buf 0 0 f) /\
    forall f, f ∈ fs -> 0 <= fl_depth f <= MAX_DEPTH /\ 0 <= fl_data_off f /\
      0 <= nv_data_len (fl_record f) /\ fl_data_off f + nv_data_len (fl_record f) <= blen buf.
Proof. apply flatten_located. Qed.

(** ** Store nodes *)

Definition is_store (n : FfsNode) : bool :=
  (bool_decide (node_type n = T_File) || bool_decide (node_type n = T_Section))
  && bool_decide (length (children n) = 0%nat)
  && match parse_entry (body n) 0 with Ok (Some _) => true | _ => false end.

Lemma is_nvar_body_eq n : is_nvar_body n = Ok (is_store n).
Proof.
  unfold is_nvar_body, is_store. destruct (_ && _); [|done]. simpl.
  pose proof (parse_entry_post (body n) 0) as H.
  destruct (parse_entry (body n) 0) as [[r|]|[]| |]; done.
Qed.

Lemma is_store_leaf n : is_store n = true -> children n = [].
Proof.
  unfold is_store. intros H. bool_to_prop. by apply length_zero_iff_nil.
Qed.

End NvarFacts.

(** Writes inside the data of NVAR records: which bytes the record parser reads, and
    that a write inside the data of a record of a StdDefaults store keeps the store and
    reads back through [find_varstore_record]. *)

Section NvarWrite.
Context {GL : GuidLib}.

(** The buffers have the same length and the same bytes in a range. *)
Definition agree (b b' : list byte) (i j : Z) : Prop :=
  blen b' = blen b /\ forall k, i <= k < j -> get b' k = get b k.

Lemma agree_mono b b' i j i' j' : agree b b' i j -> i <= i' -> j' <= j -> agree b b' i' j'.
Proof. intros [Hl Hk] ? ?. split; [done|]. intros. apply Hk. lia. Qed.

Lemma agree_get b b' i j k : agree b b' i j -> i <= k < j -> get b' k = get b k.
Proof. intros [_ H]. apply H. Qed.

Lemma agree_on_sub b b' i j p q :
  agree b b' i j -> 0 <= p -> i <= p -> p <= q <= j -> sub b' p q = sub b p q.
Proof. intros [Hl H] H0 Hp Hq. apply sub_ext; [lia|]. intros. apply H. lia. Qed.

Lemma agree_range b b' i j p q :
  agree b b' i j -> i <= p -> q <= j -> get_range b' p q = get_range b p q.
Proof.
  intros H Hp Hq. unfold get_range. replace (range_ok b' p q) with (range_ok b p q)
    by (unfold range_ok; by rewrite (proj1 H)).
  destruct (range_ok b p q) eqn:Hr; [|done]. apply range_ok_spec in Hr.
  by rewrite (agree_on_sub _ _ _ _ _ _ H) by lia.
Qed.

Lemma agree_slice {E} b b' i j p q :
  agree b b' i j -> i <= p -> q <= j -> slice (E := E) b' p q = slice b p q.
Proof.
  intros H Hp Hq. unfold slice. replace (range_ok b' p q) with (range_ok b p q)
    by (unfold range_ok; by rewrite (proj1 H)).
  destruct (range_ok b p q) eqn:Hr; [|done]. apply range_ok_spec in Hr.
  by rewrite (agree_on_sub _ _ _ _ _ _ H) by lia.
Qed.

Lemma agree_index {E} b b' i j k :
  agree b b' i j -> i <= k < j -> index (E := E) b' k = index b k.
Proof. intros H Hk. unfold index. by rewrite (agree_get _ _ _ _ _ H Hk). Qed.

(** ** What the record parser reads *)

Lemma guid_field_agree b b' attributes p e gp :
  guid_field b attributes p e = Some gp -> agree b b' p (snd gp) ->
  guid_field b' attributes p e = Some gp.
Proof.
  unfold guid_field. destruct (is_named attributes); [|done].
  destruct (has_attr attributes ATTR_LOCAL_GUID); [done|].
  destruct (get b p) as [gi|] eqn:Hg; [|done]. cbn. destruct (_ <? _) eqn:He; [done|].
  intros [= <-] Ha. rewrite (agree_get _ _ _ _ p Ha) by (cbn; lia). rewrite Hg. cbn. by rewrite He.
Qed.

Lemma position_zero_agree l l' i k :
  position_zero l i = Some k -> (forall j, 0 <= j <= k - i -> get l' j = get l j) ->
  position_zero l' i = Some k.
Proof.
  revert l' i. induction l as [|x l IH]; intros l' i Hk Hj; [done|].
  pose proof (position_zero_Some _ _ _ Hk) as [Hb _].
  assert (get l' 0 = Some x) as H0 by (by rewrite Hj by lia).
  destruct l' as [|x' l']; [done|]. cbn in H0. injection H0 as ->. cbn in Hk |- *.
  case_bool_decide; [done|]. apply IH; [done|]. intros j Hl.
  apply position_zero_Some in Hk as [Hb' _].
  specialize (Hj (j + 1)). change (x :: l') with ([x] ++ l') in Hj. change (x :: l) with ([x] ++ l) in Hj.
  rewrite !get_app_r in Hj by (change (blen [x]) with 1; lia). change (blen [x]) with 1 in Hj.
  replace (j + 1 - 1) with j in Hj by lia. apply Hj. lia.
Qed.

Lemma loop_S {E S R} fuel (f : S -> outcome E (S + R)) s :
  loop (Datatypes.S fuel) f s = (r ← f s; match r with inl s' => loop fuel f s' | inr r => Ok r end).
Proof. done. Qed.

(** The search for the double NUL by its turns. *)
Lemma name_end_turn b entry_end fuel p e :
  loop (S fuel) (name_end_step b entry_end) p = Ok e ->
  name_end_step b entry_end p = Ok (inr e) /\ p = e \/
  name_end_step b entry_end p = Ok (inl (p + 2)) /\
  loop fuel (name_end_step b entry_end) (p + 2) = Ok e.
Proof.
  rewrite loop_S. intros (st & Hst & Hl)%bind_Ok. rewrite Hst. unfold name_end_step in Hst.
  destruct (Z.ltb_spec (p + 1) entry_end) as [Hlt|]; [|unfold mret, outcome_ret in Hst; simplify_eq/=; by left].
  apply bind_Ok in Hst as (lo & _ & Hst). apply bind_Ok in Hst as (hi & _ & Hst).
  destruct (_ && _); unfold mret, outcome_ret in Hst; simplify_eq/=; [by left|by right].
Qed.

Lemma name_end_le b entry_end fuel p e :
  loop fuel (name_end_step b entry_end) p = Ok e -> p <= e.
Proof.
  revert p. induction fuel as [|fuel IH]; intros p; [done|].
  intros [[_ ->]|[_ Hl%IH]]%name_end_turn; lia.
Qed.

Lemma name_end_step_agree b b' entry_end p :
  agree b b' p (p + 2) -> name_end_step b' entry_end p = name_end_step b entry_end p.
Proof.
  intros Ha. unfold name_end_step. rewrite !(agree_index b b' p (p + 2)) by (done || lia). done.
Qed.

Lemma name_end_agree b b' entry_end fuel p e :
  loop fuel (name_end_step b entry_end) p = Ok e -> agree b b' p (e + 2) ->
  loop fuel (name_end_step b' entry_end) p = Ok e.
Proof.
  revert p. induction fuel as [|fuel IH]; intros p Hl Ha; [done|].
  destruct (name_end_turn _ _ _ _ _ Hl) as [[Hs ->]|[Hs Hr]]; rewrite loop_S.
  - rewrite (name_end_step_agree b b') by done. by rewrite Hs.
  - pose proof (name_end_le _ _ _ _ _ Hr).
    rewrite (name_end_step_agree b b') by (eapply agree_mono; [done|lia..]). rewrite Hs.
    apply IH; [done|]. eapply agree_mono; [done|lia..].
Qed.

Lemma name_field_agree b b' attributes p e np :
  name_field b attributes p e = Ok (Some np) -> agree b b' p (snd np) ->
  name_field b' attributes p e = Ok (Some np).
Proof.
  unfold name_field. destruct (is_named attributes); [|done].
  destruct (has_attr attributes ATTR_ASCII_NAME).
  - intros (rest & Hrest & H)%bind_Ok Ha. apply slice_Ok in Hrest as [Hr Hrest].
    unfold try_opt in H |- *. destruct (position_zero rest 0) as [k|] eqn:Hk; [|done].
    pose proof (position_zero_Some _ _ _ Hk) as [Hb _]. rewrite Hrest, blen_sub in Hb by lia.
    apply bind_Ok in H as (bytes & Hbytes & H). destruct (e <? k + p + 1) eqn:He; [done|].
    simplify_eq/=. destruct Ha as [Hl Ha].
    rewrite (proj2 (slice_Ok b' p e (sub b' p e))) by (split; [lia|done]). cbn [mbind outcome_bind].
    unfold try_opt.
    rewrite (position_zero_agree (sub b p e)) with (k := k); [|done|].
    2:{ intros j Hj. rewrite !get_sub by lia. apply Ha. lia. }
    rewrite (agree_slice b b' p (k + p + 1)) by (by split || lia). rewrite Hbytes. cbn [mbind outcome_bind].
    by rewrite He.
  - intros (e0 & Hl & H)%bind_Ok Ha. destruct (e <=? e0 + 1) eqn:H1; [done|].
    apply bind_Ok in H as (bytes & Hbytes & H). destruct (e <? e0 + 2) eqn:H2; [done|].
    simplify_eq/=. rewrite (name_end_agree _ _ _ _ _ _ Hl Ha). cbn [mbind outcome_bind]. rewrite H1.
    rewrite (agree_slice b b' p (e0 + 2)) by (done || lia). rewrite Hbytes. cbn [mbind outcome_bind].
    by rewrite H2.
Qed.

(** The last two bytes of the record are read as the size of a trailer. *)
Definition reads_trailer (r : NvarRecord) : bool :=
  has_attr (nv_attributes r) ATTR_EXTENDED_HEADER && (14 <? nv_size r).

(** The parser of a record reads its header, GUID and name, and the end of its trailer. *)
Lemma parse_entry_agree b b' off r :
  parse_entry b off = Ok (Some r) ->
  agree b b' off (nv_data_offset r) ->
  (reads_trailer r = true -> agree b b' (off + nv_size r - 2) (off + nv_size r)) ->
  parse_entry b' off = Ok (Some r).
Proof.
  intros Hr Ha Ht. pose proof (parse_entry_ok _ _ _ Hr) as [_ _ _ Hrange _ Hdata Hend Hext _ _ _].
  unfold parse_entry in Hr |- *. unfold try_opt in *.
  rewrite (agree_range b b' off (nv_data_offset r)) by (done || lia).
  destruct (get_range b off (off + 4)) as [sig|]; [|done].
  destruct (negb _); [done|].
  rewrite !(agree_get b b' off (nv_data_offset r)) by (done || lia).
  destruct (get b (off + 4)) as [s0|]; [|done]. destruct (get b (off + 5)) as [s1|]; [|done].
  cbv zeta in *. set (size := le_dec [s0; s1]) in *. clearbody size.
  rewrite (proj1 Ha). destruct (_ || _); [done|].
  assert (forall k, k ∈ [9; 6; 7; 8] -> index (E := Empty_set) b' (off + k) = index b (off + k)) as Hix.
  { intros k Hk. rewrite !elem_of_cons, elem_of_nil in Hk.
    apply (agree_index b b' off (nv_data_offset r)); [done|lia]. }
  rewrite !Hix by (rewrite !elem_of_cons; auto).
  apply bind_Ok in Hr as (x & -> & Hr). apply bind_Ok in Hr as (n0 & -> & Hr).
  apply bind_Ok in Hr as (n1 & -> & Hr). apply bind_Ok in Hr as (n2 & -> & Hr).
  cbn [mbind outcome_bind].
  destruct (guid_field b _ _ _) as [gp|] eqn:Hg; [|done].
  apply bind_Ok in Hr as (np & Hnp & Hr). destruct np as [np|]; [|done].
  apply bind_Ok in Hr as (ext & Hex & Hr). destruct (_ <? snd np) eqn:Hlt; [done|].
  injection Hr as <-. unfold reads_trailer in Ht. cbn in *.
  pose proof (guid_field_Some _ _ _ _ _ Hg) as (Hg1 & _ & _).
  assert (snd gp <= snd np) as Hgn.
  { unfold name_field in Hnp. destruct (is_named _); [|by simplify_eq/=].
    destruct (has_attr _ ATTR_ASCII_NAME).
    - apply bind_Ok in Hnp as (rest & _ & Hnp). unfold try_opt in Hnp.
      destruct (position_zero rest 0) as [k|] eqn:Hk; [|done].
      pose proof (position_zero_Some _ _ _ Hk) as [Hb _].
      apply bind_Ok in Hnp as (? & _ & Hnp). destruct (_ <? _); simplify_eq/=. lia.
    - apply bind_Ok in Hnp as (e0 & Hl & Hnp). apply name_end_le in Hl. destruct (_ <=? _); [done|].
      apply bind_Ok in Hnp as (? & _ & Hnp). destruct (_ <? _); simplify_eq/=. lia. }
  rewrite (guid_field_agree _ _ _ _ _ _ Hg) by (eapply agree_mono; [done|lia..]).
  rewrite (name_field_agree _ _ _ _ _ _ Hnp) by (eapply agree_mono; [done|lia..]).
  cbn [mbind outcome_bind].
  assert (extended_field b' x size (off + size) = Ok ext) as ->.
  { rewrite <-Hex. unfold extended_field. destruct (_ && _); [|done]. specialize (Ht eq_refl).
    by rewrite !(agree_index _ _ _ _ _ Ht) by lia. }
  cbn [mbind outcome_bind]. by rewrite Hlt.
Qed.

(** What no record ends at only depends on the bytes from there. *)
Lemma parse_entry_none_agree b b' off :
  agree b b' off (blen b) -> parse_entry b off = Ok None -> parse_entry b' off = Ok None.
Proof.
  intros Ha Hn. destruct (parse_entry_total b' off) as ([r|] & Hr & _); [|done].
  pose proof (parse_entry_ok _ _ _ Hr) as [_ _ _ Hrange _ _ _ _ _ _ _].
  enough (parse_entry b off = Ok (Some r)) by congruence.
  destruct Ha as [Hl Ha]. apply (parse_entry_agree b'); [done|..].
  - pose proof (parse_entry_data _ _ _ Hr). split; [done|]. intros. symmetry. apply Ha. lia.
  - intros _. split; [done|]. intros. symmetry. apply Ha. lia.
Qed.

(** ** Writes inside the data of a record *)

(** The end of the record is not read as a trailer while it is data. *)
Definition untrailed (r : NvarRecord) : bool :=
  negb (reads_trailer r) || negb (nv_extended_size r =? 0).

Lemma agree_splice b i w p q :
  0 <= i -> i + blen w <= blen b -> q <= i \/ i + blen w <= p -> agree b (splice b i w) p q.
Proof.
  intros H0 H1 Hd. split; [by apply blen_splice|]. intros k Hk. rewrite get_splice by done.
  destruct ((i <=? k) && (k <? i + blen w)) eqn:Hin; [lia|done].
Qed.

(** The write is inside the data of the record. *)
Definition in_data (r : NvarRecord) (i : Z) (w : list byte) : Prop :=
  nv_data_offset r <= i /\ i + blen w <= nv_data_offset r + nv_data_len r.

Lemma parse_entry_write b off r i w :
  parse_entry b off = Ok (Some r) -> untrailed r = true -> in_data r i w ->
  parse_entry (splice b i w) off = Ok (Some r).
Proof.
  intros Hr Hu [Hi He]. pose proof (parse_entry_ok _ _ _ Hr) as [_ _ _ Hrange _ Hdata Hend Hext _ _ _].
  pose proof (blen_nonneg w). apply (parse_entry_agree b); [done|apply agree_splice; lia|].
  intros Ht. apply agree_splice; [lia..|]. unfold untrailed in Hu. rewrite Ht in Hu. simpl in Hu.
  apply negb_true_iff, Z.eqb_neq in Hu. lia.
Qed.

Lemma chained_agree b b' off rs e :
  0 <= off -> chained b off rs e -> agree b b' off (blen b) -> chained b' off rs e.
Proof.
  revert off. induction rs as [|r rs IH]; intros off H0; [done|]. intros [Hr Hc] Ha.
  pose proof (parse_entry_ok _ _ _ Hr) as [_ _ _ Hrange _ Hdata Hend _ _ _ _].
  pose proof (parse_entry_data _ _ _ Hr). split.
  - apply (parse_entry_agree b); [done|by eapply agree_mono; [done|lia..]|].
    intros _. eapply agree_mono; [done|lia..].
  - apply IH; [lia|done|]. eapply agree_mono; [done|lia..].
Qed.

Lemma chained_ge b off rs e r : chained b off rs e -> r ∈ rs -> off <= nv_offset r.
Proof.
  revert off. induction rs as [|x rs IH]; intros off; [by intros ? ?%elem_of_nil|].
  intros [Hx Hc] [->|Hin]%elem_of_cons;
    pose proof (parse_entry_ok _ _ _ Hx) as [Ho _ _ Hrange _ _ _ _ _ _ _]; [lia|].
  specialize (IH _ Hc Hin). lia.
Qed.

Lemma chained_write b off rs e r i w :
  0 <= off -> chained b off rs e -> r ∈ rs -> untrailed r = true -> in_data r i w ->
  chained (splice b i w) off rs e /\ agree b (splice b i w) e (blen b).
Proof.
  intros H0 Hc Hr Hu Hi. revert off H0 Hc. induction rs as [|x rs IH]; intros off H0 Hc.
  { by apply elem_of_nil in Hr. }
  destruct Hc as [Hx Hc]. pose proof (parse_entry_ok _ _ _ Hx) as [Ho _ _ Hrange _ Hdata Hend Hext _ _ _].
  pose proof (blen_nonneg w). pose proof (parse_entry_data _ _ _ Hx).
  apply elem_of_cons in Hr as [->|Hr].
  - destruct Hi as [Hi He]. assert (agree b (splice b i w) (off + nv_size x) (blen b)) as Ha
      by (apply agree_splice; lia).
    split; [split; [by apply parse_entry_write|by eapply chained_agree; [lia|..]]|].
    destruct (chained_bytes b (off + nv_size x) rs e) as [? _]; [lia|done|].
    by eapply agree_mono; [exact Ha|lia..].
  - destruct (IH Hr (off + nv_size x)) as [Hc' Ha]; [lia|done|]. split; [|done].
    split; [|done]. pose proof (chained_ge _ _ _ _ _ Hc Hr).
    pose proof (chained_elem _ _ _ _ _ Hc Hr) as Hrr.
    pose proof (parse_entry_ok _ _ _ Hrr) as [_ _ _ ? _ ? ? ? _ _ _].
    destruct Hi as [Hi He]. pose proof (parse_entry_data _ _ _ Hrr).
    apply (parse_entry_agree b); [done|apply agree_splice; lia|]. intros _. apply agree_splice; lia.
Qed.

Lemma chained_det b off rs e rs' e' :
  chained b off rs e -> parse_entry b e = Ok None ->
  chained b off rs' e' -> parse_entry b e' = Ok None -> rs = rs'.
Proof.
  revert off rs'. induction rs as [|r rs IH]; intros off [|r' rs']; cbn [chained].
  - done.
  - intros -> Hn [Hr _] _. congruence.
  - intros [Hr _] _ -> Hn. congruence.
  - intros [Hr Hc] Hn [Hr' Hc'] Hn'. assert (r = r') as -> by congruence. f_equal. by eapply IH.
Qed.

Lemma walk_write b rs r i w :
  walk b = Ok rs -> r ∈ rs -> untrailed r = true -> in_data r i w -> walk (splice b i w) = Ok rs.
Proof.
  intros Hw Hr Hu Hi. apply (post_Ok _ _ _ _ (walk_spec b)) in Hw as (e & Hc & Hn).
  destruct (chained_write b 0 rs e r i w) as [Hc' Ha]; try done.
  pose proof (walk_spec (splice b i w)) as Hw. destruct (walk _) as [rs'|[]| |]; try done.
  destruct Hw as (e' & Hc2 & Hn2). f_equal. symmetry. eapply chained_det; [done| |done..].
  by eapply parse_entry_none_agree.
Qed.

(** ** StdDefaults stores *)

Lemma std_defaults_total b :
  exists o, std_defaults_data b = Ok o /\
    forall d, o = Some d -> exists first, parse_entry b 0 = Ok (Some first) /\
      nv_name first = Some (us "StdDefaults") /\ fst d = nv_data_offset first /\
      snd d = sub b (nv_data_offset first) (nv_data_offset first + nv_data_len first).
Proof.
  unfold std_defaults_data. destruct (parse_entry_total b 0) as (o & -> & Ho).
  cbn [mbind outcome_bind]. unfold try_opt. destruct o as [first|]; [|by exists None].
  case_bool_decide as Hn; [|by exists None]. cbn [negb].
  destruct (get_range b _ _) as [data|] eqn:Hg; [|by exists None].
  apply get_range_Some in Hg as [_ ->]. eexists. split; [done|]. intros d [= <-]. by exists first.
Qed.

Lemma find_record_total b name len :
  exists o, find_varstore_record b name len = Ok o /\
    forall k d, o = Some (k, d) -> exists first base rs r,
      parse_entry b 0 = Ok (Some first) /\ std_defaults_data b = Ok (Some (nv_data_offset first, base)) /\
      base = sub b (nv_data_offset first) (nv_data_offset first + nv_data_len first) /\
      walk base = Ok rs /\ r ∈ rs /\ List.find (record_matches name len) rs = Some r /\
      k = nv_data_offset first + nv_data_offset r /\ nv_data_len r = len /\
      d = sub base (nv_data_offset r) (nv_data_offset r + len).
Proof.
  unfold find_varstore_record. destruct (std_defaults_total b) as (o & Hs & Ho). rewrite Hs.
  cbn [mbind outcome_bind]. unfold try_opt. destruct o as [[fo base]|]; [|by exists None].
  destruct (Ho _ eq_refl) as (first & Hf & _ & Hfo & Hb). cbn [fst snd] in *.
  destruct (walk_tiles base) as (rs & e & Hw & _ & _ & Hrs & _). rewrite Hw. cbn [mbind outcome_bind].
  destruct (List.find _ rs) as [r|] eqn:Hfind; [|by exists None].
  pose proof (find_some _ _ Hfind) as [Hr%list_elem_of_In Hm].
  unfold record_matches in Hm. apply andb_true_iff in Hm as [_ Hm%Z.eqb_eq].
  pose proof (parse_entry_data _ _ _ (Hrs r Hr)) as (? & ? & ?).
  rewrite (proj2 (slice_Ok base _ _ _)) by (split; [lia|done]). cbn [mbind outcome_bind].
  eexists. split; [done|]. intros k d [= <- <-]. exists first, base, rs, r. subst fo.
  split_and!; try done; congruence.
Qed.

Lemma find_record_bounds b name len k d :
  find_varstore_record b name len = Ok (Some (k, d)) ->
  0 <= k /\ k + blen d <= blen b /\ blen d = len /\ d = sub b k (k + len).
Proof.
  intros H. destruct (find_record_total b name len) as (o & Ho & Hd).
  destruct (Hd k d) as (first & base & rs & r & Hf & _ & Hb & Hw & Hr & _ & -> & Hl & ->); [congruence|].
  pose proof (parse_entry_data _ _ _ Hf) as (? & ? & ?).
  assert (in_store base r) as Hin%in_store_parse%parse_entry_data by (by exists rs).
  rewrite Hb, blen_sub in Hin by lia. rewrite Hb, sub_sub by lia. rewrite blen_sub by lia.
  split_and!; try lia. f_equal; lia.
Qed.

(** No record of the StdDefaults store has data that could be read as a trailer. *)
Definition trailers_clear (b : list byte) : bool :=
  match std_defaults_data b with
  | Ok (Some d) =>
      match parse_entry b 0, walk (snd d) with
      | Ok (Some first), Ok rs => untrailed first && forallb untrailed rs
      | _, _ => true
      end
  | _ => true
  end.

(** A write inside the data of the record keeps the record and reads back. *)
Lemma find_record_write b name len k d i w :
  find_varstore_record b name len = Ok (Some (k, d)) -> trailers_clear b = true ->
  0 <= i -> i + blen w <= len ->
  find_varstore_record (splice b (k + i) w) name len = Ok (Some (k, splice d i w)).
Proof.
  intros H Hc Hi Hw. destruct (find_record_total b name len) as (o & Ho & Hd).
  destruct (Hd k d) as (first & base & rs & r & Hf & Hs & Hb & Hwalk & Hr & Hfind & -> & Hl & ->); [congruence|].
  unfold trailers_clear in Hc. rewrite Hs, Hf in Hc. cbn [snd] in Hc. rewrite Hwalk in Hc.
  apply andb_true_iff in Hc as [Hu Hall]. rewrite forallb_forall in Hall.
  pose proof (Hall r (proj1 (list_elem_of_In _ _) Hr)) as Hur.
  pose proof (parse_entry_data _ _ _ Hf) as (? & ? & ?). pose proof (blen_nonneg w).
  assert (in_store base r) as Hin%in_store_parse%parse_entry_data by (by exists rs).
  assert (blen base = nv_data_len first) as Hbl by (rewrite Hb, blen_sub; lia).
  set (fo := nv_data_offset first) in *. set (fl := nv_data_len first) in *.
  set (ro := nv_data_offset r) in *.
  assert (parse_entry (splice b (fo + ro + i) w) 0 = Ok (Some first)) as Hf'
    by (apply parse_entry_write; [done..|]; unfold in_data; fold fo fl; lia).
  assert (sub (splice b (fo + ro + i) w) fo (fo + fl) = splice base (ro + i) w) as Hbase.
  { apply list_get_ext. intros j. destruct (decide (0 <= j < fl)).
    - rewrite get_sub by (rewrite ?blen_splice by lia; lia). rewrite !get_splice by lia.
      rewrite Hb, get_sub by lia.
      destruct ((fo + ro + i <=? fo + j) && _) eqn:E1, ((ro + i <=? j) && _) eqn:E2; try lia; [|done].
      f_equal. lia.
    - rewrite !(proj2 (get_None _ _)); [done|..].
      all: rewrite ?blen_sub by (rewrite ?blen_splice by lia; lia); rewrite ?blen_splice by lia; lia. }
  assert (std_defaults_data (splice b (fo + ro + i) w) = Ok (Some (fo, splice base (ro + i) w))) as Hs'.
  { unfold std_defaults_data in Hs |- *. rewrite Hf in Hs. rewrite Hf'. cbn [mbind outcome_bind try_opt] in *.
    unfold try_opt in *. destruct (negb _); [done|]. fold fo fl in Hs |- *. rewrite <-Hbase.
    unfold get_range. rewrite (proj2 (range_ok_spec _ _ _)); [done|]. rewrite blen_splice; lia. }
  unfold find_varstore_record. rewrite Hs'. cbn [mbind outcome_bind]. unfold try_opt. cbn [fst snd].
  rewrite (walk_write base rs r) by (done || (unfold in_data; fold ro; lia)). cbn [mbind outcome_bind].
  rewrite Hfind. fold ro. rewrite Hl.
  rewrite (proj2 (slice_Ok _ _ _ _)) by (split; [rewrite blen_splice; lia|done]). cbn [mbind outcome_bind].
  do 3 f_equal. apply list_get_ext. intros j. destruct (decide (0 <= j < len)).
  - rewrite get_sub by (rewrite ?blen_splice by lia; lia). rewrite !get_splice; [|rewrite ?blen_sub; lia..].
    rewrite get_sub by lia.
    destruct ((ro + i <=? ro + j) && _) eqn:E1, ((i <=? j) && _) eqn:E2; try lia; [|done]. f_equal. lia.
  - rewrite !(proj2 (get_None _ _)); [done|..].
    all: rewrite ?blen_splice by (rewrite ?blen_sub; lia).
    all: rewrite ?blen_sub by (rewrite ?blen_splice by lia; lia); lia.
Qed.

End NvarWrite.
