(* ===== verification/NvarStoresFacts.v ===== *)
(** Correctness of the operations on the NVAR stores of an image: the two
    traversals visit exactly the store nodes, in order and with the right barrier
    flag; [nvar_set] writes the value into every copy it can reach and changes
    nothing else. *)
From S2P Require Import Prelude Text Types Ffs Tiano Codec Parser ImageParser Target Ops Builder.
From S2P Require Import ParserFacts OpsFacts Ops Nvar NvarStores NvarFacts.

Section NvarStoresFacts.
Context {GL : GuidLib}.

(** A store with its path, whether a section above it blocks edits, and the GUID
    of the file it belongs to. *)
Record StoreAt := {
  sa_path : list Z;
  sa_node : FfsNode;
  sa_barrier : bool;
  sa_owner : option Guid
}.

(** Leaves of a kind with their path, barrier and owner, in the order of the tree. *)
Section Leaves.
Context (st : FfsNode -> bool) (st_leaf : forall n, st n = true -> children n = []).

Fixpoint leaf_nodes (n : FfsNode) (path : list Z) (barrier : bool) (fg : option Guid)
  : list StoreAt :=
  let own := own_file_guid n fg in
  if st n
  then [{| sa_path := path; sa_node := n; sa_barrier := barrier; sa_owner := own |}]
  else concat_children
         (fun i c => leaf_nodes c (path ++ [i]) (barrier || section_blocks_mutation n) own)
         0 (children n).

Lemma leaf_nodes_eq n path barrier fg :
  leaf_nodes n path barrier fg =
  if st n
  then [{| sa_path := path; sa_node := n; sa_barrier := barrier; sa_owner := own_file_guid n fg |}]
  else concat_children
         (fun i c => leaf_nodes c (path ++ [i]) (barrier || section_blocks_mutation n)
                       (own_file_guid n fg)) 0 (children n).
Proof. by destruct n. Qed.

(** ** Which nodes are visited *)

(** A section above the node at [p] blocks edits. *)
Fixpoint blocked (n : FfsNode) (p : list Z) : bool :=
  match p with
  | [] => false
  | i :: p =>
      section_blocks_mutation n
      || match child_at n i with Some c => blocked c p | None => false end
  end.

(** The GUID of the innermost file on the path. *)
Fixpoint owner (n : FfsNode) (p : list Z) (fg : option Guid) : option Guid :=
  let own := own_file_guid n fg in
  match p with
  | [] => own
  | i :: p => match child_at n i with Some c => owner c p own | None => own end
  end.

Lemma leaf_nodes_elem n path barrier fg s :
  s ∈ leaf_nodes n path barrier fg <->
  exists q m, node_at_path n q = Some m /\ st m = true /\
    s = {| sa_path := path ++ q; sa_node := m; sa_barrier := barrier || blocked n q;
           sa_owner := owner n q fg |}.
Proof.
  revert path barrier fg. induction n as [n IH] using FfsNode_tree_ind. intros.
  rewrite leaf_nodes_eq. destruct (st n) eqn:Hs.
  - rewrite list_elem_of_singleton. split.
    + intros ->. exists [], n. simpl. by rewrite app_nil_r, orb_false_r.
    + intros (q & m & Hq & _ & ->). destruct q as [|i q].
      * simplify_eq/=. by rewrite app_nil_r, orb_false_r.
      * simpl in Hq. unfold child_at, get in Hq. rewrite st_leaf in Hq by done.
        by destruct (0 <=? i).
  - rewrite concat_children_elem. rewrite Forall_forall in IH. split.
    + intros (k & c & Hk & Hx). apply IH in Hx as (q & m & Hq & Hm & ->);
        [|by eapply list_elem_of_lookup_2].
      assert (child_at n (0 + Z.of_nat k) = Some c) as Hc
        by (apply get_Some; split; [lia|by rewrite Z.add_0_l, Nat2Z.id]).
      exists ((0 + Z.of_nat k) :: q), m. cbn [node_at_path blocked owner]. rewrite Hc.
      split_and!; [done|done|]. by rewrite <-app_assoc, <-orb_assoc.
    + intros (q & m & Hq & Hm & ->). destruct q as [|i q]; [simplify_eq/=; congruence|].
      simpl in Hq. destruct (child_at n i) as [c|] eqn:Hc; [|done]. simpl in Hq.
      pose proof (child_at_elem _ _ _ Hc) as Hin. apply get_Some in Hc as [Hi Hk].
      exists (Z.to_nat i), c. split; [done|]. replace (0 + Z.of_nat (Z.to_nat i)) with i by lia.
      apply IH; [done|]. exists q, m. split_and!; [done|done|].
      cbn [blocked owner]. assert (child_at n i = Some c) as -> by (by apply get_Some).
      by rewrite <-app_assoc, <-orb_assoc.
Qed.

Lemma leaf_nodes_NoDup n path barrier fg :
  NoDup (map sa_path (leaf_nodes n path barrier fg)).
Proof.
  revert path barrier fg. induction n as [n IH] using FfsNode_tree_ind. intros.
  rewrite leaf_nodes_eq. destruct (st n); [apply NoDup_singleton|].
  rewrite Forall_forall in IH.
  apply (concat_children_NoDup _ _ path).
  - intros j c Hc. by apply IH.
  - intros j c x (q & m & _ & _ & ->)%leaf_nodes_elem. exists q. by rewrite <-app_assoc.
Qed.

Lemma root_leaves root s :
  s ∈ leaf_nodes root [] false None <->
  node_at_path root (sa_path s) = Some (sa_node s) /\ st (sa_node s) = true /\
  sa_barrier s = blocked root (sa_path s) /\ sa_owner s = owner root (sa_path s) None.
Proof.
  rewrite leaf_nodes_elem. simpl. split.
  - by intros (q & m & Hq & Hm & ->).
  - destruct s as [p m b o]. simpl. intros (? & ? & -> & ->). by exists p, m.
Qed.

End Leaves.

(** The stores below a node. *)
Abbreviation store_nodes := (leaf_nodes is_store).

Lemma store_nodes_eq n path barrier fg :
  store_nodes n path barrier fg =
  if is_store n
  then [{| sa_path := path; sa_node := n; sa_barrier := barrier; sa_owner := own_file_guid n fg |}]
  else concat_children
         (fun i c => store_nodes c (path ++ [i]) (barrier || section_blocks_mutation n)
                       (own_file_guid n fg)) 0 (children n).
Proof. apply leaf_nodes_eq. Qed.

Lemma store_nodes_NoDup n path barrier fg : NoDup (map sa_path (store_nodes n path barrier fg)).
Proof. apply leaf_nodes_NoDup, is_store_leaf. Qed.

Lemma root_stores root s :
  s ∈ store_nodes root [] false None <->
  node_at_path root (sa_path s) = Some (sa_node s) /\ is_store (sa_node s) = true /\
  sa_barrier s = blocked root (sa_path s) /\ sa_owner s = owner root (sa_path s) None.
Proof. apply root_leaves, is_store_leaf. Qed.

Definition store_step (out : list StoreNodeHit) (s : StoreAt) : pure (list StoreNodeHit) :=
  Ok (if sa_barrier s then out
      else out ++ [{| sh_path := sa_path s; sh_desc := store_desc (sa_node s) (sa_owner s) |}]).

Lemma collect_stores_fold n path barrier fg out :
  collect_stores n path barrier fg out = foldM store_step (store_nodes n path barrier fg) out.
Proof.
  revert path barrier fg out. induction n as [n IH] using FfsNode_tree_ind. intros.
  transitivity (is_store' ← is_nvar_body n;
    if (is_store' : bool) then
      Ok (if barrier then out
          else out ++ [{| sh_path := path; sh_desc := store_desc n (own_file_guid n fg) |}])
    else each_child (fun out i child =>
           collect_stores child (path ++ [i]) (barrier || section_blocks_mutation n)
             (own_file_guid n fg) out) 0 (children n) out); [by destruct n|].
  rewrite is_nvar_body_eq, store_nodes_eq. simpl. destruct (is_store n); [done|].
  apply each_child_fold. intros j c s Hc. rewrite Forall_forall in IH. by apply IH.
Qed.

Definition var_step (name : ustring) (guid : option Guid) (offset width : Z) (out : VarHits)
  (s : StoreAt) : outcome NvarError VarHits :=
  store_hit (sa_node s) (sa_path s) (sa_barrier s) (sa_owner s) name guid offset width out.

Lemma collect_var_hits_fold n path barrier fg name guid offset width out :
  collect_var_hits n path barrier fg name guid offset width out =
  foldM (var_step name guid offset width) (store_nodes n path barrier fg) out.
Proof.
  revert path barrier fg out. induction n as [n IH] using FfsNode_tree_ind. intros.
  transitivity (is_store' ← lift (is_nvar_body n);
    if (is_store' : bool) then
      store_hit n path barrier (own_file_guid n fg) name guid offset width out
    else each_child (fun out i child =>
           collect_var_hits child (path ++ [i]) (barrier || section_blocks_mutation n)
             (own_file_guid n fg) name guid offset width out) 0 (children n) out);
    [by destruct n|].
  rewrite is_nvar_body_eq, store_nodes_eq. simpl. destruct (is_store n).
  - simpl. unfold var_step. simpl. by destruct (store_hit _ _ _ _ _ _ _ _ _).
  - apply each_child_fold. intros j c s Hc. rewrite Forall_forall in IH. by apply IH.
Qed.

(** A store that edits and listings reach. *)
Definition open_store (root : FfsNode) (p : list Z) (n : FfsNode) : Prop :=
  node_at_path root p = Some n /\ is_store n = true /\ blocked root p = false.

Lemma store_steps ss out :
  foldM store_step ss out =
  Ok (out ++ map (fun s => {| sh_path := sa_path s; sh_desc := store_desc (sa_node s) (sa_owner s) |})
               (List.filter (fun s => negb (sa_barrier s)) ss)).
Proof.
  revert out. induction ss as [|s ss IH]; intros out; simpl; [by rewrite app_nil_r|].
  rewrite IH. destruct (sa_barrier s); simpl; [done|]. by rewrite <-app_assoc.
Qed.

(** Collecting the stores of an image terminates without a panic and returns,
    without repetition, exactly the File and Section leaves whose body starts with a
    record and that no section blocking edits contains, each described with the GUID
    of its innermost file. *)
Theorem collect_stores_exact root :
  exists hs, collect_stores root [] false None [] = Ok hs /\ NoDup (map sh_path hs) /\
    forall h, h ∈ hs <-> exists n, open_store root (sh_path h) n /\
                           sh_desc h = store_desc n (owner root (sh_path h) None).
Proof.
  rewrite collect_stores_fold, store_steps, app_nil_l. eexists. split; [done|].
  pose proof (store_nodes_NoDup root [] false None) as Hnd.
  split.
  - rewrite map_map. simpl. induction (store_nodes root [] false None) as [|s ss IH]; [constructor|].
    simpl in *. apply NoDup_cons in Hnd as [Hs Hnd]. destruct (sa_barrier s); simpl; [by apply IH|].
    apply NoDup_cons. split; [|by apply IH]. intros (x & Hx & Hin)%list_elem_of_fmap.
    apply list_elem_of_In, filter_In in Hin as [Hin _]. apply Hs. rewrite Hx.
    by apply list_elem_of_fmap_2, list_elem_of_In.
  - intros h. rewrite list_elem_of_fmap. unfold open_store. split.
    + intros (s & -> & Hin). apply list_elem_of_In, filter_In in Hin as [Hin Hb].
      apply list_elem_of_In, root_stores in Hin as (Hp & Hs & Hbar & Ho). simpl.
      exists (sa_node s). rewrite <-Ho, <-Hbar. split; [|done]. by destruct (sa_barrier s).
    + intros (n & (Hp & Hs & Hb) & Hd).
      exists {| sa_path := sh_path h; sa_node := n; sa_barrier := false;
                sa_owner := owner root (sh_path h) None |}.
      split; [destruct h; simpl in *; by subst|]. apply list_elem_of_In, filter_In.
      split; [|done]. apply list_elem_of_In, root_stores. by simpl.
Qed.

(** ** Trees that differ in bodies and actions only *)

Definition same_but (b : list byte) (n n' : FfsNode) : Prop :=
  exists a cs, n' = set_action a (set_children cs (set_body b n)).

(** The same nodes at the same paths; [g] gives the body at a path. *)
Definition bodies (g : list Z -> list byte -> list byte) (r r' : FfsNode) : Prop :=
  forall q, match node_at_path r q, node_at_path r' q with
            | Some n, Some n' => same_but (g q (body n)) n n'
            | None, None => True
            | _, _ => False
            end.

Lemma same_but_body b n n' : same_but b n n' -> body n' = b.
Proof. intros (a & cs & ->). by destruct n. Qed.

Lemma same_but_refl n : same_but (body n) n n.
Proof. exists (action n), (children n). by destruct n. Qed.

Lemma same_but_trans b b' n n' n'' :
  same_but b n n' -> same_but b' n' n'' -> same_but b' n n''.
Proof. intros (a & cs & ->) (a' & cs' & ->). exists a', cs'. by destruct n. Qed.

Lemma bodies_refl r : bodies (fun _ b => b) r r.
Proof. intros q. destruct (node_at_path r q); [apply same_but_refl|done]. Qed.

Lemma bodies_trans g h r r' r'' :
  bodies g r r' -> bodies h r' r'' -> bodies (fun q b => h q (g q b)) r r''.
Proof.
  intros H1 H2 q. specialize (H1 q). specialize (H2 q).
  destruct (node_at_path r q), (node_at_path r' q), (node_at_path r'' q); try done.
  pose proof (same_but_body _ _ _ H1) as Hb. rewrite Hb in H2. by eapply same_but_trans.
Qed.

Lemma bodies_at g r r' p n :
  bodies g r r' -> node_at_path r p = Some n ->
  exists n', node_at_path r' p = Some n' /\ same_but (g p (body n)) n n'.
Proof.
  intros H Hn. specialize (H p). rewrite Hn in H. destruct (node_at_path r' p); [eauto|done].
Qed.

Lemma bodies_ext g h r r' :
  (forall q n, node_at_path r q = Some n -> g q (body n) = h q (body n)) ->
  bodies g r r' -> bodies h r r'.
Proof.
  intros Hgh H q. specialize (H q). specialize (Hgh q).
  destruct (node_at_path r q); [|done]. by rewrite <-Hgh.
Qed.

(** One body written in place. *)
Lemma update_bodies r p b r' :
  update_at r p (set_body b) = Some r' ->
  bodies (fun q x => if bool_decide (q = p) then b else x) r r'.
Proof.
  revert r r'. induction p as [|i p IH]; intros r r' Hu q; simpl in Hu.
  - simplify_eq. destruct q as [|j q]; simpl.
    + exists (action r), (children r). by destruct r.
    + assert (child_at (set_body b r) j = child_at r j) as -> by (by destruct r).
      destruct (child_at r j) as [c|]; simpl; [apply bodies_refl|done].
  - destruct (child_at r i) as [c|] eqn:Hc; simpl in Hu; [|done].
    destruct (update_at c p (set_body b)) as [c'|] eqn:Huc; simplify_eq/=.
    destruct q as [|j q]; cbn [node_at_path].
    + exists (action r), (<[Z.to_nat i := c']> (children r)). by destruct r.
    + rewrite (child_at_insert r i c) by done. destruct (Z.eqb_spec j i) as [->|Hji].
      * rewrite Hc. simpl. specialize (IH _ _ Huc q).
        replace (bool_decide (i :: q = i :: p)) with (bool_decide (q = p)); [done|].
        apply bool_decide_ext. split; congruence.
      * rewrite bool_decide_eq_false_2 by congruence. apply (bodies_refl r (j :: q)).
Qed.

Lemma touch_same n : same_but (body n) n (touch n).
Proof.
  unfold touch. case_bool_decide; [|apply same_but_refl].
  exists A_Rebuild, (children n). by destruct n.
Qed.

Lemma mark_bodies r p : bodies (fun _ b => b) r (mark_rebuild_to_root_by_path r p).
Proof.
  revert r. induction p as [|i p IH]; intros r q.
  - destruct q as [|j q]; simpl; [apply touch_same|]. rewrite child_at_touch.
    apply (bodies_refl r (j :: q)).
  - destruct (child_at r i) as [c|] eqn:Hc.
    + destruct q as [|j q]; cbn [node_at_path].
      * rewrite mark_cons, Hc. destruct (touch_same r) as (a & cs & ->). eexists a, _. by destruct r.
      * rewrite (child_at_mark r i p j c) by done. destruct (Z.eqb_spec j i) as [->|].
        -- rewrite Hc. simpl. apply IH.
        -- apply (bodies_refl r (j :: q)).
    + rewrite mark_cons, Hc. destruct q as [|j q]; cbn [node_at_path]; [apply touch_same|].
      rewrite child_at_touch. apply (bodies_refl r (j :: q)).
Qed.

(** ** The planned writes *)

(** The body at a path after the writes. *)
Definition planned (plans : list Plan) (q : list Z) (b : list byte) : list byte :=
  fold_left (fun b pl => if bool_decide (q = vh_path (pl_hit pl))
                         then splice b (pl_off pl) (pl_to pl) else b) plans b.

Definition pl_path (pl : Plan) : list Z := vh_path (pl_hit pl).

Lemma planned_out plans q b : q ∉ map pl_path plans -> planned plans q b = b.
Proof.
  revert b. induction plans as [|pl plans IH]; intros b Hq; [done|]. cbn in *.
  rewrite not_elem_of_cons in Hq. destruct Hq as [Hne Hq].
  rewrite bool_decide_eq_false_2 by done. by apply IH.
Qed.

Lemma planned_in plans pl b :
  NoDup (map pl_path plans) -> pl ∈ plans ->
  planned plans (pl_path pl) b = splice b (pl_off pl) (pl_to pl).
Proof.
  induction plans as [|x plans IH]; intros Hnd Hin; [by apply elem_of_nil in Hin|]. cbn in *.
  apply NoDup_cons in Hnd as [Hx Hnd]. apply elem_of_cons in Hin as [->|Hin].
  - rewrite bool_decide_eq_true_2 by done. by apply planned_out.
  - rewrite bool_decide_eq_false_2; [by apply IH|]. intros Heq. apply Hx.
    change (vh_path (pl_hit x)) with (pl_path x) in Heq. unfold pl_path at 1 in Heq.
    apply list_elem_of_fmap. exists pl. split; [|done]. by symmetry.
Qed.

(** A plan made for the body [b]. *)
Definition plan_ok (width : Z) (r : FfsNode) (pl : Plan) : Prop :=
  exists n, node_at_path r (pl_path pl) = Some n /\
    get_range (body n) (pl_off pl) (pl_off pl + width) = Some (pl_from pl) /\
    blen (pl_to pl) = width.

Lemma apply_step_spec {E} width r strs pl :
  plan_ok width r pl ->
  exists r' strs', apply_step (E:=E) width (r, strs) pl = Ok (r', strs') /\
    bodies (planned [pl]) r r' /\ (dirty_closed r -> dirty_closed r').
Proof.
  intros (n & Hn & Hfrom & Hto). apply get_range_Some in Hfrom as [Hr Hfrom].
  unfold apply_step. case_bool_decide as Heq.
  - exists r, strs. split; [done|]. split; [|done]. eapply bodies_ext; [|apply bodies_refl].
    intros q m Hm. cbn. case_bool_decide as Hq; [|done]. subst q.
    assert (m = n) as -> by (unfold pl_path in Hn; congruence).
    rewrite <-Heq, Hfrom. symmetry. apply splice_sub_id; lia.
  - unfold write_body, node_at. unfold pl_path in Hn. rewrite Hn. cbn [unwrap mbind outcome_bind].
    unfold copy_into. rewrite (proj2 (range_ok_spec _ _ _)) by lia.
    replace (pl_off pl + width - pl_off pl =? blen (pl_to pl)) with true by lia.
    cbn [andb mbind outcome_bind].
    destruct (update_at_valid r (vh_path (pl_hit pl)) n
                (set_body (splice (body n) (pl_off pl) (pl_to pl))) Hn) as [r1 Hu].
    rewrite Hu. cbn [unwrap mbind outcome_bind mret outcome_ret]. do 2 eexists. split; [done|]. split.
    + eapply bodies_ext;
        [|exact (bodies_trans _ _ _ _ _ (update_bodies _ _ _ _ Hu) (mark_bodies r1 _))].
      intros q m Hm. cbn. case_bool_decide as Hq; [|done]. subst q.
      assert (m = n) as -> by congruence. done.
    + intros Hd. rewrite <-(app_nil_r (vh_path (pl_hit pl))).
      eapply update_mark_closed; [done|done|]. intros m _ Hm.
      apply dirty_closed_children in Hm. by destruct m.
Qed.

Lemma apply_steps_spec {E} width plans r strs :
  NoDup (map pl_path plans) -> Forall (plan_ok width r) plans ->
  exists r' strs', foldM (apply_step (E:=E) width) plans (r, strs) = Ok (r', strs') /\
    bodies (planned plans) r r' /\ (dirty_closed r -> dirty_closed r').
Proof.
  revert r strs. induction plans as [|pl plans IH]; intros r strs Hnd Hok.
  { exists r, strs. split_and!; [done|apply bodies_refl|done]. }
  apply Forall_cons in Hok as [Hpl Hok]. cbn [map] in Hnd. apply NoDup_cons in Hnd as [Hnin Hnd].
  destruct (apply_step_spec (E:=E) width r strs pl Hpl) as (r1 & s1 & Hs & Hb & Hd).
  cbn [foldM]. rewrite Hs. cbn [mbind outcome_bind].
  destruct (IH r1 s1 Hnd) as (r' & s' & Hf & Hb' & Hd').
  - apply Forall_forall. intros x Hx. rewrite Forall_forall in Hok.
    destruct (Hok x Hx) as (n & Hn & Hfrom & Hto).
    destruct (bodies_at _ _ _ _ _ Hb Hn) as (n' & Hn' & Hsame).
    exists n'. split; [done|]. apply same_but_body in Hsame. rewrite planned_out in Hsame.
    + by rewrite Hsame.
    + cbn. rewrite list_elem_of_singleton. intros Heq. apply Hnin. rewrite <-Heq.
      by apply list_elem_of_fmap_2.
  - exists r', s'. split_and!; [done| |auto].
    exact (bodies_trans _ _ _ _ _ Hb Hb').
Qed.

(** ** Looking a variable up *)

Lemma find_var_spec buf name guid :
  post (find_var buf name guid)
    (fun o => match o with
              | Some f => flat_in buf 0 0 f /\ var_matches name guid f = true /\
                  0 <= fl_data_off f /\ 0 <= nv_data_len (fl_record f) /\
                  fl_data_off f + nv_data_len (fl_record f) <= blen buf /\
                  forall f', flat_in buf 0 0 f' -> var_matches name guid f' = true -> f' = f
              | None => forall f, flat_in buf 0 0 f -> var_matches name guid f = false
              end)
    (fun e => exists f f' fs, e = NV_AmbiguousName name (map candidate (f :: f' :: fs)) /\
                Forall (fun f => flat_in buf 0 0 f /\ var_matches name guid f = true) (f :: f' :: fs)).
Proof.
  destruct (flatten_located buf) as (fs & Hfs & Hin & Hb). unfold find_var. rewrite Hfs.
  change (lift (Ok fs)) with (Ok (E := NvarError) fs). cbn [mbind outcome_bind].
  assert (forall f, f ∈ List.filter (var_matches name guid) fs <->
            flat_in buf 0 0 f /\ var_matches name guid f = true) as Hf.
  { intros f. rewrite list_elem_of_In, filter_In, <-list_elem_of_In, Hin. done. }
  destruct (List.filter (var_matches name guid) fs) as [|f [|f' l]]; simpl.
  - intros f Hf'. apply not_true_is_false. intros Hm. by apply (elem_of_nil f), Hf.
  - destruct (proj1 (Hf f)) as [Hfi Hm]; [by left|]. split_and!; try done.
    1-3: apply Hin, Hb in Hfi; lia.
    intros f' Hf' Hm'. apply list_elem_of_singleton, Hf. done.
  - exists f, f', l. split; [done|]. apply Forall_forall. intros x Hx. by apply Hf.
Qed.

(** ** Collecting the hits *)

Definition chosen (name : ustring) (guid : option Guid) (s : StoreAt)
  : option (StoreAt * FlatRecord) :=
  if sa_barrier s then None
  else match find_var (body (sa_node s)) name guid with
       | Ok (Some f) => Some (s, f)
       | _ => None
       end.
Definition hidden (name : ustring) (guid : option Guid) (s : StoreAt) : bool :=
  sa_barrier s && match find_var (body (sa_node s)) name guid with
                  | Ok (Some _) => true
                  | _ => false
                  end.
Definition hit_of (sf : StoreAt * FlatRecord) : VarHit :=
  {| vh_path := sa_path (fst sf); vh_desc := store_desc (sa_node (fst sf)) (sa_owner (fst sf));
     vh_data_off := fl_data_off (snd sf) |}.

(** The record of a hit can take the value. *)
Definition takes (offset width : Z) (sf : StoreAt * FlatRecord) : Prop :=
  nv_extended_size (fl_record (snd sf)) <= 0 /\ offset + width <= nv_data_len (fl_record (snd sf)).

(** Why a store refuses the edit. *)
Definition refusal (name : ustring) (guid : option Guid) (offset width : Z) (n : FfsNode)
  (e : NvarError) : Prop :=
  find_var (body n) name guid = Err e \/
  exists f, find_var (body n) name guid = Ok (Some f) /\
    (0 < nv_extended_size (fl_record f) /\ e = NV_ValueOpUnsupported ExtendedHeader \/
     nv_data_len (fl_record f) < offset + width /\
     e = NV_ValueOpUnsupported (ExceedsData offset width (nv_data_len (fl_record f)))).
Definition refused (name : ustring) (guid : option Guid) (offset width : Z) (s : StoreAt)
  (e : NvarError) : Prop :=
  sa_barrier s = false /\ refusal name guid offset width (sa_node s) e.

Definition collected (name : ustring) (guid : option Guid) (offset width : Z)
  (ss : list StoreAt) (out : VarHits) (res : outcome NvarError VarHits) : Prop :=
  match res with
  | Ok out' =>
      hits out' = hits out ++ map hit_of (omap (chosen name guid) ss) /\
      var_behind_barrier out' = var_behind_barrier out || existsb (hidden name guid) ss /\
      Forall (takes offset width) (omap (chosen name guid) ss)
  | Err e => exists s, s ∈ ss /\ refused name guid offset width s e
  | Panic => usize_max < offset + width /\ exists s, s ∈ ss /\ is_Some (chosen name guid s)
  | Diverge => False
  end.

Lemma var_step_spec name guid offset width s out :
  collected name guid offset width [s] out (var_step name guid offset width out s).
Proof.
  unfold var_step, store_hit, collected. cbn [omap list_omap existsb]. rewrite orb_false_r.
  unfold chosen, hidden, refused, refusal.
  pose proof (find_var_spec (body (sa_node s)) name guid) as Hp.
  destruct (sa_barrier s) eqn:Hbar.
  { destruct (find_var _ _ _) as [[f|]|e| |]; try done; cbn;
      rewrite ?app_nil_r, ?orb_true_r, ?orb_false_r; done. }
  rewrite orb_false_r. destruct (find_var _ _ _) as [[f|]|e| |] eqn:Hf; try done; cbn.
  2:{ by rewrite app_nil_r. }
  2:{ exists s. split; [by left|]. by rewrite Hf; split; [done|left]. }
  destruct (Z.ltb_spec 0 (nv_extended_size (fl_record f))).
  { exists s. split; [by left|]. split; [done|]. right. exists f. rewrite Hf. auto. }
  unfold uadd. destruct (Z.leb_spec (offset + width) usize_max); cbn.
  2:{ split; [lia|]. exists s. rewrite Hbar, Hf. split; [by left|by eexists]. }
  destruct (Z.ltb_spec (nv_data_len (fl_record f)) (offset + width)); cbn.
  - exists s. split; [by left|]. split; [done|]. right. exists f. rewrite Hf. auto.
  - split_and!; [done|done|]. constructor; [|constructor]. by split.
Qed.

Lemma var_steps_spec name guid offset width ss out :
  collected name guid offset width ss out (foldM (var_step name guid offset width) ss out).
Proof.
  revert out. induction ss as [|s ss IH]; intros out; cbn [foldM].
  { cbn. by rewrite app_nil_r, orb_false_r. }
  pose proof (var_step_spec name guid offset width s out) as Hs.
  destruct (var_step name guid offset width out s) as [out1|e| |]; cbn in Hs |- *.
  - destruct Hs as (Hh & Hv & Ht). specialize (IH out1).
    destruct (foldM _ _ _) as [out2|e| |]; cbn in IH |- *.
    + destruct IH as (-> & -> & Ht2). rewrite Hh, Hv, orb_false_r, <-orb_assoc.
      destruct (chosen name guid s); cbn in *; rewrite ?app_nil_r, <-?app_assoc; (split; [done|]);
        (split; [done|]); [|done]. apply Forall_cons. split; [by inversion Ht|done].
    + destruct IH as (x & Hx & Hr). exists x. split; [by right|done].
    + destruct IH as (? & x & Hx & Hr). split; [done|]. exists x. split; [by right|done].
    + done.
  - destruct Hs as (x & Hx%list_elem_of_singleton & Hr). subst x. exists s. split; [by left|done].
  - destruct Hs as (? & x & Hx%list_elem_of_singleton & Hr). subst x. split; [done|].
    exists s. split; [by left|done].
  - done.
Qed.

(** ** Planning the writes *)

Definition plan_of (offset value width : Z) (sf : StoreAt * FlatRecord) : Plan :=
  let off := fl_data_off (snd sf) + offset in
  {| pl_hit := hit_of sf; pl_off := off;
     pl_from := sub (body (sa_node (fst sf))) off (off + width);
     pl_to := take (Z.to_nat width) (le_enc 8 value) |}.

Lemma take_le_enc n m z : (n <= m)%nat -> take n (le_enc m z) = le_enc n z.
Proof.
  revert m z. induction n as [|n IH]; intros m z Hle; [done|].
  destruct m as [|m]; [lia|]. simpl. f_equal. apply IH. lia.
Qed.

(** A hit that was collected from the tree. *)
Definition hit_ok (root : FfsNode) (offset width : Z) (sf : StoreAt * FlatRecord) : Prop :=
  node_at_path root (sa_path (fst sf)) = Some (sa_node (fst sf)) /\
  blen (body (sa_node (fst sf))) <= usize_max /\
  0 <= fl_data_off (snd sf) /\
  fl_data_off (snd sf) + offset + width <= blen (body (sa_node (fst sf))).

Lemma plan_step_spec root offset value width sf plans :
  0 <= offset -> 0 <= width -> hit_ok root offset width sf ->
  plan_step root offset value width plans (hit_of sf) =
  Ok (plans ++ [plan_of offset value width sf]).
Proof.
  destruct sf as [s f]. intros Ho Hw (Hn & Hl & H0 & He).
  unfold plan_step, node_at, uadd. cbn [vh_data_off vh_path hit_of fst snd] in *.
  replace (fl_data_off f + offset <=? usize_max) with true by lia.
  cbn [mbind outcome_bind]. rewrite Hn. cbn [unwrap mbind outcome_bind].
  replace (fl_data_off f + offset + width <=? usize_max) with true by lia.
  cbn [mbind outcome_bind]. unfold get_range. by rewrite (proj2 (range_ok_spec _ _ _)) by lia.
Qed.

Lemma plan_steps_spec root offset value width fs plans :
  0 <= offset -> 0 <= width -> Forall (hit_ok root offset width) fs ->
  foldM (plan_step root offset value width) (map hit_of fs) plans =
  Ok (plans ++ map (plan_of offset value width) fs).
Proof.
  intros Ho Hw Hfs. revert plans. induction Hfs as [|sf fs Hsf _ IH]; intros plans.
  { by rewrite app_nil_r. }
  cbn [map foldM]. rewrite plan_step_spec by done. cbn [mbind outcome_bind].
  by rewrite IH, <-app_assoc.
Qed.

Lemma omap_chosen_elem name guid (ss : list StoreAt) s f :
  (s, f) ∈ omap (chosen name guid) ss <->
  s ∈ ss /\ sa_barrier s = false /\ find_var (body (sa_node s)) name guid = Ok (Some f).
Proof.
  rewrite list_elem_of_omap. unfold chosen. split.
  - intros (x & Hx & Hc). destruct (sa_barrier x) eqn:Hb; [done|].
    destruct (find_var _ _ _) as [[f'|]| | |] eqn:Hf; simplify_eq. done.
  - intros (Hs & Hb & Hf). exists s. by rewrite Hb, Hf.
Qed.

Lemma chosen_NoDup name guid (ss : list StoreAt) :
  NoDup (map sa_path ss) ->
  NoDup (map (fun sf => sa_path (fst sf)) (omap (chosen name guid) ss)).
Proof.
  induction ss as [|s ss IH]; intros Hnd; [constructor|]. cbn [map] in Hnd.
  apply NoDup_cons in Hnd as [Hs Hnd]. cbn [omap list_omap].
  destruct (chosen name guid s) as [[s' f]|] eqn:Hc; [|by apply IH].
  assert (s' = s) as -> by (unfold chosen in Hc; repeat case_match; by simplify_eq).
  cbn [map fst]. apply NoDup_cons. split; [|by apply IH].
  intros ([x g] & Hx & Hin)%list_elem_of_fmap. apply omap_chosen_elem in Hin as (Hin & _).
  apply Hs. rewrite Hx. by apply list_elem_of_fmap_2.
Qed.

(** ** The effect of an edit *)

(** The record an edit writes in the node at a path. *)
Definition edited_var (root : FfsNode) (name : ustring) (guid : option Guid) (p : list Z)
  (n : FfsNode) : option FlatRecord :=
  if is_store n && negb (blocked root p)
  then match find_var (body n) name guid with Ok (Some f) => Some f | _ => None end
  else None.

(** The body after the edit. *)
Definition written (root : FfsNode) (name : ustring) (guid : option Guid)
  (offset value width : Z) (p : list Z) (n : FfsNode) : list byte :=
  match edited_var root name guid p n with
  | Some f => splice (body n) (fl_data_off f + offset) (le_enc (Z.to_nat width) value)
  | None => body n
  end.

(** Every buffer fits the address space. *)
Definition in_memory (root : FfsNode) : Prop :=
  everywhere (fun n => blen (body n) <= usize_max) root.

Lemma everywhere_at (P : FfsNode -> Prop) n p m :
  everywhere P n -> node_at_path n p = Some m -> P m.
Proof.
  revert n. induction p as [|i p IH]; intros n Hn Hm; simpl in Hm.
  - simplify_eq. by inversion Hn.
  - destruct (child_at n i) as [c|] eqn:Hc; [|done]. simpl in Hm.
    inversion Hn as [? _ Hcs]; subst. rewrite Forall_forall in Hcs.
    apply (IH c); [|done]. apply Hcs. by eapply child_at_elem.
Qed.

(** The hits of the whole image. *)
Definition root_hits (root : FfsNode) (name : ustring) (guid : option Guid)
  : list (StoreAt * FlatRecord) := omap (chosen name guid) (store_nodes root [] false None).

Lemma root_hits_elem root name guid s f :
  (s, f) ∈ root_hits root name guid <->
  edited_var root name guid (sa_path s) (sa_node s) = Some f /\
  node_at_path root (sa_path s) = Some (sa_node s) /\ sa_barrier s = false /\
  sa_owner s = owner root (sa_path s) None.
Proof.
  unfold root_hits, edited_var. rewrite omap_chosen_elem, root_stores. split.
  - intros ((Hp & Hs & Hb & Ho) & Hbar & Hf). rewrite Hs, <-Hb, Hbar, Hf. done.
  - intros (He & Hp & Hb & Ho).
    destruct (is_store (sa_node s)) eqn:Hs; [|done]. destruct (blocked root (sa_path s)) eqn:Hbl; [done|].
    simpl in He. destruct (find_var _ _ _) as [[f'|]| | |]; simplify_eq. by rewrite Hb.
Qed.

Lemma edited_var_hit root name guid p n f :
  node_at_path root p = Some n ->
  (edited_var root name guid p n = Some f <->
   ({| sa_path := p; sa_node := n; sa_barrier := false; sa_owner := owner root p None |}, f)
     ∈ root_hits root name guid).
Proof. intros Hn. rewrite root_hits_elem. simpl. tauto. Qed.

Lemma edited_var_bounds root name guid p n f :
  edited_var root name guid p n = Some f ->
  0 <= fl_data_off f /\ 0 <= nv_data_len (fl_record f) /\
  fl_data_off f + nv_data_len (fl_record f) <= blen (body n).
Proof.
  unfold edited_var. destruct (is_store n && _); [|done].
  pose proof (find_var_spec (body n) name guid) as H.
  destruct (find_var _ _ _) as [[f'|]| | |]; try done. intros [= ->]. simpl in H. tauto.
Qed.

Lemma root_hits_ok root name guid offset width :
  in_memory root -> Forall (takes offset width) (root_hits root name guid) ->
  Forall (hit_ok root offset width) (root_hits root name guid).
Proof.
  intros Hm Ht. rewrite Forall_forall in Ht |- *. intros [s f] Hin.
  destruct (Ht _ Hin) as [_ Hlen]. apply root_hits_elem in Hin as (He & Hp & _).
  apply edited_var_bounds in He. cbn [fst snd] in *.
  pose proof (everywhere_at _ _ _ _ Hm Hp). simpl in *. unfold hit_ok. simpl. lia || (split_and!; done || lia).
Qed.

(** The same nodes at the same paths; [w] gives the new body of a node. *)
Definition rewritten (w : list Z -> FfsNode -> list byte) (r r' : FfsNode) : Prop :=
  forall q, match node_at_path r q, node_at_path r' q with
            | Some n, Some n' => same_but (w q n) n n'
            | None, None => True
            | _, _ => False
            end.

Lemma plans_written root name guid offset value width q n :
  0 <= width <= 8 -> node_at_path root q = Some n ->
  planned (map (plan_of offset value width) (root_hits root name guid)) q (body n) =
  written root name guid offset value width q n.
Proof.
  intros Hw Hn. unfold written.
  assert (map pl_path (map (plan_of offset value width) (root_hits root name guid)) =
          map (fun sf => sa_path (fst sf)) (root_hits root name guid)) as Hpaths
    by (rewrite map_map; done).
  assert (NoDup (map (fun sf => sa_path (fst sf)) (root_hits root name guid))) as Hnd
    by apply chosen_NoDup, store_nodes_NoDup.
  destruct (edited_var root name guid q n) as [f|] eqn:He.
  - apply (edited_var_hit root name guid q n f Hn) in He.
    set (sf := (_, f)) in He.
    rewrite (planned_in _ (plan_of offset value width sf) (body n)).
    + unfold sf. cbn [plan_of pl_off pl_to fst snd]. by rewrite take_le_enc by lia.
    + by rewrite Hpaths.
    + by apply list_elem_of_fmap_2.
  - apply planned_out. rewrite Hpaths. intros ([s f] & Hq & Hin)%list_elem_of_fmap.
    apply root_hits_elem in Hin as (Hs & Hp & _). cbn in Hq. subst q.
    rewrite Hn in Hp. injection Hp as Hp. rewrite <-Hp in Hs. congruence.
Qed.

Lemma plans_ok root name guid offset value width :
  0 <= offset -> 0 <= width <= 8 -> Forall (hit_ok root offset width) (root_hits root name guid) ->
  Forall (plan_ok width root) (map (plan_of offset value width) (root_hits root name guid)).
Proof.
  intros Ho Hw Hok. rewrite Forall_forall in Hok. apply Forall_forall.
  intros pl ([s f] & -> & Hin)%list_elem_of_fmap.
  destruct (Hok _ Hin) as (Hn & _ & H0 & He). exists (sa_node s).
  cbn [pl_path plan_of pl_hit pl_off pl_from pl_to vh_path hit_of fst snd] in *. split; [done|]. split.
  - unfold get_range. by rewrite (proj2 (range_ok_spec _ _ _)) by lia.
  - rewrite take_le_enc, blen_le_enc by lia. lia.
Qed.

(** The outcome after the checks of the arguments. *)
Definition set_outcome (img : Image) (name : ustring) (guid : option Guid)
  (offset value width : Z) (res : outcome NvarError (Image * NvarSetOutcome)) : Prop :=
  let ss := store_nodes (root img) [] false None in
  match res with
  | Ok (img', o) =>
      root_hits (root img) name guid <> [] /\
      Forall (takes offset width) (root_hits (root img) name guid) /\
      rewritten (written (root img) name guid offset value width) (root img) (root img') /\
      (dirty_closed (root img) -> dirty_closed (root img')) /\
      image_id img' = image_id img /\ session_id img' = session_id img /\ mode img' = mode img
  | Err e =>
      (exists s, s ∈ ss /\ refused name guid offset width s e) \/
      root_hits (root img) name guid = [] /\
      e = if existsb (hidden name guid) ss then NV_MutationBehindCompression
          else NV_ValueOpUnsupported (NoSuchVariable name)
  | Panic => usize_max < offset + width /\ root_hits (root img) name guid <> []
  | Diverge => False
  end.

(** The checks of the arguments, with the error of the first that fails. *)
Definition guid_arg (guid : option ustring) : option (option Guid) :=
  match guid with
  | None => Some None
  | Some s => Some <$> guid_try_parse s
  end.
Definition refused_argument (img : Image) (guid : option ustring) (value width : Z)
  : option NvarError :=
  if bool_decide (mode img <> IM_Write) then Some NV_NotWritable
  else if bool_decide (width ∉ [1; 2; 4; 8]) then Some (NV_ValueOpUnsupported (WidthNotAllowed width))
  else if 256 ^ width <=? value then Some (NV_ValueOpUnsupported (ValueTooWide value width))
  else match guid, guid_arg guid with
       | Some s, None => Some (NV_ValueOpUnsupported (InvalidGuid s))
       | _, _ => None
       end.

(** Everything after the collection of the hits. *)
Lemma set_found img name g offset value width found :
  in_memory (root img) -> 0 <= offset -> 0 <= width <= 8 ->
  hits found = map hit_of (root_hits (root img) name g) ->
  var_behind_barrier found = existsb (hidden name g) (store_nodes (root img) [] false None) ->
  Forall (takes offset width) (root_hits (root img) name g) ->
  set_outcome img name g offset value width
    (if bool_decide (length (hits found) = 0%nat) then
       if var_behind_barrier found then Err NV_MutationBehindCompression
       else Err (NV_ValueOpUnsupported (NoSuchVariable name))
     else
       plans ← foldM (plan_step (root img) offset value width) (hits found) [];
       ra ← foldM (apply_step width) plans (root img, []);
       mret ({| image_id := image_id img; session_id := session_id img; root := fst ra;
                mode := mode img |},
             {| applied := snd ra; stores := map vh_desc (hits found) |})).
Proof.
  intros Hm Ho Hw Hh Hv Ht. rewrite Hh, Hv. case_bool_decide as Hl.
  - rewrite length_map in Hl. apply length_zero_iff_nil in Hl.
    destruct (existsb _ _) eqn:Hx; right; cbv zeta; rewrite Hx; done.
  - pose proof (root_hits_ok _ _ _ _ _ Hm Ht) as Hok.
    rewrite plan_steps_spec by (done || lia). cbn [mbind outcome_bind app].
    destruct (apply_steps_spec (E:=NvarError) width (map (plan_of offset value width) (root_hits (root img) name g))
                (root img) []) as (r' & strs & -> & Hb & Hd).
    + rewrite map_map. apply chosen_NoDup, store_nodes_NoDup.
    + by apply plans_ok.
    + cbn. split_and!; try done.
      * intros Hn. by rewrite Hn in Hl.
      * intros q. specialize (Hb q). destruct (node_at_path (root img) q) as [n|] eqn:Hn; [|done].
        by rewrite (plans_written _ _ _ _ _ _ _ _ Hw Hn) in Hb.
Qed.

Lemma nvar_set_run img name guid offset value width :
  in_memory (root img) -> 0 <= offset -> 0 <= value < 2 ^ 64 ->
  match refused_argument img guid value width, guid_arg guid with
  | Some e, _ => nvar_set img name guid offset value width = Err e
  | None, Some g =>
      set_outcome img name g offset value width (nvar_set img name guid offset value width)
  | None, None => False
  end.
Proof.
  intros Hm Ho Hv. unfold refused_argument, nvar_set.
  rewrite !bool_decide_not. destruct (bool_decide (mode img = IM_Write)); [|done]. simpl negb.
  case_bool_decide as Hw; [|done]. simpl negb.
  assert ((width <? 8) && (Z.shiftl 1 (8 * width) <=? value) = (256 ^ width <=? value)) as Hfit.
  { rewrite !elem_of_cons, elem_of_nil in Hw.
    destruct Hw as [->|[->|[->|[->|[]]]]]; simpl; [done..|]. symmetry. lia. }
  rewrite Hfit. destruct (256 ^ width <=? value); [done|].
  assert (0 <= width <= 8) as Hw8.
  { rewrite !elem_of_cons, elem_of_nil in Hw. lia. }
  assert (forall g, set_outcome img name g offset value width
    (found ← collect_var_hits (root img) [] false None name g offset width
              {| hits := []; var_behind_barrier := false |};
     if bool_decide (length (hits found) = 0%nat) then
       if var_behind_barrier found then Err NV_MutationBehindCompression
       else Err (NV_ValueOpUnsupported (NoSuchVariable name))
     else
       plans ← foldM (plan_step (root img) offset value width) (hits found) [];
       ra ← foldM (apply_step width) plans (root img, []);
       mret ({| image_id := image_id img; session_id := session_id img; root := fst ra;
                mode := mode img |},
             {| applied := snd ra; stores := map vh_desc (hits found) |}))) as Hcore.
  { intros g0. rewrite collect_var_hits_fold.
    pose proof (var_steps_spec name g0 offset width (store_nodes (root img) [] false None)
      {| hits := []; var_behind_barrier := false |}) as Hc.
    destruct (foldM (var_step _ _ _ _) _ _) as [found|e| |]; cbn [collected] in Hc.
    - destruct Hc as (Hh & Hb & Ht). by apply set_found.
    - by left.
    - destruct Hc as (? & s & Hs & [sf Hsf]). split; [done|]. intros Hn.
      apply (elem_of_nil sf). rewrite <-Hn. apply list_elem_of_omap. by exists s.
    - done. }
  unfold guid_arg in *. destruct guid as [s|]; [|apply Hcore].
  destruct (guid_try_parse s) as [g'|]; simpl; [apply Hcore|done].
Qed.

(** C24. A successful edit of a variable: the image was writable, the value fits the
    width, and in every store that no section blocks and in which the name (and GUID)
    picks a record, the [width] bytes at [offset] of the data of that record are the
    little-endian value; all other bytes of these bodies, and everything else of every
    node but the rebuild marks, are as before, and at least one store was written. *)
Theorem nvar_set_effect img name guid offset value width img' o :
  in_memory (root img) -> 0 <= offset -> 0 <= value < 2 ^ 64 ->
  nvar_set img name guid offset value width = Ok (img', o) ->
  exists g,
    guid_arg guid = Some g /\ mode img = IM_Write /\ width ∈ [1; 2; 4; 8] /\ value < 256 ^ width /\
    rewritten (written (root img) name g offset value width) (root img) (root img') /\
    (exists p n f, node_at_path (root img) p = Some n /\ edited_var (root img) name g p n = Some f) /\
    (forall p n f, node_at_path (root img) p = Some n -> edited_var (root img) name g p n = Some f ->
       let off := fl_data_off f + offset in
       nv_extended_size (fl_record f) <= 0 /\ offset + width <= nv_data_len (fl_record f) /\
       le_dec (sub (written (root img) name g offset value width p n) off (off + width)) = value).
Proof.
  intros Hm Ho Hv Hok. pose proof (nvar_set_run img name guid offset value width Hm Ho Hv) as H.
  destruct (refused_argument img guid value width) eqn:Ha; [congruence|].
  destruct (guid_arg guid) as [g|]; [|done]. rewrite Hok in H. exists g.
  unfold refused_argument in Ha. case_bool_decide as Hmode; [done|].
  case_bool_decide as Hw; [done|]. destruct (Z.leb_spec (256 ^ width) value); [done|].
  assert (0 <= width <= 8) by (rewrite !elem_of_cons, elem_of_nil in Hw; lia).
  destruct H as (Hne & Ht & Hr & _ & _). split_and!; try done.
  - destruct (root_hits (root img) name g) as [|[s f] l] eqn:Hl; [done|].
    assert ((s, f) ∈ root_hits (root img) name g) as Hin by (rewrite Hl; by left).
    apply root_hits_elem in Hin as (He & Hp & _). eauto.
  - intros p n f Hn He off. pose proof (edited_var_bounds _ _ _ _ _ _ He) as Hb.
    pose proof (proj1 (edited_var_hit _ _ _ _ _ _ Hn) He) as Hin.
    rewrite Forall_forall in Ht. destruct (Ht _ Hin) as [Hx Hlen]. cbn [snd] in *.
    split_and!; try done. unfold written. rewrite He.
    assert (width = blen (le_enc (Z.to_nat width) value)) as Hlen'
      by (rewrite blen_le_enc; lia).
    rewrite Hlen' at 2. rewrite sub_splice_same by lia.
    apply le_dec_enc_small. replace (Z.of_nat (Z.to_nat width)) with width by lia. lia.
Qed.

(** C25. How an edit of a variable fails: the arguments are checked first, each with its
    error; otherwise a store that no section blocks refuses (ambiguous name, extended
    header, range past the data), or no such store has the variable, and then the error
    tells whether a blocked one has it. The only panic is the overflow of
    [offset + width], and only when some store has the variable. *)
Theorem nvar_set_failures img name guid offset value width :
  in_memory (root img) -> 0 <= offset -> 0 <= value < 2 ^ 64 ->
  let res := nvar_set img name guid offset value width in
  match refused_argument img guid value width, guid_arg guid with
  | Some e, _ => res = Err e
  | None, None => False
  | None, Some g =>
      let var p n f := node_at_path (root img) p = Some n /\ edited_var (root img) name g p n = Some f in
      match res with
      | Ok _ => exists p n f, var p n f
      | Err e =>
          (exists p n, open_store (root img) p n /\ refusal name g offset width n e) \/
          (forall p n f, ~ var p n f) /\
          let behind := exists p n f, node_at_path (root img) p = Some n /\ is_store n = true /\
                          blocked (root img) p = true /\ find_var (body n) name g = Ok (Some f) in
          (behind /\ e = NV_MutationBehindCompression \/
           ~ behind /\ e = NV_ValueOpUnsupported (NoSuchVariable name))
      | Panic => usize_max < offset + width /\ exists p n f, var p n f
      | Diverge => False
      end
  end.
Proof.
  intros Hm Ho Hv res. subst res.
  pose proof (nvar_set_run img name guid offset value width Hm Ho Hv) as H.
  destruct (refused_argument img guid value width); [done|].
  destruct (guid_arg guid) as [g|]; [|done]. cbv zeta.
  assert (root_hits (root img) name g <> [] ->
    exists p n f, node_at_path (root img) p = Some n /\ edited_var (root img) name g p n = Some f) as Hne.
  { intros Hl. destruct (root_hits (root img) name g) as [|[s f] l] eqn:Hh; [done|].
    assert ((s, f) ∈ root_hits (root img) name g) as Hin by (rewrite Hh; by left).
    apply root_hits_elem in Hin as (He & Hp & _). eauto. }
  destruct (nvar_set img name guid offset value width) as [[img' o]|e| |]; cbn in H.
  - apply Hne, H.
  - destruct H as [(s & Hs & Hb & Hr)|[Hl He]].
    + left. apply root_stores in Hs as (Hp & Hs & Hbar & _).
      exists (sa_path s), (sa_node s). by rewrite Hb in Hbar.
    + right. split.
      { intros p n f [Hn Hx]. apply (edited_var_hit _ _ _ _ _ _ Hn) in Hx. rewrite Hl in Hx.
        by apply elem_of_nil in Hx. }
      assert (existsb (hidden name g) (store_nodes (root img) [] false None) = true <->
        exists p n f, node_at_path (root img) p = Some n /\ is_store n = true /\
          blocked (root img) p = true /\ find_var (body n) name g = Ok (Some f)) as Hb.
      { rewrite existsb_exists. split.
        - intros (s & Hin & Hh). apply list_elem_of_In, root_stores in Hin as (Hp & Hs & Hbar & _).
          unfold hidden in Hh. apply andb_true_iff in Hh as [Hb Hf].
          destruct (find_var _ _ _) as [[f|]| | |] eqn:Hv'; try done.
          exists (sa_path s), (sa_node s), f. by rewrite <-Hbar.
        - intros (p & n & f & Hp & Hs & Hb & Hf).
          exists {| sa_path := p; sa_node := n; sa_barrier := true; sa_owner := owner (root img) p None |}.
          split; [apply list_elem_of_In, root_stores; by simpl|]. unfold hidden. cbn. by rewrite Hf. }
      destruct (existsb _ _); [left|right]; (split; [|done]); [by apply Hb|].
      intros Hx. by apply Hb in Hx.
  - destruct H as [? Hl]. split; [done|]. by apply Hne.
  - done.
Qed.

(** An edit of a variable is not lost by the builder: if the copied parts of the tree
    had no edit pending below them, they have none afterwards. *)
Theorem nvar_set_not_lost img name guid offset value width img' o :
  in_memory (root img) -> 0 <= offset -> 0 <= value < 2 ^ 64 -> dirty_closed (root img) ->
  nvar_set img name guid offset value width = Ok (img', o) ->
  everywhere (fun n => action n = NoAction -> subtree_dirty n = false) (root img').
Proof.
  intros Hm Ho Hv Hd Hok. pose proof (nvar_set_run img name guid offset value width Hm Ho Hv) as H.
  destruct (refused_argument img guid value width); [congruence|].
  destruct (guid_arg guid) as [g|]; [|done]. rewrite Hok in H.
  destruct H as (_ & _ & _ & Hd' & _). by apply dirty_closed_copied, Hd'.
Qed.

End NvarStoresFacts.
