(* ===== verification/ListingFacts.v ===== *)
(** Correctness of the listing and the search: both visit the nodes in pre-order,
    the rows are exactly the nodes that pass, every printed path resolves to the
    node of its row, and a limited search returns a prefix of the unlimited one. *)
From S2P Require Import Prelude Text Types Ffs Tiano Codec Parser Target Ops.
From S2P Require Import Listing Nvar NvarStores ParserFacts OpsFacts NvarFacts.

Section ListingFacts.
Context {GL : GuidLib} {LC : Lowercase}.

(** ** Rows *)

(** The name of a node, and its row. *)
Definition name_of (n : FfsNode) : ustring := match node_name n with Ok s => s | _ => [] end.

Lemma node_name_eq n : node_name n = Ok (name_of n).
Proof.
  unfold name_of. destruct (node_name n) as [s|[]| |] eqn:H; [done|..]; exfalso; revert H;
    unfold node_name; rewrite is_nvar_body_eq; simpl;
    destruct (node_type n); try done; destruct (_ || _); done.
Qed.

Definition row_of (p : list Z) (n : FfsNode) : Node :=
  {| nd_path := path_string p; nd_type := ffs_type_code (node_type n); nd_subtype := b2z (subtype n);
     nd_guid := match n_guid n with Some g => guid_to_upper_string g | None => [] end;
     nd_offset := offset n; nd_size := blen (header n) + blen (body n) + blen (tail n);
     nd_name := name_of n; nd_action := action_code (action n); nd_region := region_of n;
     nd_is_nvar := is_store n |}.

Lemma make_row_eq n p : make_row n (path_string p) (name_of n) = Ok (row_of p n).
Proof. unfold make_row. by rewrite is_nvar_body_eq. Qed.

(** ** Paths *)

Lemma join_snoc sep ps p : ps <> [] -> join sep (ps ++ [p]) = join sep ps ++ sep ++ p.
Proof.
  induction ps as [|x ps IH]; intros Hne; [done|]. destruct ps as [|y ps]; [done|].
  change (x ++ sep ++ join sep ((y :: ps) ++ [p]) = (x ++ sep ++ join sep (y :: ps)) ++ sep ++ p).
  rewrite IH by done. by rewrite <-!app_assoc.
Qed.

Lemma path_string_nonempty p : p <> [] -> path_string p <> [].
Proof.
  destruct p as [|i p]; [done|]. intros _. unfold path_string. cbn [map join].
  pose proof (dec_string_nonempty i). destruct (dec_string i); [done|]. by destruct (map dec_string p).
Qed.

Lemma path_string_snoc p i :
  path_string (p ++ [i]) =
  match path_string p with [] => dec_string i | _ => path_string p ++ [SLASH] ++ dec_string i end.
Proof.
  destruct p as [|j p]; [done|].
  pose proof (path_string_nonempty (j :: p) ltac:(done)) as Hne.
  unfold path_string in *. rewrite map_app. cbn [map]. rewrite join_snoc by done. cbn [map] in Hne.
  by destruct (join [SLASH] (dec_string j :: map dec_string p)).
Qed.

Lemma child_path_string p i : child_path (path_string p) i = path_string (p ++ [i]).
Proof. by rewrite path_string_snoc. Qed.

Lemma push_child_string p i : push_child (path_string p) i = path_string (p ++ [i]).
Proof.
  rewrite path_string_snoc. unfold push_child. destruct (path_string p); [done|].
  by rewrite <-app_assoc.
Qed.

(** ** The listing *)

Definition listed (filter : option ustring) (pn : list Z * FfsNode) : bool :=
  passes filter (name_of (snd pn)) (path_string (fst pn)).

Definition list_row_step (filter : option ustring) (items : list Node) (pn : list Z * FfsNode)
  : pure (list Node) :=
  Ok (if listed filter pn then items ++ [row_of (fst pn) (snd pn)] else items).

Lemma list_recursive_fold n p items filter :
  list_recursive n (path_string p) items filter = foldM (list_row_step filter) (preorder n p) items.
Proof.
  revert p items. induction n as [n IH] using FfsNode_tree_ind. intros p items.
  transitivity (name ← node_name n;
    items ← (if passes filter name (path_string p)
             then row ← make_row n (path_string p) name; mret (items ++ [row]) else mret items);
    each_child (fun items i child => list_recursive child (child_path (path_string p) i) items filter)
      0 (children n) items); [by destruct n|].
  rewrite node_name_eq, preorder_eq. cbn [mbind outcome_bind foldM list_row_step].
  rewrite make_row_eq. unfold listed. cbn [fst snd].
  rewrite Forall_forall in IH.
  destruct (passes filter (name_of n) (path_string p)); cbn [mbind outcome_bind mret outcome_ret];
    (apply each_child_fold; intros j c s Hc; rewrite child_path_string; by apply IH).
Qed.

Lemma list_steps filter pns items :
  foldM (list_row_step filter) pns items =
  Ok (items ++ map (fun pn => row_of (fst pn) (snd pn)) (List.filter (listed filter) pns)).
Proof.
  revert items. induction pns as [|pn pns IH]; intros items; cbn [foldM]; [by rewrite app_nil_r|].
  change (list_row_step filter items pn) with
    (Ok (E := Empty_set) (if listed filter pn then items ++ [row_of (fst pn) (snd pn)] else items)).
  cbn [mbind outcome_bind]. rewrite IH. cbn [List.filter].
  destruct (listed filter pn); [|done]. by rewrite <-app_assoc.
Qed.

Lemma list_items_eq root filter :
  list_items root filter =
  Ok (map (fun pn => row_of (fst pn) (snd pn)) (List.filter (listed filter) (preorder root []))).
Proof.
  unfold list_items. change (@nil Z) with (path_string []) at 1.
  by rewrite list_recursive_fold, list_steps.
Qed.

Lemma list_items_elem root filter row :
  row ∈ map (fun pn => row_of (fst pn) (snd pn)) (List.filter (listed filter) (preorder root [])) <->
  exists p n, node_at_path root p = Some n /\ passes filter (name_of n) (path_string p) = true /\
              row = row_of p n.
Proof.
  rewrite list_elem_of_fmap. split.
  - intros ([p n] & -> & Hin). apply list_elem_of_In, filter_In in Hin as [Hin Hp].
    apply list_elem_of_In, preorder_elem in Hin as (q & -> & Hq). by exists q, n.
  - intros (p & n & Hn & Hp & ->). exists (p, n). split; [done|].
    apply list_elem_of_In, filter_In. split; [|done]. apply list_elem_of_In, preorder_elem.
    by exists p.
Qed.

(** The listing terminates without a panic; its rows are exactly the nodes whose
    name or path contains the filter, each with the data of the node, and without a
    filter there is one row per node of the tree. *)
Theorem list_items_exact root filter :
  exists rows, list_items root filter = Ok rows /\
    (forall row, row ∈ rows <->
       exists p n, node_at_path root p = Some n /\ passes filter (name_of n) (path_string p) = true /\
                   row = row_of p n) /\
    (filter = None -> length rows = tree_size root).
Proof.
  rewrite list_items_eq. eexists. split; [done|]. split; [apply list_items_elem|].
  intros ->. rewrite length_map, <-(preorder_length root []). f_equal.
  generalize (preorder root []). intros l.
  induction l as [|pn l IH]; [done|]. simpl. by rewrite IH.
Qed.

(** Every vector of children fits the address space. *)
Definition indexable (root : FfsNode) : Prop :=
  everywhere (fun n => blen (children n) <= usize_max) root.

Lemma path_indices root p n :
  indexable root -> node_at_path root p = Some n -> Forall (fun i => 0 <= i <= usize_max) p.
Proof.
  revert root. induction p as [|i p IH]; intros root Hi Hn; [done|]. simpl in Hn.
  destruct (child_at root i) as [c|] eqn:Hc; [|done]. simpl in Hn.
  inversion Hi as [? Hb Hcs]; subst. constructor.
  - apply child_at_bounds in Hc. lia.
  - apply (IH c); [|done]. rewrite Forall_forall in Hcs. apply Hcs. by eapply child_at_elem.
Qed.

(** C22. Every path a listing prints for a node below the root, given back as a target, is
    parsed and resolved to the node the row was printed for; the row of the root has the
    empty path, which is no target. *)
Theorem listed_paths_resolve root filter rows row :
  indexable root -> list_items root filter = Ok rows -> row ∈ rows ->
  (nd_path row = [] /\ row = row_of [] root /\ parse_target (nd_path row) = Err InvalidHeader) \/
  exists p n, p <> [] /\ parse_target (nd_path row) = Ok (TG_Path p) /\ find_item root (TG_Path p) = Ok n /\
    find_item_path root (TG_Path p) = Some p /\ row = row_of p n.
Proof.
  intros Hi Hl Hin. rewrite list_items_eq in Hl. injection Hl as <-.
  apply list_items_elem in Hin as (p & n & Hn & _ & ->). destruct (decide (p = [])) as [->|Hne].
  { left. injection Hn as <-. done. }
  right. exists p, n. cbn [nd_path row_of] in *. split_and!; [done|..].
  - apply parse_target_path_string; [|by eapply path_indices]. by intros ->.
  - simpl. by rewrite Hn.
  - simpl. by rewrite Hn.
  - done.
Qed.

(** ** The search *)

Definition hit_in (query : ustring) (modes : list SearchMode) (pn : list Z * FfsNode) : bool :=
  bool_decide (node_type (snd pn) = T_Section)
  && existsb (mode_hit (snd pn) (name_of (snd pn)) query) modes.

(** The rows of all hits below a node. *)
Definition all_hits (query : ustring) (modes : list SearchMode) (pns : list (list Z * FfsNode))
  : list Node := map (fun pn => row_of (fst pn) (snd pn)) (List.filter (hit_in query modes) pns).

Lemma all_hits_app q modes l k : all_hits q modes (l ++ k) = all_hits q modes l ++ all_hits q modes k.
Proof. unfold all_hits. by rewrite List.filter_app, map_app. Qed.

Lemma len_utf8_pos c : 0 < len_utf8 c.
Proof. unfold len_utf8. repeat case_match; lia. Qed.

Lemma str_len_nonneg s : 0 <= str_len s.
Proof. induction s as [|c s IH]; [done|]. simpl. pose proof (len_utf8_pos c). lia. Qed.

Lemma truncate_app s t : truncate (s ++ t) (str_len s) = s.
Proof.
  induction s as [|c s IH]; cbn [app].
  - by destruct t.
  - cbn [truncate]. change (str_len (c :: s)) with (len_utf8 c + str_len s).
    pose proof (len_utf8_pos c). pose proof (str_len_nonneg s).
    destruct (Z.leb_spec (len_utf8 c + str_len s) 0); [lia|].
    by replace (len_utf8 c + str_len s - len_utf8 c) with (str_len s) by lia; rewrite IH.
Qed.

Lemma truncate_push p i : truncate (path_string (p ++ [i])) (str_len (path_string p)) = path_string p.
Proof.
  rewrite <-push_child_string. unfold push_child. destruct (path_string p) as [|c s] eqn:Hp.
  - by destruct (dec_string i).
  - rewrite <-app_assoc. apply truncate_app.
Qed.

(** Rows that still fit. *)
Definition fit_rows (limit : Z) (out rows : list Node) : list Node :=
  out ++ take (Z.to_nat limit - length out) rows.

Lemma fit_rows_full limit out rows : limit <= blen out -> fit_rows limit out rows = out.
Proof.
  unfold fit_rows, blen. intros. replace (Z.to_nat limit - length out)%nat with 0%nat by lia.
  by rewrite app_nil_r.
Qed.

Lemma fit_rows_app limit out l k :
  fit_rows limit out (l ++ k) = fit_rows limit (fit_rows limit out l) k.
Proof.
  unfold fit_rows. rewrite take_app, <-app_assoc. do 2 f_equal.
  rewrite length_app, length_take. f_equal. lia.
Qed.

Lemma fit_rows_cons limit out row l :
  blen out < limit -> fit_rows limit out (row :: l) = fit_rows limit (out ++ [row]) l.
Proof.
  intros Hlt. change (row :: l) with ([row] ++ l). rewrite fit_rows_app. f_equal.
  unfold fit_rows, blen in *. by rewrite take_ge by (simpl; lia).
Qed.

Lemma search_children_spec rec limit q modes p i cs out :
  (forall j c out, c ∈ cs ->
     rec c (path_string (p ++ [j])) out =
     Ok (path_string (p ++ [j]), fit_rows limit out (all_hits q modes (preorder c (p ++ [j]))))) ->
  search_children rec limit (str_len (path_string p)) i cs (path_string p) out =
  Ok (path_string p,
      fit_rows limit out (all_hits q modes (concat_children (fun i c => preorder c (p ++ [i])) i cs))).
Proof.
  revert i out. induction cs as [|c cs IH]; intros i out Hrec.
  - cbn. unfold fit_rows, all_hits. cbn. by rewrite take_nil, app_nil_r.
  - cbn [search_children concat_children]. rewrite push_child_string, Hrec by (by left).
    cbn [mbind outcome_bind fst snd]. rewrite truncate_push, all_hits_app, fit_rows_app.
    destruct (Z.leb_spec limit (blen (fit_rows limit out (all_hits q modes (preorder c (p ++ [i])))))).
    + by rewrite (fit_rows_full limit (fit_rows _ _ _)).
    + apply IH. intros. apply Hrec. by right.
Qed.

Lemma section_matches_eq n q modes :
  section_matches n q modes = Ok (existsb (mode_hit n (name_of n) q) modes).
Proof. unfold section_matches. by rewrite node_name_eq. Qed.

Lemma search_recursive_spec n p q modes limit out :
  search_recursive n (path_string p) q modes limit out =
  Ok (path_string p, fit_rows limit out (all_hits q modes (preorder n p))).
Proof.
  revert p out. induction n as [n IH] using FfsNode_tree_ind. intros p out.
  transitivity (if limit <=? blen out then Ok (E := Empty_set) (path_string p, out) else
    hit ← (if bool_decide (node_type n = T_Section) then section_matches n q modes else mret false);
    out ← (if (hit : bool)
           then name ← node_name n; row ← make_row n (path_string p) name; mret (out ++ [row])
           else mret out);
    if hit && (limit <=? blen out) then Ok (path_string p, out)
    else search_children (fun c path out => search_recursive c path q modes limit out)
           limit (str_len (path_string p)) 0 (children n) (path_string p) out); [by destruct n|].
  destruct (Z.leb_spec limit (blen out)) as [Hfull|Hroom]; [by rewrite fit_rows_full|].
  rewrite preorder_eq, section_matches_eq, node_name_eq.
  set (kids := concat_children _ 0 (children n)).
  assert ((if bool_decide (node_type n = T_Section)
           then Ok (E := Empty_set) (existsb (mode_hit n (name_of n) q) modes) else mret false)
          = Ok (hit_in q modes (p, n))) as ->.
  { unfold hit_in. cbn [snd]. by destruct (bool_decide _). }
  change (all_hits q modes ((p, n) :: kids)) with
    (map (fun pn => row_of (fst pn) (snd pn)) (List.filter (hit_in q modes) ((p, n) :: kids))).
  cbn [List.filter mbind outcome_bind]. rewrite make_row_eq.
  rewrite Forall_forall in IH.
  assert (forall out, search_children (fun c path out => search_recursive c path q modes limit out)
      limit (str_len (path_string p)) 0 (children n) (path_string p) out =
    Ok (path_string p, fit_rows limit out (all_hits q modes kids))) as Hkids.
  { intros out'. apply search_children_spec. intros j c o Hc. by apply IH. }
  destruct (hit_in q modes (p, n)); cbn [mbind outcome_bind mret outcome_ret andb]; [|apply Hkids].
  cbn [map fst snd]. rewrite fit_rows_cons by done.
  destruct (Z.leb_spec limit (blen (out ++ [row_of p n]))) as [Hf|]; [|apply Hkids].
  by rewrite fit_rows_full.
Qed.

(** C23. The search terminates without a panic and returns, in the order of the tree, the
    sections whose name or body matches in one of the modes, cut off after [limit] rows
    ([0] standing for the largest number); without a mode it returns nothing. *)
Theorem search_exact root query modes limit :
  search root query modes limit =
  Ok (if bool_decide (modes = []) then []
      else take (Z.to_nat (if limit =? 0 then usize_max else limit))
             (all_hits query modes (preorder root []))).
Proof.
  unfold search. destruct modes as [|m modes]; [done|].
  rewrite bool_decide_eq_false_2 by done.
  change (search_recursive root [] ) with (search_recursive root (path_string [])).
  rewrite search_recursive_spec. cbn [mbind outcome_bind mret outcome_ret snd].
  unfold fit_rows. cbn [app length]. by rewrite Nat.sub_0_r.
Qed.

(** ** Byte patterns *)

Lemma hex_digit_cases d : 0 <= d < 16 ->
  hex_nibble (z2b (hex_digit d)) = Some d /\ utf8_char (hex_digit d) = [z2b (hex_digit d)] /\
  is_whitespace (hex_digit d) = false /\ len_utf8 (hex_digit d) = 1.
Proof.
  intros Hd.
  assert (d ∈ [0; 1; 2; 3; 4; 5; 6; 7; 8; 9; 10; 11; 12; 13; 14; 15]) as Hin
    by (rewrite !elem_of_cons; lia).
  clear Hd. repeat (apply elem_of_cons in Hin as [->|Hin]; [by vm_compute|]).
  by apply elem_of_nil in Hin.
Qed.

(** The two digits of a byte. *)
Lemma byte_digits b :
  0 <= b2z b / 16 < 16 /\ 0 <= b2z b mod 16 < 16 /\
  z2b (Z.lor (Z.shiftl (b2z b / 16) 4) (b2z b mod 16)) = b.
Proof. by destruct b; vm_compute. Qed.

Lemma hex_text bs :
  List.filter (fun c => negb (is_whitespace c)) (hex_bytes bs) = concat (map fmt_02x bs).
Proof.
  unfold hex_bytes. induction bs as [|b bs IH]; [done|].
  assert (forall rest, List.filter (fun c => negb (is_whitespace c)) (fmt_02x b ++ rest) =
    fmt_02x b ++ List.filter (fun c => negb (is_whitespace c)) rest) as Hb.
  { intros rest. destruct (byte_digits b) as (Hh & Hl & _). unfold fmt_02x. cbn [app List.filter].
    destruct (hex_digit_cases _ Hh) as (_ & _ & -> & _).
    destruct (hex_digit_cases _ Hl) as (_ & _ & -> & _). done. }
  cbn [map join concat]. destruct bs as [|b' bs].
  - cbn [map join concat]. specialize (Hb []). by rewrite !app_nil_r in Hb |- *.
  - cbn [map] in *. rewrite Hb. f_equal. exact IH.
Qed.

Lemma hex_pairs_text bs : hex_pairs (as_bytes (concat (map fmt_02x bs))) = Some bs.
Proof.
  induction bs as [|b bs IH]; [done|]. destruct (byte_digits b) as (Hh & Hl & Hb).
  destruct (hex_digit_cases _ Hh) as (Nh & Uh & _ & _).
  destruct (hex_digit_cases _ Hl) as (Nl & Ul & _ & _).
  change (as_bytes (concat (map fmt_02x (b :: bs)))) with
    (utf8_char (hex_digit (b2z b / 16)) ++ utf8_char (hex_digit (b2z b mod 16))
     ++ as_bytes (concat (map fmt_02x bs))).
  rewrite Uh, Ul. cbn [app hex_pairs]. rewrite Nh, Nl, IH. cbn [mbind option_bind]. by rewrite Hb.
Qed.

Lemma hex_text_len bs : str_len (concat (map fmt_02x bs)) = 2 * blen bs.
Proof.
  induction bs as [|b bs IH]; [done|]. destruct (byte_digits b) as (Hh & Hl & _).
  destruct (hex_digit_cases _ Hh) as (_ & _ & _ & Lh).
  destruct (hex_digit_cases _ Hl) as (_ & _ & _ & Ll).
  change (str_len (concat (map fmt_02x (b :: bs)))) with
    (len_utf8 (hex_digit (b2z b / 16)) + (len_utf8 (hex_digit (b2z b mod 16))
     + str_len (concat (map fmt_02x bs)))).
  rewrite IH, Lh, Ll, blen_cons. lia.
Qed.

(** Bytes printed as the program prints them (two hexadecimal digits each, separated
    by spaces) are read back by the byte-pattern parser of the search. *)
Theorem hex_pattern_roundtrip bs : bs <> [] -> parse_hex_pattern (hex_bytes bs) = Some bs.
Proof.
  intros Hne. unfold parse_hex_pattern. rewrite hex_text, hex_text_len.
  rewrite bool_decide_eq_false_2 by (by destruct bs).
  replace (2 * blen bs mod 2 =? 0) with true by (symmetry; apply Z.eqb_eq; zdm).
  apply hex_pairs_text.
Qed.

(** A section body matches a byte pattern, a text in UTF-8 or a text in UTF-16LE
    exactly when the bytes of the pattern, which is not empty, occur in it at some
    position. *)
Theorem search_modes_spec n name query m :
  m <> SM_Name ->
  mode_hit n name query m = true <->
  exists needle i,
    match m with
    | SM_Utf8 => needle = as_bytes query
    | SM_Utf16Le => needle = concat (map (le_enc 2) (encode_utf16 query))
    | _ => parse_hex_pattern query = Some needle
    end /\ needle <> [] /\ 0 <= i /\ i + blen needle <= blen (body n) /\
    sub (body n) i (i + blen needle) = needle.
Proof.
  intros Hm.
  assert (forall needle (P : list byte -> Prop), (forall x, P x <-> x = needle) ->
    find_utf8 (body n) needle = true <->
    exists needle i, P needle /\ needle <> [] /\ 0 <= i /\ i + blen needle <= blen (body n) /\
      sub (body n) i (i + blen needle) = needle) as H.
  { intros needle P HP. rewrite find_utf8_spec. split.
    - intros (Hne & i & Hi). exists needle, i. split; [by apply HP|]. split; [done|exact Hi].
    - intros (x & i & Hx & Hne & Hi). apply HP in Hx. subst x. split; [done|]. by exists i. }
  destruct m; [done|..]; cbn [mode_hit].
  - by apply H.
  - destruct query as [|c q]; [|by apply H].
    split; [done|]. by intros (x & i & -> & Hne & _).
  - destruct (parse_hex_pattern query) as [p|].
    + apply H. intros x. split; congruence.
    + split; [done|]. by intros (x & i & ? & _).
Qed.

End ListingFacts.
