(* ===== verification/HiiFacts.v ===== *)
(** Correctness of the HII walkers: they terminate without a panic on every byte
    string, package lists read back and tile their input, and the scopes and spans
    they return are closed runs of opcodes. *)
From S2P Require Import Prelude Text Types Ffs Parser Hii.

Section HiiFacts.
Context {GL : GuidLib} {RH : RefiHii}.

(** ** Reads *)

(** Different opcodes are different. *)
Lemma op_ne i j a b :
  ifr_opcodes !! i = Some a -> ifr_opcodes !! j = Some b -> i <> j -> a <> b.
Proof. intros Hi Hj Hne ->. apply Hne. eapply NoDup_lookup; [apply ifr_opcodes_distinct|done..]. Qed.

Lemma sub_three (l : list byte) i a b c :
  get l i = Some a -> get l (i + 1) = Some b -> get l (i + 2) = Some c ->
  sub l i (i + 3) = [a; b; c].
Proof.
  intros Ha Hb Hc. assert (0 <= i < blen l) by (apply get_is_Some; by eexists).
  assert (0 <= i + 2 < blen l) by (apply get_is_Some; by eexists).
  apply list_get_ext. intros k. destruct (decide (0 <= k < 3)).
  - rewrite get_sub by lia. assert (k = 0 \/ k = 1 \/ k = 2) as [-> |[-> | ->]] by lia;
      rewrite ?Z.add_0_r; by rewrite ?Ha, ?Hb, ?Hc.
  - rewrite !(proj2 (get_None _ _)); [done|change (blen [a; b; c]) with 3; lia|].
    rewrite blen_sub by lia. lia.
Qed.

Lemma sub_one {A} (l : list A) i x : get l i = Some x -> sub l i (i + 1) = [x].
Proof.
  intros Hx. assert (0 <= i < blen l) by (apply get_is_Some; by eexists).
  apply list_get_ext. intros k. destruct (decide (k = 0)) as [->|].
  - by rewrite get_sub, Z.add_0_r by lia.
  - rewrite !(proj2 (get_None _ _)); [done|change (blen [x]) with 1; lia|rewrite blen_sub by lia; lia].
Qed.

Lemma u24_at_post bytes pos (Q : Z -> Prop) QE :
  0 <= pos -> pos + 3 <= blen bytes ->
  (forall z, z = le_dec (sub bytes pos (pos + 3)) -> 0 <= z < 2 ^ 24 -> Q z) ->
  post (u24_at bytes pos) Q QE.
Proof.
  intros H0 H3 HQ. unfold u24_at.
  apply post_bind, index_post; [lia|]. intros b0 Hb0.
  apply post_bind, index_post; [lia|]. intros b1 Hb1.
  apply post_bind, index_post; [lia|]. intros b2 Hb2.
  cbn [mret outcome_ret post].
  change (Z.lor _ _) with (uint24_to_u32 b0 b1 b2). apply HQ; [|apply uint24_bounds].
  by rewrite uint24_to_u32_le, (sub_three bytes pos b0 b1 b2).
Qed.

Lemma get_take {A} (l : list A) a k : k < a -> get (take (Z.to_nat a) l) k = get l k.
Proof. intros. unfold get. destruct (Z.leb_spec 0 k); [|done]. apply lookup_take_lt. lia. Qed.

Lemma get_drop {A} (l : list A) a k : 0 <= a -> 0 <= k -> get (drop (Z.to_nat a) l) k = get l (a + k).
Proof.
  intros. unfold get. assert ((0 <=? k) = true) as -> by lia. assert ((0 <=? a + k) = true) as -> by lia.
  rewrite lookup_drop. f_equal. lia.
Qed.

Lemma blen_get_ext {A} (l l' : list A) :
  (forall k, is_Some (get l k) <-> is_Some (get l' k)) -> blen l = blen l'.
Proof.
  intros Hk. pose proof (blen_nonneg l). pose proof (blen_nonneg l').
  destruct (Z.lt_trichotomy (blen l) (blen l')) as [Hlt|[?|Hlt]]; [|done|].
  - pose proof (proj2 (Hk (blen l))) as Hi. rewrite !get_is_Some in Hi. lia.
  - pose proof (proj1 (Hk (blen l'))) as Hi. rewrite !get_is_Some in Hi. lia.
Qed.

Lemma z2b_land_FF z : z2b (Z.land z 0xFF) = z2b z.
Proof. rewrite <-(z2b_wrap z). f_equal. exact (Z.land_ones z 8 ltac:(lia)). Qed.

Lemma set_at_eq {E A} (l : list A) i x :
  0 <= i < blen l -> set_at (E := E) l i x = Ok (<[Z.to_nat i := x]> l).
Proof. intros. unfold set_at. by assert ((0 <=? i) && (i <? blen l) = true) as -> by lia. Qed.

(** The three bytes of the length of a package, and the others. *)
Lemma set_u24_get pkg len :
  3 <= blen pkg ->
  exists p', set_u24 pkg len = Ok p' /\ blen p' = blen pkg /\
    forall k, get p' k = if k =? 2 then Some (z2b (Z.land (Z.shiftr len 16) 0xFF))
      else if k =? 1 then Some (z2b (Z.land (Z.shiftr len 8) 0xFF))
      else if k =? 0 then Some (z2b (Z.land len 0xFF)) else get pkg k.
Proof.
  intros Hl. unfold set_u24. rewrite set_at_eq by lia. cbn [mbind outcome_bind].
  rewrite set_at_eq by (rewrite blen_insert; lia). cbn [mbind outcome_bind].
  rewrite set_at_eq by (rewrite !blen_insert; lia).
  eexists. split; [done|]. rewrite !blen_insert. split; [done|]. intros k.
  rewrite get_insert by (rewrite !blen_insert; lia). destruct (k =? 2); [done|].
  rewrite get_insert by (rewrite !blen_insert; lia). destruct (k =? 1); [done|]. by rewrite get_insert by lia.
Qed.

Lemma index_eq {E A} (l : list A) i x : get l i = Some x -> index (E := E) l i = Ok x.
Proof. unfold index. by intros ->. Qed.

(** ** Scans *)

(** Every loop of the walkers: the position grows while it is inside the body. *)
Lemma scan_loop {E S R} (body : list byte) (step : S -> outcome E (S + R)) (pos : S -> Z)
    (J : S -> Prop) (Q : R -> Prop) (QE : E -> Prop) s :
  (forall s, 0 <= pos s -> J s ->
     post (step s) (fun r => match r with
                             | inl s' => pos s < pos s' /\ pos s < blen body /\ J s'
                             | inr r => Q r
                             end) QE) ->
  0 <= pos s -> J s -> post (loop (length body + 1) step s) Q QE.
Proof.
  intros Hstep H0 HJ.
  apply (loop_post _ (fun s => 0 <= pos s /\ J s) (fun s => Z.to_nat (blen body - pos s))); [|done|].
  - intros t [Ht HJt]. eapply post_mono; [by apply Hstep| |done].
    intros [t'|r]; [|done]. intros (? & ? & ?). split; [split; [lia|done]|lia].
  - unfold blen. lia.
Qed.

(** The states that a loop goes through. *)
Inductive steps {E S R} (step : S -> outcome E (S + R)) : S -> S -> Prop :=
| steps_refl s : steps step s s
| steps_next s s' s'' : step s = Ok (inl s') -> steps step s' s'' -> steps step s s''.

Lemma steps_trans {E S R} (step : S -> outcome E (S + R)) s s' s'' :
  steps step s s' -> steps step s' s'' -> steps step s s''.
Proof. induction 1; [done|]. intros. eapply steps_next; eauto. Qed.

Lemma steps_loop {E S R} (step : S -> outcome E (S + R)) s s' r fuel :
  steps step s s' -> step s' = Ok (inr r) -> loop fuel step s <> Diverge -> loop fuel step s = Ok r.
Proof.
  intros Hs. revert fuel. induction Hs as [s|s s' s'' Hst _ IH]; intros [|fuel] Hr; cbn [loop]; [done| |done|].
  - by rewrite Hr.
  - rewrite Hst. cbn [mbind outcome_bind]. by apply IH.
Qed.

Lemma post_converges {E A} (m : outcome E A) Q QE : post m Q QE -> m <> Diverge.
Proof. by destruct m. Qed.

Lemma u16_in_post body at_ (Q : Z -> Prop) QE :
  0 <= at_ -> at_ + 2 <= blen body ->
  (forall z, z = le_dec (sub body at_ (at_ + 2)) -> 0 <= z < 2 ^ 16 -> Q z) ->
  post (u16_in body at_) Q QE.
Proof.
  intros H0 H2 HQ. unfold u16_in.
  apply post_bind, index_post; [lia|]. intros b0 Hb0.
  apply post_bind, index_post; [lia|]. intros b1 Hb1.
  cbn [mret outcome_ret post]. apply HQ; [|apply (le_dec_bounds [b0; b1])].
  f_equal. apply list_get_ext. intros k. destruct (decide (0 <= k < 2)).
  - rewrite get_sub by lia. assert (k = 0 \/ k = 1) as [-> | ->] by lia; by rewrite ?Z.add_0_r, ?Hb0, ?Hb1.
  - rewrite !(proj2 (get_None _ _)); [done| |change (blen [b0; b1]) with 2; lia].
    rewrite blen_sub by lia. lia.
Qed.

(** ** Opcodes *)

Lemma land_7F z : Z.land z 0x7F = z mod 128.
Proof. exact (Z.land_ones z 7 ltac:(lia)). Qed.

(** The opcode [o] stands at [i]. *)
Definition op_at (body : list byte) (i : Z) (o : IfrOp) : Prop :=
  get body i = Some (op_code o) /\ get body (i + 1) = Some (op_ls o) /\
  op_len o = Z.land (b2z (op_ls o)) 0x7F /\ 2 <= op_len o.

Lemma read_op_post body i end_ (Q : option IfrOp -> Prop) QE :
  0 <= i -> i + 2 <= end_ -> end_ <= blen body ->
  Q None -> (forall o, op_at body i o -> i + op_len o <= end_ -> Q (Some o)) ->
  post (read_op body i end_) Q QE.
Proof.
  intros H0 H2 He HN HS. unfold read_op.
  apply post_bind, index_post; [lia|]. intros op Hop.
  apply post_bind, index_post; [lia|]. intros ls Hls. cbn [mret outcome_ret post].
  destruct ((Z.land (b2z ls) 0x7F <? 2) || (end_ <? i + Z.land (b2z ls) 0x7F)) eqn:Hb; [done|].
  apply orb_false_iff in Hb as [? ?]. apply HS; [|simpl; lia]. by split_and!; try (simpl; lia).
Qed.

Lemma read_op_at body i end_ o :
  op_at body i o -> i + op_len o <= end_ -> read_op (body) i end_ = Ok (Some o).
Proof.
  intros (Hop & Hls & Hlen & H2) He. unfold read_op, index. rewrite Hop, Hls. cbn.
  rewrite <-Hlen. assert ((op_len o <? 2) || (end_ <? i + op_len o) = false) as -> by lia.
  by destruct o.
Qed.

Lemma op_at_inj body i o o' : op_at body i o -> op_at body i o' -> o = o'.
Proof. destruct o, o'. unfold op_at. simpl. intros (? & ? & ? & ?) (? & ? & ? & ?). congruence. Qed.

Lemma package_bounds_post body (Q : Z * Z -> Prop) QE :
  (forall s e, (s = 0 \/ s = 4) -> s <= blen body -> e <= blen body ->
     (is_form_package body = false -> s = 0 /\ e = blen body) ->
     (is_form_package body = true -> s = 4 /\ e = Z.min (le_dec (sub body 0 3)) (blen body)) -> Q (s, e)) ->
  post (package_bounds body) Q QE.
Proof.
  intros HQ. pose proof (blen_nonneg body). unfold package_bounds. destruct (is_form_package body) eqn:Hf.
  - assert (5 <= blen body) by (unfold is_form_package in Hf; bool_to_prop; lia).
    apply post_bind, u24_at_post; [lia|lia|]. intros z Hz ?. cbn [mret outcome_ret post].
    apply HQ; [lia..|done|]. intros _. split; [done|]. by rewrite Hz.
  - cbn [mret outcome_ret post]. apply HQ; [lia..|done|done].
Qed.

(** ** Package lists *)

(** The packages [ps] lie one behind the other from [pos] to [e]. *)
Fixpoint pkgs_at (bytes : list byte) (pos : Z) (ps : list HiiPackage) (e : Z) : Prop :=
  match ps with
  | [] => pos = e
  | p :: ps =>
      let len := blen (pk_bytes p) in
      pk_offset p = pos /\ 4 <= len /\ pos + len <= blen bytes /\
      pk_bytes p = sub bytes pos (pos + len) /\ len = le_dec (sub bytes pos (pos + 3)) /\
      get bytes (pos + 3) = Some (pk_kind p) /\ pk_kind p <> PACKAGE_END /\
      pkgs_at bytes (pos + len) ps e
  end.

Lemma pkgs_at_snoc bytes pos ps e p e' :
  pkgs_at bytes pos ps e -> pkgs_at bytes e [p] e' -> pkgs_at bytes pos (ps ++ [p]) e'.
Proof.
  revert pos. induction ps as [|q ps IH]; intros pos; cbn [app pkgs_at]; [by intros ->|].
  intros (? & ? & ? & ? & ? & ? & ? & Hps) Hp. split_and!; auto.
Qed.

Lemma pkgs_at_bytes bytes pos ps e :
  0 <= pos <= blen bytes -> pkgs_at bytes pos ps e ->
  pos <= e <= blen bytes /\ concat (map pk_bytes ps) = sub bytes pos e.
Proof.
  revert pos. induction ps as [|p ps IH]; intros pos Hpos; cbn [pkgs_at map concat].
  { intros <-. split; [lia|]. by rewrite sub_empty. }
  intros (_ & H4 & Hle & Hs & _ & _ & _ & Hps). apply IH in Hps as [He ->]; [|lia].
  split; [lia|]. rewrite Hs at 1. apply sub_join; lia.
Qed.

(** The package at a position of the loop. *)
Lemma package_read bytes pos kind data :
  0 <= pos -> le_dec (sub bytes pos (pos + 3)) = blen data -> 4 <= blen data ->
  pos + blen data <= blen bytes -> data = sub bytes pos (pos + blen data) ->
  get bytes (pos + 3) = Some kind -> kind <> PACKAGE_END ->
  pkgs_at bytes pos [{| pk_kind := kind; pk_bytes := data; pk_offset := pos |}] (pos + blen data).
Proof. intros. by split_and!. Qed.

Lemma list_step_post bytes g pos ps :
  0 <= pos <= blen bytes -> pkgs_at bytes 20 ps pos ->
  post (list_step bytes g (pos, ps))
    (fun r => match r with
              | inl (pos', ps') => pkgs_at bytes 20 ps' pos' /\ pos + 4 <= pos' <= blen bytes
              | inr None => True
              | inr (Some l) => pl_guid l = g /\ exists e, pkgs_at bytes 20 (packages l) e /\
                  0 <= e /\ e + 4 <= blen bytes /\ get bytes (e + 3) = Some PACKAGE_END
              end) (fun _ => True).
Proof.
  intros Hpos Hps. unfold list_step. destruct (Z.leb_spec (pos + 4) (blen bytes)); [|done].
  apply post_bind, u24_at_post; [lia|lia|]. intros plen Hplen Hb.
  apply post_bind, index_post; [lia|]. intros kind Hkind.
  case_bool_decide as Hend; [subst; simpl; split; [done|]; exists pos; split_and!; done || lia|].
  destruct ((plen <? 4) || (blen bytes <? pos + plen)) eqn:Hbad; [done|].
  apply orb_false_iff in Hbad as [? ?]. apply post_bind, slice_post; [lia|lia|lia|].
  assert (blen (sub bytes pos (pos + plen)) = plen) as Hl by (rewrite blen_sub; lia).
  cbn [mret outcome_ret post]. split; [|lia]. eapply pkgs_at_snoc; [done|].
  pose proof (package_read bytes pos kind (sub bytes pos (pos + plen))) as Hp.
  rewrite Hl in Hp. apply Hp; done || lia.
Qed.

Lemma exact_step_post bytes g pos ps :
  0 <= pos <= blen bytes -> pkgs_at bytes 20 ps pos ->
  post (exact_step bytes g (pos, ps))
    (fun r => match r with
              | inl (pos', ps') => pkgs_at bytes 20 ps' pos' /\ pos + 4 <= pos' <= blen bytes
              | inr None => True
              | inr (Some l) => pl_guid l = g /\ exists e, pkgs_at bytes 20 (packages l) e /\
                  (e = blen bytes \/ e + 4 = blen bytes /\ get bytes (e + 3) = Some PACKAGE_END)
              end) (fun _ => True).
Proof.
  intros Hpos Hps. unfold exact_step. destruct (Z.eqb_spec pos (blen bytes)).
  { simpl. split; [done|]. exists pos. split; [done|by left]. }
  destruct (Z.ltb_spec (blen bytes) (pos + 4)); [done|].
  apply post_bind, u24_at_post; [lia|lia|]. intros plen Hplen Hb.
  apply post_bind, index_post; [lia|]. intros kind Hkind.
  case_bool_decide as Hend.
  { destruct (Z.eqb_spec (pos + 4) (blen bytes)); [|done]. subst. simpl. split; [done|].
    exists pos. split; [done|by right]. }
  destruct ((plen <? 4) || (blen bytes <? pos + plen)) eqn:Hbad; [done|].
  apply orb_false_iff in Hbad as [? ?]. apply post_bind, slice_post; [lia|lia|lia|].
  assert (blen (sub bytes pos (pos + plen)) = plen) as Hl by (rewrite blen_sub; lia).
  cbn [mret outcome_ret post]. split; [|lia]. eapply pkgs_at_snoc; [done|].
  pose proof (package_read bytes pos kind (sub bytes pos (pos + plen))) as Hp.
  rewrite Hl in Hp. apply Hp; done || lia.
Qed.

(** Both loops, with their invariant. *)
Lemma package_loop {R} bytes (step : Z * list HiiPackage -> pure (Z * list HiiPackage + R))
    (Q : R -> Prop) :
  20 <= blen bytes ->
  (forall pos ps, 0 <= pos <= blen bytes -> pkgs_at bytes 20 ps pos ->
     post (step (pos, ps))
       (fun r => match r with
                 | inl (pos', ps') => pkgs_at bytes 20 ps' pos' /\ pos + 4 <= pos' <= blen bytes
                 | inr r => Q r
                 end) (fun _ => True)) ->
  post (loop (length bytes + 1) step (20, [])) Q (fun _ => True).
Proof.
  intros Hl Hstep.
  apply (loop_post _ (fun s => 0 <= fst s <= blen bytes /\ pkgs_at bytes 20 (snd s) (fst s))
           (fun s => Z.to_nat (blen bytes - fst s))).
  - intros [pos ps] [Hpos Hps]. cbn [fst snd] in *. eapply post_mono; [by apply Hstep| |done].
    intros [[pos' ps']|r]; cbn [fst snd]; [|done]. intros [? ?]. split; [split; [lia|done]|lia].
  - simpl. split; [lia|done].
  - simpl. unfold blen. lia.
Qed.

(** The strict package-list parser terminates without a panic; the packages of a list
    it accepts start behind the 20-byte header, lie one behind the other with the
    lengths and kinds of their headers, and are followed by an END package. *)
Theorem parse_package_list_total bytes :
  exists o, parse_package_list bytes = Ok o /\ forall l, o = Some l ->
    pl_guid l = guid_of_array (sub bytes 0 16) /\
    exists e, pkgs_at bytes 20 (packages l) e /\ e + 4 <= blen bytes /\
      get bytes (e + 3) = Some PACKAGE_END /\
      concat (map pk_bytes (packages l)) = sub bytes 20 e.
Proof.
  unfold parse_package_list. destruct (Z.ltb_spec (blen bytes) 20) as [|Hl]; [by exists None|].
  unfold slice. rewrite (proj2 (range_ok_spec _ _ _)) by lia. cbn [mbind outcome_bind].
  pose proof (package_loop bytes (list_step bytes (guid_of_array (sub bytes 0 16))) _ Hl
                (fun pos ps Hp Hps => post_mono _ _ _ _ _ (list_step_post bytes _ pos ps Hp Hps)
                   (fun r Hr => Hr) (fun _ _ => I))) as H.
  destruct (loop _ _ _) as [o|[]| |]; try done. exists o. split; [done|].
  intros l ->. destruct H as (Hg & e & Hps & He & He' & Hend). split; [done|].
  exists e. split_and!; [done|done|done|]. apply (pkgs_at_bytes bytes 20); [lia|done].
Qed.

End HiiFacts.

(** Closes a goal with an equation [H] of the opcode at [i] and another one. *)
Ltac op_clash i n H :=
  match n with
  | S ?m => first [by apply (op_ne i m _ _ eq_refl eq_refl) in H | op_clash i m H]
  end.

(** Scopes of IFR code: runs of opcodes, their depth, the scopes that
    [find_suppress_if_scopes] and [formset_spans] return, and the rewrite of
    [unsuppress]. *)

Section ScopeFacts.
Context {GL : GuidLib} {RH : RefiHii}.

(** ** Runs of opcodes *)

(** The opcodes [ops] stand one behind the other from [i] to [e]. *)
Fixpoint ops_at (body : list byte) (i : Z) (ops : list IfrOp) (e : Z) : Prop :=
  match ops with
  | [] => i = e
  | o :: ops => op_at body i o /\ ops_at body (i + op_len o) ops e
  end.

Definition delta (o : IfrOp) : Z := if is_end o then -1 else if op_scoped o then 1 else 0.
(** The depth behind the run, unless it drops below 0 inside. *)
Fixpoint depth_run (d : Z) (ops : list IfrOp) : option Z :=
  match ops with
  | [] => Some d
  | o :: ops => if d + delta o <? 0 then None else depth_run (d + delta o) ops
  end.
(** Every scope that the run opens is closed in it, and no other. *)
Definition balanced (ops : list IfrOp) : Prop := depth_run 0 ops = Some 0.

Lemma ops_at_app body i a b e :
  ops_at body i (a ++ b) e <-> exists m, ops_at body i a m /\ ops_at body m b e.
Proof.
  revert i. induction a as [|o a IH]; intros i; cbn [app ops_at].
  - split; [intros H; by exists i|by intros (? & -> & ?)].
  - rewrite IH. split; [intros (? & m & ? & ?); exists m; auto|intros (m & [? ?] & ?); split; [|exists m]; auto].
Qed.

Lemma ops_at_le body i ops e : ops_at body i ops e -> i <= e.
Proof.
  revert i. induction ops as [|o ops IH]; intros i; cbn [ops_at]; [lia|].
  intros [(? & ? & ? & ?) ?%IH]. lia.
Qed.

(** A run determines its end. *)
Lemma ops_at_inj body i ops e e' : ops_at body i ops e -> ops_at body i ops e' -> e = e'.
Proof.
  revert i. induction ops as [|o ops IH]; intros i; cbn [ops_at]; [by intros <- <-|].
  intros [_ ?] [_ ?]. by eapply IH.
Qed.

Lemma depth_run_app d a b : depth_run d (a ++ b) = (d' ← depth_run d a; depth_run d' b).
Proof. revert d. induction a as [|o a IH]; intros d; [done|]. cbn [app depth_run]. by case_match. Qed.

Lemma depth_run_shift d ops r k : 0 <= k -> depth_run d ops = Some r -> depth_run (d + k) ops = Some (r + k).
Proof.
  intros Hk. revert d. induction ops as [|o ops IH]; intros d; cbn [depth_run]; [by intros [= ->]|].
  destruct (Z.ltb_spec (d + delta o) 0); [done|]. intros Hd%IH.
  destruct (Z.ltb_spec (d + k + delta o) 0); [lia|]. rewrite <-Hd. f_equal. lia.
Qed.

Lemma depth_run_nonneg d ops r : 0 <= d -> depth_run d ops = Some r -> 0 <= r.
Proof.
  revert d. induction ops as [|o ops IH]; intros d Hd; cbn [depth_run]; [by intros [= <-]|].
  destruct (Z.ltb_spec (d + delta o) 0); [done|]. by apply IH.
Qed.

Lemma op_len_pos body i o : op_at body i o -> 2 <= op_len o <= 127.
Proof.
  intros (_ & _ & Hl & ?). rewrite land_7F in Hl.
  pose proof (Z.mod_pos_bound (b2z (op_ls o)) 128 eq_refl). lia.
Qed.

(** ** Closing a scope *)

Lemma close_scope_post body end_ k j d (Q : scan_end -> Prop) QE :
  0 <= j -> end_ <= blen body -> k < d -> 0 <= k ->
  (forall ops j' o, ops_at body j ops j' -> depth_run (d - k - 1) ops = Some 0 ->
     op_at body j' o -> is_end o = true -> j' + op_len o <= end_ -> Q (SE_Closed j')) ->
  (forall j', j <= j' -> end_ < j' + 2 -> Q (SE_Ran j')) -> Q SE_Malformed ->
  post (close_scope body end_ k j d) Q QE.
Proof.
  intros Hj He Hd Hk Hclosed Hran Hmal. unfold close_scope.
  apply (scan_loop body _ fst (fun s => exists ops, ops_at body j ops (fst s) /\
           depth_run (d - k - 1) ops = Some (snd s - k - 1) /\ k < snd s)); [|done|].
  2: { exists []. by split_and!. }
  intros [i t] Hi (ops & Hops & Hrun & Ht). cbn [fst snd] in *. unfold close_step.
  destruct (Z.leb_spec (i + 2) end_); [|cbn; apply Hran; [by apply ops_at_le in Hops|lia]].
  apply post_bind, read_op_post; [lia|lia|lia|done|]. intros o Ho Hle.
  pose proof (op_len_pos _ _ _ Ho) as Hlen.
  assert (ops_at body j (ops ++ [o]) (i + op_len o)) as Hsnoc by (apply ops_at_app; exists i; by split).
  destruct (is_end o) eqn:Hend.
  - apply post_bind. unfold usub. destruct (Z.leb_spec 1 t) as [|]; [|lia]. cbn [post].
    destruct (Z.eqb_spec (t - 1) k) as [Htk|Htk]; cbn [post mret outcome_ret fst].
    + apply (Hclosed ops i o); try done. rewrite Hrun. f_equal. lia.
    + split; [lia|split; [lia|]]. exists (ops ++ [o]). split; [done|]. cbn [snd]. split; [|lia].
      rewrite depth_run_app, Hrun. cbn [mbind option_bind depth_run]. unfold delta. rewrite Hend.
      destruct (Z.ltb_spec (t - k - 1 + -1) 0); [lia|]. f_equal. lia.
  - cbn [post mret outcome_ret fst]. split; [lia|split; [lia|]]. exists (ops ++ [o]).
    split; [done|]. cbn [snd]. rewrite depth_run_app, Hrun. cbn [mbind option_bind depth_run].
    unfold delta. rewrite Hend. destruct (op_scoped o).
    + destruct (Z.ltb_spec (t - k - 1 + 1) 0); [lia|]. split; [f_equal; lia|lia].
    + destruct (Z.ltb_spec (t - k - 1 + 0) 0); [lia|]. split; [f_equal; lia|lia].
Qed.

(** Along a run that stays above depth [k], and at the END behind it. *)
Lemma close_steps body end_ k j ops j' d0 d1 :
  ops_at body j ops j' -> j' <= end_ -> 0 <= d0 -> 0 <= k -> depth_run d0 ops = Some d1 ->
  steps (close_step body end_ k) (j, d0 + k + 1) (j', d1 + k + 1).
Proof.
  revert j d0. induction ops as [|o ops IH]; intros j d0; cbn [ops_at depth_run].
  { intros -> _ _ _ [= ->]. constructor. }
  intros [Ho Hops] He Hd Hk. destruct (Z.ltb_spec (d0 + delta o) 0) as [|Hd']; [done|]. intros Hrun.
  pose proof (op_len_pos _ _ _ Ho). pose proof (ops_at_le _ _ _ _ Hops).
  eapply steps_next; [|by apply IH]. unfold close_step. destruct (Z.leb_spec (j + 2) end_); [|lia].
  rewrite (read_op_at _ _ _ _ Ho) by lia. cbn [mbind outcome_bind]. unfold delta in *.
  destruct (is_end o).
  - unfold usub. destruct (Z.leb_spec 1 (d0 + k + 1)); [|lia]. cbn [mbind outcome_bind].
    destruct (Z.eqb_spec (d0 + k + 1 - 1) k); [lia|]. cbn [mret outcome_ret]. do 3 f_equal. lia.
  - cbn [mret outcome_ret]. destruct (op_scoped o); do 3 f_equal; lia.
Qed.

Lemma close_scope_closed body end_ k j ops j' o d :
  0 <= j -> end_ <= blen body -> 0 <= k < d -> ops_at body j ops j' ->
  depth_run (d - k - 1) ops = Some 0 -> op_at body j' o -> is_end o = true -> j' + op_len o <= end_ ->
  close_scope body end_ k j d = Ok (SE_Closed j').
Proof.
  intros Hj He Hk Hops Hrun Ho Hend Hle. pose proof (op_len_pos _ _ _ Ho). unfold close_scope.
  eapply steps_loop.
  - replace d with ((d - k - 1) + k + 1) by lia. eapply close_steps; [done|lia..|done].
  - unfold close_step. destruct (Z.leb_spec (j' + 2) end_); [|lia]. rewrite (read_op_at _ _ _ _ Ho) by lia.
    cbn [mbind outcome_bind]. rewrite Hend. unfold usub. destruct (Z.leb_spec 1 (0 + k + 1)); [|lia].
    cbn [mbind outcome_bind]. by destruct (Z.eqb_spec (0 + k + 1 - 1) k); [|lia].
  - eapply (post_converges _ (fun _ => True) (fun _ => True)).
    apply close_scope_post; done || lia.
Qed.

(** ** Suppressed scopes *)

(** A scoped SUPPRESS_IF two bytes before the contents, balanced contents, an END behind. *)
Definition suppress_scope_at (body : list byte) (end_ : Z) (sc : SuppressScope) : Prop :=
  exists o ops e,
    op_at body (sc_start sc - 2) o /\ op_code o = IFR_SUPPRESS_IF_OP /\ op_scoped o = true /\
    ops_at body (sc_start sc) ops (sc_end sc) /\ balanced ops /\
    op_at body (sc_end sc) e /\ is_end e = true /\ sc_end sc + op_len e <= end_.

(** The scopes lie one behind the other between [i] and [e]. *)
Fixpoint ordered (i : Z) (scs : list SuppressScope) (e : Z) : Prop :=
  match scs with
  | [] => i <= e
  | sc :: scs => i <= sc_start sc - 2 /\ sc_start sc <= sc_end sc /\ ordered (sc_end sc + 2) scs e
  end.

Lemma ordered_snoc i scs e sc e' :
  ordered i scs e -> e <= sc_start sc - 2 -> sc_start sc <= sc_end sc -> sc_end sc + 2 <= e' ->
  ordered i (scs ++ [sc]) e'.
Proof.
  intros Ho H1 H2 H3. revert i Ho. induction scs as [|s scs IH]; intros i; cbn [app ordered].
  - intros. split_and!; lia.
  - intros (? & ? & ?%IH). by split_and!.
Qed.

Lemma ordered_weaken i scs e e' : ordered i scs e -> e <= e' -> ordered i scs e'.
Proof. revert i. induction scs as [|s scs IH]; intros i; cbn [ordered]; [lia|]. intuition. Qed.

Lemma suppress_step_post body end_ i scs :
  0 <= i -> end_ <= blen body -> Forall (suppress_scope_at body end_) scs -> ordered 0 scs i ->
  post (suppress_step body end_ (i, scs))
    (fun r => match r with
              | inl (i', scs') => i < i' /\ i < blen body /\
                  Forall (suppress_scope_at body end_) scs' /\ ordered 0 scs' i'
              | inr scs' => Forall (suppress_scope_at body end_) scs' /\ exists i', ordered 0 scs' i'
              end) (fun _ => False).
Proof.
  intros Hi He Hall Hord. unfold suppress_step.
  destruct (Z.leb_spec (i + 2) end_); [|split; [done|by exists i]].
  apply post_bind, read_op_post; [lia|lia|lia|split; [done|by exists i]|]. intros o Ho Hle.
  pose proof (op_len_pos _ _ _ Ho).
  destruct (bool_decide _ && op_scoped o) eqn:Hs; [|cbn; split_and!; try done || lia;
    eapply ordered_weaken; [done|lia]].
  bool_to_prop. apply post_bind, close_scope_post; [lia|lia|lia|lia| |
    intros j Hj _; cbn; split_and!; try done || lia; eapply ordered_weaken; [done|lia]
    |split; [done|by exists i]].
  intros ops j e Hops Hbal Hend Hise Hje. cbn [post mret outcome_ret].
  pose proof (ops_at_le _ _ _ _ Hops). pose proof (op_len_pos _ _ _ Hend).
  split_and!; [lia|lia| |].
  - apply Forall_app. split; [done|]. apply Forall_singleton. exists o, ops, e. cbn [sc_start sc_end].
    replace (i + 2 - 2) with i by lia. by split_and!.
  - eapply ordered_snoc; [done|cbn [sc_start sc_end]; lia..].
Qed.

Lemma find_suppress_if_scopes_post body :
  post (find_suppress_if_scopes body)
    (fun scs => Forall (suppress_scope_at body (blen body)) scs /\ exists e, ordered 0 scs e) (fun _ => False).
Proof.
  unfold find_suppress_if_scopes. apply post_bind, package_bounds_post. intros s e Hs Hsl Hel _ _.
  cbn [fst snd].
  apply (scan_loop body _ fst (fun st => Forall (suppress_scope_at body e) (snd st) /\ ordered 0 (snd st) (fst st))).
  - intros [i scs] Hi [Hall Hord]. cbn [fst snd] in *.
    eapply post_mono; [by apply suppress_step_post| |done]. intros [[i' scs']|scs']; cbn [fst snd].
    + intros (? & ? & ? & ?). by split_and!.
    + intros [Hall' ?]. split; [|done]. eapply Forall_impl; [done|].
      intros sc (o & ops & e' & Hsc). exists o, ops, e'. intuition lia.
  - destruct Hs; cbn; lia.
  - cbn. split; [done|]. lia.
Qed.

(** C13. The search for suppressed scopes terminates without a panic on every byte
    string; every scope it returns starts behind a scoped SUPPRESS_IF, its contents are
    a run of opcodes in which every opened scope is closed, its end is the END of that
    SUPPRESS_IF, and the scopes lie one behind the other. *)
Theorem suppress_scopes_sound body :
  exists scs, find_suppress_if_scopes body = Ok scs /\
    Forall (suppress_scope_at body (blen body)) scs /\ ordered 0 scs (blen body).
Proof.
  pose proof (find_suppress_if_scopes_post body) as H.
  destruct (find_suppress_if_scopes body) as [scs|[]| |]; [|done..]. destruct H as [Hall [e He]].
  exists scs. split_and!; [done|done|]. clear -Hall He.
  assert (0 <= blen body) as Hb by apply blen_nonneg. revert He Hb. generalize 0 as i.
  induction Hall as [|sc scs (o & ops & e' & _ & _ & _ & _ & _ & He' & _ & Hle) _ IH];
    intros i; cbn [ordered]; [done|].
  intros (? & ? & ?) ?. pose proof (op_len_pos _ _ _ He'). split_and!; [done|done|]. apply IH; [done|lia].
Qed.

(** ** Removing a scope *)

(** A run of opcodes where the bytes are copied to. *)
Lemma ops_at_copy body body' d i ops e :
  (forall k, i <= k < e -> get body' (k + d) = get body k) ->
  ops_at body i ops e -> ops_at body' (i + d) ops (e + d).
Proof.
  revert i. induction ops as [|o ops IH]; intros i Hk; cbn [ops_at]; [by intros ->|].
  intros [Ho Hops]. pose proof (op_len_pos _ _ _ Ho). pose proof (ops_at_le _ _ _ _ Hops).
  destruct Ho as (Hop & Hls & Hlen & H2). split.
  - split_and!; [by rewrite Hk by lia| |done|done].
    replace (i + d + 1) with (i + 1 + d) by lia. by rewrite Hk by lia.
  - replace (i + d + op_len o) with (i + op_len o + d) by lia. apply IH; [|done]. intros. apply Hk. lia.
Qed.

Lemma op_at_ext body body' i o :
  (forall k, i <= k < i + 2 -> get body' k = get body k) -> op_at body i o -> op_at body' i o.
Proof. intros Hk (? & ? & ? & ?). split_and!; try done; by rewrite Hk by lia. Qed.

Lemma ops_at_ext body body' i ops e :
  (forall k, i <= k < e -> get body' k = get body k) -> ops_at body i ops e -> ops_at body' i ops e.
Proof.
  intros Hk H. rewrite <-(Z.add_0_r i), <-(Z.add_0_r e). eapply ops_at_copy; [|done].
  intros. rewrite Z.add_0_r. by apply Hk.
Qed.

(** [unsuppress] moves the bytes of the scope two bytes up. *)
Lemma shift_loop ifr s n :
  0 <= s -> s + Z.of_nat n + 2 <= blen ifr ->
  exists ifr', foldM shift_step (rev (map (fun k => s + Z.of_nat k) (seq 0 n))) ifr = Ok ifr' /\
    blen ifr' = blen ifr /\
    forall k, get ifr' k = if (s + 2 <=? k) && (k <? s + Z.of_nat n + 2) then get ifr (k - 2) else get ifr k.
Proof.
  intros Hs. revert ifr. induction n as [|n IH]; intros ifr Hn.
  { exists ifr. split_and!; [done|done|]. intros k.
    destruct (Z.leb_spec (s + 2) k), (Z.ltb_spec k (s + Z.of_nat 0 + 2)); cbn [andb]; [lia|done..]. }
  rewrite seq_S, map_app, rev_app_distr. cbn [map rev app foldM Nat.add].
  destruct (proj2 (get_is_Some ifr (s + Z.of_nat n))) as [b Hb]; [lia|].
  assert (shift_step ifr (s + Z.of_nat n) = Ok (<[Z.to_nat (s + Z.of_nat n + 2) := b]> ifr)) as ->.
  { unfold shift_step. rewrite (index_eq _ _ _ Hb). cbn [mbind outcome_bind]. apply set_at_eq. lia. }
  cbn [mbind outcome_bind]. destruct (IH (<[Z.to_nat (s + Z.of_nat n + 2) := b]> ifr)) as (r & -> & Hl & Hr).
  { rewrite blen_insert. lia. }
  exists r. rewrite blen_insert in Hl. split_and!; [done|done|]. intros k. rewrite Hr, !get_insert by lia.
  destruct (Z.leb_spec (s + 2) k), (Z.ltb_spec k (s + Z.of_nat n + 2)),
    (Z.ltb_spec k (s + Z.of_nat (S n) + 2)), (Z.eqb_spec k (s + Z.of_nat n + 2)),
    (Z.eqb_spec (k - 2) (s + Z.of_nat n + 2)); cbn [andb]; try lia; try done.
  rewrite <-Hb. f_equal. lia.
Qed.

(** The bytes behind [unsuppress] where the scope has its END. *)
Lemma unsuppress_bytes ifr sc :
  0 <= sc_start sc <= sc_end sc -> get ifr (sc_end sc) = Some x29 -> get ifr (sc_end sc + 1) = Some x02 ->
  exists ifr', unsuppress ifr sc = Ok ifr' /\ blen ifr' = blen ifr /\
    get ifr' (sc_start sc) = Some x29 /\ get ifr' (sc_start sc + 1) = Some x02 /\
    (forall k, sc_start sc <= k < sc_end sc -> get ifr' (k + 2) = get ifr k) /\
    (forall k, k < sc_start sc \/ sc_end sc + 2 <= k -> get ifr' k = get ifr k).
Proof.
  destruct sc as [s e]. cbn [sc_start sc_end]. intros Hse H0 H1. unfold unsuppress. cbn [sc_start sc_end].
  assert (0 <= e + 1 < blen ifr) by (apply get_is_Some; by eexists).
  assert ((blen ifr <? e + 2) = false) as -> by lia. rewrite (index_eq _ _ _ H0), (index_eq _ _ _ H1). cbn -[rev map seq foldM set_at].
  destruct (shift_loop ifr s (Z.to_nat (e - s))) as (r & -> & Hl & Hr); [lia|lia|].
  cbn [mbind outcome_bind]. rewrite set_at_eq by lia. cbn [mbind outcome_bind].
  rewrite set_at_eq by (rewrite blen_insert; lia).
  eexists. split; [done|]. split; [by rewrite !blen_insert|].
  assert (forall k, get (<[Z.to_nat (s + 1) := x02]> (<[Z.to_nat s := x29]> r)) k =
    if k =? s + 1 then Some x02 else if k =? s then Some x29 else get r k) as Hg.
  { intros k. rewrite get_insert by (rewrite blen_insert; lia). by rewrite get_insert by lia. }
  split_and!; [rewrite Hg|rewrite Hg|intros k Hk; rewrite Hg, Hr|intros k Hk; rewrite Hg, Hr].
  - destruct (Z.eqb_spec s (s + 1)), (Z.eqb_spec s s); done || lia.
  - destruct (Z.eqb_spec (s + 1) (s + 1)); done || lia.
  - destruct (Z.eqb_spec (k + 2) (s + 1)), (Z.eqb_spec (k + 2) s), (Z.leb_spec (s + 2) (k + 2)),
      (Z.ltb_spec (k + 2) (s + Z.of_nat (Z.to_nat (e - s)) + 2)); cbn [andb]; try lia. f_equal. lia.
  - destruct (Z.eqb_spec k (s + 1)), (Z.eqb_spec k s), (Z.leb_spec (s + 2) k),
      (Z.ltb_spec k (s + Z.of_nat (Z.to_nat (e - s)) + 2)); cbn [andb]; done || lia.
Qed.

(** The END that [unsuppress] looks for. *)
Definition plain_end : IfrOp := {| op_code := IFR_END_OP; op_ls := x02; op_len := 2 |}.

(** [unsuppress] never changes a package whose scope does not close with a plain
    END. Otherwise it keeps the length and every byte outside the scope, and the opcode
    sequence [pre; SUPPRESS_IF; contents; END; post] becomes
    [pre; SUPPRESS_IF; END; contents; post]: the scope is empty and its contents are no
    longer inside it. *)
Theorem unsuppress_reorders body i pre s contents post E sc :
  0 <= i -> ops_at body i (pre ++ [s]) (sc_start sc) -> ops_at body (sc_start sc) contents (sc_end sc) ->
  (op_at body (sc_end sc) plain_end -> ops_at body (sc_end sc + 2) post E ->
   exists body', unsuppress body sc = Ok body' /\ blen body' = blen body /\
     (forall k, k < sc_start sc \/ sc_end sc + 2 <= k -> get body' k = get body k) /\
     ops_at body' i (pre ++ [s] ++ [plain_end] ++ contents ++ post) E) /\
  (~ op_at body (sc_end sc) plain_end -> unsuppress body sc = Ok body).
Proof.
  intros Hi Hpre Hc. pose proof (ops_at_le _ _ _ _ Hpre). pose proof (ops_at_le _ _ _ _ Hc).
  assert (op_at body (sc_end sc) plain_end <->
          get body (sc_end sc) = Some x29 /\ get body (sc_end sc + 1) = Some x02) as Hend.
  { unfold op_at, plain_end. cbn [op_code op_ls op_len]. rewrite ifr_end_op. split; [tauto|].
    intros [? ?]. split_and!; done. }
  split.
  - intros [He0 He1]%Hend Hpost. destruct (unsuppress_bytes body sc) as (b' & Hb' & Hl & Hs0 & Hs1 & Hin & Hout); [lia|done|done|].
    exists b'. split_and!; [done|done|done|]. rewrite app_assoc. apply ops_at_app.
    exists (sc_start sc). split; [eapply ops_at_ext; [|done]; intros; apply Hout; lia|].
    cbn [app ops_at]. split; [unfold op_at, plain_end; cbn [op_code op_ls op_len]; by rewrite ifr_end_op|].
    apply ops_at_app. exists (sc_end sc + 2). split.
    + apply (ops_at_copy body); [done|done].
    + eapply ops_at_ext; [|done]. intros. apply Hout. lia.
  - intros Hno. unfold unsuppress. destruct (Z.ltb_spec (blen body) (sc_end sc + 2)); [done|].
    destruct (proj2 (get_is_Some body (sc_end sc))) as [b0 Hb0]; [lia|].
    rewrite (index_eq _ _ _ Hb0). cbn [mbind outcome_bind].
    case_bool_decide as E0; [|done]. cbn [negb].
    destruct (proj2 (get_is_Some body (sc_end sc + 1))) as [b1 Hb1]; [lia|].
    rewrite (index_eq _ _ _ Hb1). cbn [mbind outcome_bind].
    case_bool_decide as E1; [|done]. subst. by destruct Hno; apply Hend.
Qed.

End ScopeFacts.
