(* ===== verification/StringFacts.v ===== *)
(** Strings added to a package read back: the scan of the SIBT blocks follows the parser
    of the package block by block, and the package with the new blocks parses to the old
    strings followed by the new ones under the identifiers that were handed out. *)
From stdpp Require Import gmap.
From S2P Require Import Prelude Text Types Ffs Parser Hii StringPack HiiFacts.
From S2P Require Import Spf.

Section StringFacts.
Context {GL : GuidLib} {RH : RefiHii}.

(** ** UTF-8 *)

(** A Unicode scalar value. *)
Definition scalar (c : Z) : Prop := 0 <= c < 0xD800 \/ 0xE000 <= c < 0x110000.

Ltac z_cases :=
  repeat match goal with
  | |- context [Z.leb ?a ?b] => destruct (Z.leb_spec a b); try lia
  | |- context [Z.ltb ?a ?b] => destruct (Z.ltb_spec a b); try lia
  | |- context [Z.eqb ?a ?b] => destruct (Z.eqb_spec a b); try lia
  end.

Lemma utf8_go_two b0 b1 k n acc lo hi :
  0x80 <= b0 -> utf8_lead b0 = Some (S n, acc, lo, hi) -> lo <= b1 <= hi ->
  utf8_go (b0 :: b1 :: k) None =
    match n with
    | S m => utf8_go k (Some (S m, acc * 64 + (b1 - 0x80), 0x80, 0xBF))
    | O => (acc * 64 + (b1 - 0x80)) :: utf8_go k None
    end.
Proof.
  intros Hb Hl Hb1. cbn [utf8_go]. destruct (Z.ltb_spec b0 0x80); [lia|]. rewrite Hl.
  destruct (Z.leb_spec lo b1), (Z.leb_spec b1 hi); try lia. by destruct n.
Qed.

Lemma utf8_go_more b k n acc :
  0x80 <= b <= 0xBF ->
  utf8_go (b :: k) (Some (S n, acc, 0x80, 0xBF)) =
    match n with
    | S m => utf8_go k (Some (S m, acc * 64 + (b - 0x80), 0x80, 0xBF))
    | O => (acc * 64 + (b - 0x80)) :: utf8_go k None
    end.
Proof.
  intros Hb. cbn [utf8_go]. destruct (Z.leb_spec 0x80 b), (Z.leb_spec b 0xBF); try lia. by destruct n.
Qed.

Lemma b2z_z2b_small z : 0 <= z < 256 -> b2z (z2b z) = z.
Proof. intros. rewrite b2z_z2b. by apply Z.mod_small. Qed.

(** The decoder reads one encoded scalar value. *)
Lemma utf8_char_go c k : scalar c -> utf8_go (map b2z (utf8_char c) ++ k) None = c :: utf8_go k None.
Proof.
  intros Hc. unfold utf8_char. destruct (Z.ltb_spec c 0x80).
  { cbn [map app]. rewrite b2z_z2b_small by (destruct Hc; lia). cbn [utf8_go]. by destruct (Z.ltb_spec c 0x80); [|lia]. }
  assert (forall z, 0 <= z mod 0x40 < 0x40) as Hm by (intros; by apply Z.mod_pos_bound).
  destruct (Z.ltb_spec c 0x800).
  { assert (2 <= c / 0x40 < 0x20) by zdm. pose proof (Hm c). cbn [map app].
    rewrite !b2z_z2b_small by lia. erewrite utf8_go_two; [|lia|unfold utf8_lead; z_cases; reflexivity|lia].
    f_equal. zdm. }
  destruct (Z.ltb_spec c 0x10000).
  { assert (0 <= c / 0x1000 < 0x10) by zdm. pose proof (Hm c). pose proof (Hm (c / 0x40)). cbn [map app].
    rewrite !b2z_z2b_small by lia.
    assert (exists lo hi, utf8_lead (0xE0 + c / 0x1000) = Some (2%nat, c / 0x1000, lo, hi) /\
              lo <= 0x80 + c / 0x40 mod 0x40 <= hi) as (lo & hi & Hl & Hb).
    { unfold utf8_lead. unfold scalar in Hc.
      destruct (decide (c / 0x1000 = 0)) as [E0|E0]; [|destruct (decide (c / 0x1000 = 0xD)) as [E1|E1]].
      - rewrite E0. exists 0xA0, 0xBF. split; [done|]. zdm.
      - rewrite E1. exists 0x80, 0x9F. split; [done|]. zdm.
      - exists 0x80, 0xBF. split; [|lia]. z_cases; repeat f_equal; lia. }
    erewrite utf8_go_two; [|lia|done|done]. cbv beta iota. rewrite utf8_go_more by lia. cbv beta iota. f_equal. zdm. }
  assert (0 <= c / 0x40000 < 5) by (unfold scalar in Hc; zdm).
  pose proof (Hm c). pose proof (Hm (c / 0x40)). pose proof (Hm (c / 0x1000)). cbn [map app].
  rewrite !b2z_z2b_small by lia.
  assert (exists lo hi, utf8_lead (0xF0 + c / 0x40000) = Some (3%nat, c / 0x40000, lo, hi) /\
            lo <= 0x80 + c / 0x1000 mod 0x40 <= hi) as (lo & hi & Hl & Hb).
  { unfold utf8_lead. unfold scalar in Hc.
    destruct (decide (c / 0x40000 = 0)) as [E0|E0]; [|destruct (decide (c / 0x40000 = 4)) as [E1|E1]].
    - rewrite E0. exists 0x90, 0xBF. split; [done|]. zdm.
    - rewrite E1. exists 0x80, 0x8F. split; [done|]. zdm.
    - exists 0x80, 0xBF. split; [|lia]. z_cases; repeat f_equal; lia. }
  erewrite utf8_go_two; [|lia|done|done]. cbv beta iota. do 2 (rewrite utf8_go_more by lia; cbv beta iota). f_equal. zdm.
Qed.

Lemma lossy_as_bytes s : Forall scalar s -> from_utf8_lossy (as_bytes s) = s.
Proof.
  unfold from_utf8_lossy, as_bytes. induction 1 as [|c s Hc _ IH]; [done|]. cbn [map concat].
  rewrite map_app, utf8_char_go by done. by rewrite IH.
Qed.

(** Only NUL is encoded with a NUL byte. *)
Lemma utf8_char_nonzero c : scalar c -> c <> 0 -> Forall (fun b => nonzero b = true) (utf8_char c).
Proof.
  intros Hc Hne. assert (forall z, 0 < z < 256 -> nonzero (z2b z) = true) as Hnz.
  { intros z Hz. unfold nonzero. rewrite bool_decide_eq_false_2; [done|]. intros Heq.
    apply (f_equal b2z) in Heq. rewrite b2z_z2b_small in Heq by lia. change (b2z x00) with 0 in Heq. lia. }
  unfold scalar in Hc. assert (forall z, 0 <= z mod 0x40 < 0x40) as Hm by (intros; by apply Z.mod_pos_bound).
  pose proof (Hm c). pose proof (Hm (c / 0x40)). pose proof (Hm (c / 0x1000)).
  unfold utf8_char. z_cases; repeat (constructor; [apply Hnz; try lia; zdm|]); constructor.
Qed.

Definition text_ok (s : ustring) : Prop := Forall (fun c => scalar c /\ c <> 0) s.
Lemma text_ok_bytes s :
  text_ok s -> from_utf8_lossy (as_bytes s) = s /\ Forall (fun b => nonzero b = true) (as_bytes s).
Proof.
  intros Hs. split; [apply lossy_as_bytes; eapply Forall_impl; [done|]; by intros c [? _]|].
  unfold as_bytes. induction Hs as [|c s [Hc Hne] _ IH]; [constructor|]. cbn [map concat].
  apply Forall_app. split; [by apply utf8_char_nonzero|done].
Qed.

(** ** Reads depend only on the bytes they pass *)

(** The packages agree in front of [n], but for their lengths. *)
Definition agree (n : Z) (body body' : list byte) : Prop :=
  0 <= n <= blen body /\ n <= blen body' /\ forall k, 3 <= k < n -> get body' k = get body k.

Lemma agree_sub n body body' a b : agree n body body' -> 3 <= a -> b <= n -> sub body' a b = sub body a b.
Proof.
  intros (? & ? & Hk) Ha Hb. destruct (decide (a <= b)); [|unfold sub; by replace (Z.to_nat (b - a)) with 0%nat by lia].
  apply sub_ext; [lia|]. intros. apply Hk. lia.
Qed.

Lemma take_while_app {A} (p : A -> bool) l k :
  (length (take_while p (l ++ k)) < length l)%nat -> take_while p (l ++ k) = take_while p l.
Proof. induction l as [|a l IH]; cbn; [lia|]. destruct (p a); cbn; [|done]. intros. f_equal. apply IH. lia. Qed.
Lemma take_while_app' {A} (p : A -> bool) l k :
  (length (take_while p l) < length l)%nat -> take_while p (l ++ k) = take_while p l.
Proof. induction l as [|a l IH]; cbn; [lia|]. destruct (p a); cbn; [|done]. intros. f_equal. apply IH. lia. Qed.

Lemma utf16_units_app l k n :
  length l = (2 * n)%nat -> utf16_units (l ++ k) = utf16_units l ++ utf16_units k /\ length (utf16_units l) = n.
Proof.
  revert l. induction n as [|n IH]; intros l Hl; [destruct l; [done|simpl in Hl; lia]|].
  destruct l as [|a [|b l]]; [simpl in Hl; lia..|]. cbn [app utf16_units]. destruct (IH l) as [-> <-]; [simpl in Hl; lia|done].
Qed.

Lemma scsu_agree n body body' start :
  agree n body body' -> 3 <= start -> start + blen (scsu_bytes body start) < n ->
  scsu_bytes body' start = scsu_bytes body start.
Proof.
  intros Hag Hs Hn. pose proof Hag as (? & ? & _). pose proof (blen_nonneg (scsu_bytes body start)).
  assert (start <= n) by lia. unfold scsu_bytes in *.
  rewrite <-(sub_join body start n (blen body)) in * by lia. rewrite <-(sub_join body' start n (blen body')) by lia.
  rewrite (agree_sub _ _ _ start n Hag) by lia. assert (length (sub body start n) = Z.to_nat (n - start)) as Hl.
  { pose proof (blen_sub body start n). unfold blen in *. lia. }
  assert (take_while nonzero (sub body start n ++ sub body n (blen body)) = take_while nonzero (sub body start n)) as Heq.
  { apply take_while_app. unfold blen in *. lia. }
  rewrite Heq in *. apply take_while_app'. unfold blen in *. lia.
Qed.

Lemma ucs2_agree n body body' start :
  agree n body body' -> 3 <= start -> start + 2 * blen (ucs2_units body start) + 2 <= n ->
  ucs2_units body' start = ucs2_units body start.
Proof.
  intros Hag Hs Hn. pose proof Hag as (? & ? & _). unfold ucs2_units in *. set (p := fun u => negb (u =? 0)) in *.
  set (u := blen (take_while p (utf16_units (sub body start (blen body))))) in *.
  assert (0 <= u) by apply blen_nonneg. set (m := start + 2 * u + 2) in *.
  assert (length (sub body start m) = (2 * Z.to_nat (u + 1))%nat) as Hl.
  { pose proof (blen_sub body start m). unfold blen in *. lia. }
  assert (u = blen (take_while p (utf16_units (sub body start m ++ sub body m (blen body))))) as Hu
    by (rewrite sub_join by lia; done).
  destruct (utf16_units_app _ (sub body m (blen body)) _ Hl) as [Hj Hlu].
  destruct (utf16_units_app _ (sub body' m (blen body')) _ Hl) as [Hj' _].
  rewrite <-(sub_join body start m (blen body)), <-(sub_join body' start m (blen body')) by lia.
  rewrite (agree_sub _ _ _ start m Hag) by lia. rewrite Hj, Hj' in *.
  assert (take_while p (utf16_units (sub body start m) ++ utf16_units (sub body m (blen body)))
          = take_while p (utf16_units (sub body start m))) as Heq.
  { apply take_while_app. unfold blen in *. lia. }
  rewrite Heq in *. apply take_while_app'. unfold blen in *. lia.
Qed.

(** A reader on two packages and the skip of the scan. *)
Definition reads (n : Z) (read read' : Z -> option (ustring * Z)) (skip : Z -> Z) : Prop :=
  forall start t p, 3 <= start -> read start = Some (t, p) ->
    start < p /\ (p <= n -> read' start = Some (t, p) /\ skip start = p).

Lemma read_scsu_reads n body body' :
  agree n body body' -> n < blen body -> reads n (read_scsu body) (read_scsu body') (skip_scsu body).
Proof.
  intros Hag Hn start t p Hs. pose proof Hag as (_ & ? & _). unfold read_scsu, skip_scsu.
  destruct (Z.leb_spec (blen body) start); [done|]. pose proof (blen_nonneg (scsu_bytes body start)).
  destruct (Z.ltb_spec (start + blen (scsu_bytes body start)) (blen body)); intros [= <- <-]; (split; [lia|]); intros Hp; [|lia].
  rewrite (scsu_agree n body body') by (done || lia). destruct (Z.leb_spec (blen body') start); [lia|].
  destruct (Z.ltb_spec (start + blen (scsu_bytes body start)) (blen body')); [done|lia].
Qed.

Lemma read_ucs2_reads n body body' :
  agree n body body' -> n < blen body -> reads n (read_ucs2 body) (read_ucs2 body') (skip_ucs2 body).
Proof.
  intros Hag Hn start t p Hs. pose proof Hag as (_ & ? & _). unfold read_ucs2, skip_ucs2, sat_sub.
  destruct (Z.ltb_spec (Z.max 0 (blen body - start)) 2); [done|]. pose proof (blen_nonneg (ucs2_units body start)).
  destruct (Z.ltb_spec (start + 2 * blen (ucs2_units body start) + 1) (blen body)); intros [= <- <-]; (split; [lia|]); intros Hp; [|lia].
  rewrite (ucs2_agree n body body') by (done || lia). destruct (Z.ltb_spec (Z.max 0 (blen body' - start)) 2); [lia|].
  destruct (Z.ltb_spec (start + 2 * blen (ucs2_units body start) + 1) (blen body')); [done|lia].
Qed.

(** ** One block *)

Lemma push_next st t st' : push st t = Some st' -> ss_next_id st' = ss_next_id st + 1 /\ ss_next_id st <> 0xFFFF.
Proof. unfold push. destruct (Z.eqb_spec (ss_next_id st) 0xFFFF); [done|]. by intros [= <-]. Qed.

(** The identifier fits 16 bits, and stays within them. *)
Definition id_ok (st : StringScan) : Prop := 0 <= ss_next_id st <= 0xFFFF.

Lemma one_string_reads n read read' skip start st p st' :
  reads n read read' skip -> 3 <= start -> id_ok st -> one_string (read start) st = inl (p, st') ->
  start < p /\ id_ok st' /\
  (p <= n -> one_string (read' start) st = inl (p, st') /\ checked_add16 (ss_next_id st) 1 = Some (ss_next_id st') /\
             skip start = p).
Proof.
  intros Hr Hs Hid. unfold one_string. destruct (read start) as [[t p']|] eqn:Hrd; [|done].
  destruct (push st t) as [st1|] eqn:Hpush; [|done]. intros [= -> ->].
  destruct (Hr _ _ _ Hs Hrd) as [? Hp]. apply push_next in Hpush as Hn. destruct Hn as [Hn Hne]. unfold id_ok in *.
  split; [done|split; [lia|]]. intros [-> ?]%Hp. rewrite Hpush. split_and!; [done| |done].
  unfold checked_add16. destruct (Z.leb_spec (ss_next_id st + 1) 0xFFFF); [by rewrite Hn|lia].
Qed.

Lemma many_strings_reads n len len' read read' skip count start st p st' :
  reads n read read' skip -> n <= len' -> 3 <= start -> id_ok st ->
  many_strings read len count start st = inl (p, st') ->
  start <= p /\ id_ok st' /\
  (p <= n -> many_strings read' len' count start st = inl (p, st') /\
             skip_strings skip count (ss_next_id st) start = Some (ss_next_id st', p)).
Proof.
  intros Hr Hn. revert start st. induction count as [|count IH]; intros start st Hs Hid; cbn [many_strings skip_strings].
  { intros [= -> ->]. split_and!; [lia|done|done]. }
  destruct (len <=? start); [done|]. destruct (one_string (read start) st) as [[p1 st1]|] eqn:Ho; [|done].
  destruct (one_string_reads _ _ _ _ _ _ _ _ Hr Hs Hid Ho) as (? & Hid1 & H1). intros Hm.
  destruct (IH p1 st1 ltac:(lia) Hid1 Hm) as (? & Hid' & H2). split_and!; [lia|done|]. intros Hp.
  destruct (H1 ltac:(lia)) as (-> & -> & Hsk). destruct (H2 Hp) as [Hm' Hk].
  destruct (Z.leb_spec len' start); [lia|]. split; [done|]. cbn [mbind option_bind]. by rewrite Hsk.
Qed.

Lemma agree_get_range n body body' a b r :
  agree n body body' -> get_range body a b = Some r -> 3 <= a -> b <= n -> get_range body' a b = Some r.
Proof.
  intros Hag (Hr & ->)%get_range_Some Ha Hb. apply get_range_Some. pose proof Hag as (_ & ? & _).
  split; [lia|]. symmetry. by apply (agree_sub n).
Qed.

Lemma strings_block_reads n body body' read read' skip at_ st p st' :
  agree n body body' -> reads n read read' skip -> 3 <= at_ -> id_ok st ->
  strings_block body read at_ st = inl (p, st') ->
  at_ < p /\ id_ok st' /\
  (p <= n -> strings_block body' read' at_ st = inl (p, st') /\
             skip_counted body skip at_ (ss_next_id st) = Some (ss_next_id st', p)).
Proof.
  intros Hag Hr Ha Hid. unfold strings_block, skip_counted, read_u16, read_u16_count.
  destruct (get_range body at_ (at_ + 2)) as [v|] eqn:Hv; cbn [mbind option_bind]; [|done]. intros Hm.
  pose proof Hag as (_ & Hn & _).
  assert (3 <= at_ + 2) as Ha2 by lia.
  destruct (many_strings_reads n _ _ _ _ _ _ _ _ _ _ Hr Hn Ha2 Hid Hm) as (? & Hid' & Hp).
  split_and!; [lia|done|]. intros Hpn. rewrite (agree_get_range n _ _ _ _ _ Hag Hv) by lia.
  cbn [mbind option_bind]. by apply Hp.
Qed.

Lemma skip_block_next st c p p' st' :
  0 <= c -> id_ok st -> skip_block st c p = inl (p', st') ->
  p' = p /\ checked_add16 (ss_next_id st) c = Some (ss_next_id st') /\ id_ok st'.
Proof.
  unfold skip_block, checked_add16, id_ok. intros Hc Hst. destruct (Z.leb_spec (ss_next_id st + c) 0xFFFF); [|done].
  intros [= <- <-]. cbn [ss_next_id]. split; [done|split; [done|lia]].
Qed.

Definition is_ext (op : byte) : bool := one_of op [SIBT_EXT1; SIBT_EXT2; SIBT_EXT4].

Ltac sibt_reduce :=
  repeat first [rewrite bool_decide_eq_true_2 by done | rewrite bool_decide_eq_false_2 by done].

(** A block that the parser passes, in a package with the same bytes up to the end of
    the block, and in the scan. *)
Lemma block_reads n body body' op pos st pos' st' :
  agree n body body' -> n < blen body -> 3 <= pos -> id_ok st -> is_ext op = false ->
  get body pos = Some op -> sibt_block body op pos st = inl (pos', st') ->
  pos < pos' /\ id_ok st' /\
  (pos' <= n -> sibt_block body' op pos st = inl (pos', st') /\
                scan_block body op pos (ss_next_id st) = Some (Some (ss_next_id st', pos'))).
Proof.
  intros Hag Hn Hpos Hid Hext Hop.
  pose proof (read_scsu_reads _ _ _ Hag Hn) as Hsc. pose proof (read_ucs2_reads _ _ _ Hag Hn) as Huc.
  assert (forall read read' skip start, reads n read read' skip -> pos < start ->
    one_string (read start) st = inl (pos', st') ->
    pos < pos' /\ id_ok st' /\ (pos' <= n -> one_string (read' start) st = inl (pos', st') /\
      (n ← checked_add16 (ss_next_id st) 1; Some (Some (n, skip start))) = Some (Some (ss_next_id st', pos')))) as Hone.
  { intros read read' skip start Hr Hlt Ho. assert (3 <= start) as H0 by lia.
    destruct (one_string_reads _ _ _ _ _ _ _ _ Hr H0 Hid Ho) as (? & ? & Hp).
    split_and!; [lia|done|]. intros (-> & -> & ->)%Hp. done. }
  assert (forall read read' skip at_, reads n read read' skip -> pos < at_ ->
    strings_block body read at_ st = inl (pos', st') ->
    pos < pos' /\ id_ok st' /\ (pos' <= n -> strings_block body' read' at_ st = inl (pos', st') /\
      Some <$> skip_counted body skip at_ (ss_next_id st) = Some (Some (ss_next_id st', pos')))) as Hmany.
  { intros read read' skip at_ Hr Hlt Hm. assert (3 <= at_) as H0 by lia.
    destruct (strings_block_reads _ _ _ _ _ _ _ _ _ _ Hag Hr H0 Hid Hm) as (? & ? & Hp).
    split_and!; [lia|done|]. intros (-> & ->)%Hp. done. }
  unfold sibt_block, scan_block.
  destruct (decide (op = SIBT_END)) as [->|]; [by sibt_reduce|].
  destruct (decide (op = SIBT_STRING_SCSU)) as [->|]; [sibt_reduce; by apply Hone; [|lia]|].
  destruct (decide (op = SIBT_STRING_SCSU_FONT)) as [->|]; [sibt_reduce; by apply Hone; [|lia]|].
  destruct (decide (op = SIBT_STRINGS_SCSU)) as [->|]; [sibt_reduce; by apply Hmany; [|lia]|].
  destruct (decide (op = SIBT_STRINGS_SCSU_FONT)) as [->|]; [sibt_reduce; by apply Hmany; [|lia]|].
  destruct (decide (op = SIBT_STRING_UCS2)) as [->|]; [sibt_reduce; by apply Hone; [|lia]|].
  destruct (decide (op = SIBT_STRING_UCS2_FONT)) as [->|]; [sibt_reduce; by apply Hone; [|lia]|].
  destruct (decide (op = SIBT_STRINGS_UCS2)) as [->|]; [sibt_reduce; by apply Hmany; [|lia]|].
  destruct (decide (op = SIBT_STRINGS_UCS2_FONT)) as [->|]; [sibt_reduce; by apply Hmany; [|lia]|].
  destruct (decide (op = SIBT_DUPLICATE)) as [->|].
  { sibt_reduce. unfold read_u16. destruct (get_range body (pos + 1) (pos + 1 + 2)) as [v|] eqn:Hv; [|done].
    cbn [mbind option_bind one_string]. destruct (push st _) as [st1|] eqn:Hpush; [|done]. intros [= <- ->].
    destruct (push_next _ _ _ Hpush) as [Hnx Hne]. unfold id_ok in *. split; [lia|split; [lia|]]. intros Hp.
    rewrite (agree_get_range n _ _ _ _ _ Hag Hv) by lia. cbn [mbind option_bind one_string]. rewrite Hpush.
    split; [done|]. unfold checked_add16. destruct (Z.leb_spec (ss_next_id st + 1) 0xFFFF); [|lia].
    cbn [mbind option_bind]. rewrite Hnx. do 3 f_equal. lia. }
  destruct (decide (op = SIBT_SKIP2)) as [->|].
  { sibt_reduce. unfold read_u16, read_u16_count. destruct (get_range body (pos + 1) (pos + 1 + 2)) as [v|] eqn:Hv; [|done].
    cbn [mbind option_bind]. intros Hsk. assert (0 <= le_dec v) as Hc by apply le_dec_bounds.
    pose proof (skip_block_next _ _ _ _ _ Hc Hid Hsk) as (-> & Hck & Hid').
    split_and!; [lia|done|]. intros Hp. rewrite (agree_get_range n _ _ _ _ _ Hag Hv) by lia.
    cbn [mbind option_bind]. split; [done|]. by rewrite Hck. }
  destruct (decide (op = SIBT_SKIP1)) as [->|].
  { sibt_reduce. intros Hsk.
    assert (0 <= default 0 (b2z <$> get body (pos + 1))) as Hc.
    { destruct (get body (pos + 1)) as [b|]; cbn; [pose proof (b2z_bounds b)|]; lia. }
    pose proof (skip_block_next _ _ _ _ _ Hc Hid Hsk) as (-> & Hck & Hid').
    split_and!; [lia|done|]. intros Hp. destruct Hag as (_ & _ & Hg). rewrite Hg by lia. split; [done|]. by rewrite Hck. }
  unfold is_ext, one_of in Hext. apply bool_decide_eq_false in Hext.
  rewrite !(bool_decide_eq_false_2 (op = _)) by (done || (intros ->; apply Hext; rewrite !elem_of_cons; tauto)). done.
Qed.

(** ** Runs of blocks *)

(** The parser passes the blocks from one state to another, none of them an END or an
    extension block. *)
Inductive plain_blocks (body : list byte) : Z * StringScan -> Z * StringScan -> Prop :=
| pb_nil s : plain_blocks body s s
| pb_cons pos st op pos' st' s :
    get body pos = Some op -> op <> SIBT_END -> is_ext op = false -> ss_next_id st <> 0xFFFF ->
    sibt_block body op pos st = inl (pos', st') -> plain_blocks body (pos', st') s ->
    plain_blocks body (pos, st) s.

Lemma plain_blocks_trans body s s' s'' :
  plain_blocks body s s' -> plain_blocks body s' s'' -> plain_blocks body s s''.
Proof. induction 1; [done|]. intros. eapply pb_cons; eauto. Qed.

Lemma block_progress body op pos st pos' st' :
  3 <= pos -> id_ok st -> get body pos = Some op -> is_ext op = false ->
  sibt_block body op pos st = inl (pos', st') -> pos < pos' /\ id_ok st'.
Proof.
  intros Hp Hid Hop Hext Hb. assert (0 <= pos < blen body) by (apply get_is_Some; by eexists).
  destruct (block_reads (blen body - 1) body body op pos st pos' st') as (? & ? & _); try done; [|lia].
  split_and!; done || lia.
Qed.

Lemma plain_blocks_agree n body body' s s' :
  agree n body body' -> n < blen body -> plain_blocks body s s' -> 3 <= fst s -> id_ok (snd s) -> fst s' <= n ->
  plain_blocks body' s s' /\ fst s <= fst s' /\ id_ok (snd s').
Proof.
  intros Hag Hn. induction 1 as [s|pos st op pos' st' s Hop Hne Hext Hid Hb _ IH]; [intros; split_and!; [constructor|lia|done]|].
  cbn [fst snd] in *. intros Hpos Hio He. assert (pos < pos' /\ id_ok st') as [Hlt Hio'] by by eapply block_progress.
  destruct IH as (Hbl & Hle & Hio''); [lia|done..|]. split_and!; [|lia|done].
  destruct (block_reads _ _ _ _ _ _ _ _ Hag Hn Hpos Hio Hext Hop Hb) as (_ & _ & [Hb' _]); [lia|].
  eapply pb_cons; try done. destruct Hag as (_ & _ & Hg). by rewrite Hg by lia.
Qed.

(** The parser and the scan run through the blocks to the END behind them. *)
Lemma loops_end body s e st' fuel :
  plain_blocks body s (e, st') -> get body e = Some SIBT_END -> 3 <= fst s -> id_ok (snd s) ->
  (Z.to_nat (blen body - fst s) < fuel)%nat ->
  loop fuel (string_step body) s = Ok st' /\
  loop fuel (sibt_step body) (ss_next_id (snd s), fst s) = Ok (Some (ss_next_id st', e)).
Proof.
  remember (e, st') as s' eqn:Hs'. intros Hb. revert fuel.
  induction Hb as [s|pos st op pos' st1 s Hop Hne Hext Hid Hb Hrest IH]; intros [|fuel] He Hpos Hio Hf; subst; try lia; cbn [fst snd] in *.
  - assert (0 <= e < blen body) by (apply get_is_Some; by eexists). cbn [loop]. unfold string_step, sibt_step.
    destruct (Z.ltb_spec e (blen body)); [|lia]. rewrite (index_eq _ _ _ He). cbn [mbind outcome_bind].
    by sibt_reduce.
  - assert (0 <= pos < blen body) by (apply get_is_Some; by eexists).
    assert (pos < pos' /\ id_ok st1) as [Hlt Hio'] by by eapply block_progress.
    destruct (IH eq_refl fuel He ltac:(lia) Hio' ltac:(lia)) as [Hl Hl'].
    assert (pos' <= e) as Hpe.
    { clear -Hrest Hio' Hlt Hpos He. remember (e, st') as s' eqn:Hs'. remember (pos', st1) as s0 eqn:Hs0.
      assert (3 <= fst s0 /\ id_ok (snd s0)) as [H0 Hi] by (subst; cbn; split; [lia|done]).
      assert (fst s0 <= fst s'); [|by subst]. clear Hs' Hs0 Hio' Hlt.
      induction Hrest as [s|p t op p' t' s Hop Hne Hext Hid Hb _ IH]; [done|]. cbn [fst snd] in *.
      assert (p < p' /\ id_ok t') as [? ?] by by eapply block_progress. specialize (IH ltac:(lia) ltac:(done)). lia. }
    assert (0 <= e < blen body) by (apply get_is_Some; by eexists).
    assert (agree (blen body - 1) body body) as Hag by (unfold agree; split_and!; done || lia).
    destruct (block_reads _ _ _ op pos st pos' st1 Hag ltac:(lia) Hpos Hio Hext Hop Hb) as (_ & _ & Hsc).
    destruct (Hsc ltac:(lia)) as [_ Hscan]. cbn [loop].
    assert (string_step body (pos, st) = Ok (inl (pos', st1))) as ->.
    { unfold string_step. destruct (Z.ltb_spec pos (blen body)); [|lia]. rewrite (index_eq _ _ _ Hop). cbn [mbind outcome_bind].
      rewrite (bool_decide_eq_false_2 _ Hne). destruct (Z.eqb_spec (ss_next_id st) 0xFFFF); [done|]. cbn [negb andb]. by rewrite Hb. }
    assert (sibt_step body (ss_next_id st, pos) = Ok (inl (ss_next_id st1, pos'))) as ->; [|done].
    unfold sibt_step. destruct (Z.ltb_spec pos (blen body)); [|lia]. rewrite (index_eq _ _ _ Hop). cbn [mbind outcome_bind].
    by rewrite (bool_decide_eq_false_2 _ Hne), Hscan.
Qed.

(** ** New strings *)

Fixpoint number (id : Z) (texts : list ustring) : list (Z * ustring) :=
  match texts with [] => [] | t :: texts => (id, t) :: number (id + 1) texts end.

Lemma take_while_stop {A} (p : A -> bool) l x k :
  Forall (fun a => p a = true) l -> p x = false -> take_while p (l ++ x :: k) = l.
Proof. intros Hl Hx. induction Hl as [|a l Ha _ IH]; cbn; [by rewrite Hx|]. by rewrite Ha, IH. Qed.

Lemma new_block pre t suf st :
  text_ok t -> ss_next_id st < 0xFFFF ->
  exists st', sibt_block (pre ++ build_scsu_block t ++ suf) SIBT_STRING_SCSU (blen pre) st =
                inl (blen pre + blen (build_scsu_block t), st') /\
    ss_strings st' = ss_strings st ++ [(ss_next_id st, t)] /\ ss_next_id st' = ss_next_id st + 1.
Proof.
  intros Ht Hid. destruct (text_ok_bytes t Ht) as [Hloss Hnz]. unfold sibt_block. sibt_reduce.
  set (body := pre ++ build_scsu_block t ++ suf). pose proof (blen_nonneg pre). pose proof (blen_nonneg suf).
  pose proof (blen_nonneg (as_bytes t)).
  assert (blen (build_scsu_block t) = blen (as_bytes t) + 2) as Hbl.
  { unfold build_scsu_block. rewrite !blen_app. change (blen [_]) with 1. change (blen [x00]) with 1. lia. }
  assert (blen body = blen pre + blen (as_bytes t) + 2 + blen suf) as Hlen by (unfold body; rewrite !blen_app; lia).
  assert (scsu_bytes body (blen pre + 1) = as_bytes t) as Hsc.
  { unfold scsu_bytes. assert (sub body (blen pre + 1) (blen body) = as_bytes t ++ x00 :: suf) as ->.
    { assert (body = (pre ++ [SIBT_STRING_SCSU]) ++ as_bytes t ++ x00 :: suf) as Hb.
      { unfold body, build_scsu_block. by rewrite <-!app_assoc. }
      assert (blen (pre ++ [SIBT_STRING_SCSU]) = blen pre + 1) as Hp by (rewrite blen_app; done).
      rewrite Hb, blen_app, <-Hp. apply sub_app_rest. }
    by apply take_while_stop. }
  unfold read_scsu. destruct (Z.leb_spec (blen body) (blen pre + 1)); [lia|]. rewrite Hsc, Hloss.
  destruct (Z.ltb_spec (blen pre + 1 + blen (as_bytes t)) (blen body)); [|lia].
  unfold one_string, push. destruct (Z.eqb_spec (ss_next_id st) 0xFFFF); [lia|].
  eexists. split; [f_equal; f_equal; lia|done].
Qed.

Definition blocks (texts : list ustring) : list byte := concat (map build_scsu_block texts).

Lemma new_blocks texts pre suf st :
  Forall text_ok texts -> ss_next_id st + blen texts <= 0xFFFF ->
  exists st', plain_blocks (pre ++ blocks texts ++ suf) (blen pre, st) (blen pre + blen (blocks texts), st') /\
    ss_strings st' = ss_strings st ++ number (ss_next_id st) texts /\ ss_next_id st' = ss_next_id st + blen texts.
Proof.
  intros Hall. revert pre st. induction Hall as [|t texts Ht _ IH]; intros pre st Hid.
  { exists st. unfold blocks. cbn [map concat number]. rewrite blen_nil, app_nil_r, !Z.add_0_r. split_and!; [constructor|done..]. }
  rewrite blen_cons in *. pose proof (blen_nonneg texts).
  destruct (new_block pre t (blocks texts ++ suf) st Ht ltac:(lia)) as (st1 & Hb & Hs1 & Hn1).
  destruct (IH (pre ++ build_scsu_block t) st1 ltac:(lia)) as (st' & Hbl & Hs & Hn).
  assert (blocks (t :: texts) = build_scsu_block t ++ blocks texts) as -> by done.
  exists st'. split_and!; [|rewrite Hs, Hs1, Hn1; cbn [number]; by rewrite <-app_assoc|lia].
  rewrite <-!app_assoc in *. rewrite blen_app, Z.add_assoc. rewrite blen_app in Hbl.
  eapply (pb_cons _ _ _ SIBT_STRING_SCSU); [|done|done|lia|exact Hb|exact Hbl].
  rewrite get_app_r by lia. rewrite Z.sub_diag. done.
Qed.

(** ** Adding strings *)

Lemma add_string_eq pre suf next ids t :
  next + 1 <= 0xFFFF ->
  add_string (pre ++ suf, blen pre, next, ids) t =
    Ok (pre ++ build_scsu_block t ++ suf, blen pre + blen (build_scsu_block t), next + 1, <[t := next]> ids).
Proof.
  intros Hn. unfold add_string, add16, checked_add16. destruct (Z.leb_spec (next + 1) 0xFFFF); [|lia].
  cbn [unwrap mbind outcome_bind]. unfold append_scsu_string, splice_in. pose proof (blen_nonneg pre). pose proof (blen_nonneg suf).
  assert ((0 <=? blen pre) && (blen pre <=? blen (pre ++ suf)) = true) as -> by (rewrite blen_app; lia).
  assert (Z.to_nat (blen pre) = length pre) as -> by (unfold blen; lia).
  by rewrite take_app_length, drop_app_length.
Qed.

Lemma fold_blocks texts pre suf next ids :
  next + blen texts <= 0xFFFF ->
  exists ids', foldM (E := StringIdExhausted) add_string texts (pre ++ suf, blen pre, next, ids) =
      Ok (pre ++ blocks texts ++ suf, blen pre + blen (blocks texts), next + blen texts, ids') /\
    (forall t, t ∈ texts -> exists id, ids' !! t = Some id /\ (id, t) ∈ number next texts) /\
    (forall t, t ∉ texts -> ids' !! t = ids !! t).
Proof.
  revert pre next ids. induction texts as [|t texts IH]; intros pre next ids Hn.
  { exists ids. unfold blocks. cbn [map concat foldM]. rewrite !blen_nil, !Z.add_0_r. split_and!; [done| |done].
    by intros t Ht%elem_of_nil. }
  rewrite blen_cons in *. pose proof (blen_nonneg texts). pose proof (blen_nonneg pre). pose proof (blen_nonneg suf).
  destruct (IH (pre ++ build_scsu_block t) (next + 1) (<[t := next]> ids)) as (ids' & Hf & Hin & Hout); [lia|].
  exists ids'. split_and!.
  - cbn [foldM]. rewrite add_string_eq by lia. cbn [mbind outcome_bind].
    rewrite app_assoc, <-(blen_app pre), Hf.
    assert (blocks (t :: texts) = build_scsu_block t ++ blocks texts) as -> by done. rewrite <-!app_assoc, !blen_app.
    by rewrite !Z.add_assoc.
  - intros t' Ht'. cbn [number]. destruct (decide (t' ∈ texts)) as [Hi|Hi].
    + destruct (Hin _ Hi) as (id & ? & ?). exists id. split; [done|]. by right.
    + apply elem_of_cons in Ht' as [->|?]; [|done]. exists next. rewrite Hout by done. rewrite lookup_insert_eq. split; [done|by left].
  - intros t' [Hne Hni]%not_elem_of_cons. rewrite Hout by done. by rewrite lookup_insert_ne.
Qed.

Definition scan_start : StringScan := {| ss_strings := []; ss_by_id := ∅; ss_next_id := 1 |}.

(** Both readers find the blocks at the same place. *)
Lemma string_info_same body :
  12 <= string_info body < blen body -> string_info_offset body = string_info body.
Proof.
  unfold string_info_offset, string_info. destruct (read_u32 body STRING_INFO_OFFSET_POS) as [o|]; [|done].
  unfold HEADER_LEN. destruct ((4 <=? o) && (o <=? blen body)) eqn:Hb; [|lia]. bool_to_prop. intros ?.
  by assert ((4 <=? o) && (o <? blen body) = true) as -> by lia.
Qed.

Lemma string_info_agree n body body' :
  agree n body body' -> blen body <= blen body' -> 12 <= string_info body <= n -> string_info body' = string_info body.
Proof.
  intros Hag Hl. unfold string_info, read_u32, STRING_INFO_OFFSET_POS.
  destruct (get_range body 8 (8 + 4)) as [v|] eqn:Hv; cbn [fmap option_fmap option_map]; [|unfold HEADER_LEN; lia].
  intros Hi. destruct ((HEADER_LEN <=? le_dec v) && (le_dec v <=? blen body)) eqn:Hb; [|unfold HEADER_LEN in Hi; lia].
  bool_to_prop. rewrite (agree_get_range n _ _ _ _ _ Hag Hv) by lia. cbn [fmap option_fmap option_map].
  by assert ((HEADER_LEN <=? le_dec v) && (le_dec v <=? blen body') = true) as -> by lia.
Qed.

Lemma span_fits next n :
  0 <= next -> 1 <= n ->
  match (if n - 1 <=? 0xFFFF then checked_add16 next (n - 1) else None) with
  | Some last => last <=? 0xFFFE | None => false
  end = (next + (n - 1) <=? 0xFFFE).
Proof.
  intros. unfold checked_add16. destruct (Z.leb_spec (n - 1) 0xFFFF), (Z.leb_spec (next + (n - 1)) 0xFFFF); lia.
Qed.

(** The package with new blocks in front of its END. *)
Definition with_blocks (body : list byte) (e : Z) (texts : list ustring) : list byte :=
  take (Z.to_nat e) body ++ blocks texts ++ drop (Z.to_nat e) body.

Lemma blen_take_drop (body : list byte) e :
  0 <= e <= blen body -> blen (take (Z.to_nat e) body) = e /\ blen (drop (Z.to_nat e) body) = blen body - e.
Proof. unfold blen. rewrite length_take, length_drop. lia. Qed.

Lemma with_blocks_plain body e texts st body' :
  12 <= string_info body <= e -> e < blen body -> id_ok st -> Forall text_ok texts ->
  ss_next_id st + blen texts <= 0xFFFF ->
  plain_blocks body (string_info body, scan_start) (e, st) -> get body e = Some SIBT_END ->
  blen body' = blen (with_blocks body e texts) -> (forall k, 3 <= k -> get body' k = get (with_blocks body e texts) k) ->
  agree e body body' /\ get body' (e + blen (blocks texts)) = Some SIBT_END /\
  exists st', plain_blocks body' (string_info body, scan_start) (e + blen (blocks texts), st') /\
    ss_strings st' = ss_strings st ++ number (ss_next_id st) texts.
Proof.
  intros Hinfo He Hio Hall Hfit Hbl Hend Hl Hg3. destruct (blen_take_drop body e ltac:(lia)) as [Hpe Hse].
  pose proof (blen_nonneg (blocks texts)). set (q := with_blocks body e texts) in *. set (pre := take (Z.to_nat e) body) in *.
  set (suf := drop (Z.to_nat e) body) in *.
  assert (blen q = blen body + blen (blocks texts)) as Hq by (unfold q, with_blocks; fold pre suf; rewrite !blen_app; lia).
  assert (agree e body body') as Hag.
  { split_and!; [lia|lia|lia|]. intros k Hk. rewrite Hg3 by lia. unfold q, with_blocks. fold pre. rewrite get_app_l by lia.
    unfold pre. by apply get_take; lia. }
  assert (get q (e + blen (blocks texts)) = Some SIBT_END) as Hqend.
  { unfold q, with_blocks. fold pre suf. rewrite !get_app_r by lia. unfold suf. rewrite get_drop by lia. rewrite <-Hend. f_equal. lia. }
  destruct (new_blocks texts pre suf st Hall Hfit) as (st' & Hnb & Hs' & Hn'). rewrite Hpe in Hnb.
  change (pre ++ blocks texts ++ suf) with q in Hnb.
  assert (agree (e + blen (blocks texts)) q body') as Hagq by (unfold agree; split_and!; try lia; intros; apply Hg3; lia).
  split; [done|split; [by rewrite Hg3 by lia|]]. exists st'. split; [|done].
  assert (id_ok scan_start) as Hio0 by (by unfold id_ok). eapply plain_blocks_trans.
  - eapply (plain_blocks_agree e); [done|lia|exact Hbl|cbn; lia|done|cbn; lia].
  - eapply (plain_blocks_agree (e + blen (blocks texts))); [done|lia|exact Hnb|cbn; lia|done|cbn; lia].
Qed.

Lemma with_blocks_parse body e texts st body' :
  is_string_package body = true -> 12 <= string_info body <= e -> e < blen body -> id_ok st -> Forall text_ok texts ->
  ss_next_id st + blen texts <= 0xFFFF ->
  plain_blocks body (string_info body, scan_start) (e, st) -> get body e = Some SIBT_END ->
  blen body' = blen (with_blocks body e texts) -> (forall k, 3 <= k -> get body' k = get (with_blocks body e texts) k) ->
  parse_string_package body' =
    Ok (Some {| sp_language := read_language body LANGUAGE_OFFSET (string_info body);
                sp_strings := ss_strings st ++ number (ss_next_id st) texts |}).
Proof.
  intros Hsp Hinfo He Hio Hall Hfit Hbl Hend Hl Hg3.
  destruct (with_blocks_plain body e texts st body') as (Hag & Hend' & st' & Hbl' & Hs'); try done.
  pose proof (blen_nonneg (blocks texts)). destruct (blen_take_drop body e ltac:(lia)) as [Hpe Hse].
  assert (blen body' = blen body + blen (blocks texts)) as Hl' by (rewrite Hl; unfold with_blocks; rewrite !blen_app; lia).
  assert (string_info body' = string_info body) as Hsame by (apply (string_info_agree e); [done|lia|lia]).
  assert (is_string_package body' = true) as Hsp'.
  { unfold is_string_package in *. bool_to_prop. apply andb_true_intro. split; [lia|]. apply bool_decide_eq_true.
    destruct Hag as (_ & _ & Hagk). rewrite Hagk by lia. done. }
  unfold parse_string_package. rewrite Hsp'. cbn [negb]. fold scan_start. rewrite Hsame.
  destruct (loops_end body' (string_info body, scan_start) _ st' (length body' + 1) Hbl') as [-> _];
    [exact Hend'|cbn; lia|by unfold id_ok|cbn [fst]; unfold blen; lia|].
  cbn [mbind outcome_bind]. unfold mret, outcome_ret. rewrite Hs'. do 3 f_equal.
  unfold read_language, LANGUAGE_OFFSET. do 2 f_equal. rewrite !Z.min_l by lia. apply (agree_sub e); [done|lia|lia].
Qed.

(** C29. Strings added to a package whose blocks run to an END without extension blocks:
    when the identifiers are exhausted, nothing changes and the next one is reported;
    otherwise the package reads back with the same language and the old strings followed
    by the new ones under consecutive identifiers, and every new string is mapped to one
    of its identifiers. *)
Theorem add_strings_reads_back body texts e st :
  is_string_package body = true -> 12 <= string_info body ->
  plain_blocks body (string_info body, scan_start) (e, st) -> get body e = Some SIBT_END ->
  texts <> [] -> Forall text_ok texts ->
  exists lang, parse_string_package body = Ok (Some {| sp_language := lang; sp_strings := ss_strings st |}) /\
    match add_strings_to_body body texts with
    | Ok (body', ids) =>
        parse_string_package body' =
          Ok (Some {| sp_language := lang; sp_strings := ss_strings st ++ number (ss_next_id st) texts |}) /\
        (forall t, t ∈ texts -> exists id, ids !! t = Some id /\ (id, t) ∈ number (ss_next_id st) texts) /\
        blen body' = blen body + blen (blocks texts)
    | Err err => 0xFFFE < ss_next_id st + blen texts - 1 /\
        err = {| sie_next := ss_next_id st; sie_requested := blen texts |}
    | Panic | Diverge => False
    end.
Proof.
  intros Hsp H12 Hbl Hend Hne Hall.
  assert (0 <= e < blen body) as He by (apply get_is_Some; by eexists).
  assert (agree (blen body - 1) body body) as Hag0 by (unfold agree; split_and!; done || lia).
  assert (id_ok scan_start) as Hio0 by (by unfold id_ok).
  destruct (plain_blocks_agree _ _ _ _ _ Hag0 ltac:(lia) Hbl ltac:(cbn; lia) Hio0 ltac:(cbn; lia)) as (_ & Hle & Hio).
  cbn [fst snd] in Hle, Hio.
  destruct (loops_end body (string_info body, scan_start) e st (length body + 1) Hbl Hend) as [Hparse Hscan];
    [cbn; lia|done|cbn [fst]; unfold blen; lia|]. cbn [fst snd] in Hscan. change (ss_next_id scan_start) with 1 in Hscan.
  exists (read_language body LANGUAGE_OFFSET (string_info body)). split.
  { unfold parse_string_package. rewrite Hsp. cbn [negb]. fold scan_start. by rewrite Hparse. }
  assert (string_info_offset body = string_info body) as Hoff by (apply string_info_same; lia).
  destruct texts as [|t0 texts0]; [done|]. set (texts := t0 :: texts0) in *. unfold add_strings_to_body.
  change (match texts with [] => _ | _ => ?r end) with r. rewrite Hoff. unfold scan_sibt. rewrite Hscan.
  cbn [lift map_err mbind outcome_bind]. pose proof (blen_nonneg texts).
  assert (1 <= blen texts) by (unfold texts in *; rewrite blen_cons in *; pose proof (blen_nonneg texts0); lia).
  rewrite span_fits by (destruct Hio; lia). destruct (Z.leb_spec (ss_next_id st + (blen texts - 1)) 0xFFFE) as [Hfit|]; [|split; [lia|done]].
  destruct (blen_take_drop body e ltac:(lia)) as [Hpe Hse].
  destruct (fold_blocks texts (take (Z.to_nat e) body) (drop (Z.to_nat e) body) (ss_next_id st) ∅) as (ids & Hf & Hin & _); [lia|].
  rewrite take_drop, Hpe in Hf. rewrite Hf. cbn [mbind outcome_bind]. fold (with_blocks body e texts).
  set (q := with_blocks body e texts). pose proof (blen_nonneg (blocks texts)).
  assert (blen q = blen body + blen (blocks texts)) as Hq by (unfold q, with_blocks; rewrite !blen_app; lia).
  destruct (set_u24_get q (wrap 32 (blen q))) as (body' & Hset & Hl & Hg); [lia|]. unfold update_package_length. rewrite Hset.
  cbn [lift map_err mbind outcome_bind]. unfold mret, outcome_ret. split; [|split; [done|lia]].
  apply (with_blocks_parse body e); try done; [lia|lia|].
  intros k Hk. rewrite Hg. destruct (Z.eqb_spec k 2), (Z.eqb_spec k 1), (Z.eqb_spec k 0); done || lia.
Qed.

End StringFacts.

(** Question records of the [$SPF] container: the scan is total and reads every position
    on its own, and an appended record is found behind the old ones with the values it
    was written with. *)

Section SpfFacts.
Context {GL : GuidLib}.

(** The record at a position. *)
Definition record_at (body : list byte) (p : Z) : list SpfQuestionRecord :=
  let qid := le_dec (sub body p (p + 4)) in
  if bool_decide (sub body (p + 36) (p + 44) = SPF_SIGNATURE) && bool_decide (sub body (p + 44) (p + 48) = SPF_TAIL)
     && negb ((qid =? 0) || (0xFFFF <? qid))
  then [{| qr_offset := p; qr_question_id := qid; qr_ifr_offset := le_dec (sub body (p + 28) (p + 32));
           qr_failsafe := default x00 (get body (p + 52)); qr_optimal := default x00 (get body (p + 53)) |}]
  else [].

Lemma slice_eq {E A} (l : list A) a b : 0 <= a <= b -> b <= blen l -> slice (E := E) l a b = Ok (sub l a b).
Proof. intros. unfold slice. by rewrite (proj2 (range_ok_spec _ _ _)) by lia. Qed.

Lemma get_default (l : list byte) i : 0 <= i < blen l -> get l i = Some (default x00 (get l i)).
Proof. intros [b Hb]%get_is_Some. by rewrite Hb. Qed.

Lemma question_record_eq body out p :
  0 <= p -> p + SPF_RECORD_SIZE <= blen body -> question_record body out p = Ok (out ++ record_at body p).
Proof.
  unfold SPF_RECORD_SIZE. intros Hp Hle. unfold question_record, record_at.
  unfold SPF_RECORD_IFR_OFFSET, SPF_RECORD_FAILSAFE, SPF_RECORD_OPTIMAL.
  rewrite !slice_eq by lia. cbn [mbind outcome_bind].
  destruct (bool_decide (sub body (p + 36) (p + 44) = SPF_SIGNATURE)); cbn [negb andb orb]; [|by rewrite app_nil_r].
  destruct (bool_decide (sub body (p + 44) (p + 48) = SPF_TAIL)); cbn [negb andb]; [|by rewrite app_nil_r].
  destruct (_ || _); cbn [negb]; [by rewrite app_nil_r|].
  rewrite (index_eq _ _ _ (get_default body (p + 52) ltac:(lia))), (index_eq _ _ _ (get_default body (p + 53) ltac:(lia))).
  cbn [mbind outcome_bind mret outcome_ret]. do 6 f_equal. lia.
Qed.

(** The scan reads all positions in order. *)
Lemma scan_question_records_eq body :
  scan_question_records body =
    Ok (concat (record_at body <$> upto_n (blen body - SPF_RECORD_SIZE + 1))).
Proof.
  unfold scan_question_records, SPF_RECORD_SIZE. destruct (Z.ltb_spec (blen body) 72) as [Hs|Hs].
  { unfold upto_n. by replace (Z.to_nat (blen body - 72 + 1)) with 0%nat by lia. }
  unfold upto_n. assert (Z.of_nat (Z.to_nat (blen body - 72 + 1)) + 71 <= blen body) as Hn by lia.
  revert Hn. generalize (Z.to_nat (blen body - 72 + 1)). intros n Hn.
  assert (forall l out, (forall k, In k l -> (k < n)%nat) ->
    foldM (question_record body) (Z.of_nat <$> l) out = Ok (out ++ concat (record_at body <$> (Z.of_nat <$> l)))) as Hl.
  { induction l as [|k l IH]; intros out Hk; cbn [fmap list_fmap foldM concat]; [by rewrite app_nil_r|].
    pose proof (Hk k (or_introl eq_refl)). rewrite question_record_eq by (unfold SPF_RECORD_SIZE; lia).
    cbn [mbind outcome_bind]. rewrite IH by (intros; apply Hk; by right). by rewrite <-app_assoc. }
  apply (Hl _ []). intros k Hk. apply in_seq in Hk. lia.
Qed.

Lemma record_at_app body k p :
  0 <= p -> p + SPF_RECORD_SIZE <= blen body -> record_at (body ++ k) p = record_at body p.
Proof.
  unfold SPF_RECORD_SIZE. intros. unfold record_at. rewrite !sub_app_l by lia. by rewrite !get_app_l by lia.
Qed.
Lemma record_at_shift body k :
  record_at (body ++ k) (blen body) =
    map (fun r => {| qr_offset := blen body; qr_question_id := qr_question_id r; qr_ifr_offset := qr_ifr_offset r;
                     qr_failsafe := qr_failsafe r; qr_optimal := qr_optimal r |}) (record_at k 0).
Proof.
  pose proof (blen_nonneg body). unfold record_at. rewrite !sub_app_r by lia. rewrite !get_app_r by lia.
  replace (blen body - blen body) with 0 by lia.
  repeat match goal with |- context [blen body + ?n - blen body] => replace (blen body + n - blen body) with n by lia end.
  cbn [Z.add]. by destruct (_ && _ && _).
Qed.

Lemma upto_n_app n m : 0 <= n -> 0 <= m -> upto_n (n + m) = upto_n n ++ ((fun k => n + k) <$> upto_n m).
Proof.
  intros. unfold upto_n. rewrite Z2Nat.inj_add, seq_app, fmap_app by done. f_equal.
  rewrite <-list_fmap_compose. cbn [Nat.add]. rewrite <-(Nat.add_0_r (Z.to_nat n)) at 1.
  generalize (Z.to_nat m) as k, 0%nat as j. intros k. induction k as [|k IH]; intros j; [done|].
  cbn [seq fmap list_fmap]. f_equal; [cbn; lia|]. rewrite <-Nat.add_succ_r. apply IH.
Qed.

(** The new record: a copy of the template with its fields replaced. *)
Lemma new_record rec qid help prompt ifr counter failsafe optimal :
  blen rec = SPF_RECORD_SIZE -> 0 < qid <= 0xFFFF -> 0 <= ifr < 2 ^ 32 ->
  sub rec 36 44 = SPF_SIGNATURE -> sub rec 44 48 = SPF_TAIL ->
  exists rec', blen rec' = SPF_RECORD_SIZE /\
    (rec ← copy_into rec 0 4 (le_enc 4 qid);
     rec ← copy_into rec SPF_RECORD_HELP_ID (SPF_RECORD_HELP_ID + 2) (le_enc 2 help);
     rec ← copy_into rec SPF_RECORD_PROMPT_ID_OFFSET (SPF_RECORD_PROMPT_ID_OFFSET + 2) (le_enc 2 prompt);
     rec ← copy_into rec SPF_RECORD_IFR_OFFSET (SPF_RECORD_IFR_OFFSET + 4) (le_enc 4 ifr);
     rec ← copy_into rec SPF_RECORD_COUNTER_OFFSET (SPF_RECORD_COUNTER_OFFSET + 4) (le_enc 4 counter);
     rec ← set_at rec SPF_RECORD_FAILSAFE failsafe;
     set_at rec SPF_RECORD_OPTIMAL optimal : pure (list byte)) = Ok rec' /\
    record_at rec' 0 = [{| qr_offset := 0; qr_question_id := qid; qr_ifr_offset := ifr;
                           qr_failsafe := failsafe; qr_optimal := optimal |}].
Proof.
  intros Hl Hq Hi Hsig Htail. assert (length rec = 72%nat) as Hlen by (unfold blen, SPF_RECORD_SIZE in Hl; lia). clear Hl.
  do 72 (destruct rec as [|? rec]; [discriminate Hlen|]). destruct rec; [|discriminate Hlen]. clear Hlen.
  eexists. split; [|split; [reflexivity|]]; [done|].
  match goal with |- record_at ?b 0 = _ => set (body := b) end. unfold record_at.
  assert (sub body (0 + 36) (0 + 44) = SPF_SIGNATURE) as -> by exact Hsig.
  assert (sub body (0 + 44) (0 + 48) = SPF_TAIL) as -> by exact Htail.
  assert (sub body 0 (0 + 4) = le_enc 4 qid) as -> by done.
  assert (sub body (0 + 28) (0 + 32) = le_enc 4 ifr) as -> by done.
  rewrite !le_dec_enc_small by (cbn; lia). rewrite !bool_decide_eq_true_2 by done. cbn [andb].
  destruct (Z.eqb_spec qid 0), (Z.ltb_spec 0xFFFF qid); try lia. done.
Qed.

(** A record appended to a container after a valid template is a step that cannot
    fail; it returns the old length relative to the container, keeps every byte, and the
    scan of the new container finds the old records, then at most records that straddle
    the old end, and last the new one with the values it was written with. *)
Theorem append_record_scanned body base template qid help prompt ifr counter failsafe optimal :
  container_start body = Some base -> 0 <= base + template ->
  let src := base + template in
  src + SPF_RECORD_SIZE <= blen body ->
  sub body (src + 36) (src + 44) = SPF_SIGNATURE -> sub body (src + 44) (src + 48) = SPF_TAIL ->
  0 < qid <= 0xFFFF -> 0 <= ifr < 2 ^ 32 ->
  exists rec old mid,
    append_question_record body template qid help prompt ifr counter failsafe optimal =
      Ok (body ++ rec, blen body - base) /\ blen rec = SPF_RECORD_SIZE /\
    scan_question_records body = Ok old /\
    scan_question_records (body ++ rec) =
      Ok (old ++ mid ++ [{| qr_offset := blen body; qr_question_id := qid; qr_ifr_offset := ifr;
                            qr_failsafe := failsafe; qr_optimal := optimal |}]) /\
    Forall (fun r => blen body - SPF_RECORD_SIZE < qr_offset r < blen body) mid.
Proof.
  intros Hbase Hsrc src Hle Hsig Htail Hq Hi. unfold SPF_RECORD_SIZE in *.
  destruct (new_record (sub body src (src + 72)) qid help prompt ifr counter failsafe optimal) as (rec & Hrl & Hrec & Hat);
    [rewrite blen_sub; unfold SPF_RECORD_SIZE; lia|done|done|rewrite sub_sub by lia; done|rewrite sub_sub by lia; done|].
  exists rec. eexists.
  exists (concat (record_at (body ++ rec) <$> ((fun k => (blen body - 72 + 1) + k) <$> upto_n 71))).
  split; [|split; [done|split; [apply scan_question_records_eq|split]]].
  - unfold append_question_record. rewrite Hbase. cbn [unwrap mbind outcome_bind]. fold src. unfold SPF_RECORD_SIZE.
    rewrite slice_eq by lia. cbn [mbind outcome_bind].
    apply bind_Ok in Hrec as (r1 & -> & Hrec). cbn [mbind outcome_bind].
    do 5 (apply bind_Ok in Hrec as (? & Hw & Hrec); rewrite Hw; clear Hw; cbn [mbind outcome_bind]).
    by rewrite Hrec.
  - rewrite scan_question_records_eq. f_equal. rewrite blen_app, Hrl. unfold SPF_RECORD_SIZE.
    replace (blen body + 72 - 72 + 1) with ((blen body - 72 + 1) + (71 + 1)) by lia.
    rewrite upto_n_app, (upto_n_app 71 1), !fmap_app, !concat_app by lia. f_equal; [|f_equal].
    + f_equal. apply list_fmap_ext. intros i x Hx. apply list_elem_of_lookup_2 in Hx.
      unfold upto_n in Hx. apply list_elem_of_fmap in Hx as (n & -> & Hn%elem_of_seq). apply record_at_app; [lia|].
      unfold SPF_RECORD_SIZE. lia.
    + change (upto_n 1) with [0]. cbn [fmap list_fmap concat]. rewrite app_nil_r.
      replace (blen body - 72 + 1 + (71 + 0)) with (blen body) by lia. by rewrite record_at_shift, Hat.
  - apply Forall_concat, Forall_fmap, Forall_fmap, Forall_forall. intros k Hk. unfold upto_n in Hk.
    apply list_elem_of_fmap in Hk as (n & -> & Hn%elem_of_seq). unfold compose, record_at.
    destruct (_ && _ && _); [|constructor]. apply Forall_singleton. cbn [qr_offset]. lia.
Qed.

End SpfFacts.
