(* ===== verification/PeFacts.v ===== *)
(** Growth of the resource section of a PE image: which bytes of the image move, which
    change, and that every section keeps its contents. *)
From Stdlib Require Import Sorting.Sorted.
From S2P Require Import Prelude Text Types Ffs Hii Ifr Gates PeResource HiiFacts.

(** ** Writes and moves *)

Section Writes.

(** The writes of 32-bit fields, one after the other. *)
Definition write_all (ws : list (Z * Z)) (pe : list byte) : pure (list byte) :=
  foldM (fun pe w => write_le_u32 pe (fst w) (snd w)) ws pe.
Lemma write_all_cons w ws pe :
  write_all (w :: ws) pe = (pe ← write_le_u32 pe (fst w) (snd w); write_all ws pe).
Proof. done. Qed.
(** Two fields are the same with the same value, or disjoint. *)
Definition apart (w w' : Z * Z) : Prop := w = w' \/ fst w + 4 <= fst w' \/ fst w' + 4 <= fst w.
(** The position is in none of the fields. *)
Definition outside (ws : list (Z * Z)) (k : Z) : Prop :=
  Forall (fun w => ~ (fst w <= k < fst w + 4)) ws.

Lemma write_u32_eq pe off v :
  0 <= off -> off + 4 <= blen pe -> write_le_u32 pe off v = Ok (splice pe off (le_enc 4 v)).
Proof. intros. apply copy_into_Ok. rewrite blen_le_enc. split_and!; done || lia. Qed.

Lemma get_field pe off v k :
  0 <= off -> off + 4 <= blen pe ->
  get (splice pe off (le_enc 4 v)) k
  = if (off <=? k) && (k <? off + 4) then get (le_enc 4 v) (k - off) else get pe k.
Proof. intros. rewrite get_splice by (rewrite ?blen_le_enc; lia). by rewrite blen_le_enc. Qed.

Lemma write_all_spec ws : forall pe,
  Forall (fun w => 0 <= fst w /\ fst w + 4 <= blen pe) ws ->
  exists pe', write_all ws pe = Ok pe' /\ blen pe' = blen pe /\
    (forall k, outside ws k -> get pe' k = get pe k) /\
    ((forall w w', w ∈ ws -> w' ∈ ws -> apart w w') ->
     forall w, w ∈ ws -> sub pe' (fst w) (fst w + 4) = le_enc 4 (snd w)).
Proof.
  induction ws as [|w ws IH]; intros pe Hin.
  { exists pe. split_and!; try done. intros _ w Hw. by apply elem_of_nil in Hw. }
  apply Forall_cons in Hin as [[H0 H4] Hin]. rewrite write_all_cons.
  rewrite write_u32_eq by lia. cbn [mbind outcome_bind].
  assert (blen (splice pe (fst w) (le_enc 4 (snd w))) = blen pe) as Hl
    by (rewrite blen_splice; rewrite ?blen_le_enc; lia).
  destruct (IH (splice pe (fst w) (le_enc 4 (snd w)))) as (pe' & -> & Hl' & Hout & Hw); [by rewrite Hl|].
  exists pe'. split_and!; [done|congruence| |].
  - intros k Hk. apply Forall_cons in Hk as [Hk Hks]. rewrite Hout by done. rewrite get_field by lia.
    by replace ((fst w <=? k) && (k <? fst w + 4)) with false by lia.
  - intros Hap x Hx. assert (forall a b, a ∈ ws -> b ∈ ws -> apart a b) as Hap' by (intros; apply Hap; by right).
    destruct (decide (x ∈ ws)) as [|Hn]; [by apply Hw|]. apply elem_of_cons in Hx as [->|]; [|done].
    rewrite (sub_ext pe' (splice pe (fst w) (le_enc 4 (snd w)))).
    + pose proof (sub_splice_same pe (fst w) (le_enc 4 (snd w))) as Hs. rewrite blen_le_enc in Hs. apply Hs; lia.
    + lia.
    + intros k Hk. apply Hout, Forall_forall. intros y Hy.
      destruct (Hap w y) as [->|Hd]; [by left|by right|done|lia].
Qed.

Lemma splice_comm {A} (l : list A) a b k k' :
  0 <= a -> a + blen k <= blen l -> 0 <= b -> b + blen k' <= blen l ->
  a + blen k <= b \/ b + blen k' <= a ->
  splice (splice l a k) b k' = splice (splice l b k') a k.
Proof.
  intros. apply list_get_ext. intros i. rewrite !get_splice by (rewrite ?blen_splice; lia).
  destruct ((b <=? i) && (i <? b + blen k')) eqn:Hb, ((a <=? i) && (i <? a + blen k)) eqn:Ha; done || lia.
Qed.

(** Writes below a filled range can be done behind the filling. *)
Lemma write_all_splice ws b z : forall pe,
  0 <= b -> b + blen z <= blen pe -> Forall (fun w => 0 <= fst w /\ fst w + 4 <= b) ws ->
  (pe ← write_all ws pe; Ok (splice pe b z)) = write_all ws (splice pe b z).
Proof.
  induction ws as [|w ws IH]; intros pe Hb Hz Hin; [done|]. apply Forall_cons in Hin as [Hw Hin].
  pose proof (blen_nonneg z). rewrite !write_all_cons, !write_u32_eq by (rewrite ?blen_splice; lia). cbn [mbind outcome_bind].
  rewrite splice_comm by (rewrite ?blen_le_enc; lia).
  apply IH; [done| |done]. rewrite blen_splice; rewrite ?blen_le_enc; lia.
Qed.

(** The first range ends before the second one starts. *)
Definition before (s t : RawShift) : Prop := rs_start s + rs_len s <= rs_start t.

Lemma move_raw_eq pad pe s :
  0 <= pad -> 0 <= rs_start s -> 0 <= rs_len s -> rs_start s + rs_len s + pad <= blen pe ->
  move_raw pad pe s = Ok (splice pe (rs_start s + pad) (sub pe (rs_start s) (rs_start s + rs_len s))).
Proof.
  intros. unfold move_raw, copy_within.
  by rewrite (proj2 (range_ok_spec _ _ _)), (proj2 (Z.leb_le _ _)), (proj2 (Z.leb_le _ _)) by lia.
Qed.

(** Ranges in ascending order, moved from the last one to the first. *)
Lemma moves_spec pad l pe :
  0 <= pad -> StronglySorted before l ->
  Forall (fun s => 0 <= rs_start s /\ 0 <= rs_len s /\ rs_start s + rs_len s + pad <= blen pe) l ->
  exists pe', foldM (move_raw pad) (rev l) pe = Ok pe' /\ blen pe' = blen pe /\
    (forall k, Forall (fun s => ~ (rs_start s + pad <= k < rs_start s + pad + rs_len s)) l -> get pe' k = get pe k) /\
    (forall s k, s ∈ l -> rs_start s + pad <= k < rs_start s + pad + rs_len s -> get pe' k = get pe (k - pad)).
Proof.
  intros Hpad. induction l as [|s l IH]; intros Hs Hin; cbn [rev].
  { exists pe. split_and!; try done. intros s k Hk. by apply elem_of_nil in Hk. }
  apply StronglySorted_inv in Hs as [Hs Hlt]. apply Forall_cons in Hin as [(H0 & Hlen & He) Hin].
  rewrite foldM_app. destruct (IH Hs Hin) as (pe1 & -> & Hl & Hout & Hmv). cbn [mbind outcome_bind foldM].
  rewrite move_raw_eq by lia. cbn [mbind outcome_bind].
  assert (blen (sub pe1 (rs_start s) (rs_start s + rs_len s)) = rs_len s) as Hsub by (rewrite blen_sub; lia).
  eexists. split; [done|]. split; [rewrite blen_splice; lia|].
  assert (forall k, get (splice pe1 (rs_start s + pad) (sub pe1 (rs_start s) (rs_start s + rs_len s))) k
     = if (rs_start s + pad <=? k) && (k <? rs_start s + pad + rs_len s) then get pe1 (k - pad) else get pe1 k) as Hg.
  { intros k. rewrite get_splice by lia. rewrite Hsub. destruct ((rs_start s + pad <=? k) && _) eqn:Hb; [|done].
    rewrite get_sub by lia. f_equal. lia. }
  rewrite Forall_forall in Hlt. split.
  - intros k Hk. apply Forall_cons in Hk as [Hk Hks]. rewrite Hg.
    replace ((rs_start s + pad <=? k) && (k <? rs_start s + pad + rs_len s)) with false by lia. by apply Hout.
  - intros t k Ht Hk. rewrite Hg. apply elem_of_cons in Ht as [->|Ht].
    + replace ((rs_start s + pad <=? k) && (k <? rs_start s + pad + rs_len s)) with true by lia.
      apply Hout, Forall_forall. intros t Ht. specialize (Hlt t Ht). unfold before in Hlt. lia.
    + specialize (Hlt t Ht). unfold before in Hlt.
      replace ((rs_start s + pad <=? k) && (k <? rs_start s + pad + rs_len s)) with false by lia. by eapply Hmv.
Qed.

(** The sort. *)
Definition raw_apart (s t : RawShift) : Prop := before s t \/ before t s.

Lemma insert_shift_perm s l : insert_shift s l ≡ₚ s :: l.
Proof.
  induction l as [|t l IH]; [done|]. cbn [insert_shift]. destruct (_ <=? _); [done|].
  rewrite IH. apply Permutation_swap.
Qed.
Lemma sort_shifts_perm l : sort_shifts l ≡ₚ l.
Proof. induction l as [|s l IH]; [done|]. cbn. by rewrite insert_shift_perm, IH. Qed.

Lemma insert_shift_sorted s l :
  Forall (raw_apart s) l -> 0 < rs_len s -> Forall (fun t => 0 < rs_len t) l ->
  StronglySorted before l -> StronglySorted before (insert_shift s l).
Proof.
  intros Hap Hs Hpos. induction 1 as [|t l Hl IH Ht]; cbn [insert_shift]; [repeat constructor|].
  apply Forall_cons in Hap as [Hst Hap]. apply Forall_cons in Hpos as [Htp Hpos].
  rewrite Forall_forall in Ht. destruct (Z.leb_spec (rs_start s) (rs_start t)).
  - assert (before s t) as Hb by (destruct Hst; unfold before in *; lia).
    constructor; [constructor; [done|by apply Forall_forall]|]. constructor; [done|].
    apply Forall_forall. intros u Hu. specialize (Ht u Hu). unfold before in *. lia.
  - constructor; [by apply IH|]. rewrite (insert_shift_perm s l). constructor; [|by apply Forall_forall].
    destruct Hst; unfold before in *; lia.
Qed.

Lemma sort_shifts_sorted l :
  List.ForallOrdPairs raw_apart l -> Forall (fun t => 0 < rs_len t) l -> StronglySorted before (sort_shifts l).
Proof.
  induction 1 as [|s l Hs Hl IH]; intros Hpos; [constructor|]. apply Forall_cons in Hpos as [Hp Hpos].
  cbn. apply insert_shift_sorted; [|done| |by apply IH]; by rewrite sort_shifts_perm.
Qed.

End Writes.

(** Splits an equation [o = Some r] along the binds and guards of [o]. *)
Ltac some_step :=
  match goal with
  | H : (if ?b then _ else _) = Some _ |- _ => let Hb := fresh "Hb" in destruct b eqn:Hb; try discriminate H
  | H : ?o ≫= _ = Some _ |- _ =>
      let x := fresh "x" in let Hx := fresh "Hx" in
      destruct o as [x|] eqn:Hx; cbn [mbind option_bind] in H; [|discriminate H]
  | H : Some _ = Some _ |- _ => injection H as H
  end.
Ltac some_inv := repeat some_step.
Tactic Notation "bind_as" hyp(H) simple_intropattern(x) simple_intropattern(Hx) :=
  match type of H with
  | ?o ≫= _ = Some _ =>
      let y := fresh in let Hy := fresh in
      destruct o as [y|] eqn:Hy; cbn [mbind option_bind] in H; [|discriminate H];
      revert y Hy H; intros x Hx H
  end.

Section PeFacts.
Context {GL : GuidLib} {RH : RefiHii} {OP : ObjectPe}.

(** ** Section headers *)

Definition span_of (table_off idx : Z) (s : PeSection) : RsrcSpan :=
  {| sp_header_off := table_off + idx * 40; sp_va := virtual_address s; sp_vsize := virtual_size s;
     sp_raw_size := size_of_raw_data s; sp_raw_ptr := pointer_to_raw_data s |}.

Lemma spans_lookup table_off idx l i :
  spans_from table_off idx l !! i = span_of table_off (idx + Z.of_nat i) <$> l !! i.
Proof.
  revert idx i. induction l as [|s l IH]; intros idx [|i]; cbn [spans_from lookup list_lookup fmap option_fmap option_map]; try done.
  - unfold span_of. by replace (idx + Z.of_nat 0) with idx by lia.
  - rewrite IH. by replace (idx + 1 + Z.of_nat i) with (idx + Z.of_nat (Datatypes.S i)) by lia.
Qed.

(** The headers of the image. *)
Definition file_spans (file : PeFile) (table_off : Z) : list RsrcSpan :=
  spans_from table_off 0 (section_table file).
Definition section_count (file : PeFile) : Z := blen (section_table file).

Lemma elem_of_spans file table_off s :
  s ∈ file_spans file table_off <->
  exists i sec, section_table file !! i = Some sec /\ s = span_of table_off (Z.of_nat i) sec.
Proof.
  unfold file_spans. rewrite list_elem_of_lookup. split; intros (i & Hi).
  - rewrite spans_lookup in Hi. destruct (section_table file !! i) as [sec|] eqn:Hs; [|done].
    exists i, sec. split; [done|]. by injection Hi as <-.
  - destruct Hi as (sec & Hsec & ->). exists i. by rewrite spans_lookup, Hsec.
Qed.

(** The bounds of the fields of a section, and the place of its header. *)
Definition span_ok (file : PeFile) (table_off : Z) (s : RsrcSpan) : Prop :=
  (exists i, 0 <= i < section_count file /\ sp_header_off s = table_off + i * 40) /\
  0 <= sp_va s < 2 ^ 32 /\ 0 <= sp_vsize s < 2 ^ 32 /\ 0 <= sp_raw_size s < 2 ^ 32 /\ 0 <= sp_raw_ptr s < 2 ^ 32.

Lemma spans_ok file table_off s : s ∈ file_spans file table_off -> span_ok file table_off s.
Proof.
  intros (i & sec & Hi & ->)%elem_of_spans. pose proof (section_table_u32 file) as Hu.
  rewrite Forall_lookup in Hu. destruct (Hu i sec Hi) as (? & ? & ? & ?). cbn. split; [|done].
  exists (Z.of_nat i). split; [|done]. apply lookup_lt_Some in Hi. unfold section_count, blen. lia.
Qed.

Lemma spans_header_inj file table_off s t :
  s ∈ file_spans file table_off -> t ∈ file_spans file table_off ->
  sp_header_off s = sp_header_off t -> s = t.
Proof.
  intros (i & a & Hi & ->)%elem_of_spans (j & b & Hj & ->)%elem_of_spans. cbn. intros Hij.
  assert (i = j) as -> by lia. congruence.
Qed.

(** ** Reads *)

Lemma read_u32_Some pe off v :
  read_le_u32 pe off = Some v <-> 0 <= off /\ off + 4 <= blen pe /\ off + 4 <= usize_max /\ v = le_dec (sub pe off (off + 4)).
Proof.
  unfold read_le_u32, checked_add. destruct (Z.leb_spec (off + 4) usize_max); cbn [mbind option_bind].
  - destruct (get_range pe off (off + 4)) as [b|] eqn:Hg; cbn [fmap option_fmap option_map].
    + apply get_range_Some in Hg as [? ->]. split; [intros [= <-]; split_and!; done || lia|].
      by intros (_ & _ & _ & ->).
    + split; [done|]. intros (? & ? & _ & _).
      assert (get_range pe off (off + 4) = Some (sub pe off (off + 4))) by (apply get_range_Some; split; [lia|done]).
      congruence.
  - split; [done|lia].
Qed.

Lemma read_u32_bounds pe off v : read_le_u32 pe off = Some v -> 0 <= v < 2 ^ 32.
Proof.
  intros (? & ? & ? & ->)%read_u32_Some. pose proof (le_dec_bounds (sub pe off (off + 4))) as Hb.
  rewrite blen_sub in Hb by lia. by replace (off + 4 - off) with 4 in Hb by lia.
Qed.

Lemma read_u16_bounds pe off v : read_le_u16 pe off = Some v -> 0 <= v < 2 ^ 16.
Proof.
  unfold read_le_u16, checked_add. intros H. some_inv. destruct (get_range pe off x) as [b|] eqn:Hg; [|done].
  injection H as <-. apply get_range_Some in Hg as [? ->]. pose proof (le_dec_bounds (sub pe off x)) as Hl.
  rewrite blen_sub in Hl by lia. by replace (x - off) with 2 in Hl by lia.
Qed.

Lemma header_offsets_bounds pe opt table :
  header_offsets pe = Some (opt, table) -> 24 <= opt < 2 ^ 32 + 24 /\ opt <= table < opt + 2 ^ 16.
Proof.
  unfold header_offsets. intros H. some_inv. apply read_u32_bounds in Hx. apply read_u16_bounds in Hx2.
  unfold checked_add in Hx0, Hx3. some_inv. subst. lia.
Qed.

(** ** The section that carries the resources *)

Lemma resolve_in_spans file pe opt table rsrc :
  header_offsets pe = Some (opt, table) -> resolve_rsrc_section file pe = Some rsrc ->
  rsrc ∈ file_spans file table.
Proof.
  unfold resolve_rsrc_section. intros Ho H. destruct (resource_entry file) as [e|]; [|done].
  cbn [mbind option_bind] in H. destruct (_ =? 0); [done|]. rewrite Ho in H. cbn [mbind option_bind snd] in H.
  destruct (List.filter _ _) as [|chosen [|]] eqn:Hf in H; try done.
  assert (chosen ∈ file_spans file table) as Hin.
  { apply list_elem_of_In. eapply proj1, List.filter_In. unfold file_spans. rewrite Hf. by left. }
  destruct (List.filter _ _) as [|m ?] in H; [by injection H as <-|].
  destruct (negb _); [done|]. by injection H as <-.
Qed.

(** ** The raw ranges *)

Definition span_apart (s t : RsrcSpan) : Prop :=
  sp_raw_size s <> 0 -> sp_raw_size t <> 0 ->
  sp_raw_ptr s + sp_raw_size s <= sp_raw_ptr t \/ sp_raw_ptr t + sp_raw_size t <= sp_raw_ptr s.

Lemma raw_extent_inv l : forall ranges last e,
  raw_extent ranges last l = Some e ->
  last <= e /\
  (forall s, s ∈ l -> sp_raw_size s <> 0 -> sp_raw_ptr s + sp_raw_size s <= e /\
     Forall (fun r => snd r <= sp_raw_ptr s \/ sp_raw_ptr s + sp_raw_size s <= fst r) ranges) /\
  List.ForallOrdPairs span_apart l.
Proof.
  induction l as [|s l IH]; intros ranges last e; cbn [raw_extent].
  { intros [= ->]. split_and!; [lia| |constructor]. intros s Hs. by apply elem_of_nil in Hs. }
  destruct (Z.eqb_spec (sp_raw_size s) 0) as [H0|H0].
  - intros (Hle & Hs & Hd)%IH. split_and!; [done| |].
    + intros t [->|Ht]%elem_of_cons; [done|by apply Hs].
    + constructor; [|done]. apply Forall_forall. by intros t _ ?.
  - intros H. some_inv. unfold checked_add in Hx. some_inv. subst x. apply IH in H as (Hle & Hs & Hd).
    assert (Forall (fun r => snd r <= sp_raw_ptr s \/ sp_raw_ptr s + sp_raw_size s <= fst r) ranges) as Hr.
    { apply Forall_forall. intros r Hr. destruct ((sp_raw_ptr s <? snd r) && (fst r <? sp_raw_ptr s + sp_raw_size s)) eqn:Ho.
      - assert (existsb (fun r => (sp_raw_ptr s <? snd r) && (fst r <? sp_raw_ptr s + sp_raw_size s)) ranges = true) as He
          by (apply existsb_exists; exists r; split; [by apply list_elem_of_In|done]). congruence.
      - apply andb_false_iff in Ho. lia. }
    split_and!; [lia| |].
    + intros t [->|Ht]%elem_of_cons Hn; [split; [lia|done]|]. destruct (Hs t Ht Hn) as [? Hf].
      apply Forall_app in Hf as [Hf _]. done.
    + constructor; [|done]. apply Forall_forall. intros t Ht _ Hn. destruct (Hs t Ht Hn) as [_ Hf].
      apply Forall_app in Hf as [_ Hf]. apply Forall_cons in Hf as [Hf _]. cbn in Hf. lia.
Qed.

(** ** The shifts *)

(** The sections that move in the file and in memory. *)
Definition moves_raw (rsrc : RsrcSpan) (raw_end : Z) (s : RsrcSpan) : bool :=
  negb (sp_header_off s =? sp_header_off rsrc) && ((0 <? sp_raw_size s) && (raw_end <=? sp_raw_ptr s)).
Definition moves_virt (rsrc s : RsrcSpan) : bool :=
  negb (sp_header_off s =? sp_header_off rsrc) && (sp_va rsrc <? sp_va s).
Definition raw_shift (s : RsrcSpan) : RawShift :=
  {| rs_header_off := sp_header_off s; rs_start := sp_raw_ptr s; rs_len := sp_raw_size s |}.
Definition virt_shift (s : RsrcSpan) : VirtShift :=
  {| vs_header_off := sp_header_off s; vs_old_va := sp_va s; vs_vsize := sp_vsize s |}.

Lemma shifts_Some rsrc raw_end pad vshift l : forall r,
  shifts rsrc raw_end pad vshift l = Some r ->
  r = (map raw_shift (List.filter (moves_raw rsrc raw_end) l), map virt_shift (List.filter (moves_virt rsrc) l)) /\
  forall s, s ∈ l -> (moves_raw rsrc raw_end s = true -> sp_raw_ptr s + pad < 2 ^ 32) /\
                     (moves_virt rsrc s = true -> sp_va s + vshift < 2 ^ 32).
Proof.
  induction l as [|s l IH]; intros r; cbn [shifts].
  { intros [= <-]. split; [done|]. intros s Hs. by apply elem_of_nil in Hs. }
  cbn [List.filter]. unfold moves_raw at 1, moves_virt at 1.
  destruct (sp_header_off s =? sp_header_off rsrc) eqn:Hh; cbn [negb andb].
  { intros [-> Hb]%IH. split; [done|]. intros t [->|Ht]%elem_of_cons; [|by apply Hb].
    unfold moves_raw, moves_virt. by rewrite Hh. }
  intros H.
  destruct ((0 <? sp_raw_size s) && _) eqn:Hr;
    [destruct (0xFFFFFFFF <? sp_raw_ptr s + pad) eqn:Hrb; [done|]|]; cbn [mbind option_bind] in H;
    (destruct (sp_va rsrc <? sp_va s) eqn:Hv;
      [destruct (0xFFFFFFFF <? sp_va s + vshift) eqn:Hvb; [done|]|]); cbn [mbind option_bind] in H;
    (destruct (shifts _ _ _ _ l) as [r'|]; [|done]); destruct (IH r' eq_refl) as [-> Hb];
    injection H as <-; (split; [done|]); intros t [->|Ht]%elem_of_cons; try (by apply Hb);
    unfold moves_raw, moves_virt; rewrite Hh, ?Hr, ?Hv; cbn [negb andb]; split; done || (intros; lia).
Qed.

(** ** The plan *)

(** What a plan for growing the resource section by [delta] bytes is made of. *)
Record plan_ok (file : PeFile) (pe : list byte) (delta opt table : Z) (rsrc : RsrcSpan) (p : RsrcGrowPlan) : Prop := {
  po_header : gp_section_off p = sp_header_off rsrc;
  po_image_off : gp_size_of_image_off p = opt + 56;
  po_end : gp_zero_off p = sp_raw_ptr rsrc + sp_raw_size rsrc;
  po_old : gp_old_virt p = sp_vsize rsrc /\ gp_old_raw p = sp_raw_size rsrc;
  po_pad : delta <= gp_pad p /\ sp_raw_size rsrc + gp_pad p < 2 ^ 32 /\ sp_vsize rsrc + gp_pad p < 2 ^ 32;
  po_vshift : 0 <= gp_vshift p < 2 ^ 32;
  po_len : raw_extent [] 0 (file_spans file table) = Some (blen pe);
  po_shifts : shifts rsrc (gp_zero_off p) (gp_pad p) (gp_vshift p) (file_spans file table)
              = Some (gp_raw_shifts p, gp_virt_shifts p);
  po_dirs : forall d, d ∈ gp_dir_shifts p -> exists i r, opt + 96 <= opt + 96 + 8 * i /\
    (fst d = opt + 96 + 8 * i \/ fst d = opt + 112 + 8 * i) /\ fst d + 8 <= table /\
    read_le_u32 pe (fst d) = Some r /\ snd d = r + gp_vshift p
}.

Lemma div_ceil_mul a b : 0 <= a -> 0 < b -> a <= div_ceil a b * b.
Proof. intros. unfold div_ceil. destruct (Z.eqb_spec (a mod b) 0); Z.div_mod_to_equations; nia. Qed.

Lemma pow2_or_one_pos v : 1 <= pow2_or_one v.
Proof. unfold pow2_or_one, is_power_of_two. destruct ((0 <? v) && _) eqn:H; lia. Qed.

Lemma align_pos sa fa : 1 <= (if is_power_of_two sa then sa else pow2_or_one fa).
Proof. pose proof (pow2_or_one_pos fa). unfold is_power_of_two. destruct ((0 <? sa) && _) eqn:H1; lia. Qed.

Lemma checked_add_Some a b c : checked_add a b = Some c <-> c = a + b /\ a + b <= usize_max.
Proof. unfold checked_add. destruct (Z.leb_spec (a + b) usize_max); split; [intros [= <-]; done|by intros [-> _]|done|lia]. Qed.
Lemma checked_mul_Some a b c : checked_mul a b = Some c <-> c = a * b /\ a * b <= usize_max.
Proof. unfold checked_mul. destruct (Z.leb_spec (a * b) usize_max); split; [intros [= <-]; done|by intros [-> _]|done|lia]. Qed.

Lemma dir_shifts_inv pe base vshift virt (P : Z * Z -> Prop) l : forall acc out,
  fold_opt (dir_shift pe base vshift virt) l acc = Some out ->
  (forall d, d ∈ acc -> P d) ->
  (forall i r, i ∈ l -> read_le_u32 pe (base + Z.of_nat i * 8) = Some r ->
     P (base + Z.of_nat i * 8, r + wrap 32 vshift)) ->
  forall d, d ∈ out -> P d.
Proof.
  induction l as [|i l IH]; intros acc out; cbn [fold_opt]; [by intros [= ->]|].
  intros H Hacc Hi. some_step. eapply (IH _ _ H); [|intros j r Hj; apply Hi; by right].
  unfold dir_shift in Hx. destruct (read_le_u32 pe _) as [r|] eqn:Hr; [|done]. cbn [mbind option_bind] in Hx.
  destruct (r =? 0); [injection Hx as <-; done|]. destruct (existsb _ _); [|injection Hx as <-; done].
  destruct (_ <=? _); [|done]. injection Hx as <-. intros d [Hd|Hd]%elem_of_app; [by apply Hacc|].
  apply list_elem_of_singleton in Hd as ->. apply Hi; [by left|done].
Qed.

Lemma rsrc_grow_plan_inv file pe delta p :
  0 < delta -> rsrc_grow_plan file pe delta = Some p ->
  exists opt table rsrc, header_offsets pe = Some (opt, table) /\
    resolve_rsrc_section file pe = Some rsrc /\ plan_ok file pe delta opt table rsrc p.
Proof.
  intros Hd H. unfold rsrc_grow_plan in H.
  bind_as H [opt table] Ho.
  bind_as H magic ?.
  bind_as H dir_off Hdir.
  bind_as H e ?.
  destruct (fst e =? 0); [done|]. bind_as H ? ?.
  bind_as H rsrc Hr.
  bind_as H raw_end He.
  change (spans_from table 0 (section_table file)) with (file_spans file table) in H.
  bind_as H last Hlast.
  destruct (blen pe =? last) eqn:Hlen; [|done]. cbn [negb] in H. destruct (negb (forallb _ _)); [done|].
  bind_as H fa_off ?.
  bind_as H fa ?.
  bind_as H sa_off ?.
  bind_as H sa ?.
  pose proof (align_pos sa fa) as Hsa. pose proof (pow2_or_one_pos fa) as Hfa.
  set (section_align := if is_power_of_two sa then sa else pow2_or_one fa) in *.
  bind_as H pad Hpad.
  bind_as H vshift Hvs.
  bind_as H new_raw Hnr.
  bind_as H new_virt Hnv.
  destruct ((0xFFFFFFFF <? new_raw) || _ || _) eqn:Hov; [done|].
  bind_as H [raw virt] Hsh. cbn [fst snd] in H.
  bind_as H c_off ?.
  bind_as H count Hcount.
  bind_as H dirs_end Hde.
  destruct (table <? dirs_end) eqn:Hte; [done|].
  bind_as H dirs Hdirs.
  bind_as H ex0 ?.
  bind_as H ex ?.
  bind_as H new_image ?.
  destruct (_ <? new_image); [done|]. injection H as <-.
  rewrite !checked_add_Some in *. rewrite !checked_mul_Some in *.
  pose proof (div_ceil_mul delta (pow2_or_one fa)). pose proof (div_ceil_mul delta section_align).
  exists opt, table, rsrc. split_and!; [done|done|]. split; cbn; try done; try lia.
  - rewrite Hlast. f_equal. lia.
  - pose proof (header_offsets_bounds pe opt table Ho). apply read_u32_bounds in Hcount.
    refine (dir_shifts_inv _ _ _ _ (fun d => _) _ _ _ Hdirs _ _); [intros d Hd'; by apply elem_of_nil in Hd'|].
    intros i r Hi%elem_of_seq Hir. exists (Z.of_nat i), r. cbn [fst snd].
    rewrite wrap_small by lia. split_and!; [lia| |lia|done|done].
    destruct (magic =? 0x20b); [right|left]; lia.
Qed.

(** ** The growth *)

(** The header fields a plan writes. *)
Definition raw_fields (p : RsrcGrowPlan) : list (Z * Z) :=
  map (fun s => (rs_header_off s + 20, rs_start s + gp_pad p)) (sort_shifts (gp_raw_shifts p)).
Definition late_fields (p : RsrcGrowPlan) : list (Z * Z) :=
  map (fun v => (vs_header_off v + 12, vs_old_va v + gp_vshift p)) (gp_virt_shifts p)
  ++ [(gp_section_off p + 8, gp_old_virt p + gp_pad p); (gp_section_off p + 16, gp_old_raw p + gp_pad p);
      (gp_size_of_image_off p, gp_new_image p)]
  ++ gp_dir_shifts p.
Definition grow_fields (p : RsrcGrowPlan) : list (Z * Z) := raw_fields p ++ late_fields p.

(** The headers lie in front of the raw data of every section, and the optional header
    holds the size of the image. *)
Definition headers_first (file : PeFile) (opt table : Z) : Prop :=
  opt + 60 <= table /\
  forall s, s ∈ file_spans file table -> sp_raw_size s <> 0 ->
    table + 40 * section_count file <= sp_raw_ptr s.

Lemma elem_of_filter_map {A B} (f : A -> B) (t : A -> bool) l y :
  y ∈ map f (List.filter t l) <-> exists x, x ∈ l /\ t x = true /\ y = f x.
Proof.
  rewrite list_elem_of_In, in_map_iff. setoid_rewrite filter_In. setoid_rewrite list_elem_of_In.
  split; [intros (x & <- & ? & ?); by exists x|intros (x & ? & ? & ->); by exists x].
Qed.

Section Growth.
Context (file : PeFile) (pe : list byte) (delta opt table : Z) (rsrc : RsrcSpan) (p : RsrcGrowPlan).
Context (Hoffs : header_offsets pe = Some (opt, table)) (Hrsrc : rsrc ∈ file_spans file table).
Context (Hdelta : 0 < delta) (Hplan : plan_ok file pe delta opt table rsrc p).

Lemma plan_raw_shifts s :
  s ∈ gp_raw_shifts p <-> exists t, t ∈ file_spans file table /\
    moves_raw rsrc (gp_zero_off p) t = true /\ s = raw_shift t.
Proof. destruct (shifts_Some _ _ _ _ _ _ (po_shifts _ _ _ _ _ _ _ Hplan)) as [[= -> _] _]. apply elem_of_filter_map. Qed.
Lemma plan_virt_shifts s :
  s ∈ gp_virt_shifts p <-> exists t, t ∈ file_spans file table /\
    moves_virt rsrc t = true /\ s = virt_shift t.
Proof. destruct (shifts_Some _ _ _ _ _ _ (po_shifts _ _ _ _ _ _ _ Hplan)) as [[= _ ->] _]. apply elem_of_filter_map. Qed.

(** The value of a header field, and of a field of the optional header. *)
Definition section_value (s : RsrcSpan) (c : Z) : Z :=
  if c =? 20 then sp_raw_ptr s + gp_pad p else if c =? 12 then sp_va s + gp_vshift p
  else if c =? 8 then sp_vsize s + gp_pad p else sp_raw_size s + gp_pad p.
Definition optional_value (m : Z) : Z :=
  if m =? 14 then gp_new_image p else default 0 (read_le_u32 pe (opt + 4 * m)) + gp_vshift p.

Lemma grow_field_shape w :
  w ∈ grow_fields p ->
  (exists s c, s ∈ file_spans file table /\ (c = 8 \/ c = 12 \/ c = 16 \/ c = 20) /\
               w = (sp_header_off s + c, section_value s c)) \/
  (exists m, 14 <= m /\ (opt + 60 <= table -> opt + 4 * m + 4 <= table) /\ w = (opt + 4 * m, optional_value m)).
Proof.
  unfold grow_fields, raw_fields, late_fields. rewrite !elem_of_app, !list_elem_of_fmap.
  destruct (po_old _ _ _ _ _ _ _ Hplan) as [Hv Hr].
  intros [(s & -> & Hs)|[(v & -> & Hs)|[Hs|Hs]]].
  - rewrite sort_shifts_perm in Hs. apply plan_raw_shifts in Hs as (t & Ht & _ & ->). left. exists t, 20. by split_and!; auto.
  - apply plan_virt_shifts in Hs as (t & Ht & _ & ->). left. exists t, 12. by split_and!; auto.
  - rewrite (po_header _ _ _ _ _ _ _ Hplan), (po_image_off _ _ _ _ _ _ _ Hplan), Hv, Hr in Hs.
    rewrite !elem_of_cons in Hs. destruct Hs as [->|[->|[->|Hs]]]; [left; exists rsrc, 8; by split_and!; auto|left; exists rsrc, 16; by split_and!; auto| |].
    + right. exists 14. split_and!; [lia|lia|done].
    + by apply elem_of_nil in Hs.
  - right. destruct (po_dirs _ _ _ _ _ _ _ Hplan w Hs) as (i & r & Hi & Hf & Ht & Hread & Hval).
    destruct w as [o v]. cbn [fst snd] in *. subst v.
    exists ((o - opt) / 4). assert (4 * ((o - opt) / 4) = o - opt) as He by (destruct Hf as [-> | ->]; Z.div_mod_to_equations; lia).
    unfold optional_value. rewrite He. replace (opt + (o - opt)) with o by lia. rewrite Hread.
    replace ((o - opt) / 4 =? 14) with false by lia. split_and!; done || lia.
Qed.

Lemma elem_grow_raw s :
  s ∈ file_spans file table -> moves_raw rsrc (gp_zero_off p) s = true ->
  (sp_header_off s + 20, sp_raw_ptr s + gp_pad p) ∈ grow_fields p.
Proof.
  intros Hs Hm. unfold grow_fields, raw_fields. apply elem_of_app. left. apply list_elem_of_fmap.
  exists (raw_shift s). split; [done|]. rewrite sort_shifts_perm. apply plan_raw_shifts. by exists s.
Qed.
Lemma elem_grow_virt s :
  s ∈ file_spans file table -> moves_virt rsrc s = true ->
  (sp_header_off s + 12, sp_va s + gp_vshift p) ∈ grow_fields p.
Proof.
  intros Hs Hm. unfold grow_fields, late_fields. rewrite !elem_of_app. right. left. apply list_elem_of_fmap.
  exists (virt_shift s). split; [done|]. apply plan_virt_shifts. by exists s.
Qed.
Lemma elem_grow_rsrc :
  (sp_header_off rsrc + 8, sp_vsize rsrc + gp_pad p) ∈ grow_fields p /\
  (sp_header_off rsrc + 16, sp_raw_size rsrc + gp_pad p) ∈ grow_fields p /\
  (opt + 56, gp_new_image p) ∈ grow_fields p.
Proof.
  destruct (po_old _ _ _ _ _ _ _ Hplan) as [<- <-].
  rewrite <-(po_header _ _ _ _ _ _ _ Hplan), <-(po_image_off _ _ _ _ _ _ _ Hplan).
  unfold grow_fields, late_fields. rewrite !elem_of_app, !elem_of_cons. tauto.
Qed.

Context (Hfirst : headers_first file opt table).

Lemma grow_field_in w : w ∈ grow_fields p -> opt <= fst w /\ fst w + 4 <= table + 40 * section_count file.
Proof.
  pose proof (header_offsets_bounds pe opt table Hoffs). destruct Hfirst as [H60 _].
  intros [(s & c & Hs & Hc & ->)|(m & Hm & Ht & ->)]%grow_field_shape; cbn [fst].
  - apply spans_ok in Hs as ((i & Hi & ->) & _). lia.
  - specialize (Ht H60). pose proof (blen_nonneg (section_table file)). unfold section_count. lia.
Qed.

Lemma grow_fields_apart w w' : w ∈ grow_fields p -> w' ∈ grow_fields p -> apart w w'.
Proof.
  destruct Hfirst as [H60 _].
  intros [(s & c & Hs & Hc & ->)|(m & Hm & Ht & ->)]%grow_field_shape
         [(s' & c' & Hs' & Hc' & ->)|(m' & Hm' & Ht' & ->)]%grow_field_shape; unfold apart; cbn [fst].
  - destruct (decide (sp_header_off s + c = sp_header_off s' + c')) as [He|].
    + left. assert (sp_header_off s = sp_header_off s') as Hh.
      { apply spans_ok in Hs as ((i & ? & Hh) & _), Hs' as ((j & ? & Hh') & _).
        assert (i = j) by lia. lia. }
      rewrite (spans_header_inj file table s s' Hs Hs' Hh). by replace c' with c by lia.
    + right. apply spans_ok in Hs as ((i & ? & Hh) & _), Hs' as ((j & ? & Hh') & _). lia.
  - right. apply spans_ok in Hs as ((i & ? & ->) & _). lia.
  - right. apply spans_ok in Hs' as ((i & ? & ->) & _). lia.
  - destruct (decide (m = m')) as [->|]; [by left|right; lia].
Qed.

Lemma repoint_raw_all pad l : forall pe,
  foldM (repoint_raw pad) l pe = write_all (map (fun s => (rs_header_off s + 20, rs_start s + pad)) l) pe.
Proof.
  induction l as [|s l IH]; intros b; [done|]. cbn [map]. rewrite write_all_cons. cbn [foldM].
  change (repoint_raw pad b s) with (write_le_u32 b (rs_header_off s + 20) (rs_start s + pad)).
  cbn [fst snd]. by destruct (write_le_u32 _ _ _); [apply IH|..].
Qed.

Lemma repoint_virt_all vshift l :
  Forall (fun v => vs_old_va v + vshift < 2 ^ 32) l -> forall pe,
  foldM (repoint_virt vshift) l pe = write_all (map (fun v => (vs_header_off v + 12, vs_old_va v + vshift)) l) pe.
Proof.
  induction 1 as [|v l Hv Hl IH]; intros b; [done|]. cbn [map]. rewrite write_all_cons. cbn [foldM fst snd].
  assert (repoint_virt vshift b v = write_le_u32 b (vs_header_off v + 12) (vs_old_va v + vshift)) as ->
    by (unfold repoint_virt, add_u32; by replace (vs_old_va v + vshift <=? 0xFFFFFFFF) with true by lia).
  by destruct (write_le_u32 _ _ _); [apply IH|..].
Qed.

Lemma write_all_app ws ws' b : write_all (ws ++ ws') b = (b ← write_all ws b; write_all ws' b).
Proof. apply foldM_app. Qed.

Lemma FOP_filter_map {A B} (R : A -> A -> Prop) (R' : B -> B -> Prop) (t : A -> bool) (f : A -> B) l :
  (forall x y, R x y -> t x = true -> t y = true -> R' (f x) (f y)) ->
  List.ForallOrdPairs R l -> List.ForallOrdPairs R' (map f (List.filter t l)).
Proof.
  intros HR. induction 1 as [|x l Hx Hl IH]; [constructor|]. cbn [List.filter]. destruct (t x) eqn:Ht; [|done].
  cbn [map]. constructor; [|done]. apply Forall_forall. intros y (z & Hz & Htz & ->)%elem_of_filter_map.
  rewrite Forall_forall in Hx. by apply HR; [apply Hx| |].
Qed.

Lemma get_resize_to {A} (l : list A) n x k :
  blen l <= n -> k < blen l -> get (resize_to l n x) k = get l k.
Proof.
  intros Hn Hk. unfold resize_to. rewrite resize_ge by (unfold blen in Hn; lia). by apply get_app_l.
Qed.

(** The raw data of the sections in front of the end of the image. *)
Lemma span_in_file s :
  s ∈ file_spans file table -> sp_raw_size s <> 0 -> sp_raw_ptr s + sp_raw_size s <= blen pe.
Proof. intros Hs Hn. by apply (raw_extent_inv _ _ _ _ (po_len _ _ _ _ _ _ _ Hplan)). Qed.

Lemma sorted_shifts : StronglySorted before (sort_shifts (gp_raw_shifts p)).
Proof.
  destruct (shifts_Some _ _ _ _ _ _ (po_shifts _ _ _ _ _ _ _ Hplan)) as [[= -> _] _].
  apply sort_shifts_sorted.
  - eapply FOP_filter_map; [|apply (raw_extent_inv _ _ _ _ (po_len _ _ _ _ _ _ _ Hplan))].
    unfold moves_raw, raw_apart, before, raw_shift, span_apart. intros s t Hst Hs Ht. bool_to_prop. cbn. lia.
  - apply Forall_forall. intros s (t & _ & Ht & ->)%elem_of_filter_map. unfold moves_raw in Ht. bool_to_prop. cbn. lia.
Qed.

Context (Hraw : sp_raw_size rsrc <> 0).

(** The image after the moves, the filling and the writes. *)
Lemma apply_grow_eq pe1 :
  blen pe1 = blen pe + gp_pad p ->
  foldM (move_raw (gp_pad p)) (rev (sort_shifts (gp_raw_shifts p))) (resize_to pe (blen pe + gp_pad p) x00) = Ok pe1 ->
  apply_grow p pe
  = write_all (grow_fields p) (splice pe1 (gp_zero_off p) (replicate (Z.to_nat (gp_pad p)) x00)).
Proof.
  intros Hl Hm. pose proof (span_in_file rsrc Hrsrc Hraw) as Hin.
  pose proof (po_pad _ _ _ _ _ _ _ Hplan) as (? & ? & ?). pose proof (po_end _ _ _ _ _ _ _ Hplan) as He.
  pose proof (po_old _ _ _ _ _ _ _ Hplan) as [Hv Hr].
  destruct (spans_ok _ _ _ Hrsrc) as (_ & ? & ? & ? & ?).
  assert (Forall (fun v => vs_old_va v + gp_vshift p < 2 ^ 32) (gp_virt_shifts p)) as Hvirt.
  { apply Forall_forall. intros v (t & Ht & Hm' & ->)%plan_virt_shifts.
    destruct (shifts_Some _ _ _ _ _ _ (po_shifts _ _ _ _ _ _ _ Hplan)) as [_ Hb]. by apply (Hb t Ht). }
  unfold apply_grow. rewrite Hm. cbn [mbind outcome_bind]. rewrite repoint_raw_all. fold (raw_fields p).
  assert (forall q, write_all (raw_fields p) pe1 = Ok q -> blen q = blen pe1) as Hlen.
  { intros q Hq. destruct (write_all_spec (raw_fields p) pe1) as (q' & Hq' & ? & _); [|congruence].
    apply Forall_forall. intros w Hw. pose proof (grow_field_in w) as Hb. destruct Hfirst as [_ Hf].
    specialize (Hf rsrc Hrsrc Hraw). pose proof (header_offsets_bounds pe opt table Hoffs).
    destruct Hb; [unfold grow_fields; apply elem_of_app; by left|]. lia. }
  unfold grow_fields. rewrite write_all_app, <-(write_all_splice (raw_fields p)).
  - destruct (write_all (raw_fields p) pe1) as [q| | |]; try done. specialize (Hlen q eq_refl). cbn [mbind outcome_bind].
    assert (copy_into q (gp_zero_off p) (gp_zero_off p + gp_pad p) (replicate (Z.to_nat (gp_pad p)) x00)
            = Ok (E := Empty_set) (splice q (gp_zero_off p) (replicate (Z.to_nat (gp_pad p)) x00))) as ->
      by (apply copy_into_Ok; rewrite blen_replicate; split_and!; done || lia).
    cbn [mbind outcome_bind]. rewrite repoint_virt_all by done. unfold late_fields. rewrite !write_all_app.
    destruct (write_all _ (splice q _ _)); try done. cbn [mbind outcome_bind]. unfold add_u32. rewrite Hv, Hr.
    replace (sp_vsize rsrc + gp_pad p <=? 0xFFFFFFFF) with true by lia.
    replace (sp_raw_size rsrc + gp_pad p <=? 0xFFFFFFFF) with true by lia. cbn [mbind outcome_bind].
    cbn [app]. do 3 (rewrite write_all_cons; cbn [fst snd]; destruct (write_le_u32 _ _ _); try done;
      cbn [mbind outcome_bind]).
  - lia.
  - rewrite blen_replicate. lia.
  - apply Forall_forall. intros w Hw. destruct (grow_field_in w); [unfold grow_fields; apply elem_of_app; by left|].
    pose proof (header_offsets_bounds pe opt table Hoffs). destruct Hfirst as [_ Hf]. specialize (Hf rsrc Hrsrc Hraw). lia.
Qed.

Lemma apply_grow_spec :
  exists pe', apply_grow p pe = Ok pe' /\ blen pe' = blen pe + gp_pad p /\
    (forall k, k < gp_zero_off p -> outside (grow_fields p) k -> get pe' k = get pe k) /\
    (forall k, gp_zero_off p <= k < gp_zero_off p + gp_pad p -> get pe' k = Some x00) /\
    (forall s k, s ∈ file_spans file table -> moves_raw rsrc (gp_zero_off p) s = true ->
       sp_raw_ptr s <= k < sp_raw_ptr s + sp_raw_size s -> get pe' (k + gp_pad p) = get pe k) /\
    (forall w, w ∈ grow_fields p -> sub pe' (fst w) (fst w + 4) = le_enc 4 (snd w)).
Proof.
  pose proof (span_in_file rsrc Hrsrc Hraw) as Hin.
  pose proof (po_pad _ _ _ _ _ _ _ Hplan) as (? & ? & ?). pose proof (po_end _ _ _ _ _ _ _ Hplan) as He.
  destruct (spans_ok _ _ _ Hrsrc) as (_ & ? & ? & ? & ?). pose proof (blen_nonneg pe).
  pose proof (blen_resize_to pe (blen pe + gp_pad p) x00 ltac:(lia)) as Hl0.
  destruct (moves_spec (gp_pad p) (sort_shifts (gp_raw_shifts p)) (resize_to pe (blen pe + gp_pad p) x00))
    as (pe1 & Hm & Hl1 & Hout & Hmv); [lia|apply sorted_shifts| |].
  { rewrite sort_shifts_perm. apply Forall_forall. intros s (t & Ht & Hmt & ->)%plan_raw_shifts. rewrite Hl0. cbn.
    destruct (spans_ok _ _ _ Ht) as (_ & _ & _ & ? & ?). unfold moves_raw in Hmt. bool_to_prop.
    pose proof (span_in_file t Ht ltac:(lia)). lia. }
  assert (blen pe1 = blen pe + gp_pad p) as Hl by lia.
  rewrite (apply_grow_eq pe1 Hl Hm).
  set (z := replicate (Z.to_nat (gp_pad p)) x00).
  assert (blen z = gp_pad p) as Hz by (unfold z; rewrite blen_replicate; lia).
  assert (blen (splice pe1 (gp_zero_off p) z) = blen pe1) as Hls by (rewrite blen_splice; lia).
  assert (forall w, w ∈ grow_fields p -> opt <= fst w /\ fst w + 4 <= gp_zero_off p) as Hw.
  { intros w Hw. pose proof (grow_field_in w Hw). destruct Hfirst as [_ Hf]. specialize (Hf rsrc Hrsrc Hraw). lia. }
  pose proof (header_offsets_bounds pe opt table Hoffs).
  destruct (write_all_spec (grow_fields p) (splice pe1 (gp_zero_off p) z)) as (pe' & Hpe' & Hl' & Hk & Hval).
  { apply Forall_forall. intros w Hww. specialize (Hw w Hww). lia. }
  assert (forall k, gp_zero_off p <= k -> outside (grow_fields p) k) as Hbeh.
  { intros k Hk'. apply Forall_forall. intros w Hww. specialize (Hw w Hww). lia. }
  exists pe'. split_and!; [done|lia| | | |].
  - intros k Hlt Ho. rewrite Hk by done. rewrite get_splice by lia. replace ((gp_zero_off p <=? k) && _) with false by lia.
    rewrite Hout; [apply get_resize_to; lia|]. rewrite sort_shifts_perm. apply Forall_forall.
    intros s (t & Ht & Hmt & ->)%plan_raw_shifts. cbn. unfold moves_raw in Hmt. bool_to_prop. lia.
  - intros k Hkk. rewrite Hk by (apply Hbeh; lia). rewrite get_splice by lia.
    replace ((gp_zero_off p <=? k) && (k <? gp_zero_off p + blen z)) with true by lia.
    apply get_Some. split; [lia|]. apply lookup_replicate_2. lia.
  - intros s k Hs Hms Hkk. unfold moves_raw in Hms. bool_to_prop. rewrite Hk by (apply Hbeh; lia). rewrite get_splice by lia.
    replace ((gp_zero_off p <=? k + gp_pad p) && (k + gp_pad p <? gp_zero_off p + blen z)) with false by lia.
    rewrite (Hmv (raw_shift s)); cbn; [|rewrite sort_shifts_perm; apply plan_raw_shifts; exists s; split_and!; try done; unfold moves_raw; lia|lia].
    replace (k + gp_pad p - gp_pad p) with k by lia. apply get_resize_to; [lia|].
    pose proof (span_in_file s Hs ltac:(lia)). lia.
  - apply Hval. intros. by apply grow_fields_apart.
Qed.

End Growth.
(** A written field reads back. *)
Lemma read_field pe w :
  sub pe (fst w) (fst w + 4) = le_enc 4 (snd w) -> 0 <= fst w -> fst w + 4 <= blen pe ->
  fst w + 4 <= usize_max -> 0 <= snd w < 2 ^ 32 -> read_le_u32 pe (fst w) = Some (snd w).
Proof.
  intros Hs ? ? ? ?. apply read_u32_Some. split_and!; [done..|]. rewrite Hs, le_dec_enc_small; [done|].
  change (256 ^ Z.of_nat 4) with (2 ^ 32). lia.
Qed.

(** A section that stays in its place ends in front of the grown tail. *)
Lemma stays_in_front file (pe : list byte) table rsrc s :
  raw_extent [] 0 (file_spans file table) = Some (blen pe) ->
  rsrc ∈ file_spans file table -> sp_raw_size rsrc <> 0 ->
  s ∈ file_spans file table -> sp_raw_size s <> 0 ->
  moves_raw rsrc (sp_raw_ptr rsrc + sp_raw_size rsrc) s = false ->
  sp_raw_ptr s + sp_raw_size s <= sp_raw_ptr rsrc + sp_raw_size rsrc.
Proof.
  intros Hext Hr Hrn Hs Hsn Hm. destruct (raw_extent_inv _ _ _ _ Hext) as (_ & _ & Hd).
  destruct (spans_ok _ _ _ Hs) as (_ & _ & _ & ? & _). destruct (spans_ok _ _ _ Hr) as (_ & _ & _ & ? & _).
  destruct (decide (sp_header_off s = sp_header_off rsrc)) as [Hh|Hh].
  { rewrite (spans_header_inj _ _ _ _ Hs Hr Hh). lia. }
  apply list_elem_of_In in Hs, Hr.
  destruct (List.ForallOrdPairs_In Hd s rsrc Hs Hr) as [->|[Ha|Ha]]; [done|specialize (Ha Hsn Hrn)|specialize (Ha Hrn Hsn)];
    unfold moves_raw in Hm; lia.
Qed.

Lemma try_grow_eq pe delta file :
  parse_pe pe = Some file -> 0 < delta ->
  try_grow_rsrc_tail pe delta
  = match rsrc_grow_plan file pe delta with
    | Some plan => pe ← apply_grow plan pe; mret (pe, true)
    | None => Ok (pe, false)
    end.
Proof.
  intros Hp Hd. unfold try_grow_rsrc_tail, rsrc_grow_plan_bytes, with_pe. rewrite Hp.
  by replace (delta =? 0) with false by lia.
Qed.

(** C31. Growing a resource section that has raw data never panics on an image whose
    headers lie in front of its raw data: either the growth is refused and the image is as it was, or at
    least [delta] zero bytes are inserted behind the raw data of the resource section,
    every section keeps its contents at its new position, and the headers name the new
    file positions, virtual addresses and sizes. *)
Theorem try_grow_keeps_sections pe delta file opt table rsrc :
  parse_pe pe = Some file -> header_offsets pe = Some (opt, table) ->
  resolve_rsrc_section file pe = Some rsrc -> sp_raw_size rsrc <> 0 ->
  headers_first file opt table -> 0 < delta ->
  (rsrc_grow_plan file pe delta = None /\ try_grow_rsrc_tail pe delta = Ok (pe, false)) \/
  exists p pe', rsrc_grow_plan file pe delta = Some p /\ try_grow_rsrc_tail pe delta = Ok (pe', true) /\
    let pad := gp_pad p in
    let raw_end := sp_raw_ptr rsrc + sp_raw_size rsrc in
    delta <= pad /\ blen pe' = blen pe + pad /\
    sub pe' raw_end (raw_end + pad) = replicate (Z.to_nat pad) x00 /\
    (forall s, s ∈ file_spans file table -> sp_raw_size s <> 0 ->
       let at_ := if moves_raw rsrc raw_end s then sp_raw_ptr s + pad else sp_raw_ptr s in
       sub pe' at_ (at_ + sp_raw_size s) = sub pe (sp_raw_ptr s) (sp_raw_ptr s + sp_raw_size s)) /\
    (forall s, s ∈ file_spans file table -> moves_raw rsrc raw_end s = true ->
       read_le_u32 pe' (sp_header_off s + 20) = Some (sp_raw_ptr s + pad)) /\
    (forall s, s ∈ file_spans file table -> moves_virt rsrc s = true ->
       read_le_u32 pe' (sp_header_off s + 12) = Some (sp_va s + gp_vshift p)) /\
    read_le_u32 pe' (sp_header_off rsrc + 8) = Some (sp_vsize rsrc + pad) /\
    read_le_u32 pe' (sp_header_off rsrc + 16) = Some (sp_raw_size rsrc + pad) /\
    sub pe' (opt + 56) (opt + 60) = le_enc 4 (gp_new_image p).
Proof.
  intros Hp Ho Hr Hn Hf Hd. rewrite (try_grow_eq _ _ _ Hp Hd).
  destruct (rsrc_grow_plan file pe delta) as [p|] eqn:Hplan; [right|by left].
  destruct (rsrc_grow_plan_inv _ _ _ _ Hd Hplan) as (opt' & table' & rsrc' & Ho' & Hr' & Hok). simplify_eq.
  pose proof (resolve_in_spans _ _ _ _ _ Ho Hr) as Hin.
  destruct (apply_grow_spec _ _ _ _ _ _ _ Ho Hin Hd Hok Hf Hn) as (pe' & Happ & Hlen & Hkeep & Hzero & Hmove & Hfield).
  pose proof (grow_field_in _ _ _ _ _ _ _ Ho Hin Hok Hf) as Hfin.
  pose proof (stays_in_front file pe table rsrc) as Hfront. rewrite <-(po_end _ _ _ _ _ _ _ Hok) in *.
  pose proof (po_pad _ _ _ _ _ _ _ Hok) as (? & ? & ?).
  pose proof (header_offsets_bounds _ _ _ Ho) as ?. pose proof (spans_ok _ _ _ Hin) as (_ & ? & ? & ? & ?).
  destruct Hf as [H60 Hf]. pose proof (Hf _ Hin Hn) as Hf0.
  pose proof (span_in_file _ _ _ _ _ _ _ Hok _ Hin Hn) as Hfile.
  assert (forall w, w ∈ grow_fields p -> 0 <= snd w < 2 ^ 32 -> read_le_u32 pe' (fst w) = Some (snd w)) as Hread.
  { intros w Hw Hv. pose proof (Hfin w Hw). apply read_field; [by apply Hfield|lia|lia|unfold usize_max; lia|done]. }
  pose proof (po_end _ _ _ _ _ _ _ Hok) as Hend. pose proof (elem_grow_rsrc _ _ _ _ _ _ _ Hok) as Hfix.
  exists p, pe'. rewrite Happ. split; [done|]. split; [done|]. cbv zeta. split_and!; [done|done| | | | | | |].
  - apply list_get_ext. intros k. destruct (decide (0 <= k < gp_pad p)).
    + rewrite get_sub by lia. rewrite Hzero by lia. symmetry. apply get_Some. split; [lia|]. apply lookup_replicate_2. lia.
    + rewrite !(proj2 (get_None _ _)); [done|rewrite blen_replicate; lia|].
      rewrite blen_sub; lia.
  - intros s Hs Hsn. pose proof (spans_ok _ _ _ Hs) as (_ & _ & _ & ? & ?). pose proof (Hf s Hs Hsn).
    pose proof (span_in_file _ _ _ _ _ _ _ Hok _ Hs Hsn). apply list_get_ext. intros k.
    destruct (moves_raw rsrc _ s) eqn:Hm.
    + destruct (decide (0 <= k < sp_raw_size s)).
      * rewrite !get_sub by lia. rewrite <-(Hmove s) by (done || lia). f_equal. lia.
      * rewrite !(proj2 (get_None _ _)); try done; rewrite blen_sub; lia.
    + f_equal. apply sub_ext; [lia|]. intros j Hj. apply Hkeep.
      * pose proof (Hfront s (po_len _ _ _ _ _ _ _ Hok) Hin Hn Hs Hsn Hm). lia.
      * apply Forall_forall. intros w Hw. pose proof (Hfin w Hw). lia.
  - intros s Hs Hm. apply (Hread (sp_header_off s + 20, sp_raw_ptr s + gp_pad p)); cbn [fst snd]; [by eapply elem_grow_raw|].
    pose proof (spans_ok _ _ _ Hs) as (_ & _ & _ & ? & ?).
    destruct (shifts_Some _ _ _ _ _ _ (po_shifts _ _ _ _ _ _ _ Hok)) as [_ Hb]. specialize (proj1 (Hb s Hs) Hm). lia.
  - intros s Hs Hm. apply (Hread (sp_header_off s + 12, sp_va s + gp_vshift p)); cbn [fst snd]; [by eapply elem_grow_virt|].
    pose proof (spans_ok _ _ _ Hs) as (_ & ? & _). pose proof (po_vshift _ _ _ _ _ _ _ Hok).
    destruct (shifts_Some _ _ _ _ _ _ (po_shifts _ _ _ _ _ _ _ Hok)) as [_ Hb]. specialize (proj2 (Hb s Hs) Hm). lia.
  - apply (Hread _ (proj1 Hfix)). cbn [snd]. lia.
  - apply (Hread _ (proj1 (proj2 Hfix))). cbn [snd]. lia.
  - replace (opt + 60) with (opt + 56 + 4) by lia. apply (Hfield _ (proj2 (proj2 Hfix))).
Qed.

End PeFacts.
