(* ===== verification/PeListFacts.v ===== *)
(** HII packages in PE images: a package appended to the HII list reads back behind the
    old ones, and the scan for form packages in the image body is sound. *)
From Stdlib Require Import Sorting.Sorted.
From S2P Require Import Prelude Text Types Ffs Hii Ifr Gates PeResource HiiFacts PeFacts.

Section PeListFacts.
Context {GL : GuidLib} {RH : RefiHii} {OP : ObjectPe}.

(** ** The package list *)

Lemma pkgs_at_ext b b' ps : forall pos e,
  0 <= pos -> pkgs_at b pos ps e -> e <= blen b' ->
  (forall k, pos <= k < e -> get b k = get b' k) -> pkgs_at b' pos ps e.
Proof.
  induction ps as [|p ps IH]; intros pos e H0; cbn [pkgs_at]; [done|].
  intros (Ho & H4 & Hin & Hb & Hl & Hk & Hne & Hps) He Hext.
  assert (0 <= pos + blen (pk_bytes p) <= blen b) as Hb2 by lia.
  pose proof (pkgs_at_bytes _ _ _ _ Hb2 Hps) as [Hle _].
  split_and!; [done|done|lia| | |by rewrite <-Hext by lia|done|].
  - rewrite Hb. rewrite blen_sub by lia. replace (pos + blen (pk_bytes p) - pos) with (blen (pk_bytes p)) by lia.
    apply sub_ext; [lia|]. intros k Hk'. apply Hext. lia.
  - rewrite Hl. f_equal. apply sub_ext; [lia|]. intros k Hk'. apply Hext. lia.
  - apply IH; [lia|done|done|]. intros k Hk'. apply Hext. lia.
Qed.

Lemma pkgs_at_end b ps : forall pos e,
  pkgs_at b pos ps e -> e = pos + foldr (fun p n => blen (pk_bytes p) + n) 0 ps.
Proof.
  induction ps as [|p ps IH]; intros pos e; cbn [pkgs_at foldr]; [lia|].
  intros (_ & _ & _ & _ & _ & _ & _ & ->%IH). lia.
Qed.

(** The packages in front of an END package are what the strict parser reads. *)
Lemma package_steps b g ps : forall pos e acc,
  0 <= pos -> pkgs_at b pos ps e ->
  steps (list_step b g) (pos, acc) (e, acc ++ ps).
Proof.
  induction ps as [|p ps IH]; intros pos e acc H0; cbn [pkgs_at].
  { intros ->. rewrite app_nil_r. apply steps_refl. }
  intros (Ho & H4 & Hin & Hb & Hl & Hk & Hne & Hps).
  apply (steps_next _ _ (pos + blen (pk_bytes p), acc ++ [p])).
  - unfold list_step. replace (pos + 4 <=? blen b) with true by lia.
    assert (u24_at b pos = Ok (blen (pk_bytes p))) as ->.
    { assert (post (u24_at b pos) (fun z => z = blen (pk_bytes p)) (fun _ => False)) as Hu
        by (apply u24_at_post; [lia|lia|intros; congruence]).
      destruct (u24_at b pos); try done. cbn in Hu. by subst. }
    cbn [mbind outcome_bind]. rewrite (index_eq _ _ _ Hk). cbn [mbind outcome_bind].
    rewrite bool_decide_eq_false_2 by done.
    replace ((blen (pk_bytes p) <? 4) || (blen b <? pos + blen (pk_bytes p))) with false by lia.
    assert (slice b pos (pos + blen (pk_bytes p)) = Ok (E := Empty_set) (pk_bytes p)) as ->
      by (apply slice_Ok; split; [lia|done]).
    cbn [mbind outcome_bind mret outcome_ret]. do 4 f_equal. destruct p. cbn in *. by subst.
  - replace (acc ++ p :: ps) with ((acc ++ [p]) ++ ps) by by rewrite <-app_assoc. apply IH; [lia|done].
Qed.

Lemma parse_list_of b ps e :
  pkgs_at b 20 ps e -> 20 <= e -> e + 4 <= blen b -> get b (e + 3) = Some PACKAGE_END ->
  parse_package_list b = Ok (Some {| pl_guid := guid_of_array (sub b 0 16); packages := ps |}).
Proof.
  intros Hps He Hl Hend. unfold parse_package_list. replace (blen b <? 20) with false by lia.
  assert (slice b 0 16 = Ok (E := Empty_set) (sub b 0 16)) as -> by (apply slice_Ok; split; [lia|done]).
  cbn [mbind outcome_bind]. eapply steps_loop; [by apply (package_steps b _ ps 20 e []); [lia|]| |].
  - unfold list_step. replace (e + 4 <=? blen b) with true by lia.
    pose proof (u24_at_post b e (fun z => True) (fun _ => True) ltac:(lia) ltac:(lia) ltac:(done)) as Hu.
    destruct (u24_at b e); try done. cbn [mbind outcome_bind]. rewrite (index_eq _ _ _ Hend). cbn [mbind outcome_bind].
    by rewrite bool_decide_eq_true_2.
  - eapply post_converges, (package_loop b _ (fun _ => True)); [lia|]. intros pos qs Hpos Hq.
    eapply post_mono; [by apply list_step_post| |done]. by intros [[? ?]|].
Qed.

(** What the parser read. *)
Lemma parse_list_inv b l :
  parse_package_list b = Ok (Some l) ->
  exists e, pkgs_at b 20 (packages l) e /\ 20 <= e /\ e + 4 <= blen b /\ get b (e + 3) = Some PACKAGE_END /\
    pl_guid l = guid_of_array (sub b 0 16).
Proof.
  unfold parse_package_list. destruct (Z.ltb_spec (blen b) 20) as [|Hl]; [done|].
  unfold slice. rewrite (proj2 (range_ok_spec _ _ _)) by lia. cbn [mbind outcome_bind]. intros Hloop.
  pose proof (package_loop b (list_step b (guid_of_array (sub b 0 16))) _ Hl
                (fun pos ps Hp Hps => post_mono _ _ _ _ _ (list_step_post b _ pos ps Hp Hps)
                   (fun r Hr => Hr) (fun _ _ => I))) as H.
  rewrite Hloop in H. destruct H as (Hg & e & Hps & He & He' & Hend). exists e.
  assert (0 <= 20 <= blen b) as Hb by lia.
  pose proof (pkgs_at_bytes _ _ _ _ Hb Hps). split_and!; done || lia.
Qed.

Lemma parse_list_total b : exists o, parse_package_list b = Ok o.
Proof.
  unfold parse_package_list. destruct (Z.ltb_spec (blen b) 20) as [|Hl]; [by eexists|].
  unfold slice. rewrite (proj2 (range_ok_spec _ _ _)) by lia. cbn [mbind outcome_bind].
  pose proof (package_loop b (list_step b (guid_of_array (sub b 0 16))) (fun _ => True) Hl) as H.
  destruct (loop _ _ _) as [o|[]| |]; [by eexists|..]; destruct H; intros pos ps Hp Hps;
    (eapply post_mono; [by apply list_step_post| |done]; by intros [[? ?]|]).
Qed.

(** ** The append *)

(** The HII list lies in the raw data of the resource section, behind its data entry,
    which lies behind the headers. *)
Definition hii_inside (file : PeFile) (table : Z) (rsrc : RsrcSpan) (target : LeafRef) : Prop :=
  table + 40 * section_count file <= lf_entry_off target /\ lf_entry_off target + 8 <= lf_off target /\
  sp_raw_ptr rsrc <= lf_off target /\ 0 <= lf_len target /\
  lf_off target + lf_len target <= sp_raw_ptr rsrc + sp_raw_size rsrc.

Lemma last_raw_inv l : forall last e,
  last_raw_from last l = Some e ->
  last <= e /\ forall s, s ∈ l -> size_of_raw_data s <> 0 -> pointer_to_raw_data s + size_of_raw_data s <= e.
Proof.
  induction l as [|s l IH]; intros last e; cbn [last_raw_from].
  { intros [= ->]. split; [lia|]. intros s Hs. by apply elem_of_nil in Hs. }
  destruct (Z.eqb_spec (size_of_raw_data s) 0) as [H0|H0].
  - intros [? Hl]%IH. split; [done|]. intros t [->|Ht]%elem_of_cons; [done|by apply Hl].
  - intros H. bind_as H x Hx. rewrite checked_add_Some in Hx. apply IH in H as [? Hl]. split; [lia|].
    intros t [->|Ht]%elem_of_cons; [lia|by apply Hl].
Qed.

Lemma growth_plan_inv file pe added g opt table rsrc target :
  header_offsets pe = Some (opt, table) -> resolve_rsrc_section file pe = Some rsrc ->
  List.find is_hii (resource_leaf_locations file) = Some target ->
  plan_rsrc_blob_growth_for file pe added = Some g ->
  bg_entry_off g = lf_entry_off target /\ bg_blob_off g = lf_off target /\ bg_blob_len g = lf_len target /\
  0 <= bg_grow g /\ lf_off target + lf_len target + added <= sp_raw_ptr rsrc + sp_raw_size rsrc + bg_grow g /\
  (sp_raw_size rsrc <> 0 -> sp_raw_ptr rsrc + sp_raw_size rsrc <= blen pe).
Proof.
  intros Ho Hr Hf H. unfold plan_rsrc_blob_growth_for in H. rewrite Hf in H. cbn [mbind option_bind] in H.
  destruct (negb (forallb _ _)); [done|]. unfold rsrc_raw_end, rsrc_virt_end in H. rewrite Hr in H.
  cbn [mbind option_bind] in H.
  bind_as H raw_end Hre. bind_as H virt_end Hve. bind_as H blob_end Hbe. bind_as H file_end Hfe.
  bind_as H virt_blob Hvb. bind_as H virt_need Hvn. bind_as H last Hlast.
  destruct (blen pe =? last) eqn:Hl; [|done]. injection H as <-. cbn.
  rewrite !checked_add_Some in *. unfold sat_sub. split_and!; [done|done|done|lia|lia|].
  intros Hn. apply (resolve_in_spans _ _ _ _ _ Ho), elem_of_spans in Hr as (i & sec & Hi & ->).
  apply list_elem_of_lookup_2 in Hi. cbn in *. destruct (last_raw_inv _ _ _ Hlast) as [_ Hs].
  specialize (Hs _ Hi Hn). lia.
Qed.

(** What a plan for appending a package to the list [l] is made of. *)
Record append_ok (file : PeFile) (pe pkg : list byte) (rsrc : RsrcSpan) (target : LeafRef)
  (l : HiiPackageList) (p : AppendPlan) : Prop := {
  ak_pkg : 4 <= blen pkg /\ le_dec (sub pkg 0 3) = blen pkg /\ get pkg 3 <> Some PACKAGE_END;
  ak_list : parse_package_list (sub pe (lf_off target) (lf_off target + lf_len target)) = Ok (Some l);
  ak_blob : 0 <= lf_off target /\ lf_off target + lf_len target <= blen pe;
  ak_offs : ap_entry_off p = lf_entry_off target /\ ap_blob_off p = lf_off target;
  ak_insert : ap_insert_off p = lf_off target + 20 + foldr (fun p n => blen (pk_bytes p) + n) 0 (packages l);
  ak_tail : ap_insert_tail p = sp_raw_ptr rsrc + sp_raw_size rsrc + ap_grow p - blen pkg /\
            ap_insert_off p <= ap_insert_tail p;
  ak_grow : 0 <= ap_grow p /\ lf_off target + lf_len target <= ap_insert_tail p /\
            (sp_raw_size rsrc <> 0 -> sp_raw_ptr rsrc + sp_raw_size rsrc <= blen pe);
  ak_entry : ap_new_entry_size p = lf_len target + blen pkg /\ ap_new_entry_size p < 2 ^ 32;
  ak_total : ap_new_total p = ap_insert_off p - lf_off target + blen pkg + 4 /\ ap_new_total p < 2 ^ 32
}.

Lemma append_plan_spec pe pkg file opt table rsrc target :
  parse_pe pe = Some file -> header_offsets pe = Some (opt, table) ->
  resolve_rsrc_section file pe = Some rsrc ->
  List.find is_hii (resource_leaf_locations file) = Some target ->
  post (append_plan pe pkg)
    (fun o => match o with Some p => exists l, append_ok file pe pkg rsrc target l p | None => True end)
    (fun _ => False).
Proof.
  intros Hp Ho Hr Hf. unfold append_plan, with_pe. rewrite Hp. unfold package_len.
  destruct (Z.ltb_spec (blen pkg) 4); [done|].
  destruct (Z.eqb_spec (le_dec (sub pkg 0 3)) (blen pkg)) as [Hdec|]; [|done]. cbn [negb].
  case_bool_decide; [done|]. cbn [try_opt]. unfold append_plan_for.
  destruct (plan_rsrc_blob_growth_for file pe (blen pkg)) as [g|] eqn:Hg; [|done]. cbn [try_opt].
  destruct (growth_plan_inv _ _ _ _ _ _ _ _ Ho Hr Hf Hg) as (He & Hb & Hl & Hg0 & Hge & Hre). rewrite Hb, Hl, He.
  destruct (checked_add (lf_off target) (lf_len target)) as [be|] eqn:Hbe; [|done].
  apply checked_add_Some in Hbe as [-> _]. cbn [try_opt].
  destruct (get_range pe _ _) as [blob|] eqn:Hblob; [|done]. apply get_range_Some in Hblob as [Hin ->]. cbn [try_opt].
  destruct (parse_list_total (sub pe (lf_off target) (lf_off target + lf_len target))) as [o Hpl].
  rewrite Hpl. cbn [mbind outcome_bind]. destruct o as [l|]; [|done]. cbn [try_opt].
  destruct (_ ≫= _) as [insert|] eqn:Hi; [|done].
  unfold rsrc_raw_end. rewrite Hr. cbn [mbind option_bind try_opt].
  destruct (checked_add (sp_raw_ptr rsrc) (sp_raw_size rsrc)) as [re|] eqn:Hce; [|done]. cbn [try_opt].
  destruct (checked_add re (bg_grow g)) as [tail|] eqn:Htl; [|done]. cbn [try_opt].
  destruct (Z.ltb_spec tail (blen pkg)); [done|]. cbn [try_opt].
  destruct (Z.ltb_spec (tail - blen pkg) insert); [done|].
  destruct (checked_add (lf_len target) (blen pkg)) as [es|] eqn:Hes; [|done]. cbn [try_opt].
  destruct ((_ <? _) || (_ <? es)) eqn:Hov; [done|]. cbn [mret outcome_ret post]. exists l.
  bind_as Hi a Ha. rewrite !checked_add_Some in *.
  split; cbn; try done; split_and?; done || lia.
Qed.

(** The image behind the growth of an append. *)
Lemma grown_bytes pe grow file opt table rsrc :
  parse_pe pe = Some file -> header_offsets pe = Some (opt, table) ->
  resolve_rsrc_section file pe = Some rsrc -> sp_raw_size rsrc <> 0 ->
  headers_first file opt table -> 0 <= grow -> sp_raw_ptr rsrc + sp_raw_size rsrc <= blen pe ->
  let m := if 0 <? grow then try_grow_rsrc_tail pe grow else Ok (pe, true) in
  m = Ok (pe, false) \/
  exists pe1, m = Ok (pe1, true) /\ try_grow_rsrc_tail pe grow = Ok (pe1, true) /\
    sp_raw_ptr rsrc + sp_raw_size rsrc + grow <= blen pe1 /\
    forall k, table + 40 * section_count file <= k < sp_raw_ptr rsrc + sp_raw_size rsrc -> get pe1 k = get pe k.
Proof.
  intros Hp Ho Hr Hn Hf Hg Hle. cbv zeta. destruct (Z.ltb_spec 0 grow) as [Hd|].
  2: { right. exists pe. unfold try_grow_rsrc_tail. replace (grow =? 0) with true by lia. split_and!; done || lia. }
  rewrite (try_grow_eq _ _ _ Hp Hd). destruct (rsrc_grow_plan file pe grow) as [p|] eqn:Hplan; [right|by left].
  destruct (rsrc_grow_plan_inv _ _ _ _ Hd Hplan) as (opt' & table' & rsrc' & Ho' & Hr' & Hok). simplify_eq.
  pose proof (resolve_in_spans _ _ _ _ _ Ho Hr) as Hin.
  destruct (apply_grow_spec _ _ _ _ _ _ _ Ho Hin Hd Hok Hf Hn) as (pe' & Happ & Hlen & Hkeep & _).
  exists pe'. rewrite Happ. destruct (po_pad _ _ _ _ _ _ _ Hok) as (? & _ & _). split_and!; [done|done|lia|].
  intros k Hk. rewrite <-(po_end _ _ _ _ _ _ _ Hok) in Hk. apply Hkeep; [lia|]. apply Forall_forall. intros w Hw.
  pose proof (grow_field_in _ _ _ _ _ _ _ Ho Hin Hok Hf w Hw). lia.
Qed.

(** The insertion behind the growth, byte by byte. *)
Lemma append_bytes pe1 pkg ins tail entry blob es total :
  0 <= entry -> entry + 8 <= blob -> blob + 20 <= ins -> ins <= tail -> tail + blen pkg <= blen pe1 ->
  exists pe', (pe ← copy_within pe1 ins tail (ins + blen pkg); pe ← copy_into pe ins (ins + blen pkg) pkg;
               pe ← write_length_chain pe entry blob es total; mret (pe, true)) = Ok (E := Empty_set) (pe', true) /\
    blen pe' = blen pe1 /\ sub pe' (entry + 4) (entry + 8) = le_enc 4 es /\
    sub pe' (blob + 16) (blob + 20) = le_enc 4 total /\
    forall k, outside [(entry + 4, es); (blob + 16, total)] k ->
      get pe' k = if (ins <=? k) && (k <? ins + blen pkg) then get pkg (k - ins)
                  else if (ins + blen pkg <=? k) && (k <? tail + blen pkg) then get pe1 (k - blen pkg) else get pe1 k.
Proof.
  intros He Heb Hbi Hit Ht. pose proof (blen_nonneg pkg). pose proof (blen_nonneg pe1).
  unfold copy_within. rewrite (proj2 (range_ok_spec pe1 ins tail)) by lia.
  replace (0 <=? ins + blen pkg) with true by lia.
  replace (ins + blen pkg + (tail - ins) <=? blen pe1) with true by lia. cbn [andb mbind outcome_bind].
  assert (blen (sub pe1 ins tail) = tail - ins) as Hs by (rewrite blen_sub; lia).
  set (pe2 := splice pe1 (ins + blen pkg) (sub pe1 ins tail)).
  assert (blen pe2 = blen pe1) as Hl2 by (unfold pe2; rewrite blen_splice; lia).
  assert (copy_into pe2 ins (ins + blen pkg) pkg = Ok (E := Empty_set) (splice pe2 ins pkg)) as ->
    by (apply copy_into_Ok; split_and!; done || lia). cbn [mbind outcome_bind].
  assert (blen (splice pe2 ins pkg) = blen pe1) as Hl3 by (rewrite blen_splice; lia).
  destruct (write_all_spec [(entry + 4, es); (blob + 16, total)] (splice pe2 ins pkg)) as (pe' & Hw & Hl & Hout & Hval).
  { repeat constructor; cbn [fst]; lia. }
  assert (write_length_chain (splice pe2 ins pkg) entry blob es total = Ok pe') as ->.
  { rewrite <-Hw. unfold write_all, write_length_chain. cbn [foldM fst snd].
    destruct (write_le_u32 (splice _ _ _) _ _) as [q| | |]; try done. cbn [mbind outcome_bind].
    by destruct (write_le_u32 q _ _). }
  assert (forall w w', w ∈ [(entry + 4, es); (blob + 16, total)] -> w' ∈ [(entry + 4, es); (blob + 16, total)] -> apart w w') as Hap.
  { intros w w'. rewrite !elem_of_cons. unfold apart.
    intros [->|[->|Hw1]] [->|[->|Hw2]]; try (by apply elem_of_nil in Hw1); try (by apply elem_of_nil in Hw2); cbn [fst]; (by left) || lia. }
  specialize (Hval Hap). exists pe'. split_and!; [done|lia| | |].
  - replace (entry + 8) with (entry + 4 + 4) by lia. apply (Hval (entry + 4, es)). by left.
  - replace (blob + 20) with (blob + 16 + 4) by lia. apply (Hval (blob + 16, total)). right. by left.
  - intros k Hk. rewrite Hout by done. rewrite get_splice by lia. destruct ((ins <=? k) && _); [done|].
    unfold pe2. rewrite get_splice by lia. rewrite Hs.
    replace (ins + blen pkg + (tail - ins)) with (tail + blen pkg) by lia.
    destruct ((ins + blen pkg <=? k) && _) eqn:Hb; [|done]. rewrite get_sub by lia. f_equal. lia.
Qed.

(** A list with a package inserted in front of its END. *)
Lemma list_insert b newb l pkg kind :
  parse_package_list b = Ok (Some l) -> 4 <= blen pkg -> le_dec (sub pkg 0 3) = blen pkg ->
  get pkg 3 = Some kind -> kind <> PACKAGE_END -> blen newb = blen b + blen pkg ->
  let ins := 20 + foldr (fun p n => blen (pk_bytes p) + n) 0 (packages l) in
  (forall k, 0 <= k < ins -> ~ (16 <= k < 20) -> get newb k = get b k) ->
  (forall k, ins <= k < ins + blen pkg -> get newb k = get pkg (k - ins)) ->
  (forall k, ins + blen pkg <= k < blen newb -> get newb k = get b (k - blen pkg)) ->
  parse_package_list newb = Ok (Some {| pl_guid := pl_guid l;
    packages := packages l ++ [{| pk_kind := kind; pk_bytes := pkg; pk_offset := ins |}] |}).
Proof.
  intros Hl H4 Hdec Hk Hne Hlen ins Hlo Hmid Hhi.
  destruct (parse_list_inv _ _ Hl) as (e & Hps & H20 & He & Hend & ->).
  assert (ins = e) as Hie by (unfold ins; by rewrite (pkgs_at_end _ _ _ _ Hps)). rewrite Hie in *.
  assert (sub newb e (e + blen pkg) = pkg) as Hpkg.
  { rewrite <-(sub_full pkg) at 2. apply list_get_ext. intros k. destruct (decide (0 <= k < blen pkg)).
    - rewrite get_sub, Hmid by lia. rewrite sub_full. f_equal. lia.
    - rewrite !(proj2 (get_None _ _)); [done|rewrite sub_full; lia|rewrite blen_sub; lia]. }
  rewrite (sub_ext b newb 0 16) by (lia || (intros k Hk'; symmetry; apply Hlo; lia)).
  apply (parse_list_of newb _ (e + blen pkg)); [|lia|lia|].
  - apply (pkgs_at_snoc _ _ _ e).
    + apply (pkgs_at_ext b); [lia|done|lia|]. intros k Hk'. symmetry. apply Hlo; lia.
    + apply package_read; [lia| |done|lia|done| |done].
      * rewrite <-Hdec, <-Hpkg at 1. rewrite sub_sub by lia. do 2 f_equal; lia.
      * rewrite Hmid by lia. rewrite <-Hk. f_equal. lia.
  - rewrite Hhi by lia. rewrite <-Hend. f_equal. lia.
Qed.

(** C30. Appending a package to the HII list of an image never panics when the headers
    lie in front of the raw data, the data entry of the list lies behind them and in
    front of the list, and the list inside the resource section: either the image
    is as it was, or the list reads back with the new package behind the old ones, the
    data entry and the list header hold the new lengths, and behind the growth of the
    section no byte outside these fields and the moved tail has changed. *)
Theorem append_package_reads_back pe pkg file opt table rsrc target :
  parse_pe pe = Some file -> header_offsets pe = Some (opt, table) ->
  resolve_rsrc_section file pe = Some rsrc -> headers_first file opt table ->
  List.find is_hii (resource_leaf_locations file) = Some target ->
  hii_inside file table rsrc target ->
  append_package_to_resource pe pkg = Ok (pe, false) \/
  exists l kind grow pe1 pe',
    parse_package_list (sub pe (lf_off target) (lf_off target + lf_len target)) = Ok (Some l) /\
    get pkg 3 = Some kind /\ try_grow_rsrc_tail pe grow = Ok (pe1, true) /\
    append_package_to_resource pe pkg = Ok (pe', true) /\
    let len := lf_len target + blen pkg in
    let at_ := 20 + foldr (fun p n => blen (pk_bytes p) + n) 0 (packages l) in
    parse_package_list (sub pe' (lf_off target) (lf_off target + len))
    = Ok (Some {| pl_guid := pl_guid l;
                  packages := packages l ++ [{| pk_kind := kind; pk_bytes := pkg; pk_offset := at_ |}] |}) /\
    le_dec (sub pe' (lf_entry_off target + 4) (lf_entry_off target + 8)) = len /\
    le_dec (sub pe' (lf_off target + 16) (lf_off target + 20)) = at_ + blen pkg + 4 /\
    forall k, outside [(lf_entry_off target + 4, len); (lf_off target + 16, at_ + blen pkg + 4)] k ->
      ~ (lf_off target + at_ <= k < sp_raw_ptr rsrc + sp_raw_size rsrc + grow) -> get pe' k = get pe1 k.
Proof.
  intros Hp Ho Hr Hf Ht (Hh1 & Hh2 & Hh3 & Hh4 & Hh5). unfold append_package_to_resource.
  pose proof (append_plan_spec pe pkg _ _ _ _ _ Hp Ho Hr Ht) as Hplan.
  destruct (append_plan pe pkg) as [[p|]| | |]; [|by left|done..]. destruct Hplan as [l Hok]. cbn [mbind outcome_bind].
  destruct Hok as [(Hp4 & Hpd & Hpk) Hl [Hb0 Hb1] [He Hbo] Hins [Htail Hit] (Hg0 & Hgt & Hgn) [Hes Hes'] [Htot Htot']].
  pose proof (header_offsets_bounds _ _ _ Ho). pose proof (blen_nonneg (section_table file)) as Hcnt. unfold section_count in *.
  set (b := sub pe (lf_off target) (lf_off target + lf_len target)) in *.
  assert (blen b = lf_len target) as Hbl by (unfold b; rewrite blen_sub; lia).
  destruct (parse_list_inv _ _ Hl) as (e & Hps & H20 & He4 & _).
  assert (sp_raw_size rsrc <> 0) as Hn by lia. specialize (Hgn Hn).
  set (sum := foldr (fun p n => blen (pk_bytes p) + n) 0 (packages l)) in *.
  assert (e = 20 + sum) as Hsum by by (eapply pkgs_at_end; exact Hps).
  unfold apply_append.
  destruct (grown_bytes pe (ap_grow p) _ _ _ _ Hp Ho Hr Hn Hf Hg0 Hgn) as [-> | (pe1 & -> & Hgrow & Hlen1 & Hkeep)];
    [by left|right]. cbn [mbind outcome_bind negb]. unfold section_count in Hkeep.
  rewrite He, Hbo. destruct (get pkg 3) as [kind|] eqn:Hk3.
  2: { apply get_None in Hk3. lia. }
  destruct (append_bytes pe1 pkg (ap_insert_off p) (ap_insert_tail p) (lf_entry_off target) (lf_off target)
              (ap_new_entry_size p) (ap_new_total p)) as (pe' & Happ & Hlen & Hentry & Htotal & Hget); [lia..|].
  exists l, kind, (ap_grow p), pe1, pe'. split; [done|]. split; [done|]. split; [done|]. split; [exact Happ|]. cbv zeta.
  assert (forall w, 0 <= w < 2 ^ 32 -> le_dec (le_enc 4 w) = w) as Hdec
    by (intros; apply le_dec_enc_small; change (256 ^ Z.of_nat 4) with (2 ^ 32); lia).
  assert (forall k, 0 <= k < lf_len target -> get pe1 (lf_off target + k) = get b k) as Hb.
  { intros k Hk. rewrite Hkeep by lia. unfold b. by rewrite get_sub by lia. }
  rewrite Hentry, Htotal, !Hdec by lia. split_and!; [|lia|lia|].
  - apply (list_insert b); try done; [congruence|rewrite Hbl, blen_sub; lia|..]; fold sum;
      rewrite ?blen_sub by lia; intros k Hk; try intros Hk'; rewrite get_sub, Hget by (lia || (repeat constructor; cbn [fst]; lia)).
    + replace ((ap_insert_off p <=? lf_off target + k) && _) with false by lia.
      replace ((ap_insert_off p + blen pkg <=? lf_off target + k) && _) with false by lia. apply Hb. lia.
    + replace ((ap_insert_off p <=? lf_off target + k) && (lf_off target + k <? ap_insert_off p + blen pkg)) with true by lia. f_equal. lia.
    + replace ((ap_insert_off p <=? lf_off target + k) && (lf_off target + k <? ap_insert_off p + blen pkg)) with false by lia.
      replace ((ap_insert_off p + blen pkg <=? lf_off target + k) && (lf_off target + k <? ap_insert_tail p + blen pkg)) with true by lia.
      rewrite <-Hb by lia. f_equal. lia.
  - intros k Hk Hr'. rewrite Hget.
    + replace ((ap_insert_off p <=? k) && (k <? ap_insert_off p + blen pkg)) with false by lia.
      by replace ((ap_insert_off p + blen pkg <=? k) && (k <? ap_insert_tail p + blen pkg)) with false by lia.
    + repeat (apply Forall_cons in Hk as [? Hk]). repeat constructor; done.
Qed.

(** ** Form packages in the body *)

Lemma package_op_total body i o stack st :
  0 <= i -> op_at body i o -> i + op_len o <= blen body -> exists st', package_op body i o stack st = Ok st'.
Proof.
  intros Hi Ho Hle. assert (post (package_op body i o stack st) (fun _ => True) (fun _ => False)) as H.
  { unfold package_op, formset_header, raw_form.
    case_bool_decide; [|case_bool_decide; [|done]].
    - destruct (Z.ltb_spec (op_len o) 23); [done|].
      apply post_bind, post_bind, slice_post; [lia..|]. by apply post_bind, u16_in_post; [lia..|].
    - destruct (Z.ltb_spec (op_len o) 6); [done|].
      apply post_bind, post_bind, u16_in_post; [lia..|]. intros ? _ _. by apply post_bind, u16_in_post; [lia..|]. }
  destruct (package_op body i o stack st); try done. by eexists.
Qed.

Lemma parse_form_package_total body : exists o, parse_form_package body = Ok o.
Proof.
  assert (post (parse_form_package body) (fun _ => True) (fun _ => False)) as H.
  2: { destruct (parse_form_package body); try done. by eexists. }
  unfold parse_form_package. destruct (is_form_package body); [|done]. cbn [negb].
  apply post_bind, package_bounds_post. intros s e Hs Hsl Hel _ _. cbn [fst snd].
  apply post_bind. eapply post_mono;
    [apply (scan_loop body _ (fun s => fst (fst s)) (fun _ => True) (fun _ => True) (fun _ => False))|done|done].
  - intros [[i stack] st] Hi _. cbn [fst] in *. unfold form_package_step. destruct (Z.leb_spec (i + 2) e); [|done].
    apply post_bind, read_op_post; [lia|lia|lia|done|]. intros o Ho Hle. cbn [fst] in *.
    destruct (package_op_total body i o stack st) as [st' ->]; [lia|done|lia|]. destruct Ho as (_ & _ & _ & H2).
    destruct st'; cbn; [split_and!; done || lia|done].
  - cbn. lia.
  - done.
Qed.

Lemma covered_Ok exclude pos :
  Forall (fun r => fst r + snd r <= usize_max) exclude ->
  covered exclude pos = Ok (existsb (fun r => (fst r <=? pos) && (pos <? fst r + snd r)) exclude).
Proof.
  induction 1 as [|[o l] exclude Hr _ IH]; [done|]. cbn [covered existsb fst snd] in *.
  destruct (Z.leb_spec o pos); cbn [andb orb]; [|done].
  unfold uadd. replace (o + l <=? usize_max) with true by lia. cbn [mbind outcome_bind].
  by destruct (pos <? o + l).
Qed.

(** A range of the scan: a form package outside the excluded ranges. *)
Definition bare_form (pe : list byte) (exclude : list (Z * Z)) (r : Z * Z) : Prop :=
  24 <= snd r /\ 0 <= fst r /\ fst r + snd r <= blen pe /\
  le_dec (sub pe (fst r) (fst r + 3)) = snd r /\
  (exists f, parse_form_package (sub pe (fst r) (fst r + snd r)) = Ok (Some f)) /\
  Forall (fun x => ~ (fst x <= fst r < fst x + snd x)) exclude.
(** The first range ends before the second one starts. *)
Definition range_before (r r' : Z * Z) : Prop := fst r + snd r <= fst r'.

Lemma sorted_snoc {A} (R : A -> A -> Prop) l x :
  StronglySorted R l -> Forall (fun y => R y x) l -> StronglySorted R (l ++ [x]).
Proof.
  induction 1 as [|y l Hl IH Hy]; intros Hx; cbn [app]; [repeat constructor|].
  apply Forall_cons in Hx as [Hyx Hx]. constructor; [by apply IH|]. apply Forall_app. split; [done|by repeat constructor].
Qed.

Lemma bare_step_post pe exclude pos out :
  Forall (fun r => fst r + snd r <= usize_max) exclude -> 0 <= pos ->
  Forall (bare_form pe exclude) out -> StronglySorted range_before out ->
  Forall (fun r => fst r + snd r <= pos) out ->
  post (bare_step pe exclude (pos, out))
    (fun r => match r with
              | inl (pos', out') => pos < pos' /\ pos < blen pe /\ Forall (bare_form pe exclude) out' /\
                  StronglySorted range_before out' /\ Forall (fun r => fst r + snd r <= pos') out'
              | inr out' => Forall (bare_form pe exclude) out' /\ StronglySorted range_before out'
              end) (fun _ => False).
Proof.
  intros He H0 Hb Hs Hp. unfold bare_step. destruct (Z.leb_spec (pos + 5) (blen pe)); [|done].
  apply post_bind, u24_at_post; [lia|lia|]. intros plen Hplen Hpl.
  apply post_bind, index_post; [lia|]. intros kind Hkind. apply post_bind, index_post; [lia|]. intros op Hop.
  destruct (bool_decide (kind = PACKAGE_FORMS) && _ && _ && _) eqn:Hc.
  2: { cbn. split_and!; try done; try lia. eapply Forall_impl; [done|]. cbn. lia. }
  bool_to_prop. rewrite (covered_Ok _ _ He). cbn [mbind outcome_bind].
  assert (Forall (fun r => fst r + snd r <= pos + plen) out) as Hp' by (eapply Forall_impl; [done|]; cbn; lia).
  destruct (existsb _ exclude) eqn:Hcov; cbn [negb].
  { cbn. split_and!; done || lia. }
  apply post_bind, post_bind, slice_post; [lia|lia|lia|].
  destruct (parse_form_package_total (sub pe pos (pos + plen))) as [f Hf]. rewrite Hf. cbn [mbind outcome_bind].
  destruct f as [f|]; cbn [post mret outcome_ret]; [|split_and!; done || lia].
  assert (bare_form pe exclude (pos, plen)) as Hbf.
  { split_and!; cbn [fst snd]; try done; try lia; [by exists f|]. apply Forall_forall. intros x Hx Hin.
    enough (existsb (fun r => (fst r <=? pos) && (pos <? fst r + snd r)) exclude = true) by congruence.
    apply existsb_exists. exists x. split; [by apply list_elem_of_In|lia]. }
  split_and!; [lia|lia|apply Forall_app; split; [done|by apply Forall_singleton]| |].
  - apply sorted_snoc; [done|]. eapply Forall_impl; [exact Hp|]. intros r. unfold range_before. cbn. lia.
  - apply Forall_app. split; [done|]. apply Forall_singleton. cbn. lia.
Qed.

(** The scan of an image for form packages terminates without a panic; what it
    returns are form packages that lie one behind the other in the image, whose length
    headers are their lengths and which do not start in an excluded range, and the
    packages handed out are their bytes. *)
Theorem bare_form_packages_sound pe exclude :
  Forall (fun r => fst r + snd r <= usize_max) exclude ->
  exists rs, bare_form_package_ranges pe exclude = Ok rs /\
    Forall (bare_form pe exclude) rs /\ StronglySorted range_before rs /\
    bare_form_packages pe exclude = Ok (map (fun r => sub pe (fst r) (fst r + snd r)) rs).
Proof.
  intros He. unfold bare_form_packages.
  assert (post (bare_form_package_ranges pe exclude)
            (fun rs => Forall (bare_form pe exclude) rs /\ StronglySorted range_before rs) (fun _ => False)) as H.
  { apply (scan_loop pe _ fst (fun s => Forall (bare_form pe exclude) (snd s) /\
      StronglySorted range_before (snd s) /\ Forall (fun r => fst r + snd r <= fst s) (snd s))); [|cbn; lia|cbn; split_and!; constructor].
    intros [pos out] H0 (Hb & Hs & Hp). eapply post_mono; [by apply bare_step_post| |done]. by intros [[? ?]|]. }
  destruct (bare_form_package_ranges pe exclude) as [rs| | |]; try done. destruct H as [Hb Hs].
  exists rs. split_and!; [done..|]. cbn [mbind outcome_bind].
  enough (forall acc, foldM (fun out r => p ← slice pe (fst r) (fst r + snd r); mret (out ++ [p])) rs acc
                      = Ok (E := Empty_set) (acc ++ map (fun r => sub pe (fst r) (fst r + snd r)) rs)) as Hm by apply (Hm []).
  clear He Hs. induction Hb as [|r rs (? & ? & ? & _) _ IH]; intros acc; cbn [foldM map]; [by rewrite app_nil_r|].
  assert (slice pe (fst r) (fst r + snd r) = Ok (E := Empty_set) (sub pe (fst r) (fst r + snd r))) as ->
    by (apply slice_Ok; split; [lia|done]). cbn [mbind outcome_bind mret outcome_ret].
  rewrite IH. by rewrite <-app_assoc.
Qed.

End PeListFacts.
