(* ===== verification/IfrFacts.v ===== *)
(** The IFR of a schema reads back: what [build_ifr] emits is a run of opcodes in which
    every opened scope is closed, and [parse_form_package] finds in its package the form
    set and exactly the forms of the schema. *)
From stdpp Require Import gmap.
From S2P Require Import Prelude Text Types Ffs Parser Hii Schema FormsetAdd Ifr HiiFacts.

Section IfrFacts.
Context {GL : GuidLib} {RH : RefiHii}.

(** ** Statements *)

(** An opcode with its operands, and its bytes. *)
Record Stmt := {
  s_code : byte;
  s_scope : bool;
  s_data : list byte
}.
Definition enc (s : Stmt) : list byte := write_header [] (s_code s) (s_scope s) (blen (s_data s)) ++ s_data s.
Definition encs (sts : list Stmt) : list byte := concat (map enc sts).
Definition fits (s : Stmt) : Prop := blen (s_data s) <= 125.
Definition ls_byte (scope : bool) (len : Z) : byte :=
  z2b (Z.lor (Z.land (wrap 8 len) 0x7F) (if scope then 0x80 else 0x00)).
Definition op_of (s : Stmt) : IfrOp :=
  {| op_code := s_code s; op_ls := ls_byte (s_scope s) (blen (s_data s) + 2); op_len := blen (s_data s) + 2 |}.

Lemma ls_byte_spec scope len :
  0 <= len < 128 ->
  Z.land (b2z (ls_byte scope len)) 0x7F = len /\ negb (Z.land (b2z (ls_byte scope len)) 0x80 =? 0) = scope.
Proof.
  intros Hl.
  assert (forallb (fun n => (Z.land (b2z (ls_byte scope n)) 0x7F =? n)
                            && Bool.eqb (negb (Z.land (b2z (ls_byte scope n)) 0x80 =? 0)) scope)
            (map Z.of_nat (seq 0 128)) = true) as Hall by (by destruct scope; vm_compute).
  rewrite forallb_forall in Hall. specialize (Hall len).
  destruct (andb_prop _ _ (Hall ltac:(apply in_map_iff; exists (Z.to_nat len); rewrite in_seq; lia))) as [H1 H2].
  split; [by apply Z.eqb_eq|by apply Bool.eqb_prop].
Qed.

Lemma enc_eq s : enc s = [s_code s; ls_byte (s_scope s) (blen (s_data s) + 2)] ++ s_data s.
Proof. done. Qed.
Lemma blen_enc s : blen (enc s) = op_len (op_of s).
Proof. rewrite enc_eq. cbn [op_len op_of]. blen_lia. Qed.
Lemma encs_cons s sts : encs (s :: sts) = enc s ++ encs sts.
Proof. done. Qed.
Lemma encs_app a b : encs (a ++ b) = encs a ++ encs b.
Proof. unfold encs. by rewrite map_app, concat_app. Qed.

Lemma op_scoped_of s : fits s -> op_scoped (op_of s) = s_scope s.
Proof.
  intros Hf. unfold op_scoped. cbn [op_ls op_of]. apply ls_byte_spec. unfold fits in Hf.
  pose proof (blen_nonneg (s_data s)). lia.
Qed.

Lemma enc_op_at pre s suf : fits s -> op_at (pre ++ enc s ++ suf) (blen pre) (op_of s).
Proof.
  intros Hf. pose proof (blen_nonneg (s_data s)). pose proof (blen_nonneg pre).
  assert (forall k, 0 <= k < 2 -> get (pre ++ enc s ++ suf) (blen pre + k) = get (enc s) k) as Hg.
  { intros k Hk. rewrite get_app_r by lia. rewrite get_app_l by (rewrite blen_enc; cbn [op_len op_of]; lia).
    f_equal. lia. }
  split_and!.
  - by rewrite <-(Z.add_0_r (blen pre)), Hg by lia.
  - by rewrite Hg by lia.
  - cbn [op_len op_ls op_of]. symmetry. apply ls_byte_spec. unfold fits in Hf. lia.
  - cbn [op_len op_of]. lia.
Qed.

Lemma encs_ops_at pre sts suf :
  Forall fits sts -> ops_at (pre ++ encs sts ++ suf) (blen pre) (map op_of sts) (blen pre + blen (encs sts)).
Proof.
  intros Hall. revert pre. induction Hall as [|s sts Hs _ IH]; intros pre; cbn [map ops_at].
  { change (blen (encs [])) with 0. lia. }
  rewrite encs_cons, <-app_assoc. split; [by apply enc_op_at|].
  specialize (IH (pre ++ enc s)). rewrite <-app_assoc, blen_app in IH.
  rewrite <-blen_enc, blen_app. by replace (blen pre + (blen (enc s) + blen (encs sts))) with (blen pre + blen (enc s) + blen (encs sts)) by lia.
Qed.

(** ** Reading the forms back *)

(** The operands behind the two bytes of the header. *)
Lemma sub_operands pre s suf a b :
  0 <= a -> b <= blen (s_data s) ->
  sub (pre ++ enc s ++ suf) (blen pre + 2 + a) (blen pre + 2 + b) = sub (s_data s) a b.
Proof.
  intros Ha Hb. rewrite enc_eq, <-app_assoc.
  rewrite sub_app_r by lia. set (h := [_; _]). rewrite sub_app_r by (change (blen h) with 2; lia).
  change (blen h) with 2. rewrite sub_app_l by lia. f_equal; lia.
Qed.

Lemma u16_operands {pre s suf} a i :
  0 <= a -> a + 2 <= blen (s_data s) -> i = blen pre + 2 + a ->
  u16_in (pre ++ enc s ++ suf) i = Ok (le_dec (sub (s_data s) a (a + 2))).
Proof.
  intros Ha Hb ->. pose proof (blen_nonneg pre). pose proof (blen_nonneg suf).
  assert (post (u16_in (pre ++ enc s ++ suf) (blen pre + 2 + a))
            (fun z => z = le_dec (sub (s_data s) a (a + 2))) (fun _ => False)) as Hp.
  { apply u16_in_post; [lia|rewrite !blen_app, blen_enc; cbn [op_len op_of]; lia|]. intros z -> _.
    rewrite <-(sub_operands pre s suf a (a + 2)) by lia. do 2 f_equal. lia. }
  destruct (u16_in _ _); cbn in Hp; [by subst|done..].
Qed.

(** What the scan notes of a statement outside every SUPPRESS_IF. *)
Definition note (st : PackageScan) (s : Stmt) : PackageScan :=
  if bool_decide (s_code s = IFR_FORM_SET_OP) then
    {| ps_guid := Some (guid_of_array (sub (s_data s) 0 16)); ps_title := le_dec (sub (s_data s) 16 18);
       ps_forms := ps_forms st |}
  else if bool_decide (s_code s = IFR_FORM_OP) then
    {| ps_guid := ps_guid st; ps_title := ps_title st;
       ps_forms := ps_forms st ++ [{| rf_form_id := le_dec (sub (s_data s) 0 2);
                                      rf_title := le_dec (sub (s_data s) 2 4); rf_suppressed := false |}] |}
  else st.
(** A statement that the scan accepts. *)
Definition readable (s : Stmt) : Prop :=
  fits s /\ s_code s <> IFR_SUPPRESS_IF_OP /\
  (s_code s = IFR_FORM_SET_OP -> 21 <= blen (s_data s)) /\ (s_code s = IFR_FORM_OP -> 4 <= blen (s_data s)).

Lemma package_op_at pre s suf stack st :
  readable s -> IFR_SUPPRESS_IF_OP ∉ stack ->
  package_op (pre ++ enc s ++ suf) (blen pre) (op_of s) stack st = Ok (Some (note st s)).
Proof.
  intros (Hf & _ & Hfs & Hfo) Hst. unfold package_op, note. cbn [op_code op_len op_of].
  pose proof (blen_nonneg pre). pose proof (blen_nonneg suf). unfold fits in Hf.
  destruct (decide (s_code s = IFR_FORM_SET_OP)) as [Hc|Hc].
  { rewrite !(bool_decide_eq_true_2 _ Hc). specialize (Hfs Hc).
    destruct (Z.ltb_spec (blen (s_data s) + 2) 23); [lia|]. unfold formset_header, slice.
    rewrite (proj2 (range_ok_spec _ _ _)) by (rewrite !blen_app, blen_enc; cbn [op_len op_of]; lia).
    cbn [mbind outcome_bind]. rewrite (u16_operands 16) by lia. cbn [mbind outcome_bind mret outcome_ret fst snd].
    assert (sub (pre ++ enc s ++ suf) (blen pre + 2) (blen pre + 18) = sub (s_data s) 0 16) as ->; [|done].
    rewrite <-(sub_operands pre s suf 0 16) by lia. f_equal; lia. }
  rewrite !(bool_decide_eq_false_2 _ Hc).
  destruct (decide (s_code s = IFR_FORM_OP)) as [Hc'|Hc']; [|by rewrite !(bool_decide_eq_false_2 _ Hc')].
  rewrite !(bool_decide_eq_true_2 _ Hc'). specialize (Hfo Hc').
  destruct (Z.ltb_spec (blen (s_data s) + 2) 6); [lia|]. unfold raw_form.
  rewrite (u16_operands 0 (blen pre + 2)), (u16_operands 2 (blen pre + 4)) by lia. cbn [mbind outcome_bind mret outcome_ret].
  by rewrite (bool_decide_eq_false_2 _ Hst).
Qed.

Lemma scan_stack_clean s stack :
  readable s -> IFR_SUPPRESS_IF_OP ∉ stack -> IFR_SUPPRESS_IF_OP ∉ scan_stack (op_of s) stack.
Proof.
  intros (_ & Hs & _) Hst. unfold scan_stack. cbn [op_code op_of].
  assert (IFR_SUPPRESS_IF_OP ∉ (if is_end (op_of s) then list.tail stack else stack)) as Ht.
  { destruct (is_end _); [|done]. destruct stack; [done|]. cbn. intros Hin. by apply Hst, elem_of_cons; right. }
  destruct (op_scoped _); [|done]. intros [Heq|Hin]%elem_of_cons; done.
Qed.

Lemma scan_steps pre sts suf stack st e :
  Forall readable sts -> IFR_SUPPRESS_IF_OP ∉ stack -> blen pre + blen (encs sts) <= e ->
  exists stack', steps (form_package_step (pre ++ encs sts ++ suf) e) (blen pre, stack, st)
    (blen pre + blen (encs sts), stack', fold_left note sts st).
Proof.
  intros Hall. revert pre stack st. induction Hall as [|s sts Hs _ IH]; intros pre stack st Hst He.
  { exists stack. change (blen (encs [])) with 0. rewrite Z.add_0_r. constructor. }
  rewrite encs_cons, blen_app in He. pose proof (blen_nonneg (encs sts)). pose proof (blen_nonneg (s_data s)).
  destruct (IH (pre ++ enc s) (scan_stack (op_of s) stack) (note st s)) as [stack' Hsteps].
  { by apply scan_stack_clean. } { rewrite blen_app. lia. }
  exists stack'. rewrite encs_cons, <-(app_assoc (enc s)). rewrite <-app_assoc, !blen_app in Hsteps.
  rewrite blen_app, Z.add_assoc. eapply steps_next; [|exact Hsteps]. unfold form_package_step.
  pose proof (blen_enc s) as Hl. cbn [op_len op_of] in Hl. destruct (Z.leb_spec (blen pre + 2) e); [|lia].
  rewrite (read_op_at _ _ _ _ (enc_op_at pre s _ (proj1 Hs))) by (cbn [op_len op_of]; lia).
  cbn [mbind outcome_bind]. rewrite package_op_at by done. cbn [mbind outcome_bind]. by rewrite <-blen_enc.
Qed.

(** The scan terminates. *)
Lemma form_scan_converges body e s stack st :
  0 <= s -> e <= blen body -> loop (length body + 1) (form_package_step body e) (s, stack, st) <> Diverge.
Proof.
  intros Hs He. eapply (post_converges _ (fun _ => True) (fun _ => False)).
  apply (scan_loop body _ (fun t => fst (fst t)) (fun _ => True)); [|done|done].
  intros [[i stk] ps] Hi _. cbn [fst] in *. unfold form_package_step. destruct (Z.leb_spec (i + 2) e); [|done].
  apply post_bind, read_op_post; [lia|lia|lia|done|]. intros o Ho Hle. pose proof (op_len_pos _ _ _ Ho).
  apply post_bind. apply (post_mono _ (fun _ => True) _ (fun _ => False)); [|intros [ps'|] _; cbn; lia || done|done].
  unfold package_op. case_bool_decide.
  - destruct (Z.ltb_spec (op_len o) 23); [done|]. apply post_bind. unfold formset_header.
    apply post_bind, slice_post; [lia|lia|lia|]. apply post_bind, u16_in_post; [lia|lia|done].
  - case_bool_decide; [|done]. destruct (Z.ltb_spec (op_len o) 6); [done|]. apply post_bind. unfold raw_form.
    apply post_bind, u16_in_post; [lia|lia|]. intros ? _ _. apply post_bind, u16_in_post; [lia|lia|done].
Qed.

(** A package of readable statements. *)
Lemma parse_package_stmts s sts :
  s_code s = IFR_FORM_SET_OP -> Forall readable (s :: sts) -> 4 + blen (encs (s :: sts)) < 2 ^ 24 ->
  parse_form_package (form_package (encs (s :: sts))) =
    let st := fold_left note sts {| ps_guid := Some (guid_of_array (sub (s_data s) 0 16));
                                    ps_title := le_dec (sub (s_data s) 16 18); ps_forms := [] |} in
    Ok (g ← ps_guid st; Some {| fi_guid := g; fi_title := ps_title st; fi_forms := ps_forms st |}).
Proof.
  intros Hc Hall Hlen. set (ifr := encs (s :: sts)) in *. pose proof (blen_nonneg ifr).
  unfold form_package. set (h := [_; _; _; PACKAGE_FORMS]). assert (blen h = 4) as Hh by done.
  assert (get (h ++ ifr) 4 = Some IFR_FORM_SET_OP) as H4.
  { rewrite get_app_r by lia. rewrite Hh. unfold ifr. rewrite encs_cons, enc_eq. cbn [app]. by rewrite <-Hc. }
  assert (5 <= blen (h ++ ifr)) as H5.
  { assert (0 <= 4 < blen (h ++ ifr)) by (apply get_is_Some; by eexists). lia. }
  assert (is_form_package (h ++ ifr) = true) as Hf.
  { unfold is_form_package. rewrite H4. rewrite !bool_decide_eq_true_2 by done. apply andb_true_intro. split; [|done].
    rewrite andb_true_r. lia. }
  unfold parse_form_package. rewrite Hf. cbn [negb].
  assert (package_bounds (h ++ ifr) = Ok (4, blen (h ++ ifr))) as Hb.
  { assert (post (package_bounds (h ++ ifr)) (fun r => r = (4, blen (h ++ ifr))) (fun _ => False)) as Hp.
    2: { by destruct (package_bounds (h ++ ifr)) as [r|e0| |]; cbn in Hp; [rewrite Hp|..]. }
    apply package_bounds_post. intros a e _ _ _ _ Hbd. destruct (Hbd Hf) as [-> ->]. f_equal.
    rewrite sub_app_l by (rewrite ?Hh; lia). rewrite blen_app, Hh. apply Z.min_r.
    change (sub h 0 3) with [z2b (Z.land (4 + blen ifr) 0xFF); z2b (Z.land (Z.shiftr (4 + blen ifr) 8) 0xFF);
                             z2b (Z.land (Z.shiftr (4 + blen ifr) 16) 0xFF)].
    rewrite !z2b_land_FF, !Z.shiftr_div_pow2 by lia. cbn [le_dec]. rewrite !b2z_z2b. zdm. }
  rewrite Hb. cbn [mbind outcome_bind fst snd].
  destruct (scan_steps h (s :: sts) [] [] {| ps_guid := None; ps_title := 0; ps_forms := [] |} (blen (h ++ ifr)))
    as [stack' Hsteps]; [done|set_solver|rewrite blen_app; unfold ifr; lia|].
  rewrite app_nil_r in Hsteps. fold ifr in Hsteps. rewrite Hh in Hsteps.
  rewrite (steps_loop _ _ _ (Some (fold_left note (s :: sts) {| ps_guid := None; ps_title := 0; ps_forms := [] |})) _ Hsteps).
  - cbn [fold_left mbind outcome_bind]. unfold note at 2. rewrite (bool_decide_eq_true_2 _ Hc). done.
  - unfold form_package_step. destruct (Z.leb_spec (4 + blen ifr + 2) (blen (h ++ ifr))); [|done].
    rewrite blen_app, Hh in *. lia.
  - apply form_scan_converges; lia.
Qed.

(** ** Emission *)

Definition in_u16 (z : Z) : Prop := 0 <= z < 2 ^ 16.
Definition known (ids : gmap ustring Z) (s : ustring) : Prop := exists id, ids !! s = Some id /\ in_u16 id.
Definition sized (size : Z) : Prop := size = 1 \/ size = 2 \/ size = 4 \/ size = 8.
(** The items, forms and form sets that the builder can emit. *)
Definition item_ok (ids : gmap ustring Z) (item : ItemSchema) : Prop :=
  match item with
  | IS_OneOf o => known ids (oo_prompt o) /\ known ids (oo_help o) /\ sized (oo_size o) /\
      Forall (fun opt => known ids (os_text opt)) (oo_options o)
  | IS_CheckBox c => known ids (cb_prompt c) /\ known ids (cb_help c)
  | IS_Numeric n => known ids (nu_prompt n) /\ known ids (nu_help n) /\ sized (nu_size n)
  | IS_Text t => known ids (tx_prompt t) /\ known ids (tx_help t) /\ known ids (tx_text_two t)
  | IS_Ref r => known ids (re_prompt r) /\ known ids (re_help r)
  | IS_String _ | IS_Action _ | IS_OrderedList _ => False
  end.
Definition form_ok (ids : gmap ustring Z) (f : FormSchema) : Prop :=
  in_u16 (fs_id f) /\ known ids (fs_title f) /\ Forall (item_ok ids) (fs_items f).
Definition varstore_ok (vs : VarStoreSchema) : Prop :=
  is_Some (guid_try_parse (vss_guid vs)) /\ blen (as_bytes (vss_name vs)) <= 104.
Definition schema_ok (ids : gmap ustring Z) (sch : FormSetSchema) : Prop :=
  is_Some (guid_try_parse (fss_formset_guid sch)) /\ known ids (fss_title sch) /\ known ids (fss_help sch) /\
  blen (omap guid_try_parse (fss_class_guids sch)) <= 6 /\ Forall varstore_ok (fss_varstores sch) /\
  Forall (fun ds => known ids (ds_name ds)) (fss_default_stores sch) /\ Forall (form_ok ids) (fss_forms sch).

(** A statement of a form: the scan for forms passes over it. *)
Definition plain (s : Stmt) : Prop :=
  fits s /\ s_code s <> IFR_SUPPRESS_IF_OP /\ s_code s <> IFR_FORM_SET_OP /\ s_code s <> IFR_FORM_OP.
Definition leaf (s : Stmt) : Prop := plain s /\ s_scope s = false /\ s_code s <> IFR_END_OP.
Definition opener (s : Stmt) : Prop := fits s /\ s_scope s = true /\ s_code s <> IFR_END_OP.
Definition end_stmt : Stmt := {| s_code := IFR_END_OP; s_scope := false; s_data := [] |}.
Definition closed (sts : list Stmt) : Prop := Forall plain sts /\ balanced (map op_of sts).

Lemma end_plain : plain end_stmt.
Proof. split_and!; [done|by apply (op_ne 18 8)|by apply (op_ne 18 10)|by apply (op_ne 18 0)]. Qed.

Lemma delta_of s : fits s -> s_code s <> IFR_END_OP -> delta (op_of s) = if s_scope s then 1 else 0.
Proof.
  intros Hf Hc. unfold delta, is_end. cbn [op_code op_of]. rewrite (bool_decide_eq_false_2 _ Hc).
  by rewrite op_scoped_of.
Qed.
Lemma delta_end : delta (op_of end_stmt) = -1.
Proof. unfold delta, is_end. cbn [op_code op_of end_stmt s_code]. by rewrite bool_decide_eq_true_2. Qed.

Lemma balanced_app a b : balanced a -> balanced b -> balanced (a ++ b).
Proof. unfold balanced. intros Ha Hb. by rewrite depth_run_app, Ha. Qed.
Lemma balanced_leaf s : leaf s -> balanced [op_of s].
Proof.
  intros ((Hf & _) & Hs & Hc). unfold balanced. cbn [depth_run]. rewrite delta_of by done. by rewrite Hs.
Qed.
Lemma balanced_block s inner :
  opener s -> balanced (map op_of inner) -> balanced (map op_of (s :: inner ++ [end_stmt])).
Proof.
  intros (Hf & Hs & Hc) Hb. unfold balanced. rewrite map_cons, map_app. cbn [depth_run].
  rewrite delta_of, Hs by done. cbn [Z.add Z.ltb Z.compare]. rewrite depth_run_app.
  pose proof (depth_run_shift 0 _ 0 1 ltac:(lia) Hb) as Hsh. cbn [Z.add] in Hsh. rewrite Hsh.
  cbn [mbind option_bind map depth_run]. by rewrite delta_end.
Qed.

Lemma closed_leafs sts : Forall leaf sts -> closed sts.
Proof.
  induction 1 as [|s sts Hs _ [Hp Hb]]; [by split|]. split.
  - constructor; [apply Hs|done].
  - exact (balanced_app [_] _ (balanced_leaf _ Hs) Hb).
Qed.
Lemma closed_app a b : closed a -> closed b -> closed (a ++ b).
Proof. intros [? ?] [? ?]. split; [by apply Forall_app|]. rewrite map_app. by apply balanced_app. Qed.
Lemma closed_block s inner : plain s -> opener s -> closed inner -> closed (s :: inner ++ [end_stmt]).
Proof.
  intros Hs Ho [Hp Hb]. split; [|by apply balanced_block].
  constructor; [done|]. apply Forall_app. split; [done|]. apply Forall_singleton, end_plain.
Qed.

(** A computation that appends statements with property [Q] to the builder. *)
Definition emits {E} (f : IfrBuilder -> outcome E IfrBuilder) (Q : list Stmt -> Prop) : Prop :=
  exists sts, Q sts /\ forall b, f b = Ok (b ++ encs sts).

Lemma foldM_emits {E A} (f : IfrBuilder -> A -> outcome E IfrBuilder) (Q : A -> list Stmt -> Prop) l :
  Forall (fun a => emits (fun b => f b a) (Q a)) l ->
  emits (fun b => foldM f l b) (fun sts => exists stss, sts = concat stss /\ Forall2 Q l stss).
Proof.
  induction 1 as [|a l (sts & HQ & Hf) _ (r & (stss & -> & HQs) & Hr)].
  - exists []. split; [by exists []|]. intros b. cbn [foldM]. by rewrite app_nil_r.
  - exists (sts ++ concat stss). split; [exists (sts :: stss); split; [done|by constructor]|].
    intros b. cbn [foldM]. rewrite Hf. cbn [mbind outcome_bind]. by rewrite Hr, encs_app, app_assoc.
Qed.

Lemma concat_closed {A} (P : A -> list Stmt -> Prop) l stss :
  (forall a sts, P a sts -> closed sts) -> Forall2 P l stss -> closed (concat stss).
Proof. intros HP. induction 1; [by split|]. apply closed_app; [by eapply HP|done]. Qed.

Lemma encs_one s : encs [s] = enc s.
Proof. unfold encs. cbn [map concat]. by rewrite app_nil_r. Qed.

(** One opcode: the header, then as many bytes as it announces. *)
Lemma emit_stmt b c sc len data :
  len = blen data -> write_header b c sc len ++ data = b ++ encs [{| s_code := c; s_scope := sc; s_data := data |}].
Proof. intros ->. by rewrite encs_one, enc_eq, app_assoc. Qed.

Lemma string_id_known {E} ids s : known ids s -> exists id, string_id (E := E) ids s = Ok id /\ in_u16 id.
Proof. intros (id & Hid & ?). exists id. split; [|done]. unfold string_id. by rewrite Hid. Qed.

(** The opcode at index [i] is none of those the scan for forms looks at. *)
Ltac plain_op i :=
  split_and!; [unfold fits; cbn [s_data]; autorewrite with blen; try lia
              |by apply (op_ne i 8)|by apply (op_ne i 10)|by apply (op_ne i 0)].

Lemma emit_end_eq b : emit_end b = b ++ encs [end_stmt].
Proof. pose proof (emit_stmt b IFR_END_OP false 0 [] eq_refl) as H. by rewrite app_nil_r in H. Qed.

Lemma blen_value v size : sized size -> blen (value_to_bytes v size) = size.
Proof. unfold value_to_bytes. by intros [-> | [-> | [-> | ->]]]. Qed.
Lemma usub_sized {E} size : sized size -> usub (E := E) size 1 = Ok (size - 1).
Proof. by intros [-> | [-> | [-> | ->]]]. Qed.
Lemma sized_bounds size : sized size -> 1 <= size <= 8.
Proof. unfold sized. lia. Qed.

Lemma emit_option_emits ids size opt :
  known ids (os_text opt) -> sized size -> emits (fun b => emit_option ids size b opt) (Forall leaf).
Proof.
  intros (id & Hid & _) Hs. unfold emit_option, string_id. rewrite Hid. cbn [unwrap mbind outcome_bind].
  rewrite (usub_sized _ Hs). cbn [mbind outcome_bind]. unfold emit_one_of_option.
  eexists [{| s_code := IFR_ONE_OF_OPTION_OP; s_scope := false; s_data := _ |}].
  split; [|intros b; unfold mret, outcome_ret; f_equal; apply emit_stmt; rewrite !blen_app, blen_le_enc; 
           rewrite !blen_cons, blen_nil; lia].
  pose proof (sized_bounds _ Hs). pose proof (blen_value (os_value opt) _ Hs).
  apply Forall_singleton. split_and!; [plain_op 7%nat|done|by apply (op_ne 7 18)].
Qed.

Lemma emit_default_value_emits id size v :
  sized size -> emits (fun b => emit_default_value b id size v) (Forall leaf).
Proof.
  intros Hs. unfold emit_default_value. destruct v as [v|].
  2: { exists []. split; [done|]. intros b. by rewrite app_nil_r. }
  rewrite (usub_sized _ Hs). cbn [mbind outcome_bind]. unfold emit_default.
  eexists [{| s_code := IFR_DEFAULT_OP; s_scope := false; s_data := _ |}].
  split; [|intros b; unfold mret, outcome_ret; f_equal; apply emit_stmt; rewrite !blen_app, blen_le_enc;
           rewrite !blen_cons, blen_nil; lia].
  pose proof (sized_bounds _ Hs). pose proof (blen_value v _ Hs).
  apply Forall_singleton. split_and!; [plain_op 23%nat|done|by apply (op_ne 23 18)].
Qed.

Lemma emits_bind {E} (f g : IfrBuilder -> outcome E IfrBuilder) (P Q R : list Stmt -> Prop) :
  emits f P -> emits g Q -> (forall a b, P a -> Q b -> R (a ++ b)) -> emits (fun b => b ← f b; g b) R.
Proof.
  intros (a & Ha & Hf) (c & Hc & Hg) HR. exists (a ++ c). split; [by apply HR|].
  intros b. rewrite Hf. cbn [mbind outcome_bind]. by rewrite Hg, encs_app, app_assoc.
Qed.

Lemma emits_weaken {E} (f : IfrBuilder -> outcome E IfrBuilder) (P Q : list Stmt -> Prop) :
  emits f P -> (forall a, P a -> Q a) -> emits f Q.
Proof. intros (a & Ha & Hf) HR. exists a. auto. Qed.

Lemma emit_defaults_emits size d : sized size -> emits (fun b => emit_defaults b size d) (Forall leaf).
Proof.
  intros Hs. unfold emit_defaults. eapply emits_bind; [by apply emit_default_value_emits..|].
  intros. by apply Forall_app.
Qed.

Lemma emit_options_emits ids size opts :
  Forall (fun opt => known ids (os_text opt)) opts -> sized size ->
  emits (fun b => foldM (emit_option ids size) opts b) (Forall leaf).
Proof.
  intros Ho Hs. eapply emits_weaken.
  - apply (foldM_emits _ (fun _ => Forall leaf)). eapply Forall_impl; [done|]. intros. by apply emit_option_emits.
  - intros a (stss & -> & HQ). induction HQ as [|opt sts opts' stss Ho' _ IH]; [constructor|].
    cbn [concat]. apply Forall_app. split; [exact Ho'|]. apply IH. by inversion Ho.
Qed.

(** A question opcode, its options and defaults, and its END. *)
Lemma emits_block {E} (f : IfrBuilder -> outcome E IfrBuilder) b0 s :
  plain s -> opener s -> (forall b, b0 b = b ++ encs [s]) -> emits f (Forall leaf) ->
  emits (fun b => b ← f (b0 b); mret (emit_end b)) closed.
Proof.
  intros Hs Ho Hb0 (a & Ha & Hf). exists (s :: a ++ [end_stmt]). split; [by apply closed_block, closed_leafs|].
  intros b. rewrite Hf, Hb0. cbn [mbind outcome_bind]. unfold mret, outcome_ret.
  rewrite emit_end_eq, <-!app_assoc. change (s :: a ++ [end_stmt]) with ([s] ++ a ++ [end_stmt]). by rewrite !encs_app.
Qed.

Ltac known_ids :=
  repeat match goal with
  | H : known ?ids ?s |- context [string_id ?ids ?s] =>
      let id := fresh "id" in let Hid := fresh "Hid" in
      destruct H as (id & Hid & _); unfold string_id at 1; rewrite Hid; cbn [unwrap mbind outcome_bind]
  end.
Lemma blen_question_header p h q vs vo : blen (question_header p h q vs vo) = 11.
Proof. done. Qed.

Lemma one_of_stmt p h q vs vo fl size :
  sized size -> exists s, plain s /\ opener s /\
    forall b, emit_one_of b p h q vs vo fl size = Ok (b ++ encs [s]).
Proof.
  intros Hs. pose proof (sized_bounds _ Hs). unfold emit_one_of, numeric_flags, min_max_step_default.
  rewrite (usub_sized _ Hs). cbn [mbind outcome_bind]. unfold mret, outcome_ret. cbn [mbind outcome_bind].
  eexists {| s_code := IFR_ONE_OF_OP; s_scope := true; s_data := _ |}. split; [|split].
  3: { intros b. f_equal. rewrite <-!app_assoc. apply emit_stmt. rewrite !blen_app, blen_question_header, !blen_value by done.
       change (blen [_]) with 1. lia. }
  - plain_op 3%nat. rewrite blen_question_header, !blen_value by done. lia.
  - split_and!; [|done|by apply (op_ne 3 18)]. unfold fits. cbn [s_data].
    rewrite !blen_app, blen_question_header, !blen_value by done. change (blen [_]) with 1. lia.
Qed.

Lemma numeric_stmt p h q vs vo fl size mn mx st :
  sized size -> exists s, plain s /\ opener s /\
    forall b, emit_numeric b p h q vs vo fl size mn mx st = Ok (b ++ encs [s]).
Proof.
  intros Hs. pose proof (sized_bounds _ Hs). unfold emit_numeric, numeric_flags.
  rewrite (usub_sized _ Hs). cbn [mbind outcome_bind]. unfold mret, outcome_ret. cbn [mbind outcome_bind].
  eexists {| s_code := IFR_NUMERIC_OP; s_scope := true; s_data := _ |}. split; [|split].
  3: { intros b. f_equal. rewrite <-!app_assoc. apply emit_stmt. rewrite !blen_app, blen_question_header, !blen_value by done.
       change (blen [_]) with 1. lia. }
  - plain_op 5%nat. rewrite blen_question_header, !blen_value by done. lia.
  - split_and!; [|done|by apply (op_ne 5 18)]. unfold fits. cbn [s_data].
    rewrite !blen_app, blen_question_header, !blen_value by done. change (blen [_]) with 1. lia.
Qed.

Lemma emit_item_emits ids item : item_ok ids item -> emits (fun b => emit_item b item ids) closed.
Proof.
  destruct item as [o|c|n|t|r| | |]; cbn [item_ok emit_item]; [..|done|done|done].
  - intros (Hp & Hh & Hs & Ho). known_ids.
    destruct (one_of_stmt id0 id (oo_question_id o) (oo_var_store_id o) (oo_var_offset o) (display_flags (oo_display o))
                (oo_size o) Hs) as (s & Hpl & Hop & He).
    pose proof (emits_bind _ _ _ _ _ (emit_options_emits ids _ _ Ho Hs) (emit_defaults_emits _ (oo_defaults o) Hs)
                  (fun a b Ha Hb => proj2 (Forall_app _ _ _) (conj Ha Hb))) as Hin.
    destruct (emits_block _ (fun b => b ++ encs [s]) s Hpl Hop (fun _ => eq_refl) Hin) as (sts & Hc & Hb).
    exists sts. split; [done|]. intros b. rewrite He, <-Hb. cbn [mbind outcome_bind].
    by destruct (foldM _ _ _).
  - intros (Hp & Hh). known_ids.
    eexists ({| s_code := IFR_CHECKBOX_OP; s_scope := true; s_data := _ |} :: [] ++ [end_stmt]).
    split; [|intros b; unfold mret, outcome_ret; rewrite emit_end_eq; unfold emit_check_box; f_equal;
             erewrite emit_stmt by done; by rewrite <-app_assoc, <-encs_app].
    apply closed_block; [plain_op 4%nat; done|split_and!; [done|done|by apply (op_ne 4 18)]|by apply closed_leafs].
  - intros (Hp & Hh & Hs). known_ids.
    destruct (numeric_stmt id0 id (nu_question_id n) (nu_var_store_id n) (nu_var_offset n) (display_flags (nu_display n))
                (nu_size n) (nu_min n) (nu_max n) (nu_step n) Hs) as (s & Hpl & Hop & He).
    destruct (emits_block _ (fun b => b ++ encs [s]) s Hpl Hop (fun _ => eq_refl)
                (emit_defaults_emits _ (nu_defaults n) Hs)) as (sts & Hc & Hb).
    exists sts. split; [done|]. intros b. by rewrite He, <-Hb.
  - intros (Hp & Hh & Ht). known_ids. eexists [{| s_code := IFR_TEXT_OP; s_scope := false; s_data := _ |}].
    split; [|intros b; unfold mret, outcome_ret, emit_text; f_equal; by apply emit_stmt].
    apply closed_leafs, Forall_singleton. split_and!; [plain_op 2%nat; done|done|by apply (op_ne 2 18)].
  - intros (Hp & Hh). known_ids. eexists [{| s_code := IFR_REF_OP; s_scope := false; s_data := _ |}].
    split; [|intros b; unfold mret, outcome_ret, emit_ref; f_equal; by apply emit_stmt].
    apply closed_leafs, Forall_singleton. split_and!; [plain_op 11%nat; done|done|by apply (op_ne 11 18)].
Qed.

(** *** Forms *)

Definition form_row (ids : gmap ustring Z) (f : FormSchema) : RawForm :=
  {| rf_form_id := fs_id f; rf_title := default 0 (ids !! fs_title f); rf_suppressed := false |}.
Definition form_stmts (ids : gmap ustring Z) (f : FormSchema) (sts : list Stmt) : Prop :=
  exists t inner, ids !! fs_title f = Some t /\ in_u16 t /\ in_u16 (fs_id f) /\ closed inner /\
    sts = {| s_code := IFR_FORM_OP; s_scope := true; s_data := le_enc 2 (fs_id f) ++ le_enc 2 t |}
          :: inner ++ [end_stmt].

Lemma items_emits ids items :
  Forall (item_ok ids) items -> emits (fun b => foldM (fun b item => emit_item b item ids) items b) closed.
Proof.
  intros Hok. eapply emits_weaken.
  - apply (foldM_emits _ (fun _ => closed)). eapply Forall_impl; [done|]. intros. by apply emit_item_emits.
  - intros a (stss & -> & HQ). eapply concat_closed; [|done]. done.
Qed.

Lemma emit_form_emits ids f :
  form_ok ids f -> emits (fun b => emit_schema_form ids b f) (form_stmts ids f).
Proof.
  intros (Hid & (t & Ht & Htb) & Hitems). destruct (items_emits ids _ Hitems) as (inner & Hc & Hb).
  eexists. split; [exists t, inner; by split_and!|]. intros b. unfold emit_schema_form, string_id. rewrite Ht.
  cbn [unwrap mbind outcome_bind]. unfold emit_form. erewrite emit_stmt by done. rewrite Hb.
  cbn [mbind outcome_bind]. unfold mret, outcome_ret. rewrite emit_end_eq, <-!app_assoc, <-!encs_app. done.
Qed.

Lemma note_plain sts st : Forall plain sts -> fold_left note sts st = st.
Proof.
  induction 1 as [|s sts (_ & _ & Hfs & Hfo) _ IH]; [done|]. cbn [fold_left]. unfold note at 2.
  by rewrite (bool_decide_eq_false_2 _ Hfs), (bool_decide_eq_false_2 _ Hfo).
Qed.
Lemma plain_readable s : plain s -> readable s.
Proof. intros (? & ? & ? & ?). by split_and!. Qed.

Definition noted (g : option Guid) (t : Z) (forms : list RawForm) : PackageScan :=
  {| ps_guid := g; ps_title := t; ps_forms := forms |}.

Lemma u16_field z k : in_u16 z -> le_dec (sub (le_enc 2 z ++ k) 0 2) = z.
Proof. intros Hz. change (sub (le_enc 2 z ++ k) 0 2) with (le_enc 2 z). by apply le_dec_enc_small. Qed.

(** The scan notes a form with its identifier and title, and nothing of its contents. *)
Lemma note_form ids f sts g t forms :
  form_stmts ids f sts -> fold_left note sts (noted g t forms) = noted g t (forms ++ [form_row ids f]).
Proof.
  intros (ti & inner & Ht & Htb & Hib & [Hp _] & ->). cbn [fold_left]. unfold note at 2. cbn [s_code s_data].
  rewrite (bool_decide_eq_false_2 (IFR_FORM_OP = _)) by by apply (op_ne 0 10). rewrite bool_decide_eq_true_2 by done.
  rewrite note_plain by (apply Forall_app; split; [done|apply Forall_singleton, end_plain]).
  unfold noted, form_row. rewrite Ht. do 4 f_equal.
  - by apply u16_field.
  - change (sub (le_enc 2 (fs_id f) ++ le_enc 2 ti) 2 4) with (sub (le_enc 2 ti ++ []) 0 2). by apply u16_field.
Qed.

Lemma note_forms ids forms stss g t rows :
  Forall2 (form_stmts ids) forms stss ->
  fold_left note (concat stss) (noted g t rows) = noted g t (rows ++ map (form_row ids) forms).
Proof.
  intros H. revert rows. induction H as [|f sts forms stss Hf _ IH]; intros rows; cbn [concat map].
  - by rewrite app_nil_r.
  - rewrite fold_left_app, (note_form _ _ _ _ _ _ Hf), IH. by rewrite <-app_assoc.
Qed.

Lemma form_stmts_ok ids f sts : form_stmts ids f sts -> Forall readable sts /\ balanced (map op_of sts).
Proof.
  intros (t & inner & _ & _ & _ & [Hp Hb] & ->). split.
  - constructor.
    + split_and!; [done|by apply (op_ne 0 8)|by intros; apply (op_ne 0 10) in H|done].
    + eapply Forall_impl; [apply Forall_app; split; [done|apply Forall_singleton, end_plain]|apply plain_readable].
  - apply balanced_block; [|done]. split_and!; [done|done|by apply (op_ne 0 18)].
Qed.

Lemma forms_emits ids forms :
  Forall (form_ok ids) forms ->
  emits (fun b => foldM (emit_schema_form ids) forms b)
    (fun sts => Forall readable sts /\ balanced (map op_of sts) /\
       forall g t rows, fold_left note sts (noted g t rows) = noted g t (rows ++ map (form_row ids) forms)).
Proof.
  intros Hok. eapply emits_weaken.
  - apply (foldM_emits _ (form_stmts ids)). eapply Forall_impl; [done|]. intros. by apply emit_form_emits.
  - intros a (stss & -> & HQ). split; [|split].
    + clear Hok. induction HQ as [|f sts fs stss Hf _ IH]; [done|]. cbn [concat]. apply Forall_app.
      split; [by eapply form_stmts_ok|done].
    + clear Hok. induction HQ as [|f sts fs stss Hf _ IH]; [done|]. cbn [concat]. rewrite map_app.
      apply balanced_app; [by eapply form_stmts_ok|done].
    + intros. by apply note_forms.
Qed.

(** *** Form sets *)

Lemma leafs_emits {E A} (f : IfrBuilder -> A -> outcome E IfrBuilder) l :
  Forall (fun a => emits (fun b => f b a) (Forall leaf)) l -> emits (fun b => foldM f l b) (Forall leaf).
Proof.
  intros Hl. eapply emits_weaken; [by apply (foldM_emits _ (fun _ => Forall leaf))|].
  intros a (stss & -> & HQ). clear Hl. induction HQ as [|x sts xs stss Hx _ IH]; [constructor|].
  cbn [concat]. by apply Forall_app.
Qed.

Lemma varstore_emits guid_error vs :
  varstore_ok vs -> emits (fun b => emit_varstore guid_error b vs) (Forall leaf).
Proof.
  intros [[g Hg] Hn]. unfold emit_varstore, parse_schema_guid, ok_or. rewrite Hg. cbn [mbind outcome_bind].
  unfold emit_var_store. eexists [{| s_code := IFR_VARSTORE_OP; s_scope := false; s_data := _ |}].
  assert (blen (guid_to_bytes g) = 16) as Hlg by (unfold blen; by rewrite length_guid_to_bytes).
  split; [|intros b; unfold mret, outcome_ret; f_equal; apply emit_stmt; rewrite !blen_app, Hlg, !blen_le_enc;
           change (blen [x00]) with 1; lia].
  apply Forall_singleton. split_and!; [plain_op 24%nat; rewrite ?Hlg; lia|done|by apply (op_ne 24 18)].
Qed.

Lemma store_default_emits ids ds :
  known ids (ds_name ds) -> emits (fun b => emit_store_default ids b ds) (Forall leaf).
Proof.
  intros Hk. unfold emit_store_default. known_ids. unfold emit_default_store.
  eexists [{| s_code := IFR_DEFAULTSTORE_OP; s_scope := false; s_data := _ |}].
  split; [|intros b; unfold mret, outcome_ret; f_equal; by apply emit_stmt].
  apply Forall_singleton. split_and!; [plain_op 27%nat; done|done|by apply (op_ne 27 18)].
Qed.

Lemma blen_guids gs : blen (concat (map guid_to_bytes gs)) = 16 * blen gs.
Proof.
  induction gs as [|g gs IH]; [done|]. cbn [map concat]. rewrite blen_app, IH, blen_cons.
  assert (blen (guid_to_bytes g) = 16) as -> by (unfold blen; by rewrite length_guid_to_bytes). lia.
Qed.

(** The package of a form set: the form set is read from the first statement, the forms
    from the last part of its contents. *)
Lemma parse_formset s vs ds fs g t rows rest :
  s_code s = IFR_FORM_SET_OP -> s_data s = guid_to_bytes g ++ le_enc 2 t ++ rest -> in_u16 t ->
  Forall leaf vs -> Forall leaf ds ->
  (forall g t rows', fold_left note fs (noted g t rows') = noted g t (rows' ++ rows)) ->
  Forall readable (s :: (vs ++ ds ++ fs) ++ [end_stmt]) ->
  4 + blen (encs (s :: (vs ++ ds ++ fs) ++ [end_stmt])) < 2 ^ 24 ->
  parse_form_package (form_package (encs (s :: (vs ++ ds ++ fs) ++ [end_stmt]))) =
    Ok (Some {| fi_guid := g; fi_title := t; fi_forms := rows |}).
Proof.
  intros Hc Hd Htb Hvl Hdl Hfn Hread Hlen. rewrite parse_package_stmts by done. cbv zeta.
  assert (blen (guid_to_bytes g) = 16) as Hlg by (unfold blen; by rewrite length_guid_to_bytes).
  change {| ps_guid := _; ps_title := _; ps_forms := [] |} with
    (noted (Some (guid_of_array (sub (s_data s) 0 16))) (le_dec (sub (s_data s) 16 18)) []).
  assert (forall l, Forall leaf l -> Forall plain l) as Hp by (intros; eapply Forall_impl; [done|]; by intros x (? & _)).
  rewrite !fold_left_app, (note_plain vs), (note_plain ds), Hfn, (note_plain [end_stmt]) by
    first [by apply Hp | by apply Forall_singleton, end_plain].
  cbn [noted ps_guid ps_title ps_forms mbind option_bind app]. rewrite Hd. do 2 f_equal. f_equal.
  - rewrite sub_app_l by lia. rewrite <-Hlg, sub_full. apply guid_of_to_bytes.
  - rewrite sub_app_r by lia. rewrite Hlg. change (16 - 16) with 0. change (18 - 16) with 2. by apply u16_field.
Qed.

(** C28. A schema whose strings have identifiers, whose GUIDs parse and whose items the
    builder supports is emitted without an error or a panic, as a run of opcodes in which
    every opened scope is closed; the form package around it reads back as the form set
    with the GUID and title of the schema and exactly its forms, in order, none of them
    suppressed. *)
Theorem build_parse_roundtrip guid_error sch ids :
  schema_ok ids sch ->
  exists bytes ops g t,
    build_ifr guid_error sch ids = Ok bytes /\ ops_at bytes 0 ops (blen bytes) /\ balanced ops /\
    guid_try_parse (fss_formset_guid sch) = Some g /\ ids !! fss_title sch = Some t /\
    (4 + blen bytes < 2 ^ 24 ->
     parse_form_package (form_package bytes) =
       Ok (Some {| fi_guid := g; fi_title := t; fi_forms := map (form_row ids) (fss_forms sch) |})).
Proof.
  intros ([g Hg] & (t & Ht & Htb) & (h & Hh & _) & Hcl & Hvs & Hds & Hfs).
  destruct (leafs_emits (emit_varstore guid_error) (fss_varstores sch)) as (vs & Hvl & Hv).
  { eapply Forall_impl; [done|]. intros. by apply varstore_emits. }
  destruct (leafs_emits (emit_store_default ids) (fss_default_stores sch)) as (ds & Hdl & Hd).
  { eapply Forall_impl; [done|]. intros. by apply store_default_emits. }
  destruct (forms_emits ids (fss_forms sch) Hfs) as (fs & (Hfr & Hfb & Hfn) & Hf).
  set (gs := omap guid_try_parse (fss_class_guids sch)) in *.
  assert (blen (guid_to_bytes g) = 16) as Hlg by (unfold blen; by rewrite length_guid_to_bytes).
  pose (s := {| s_code := IFR_FORM_SET_OP; s_scope := true;
                s_data := guid_to_bytes g ++ le_enc 2 t ++ le_enc 2 h ++ [z2b (Z.land (wrap 8 (blen gs)) 3)]
                          ++ concat (map guid_to_bytes gs) |}).
  assert (blen (s_data s) = 21 + 16 * blen gs) as Hsl.
  { cbn [s_data s]. rewrite !blen_app, Hlg, !blen_le_enc, blen_guids. change (blen [_]) with 1. lia. }
  pose proof (blen_nonneg gs).
  set (inner := vs ++ ds ++ fs). exists (encs (s :: inner ++ [end_stmt])), (map op_of (s :: inner ++ [end_stmt])), g, t.
  assert (Forall readable (s :: inner ++ [end_stmt])) as Hread.
  { constructor.
    - split_and!; [unfold fits; lia|by apply (op_ne 10 8)|lia|]. by intros Heq; apply (op_ne 10 0) in Heq.
    - apply Forall_app. split; [|apply Forall_singleton, plain_readable, end_plain].
      apply Forall_app. split; [|apply Forall_app; split; [|done]].
      all: eapply Forall_impl; [done|]; intros x (? & _); by apply plain_readable. }
  split_and!; [| | |done|done|].
  - unfold build_ifr, parse_schema_guid, ok_or, string_id. rewrite Hg, Ht, Hh. cbn [unwrap mbind outcome_bind].
    unfold emit_form_set, new_builder. fold gs. rewrite (emit_stmt [] _ _ _ (s_data s)) by done.
    rewrite Hv. cbn [mbind outcome_bind]. rewrite Hd. cbn [mbind outcome_bind]. unfold emit_forms. rewrite Hf.
    cbn [lift map_err mbind outcome_bind]. unfold mret, outcome_ret. rewrite emit_end_eq, <-!app_assoc, <-!encs_app.
    unfold inner. by rewrite <-!app_assoc.
  - pose proof (encs_ops_at [] (s :: inner ++ [end_stmt]) []) as Ho. rewrite app_nil_r in Ho.
    change (blen []) with 0 in Ho. rewrite !app_nil_l in Ho. apply Ho.
    eapply Forall_impl; [done|]. by intros x (? & _).
  - apply balanced_block; [split_and!; [unfold fits; lia|done|by apply (op_ne 10 18)]|]. unfold inner.
    rewrite !map_app. repeat apply balanced_app; [by apply closed_leafs..|done].
  - intros Hlen. apply (parse_formset s vs ds fs g t _ (le_enc 2 h ++ [z2b (Z.land (wrap 8 (blen gs)) 3)]
      ++ concat (map guid_to_bytes gs))); done.
Qed.

End IfrFacts.
