(* ===== verification/FormFacts.v ===== *)
(** The forms of a package: [form_span] finds exactly the first form with the
    identifier in the formset, and opcodes inserted by [splice_question_ops] land
    inside that form, outside every scope of it. *)
From S2P Require Import Prelude Text Types Ffs Parser Hii Values Ifr HiiFacts.

Section FormFacts.
Context {GL : GuidLib} {RH : RefiHii}.

Lemma form_not_end : IFR_FORM_OP <> IFR_END_OP.
Proof. by apply (op_ne 0 18). Qed.

(** ** Form headers *)

Definition form_op_at (body : list byte) (i : Z) (o : IfrOp) (id : Z) : Prop :=
  op_at body i o /\ op_code o = IFR_FORM_OP /\ 6 <= op_len o /\ le_dec (sub body (i + 2) (i + 4)) = id.

Lemma is_form_post body i o id (Q : bool -> Prop) QE :
  0 <= i -> op_at body i o -> i + op_len o <= blen body ->
  (form_op_at body i o id -> Q true) -> (~ form_op_at body i o id -> Q false) ->
  post (is_form body i o id) Q QE.
Proof.
  intros Hi Ho Hle HT HF. unfold is_form, form_id_of. apply post_bind.
  case_bool_decide as Hc; cbn [andb].
  - destruct (Z.leb_spec 6 (op_len o)).
    + apply post_bind, u16_in_post; [lia|lia|]. intros z Hz _. cbn [post mret outcome_ret].
      replace (i + 2 + 2) with (i + 4) in Hz by lia.
      case_bool_decide as He; [apply HT|apply HF]; [injection He as <-; by rewrite Hz|].
      intros (_ & _ & _ & He'). apply He. by rewrite Hz, He'.
    + apply HF. intros (_ & _ & ? & _). lia.
  - apply HF. by intros (_ & ? & _).
Qed.

Lemma is_form_true body i o id :
  0 <= i -> form_op_at body i o id -> i + op_len o <= blen body -> is_form body i o id = Ok true.
Proof.
  intros Hi Ho Hle. assert (post (is_form body i o id) (fun b => b = true) (fun _ => False)) as H.
  { apply is_form_post; [done|apply Ho|done|done|done]. }
  destruct (is_form body i o id) as [b|[]| |]; [by rewrite H|done..].
Qed.

Lemma is_form_false body i o id :
  0 <= i -> op_at body i o -> ~ form_op_at body i o id -> i + op_len o <= blen body ->
  is_form body i o id = Ok false.
Proof.
  intros Hi Ho Hn Hle. assert (post (is_form body i o id) (fun b => b = false) (fun _ => False)) as H.
  { by apply is_form_post. }
  destruct (is_form body i o id) as [b|[]| |]; [by rewrite H|done..].
Qed.

(** ** The form of a formset *)

Fixpoint no_form (body : list byte) (i : Z) (ops : list IfrOp) (id : Z) : Prop :=
  match ops with
  | [] => True
  | o :: ops => ~ form_op_at body i o id /\ no_form body (i + op_len o) ops id
  end.

Lemma no_form_app body i a b m id :
  ops_at body i a m -> no_form body i (a ++ b) id <-> no_form body i a id /\ no_form body m b id.
Proof.
  revert i. induction a as [|o a IH]; intros i; cbn [app ops_at no_form]; [intros ->; tauto|].
  intros [_ H]. rewrite IH by done. tauto.
Qed.

Definition formset_count (ops : list IfrOp) : Z :=
  blen (filter (fun o => op_code o = IFR_FORM_SET_OP) ops).

(** The form [id] of the formset [idx]: its header at [f], its contents [inner] and its
    END at [e]. *)
Definition form_in (body : list byte) (end_ idx id f : Z) (inner : list IfrOp) (e : Z) : Prop :=
  exists pre fs fsoff mid d o x,
    ops_at body 4 pre fsoff /\ formset_count pre = idx /\
    op_at body fsoff fs /\ op_code fs = IFR_FORM_SET_OP /\
    ops_at body (fsoff + op_len fs) mid f /\ depth_run 0 mid = Some d /\
    no_form body (fsoff + op_len fs) mid id /\
    form_op_at body f o id /\ ops_at body (f + op_len o) inner e /\ balanced inner /\
    op_at body e x /\ is_end x = true /\ e + op_len x <= end_.

Lemma formset_form_sound body end_ id j :
  0 <= j -> end_ <= blen body ->
  post (loop (length body + 1) (formset_form_step body end_ id) (j, 1))
    (fun r => forall f e, r = Some (f, e) -> exists mid d o inner x,
       ops_at body j mid f /\ depth_run 0 mid = Some d /\ no_form body j mid id /\
       form_op_at body f o id /\ ops_at body (f + op_len o) inner e /\ balanced inner /\
       op_at body e x /\ is_end x = true /\ e + op_len x <= end_) (fun _ => True).
Proof.
  intros Hj He.
  apply (scan_loop body _ fst (fun s => exists mid, ops_at body j mid (fst s) /\
           depth_run 0 mid = Some (snd s - 1) /\ no_form body j mid id)); [|done|by exists []].
  intros [i t] Hi (mid & Hmid & Hrun & Hno). cbn [fst snd] in *. unfold formset_form_step.
  destruct (Z.leb_spec (i + 2) end_); [|done].
  apply post_bind, read_op_post; [lia|lia|lia|done|]. intros o Ho Hle.
  pose proof (op_len_pos _ _ _ Ho).
  apply post_bind, is_form_post; [lia|done|lia| |]; intros Hf.
  - apply post_bind, close_scope_post; [lia|lia|lia|lia| |done|done].
    intros inner e x Hinner Hbal Hx Hend Hxe. cbn [post mret outcome_ret]. intros f' e' [= <- <-].
    exists mid, (t - 1), o, inner, x. by split_and!.
  - assert (forall d', depth_run (t - 1) [o] = Some d' ->
      exists mid', ops_at body j mid' (i + op_len o) /\ depth_run 0 mid' = Some d' /\ no_form body j mid' id) as Hsnoc.
    { intros d' Hd'. exists (mid ++ [o]). split_and!.
      - apply ops_at_app. exists i. by split.
      - by rewrite depth_run_app, Hrun.
      - apply (no_form_app _ _ _ _ i); [done|]. by split_and!. }
    assert (0 <= t - 1) as Ht by (revert Hrun; apply depth_run_nonneg; lia).
    cbn [depth_run] in Hsnoc. unfold delta in Hsnoc. destruct (is_end o).
    + apply post_bind. unfold usub. destruct (Z.leb_spec 1 t); [|lia]. cbn [post].
      destruct (Z.eqb_spec (t - 1) 0); cbn [post mret outcome_ret]; [done|]. cbn [fst snd].
      split_and!; [lia|lia|]. apply Hsnoc. destruct (Z.ltb_spec (t - 1 + -1) 0); [lia|]. f_equal; lia.
    + cbn [post mret outcome_ret fst snd]. split_and!; [lia|lia|]. apply Hsnoc. destruct (op_scoped o).
      * destruct (Z.ltb_spec (t - 1 + 1) 0); [lia|]. f_equal; lia.
      * destruct (Z.ltb_spec (t - 1 + 0) 0); [lia|]. f_equal; lia.
Qed.

Lemma formset_count_snoc pre o :
  formset_count (pre ++ [o]) = formset_count pre + (if bool_decide (op_code o = IFR_FORM_SET_OP) then 1 else 0).
Proof.
  unfold formset_count. rewrite filter_app, blen_app. f_equal.
  rewrite filter_cons, filter_nil. by destruct (decide _), (bool_decide_reflect (op_code o = IFR_FORM_SET_OP)).
Qed.

(** The end of the code of a form package. *)
Definition code_end (body : list byte) : Z := Z.min (le_dec (sub body 0 3)) (blen body).

Lemma form_package_blen body : is_form_package body = true -> 5 <= blen body.
Proof. unfold is_form_package. intros. bool_to_prop. lia. Qed.

Lemma form_span_sound body idx id :
  0 <= idx ->
  post (form_span body idx id)
    (fun r => forall f e, r = Some (f, e) -> exists inner, form_in body (code_end body) idx id f inner e)
    (fun _ => True).
Proof.
  intros Hidx. unfold form_span. destruct (is_form_package body) eqn:Hp; [|done]. cbn [negb].
  apply form_package_blen in Hp. apply post_bind, u24_at_post; [lia|lia|]. intros plen Hplen _.
  change (0 + 3) with 3 in Hplen. rewrite Hplen. fold (code_end body). set (end_ := code_end body).
  assert (end_ <= blen body) as He by (subst end_; unfold code_end; lia).
  apply (scan_loop body _ fst (fun s => exists pre, ops_at body 4 pre (fst s) /\
           formset_count pre = snd s)); [|done|by exists []].
  intros [i n] Hi (pre & Hpre & Hn). cbn [fst snd] in *. unfold form_span_step.
  destruct (Z.leb_spec (i + 2) end_); [|done].
  apply post_bind, read_op_post; [lia|lia|lia|done|]. intros o Ho Hle.
  pose proof (op_len_pos _ _ _ Ho).
  assert (exists pre', ops_at body 4 pre' (i + op_len o) /\
    formset_count pre' = n + (if bool_decide (op_code o = IFR_FORM_SET_OP) then 1 else 0)) as Hsnoc.
  { exists (pre ++ [o]). split; [apply ops_at_app; exists i; by split|]. by rewrite formset_count_snoc, Hn. }
  case_bool_decide as Hc.
  - destruct (Z.eqb_spec n idx) as [->|].
    + apply post_bind. eapply post_mono; [apply (formset_form_sound body end_ id (i + op_len o)); lia| |done].
      intros r Hr. cbn [post mret outcome_ret]. intros f e Hfe.
      destruct (Hr f e Hfe) as (mid & d & x & inner & y & Hmid & Hrun & Hno & Hx & Hinner & Hbal & Hy & Hend & Hle').
      exists inner, pre, o, i, mid, d, x, y. by split_and!.
    + cbn [post mret outcome_ret fst snd]. split_and!; [lia|lia|done].
  - cbn [post mret outcome_ret fst snd]. split_and!; [lia|lia|]. by rewrite Z.add_0_r in Hsnoc.
Qed.

(** The scans along a decoded prefix. *)
Lemma form_span_steps body end_ idx id i n ops i' :
  ops_at body i ops i' -> i' <= end_ -> n + formset_count ops <= idx ->
  steps (form_span_step body end_ idx id) (i, n) (i', n + formset_count ops).
Proof.
  revert i n. induction ops as [|o ops IH]; intros i n; cbn [ops_at].
  { intros -> _ _. change (formset_count []) with 0. rewrite Z.add_0_r. constructor. }
  intros [Ho Hops] He Hn. pose proof (op_len_pos _ _ _ Ho). pose proof (ops_at_le _ _ _ _ Hops).
  assert (formset_count (o :: ops) = (if bool_decide (op_code o = IFR_FORM_SET_OP) then 1 else 0) + formset_count ops) as Hc.
  { unfold formset_count. rewrite filter_cons.
    destruct (decide _), (bool_decide_reflect (op_code o = IFR_FORM_SET_OP)); try done. by rewrite blen_cons. }
  rewrite Hc in *.
  apply (steps_next _ _ (i + op_len o, n + (if bool_decide (op_code o = IFR_FORM_SET_OP) then 1 else 0))).
  - unfold form_span_step. destruct (Z.leb_spec (i + 2) end_); [|lia].
    rewrite (read_op_at _ _ _ _ Ho) by lia. cbn [mbind outcome_bind].
    case_bool_decide; [|by rewrite Z.add_0_r]. destruct (Z.eqb_spec n idx) as [->|]; [|done].
    pose proof (blen_nonneg (filter (fun o => op_code o = IFR_FORM_SET_OP) ops)). unfold formset_count in *. lia.
  - rewrite Z.add_assoc in Hn |- *. by apply IH.
Qed.

Lemma formset_form_steps body end_ id j ops j' d0 d1 :
  0 <= j -> end_ <= blen body -> ops_at body j ops j' -> j' <= end_ -> 0 <= d0 ->
  depth_run d0 ops = Some d1 -> no_form body j ops id ->
  steps (formset_form_step body end_ id) (j, d0 + 1) (j', d1 + 1).
Proof.
  intros Hj Hb. revert j d0 Hj. induction ops as [|o ops IH]; intros j d0 Hj; cbn [ops_at depth_run no_form].
  { intros -> _ _ [= ->] _. constructor. }
  intros [Ho Hops] He Hd. destruct (Z.ltb_spec (d0 + delta o) 0) as [|Hd']; [done|]. intros Hrun [Hn Hno].
  pose proof (op_len_pos _ _ _ Ho). pose proof (ops_at_le _ _ _ _ Hops).
  eapply steps_next; [|apply (IH (j + op_len o) (d0 + delta o)); [lia|done|done|exact Hd'|done|done]].
  unfold formset_form_step.
  destruct (Z.leb_spec (j + 2) end_); [|lia].
  rewrite (read_op_at _ _ _ _ Ho) by lia. cbn [mbind outcome_bind].
  rewrite (is_form_false _ _ _ _ Hj Ho Hn) by lia. cbn [mbind outcome_bind]. unfold delta in *.
  destruct (is_end o).
  - unfold usub. destruct (Z.leb_spec 1 (d0 + 1)); [|lia]. cbn [mbind outcome_bind].
    destruct (Z.eqb_spec (d0 + 1 - 1) 0); [lia|]. cbn [mret outcome_ret]. do 3 f_equal. lia.
  - cbn [mret outcome_ret]. destruct (op_scoped o); do 3 f_equal; lia.
Qed.

Lemma form_span_complete body idx id f inner e :
  is_form_package body = true -> form_in body (code_end body) idx id f inner e ->
  form_span body idx id = Ok (Some (f, e)).
Proof.
  intros Hp (pre & fs & fsoff & mid & d & o & x & Hpre & Hidx & Hfs & Hfsc & Hmid & Hrun & Hno & Ho & Hinner & Hbal & Hx & Hend & Hle).
  assert (form_span body idx id <> Diverge) as Hc.
  { eapply post_converges, form_span_sound. rewrite <-Hidx. apply blen_nonneg. }
  revert Hc. unfold form_span. rewrite Hp. cbn [negb]. apply form_package_blen in Hp.
  assert (u24_at body 0 = Ok (le_dec (sub body 0 3))) as ->.
  { assert (post (u24_at body 0) (fun z => z = le_dec (sub body 0 3)) (fun _ => False)) as H
      by (apply u24_at_post; [lia|lia|by intros]).
    by destruct (u24_at body 0) as [z|[]| |]; [rewrite H|..]. }
  cbn [mbind outcome_bind]. fold (code_end body). set (end_ := code_end body) in *. intros Hc.
  assert (end_ <= blen body) as He by (subst end_; unfold code_end; lia).
  pose proof (op_len_pos _ _ _ Hfs). pose proof (op_len_pos _ _ _ (proj1 Ho)). pose proof (op_len_pos _ _ _ Hx).
  pose proof (ops_at_le _ _ _ _ Hpre). pose proof (ops_at_le _ _ _ _ Hmid). pose proof (ops_at_le _ _ _ _ Hinner).
  eapply steps_loop; [|..|exact Hc].
  - apply (form_span_steps _ _ _ _ _ 0 _ _ Hpre); lia.
  - unfold form_span_step. destruct (Z.leb_spec (fsoff + 2) end_); [|lia].
    rewrite (read_op_at _ _ _ _ Hfs) by lia. cbn [mbind outcome_bind].
    rewrite bool_decide_eq_true_2 by done. rewrite Z.add_0_l, Hidx, Z.eqb_refl.
    enough (loop (length body + 1) (formset_form_step body end_ id) (fsoff + op_len fs, 1) = Ok (Some (f, e))) as ->
      by done.
    eapply steps_loop.
    + eapply (formset_form_steps _ _ _ _ _ _ 0); [lia|done|exact Hmid|lia|lia|exact Hrun|done].
    + unfold formset_form_step. destruct (Z.leb_spec (f + 2) end_); [|lia].
      rewrite (read_op_at _ _ _ _ (proj1 Ho)) by lia. cbn [mbind outcome_bind].
      rewrite (is_form_true _ _ _ id) by (done || lia). cbn [mbind outcome_bind].
      rewrite (close_scope_closed body end_ 0 (f + op_len o) inner e x 1); done || lia.
    + eapply post_converges, formset_form_sound; lia.
Qed.

(** ** Anchors *)

(** The statement that an insertion is anchored at. *)
Definition anchor_op (body : list byte) (pos : InsertPos) (i : Z) (o : IfrOp) : Prop :=
  match pos with
  | IP_End => False
  | IP_BeforeGoto t => op_code o = IFR_REF_OP /\ 15 <= op_len o /\
      exists cross, ref_target (op_code o) (sub body i (i + op_len o)) = Some (t, cross)
  | IP_BeforeQuestion q => is_question_op (op_code o) = true /\ 8 <= op_len o /\
      le_dec (sub body (i + 6) (i + 8)) = q
  end.
Fixpoint no_anchor (body : list byte) (pos : InsertPos) (i : Z) (ops : list IfrOp) : Prop :=
  match ops with
  | [] => True
  | o :: ops => ~ anchor_op body pos i o /\ no_anchor body pos (i + op_len o) ops
  end.
(** The run is empty, or it opens a scope that it does not close. *)
Definition nested (c : list IfrOp) : Prop :=
  match c with
  | [] => True
  | s :: c => is_end s = false /\ op_scoped s = true /\ is_Some (depth_run 0 c)
  end.
(** [at_] is outside every scope of the form, and the first anchor of the form is the
    statement at [at_] or inside the scope that opens at [at_]. *)
Definition anchored (body : list byte) (pos : InsertPos) (start : Z) (run : list IfrOp) (at_ : Z) : Prop :=
  exists a c r b i, run = a ++ c ++ r :: b /\ ops_at body start a at_ /\ ops_at body at_ c i /\
    balanced a /\ nested c /\ op_at body i r /\ anchor_op body pos i r /\ no_anchor body pos start (a ++ c).

Lemma no_anchor_app body pos i a b m :
  ops_at body i a m -> no_anchor body pos i (a ++ b) <-> no_anchor body pos i a /\ no_anchor body pos m b.
Proof.
  revert i. induction a as [|o a IH]; intros i; cbn [app ops_at no_anchor]; [intros ->; tauto|].
  intros [_ H]. rewrite IH by done. tauto.
Qed.

Lemma anchored_app body pos start run b at_ :
  anchored body pos start run at_ -> anchored body pos start (run ++ b) at_.
Proof.
  intros (a & c & r & b0 & i & -> & H). exists a, c, r, (b0 ++ b), i.
  split; [by rewrite <-!app_assoc, <-app_comm_cons|done].
Qed.

(** The open scopes of a run: none where it is balanced, otherwise the first of them is
    outside every scope. *)
Definition open_scopes (body : list byte) (start : Z) (run : list IfrOp) (scopes : list Z) : Prop :=
  depth_run 0 run = Some (blen scopes) /\
  match scopes with
  | [] => True
  | sc :: _ => exists a c, run = a ++ c /\ c <> [] /\ ops_at body start a sc /\ balanced a /\ nested c
  end.

Lemma open_scopes_at body start run scopes i :
  ops_at body start run i -> open_scopes body start run scopes ->
  exists a c, run = a ++ c /\ ops_at body start a (match scopes with sc :: _ => sc | [] => i end) /\
    ops_at body (match scopes with sc :: _ => sc | [] => i end) c i /\ balanced a /\ nested c.
Proof.
  intros Hrun [Hd Hs]. destruct scopes as [|sc scopes].
  - exists run, []. rewrite app_nil_r. by split_and!.
  - destruct Hs as (a & c & -> & _ & Ha & Hb & Hc). exists a, c. split_and!; try done.
    apply ops_at_app in Hrun as (m & Hm & Hc'). by rewrite (ops_at_inj _ _ _ _ _ Ha Hm).
Qed.

Lemma open_scopes_step body start run scopes i o d :
  ops_at body start run i -> open_scopes body start run scopes -> op_at body i o ->
  depth_run 0 (run ++ [o]) = Some d ->
  open_scopes body start (run ++ [o])
    (if is_end o then removelast scopes else if op_scoped o then scopes ++ [i] else scopes).
Proof.
  intros Hrun [Hd Hs] Ho Hd'. rewrite depth_run_app, Hd in Hd'. cbn [mbind option_bind depth_run] in Hd'.
  destruct (Z.ltb_spec (blen scopes + delta o) 0) as [|Hge]; [done|].
  set (scopes' := if is_end o then _ else _).
  assert (blen scopes' = blen scopes + delta o) as Hl.
  { subst scopes'. unfold delta in *. destruct (is_end o); [|destruct (op_scoped o); [by rewrite blen_app|lia]].
    destruct scopes as [|sc scopes] using rev_ind; [done|]. rewrite removelast_last, blen_app.
    change (blen [sc]) with 1. lia. }
  split.
  { rewrite depth_run_app, Hd. cbn [mbind option_bind depth_run].
    destruct (Z.ltb_spec (blen scopes + delta o) 0); [lia|]. by rewrite Hl. }
  destruct scopes as [|sc scopes].
  - subst scopes'. unfold delta in *. destruct (is_end o) eqn:Hend; [done|]. destruct (op_scoped o) eqn:Hsc; [|done].
    cbn [app]. exists run, [o]. split_and!; [done|done|done|exact Hd|]. cbn. by split_and!.
  - destruct scopes' as [|sc' scopes''] eqn:Hs'; [done|].
    assert (sc' = sc) as ->.
    { subst scopes'. destruct (is_end o); [|destruct (op_scoped o); by injection Hs'].
      destruct scopes; [done|]. by injection Hs'. }
    destruct Hs as (a & c & -> & Hne & Ha & Hb & Hc). exists a, (c ++ [o]).
    rewrite app_assoc. split_and!; [done|by destruct c|done|done|].
    destruct c as [|s c]; [done|]. destruct Hc as (He & Hsc & [dc Hdc]). cbn [app nested]. split_and!; [done|done|].
    rewrite depth_run_app, Hdc. cbn [mbind option_bind depth_run].
    rewrite depth_run_app in Hd. unfold balanced in Hb. rewrite Hb in Hd. cbn [mbind option_bind depth_run] in Hd.
    unfold delta at 1 2 in Hd. rewrite He, Hsc in Hd. cbn in Hd.
    rewrite (depth_run_shift 0 c dc 1) in Hd by done. injection Hd as Hd.
    rewrite !blen_cons in *. pose proof (blen_nonneg scopes''). pose proof (blen_nonneg scopes).
    destruct (Z.ltb_spec (dc + delta o) 0); [lia|by eexists].
Qed.

#[local] Instance anchor_op_dec body pos i o : Decision (anchor_op body pos i o).
Proof.
  destruct pos as [|t|q]; cbn [anchor_op]; [apply _| |apply _].
  destruct (ref_target (op_code o) (sub body i (i + op_len o))) as [[t' cross]|] eqn:Hr.
  - destruct (decide (op_code o = IFR_REF_OP /\ 15 <= op_len o /\ t' = t)) as [(? & ? & ->)|Hn].
    + left. split_and!; [done|done|by eexists].
    + right. intros (? & ? & ? & [= -> ->]). by apply Hn.
  - right. by intros (_ & _ & ? & ?).
Qed.

(** The anchor behind a statement. *)
Definition anchor_after (body : list byte) (pos : InsertPos) (i : Z) (o : IfrOp) (st st' : AnchorState)
  : Prop :=
  an_scopes st' = an_scopes st /\
  (anchor_op body pos i o -> an_anchor st' = raise_anchor st true i) /\
  (~ anchor_op body pos i o -> an_anchor st' = an_anchor st).

Lemma ref_anchor_post body pos i o st (Q : AnchorState -> Prop) QE :
  0 <= i -> op_at body i o -> i + op_len o <= blen body ->
  (forall st', an_scopes st' = an_scopes st ->
     (anchor_op body pos i o /\ (exists t, pos = IP_BeforeGoto t) -> an_anchor st' = raise_anchor st true i) ->
     (~ (anchor_op body pos i o /\ (exists t, pos = IP_BeforeGoto t)) -> an_anchor st' = an_anchor st) -> Q st') ->
  post (ref_anchor body pos i o st) Q QE.
Proof.
  intros Hi Ho Hle HQ. pose proof (op_len_pos _ _ _ Ho). unfold ref_anchor.
  case_bool_decide as Hc; cbn [andb].
  2: { apply HQ; [done| |done]. intros [Ha [t ->]]. by destruct Ha. }
  destruct (Z.leb_spec 15 (op_len o)).
  2: { apply HQ; [done| |done]. intros [Ha [t ->]]. destruct Ha as (_ & ? & _). lia. }
  apply post_bind, slice_post; [lia|lia|lia|]. cbn [post mret outcome_ret].
  destruct (ref_target (op_code o) (sub body i (i + op_len o))) as [[t cross]|] eqn:Hr.
  - apply HQ; cbn [an_scopes an_anchor]; [done| |].
    + intros [Ha [t' ->]]. destruct Ha as (_ & _ & [cross' Hc']). rewrite Hr in Hc'.
      injection Hc' as -> ->. by rewrite bool_decide_eq_true_2.
    + intros Hn. case_bool_decide as Hp; [|done]. destruct Hn. subst. split; [|by eexists].
      split_and!; [done|done|by eexists].
  - apply HQ; [done| |done]. intros [Ha [t ->]]. destruct Ha as (_ & _ & [cross Hc']). congruence.
Qed.

Lemma question_anchor_post body pos i o st (Q : AnchorState -> Prop) QE :
  0 <= i -> op_at body i o -> i + op_len o <= blen body ->
  (forall st', an_scopes st' = an_scopes st ->
     (anchor_op body pos i o /\ (exists q, pos = IP_BeforeQuestion q) -> an_anchor st' = raise_anchor st true i) ->
     (~ (anchor_op body pos i o /\ (exists q, pos = IP_BeforeQuestion q)) -> an_anchor st' = an_anchor st) ->
     Q st') ->
  post (question_anchor body pos i o st) Q QE.
Proof.
  intros Hi Ho Hle HQ. pose proof (op_len_pos _ _ _ Ho). unfold question_anchor.
  destruct (is_question_op (op_code o)) eqn:Hq; cbn [andb].
  2: { apply HQ; [done| |done]. intros [Ha [t ->]]. destruct Ha. congruence. }
  destruct (Z.leb_spec 8 (op_len o)).
  2: { apply HQ; [done| |done]. intros [Ha [t ->]]. destruct Ha as (_ & ? & _). lia. }
  apply post_bind, u16_in_post; [lia|lia|]. intros q Hqv _. cbn [post mret outcome_ret].
  replace (i + 6 + 2) with (i + 8) in Hqv by lia.
  apply HQ; cbn [an_scopes an_anchor]; [done| |].
  - intros [Ha [q' ->]]. destruct Ha as (_ & _ & Ha). rewrite bool_decide_eq_true_2; congruence.
  - intros Hn. case_bool_decide as Hp; [|done]. destruct Hn. subst. split; [|by eexists]. by split_and!.
Qed.

Lemma anchors_post {A} body pos i o st (K : AnchorState -> pure A) (Q : A -> Prop) QE :
  0 <= i -> op_at body i o -> i + op_len o <= blen body ->
  (forall st', anchor_after body pos i o st st' -> post (K st') Q QE) ->
  post (st' ← ref_anchor body pos i o st; st' ← question_anchor body pos i o st'; K st') Q QE.
Proof.
  intros Hi Ho Hle HQ. apply post_bind, ref_anchor_post; [done..|]. intros st1 Hs1 Hy1 Hn1.
  apply post_bind, question_anchor_post; [done..|]. intros st2 Hs2 Hy2 Hn2. apply HQ. unfold anchor_after.
  rewrite Hs2, Hs1. split; [done|]. unfold raise_anchor in *.
  split.
  - intros Ha. destruct pos as [|t|q]; [by destruct Ha| |].
    + rewrite Hn2 by (by intros [_ [? ?]]). apply Hy1. split; [done|by eexists].
    + rewrite Hy2 by (split; [done|by eexists]). rewrite Hs1, Hn1 by (by intros [_ [? ?]]). done.
  - intros Ha. rewrite Hn2, Hn1 by (by intros [? _]). done.
Qed.

Lemma end_no_anchor body pos i o : op_code o = IFR_END_OP -> ~ anchor_op body pos i o.
Proof.
  intros Hc. destruct pos as [|t|q]; cbn [anchor_op]; [tauto| |].
  - intros (Hr & _). revert Hr. rewrite Hc. by apply (op_ne 18 11).
  - intros (Hq & _). revert Hq. rewrite Hc. unfold is_question_op, one_of. rewrite bool_decide_eq_true.
    assert (forall j, (j < 18)%nat -> ifr_opcodes !! j <> Some IFR_END_OP) as Hne.
    { intros j Hj Hl. pose proof (NoDup_lookup _ j 18%nat _ ifr_opcodes_distinct Hl eq_refl). lia. }
    rewrite !elem_of_cons. intros Hin.
    destruct Hin as [H|[H|[H|[H|[H|[H|[H|[H|[H|H]]]]]]]]];
      [apply (Hne 3%nat)|apply (Hne 4%nat)|apply (Hne 5%nat)|apply (Hne 6%nat)|apply (Hne 17%nat)
      |apply (Hne 16%nat)|apply (Hne 14%nat)|apply (Hne 15%nat)|apply (Hne 9%nat)|by apply elem_of_nil in H];
      try lia; cbn; by rewrite H.
Qed.

(** The search for the anchor through the contents of a form. *)
Definition anchor_result (body : list byte) (pos : InsertPos) (start : Z) (run : list IfrOp)
  (anchor : option Z) : Prop :=
  match anchor with
  | Some at_ => anchored body pos start run at_
  | None => no_anchor body pos start run
  end.

Lemma anchor_result_step body pos start run i o st st' :
  ops_at body start run i -> op_at body i o -> open_scopes body start run (an_scopes st) ->
  anchor_after body pos i o st st' ->
  anchor_result body pos start run (an_anchor st) -> anchor_result body pos start (run ++ [o]) (an_anchor st').
Proof.
  intros Hrun Ho Hscopes (Hs & Hyes & Hno) Hres.
  destruct (an_anchor st) as [at_|] eqn:Hst.
  - assert (an_anchor st' = Some at_) as ->.
    { destruct (decide (anchor_op body pos i o)) as [Ha|Ha]; [rewrite Hyes by done|by rewrite Hno].
      unfold raise_anchor. by rewrite Hst. }
    by apply anchored_app.
  - destruct (decide (anchor_op body pos i o)) as [Ha|Ha].
    + rewrite Hyes by done. unfold raise_anchor. rewrite Hst. cbn.
      destruct (open_scopes_at body start run (an_scopes st) i) as (a & c & -> & Hat & Hc & Hb & Hn); [done..|].
      exists a, c, o, [], i. rewrite <-app_assoc. by split_and!.
    + rewrite Hno by done. cbn. apply (no_anchor_app _ _ _ _ _ i); [done|]. by split_and!.
Qed.

Lemma anchor_loop_post body pos start inner e :
  0 <= start -> e <= blen body -> ops_at body start inner e -> balanced inner ->
  post (loop (length body + 1) (anchor_step body pos e)
          (start, {| an_refs := []; an_qids := []; an_scopes := []; an_anchor := None |}))
    (fun st => anchor_result body pos start inner (an_anchor st)) (fun _ => False).
Proof.
  intros H0 He Hinner Hbal.
  apply (scan_loop body _ fst (fun s => exists run rest, inner = run ++ rest /\ ops_at body start run (fst s) /\
           open_scopes body start run (an_scopes (snd s)) /\
           anchor_result body pos start run (an_anchor (snd s)))); [|done|].
  2: { exists [], inner. split_and!; done. }
  intros [i st] Hi (run & rest & -> & Hrun & Hsc & Hres). cbn [fst snd] in *.
  apply ops_at_app in Hinner as (m & Hm & Hrest). rewrite (ops_at_inj _ _ _ _ _ Hm Hrun) in *.
  unfold anchor_step. destruct rest as [|o rest].
  { cbn [ops_at] in Hrest. subst. destruct (Z.leb_spec (e + 2) e); [lia|].
    cbn [post mret outcome_ret]. by rewrite app_nil_r. }
  destruct Hrest as [Ho Hrest]. pose proof (op_len_pos _ _ _ Ho). pose proof (ops_at_le _ _ _ _ Hrest).
  destruct (Z.leb_spec (i + 2) e); [|lia]. rewrite (read_op_at _ _ _ _ Ho) by lia. cbn [mbind outcome_bind].
  assert (is_Some (depth_run 0 (run ++ [o]))) as [d Hd].
  { revert Hbal. unfold balanced. replace (run ++ o :: rest) with ((run ++ [o]) ++ rest) by by rewrite <-app_assoc.
    rewrite depth_run_app. destruct (depth_run 0 (run ++ [o])); [by eexists|done]. }
  pose proof (open_scopes_step _ _ _ _ _ _ _ Hrun Hsc Ho Hd) as Hstep.
  assert (forall st', anchor_after body pos i o st st' ->
    anchor_result body pos start (run ++ [o]) (an_anchor st')) as Hres'.
  { intros st' Ha. by eapply anchor_result_step. }
  assert (ops_at body start (run ++ [o]) (i + op_len o)) as Hrun' by (apply ops_at_app; exists i; by split).
  destruct (is_end o) eqn:Hend.
  - cbn [post mret outcome_ret fst snd set_scopes an_scopes an_anchor]. split; [lia|split; [lia|]].
    exists (run ++ [o]), rest. rewrite <-app_assoc. split_and!; [done|done|done|].
    apply Hres'. split_and!; [done| |done]. intros Ha. exfalso. revert Ha.
    unfold is_end in Hend. apply bool_decide_eq_true in Hend. apply end_no_anchor. done.
  - apply anchors_post; [done|done|lia|]. intros st' Ha.
    destruct (op_scoped o); cbn [post mret outcome_ret fst snd set_scopes an_scopes an_anchor];
      (split; [lia|split; [lia|]]); exists (run ++ [o]), rest; rewrite <-app_assoc;
      (split_and!; [done|done|by rewrite (proj1 Ha)|by apply Hres']).
Qed.

(** ** The point of an insertion *)

(** [at_] splits the contents of the form outside its scopes, as [pos] says. *)
Definition insert_point (body : list byte) (pos : InsertPos) (f : Z) (inner : list IfrOp) (e : Z)
  (a b : list IfrOp) (at_ : Z) : Prop :=
  inner = a ++ b /\ balanced a /\
  (forall o, op_at body f o -> ops_at body (f + op_len o) a at_ /\ ops_at body at_ b e /\
     match pos with
     | IP_End => at_ = e
     | _ => anchored body pos (f + op_len o) inner at_
     end).

Definition insert_error (body : list byte) (idx id : Z) (pos : InsertPos) (err : HiiError) : Prop :=
  match err with
  | HE_NotFound => form_span body idx id = Ok None
  | HE_InvalidSchema _ => exists f inner e o, form_in body (code_end body) idx id f inner e /\
      op_at body f o /\ pos <> IP_End /\ no_anchor body pos (f + op_len o) inner
  | _ => False
  end.

Lemma locate_insert_at_post body idx id pos :
  0 <= idx ->
  post (locate_insert_at body idx id pos)
    (fun at_ => exists f inner e a b, form_in body (code_end body) idx id f inner e /\
       insert_point body pos f inner e a b at_)
    (insert_error body idx id pos).
Proof.
  intros Hidx. unfold locate_insert_at. pose proof (form_span_sound body idx id Hidx) as Hspan.
  destruct (form_span body idx id) as [[[f e]|]|[]| |] eqn:Hfs; [| |done..].
  2: { cbn. done. }
  destruct (Hspan f e eq_refl) as [inner Hin]. cbn [lift map_err mbind outcome_bind].
  pose proof Hin as (pre & fs & fsoff & mid & d & o & x & Hpre & _ & Hfs' & _ & Hmid & _ & _ & Ho & Hinner & Hbal & Hx & _ & Hle).
  pose proof (op_len_pos _ _ _ (proj1 Ho)). pose proof (op_len_pos _ _ _ Hx). pose proof (op_len_pos _ _ _ Hfs').
  pose proof (ops_at_le _ _ _ _ Hpre). pose proof (ops_at_le _ _ _ _ Hmid). pose proof (ops_at_le _ _ _ _ Hinner).
  assert (code_end body <= blen body) by (unfold code_end; lia).
  destruct (bool_decide_reflect (pos = IP_End)) as [->|Hpos].
  { cbn [post]. exists f, inner, e, inner, []. split; [done|]. unfold insert_point. rewrite app_nil_r.
    split_and!; [done|done|]. intros o' Ho'. rewrite (op_at_inj _ _ _ _ Ho' (proj1 Ho)). by split_and!. }
  destruct (proj1 Ho) as (_ & Hls & Hlen & _). rewrite (index_eq _ _ _ Hls). cbn [mbind outcome_bind].
  rewrite <-Hlen. apply post_bind.
  assert (post (loop (length body + 1) (anchor_step body pos e) (f + op_len o,
    {| an_refs := []; an_qids := []; an_scopes := []; an_anchor := None |}))
    (fun st => anchor_result body pos (f + op_len o) inner (an_anchor st)) (fun _ => False)) as Hloop
    by (apply anchor_loop_post; done || lia).
  destruct (loop _ _ _) as [st|[]| |]; [|done..]. cbn [lift map_err post] in *.
  destruct (an_anchor st) as [at_|] eqn:Hst; cbn [anchor_result] in Hloop; cbn [post].
  - pose proof Hloop as (a & c & r & b & i & -> & Ha & Hc & Hba & _ & Hr & _ & _).
    exists f, (a ++ c ++ r :: b), e, a, (c ++ r :: b). split; [done|]. split_and!; [done|done|].
    intros o' Ho'. rewrite (op_at_inj _ _ _ _ Ho' (proj1 Ho)).
    apply ops_at_app in Hinner as (m & Hm & Hb). rewrite (ops_at_inj _ _ _ _ _ Hm Ha) in Hb.
    split_and!; [done|done|]. by destruct pos.
  - exists f, inner, e, o. split_and!; [done|apply Ho|done|done].
Qed.

(** ** Insertions *)

Lemma form_op_ext body body' i o id :
  0 <= i -> (forall k, i <= k < i + op_len o -> get body' k = get body k) -> op_at body i o ->
  form_op_at body' i o id <-> form_op_at body i o id.
Proof.
  intros Hi Hk Ho. pose proof (op_len_pos _ _ _ Ho) as Hl.
  assert (op_at body' i o) as Ho' by (destruct Ho as (? & ? & ? & ?); split_and!; try done; by rewrite Hk by lia).
  unfold form_op_at. split; intros (_ & Hc & H6 & Hid); (split_and!; [done|done|done|]); rewrite <-Hid; f_equal;
    apply sub_ext; try lia; intros; [symmetry|]; apply Hk; lia.
Qed.

Lemma no_form_ext body body' i ops e id :
  0 <= i -> (forall k, i <= k < e -> get body' k = get body k) -> ops_at body i ops e ->
  no_form body i ops id -> no_form body' i ops id.
Proof.
  revert i. induction ops as [|o ops IH]; intros i Hi Hk; cbn [ops_at no_form]; [done|].
  intros [Ho Hops] [Hno Hnos]. pose proof (op_len_pos _ _ _ Ho). pose proof (ops_at_le _ _ _ _ Hops).
  split; [|apply IH; [lia| |done..]; intros; apply Hk; lia].
  rewrite form_op_ext; [done|done|intros; apply Hk; lia|done].
Qed.

(** Opcodes inserted at a point of the form are in the form. *)
Lemma form_in_insert body body' end_ idx id f inner e pos a b at_ ns n :
  form_in body end_ idx id f inner e -> insert_point body pos f inner e a b at_ ->
  0 <= n -> (forall k, 4 <= k < at_ -> get body' k = get body k) ->
  (forall k, at_ <= k -> get body' (k + n) = get body k) ->
  ops_at body' at_ ns (at_ + n) -> balanced ns ->
  form_in body' (end_ + n) idx id f (a ++ ns ++ b) (e + n).
Proof.
  intros (pre & fs & fsoff & mid & d & o & x & Hpre & Hidx & Hfs & Hfsc & Hmid & Hrun & Hno & Ho & Hinner & Hbal & Hx & Hend & Hle)
    (-> & Hba & Hat) Hn Hlo Hhi Hns Hbn.
  destruct (Hat o (proj1 Ho)) as (Ha & Hb & _).
  pose proof (op_len_pos _ _ _ (proj1 Ho)). pose proof (op_len_pos _ _ _ Hx). pose proof (op_len_pos _ _ _ Hfs).
  pose proof (ops_at_le _ _ _ _ Hpre). pose proof (ops_at_le _ _ _ _ Hmid). pose proof (ops_at_le _ _ _ _ Ha).
  pose proof (ops_at_le _ _ _ _ Hb).
  exists pre, fs, fsoff, mid, d, o, x. split_and!; try done.
  - eapply ops_at_ext; [|done]. intros. apply Hlo. lia.
  - assert (ops_at body' fsoff [fs] (fsoff + op_len fs)) as [? _]; [|done].
    eapply ops_at_ext; [|by split]. intros. apply Hlo. lia.
  - eapply ops_at_ext; [|done]. intros. apply Hlo. lia.
  - eapply no_form_ext; [lia| |done..]. intros. apply Hlo. lia.
  - apply (form_op_ext body); [lia|intros; apply Hlo; lia|apply Ho|done].
  - apply ops_at_app. exists at_. split; [eapply ops_at_ext; [|done]; intros; apply Hlo; lia|].
    apply ops_at_app. exists (at_ + n). split; [done|]. eapply ops_at_copy; [|done]. intros. apply Hhi. lia.
  - unfold balanced in *. rewrite depth_run_app, Hba in *. cbn [mbind option_bind] in *.
    rewrite depth_run_app, Hbn. done.
  - assert (ops_at body' (e + n) [x] (e + op_len x + n)) as [? _]; [|done].
    eapply ops_at_copy; [|by split]. intros. apply Hhi. lia.
  - lia.
Qed.

(** The bytes behind an insertion and the new length. *)
Lemma insert_bytes package at_ ops len :
  3 <= at_ <= blen package ->
  exists p', (p ← splice_in package at_ ops; set_u24 p len) = Ok p' /\
    blen p' = blen package + blen ops /\ sub p' 0 3 = le_enc 3 len /\
    (forall k, 3 <= k < at_ -> get p' k = get package k) /\
    (forall k, at_ <= k -> get p' (k + blen ops) = get package k) /\
    (forall k, 0 <= k < blen ops -> get p' (at_ + k) = get ops k).
Proof.
  intros Hat. unfold splice_in. assert ((0 <=? at_) && (at_ <=? blen package) = true) as -> by lia.
  cbn [mbind outcome_bind]. set (q := take _ _ ++ _).
  pose proof (blen_nonneg ops).
  assert (blen (take (Z.to_nat at_) package) = at_) as Ht.
  { unfold blen in *. rewrite length_take. lia. }
  assert (blen q = blen package + blen ops) as Hq.
  { subst q. rewrite !blen_app, Ht. unfold blen in *. rewrite length_drop. lia. }
  destruct (set_u24_get q len) as (p' & Hp' & Hl & Hg); [lia|].
  exists p'. split; [done|]. rewrite Hl. split; [done|].
  split_and!.
  - change (sub p' 0 3) with (sub p' 0 (0 + 3)).
    rewrite (sub_three p' 0 (z2b (Z.land len 0xFF)) (z2b (Z.land (Z.shiftr len 8) 0xFF))
      (z2b (Z.land (Z.shiftr len 16) 0xFF))) by (by rewrite Hg).
    cbn [le_enc]. by rewrite !z2b_land_FF, Z.shiftr_div_pow2, Z.shiftr_div_pow2, Z.div_div by lia.
  - intros k Hk. rewrite Hg. destruct (Z.eqb_spec k 2), (Z.eqb_spec k 1), (Z.eqb_spec k 0); try lia.
    subst q. rewrite get_app_l by lia. apply get_take. lia.
  - intros k Hk. rewrite Hg.
    destruct (Z.eqb_spec (k + blen ops) 2), (Z.eqb_spec (k + blen ops) 1), (Z.eqb_spec (k + blen ops) 0); try lia.
    subst q. rewrite get_app_r by lia. rewrite Ht, get_app_r by lia. rewrite get_drop by lia. f_equal. lia.
  - intros k Hk. rewrite Hg. destruct (Z.eqb_spec (at_ + k) 2), (Z.eqb_spec (at_ + k) 1), (Z.eqb_spec (at_ + k) 0); try lia.
    subst q. rewrite get_app_r by lia. rewrite Ht, get_app_l by lia. f_equal. lia.
Qed.

Lemma insert_point_bounds body pos idx id f inner e a b at_ :
  form_in body (code_end body) idx id f inner e -> insert_point body pos f inner e a b at_ ->
  10 <= at_ <= blen body.
Proof.
  intros (pre & fs & fsoff & mid & d & o & x & Hpre & _ & Hfs & _ & Hmid & _ & _ & Ho & _ & _ & Hx & _ & Hle) (_ & _ & Hat).
  destruct (Hat o (proj1 Ho)) as (Ha & Hb & _).
  pose proof (op_len_pos _ _ _ Hx). pose proof (op_len_pos _ _ _ Hfs). destruct Ho as (_ & _ & ? & _).
  pose proof (ops_at_le _ _ _ _ Hpre). pose proof (ops_at_le _ _ _ _ Hmid). pose proof (ops_at_le _ _ _ _ Ha).
  pose proof (ops_at_le _ _ _ _ Hb). unfold code_end in Hle. lia.
Qed.

Lemma is_form_package_ext body body' :
  get body' 3 = get body 3 -> get body' 4 = get body 4 -> blen body <= blen body' ->
  is_form_package body = true -> is_form_package body' = true.
Proof.
  unfold is_form_package. intros H3 H4 Hl. rewrite H3, H4. rewrite !andb_true_iff. intros [[? ?] ?].
  split_and!; [lia|done|done].
Qed.

(** What an insertion of [ops] at [at_] makes of the package. *)
Definition inserted (package package' : list byte) (at_ : Z) (ops : list byte) : Prop :=
  blen package' = blen package + blen ops /\
  sub package' 0 3 = le_enc 3 (le_dec (sub package 0 3) + blen ops) /\
  (forall k, 3 <= k < at_ -> get package' k = get package k) /\
  (forall k, 0 <= k < blen ops -> get package' (at_ + k) = get ops k) /\
  (forall k, at_ <= k -> get package' (k + blen ops) = get package k).

Lemma checked_package_len_post package grow (Q : Z -> Prop) QE :
  3 <= blen package ->
  (le_dec (sub package 0 3) + grow < 2 ^ 24 -> Q (le_dec (sub package 0 3) + grow)) ->
  (2 ^ 24 <= le_dec (sub package 0 3) + grow -> forall s, QE (HE_ValueOpUnsupported s)) ->
  post (checked_package_len package grow) Q QE.
Proof.
  intros Hl HQ HE. unfold checked_package_len. apply post_bind, lift_post, u24_at_post; [lia|lia|].
  intros z -> _. change (0 + 3) with 3. destruct (Z.ltb_spec 0xFFFFFF (le_dec (sub package 0 3) + grow)).
  - apply HE. lia.
  - apply HQ. lia.
Qed.

(** C27. [splice_question_ops] never panics on a form package. It fails only for an empty
    insertion, a length that does not fit the 24-bit header, a missing form or a
    missing anchor. Otherwise it changes the package only by the inserted bytes and the
    length; the insertion point splits the contents of the first form with the
    identifier, in the formset asked for, outside every scope of the form - at its end,
    or where the scopes around the first anchor begin - and inserted opcodes that close
    their scopes belong to that form, which is found at the same place. *)
Theorem splice_question_ops_correct package idx id pos ops :
  is_form_package package = true -> 0 <= idx ->
  match splice_question_ops package idx id pos ops with
  | Ok (package', (at_, n)) =>
      n = blen ops /\ inserted package package' at_ ops /\
      exists f inner e a b,
        form_in package (code_end package) idx id f inner e /\ insert_point package pos f inner e a b at_ /\
        forall ns, ops_at ops 0 ns n -> balanced ns ->
          form_in package' (code_end package') idx id f (a ++ ns ++ b) (e + n) /\
          form_span package' idx id = Ok (Some (f, e + n))
  | Err err => ops = [] \/ 2 ^ 24 <= le_dec (sub package 0 3) + blen ops \/ insert_error package idx id pos err
  | Panic | Diverge => False
  end.
Proof.
  intros Hp Hidx. pose proof (form_package_blen _ Hp) as H5. unfold splice_question_ops.
  destruct ops as [|op ops']; [by left|]. set (ops := op :: ops'). fold ops.
  assert (post (new_len ← checked_package_len package (blen ops);
                insert_at ← locate_insert_at package idx id pos;
                p ← splice_in package insert_at ops; p ← lift (set_u24 p new_len);
                mret (p, (insert_at, blen ops)))
    (fun r => let '(p', (at_, n)) := r in n = blen ops /\ inserted package p' at_ ops /\
      le_dec (sub package 0 3) + blen ops < 2 ^ 24 /\
      exists f inner e a b, form_in package (code_end package) idx id f inner e /\
        insert_point package pos f inner e a b at_)
    (fun err => ops = [] \/ 2 ^ 24 <= le_dec (sub package 0 3) + blen ops \/ insert_error package idx id pos err)) as H.
  { apply post_bind, checked_package_len_post; [lia| |by intros; right; left]. intros Hlen.
    apply post_bind. eapply post_mono; [by apply locate_insert_at_post| |by intros; right; right].
    intros at_ (f & inner & e & a & b & Hin & Hpt). pose proof (insert_point_bounds _ _ _ _ _ _ _ _ _ _ Hin Hpt).
    destruct (insert_bytes package at_ ops (le_dec (sub package 0 3) + blen ops)) as (p' & Hp' & Hl & Hh & Hlo & Hhi & Hm); [lia|].
    apply bind_Ok in Hp' as (q & Hq & Hset).
    assert (splice_in (E := HiiError) package at_ ops = Ok q) as ->.
    { revert Hq. unfold splice_in. destruct ((0 <=? at_) && (at_ <=? blen package)); congruence. }
    cbn [mbind outcome_bind]. rewrite Hset. cbn [lift map_err mbind outcome_bind post mret outcome_ret].
    split_and!; [done|by split_and!|done|by exists f, inner, e, a, b]. }
  destruct (_ ≫= _) as [[p' [at_ n]]|err| |]; [|exact H|done..].
  destruct H as (-> & Hins & Hlen & f & inner & e & a & b & Hin & Hpt). split_and!; [done|done|].
  exists f, inner, e, a, b. split_and!; [done|done|]. intros ns Hns Hbal.
  pose proof (insert_point_bounds _ _ _ _ _ _ _ _ _ _ Hin Hpt) as Hb.
  destruct Hins as (Hl & Hh & Hlo & Hm & Hhi). pose proof (blen_nonneg ops).
  assert (form_in p' (code_end package + blen ops) idx id f (a ++ ns ++ b) (e + blen ops)) as Hin'.
  { eapply form_in_insert; [done|done|done| |done| |done].
    - intros. apply Hlo. lia.
    - rewrite <-(Z.add_0_l at_) at 1. rewrite (Z.add_comm at_). eapply ops_at_copy; [|done].
      intros k Hk. rewrite Z.add_comm. by apply Hm. }
  assert (code_end p' = code_end package + blen ops) as Hce.
  { unfold code_end. rewrite Hh, Hl, le_dec_enc_small; [lia|]. change (256 ^ Z.of_nat 3) with (2 ^ 24).
    pose proof (le_dec_bounds (sub package 0 3)). lia. }
  rewrite Hce. split; [done|]. apply (form_span_complete _ _ _ _ (a ++ ns ++ b)); [|by rewrite Hce].
  apply (is_form_package_ext package); [apply Hlo; lia|apply Hlo; lia|lia|done].
Qed.

End FormFacts.
