(* ===== verification/GatesFacts.v ===== *)
(** Plans for gates: decoding reads a run of opcodes, a plan stays inside the package
    for every gate and is applied whole or not at all, and a flip of a directly encoded
    expression unlocks it. *)
From S2P Require Import Prelude Text Types Ffs Parser Hii Gates HiiFacts.

Section GatesFacts.
Context {GL : GuidLib} {RH : RefiHii}.

(** ** Expressions *)

(** The opcodes of a run without the ENDs, with their operands. *)
Fixpoint expr_data (region : list byte) (i : Z) (ops : list IfrOp) : list (byte * list byte) :=
  match ops with
  | [] => []
  | o :: ops =>
      (if is_end o then [] else [(op_code o, sub region (i + 2) (i + op_len o))])
      ++ expr_data region (i + op_len o) ops
  end.
(** The opcodes [ops] are the whole region, up to an odd byte. *)
Definition covers (region : list byte) (ops : list IfrOp) : Prop :=
  exists e, ops_at region 0 ops e /\ e <= blen region < e + 2.

Lemma expr_data_app region i a b m :
  ops_at region i a m -> expr_data region i (a ++ b) = expr_data region i a ++ expr_data region m b.
Proof.
  revert i. induction a as [|o a IH]; intros i; cbn [app ops_at expr_data]; [by intros ->|].
  intros [_ H]. by rewrite (IH _ H), app_assoc.
Qed.

Lemma expr_loop_post region :
  post (loop (length region + 1) (expr_ops_step region) (0, []))
    (fun r => forall ds, r = Some ds -> exists ops, covers region ops /\ ds = expr_data region 0 ops)
    (fun _ => False).
Proof.
  apply (scan_loop region _ fst (fun s => exists ops, ops_at region 0 ops (fst s) /\ fst s <= blen region /\
           snd s = expr_data region 0 ops)); [|cbn; lia|].
  2: { exists []. split_and!; [done|apply blen_nonneg|done]. }
  intros [i ds] Hi (ops & Hops & Hle & Hds). cbn [fst snd] in *. unfold expr_ops_step.
  destruct (Z.leb_spec (i + 2) (blen region)).
  2: { cbn. intros ds' [= <-]. exists ops. split; [exists i; split; [done|lia]|done]. }
  apply post_bind, read_op_post; [lia|lia|lia|done|]. intros o Ho Hoe. pose proof (op_len_pos _ _ _ Ho).
  assert (ops_at region 0 (ops ++ [o]) (i + op_len o)) as Hsnoc by (apply ops_at_app; exists i; by split).
  destruct (is_end o) eqn:He.
  - cbn. split_and!; [lia|lia|]. exists (ops ++ [o]). split_and!; [done|lia|].
    rewrite (expr_data_app _ _ _ _ _ Hops). cbn [expr_data]. rewrite He. cbn. by rewrite app_nil_r.
  - apply post_bind, slice_post; [lia|lia|lia|]. cbn. split_and!; [lia|lia|]. exists (ops ++ [o]).
    split_and!; [done|lia|]. rewrite (expr_data_app _ _ _ _ _ Hops). cbn [expr_data]. rewrite He. cbn.
    by rewrite Hds.
Qed.

Lemma decode_expr_post region :
  post (decode_expr region)
    (fun x => x = GE_Other \/ exists ops, covers region ops /\ x = expr_of_ops (expr_data region 0 ops))
    (fun _ => False).
Proof.
  unfold decode_expr. apply post_bind. eapply post_mono; [apply expr_loop_post| |done].
  intros [ds|] Hds; cbn; [|by left]. right. destruct (Hds ds eq_refl) as (ops & ? & ->). by exists ops.
Qed.

Lemma expr_steps region i ops e ds :
  0 <= i -> ops_at region i ops e -> e <= blen region ->
  steps (expr_ops_step region) (i, ds) (e, ds ++ expr_data region i ops).
Proof.
  revert i ds. induction ops as [|o ops IH]; intros i ds Hi; cbn [ops_at expr_data].
  { intros -> _. rewrite app_nil_r. constructor. }
  intros [Ho Hops] He. pose proof (op_len_pos _ _ _ Ho). pose proof (ops_at_le _ _ _ _ Hops).
  rewrite app_assoc. eapply steps_next; [|apply IH; [|done..]; lia]. unfold expr_ops_step.
  destruct (Z.leb_spec (i + 2) (blen region)); [|lia]. rewrite (read_op_at _ _ _ _ Ho) by lia.
  cbn [mbind outcome_bind]. destruct (is_end o); [by rewrite app_nil_r|].
  unfold slice. by rewrite (proj2 (range_ok_spec _ _ _)) by lia.
Qed.

Lemma decode_expr_covers region ops :
  covers region ops -> decode_expr region = Ok (expr_of_ops (expr_data region 0 ops)).
Proof.
  intros (e & Hops & He). unfold decode_expr.
  assert (loop (length region + 1) (expr_ops_step region) (0, []) = Ok (Some (expr_data region 0 ops))) as ->; [|done].
  eapply steps_loop; [by apply (expr_steps _ 0 ops e []); [|done|]; lia| |eapply post_converges, expr_loop_post].
  unfold expr_ops_step. by destruct (Z.leb_spec (e + 2) (blen region)); [lia|].
Qed.

(** ** Plans *)

Lemma width_total body qid : exists w, question_storage_width body qid = Ok w.
Proof.
  assert (post (question_storage_width body qid) (fun _ => True) (fun _ => False)) as H.
  { unfold question_storage_width. apply post_bind, package_bounds_post. intros s e Hs Hsl Hel _ _. cbn [fst snd].
    apply (scan_loop body _ id (fun _ => True)); [|destruct Hs; subst; cbn; lia|done].
    intros i Hi _. cbn [id] in *. unfold width_step. destruct (Z.leb_spec (i + 2) e); [|done].
    apply post_bind, read_op_post; [lia|lia|lia|done|]. intros o Ho Hle. pose proof (op_len_pos _ _ _ Ho).
    apply post_bind. assert (forall x : option Z, post (if bool_decide (x = Some qid) then
      if bool_decide (op_code o = IFR_CHECKBOX_OP) then mret (inr (Some 1))
      else if bool_decide (op_code o = IFR_NUMERIC_OP) && (14 <=? op_len o) then
        b ← index body (i + 13); mret (inr (Some (Z.shiftl 1 (Z.land (b2z b) IFR_NUMERIC_SIZE))))
      else mret (inr None) else mret (inl (i + op_len o)) : pure (Z + option Z))
      (fun r => match r with inl s' => i < s' /\ i < blen body /\ True | inr r => True end) (fun _ => False)) as Hk.
    { intros x. case_bool_decide; [|cbn; lia]. case_bool_decide; [done|].
      destruct (_ && _) eqn:Hc; [|done]. bool_to_prop. apply post_bind, index_post; [lia|done]. }
    destruct (is_question_op (op_code o) && (8 <=? op_len o)) eqn:Hq; [|apply Hk].
    bool_to_prop. apply post_bind, u16_in_post; [lia|lia|]. intros z _ _. apply Hk. }
  destruct (question_storage_width body qid) as [w|[]| |]; [by exists w|done..].
Qed.

(** A flip inside the package that keeps its length. *)
Definition flip_ok (body : list byte) (f : PlannedFlip) : Prop :=
  0 <= flip_offset f /\ blen (flip_from f) = blen (flip_to f) /\
  flip_offset f + blen (flip_to f) <= blen body.

Lemma past_false a b limit : past a b limit = false -> a + b <= limit.
Proof. unfold past, checked_add. destruct (Z.leb_spec (a + b) usize_max); [lia|done]. Qed.

Lemma plan_flip_post body g :
  0 <= expr_offset g ->
  post (plan_flip body g)
    (fun r => forall f, r = Some f -> flip_ok body f /\ expr_offset g <= flip_offset f) (fun e => e = bounds_err g).
Proof.
  intros H0. unfold plan_flip. destruct (past _ 2 _) eqn:Hp; [done|]. apply past_false in Hp.
  destruct (g_expr g) as [a b|qid v| | |]; try done.
  - destruct (a =? b); [|done]. apply post_bind, index_post; [lia|]. intros ls _.
    destruct (checked_add (expr_offset g) _) as [o|] eqn:Ho; [|done]. cbn [mbind option_bind].
    destruct (checked_add o 2) as [off|] eqn:Hoff; [|done]. destruct (get body off) as [from|] eqn:Hf; [|done].
    cbn [post mret outcome_ret]. intros f [= <-]. assert (0 <= off < blen body) by (apply get_is_Some; by eexists).
    unfold checked_add in *. repeat case_match; simplify_eq. rewrite land_7F in *.
    pose proof (Z.mod_pos_bound (b2z ls) 128 eq_refl).
    unfold flip_ok. cbn [flip_offset flip_from flip_to]. split_and!; blen_lia.
  - destruct (v =? 0xFFFF); [done|]. cbn [negb]. destruct (width_total body qid) as [w ->]. cbn [lift map_err mbind outcome_bind].
    destruct (match w with Some w => 1 <? w | None => false end); [done|].
    destruct (past _ 6 _) eqn:Hp6; [done|]. apply past_false in Hp6. cbn [post mret outcome_ret]. intros f [= <-].
    unfold flip_ok. cbn [flip_offset flip_from flip_to]. split_and!; blen_lia.
  - case_bool_decide as Hb; [|done]. cbn [post mret outcome_ret]. intros f [= <-]. unfold flip_ok. cbn [flip_offset flip_from flip_to].
    split_and!; blen_lia.
Qed.

(** ** Application *)

Definition flip_pre (body : list byte) (f : PlannedFlip) : Prop :=
  flip_offset f + blen (flip_to f) <= blen body /\
  get_range body (flip_offset f) (flip_offset f + blen (flip_from f)) = Some (flip_from f).
(** The offsets of a flip are machine addresses. *)
Definition flip_usize (f : PlannedFlip) : Prop :=
  0 <= flip_offset f /\ flip_offset f + blen (flip_from f) <= usize_max /\
  flip_offset f + blen (flip_to f) <= usize_max.
(** The byte at [k] behind the flips: the one of the last flip over it. *)
Definition flipped (flips : list PlannedFlip) (body : list byte) (k : Z) : option byte :=
  fold_left (fun b f => if (flip_offset f <=? k) && (k <? flip_offset f + blen (flip_to f))
                        then get (flip_to f) (k - flip_offset f) else b) flips (get body k).

Lemma flip_check_eq body u f :
  flip_usize f ->
  (flip_pre body f /\ flip_check body u f = Ok tt) \/
  (~ flip_pre body f /\ exists e, flip_check body u f = Err e).
Proof.
  intros (H0 & Hf & Ht). unfold flip_check, flip_pre, uadd, get_range, slice.
  pose proof (blen_nonneg (flip_from f)).
  rewrite (proj2 (Z.leb_le _ _) Hf), (proj2 (Z.leb_le _ _) Ht). cbn [mbind outcome_bind].
  destruct (Z.ltb_spec (blen body) (flip_offset f + blen (flip_from f))).
  { right. split; [|by eexists]. intros [_ Hr]. destruct (range_ok _ _ _) eqn:Hro; [|done].
    apply range_ok_spec in Hro. lia. }
  destruct (Z.ltb_spec (blen body) (flip_offset f + blen (flip_to f))).
  { right. split; [|by eexists]. intros [? _]. lia. }
  rewrite (proj2 (range_ok_spec _ _ _)) by lia. cbn [mbind outcome_bind].
  case_bool_decide as Hs; cbn [negb]; [left|right; split; [|by eexists]].
  - split; [split; [done|by rewrite Hs]|done].
  - intros [_ [= ?]]. done.
Qed.

Lemma flip_check_all body flips :
  Forall flip_usize flips ->
  (Forall (flip_pre body) flips /\ foldM (flip_check body) flips tt = Ok tt) \/
  (~ Forall (flip_pre body) flips /\ exists e, foldM (flip_check body) flips tt = Err e).
Proof.
  induction 1 as [|f flips Hf _ IH]; [by left|]. cbn [foldM].
  destruct (flip_check_eq body tt f Hf) as [[Hp ->]|[Hp [e ->]]]; cbn [mbind outcome_bind].
  - destruct IH as [[? ->]|[Hn [e ->]]]; [left; by split; [constructor|]|right]. split; [|by eexists].
    by intros [? ?]%Forall_cons.
  - right. split; [|by eexists]. by intros [? ?]%Forall_cons.
Qed.

Lemma flip_writes flips body :
  Forall (fun f => 0 <= flip_offset f /\ flip_offset f + blen (flip_to f) <= blen body) flips ->
  exists body', foldM flip_write flips body = Ok body' /\ blen body' = blen body /\
    forall k, get body' k = flipped flips body k.
Proof.
  revert body. induction flips as [|f flips IH]; intros body; [by exists body|].
  intros [[H0 Hle] Hfs]%Forall_cons. cbn [foldM].
  assert (flip_write body f = Ok (splice body (flip_offset f) (flip_to f))) as ->.
  { unfold flip_write, copy_into. rewrite (proj2 (range_ok_spec _ _ _)) by (pose proof (blen_nonneg (flip_to f)); lia).
    by assert ((flip_offset f + blen (flip_to f) - flip_offset f =? blen (flip_to f)) = true) as -> by lia. }
  cbn [mbind outcome_bind]. destruct (IH (splice body (flip_offset f) (flip_to f))) as (b' & -> & Hl & Hg).
  { rewrite blen_splice by lia. done. }
  rewrite blen_splice in Hl by lia. exists b'. split_and!; [done|done|]. intros k. rewrite Hg.
  unfold flipped. cbn [fold_left]. by rewrite get_splice by lia.
Qed.

(** Flips whose offsets are machine addresses are applied all or not at all: the
    application fails exactly when the old bytes of some flip are not in the package;
    otherwise every byte of the package is the one of the last flip over it, or
    unchanged. It never panics. *)
Theorem apply_flips_atomic body flips :
  Forall flip_usize flips ->
  match apply_flips body flips with
  | Ok body' => Forall (flip_pre body) flips /\ blen body' = blen body /\
      forall k, get body' k = flipped flips body k
  | Err _ => ~ Forall (flip_pre body) flips
  | Panic | Diverge => False
  end.
Proof.
  intros Hus. unfold apply_flips.
  destruct (flip_check_all body flips Hus) as [[Hp ->]|[Hp [e ->]]]; cbn [mbind outcome_bind]; [|done].
  destruct (flip_writes flips body) as (b' & -> & Hl & Hg); [|done].
  apply Forall_forall. intros f Hf. rewrite Forall_forall in Hp, Hus.
  split; [apply Hus|apply Hp]; done.
Qed.

(** ** Unlocking *)

(** The operands of the expression follow each other without an END between them. *)
Definition direct (region : list byte) (x : GateExpr) : Prop :=
  match x with
  | GE_EqConst _ _ => get region 0 <> Some IFR_END_OP /\ get region 10 <> Some IFR_END_OP
  | GE_EqIdVal _ _ => get region 0 <> Some IFR_END_OP
  | _ => True
  end.

Lemma expr_data_ext region region' i ops e :
  0 <= i -> (forall k, i <= k < e -> get region' k = get region k) -> ops_at region i ops e ->
  expr_data region' i ops = expr_data region i ops.
Proof.
  revert i. induction ops as [|o ops IH]; intros i Hi Hk; cbn [ops_at expr_data]; [done|].
  intros [Ho Hops]. pose proof (op_len_pos _ _ _ Ho). pose proof (ops_at_le _ _ _ _ Hops).
  rewrite (IH (i + op_len o)); [|lia|intros; apply Hk; lia|done]. f_equal. destruct (is_end o); [done|].
  do 2 f_equal. apply sub_ext; [lia|]. intros. apply Hk. lia.
Qed.

Lemma expr_of_ops_EqConst ds a b :
  expr_of_ops ds = GE_EqConst a b -> exists da db dc,
    ds = [(IFR_UINT64_OP, da); (IFR_UINT64_OP, db); (IFR_EQUAL_OP, dc)] /\
    blen da = 8 /\ blen db = 8 /\ a = le_dec da /\ b = le_dec db.
Proof.
  unfold expr_of_ops. repeat (case_match; try done); intros [= <- <-]. bool_to_prop. subst. do 3 eexists. split_and!; done || lia.
Qed.

Lemma expr_of_ops_EqIdVal ds q v :
  expr_of_ops ds = GE_EqIdVal q v -> exists p,
    ds = [(IFR_EQ_ID_VAL_OP, p)] /\ blen p = 4 /\ q = le_dec (sub p 0 2) /\ v = le_dec (sub p 2 4).
Proof.
  unfold expr_of_ops. repeat (case_match; try done); intros [= <- <-]. bool_to_prop. subst. eexists. split_and!; done || lia.
Qed.

Lemma expr_of_ops_True ds : expr_of_ops ds = GE_True -> exists p, ds = [(IFR_TRUE_OP, p)].
Proof.
  unfold expr_of_ops. repeat (case_match; try done); intros _. bool_to_prop. subst. by eexists.
Qed.

(** The first operand of a run that does not start with an END. *)
Lemma expr_data_first region i ops e c d ds :
  0 <= i -> ops_at region i ops e -> e <= blen region -> expr_data region i ops = (c, d) :: ds ->
  get region i <> Some IFR_END_OP ->
  exists o ops', ops = o :: ops' /\ op_at region i o /\ is_end o = false /\ op_code o = c /\
    d = sub region (i + 2) (i + op_len o) /\ op_len o = blen d + 2 /\
    ops_at region (i + op_len o) ops' e /\ expr_data region (i + op_len o) ops' = ds.
Proof.
  intros Hi. destruct ops as [|o ops]; cbn [ops_at expr_data]; [done|]. intros [Ho Hops] He Hd Hne.
  pose proof (op_len_pos _ _ _ Ho). pose proof (ops_at_le _ _ _ _ Hops).
  destruct (is_end o) eqn:Hend.
  { unfold is_end in Hend. apply bool_decide_eq_true in Hend. destruct Hne. by rewrite <-Hend, (proj1 Ho). }
  cbn [app] in Hd. injection Hd as <- <- <-. exists o, ops. rewrite blen_sub by lia. by split_and!; try lia.
Qed.

Lemma decode_shape region x :
  decode_expr region = Ok x -> x <> GE_Other ->
  exists ops e, ops_at region 0 ops e /\ e <= blen region < e + 2 /\ expr_of_ops (expr_data region 0 ops) = x.
Proof.
  intros Hd Hx. pose proof (decode_expr_post region) as Hp. rewrite Hd in Hp.
  destruct Hp as [|(ops & (e & Hops & He) & ->)]; [done|]. by exists ops, e.
Qed.

Lemma eq_const_shape region a b :
  decode_expr region = Ok (GE_EqConst a b) -> direct region (GE_EqConst a b) ->
  exists o1 o2 ops e dc,
    op_at region 0 o1 /\ is_end o1 = false /\ op_code o1 = IFR_UINT64_OP /\ op_len o1 = 10 /\
    op_at region 10 o2 /\ is_end o2 = false /\ op_code o2 = IFR_UINT64_OP /\ op_len o2 = 10 /\
    ops_at region 20 ops e /\ 20 <= e /\ e <= blen region < e + 2 /\ expr_data region 20 ops = [(IFR_EQUAL_OP, dc)] /\
    a = le_dec (sub region 2 10) /\ b = le_dec (sub region 12 20).
Proof.
  intros Hdec [Hd0 Hd10]. destruct (decode_shape _ _ Hdec) as (ops & e & Hops & Hle & He); [done|].
  apply expr_of_ops_EqConst in He as (da & db & dc & Hds & Hda & Hdb & Ha & Hb).
  destruct (expr_data_first region 0 ops e _ _ _ ltac:(lia) Hops ltac:(lia) Hds Hd0)
    as (o1 & ops1 & -> & Ho1 & He1 & Hc1 & Hda' & Hl1 & Hops1 & Hds1).
  rewrite Hda in Hl1. rewrite Hl1 in *. change (0 + (8 + 2)) with 10 in *.
  destruct (expr_data_first region 10 ops1 e _ _ _ ltac:(lia) Hops1 ltac:(lia) Hds1 Hd10)
    as (o2 & ops2 & -> & Ho2 & He2 & Hc2 & Hdb' & Hl2 & Hops2 & Hds2).
  rewrite Hdb in Hl2. rewrite Hl2 in *. change (10 + (8 + 2)) with 20 in *. pose proof (ops_at_le _ _ _ _ Hops2).
  exists o1, o2, ops2, e, dc. subst da db. by split_and!; try lia.
Qed.

Lemma eq_id_val_shape region q v :
  decode_expr region = Ok (GE_EqIdVal q v) -> direct region (GE_EqIdVal q v) ->
  exists o ops e,
    op_at region 0 o /\ is_end o = false /\ op_code o = IFR_EQ_ID_VAL_OP /\ op_len o = 6 /\
    ops_at region 6 ops e /\ 6 <= e /\ e <= blen region < e + 2 /\ expr_data region 6 ops = [] /\
    q = le_dec (sub region 2 4) /\ v = le_dec (sub region 4 6).
Proof.
  intros Hdec Hd0. destruct (decode_shape _ _ Hdec) as (ops & e & Hops & Hle & He); [done|].
  apply expr_of_ops_EqIdVal in He as (p & Hds & Hp & Hq & Hv).
  destruct (expr_data_first region 0 ops e _ _ _ ltac:(lia) Hops ltac:(lia) Hds Hd0)
    as (o & ops1 & -> & Ho & He1 & Hc & Hp' & Hl & Hops1 & Hds1).
  rewrite Hp in Hl. rewrite Hl in *. change (0 + (4 + 2)) with 6 in *. pose proof (ops_at_le _ _ _ _ Hops1).
  exists o, ops1, e. subst p. rewrite !sub_sub in * by lia. by split_and!; try lia.
Qed.

Lemma true_shape region :
  decode_expr region = Ok GE_True -> get region 0 = Some IFR_TRUE_OP ->
  exists o ops e,
    op_at region 0 o /\ op_code o = IFR_TRUE_OP /\ ops_at region (op_len o) ops e /\ op_len o <= e /\ e <= blen region < e + 2 /\
    expr_data region (op_len o) ops = [].
Proof.
  intros Hdec Hd0. destruct (decode_shape _ _ Hdec) as (ops & e & Hops & Hle & He); [done|].
  apply expr_of_ops_True in He as (p & Hds).
  destruct (expr_data_first region 0 ops e _ _ _ ltac:(lia) Hops ltac:(lia) Hds)
    as (o & ops1 & -> & Ho & He1 & Hc & Hp' & Hl & Hops1 & Hds1).
  { rewrite Hd0. intros [= Heq]. by apply (op_ne 21 18 IFR_TRUE_OP IFR_END_OP). }
  change (0 + op_len o) with (op_len o) in *. pose proof (ops_at_le _ _ _ _ Hops1).
  exists o, ops1, e. by split_and!; try lia.
Qed.

(** The region with [new] written at [d]. *)
Definition patched (region region' : list byte) (d : Z) (new : list byte) : Prop :=
  forall k, get region' k = if (d <=? k) && (k <? d + blen new) then get new (k - d) else get region k.

Lemma patched_out region region' d new k :
  patched region region' d new -> k < d \/ d + blen new <= k -> get region' k = get region k.
Proof. intros Hp Hk. rewrite Hp. destruct (Z.leb_spec d k), (Z.ltb_spec k (d + blen new)); cbn; done || lia. Qed.

Lemma patched_in region region' d new j :
  patched region region' d new -> 0 <= j < blen new -> get region' (d + j) = get new j.
Proof.
  intros Hp Hk. rewrite Hp. destruct (Z.leb_spec d (d + j)), (Z.ltb_spec (d + j) (d + blen new)); try lia.
  cbn. f_equal. lia.
Qed.

Lemma patched_blen region region' d new :
  0 <= d -> d + blen new <= blen region -> patched region region' d new -> blen region' = blen region.
Proof.
  intros Hd Hle Hp. apply blen_get_ext. intros k. rewrite Hp.
  destruct (Z.leb_spec d k), (Z.ltb_spec k (d + blen new)); cbn; try done. rewrite !get_is_Some. lia.
Qed.

(** The second constant of an equality of equal constants changes. *)
Lemma unlock_eq_const region region' a b0 :
  decode_expr region = Ok (GE_EqConst a a) -> direct region (GE_EqConst a a) ->
  get region 12 = Some b0 -> patched region region' 12 [z2b (b2z b0 + 1)] ->
  exists x, decode_expr region' = Ok x /\ is_unlocked_expr x = true.
Proof.
  intros Hdec Hdir Hb0 Hp. destruct (eq_const_shape _ _ _ Hdec Hdir)
    as (o1 & o2 & ops & e & dc & Ho1 & He1 & Hc1 & Hl1 & Ho2 & He2 & Hc2 & Hl2 & Hops & Hle & Hle' & Hds & Ha & Hb).
  assert (forall k, k <> 12 -> get region' k = get region k) as Hout.
  { intros k Hk. eapply patched_out; [done|]. change (blen [_]) with 1. lia. }
  assert (blen region' = blen region) as Hlen by (eapply patched_blen; [| |done]; change (blen [_]) with 1; lia).
  assert (covers region' (o1 :: o2 :: ops)) as Hcov.
  { exists e. rewrite Hlen. cbn [ops_at]. rewrite Hl1, Hl2. split; [|lia]. split; [|split].
    - eapply op_at_ext; [|done]. intros; apply Hout; lia.
    - eapply op_at_ext; [|done]. intros; apply Hout; lia.
    - eapply ops_at_ext; [|done]. intros; apply Hout; lia. }
  rewrite (decode_expr_covers _ _ Hcov). eexists. split; [done|].
  cbn [expr_data]. rewrite He1, He2, Hl1, Hl2, Hc1, Hc2.
  change (0 + 10) with 10. change (10 + 10) with 20. change (10 + 2) with 12. change (0 + 2) with 2. cbn [app].
  rewrite (expr_data_ext region region' 20 ops e), Hds; [|lia|intros; apply Hout; lia|done].
  rewrite (sub_ext region' region 2 10) by (try lia; intros; apply Hout; lia).
  cbn [expr_of_ops]. rewrite !bool_decide_eq_true_2 by done. rewrite !blen_sub by lia. cbn.
  apply negb_true_iff, Z.eqb_neq. rewrite <-Ha, Hb. intros Heq. apply le_dec_inj in Heq.
  2: { apply Nat2Z.inj. fold (blen (sub region 12 20)) (blen (sub region' 12 20)). rewrite !blen_sub; lia. }
  assert (get (sub region' 12 20) 0 = get (sub region 12 20) 0) as Hg by by rewrite Heq.
  rewrite !get_sub in Hg by lia. change (12 + 0) with 12 in Hg. rewrite Hp, Hb0 in Hg. cbn in Hg.
  injection Hg as Hg. apply (f_equal b2z) in Hg. rewrite b2z_z2b in Hg. pose proof (b2z_bounds b0). zdm.
Qed.

(** The value of a comparison becomes 0xFFFF. *)
Lemma unlock_eq_id_val region region' q v :
  decode_expr region = Ok (GE_EqIdVal q v) -> direct region (GE_EqIdVal q v) ->
  patched region region' 4 (le_enc 2 0xFFFF) ->
  exists x, decode_expr region' = Ok x /\ is_unlocked_expr x = true.
Proof.
  intros Hdec Hdir Hp. destruct (eq_id_val_shape _ _ _ Hdec Hdir)
    as (o & ops & e & Ho & He & Hc & Hl & Hops & Hle & Hle' & Hds & Hq & Hv).
  assert (forall k, k < 4 \/ 6 <= k -> get region' k = get region k) as Hout.
  { intros k Hk. eapply patched_out; [done|]. change (blen _) with 2. lia. }
  assert (blen region' = blen region) as Hlen by (eapply patched_blen; [| |done]; change (blen (le_enc 2 _)) with 2; lia).
  assert (covers region' (o :: ops)) as Hcov.
  { exists e. rewrite Hlen. cbn [ops_at]. rewrite Hl. split; [|lia]. split.
    - eapply op_at_ext; [|done]. intros; apply Hout; lia.
    - eapply ops_at_ext; [|done]. intros; apply Hout; lia. }
  rewrite (decode_expr_covers _ _ Hcov). eexists. split; [done|].
  cbn [expr_data]. rewrite He, Hl, Hc. change (0 + 6) with 6. change (0 + 2) with 2. cbn [app].
  rewrite (expr_data_ext region region' 6 ops e), Hds; [|lia|intros; apply Hout; lia|done].
  assert (sub region' 4 6 = le_enc 2 0xFFFF) as Hs.
  { apply list_get_ext. intros k. destruct (decide (0 <= k < 2)) as [Hk|Hk].
    - rewrite get_sub by lia. by rewrite <-(patched_in _ _ _ _ k Hp) by done.
    - rewrite !(proj2 (get_None _ _)); [done|change (blen (le_enc 2 0xFFFF)) with 2; lia|rewrite blen_sub by lia; lia]. }
  cbn [expr_of_ops]. rewrite bool_decide_eq_true_2 by done. rewrite blen_sub, !sub_sub by lia. cbn [andb Z.add Z.sub Z.eqb].
  change (2 + 2) with 4. change (2 + 4) with 6. by rewrite Hs.
Qed.

(** TRUE becomes FALSE. *)
Lemma unlock_true region region' :
  decode_expr region = Ok GE_True -> get region 0 = Some IFR_TRUE_OP ->
  patched region region' 0 [IFR_FALSE_OP] ->
  exists x, decode_expr region' = Ok x /\ is_unlocked_expr x = true.
Proof.
  intros Hdec H0 Hp. destruct (true_shape _ Hdec H0) as (o & ops & e & Ho & Hc & Hops & Hle & Hle' & Hds).
  pose proof (op_len_pos _ _ _ Ho).
  assert (forall k, k <> 0 -> get region' k = get region k) as Hout.
  { intros k Hk. eapply patched_out; [done|]. change (blen [_]) with 1. lia. }
  assert (blen region' = blen region) as Hlen by (eapply patched_blen; [| |done]; change (blen [_]) with 1; lia).
  pose (o' := {| op_code := IFR_FALSE_OP; op_ls := op_ls o; op_len := op_len o |}).
  assert (is_end o' = false) as He' by (apply bool_decide_eq_false, (op_ne 22 18); done).
  assert (covers region' (o' :: ops)) as Hcov.
  { exists e. rewrite Hlen. cbn [ops_at]. destruct Ho as (? & ? & ? & ?). split; [|lia]. unfold op_at. split_and!; try done.
    - cbn [op_ls o']. by rewrite Hout by lia.
    - eapply ops_at_ext; [|done]. intros; apply Hout. cbn [op_len o'] in *. lia. }
  rewrite (decode_expr_covers _ _ Hcov). eexists. split; [done|].
  cbn [expr_data]. rewrite He'. cbn [app o' op_code op_len]. change (0 + op_len o) with (op_len o).
  rewrite (expr_data_ext region region' (op_len o) ops e), Hds; [|lia|intros; apply Hout; lia|done].
  cbn [expr_of_ops]. rewrite (bool_decide_eq_false_2 (IFR_FALSE_OP = IFR_EQ_ID_VAL_OP)) by by apply (op_ne 22 12).
  rewrite (bool_decide_eq_false_2 (IFR_FALSE_OP = IFR_TRUE_OP)) by by apply (op_ne 22 21).
  by rewrite bool_decide_eq_true_2 by done.
Qed.

(** The bytes of the expression of a gate. *)
Definition gate_region (body : list byte) (g : Gate) : list byte :=
  sub body (expr_offset g) (Z.min (expr_end g) (blen body)).

Lemma Ok_Some_inj {E A} (a b : A) : Ok (E := E) (Some a) = Ok (Some b) -> a = b.
Proof. by intros [= ->]. Qed.

(** A planned flip lies in the expression, finds its old bytes there, and unlocks it. *)
Lemma plan_flip_unlocks body g f :
  0 <= expr_offset g -> decode_expr (gate_region body g) = Ok (g_expr g) ->
  direct (gate_region body g) (g_expr g) -> plan_flip body g = Ok (Some f) ->
  exists d, 0 <= d /\ flip_offset f = expr_offset g + d /\ d + blen (flip_to f) <= blen (gate_region body g) /\
    blen (flip_from f) = blen (flip_to f) /\ 
    get_range (gate_region body g) d (d + blen (flip_from f)) = Some (flip_from f) /\
    forall region', patched (gate_region body g) region' d (flip_to f) ->
      exists x, decode_expr region' = Ok x /\ is_unlocked_expr x = true.
Proof.
  intros H0 Hdec Hdir. unfold plan_flip. destruct (past _ 2 _) eqn:Hp2; [done|]. apply past_false in Hp2.
  assert (forall k, 0 <= k < blen (gate_region body g) -> get (gate_region body g) k = get body (expr_offset g + k)) as Hg.
  { unfold gate_region. intros k Hk. rewrite blen_sub in Hk by lia. rewrite get_sub by lia. done. }
  destruct (g_expr g) as [a b|qid v| | |] eqn:Hx; try done.
  - destruct (Z.eqb_spec a b) as [<-|]; [|done]. destruct (eq_const_shape _ _ _ Hdec Hdir)
      as (o1 & o2 & ops & e & dc & Ho1 & He1 & Hc1 & Hl1 & Ho2 & He2 & Hc2 & Hl2 & Hops & Hle & Hle' & Hds & Ha & Hb).
    destruct Ho1 as (_ & Hls & Hlen & _). rewrite Hg in Hls by lia. rewrite (index_eq _ _ _ Hls). cbn [mbind outcome_bind].
    rewrite <-Hlen, Hl1. destruct (checked_add (expr_offset g) 10) as [o|] eqn:Ho; [|done]. cbn [mbind option_bind].
    destruct (checked_add o 2) as [off|] eqn:Hoff; [|done]. unfold checked_add in *. repeat (case_match; try done); simplify_eq.
    intros [= <-]. match goal with Hb : get body _ = Some ?x |- _ => rename Hb into Hb0; rename x into b0 end.
    assert (get (gate_region body g) 12 = Some b0) as Hb12 by (rewrite Hg, <-Hb0 by lia; f_equal; lia).
    exists 12. cbn [flip_offset flip_to flip_from]. change (blen [_]) with 1. split_and!; [lia|lia|lia|done| |].
    + unfold get_range. by rewrite (proj2 (range_ok_spec _ _ _)), (sub_one _ _ _ Hb12) by lia.
    + intros region' Hpt. by apply (unlock_eq_const _ _ _ _ Hdec Hdir Hb12).
  - destruct (v =? 0xFFFF); [done|]. cbn [negb]. destruct (width_total body qid) as [w ->]. cbn [lift map_err mbind outcome_bind].
    destruct (match w with Some w => 1 <? w | None => false end); [done|]. destruct (past _ 6 _) eqn:Hp6; [done|].
    intros <-%Ok_Some_inj. destruct (eq_id_val_shape _ _ _ Hdec Hdir) as (o & ops & e & _ & _ & _ & _ & _ & Hle & Hle' & _ & _ & Hv).
    exists 4. cbn [flip_offset flip_to flip_from]. rewrite !blen_le_enc. change (Z.of_nat 2) with 2.
    split_and!; [lia|lia|lia|done| |].
    + unfold get_range. rewrite (proj2 (range_ok_spec _ _ _)) by lia. f_equal. change (4 + 2) with 6. rewrite Hv.
      assert (2%nat = length (sub (gate_region body g) 4 6)) as ->; [|by rewrite le_enc_dec].
      pose proof (blen_sub (gate_region body g) 4 6). unfold blen in *. lia.
    + intros region' Hpt. by apply (unlock_eq_id_val _ _ _ _ Hdec Hdir).
  - case_bool_decide as Hb; [|done]. cbn [negb]. intros [= <-]. exists 0. cbn [flip_offset flip_to flip_from].
    change (blen [_]) with 1. assert (0 < blen (gate_region body g)) as Hpos by (unfold gate_region; rewrite blen_sub; lia).
    assert (get (gate_region body g) 0 = Some IFR_TRUE_OP) as Ht by (rewrite Hg, <-Hb by lia; f_equal; lia).
    split_and!; [lia|lia|lia|done| |].
    + unfold get_range. by rewrite (proj2 (range_ok_spec _ _ _)), (sub_one _ _ _ Ht) by lia.
    + intros region' Hpt. by apply (unlock_true _ _ Hdec Ht).
Qed.

(** The flip planned for a gate whose operands follow each other directly applies,
    changes only bytes of the gate's expression, and leaves an expression that decodes as
    unlocked. *)
Theorem unlock_sound body g f :
  blen body <= usize_max -> 0 <= expr_offset g ->
  decode_expr (gate_region body g) = Ok (g_expr g) -> direct (gate_region body g) (g_expr g) ->
  plan_flip body g = Ok (Some f) ->
  exists body' x, apply_flips body [f] = Ok body' /\ blen body' = blen body /\
    (forall k, get body' k <> get body k -> expr_offset g <= k < expr_end g) /\
    decode_expr (gate_region body' g) = Ok x /\ is_unlocked_expr x = true.
Proof.
  intros Husz H0 Hdec Hdir Hplan. destruct (plan_flip_unlocks _ _ _ H0 Hdec Hdir Hplan) as (d & Hd & Ho & Hle & Hft & Hr & Hun).
  assert (expr_offset g <= Z.min (expr_end g) (blen body)) as Hge.
  { unfold plan_flip in Hplan. destruct (past _ 2 _) eqn:Hp2; [done|]. apply past_false in Hp2. lia. }
  pose proof (blen_nonneg (flip_to f)). unfold gate_region in Hle. rewrite blen_sub in Hle by lia.
  assert (flip_pre body f) as Hpre.
  { split; [lia|]. apply get_range_Some in Hr as [Hro Hs]. unfold gate_region in Hs, Hro.
    apply get_range_Some. split; [lia|]. rewrite sub_sub in Hs by lia. etransitivity; [exact Hs|f_equal; lia]. }
  assert (flip_usize f) as Hus by (split_and!; lia).
  destruct (flip_check_all body [f] (proj2 (Forall_singleton _ _) Hus)) as [[_ Hck]|[Hn _]].
  2: { destruct Hn. by apply Forall_singleton. }
  unfold apply_flips. rewrite Hck. cbn [mbind outcome_bind].
  destruct (flip_writes [f] body) as (body' & -> & Hlen & Hget); [apply Forall_singleton; lia|].
  unfold flipped in Hget. cbn [fold_left] in Hget.
  destruct (Hun (gate_region body' g)) as (x & Hx & Hxu).
  { intros k. unfold gate_region. rewrite Hlen. destruct (decide (0 <= k < Z.min (expr_end g) (blen body) - expr_offset g)).
    - rewrite !get_sub, Hget by lia. rewrite Ho.
      destruct (Z.leb_spec (expr_offset g + d) (expr_offset g + k)), (Z.leb_spec d k); try lia; [|done]. cbn [andb].
      destruct (Z.ltb_spec (expr_offset g + k) (expr_offset g + d + blen (flip_to f))), (Z.ltb_spec k (d + blen (flip_to f))); try lia; [|done].
      f_equal. lia.
    - rewrite !(proj2 (get_None (sub _ _ _) _)) by (rewrite blen_sub; lia).
      destruct (Z.leb_spec d k), (Z.ltb_spec k (d + blen (flip_to f))); done || lia. }
  exists body', x. split_and!; try done. intros k Hk. rewrite Hget in Hk.
  destruct (Z.leb_spec (flip_offset f) k), (Z.ltb_spec k (flip_offset f + blen (flip_to f))); done || lia.
Qed.

(** Planning is total: it returns a flip of equally many bytes inside the package at
    or behind the expression, no flip, or the error that names the gate. *)
Theorem plan_flip_total body g :
  0 <= expr_offset g ->
  match plan_flip body g with
  | Ok (Some f) => flip_ok body f /\ expr_offset g <= flip_offset f
  | Ok None => True
  | Err e => e = bounds_err g
  | Panic | Diverge => False
  end.
Proof.
  intros H0. pose proof (plan_flip_post body g H0) as Hp.
  destruct (plan_flip body g) as [[f|]|e| |]; cbn in Hp; [by apply Hp|done..].
Qed.

End GatesFacts.

(** The search for gates: it is total, and every gate it returns is the scope of a
    SUPPRESS_IF or GRAY_OUT_IF that is still open at a statement of the target. *)

Section GateSearch.
Context {GL : GuidLib} {RH : RefiHii}.

(** The scope opened by [o] at [off] is open at [i]. *)
Definition encloses (body : list byte) (off : Z) (o : IfrOp) (ops : list IfrOp) (i : Z) : Prop :=
  op_at body off o /\ op_scoped o = true /\ is_end o = false /\
  ops_at body (off + op_len o) ops i /\ is_Some (depth_run 0 ops).

Definition form_id_at (body : list byte) (off : Z) : Z := le_dec (sub body (off + 2) (off + 4)).
Definition in_form_scope (body : list byte) (i id : Z) : Prop :=
  exists off o ops, encloses body off o ops i /\ op_code o = IFR_FORM_OP /\ id = form_id_at body off.

(** The statement [st] at [i] is one of the target. *)
Definition matches (body : list byte) (i : Z) (st : IfrOp) (target : GateTarget) (w : Wraps) : Prop :=
  let ref := parse_ref (op_code st) (sub body i (i + op_len st)) in
  match w with
  | WR_Form fid => op_code st = IFR_FORM_OP /\ fid = form_id_at body i /\ fid = gt_form_id target /\
      gt_question_id target = None
  | WR_Ref fid _ => gt_question_id target = None /\ gt_formset_guid target = None /\
      fid = gt_form_id target /\ (ref = Some (RT_Form fid) \/ exists q, ref = Some (RT_FormQuestion fid q))
  | WR_CrossFormsetRef fid _ guid => gt_question_id target = None /\ gt_formset_guid target = Some guid /\
      fid = gt_form_id target /\ exists q, ref = Some (RT_Formset guid fid q)
  | WR_Question fid qid => is_question_op (op_code st) = true /\ gt_question_id target = Some qid /\
      qid = le_dec (sub body (i + 6) (i + 8)) /\ fid = gt_form_id target /\ in_form_scope body i fid
  end.

Definition stmt (o : IfrOp) : bool := is_statement_op (op_code o).
(** The expression in front of the first statement of a scope. *)
Definition expr_split (body : list byte) (m : Z) (ops : list IfrOp) (e : option Z) : Prop :=
  match e with
  | None => Forall (fun o => stmt o = false) ops
  | Some e => exists a st b, ops = a ++ st :: b /\ ops_at body m a e /\
      Forall (fun o => stmt o = false) a /\ stmt st = true
  end.

Definition gate_op_of (k : GateKind) : byte :=
  match k with GK_Suppress => IFR_SUPPRESS_IF_OP | GK_Grayout => IFR_GRAY_OUT_IF_OP end.
Definition gate_ok (body : list byte) (target : GateTarget) (g : Gate) : Prop :=
  exists o ops st i,
    encloses body (scope_offset g) o ops i /\ op_code o = gate_op_of (g_kind g) /\
    op_at body i st /\ stmt st = true /\ matches body i st target (g_wraps g) /\
    expr_split body (scope_offset g + op_len o) (ops ++ [st]) (Some (expr_end g)) /\
    expr_offset g = scope_offset g + 2 /\ decode_expr (gate_region body g) = Ok (g_expr g).

(** ** The stack *)

Definition frame_ok (body : list byte) (i n : Z) (f : Frame) : Prop :=
  0 <= fr_offset f /\
  exists o ops, op_at body (fr_offset f) o /\ fr_op f = op_code o /\ op_scoped o = true /\ is_end o = false /\
    ops_at body (fr_offset f + op_len o) ops i /\ depth_run 0 ops = Some n /\
    expr_split body (fr_offset f + op_len o) ops (fr_expr_end f) /\
    (forall id, fr_form_id f = Some id -> op_code o = IFR_FORM_OP /\ id = form_id_at body (fr_offset f)).
Definition stack_ok (body : list byte) (i d : Z) (stack : list Frame) : Prop :=
  forall n f, stack !! n = Some f -> frame_ok body i (Z.of_nat n + d) f.

Lemma stmt_not_end o : stmt o = true -> is_end o = false.
Proof.
  unfold stmt, is_statement_op, one_of, is_end. intros H%bool_decide_eq_true. apply bool_decide_eq_false.
  intros He. rewrite He in H. repeat (apply elem_of_cons in H as [H|H]; [op_clash 18%nat 28%nat H|]).
  by apply elem_of_nil in H.
Qed.

Lemma split_next body m ops i f o :
  ops_at body m ops i -> expr_split body m ops (fr_expr_end f) ->
  expr_split body m (ops ++ [o]) (fr_expr_end (if stmt o then mark_end i f else f)).
Proof.
  intros Hops Hx. destruct (fr_expr_end f) as [e|] eqn:Hfe; cbn [expr_split] in Hx.
  - assert (fr_expr_end (if stmt o then mark_end i f else f) = Some e) as ->.
    { destruct (stmt o); [|done]. unfold mark_end. by rewrite Hfe. }
    destruct Hx as (a & st & b & -> & ?). exists a, st, (b ++ [o]). by rewrite <-app_assoc.
  - destruct (stmt o) eqn:Hst; unfold mark_end; rewrite Hfe; cbn [fr_expr_end expr_split].
    + exists ops, o, []. by split_and!.
    + apply Forall_app. by split; [|apply Forall_singleton].
Qed.

(** A frame behind the next opcode. *)
Lemma frame_next body i n f o :
  frame_ok body i n f -> op_at body i o -> 0 <= n + delta o ->
  frame_ok body (i + op_len o) (n + delta o) (if stmt o then mark_end i f else f).
Proof.
  intros (H0 & o' & ops & Ho' & Hc & Hs & He & Hops & Hd & Hx & Hid) Ho Hn.
  assert (fr_offset (if stmt o then mark_end i f else f) = fr_offset f /\
          fr_op (if stmt o then mark_end i f else f) = fr_op f /\
          fr_form_id (if stmt o then mark_end i f else f) = fr_form_id f) as (Hof & Hop & Hfi).
  { destruct (stmt o); [|done]. unfold mark_end. by destruct (fr_expr_end f). }
  unfold frame_ok. rewrite Hof, Hop, Hfi. split; [done|]. exists o', (ops ++ [o]). split_and!; try done.
  - apply ops_at_app. exists i. by split.
  - rewrite depth_run_app, Hd. cbn [mbind option_bind depth_run]. by destruct (Z.ltb_spec (n + delta o) 0); [lia|].
  - by apply split_next.
Qed.

Lemma stack_next body i stack o :
  stack_ok body i 0 stack -> op_at body i o -> is_end o = false ->
  stack_ok body (i + op_len o) (delta o) (if stmt o then map (mark_end i) stack else stack).
Proof.
  intros Hst Ho He n f Hf.
  assert (0 <= delta o) by (unfold delta; rewrite He; destruct (op_scoped o); lia).
  assert (exists f', stack !! n = Some f' /\ f = if stmt o then mark_end i f' else f') as (f' & Hf' & ->).
  { destruct (stmt o); [|by exists f]. apply list_lookup_fmap_Some in Hf as (f' & ? & ?). by exists f'. }
  rewrite <-(Z.add_0_r (Z.of_nat n)). apply frame_next; [by apply Hst|done|lia].
Qed.

Lemma stack_pop body i stack o :
  stack_ok body i 0 stack -> op_at body i o -> is_end o = true ->
  stack_ok body (i + op_len o) 0 (list.tail stack).
Proof.
  intros Hst Ho He n f Hf. destruct stack as [|f0 stack]; [done|]. cbn in Hf.
  pose proof (frame_next body i (Z.of_nat (S n)) f o) as Hn.
  assert (stmt o = false) as Hs by (destruct (stmt o) eqn:Hs; [|done]; apply stmt_not_end in Hs; congruence).
  rewrite Hs in Hn. assert (delta o = -1) as Hd by (unfold delta; by rewrite He). rewrite Hd in Hn.
  replace (Z.of_nat n + 0) with (Z.of_nat (S n) + -1) by lia. apply Hn; [|done|lia].
  rewrite <-(Z.add_0_r (Z.of_nat (S n))). by apply Hst.
Qed.

Lemma stack_push body i stack o form_id :
  0 <= i -> stack_ok body (i + op_len o) 1 stack -> op_at body i o -> op_scoped o = true -> is_end o = false ->
  (forall id, form_id = Some id -> op_code o = IFR_FORM_OP /\ id = form_id_at body i) ->
  stack_ok body (i + op_len o) 0
    ({| fr_op := op_code o; fr_offset := i; fr_expr_end := None; fr_form_id := form_id |} :: stack).
Proof.
  intros Hi Hst Ho Hs He Hid [|n] f Hf; cbn in Hf.
  - injection Hf as <-. split; [done|]. exists o, []. split_and!; done || constructor.
  - replace (Z.of_nat (S n) + 0) with (Z.of_nat n + 1) by lia. by apply Hst.
Qed.

(** ** Emission *)

Lemma host_form_in body i d stack id :
  0 <= d -> stack_ok body i d stack -> host_form stack = Some id -> in_form_scope body i id.
Proof.
  revert d. induction stack as [|f stack IH]; intros d Hd Hst; cbn; [done|].
  destruct (fr_form_id f) as [id'|] eqn:Hf.
  - intros [= ->]. destruct (Hst 0%nat f eq_refl) as (_ & o & ops & ? & ? & ? & ? & ? & Hdr & _ & Hid).
    destruct (Hid _ Hf) as [? ->]. exists (fr_offset f), o, ops. split_and!; try done.
  - apply (IH (d + 1)); [lia|]. intros n g Hg. replace (Z.of_nat n + (d + 1)) with (Z.of_nat (S n) + d) by lia.
    by apply Hst.
Qed.

Lemma wraps_of_post body i o stack target :
  0 <= i -> op_at body i o -> i + op_len o <= blen body -> stack_ok body i 0 stack ->
  post (wraps_of body stack i o target) (fun r => forall w, r = Some w -> matches body i o target w) (fun _ => False).
Proof.
  intros Hi Ho Hle Hst. unfold wraps_of. pose proof (op_len_pos _ _ _ Ho).
  destruct (bool_decide (op_code o = IFR_FORM_OP) && (6 <=? op_len o)) eqn:Hform.
  { bool_to_prop. apply post_bind, u16_in_post; [lia|lia|]. intros z -> _. cbn [post mret outcome_ret]. intros w Hw.
    destruct (_ && _) eqn:Hb; [|done]. injection Hw as <-. bool_to_prop. unfold matches, form_id_at.
    replace (i + 4) with (i + 2 + 2) by lia. split_and!; try done. lia. }
  destruct (bool_decide (op_code o = IFR_REF_OP) && bool_decide (gt_question_id target = None)) eqn:Href.
  { bool_to_prop. apply post_bind, slice_post; [lia|lia|lia|]. cbn [post mret outcome_ret]. intros w Hw.
    destruct (parse_ref _ _) as [[fid|fid q|guid fid q|]|] eqn:Hr; try done;
      destruct (bool_decide (gt_formset_guid _ = _) && _) eqn:Hb; try done;
      injection Hw as <-; bool_to_prop; unfold matches; rewrite Hr; split_and!; try done; try lia.
    - by left.
    - right. by exists q.
    - by exists q. }
  destruct (is_question_op (op_code o) && (8 <=? op_len o)) eqn:Hq; [|done].
  bool_to_prop. apply post_bind, u16_in_post; [lia|lia|]. intros z -> _. cbn [post mret outcome_ret]. intros w Hw.
  destruct (bool_decide (gt_question_id _ = _) && _) eqn:Hb; [|done]. injection Hw as <-. bool_to_prop. unfold matches.
  replace (i + 8) with (i + 6 + 2) by lia. split_and!; try done. by eapply host_form_in; [|done..].
Qed.

Lemma frame_gate_post body target i o n w gates f :
  op_at body i o -> stmt o = true -> i <= blen body -> frame_ok body i n f -> matches body i o target w ->
  Forall (gate_ok body target) gates ->
  post (frame_gate body i w gates (mark_end i f)) (Forall (gate_ok body target)) (fun _ => False).
Proof.
  intros Ho Hs Hi (H0 & o' & ops & Ho' & Hc & Hsc & He & Hops & Hd & Hx & _) Hw Hg.
  pose proof (split_next _ _ _ _ _ o Hops Hx) as Hsp. rewrite Hs in Hsp. pose proof (op_len_pos _ _ _ Ho').
  pose proof (ops_at_le _ _ _ _ Hops).
  assert (fr_offset (mark_end i f) = fr_offset f /\ fr_op (mark_end i f) = fr_op f) as [Hof Hop].
  { unfold mark_end. by destruct (fr_expr_end f). }
  assert (exists e, fr_expr_end (mark_end i f) = Some e) as [e Hee].
  { unfold mark_end. destruct (fr_expr_end f) as [e|] eqn:Hfe; [exists e|exists i]; done. }
  rewrite Hee in Hsp. unfold frame_gate. rewrite Hof, Hop, Hee. destruct (is_gate_op (fr_op f)) eqn:Hgo; [|done].
  cbn [negb]. change (default i (Some e)) with e. cbv zeta. destruct Hsp as (a & st & b & Hab & Ha & Hns & Hsst). pose proof (ops_at_le _ _ _ _ Ha).
  apply post_bind, slice_post; [lia|lia|lia|]. apply post_bind.
  pose proof (decode_expr_post (sub body (fr_offset f + 2) (Z.min e (blen body)))) as Hdp.
  destruct (decode_expr _) as [x| | |] eqn:Hdec; cbn [post] in Hdp |- *; try done.
  apply Forall_app. split; [done|]. apply Forall_singleton. exists o', ops, o, i.
  cbn [scope_offset g_kind g_wraps expr_end expr_offset g_expr]. split_and!; try done.
  - rewrite <-Hc. unfold is_gate_op in Hgo.
    apply orb_true_iff in Hgo as [Hg1%bool_decide_eq_true|Hg1%bool_decide_eq_true]; rewrite Hg1.
    + by rewrite bool_decide_eq_true_2.
    + rewrite bool_decide_eq_false_2; [done|]. by apply (op_ne 13 8).
  - by exists a, st, b.
Qed.

Lemma gate_stmt_post body target i o stack gates :
  0 <= i -> op_at body i o -> i + op_len o <= blen body -> stack_ok body i 0 stack ->
  Forall (gate_ok body target) gates ->
  post (gate_stmt body target i o stack gates)
    (fun r => let '(stack', gates', form_id) := r in
       stack' = (if stmt o then map (mark_end i) stack else stack) /\ Forall (gate_ok body target) gates' /\
       forall id, form_id = Some id -> op_code o = IFR_FORM_OP /\ id = form_id_at body i)
    (fun _ => False).
Proof.
  intros Hi Ho Hle Hst Hg. unfold gate_stmt. fold (stmt o). destruct (stmt o) eqn:Hs; [|done].
  pose proof (op_len_pos _ _ _ Ho). apply post_bind.
  assert (post (emit_gates body (map (mark_end i) stack) i o target gates) (Forall (gate_ok body target)) (fun _ => False)) as He.
  { unfold emit_gates. assert (host_form (map (mark_end i) stack) = host_form stack) as Hh.
    { clear. induction stack as [|f stack IH]; [done|]. cbn [map host_form]. rewrite IH.
      unfold mark_end. by destruct (fr_expr_end f). }
    pose proof (wraps_of_post body i o stack target Hi Ho Hle Hst) as Hw.
    unfold wraps_of in *. rewrite Hh. apply post_bind. eapply post_mono; [exact Hw| |done].
    intros [w|] Hm; [|done]. specialize (Hm w eq_refl). apply foldM_post; [|done].
    intros gs f Hf Hgs. apply list_elem_of_fmap in Hf as (f' & -> & [n Hn]%list_elem_of_lookup).
    eapply frame_gate_post; [done..|lia|by apply Hst|done|done]. }
  eapply post_mono; [exact He| |done]. intros gs Hgs. destruct (_ && _) eqn:Hf; [|done].
  bool_to_prop. apply post_bind, u16_in_post; [lia|lia|]. intros z -> _. cbn [post mret outcome_ret].
  split_and!; try done. intros id [= <-]. split; [done|]. unfold form_id_at. do 2 f_equal. lia.
Qed.

Lemma gates_step_post body end_ target i stack gates :
  0 <= i -> end_ <= blen body -> stack_ok body i 0 stack -> Forall (gate_ok body target) gates ->
  post (gates_step body end_ target (i, stack, gates))
    (fun r => match r with
              | inl (i', stack', gates') => i < i' /\ i < blen body /\ stack_ok body i' 0 stack' /\
                  Forall (gate_ok body target) gates'
              | inr gates => Forall (gate_ok body target) gates
              end) (fun _ => False).
Proof.
  intros Hi Hend Hst Hg. unfold gates_step. destruct (Z.leb_spec (i + 2) end_); [|done].
  apply post_bind, read_op_post; [lia|lia|lia|done|]. intros o Ho Hle. pose proof (op_len_pos _ _ _ Ho).
  destruct (is_end o) eqn:He.
  { cbn [post mret outcome_ret]. split_and!; try done; try lia. by apply stack_pop. }
  pose proof (stack_next _ _ _ _ Hst Ho He) as Hnx. unfold delta in Hnx. rewrite He in Hnx.
  destruct (in_expr stack && _ && _ && negb (op_scoped o)) eqn:Hsk.
  { bool_to_prop. cbn [post mret outcome_ret]. split_and!; try done; try lia.
    assert (stmt o = false) as Hs by done. assert (op_scoped o = false) as Hsc by done. by rewrite Hs, Hsc in Hnx. }
  apply post_bind. eapply post_mono; [apply gate_stmt_post; try done; lia| |done].
  intros [[stack' gates'] form_id] (-> & Hg' & Hid). cbn [post mret outcome_ret]. split_and!; try done; try lia.
  destruct (op_scoped o) eqn:Hsc; [|done]. by apply stack_push.
Qed.

(** C32. The search for gates returns, without a panic, on every package and target, and
    each gate it returns is the scope of a SUPPRESS_IF or GRAY_OUT_IF that is still open at
    a statement of the target; its expression ends at the first statement of the scope
    and is the decoding of these bytes. *)
Theorem find_gates_sound body target :
  exists gates, find_gates body target = Ok gates /\ Forall (gate_ok body target) gates.
Proof.
  assert (post (find_gates body target) (Forall (gate_ok body target)) (fun _ => False)) as Hp.
  2: { destruct (find_gates body target); cbn in Hp; [by eexists|done..]. }
  unfold find_gates. apply post_bind, package_bounds_post. intros s e Hs Hsl Hel _ _. cbn [fst snd].
  apply (scan_loop body _ (fun t => fst (fst t)) (fun t =>
    stack_ok body (fst (fst t)) 0 (snd (fst t)) /\ Forall (gate_ok body target) (snd t))).
  - intros [[i stack] gates] Hi [Hst Hg]. cbn [fst snd] in *.
    eapply post_mono; [by apply gates_step_post| |done]. by intros [[[i' stack'] gates']|gates'].
  - destruct Hs; subst; cbn; lia.
  - split; [|constructor]. by intros n f Hf.
Qed.

End GateSearch.
