(* ===== verification/ImageFacts.v ===== *)
(** Correctness of the operations on HII items of an image: what an operation may
    change of the tree, the sites found in other formsets, and [unlock], which is
    atomic, keeps every length and touches no section behind a compression that
    cannot be redone. *)
From stdpp Require Import gmap.
From S2P Require Import Prelude Text Types Ffs Tiano Codec Parser Target Ops Nvar NvarStores.
From S2P Require Import ParserFacts OpsFacts NvarFacts NvarStoresFacts.
From S2P Require Import Hii Values Ifr Gates StringPack PeResource ImageStrings ImageGates GatesFacts.

Section ImageFacts.
Context {GL : GuidLib} {RH : RefiHii} {OP : ObjectPe}.

(** ** Marked paths *)

(** The node at the path and all its ancestors have an action. *)
Fixpoint marked (n : FfsNode) (p : list Z) : bool :=
  negb (bool_decide (action n = NoAction))
  && match p with
     | [] => true
     | i :: p => match child_at n i with Some c => marked c p | None => false end
     end.

Lemma marked_eq n p : marked n p = negb (bool_decide (action n = NoAction))
  && match p with
     | [] => true
     | i :: p => match child_at n i with Some c => marked c p | None => false end
     end.
Proof. by destruct p. Qed.

Lemma mark_action n p : bool_decide (action (mark_rebuild_to_root_by_path n p) = NoAction) = false.
Proof. apply bool_decide_eq_false. apply action_mark_dirty. Qed.

Lemma mark_marked n p : is_Some (node_at_path n p) -> marked (mark_rebuild_to_root_by_path n p) p = true.
Proof.
  revert n. induction p as [|i p IH]; intros n Hn; rewrite marked_eq, mark_action; [done|]. cbn in Hn.
  destruct (child_at n i) as [c|] eqn:Hc; [|by destruct Hn].
  rewrite (child_at_mark n i p i c), Z.eqb_refl by done. by apply IH.
Qed.

Lemma mark_keeps_marked n p q : marked n q = true -> marked (mark_rebuild_to_root_by_path n p) q = true.
Proof.
  revert n q. induction p as [|i p IH]; intros n [|j q]; rewrite !marked_eq, mark_action; try done;
    intros [_ H]%andb_true_iff; cbn [negb andb].
  - cbn. by rewrite child_at_touch.
  - destruct (child_at n j) as [c|] eqn:Hj; [|done].
    destruct (child_at n i) as [c'|] eqn:Hi.
    + rewrite (child_at_mark n i p j c') by done. destruct (Z.eqb_spec j i) as [->|].
      * replace c' with c by congruence. by apply IH.
      * by rewrite Hj.
    + rewrite mark_cons, Hi, child_at_touch, Hj. done.
Qed.

Lemma update_marked n p b n' q : update_at n p (set_body b) = Some n' -> marked n' q = marked n q.
Proof.
  revert n n' q. induction p as [|i p IH]; intros n n' q Hu; simpl in Hu.
  - simplify_eq. rewrite !marked_eq. f_equal; [by destruct n|]. destruct q as [|j q]; [done|].
    by replace (child_at (set_body b n) j) with (child_at n j) by (by destruct n).
  - destruct (child_at n i) as [c|] eqn:Hc; simpl in Hu; [|done].
    destruct (update_at c p (set_body b)) as [c'|] eqn:Huc; simplify_eq/=.
    rewrite !marked_eq. f_equal; [by destruct n|]. destruct q as [|j q]; [done|].
    rewrite (child_at_insert n i c) by done. destruct (Z.eqb_spec j i) as [->|]; [|done].
    rewrite Hc. by apply (IH c c').
Qed.

(** The body at a path. *)
Definition body_at (r : FfsNode) (q : list Z) : option (list byte) := body <$> node_at_path r q.

Lemma body_at_bodies g r r' q : bodies g r r' -> body_at r' q = g q <$> body_at r q.
Proof.
  intros H. specialize (H q). unfold body_at.
  destruct (node_at_path r q), (node_at_path r' q); try done. cbn. f_equal. by eapply same_but_body.
Qed.

(** ** What an operation may change *)

(** A section strictly between the root and the node at [q] blocks edits. *)
Definition behind (r : FfsNode) (q : list Z) : bool :=
  match q with
  | [] => false
  | i :: q => match child_at r i with Some c => blocked c q | None => false end
  end.

Lemma bodies_child g r r' i c :
  bodies g r r' -> child_at r i = Some c ->
  exists c', child_at r' i = Some c' /\ bodies (fun q => g (i :: q)) c c'.
Proof.
  intros Hb Hc. pose proof (Hb [i]) as H. cbn [node_at_path] in H. rewrite Hc in H. cbn in H.
  destruct (child_at r' i) as [c'|] eqn:Hc'; [|done]. exists c'. split; [done|].
  intros q. specialize (Hb (i :: q)). cbn [node_at_path] in Hb. by rewrite Hc, Hc' in Hb.
Qed.

Lemma bodies_no_child g r r' i :
  bodies g r r' -> child_at r i = None -> child_at r' i = None.
Proof.
  intros Hb Hc. specialize (Hb [i]). cbn [node_at_path] in Hb. rewrite Hc in Hb.
  destruct (child_at r' i); [done|done].
Qed.

Lemma same_but_blocks b n n' :
  same_but b n n' -> section_blocks_mutation n' = section_blocks_mutation n.
Proof. intros (a & cs & ->). by destruct n. Qed.

Lemma same_but_section b n n' : same_but b n n' -> is_section n' = is_section n.
Proof. intros (a & cs & ->). by destruct n. Qed.

Lemma bodies_root g r r' : bodies g r r' -> same_but (g [] (body r)) r r'.
Proof. intros Hb. exact (Hb []). Qed.

Lemma bodies_blocked g r r' q : bodies g r r' -> blocked r' q = blocked r q.
Proof.
  revert g r r'. induction q as [|i q IH]; intros g r r' Hb; [done|]. cbn [blocked].
  rewrite (same_but_blocks _ _ _ (bodies_root _ _ _ Hb)). f_equal.
  destruct (child_at r i) as [c|] eqn:Hc.
  - destruct (bodies_child _ _ _ _ _ Hb Hc) as (c' & -> & Hb'). by eapply IH.
  - by rewrite (bodies_no_child _ _ _ _ Hb Hc).
Qed.

Lemma bodies_behind g r r' q : bodies g r r' -> behind r' q = behind r q.
Proof.
  intros Hb. destruct q as [|i q]; [done|]. cbn [behind].
  destruct (child_at r i) as [c|] eqn:Hc.
  - destruct (bodies_child _ _ _ _ _ Hb Hc) as (c' & -> & Hb'). by eapply bodies_blocked.
  - by rewrite (bodies_no_child _ _ _ _ Hb Hc).
Qed.

(** A body may change at [q]. *)
Definition may_change (r : FfsNode) (q : list Z) (n : FfsNode) : Prop :=
  is_section n = true /\ behind r q = false.

(** The tree has the same nodes; only bodies of sections in reach change, and keep
    their lengths. *)
Definition tree_evolves (r r' : FfsNode) : Prop :=
  exists g, bodies g r r' /\
    forall q n, node_at_path r q = Some n ->
      blen (g q (body n)) = blen (body n) /\ (g q (body n) <> body n -> may_change r q n).

#[export] Instance tree_evolves_preorder : PreOrder tree_evolves.
Proof.
  split.
  - intros r. exists (fun _ b => b). split; [apply bodies_refl|done].
  - intros r1 r2 r3 (g & Hg & Hg') (h & Hh & Hh'). exists (fun q b => h q (g q b)).
    split; [by eapply bodies_trans|]. intros q n Hn.
    destruct (bodies_at _ _ _ _ _ Hg Hn) as (n2 & Hn2 & Hs).
    destruct (Hg' _ _ Hn) as [Hl Hc]. destruct (Hh' _ _ Hn2) as [Hl2 Hc2].
    rewrite (same_but_body _ _ _ Hs) in Hl2, Hc2. split; [lia|]. intros Hne.
    destruct (decide (g q (body n) = body n)) as [He|]; [|by apply Hc].
    rewrite He in Hc2, Hne. destruct (Hc2 Hne) as [Hsec Hb]. split.
    + by rewrite <-(same_but_section _ _ _ Hs).
    + by rewrite <-(bodies_behind _ _ _ q Hg).
Qed.

(** The operation keeps the identity of the image, changes its tree as above, marks
    every section it changed with all its ancestors and keeps earlier marks. *)
Record evolves (img img' : Image) : Prop := {
  ev_id : image_id img' = image_id img;
  ev_session : session_id img' = session_id img;
  ev_mode : mode img' = mode img;
  ev_tree : tree_evolves (root img) (root img');
  ev_marks : forall q, body_at (root img') q <> body_at (root img) q -> marked (root img') q = true;
  ev_keeps : forall q, marked (root img) q = true -> marked (root img') q = true;
  ev_dirty : dirty_closed (root img) -> dirty_closed (root img')
}.

#[export] Instance evolves_preorder : PreOrder evolves.
Proof.
  split.
  - intros img. by constructor.
  - intros a b c [] []. constructor; [congruence..| | |auto|auto]; [by transitivity (root b)|].
    intros q Hq. destruct (decide (body_at (root b) q = body_at (root a) q)); [|by auto].
    apply ev_marks1. congruence.
Qed.

(** ** A logic for operations *)

(** The operation only changes what it may, and [Q] holds of its result. *)
Definition act_spec {A} (img : Image) (m : act A) (Q : A -> Image -> Prop) : Prop :=
  evolves img (fst (m img)) /\ forall a, snd (m img) = Ok a -> Q a (fst (m img)).

Lemma spec_bind {A B} img (m : act A) (k : A -> act B) P Q :
  act_spec img m P -> (forall a img', evolves img img' -> P a img' -> act_spec img' (k a) Q) ->
  act_spec img (act_bind m k) Q.
Proof.
  intros [He HP] Hk. unfold act_spec, act_bind. destruct (m img) as [img' r]. cbn [fst snd] in *.
  destruct r as [a|e| |]; [|by split..]. destruct (Hk a img' He (HP a eq_refl)) as [He' HQ].
  destruct (k a img') as [img2 r2]. cbn [fst snd] in *. split; [by transitivity img'|done].
Qed.

Lemma spec_of {A} img (m : outcome HiiError A) (Q : A -> Image -> Prop) :
  (forall a, m = Ok a -> Q a img) -> act_spec img (act_of m) Q.
Proof. intros H. split; [reflexivity|]. exact H. Qed.

Lemma spec_ret {A} img (a : A) (Q : A -> Image -> Prop) : Q a img -> act_spec img (act_ret a) Q.
Proof. intros H. split; [reflexivity|]. by intros ? [= <-]. Qed.

Lemma spec_get img (Q : Image -> Image -> Prop) : Q img img -> act_spec img get_image Q.
Proof. intros H. split; [reflexivity|]. by intros ? [= <-]. Qed.

Lemma spec_fold {A S} img (f : S -> A -> act S) (l : list A) (I : S -> Image -> Prop) s :
  (forall img' s a, a ∈ l -> evolves img img' -> I s img' -> act_spec img' (f s a) I) ->
  I s img -> act_spec img (act_fold f l s) I.
Proof.
  revert img s. induction l as [|a l IH]; intros img s Hf Hs; [by apply spec_ret|]. cbn [act_fold].
  eapply spec_bind; [apply Hf; [by left|reflexivity|done]|]. cbv beta. intros s' img' He Hs'.
  apply IH; [|done]. intros img2 s2 b Hb He2. apply Hf; [by right|by transitivity img'].
Qed.

Lemma spec_mono {A} img (m : act A) (P Q : A -> Image -> Prop) :
  act_spec img m P -> (forall a img', evolves img img' -> P a img' -> Q a img') -> act_spec img m Q.
Proof. intros [He HP] H. split; [done|]. intros a Ha. apply H; auto. Qed.

Lemma spec_rollback {A} img (m : act A) (Q : A -> Image -> Prop) :
  act_spec img m Q ->
  act_spec img (with_rollback m) Q /\
  forall e, snd (with_rollback m img) = Err e -> fst (with_rollback m img) = img.
Proof.
  intros [He HQ]. unfold act_spec, with_rollback. destruct (m img) as [img' r]. cbn [fst snd] in *.
  assert (with_root (root img) img' = img) as Hr.
  { destruct He as [? ? ? _ _ _ _], img as [i s r0 md], img' as [i' s' r1 md']. cbn in *. by subst. }
  destruct r as [a|e| |]; cbn [fst snd]; (split; [|done]).
  - by split.
  - split; [|done]. rewrite Hr. reflexivity.
  - by split.
  - by split.
Qed.

(** Marking a path changes no body. *)
Lemma evolves_mark img p :
  evolves img (with_root (mark_rebuild_to_root_by_path (root img) p) img).
Proof.
  constructor; [done..| | | |]; cbn [root with_root].
  - exists (fun _ b => b). split; [apply mark_bodies|done].
  - intros q Hq. by rewrite (body_at_bodies _ _ _ _ (mark_bodies (root img) p)), option_fmap_id in Hq.
  - intros q. apply mark_keeps_marked.
  - intros Hd. apply (mark_closed (root img) p). by apply dirty_closed_children.
Qed.

Lemma flip_node_spec img apply p n :
  node_at_path (root img) p = Some n -> may_change (root img) p n ->
  (forall b, apply (body n) = Ok b -> blen b = blen (body n)) ->
  act_spec img (flip_node apply p) (fun _ _ => True).
Proof.
  intros Hn Hc Hl. unfold act_spec, flip_node, act_bind, get_image, act_of, set_root, node_at.
  cbv beta iota zeta. rewrite Hn. cbn [unwrap]. cbv beta iota zeta. destruct (apply (body n)) as [b| | |] eqn:Hb; [|by split..].
  destruct (update_at_valid (root img) p n (set_body b) Hn) as [r Hu]. rewrite Hu. cbn [unwrap]. cbv beta iota zeta. cbn [fst snd].
  pose proof (bodies_trans _ _ _ _ _ (update_bodies _ _ _ _ Hu) (mark_bodies r p)) as Hbs.
  split; [|done]. constructor; [done..| | | |]; cbn [root with_root].
  - exists (fun q x => if bool_decide (q = p) then b else x). split; [exact Hbs|].
    intros q m Hm. case_bool_decide as Hq; [|done]. subst q.
    assert (m = n) as -> by congruence. split; [auto|done].
  - intros q Hq. rewrite (body_at_bodies _ _ _ _ Hbs) in Hq. case_bool_decide as He.
    + subst q. apply mark_marked. rewrite (update_at_same _ _ _ _ _ Hu Hn). by eexists.
    + destruct Hq. apply option_fmap_id.
  - intros q Hq. apply mark_keeps_marked. by rewrite (update_marked _ _ _ _ _ Hu).
  - intros Hd. rewrite <-(app_nil_r p). eapply update_mark_closed; [done|done|].
    intros m _ Hm. apply dirty_closed_children in Hm. by destruct m.
Qed.

(** ** Paths that can be edited *)

Lemma check_ancestors_behind n p :
  check_ancestors n (take (length p - 1) p) = Ok tt -> behind n p = false.
Proof.
  revert n. induction p as [|i p IH]; intros n; [done|]. destruct p as [|j p].
  { intros _. cbn. by destruct (child_at n i). }
  replace (take (length (i :: j :: p) - 1) (i :: j :: p)) with (i :: take (length (j :: p) - 1) (j :: p))
    by (cbn; by rewrite Nat.sub_0_r).
  cbn [check_ancestors behind]. destruct (child_at n i) as [c|]; cbn [unwrap mbind outcome_bind]; [|done].
  destruct (section_blocks_mutation c) eqn:Hb; [done|]. intros H. apply IH in H.
  cbn [behind blocked] in *. by rewrite Hb.
Qed.

Lemma writable_path img t p :
  resolve_writable_path img t = Ok p ->
  mode img = IM_Write /\ find_item_path (root img) t = Some p /\ behind (root img) p = false /\
  exists n, node_at_path (root img) p = Some n.
Proof.
  unfold resolve_writable_path. pose proof (find_item_path_node (root img) t) as Hf.
  destruct (find_item_path (root img) t) as [q|]; cbn [ok_or mbind outcome_bind]; [|done].
  destruct Hf as (n & Hn & _). case_bool_decide as Hm; cbn [negb]; [|done].
  unfold usub. destruct (Z.leb_spec 1 (blen q)) as [Hl|]; cbn [mbind outcome_bind]; [|done].
  destruct (check_ancestors _ _) as [[]| | |] eqn:Hc; cbn [mbind outcome_bind]; try done.
  intros [= ->]. split_and!; [done..| |by exists n]. apply check_ancestors_behind.
  rewrite <-Hc. do 2 f_equal. unfold blen. lia.
Qed.

(** ** The sites in other formsets *)

(** The site is in a section of the tree. *)
Definition site_in (r : FfsNode) (s : CrossGateSite) : Prop :=
  exists n, node_at_path r (cs_path s) = Some n /\ is_section n = true.

Lemma node_at_snoc r p n i c :
  node_at_path r p = Some n -> child_at n i = Some c -> node_at_path r (p ++ [i]) = Some c.
Proof. intros Hn Hc. rewrite node_at_path_app, Hn. cbn. by rewrite Hc. Qed.

#[local] Ltac okp := first [by apply okpost_ret | by intros ? [=]].

Lemma scan_section_sites r sec path g skip gt out :
  node_at_path r path = Some sec -> is_section sec = true -> Forall (site_in r) out ->
  okpost (scan_section sec path g skip gt out) (Forall (site_in r)).
Proof.
  intros Hn Hs Ho. unfold scan_section. case_bool_decide; [okp|].
  destruct (form_package_ranges sec) as [ranges| | |]; cbn [mbind outcome_bind]; try okp.
  apply foldM_okpost; [|done]. intros out' x _ Ho'.
  apply okpost_bind. intros pkg _. apply okpost_bind. intros found _.
  destruct found; [okp|]. apply okpost_ret, Forall_app. split; [done|].
  apply Forall_singleton. by exists sec.
Qed.

Lemma cross_sections_sites r file path g skip gt out :
  node_at_path r path = Some file -> Forall (site_in r) out ->
  okpost (cross_sections file path g skip gt out) (Forall (site_in r)).
Proof.
  revert path out. induction file as [n IH] using FfsNode_tree_ind. intros path out Hn Ho.
  rewrite Forall_forall in IH. 
  assert (cross_sections n path g skip gt out = each_child (fun out i sec =>
    if negb (is_section sec) then mret out
    else if has_subtype sec EFI_SECTION_RAW || has_subtype sec EFI_SECTION_PE32
    then scan_section sec (path ++ [i]) g skip gt out
    else if is_container sec then cross_sections sec (path ++ [i]) g skip gt out
    else mret out) 0 (children n) out) as -> by (by destruct n).
  apply each_child_okpost; [|done]. intros i c s Hc Hs.
  pose proof (node_at_snoc _ _ _ _ _ Hn Hc).
  destruct (is_section c) eqn:Hsec; cbn [negb]; [|okp].
  destruct (_ || _); [by apply scan_section_sites|].
  destruct (is_container c); [|okp]. apply IH; [by eapply child_at_elem|done..].
Qed.

Lemma cross_files_sites r node path skip gt out :
  node_at_path r path = Some node -> Forall (site_in r) out ->
  okpost (cross_files node path skip gt out) (Forall (site_in r)).
Proof.
  revert path out. induction node as [n IH] using FfsNode_tree_ind. intros path out Hn Ho.
  rewrite Forall_forall in IH.
  assert (cross_files n path skip gt out = each_child (fun out i child =>
    out ← (if is_file child then
             match n_guid child with
             | Some g => cross_sections child (path ++ [i]) g skip gt out
             | None => mret out
             end
           else mret out);
    cross_files child (path ++ [i]) skip gt out) 0 (children n) out) as -> by (by destruct n).
  apply each_child_okpost; [|done]. intros i c s Hc Hs.
  pose proof (node_at_snoc _ _ _ _ _ Hn Hc). apply okpost_bind.
  apply (okpost_mono _ (Forall (site_in r))).
  - destruct (is_file c); [|okp]. destruct (n_guid c); [|okp]. by apply cross_sections_sites.
  - intros s' Hs'. apply IH; [by eapply child_at_elem|done..].
Qed.

Lemma evolves_site img img' s :
  evolves img img' -> site_in (root img) s -> site_in (root img') s.
Proof.
  intros [_ _ _ (g & Hg & _) _ _ _] (n & Hn & Hs).
  destruct (bodies_at _ _ _ _ _ Hg Hn) as (n' & Hn' & Hsame). exists n'. split; [done|].
  by rewrite (same_but_section _ _ _ Hsame).
Qed.

(** ** Unlocking *)

Lemma apply_flips_len flips b b' : apply_flips b flips = Ok b' -> blen b' = blen b.
Proof.
  unfold apply_flips. intros H. ok_inv.
  eapply (foldM_Ok _ (fun x => blen x = blen b)); [|done|exact H].
  intros b1 f _ Hx y Hy. unfold flip_write in Hy. apply copy_into_Ok in Hy as (Hr & Hl & ->).
  rewrite blen_splice; lia.
Qed.

Lemma site_body_len flips b b' : site_body flips b = Ok b' -> blen b' = blen b.
Proof. unfold site_body. rewrite map_err_Ok. apply apply_flips_len. Qed.

Lemma flipped_body_len flips b b' : flipped_body flips b = Ok b' -> blen b' = blen b.
Proof.
  unfold flipped_body. intros (b1 & H1 & H2)%bind_Ok. case_match; [|done].
  injection H2 as ->. by eapply site_body_len.
Qed.

Section Unlock.
Context (dbg : Wraps -> ustring).

Lemma plan_ranges_len b gt ranges s :
  length (snd (fst s)) = length (snd s) ->
  okpost (foldM (plan_range dbg b gt) ranges s) (fun s => length (snd (fst s)) = length (snd s)).
Proof.
  apply (foldM_okpost _ (fun s => length (snd (fst s)) = length (snd s))).
  intros [[infos applied] flips] r _ Hl. cbn in Hl. unfold plan_range.
  apply okpost_bind. intros pkg _. apply okpost_bind. intros found _.
  destruct found; [by apply okpost_ret|].
  apply okpost_bind. intros fs _. apply okpost_bind. intros infos' _.
  apply okpost_ret. cbn. by rewrite !length_app, !length_map, Hl.
Qed.

Lemma unlock_own_spec img path gt n :
  node_at_path (root img) path = Some n -> behind (root img) path = false ->
  act_spec img (unlock_own dbg path gt) (fun p img' => snd p = [] -> img' = img).
Proof.
  intros Hn Hb. unfold unlock_own.
  eapply spec_bind; [by apply (spec_get _ (fun a i => a = img /\ i = img))|].
  intros ? ? _ [-> ->]. unfold node_at. rewrite Hn. cbn [unwrap].
  eapply spec_bind; [by apply (spec_of _ _ (fun a i => a = n /\ i = img)); intros ? [= <-]|].
  intros ? ? _ [-> ->]. destruct (is_section n) eqn:Hs; cbn [negb]; [|by apply spec_of].
  eapply spec_bind; [by apply (spec_of _ _ (fun a i => i = img))|]. intros readable ? _ ->.
  case_bool_decide; [by apply spec_of|].
  eapply spec_bind; [by apply (spec_of _ _ (fun a i => i = img))|]. intros ranges ? _ ->.
  eapply spec_bind.
  { apply (spec_of _ _ (fun p i => i = img /\ length (snd (fst p)) = length (snd p))).
    intros p Hp. split; [done|]. by eapply (plan_ranges_len _ _ _ ([], [], [])). }
  intros [[infos applied] flips] ? _ [-> Hl]. cbn in Hl.
  destruct flips as [|f flips]; [by apply spec_ret|].
  eapply spec_bind; [eapply flip_node_spec; [done|by split|]; intros; by eapply flipped_body_len|].
  intros [] ? _ _. apply spec_ret. cbn. by intros ->.
Qed.

(** What the sites processed so far did. *)
Definition sites_inv (img : Image) (applied0 : list ustring)
  (s : bool * list GateInfo * list ustring) (img' : Image) : Prop :=
  snd s = [] -> applied0 = [] /\ fst (fst s) = false /\ img' = img.

Lemma unlock_site_spec img img' applied0 s site :
  site_in (root img') site -> evolves img img' -> sites_inv img applied0 s img' ->
  act_spec img' (unlock_site dbg s site) (sites_inv img applied0).
Proof.
  destruct s as [[any infos] applied]. intros (n & Hn & Hs) He Hi. unfold unlock_site.
  eapply spec_bind; [by apply (spec_get _ (fun a i => a = img' /\ i = img'))|].
  intros ? ? _ [-> ->].
  eapply spec_bind; [apply (spec_of _ _ (fun p i => i = img' /\ behind (root img') (cs_path site) = false))|].
  { intros p (_ & Hf & Hb & _)%writable_path. cbn in Hf. rewrite Hn in Hf. simplify_eq/=. done. }
  intros ? ? _ [-> Hb]. unfold node_at. rewrite Hn. cbn [unwrap].
  eapply spec_bind; [by apply (spec_of _ _ (fun a i => a = n /\ i = img')); intros ? [= <-]|].
  intros ? ? _ [-> ->].
  eapply spec_bind; [by apply (spec_of _ _ (fun a i => i = img'))|]. intros pkg ? _ ->.
  eapply spec_bind; [by apply (spec_of _ _ (fun a i => i = img'))|]. intros flips ? _ ->.
  eapply spec_bind; [by apply (spec_of _ _ (fun a i => i = img'))|]. intros infos' ? _ ->.
  destruct flips as [|f flips]; [by apply spec_ret|].
  eapply spec_bind; [eapply flip_node_spec; [done|by split|]; intros; by eapply site_body_len|].
  intros [] ? _ _. apply spec_ret. intros Ha. cbn in Ha. by apply app_eq_nil in Ha as [_ ?].
Qed.

Lemma apply_cross_spec img target gt infos applied :
  act_spec img (apply_cross_formset_gates dbg target gt infos applied) (sites_inv img applied).
Proof.
  unfold apply_cross_formset_gates. destruct (gt_question_id gt); [by apply spec_ret|].
  eapply spec_bind; [by apply (spec_get _ (fun a i => a = img /\ i = img))|]. intros ? ? _ [-> ->].
  eapply spec_bind; [by apply (spec_of _ _ (fun a i => i = img))|]. intros node ? _ ->.
  eapply spec_bind; [by apply (spec_of _ _ (fun a i => i = img))|]. intros own ? _ ->.
  destruct own as [own|]; [|by apply spec_ret].
  eapply spec_bind; [by apply (spec_of _ _ (fun a i => i = img))|]. intros skip ? _ ->.
  eapply spec_bind; [apply (spec_of _ _ (fun a i => i = img /\ Forall (site_in (root img)) a))|].
  { intros sites Hs%lift_Ok. split; [done|]. eapply (cross_files_sites _ _ []); [done| |exact Hs]. constructor. }
  intros sites ? _ [-> Hs]. apply spec_rollback. apply spec_fold; [|done].
  intros img' s site Hin He Hi. apply unlock_site_spec; [|done..].
  rewrite Forall_forall in Hs. eapply evolves_site; [done|by apply Hs].
Qed.

(** C33. Unlocking an item of an image is atomic: on an error the image is as before. On
    success the image was writable; the tree has the same nodes with bodies of the same
    lengths, and only bodies of sections with no unrecompressable section between them and
    the root may have changed; every section whose body changed is marked for the builder
    with all its ancestors, and no earlier mark is lost; and when no flip was applied the
    image is as before. *)
Theorem unlock_atomic item_id img :
  let '(img', r) := unlock dbg item_id img in
  match r with
  | Ok o => mode img = IM_Write /\ evolves img img' /\ (uo_applied o = [] -> img' = img)
  | Err _ => img' = img
  | Panic | Diverge => True
  end.
Proof.
  unfold unlock, act_bind at 1, act_of. destruct (parse_item_id item_id) as [[[target fid] qid]| | |]; try done.
  unfold act_bind at 1, get_image. cbn iota beta zeta. unfold act_bind at 1, act_of.
  destruct (resolve_writable_path img target) as [path| | |] eqn:Hp; try done.
  apply writable_path in Hp as (Hm & _ & Hb & n & Hn). cbv zeta.
  match goal with |- context [with_rollback ?m img] => assert (act_spec img m
    (fun o img' => uo_applied o = [] -> img' = img)) as Hspec end.
  { eapply spec_bind; [by eapply unlock_own_spec|]. intros [infos applied] img1 He1 H1. cbn [fst snd] in *.
    eapply spec_bind; [apply apply_cross_spec|]. intros [[any infos2] applied2] img2 He2 H2.
    unfold sites_inv in H2. cbn [fst snd] in *.
    eapply spec_bind with (P := fun _ i => applied2 = [] -> i = img).
    - destruct any.
      + split; [apply evolves_mark|]. intros [] _ Ha. by destruct (H2 Ha) as (_ & ? & _).
      + apply spec_ret. intros Ha. destruct (H2 Ha) as (Ha0 & _ & ->). auto.
    - intros [] img3 _ H3. apply spec_ret. exact H3. }
  apply spec_rollback in Hspec as [[He HQ] Herr].
  destruct (with_rollback _ img) as [img' r]. cbn [fst snd] in *. destruct r; [|by eauto|done..].
  split_and!; [done..|]. by apply HQ.
Qed.

End Unlock.

End ImageFacts.
