(* ===== verification/ImageValuesFacts.v ===== *)
(** Correctness of [set_value]: which values are accepted, what is written to which
    StdDefaults stores, and that the value reads back. *)
From stdpp Require Import gmap.
From S2P Require Import Prelude Text Types Ffs Tiano Codec Parser Target Ops Nvar NvarStores.
From S2P Require Import ParserFacts OpsFacts NvarFacts NvarStoresFacts.
From S2P Require Import Hii Values Ifr Gates StringPack PeResource ImageStrings ImageGates ImageValues.
From S2P Require Import ImageFacts.

Section ImageValuesFacts.
Context {GL : GuidLib} {RH : RefiHii} {OP : ObjectPe}.
Context (dbg_str : ustring -> ustring).

(** ** The StdDefaults stores of a tree *)

Definition std_store (n : FfsNode) : bool :=
  (is_file n || is_section n) && bool_decide (children n = [])
  && match std_defaults_data (body n) with Ok (Some _) => true | _ => false end.

Lemma is_store_body_eq n : is_store_body n = Ok (std_store n).
Proof.
  unfold is_store_body, std_store. destruct (_ && _); [|done]. unfold is_std_defaults.
  destruct (std_defaults_total (body n)) as (o & -> & _). by destruct o.
Qed.

Lemma std_store_leaf n : std_store n = true -> children n = [].
Proof. unfold std_store. intros H. by bool_to_prop. Qed.

#[local] Abbreviation std_nodes := (leaf_nodes std_store).

Definition to_body (s : StoreAt) : StdDefaultsBody :=
  {| sd_node := sa_node s; sd_file_guid := sa_owner s; sd_path := sa_path s |}.
Definition std_step (s : list StdDefaultsBody * bool) (x : StoreAt)
  : pure (list StdDefaultsBody * bool) :=
  Ok (if sa_barrier x then (fst s, true) else (fst s ++ [to_body x], snd s)).

Lemma collect_std_fold n barrier fg path s :
  collect_std_defaults_bodies n barrier fg path s = foldM std_step (std_nodes n path barrier fg) s.
Proof.
  revert barrier fg path s. induction n as [n IH] using FfsNode_tree_ind. intros.
  transitivity (is_store' ← is_store_body n;
    if (is_store' : bool) then
      Ok (if barrier then (fst s, true)
          else (fst s ++ [{| sd_node := n; sd_file_guid := own_file_guid n fg; sd_path := path |}], snd s))
    else each_child (fun s i child => collect_std_defaults_bodies child
           (barrier || section_blocks_mutation n) (own_file_guid n fg) (path ++ [i]) s)
           0 (children n) s); [by destruct n|].
  rewrite is_store_body_eq, leaf_nodes_eq. simpl. destruct (std_store n); [done|].
  apply each_child_fold. intros j c s' Hc. rewrite Forall_forall in IH. by apply IH.
Qed.

(** The stores an edit reaches. *)
Definition open_stores (root : FfsNode) : list StoreAt :=
  List.filter (fun s => negb (sa_barrier s)) (std_nodes root [] false None).

Lemma collect_std_eq root :
  collect_std_defaults_bodies root false None [] ([], false) =
  Ok (map to_body (open_stores root), existsb sa_barrier (std_nodes root [] false None)).
Proof.
  rewrite collect_std_fold. unfold open_stores. generalize (std_nodes root [] false None). intros ss.
  assert (forall s, foldM std_step ss s =
    Ok (fst s ++ map to_body (List.filter (fun s => negb (sa_barrier s)) ss), snd s || existsb sa_barrier ss)) as H.
  { induction ss as [|x ss IH]; intros [bs f]; cbn [foldM List.filter existsb map].
    { cbn. by rewrite app_nil_r, orb_false_r. }
    change (std_step (bs, f) x) with (Ok (E := Empty_set)
      (if sa_barrier x then (bs, true) else (bs ++ [to_body x], f))).
    destruct (sa_barrier x) eqn:Hx; cbn [mbind outcome_bind]; rewrite IH; cbn.
    - by rewrite orb_true_r.
    - by rewrite <-app_assoc. }
  apply H.
Qed.

(** A store that is not behind a barrier. *)
Definition open_std (root : FfsNode) (p : list Z) (n : FfsNode) : Prop :=
  node_at_path root p = Some n /\ std_store n = true /\ blocked root p = false.

Lemma open_stores_elem root s :
  s ∈ open_stores root <->
  open_std root (sa_path s) (sa_node s) /\ sa_barrier s = false /\
  sa_owner s = owner root (sa_path s) None.
Proof.
  unfold open_stores, open_std.
  rewrite list_elem_of_In, filter_In, <-list_elem_of_In, (root_leaves std_store std_store_leaf), negb_true_iff.
  split; [intros ((? & ? & Hb & ?) & Hf); rewrite Hf in Hb; done|].
  intros ((? & ? & Hb) & Hf & ?). rewrite Hb, Hf. done.
Qed.

Lemma open_stores_intro root p n :
  open_std root p n ->
  {| sa_path := p; sa_node := n; sa_barrier := false; sa_owner := owner root p None |} ∈ open_stores root.
Proof. intros H. apply open_stores_elem. done. Qed.

Lemma open_stores_NoDup root : NoDup (map sa_path (open_stores root)).
Proof.
  unfold open_stores. pose proof (leaf_nodes_NoDup std_store std_store_leaf root [] false None) as H.
  revert H. generalize (std_nodes root [] false None). intros ss.
  induction ss as [|x ss IH]; [constructor|]. cbn [map List.filter].
  intros [Hx Hn]%NoDup_cons. destruct (negb _); [|by apply IH]. cbn [map]. apply NoDup_cons.
  split; [|by apply IH]. intros (y & Hy & Hin)%list_elem_of_fmap. apply Hx. rewrite Hy.
  apply list_elem_of_In, filter_In in Hin as [Hin%list_elem_of_In _]. by apply list_elem_of_fmap_2.
Qed.

(** ** The hits *)

(** The record of a store. *)
Definition record_of (name : ustring) (len : Z) (b : list byte) : option (Z * list byte) :=
  match find_varstore_record b name len with Ok r => r | _ => None end.

Lemma record_of_Some name len b r :
  record_of name len b = Some r <-> find_varstore_record b name len = Ok (Some r).
Proof.
  unfold record_of. destruct (find_record_total b name len) as (o & -> & _). naive_solver.
Qed.

Definition hit_at (name : ustring) (len : Z) (s : StoreAt) : option VarHit :=
  r ← record_of name len (body (sa_node s));
  Some {| vh_path := sa_path s; vh_desc := store_desc (sa_node s) (sa_owner s); vh_data_off := fst r |}.

Lemma record_hits_spec name len ss out :
  match foldM (record_hit dbg_str name len) (map to_body ss) out with
  | Ok hits => exists hs, mapM (hit_at name len) ss = Some hs /\ hits = out ++ hs
  | Err e => exists s, s ∈ ss /\ record_of name len (body (sa_node s)) = None /\
               e = no_record dbg_str (store_desc (sa_node s) (sa_owner s)) name len
  | Panic | Diverge => False
  end.
Proof.
  revert out. induction ss as [|s ss IH]; intros out; cbn [map foldM].
  { exists []. by rewrite app_nil_r. }
  destruct (find_record_total (body (sa_node s)) name len) as (o & Ho & _).
  assert (record_of name len (body (sa_node s)) = o) as Hr by (unfold record_of; by rewrite Ho).
  assert (record_hit dbg_str name len out (to_body s) =
    match o with
    | None => Err (no_record dbg_str (store_desc (sa_node s) (sa_owner s)) name len)
    | Some r => Ok (out ++ [{| vh_path := sa_path s; vh_desc := store_desc (sa_node s) (sa_owner s);
                               vh_data_off := fst r |}])
    end) as -> by (unfold record_hit; cbn [to_body sd_node]; rewrite Ho; by destruct o). destruct o as [r|]; cbn [mbind outcome_bind mret outcome_ret].
  - specialize (IH (out ++ [{| vh_path := sa_path s; vh_desc := store_desc (sa_node s) (sa_owner s);
                               vh_data_off := fst r |}])).
    destruct (foldM _ _ _) as [hits|e| |]; try done.
    + destruct IH as (hs & Hm & ->). eexists. split; [|by rewrite <-app_assoc].
      cbn. unfold hit_at in Hm |- *. rewrite Hr. cbn. by rewrite Hm.
    + destruct IH as (x & Hx & ?). exists x. split; [by right|done].
  - exists s. split; [by left|done].
Qed.

(** ** The plans *)

Section Value.
Context (off w value : Z) (Hoff : 0 <= off) (Hw : 0 <= w <= 8).

Definition new_bytes : list byte := le_enc (Z.to_nat w) value.

Lemma blen_new_bytes : blen new_bytes = w.
Proof. unfold new_bytes. rewrite blen_le_enc. lia. Qed.

Definition vplan (root : FfsNode) (h : VarHit) : Plan :=
  {| pl_hit := h; pl_off := vh_data_off h + off;
     pl_from := match node_at_path root (vh_path h) with
                | Some n => sub (body n) (vh_data_off h + off) (vh_data_off h + off + w)
                | None => []
                end;
     pl_to := new_bytes |}.

Definition hit_fits (root : FfsNode) (h : VarHit) : Prop :=
  exists n, node_at_path root (vh_path h) = Some n /\ 0 <= vh_data_off h /\
    vh_data_off h + off + w <= blen (body n) <= usize_max.

Lemma plan_values_spec root hs plans :
  Forall (hit_fits root) hs ->
  foldM (plan_value root off value w) hs plans = Ok (plans ++ map (vplan root) hs).
Proof.
  intros Hhs. revert plans. induction Hhs as [|h hs (n & Hn & H0 & He) _ IH]; intros plans.
  { by rewrite app_nil_r. }
  cbn [map foldM].
  assert (plan_value root off value w plans h = Ok (plans ++ [vplan root h])) as ->.
  { unfold plan_value, node_at, uadd, vplan. rewrite Hn. cbn [unwrap mbind outcome_bind].
    replace (vh_data_off h + off <=? usize_max) with true by lia. cbn [mbind outcome_bind].
    replace (vh_data_off h + off + w <=? usize_max) with true by lia. cbn [mbind outcome_bind].
    unfold get_range. rewrite (proj2 (range_ok_spec _ _ _)) by lia. cbn [ok_or mbind outcome_bind].
    by rewrite take_le_enc by lia. }
  cbn [mbind outcome_bind]. by rewrite IH, <-app_assoc.
Qed.

Lemma vplans_ok root hs :
  Forall (hit_fits root) hs -> Forall (plan_ok w root) (map (vplan root) hs).
Proof.
  rewrite !Forall_forall. intros Hf pl (h & -> & Hh)%list_elem_of_fmap.
  destruct (Hf h Hh) as (n & Hn & H0 & He). exists n. split; [done|].
  unfold vplan. cbn. rewrite Hn. split; [|apply blen_new_bytes].
  unfold get_range. by rewrite (proj2 (range_ok_spec _ _ _)) by lia.
Qed.

(** What is written to a store. *)
Definition set_in (name : ustring) (len : Z) (b : list byte) : list byte :=
  match record_of name len b with
  | Some r => splice b (fst r + off) new_bytes
  | None => b
  end.
(** The body of the node at a path afterwards. *)
Definition value_written (name : ustring) (len : Z) (root : FfsNode) (p : list Z) (n : FfsNode)
  : list byte :=
  if std_store n && negb (blocked root p) then set_in name len (body n) else body n.

Lemma vplans_paths name len root hs :
  mapM (hit_at name len) (open_stores root) = Some hs ->
  map pl_path (map (vplan root) hs) = map sa_path (open_stores root).
Proof.
  intros Hm%mapM_Some. rewrite map_map. induction Hm as [|s h ss hs Hs _ IH]; [done|].
  cbn [map]. f_equal; [|done]. unfold hit_at in Hs. destruct (record_of _ _ _); simplify_eq/=. done.
Qed.

Lemma vplans_written name len root hs q n :
  mapM (hit_at name len) (open_stores root) = Some hs ->
  node_at_path root q = Some n ->
  planned (map (vplan root) hs) q (body n) = value_written name len root q n.
Proof.
  intros Hm Hn. pose proof (vplans_paths _ _ _ _ Hm) as Hpaths. apply mapM_Some in Hm.
  unfold value_written.
  pose proof (open_stores_NoDup root) as Hnd.
  destruct (std_store n && negb (blocked root q)) eqn:Ho.
  - apply andb_true_iff in Ho as [Hs Hb%negb_true_iff].
    assert (open_std root q n) as Hopen by done. apply open_stores_intro in Hopen as Hin.
    apply list_elem_of_lookup in Hin as [i Hi].
    destruct (Forall2_lookup_l _ _ _ _ _ Hm Hi) as (h & Hh & Hhit).
    unfold hit_at in Hhit. cbn in Hhit. unfold set_in.
    destruct (record_of name len (body n)) as [r|]; [|done]. injection Hhit as <-.
    pose proof (list_elem_of_lookup_2 _ _ _ Hh) as Hel.
    eapply list_elem_of_fmap_2 with (f := vplan root) in Hel.
    apply (planned_in _ _ (body n)) in Hel; [exact Hel|].
    change (NoDup (map pl_path (map (vplan root) hs))). by rewrite Hpaths.
  - apply planned_out. rewrite Hpaths. intros (s & -> & Hs)%list_elem_of_fmap.
    apply open_stores_elem in Hs as ((Hp & Hst & Hb) & _).
    assert (sa_node s = n) as <- by congruence. by rewrite Hst, Hb in Ho.
Qed.

End Value.

(** ** Which values are accepted *)

(** The value fits the storage and the kind of the question. *)
Definition value_allowed (map : QuestionMap) (value : Z) : Prop :=
  0 < qm_width map <= 8 /\ value < 256 ^ qm_width map /\
  match qm_kind map with
  | QK_CheckBox => value <= 1
  | QK_OneOf => exists o, o ∈ qm_options map /\ oe_value o = value
  | QK_Numeric => qm_min map <= value <= qm_max map
  | QK_Other => False
  end.

Lemma validate_set_value_spec map value :
  0 <= qm_width map -> 0 <= value < 2 ^ 64 ->
  match validate_set_value map value with
  | Ok w => w = qm_width map /\ value_allowed map value
  | Err e => ~ value_allowed map value /\ exists s, e = HE_ValueOpUnsupported s
  | Panic | Diverge => False
  end.
Proof.
  intros Hw Hv. unfold validate_set_value, value_allowed, unsupported.
  case_bool_decide as Hk; [rewrite Hk; naive_solver|].
  destruct (_ || _) eqn:Hwb; [split; [lia|by eexists]|].
  assert ((8 * qm_width map <? 64) && (Z.shiftl 1 (8 * qm_width map) <=? value) = (256 ^ qm_width map <=? value)) as ->.
  { rewrite Z.shiftl_1_l, Z.pow_mul_r by lia. change (2 ^ 8) with 256.
    destruct (Z.ltb_spec (8 * qm_width map) 64); [done|]. assert (qm_width map = 8) as -> by lia.
    change (256 ^ 8) with (2 ^ 64). lia. }
  destruct (Z.leb_spec (256 ^ qm_width map) value); [split; [lia|by eexists]|].
  destruct (qm_kind map); try done.
  - destruct (existsb _ _) eqn:He; cbn [negb mret outcome_ret].
    + apply existsb_exists in He as (o & Ho%list_elem_of_In & Heq). split_and!; try done; [lia..|].
      exists o. split; [done|lia].
    + split; [|by eexists]. intros (_ & _ & o & Ho & Heq).
      assert (existsb (fun o => oe_value o =? value) (qm_options map) = true); [|congruence].
      apply existsb_exists. exists o. split; [by apply list_elem_of_In|lia].
  - destruct (Z.ltb_spec 1 value); cbn [mret outcome_ret]; [split; [lia|by eexists]|].
    split_and!; done || lia.
  - destruct (_ && _) eqn:He; cbn [negb mret outcome_ret]; [split_and!; done || lia|].
    split; [lia|by eexists].
Qed.

(** ** The question *)

Definition map_bounds (m : QuestionMap) : Prop := 0 <= qm_var_offset m /\ 0 <= qm_width m.

Lemma u16_in_nonneg b i : okpost (u16_in b i) (fun z => 0 <= z).
Proof.
  unfold u16_in. apply okpost_bind. intros b0 _. apply okpost_bind. intros b1 _.
  apply okpost_ret. pose proof (le_dec_bounds [b0; b1]). lia.
Qed.

Lemma one_of_width_nonneg options defaults : 0 <= one_of_width options defaults.
Proof.
  unfold one_of_width.
  assert (forall w (l : list OptionEntry), 0 <= w -> 0 <= fold_left (fun w o => Z.max w (value_bytes_needed (oe_value o))) l w) as H1.
  { intros w l. revert w. induction l as [|o l IH]; intros w Hw; [done|]. cbn. apply IH. lia. }
  assert (forall w l, 0 <= w -> 0 <= fold_left (fun w d => if (1 <=? b2z (de_type d)) && (b2z (de_type d) <=? 4)
                        then Z.max w (Z.shiftl 1 (b2z (de_type d) - 1)) else w) l w) as H2.
  { intros w l. revert w. induction l as [|o l IH]; intros w Hw; [done|]. cbn. apply IH. destruct (_ && _); lia. }
  apply H2, H1. lia.
Qed.

Lemma build_question_map_bounds pkg o l vs : okpost (build_question_map pkg o l vs) map_bounds.
Proof.
  unfold build_question_map. apply okpost_bind. intros op _. apply okpost_bind. intros qid _.
  apply okpost_bind. intros vid _. apply okpost_bind.
  eapply okpost_mono; [apply u16_in_nonneg|]. intros vo Hvo.
  destruct (question_kind op).
  - apply okpost_bind. intros od _. apply okpost_ret. split; [done|]. apply one_of_width_nonneg.
  - by apply okpost_ret.
  - destruct (_ <=? l); [|by apply okpost_ret]. apply okpost_bind. intros w Hw.
    apply okpost_ret. split; [done|]. cbn. unfold numeric_width in Hw.
    apply bind_Ok in Hw as (b & _ & Hw). injection Hw as <-. apply Z.shiftl_nonneg. lia.
  - by apply okpost_ret.
Qed.

Lemma find_question_bounds pkg fid qid :
  okpost (find_question pkg fid qid) (fun o => forall m, o = Some m -> map_bounds m).
Proof.
  unfold find_question. apply okpost_bind. intros found _. unfold try_opt.
  destruct found as [[o l]|]; [|by apply okpost_ret].
  apply okpost_bind. intros vid _. apply okpost_bind. intros stores _. apply okpost_bind.
  eapply okpost_mono; [apply build_question_map_bounds|]. intros m Hm. apply okpost_ret. by intros ? [= <-].
Qed.

Lemma first_question_bounds b ranges fid qid :
  okpost (first_question b ranges fid qid) (fun o => forall m, o = Some m -> map_bounds m).
Proof.
  induction ranges as [|r ranges IH]; [by apply okpost_ret|]. cbn [first_question].
  apply okpost_bind. intros pkg _. apply okpost_bind. eapply okpost_mono; [apply find_question_bounds|].
  intros [m|] Hm; [|exact IH]. by apply okpost_ret.
Qed.

Lemma find_question_map_bounds img t fid qid :
  okpost (find_question_map img t fid qid) (fun mt => map_bounds (fst mt)).
Proof.
  unfold find_question_map. apply okpost_bind. intros path _. apply okpost_bind. intros nf _.
  apply okpost_bind. intros fb _. apply okpost_bind. intros texts _. apply okpost_bind. intros ranges _.
  apply okpost_bind. intros o Ho%lift_Ok.
  pose proof (first_question_bounds _ _ _ _ _ Ho) as Hm. destruct o as [m|]; [|by intros ? [=]].
  apply okpost_ret. by apply Hm.
Qed.

(** ** Setting a value *)

(** The stores and plans of an accepted value. *)
Record plans_for (root : FfsNode) (map : QuestionMap) (value : Z) (vs : VarStoreMap)
  (hits : list VarHit) (plans : list Plan) : Prop := {
  pf_varstore : qm_varstore map = Some vs;
  pf_name : vs_name vs <> [];
  pf_value : value_allowed map value;
  pf_size : qm_var_offset map + qm_width map <= vs_size vs;
  pf_some : open_stores root <> [];
  pf_hits : mapM (hit_at (vs_name vs) (vs_size vs)) (open_stores root) = Some hits;
  pf_fits : Forall (hit_fits (qm_var_offset map) (qm_width map) root) hits;
  pf_plans : plans = List.map (vplan (qm_var_offset map) (qm_width map) value root) hits
}.

Lemma hits_fit root name len off w hits :
  in_memory root -> 0 <= off -> 0 <= w -> off + w <= len ->
  mapM (hit_at name len) (open_stores root) = Some hits -> Forall (hit_fits off w root) hits.
Proof.
  intros Hm Ho Hw Hl H. apply mapM_Some in H. apply Forall_forall. intros h [i Hi]%list_elem_of_lookup.
  destruct (Forall2_lookup_r _ _ _ _ _ H Hi) as (s & Hs & Hh).
  apply list_elem_of_lookup_2, open_stores_elem in Hs as ((Hn & _ & _) & _).
  unfold hit_at in Hh. destruct (record_of _ _ _) as [[k d]|] eqn:Hr; [|done]. injection Hh as <-.
  apply record_of_Some, find_record_bounds in Hr as (? & ? & ? & _).
  exists (sa_node s). cbn. pose proof (everywhere_at _ _ _ _ Hm Hn). cbv beta in *. split_and!; try done; lia.
Qed.

Lemma value_plans_spec root map value hits plans :
  in_memory root -> map_bounds map -> 0 <= value < 2 ^ 64 ->
  value_plans dbg_str root map value = Ok (hits, plans) ->
  exists vs, plans_for root map value vs hits plans.
Proof.
  intros Hm [Hvo Hw] Hv. unfold value_plans. pose proof (validate_set_value_spec map value Hw Hv) as Hval.
  destruct (validate_set_value map value) as [w| | |]; cbn [mbind outcome_bind]; try done.
  destruct Hval as [-> Hval]. destruct (qm_varstore map) as [vs|] eqn:Hvs; cbn [ok_or mbind outcome_bind]; [|done].
  case_bool_decide; [done|]. destruct (Z.ltb_spec (vs_size vs) (qm_var_offset map + qm_width map)); [done|].
  unfold collect_std_defaults_hits. rewrite collect_std_eq. cbn [lift map_err mbind outcome_bind fst snd].
  pose proof (record_hits_spec (vs_name vs) (vs_size vs) (open_stores root) []) as Hh.
  destruct (foldM _ _ _) as [hs| | |]; cbn [mbind outcome_bind mret outcome_ret]; try done.
  destruct Hh as (hs' & Hmap & ->). cbn [app fst snd]. destruct hs' as [|h hs']; [by destruct (existsb _ _)|].
  assert (Forall (hit_fits (qm_var_offset map) (qm_width map) root) (h :: hs')) as Hfits
    by (eapply hits_fit; [done|done|done| |done]; lia).
  destruct Hval as (Hw' & Hval). rewrite plan_values_spec by (done || lia).
  cbn [mbind outcome_bind mret outcome_ret app]. intros [= <- <-]. exists vs.
  constructor; try done. intros He. by rewrite He in Hmap.
Qed.

(** The value is in the stores. *)
Record value_stored (img img' : Image) (map : QuestionMap) (vs : VarStoreMap) (value : Z) : Prop := {
  st_varstore : qm_varstore map = Some vs;
  st_mode : mode img = IM_Write;
  st_allowed : value_allowed map value;
  st_range : 0 <= qm_var_offset map /\ qm_var_offset map + qm_width map <= vs_size vs;
  st_name : vs_name vs <> [];
  st_tree : rewritten (value_written (qm_var_offset map) (qm_width map) value (vs_name vs) (vs_size vs) (root img))
              (root img) (root img');
  st_some : exists p n, open_std (root img) p n;
  st_records : forall p n, open_std (root img) p n ->
    is_Some (record_of (vs_name vs) (vs_size vs) (body n));
  st_dirty : dirty_closed (root img) -> dirty_closed (root img')
}.

Lemma set_value_run item_id value img :
  in_memory (root img) -> 0 <= value < 2 ^ 64 ->
  let '(img', r) := set_value dbg_str item_id value img in
  match r with
  | Ok o =>
      exists target fid qid map texts vs,
        parse_item_id item_id = Ok (target, fid, Some qid) /\
        find_question_map img target fid qid = Ok (map, texts) /\ value_stored img img' map vs value
  | Err _ => img' = img
  | Panic | Diverge => True
  end.
Proof.
  intros Hm Hv. unfold set_value, act_bind at 1, act_of.
  destruct (parse_item_id item_id) as [[[target fid] qid]| | |]; try done.
  unfold act_bind at 1, act_of. destruct qid as [qid|]; cbn [ok_or]; [|done].
  unfold act_bind at 1, get_image. cbv beta iota zeta. unfold act_bind at 1, act_of.
  destruct (find_question_map img target fid qid) as [[map texts]| | |] eqn:Hq; try done.
  pose proof (find_question_map_bounds _ _ _ _ _ Hq) as Hb. cbn [fst] in Hb.
  case_bool_decide as Hmode; cbn [negb]; [|done].
  unfold act_bind at 1, act_of. destruct (lift _) as [info| | |]; try done.
  unfold act_bind at 1, act_of. destruct (value_plans _ _ _ _) as [[hits plans]| | |] eqn:Hp; try done.
  destruct (value_plans_spec _ _ _ _ _ Hm Hb Hv Hp) as (vs & [Hvs Hname Hval Hsize Hne Hhits Hfits ->]).
  destruct Hb as [Hvo _]. destruct Hval as (Hw & Hval).
  unfold act_bind at 1, act_of.
  destruct (apply_steps_spec (E := HiiError) (qm_width map)
    (List.map (vplan (qm_var_offset map) (qm_width map) value (root img)) hits) (root img) [])
    as (r' & strs & -> & Hbd & Hd).
  { rewrite (vplans_paths _ _ _ _ _ _ _ Hhits). apply open_stores_NoDup. }
  { apply vplans_ok; [lia..|done]. }
  unfold act_bind, set_root, act_ret. cbv beta iota zeta. cbn [root with_root fst].
  exists target, fid, qid, map, texts, vs. split_and!; [done..|].
  assert (0 <= qm_width map <= 8) as Hw8 by lia. constructor; cbn [root]; try done.
  - intros q. specialize (Hbd q). destruct (node_at_path (root img) q) as [n|] eqn:Hn; [|done].
    rewrite (vplans_written _ _ _ _ _ _ _ _ _ Hhits Hn) in Hbd. exact Hbd.
  - destruct (open_stores (root img)) as [|s l] eqn:Hs; [done|].
    assert (s ∈ open_stores (root img)) as (Ho & _)%open_stores_elem by (rewrite Hs; by left). eauto.
  - intros p n Ho%open_stores_intro. apply mapM_Some in Hhits.
    apply list_elem_of_lookup in Ho as [i Hi].
    destruct (Forall2_lookup_l _ _ _ _ _ Hhits Hi) as (h & _ & Hh).
    unfold hit_at in Hh. cbn in Hh. by destruct (record_of _ _ _).
Qed.

(** C34. Setting a question to a value writes to the StdDefaults stores: on success the
    image was writable, the value fits the width and the kind of the question, and in
    every store that no section blocks (there is one) the record of the variable store
    has the little-endian value at the offset of the question; all other bytes, and
    everything else of every node but the rebuild marks, are as before, and no edit gets
    lost by the builder. On an error the image is as before. *)
Theorem set_value_effect item_id value img :
  in_memory (root img) -> 0 <= value < 2 ^ 64 ->
  let '(img', r) := set_value dbg_str item_id value img in
  match r with
  | Ok o =>
      exists target fid qid map texts vs,
        parse_item_id item_id = Ok (target, fid, Some qid) /\
        find_question_map img target fid qid = Ok (map, texts) /\ value_stored img img' map vs value
  | Err _ => img' = img
  | Panic | Diverge => True
  end.
Proof. apply set_value_run. Qed.

(** ** Reading the value back *)

Lemma rewritten_bodies f r r' :
  rewritten f r r' ->
  bodies (fun q b => match node_at_path r q with Some n => f q n | None => b end) r r'.
Proof.
  intros H q. specialize (H q). destruct (node_at_path r q), (node_at_path r' q); done.
Qed.

Lemma child_at_none n : child_at n 0 = None <-> children n = [].
Proof. unfold child_at, get. cbn. by destruct (children n). Qed.

Lemma bodies_leaf g r r' p n n' :
  bodies g r r' -> node_at_path r p = Some n -> node_at_path r' p = Some n' ->
  (children n = [] <-> children n' = []).
Proof.
  intros Hb Hn Hn'. specialize (Hb (p ++ [0])). rewrite !node_at_path_app, Hn, Hn' in Hb.
  cbn [mbind option_bind node_at_path] in Hb. rewrite <-!child_at_none.
  destruct (child_at n 0), (child_at n' 0); cbn in Hb; try done; by split.
Qed.

Lemma same_but_std b n n' :
  same_but b n n' -> (children n = [] <-> children n' = []) ->
  std_store n' = (is_file n || is_section n) && bool_decide (children n = [])
                 && match std_defaults_data b with Ok (Some _) => true | _ => false end.
Proof.
  intros Hs Hc. unfold std_store. rewrite (same_but_body _ _ _ Hs). f_equal. f_equal.
  - destruct Hs as (a & cs & ->). by destruct n.
  - apply bool_decide_ext. by symmetry.
Qed.

Lemma find_record_std name len b r :
  find_varstore_record b name len = Ok (Some r) -> exists d, std_defaults_data b = Ok (Some d).
Proof.
  unfold find_varstore_record. intros (d & Hd & H)%bind_Ok. unfold try_opt in H.
  destruct d as [d|]; [by exists d|done].
Qed.

Section ReadBack.
Context (off w value : Z) (name : ustring) (len : Z) (root root' : FfsNode).
Context (Hoff : 0 <= off) (Hw : 0 < w <= 8) (Hlen : off + w <= len) (Hv : 0 <= value < 256 ^ w).
Context (Hr : rewritten (value_written off w value name len root) root root').
Context (Hrec : forall p n, open_std root p n -> is_Some (record_of name len (body n))).
Context (Hclear : forall p n, open_std root p n -> trailers_clear (body n) = true).

(** A store after the edit: the record has the new bytes. *)
Lemma set_in_record p n :
  open_std root p n -> exists k d,
    find_varstore_record (set_in off w value name len (body n)) name len = Ok (Some (k, d)) /\
    get_range d off (off + w) = Some (new_bytes w value).
Proof.
  intros Ho. destruct (Hrec _ _ Ho) as [[k d] Hk]. pose proof Hk as Hf. apply record_of_Some in Hf.
  assert (blen (new_bytes w value) = w) as Hb by (apply blen_new_bytes; lia).
  unfold set_in. rewrite Hk. cbn [fst]. exists k, (splice d off (new_bytes w value)).
  rewrite (find_record_write _ _ len _ d off) by (lia || by eauto).
  apply find_record_bounds in Hf as (_ & _ & Hd & _). split; [done|].
  unfold get_range. rewrite (proj2 (range_ok_spec _ _ _)) by (rewrite blen_splice; lia).
  f_equal. rewrite <-Hb at 2. apply sub_splice_same; lia.
Qed.

Lemma open_std_before p n' :
  open_std root' p n' ->
  exists n, open_std root p n /\ body n' = set_in off w value name len (body n).
Proof.
  intros (Hn' & Hs' & Hb'). pose proof (rewritten_bodies _ _ _ Hr) as Hbd.
  rewrite (bodies_blocked _ _ _ _ Hbd) in Hb'. pose proof (Hr p) as Hp. rewrite Hn' in Hp.
  destruct (node_at_path root p) as [n|] eqn:Hn; [|done]. exists n.
  pose proof (bodies_leaf _ _ _ _ _ _ Hbd Hn Hn') as Hc. pose proof (same_but_body _ _ _ Hp) as Hbody.
  rewrite (same_but_std _ _ _ Hp Hc) in Hs'. unfold value_written in Hs', Hbody. rewrite Hb' in Hs', Hbody.
  destruct (std_store n) eqn:Hs; cbn [andb negb] in *; [by rewrite Hbody|].
  unfold std_store in Hs. congruence.
Qed.

Lemma open_std_after p n : open_std root p n -> exists n', open_std root' p n'.
Proof.
  intros Ho. destruct (set_in_record p n Ho) as (k & d & Hk & _). destruct Ho as (Hn & Hs & Hb).
  pose proof (rewritten_bodies _ _ _ Hr) as Hbd. destruct (bodies_at _ _ _ _ _ Hbd Hn) as (n' & Hn' & Hsame).
  cbv beta in Hsame. rewrite Hn in Hsame. unfold value_written in Hsame. rewrite Hs, Hb in Hsame.
  cbn [andb negb] in Hsame. exists n'. split_and!; [done| |by rewrite (bodies_blocked _ _ _ _ Hbd)].
  rewrite (same_but_std _ _ _ Hsame (bodies_leaf _ _ _ _ _ _ Hbd Hn Hn')).
  apply find_record_std in Hk as [x ->]. unfold std_store in Hs. apply andb_true_iff in Hs as [-> _]. done.
Qed.

Lemma seed_reads_back :
  name <> [] -> (exists p n, open_std root p n) ->
  seed_lookup root' false name len off w = Ok (Some value).
Proof.
  intros Hne (p & n & Ho). unfold seed_lookup. rewrite bool_decide_eq_false_2 by done.
  replace (_ || _) with false by lia. rewrite collect_std_eq. cbn [mbind outcome_bind fst].
  destruct (open_std_after p n Ho) as (n' & Ho'%open_stores_intro).
  destruct (open_stores root') as [|s l] eqn:Hl; [by apply elem_of_nil in Ho'|]. cbn [map seed_in].
  assert (s ∈ open_stores root') as (Hs & _)%open_stores_elem by (rewrite Hl; by left).
  destruct (open_std_before _ _ Hs) as (n0 & Ho0 & Hb). destruct (set_in_record _ _ Ho0) as (k & d & Hk & Hd).
  cbn [to_body sd_node]. rewrite Hb, Hk. cbn [mbind outcome_bind option_bind snd]. rewrite Hd.
  cbn [mret outcome_ret]. do 2 f_equal. unfold new_bytes. rewrite le_dec_enc_small; [done|].
  by replace (Z.of_nat (Z.to_nat w)) with w by lia.
Qed.
End ReadBack.

(** C35. A value that was set reads back: the lookup of the seed of the question in the new
    image gives it, when no record of the stores ends in data that could be read as a
    trailer. *)
Theorem set_value_reads_back item_id value img img' o :
  in_memory (root img) -> 0 <= value < 2 ^ 64 ->
  set_value dbg_str item_id value img = (img', Ok o) ->
  (forall p n, open_std (root img) p n -> trailers_clear (body n) = true) ->
  exists target fid qid map texts,
    parse_item_id item_id = Ok (target, fid, Some qid) /\
    find_question_map img target fid qid = Ok (map, texts) /\
    map_seed (root img') map = Ok (Some value).
Proof.
  intros Hm Hv Hset Hclear. pose proof (set_value_run item_id value img Hm Hv) as H. rewrite Hset in H.
  destruct H as (target & fid & qid & map & texts & vs & Hp & Hq & [Hvs _ (Hw & Hval & _) [Ho Hl] Hne Ht Hs Hr _]).
  exists target, fid, qid, map, texts. split_and!; [done..|]. unfold map_seed. rewrite Hvs.
  eapply seed_reads_back; done || lia.
Qed.

End ImageValuesFacts.
