(* ===== verification/SetupFacts.v ===== *)
(** What the operations that add setup data may do to an image: they change bodies and
    rebuild marks only, and when they succeed every node whose body changed is marked
    with all its ancestors, so that the builder writes it. Additions of questions and the
    removal of a hide entry are atomic. *)
From stdpp Require Import gmap.
From S2P Require Import Prelude Text Types Ffs Tiano Codec Parser Target Ops Nvar NvarStores.
From S2P Require Import Hii Values Ifr Gates StringPack Schema FormsetAdd Spf PeResource.
From S2P Require Import ImageStrings ImageGates ImageValues Channels SetupAdd QuestionAdd Hijack Tse.
From S2P Require Server.
From S2P Require Import ParserFacts OpsFacts NvarStoresFacts ImageFacts.

Section SetupFacts.
Context {GL : GuidLib} {RH : RefiHii} {OP : ObjectPe}.

(** ** The tree without its bodies and actions *)

Fixpoint shape (n : FfsNode) : FfsNode :=
  set_children (map shape (children n)) (set_action NoAction (set_body [] n)).

Lemma shape_eq n : shape n = set_children (map shape (children n)) (set_action NoAction (set_body [] n)).
Proof. by destruct n. Qed.

Lemma shape_set_body b n : shape (set_body b n) = shape n.
Proof. by destruct n. Qed.

Lemma shape_touch n : shape (touch n) = shape n.
Proof. unfold touch. case_bool_decide; [by destruct n|done]. Qed.

Lemma shape_replace_child n i c c' :
  child_at n i = Some c -> shape c' = shape c ->
  shape (set_children (<[Z.to_nat i := c']> (children n)) n) = shape n.
Proof.
  intros Hc Hs. rewrite !shape_eq, children_set_children.
  apply get_Some in Hc as [_ Hc].
  assert (map shape (<[Z.to_nat i := c']> (children n)) = map shape (children n)) as ->.
  { change (shape <$> <[Z.to_nat i := c']> (children n) = shape <$> children n).
    rewrite list_fmap_insert, Hs. apply list_insert_id. by rewrite list_lookup_fmap, Hc. }
  by destruct n.
Qed.

Lemma shape_mark n p : shape (mark_rebuild_to_root_by_path n p) = shape n.
Proof.
  revert n. induction p as [|i p IH]; intros n; [apply shape_touch|].
  rewrite mark_cons. destruct (child_at n i) as [c|] eqn:Hc; [|apply shape_touch].
  rewrite <-(shape_touch n), <-(touch_children n).
  eapply shape_replace_child; [by rewrite child_at_touch|apply IH].
Qed.

Lemma shape_update n p b n' : update_at n p (set_body b) = Some n' -> shape n' = shape n.
Proof.
  revert n n'. induction p as [|i p IH]; intros n n' H; simpl in H; [simplify_eq; apply shape_set_body|].
  destruct (child_at n i) as [c|] eqn:Hc; simpl in H; [|done].
  destruct (update_at c p _) as [c'|] eqn:Hu; simplify_eq/=.
  eapply shape_replace_child; eauto.
Qed.

(** The lookups do not read bodies or actions. *)
Lemma guid_matches_shape g n : guid_matches g (shape n) = guid_matches g n.
Proof. by destruct n. Qed.

Lemma children_shape n : children (shape n) = map shape (children n).
Proof. by destruct n. Qed.

Lemma first_hit_map {R} (f g : Z -> FfsNode -> option R) i cs :
  (forall i c, c ∈ cs -> f i (shape c) = g i c) ->
  first_hit f i (map shape cs) = first_hit g i cs.
Proof.
  revert i. induction cs as [|c cs IH]; intros i H; [done|]. cbn. rewrite H by (by left).
  destruct (g i c); [done|]. apply IH. intros. apply H. by right.
Qed.

Lemma find_path_shape g n p : find_path_by_guid g (shape n) p = find_path_by_guid g n p.
Proof.
  revert p. induction n as [n IH] using FfsNode_tree_ind. intros p. rewrite Forall_forall in IH.
  assert (forall m, find_path_by_guid g m p = if guid_matches g m then Some p
    else first_hit (fun i c => find_path_by_guid g c (p ++ [i])) 0 (children m)) as E by (by intros []).
  rewrite !E, guid_matches_shape, children_shape. destruct (guid_matches g n); [done|].
  apply first_hit_map. intros i c Hc. by apply IH.
Qed.

Lemma child_at_shape n i : child_at (shape n) i = shape <$> child_at n i.
Proof.
  unfold child_at. rewrite children_shape. unfold get. case_match; [|done].
  apply list_lookup_fmap.
Qed.

Lemma node_at_shape n p : node_at_path (shape n) p = shape <$> node_at_path n p.
Proof.
  revert n. induction p as [|i p IH]; intros n; [done|]. cbn. rewrite child_at_shape.
  destruct (child_at n i); cbn; [apply IH|done].
Qed.

Definition shape_hit (r : option (FfsNode * list Z) * Z) : option (FfsNode * list Z) * Z :=
  (prod_map shape id <$> fst r, snd r).

Lemma find_section_shape st w n p k :
  find_guid_section_dfs st w (shape n) p k = shape_hit (find_guid_section_dfs st w n p k).
Proof.
  revert p k. induction n as [n IH] using FfsNode_tree_ind. intros p k. rewrite Forall_forall in IH.
  assert (forall m, find_guid_section_dfs st w m p k =
    counted_hit (section_hit (find_guid_section_dfs st w) st w p) 0 (children m) k) as E by (by intros []).
  rewrite !E, children_shape. clear E. generalize 0 as i. revert k.
  induction (children n) as [|c cs IHcs]; intros k i; [done|]. cbn [map counted_hit].
  assert (section_hit (find_guid_section_dfs st w) st w p i (shape c) k
          = shape_hit (section_hit (find_guid_section_dfs st w) st w p i c k)) as ->.
  { unfold section_hit. assert (node_type (shape c) = node_type c) as -> by (by destruct c).
    assert (subtype (shape c) = subtype c) as -> by (by destruct c).
    destruct (negb _); [done|]. destruct (_ && _); [done|]. destruct (_ || _); [|done].
    apply IH. by left. }
  destruct (section_hit _ _ _ _ _ c k) as [[[m q]|] k']; [done|]. cbn.
  apply IHcs. intros x Hx. apply IH. by right.
Qed.

Lemma find_item_path_shape r t : find_item_path (shape r) t = find_item_path r t.
Proof.
  destruct t as [g|ix|g st w]; cbn [find_item_path].
  - apply find_path_shape.
  - rewrite node_at_shape. by destruct (node_at_path r ix).
  - rewrite find_path_shape. destruct (find_path_by_guid g r []) as [fp|]; [|done]. cbn.
    rewrite node_at_shape. destruct (node_at_path r fp) as [f|]; [|done]. cbn.
    rewrite find_section_shape. by destruct (find_guid_section_dfs st w f [] 0) as [[[m q]|] k].
Qed.

Lemma find_item_path_same r r' t : shape r' = shape r -> find_item_path r' t = find_item_path r t.
Proof. intros H. by rewrite <-(find_item_path_shape r'), H, find_item_path_shape. Qed.

Lemma update_closed n p b n' :
  update_at n p (set_body b) = Some n' -> action n' = action n /\ (dirty_closed n -> dirty_closed n').
Proof.
  revert n n'. induction p as [|i p IH]; intros n n' Hu; simpl in Hu.
  - simplify_eq. split; [by destruct n|]. intros Hd. inversion Hd as [? Hc Hcs]; subst.
    constructor; [|by destruct n]. unfold clean_below in *. by destruct n.
  - destruct (child_at n i) as [c|] eqn:Hc; simpl in Hu; [|done].
    destruct (update_at c p (set_body b)) as [c'|] eqn:Huc; simplify_eq/=.
    destruct (IH _ _ Huc) as [Ha Hd']. split; [by destruct n|]. intros Hd.
    inversion Hd as [? Hcl Hcs]; subst. pose proof (child_at_elem _ _ _ Hc) as Hin.
    rewrite Forall_forall in Hcs. constructor.
    + unfold clean_below in *. rewrite children_set_children.
      replace (action (set_children _ n)) with (action n) by (by destruct n). intros Hn.
      specialize (Hcl Hn). rewrite Forall_forall in Hcl. apply Forall_insert; [by apply Forall_forall|].
      rewrite Ha. by apply Hcl.
    + rewrite children_set_children. apply Forall_insert; [by apply Forall_forall|]. apply Hd', Hcs, Hin.
Qed.

(** ** The edits of an operation *)

(** The image [img] has the nodes of [img0]; a body that changed is marked with its
    ancestors, or waits for its mark in [ps]. *)
Record edited (ps : list (list Z)) (img0 img : Image) : Prop := {
  ed_id : image_id img = image_id img0;
  ed_session : session_id img = session_id img0;
  ed_mode : mode img = mode img0;
  ed_shape : shape (root img) = shape (root img0);
  ed_marks : forall q, body_at (root img) q <> body_at (root img0) q -> q ∈ ps \/ marked (root img) q = true;
  ed_dirty : dirty_closed (root img0) -> dirty_closed (root img)
}.

Lemma edited_refl img : edited [] img img.
Proof. by constructor. Qed.

Lemma edited_weaken ps ps' img0 img : ps ⊆ ps' -> edited ps img0 img -> edited ps' img0 img.
Proof. intros Hs []. constructor; [done..| |done]. intros q Hq. destruct (ed_marks0 q Hq); [left; by apply Hs|by right]. Qed.

Lemma edited_path ps img0 img t : edited ps img0 img -> find_item_path (root img) t = find_item_path (root img0) t.
Proof. intros []. by apply find_item_path_same. Qed.

Lemma edited_update ps img0 img p b r' :
  edited ps img0 img -> update_at (root img) p (set_body b) = Some r' ->
  edited (p :: ps) img0 (with_root r' img).
Proof.
  intros [] Hu. constructor; cbn [root with_root]; try done.
  - by rewrite (shape_update _ _ _ _ Hu).
  - intros q Hq. destruct (decide (q = p)) as [->|Hne]; [left; by left|].
    rewrite (update_marked _ _ _ _ _ Hu). rewrite (body_at_bodies _ _ _ _ (update_bodies _ _ _ _ Hu)) in Hq.
    rewrite bool_decide_eq_false_2 in Hq by done.
    destruct (ed_marks0 q) as [|]; [|left; by right|by right].
    intros E. apply Hq. rewrite <-E. by destruct (body_at (root img) q).
  - intros Hd. eapply update_closed; eauto.
Qed.

Lemma edited_mark ps img0 img p :
  edited (p :: ps) img0 img -> edited ps img0 (with_root (mark_rebuild_to_root_by_path (root img) p) img).
Proof.
  intros []. constructor; cbn [root with_root]; try done.
  - by rewrite shape_mark.
  - intros q Hq. rewrite (body_at_bodies _ _ _ _ (mark_bodies (root img) p)), option_fmap_id in Hq.
    destruct (ed_marks0 q Hq) as [H|H]; [|right; by apply mark_keeps_marked].
    apply elem_of_cons in H as [->|H]; [|by left]. right. apply mark_marked.
    assert (is_Some (node_at_path (root img0) p) <-> is_Some (node_at_path (root img) p)) as Hs.
    { pose proof (node_at_shape (root img) p) as E. rewrite ed_shape0, node_at_shape in E.
      destruct (node_at_path (root img0) p), (node_at_path (root img) p); try done. }
    unfold body_at in Hq. destruct (node_at_path (root img) p); [by eexists|].
    destruct (node_at_path (root img0) p); [|done]. by apply Hs.
  - intros Hd. apply (mark_closed (root img) p). apply dirty_closed_children. auto.
Qed.

(** ** A logic of edits *)

(** From an image with the edits [ps], the operation ends with the edits [ps'] and a
    result with [Q]; when it fails, what it did are edits too. *)
Definition edits {A} (img0 : Image) (ps : list (list Z)) (m : act A) (ps' : list (list Z)) (Q : A -> Prop) : Prop :=
  forall img, edited ps img0 img ->
    (exists qs, edited qs img0 (fst (m img))) /\
    forall a, snd (m img) = Ok a -> edited ps' img0 (fst (m img)) /\ Q a.

Section Rules.
Context (img0 : Image).

Lemma edits_bind {A B} ps (m : act A) qs P (k : A -> act B) rs Q :
  edits img0 ps m qs P -> (forall a, P a -> edits img0 qs (k a) rs Q) -> edits img0 ps (act_bind m k) rs Q.
Proof.
  intros Hm Hk img He. destruct (Hm img He) as [Hx Ho]. unfold act_bind.
  destruct (m img) as [img' [a| | |]]; cbn [fst snd] in *; try (by split).
  destruct (Ho a eq_refl) as [He' HP]. exact (Hk a HP img' He').
Qed.

Lemma edits_of {A} ps (m : outcome HiiError A) (Q : A -> Prop) :
  (forall a, m = Ok a -> Q a) -> edits img0 ps (act_of m) ps Q.
Proof. intros H img He. split; [by exists ps|]. auto. Qed.

Lemma edits_bind_of {A B} ps (m : outcome HiiError A) (k : A -> act B) rs Q :
  (forall a, m = Ok a -> edits img0 ps (k a) rs Q) -> edits img0 ps (act_bind (act_of m) k) rs Q.
Proof. intros H. eapply edits_bind; [by apply (edits_of _ _ (fun a => m = Ok a))|done]. Qed.

Lemma edits_err {A} ps e ps' (Q : A -> Prop) : edits img0 ps (act_err e) ps' Q.
Proof. intros img He. split; [by exists ps|]. by intros ? [=]. Qed.

Lemma edits_ret {A} ps (a : A) (Q : A -> Prop) : Q a -> edits img0 ps (act_ret a) ps Q.
Proof. intros H img He. split; [by exists ps|]. by intros ? [= <-]. Qed.

Lemma edits_get ps : edits img0 ps get_image ps (edited ps img0).
Proof. intros img He. split; [by exists ps|]. by intros ? [= <-]. Qed.

Lemma edits_bind_get {B} ps (k : Image -> act B) rs Q :
  (forall img, edited ps img0 img -> edits img0 ps (k img) rs Q) -> edits img0 ps (act_bind get_image k) rs Q.
Proof. intros H. eapply edits_bind; [apply edits_get|done]. Qed.

Lemma edits_then {A B} ps (m : act A) qs (k : A -> act B) rs Q :
  edits img0 ps m qs (fun _ => True) -> (forall a, edits img0 qs (k a) rs Q) ->
  edits img0 ps (act_bind m k) rs Q.
Proof. intros Hm Hk. eapply edits_bind; [exact Hm|auto]. Qed.

Lemma edits_mono {A} ps (m : act A) qs rs (P Q : A -> Prop) :
  edits img0 ps m qs P -> qs ⊆ rs -> (forall a, P a -> Q a) -> edits img0 ps m rs Q.
Proof.
  intros Hm Hs HQ img He. destruct (Hm img He) as [Hx Ho]. split; [done|].
  intros a Ha. destruct (Ho a Ha). split; [by eapply edited_weaken|auto].
Qed.

Lemma edits_weaken {A} ps qs (m : act A) rs Q : ps ⊆ qs -> edits img0 qs m rs Q -> edits img0 ps m rs Q.
Proof. intros Hs Hm img He. apply Hm. by eapply edited_weaken. Qed.

Lemma edits_edit_body {A} ps p (f : list byte -> outcome HiiError (list byte * A)) :
  edits img0 ps (edit_body p f) (p :: ps) (fun _ => True).
Proof.
  intros img He. unfold edit_body, act_bind, get_image, act_of, set_root, act_ret.
  destruct (node_at (root img) p) as [n| | |]; cbn [fst snd]; try (by split; [exists ps|]).
  destruct (f (body n)) as [[b a]| | |]; cbn [fst snd]; try (by split; [exists ps|]).
  destruct (update_at (root img) p (set_body b)) as [r'|] eqn:Hu; cbn [unwrap fst snd]; [|by split; [exists ps|]].
  pose proof (edited_update _ _ _ _ _ _ He Hu). split; [by eexists|]. done.
Qed.

Lemma edits_edit_item {A} ps t p (f : list byte -> outcome HiiError (list byte * A)) :
  find_item_path (root img0) t = Some p ->
  edits img0 ps (edit_item t f) (p :: ps) (fun _ => True).
Proof.
  intros Hp. unfold edit_item. eapply edits_bind; [apply edits_get|]. intros img He.
  rewrite (edited_path _ _ _ _ He), Hp. cbn [ok_or].
  eapply (edits_bind _ _ ps (fun a => a = p)); [apply edits_of; by intros ? [= <-]|]. intros ? ->.
  eapply edits_bind; [by apply (edits_of _ _ (fun _ => True))|]. intros _ _. apply edits_edit_body.
Qed.

Lemma edits_mark qs ps p : qs ⊆ p :: ps -> edits img0 qs (mark p) ps (fun _ => True).
Proof.
  intros Hs img He. apply (edited_weaken _ _ _ _ Hs), edited_mark in He.
  unfold mark, act_bind, get_image, set_root. cbn [fst snd]. split; [by exists ps|done].
Qed.

Lemma edits_fold {A S} ps (f : S -> A -> act S) (l : list A) s :
  (forall s a, edits img0 ps (f s a) ps (fun _ => True)) ->
  edits img0 ps (act_fold f l s) ps (fun _ => True).
Proof.
  intros Hf. revert s. induction l as [|a l IH]; intros s; [by apply edits_ret|]. cbn [act_fold].
  eapply edits_bind; [apply Hf|]. intros s' _. apply IH.
Qed.

(** An error leaves nothing behind; the edits of a success are kept. *)
Lemma edits_rollback {A} ps (m : act A) ps' Q :
  edits img0 ps m ps' Q -> edits img0 ps (with_rollback m) ps' Q.
Proof.
  intros Hm img He. destruct (Hm img He) as [[qs [H1 H2 H3 H4 H5 H6]] Ho]. unfold with_rollback.
  destruct (m img) as [img' [a|e| |]]; cbn [fst snd] in *; (split; [|done]).
  - by exists qs.
  - exists ps. destruct He. by constructor.
  - by exists qs.
  - by exists qs.
Qed.

End Rules.

(** The paths of [qs] but [p]. *)
Ltac without p qs :=
  match qs with
  | p :: ?qs => without p qs
  | ?q :: ?qs => let r := without p qs in constr:(q :: r)
  | _ => qs
  end.

(** The steps that are common to the operations. *)
Ltac edits_step :=
  match goal with
  | |- edits _ _ (act_bind (act_of _) _) _ _ => apply edits_bind_of; let a := fresh "a" in let H := fresh "Ha" in intros a H
  | |- edits _ _ (act_bind get_image _) _ _ =>
      apply edits_bind_get; let i := fresh "img" in let H := fresh "He" in intros i H
  | |- edits _ _ (act_bind (edit_body _ _) _) _ _ => eapply edits_then; [apply edits_edit_body|intros ?]
  | |- edits _ ?qs (act_bind (mark ?p) _) _ _ =>
      let r := without p qs in apply (edits_then _ _ _ r); [apply edits_mark; set_solver|intros ?]
  | |- edits _ ?qs (mark ?p) _ _ => let r := without p qs in apply (edits_mark _ _ r); set_solver
  | |- edits _ _ (act_bind (act_ret _) _) _ _ => eapply edits_then; [apply edits_ret; exact I|intros ?]
  | |- edits _ _ (act_bind (act_bind _ _) _) _ _ => eapply edits_then; [|intros ?]
  | |- edits _ _ (act_bind (match ?x with _ => _ end) _) _ _ => destruct x eqn:?
  | |- edits _ _ (act_err _) _ _ => apply edits_err
  | |- edits _ _ (act_of (Err _)) _ _ => apply edits_of; done
  | |- edits _ _ (act_ret _) _ _ => apply edits_ret; exact I
  | |- edits _ _ (if ?b then _ else _) _ _ => destruct b eqn:?
  | |- edits _ _ (let '(_, _) := ?x in _) _ _ => destruct x
  | |- edits _ _ (match ?x with _ => _ end) _ _ => destruct x eqn:?
  end.

Lemma rollback_atomic {A} (m : act A) img qs e :
  edited qs img (fst (m img)) -> snd (with_rollback m img) = Err e -> fst (with_rollback m img) = img.
Proof.
  intros [Hi Hs Hm _ _ _]. unfold with_rollback. destruct (m img) as [img' [a|e'| |]]; try done. intros _.
  cbn [fst snd] in *. destruct img, img'. cbn in *. by subst.
Qed.

(** ** Strings *)

Lemma edits_add_strings img0 ps g strings : edits img0 ps (add_strings g strings) ps (fun _ => True).
Proof. unfold add_strings. repeat edits_step. Qed.

Lemma edits_add_target_strings img0 ps t p bare strings :
  find_item_path (root img0) t = Some p ->
  edits img0 ps (add_target_strings t p bare strings) (p :: ps) (fun _ => True).
Proof.
  intros Hp. unfold add_target_strings. destruct bare; [|by apply edits_edit_item].
  edits_step. eapply edits_mono; [apply edits_add_strings|set_solver|done].
Qed.

Lemma edits_patch_ami img0 ps g ids qs a b : edits img0 ps (patch_ami g ids qs a b) ps (fun _ => True).
Proof. unfold patch_ami. repeat edits_step. Qed.

(** ** Operations on a target *)

Lemma writable_target ps img0 img t p :
  edited ps img0 img -> resolve_writable_path img t = Ok p -> find_item_path (root img0) t = Some p.
Proof.
  intros He. rewrite <-(edited_path _ _ _ t He). unfold resolve_writable_path.
  destruct (find_item_path (root img) t) as [q|]; cbn [ok_or mbind outcome_bind]; [|done].
  case_bool_decide; cbn [negb]; [|done]. destruct (usub _ _); cbn [mbind outcome_bind]; try done.
  destruct (check_ancestors _ _); cbn [mbind outcome_bind]; try done. by intros [= ->].
Qed.

Lemma edits_splice img0 ps qt p pos ops :
  find_item_path (root img0) (qt_target qt) = Some p ->
  edits img0 ps (splice_into_target qt pos ops) (p :: ps) (fun _ => True).
Proof. intros Hp. by apply edits_edit_item. Qed.

Ltac target_step :=
  first
    [ edits_step
    | eapply edits_then; [apply edits_add_target_strings; by eapply writable_target|intros ?]
    | eapply edits_then; [apply edits_splice; by eapply writable_target|intros ?]
    | eapply edits_then; [apply edits_edit_item; by eapply writable_target|intros ?] ].

Lemma edits_add_question img0 item schema : edits img0 [] (add_question item schema) [] (fun _ => True).
Proof. unfold add_question. repeat target_step. Qed.

Lemma edits_add_ref img0 item schema : edits img0 [] (add_ref item schema) [] (fun _ => True).
Proof. unfold add_ref. repeat target_step. Qed.

Lemma edits_add_page img0 item schema : edits img0 [] (add_page item schema) [] (fun _ => True).
Proof. unfold add_page. repeat target_step. Qed.

Lemma edits_add_varstores img0 ps item stores : edits img0 ps (add_varstores item stores) ps (fun _ => True).
Proof. unfold add_varstores. repeat target_step. Qed.

Lemma looked_up ps img0 img t p :
  edited ps img0 img -> ok_or HE_NotFound (find_item_path (root img) t) = Ok p ->
  find_item_path (root img0) t = Some p.
Proof. intros He. rewrite (edited_path _ _ _ _ He). destruct (find_item_path (root img0) t); [|done]. by intros [= ->]. Qed.

Ltac looked_up_step :=
  first
    [ target_step
    | eapply edits_then; [apply edits_add_target_strings; by eapply looked_up|intros ?]
    | eapply edits_then; [apply edits_edit_item; by eapply looked_up|intros ?] ].

Lemma edits_add_form ge img0 item schema : edits img0 [] (add_form ge item schema) [] (fun _ => True).
Proof. unfold add_form. repeat looked_up_step. Qed.

Lemma edits_apply_hijack img0 ps p r form hijack ids :
  p ∈ ps -> edits img0 ps (apply_hijack_ifr p r form hijack ids) ps (fun _ => True).
Proof.
  intros Hp. unfold apply_hijack_ifr. repeat edits_step. apply edits_fold. intros s q.
  eapply edits_mono; [apply edits_edit_body|set_solver|done].
Qed.

Lemma edits_edit_package img0 ps t p form hijack ids flips :
  find_item_path (root img0) t = Some p -> p ∈ ps ->
  edits img0 ps (edit_package t form hijack ids flips) ps (fun _ => True).
Proof.
  intros Hp Hin. unfold edit_package. do 2 edits_step.
  assert (a = p) as -> by (pose proof (looked_up _ _ _ _ _ He Ha); congruence).
  do 2 edits_step. eapply edits_then; [by apply edits_apply_hijack|intros _].
  eapply edits_mono; [apply edits_edit_body|set_solver|done].
Qed.

Lemma edits_repoint_help img0 ps sd hijack ids s e :
  sd ∈ ps -> edits img0 ps (repoint_help sd hijack ids s e) ps (fun _ => True).
Proof.
  intros Hin. destruct e as [[[? ?] ?] [[? ?] ?]]. unfold repoint_help. do 2 edits_step.
  eapply edits_then; [|intros ?; edits_step].
  eapply edits_mono; [apply edits_edit_body|set_solver|done].
Qed.

Lemma edits_hijack_form dbg img0 item hijack g : edits img0 [] (hijack_form dbg item hijack g) [] (fun _ => True).
Proof.
  unfold hijack_form.
  repeat first
    [ looked_up_step
    | eapply edits_then; [eapply edits_edit_package; [by eapply looked_up|set_solver]|intros ?] ].
  apply (edits_then _ _ _ [a8]); [|intros done_; repeat edits_step].
  apply (edits_weaken _ _ [a8]); [set_solver|]. apply edits_fold. intros s e.
  apply edits_repoint_help. by left.
Qed.
Lemma edits_add_formset_package ge img0 schema g strings a b p :
  edits img0 [] (add_formset_package ge schema g strings a b p) [] (fun _ => True).
Proof.
  unfold add_formset_package. do 6 edits_step. edits_step; [|edits_step].
  eapply edits_then; [apply edits_patch_ami|intros _]. repeat edits_step.
Qed.

Lemma edits_add_questions img0 t schema :
  edits img0 [] (_ ⇐ (if bool_decide (length (qal_varstores schema) = 0%nat) then act_ret []
                      else add_varstores t (qal_varstores schema));
     outcomes ⇐ act_fold (fun out q => r ⇐ add_question t q; act_ret (out ++ [Server.question_outcome r]))
                  (qal_questions schema) [];
     ref_outcomes ⇐ act_fold (fun out rf => r ⇐ add_ref t rf; act_ret (out ++ [Server.ref_outcome r]))
                      (qal_refs schema) [];
     act_ret (outcomes, ref_outcomes)) [] (fun _ => True).
Proof.
  eapply edits_then; [case_bool_decide; [by apply edits_ret|apply edits_add_varstores]|intros _].
  eapply edits_then; [apply edits_fold; intros s q|intros outs].
  { eapply edits_then; [apply edits_add_question|intros r; edits_step]. }
  eapply edits_then; [apply edits_fold; intros s q|intros refs; edits_step].
  eapply edits_then; [apply edits_add_ref|intros r; edits_step].
Qed.

(** ** Form sets *)

(** The tree of [img'] is that of [img1] with a file inserted into one of its volumes. *)
Definition inserted_into (img1 img' : Image) : Prop :=
  exists vi bytes, insert (root img1) (TG_Path [vi]) bytes Into = Ok (root img') /\ img' = with_root (root img') img1.

(** Every edit of the operation is marked when it succeeds; when it fails, the tree has
    the same nodes, and its edits may wait for marks. *)
Definition marks_edits {A} (m : act A) : Prop :=
  forall img, match m img with
              | (img', Ok _) => edited [] img img'
              | (img', _) => exists qs, edited qs img img'
              end.
(** The same when a file is inserted at the end. *)
Definition marks_edits_insert {A} (m : act A) : Prop :=
  forall img, match m img with
              | (img', Ok _) =>
                  edited [] img img' \/ exists img1, edited [] img img1 /\ inserted_into img1 img'
              | (img', _) => exists qs, edited qs img img'
              end.
(** Nothing is left of a failure. *)
Definition atomic_edits {A} (m : act A) : Prop :=
  forall img, match m img with
              | (img', Ok _) => edited [] img img'
              | (img', Err _) => img' = img
              | (img', _) => exists qs, edited qs img img'
              end.

Lemma edits_marks {A} (m : act A) : (forall img, edits img [] m [] (fun _ => True)) -> marks_edits m.
Proof.
  intros H img. destruct (H img img (edited_refl img)) as [Hx Ho]. destruct (m img) as [img' [a| | |]]; try done.
  by apply (Ho a).
Qed.

Lemma edits_atomic {A} (m : act A) :
  (forall img, edits img [] m [] (fun _ => True)) -> atomic_edits (with_rollback m).
Proof.
  intros H img. pose proof (edits_rollback img _ _ _ _ (H img) img (edited_refl img)) as [Hx Ho].
  destruct (H img img (edited_refl img)) as [[qs Hq] _]. pose proof (rollback_atomic m img qs) as Ha.
  destruct (with_rollback m img) as [img' [a|e| |]]; try done.
  - by apply (Ho a).
  - by apply (Ha e).
Qed.

(** What the operations on a form set end with. *)
Definition or_inserted (img0 img' : Image) : Prop :=
  edited [] img0 img' \/ exists img1, edited [] img0 img1 /\ inserted_into img1 img'.
Definition edits_insert {A} (img0 : Image) (ps : list (list Z)) (m : act A) : Prop :=
  forall img, edited ps img0 img ->
    match m img with
    | (img', Ok _) => or_inserted img0 img'
    | (img', _) => exists qs, edited qs img0 img'
    end.

Lemma insert_of_edits {A} img0 ps (m : act A) Q : edits img0 ps m [] Q -> edits_insert img0 ps m.
Proof.
  intros H img He. destruct (H img He) as [Hx Ho]. destruct (m img) as [img' [a| | |]]; try done.
  left. by apply (Ho a).
Qed.

Lemma insert_then {A B} img0 ps (m : act A) qs P (k : A -> act B) :
  edits img0 ps m qs P -> (forall a, P a -> edits_insert img0 qs (k a)) -> edits_insert img0 ps (act_bind m k).
Proof.
  intros Hm Hk img He. destruct (Hm img He) as [Hx Ho]. unfold act_bind.
  destruct (m img) as [img' [a| | |]]; try done. destruct (Ho a eq_refl) as [He' HP]. exact (Hk a HP img' He').
Qed.

Lemma insert_bind_get {B} img0 ps (k : Image -> act B) :
  (forall img, edits_insert img0 ps (k img)) -> edits_insert img0 ps (act_bind get_image k).
Proof. intros H img He. exact (H img img He). Qed.

Lemma insert_bind_of {A B} img0 ps (m : outcome HiiError A) (k : A -> act B) :
  (forall a, m = Ok a -> edits_insert img0 ps (k a)) -> edits_insert img0 ps (act_bind (act_of m) k).
Proof. intros H. eapply insert_then; [by apply (edits_of _ _ _ (fun a => m = Ok a))|done]. Qed.

(** The last steps: the file is inserted into the image as it is then. *)
Lemma insert_last {A} img0 vi bytes (a : A) :
  edits_insert img0 []
    (image ⇐ get_image;
     r ⇐ act_of (map_err (fun e => HE_FfsAssemblyError (ops_error_text e))
                   (insert (root image) (TG_Path [vi]) bytes Into));
     _ ⇐ set_root r;
     act_ret a).
Proof.
  intros img He. unfold act_bind, get_image, act_of, set_root, act_ret.
  destruct (insert (root img) (TG_Path [vi]) bytes Into) as [r| | |] eqn:Hi; cbn [map_err]; try (by exists []).
  right. exists img. split; [done|]. exists vi, bytes. by rewrite Hi.
Qed.

Ltac insert_step :=
  first [apply insert_bind_get; intros ? | apply insert_bind_of; intros ? _].

Lemma add_formset_file_edits ge img0 schema g gs strings a b p vi :
  edits_insert img0 [] (add_formset_file ge schema g gs strings a b p vi).
Proof.
  unfold add_formset_file. destruct (extract_form_ids_and_questions schema) as [ids qs].
  do 2 insert_step. eapply insert_then; [apply edits_add_strings|intros ids' _].
  do 5 insert_step. eapply insert_then; [apply edits_patch_ami|intros _ _].
  apply insert_last.
Qed.

Lemma add_setup_formset_edits ge img0 schema g : edits_insert img0 [] (add_setup_formset ge schema g).
Proof.
  unfold add_setup_formset. do 3 insert_step.
  assert (edits_insert img0 [] (
    pe_path ⇐ act_of (pe_resource_channel_path (root img) g);
    match pe_path with
    | None => act_err HE_StringPackageNotFound
    | Some pe_path => add_formset_package ge schema a (formset_strings schema)
        (fss_setupdata_guid schema ≫= guid_try_parse) (fss_amitse_guid schema ≫= guid_try_parse) pe_path
    end)) as Hpe.
  { insert_step. eapply insert_of_edits. case_match; [apply edits_add_formset_package|].
    by apply (edits_err _ _ _ [] (fun _ => True)). }
  cbv zeta. repeat case_match; try exact Hpe. apply add_formset_file_edits.
Qed.

Lemma atomic_bind_of {A B} (m : outcome HiiError A) (k : A -> act B) :
  (forall a, m = Ok a -> atomic_edits (k a)) -> atomic_edits (act_bind (act_of m) k).
Proof.
  intros H img. unfold act_bind, act_of. destruct m as [a| | |]; [by apply H|done|..]; exists []; apply edited_refl.
Qed.
Lemma atomic_bind_get {B} (k : Image -> act B) :
  (forall img, atomic_edits (k img)) -> atomic_edits (act_bind get_image k).
Proof. intros H img. apply (H img img). Qed.

(** ** Theorems *)

(** C14. The operations that add setup data to an image change only bodies and rebuild
    marks of its nodes (a form set may also insert one file). When one of them succeeds,
    every node whose body changed has an action, and so have all its ancestors, and no
    edit that was pending is cut off from the root: the builder writes all of it. When
    one fails, the tree still has the same nodes, in the same places. *)
Theorem setup_edits_marked ge dbg :
  (forall item schema, marks_edits (add_form ge item schema)) /\
  (forall item schema, marks_edits (add_question item schema)) /\
  (forall item schema, marks_edits (add_ref item schema)) /\
  (forall item schema, marks_edits (add_page item schema)) /\
  (forall item stores, marks_edits (add_varstores item stores)) /\
  (forall item hijack g, marks_edits (hijack_form dbg item hijack g)) /\
  (forall schema g, marks_edits_insert (add_setup_formset ge schema g)).
Proof.
  split_and!; intros; first [apply edits_marks; intros img | idtac].
  - apply edits_add_form.
  - apply edits_add_question.
  - apply edits_add_ref.
  - apply edits_add_page.
  - apply edits_add_varstores.
  - apply edits_hijack_form.
  - intros img. exact (add_setup_formset_edits ge img schema g img (edited_refl img)).
Qed.

(** C15. Adding a list of questions, references and variable stores, and removing a hide
    entry of the setup browser, are atomic: an error leaves the image as it was; on
    success all edits are marked up to the root. *)
Theorem setup_additions_atomic ge :
  (forall t schema, atomic_edits (Server.add_questions t schema)) /\
  (forall g fid off, atomic_edits (tse_unhide ge g fid off)).
Proof.
  split; intros.
  - unfold Server.add_questions. apply atomic_bind_get. intros img0. do 2 (apply atomic_bind_of; intros ? _).
    apply edits_atomic. intros img. apply edits_add_questions.
  - unfold tse_unhide. apply edits_atomic. intros img. repeat edits_step.
Qed.

End SetupFacts.
