(* ===== verification/TseFacts.v ===== *)
(** The tables of the setup browser: the scan finds exactly the series of entries, and
    the removal of an entry clears the 32 bytes of the only candidate. *)
From stdpp Require Import gmap.
From S2P Require Import Prelude Text Types Ffs Tiano Codec Parser Target Ops Nvar NvarStores.
From S2P Require Import Hii Values Ifr Gates StringPack Schema FormsetAdd Spf PeResource.
From S2P Require Import ImageStrings ImageGates ImageValues Channels Tse.
From S2P Require Import ParserFacts OpsFacts NvarStoresFacts ImageFacts SetupFacts.

Section TseFacts.
Context {GL : GuidLib} {RH : RefiHii} {OP : ObjectPe}.

(** ** Entries *)

Definition zero_record : list byte := replicate 32 x00.
Definition form_ok (f : Z) : Prop := 0 < f < 0x10000.
Definition record_at (pe : list byte) (a : Z) (rec : list byte) : Prop :=
  get_range pe a (a + STRIDE_ENTRY_SIZE) = Some rec.

(** The entries [es] from [off] on, and the zero entry behind them. *)
Fixpoint series (pe : list byte) (off : Z) (es : list StrideEntry) : Prop :=
  match es with
  | [] => record_at pe off zero_record
  | e :: es => record_at pe off (entry_bytes (te_guid e) (te_form_id e)) /\ form_ok (te_form_id e)
               /\ series pe (off + STRIDE_ENTRY_SIZE) es
  end.

Lemma blen_guid g : blen (guid_to_bytes g) = 16.
Proof. unfold blen. by rewrite length_guid_to_bytes. Qed.

Lemma blen_entry g f : blen (entry_bytes g f) = 32.
Proof. unfold entry_bytes. by rewrite !blen_app, blen_guid, blen_le_enc, blen_replicate. Qed.

Lemma entry_guid g f : sub (entry_bytes g f) 0 16 = guid_to_bytes g.
Proof. unfold entry_bytes. rewrite <-(blen_guid g). apply sub_app_exact. Qed.

Lemma entry_form g f : sub (entry_bytes g f) 16 24 = le_enc 8 f.
Proof.
  unfold entry_bytes. rewrite sub_app_r by (rewrite blen_guid; lia). rewrite blen_guid.
  change (16 - 16) with 0. change (24 - 16) with (blen (le_enc 8 f)). apply sub_app_exact.
Qed.

Lemma entry_tail g f : sub (entry_bytes g f) 24 32 = replicate 8 x00.
Proof.
  unfold entry_bytes. rewrite app_assoc, sub_app_r by (rewrite blen_app, blen_guid, blen_le_enc; lia).
  rewrite blen_app, blen_guid, blen_le_enc. apply (sub_full (replicate 8 x00)).
Qed.

Lemma record_parts (rec : list byte) : blen rec = 32 -> rec = sub rec 0 16 ++ sub rec 16 24 ++ sub rec 24 32.
Proof.
  intros H. rewrite !sub_join by lia. replace 32 with (blen rec) by done. by rewrite sub_full.
Qed.

Lemma le_dec_zero bs : le_dec bs = 0 -> bs = replicate (length bs) x00.
Proof.
  intros H. apply le_dec_inj; [by rewrite length_replicate|]. rewrite H. clear H.
  induction (length bs) as [|n IH]; [done|]. cbn [replicate le_dec]. by rewrite <-IH.
Qed.

Lemma record_entry (rec : list byte) :
  blen rec = 32 -> le_dec (sub rec 24 32) = 0 ->
  rec = entry_bytes (guid_of_array (sub rec 0 16)) (le_dec (sub rec 16 24)).
Proof.
  intros Hl Ht. rewrite (record_parts rec) at 1 by done. unfold entry_bytes.
  assert (forall a b, 0 <= a -> a <= b -> b <= 32 -> length (sub rec a b) = Z.to_nat (b - a)) as L.
  { intros a b ? ? ?. pose proof (blen_sub rec a b ltac:(lia) ltac:(lia) ltac:(lia)). unfold blen in *. lia. }
  f_equal; [by rewrite guid_to_of_bytes by (by apply L)|]. f_equal.
  - rewrite <-(le_enc_dec (sub rec 16 24)) at 1. by rewrite L by lia.
  - rewrite (le_dec_zero _ Ht). by rewrite L by lia.
Qed.

Lemma zero_record_iff (rec : list byte) : blen rec = 32 ->
  forallb (fun b => bool_decide (b = x00)) rec = true <-> rec = zero_record.
Proof.
  intros Hl. unfold zero_record. rewrite forallb_forall. split.
  - intros H. replace 32%nat with (length rec) by (unfold blen in Hl; lia).
    symmetry. apply replicate_as_elem_of. split; [done|]. intros b Hb. by eapply bool_decide_eq_true, H, list_elem_of_In.
  - intros -> b Hb. apply bool_decide_eq_true. apply list_elem_of_In in Hb.
    by apply elem_of_replicate in Hb as [-> _].
Qed.

Lemma entry_not_zero g f : form_ok f -> entry_bytes g f <> zero_record.
Proof.
  intros Hf H. apply (f_equal (fun r => le_dec (sub r 16 24))) in H. rewrite entry_form in H.
  rewrite le_dec_enc_small in H by (unfold form_ok in Hf; lia). unfold form_ok in Hf. vm_compute (le_dec (sub zero_record 16 24)) in H. lia.
Qed.

Lemma record_at_Some pe a rec :
  record_at pe a rec <-> (0 <= a /\ a + 32 <= blen pe) /\ rec = sub pe a (a + 32).
Proof. unfold record_at, STRIDE_ENTRY_SIZE. rewrite get_range_Some. naive_solver lia. Qed.

Lemma record_at_blen pe a rec : record_at pe a rec -> blen rec = 32.
Proof. intros [? ->]%record_at_Some. rewrite blen_sub; lia. Qed.

Lemma slice_record {E} (pe : list byte) p :
  0 <= p -> p + 32 <= blen pe -> slice (E := E) pe p (p + 32) = Ok (sub pe p (p + 32)).
Proof. intros. apply slice_Ok. split; [lia|done]. Qed.

(** ** The step of the scan on what it finds *)

Lemma step_end pe p acc : 0 <= p -> blen pe < p + 32 -> series_step pe (p, acc) = Ok (inr None).
Proof. intros. unfold series_step, STRIDE_ENTRY_SIZE. by destruct (Z.leb_spec (p + 32) (blen pe)); [lia|]. Qed.

Lemma step_zero pe p acc : record_at pe p zero_record -> series_step pe (p, acc) = Ok (inr (Some acc)).
Proof.
  intros [Hr Hz]%record_at_Some. unfold series_step, STRIDE_ENTRY_SIZE.
  destruct (Z.leb_spec (p + 32) (blen pe)); [|lia].
  rewrite slice_record by lia. cbn [mbind outcome_bind]. rewrite <-Hz. done.
Qed.

Lemma step_entry pe p acc g f :
  record_at pe p (entry_bytes g f) -> form_ok f ->
  series_step pe (p, acc) = Ok (inl (p + 32, acc ++ [{| te_guid := g; te_form_id := f |}])).
Proof.
  intros [Hr Hz]%record_at_Some Hf. unfold series_step, STRIDE_ENTRY_SIZE.
  destruct (Z.leb_spec (p + 32) (blen pe)); [|lia].
  rewrite slice_record by lia. cbn [mbind outcome_bind]. rewrite <-Hz.
  destruct (forallb _ _) eqn:Hall.
  { apply zero_record_iff in Hall; [|apply blen_entry]. by apply entry_not_zero in Hall. }
  rewrite entry_guid, entry_form, entry_tail, guid_of_to_bytes.
  unfold form_ok in Hf. rewrite le_dec_enc_small by lia.
  destruct (Z.eqb_spec f 0); [lia|]. destruct (Z.leb_spec 0x10000 f); [lia|]. done.
Qed.

(** Every other record refuses the series. *)
Lemma step_cases pe p acc : 0 <= p ->
  series_step pe (p, acc) = Ok (inr None) \/
  record_at pe p zero_record \/
  exists g f, record_at pe p (entry_bytes g f) /\ form_ok f.
Proof.
  intros Hp. destruct (decide (p + 32 <= blen pe)) as [Hr|]; [|left; apply step_end; lia].
  set (rec := sub pe p (p + 32)).
  assert (record_at pe p rec) as Hrec by (apply record_at_Some; split; [lia|done]).
  assert (blen rec = 32) as Hl by (by eapply record_at_blen).
  destruct (decide (rec = zero_record)) as [Hz|Hz]; [right; left; by rewrite <-Hz|].
  destruct (decide (le_dec (sub rec 24 32) = 0)) as [Ht|Ht].
  - pose proof (record_entry rec Hl Ht) as He.
    destruct (decide (form_ok (le_dec (sub rec 16 24)))) as [Hf|Hf].
    { right; right. do 2 eexists. split; [by rewrite <-He|done]. }
    left. unfold series_step, STRIDE_ENTRY_SIZE. destruct (Z.leb_spec (p + 32) (blen pe)); [|lia].
    rewrite slice_record by lia. cbn [mbind outcome_bind]. fold rec.
    destruct (forallb _ _) eqn:Hall; [by apply zero_record_iff in Hall|]. rewrite Ht.
    pose proof (le_dec_bounds (sub rec 16 24)). unfold form_ok in Hf.
    destruct (Z.eqb_spec (le_dec (sub rec 16 24)) 0); [done|].
    destruct (Z.leb_spec 0x10000 (le_dec (sub rec 16 24))); [done|lia].
  - left. unfold series_step, STRIDE_ENTRY_SIZE. destruct (Z.leb_spec (p + 32) (blen pe)); [|lia].
    rewrite slice_record by lia. cbn [mbind outcome_bind]. fold rec.
    destruct (forallb _ _) eqn:Hall; [by apply zero_record_iff in Hall|].
    by destruct (Z.eqb_spec (le_dec (sub rec 24 32)) 0).
Qed.

Lemma record_at_fun pe a r r' : record_at pe a r -> record_at pe a r' -> r = r'.
Proof. unfold record_at. congruence. Qed.

Lemma series_len pe off es : series pe off es -> 0 <= off /\ off + 32 * (blen es + 1) <= blen pe.
Proof.
  revert off. induction es as [|e es IH]; intros off; cbn [series].
  - intros [? _]%record_at_Some. change (blen (@nil StrideEntry)) with 0. lia.
  - intros ([Hr _]%record_at_Some & _ & Hs). apply IH in Hs. unfold STRIDE_ENTRY_SIZE in Hs. rewrite blen_cons. lia.
Qed.

Lemma loop_series pe es : forall off acc fuel,
  series pe off es -> (length es < fuel)%nat ->
  loop fuel (series_step pe) (off, acc) = Ok (Some (acc ++ es)).
Proof.
  induction es as [|e es IH]; intros off acc [|fuel] Hs Hf; try (cbn in Hf; lia); cbn [series] in Hs; cbn [loop].
  - rewrite (step_zero _ _ _ Hs). cbn. by rewrite app_nil_r.
  - destruct Hs as (He & Hfo & Hs). rewrite (step_entry _ _ _ _ _ He Hfo). cbn [mbind outcome_bind].
    rewrite (IH _ _ fuel Hs) by (cbn in Hf; lia). rewrite <-app_assoc. by destruct e.
Qed.

Lemma loop_no_series pe : forall fuel off acc, 0 <= off -> (Z.to_nat (blen pe - off) < fuel)%nat ->
  (forall es, ~ series pe off es) -> loop fuel (series_step pe) (off, acc) = Ok None.
Proof.
  induction fuel as [|fuel IH]; intros off acc Ho Hf Hn; [lia|]. cbn [loop].
  destruct (step_cases pe off acc Ho) as [->|[Hz|(g & f & He & Hfo)]]; [done| |].
  - by destruct (Hn []).
  - rewrite (step_entry _ _ _ _ _ He Hfo). cbn [mbind outcome_bind].
    assert (off + 32 <= blen pe) by (apply record_at_Some in He; lia).
    apply IH; [lia|lia|]. intros es Hs. apply (Hn ({| te_guid := g; te_form_id := f |} :: es)). done.
Qed.

Lemma series_dec pe : forall n off, 0 <= off -> (Z.to_nat (blen pe - off) <= n)%nat ->
  (exists es, series pe off es) \/ forall es, ~ series pe off es.
Proof.
  induction n as [n IH] using lt_wf_ind. intros off Ho Hn.
  destruct (step_cases pe off [] Ho) as [Hx|[Hz|(g & f & He & Hfo)]].
  - right. intros es Hs. destruct es as [|e es]; cbn [series] in Hs.
    + by rewrite (step_zero _ _ _ Hs) in Hx.
    + destruct Hs as (He & Hfo & _). by rewrite (step_entry _ _ _ _ _ He Hfo) in Hx.
  - left. by exists [].
  - assert (off + 32 <= blen pe) by (apply record_at_Some in He; lia).
    destruct (IH (Z.to_nat (blen pe - (off + 32))) ltac:(lia) (off + 32) ltac:(lia) ltac:(lia)) as [[es Hs]|Hns].
    + left. by exists ({| te_guid := g; te_form_id := f |} :: es).
    + right. intros [|e es] Hs; cbn [series] in Hs.
      * pose proof (record_at_fun _ _ _ _ He Hs) as E. by apply entry_not_zero in E.
      * by destruct (Hns es), Hs as (_ & _ & Hs).
Qed.

(** The scan of one series is total, and exact. *)
Lemma stride_series_exact pe off : 0 <= off ->
  exists r, stride_series_at pe off = Ok r /\ forall es, r = Some es <-> series pe off es.
Proof.
  intros Ho. unfold stride_series_at.
  destruct (series_dec pe (Z.to_nat (blen pe - off)) off Ho ltac:(lia)) as [[es Hs]|Hn].
  - assert (forall es', series pe off es' -> loop (length pe + 1) (series_step pe) (off, []) = Ok (Some es')) as Hl.
    { intros es' Hs'. apply (loop_series pe es' off []); [done|]. pose proof (series_len _ _ _ Hs'). unfold blen in *. lia. }
    exists (Some es). split; [by apply Hl|]. intros es'. split; [by intros [= <-]|].
    intros Hs'. pose proof (Hl _ Hs). pose proof (Hl _ Hs'). congruence.
  - exists None. split; [apply loop_no_series; [done|unfold blen; lia|done]|]. intros es. split; [done|]. intros Hs. by apply Hn in Hs.
Qed.

(** ** The scan of the image *)

Lemma elem_of_upto_n n i : i ∈ upto_n n <-> 0 <= i < n.
Proof.
  unfold upto_n. rewrite list_elem_of_fmap. split.
  - intros (k & -> & Hk%elem_of_seq). lia.
  - intros Hi. exists (Z.to_nat i). split; [lia|]. apply elem_of_seq. lia.
Qed.

(** The blocks of the image: a series of at least two known entries on a boundary. *)
Definition is_block (pe : list byte) (known : list Guid) (b : StrideBlock) : Prop :=
  (exists i, 0 <= i /\ sb_pe_offset b = STRIDE_ENTRY_SIZE * i) /\
  series pe (sb_pe_offset b) (sb_entries b) /\ 2 <= blen (sb_entries b) /\
  Forall (fun e => te_guid e ∈ known) (sb_entries b).

Lemma known_iff (known : list Guid) es :
  forallb (fun e => bool_decide (te_guid e ∈ known)) es = true <-> Forall (fun e => te_guid e ∈ known) es.
Proof.
  rewrite forallb_forall, Forall_forall. split; intros H e He.
  - by eapply bool_decide_eq_true, H, list_elem_of_In.
  - apply bool_decide_eq_true. by apply H, list_elem_of_In.
Qed.

Lemma scan_block_exact pe (known : list Guid) out off : 0 <= off ->
  exists bs, scan_block_at pe known out off = Ok (out ++ bs) /\
    forall b, b ∈ bs <-> sb_pe_offset b = off /\ series pe off (sb_entries b) /\ 2 <= blen (sb_entries b) /\
                         Forall (fun e => te_guid e ∈ known) (sb_entries b).
Proof.
  intros Ho. unfold scan_block_at. destruct (stride_series_exact pe off Ho) as (r & -> & Hr). cbn [mbind outcome_bind].
  destruct r as [es|].
  - pose proof (proj1 (Hr es) eq_refl) as Hs.
    assert (forall b, series pe off (sb_entries b) -> sb_entries b = es) as Hu.
    { intros b Hb. apply Hr in Hb. congruence. }
    destruct ((2 <=? blen es) && _) eqn:Hc.
    + apply andb_true_iff in Hc as [H2%Z.leb_le Hk%known_iff].
      exists [{| sb_pe_offset := off; sb_entries := es |}]. split; [done|]. intros b. rewrite list_elem_of_singleton.
      split; [by intros ->|]. intros (<- & Hb & _). rewrite <-(Hu _ Hb). by destruct b.
    + exists []. split; [by rewrite app_nil_r|]. intros b. split; [by intros ?%elem_of_nil|].
      intros (_ & Hb & H2 & Hk). rewrite (Hu _ Hb) in H2, Hk. apply Z.leb_le in H2. apply known_iff in Hk.
      by rewrite H2, Hk in Hc.
  - exists []. split; [by rewrite app_nil_r|]. intros b. split; [by intros ?%elem_of_nil|].
    intros (_ & Hb & _). by apply Hr in Hb.
Qed.

Lemma scan_fold_exact pe (known : list Guid) offs out :
  Forall (fun off => 0 <= off) offs ->
  exists bs, foldM (scan_block_at pe known) offs out = Ok (out ++ bs) /\
    forall b, b ∈ bs <-> sb_pe_offset b ∈ offs /\ series pe (sb_pe_offset b) (sb_entries b) /\
                         2 <= blen (sb_entries b) /\ Forall (fun e => te_guid e ∈ known) (sb_entries b).
Proof.
  intros Ho. revert out. induction Ho as [|off offs Hoff Ho IH]; intros out; cbn [foldM].
  - exists []. split; [by rewrite app_nil_r|]. intros b. rewrite !elem_of_nil. naive_solver.
  - destruct (scan_block_exact pe known out off Hoff) as (bs & -> & Hb). cbn [mbind outcome_bind].
    destruct (IH (out ++ bs)) as (bs' & -> & Hb'). exists (bs ++ bs'). split; [by rewrite app_assoc|].
    intros b. rewrite elem_of_app, Hb, Hb', elem_of_cons. naive_solver.
Qed.

Lemma scan_blocks pe (known : list Guid) :
  exists bs, scan_stride_blocks pe known = Ok bs /\ forall b, b ∈ bs <-> is_block pe known b.
Proof.
  unfold scan_stride_blocks, is_block.
  set (offs := (fun i => STRIDE_ENTRY_SIZE * i) <$> upto_n (blen pe / STRIDE_ENTRY_SIZE)).
  assert (forall off, off ∈ offs <-> exists i, 0 <= i < blen pe / STRIDE_ENTRY_SIZE /\ off = STRIDE_ENTRY_SIZE * i) as Hoffs.
  { intros off. unfold offs. rewrite list_elem_of_fmap. split.
    - intros (i & -> & Hi). exists i. split; [|done]. by apply elem_of_upto_n in Hi.
    - intros (i & Hi & ->). exists i. split; [done|]. by apply elem_of_upto_n. }
  destruct (scan_fold_exact pe known offs []) as (bs & -> & Hb).
  { apply Forall_forall. intros off (i & Hi & ->)%Hoffs. unfold STRIDE_ENTRY_SIZE. lia. }
  exists bs. split; [done|]. intros b. rewrite Hb, Hoffs. split; [naive_solver|].
  intros ((i & Hi & Heq) & Hs & H2 & Hk). split; [|done]. exists i. split; [|done]. split; [done|].
  apply series_len in Hs. rewrite Heq in Hs. unfold STRIDE_ENTRY_SIZE in *.
  pose proof (blen_nonneg (sb_entries b)). apply Z.lt_le_trans with (i + 1); [lia|]. apply Z.div_le_lower_bound; lia.
Qed.

(** ** Candidates *)

Lemma series_entry pe off es k e :
  series pe off es -> es !! k = Some e ->
  record_at pe (off + STRIDE_ENTRY_SIZE * Z.of_nat k) (entry_bytes (te_guid e) (te_form_id e)).
Proof.
  revert off k. induction es as [|x es IH]; intros off [|k] Hs Hk; [done..| |]; cbn [series] in Hs; cbn in Hk.
  - injection Hk as ->. destruct Hs as (He & _). by rewrite Z.mul_0_r, Z.add_0_r.
  - destruct Hs as (_ & _ & Hs). specialize (IH _ _ Hs Hk).
    by replace (off + STRIDE_ENTRY_SIZE * Z.of_nat (S k))
      with (off + STRIDE_ENTRY_SIZE + STRIDE_ENTRY_SIZE * Z.of_nat k) by (unfold STRIDE_ENTRY_SIZE; lia).
Qed.

Lemma position_Some {A} (p : A -> bool) l i j :
  Prelude.position p l i = Some j -> exists k x, l !! k = Some x /\ p x = true /\ j = i + Z.of_nat k.
Proof.
  revert i. induction l as [|a l IH]; intros i; [done|]. cbn [Prelude.position]. destruct (p a) eqn:Ha.
  - intros [= <-]. exists 0%nat, a. split_and!; [done..|lia].
  - intros (k & x & ? & ? & ->)%IH. exists (S k), x. split_and!; [done..|lia].
Qed.

Lemma position_None {A} (p : A -> bool) l i x : Prelude.position p l i = None -> x ∈ l -> p x = false.
Proof.
  revert i. induction l as [|a l IH]; intros i; [by intros _ ?%elem_of_nil|]. cbn [Prelude.position].
  destruct (p a) eqn:Ha; [done|]. intros H [->|Hx]%elem_of_cons; [done|by eapply IH].
Qed.

(** A block of root forms with the entry at place [k]. *)
Definition hides (roots : list (Guid * Z)) (known : list Guid) (pe : list byte) (g : Guid) (fid : Z)
  (b : StrideBlock) (k : nat) : Prop :=
  is_block pe known b /\ all_roots roots b = true /\
  sb_entries b !! k = Some {| te_guid := g; te_form_id := fid |}.

Lemma is_entry_iff g fid e : is_entry g fid e = true <-> e = {| te_guid := g; te_form_id := fid |}.
Proof.
  unfold is_entry. rewrite andb_true_iff, bool_decide_eq_true, Z.eqb_eq. destruct e. cbn. naive_solver.
Qed.

(** The candidates are the first entries in such blocks. *)
Lemma candidates_exact ge img pe g fid cands :
  candidates ge img pe g fid = Ok cands ->
  exists roots known, formset_roots img = Ok roots /\ known_formsets ge img = Ok known /\
    (forall c, c ∈ cands -> exists b k, hides roots known pe g fid b k /\
       c = (sb_pe_offset b, sb_pe_offset b + STRIDE_ENTRY_SIZE * Z.of_nat k)) /\
    (forall b k, hides roots known pe g fid b k -> exists ent, (sb_pe_offset b, ent) ∈ cands).
Proof.
  unfold candidates. destruct (formset_roots img) as [roots| | |]; try done. cbn [mbind outcome_bind].
  destruct (known_formsets ge img) as [known| | |]; try done. cbn [mbind outcome_bind].
  destruct (scan_blocks pe known) as (bs & -> & Hb). cbn [mbind outcome_bind].
  intros [= <-]. exists roots, known. split_and!; [done..| |].
  - intros c (b & Hin & Hc)%list_elem_of_omap. unfold candidate in Hc. destruct (all_roots roots b) eqn:Hr; [|done].
    destruct (Prelude.position _ _ _) as [j|] eqn:Hp; [|done]. cbn in Hc. injection Hc as <-.
    apply position_Some in Hp as (k & x & Hk & ->%is_entry_iff & ->). exists b, k.
    split; [split_and!; [by apply Hb|done..]|]. done.
  - intros b k (Hbl & Hr & Hk). apply Hb in Hbl. destruct (Prelude.position (is_entry g fid) (sb_entries b) 0) as [j|] eqn:Hp.
    + eexists. apply list_elem_of_omap. exists b. split; [done|]. unfold candidate. by rewrite Hr, Hp.
    + pose proof (position_None _ _ _ _ Hp (list_elem_of_lookup_2 _ _ _ Hk)) as Hf.
      by rewrite (proj2 (is_entry_iff _ _ _) eq_refl) in Hf.
Qed.

(** ** The removal of an entry *)

(** The entry found: it is there, and it is the only candidate unless it was named. *)
Definition found_entry ge (img : Image) (pe : list byte) (g : Guid) (fid : Z) (off : option Z) (at_ : Z * Z) : Prop :=
  match off with
  | Some o => at_ = (o, o)
  | None => exists roots known, formset_roots img = Ok roots /\ known_formsets ge img = Ok known /\
      (exists b k, hides roots known pe g fid b k /\
         at_ = (sb_pe_offset b, sb_pe_offset b + STRIDE_ENTRY_SIZE * Z.of_nat k)) /\
      (forall b k, hides roots known pe g fid b k -> sb_pe_offset b = fst at_)
  end.

Lemma entry_match_record pe off g fid :
  entry_bytes_match pe off g fid = true -> record_at pe off (entry_bytes g fid).
Proof.
  unfold entry_bytes_match, record_at. destruct (checked_add off STRIDE_ENTRY_SIZE) as [e|] eqn:He; cbn; [|done].
  assert (e = off + STRIDE_ENTRY_SIZE) as -> by (unfold checked_add in He; by case_match; simplify_eq).
  destruct (get_range pe off _) as [rec|] eqn:Hr; [|done]. cbn.
  intros [[Hg%bool_decide_eq_true Hf%bool_decide_eq_true]%andb_true_iff Ht%bool_decide_eq_true]%andb_true_iff.
  f_equal. rewrite (record_parts rec) by (by eapply record_at_blen). by rewrite Hg, Hf, Ht.
Qed.

Lemma find_entry_found ge img pe g fid off at_ :
  find_entry ge img pe g fid off = Ok at_ ->
  record_at pe (snd at_) (entry_bytes g fid) /\ found_entry ge img pe g fid off at_.
Proof.
  unfold find_entry, found_entry. destruct off as [o|].
  - destruct (entry_bytes_match pe o g fid) eqn:Hm; [|done]. intros [= <-]. split; [|done]. by apply entry_match_record.
  - intros (cands & Hc & H)%bind_Ok. rewrite lift_Ok in Hc.
    apply candidates_exact in Hc as (roots & known & Hr & Hk & Hin & Hall).
    destruct cands as [|c [|c' cs]]; [done| |done]. injection H as <-.
    destruct (Hin c) as (b & k & Hb & ->); [by left|]. split.
    + cbn [snd]. destruct Hb as ((_ & Hs & _) & _ & He). exact (series_entry _ _ _ _ _ Hs He).
    + exists roots, known. split_and!; [done..|by exists b, k|]. intros b' k' Hb'.
      destruct (Hall b' k' Hb') as [ent He]. apply list_elem_of_singleton in He. by injection He.
Qed.

Lemma clear_entry_record pe a rec :
  record_at pe a rec -> exists pre post, pe = pre ++ rec ++ post /\ blen pre = a /\
    clear_entry a pe = Ok (pre ++ zero_record ++ post, tt).
Proof.
  intros Hr. pose proof (record_at_blen _ _ _ Hr) as Hl. apply record_at_Some in Hr as [Ha ->].
  exists (sub pe 0 a), (sub pe (a + 32) (blen pe)). split_and!.
  - rewrite !sub_join by lia. by rewrite sub_full.
  - rewrite blen_sub; lia.
  - unfold clear_entry, copy_into, STRIDE_ENTRY_SIZE.
    assert (range_ok pe a (a + 32) && (a + 32 - a =? blen (replicate (Z.to_nat 32) x00)) = true) as ->.
    { unfold range_ok. rewrite blen_replicate, !andb_true_iff, !Z.leb_le, Z.eqb_eq. lia. }
    cbn [mbind outcome_bind]. do 2 f_equal. unfold splice, sub. f_equal; [by rewrite Z.sub_0_r, drop_0|].
    f_equal. rewrite length_replicate. symmetry.
    rewrite take_ge; [f_equal; lia|]. rewrite length_drop. unfold blen in *. lia.
Qed.

(** ** Theorems *)

(** C17. The scan of the image of the setup browser terminates without a panic on every
    input, and the blocks it reports are exactly the series of at least two entries of
    known form sets, on a boundary of 32 bytes, that end with a zero record. *)
Theorem scan_stride_blocks_exact pe (known : list Guid) :
  exists bs, scan_stride_blocks pe known = Ok bs /\ forall b, b ∈ bs <-> is_block pe known b.
Proof. apply scan_blocks. Qed.

(** C16. Removing the hide entry of a form clears exactly the 32 bytes of one entry of
    that form in the image of the setup browser: the only one in a block of root forms, or
    the one at the offset that was given. No other body changes, the path is marked, and
    in every other case the image stays as it was. *)
Theorem tse_unhide_clears ge g fid off img :
  match tse_unhide ge g fid off img with
  | (img', Ok u) =>
      exists path file n pre post,
        amitse_pe ge img = Ok (path, file) /\ node_at_path (root img) path = Some n /\
        body n = pre ++ entry_bytes g fid ++ post /\ blen pre = uh_entry_pe_offset u /\
        found_entry ge img (body n) g fid off (uh_pe_offset u, uh_entry_pe_offset u) /\
        (forall q, body_at (root img') q =
           if bool_decide (q = path) then Some (pre ++ zero_record ++ post) else body_at (root img) q) /\
        marked (root img') path = true
  | (img', _) => img' = img
  end.
Proof.
  unfold tse_unhide, with_rollback, act_bind, get_image, act_of, mark, set_root, act_ret, act_err.
  assert (with_root (root img) img = img) as Hid by (by destruct img).
  destruct (amitse_pe ge img) as [[path file]| | |] eqn:Hpf; cbn [fst snd]; try done.
  case_bool_decide; cbn [negb]; [|done].
  unfold node_at. destruct (node_at_path (root img) path) as [n|] eqn:Hn; cbn [unwrap]; [|done].
  destruct (find_entry ge img (body n) g fid off) as [at_|e| |] eqn:Hf; try done.
  apply find_entry_found in Hf as [Hr Hfound].
  unfold edit_body, act_bind, get_image, act_of, set_root, act_ret, node_at. rewrite Hn. cbn [unwrap].
  destruct (clear_entry_record _ _ _ Hr) as (pre & post & Hb & Hl & ->). cbn [fst snd].
  destruct (update_at_valid (root img) path n (set_body (pre ++ zero_record ++ post)) Hn) as [r Hu]. rewrite Hu.
  cbn [unwrap fst snd root with_root uh_pe_offset uh_entry_pe_offset].
  exists path, file, n, pre, post. split_and!; [done..|by destruct at_| |].
  - intros q. rewrite (body_at_bodies _ _ _ _ (mark_bodies r path)), option_fmap_id.
    rewrite (body_at_bodies _ _ _ _ (update_bodies _ _ _ _ Hu)). case_bool_decide as Hq; [|by destruct (body_at _ _)].
    subst q. unfold body_at. by rewrite Hn.
  - apply mark_marked. destruct (bodies_at _ _ _ _ _ (update_bodies _ _ _ _ Hu) Hn) as (n' & Hn' & _). by eexists.
Qed.

(** In a block of three or more root forms only the first entry can be removed
    without naming its offset: for every other one the entries behind the first are a block
    too, so that the request is refused as ambiguous. *)
Theorem hide_tail_ambiguous ge img pe g fid roots known b k :
  formset_roots img = Ok roots -> known_formsets ge img = Ok known ->
  hides roots known pe g fid b (S k) -> 3 <= blen (sb_entries b) ->
  exists cands, find_entry ge img pe g fid None = Err (ambiguous cands) /\ 2 <= blen cands.
Proof.
  intros Hr Hk (Hb & Hroots & He) H3. pose proof Hb as ((i & Hi & Hoff) & Hs & _ & Hkn).
  destruct b as [off [|e es]]; [done|]. cbn [sb_pe_offset sb_entries] in *.
  cbn [series] in Hs. destruct Hs as (_ & _ & Hs). rewrite blen_cons in H3. apply Forall_cons_1 in Hkn as [_ Hkn].
  assert (hides roots known pe g fid {| sb_pe_offset := off + STRIDE_ENTRY_SIZE; sb_entries := es |} k) as Htail.
  { split_and!; [|by apply andb_true_iff in Hroots as [_ ?]|done]. split_and!; cbn; [|done|lia|done].
    exists (i + 1). unfold STRIDE_ENTRY_SIZE in *. lia. }
  assert (exists cands, candidates ge img pe g fid = Ok cands) as [cands Hc].
  { unfold candidates. rewrite Hr, Hk. cbn [mbind outcome_bind].
    destruct (scan_blocks pe known) as (bs & -> & _). by eexists. }
  pose proof (candidates_exact _ _ _ _ _ _ Hc) as (roots' & known' & Hr' & Hk' & _ & Hall).
  assert (roots' = roots) as -> by congruence. assert (known' = known) as -> by congruence.
  destruct (Hall _ _ Htail) as [ent1 H1].
  destruct (Hall {| sb_pe_offset := off; sb_entries := e :: es |} (S k)) as [ent2 H2]; [done|].
  cbn [sb_pe_offset] in *. unfold find_entry. rewrite Hc. cbn [lift map_err mbind outcome_bind].
  destruct cands as [|c [|c' cs]]; [by apply elem_of_nil in H1| |].
  - apply list_elem_of_singleton in H1, H2. rewrite <-H1 in H2. injection H2. unfold STRIDE_ENTRY_SIZE. lia.
  - exists (c :: c' :: cs). split; [done|]. rewrite !blen_cons. pose proof (blen_nonneg cs). lia.
Qed.

End TseFacts.
