(* ===== verification/EditBuild.v ===== *)
(** Building an edited image: an edit below a firmware volume changes no byte of
    the image outside that volume, and never its size. *)
From S2P Require Import Prelude Types Ffs Tiano Codec Parser ImageParser Target Ops.
From S2P Require Import Builder ParserFacts RoundTrip OpsFacts.

Section EditBuild.
Context {GL : GuidLib} {LL : LzmaLib}.

(** ** The size of a rebuilt volume *)

(** A volume that is not removed is written in exactly its own size, or the
    builder reports [SizeMismatch] or an error below it. *)
Lemma build_volume_length rec n out r :
  build_volume rec n out = Ok r -> action n <> A_Remove ->
  blen r = blen out + blen (raw n).
Proof.
  unfold build_volume, raw. intros H Ha. rewrite bool_decide_eq_false_2 in H by done.
  destruct (bool_decide (action n = NoAction)).
  - ok_inv. by rewrite !blen_app.
  - apply bind_Ok in H as (o & _ & H). ok_inv. bool_to_prop. rewrite !blen_app, blen_pad_to. lia.
Qed.

(** ** Frames *)

(** [c'] occupies the same place of the image as [c]. *)
Record frame (c c' : FfsNode) : Prop := {
  fr_type : node_type c' = node_type c;
  fr_offset : offset c' = offset c;
  fr_header : header c' = header c;
  fr_body : body c' = body c;
  fr_tail : tail c' = tail c;
  fr_action : action c <> A_Remove -> action c' <> A_Remove
}.

Lemma frame_refl c : frame c c.
Proof. by constructor. Qed.

Lemma frame_trans a b c : frame a b -> frame b c -> frame a c.
Proof. intros [] []. constructor; try congruence. auto. Qed.

Lemma frames_refl cs : Forall2 frame cs cs.
Proof. induction cs; constructor; auto using frame_refl. Qed.

Lemma frame_raw c c' : frame c c' -> raw c' = raw c.
Proof. intros []. unfold raw. congruence. Qed.

Lemma frame_set_children c n : frame n (set_children c n).
Proof. constructor; by autorewrite with setters. Qed.

Lemma frame_touch n : frame n (touch n).
Proof.
  unfold touch. case_bool_decide; [|apply frame_refl].
  constructor; by autorewrite with setters.
Qed.

Lemma frame_mark n p : frame n (mark_rebuild_to_root_by_path n p).
Proof.
  destruct p as [|i p]; [apply frame_touch|]. rewrite mark_cons.
  destruct (child_at n i); [|apply frame_touch].
  eapply frame_trans; [apply frame_touch|apply frame_set_children].
Qed.

Lemma frame_update_at n p f n' :
  update_at n p f = Some n' -> (p = [] -> frame n (f n)) -> frame n n'.
Proof.
  destruct p as [|i p]; simpl; [intros [= <-]; auto|]. intros H _.
  destruct (child_at n i) as [c|]; simpl in H; [|done].
  destruct (update_at c p f); simplify_eq/=. apply frame_set_children.
Qed.

(** An edit of something below a child of the root. *)
Definition below_top (r : FfsNode) (e : edit) : Prop :=
  match e with
  | E_Insert (TG_Path p) _ m => (match m with Into => 1 | _ => 2 end <= length p)%nat
  | E_Insert _ _ _ => True
  | E_Remove t | E_Replace t _ _ | E_Rebuild t =>
      forall p, find_item_path r t = Some p -> (2 <= length p)%nat
  end.

Definition same_top (r r' : FfsNode) : Prop :=
  node_type r' = node_type r /\ Forall2 frame (children r) (children r').

(** An update below a child, followed by the marking of the path. *)
Lemma same_top_update r i p f rest r1 :
  update_at r (i :: p) f = Some r1 -> (p = [] -> forall n, frame n (f n)) ->
  same_top r (mark_rebuild_to_root_by_path r1 (i :: p ++ rest)).
Proof.
  intros Hu Hf. simpl in Hu. destruct (child_at r i) as [c|] eqn:Hc; simpl in Hu; [|done].
  destruct (update_at c p f) as [c'|] eqn:Huc; simplify_eq/=.
  apply frame_update_at in Huc; [|auto].
  set (r1 := set_children (<[Z.to_nat i := c']> (children r)) r).
  assert (child_at r1 i = Some c') as Hc'
    by (unfold r1; rewrite (child_at_insert r i c), Z.eqb_refl by done; done).
  split.
  - change (node_type (mark_rebuild_to_root_by_path r1 (i :: p ++ rest)) = node_type r).
    destruct (frame_mark r1 (i :: p ++ rest)) as [-> _ _ _ _ _].
    unfold r1. by autorewrite with setters.
  - change (Forall2 frame (children r)
      (children (mark_rebuild_to_root_by_path r1 (i :: p ++ rest)))).
    rewrite mark_cons, Hc', children_set_children. unfold r1 at 1.
    rewrite children_set_children, list_insert_insert_eq.
    apply get_Some in Hc as [_ Hc].
    rewrite <-(list_insert_id (children r) (Z.to_nat i) c Hc) at 1.
    apply Forall2_insert; [apply frames_refl|].
    eapply frame_trans; [done|apply frame_mark].
Qed.

Lemma apply_edit_same_top r e r' :
  below_top r e -> apply_edit r e = Ok r' -> same_top r r'.
Proof.
  intros Hb H%apply_edit_shape.
  destruct H as [|p rest data m g r1 Hm _ Hu _|e t p f r1 Ht Hp _ Hu _].
  - split; [done|]. apply frames_refl.
  - simpl in Hb. destruct p as [|i p].
    + destruct Hm as [[-> ->]|[Hm [i ->]]]; simpl in Hb; [lia|destruct m; done || lia].
    + eapply same_top_update; [done|]. intros _ n. apply frame_set_children.
  - assert (2 <= length p)%nat as Hl by (destruct e; simplify_eq/=; auto).
    destruct p as [|i [|j p]]; simpl in Hl; [lia|lia|].
    rewrite <-(app_nil_r (j :: p)). by eapply same_top_update.
Qed.

(** ** Placing the pieces *)

Definition in_piece (j : Z) (ob : Z * list byte) : Prop :=
  fst ob <= j < fst ob + blen (snd ob).

Lemma place_all_Ok ch s s' :
  foldM (place_step build_node) ch s = Ok s' ->
  exists ps, fst s' = fst s ++ ps /\
    snd s' = foldl (fun t ob => Z.max t (fst ob + blen (snd ob))) (snd s) ps /\
    Forall2 (fun n ob => fst ob = offset n /\ build_node n [] = Ok (snd ob)) ch ps.
Proof.
  revert s. induction ch as [|n ch IH]; intros [pl t] H; simpl in H.
  - injection H as <-. exists []. by rewrite app_nil_r.
  - apply bind_Ok in H as (s1 & H1 & H). apply bind_Ok in H1 as (b & Hb & H1).
    injection H1 as <-. destruct (IH _ H) as (ps & Hps & Ht & Hf). simpl in *.
    exists ((offset n, b) :: ps). rewrite <-app_assoc in Hps. split_and!; [done|done|].
    by constructor.
Qed.

(** Copying the pieces in order: a byte every piece agrees on ends up as [x]. *)
Lemma copy_agree j (x : option byte) ps out :
  Forall (fun ob => 0 <= fst ob /\ fst ob + blen (snd ob) <= blen out) ps ->
  Forall (fun ob => in_piece j ob -> get (snd ob) (j - fst ob) = x) ps ->
  exists out', foldM copy_step ps out = Ok out' /\ blen out' = blen out /\
    (get out j = x \/ Exists (in_piece j) ps -> get out' j = x).
Proof.
  revert out. induction ps as [|ob ps IH]; intros out Hb Ha; simpl.
  - exists out. split_and!; auto. by intros [?|?%Exists_nil].
  - apply Forall_cons in Hb as [[Ho Hl] Hb]. apply Forall_cons in Ha as [Hx Ha].
    assert (copy_step out ob = Ok (splice out (fst ob) (snd ob))) as ->.
    { apply copy_into_Ok. pose proof (blen_nonneg (snd ob)). split_and!; lia || done. }
    simpl. assert (blen (splice out (fst ob) (snd ob)) = blen out) as Hlen
      by (apply blen_splice; lia).
    destruct (IH (splice out (fst ob) (snd ob))) as (out' & Hf & Hl' & Hj); [|done|].
    { eapply Forall_impl; [exact Hb|]. simpl. intros. lia. }
    exists out'. split_and!; [done|lia|]. intros H. apply Hj.
    rewrite get_splice by lia. destruct (_ && _) eqn:Hin.
    + left. apply Hx. unfold in_piece. lia.
    + destruct H as [?|H]; [by left|]. apply Exists_cons in H as [Hi|?]; [|by right].
      unfold in_piece in Hi. lia.
Qed.

(** What a top-level child contributes after edits below it. *)
Lemma build_frame buf c c' b :
  placed buf c -> frame c c' -> build_node c' [] = Ok b ->
  blen b = blen (raw c) /\ (c' = c \/ node_type c <> T_Volume -> b = raw c).
Proof.
  intros [Htop Hv] Hf Hb.
  assert (c' = c -> b = raw c) as Hsame.
  { intros ->. rewrite build_node_top in Hb by done. by injection Hb as <-. }
  rewrite build_node_eq in Hb. destruct Htop as [Ha Ht]. pose proof (frame_raw _ _ Hf) as Hraw.
  destruct Hf as [Hty Hof Hh Hbd Htl Hact].
  rewrite Hty in Hb. destruct Ht as [Ht|[Ht [Hhd Htail]]].
  - rewrite Ht in Hb. apply build_volume_length in Hb; [|apply Hact; congruence].
    rewrite blen_nil, Hraw in Hb. split; [lia|]. intros [|]; auto; congruence.
  - assert (b = raw c) as ->; [|auto].
    unfold raw. rewrite Hhd, Htail, <-Hbd, app_nil_r.
    destruct Ht as [Ht|Ht]; rewrite Ht in Hb; by injection Hb as <-.
Qed.

Lemma total_pieces ch (ps : list (Z * list byte)) t :
  Forall2 (fun n ob => fst ob = offset n /\ blen (snd ob) = blen (raw n)) ch ps ->
  foldl (fun t ob => Z.max t (fst ob + blen (snd ob))) t ps = total_of t ch.
Proof.
  intros H. revert t. induction H as [|n ob ch ps [Ho Hl] _ IH]; intros t; [done|].
  simpl. rewrite IH. unfold total_of. simpl. by rewrite Ho, Hl.
Qed.

Definition sized (c : FfsNode) (ob : Z * list byte) : Prop :=
  fst ob = offset c /\ blen (snd ob) = blen (raw c).

Section Framed.
(** The children of the parsed root cover the image; [ch'] are the edited ones
    and [ps] what they are built to. *)
Context (buf : list byte) (ch ch' : list FfsNode) (ps : list (Z * list byte)).
Hypothesis cover : covers buf ch (blen buf).
Hypothesis framed : Forall2 frame ch ch'.
Hypothesis built :
  Forall2 (fun n ob => fst ob = offset n /\ build_node n [] = Ok (snd ob)) ch' ps.

Lemma framed_piece k ob :
  ps !! k = Some ob ->
  exists c c', ch !! k = Some c /\ ch' !! k = Some c' /\ placed buf c /\ sized c ob /\
    (c' = c \/ node_type c <> T_Volume -> snd ob = raw c).
Proof.
  intros Hob. destruct (Forall2_lookup_r _ _ _ _ _ built Hob) as (c' & Hk' & Ho & Hbd).
  destruct (Forall2_lookup_r _ _ _ _ _ framed Hk') as (c & Hk & Hf).
  destruct cover as (Hplaced & _). rewrite Forall_lookup in Hplaced.
  destruct (build_frame buf c c' (snd ob) (Hplaced _ _ Hk) Hf Hbd) as [Hl Hs].
  exists c, c'. split_and!; eauto. split; [|done]. rewrite Ho. apply Hf.
Qed.

Lemma framed_sized : Forall2 sized ch ps.
Proof.
  apply Forall2_same_length_lookup_2.
  - rewrite (Forall2_length _ _ _ framed). by eapply Forall2_length.
  - intros k c ob Hk Hob. destruct (framed_piece k ob Hob) as (c1 & c' & Hk1 & _ & _ & Hs & _).
    by assert (c1 = c) as -> by congruence.
Qed.

Lemma framed_bounds :
  Forall (fun ob => 0 <= fst ob /\ fst ob + blen (snd ob) <= blen buf) ps.
Proof.
  rewrite Forall_lookup. intros k ob Hob.
  destruct (framed_piece k ob Hob) as (c & c' & _ & _ & [_ (? & ? & _)] & [-> ->] & _). lia.
Qed.

Lemma framed_byte j :
  (forall k c c', ch !! k = Some c -> ch' !! k = Some c' -> in_node j c ->
     c' = c \/ node_type c <> T_Volume) ->
  Forall (fun ob => in_piece j ob -> get (snd ob) (j - fst ob) = get buf j) ps.
Proof.
  intros Hkeep. rewrite Forall_lookup. intros k ob Hob Hin.
  destruct (framed_piece k ob Hob) as (c & c' & Hk & Hk' & [_ (? & ? & Hv & _)] & [Ho Hl] & Hs).
  unfold in_piece in Hin. rewrite Ho, Hl in *. rewrite Hs by (by eapply Hkeep).
  rewrite Hv, get_sub by lia. f_equal. lia.
Qed.

Lemma framed_covered j : 0 <= j < blen buf -> Exists (in_piece j) ps.
Proof.
  destruct cover as (_ & _ & Hcov).
  intros (c & [k Hk]%list_elem_of_lookup & Hin)%Hcov%Exists_exists.
  destruct (Forall2_lookup_l _ _ _ _ _ framed_sized Hk) as (ob & Hob & Ho & Hl).
  apply Exists_exists. exists ob. split; [by eapply list_elem_of_lookup_2|].
  unfold in_piece, in_node in *. by rewrite Ho, Hl.
Qed.

Lemma framed_copy out :
  foldM copy_step ps (resize_to [] (total_of 0 ch) xff) = Ok out ->
  blen out = blen buf /\
  forall j, 0 <= j < blen buf ->
    (forall k c c', ch !! k = Some c -> ch' !! k = Some c' -> in_node j c ->
       c' = c \/ node_type c <> T_Volume) ->
    get out j = get buf j.
Proof.
  rewrite (total_covers buf) by done. intros Hcopy. pose proof (blen_nonneg buf).
  assert (blen (resize_to [] (blen buf) xff) = blen buf) as Hres by (by apply blen_resize_to).
  assert (Forall (fun ob => 0 <= fst ob /\
    fst ob + blen (snd ob) <= blen (resize_to [] (blen buf) xff)) ps) as Hbnd
    by (rewrite Hres; exact framed_bounds).
  split.
  - destruct (copy_agree (-1) None ps _ Hbnd) as (o & Ho & Hl & _).
    { eapply Forall_impl; [exact framed_bounds|]. intros ob Hb Hin. exfalso. unfold in_piece in Hin. cbn beta in Hb. lia. }
    rewrite Ho in Hcopy. injection Hcopy as <-. by rewrite Hl.
  - intros j Hj Hkeep.
    destruct (copy_agree j (get buf j) ps _ Hbnd) as (o & Ho & _ & Hget); [by apply framed_byte|].
    rewrite Ho in Hcopy. injection Hcopy as <-. apply Hget. right. by apply framed_covered.
Qed.
End Framed.

Lemma edited_same_top r0 r : edited below_top r0 r -> same_top r0 r.
Proof.
  apply edited_ind_inv; [|by split; [|apply frames_refl]].
  intros r1 e r2 Hbt [Ht1 Hf1] Hap. apply apply_edit_same_top in Hap as [Ht2 Hf2]; [|done].
  split; [congruence|]. eapply Forall2_trans; [|done|done]. eauto using frame_trans.
Qed.

(** C2. Edits are local: after any sequence of edits below the top-level nodes of
    a parsed image, a build that succeeds has the size of the original and agrees
    with it on every byte that is not inside a volume that was edited. *)
Theorem edits_are_local depth buf m iid sid img r out :
  blen buf < 2 ^ 32 -> parse_image depth buf m iid sid = Ok img ->
  edited below_top (root img) r -> build_node r [] = Ok out ->
  blen out = blen buf /\
  forall j, 0 <= j < blen buf ->
    (forall k c c', children (root img) !! k = Some c -> children r !! k = Some c' ->
       in_node j c -> c' = c \/ node_type c <> T_Volume) ->
    get out j = get buf j.
Proof.
  intros Hb Hp He Hbuild. unfold parse_image in Hp. ok_inv. simpl in *.
  match goal with H : parse_root _ _ = Ok _ |- _ =>
    apply parse_root_covers in H as (Hty & _ & Hc); [|done] end.
  apply edited_same_top in He as [Hty' Hfr].
  rewrite Hty in Hty'. rewrite build_node_eq, Hty' in Hbuild. unfold build_root in Hbuild.
  simpl in Hbuild. apply bind_Ok in Hbuild as ([pl t] & Hpl & Hcopy).
  apply place_all_Ok in Hpl as (ps & Hpl & Ht & Hps). simpl in Hpl, Ht, Hcopy. subst pl t.
  rewrite (total_pieces _ _ _ (framed_sized _ _ _ _ Hc Hfr Hps)) in Hcopy.
  eapply framed_copy; [exact Hc|exact Hfr|exact Hps|exact Hcopy].
Qed.

End EditBuild.
