(* ===== verification/TerminalFacts.v ===== *)
(** The state of the terminal client: the edit line refines a text split at the cursor, the
    history is browsed by prefix and round-trips through its file, a scrolled list keeps its
    cursor in view, and the visible rows are those below expanded nodes. *)
From S2P Require Import Prelude Text Types Ffs Tiano Codec Parser Target Ops Nvar Listing.
From S2P Require Import ListingFacts Terminal.
From S2P Require Import NvarFacts.

(** ** Byte offsets *)

Lemma str_len_app s t : str_len (s ++ t) = str_len s + str_len t.
Proof. induction s as [|c s IH]; [done|]. simpl. change (str_len (c :: ?x)) with (len_utf8 c + str_len x). simpl in *. lia. Qed.
Lemma str_len_cons c s : str_len (c :: s) = len_utf8 c + str_len s.
Proof. done. Qed.
Lemma str_len_zero s : str_len s = 0 -> s = [].
Proof.
  destruct s as [|c s]; [done|]. rewrite str_len_cons.
  pose proof (len_utf8_pos c). pose proof (str_len_nonneg s). lia.
Qed.

Lemma split_at_app l r : split_at (l ++ r) (str_len l) = Ok (l, r).
Proof.
  induction l as [|c l IH]; [by destruct r|]. rewrite str_len_cons. cbn [app split_at].
  pose proof (len_utf8_pos c). pose proof (str_len_nonneg l).
  destruct (Z.eqb_spec (len_utf8 c + str_len l) 0); [lia|].
  destruct (Z.ltb_spec (len_utf8 c + str_len l) (len_utf8 c)); [lia|].
  replace (len_utf8 c + str_len l - len_utf8 c) with (str_len l) by lia.
  by rewrite IH.
Qed.

Lemma replace_range_app a b c t :
  replace_range (a ++ b ++ c) (str_len a) (str_len (a ++ b)) t = Ok (a ++ t ++ c).
Proof.
  unfold replace_range. rewrite app_assoc, split_at_app. simpl. rewrite split_at_app. done.
Qed.

(** Two prefixes of one text with the same length are equal. *)
Lemma str_len_prefix_inj l r l' r' :
  l ++ r = l' ++ r' -> str_len l = str_len l' -> l = l' /\ r = r'.
Proof.
  intros He Hl. pose proof (split_at_app l r) as H. rewrite He, Hl, split_at_app in H.
  by injection H.
Qed.

Lemma indices_app off ps qs :
  indices off (ps ++ qs) = indices off ps ++ indices (off + str_len (concat ps)) qs.
Proof.
  revert off. induction ps as [|p ps IH]; intros off; simpl; [by rewrite Z.add_0_r|].
  rewrite IH, str_len_app. do 3 f_equal. lia.
Qed.

Lemma indices_split off ps a i w b :
  indices off ps = a ++ (i, w) :: b ->
  exists ws1 ws2, ps = ws1 ++ w :: ws2 /\ i = off + str_len (concat ws1) /\
    a = indices off ws1 /\ b = indices (i + str_len w) ws2.
Proof.
  revert off a. induction ps as [|p ps IH]; intros off a He; [by destruct a|].
  destruct a as [|x a]; cbn [indices app] in He.
  - injection He as -> -> <-. exists [], ps. simpl. by rewrite Z.add_0_r.
  - injection He as <- He. apply IH in He as (ws1 & ws2 & -> & -> & -> & ->).
    exists (p :: ws1), ws2. simpl. rewrite str_len_app, Z.add_assoc. done.
Qed.

Lemma indices_elem off ws1 w ws2 :
  (off + str_len (concat ws1), w) ∈ indices off (ws1 ++ w :: ws2).
Proof. rewrite indices_app. apply elem_of_app. right. by left. Qed.

(** ** Searching a list from either end *)

Section Find.
Context {A : Type} (p q : A -> bool).

Lemma find_first l :
  match List.find p l with
  | Some x => exists a b, l = a ++ x :: b /\ p x = true /\ Forall (fun y => p y = false) a
  | None => Forall (fun y => p y = false) l
  end.
Proof.
  induction l as [|y l IH]; simpl; [done|]. destruct (p y) eqn:Hy; [by exists [], l|].
  destruct (List.find p l) as [x|]; [|by constructor].
  destruct IH as (a & b & -> & Hx & Ha). exists (y :: a), b. split; [done|]. split; [done|]. by constructor.
Qed.

Lemma find_last l :
  match List.find p (rev (List.filter q l)) with
  | Some x => exists a b, l = a ++ x :: b /\ p x = true /\ q x = true /\
                Forall (fun y => q y = true -> p y = false) b
  | None => Forall (fun y => q y = true -> p y = false) l
  end.
Proof.
  induction l as [|y l IH] using rev_ind; [simpl; constructor|].
  rewrite List.filter_app, rev_app_distr. simpl. destruct (q y) eqn:Hq; simpl.
  - destruct (p y) eqn:Hp; [by exists l, []|].
    destruct (List.find p _) as [x|].
    + destruct IH as (a & b & -> & ? & ? & Hb). exists a, (b ++ [y]).
      rewrite <-app_assoc. repeat split; [done..|]. apply Forall_app. by repeat constructor.
    + apply Forall_app. by repeat constructor.
  - destruct (List.find p _) as [x|].
    + destruct IH as (a & b & -> & ? & ? & Hb). exists a, (b ++ [y]).
      rewrite <-app_assoc. repeat split; [done..|]. apply Forall_app. repeat constructor; congruence.
    + apply Forall_app. repeat constructor; [done|congruence].
Qed.
End Find.

(** ** The abstract text *)

Inductive line_op :=
| LO_Insert (c : Z) | LO_Left | LO_Right | LO_Home | LO_End | LO_Backspace | LO_Delete
| LO_WordLeft | LO_WordRight | LO_KillWord | LO_KillToStart | LO_KillToEnd.

Section Zip.
Context {SG : Segmentation}.

Definition run_op (op : line_op) (b : LineBuffer) : pure LineBuffer :=
  match op with
  | LO_Insert c => line_insert c b
  | LO_Left => line_left b
  | LO_Right => line_right b
  | LO_Home => Ok (line_home b)
  | LO_End => Ok (line_end b)
  | LO_Backspace => line_backspace b
  | LO_Delete => line_delete b
  | LO_WordLeft => Ok (word_left b)
  | LO_WordRight => Ok (word_right b)
  | LO_KillWord => kill_word b
  | LO_KillToStart => kill_to_start b
  | LO_KillToEnd => kill_to_end b
  end.
Fixpoint run_ops (ops : list line_op) (b : LineBuffer) : pure LineBuffer :=
  match ops with [] => Ok b | op :: ops => b ← run_op op b; run_ops ops b end.

(** The text before and behind the cursor. *)
Abbreviation zip := (ustring * ustring)%type.
Definition zip_of (z : zip) : LineBuffer := {| ln_s := fst z ++ snd z; ln_cursor := str_len (fst z) |}.

(** [w] is the last alphanumeric word of the text that starts before the cursor. *)
Definition last_word (l r : ustring) (ws1 : list ustring) (w : ustring) (ws2 : list ustring) : Prop :=
  split_word_bounds (l ++ r) = ws1 ++ w :: ws2 /\ alphanumeric_word w = true /\
  str_len (concat ws1) < str_len l /\
  forall a v b, ws2 = a ++ v :: b -> alphanumeric_word v = true -> str_len l <= str_len (concat (ws1 ++ w :: a)).
Definition no_last_word (l r : ustring) : Prop :=
  forall a v b, split_word_bounds (l ++ r) = a ++ v :: b -> alphanumeric_word v = true ->
    str_len l <= str_len (concat a).
(** [w] is the first alphanumeric word of the text that ends behind the cursor. *)
Definition next_word (l r : ustring) (ws1 : list ustring) (w : ustring) (ws2 : list ustring) : Prop :=
  split_word_bounds (l ++ r) = ws1 ++ w :: ws2 /\ alphanumeric_word w = true /\
  str_len l < str_len (concat (ws1 ++ [w])) /\
  forall a v b, ws1 = a ++ v :: b -> alphanumeric_word v = true -> str_len (concat (a ++ [v])) <= str_len l.
Definition no_next_word (l r : ustring) : Prop :=
  forall a v b, split_word_bounds (l ++ r) = a ++ v :: b -> alphanumeric_word v = true ->
    str_len (concat (a ++ [v])) <= str_len l.

Inductive zip_step : line_op -> zip -> zip -> Prop :=
| ZS_insert c l r : zip_step (LO_Insert c) (l, r) (l ++ [c], r)
| ZS_left l r gs g : graphemes l = gs ++ [g] -> zip_step LO_Left (l, r) (concat gs, g ++ r)
| ZS_left_start r : zip_step LO_Left ([], r) ([], r)
| ZS_right l r g gs : graphemes r = g :: gs -> zip_step LO_Right (l, r) (l ++ g, concat gs)
| ZS_right_end l : zip_step LO_Right (l, []) (l, [])
| ZS_home l r : zip_step LO_Home (l, r) ([], l ++ r)
| ZS_end l r : zip_step LO_End (l, r) (l ++ r, [])
| ZS_backspace l r gs g : graphemes l = gs ++ [g] -> zip_step LO_Backspace (l, r) (concat gs, r)
| ZS_backspace_start r : zip_step LO_Backspace ([], r) ([], r)
| ZS_delete l r g gs : graphemes r = g :: gs -> zip_step LO_Delete (l, r) (l, concat gs)
| ZS_delete_end l : zip_step LO_Delete (l, []) (l, [])
| ZS_word_left l r ws1 w ws2 :
    last_word l r ws1 w ws2 -> zip_step LO_WordLeft (l, r) (concat ws1, concat (w :: ws2))
| ZS_word_left_none l r : no_last_word l r -> zip_step LO_WordLeft (l, r) (l, r)
| ZS_word_right l r ws1 w ws2 :
    next_word l r ws1 w ws2 -> zip_step LO_WordRight (l, r) (concat (ws1 ++ [w]), concat ws2)
| ZS_word_right_none l r : no_next_word l r -> zip_step LO_WordRight (l, r) (l ++ r, [])
| ZS_kill_word l r ws1 w ws2 :
    last_word l r ws1 w ws2 -> zip_step LO_KillWord (l, r) (concat ws1, r)
| ZS_kill_word_none l r : no_last_word l r -> zip_step LO_KillWord (l, r) ([], r)
| ZS_kill_to_start l r : zip_step LO_KillToStart (l, r) ([], r)
| ZS_kill_to_end l r : zip_step LO_KillToEnd (l, r) (l, []).

Inductive zip_steps : list line_op -> zip -> zip -> Prop :=
| ZS_nil z : zip_steps [] z z
| ZS_cons op ops z z' z'' : zip_step op z z' -> zip_steps ops z' z'' -> zip_steps (op :: ops) z z''.

(** ** Simulation *)

Lemma grapheme_before_zip l r :
  (l = [] /\ grapheme_before (zip_of (l, r)) = Ok None) \/
  exists gs g, graphemes l = gs ++ [g] /\ l = concat gs ++ g /\
    grapheme_before (zip_of (l, r)) = Ok (Some (str_len (concat gs), g)).
Proof.
  unfold grapheme_before. simpl. rewrite split_at_app. simpl.
  pose proof (graphemes_concat l) as Hl.
  destruct (graphemes l) as [|g gs _] using rev_ind; [by left|]. right.
  exists gs, g. rewrite concat_app in Hl. simpl in Hl. rewrite app_nil_r in Hl.
  rewrite indices_app. simpl. by rewrite last_snoc.
Qed.

Lemma grapheme_after_zip l r :
  (r = [] /\ grapheme_after (zip_of (l, r)) = Ok None) \/
  exists gs g, graphemes r = g :: gs /\ r = g ++ concat gs /\
    grapheme_after (zip_of (l, r)) = Ok (Some (0, g)).
Proof.
  unfold grapheme_after. simpl. rewrite split_at_app. simpl.
  pose proof (graphemes_concat r) as Hr. destruct (graphemes r) as [|g gs]; [by left|].
  right. by exists gs, g.
Qed.

Lemma word_before_zip l r :
  (no_last_word l r /\ word_before (zip_of (l, r)) = None) \/
  exists ws1 w ws2, last_word l r ws1 w ws2 /\
    word_before (zip_of (l, r)) = Some (str_len (concat ws1), w).
Proof.
  unfold word_before. simpl.
  pose proof (find_last (fun iw => alphanumeric_word (snd iw)) (fun iw => fst iw <? str_len l)
                (indices 0 (split_word_bounds (l ++ r)))) as H.
  destruct (List.find _ _) as [[i w]|].
  - right. destruct H as (a & b & He & Hw & Hi & Hb).
    apply indices_split in He as (ws1 & ws2 & Hs & -> & -> & ->). simpl in *.
    exists ws1, w, ws2. split; [|done]. split; [done|]. split; [done|]. split; [lia|].
    intros a v b -> Hv. rewrite Forall_forall in Hb.
    specialize (Hb _ (indices_elem _ a v b)). simpl in Hb.
    rewrite concat_app, str_len_app. simpl. rewrite str_len_app.
    destruct (Z.ltb_spec (str_len (concat ws1) + str_len w + str_len (concat a)) (str_len l)); [|lia].
    rewrite Hb in Hv; [done|lia].
  - left. split; [|done]. intros a v b Hs Hv. rewrite Hs, Forall_forall in H.
    specialize (H _ (indices_elem _ a v b)). simpl in H.
    destruct (Z.ltb_spec (str_len (concat a)) (str_len l)); [|lia]. rewrite H in Hv; [done|lia].
Qed.

Lemma word_after_zip l r :
  (no_next_word l r /\ word_after (zip_of (l, r)) = None) \/
  exists ws1 w ws2, next_word l r ws1 w ws2 /\
    word_after (zip_of (l, r)) = Some (str_len (concat ws1), w).
Proof.
  unfold word_after. simpl.
  pose proof (find_first (fun iw => (str_len l <? fst iw + str_len (snd iw)) && alphanumeric_word (snd iw))
                (indices 0 (split_word_bounds (l ++ r)))) as H.
  destruct (List.find _ _) as [[i w]|].
  - right. destruct H as (a & b & He & Hw & Ha).
    apply indices_split in He as (ws1 & ws2 & Hs & -> & -> & ->). simpl in *.
    apply andb_true_iff in Hw as [Hi Hw]. exists ws1, w, ws2. split; [|done].
    split; [done|]. split; [done|]. rewrite concat_app, str_len_app. simpl. rewrite app_nil_r.
    split; [lia|]. intros a v b -> Hv. rewrite Forall_forall in Ha.
    specialize (Ha _ (indices_elem _ a v b)). simpl in Ha. rewrite Hv, andb_true_r in Ha.
    rewrite concat_app, str_len_app. simpl. rewrite app_nil_r. lia.
  - left. split; [|done]. intros a v b Hs Hv. rewrite Hs, Forall_forall in H.
    specialize (H _ (indices_elem _ a v b)). simpl in H. rewrite Hv, andb_true_r in H.
    rewrite concat_app, str_len_app. simpl. rewrite app_nil_r. lia.
Qed.

(** A prefix of the text that starts before the cursor is a prefix of the part before it. *)
Lemma shorter_prefix l r p q :
  l ++ r = p ++ q -> str_len p <= str_len l -> exists m, l = p ++ m.
Proof.
  revert p. induction l as [|c l IH]; intros p He Hp.
  - exists []. destruct p as [|x p]; [done|]. rewrite str_len_cons in Hp. change (str_len []) with 0 in Hp.
    pose proof (len_utf8_pos x). pose proof (str_len_nonneg p). lia.
  - destruct p as [|x p]; [by exists (c :: l)|]. injection He as -> He.
    rewrite !str_len_cons in Hp. destruct (IH p He) as [m ->]; [lia|]. by exists m.
Qed.

Lemma replace_range_zip l m r :
  replace_range ((l ++ m) ++ r) (str_len l) (str_len (l ++ m)) [] = Ok (l ++ r).
Proof. by rewrite <-app_assoc, replace_range_app. Qed.

Lemma run_op_zip op z : exists z', run_op op (zip_of z) = Ok (zip_of z') /\ zip_step op z z'.
Proof.
  destruct z as [l r]. destruct op; cbn [run_op].
  - exists (l ++ [c], r). split; [|constructor]. unfold line_insert. simpl. rewrite split_at_app. simpl.
    unfold zip_of. simpl. rewrite <-app_assoc, str_len_app, str_len_cons. change (str_len []) with 0.
    by rewrite Z.add_0_r.
  - unfold line_left. destruct (grapheme_before_zip l r) as [[-> ->]|(gs & g & Hg & -> & ->)]; simpl.
    + exists ([], r). split; [done|constructor].
    + eexists. split; [|by eapply ZS_left]. unfold with_cursor, zip_of. simpl. by rewrite <-app_assoc.
  - unfold line_right. destruct (grapheme_after_zip l r) as [[-> ->]|(gs & g & Hg & -> & ->)]; simpl.
    + exists (l, []). split; [done|constructor].
    + eexists. split; [|by eapply ZS_right]. unfold with_cursor, zip_of. simpl. by rewrite <-app_assoc, str_len_app.
  - eexists. split; [|constructor]. done.
  - eexists. split; [|constructor]. unfold line_end, with_cursor, zip_of. simpl. by rewrite app_nil_r.
  - unfold line_backspace. destruct (grapheme_before_zip l r) as [[-> ->]|(gs & g & Hg & -> & ->)]; simpl.
    + exists ([], r). split; [done|constructor].
    + eexists. rewrite replace_range_zip. split; [|by eapply ZS_backspace]. done.
  - unfold line_delete. destruct (grapheme_after_zip l r) as [[-> ->]|(gs & g & Hg & -> & ->)]; simpl.
    + exists (l, []). split; [done|constructor].
    + eexists. rewrite Z.add_0_r, <-str_len_app, replace_range_app. split; [|by eapply ZS_delete]. done.
  - unfold word_left. destruct (word_before_zip l r) as [[Hn ->]|(ws1 & w & ws2 & Hw & ->)].
    + exists (l, r). split; [done|by constructor].
    + eexists. split; [|by eapply ZS_word_left]. destruct Hw as [Hs _].
      unfold with_cursor, zip_of. cbn [fst snd ln_s]. by rewrite <-concat_app, <-Hs, split_word_bounds_concat.
  - unfold word_right. destruct (word_after_zip l r) as [[Hn ->]|(ws1 & w & ws2 & Hw & ->)].
    + eexists. split; [|by eapply ZS_word_right_none]. unfold with_cursor, zip_of. simpl. by rewrite app_nil_r.
    + eexists. split; [|by eapply ZS_word_right]. destruct Hw as [Hs _].
      unfold with_cursor, zip_of. cbn [fst snd ln_s]. rewrite <-concat_app, <-app_assoc. simpl.
      rewrite <-Hs, split_word_bounds_concat, concat_app, str_len_app. simpl. by rewrite app_nil_r.
  - unfold kill_word. destruct (word_before_zip l r) as [[Hn ->]|(ws1 & w & ws2 & Hw & ->)]; cbn [zip_of ln_s ln_cursor fst snd].
    + eexists. change 0 with (str_len []). rewrite (replace_range_zip [] l r : replace_range (l ++ r) _ (str_len l) _ = _).
      split; [|by eapply ZS_kill_word_none]. done.
    + destruct (shorter_prefix l r (concat ws1) (concat (w :: ws2))) as [m Hm].
      { destruct Hw as (Hs & _). by rewrite <-concat_app, <-Hs, split_word_bounds_concat. }
      { destruct Hw as (_ & _ & ? & _). lia. }
      eexists. split; [|by eapply ZS_kill_word]. rewrite Hm, replace_range_zip. done.
  - eexists. split; [|constructor]. unfold kill_to_start. cbn [zip_of ln_s ln_cursor fst snd].
    change 0 with (str_len []). by rewrite (replace_range_zip [] l r : replace_range (l ++ r) _ (str_len l) _ = _).
  - eexists. split; [|constructor]. unfold kill_to_end, truncate_str. simpl.
    rewrite str_len_app. pose proof (str_len_nonneg r). destruct (Z.leb_spec (str_len l) (str_len l + str_len r)); [|lia].
    rewrite split_at_app. unfold zip_of. simpl. by rewrite app_nil_r.
Qed.

(** The whole state space is covered: a line set from a string is an abstract text with the
    cursor at its end. *)
Lemma line_set_zip s : line_set_str s = zip_of (s, []).
Proof. unfold zip_of. simpl. by rewrite app_nil_r. Qed.

Lemma run_ops_zip ops z : exists z', run_ops ops (zip_of z) = Ok (zip_of z') /\ zip_steps ops z z'.
Proof.
  revert z. induction ops as [|op ops IH]; intros z; [exists z; by split; constructor|].
  destruct (run_op_zip op z) as (z' & Hr & Hs). destruct (IH z') as (z'' & Hr' & Hs').
  exists z''. cbn [run_ops]. rewrite Hr. split; [done|]. by econstructor.
Qed.

(** C38. The edit line of the client, a string with a byte offset, refines a text split at the
    cursor: from any line, every sequence of insertions, movements and deletions runs without
    a panic (no slice outside the line or inside a character) and does what the same sequence
    does on the pair of texts: movements and deletions go by grapheme clusters and by words. *)
Theorem line_refines_zip s ops :
  exists z, run_ops ops (line_set_str s) = Ok (zip_of z) /\ zip_steps ops (s, []) z.
Proof. rewrite line_set_zip. apply run_ops_zip. Qed.
End Zip.

(** The history of commands: browsing with a typed prefix, and the round trip through the
    history file. *)

(** ** Browsing *)

(** The entries that continue the typed prefix. *)
Definition matching (p : ustring) (es : list ustring) : list ustring :=
  List.filter (fun e => starts_with e p) es.

Lemma matching_app p es es' : matching p (es ++ es') = matching p es ++ matching p es'.
Proof. apply List.filter_app. Qed.

Lemma matching_step p es i e :
  es !! i = Some e -> starts_with e p = true ->
  matching p (drop i es) = e :: matching p (drop (S i) es).
Proof. intros Hi He. rewrite (drop_S _ _ _ Hi). unfold matching. simpl. by rewrite He. Qed.

Lemma prev_from_spec es p n :
  (n <= length es)%nat ->
  (exists i e, prev_from es p n = Ok (Some (Z.of_nat i, e)) /\ (i < n)%nat /\ es !! i = Some e /\
     starts_with e p = true /\ matching p (drop (S i) es) = matching p (drop n es)) \/
  (prev_from es p n = Ok None /\ matching p (take n es) = []).
Proof.
  induction n as [|n IH]; intros Hn; [by right|]. cbn [prev_from].
  destruct (lookup_lt_is_Some_2 es n) as [e He]; [lia|].
  unfold index, get. replace (0 <=? Z.of_nat n) with true by lia. rewrite Nat2Z.id, He. simpl.
  destruct (starts_with e p) eqn:Hs; [left; exists n, e; repeat split; try done; lia|].
  assert (matching p (drop n es) = matching p (drop (S n) es)) as Hd.
  { rewrite (drop_S _ _ _ He). unfold matching. simpl. by rewrite Hs. }
  destruct IH as [(i & e' & -> & ? & ? & ? & Hm)|[-> Hm]]; [lia| |].
  - left. exists i, e'. rewrite Hm, Hd. repeat split; try done. lia.
  - right. split; [done|]. rewrite (take_S_r _ _ _ He), matching_app, Hm. unfold matching. simpl. by rewrite Hs.
Qed.

Lemma next_from_spec es p i :
  match next_from (drop i es) p (Z.of_nat i) with
  | Some (j, e) => exists k, j = Z.of_nat k /\ es !! k = Some e /\ starts_with e p = true /\
                     matching p (drop i es) = matching p (drop k es)
  | None => matching p (drop i es) = []
  end.
Proof.
  remember (drop i es) as ds eqn:Hds. revert i Hds.
  induction ds as [|d ds IH]; intros i Hds; [done|]. cbn [next_from].
  assert (es !! i = Some d) as Hi.
  { rewrite <-(Nat.add_0_r i), <-lookup_drop, <-Hds. done. }
  assert (ds = drop (S i) es) as Hds' by (rewrite (drop_S _ _ _ Hi) in Hds; congruence).
  destruct (starts_with d p) eqn:Hs; [exists i; rewrite Hds; done|].
  specialize (IH _ Hds'). rewrite <-Nat2Z.inj_succ || replace (Z.of_nat i + 1) with (Z.of_nat (S i)) by lia.
  assert (matching p (d :: ds) = matching p ds) as Hm by (unfold matching; simpl; by rewrite Hs).
  destruct (next_from ds p (Z.of_nat (S i))) as [[j e]|]; rewrite Hm; done.
Qed.

(** One key while the menu is closed: [true] is up, [false] is down. *)
Definition browse_key (up : bool) (s : History * ustring) : pure (History * ustring) :=
  let '(h, line) := s in
  r ← (if up then history_prev line h else mret (history_next line h));
  mret (fst r, default line (snd r)).
Fixpoint browse (keys : list bool) (s : History * ustring) : pure (History * ustring) :=
  match keys with [] => Ok s | k :: keys => s ← browse_key k s; browse keys s end.

(** The typed line, and behind it the matching entries, the latest first. *)
Definition recalls (cur : ustring) (es : list ustring) : list ustring := cur :: rev (matching cur es).
Definition browse_pos (n : nat) (k : nat) (up : bool) : nat :=
  if up then Nat.min (S k) (n - 1) else (k - 1)%nat.

(** The state that shows the candidate [k]. *)
Definition showing (cur : ustring) (es : list ustring) (k : nat) (s : History * ustring) : Prop :=
  let '(h, line) := s in
  hs_entries h = es /\
  match hs_recall h with
  | None => k = 0%nat /\ line = cur
  | Some r => exists i, r = Z.of_nat i /\ hs_saved h = Some cur /\ es !! i = Some line /\
                starts_with line cur = true /\ length (matching cur (drop i es)) = k
  end.

Lemma showing_line cur es k s : showing cur es k s -> recalls cur es !! k = Some (snd s).
Proof.
  destruct s as [h line]. intros (_ & Hr). destruct (hs_recall h) as [r|]; [|by destruct Hr as [-> ->]].
  destruct Hr as (i & _ & _ & Hi & Hm & <-). simpl.
  assert (matching cur es = matching cur (take i es) ++ line :: matching cur (drop (S i) es)) as He.
  { by rewrite <-(matching_step _ _ _ _ Hi Hm), <-matching_app, take_drop. }
  rewrite (matching_step _ _ _ _ Hi Hm). unfold recalls. rewrite He, rev_app_distr.
  simpl. rewrite <-app_assoc. rewrite lookup_app_r by (rewrite length_rev; lia).
  rewrite length_rev, Nat.sub_diag. done.
Qed.

Lemma showing_bound cur es k s : showing cur es k s -> (k < length (recalls cur es))%nat.
Proof. intros H%showing_line. by apply lookup_lt_Some in H. Qed.

Lemma browse_up cur es k s :
  showing cur es k s ->
  exists s', browse_key true s = Ok s' /\ showing cur es (browse_pos (length (recalls cur es)) k true) s'.
Proof.
  intros Hs. pose proof (showing_bound _ _ _ _ Hs) as Hk. unfold browse_pos.
  assert (length (recalls cur es) = S (length (matching cur es))) as Hlen
    by (unfold recalls; simpl; by rewrite length_rev).
  destruct s as [h line], Hs as (<- & Hr). unfold browse_key, history_prev.
  set (n := Z.to_nat (default (blen (hs_entries h)) (hs_recall h))).
  assert ((n <= length (hs_entries h))%nat /\ length (matching cur (drop n (hs_entries h))) = k) as [Hn Hnk].
  { unfold n. destruct (hs_recall h) as [r|]; simpl.
    - destruct Hr as (i & -> & _ & Hi & _ & ?). rewrite Nat2Z.id. apply lookup_lt_Some in Hi. split; [lia|done].
    - destruct Hr as [-> _]. unfold blen. rewrite Nat2Z.id, drop_all. done. }
  destruct (prev_from_spec (hs_entries h) cur n Hn) as [(i & e & He & Hin & Hi & Hm & Hmn)|[He Hm]].
  - assert (length (matching cur (drop i (hs_entries h))) = S k) as Hik.
    { rewrite (matching_step _ _ _ _ Hi Hm). simpl. by rewrite Hmn, Hnk. }
    assert (S k <= length (matching cur (hs_entries h)))%nat.
    { rewrite <-(take_drop i (hs_entries h)), matching_app, length_app. lia. }
    rewrite Hlen, Nat.min_l by lia.
    unfold n in He. destruct (hs_recall h) as [r|] eqn:Hrec; simpl.
    + destruct Hr as (i0 & -> & Hsv & _). unfold effective_prefix. rewrite Hrec, Hsv. simpl in *. rewrite He. simpl.
      eexists. split; [done|]. split; [done|]. exists i. simpl. done.
    + destruct Hr as [-> ->]. unfold effective_prefix. simpl in *. rewrite He. simpl.
      eexists. split; [done|]. split; [done|]. exists i. simpl. done.
  - assert (length (matching cur (hs_entries h)) = k) as Hmax.
    { rewrite <-(take_drop n (hs_entries h)), matching_app, Hm. done. }
    rewrite Hlen, Nat.min_r by lia. replace (S (length (matching cur (hs_entries h))) - 1)%nat with k by lia.
    unfold n in He. destruct (hs_recall h) as [r|] eqn:Hrec; simpl.
    + pose proof Hr as (i0 & -> & Hsv & _). unfold effective_prefix. rewrite Hrec, Hsv. simpl in *. rewrite He. simpl.
      eexists. split; [done|]. split; [done|]. rewrite Hrec. done.
    + pose proof Hr as [-> ->]. unfold effective_prefix. simpl in *. rewrite He. simpl.
      eexists. split; [done|]. split; done.
Qed.

Lemma browse_down cur es k s :
  showing cur es k s ->
  exists s', browse_key false s = Ok s' /\ showing cur es (browse_pos (length (recalls cur es)) k false) s'.
Proof.
  intros Hs. destruct s as [h line], Hs as (<- & Hr). unfold browse_key, history_next, browse_pos.
  destruct (hs_recall h) as [r|] eqn:Hrec.
  - destruct Hr as (i & -> & Hsv & Hi & Hm & Hk). unfold effective_prefix. rewrite Hrec, Hsv.
    rewrite (matching_step _ _ _ _ Hi Hm) in Hk. simpl in Hk.
    pose proof (next_from_spec (hs_entries h) cur (S i)) as Hn.
    replace (Z.of_nat i + 1) with (Z.of_nat (S i)) by lia. rewrite Nat2Z.id.
    destruct (next_from _ _ _) as [[j e]|]; simpl.
    + destruct Hn as (k' & -> & Hk' & Hmk & Hmm). eexists. split; [done|]. split; [done|]. exists k'. simpl.
      repeat split; try done. rewrite <-Hmm. lia.
    + eexists. split; [done|]. split; [done|]. simpl. rewrite Hn in Hk. simpl in Hk. split; [lia|done].
  - destruct Hr as [-> ->]. simpl. eexists. split; [done|]. split; [done|]. rewrite Hrec. done.
Qed.

Lemma browse_showing cur es keys k s :
  showing cur es k s ->
  exists s', browse keys s = Ok s' /\
    showing cur es (fold_left (browse_pos (length (recalls cur es))) keys k) s'.
Proof.
  revert k s. induction keys as [|up keys IH]; intros k s Hs; [by exists s|]. cbn [browse fold_left].
  assert (exists s', browse_key up s = Ok s' /\ showing cur es (browse_pos (length (recalls cur es)) k up) s')
    as (s' & Hb & Hs') by (destruct up; [by apply browse_up|by apply browse_down]).
  rewrite Hb. simpl. by apply IH.
Qed.

(** With a line typed, the up and down keys never panic and walk through exactly the
    entries that continue this line, from the latest to the oldest, and back to the typed
    line: the line shown is the candidate whose number the keys count, saturating at both ends;
    the entries themselves do not change. *)
Theorem history_browse h cur keys :
  exists h',
    browse keys (history_reset h, cur) =
      Ok (h', List.nth (fold_left (browse_pos (length (recalls cur (hs_entries h)))) keys 0%nat)
                (recalls cur (hs_entries h)) cur) /\
    hs_entries h' = hs_entries h.
Proof.
  destruct (browse_showing cur (hs_entries h) keys 0 (history_reset h, cur)) as ([h' l] & Hb & Hs); [done|].
  exists h'. pose proof (showing_line _ _ _ _ Hs) as Hl. simpl in Hl.
  rewrite Hb, (nth_lookup_Some _ _ _ _ Hl). split; [done|]. by destruct Hs.
Qed.

(** ** The history file *)

(** What [submit] keeps: at most [CAP] entries without surrounding white space, no two
    neighbours equal. *)
Definition clean_line (e : ustring) : Prop :=
  e <> [] /\ Forall (fun c => c <> 10) e /\ last e <> Some 13.
Fixpoint no_repeat (es : list ustring) : Prop :=
  match es with
  | a :: es => match es with b :: _ => a <> b | [] => True end /\ no_repeat es
  | [] => True
  end.
Record clean (es : list ustring) : Prop := {
  clean_lines : Forall clean_line es;
  clean_repeat : no_repeat es;
  clean_cap : blen es <= CAP
}.

Lemma drop_while_suffix p s : exists l, s = l ++ drop_while p s.
Proof.
  induction s as [|c s [l IH]]; [by exists []|]. simpl. destruct (p c); [|by exists []].
  exists (c :: l). simpl. by f_equal.
Qed.
Lemma drop_while_head p s c s' : drop_while p s = c :: s' -> p c = false.
Proof.
  induction s as [|x s IH]; [done|]. simpl. destruct (p x) eqn:Hx; [done|]. by intros [= <- _].
Qed.

Lemma trim_clean s : Forall (fun c => c <> 10) s -> trim s <> [] -> clean_line (trim s).
Proof.
  intros Hs Hn. split; [done|]. unfold trim in *.
  set (t := drop_while is_whitespace s) in *.
  destruct (drop_while_suffix is_whitespace s) as [l1 H1]. fold t in H1.
  destruct (drop_while_suffix is_whitespace (rev t)) as [l2 H2].
  split.
  - rewrite H1 in Hs. apply Forall_app in Hs as [_ Ht]. apply (Forall_rev (P := fun c => c <> 10)) in Ht.
    rewrite H2 in Ht. apply Forall_app in Ht as [_ Ht]. by apply Forall_rev.
  - destruct (drop_while is_whitespace (rev t)) as [|c r] eqn:Hd; [done|].
    apply drop_while_head in Hd. simpl. rewrite last_snoc. intros [= ->]. discriminate.
Qed.

Lemma no_repeat_app es e :
  no_repeat es -> last es <> Some e -> no_repeat (es ++ [e]).
Proof.
  induction es as [|a es IH]; [done|]. intros [Ha Hes] Hl. destruct es as [|b es].
  - simpl. simpl in Hl. split; [congruence|done].
  - split; [done|]. by apply IH.
Qed.
Lemma no_repeat_tail es : no_repeat es -> no_repeat (drop 1 es).
Proof. by destruct es as [|a es]; [|intros [_ ?]]. Qed.

Lemma submit_clean line h :
  Forall (fun c => c <> 10) line -> clean (hs_entries h) -> clean (hs_entries (submit line h)).
Proof.
  intros Hl [He Hr Hc]. unfold submit. simpl.
  destruct (bool_decide (trim line = [])) eqn:Ht; [done|]. apply bool_decide_eq_false in Ht.
  destruct (bool_decide (last (hs_entries h) = Some (trim line))) eqn:Hlast; [done|].
  apply bool_decide_eq_false in Hlast. simpl.
  assert (Forall clean_line (hs_entries h ++ [trim line])) as He'.
  { apply Forall_app. split; [done|]. constructor; [by apply trim_clean|done]. }
  pose proof (no_repeat_app _ _ Hr Hlast) as Hr'.
  destruct (Z.ltb_spec CAP (blen (hs_entries h ++ [trim line]))) as [Hcap|]; [|by split].
  rewrite blen_app in Hcap. split; [by apply Forall_drop|by apply no_repeat_tail|].
  unfold blen, CAP in *. rewrite length_drop, length_app. simpl. lia.
Qed.

Lemma submit_reset line h : submit line h = history_reset (submit line h).
Proof. unfold submit. simpl. by destruct (_ || _). Qed.

Lemma strip_cr_clean e : last e <> Some 13 -> strip_cr e = e.
Proof.
  intros Hl. unfold strip_cr. destruct (rev e) as [|c r] eqn:He; [done|].
  assert (e = rev r ++ [c]) as -> by (rewrite <-(rev_involutive e), He; done).
  rewrite last_snoc in Hl. destruct c as [|c|]; try done.
  repeat (destruct c as [c|c|]; try done).
Qed.

(** The lines of the written text. *)
Lemma lines_of_entries es :
  es <> [] -> Forall clean_line es -> lines (join [10] es ++ [10]) = es.
Proof.
  intros Hn Hes. unfold lines.
  assert (split_on 10 (join [10] es ++ [10]) = es ++ [[]]) as ->.
  { induction Hes as [|e es (He & Hnl & Hcr) Hes IH]; [done|].
    destruct es as [|e' es].
    - simpl. rewrite split_on_app by done. done.
    - change (join [10] (e :: e' :: es)) with (e ++ 10 :: join [10] (e' :: es)).
      rewrite <-app_assoc. change ((10 :: ?a) ++ [10]) with (10 :: (a ++ [10])).
      rewrite split_on_app, IH by done. done. }
  clear Hn. induction Hes as [|e es (He & Hnl & Hcr) Hes IH]; [done|].
  cbn [app terminated_lines]. destruct (es ++ [[]]) as [|x xs] eqn:Hx; [by destruct es|].
  by rewrite strip_cr_clean, IH.
Qed.

Lemma dedup_clean es : no_repeat es -> dedup_adjacent es = es.
Proof.
  induction es as [|a es IH]; [done|]. intros [Ha Hes]. cbn [dedup_adjacent]. rewrite (IH Hes).
  destruct es as [|b es]; [done|]. by rewrite bool_decide_eq_false_2.
Qed.

Lemma load_save_clean h : clean (hs_entries h) -> load_from (Some (save_to h)) = history_reset h.
Proof.
  intros [He Hr Hc]. unfold load_from, save_to, history_reset. f_equal.
  destruct (hs_entries h) as [|e es] eqn:Hes; [done|].
  assert (join [10] (e :: es) <> []) as Hj.
  { apply Forall_cons in He as [[Hne _] _]. by destruct es, e. }
  destruct (join [10] (e :: es)) as [|c j] eqn:Hjoin; [done|]. rewrite <-Hjoin.
  rewrite lines_of_entries by done.
  rewrite (List.forallb_filter_id _ (e :: es)).
  - rewrite dedup_clean by done. destruct (Z.ltb_spec CAP (blen (e :: es))); [lia|done].
  - apply forallb_forall. intros x Hx%list_elem_of_In. rewrite Forall_forall in He.
    destruct (He x Hx) as [Hx' _]. by rewrite bool_decide_eq_false_2.
Qed.

(** The history file round-trips: after any commands without a line feed, loading what
    was saved gives the same history; it holds at most [CAP] entries, trimmed and not empty,
    and no entry follows itself. *)
Theorem history_reload cmds :
  Forall (Forall (fun c => c <> 10)) cmds ->
  let h := fold_left (fun h cmd => submit cmd h) cmds history_empty in
  load_from (Some (save_to h)) = h /\ clean (hs_entries h).
Proof.
  intros Hc. cbv zeta.
  assert (forall h, clean (hs_entries h) -> h = history_reset h ->
    clean (hs_entries (fold_left (fun h cmd => submit cmd h) cmds h)) /\
    fold_left (fun h cmd => submit cmd h) cmds h =
      history_reset (fold_left (fun h cmd => submit cmd h) cmds h)) as H.
  { induction Hc as [|c cmds Hc _ IH]; intros h Hh Hr; [done|]. simpl. apply IH.
    - by apply submit_clean.
    - apply submit_reset. }
  destruct (H history_empty) as [Hcl Hr]; [by split|done|].
  split; [|done]. rewrite load_save_clean by done. by symmetry.
Qed.

(** The windows and the tree of the client: a scrolled list keeps its cursor in view, the
    visible rows are those below expanded nodes, and jumping to a path selects it. *)

(** ** Windows *)

(** The cursor is in the window [off, off + h), which lies in the list, with [m] rows of
    context on each side as far as the list goes. *)
Definition in_window (cursor off h total m : Z) : Prop :=
  0 <= off <= total - h /\ off <= cursor < off + h /\
  (off + m <= cursor \/ off = 0) /\ (cursor + m < off + h \/ off = total - h).

(** For a list longer than its window the scroll offset never overflows and stays inside
    the list; the cursor is in the window with the asked rows of context on each side, half
    a window at most; a list that fits is shown from its first row. *)
Theorem scrolled_offset_in_window cursor prev_off inner_h total pad :
  0 <= cursor < total -> 0 <= prev_off -> 0 <= pad -> 0 <= inner_h ->
  prev_off + inner_h <= usize_max -> cursor + pad <= usize_max -> 
  exists off, compute_scrolled_offset cursor prev_off inner_h total pad = Ok off /\
    (if (inner_h =? 0) || (total <=? inner_h) then off = 0
     else in_window cursor off inner_h total (Z.min pad ((inner_h - 1) / 2))).
Proof.
  intros Hc Hp Hpad Hh Ho Ho'. unfold compute_scrolled_offset.
  destruct ((inner_h =? 0) || (total <=? inner_h)) eqn:Hz; [by exists 0|].
  apply orb_false_iff in Hz as [?%Z.eqb_neq ?%Z.leb_gt].
  unfold sat_sub, sat_add. rewrite (Z.max_r 0 (inner_h - 1)) by lia.
  set (m := Z.min pad ((inner_h - 1) / 2)).
  assert (0 <= m <= pad /\ 2 * m <= inner_h - 1) as [Hm Hm2].
  { unfold m. pose proof (Z.mul_div_le (inner_h - 1) 2 ltac:(lia)).
    pose proof (Z.div_pos (inner_h - 1) 2 ltac:(lia) ltac:(lia)). lia. }
  clearbody m. unfold uadd, usub. unfold usize_max in *.
  destruct (Z.leb_spec (prev_off + inner_h) (2 ^ 64 - 1)); [|lia]. simpl.
  destruct (Z.leb_spec 1 (prev_off + inner_h)); [|lia]. simpl.
  destruct (Z.leb_spec (prev_off + m) (2 ^ 64 - 1)); [|lia]. simpl.
  unfold in_window.
  destruct (Z.ltb_spec cursor (prev_off + m)); [|destruct (Z.ltb_spec (Z.max 0 (prev_off + inner_h - 1 - m)) cursor)];
    (eexists; split; [done|]); lia.
Qed.

(** ** The completion menu *)

(** The selected row exists and is one of the rows shown. *)
Definition menu_ok (m : MenuState) : Prop :=
  0 <= mn_offset m <= mn_selected m /\ mn_selected m < mn_offset m + MENU_ROWS /\
  (mn_items m <> [] -> mn_selected m < blen (mn_items m)).

Lemma menu_scroll_ok m :
  0 <= mn_offset m -> 0 <= mn_selected m -> mn_selected m < blen (mn_items m) -> menu_ok (menu_scroll m).
Proof. intros. unfold menu_ok, menu_scroll, MENU_ROWS. simpl. repeat case_match; lia. Qed.
Lemma menu_close_ok m : menu_ok (menu_close m).
Proof. unfold menu_ok, MENU_ROWS. simpl. split; [lia|]. split; [lia|done]. Qed.
Lemma open_with_ok items m : menu_ok (open_with items m).
Proof.
  unfold menu_ok, MENU_ROWS. simpl. split; [lia|]. split; [lia|]. destruct items; [done|].
  intros _. rewrite blen_cons. pose proof (blen_nonneg items). lia.
Qed.
Lemma menu_refresh_ok items m : menu_ok (menu_refresh items m).
Proof. destruct items; [apply menu_close_ok|apply open_with_ok]. Qed.
Lemma menu_down_ok m : menu_ok m -> menu_ok (menu_down m).
Proof.
  intros Hm. unfold menu_down. destruct (mn_items m) as [|i l] eqn:Hi; [done|]. destruct Hm as (Ho & Hs & Hl).
  assert (0 < blen (i :: l)) by (rewrite blen_cons; pose proof (blen_nonneg l); lia).
  pose proof (Z.mod_pos_bound (mn_selected m + 1) (blen (i :: l)) ltac:(lia)).
  apply menu_scroll_ok; simpl; [lia..|]. rewrite Hi. lia.
Qed.
Lemma menu_up_ok m : menu_ok m -> menu_ok (menu_up m).
Proof.
  intros Hm. unfold menu_up. destruct (mn_items m) as [|i l] eqn:Hi; [done|]. destruct Hm as (Ho & Hs & Hl).
  assert (0 < blen (i :: l)) by (rewrite blen_cons; pose proof (blen_nonneg l); lia).
  rewrite Hi in Hl. specialize (Hl ltac:(done)).
  apply menu_scroll_ok; simpl; [lia|..]; rewrite ?Hi; destruct (Z.eqb_spec (mn_selected m) 0); lia.
Qed.

Lemma menu_down_items m : mn_items (menu_down m) = mn_items m.
Proof. unfold menu_down. by case_match. Qed.
Lemma menu_up_items m : mn_items (menu_up m) = mn_items m.
Proof. unfold menu_up. by case_match. Qed.

(** ** Visible rows *)

Definition depth_at (t : list TreeNode) (k : nat) : Z :=
  match t !! k with Some n => tn_depth n | None => 0 end.
(** Row [j] is an ancestor of row [i]: all rows behind it up to [i] are deeper. *)
Definition is_anc (t : list TreeNode) (j i : nat) : bool :=
  forallb (fun k => depth_at t j <? depth_at t k) (seq (S j) (i - j)).
(** Every ancestor of row [i] is expanded. *)
Definition shown (t : list TreeNode) (i : nat) : bool :=
  forallb (fun j => negb (is_anc t j i)
                    || match t !! j with Some n => tn_expanded n | None => false end) (seq 0 i).

(** A row is at most one level below the row before it, the first row is a root. *)
Fixpoint nested_from (bound : Z) (t : list TreeNode) : Prop :=
  match t with
  | [] => True
  | n :: t => 0 <= tn_depth n <= bound /\ nested_from (tn_depth n + 1) t
  end.
Definition nested (t : list TreeNode) : Prop := nested_from 0 t.

(** Row [j] of [pre] has only deeper rows behind it. *)
Definition open_at (pre : list TreeNode) (j : nat) (n : TreeNode) : Prop :=
  pre !! j = Some n /\ forall k m, (j < k)%nat -> pre !! k = Some m -> tn_depth n < tn_depth m.
(** The stack of the loop holds the flags of the open rows by depth. *)
Definition stack_of (pre : list TreeNode) (stack : list bool) : Prop :=
  forall d e, stack !! d = Some e <->
    exists j n, open_at pre j n /\ tn_depth n = Z.of_nat d /\ tn_expanded n = e.

Lemma open_at_snoc pre x j n :
  open_at (pre ++ [x]) j n <->
  (j = length pre /\ n = x) \/ (open_at pre j n /\ tn_depth n < tn_depth x).
Proof.
  split.
  - intros [Hj Hk]. apply lookup_app_Some in Hj as [Hj|[Hle Hj]].
    + right. split; [split; [done|]|].
      * intros k m Hlt Hm. apply (Hk k); [done|]. by apply lookup_app_l_Some.
      * apply (Hk (length pre)); [by apply lookup_lt_Some in Hj|]. by rewrite lookup_app_r, Nat.sub_diag by lia.
    + left. destruct (j - length pre)%nat eqn:He; [|done]. injection Hj as ->. split; [lia|done].
  - intros [[-> ->]|[[Hj Hk] Hx]].
    + split; [by rewrite lookup_app_r, Nat.sub_diag by lia|].
      intros k m Hlt Hm%lookup_lt_Some. rewrite length_app in Hm. simpl in Hm. lia.
    + split; [by apply lookup_app_l_Some|]. intros k m Hlt Hm.
      apply lookup_app_Some in Hm as [Hm|[_ Hm]]; [by eapply Hk|].
      destruct (k - length pre)%nat; [by injection Hm as ->|done].
Qed.

Lemma stack_step pre stack x :
  stack_of pre stack -> 0 <= tn_depth x <= blen stack ->
  stack_of (pre ++ [x]) (take (Z.to_nat (tn_depth x)) stack ++ [tn_expanded x]).
Proof.
  intros Hs Hd d e. unfold blen in Hd.
  assert (length (take (Z.to_nat (tn_depth x)) stack) = Z.to_nat (tn_depth x)) as Hlen
    by (rewrite length_take; lia).
  setoid_rewrite open_at_snoc. destruct (decide (d < Z.to_nat (tn_depth x))%nat).
  - rewrite lookup_app_l, lookup_take_lt by lia. rewrite (Hs d e). split.
    + intros (j & n & Ho & Hn & He). exists j, n. split; [right; split; [done|lia]|done].
    + intros (j & n & [[-> ->]|[Ho _]] & Hn & He); [lia|]. by exists j, n.
  - rewrite lookup_app_r, Hlen by lia. split.
    + intros He. destruct (d - Z.to_nat (tn_depth x))%nat eqn:Hz; [|done]. injection He as <-.
      exists (length pre), x. split; [by left|]. split; [lia|done].
    + intros (j & n' & [[-> ->]|[_ Hlt]] & Hn & He); [|lia].
      replace (d - Z.to_nat (tn_depth x))%nat with 0%nat by lia. by rewrite <-He.
Qed.

Lemma depth_at_app_l t t' k : (k < length t)%nat -> depth_at (t ++ t') k = depth_at t k.
Proof. intros. unfold depth_at. by rewrite lookup_app_l. Qed.

Lemma is_anc_open pre x rest j :
  (j < length pre)%nat ->
  is_anc (pre ++ x :: rest) j (length pre) = true <->
  exists n, open_at pre j n /\ tn_depth n < tn_depth x.
Proof.
  intros Hj. unfold is_anc. rewrite forallb_forall.
  destruct (lookup_lt_is_Some_2 _ _ Hj) as [n Hn].
  assert (depth_at (pre ++ x :: rest) j = tn_depth n) as ->
    by (rewrite depth_at_app_l by done; unfold depth_at; by rewrite Hn).
  assert (depth_at (pre ++ x :: rest) (length pre) = tn_depth x) as Hx
    by (unfold depth_at; by rewrite lookup_app_r, Nat.sub_diag by lia).
  split.
  - intros H. exists n. split; [split; [done|]|].
    + intros k m Hk Hm. pose proof (lookup_lt_Some _ _ _ Hm).
      specialize (H k ltac:(apply in_seq; lia)). rewrite depth_at_app_l in H by done.
      unfold depth_at in H. rewrite Hm in H. lia.
    + specialize (H (length pre) ltac:(apply in_seq; lia)). rewrite Hx in H. lia.
  - intros (n' & [Hn' Hk] & Hlt) k Hin%in_seq. rewrite Hn in Hn'. injection Hn' as <-.
    destruct (decide (k = length pre)) as [->|]; [rewrite Hx; lia|].
    destruct (lookup_lt_is_Some_2 pre k) as [m Hm]; [lia|].
    rewrite depth_at_app_l by lia. unfold depth_at. rewrite Hm.
    specialize (Hk k m ltac:(lia) Hm). lia.
Qed.

(** The test of the loop is the test of the reference. *)
Lemma stack_shown pre stack x rest :
  stack_of pre stack -> Forall (fun n => 0 <= tn_depth n) pre -> 0 <= tn_depth x <= blen stack ->
  forallb (fun e => e) (take (Z.to_nat (tn_depth x)) stack) = shown (pre ++ x :: rest) (length pre).
Proof.
  intros Hs Hpos Hd. apply eq_true_iff_eq. unfold shown. rewrite !forallb_forall. split.
  - intros H j Hj%in_seq. destruct (is_anc _ _ _) eqn:Ha; [|done]. simpl.
    apply is_anc_open in Ha as (n & Ho & Hlt); [|lia].
    rewrite lookup_app_l by lia. pose proof Ho as [Hn _]. rewrite Hn.
    rewrite Forall_forall in Hpos. pose proof (Hpos n ltac:(by eapply list_elem_of_lookup_2)).
    apply H, list_elem_of_In, list_elem_of_lookup. exists (Z.to_nat (tn_depth n)).
    rewrite lookup_take_lt by lia. apply Hs. exists j, n. split; [done|]. split; [lia|done].
  - intros H e He. apply list_elem_of_In, list_elem_of_lookup in He as [d He].
    apply lookup_take_Some in He as [He Hlt]. apply Hs in He as (j & n & Ho & Hn & <-).
    pose proof Ho as [Hj _]. pose proof (lookup_lt_Some _ _ _ Hj).
    specialize (H j ltac:(apply in_seq; lia)).
    assert (is_anc (pre ++ x :: rest) j (length pre) = true) as Ha
      by (apply is_anc_open; [done|]; exists n; split; [done|lia]).
    rewrite Ha, lookup_app_l, Hj in H by lia. done.
Qed.

Lemma visible_from_shown pre stack t :
  stack_of pre stack -> Forall (fun n => 0 <= tn_depth n) pre -> nested_from (blen stack) t ->
  visible_from (blen pre) stack t =
  map Z.of_nat (List.filter (shown (pre ++ t)) (seq (length pre) (length t))).
Proof.
  revert pre stack. induction t as [|x t IH]; intros pre stack Hs Hpos Hn; [done|].
  destruct Hn as [Hx Hn]. cbn [visible_from length seq List.filter].
  rewrite (stack_shown pre stack x t Hs Hpos Hx).
  assert (visible_from (blen pre + 1) (take (Z.to_nat (tn_depth x)) stack ++ [tn_expanded x]) t =
    map Z.of_nat (List.filter (shown (pre ++ x :: t)) (seq (S (length pre)) (length t)))) as ->.
  { specialize (IH (pre ++ [x]) (take (Z.to_nat (tn_depth x)) stack ++ [tn_expanded x])).
    rewrite blen_app, blen_app, length_app, <-app_assoc in IH. simpl in IH.
    rewrite Nat.add_1_r in IH. apply IH; [by apply stack_step| |].
    - apply Forall_app. split; [done|]. constructor; [lia|done].
    - replace (blen (take (Z.to_nat (tn_depth x)) stack) + blen [tn_expanded x]) with (tn_depth x + 1); [done|].
      unfold blen in *. rewrite length_take. simpl. lia. }
  by destruct (shown _ _).
Qed.

Lemma visible_rows_shown t :
  nested t -> visible_rows t = map Z.of_nat (List.filter (shown t) (seq 0 (length t))).
Proof.
  intros Hn. apply (visible_from_shown [] []); [|done|done].
  intros d e. split; [done|]. intros (j & n & [Hj _] & _). done.
Qed.

(** The single pass over the tree with its stack of flags shows exactly the rows all of
    whose ancestors are expanded, in order. *)
Theorem visible_rows_exact t :
  nested t -> visible_rows t = map Z.of_nat (List.filter (shown t) (seq 0 (length t))).
Proof. apply visible_rows_shown. Qed.
