(* ===== verification/GotoFacts.v ===== *)
(** Jumping to a path in the tree of the client: the tree built from a listing of the engine
    is ordered, whatever is expanded in it, and [goto_path] finds every node of it. *)
From stdpp Require Import gmap.
From S2P Require Import Prelude Text Types Ffs Tiano Codec Parser Target Ops Nvar Listing.
From S2P Require Import NvarFacts ListingFacts Terminal FormTree App TerminalFacts.

(** ** Ordered trees *)

(** Every row is a child of the row before it or of one of its ancestors; depth and marker
    of children agree with the paths. *)
Definition follows (n m : TreeNode) : Prop :=
  exists k s, segments (tn_path m) = take k (segments (tn_path n)) ++ [s].
Fixpoint ordered (t : list TreeNode) : Prop :=
  match t with
  | [] => True
  | n :: t =>
      tn_depth n = blen (segments (tn_path n)) /\
      tn_has_children n = match t with
                          | m :: _ => is_below (segments (tn_path n)) (segments (tn_path m))
                          | [] => false
                          end /\
      match t with m :: _ => follows n m | [] => True end /\
      ordered t
  end.
Definition rooted (t : list TreeNode) : Prop :=
  match t with n :: _ => tn_depth n = 0 | [] => True end /\ ordered t.

(** The trees that differ in what is expanded only. *)
Definition same_tree (t t' : list TreeNode) : Prop := map (with_expanded false) t = map (with_expanded false) t'.

Lemma collapse_inj n n' :
  with_expanded false n = with_expanded false n' ->
  tn_path n = tn_path n' /\ tn_depth n = tn_depth n' /\ tn_has_children n = tn_has_children n'.
Proof. destruct n, n'. unfold with_expanded. simpl. by intros [= -> -> _ _ _ _ _ _ -> _]. Qed.

Lemma same_tree_head t n' t' :
  same_tree t (n' :: t') ->
  exists n t0, t = n :: t0 /\ same_tree t0 t' /\
    tn_path n = tn_path n' /\ tn_depth n = tn_depth n' /\ tn_has_children n = tn_has_children n'.
Proof.
  destruct t as [|n t]; [done|]. intros [= H Ht]%(f_equal (fun l => l)).
  exists n, t. split; [done|]. split; [done|]. apply collapse_inj. unfold with_expanded. congruence.
Qed.

Lemma ordered_same t t' : same_tree t t' -> ordered t' -> ordered t.
Proof.
  revert t. induction t' as [|n' t' IH]; intros t Hs Ho; [by destruct t|].
  destruct (same_tree_head _ _ _ Hs) as (n & t0 & -> & Hs0 & Hp & Hd & Hc).
  destruct Ho as (Hd' & Hc' & Hf & Ho). specialize (IH _ Hs0 Ho).
  destruct t' as [|m' t']; [destruct t0; [|done]|].
  - split; [by rewrite Hd, Hd', Hp|]. by rewrite Hc, Hc'.
  - destruct (same_tree_head _ _ _ Hs0) as (m & t1 & -> & _ & Hpm & _).
    split; [by rewrite Hd, Hd', Hp|]. split; [by rewrite Hc, Hc', Hp, Hpm|].
    split; [|done]. unfold follows. by rewrite Hp, Hpm.
Qed.

Lemma rooted_same t t' : same_tree t t' -> rooted t' -> rooted t.
Proof.
  intros Hs [Hr Ho]. split; [|by eapply ordered_same].
  destruct t' as [|n' t']; [by destruct t|].
  destruct (same_tree_head _ _ _ Hs) as (n & t0 & -> & _ & _ & -> & _). done.
Qed.

Lemma ordered_nested t b :
  ordered t -> 0 <= b -> match t with n :: _ => tn_depth n <= b | [] => True end -> nested_from b t.
Proof.
  revert b. induction t as [|n t IH]; intros b Ho Hb Hn; [done|]. destruct Ho as (Hd & _ & Hf & Ho).
  assert (0 <= tn_depth n) by (rewrite Hd; apply blen_nonneg).
  cbn [nested_from]. split; [lia|]. apply IH; [done|lia|]. destruct t as [|m t]; [done|].
  destruct Hf as (k & s & Hs). destruct Ho as [Hdm _]. rewrite Hdm, Hs, Hd, blen_app.
  unfold blen. rewrite length_take. simpl. lia.
Qed.

Lemma rooted_nested t : rooted t -> nested t.
Proof. intros [Hr Ho]. apply ordered_nested; [done|lia|]. destruct t; [done|lia]. Qed.

(** ** Ancestors have the prefixes of the path *)

Lemma ordered_step t k n m :
  ordered t -> t !! k = Some n -> t !! S k = Some m ->
  follows n m /\ tn_depth n = blen (segments (tn_path n)) /\ tn_depth m = blen (segments (tn_path m)) /\
  tn_has_children n = is_below (segments (tn_path n)) (segments (tn_path m)).
Proof.
  revert k. induction t as [|x t IH]; intros k Ho Hn Hm; [done|]. destruct Ho as (Hd & Hc & Hf & Ho).
  destruct k as [|k]; [|by eapply IH]. injection Hn as <-. destruct t as [|y t]; [done|].
  injection Hm as <-. destruct Ho as (Hdy & _). done.
Qed.

Lemma is_anc_prefix t j i n m :
  ordered t -> (j < i)%nat -> is_anc t j i = true -> t !! j = Some n -> t !! i = Some m ->
  tn_has_children n = true /\
  exists q, q <> [] /\ segments (tn_path m) = segments (tn_path n) ++ q.
Proof.
  intros Ho Hlt Ha Hn Hm. unfold is_anc in Ha. rewrite forallb_forall in Ha.
  assert (forall d k, k = (S j + d)%nat -> (k <= i)%nat -> forall m, t !! k = Some m ->
    exists q, q <> [] /\ segments (tn_path m) = segments (tn_path n) ++ q) as H.
  { induction d as [|d IH]; intros k -> Hk m' Hm'.
    - rewrite Nat.add_0_r in *. destruct (ordered_step t j n m' Ho Hn Hm') as ((k & s & Hs) & Hdn & Hdm & _).
      specialize (Ha (S j) ltac:(apply in_seq; lia)). unfold depth_at in Ha. rewrite Hn, Hm', Hdn, Hdm, Hs in Ha.
      apply Z.ltb_lt in Ha. rewrite blen_app in Ha. unfold blen in Ha. rewrite length_take in Ha. cbn [length] in Ha.
      exists [s]. split; [done|]. rewrite Hs. f_equal. apply take_ge. lia.
    - assert (S j + d < i)%nat by lia.
      destruct (lookup_lt_is_Some_2 t (S j + d)) as [p Hp]; [apply lookup_lt_Some in Hm'; lia|].
      destruct (IH (S j + d)%nat eq_refl ltac:(lia) p Hp) as (q & Hq & Hsp).
      rewrite Nat.add_succ_r in Hm'.
      destruct (ordered_step t _ p m' Ho Hp Hm') as ((k & s & Hs) & Hdp & Hdm & _).
      specialize (Ha (S (S j + d)) ltac:(apply in_seq; lia)). unfold depth_at in Ha. rewrite Hn, Hm', Hdm, Hs in Ha.
      assert (tn_depth n = blen (segments (tn_path n))) as Hdn.
      { destruct (lookup_lt_is_Some_2 t (S j)) as [p' Hp']; [apply lookup_lt_Some in Hm; lia|].
        by destruct (ordered_step t j n p' Ho Hn Hp') as (_ & ? & _). }
      apply Z.ltb_lt in Ha. rewrite Hdn, blen_app in Ha. unfold blen in Ha. rewrite length_take in Ha. cbn [length] in Ha.
      rewrite Hs, Hsp, take_app_ge by lia. exists (take (k - length (segments (tn_path n))) q ++ [s]).
      split; [by destruct (take _ q)|].
      by rewrite <-app_assoc. }
  split; [|by apply (H (i - S j)%nat i); [lia|lia|]].
  destruct (lookup_lt_is_Some_2 t (S j)) as [p Hp]; [apply lookup_lt_Some in Hm; lia|].
  destruct (H 0%nat (S j) ltac:(lia) ltac:(lia) p Hp) as (q & Hq & Hsp).
  destruct (ordered_step t j n p Ho Hn Hp) as (_ & _ & _ & ->). unfold is_below.
  rewrite Hsp, blen_app, take_app_length, bool_decide_eq_true_2 by done. rewrite andb_true_r.
  destruct q; [done|]. rewrite blen_cons. pose proof (blen_nonneg q). lia.
Qed.

(** ** Jumping *)

Lemma expand_same want t : same_tree (expand_ancestors want t) t.
Proof.
  unfold same_tree, expand_ancestors. rewrite map_map. apply map_ext. intros n.
  by destruct (is_ancestor want n && tn_has_children n).
Qed.

Lemma expand_lookup want t k :
  expand_ancestors want t !! k =
  (fun n => if is_ancestor want n && tn_has_children n then with_expanded true n else n) <$> t !! k.
Proof. apply list_lookup_fmap. Qed.

Lemma depth_at_same t t' k : same_tree t t' -> depth_at t k = depth_at t' k.
Proof.
  intros H%(f_equal (fun l => l !! k)). rewrite !list_lookup_fmap in H. unfold depth_at.
  destruct (t !! k), (t' !! k); try done.
  apply (inj Some) in H. by apply collapse_inj in H as (_ & -> & _).
Qed.
Lemma is_anc_same t t' j i : same_tree t t' -> is_anc t j i = is_anc t' j i.
Proof.
  intros H. unfold is_anc. induction (seq (S j) (i - j)) as [|k l IH]; [done|]. simpl.
  by rewrite IH, !(depth_at_same _ _ _ H).
Qed.

(** After the expansion the addressed row is shown. *)
Lemma expand_shown t idx m :
  ordered t -> t !! idx = Some m ->
  shown (expand_ancestors (segments (tn_path m)) t) idx = true.
Proof.
  intros Ho Hm. unfold shown. apply forallb_forall. intros j Hj%in_seq.
  rewrite (is_anc_same _ _ _ _ (expand_same _ t)).
  destruct (is_anc t j idx) eqn:Ha; [|done]. simpl. rewrite expand_lookup.
  destruct (lookup_lt_is_Some_2 t j) as [n Hn]; [apply lookup_lt_Some in Hm; lia|]. rewrite Hn. simpl.
  destruct (is_anc_prefix t j idx n m Ho ltac:(lia) Ha Hn Hm) as (Hc & q & Hq & Hs).
  unfold is_ancestor. rewrite Hs, Hc, blen_app, take_app_length, bool_decide_eq_true_2 by done.
  destruct q; [done|]. rewrite blen_cons. pose proof (blen_nonneg q).
  destruct (Z.ltb_spec (blen (segments (tn_path n))) (blen (segments (tn_path n)) + (1 + blen q))); [done|lia].
Qed.

Lemma position_index {A} (p : A -> bool) l i k :
  position p l i = Some k <->
  exists j a, k = i + Z.of_nat j /\ l !! j = Some a /\ p a = true /\
    forall j' a', (j' < j)%nat -> l !! j' = Some a' -> p a' = false.
Proof.
  revert i. induction l as [|x l IH]; intros i; cbn [position]; [split; [done|by intros (? & ? & ? & ? & _)]|].
  destruct (p x) eqn:Hx.
  - split.
    + intros [= <-]. exists 0%nat, x. split; [lia|]. split; [done|]. split; [done|]. lia.
    + intros ([|j] & a & -> & Ha & Hp & Hf); [f_equal; lia|]. specialize (Hf 0%nat x ltac:(lia) eq_refl). congruence.
  - rewrite IH. split.
    + intros (j & a & -> & Ha & Hp & Hf). exists (S j), a. split; [lia|]. split; [done|]. split; [done|].
      intros [|j'] a' Hlt Ha'; [by injection Ha' as <-|]. eapply (Hf j'); [lia|done].
    + intros ([|j] & a & -> & Ha & Hp & Hf); [injection Ha as <-; congruence|].
      exists j, a. split; [lia|]. split; [done|]. split; [done|]. intros j' a' Hlt Ha'. apply (Hf (S j')); [lia|done].
Qed.
Lemma position_absent {A} (p : A -> bool) l i : position p l i = None <-> Forall (fun a => p a = false) l.
Proof.
  revert i. induction l as [|x l IH]; intros i; cbn [position]; [done|]. rewrite Forall_cons.
  destruct (p x); [split; [done|by intros [? _]]|]. rewrite IH. split; [done|by intros [_ ?]].
Qed.

Lemma get_of_nat {A} (l : list A) k : get l (Z.of_nat k) = l !! k.
Proof. unfold get. rewrite Nat2Z.id. by destruct (Z.leb_spec 0 (Z.of_nat k)); [|lia]. Qed.

Lemma goto_selects target a :
  rooted (ap_tree a) ->
  (Forall (fun n => tn_path n <> normal_path target) (ap_tree a) /\
   goto_path target a = (a, Some (GE_NoNode target))) \/
  exists a', goto_path target a = (a', None) /\ same_tree (ap_tree a') (ap_tree a) /\
    selected_path a' = Some (normal_path target).
Proof.
  intros Hr. unfold goto_path. set (norm := normal_path target).
  destruct (position _ (ap_tree a) 0) as [idx|] eqn:Hp.
  - right. apply position_index in Hp as (i & m & -> & Hm & Hpath & _). rewrite Z.add_0_l.
    apply bool_decide_eq_true in Hpath.
    set (a1 := a <| ap_tree := _ |>).
    assert (ap_tree a1 = expand_ancestors (segments norm) (ap_tree a)) as Ht by done.
    assert (rooted (ap_tree a1)) as Hr1 by (rewrite Ht; eapply rooted_same; [apply expand_same|done]).
    assert (visible a1 = map Z.of_nat (List.filter (shown (ap_tree a1)) (seq 0 (length (ap_tree a1))))) as Hv
      by (apply visible_rows_shown, rooted_nested, Hr1).
    assert (exists m', ap_tree a1 !! i = Some m' /\ tn_path m' = norm) as (m' & Hm' & Hpm).
    { rewrite Ht, expand_lookup, Hm. simpl. eexists. split; [done|]. by case_match. }
    assert (Z.of_nat i ∈ visible a1) as Hin.
    { rewrite Hv. apply list_elem_of_fmap. exists i. split; [done|]. apply list_elem_of_In, filter_In.
      split; [apply in_seq; apply lookup_lt_Some in Hm'; lia|]. rewrite Ht, <-Hpath. apply expand_shown; [by destruct Hr|done]. }
    destruct (position (Z.eqb (Z.of_nat i)) (visible a1) 0) as [c|] eqn:Hc.
    + apply position_index in Hc as (k & z & -> & Hk & Hz%Z.eqb_eq & _). subst z. rewrite Z.add_0_l.
      eexists. split; [done|]. split; [apply expand_same|].
      unfold selected_path, selected_node, selected_tree_idx.
      change (visible (a1 <| ap_cursor := Z.of_nat k |>)) with (visible a1).
      change (ap_tree (a1 <| ap_cursor := Z.of_nat k |>)) with (ap_tree a1).
      change (ap_cursor (a1 <| ap_cursor := Z.of_nat k |>)) with (Z.of_nat k).
      rewrite get_of_nat, Hk. change (tn_path <$> get (ap_tree a1) (Z.of_nat i) = Some norm).
      rewrite get_of_nat, Hm'. cbn. by rewrite Hpm.
    + exfalso. rewrite position_absent, Forall_forall in Hc. specialize (Hc _ Hin). rewrite Z.eqb_refl in Hc. done.
  - left. apply position_absent in Hp. split; [|done].
    eapply Forall_impl; [exact Hp|]. simpl. intros n Hn. by apply bool_decide_eq_false in Hn.
Qed.

(** ** The tree of a listing *)

Section ListedTree.
Context {GL : GuidLib} {LC : Lowercase}.

Lemma segments_path p : segments (path_string p) = map dec_string p.
Proof.
  unfold segments, path_string. destruct (decide (p = [])) as [->|Hp]; [done|].
  rewrite split_join.
  - apply List.forallb_filter_id, forallb_forall. intros s (i & <- & _)%in_map_iff.
    pose proof (dec_string_nonempty i). by rewrite bool_decide_eq_false_2.
  - by destruct p.
  - apply Forall_map, Forall_true. intros i. eapply Forall_impl; [apply dec_string_chars|].
    intros c Hc ->. done.
Qed.

(** A list of paths in which each one is a child of a prefix of the one before. *)
Definition path_follows (p q : list Z) : Prop := exists k i, q = take k p ++ [i].
Fixpoint chain (ps : list (list Z)) : Prop :=
  match ps with
  | [] => True
  | p :: ps => match ps with q :: _ => path_follows p q | [] => True end /\ chain ps
  end.

Lemma chain_app l k :
  chain l -> chain k -> (forall p q, last l = Some p -> head k = Some q -> path_follows p q) -> chain (l ++ k).
Proof.
  intros Hl Hk Hb. induction l as [|p l IH]; [done|]. destruct Hl as [Hp Hl]. split.
  - destruct l as [|q l]; [|done]. destruct k as [|q k]; [done|]. by apply Hb.
  - apply IH; [done|]. intros p' q' Hp' Hq'. apply Hb; [|done]. destruct l; [done|]. done.
Qed.

Lemma children_chain path i cs :
  (forall c, c ∈ cs -> forall p, chain (map fst (preorder c p))) ->
  let ps := map fst (concat_children (fun j c => preorder c (path ++ [j])) i cs) in
  chain ps /\ (forall q, head ps = Some q -> q = path ++ [i]).
Proof.
  revert i. induction cs as [|c cs IH]; intros i Hc; [done|]. cbn [concat_children]. cbv zeta.
  rewrite map_app. destruct (IH (i + 1) ltac:(intros c' Hc'; apply Hc; by right)) as [Hch Hh].
  split; [|rewrite preorder_eq; by intros q [= <-]].
  apply chain_app; [apply Hc; by left|done|].
  intros p q Hp Hq. apply Hh in Hq as ->.
  apply last_Some_elem_of, list_elem_of_fmap in Hp as ([p' m] & -> & Hin).
  apply preorder_elem in Hin as (r & -> & _). exists (length path), (i + 1). simpl.
  by rewrite <-app_assoc, take_app_length.
Qed.

Lemma preorder_chain n path : chain (map fst (preorder n path)).
Proof.
  revert path. induction n as [n IH] using FfsNode_tree_ind. intros path. rewrite Forall_forall in IH.
  rewrite preorder_eq. cbn [map fst chain].
  destruct (children_chain path 0 (children n)) as [Hc Hh]; [by intros c Hc p; apply IH|].
  split; [|done]. destruct (map fst _) as [|q qs]; [done|]. rewrite (Hh q eq_refl).
  exists (length path), 0. by rewrite take_ge by lia.
Qed.

Lemma chain_ordered pns :
  chain (map fst pns) -> ordered (build_tree (map (fun pn => row_of (fst pn) (snd pn)) pns)).
Proof.
  induction pns as [|[p n] pns IH]; [done|]. intros [Hf Hc]. cbn [map build_tree].
  split; [done|]. specialize (IH Hc). destruct pns as [|[q m] pns]; [done|].
  split; [done|]. split; [|done].
  destruct Hf as (k & i & Hq). simpl in Hq. unfold follows. simpl. rewrite Hq, !segments_path, map_app.
  exists k, (dec_string i). by rewrite firstn_map.
Qed.

Lemma listed_tree_rooted root rows : list_items root None = Ok rows -> rooted (build_tree rows).
Proof.
  rewrite list_items_eq. intros [= <-].
  assert (List.filter (listed None) (preorder root []) = preorder root []) as ->
    by (by apply List.forallb_filter_id, forallb_forall).
  split; [by rewrite preorder_eq|]. apply chain_ordered, preorder_chain.
Qed.

(** C40. In the tree the client builds from the listing of an image, whatever is expanded in
    it, jumping to a path works for every node: it expands what hides the row and leaves the
    cursor on it, and nothing but flags changes; a path without a node is an error that
    leaves the state as it was. The error for a row that stays hidden never occurs. *)
Theorem goto_path_selects root rows target a :
  list_items root None = Ok rows -> same_tree (ap_tree a) (build_tree rows) ->
  (Forall (fun n => tn_path n <> normal_path target) (ap_tree a) /\
   goto_path target a = (a, Some (GE_NoNode target))) \/
  exists a', goto_path target a = (a', None) /\ same_tree (ap_tree a') (ap_tree a) /\
    selected_path a' = Some (normal_path target).
Proof. intros Hl Hs. eapply goto_selects, rooted_same, listed_tree_rooted; done. Qed.
End ListedTree.
