(* ===== verification/FormTreeFacts.v ===== *)
(** The tree of forms of the client: the reachability loop and the recursion along the REF
    edges terminate also on cycles, and with all rows expanded every form has a row. *)
From stdpp Require Import gmap.
From S2P Require Import Prelude Text Types Ffs Tiano Codec Parser Target Ops Nvar Hii Values Ifr.
From S2P Require Import Gates ImageStrings FormTree.

(** ** Reachability *)

(** The children not yet expanded: what the loop can still push. *)
Definition weight (m : gmap Z (list (Z * ustring))) (done : gset Z) : nat :=
  map_fold (fun k kids n => if bool_decide (k ∈ done) then n else (length kids + n)%nat) 0%nat m.

Lemma weight_insert m k kids done :
  m !! k = None ->
  weight (<[k := kids]> m) done =
  ((if bool_decide (k ∈ done) then 0 else length kids) + weight m done)%nat.
Proof.
  intros Hk. unfold weight. rewrite map_fold_insert_L; [|intros; repeat case_bool_decide; lia|done].
  by case_bool_decide.
Qed.

Lemma weight_add m c done :
  c ∉ done -> (weight m ({[c]} ∪ done) + length (default [] (m !! c)) = weight m done)%nat.
Proof.
  intros Hc. induction m as [|k kids m Hk IH] using map_ind; [done|].
  rewrite !weight_insert by done. destruct (decide (k = c)) as [->|Hne].
  - rewrite lookup_insert_eq. simpl. rewrite Hk in IH. simpl in IH.
    rewrite bool_decide_eq_true_2, bool_decide_eq_false_2 by set_solver. lia.
  - rewrite lookup_insert_ne by done.
    rewrite (bool_decide_ext (k ∈ {[c]} ∪ done) (k ∈ done)) by set_solver. lia.
Qed.

Section Reach.
Context (by_id : gmap Z FormInfo) (children : gmap Z (list (Z * ustring))).

(** [z] is a form of the set that [x] refers to. *)
Definition child (x z : Z) : Prop := z ∈ own_children by_id children x.

Lemma child_spec x z :
  child x z <-> is_Some (by_id !! z) /\ exists t, (z, t) ∈ default [] (children !! x).
Proof.
  unfold child, own_children. rewrite list_elem_of_In, filter_In, <-list_elem_of_In, bool_decide_eq_true.
  rewrite list_elem_of_fmap. split.
  - intros [([z' t] & -> & Hin) Hs]. split; [done|]. by exists t.
  - intros [Hs [t Hin]]. split; [|done]. by exists (z, t).
Qed.

Lemma own_children_length x : (length (own_children by_id children x) <= length (default [] (children !! x)))%nat.
Proof. unfold own_children. etransitivity; [apply List.filter_length_le|]. by rewrite length_map. Qed.

Definition from (queue : list Z) (y : Z) : Prop := exists x, x ∈ queue /\ rtc child x y.

Lemma reachable_from_sound queue :
  exists r, reachable_from by_id children queue = Ok r /\ forall y, y ∈ r -> from queue y.
Proof.
  assert (post (reachable_from by_id children queue) (fun r => forall y, y ∈ r -> from queue y) (fun _ => False)) as H.
  { unfold reachable_from.
    apply (loop_post _ (fun s => (forall y, y ∈ fst s -> from queue y) /\ (forall y, y ∈ snd s -> from queue y))
             (fun s => (length (fst s) + weight children (snd s))%nat)).
    - intros [stack seen] [Hst Hd]. cbn [reach_step fst snd]. destruct stack as [|cur stack]; [exact Hd|].
      simpl in Hst, Hd. case_bool_decide as Hc; simpl.
      + split; [|lia]. split; [|done]. intros y Hy. apply Hst. by right.
      + split; [split|].
        * intros y [Hy%list_elem_of_In%in_rev%list_elem_of_In|Hy]%elem_of_app; [|apply Hst; by right].
          destruct (Hst cur ltac:(by left)) as (x & Hx & Hr). exists x. split; [done|].
          by eapply rtc_r.
        * intros y [->%elem_of_singleton|Hy]%elem_of_union; [apply Hst; by left|by apply Hd].
        * pose proof (weight_add children cur seen Hc). pose proof (own_children_length cur).
          rewrite length_app, length_rev. lia.
    - split; [|by intros y ?%elem_of_empty]. intros y Hy. apply list_elem_of_In, in_rev, list_elem_of_In in Hy.
      exists y. split; [done|]. apply rtc_refl.
    - simpl. rewrite length_rev. unfold reach_fuel.
      assert (weight children ∅ = map_fold (fun _ kids n => (length kids + n)%nat) 0%nat children) as <-; [|lia].
      reflexivity. }
  destruct (reachable_from by_id children queue); try done. eexists. split; [done|]. done.
Qed.

(** ** Simple paths *)

Inductive reach : gset Z -> Z -> Z -> Prop :=
| RC_here A x : x ∉ A -> reach A x x
| RC_step A x z y : x ∉ A -> child x z -> reach ({[x]} ∪ A) z y -> reach A x y.

Fixpoint kid_path (x : Z) (l : list Z) : Prop :=
  match l with [] => True | z :: l => child x z /\ kid_path z l end.

Lemma walk_app x l z k : kid_path x (l ++ z :: k) -> kid_path z k.
Proof. revert x. induction l as [|a l IH]; intros x [_ H]; [done|]. by eapply IH. Qed.

Lemma last_cons (z : Z) l d : List.last (z :: l) d = List.last l z.
Proof.
  revert z. induction l as [|b l IH]; intros z; [done|]. change (List.last (b :: l) d = List.last (b :: l) z).
  rewrite (IH b). clear. revert b. by induction l as [|c l IH]; intros b; [|cbn [List.last]; destruct l].
Qed.
Lemma last_behind (l1 l2 : list Z) x d : List.last (l1 ++ x :: l2) d = List.last l2 x.
Proof.
  induction l1 as [|a l1 IH]; [apply last_cons|]. cbn [app]. rewrite last_cons. rewrite <-IH.
  destruct l1; cbn [app]; by rewrite !last_cons.
Qed.

Lemma walk_reach n x l A :
  (length l <= n)%nat -> kid_path x l -> x ∉ A -> (forall v, v ∈ l -> v ∉ A) -> reach A x (List.last l x).
Proof.
  revert x l A. induction n as [|n IH]; intros x l A Hn Hw Hx Hl;
    [destruct l; [by constructor|simpl in Hn; lia]|].
  assert (exists l2, (length l2 <= length l)%nat /\ kid_path x l2 /\ x ∉ l2 /\ List.last l2 x = List.last l x /\
            forall v, v ∈ l2 -> v ∉ A) as (l2 & Hlen & Hw2 & Hx2 & <- & Hl2).
  { destruct (decide (x ∈ l)) as [Hin|]; [|by exists l].
    apply list_elem_of_split_r in Hin as (l1 & l2 & -> & Hx2). exists l2. rewrite length_app. simpl.
    split; [lia|]. split; [by eapply walk_app|]. split; [done|]. split.
    - by rewrite last_behind.
    - intros v Hv. apply Hl. apply elem_of_app. right. by right. }
  destruct l2 as [|z l2]; [by constructor|]. destruct Hw2 as [Hxz Hw2].
  eapply RC_step; [done|exact Hxz|].
  rewrite last_cons.
  apply IH; [simpl in Hlen; lia|done|..].
  - apply not_elem_of_union. split; [|apply Hl2; by left]. apply not_elem_of_singleton. intros ->. apply Hx2. by left.
  - intros v Hv. apply not_elem_of_union. split; [|apply Hl2; by right].
    apply not_elem_of_singleton. intros ->. apply Hx2. by right.
Qed.

Lemma rtc_walk x y : rtc child x y -> exists l, kid_path x l /\ List.last l x = y.
Proof.
  induction 1 as [x|x z y Hxz _ (l & Hw & Hl)]; [by exists []|].
  exists (z :: l). split; [done|]. by rewrite last_cons.
Qed.

Lemma rtc_reach x y : rtc child x y -> reach ∅ x y.
Proof.
  intros (l & Hw & <-)%rtc_walk. eapply walk_reach; [done|done|..]; set_solver.
Qed.
End Reach.

(** ** Emission of rows *)

Definition row_of (f : FormInfo) (rows : list FormsRow) : Prop :=
  exists depth path kids ex, FR_Form (form_key f) (fo_visible f) depth path kids ex ∈ rows.
Definition row_for (by_id : gmap Z FormInfo) (id : Z) (rows : list FormsRow) : Prop :=
  exists f, by_id !! id = Some f /\ row_of f rows.

Lemma row_of_app f l k : row_of f (l ++ k) <-> row_of f l \/ row_of f k.
Proof. unfold row_of. setoid_rewrite elem_of_app. naive_solver. Qed.
Lemma has_row_app m id l k : row_for m id (l ++ k) <-> row_for m id l \/ row_for m id k.
Proof. unfold row_for. setoid_rewrite row_of_app. naive_solver. Qed.

(** The state grows by forms with the property [P], which get a row. *)
Definition grows (m : gmap Z FormInfo) (P : Z -> Prop) (st st' : gset Z * list FormsRow) : Prop :=
  fst st ⊆ fst st' /\
  exists more, snd st' = snd st ++ more /\
    forall id, id ∈ fst st' -> id ∈ fst st \/ (P id /\ row_for m id more).

#[export] Instance grows_preorder m0 P : PreOrder (grows m0 P).
Proof.
  split.
  - intros st. split; [done|]. exists []. rewrite app_nil_r. split; [done|]. by left.
  - intros a b c [Hab (m & Hm & Hr)] [Hbc (m' & Hm' & Hr')]. split; [by etransitivity|].
    exists (m ++ m'). rewrite Hm', Hm, app_assoc. split; [done|]. intros id Hid.
    destruct (Hr' id Hid) as [Hb|[HP Hrow]]; [destruct (Hr id Hb) as [|[HP Hrow]]; [by left|]|];
      right; (split; [done|]); apply has_row_app; [by left|by right].
Qed.

Lemma grows_weaken m0 (P P' : Z -> Prop) st st' :
  (forall id, P id -> P' id) -> grows m0 P st st' -> grows m0 P' st st'.
Proof.
  intros HP [Hs (m & Hm & Hr)]. split; [done|]. exists m. split; [done|]. intros id Hid.
  destruct (Hr id Hid) as [|[? ?]]; [by left|right]. split; [by apply HP|done].
Qed.

Lemma grows_row m0 P st row : grows m0 P st (fst st, snd st ++ [row]).
Proof. split; [done|]. exists [row]. split; [done|]. by left. Qed.

(** A loop of growing steps grows; what a step emits stays emitted. *)
Lemma foldM_grows {A} m0 P (f : gset Z * list FormsRow -> A -> pure (gset Z * list FormsRow)) l
    (Q : A -> gset Z -> Prop) st :
  (forall a e e', Q a e -> e ⊆ e' -> Q a e') ->
  (forall a st, a ∈ l -> exists st', f st a = Ok st' /\ grows m0 P st st' /\ Q a (fst st')) ->
  exists st', foldM f l st = Ok st' /\ grows m0 P st st' /\ forall a, a ∈ l -> Q a (fst st').
Proof.
  intros Hmono. revert st. induction l as [|a l IH]; intros st Hf;
    [exists st; split; [done|]; split; [done|]; by intros a ?%elem_of_nil|].
  cbn [foldM]. destruct (Hf a st ltac:(by left)) as (st1 & -> & Hg & Hq). simpl.
  destruct (IH st1 ltac:(intros; apply Hf; by right)) as (st2 & -> & Hg2 & Hq2).
  exists st2. split; [done|]. split; [by etransitivity|].
  intros b [->|Hb]%elem_of_cons; [|by apply Hq2]. eapply Hmono; [done|]. by destruct Hg2.
Qed.

Section EmitFacts.
Context (by_id : gmap Z FormInfo) (children : gmap Z (list (Z * ustring))).
Context (global : gmap (ustring * Z) FormInfo) (guid : ustring) (expanded : gset ustring).
Hypothesis ids : forall id f, by_id !! id = Some f -> fo_form_id_ifr f = id /\ fo_formset_guid f = guid.

(** Every form with children is expanded. *)
Definition all_expanded : Prop :=
  forall id f, by_id !! id = Some f -> default [] (children !! id) <> [] -> row_key guid id ∈ expanded.

Lemma size_step A x :
  x ∈ dom by_id -> x ∉ A -> (size (dom by_id ∖ ({[x]} ∪ A)) < size (dom by_id ∖ A))%nat.
Proof. intros. apply subset_size. set_solver. Qed.

Abbreviation emit_here := (emit_form by_id children global guid expanded).
Abbreviation below x := (rtc (child by_id children) x).

(** What a form with the path [path] emits for one of its children. *)
Definition kid_step (fuel : nat) (x depth : Z) (path : list ustring) (A : gset Z)
  (st : gset Z * list FormsRow) (kid : Z * ustring) : pure (gset Z * list FormsRow) :=
  let dangling := (fst st, snd st ++ [FR_DanglingRef (fst kid) (depth + 1)]) in
  if bool_decide (is_Some (by_id !! fst kid)) then emit_here fuel (fst kid) (depth + 1) path ({[x]} ∪ A) st
  else if bool_decide (snd kid = []) then mret dangling
  else match global !! (snd kid, fst kid) with
       | Some y => mret (fst st, snd st ++ [cross_row y expanded (depth + 1) path])
       | None => mret dangling
       end.

Lemma foldM_ext {A} (f g : gset Z * list FormsRow -> A -> pure (gset Z * list FormsRow)) l st :
  (forall s a, f s a = g s a) -> foldM f l st = foldM g l st.
Proof.
  intros H. revert st. induction l as [|a l IH]; intros st; [done|]. cbn [foldM]. rewrite H.
  destruct (g st a); [apply IH|done..].
Qed.

Lemma emit_form_eq fuel x depth path A st :
  emit_here (S fuel) x depth path A st =
  if bool_decide (x ∈ A) then Ok st
  else match by_id !! x with
       | None => Ok st
       | Some f =>
           let kids := default [] (children !! x) in
           let ex := bool_decide (row_key guid x ∈ expanded) in
           let path := path ++ [fo_title f] in
           let st := ({[x]} ∪ fst st,
                      snd st ++ [form_row f guid depth path (negb (bool_decide (kids = []))) ex]) in
           if negb (bool_decide (kids = [])) && ex then foldM (kid_step fuel x depth path A) kids st
           else mret st
       end.
Proof.
  cbn [emit_form]. destruct (bool_decide (x ∈ A)); [reflexivity|]. destruct (by_id !! x) as [f|]; [|reflexivity].
  cbv zeta. destruct (negb _ && _); [|reflexivity]. apply foldM_ext. intros s [z t]. reflexivity.
Qed.

Lemma emit_form_spec fuel x depth path A st :
  (size (dom by_id ∖ A) < fuel)%nat ->
  exists st', emit_here fuel x depth path A st = Ok st' /\ grows by_id (below x) st st' /\
    (all_expanded -> is_Some (by_id !! x) -> forall y, reach by_id children A x y -> y ∈ fst st').
Proof.
  revert x depth path A st. induction fuel as [|fuel IH]; intros x depth path A st Hf; [lia|].
  rewrite emit_form_eq. case_bool_decide as HA.
  { exists st. split; [done|]. split; [done|]. intros _ _ y Hy. by destruct Hy. }
  destruct (by_id !! x) as [f|] eqn:Hx; [|exists st; split; [done|]; split; [done|]; by intros _ [? ?]].
  set (kids := default [] (children !! x)).
  set (ex := bool_decide (row_key guid x ∈ expanded)). cbv zeta.
  set (row := form_row _ _ _ _ _ _). set (st1 := ({[x]} ∪ fst st, snd st ++ [row])).
  assert (x ∈ fst st1) as Hx1 by (simpl; set_solver).
  assert (grows by_id (below x) st st1) as Hg1.
  { split; [simpl; set_solver|]. exists [row]. split; [done|]. intros id Hid. simpl in Hid.
    apply elem_of_union in Hid as [->%elem_of_singleton|Hid]; [|by left].
    right. split; [apply rtc_refl|]. exists f. split; [done|].
    destruct (ids x f Hx) as [_ Hg]. unfold row_of, row, form_row, form_key. rewrite Hg.
    do 4 eexists. by left. }
  assert ((size (dom by_id ∖ ({[x]} ∪ A)) < fuel)%nat) as Hf'.
  { pose proof (size_step A x ltac:(by apply elem_of_dom_2 in Hx) HA). lia. }
  destruct (negb (bool_decide (kids = [])) && ex) eqn:Hk.
  - destruct (foldM_grows by_id (below x) (kid_step fuel x depth (path ++ [fo_title f]) A) kids
      (fun kid e => all_expanded -> is_Some (by_id !! fst kid) ->
         forall y, reach by_id children ({[x]} ∪ A) (fst kid) y -> y ∈ e) st1) as (st' & Hst & Hg & Hq).
    { intros a e e' H He Ha Hs y Hy. apply He. by apply H. }
    { intros [z target] s Hin. unfold kid_step. cbn [fst snd]. cbv zeta.
      destruct (bool_decide (is_Some (by_id !! z))) eqn:Hc.
      - apply bool_decide_eq_true in Hc.
        destruct (IH z (depth + 1) (path ++ [fo_title f]) ({[x]} ∪ A) s Hf') as (s' & -> & Hgs & Hr).
        exists s'. split; [done|]. split; [|done]. eapply grows_weaken; [|exact Hgs].
        intros id Hid. eapply rtc_l; [|exact Hid]. apply child_spec. split; [done|]. by exists target.
      - apply bool_decide_eq_false in Hc.
        destruct (bool_decide (target = [])); [|destruct (global !! (target, z))];
          (eexists; split; [reflexivity|]; split; [apply grows_row|]; intros _ Hs; exfalso; exact (Hc Hs)). }
    exists st'. split; [exact Hst|]. split; [by etransitivity|].
    intros Ha _ y Hy. inversion Hy as [? ? _|? ? z ? _ Hxz Hzy]; subst; [by apply Hg|].
    apply child_spec in Hxz as [Hz [t Hin]]. by apply (Hq (z, t) Hin).
  - exists st1. split; [done|]. split; [done|]. intros Ha _ y Hy.
    inversion Hy as [? ? _|? ? z ? _ Hxz _]; subst; [done|]. exfalso.
    apply child_spec in Hxz as [_ [t Hin]]. fold kids in Hin.
    assert (kids <> []) as Hne by (intros He; rewrite He in Hin; by apply elem_of_nil in Hin).
    rewrite bool_decide_eq_false_2 in Hk by done. simpl in Hk. unfold ex in Hk.
    apply bool_decide_eq_false in Hk. apply Hk. by eapply Ha.
Qed.

(** One root: what is emitted stays closed under the edges. *)
Definition closed (e : gset Z) : Prop := forall x y, x ∈ e -> below x y -> y ∈ e.
Definition root_step (st : gset Z * list FormsRow) (root : Z) : pure (gset Z * list FormsRow) :=
  if bool_decide (root ∈ fst st) then mret st else emit_here (S (size by_id)) root 1 [] ∅ st.

Lemma root_step_spec st root :
  exists st', root_step st root = Ok st' /\ grows by_id (fun _ => True) st st' /\
    (all_expanded -> is_Some (by_id !! root) -> closed (fst st) -> closed (fst st') /\ root ∈ fst st').
Proof.
  unfold root_step. case_bool_decide as Hr; [exists st; by split_and!|].
  destruct (emit_form_spec (S (size by_id)) root 1 [] ∅ st) as (st' & -> & Hg & Hq).
  { rewrite difference_empty_L, size_dom. lia. }
  exists st'. split; [done|]. split; [by eapply grows_weaken, Hg|]. intros Ha Hs Hc.
  assert (forall y, below root y -> y ∈ fst st') as Hall by (intros y Hy; apply Hq; [done..|by apply rtc_reach]).
  split; [|apply Hall, rtc_refl]. intros x y Hx Hxy. destruct Hg as [Hsub (more & _ & Hm)].
  destruct (Hm x Hx) as [Hx0|[Hx0 _]]; [apply Hsub; by eapply Hc|]. apply Hall. by etransitivity.
Qed.

(** The roots of a form set one after the other. *)
Lemma emit_roots queue st :
  exists st', foldM root_step queue st = Ok st' /\ grows by_id (fun _ => True) st st' /\
    (all_expanded -> (forall x, x ∈ queue -> is_Some (by_id !! x)) -> closed (fst st) ->
     closed (fst st') /\ forall x, x ∈ queue -> x ∈ fst st').
Proof.
  revert st. induction queue as [|root queue IH]; intros st.
  { exists st. split; [done|]. split; [done|]. intros _ _ Hc. split; [done|]. by intros x ?%elem_of_nil. }
  cbn [foldM]. destruct (root_step_spec st root) as (st1 & -> & Hg1 & H1). simpl.
  destruct (IH st1) as (st2 & -> & Hg2 & H2). exists st2. split; [done|]. split; [by etransitivity|].
  intros Ha Hq Hc. destruct (H1 Ha (Hq root ltac:(by left)) Hc) as [Hc1 Hr].
  destruct (H2 Ha ltac:(intros; apply Hq; by right) Hc1) as [Hc2 Hr2]. split; [done|].
  intros x [->|Hx]%elem_of_cons; [|by apply Hr2]. by apply Hg2.
Qed.
End EmitFacts.

(** ** The maps of a form set *)

Definition of_set (guid : ustring) (forms : list FormInfo) : list FormInfo :=
  List.filter (fun f => bool_decide (fo_formset_guid f = guid)) forms.

Lemma of_set_elem guid forms f : f ∈ of_set guid forms <-> f ∈ forms /\ fo_formset_guid f = guid.
Proof.
  unfold of_set. rewrite list_elem_of_In, filter_In, bool_decide_eq_true, <-list_elem_of_In. done.
Qed.

Lemma group_forms_spec forms :
  (forall f, f ∈ forms -> fo_formset_guid f ∈ fst (group_forms forms)) /\
  (forall g, snd (group_forms forms) !! g =
             match of_set g forms with [] => None | l => Some l end).
Proof.
  unfold group_forms. induction forms as [|f forms [IHo IHm]] using rev_ind.
  { split; [by intros f ?%elem_of_nil|done]. }
  rewrite fold_left_app. cbn [fold_left]. destruct (fold_left group_step forms ([], ∅)) as [order by_set].
  simpl in IHo, IHm. cbn [group_step fst snd]. split.
  - intros f' [Hf| ->%list_elem_of_singleton]%elem_of_app.
    + case_bool_decide; [by apply IHo|]. apply elem_of_app. left. by apply IHo.
    + case_bool_decide as Hs; [|apply elem_of_app; right; by left]. rewrite IHm in Hs.
      destruct (of_set (fo_formset_guid f) forms) as [|f' l] eqn:Hl; [by destruct Hs|].
      assert (f' ∈ of_set (fo_formset_guid f) forms) as [Hin <-]%of_set_elem by (rewrite Hl; by left).
      by apply IHo.
  - intros g. unfold of_set. rewrite List.filter_app. cbn [List.filter].
    destruct (decide (fo_formset_guid f = g)) as [<-|Hne].
    + rewrite lookup_insert_eq, bool_decide_eq_true_2, IHm by done.
      fold (of_set (fo_formset_guid f) forms). by destruct (of_set (fo_formset_guid f) forms).
    + rewrite lookup_insert_ne, bool_decide_eq_false_2, app_nil_r by done. apply IHm.
Qed.

Lemma forms_by_id_spec l :
  (forall id f, forms_by_id l !! id = Some f -> f ∈ l /\ fo_form_id_ifr f = id) /\
  (forall f, f ∈ l -> is_Some (forms_by_id l !! fo_form_id_ifr f)) /\
  (forall id, forms_by_id l !! id = last (List.filter (fun g => fo_form_id_ifr g =? id) l)).
Proof.
  unfold forms_by_id. induction l as [|f l (IHs & IHd & IHl)] using rev_ind;
    [split_and!; [by intros id f H|by intros f ?%elem_of_nil|done]|].
  rewrite fold_left_app. cbn [fold_left]. split_and!.
  - intros id f' [[<- ->]|[_ H]]%lookup_insert_Some.
    + split; [apply elem_of_app; right; by left|done].
    + destruct (IHs _ _ H). split; [apply elem_of_app; by left|done].
  - intros f' [Hf| ->%list_elem_of_singleton]%elem_of_app; [|by rewrite lookup_insert_eq].
    rewrite lookup_insert_is_Some. destruct (decide (fo_form_id_ifr f = fo_form_id_ifr f')); [by left|right].
    split; [done|]. by apply IHd.
  - intros id. rewrite List.filter_app. cbn [List.filter].
    destruct (Z.eqb_spec (fo_form_id_ifr f) id) as [<-|Hne].
    + by rewrite lookup_insert_eq, last_snoc.
    + by rewrite lookup_insert_ne, app_nil_r.
Qed.

(** A form with children has an edge. *)
Lemma formset_edges_parent guid edges id :
  default [] (fst (formset_edges guid edges) !! id) <> [] ->
  exists e, e ∈ edges /\ ed_formset_guid e = guid /\ ed_parent_form_id e = id.
Proof.
  unfold formset_edges. induction edges as [|e edges IH] using rev_ind; [done|].
  rewrite fold_left_app. cbn [fold_left]. destruct (fold_left _ edges _) as [children inc].
  unfold edge_step. destruct (bool_decide (ed_formset_guid e = guid)) eqn:Hg; cbn [negb fst].
  - apply bool_decide_eq_true in Hg. destruct (decide (ed_parent_form_id e = id)) as [<-|Hne].
    + intros _. exists e. split; [apply elem_of_app; right; by left|done].
    + rewrite lookup_insert_ne by done. intros H. destruct (IH H) as (e' & He & ?).
      exists e'. split; [apply elem_of_app; by left|done].
  - intros H. destruct (IH H) as (e' & He & ?). exists e'. split; [apply elem_of_app; by left|done].
Qed.

Lemma all_row_keys_spec forms edges :
  (forall f, f ∈ forms -> fo_formset_guid f ∈ all_row_keys forms edges) /\
  (forall f e, f ∈ forms -> e ∈ edges -> ed_formset_guid e = fo_formset_guid f ->
     ed_parent_form_id e = fo_form_id_ifr f -> row_key (fo_formset_guid f) (fo_form_id_ifr f) ∈ all_row_keys forms edges).
Proof.
  unfold all_row_keys. set (parents := list_to_set _).
  set (step := fun (set : gset ustring) (f : FormInfo) => _).
  assert (forall l set, set ⊆ fold_left step l set /\
    forall f, f ∈ l -> (fo_formset_guid f, fo_form_id_ifr f) ∈ parents ->
      row_key (fo_formset_guid f) (fo_form_id_ifr f) ∈ fold_left step l set) as H.
  { induction l as [|f l IH]; intros set; [split; [done|by intros f ?%elem_of_nil]|]. cbn [fold_left].
    destruct (IH (step set f)) as [Hs Hf].
    assert (set ⊆ step set f) by (unfold step; case_bool_decide; set_solver).
    split; [by etransitivity|]. intros f' [->|Hin]%elem_of_cons Hp; [|by apply Hf].
    apply Hs. unfold step. rewrite bool_decide_eq_true_2 by done. set_solver. }
  destruct (H forms (all_formset_guids forms)) as [Hs Hf]. split.
  - intros f Hin. apply Hs. unfold all_formset_guids. apply elem_of_list_to_set, list_elem_of_fmap. by exists f.
  - intros f e Hin He Hg Hp. apply Hf; [done|]. unfold parents. apply elem_of_list_to_set, list_elem_of_fmap.
    exists e. by rewrite Hg, Hp.
Qed.

(** ** The whole tree *)

(** The queue of roots covers the form set: a form is a root or below one. *)
Lemma root_queue_spec l children inc :
  exists queue, root_queue l (forms_by_id l) children inc = Ok queue /\
    (forall x, x ∈ queue -> exists f, f ∈ l /\ fo_form_id_ifr f = x) /\
    (forall f, f ∈ l -> from (forms_by_id l) children queue (fo_form_id_ifr f)).
Proof.
  unfold root_queue. set (queue := map _ _).
  destruct (reachable_from_sound (forms_by_id l) children queue) as (r & -> & Hr). simpl.
  set (step := fun (q : list Z) (f : FormInfo) => _). eexists. split; [done|].
  assert (forall x, x ∈ queue -> exists f, f ∈ l /\ fo_form_id_ifr f = x) as Hq.
  { intros x (f & -> & Hf)%list_elem_of_fmap. apply list_elem_of_In, filter_In in Hf as [Hf _].
    exists f. split; [by apply list_elem_of_In|done]. }
  assert (forall k q, (forall f, f ∈ k -> f ∈ l) -> (forall x, x ∈ queue -> x ∈ q) ->
    (forall x, x ∈ q -> exists f, f ∈ l /\ fo_form_id_ifr f = x) ->
    (forall x, x ∈ q -> x ∈ fold_left step k q) /\
    (forall x, x ∈ fold_left step k q -> exists f, f ∈ l /\ fo_form_id_ifr f = x) /\
    (forall f, f ∈ k -> fo_form_id_ifr f ∈ r \/ fo_form_id_ifr f ∈ fold_left step k q)) as H.
  { induction k as [|f k IH]; intros q Hk Hqq Hql; [split; [done|]; split; [done|]; by intros f ?%elem_of_nil|].
    cbn [fold_left]. destruct (IH (step q f)) as (H1 & H2 & H3).
    - intros f' Hf'. apply Hk. by right.
    - intros x Hx. unfold step. case_match; [apply elem_of_app; left|]; by apply Hqq.
    - intros x. unfold step. case_match; [|apply Hql].
      intros [Hx| ->%list_elem_of_singleton]%elem_of_app; [by apply Hql|]. exists f. split; [apply Hk; by left|done].
    - assert (forall x, x ∈ q -> x ∈ step q f) as Hqs
        by (intros x Hx; unfold step; case_match; [apply elem_of_app; by left|done]).
      split; [intros x Hx; by apply H1, Hqs|]. split; [done|].
      intros f' [->|Hf']%elem_of_cons; [|by apply H3].
      destruct (decide (fo_form_id_ifr f ∈ r)) as [|Hnr]; [by left|right]. apply H1.
      destruct (decide (fo_form_id_ifr f ∈ q)) as [Hin|Hnq]; [by apply Hqs|].
      unfold step. rewrite !bool_decide_eq_false_2 by done. simpl. apply elem_of_app. right. by left. }
  destruct (H l queue) as (H1 & H2 & H3); [done..|]. split; [done|]. intros f Hf.
  destruct (H3 f Hf) as [Hin|Hin].
  - destruct (Hr _ Hin) as (x & Hx & Hxy). exists x. split; [by apply H1|done].
  - eexists. split; [done|]. apply rtc_refl.
Qed.

(** The forms of the list that the maps of the tree do not tell apart from [f]. *)
Definition same_form (f g : FormInfo) : bool :=
  bool_decide (fo_formset_guid g = fo_formset_guid f) && (fo_form_id_ifr g =? fo_form_id_ifr f).

(** The form that stands for [f] has a row. *)
Definition represented (forms : list FormInfo) (f : FormInfo) (rows : list FormsRow) : Prop :=
  exists g, last (List.filter (same_form f) forms) = Some g /\ row_of g rows.

Lemma represented_app forms f l k :
  represented forms f l \/ represented forms f k -> represented forms f (l ++ k).
Proof. intros [(g & Hg & H)|(g & Hg & H)]; exists g; (split; [done|]); apply row_of_app; auto. Qed.

Lemma by_id_same forms f :
  forms_by_id (of_set (fo_formset_guid f) forms) !! fo_form_id_ifr f
  = last (List.filter (same_form f) forms).
Proof.
  destruct (forms_by_id_spec (of_set (fo_formset_guid f) forms)) as (_ & _ & ->). f_equal.
  unfold of_set. induction forms as [|g l IH]; [done|]. cbn [List.filter]. unfold same_form at 1.
  case_bool_decide; cbn [andb List.filter]; [|exact IH]. case_match; by rewrite IH.
Qed.

Lemma formset_rows_spec forms edges expanded rows guid :
  exists more, formset_rows forms edges expanded (snd (group_forms forms)) rows guid = Ok (rows ++ more) /\
    (all_row_keys forms edges ⊆ expanded ->
     forall f, f ∈ forms -> fo_formset_guid f = guid -> represented forms f more).
Proof.
  unfold formset_rows. destruct (group_forms_spec forms) as [_ Hm]. rewrite Hm. cbv zeta.
  destruct (all_row_keys_spec forms edges) as [Hguids Hparents].
  destruct (bool_decide (guid ∈ expanded)) eqn:Hex; cbn [negb].
  2:{ eexists [_]. split; [done|]. intros Hall f Hf <-. apply bool_decide_eq_false in Hex.
      exfalso. apply Hex, Hall. by apply Hguids. }
  destruct (of_set guid forms) as [|f0 l0] eqn:Hl.
  { eexists [_]. split; [done|]. intros _ f Hf Hg. exfalso.
    assert (f ∈ of_set guid forms) as Hin by (by apply of_set_elem). rewrite Hl in Hin. by apply elem_of_nil in Hin. }
  rewrite <-Hl. set (l := of_set guid forms).
  destruct (formset_edges guid edges) as [children inc] eqn:He.
  destruct (root_queue_spec l children inc) as (queue & -> & Hq & Hfrom). cbn [mbind outcome_bind].
  destruct (forms_by_id_spec l) as (Hids & Hdom & _).
  destruct (emit_roots (forms_by_id l) children (forms_global forms) guid expanded
    ltac:(intros id f [Hf <-]%Hids; by apply of_set_elem in Hf as [_ <-]) queue (∅, rows ++ [FR_FormSet guid true])) as (st & Hst & Hg & Hall).
  unfold root_step in Hst. rewrite Hst. simpl. destruct Hg as [_ (more & Hmore & Hrows)]. rewrite Hmore. simpl.
  exists ([FR_FormSet guid true] ++ more). rewrite app_assoc. split; [done|].
  intros Hkeys f Hf Hfg. apply represented_app. right.
  assert (f ∈ l) as Hfl by (by apply of_set_elem).
  assert (all_expanded (forms_by_id l) children guid expanded) as Hexp.
  { intros id f' [Hf' <-]%Hids Hkids. replace children with (fst (formset_edges guid edges)) in Hkids by (by rewrite He).
    apply formset_edges_parent in Hkids as (e & Hin & Heg & Hep). apply of_set_elem in Hf' as [Hf' <-].
    apply Hkeys. by eapply Hparents. }
  destruct Hall as [Hclosed Hroots]; [done| |by intros x y ?%elem_of_empty|].
  { intros x (f' & Hf' & <-)%Hq. by apply Hdom. }
  destruct (Hfrom f Hfl) as (x & Hx & Hxf).
  destruct (Hrows (fo_form_id_ifr f)) as [Hbad|[_ (g & Hg & Hrow)]]; [|by apply elem_of_empty in Hbad|].
  2:{ exists g. split; [|done]. rewrite <-by_id_same. by subst guid. }
  eapply Hclosed; [by apply Hroots|done].
Qed.

(** C39. The tree of forms is built for every list of forms and edges, also along cycles: the
    reachability loop and the recursion end within their bounds. With every row expanded, as
    the view opens, each form whose form-set GUID and identifier are its own has a row with
    its title and target, whatever the edges are; of several forms with the same GUID and
    identifier the last one has it. *)
Theorem build_tree_rows_complete forms edges expanded :
  exists rows, build_tree_rows forms edges expanded = Ok rows /\
    (all_row_keys forms edges ⊆ expanded ->
     forall f, f ∈ forms -> represented forms f rows /\
       ((forall g, g ∈ forms -> same_form f g = true -> g = f) -> row_of f rows)).
Proof.
  unfold build_tree_rows. destruct (group_forms_spec forms) as [Ho _].
  pose proof (formset_rows_spec forms edges expanded) as Hstep.
  destruct (group_forms forms) as [order by_set]. simpl in Ho, Hstep.
  assert (forall order rows, exists more,
    foldM (formset_rows forms edges expanded by_set) order rows = Ok (rows ++ more) /\
    (all_row_keys forms edges ⊆ expanded -> forall f, f ∈ forms -> fo_formset_guid f ∈ order ->
       represented forms f more)) as H.
  { clear order Ho. induction order as [|g order IH]; intros rows.
    { exists []. rewrite app_nil_r. split; [done|]. intros _ f _ Hf. by apply elem_of_nil in Hf. }
    cbn [foldM]. destruct (Hstep rows g) as (m1 & -> & H1). cbn [mbind outcome_bind].
    destruct (IH (rows ++ m1)) as (m2 & -> & H2). exists (m1 ++ m2). rewrite app_assoc. split; [done|].
    intros Hk f Hf [Hg|Hg]%elem_of_cons; apply represented_app; [left; subst g; by apply H1|right; by apply H2]. }
  destruct (H order []) as (more & -> & Hm). exists more. split; [done|]. intros Hk f Hf.
  assert (represented forms f more) as Hr by (by apply Hm, Ho). split; [done|]. intros Hu.
  destruct Hr as (g & Hg & Hrow). apply last_Some_elem_of, list_elem_of_In, filter_In in Hg as [Hg Hs].
  rewrite (Hu g) in Hrow; [done|by apply list_elem_of_In|done].
Qed.
