(* ===== verification/KeyFacts.v ===== *)
(** The command mode of the client: with ASCII data every sequence of keys runs without a
    panic, the selected completion stays on a row that is shown and the recalled entry in
    the history. *)
From stdpp Require Import gmap sorting.
From S2P Require Import Prelude Text Types Ffs Tiano Codec Parser Target Ops Nvar Listing Hii.
From S2P Require Import Values Ifr Gates ImageStrings ImageGates ImageValues ListingFacts.
From S2P Require Server.
From S2P Require Import Terminal FormTree App Completion TerminalFacts.

(** ** ASCII text *)

Definition ascii (s : ustring) : Prop := Forall (fun c => 0 <= c < 128) s.
Definition asciis (l : list ustring) : Prop := Forall ascii l.

Lemma ascii_app s t : ascii (s ++ t) <-> ascii s /\ ascii t.
Proof. apply Forall_app. Qed.
Lemma ascii_incl s t : (forall c, c ∈ s -> c ∈ t) -> ascii t -> ascii s.
Proof. unfold ascii. rewrite !Forall_forall. eauto. Qed.
Lemma ascii_len s : ascii s -> str_len s = blen s.
Proof.
  induction 1 as [|c s Hc _ IH]; [done|]. rewrite str_len_cons, blen_cons, IH. unfold len_utf8.
  destruct (Z.ltb_spec c 0x80); [done|lia].
Qed.
Lemma asciis_incl l k : (forall s, s ∈ l -> s ∈ k) -> asciis k -> asciis l.
Proof. unfold asciis. rewrite !Forall_forall. eauto. Qed.

Lemma starting_ascii token l : asciis l -> asciis (starting token l).
Proof.
  apply asciis_incl. intros s Hs. apply list_elem_of_In, filter_In in Hs as [Hs _]. by apply list_elem_of_In.
Qed.
Lemma unique_from_ascii seen l : asciis l -> asciis (unique_from seen l).
Proof.
  intros H. revert seen. induction H as [|s l Hs Hl IH]; intros seen; [constructor|]. cbn [unique_from].
  case_bool_decide; [apply IH|]. constructor; [done|apply IH].
Qed.
Lemma us_ascii_bool (s : String.string) : forallb (fun c => (0 <=? c) && (c <? 128)) (us s) = true -> ascii (us s).
Proof. intros H. rewrite forallb_forall in H. apply Forall_forall. intros c Hc%list_elem_of_In%H. lia. Qed.
Lemma literals_ascii token ws :
  forallb (fun w => forallb (fun c => (0 <=? c) && (c <? 128)) (us w)) ws = true -> asciis (literals token ws).
Proof.
  intros H. apply starting_ascii. rewrite forallb_forall in H. apply Forall_map, Forall_forall.
  intros w Hw%list_elem_of_In%H. by apply us_ascii_bool.
Qed.
Lemma dec_string_ascii n : ascii (dec_string n).
Proof.
  eapply Forall_impl; [apply dec_string_chars|]. intros c Hc. unfold is_ascii_digit in Hc. lia.
Qed.

(** ** ASCII data *)

(** The texts that completion offers: identifiers, paths and names of the loaded data, the
    entries of directories and the home directory. *)
Record ascii_data (sh : Shell) (a : App) : Prop := {
  ad_home : ascii (sh_home sh);
  ad_dirs : forall dir rd name kind, sh_read_dir sh dir = Some rd -> (name, kind) ∈ rd -> ascii name;
  ad_paths : asciis (map tn_path (ap_tree a));
  ad_images : asciis (map Server.ii_image_id (rg_images (ap_registry a)));
  ad_artifacts : asciis (map Server.ai_artifact_id (rg_artifacts (ap_registry a)));
  ad_targets : asciis (map fo_form_id (fd_forms (ap_forms a)));
  ad_guids : asciis (map fo_formset_guid (fd_forms (ap_forms a)));
  ad_var_names : asciis (map Server.nv_name (nvar_vars_all (ap_nvar a)));
  ad_var_guids : asciis (map Server.nv_guid (nvar_vars_all (ap_nvar a)))
}.

Section Candidates.
Context (sh : Shell) (a : App) (HD : ascii_data sh a).

Lemma rsplit_once_parts sep s x y : rsplit_once sep s = Some (x, y) -> s = x ++ [sep] ++ y.
Proof.
  unfold rsplit_once. destruct (break_at sep (rev s)) as [[b c]|] eqn:Hb; [|done]. intros [= <- <-].
  assert (rev s = b ++ sep :: c) as Hr.
  { clear - Hb. revert b c Hb. induction (rev s) as [|d t IH]; intros b c Hb; [done|]. cbn [break_at] in Hb.
    destruct (Z.eqb_spec d sep) as [->|]; [by injection Hb as <- <-|].
    destruct (break_at sep t) as [[b' c']|]; [|done]. injection Hb as <- <-. simpl. f_equal. by apply IH. }
  rewrite <-(rev_involutive s), Hr, rev_app_distr. simpl. by rewrite <-app_assoc.
Qed.

Lemma complete_path_ascii token : ascii token -> asciis (complete_path sh token).
Proof.
  intros Ht. unfold complete_path. set (t := expand_tilde token (sh_home sh)).
  assert (ascii t) as Ht'.
  { unfold t, expand_tilde. destruct HD. repeat case_match; [done| |done].
    apply ascii_app. split; [done|]. apply ascii_app. split; [by apply us_ascii_bool|by apply Forall_drop]. }
  clearbody t. destruct (dir_and_prefix t) as [dir prefix] eqn:Hd.
  assert (ascii dir) as Hdir.
  { unfold dir_and_prefix in Hd. destruct (rsplit_once SLASH t) as [[x y]|] eqn:Hr.
    - injection Hd as <- <-. apply rsplit_once_parts in Hr. rewrite Hr in Ht'.
      rewrite app_assoc in Ht'. by apply ascii_app in Ht' as [? _].
    - injection Hd as <- <-. constructor. }
  destruct (sh_read_dir sh _) as [rd|] eqn:Hrd; [|constructor].
  apply (asciis_incl _ _ (fun s Hs => proj1 (elem_of_Permutation_proper s _ _ (merge_sort_Permutation str_ord _)) Hs)).
  apply Forall_forall. intros s ([name kind] & -> & Hin)%list_elem_of_fmap.
  apply list_elem_of_In, filter_In in Hin as [Hin _]. apply filter_In in Hin as [Hin%list_elem_of_In _].
  apply ascii_app. split; [done|]. apply ascii_app.
  split; [by eapply ad_dirs|]. destruct kind; [by apply us_ascii_bool|constructor].
Qed.

Lemma item_ids_ascii : asciis (item_id_candidates (ap_forms a)).
Proof.
  pose proof (ad_targets _ _ HD) as H. unfold item_id_candidates, asciis in *. rewrite Forall_map in *.
  eapply Forall_impl; [exact H|]. intros f Hf. unfold fmt_item. cbv beta.
  apply ascii_app. split; [done|]. apply ascii_app. split; [by apply us_ascii_bool|apply dec_string_ascii].
Qed.

Lemma visible_from_range i st t x : x ∈ visible_from i st t -> i <= x < i + blen t.
Proof.
  revert i st. induction t as [|n t IH]; intros i st Hx; [by apply elem_of_nil in Hx|].
  cbn [visible_from] in Hx. rewrite blen_cons. pose proof (blen_nonneg t).
  destruct (forallb _ _); [apply elem_of_cons in Hx as [->|Hx]; [lia|]|]; apply IH in Hx; lia.
Qed.

Lemma visible_paths_ascii : exists ps, visible_paths a = Ok ps /\ asciis ps.
Proof.
  unfold visible_paths.
  assert (post (foldM (fun out i => n ← index (ap_tree a) i; mret (out ++ [tn_path n])) (visible a) [])
            asciis (fun _ : Empty_set => False)) as H.
  { apply foldM_post; [|constructor]. intros out i Hi Ho. apply visible_from_range in Hi.
    destruct (proj2 (get_is_Some (ap_tree a) i)) as [n Hn]; [lia|].
    unfold index. rewrite Hn. simpl. apply Forall_app. split; [done|]. repeat constructor.
    destruct HD as [_ _ Hp _ _ _ _ _ _]. unfold asciis in Hp. rewrite Forall_map, Forall_forall in Hp.
    apply (Hp n). apply get_Some in Hn as [_ Hn]. by eapply list_elem_of_lookup_2. }
  destruct (foldM _ _ _) as [ps|[]| |]; try done. by exists ps.
Qed.

Ltac candidate :=
  repeat case_match; simpl;
  first [ constructor | by apply complete_path_ascii | by apply literals_ascii
        | apply starting_ascii; first [ apply HD | apply item_ids_ascii
            | apply unique_from_ascii; apply HD ] ].

Lemma hii_candidates_ascii head token :
  ascii token -> asciis (hii_candidates sh (ap_forms a) head token).
Proof. intros Ht. unfold hii_candidates, unique_form_targets, unique. cbv zeta. candidate. Qed.

Lemma nvar_guids_ascii : asciis (nvar_var_guids (ap_nvar a)).
Proof.
  apply unique_from_ascii. eapply asciis_incl; [|apply (ad_var_guids _ _ HD)].
  intros s (v & -> & Hv)%list_elem_of_fmap. apply list_elem_of_fmap. exists v. split; [done|].
  apply list_elem_of_In, filter_In in Hv as [Hv _]. by apply list_elem_of_In.
Qed.

Lemma nvar_candidates_ascii head token : exists cs, nvar_candidates a head token = Ok cs /\ asciis cs.
Proof.
  unfold nvar_candidates. destruct visible_paths_ascii as (ps & -> & Hps).
  repeat case_match; (eexists; split; [done|]); try (by apply literals_ascii); try constructor;
    apply starting_ascii; [done|]. apply unique_from_ascii, HD.
Qed.

Lemma flag_names_ascii cmd head token : asciis (literals token (flag_names cmd head)).
Proof. unfold flag_names. cbv zeta. repeat case_match; by apply literals_ascii. Qed.

Lemma context_candidates_ascii cmd head token :
  ascii token -> exists cs, context_candidates sh a cmd head token = Ok cs /\ asciis cs.
Proof.
  intros Ht. unfold context_candidates. cbv zeta.
  destruct visible_paths_ascii as (ps & Hvis & Hps).
  repeat match goal with |- context [if ?b then _ else _] => destruct b end;
    try (eexists; split; [reflexivity|];
         first [ by apply complete_path_ascii | by apply literals_ascii | apply flag_names_ascii
               | by apply hii_candidates_ascii | constructor
               | apply starting_ascii; first [ apply HD | apply nvar_guids_ascii
                   | apply unique_from_ascii; apply HD ] ]);
    try apply nvar_candidates_ascii.
  all: rewrite Hvis; eexists; split; [reflexivity|]; by apply starting_ascii.
Qed.

(** ** Completion *)

Lemma split_at_ascii s n : ascii s -> 0 <= n <= blen s -> exists t, split_at s n = Ok t /\ ascii (fst t).
Proof.
  intros Hs Hn. rewrite <-(take_drop (Z.to_nat n) s) in Hs |- *. apply ascii_app in Hs as [Ht Hd].
  exists (take (Z.to_nat n) s, drop (Z.to_nat n) s). split; [|done].
  replace n with (str_len (take (Z.to_nat n) s)) at 3; [apply split_at_app|].
  rewrite ascii_len by done. unfold blen in *. rewrite length_take. lia.
Qed.
Lemma equal_chars_bounds p s : 0 <= equal_chars p s <= blen p.
Proof.
  revert s. induction p as [|c p IH]; intros s; [cbn; unfold blen; simpl; lia|]. rewrite blen_cons.
  pose proof (blen_nonneg p). destruct s as [|d s]; cbn [equal_chars]; [lia|].
  specialize (IH s). destruct (c =? d); lia.
Qed.
Lemma common_prefix_ascii cs : cs <> [] -> asciis cs -> exists p, common_prefix cs = Ok p /\ ascii p.
Proof.
  intros Hn Hcs. unfold common_prefix. destruct cs as [|c cs]; [done|].
  assert (post (foldM (fun p s => truncate_str p (equal_chars p s)) (c :: cs) c) ascii (fun _ : Empty_set => False)) as H.
  { apply foldM_post; [|by apply Forall_cons in Hcs as [? _]]. intros p s _ Hp. unfold truncate_str.
    pose proof (equal_chars_bounds p s). destruct (_ <=? _); [|done].
    destruct (split_at_ascii p (equal_chars p s)) as (t & -> & Ht); [done|lia|]. done. }
  destruct (foldM _ _ _) as [p|[]| |]; try done. by exists p.
Qed.

Lemma split_whitespace_ascii acc s : ascii acc -> ascii s -> asciis (split_whitespace_go acc s).
Proof.
  assert (forall acc rest, ascii acc -> asciis rest ->
    asciis match acc with [] => rest | _ => rev acc :: rest end) as Hflush.
  { intros [|c l] rest Ha Hr; [done|]. constructor; [by apply Forall_rev|done]. }
  intros Ha Hs. revert acc Ha. induction Hs as [|c s Hc Hs IH]; intros acc Ha; cbn [split_whitespace_go].
  - apply Hflush; [done|constructor].
  - destruct (is_whitespace c); [apply Hflush; [done|]; apply IH; constructor|]. apply IH. by constructor.
Qed.
Lemma command_words_ascii line : ascii line -> asciis (fst (command_words line)) /\ ascii (snd (command_words line)).
Proof.
  intros Hl. unfold command_words. cbv zeta.
  assert (asciis (split_whitespace line)) as Hw by (apply split_whitespace_ascii; [constructor|done]).
  case_bool_decide; [by split; [|constructor]|].
  apply Forall_rev in Hw. destruct (rev (split_whitespace line)) as [|t h]; [by split; constructor|].
  apply Forall_cons in Hw as [Ht Hh]. split; [by apply Forall_rev|done].
Qed.
Lemma join_ascii sep l : ascii sep -> asciis l -> ascii (join sep l).
Proof.
  intros Hs Hl. induction Hl as [|p l Hp Hl IH]; [constructor|]. destruct l as [|q l]; [done|].
  change (ascii (p ++ sep ++ join sep (q :: l))). by rewrite !ascii_app.
Qed.

Lemma commands_ascii token : asciis (starting token COMMANDS).
Proof.
  apply starting_ascii. apply Forall_map, Forall_forall. intros w Hw%list_elem_of_In.
  assert (forall ws, forallb (fun w => forallb (fun c => (0 <=? c) && (c <? 128)) (us w)) ws = true ->
    In w ws -> ascii (us w)) as H.
  { intros ws H Hin. rewrite forallb_forall in H. by apply us_ascii_bool, H. }
  eapply H, Hw. vm_compute. reflexivity.
Qed.

Definition ascii_items (items : list MenuItem) : Prop := Forall (fun i => ascii (mi_apply i)) items.

Lemma complete_ascii line :
  ascii line ->
  exists c, complete sh a line = Ok c /\ ascii_items (cm_items c) /\
    (forall s, cm_common c = Some s -> ascii s).
Proof.
  intros Hl. unfold complete. destruct (command_words_ascii line Hl) as [Hh Ht].
  destruct (command_words line) as [head token]. simpl in Hh, Ht.
  assert (exists cs, match head with
                     | [] => mret (starting token COMMANDS)
                     | cmd :: _ => context_candidates sh a cmd head token
                     end = Ok cs /\ asciis cs) as (cs & -> & Hcs).
  { destruct head; [|by apply context_candidates_ascii]. eexists. split; [reflexivity|]. apply commands_ascii. }
  cbn [mbind outcome_bind]. set (base := match head with [] => [] | _ => join [32] head ++ [32] end).
  assert (ascii base) as Hb.
  { unfold base. destruct head; [constructor|]. apply ascii_app. split; [|by repeat constructor].
    apply join_ascii; [by repeat constructor|done]. }
  assert (ascii_items (map (menu_item base) cs)) as Hi.
  { apply Forall_map. eapply Forall_impl; [exact Hcs|]. intros c Hc. simpl. rewrite !ascii_app.
    split; [done|]. split; [done|]. case_bool_decide; [constructor|by repeat constructor]. }
  destruct cs as [|c [|c' cs]]; cbn [map].
  - eexists. split; [reflexivity|]. by split; [constructor|].
  - eexists. split; [reflexivity|]. split; [constructor|]. intros s [= <-]. by apply Forall_cons in Hi as [? _].
  - destruct (common_prefix_ascii (c :: c' :: cs)) as (p & -> & Hp); [done..|].
    eexists. split; [reflexivity|]. split; [exact Hi|]. intros s [= <-]. by apply ascii_app.
Qed.
End Candidates.

(** ** The state of the command mode *)

Record session_ok (a : App) : Prop := {
  so_line : exists z, ap_cmdline a = zip_of z /\ ascii (fst z ++ snd z);
  so_menu : menu_ok (ap_menu a);
  so_items : ascii_items (mn_items (ap_menu a));
  so_entries : asciis (hs_entries (ap_history a));
  so_saved : forall s, hs_saved (ap_history a) = Some s -> ascii s;
  so_recall : forall r, hs_recall (ap_history a) = Some r -> 0 <= r < blen (hs_entries (ap_history a))
}.

(** What the keys do not touch. *)
Definition same_data (a a' : App) : Prop :=
  ap_tree a' = ap_tree a /\ ap_registry a' = ap_registry a /\ ap_forms a' = ap_forms a /\
  ap_nvar a' = ap_nvar a.
Lemma same_data_ascii sh a a' : same_data a a' -> ascii_data sh a -> ascii_data sh a'.
Proof. intros (Ht & Hr & Hf & Hn) []. split; rewrite ?Ht, ?Hr, ?Hf, ?Hn; done. Qed.

Section Session.
Context {SG : Segmentation} (sh : Shell).
Implicit Types (a : App).

Lemma concat_ascii ws : asciis ws <-> ascii (concat ws).
Proof.
  induction ws as [|w ws IH]; [by split; constructor|]. cbn [concat]. rewrite ascii_app, <-IH.
  apply Forall_cons.
Qed.

Lemma zip_step_ascii op z z' :
  zip_step op z z' -> (forall c, op = LO_Insert c -> 0 <= c < 128) ->
  ascii (fst z ++ snd z) -> ascii (fst z' ++ snd z').
Proof.
  intros Hs Hop. rewrite !ascii_app. destruct Hs; cbn [fst snd]; intros [Hl Hr];
    try (split; first [done | by constructor]).
  - split; [|done]. apply ascii_app. split; [done|]. constructor; [by apply Hop|done].
  - rewrite <-(graphemes_concat l), H, concat_app in Hl. apply ascii_app in Hl as [? Hg].
    cbn [concat] in Hg. rewrite app_nil_r in Hg. split; [done|]. by apply ascii_app.
  - rewrite <-(graphemes_concat r), H in Hr. apply ascii_app in Hr as [? ?]. split; [by apply ascii_app|done].
  - split; [constructor|]. by apply ascii_app.
  - split; [by apply ascii_app|constructor].
  - rewrite <-(graphemes_concat l), H, concat_app in Hl. by apply ascii_app in Hl as [? _].
  - rewrite <-(graphemes_concat r), H in Hr. by apply ascii_app in Hr as [_ ?].
  - apply ascii_app. destruct H as [H _]. rewrite <-concat_app, <-H, split_word_bounds_concat. by apply ascii_app.
  - apply ascii_app. destruct H as [H _]. rewrite <-concat_app, <-app_assoc. simpl app.
    rewrite <-H, split_word_bounds_concat. by apply ascii_app.
  - split; [by apply ascii_app|constructor].
  - split; [|done]. destruct H as [H _]. assert (ascii (l ++ r)) as Hlr by (by apply ascii_app).
    rewrite <-(split_word_bounds_concat (l ++ r)), H, concat_app in Hlr. by apply ascii_app in Hlr as [? _].
Qed.

(** A step of the reducer on a sound state: it does not panic, keeps the state sound and
    touches no data. *)
Definition sound_step (a : App) (m : pure App) : Prop :=
  exists a', m = Ok a' /\ session_ok a' /\ same_data a a'.

Lemma edit_sound a op :
  session_ok a -> (forall c, op = LO_Insert c -> 0 <= c < 128) ->
  sound_step a (edit_line (run_op op) a).
Proof.
  intros [(z & Hz & Ha) Hm Hi He Hs Hr] Hop. unfold edit_line. rewrite Hz.
  destruct (run_op_zip op z) as (z' & -> & Hstep). eexists. split; [reflexivity|]. split; [|done].
  split; try done. exists z'. split; [done|]. by eapply zip_step_ascii.
Qed.

Lemma set_line_sound a s : session_ok a -> ascii s -> session_ok (set_line s a).
Proof.
  intros [_ Hm Hi He Hs Hr] Ha. split; try done. exists (s, []). simpl. rewrite app_nil_r.
  split; [apply line_set_zip|done].
Qed.

Lemma reset_sound a : session_ok a -> session_ok (reset_history a).
Proof. intros [Hl Hm Hi He Hs Hr]. by split. Qed.

Lemma with_menu_sound a f :
  session_ok a -> menu_ok (f (ap_menu a)) -> ascii_items (mn_items (f (ap_menu a))) ->
  session_ok (with_menu f a).
Proof. intros [Hl Hm Hi He Hs Hr] ? ?. by split. Qed.

Lemma refresh_menu_sound a : ascii_data sh a -> session_ok a -> sound_step a (refresh_menu sh a).
Proof.
  intros Hd Ha. unfold refresh_menu.
  assert (ascii (ln_s (ap_cmdline a))) as Hl by (destruct Ha as [(z & -> & ?) _ _ _ _ _]; done).
  destruct (complete_ascii sh a Hd _ Hl) as (c & -> & Hi & _). eexists. split; [reflexivity|]. split; [|done].
  apply with_menu_sound; [done|apply menu_refresh_ok|]. by destruct (cm_items c); [constructor|].
Qed.

Lemma accept_sound a : ascii_data sh a -> session_ok a -> sound_step a (accept_menu_selection sh a).
Proof.
  intros Hd Ha. unfold accept_menu_selection, selected_apply.
  destruct (get (mn_items (ap_menu a)) (mn_selected (ap_menu a))) as [i|] eqn:Hg; [|by exists a].
  cbn [mbind option_bind].
  assert (ascii (mi_apply i)) as Hi.
  { destruct Ha as [_ _ Hi _ _ _]. unfold ascii_items in Hi. rewrite Forall_forall in Hi.
    apply Hi. apply get_Some in Hg as [_ Hg]. by eapply list_elem_of_lookup_2. }
  destruct (refresh_menu_sound (reset_history (set_line (mi_apply i) a))) as (a' & Hr & Ha' & Hs').
  { by apply (same_data_ascii sh a). }
  { by apply reset_sound, set_line_sound. }
  exists a'. done.
Qed.

Lemma open_completion_sound a : ascii_data sh a -> session_ok a -> sound_step a (open_completion sh a).
Proof.
  intros Hd Ha. unfold open_completion.
  assert (ascii (ln_s (ap_cmdline a))) as Hl by (destruct Ha as [(z & -> & ?) _ _ _ _ _]; done).
  destruct (complete_ascii sh a Hd _ Hl) as (c & -> & Hi & Hc). cbn [mbind outcome_bind]. cbv zeta.
  eexists. split; [reflexivity|]. split.
  - apply reset_sound, with_menu_sound.
    + destruct (cm_common c); [apply set_line_sound; [done|]; by apply Hc|done].
    + destruct (cm_items c); [apply menu_close_ok|apply open_with_ok].
    + by destruct (cm_items c); [constructor|].
  - by destruct (cm_common c).
Qed.

Lemma prev_sound a : session_ok a ->
  sound_step a (r ← history_prev (ln_s (ap_cmdline a)) (ap_history a); mret (recall_line r a)).
Proof.
  intros Ha. pose proof Ha as [(z & Hz & Hza) _ _ He Hs Hr].
  unfold history_prev. set (h := match hs_recall (ap_history a) with None => _ | Some _ => ap_history a end).
  assert (hs_entries h = hs_entries (ap_history a) /\ hs_recall h = hs_recall (ap_history a) /\
          forall s, hs_saved h = Some s -> ascii s) as (Hhe & Hhr & Hhs).
  { unfold h. destruct (hs_recall (ap_history a)) eqn:Hrec; [done|]. simpl.
    split; [done|]. split; [done|]. intros s [= <-]. by rewrite Hz. }
  clearbody h. rewrite Hhe, Hhr.
  set (n := Z.to_nat (default _ _)).
  assert (n <= length (hs_entries (ap_history a)))%nat as Hn.
  { unfold n. destruct (hs_recall (ap_history a)) as [r|]; simpl; [specialize (Hr r eq_refl)|]; unfold blen in *; lia. }
  assert (forall a1, session_ok a -> True) by done.
  destruct (prev_from_spec (hs_entries (ap_history a)) (effective_prefix h (ln_s (ap_cmdline a))) n Hn)
    as [(i & e & -> & Hi & Hie & _)|[-> _]]; cbn [mbind outcome_bind].
  - eexists. split; [reflexivity|]. split; [|done]. apply set_line_sound.
    + destruct Ha as [Hl Hm Hit _ _ _]. split; try done. simpl. intros r [= <-].
      apply lookup_lt_Some in Hie. unfold blen. lia.
    + unfold asciis in He. rewrite Forall_forall in He. apply He. by eapply list_elem_of_lookup_2.
  - eexists. split; [reflexivity|]. split; [|done]. destruct Ha as [Hl Hm Hit _ _ _].
    split; try done; simpl; rewrite ?Hhe, ?Hhr; done.
Qed.

Lemma next_sound a : session_ok a ->
  session_ok (recall_line (history_next (ln_s (ap_cmdline a)) (ap_history a)) a).
Proof.
  intros Ha. pose proof Ha as [_ _ _ He Hs Hr]. unfold history_next.
  destruct (hs_recall (ap_history a)) as [r|] eqn:Hrec.
  2:{ destruct Ha as [Hl Hm Hit _ _ _]. split; try done. simpl. by rewrite Hrec. }
  specialize (Hr r eq_refl).
  pose proof (next_from_spec (hs_entries (ap_history a)) (effective_prefix (ap_history a) (ln_s (ap_cmdline a)))
                (Z.to_nat (r + 1))) as Hn.
  rewrite Z2Nat.id in Hn by lia. destruct (next_from _ _ _) as [[j e]|]; cbn [recall_line fst snd].
  - destruct Hn as (k & -> & Hk & _). apply set_line_sound.
    + destruct Ha as [Hl Hm Hit _ _ _]. split; try done. simpl. intros r' [= <-].
      apply lookup_lt_Some in Hk. unfold blen. lia.
    + unfold asciis in He. rewrite Forall_forall in He. apply He. by eapply list_elem_of_lookup_2.
  - assert (session_ok (a <| ap_history := {| hs_entries := hs_entries (ap_history a); hs_recall := None;
                                              hs_saved := None |} |>)) as Ha'
      by (destruct Ha as [Hl Hm Hit _ _ _]; by split).
    destruct (hs_saved (ap_history a)) as [s|] eqn:Hsv; [|done]. apply set_line_sound; [done|]. by apply Hs.
Qed.

(** ** Sequences of keys *)

Definition ascii_key (ev : AppEvent) : Prop := match ev with E_Key c => 0 <= c < 128 | _ => True end.

Lemma key_step_sound ev a :
  ascii_data sh a -> session_ok a -> ascii_key ev ->
  exists a' flow mutated, key_step sh ev a = Ok (a', flow, mutated) /\ session_ok a' /\ same_data a a'.
Proof.
  intros Hd Ha Hev.
  assert (forall m (k : App -> CmdFlow * bool), sound_step a m -> exists a' flow mutated,
    (a ← m; mret (a, fst (k a), snd (k a))) = Ok (a', flow, mutated) /\ session_ok a' /\ same_data a a') as Hret.
  { intros m k (a' & -> & ? & ?). by do 3 eexists. }
  assert (forall op, (forall c, op <> LO_Insert c) -> sound_step a (edit_line (run_op op) a)) as Hedit.
  { intros op Hop. apply edit_sound; [done|]. intros c ->. by destruct (Hop c). }
  assert (forall f, menu_ok (f (ap_menu a)) -> ascii_items (mn_items (f (ap_menu a))) ->
    sound_step a (mret (with_menu f a))) as Hmenu.
  { intros f H1 H2. eexists. split; [reflexivity|]. split; [by apply with_menu_sound|done]. }
  assert (sound_step a (mret (with_menu menu_down a))) as Hdown.
  { apply Hmenu; [by apply menu_down_ok, Ha|]. rewrite menu_down_items. apply Ha. }
  assert (sound_step a (mret (with_menu menu_up a))) as Hup.
  { apply Hmenu; [by apply menu_up_ok, Ha|]. rewrite menu_up_items. apply Ha. }
  assert (sound_step a (mret a)) as Hstay by (by exists a).
  pose proof (accept_sound a Hd Ha) as Haccept.
  pose proof (open_completion_sound a Hd Ha) as Hopen. pose proof (prev_sound a Ha) as Hprev.
  assert (sound_step a (mret (recall_line (history_next (ln_s (ap_cmdline a)) (ap_history a)) a))) as Hnext.
  { eexists. split; [reflexivity|]. split; [by apply next_sound|].
    unfold recall_line. by destruct (snd (history_next _ _)). }
  assert (sound_step a (mret (with_menu menu_close a))) as Hclose
    by (apply Hmenu; [apply menu_close_ok|constructor]).
  pose proof (fun m => Hret m (fun _ => (CF_None, false))) as Hmoved.
  pose proof (fun m => Hret m (fun _ => (CF_None, true))) as Hmut. clear Hret. cbn [fst snd] in Hmoved, Hmut.
  unfold key_step; destruct ev; cbv zeta;
    repeat match goal with |- context [if ?b then _ else _] => destruct b end;
    first [ apply Hmoved; assumption | do 3 eexists; split; [reflexivity|]; done
          | apply Hmoved; apply (Hedit LO_Home); done | apply Hmoved; apply (Hedit LO_End); done
          | apply Hmoved; apply (Hedit LO_Left); done | apply Hmoved; apply (Hedit LO_Right); done
          | apply Hmoved; apply (Hedit LO_WordLeft); done | apply Hmoved; apply (Hedit LO_WordRight); done
          | apply Hmut; apply (Hedit LO_KillWord); done | apply Hmut; apply (Hedit LO_KillToStart); done
          | apply Hmut; apply (Hedit LO_KillToEnd); done | apply Hmut; apply (Hedit LO_Backspace); done
          | apply Hmut; apply (Hedit LO_Delete); done
          | apply Hmut; apply (edit_sound a (LO_Insert c)); [done|]; intros ? [= <-]; done ].
Qed.

Lemma cmd_key_sound ev a :
  ascii_data sh a -> session_ok a -> ascii_key ev ->
  exists a' flow, cmd_key sh ev a = Ok (a', flow) /\ session_ok a' /\ same_data a a'.
Proof.
  intros Hd Ha Hev. unfold cmd_key.
  destruct (key_step_sound ev a Hd Ha Hev) as (a1 & flow & m & -> & Ha1 & Hs1). cbn [mbind outcome_bind].
  destruct m; [|by exists a1, flow]. cbv zeta.
  destruct (mn_open (ap_menu (reset_history a1))); [|exists (reset_history a1), flow; split; [done|]; split; [by apply reset_sound|done]].
  destruct (refresh_menu_sound (reset_history a1)) as (a2 & -> & Ha2 & Hs2).
  { by apply (same_data_ascii sh a). }
  { by apply reset_sound. }
  exists a2, flow. split; [done|]. split; [done|].
  destruct Hs1 as (H1 & H2 & H3 & H4), Hs2 as (H5 & H6 & H7 & H8). by split_and!; etransitivity.
Qed.

Fixpoint run_keys (evs : list AppEvent) (a : App) : pure App :=
  match evs with [] => Ok a | ev :: evs => r ← cmd_key sh ev a; run_keys evs (fst r) end.

Lemma run_keys_sound evs a :
  ascii_data sh a -> session_ok a -> Forall ascii_key evs ->
  exists a', run_keys evs a = Ok a' /\ session_ok a' /\ same_data a a'.
Proof.
  intros Hd Ha Hevs. revert a Hd Ha. induction Hevs as [|ev evs Hev _ IH]; intros a Hd Ha; [by exists a|].
  cbn [run_keys]. destruct (cmd_key_sound ev a Hd Ha Hev) as (a1 & flow & -> & Ha1 & Hs1). cbn [mbind outcome_bind fst].
  destruct (IH a1) as (a2 & -> & Ha2 & Hs2); [by apply (same_data_ascii sh a)|done|].
  exists a2. split; [done|]. split; [done|].
  destruct Hs1 as (H1 & H2 & H3 & H4), Hs2 as (H5 & H6 & H7 & H8). by split_and!; etransitivity.
Qed.

Lemma enter_command_sound a : asciis (hs_entries (ap_history a)) -> session_ok (enter_command_mode a).
Proof.
  intros He. split; try done; simpl.
  - exists ([], []). split; [done|constructor].
  - constructor.
Qed.

(** C37. From the moment the command line opens, with ASCII data and history, every sequence
    of ASCII keys runs without a panic, through editing, completion and recall, and touches
    neither the tree nor the forms; the cursor stays on a boundary of the line, the selected
    completion exists and is among the rows shown, the recalled entry exists. *)
Theorem cmd_keys_safe evs a :
  ascii_data sh a -> asciis (hs_entries (ap_history a)) -> Forall ascii_key evs ->
  exists a', run_keys evs (enter_command_mode a) = Ok a' /\ session_ok a' /\ same_data a a'.
Proof.
  intros Hd He Hevs.
  destruct (run_keys_sound evs (enter_command_mode a)) as (a' & ? & ? & ?); [|by apply enter_command_sound|done|].
  { by apply (same_data_ascii sh a). }
  by exists a'.
Qed.
End Session.
