(* ===== verification/ClientFacts.v ===== *)
(** What the terminal client asks of the engine: every edit goes to the image on the screen
    and only after a key that confirms it, an import is checked before the first edit, an
    image with unsaved edits is never reopened; packages of forms read back. *)
From stdpp Require Import gmap sorting.
From S2P Require Import Prelude Text Types Ffs Tiano Codec Parser Target Ops Nvar NvarStores Listing.
From S2P Require Import Hii Values Ifr Gates Schema PeResource ImageStrings ImageGates ImageValues Channels Hijack FormExport.
From S2P Require Import Storage Server.
From S2P Require Import Terminal FormTree App Completion Envelope Client Commands MainLoop.

(** ** Runs of a program *)

(** What was asked, and the answer. *)
Record event := { ev_call : Call; ev_answer : answer ev_call }.

(** [runs p tr a]: with the answers of [tr] the program asks what is in [tr] and ends with [a]. *)
Fixpoint runs {A} (p : proc A) (tr : list event) (a : A) : Prop :=
  match p with
  | Ret x => tr = [] /\ a = x
  | Ask c k => exists r tr', tr = {| ev_call := c; ev_answer := r |} :: tr' /\ runs (k r) tr' a
  end.

Lemma runs_bind {A B} (p : proc A) (f : A -> proc B) tr b :
  runs (proc_bind p f) tr b ->
  exists t1 t2 a, tr = t1 ++ t2 /\ runs p t1 a /\ runs (f a) t2 b.
Proof.
  revert tr. induction p as [a|c k IH]; intros tr H; [by exists [], tr, a|].
  destruct H as (r & tr' & -> & Hr). destruct (IH _ _ Hr) as (t1 & t2 & a & -> & H1 & H2).
  exists ({| ev_call := c; ev_answer := r |} :: t1), t2, a. split; [done|]. split; [|done]. by exists r, t1.
Qed.

(** [wp P p Q]: every call of [p] satisfies [P], and every result [Q], whatever the answers
    are. *)
Fixpoint wp {A} (P : Call -> Prop) (p : proc A) (Q : A -> Prop) : Prop :=
  match p with
  | Ret a => Q a
  | Ask c k => P c /\ forall r, wp P (k r) Q
  end.

Lemma wp_runs {A} P (p : proc A) Q tr a :
  wp P p Q -> runs p tr a -> Forall (fun e => P (ev_call e)) tr /\ Q a.
Proof.
  revert tr. induction p as [x|c k IH]; intros tr Hw Hr; [by destruct Hr as [-> ->]|].
  destruct Hr as (r & tr' & -> & Hr), Hw as [Hc Hk]. destruct (IH _ _ (Hk r) Hr). by split; [constructor|].
Qed.
Lemma proc_wp_mono {A} (P P' : Call -> Prop) (p : proc A) (Q Q' : A -> Prop) :
  (forall c, P c -> P' c) -> (forall a, Q a -> Q' a) -> wp P p Q -> wp P' p Q'.
Proof. intros HP HQ. induction p as [a|c k IH]; [apply HQ|]. intros [Hc Hk]. split; auto. Qed.
Lemma proc_wp_bind {A B} P (p : proc A) (f : A -> proc B) Q :
  wp P p (fun a => wp P (f a) Q) -> wp P (proc_bind p f) Q.
Proof. induction p as [a|c k IH]; [done|]. intros [Hc Hk]. split; auto. Qed.

(** ** Edits *)

(** The image that a request changes. *)
Definition edited_image (q : Request) : option ustring :=
  match q with
  | Q_ImageNodeInsert i _ _ _ _ | Q_ImageNodeRemove i _ | Q_ImageNodeReplace i _ _ _ _
  | Q_ImageNodeRebuild i _ | Q_HiiSetFormVisibility i _ _ | Q_HiiUnlock i _ | Q_HiiSetValue i _ _
  | Q_NvarSet i _ _ _ _ _ | Q_HiiFormSetAdd i _ _ | Q_HiiFormAdd i _ _ | Q_HiiFormHijack i _ _ _
  | Q_HiiQuestionAdd i _ _ | Q_HiiPageAdd i _ _ | Q_TseUnhide i _ _ _ | Q_ImageSnapshotRestore i _ => Some i
  | _ => None
  end.
Definition edit_of (c : Call) : option ustring :=
  match c with K_Rpc _ q => edited_image q | _ => None end.

(** The image that a request closes. *)
Definition closes (c : Call) : option ustring :=
  match c with K_Rpc _ (Q_ImageClose i) => Some i | _ => None end.
(** Neither an edit nor the end of an image. *)
Definition benign (c : Call) : bool :=
  match edit_of c, closes c with None, None => true | _, _ => false end.

(** The images of the screen and of the session. *)
Definition at_image (a t : option ustring) (s : CS) : Prop :=
  ap_active_image_id (cs_app s) = a /\ st_active_image_id (cs_state s) = t.
Definition agree (s : CS) : Prop := ap_active_image_id (cs_app s) = st_active_image_id (cs_state s).

Section Commands.
Context {JL : JsonLib} (header_ok : ustring -> bool) (P : Call -> Prop).
Context (HP : forall c, benign c = true -> P c).

(** A command that keeps both images. *)
Definition stable {A} (m : cmd A) : Prop :=
  forall a t s, at_image a t s -> wp P (m s) (fun r => at_image a t (fst r)).

Lemma stable_ret {A} (x : A) : stable (mret x).
Proof. by intros a t s Hs. Qed.
Lemma stable_of_outcome {A} (o : outcome ustring A) : stable (of_outcome o).
Proof. by intros a t s Hs. Qed.
Lemma stable_get_app : stable get_app.
Proof. by intros a t s Hs. Qed.
Lemma stable_get_state : stable get_state.
Proof. by intros a t s Hs. Qed.
Lemma stable_on_app f :
  (forall a, ap_active_image_id (f a) = ap_active_image_id a) -> stable (on_app f).
Proof. intros Hf a t s [Ha Ht]. split; [by rewrite <- Ha; apply Hf|done]. Qed.
Lemma stable_on_state f :
  (forall st, st_active_image_id (f st) = st_active_image_id st) -> stable (on_state f).
Proof. intros Hf a t s [Ha Ht]. split; [done|by rewrite <- Ht; apply Hf]. Qed.
Lemma stable_on_forms f : stable (on_forms f).
Proof. by apply stable_on_app. Qed.
Lemma stable_set_status m : stable (set_status m).
Proof. by apply stable_on_app. Qed.
Lemma stable_ask c : benign c = true -> stable (ask c).
Proof. intros Hc a t s Hs. split; [by apply HP|]. by intros r. Qed.
Lemma stable_bind {A B} (m : cmd A) (k : A -> cmd B) :
  stable m -> (forall x, stable (k x)) -> stable (x ← m; k x).
Proof.
  intros Hm Hk a t s Hs. unfold mbind, cmd_mbind. apply proc_wp_bind.
  eapply proc_wp_mono; [done| |by apply Hm]. intros [s' [x|e| |]] Hs'; try exact Hs'. by apply Hk.
Qed.
Lemma stable_quietly {A} (m : cmd A) : stable m -> stable (quietly m).
Proof.
  intros Hm a t s Hs. apply proc_wp_bind. eapply proc_wp_mono; [done| |by apply Hm].
  by intros [s' [x|e| |]] Hs'.
Qed.
Lemma stable_or_fail {A} (r : A + ustring) : stable (or_fail r).
Proof. destruct r; [apply stable_ret|apply stable_of_outcome]. Qed.
Lemma stable_rpc q : (forall auth, P (K_Rpc auth q)) -> stable (rpc header_ok q).
Proof.
  intros Hq a t s Hs. unfold rpc, ask.
  repeat case_match; cbn; try exact Hs; (split; [apply Hq|by intros r]).
Qed.
Lemma stable_call q : (forall auth, P (K_Rpc auth q)) -> stable (call header_ok q).
Proof. intros Hq. apply stable_bind; [by apply stable_rpc|]. intros r. apply stable_or_fail. Qed.
End Commands.

Create HintDb client.
#[local] Hint Resolve stable_ret stable_of_outcome stable_get_app stable_get_state stable_on_forms
  stable_set_status stable_or_fail : client.
(** Goes through a command; what is left are the side conditions of its calls. *)
Ltac no_edit :=
  intros; match goal with H : forall c, benign c = true -> ?P c |- ?P _ => apply H; reflexivity end.
Ltac stable_step :=
  lazymatch goal with
  | |- stable _ (_ ≫= _) => apply stable_bind; [|intros]
  | |- stable _ (quietly _) => apply stable_quietly
  | |- stable _ (on_app _) => apply stable_on_app; done
  | |- stable _ (on_state _) => apply stable_on_state; done
  | |- stable ?P (rpc ?h ?q) => apply (stable_rpc h P q); try no_edit
  | |- stable ?P (call ?h ?q) => apply (stable_call h P q); try no_edit
  | |- stable ?P (ask ?c) => apply (stable_ask P); [assumption|reflexivity]
  | |- stable _ (match ?x with _ => _ end) => destruct x
  | |- stable _ (fail _) => apply stable_of_outcome
  | |- stable _ (usage _) => apply stable_of_outcome
  | |- stable _ (of_pure _) => apply stable_of_outcome
  | |- stable _ (ok_or_fail _ _) => apply stable_of_outcome
  | |- stable _ _ => solve [auto with client]
  end.
Ltac stable_tac := repeat stable_step.

Section Refresh.
Context {JL : JsonLib} {SG : Segmentation} {LC : Lowercase} (header_ok : ustring -> bool) (P : Call -> Prop).
Context (HP : forall c, benign c = true -> P c).

Lemma stable_create : stable P create_and_persist_session.
Proof. unfold create_and_persist_session. stable_tac. Qed.
Lemma stable_ensure : stable P ensure_session.
Proof. unfold ensure_session. stable_tac. apply stable_create. Qed.
Lemma stable_session : stable P session.
Proof. unfold session. stable_tac. Qed.
Lemma stable_persist : stable P persist_state_best_effort.
Proof. unfold persist_state_best_effort. stable_tac. Qed.
Lemma stable_active : stable P active_image.
Proof. unfold active_image. stable_tac. Qed.
Lemma stable_shown : stable P shown_image.
Proof. unfold shown_image. stable_tac. Qed.
#[local] Hint Resolve stable_create stable_ensure stable_session stable_persist stable_active stable_shown : client.

Lemma stable_session_call {R} (send : ustring -> cmd (R + ustring)) :
  (forall sid, stable P (send sid)) -> stable P (session_call send).
Proof. intros Hs. unfold session_call. stable_tac; apply Hs. Qed.

Lemma keep_view_active before nodes a : ap_active_image_id (keep_view before nodes a) = ap_active_image_id a.
Proof. unfold keep_view, sanitize_cursor. repeat case_match; done. Qed.
Lemma stable_refresh_tree : stable P (refresh_tree header_ok).
Proof. unfold refresh_tree. stable_tac. apply stable_on_app, keep_view_active. Qed.
Lemma stable_refresh_registry : stable P (refresh_registry header_ok).
Proof.
  unfold refresh_registry. stable_tac. apply stable_on_app. intros a. by case_match.
Qed.
Lemma stable_refresh_forms : stable P (refresh_forms header_ok).
Proof. unfold refresh_forms. stable_tac. Qed.
Lemma stable_reload_forms : stable P (reload_forms header_ok).
Proof. unfold reload_forms, update_forms. stable_tac. Qed.
Lemma stable_form_details : stable P (refresh_form_details_if_needed header_ok).
Proof. unfold refresh_form_details_if_needed, selected_key_of_app. stable_tac. Qed.
Lemma stable_nvars : stable P (refresh_nvars_if_needed header_ok).
Proof. unfold refresh_nvars_if_needed. stable_tac. Qed.
Lemma stable_question_info : stable P (refresh_question_info_if_needed header_ok).
Proof. unfold refresh_question_info_if_needed, selected_key_of_app, selected_question_of_app. stable_tac. Qed.
Lemma stable_current_value : stable P (refresh_current_value_if_needed header_ok).
Proof. unfold refresh_current_value_if_needed, selected_key_of_app, selected_question_of_app. stable_tac. Qed.
Lemma stable_strings : stable P (refresh_strings header_ok).
Proof. unfold refresh_strings. stable_tac. Qed.
Lemma stable_varstores target : stable P (refresh_varstores header_ok target).
Proof. unfold refresh_varstores. stable_tac. Qed.
#[local] Hint Resolve stable_refresh_tree stable_refresh_registry stable_refresh_forms stable_reload_forms
  stable_form_details stable_nvars stable_question_info stable_current_value stable_strings
  stable_varstores : client.
Lemma stable_after_edit : stable P (refresh_after_edit header_ok).
Proof. unfold refresh_after_edit. stable_tac. Qed.
Lemma stable_forms_view : stable P (refresh_forms_view header_ok).
Proof. unfold refresh_forms_view. stable_tac. Qed.
#[local] Hint Resolve stable_after_edit stable_forms_view : client.

(** ** Commands *)

Context (img : option ustring).
Context (Hclose : forall c i, closes c = Some i -> P c).
Context (Hedit : forall c i, edit_of c = Some i -> img = Some i -> P c).
(** From equal images to equal images. *)
Definition agreeing {A} (m : cmd A) : Prop :=
  forall s, at_image img img s -> wp P (m s) (fun r => agree (fst r)).

Lemma at_agree i s : at_image i i s -> agree s.
Proof. intros [H1 H2]. unfold agree. congruence. Qed.
Lemma stable_agreeing {A} (m : cmd A) : stable P m -> agreeing m.
Proof. intros Hm s Hs. eapply proc_wp_mono; [done| |by apply Hm]. intros [s' r]. apply at_agree. Qed.
Lemma agreeing_bind {A B} (m : cmd A) (k : A -> cmd B) :
  stable P m -> (forall x, agreeing (k x)) -> agreeing (x ← m; k x).
Proof.
  intros Hm Hk s Hs. unfold mbind, cmd_mbind. apply proc_wp_bind.
  eapply proc_wp_mono; [done| |by apply Hm]. intros [s' [x|e| |]] Hs'; [by apply Hk|by eapply at_agree..].
Qed.
(** The image a command edits is the one on the screen. *)
Definition image_or_error (i : option ustring) : outcome ustring ustring :=
  match i with Some i => Ok i | None => Err NO_IMAGE end.
Lemma active_image_eq s : active_image s = Ret (s, image_or_error (st_active_image_id (cs_state s))).
Proof. by destruct s as [a [x y [i|] z]]. Qed.
Lemma shown_image_eq s :
  at_image img img s -> shown_image s = Ret (s, image_or_error img).
Proof.
  intros [H1 H2]. unfold shown_image, mbind, cmd_mbind, get_app, get_state, ok_or_fail, of_outcome.
  cbn [proc_bind]. rewrite H1, H2. by destruct img.
Qed.
Lemma agreeing_at {A} (m : cmd ustring) (k : ustring -> cmd A) :
  (forall s, at_image img img s -> m s = Ret (s, image_or_error img)) ->
  (forall iid, img = Some iid -> agreeing (k iid)) -> agreeing (x ← m; k x).
Proof.
  intros Hm Hk s Hs. unfold mbind, cmd_mbind. rewrite (Hm s Hs).
  assert (image_or_error img = Err NO_IMAGE \/ exists i, img = Some i /\ image_or_error img = Ok i) as Hi.
  { destruct img; [right; eexists; done|by left]. }
  destruct Hi as [->|(i & Hi & ->)]; cbn -[NO_IMAGE]; [by eapply at_agree|by apply Hk].
Qed.
Lemma agreeing_active {A} (k : ustring -> cmd A) :
  (forall iid, img = Some iid -> agreeing (k iid)) -> agreeing (x ← active_image; k x).
Proof. apply agreeing_at. intros s [_ Hs]. by rewrite active_image_eq, Hs. Qed.
Lemma agreeing_shown {A} (k : ustring -> cmd A) :
  (forall iid, img = Some iid -> agreeing (k iid)) -> agreeing (x ← shown_image; k x).
Proof. apply agreeing_at, shown_image_eq. Qed.
(** What changes both images to the same. *)
Lemma agreeing_set {A} f v (k : unit -> cmd A) :
  (forall a, ap_active_image_id (f a) = v) -> (forall x, stable P (k x)) ->
  agreeing (_ ← on_app f; _ ← on_state (set_active v); k tt).
Proof.
  intros Hf Hk s Hs. cbn. eapply proc_wp_mono; [done| |apply (Hk tt v v)]; [intros [s' r]; apply at_agree|].
  split; [apply Hf|done].
Qed.
Lemma agreeing_show {A} id nodes (k : unit -> cmd A) :
  (forall x, stable P (k x)) -> agreeing (_ ← show_tree id nodes; k tt).
Proof.
  intros Hk s Hs. cbn. eapply proc_wp_mono; [done| |apply (Hk tt (Some id) (Some id))]; [intros [s' r]; apply at_agree|].
  split; done.
Qed.

(** Commands that keep the image; an edit of them goes to it. *)
Ltac side :=
  try (intros; first [ apply HP; reflexivity | eapply Hclose; reflexivity
                    | eapply Hedit; [reflexivity|eassumption] ]).
Ltac command_step :=
  lazymatch goal with
  | |- stable _ (rpc ?h ?q) => apply (stable_rpc h P q); side
  | |- stable _ (call ?h ?q) => apply (stable_call h P q); side
  | |- stable _ (session_call _) => apply stable_session_call; intros
  | |- stable _ (let '_ := ?x in _) => destruct x
  | |- stable _ (if ?x then _ else _) => destruct x
  | |- _ => stable_step
  end.
Ltac command := cbv zeta; repeat command_step.

Lemma stable_read_schema file : stable P (read_schema file).
Proof. unfold read_schema. command. Qed.
Lemma stable_absolutize raw : stable P (absolutize_path raw).
Proof. unfold absolutize_path. command. Qed.
Lemma stable_export_path arg id : stable P (export_output_path arg id).
Proof. unfold export_output_path. command. apply stable_absolutize. Qed.
Lemma stable_default_path item : stable P (export_default_path item).
Proof. unfold export_default_path. command. Qed.
Lemma stable_goto target : stable P (goto target).
Proof.
  intros a t s [Ha Ht]. unfold goto. destruct (goto_path target (cs_app s)) as [app e] eqn:E. split; [|done].
  cbn. rewrite <- Ha. revert E. unfold goto_path. repeat case_match; intros; by simplify_eq.
Qed.
Lemma stable_node_target args e : stable P (node_target args e).
Proof. unfold node_target. command. Qed.
#[local] Hint Resolve stable_read_schema stable_absolutize stable_export_path stable_default_path
  stable_goto stable_node_target : client.

Lemma stable_form_export iid item out : stable P (hii_form_export header_ok iid item out).
Proof. unfold hii_form_export. command. Qed.
Lemma stable_precheck iid target env : stable P (precheck_refs header_ok iid target env).
Proof. unfold precheck_refs. command. Qed.

Section Edits.
Context (iid : ustring) (Hi : img = Some iid).

Lemma stable_import_form target body : stable P (import_form header_ok iid target body).
Proof. unfold import_form. command. Qed.
Lemma stable_import_refs target refs body inserted busy :
  stable P (import_refs header_ok iid target refs body inserted busy).
Proof. unfold import_refs. command. Qed.
#[local] Hint Resolve stable_form_export stable_precheck stable_import_form stable_import_refs : client.
Lemma stable_import target file : stable P (hii_import header_ok iid target file).
Proof. unfold hii_import. command. Qed.
#[local] Hint Resolve stable_import : client.
Lemma stable_set_value parts : stable P (hii_set_value_cmd header_ok iid parts).
Proof. unfold hii_set_value_cmd, selected_question_of_app. command. Qed.
Lemma stable_visibility parts : stable P (hii_visibility_cmd header_ok iid parts).
Proof. unfold hii_visibility_cmd. command. Qed.
Lemma stable_unlock parts : stable P (hii_unlock_cmd header_ok iid parts).
Proof. unfold hii_unlock_cmd. command. Qed.
Lemma stable_formset parts : stable P (hii_formset_cmd header_ok iid parts).
Proof. unfold hii_formset_cmd. command. Qed.
Lemma stable_form parts : stable P (hii_form_cmd header_ok iid parts).
Proof. unfold hii_form_cmd. command. Qed.
Lemma stable_import_cmd parts : stable P (hii_import_cmd header_ok iid parts).
Proof. unfold hii_import_cmd. command. Qed.
Lemma stable_question parts : stable P (hii_question_cmd header_ok iid parts).
Proof. unfold hii_question_cmd. command. Qed.
Lemma stable_page parts : stable P (hii_page_cmd header_ok iid parts).
Proof. unfold hii_page_cmd. command. Qed.
Lemma stable_hijack parts : stable P (hii_hijack_cmd header_ok iid parts).
Proof. unfold hii_hijack_cmd. command. Qed.
Lemma stable_nvar_list parts : stable P (cmd_nvar_list header_ok iid parts).
Proof. unfold cmd_nvar_list, nvar_list_at, nvar_list_all. command. Qed.
Lemma stable_nvar_set parts : stable P (cmd_nvar_set header_ok iid parts).
Proof. unfold cmd_nvar_set. command. Qed.
End Edits.
#[local] Hint Resolve stable_set_value stable_visibility stable_unlock stable_formset stable_form
  stable_import_cmd stable_question stable_page stable_hijack stable_nvar_list stable_nvar_set
  stable_form_export : client.

(** A command in which the image is looked up. *)
Ltac agreeing_step :=
  lazymatch goal with
  | |- agreeing (_ ← active_image; _) => apply agreeing_active; intros
  | |- agreeing (_ ← shown_image; _) => apply agreeing_shown; intros
  | |- agreeing (_ ← show_tree _ _; _) => apply (agreeing_show _ _ (fun _ => _)); intros; command
  | |- agreeing (_ ← ok_or_fail _ _; _) => apply agreeing_bind; [apply stable_of_outcome|intros]
  | |- agreeing (_ ≫= _) => apply agreeing_bind; [solve [command]|intros]
  | |- agreeing (match ?x with _ => _ end) => destruct x
  | |- agreeing _ => apply stable_agreeing; solve [command]
  end.
Ltac agreeing_tac := cbv zeta; repeat agreeing_step.

Lemma agreeing_hii parts : agreeing (cmd_hii header_ok parts).
Proof. unfold cmd_hii. agreeing_tac. Qed.
Lemma agreeing_nvar parts : agreeing (cmd_nvar header_ok parts).
Proof. unfold cmd_nvar. agreeing_tac. Qed.

Lemma agreeing_then {A B} (m : cmd A) (k : A -> cmd B) :
  agreeing m -> (forall x, stable P (k x)) -> agreeing (x ← m; k x).
Proof.
  intros Hm Hk s Hs. unfold mbind, cmd_mbind. apply proc_wp_bind.
  eapply proc_wp_mono; [done| |by apply Hm]. intros [s' [x|e| |]] Hs'; try exact Hs'.
  eapply proc_wp_mono; [done| |apply (Hk x (ap_active_image_id (cs_app s')) (ap_active_image_id (cs_app s')))].
  - intros [s2 r]. apply at_agree.
  - by split; [|symmetry].
Qed.

Lemma agreeing_open parts : agreeing (cmd_open header_ok parts).
Proof. unfold cmd_open. agreeing_tac. Qed.
Lemma agreeing_upload parts : agreeing (cmd_upload header_ok parts).
Proof.
  unfold cmd_upload. do 4 agreeing_step. apply (agreeing_set _ _ (fun _ => _)); [done|]. intros. command.
Qed.
Lemma agreeing_snapshot parts : agreeing (cmd_snapshot header_ok parts).
Proof. unfold cmd_snapshot. agreeing_tac. Qed.
Lemma agreeing_snapshots : agreeing (cmd_snapshots header_ok).
Proof. unfold cmd_snapshots. agreeing_tac. Qed.
Lemma agreeing_restore parts : agreeing (cmd_restore header_ok parts).
Proof. unfold cmd_restore. agreeing_tac. Qed.
Lemma agreeing_insert parts : agreeing (cmd_insert header_ok parts).
Proof. unfold cmd_insert. agreeing_tac. Qed.
Lemma agreeing_replace parts : agreeing (cmd_replace header_ok parts).
Proof. unfold cmd_replace. agreeing_tac. Qed.
Lemma agreeing_remove parts : agreeing (cmd_remove header_ok parts).
Proof. unfold cmd_remove. agreeing_tac. Qed.
Lemma agreeing_rebuild parts : agreeing (cmd_rebuild header_ok parts).
Proof. unfold cmd_rebuild. agreeing_tac. Qed.
Lemma agreeing_switch parts : agreeing (cmd_switch header_ok parts).
Proof. unfold cmd_switch. agreeing_tac. Qed.
Lemma agreeing_close parts : agreeing (cmd_close header_ok parts).
Proof.
  unfold cmd_close. do 4 agreeing_step. apply agreeing_then; [|intros; command].
  case_bool_decide; [|agreeing_tac]. apply (agreeing_set _ _ (fun _ => _)); [done|]. intros. command.
Qed.
Lemma agreeing_reopen want : agreeing (reopen header_ok want).
Proof. unfold reopen, open_for_writing. agreeing_tac. Qed.
Lemma agreeing_tse_unhide parts : agreeing (cmd_tse_unhide header_ok parts).
Proof. unfold cmd_tse_unhide. agreeing_tac. Qed.
Lemma agreeing_tse : agreeing (cmd_tse header_ok).
Proof. unfold cmd_tse. agreeing_tac. Qed.
Lemma stable_save parts : stable P (cmd_save header_ok parts).
Proof. unfold cmd_save. command. Qed.
Lemma stable_extract parts : stable P (cmd_extract header_ok parts).
Proof. unfold cmd_extract. command. Qed.
Lemma stable_export parts : stable P (cmd_export header_ok parts).
Proof. unfold cmd_export. command. Qed.
Lemma stable_artifact_import parts : stable P (cmd_import header_ok parts).
Proof. unfold cmd_import. command. Qed.
Lemma stable_artifacts : stable P (cmd_artifacts header_ok).
Proof. unfold cmd_artifacts. command. Qed.
Lemma stable_image parts : stable P (cmd_image parts).
Proof. unfold cmd_image. command. Qed.
Lemma stable_forms : stable P (cmd_forms header_ok).
Proof. unfold cmd_forms. command. Qed.
Lemma stable_filter parts : stable P (cmd_filter parts).
Proof. unfold cmd_filter. command. Qed.
Lemma stable_refresh : stable P (cmd_refresh header_ok).
Proof. unfold cmd_refresh. command. Qed.
Lemma stable_goto_cmd parts : stable P (cmd_goto parts).
Proof. unfold cmd_goto. command. Qed.
Lemma stable_quit : stable P cmd_quit.
Proof. unfold cmd_quit. command. Qed.
Lemma stable_help : stable P cmd_help.
Proof. unfold cmd_help. command. Qed.
#[local] Hint Resolve agreeing_open agreeing_upload agreeing_snapshot agreeing_snapshots agreeing_restore
  agreeing_insert agreeing_replace agreeing_remove agreeing_rebuild agreeing_switch agreeing_close
  agreeing_reopen agreeing_tse_unhide agreeing_tse agreeing_hii agreeing_nvar stable_agreeing stable_save
  stable_extract stable_export stable_artifact_import stable_artifacts stable_image stable_forms
  stable_filter stable_refresh stable_goto_cmd stable_quit stable_help : client.

Lemma agreeing_execute cmdline : agreeing (execute_command header_ok cmdline).
Proof.
  unfold execute_command. cbv zeta. destruct (split_whitespace cmdline) as [|w ws].
  - apply stable_agreeing, stable_of_outcome.
  - repeat lazymatch goal with
      | |- agreeing (if ?b then _ else _) => destruct b; [solve [auto with client]|]
      end.
    apply stable_agreeing, stable_of_outcome.
Qed.
End Refresh.

(** ** Keys *)

(** Keys of the command line keep the image, and only [Enter] runs the line. *)
Section KeyFacts.
Context {SG : Segmentation} (sh : Shell).
#[local] Abbreviation active := ap_active_image_id.

Lemma edit_line_active f a b : edit_line f a = Ok b -> active b = active a.
Proof. unfold edit_line. by intros (l & _ & [= <-])%bind_Ok. Qed.
Lemma refresh_menu_active a b : refresh_menu sh a = Ok b -> active b = active a.
Proof. unfold refresh_menu. by intros (l & _ & [= <-])%bind_Ok. Qed.
Lemma accept_active a b : accept_menu_selection sh a = Ok b -> active b = active a.
Proof.
  unfold accept_menu_selection. destruct (selected_apply _); [|by intros [= <-]].
  by intros ->%refresh_menu_active.
Qed.
Lemma open_completion_active a b : open_completion sh a = Ok b -> active b = active a.
Proof.
  unfold open_completion. intros (c & _ & H)%bind_Ok. destruct (cm_common c); by injection H as <-.
Qed.
Lemma recall_active r a : active (recall_line r a) = active a.
Proof. unfold recall_line. by destruct (snd r). Qed.

Definition key_ok (ev : AppEvent) (a : App) (r : pure (App * CmdFlow * bool)) : Prop :=
  forall b flow m, r = Ok (b, flow, m) -> active b = active a /\ (flow = CF_Execute -> ev = E_Enter).
Lemma key_ok_bind ev a (x : pure App) m :
  (forall b, x = Ok b -> active b = active a) -> key_ok ev a (b ← x; mret (b, CF_None, m)).
Proof. intros Hx b flow n (b' & Hb & [= <- <- <-])%bind_Ok. split; [by apply Hx|done]. Qed.
Lemma key_ok_ret ev a b flow m :
  active b = active a -> (flow = CF_Execute -> ev = E_Enter) -> key_ok ev a (mret (b, flow, m)).
Proof. intros Hb Hf b' f' m' [= <- <- <-]. by split. Qed.

Lemma key_step_ok ev a : key_ok ev a (key_step sh ev a).
Proof.
  unfold key_step. cbv zeta.
  destruct ev;
    repeat lazymatch goal with |- key_ok _ _ (if ?b then _ else _) => destruct b end;
    (apply key_ok_ret; [done|discriminate || done]) ||
    (apply key_ok_bind; intros b Hb;
     repeat case_match; try (by apply edit_line_active in Hb); try (by apply accept_active in Hb);
     try (by apply open_completion_active in Hb); try (by injection Hb as <-);
     try (injection Hb as <-; by rewrite ?recall_active)).
  apply bind_Ok in Hb as (r & _ & [= <-]). apply recall_active.
Qed.

Lemma cmd_key_active ev a b flow :
  cmd_key sh ev a = Ok (b, flow) -> active b = active a /\ (flow = CF_Execute -> ev = E_Enter).
Proof.
  unfold cmd_key. intros ([[c f] m] & Hk & H)%bind_Ok. destruct (key_step_ok ev a c f m Hk) as [Hc Hf].
  destruct m; [|by injection H as <- <-]. apply bind_Ok in H as (d & Hd & [= <- <-]).
  split; [|done]. rewrite <- Hc. destruct (mn_open _); [by apply refresh_menu_active in Hd|by injection Hd as <-].
Qed.
End KeyFacts.

(** ** The main loop *)

(** The image of the screen is that of the session, if there is an engine. *)
Definition at_ui (i : option ustring) (u : UI) : Prop :=
  ap_active_image_id (ui_app u) = i /\ forall st, ui_client u = Some st -> st_active_image_id st = i.
Definition ui_agree (u : UI) : Prop := exists i, at_ui i u.

(** Keys that can send an edit: [Enter] on the command line, [v] and [u] in the forms. *)
Definition confirms (ev : AppEvent) (a : App) : bool :=
  match ap_mode a with
  | MD_Normal => match ap_view a with VW_Forms => pressed ev "v" || pressed ev "u" | VW_Image => false end
  | MD_Command | MD_Insert => is_enter ev
  end.

Section Loop.
Context {JL : JsonLib} {SG : Segmentation} {LC : Lowercase} (header_ok : ustring -> bool) (sh : Shell).
Context (P : Call -> Prop) (HP : forall c, benign c = true -> P c).
Context (Hclose : forall c i, closes c = Some i -> P c).

Definition ui_stable (p : ui_step) : Prop :=
  forall i u, at_ui i u -> wp P (p u) (fun r => forall u', r = Ok u' -> at_ui i u').
Definition ui_ok (img : option ustring) (p : ui_step) : Prop :=
  forall u, at_ui img u -> wp P (p u) (fun r => forall u', r = Ok u' -> ui_agree u').

Lemma ui_stable_ok img p : ui_stable p -> ui_ok img p.
Proof. intros Hp u Hu. eapply proc_wp_mono; [done| |by apply Hp]. intros r Hr u' E. exists img. by apply Hr. Qed.
Lemma ui_then_stable p q : ui_stable p -> ui_stable q -> ui_stable (then_ p q).
Proof.
  intros Hp Hq i u Hu. apply proc_wp_bind. eapply proc_wp_mono; [done| |by apply Hp].
  intros [u'|e| |] Hu'; try (intros ? [=]). by apply Hq, Hu'.
Qed.
Lemma ui_then_after img p q : ui_stable p -> ui_ok img q -> ui_ok img (then_ p q).
Proof.
  intros Hp Hq u Hu. apply proc_wp_bind. eapply proc_wp_mono; [done| |by apply Hp].
  intros [u'|e| |] Hu'; try (intros ? [=]). by apply Hq, Hu'.
Qed.
Lemma ui_then_before img p q : ui_ok img p -> ui_stable q -> ui_ok img (then_ p q).
Proof.
  intros Hp Hq u Hu. apply proc_wp_bind. eapply proc_wp_mono; [done| |by apply Hp].
  intros [u'|e| |] Hu'; try (intros ? [=]). destruct (Hu' u' eq_refl) as [i Hi].
  eapply proc_wp_mono; [done| |by apply Hq]. intros r Hr u2 E. exists i. by apply Hr.
Qed.
Lemma ui_skip : ui_stable skip.
Proof. by intros i u Hu ? [= <-]. Qed.
Lemma ui_app_step f :
  (forall a b, f a = Ok b -> ap_active_image_id b = ap_active_image_id a) -> ui_stable (app_step f).
Proof.
  intros Hf i u [Ha Hc] u' E. destruct (f (ui_app u)) as [b|e| |] eqn:Eb; try discriminate E.
  injection E as <-. split; [cbn; by rewrite (Hf _ _ Eb)|done].
Qed.
Lemma ui_change f :
  (forall a, ap_active_image_id (f a) = ap_active_image_id a) -> ui_stable (change f).
Proof. intros Hf. apply ui_app_step. intros a b [= <-]. apply Hf. Qed.
Lemma ui_forms_step f : ui_stable (forms_step f).
Proof. apply ui_app_step. by intros a b (d & _ & [= <-])%bind_Ok. Qed.
Lemma ui_change_forms f : ui_stable (change_forms f).
Proof. by apply ui_change. Qed.
Lemma ui_status m : ui_stable (status m).
Proof. by apply ui_change. Qed.
Lemma ui_insert_mode c p : ui_stable (insert_mode c p).
Proof. by apply ui_change. Qed.
Lemma ui_insert_mode_opt c p : ui_stable (insert_mode_opt c p).
Proof. destruct p; [apply ui_insert_mode|apply ui_skip]. Qed.
Lemma ui_on_view_stable f : (forall a, ui_stable (f a)) -> ui_stable (on_view f).
Proof. intros Hf i u Hu. by apply Hf. Qed.
Lemma ui_on_view img f : (forall a, ap_active_image_id a = img -> ui_ok img (f a)) -> ui_ok img (on_view f).
Proof. intros Hf u Hu. apply Hf; [apply Hu|done]. Qed.
Lemma ui_on_pure_stable {A} (f : FormsData -> pure A) k : (forall x, ui_stable (k x)) -> ui_stable (on_pure f k).
Proof.
  intros Hk i u Hu. unfold on_pure. destruct (f _) as [x|e| |]; [by apply Hk|intros ? [=]..].
Qed.
Lemma ui_on_pure {A} img (f : FormsData -> pure A) k : (forall x, ui_ok img (k x)) -> ui_ok img (on_pure f k).
Proof.
  intros Hk u Hu. unfold on_pure. destruct (f _) as [x|e| |]; [by apply Hk|intros ? [=]..].
Qed.

Lemma ui_engine_stable m : stable P m -> ui_stable (with_engine m).
Proof.
  intros Hm i u [Ha Hc]. unfold with_engine. destruct (ui_client u) as [st|] eqn:E; [|intros ? [= <-]; split; congruence].
  apply proc_wp_bind. eapply proc_wp_mono; [done| |apply (Hm i i); split; [done|by apply Hc]].
  intros [s [x|e| |]] [H1 H2] u'; cbn; intros [= <-]; (split; [done|by intros st' [= <-]]).
Qed.
Lemma ui_engine img m : agreeing P img m -> ui_ok img (with_engine m).
Proof.
  intros Hm u [Ha Hc]. unfold with_engine. destruct (ui_client u) as [st|] eqn:E.
  - apply proc_wp_bind. eapply proc_wp_mono; [done| |apply Hm; split; [done|by apply Hc]].
    intros [s [x|e| |]] Hs u'; cbn; intros [= <-];
      (exists (ap_active_image_id (cs_app s)); split; [done|by intros st' [= <-]]).
  - intros ? [= <-]. exists img. split; congruence.
Qed.
Lemma stable_of_shown {A} (m : cmd A) : stable P m -> stable P (shown m).
Proof.
  intros Hm a t s Hs. unfold shown. apply proc_wp_bind. eapply proc_wp_mono; [done| |by apply Hm].
  by intros [s' [x|e| |]] Hs'.
Qed.
Lemma agreeing_of_shown {A} img (m : cmd A) : agreeing P img m -> agreeing P img (shown m).
Proof.
  intros Hm s Hs. unfold shown. apply proc_wp_bind. eapply proc_wp_mono; [done| |by apply Hm].
  by intros [s' [x|e| |]] Hs'.
Qed.

(** [switch] is a word of its own in the command of the registry. *)
Lemma split_word w id :
  Forall (fun c => is_whitespace c = false) w -> w <> [] ->
  split_whitespace (w ++ 32 :: id) = w :: split_whitespace id.
Proof.
  intros Hw Hne. unfold split_whitespace.
  assert (forall acc, acc ++ w <> [] -> 
            split_whitespace_go (rev acc) (w ++ 32 :: id) = (acc ++ w) :: split_whitespace_go [] id) as H.
  { clear Hne. induction Hw as [|c w Hc _ IH]; intros acc Hne; cbn [app split_whitespace_go].
    - change (is_whitespace 32) with true. cbn iota. rewrite app_nil_r in Hne |- *.
      destruct (rev acc) as [|x l] eqn:E; [|by rewrite <- E, rev_involutive].
      exfalso. apply Hne. rewrite <- (rev_involutive acc), E. done.
    - rewrite Hc. change (c :: rev acc) with (rev [c] ++ rev acc). rewrite <- rev_app_distr, IH.
      + by rewrite <- app_assoc.
      + by destruct acc. }
  by apply (H []).
Qed.
Lemma agreeing_switch_image img id : agreeing P img (execute_command header_ok (us "switch " ++ id)).
Proof.
  assert (us "switch " ++ id = us "switch" ++ 32 :: id) as -> by done.
  unfold execute_command. rewrite split_word; [|by repeat constructor|done]. cbv zeta.
  change (is_words (us "switch") ["open"; "o"]%string) with false. cbn iota.
  by apply agreeing_switch.
Qed.

(** ** Every key *)

Ltac ui_step_tac :=
  lazymatch goal with
  | |- ui_stable (then_ _ _) => apply ui_then_stable
  | |- ui_stable skip => apply ui_skip
  | |- ui_stable (change _) => apply ui_change; done
  | |- ui_stable (forms_step _) => apply ui_forms_step
  | |- ui_stable (change_forms _) => apply ui_change_forms
  | |- ui_stable (status _) => apply ui_status
  | |- ui_stable (insert_mode _ _) => apply ui_insert_mode
  | |- ui_stable (insert_mode_opt _ _) => apply ui_insert_mode_opt
  | |- ui_stable (on_view _) => apply ui_on_view_stable; intros
  | |- ui_stable (on_pure _ _) => apply ui_on_pure_stable; intros
  | |- ui_stable (with_engine _) => apply ui_engine_stable
  | |- ui_stable (let '_ := ?x in _) => destruct x
  | |- ui_stable (match ?x with _ => _ end) => destruct x
  | |- stable _ (shown _) => apply stable_of_shown
  | |- stable _ (quietly _) => apply stable_quietly
  | |- stable _ (_ ≫= _) => apply stable_bind; [|intros]
  | |- stable _ (refresh_nvars_if_needed _) => by apply stable_nvars
  | |- stable _ (refresh_form_details_if_needed _) => by apply stable_form_details
  | |- stable _ (refresh_question_info_if_needed _) => by apply stable_question_info
  | |- stable _ (refresh_current_value_if_needed _) => by apply stable_current_value
  | |- stable _ (refresh_forms _) => by apply stable_refresh_forms
  | |- stable _ (refresh_strings _) => by apply stable_strings
  | |- stable _ (refresh_varstores _ _) => by apply stable_varstores
  end.
Ltac ui := cbv zeta; repeat ui_step_tac.

Lemma ui_help ev : ui_stable (handle_help ev).
Proof. unfold handle_help, scroll_help, quit_step. ui. Qed.
Lemma ui_switch_view : ui_stable (switch_view header_ok).
Proof.
  unfold switch_view. apply ui_on_view_stable. intros a. destruct (ap_view a); [|by ui].
  intros i u Hu. cbv zeta. destruct (negb _); [by apply ui_status|].
  lazymatch goal with |- wp _ (?p u) _ => assert (ui_stable p) as H by by ui end. by apply H.
Qed.
Lemma ui_move_focus f :
  (forall a, ap_active_image_id (f a) = ap_active_image_id a) -> ui_stable (move_focus header_ok f).
Proof. intros Hf. unfold move_focus. apply ui_then_stable; [by apply ui_change|]. ui. Qed.
Lemma ui_move_tree f :
  (forall a, ap_active_image_id (f a) = ap_active_image_id a) -> ui_stable (move_tree header_ok f).
Proof. intros Hf. unfold move_tree. apply ui_then_stable; [by apply ui_change|]. ui. Qed.
Lemma ui_move_in r tr v d :
  ui_stable r -> ui_stable tr ->
  (forall a b, v a = Ok b -> ap_active_image_id b = ap_active_image_id a) ->
  (forall a b, d a = Ok b -> ap_active_image_id b = ap_active_image_id a) ->
  ui_stable (move_in r tr v d).
Proof.
  intros Hr Ht Hv Hd. unfold move_in. apply ui_on_view_stable. intros a.
  destruct (ap_focus a); [done| |done]. apply ui_app_step. intros a' b. destruct (selected_is_nvar _); auto.
Qed.
Lemma details_active n a b : details_scroll_by n a = Ok b -> ap_active_image_id b = ap_active_image_id a.
Proof. unfold details_scroll_by. by intros (s & _ & [= <-])%bind_Ok. Qed.
Lemma hex_active n a b : hex_page n a = Ok b -> ap_active_image_id b = ap_active_image_id a.
Proof. unfold hex_page, nvar_hex_scroll_by. by intros (s & _ & [= <-])%bind_Ok. Qed.
Lemma as_pure_active f a b :
  (forall a, ap_active_image_id (f a) = ap_active_image_id a) ->
  as_pure f a = Ok b -> ap_active_image_id b = ap_active_image_id a.
Proof. by intros Hf [= <-]. Qed.
Lemma cursors_active a :
  Forall (fun f => ap_active_image_id (f a) = ap_active_image_id a)
    [cursor_down; cursor_up; cursor_page_down; cursor_page_up; nvar_cursor_down; nvar_cursor_up;
     set_expand_selected true; set_expand_selected false].
Proof.
  repeat (constructor; [unfold cursor_page_down, nvar_cursor_down, set_expand_selected;
    cbv zeta; repeat case_match; done|]). constructor.
Qed.
Ltac cursor := intros a'; pose proof (cursors_active a') as Hc; rewrite !Forall_cons in Hc; tauto.

Lemma ui_filter : ui_stable (filter_strings header_ok).
Proof.
  unfold filter_strings. apply ui_on_view_stable. intros a. apply ui_then_stable; [apply ui_change_forms|].
  intros i u Hu. destruct (ui_client u) as [st|] eqn:E; [|by apply ui_insert_mode].
  destruct (bool_decide _); [|by apply ui_insert_mode].
  apply proc_wp_bind. eapply proc_wp_mono; [done| |apply (stable_strings header_ok P HP i i)].
  - intros [s [x|e| |]] [H1 H2]; [apply ui_insert_mode|apply ui_status|intros ? [=]|intros ? [=]];
      (split; [done|by intros st' [= <-]]).
  - split; [apply Hu|by apply Hu].
Qed.

Lemma ui_registry_enter img : ui_ok img (handle_registry_enter header_ok).
Proof.
  intros u Hu. unfold handle_registry_enter. destruct (ui_client u) as [st|] eqn:E;
    [|intros ? [= <-]; by exists img].
  revert u E Hu. assert (forall p, ui_ok img p -> forall u, ui_client u = Some st -> at_ui img u ->
    wp P (p u) (fun r => forall u', r = Ok u' -> ui_agree u')) as H by (intros p Hp u _; apply Hp).
  apply H. apply ui_on_view. intros a Ha. destruct (current_registry_row a) as [[i|i]|].
  - destruct (get _ i); [|apply ui_stable_ok, ui_skip].
    apply ui_then_before; [|by apply ui_change]. apply ui_engine, agreeing_of_shown, agreeing_switch_image.
  - apply ui_stable_ok. ui.
  - apply ui_stable_ok, ui_skip.
Qed.

Lemma ui_if img (b : bool) p q : ui_ok img p -> ui_ok img q -> ui_ok img (if b then p else q).
Proof. by destruct b. Qed.
Ltac calm := apply ui_stable_ok; unfold quit_step; ui.
Ltac in_pane :=
  apply ui_stable_ok, ui_move_in;
  [ui|apply ui_move_tree; cursor
  |intros ? ?; first [apply hex_active|apply as_pure_active; cursor]|apply details_active].
Lemma ui_reopen_key img : ui_ok img (fun u =>
  match ui_client u with
  | Some _ => with_engine (shown (reopen header_ok true)) u
  | None => status (us "no engine connection") u
  end).
Proof.
  intros u Hu. destruct (ui_client u); [|by apply (ui_stable_ok img _ (ui_status _))].
  by apply (ui_engine img); [apply agreeing_of_shown, agreeing_reopen|].
Qed.
Lemma ui_image ev img : ui_ok img (handle_image header_ok ev).
Proof.
  unfold handle_image. apply ui_on_view. intros a Ha. cbv zeta.
  apply ui_if; [by apply ui_stable_ok, ui_move_focus|].
  apply ui_if; [by apply ui_stable_ok, ui_move_focus|].
  do 3 (apply ui_if; [calm|]).
  apply ui_if; [apply ui_stable_ok; destruct (edit_prefill ev a); ui|].
  apply ui_if; [apply ui_reopen_key|].
  do 4 (apply ui_if; [in_pane|]).
  do 2 (apply ui_if; [apply ui_if; [apply ui_stable_ok, ui_change; cursor|calm]|]).
  apply ui_if; [apply ui_registry_enter|].
  do 2 (apply ui_if; [calm|]). calm.
Qed.

(** The keys that send an edit. *)
Section Confirmed.
Context (img : option ustring).
Context (Hedit : forall c i, edit_of c = Some i -> img = Some i -> P c).

Lemma agreeing_line cmd : agreeing P img (execute_command header_ok cmd).
Proof. by apply agreeing_execute. Qed.
Lemma ui_show_form : ui_ok img (show_selected_form header_ok).
Proof.
  unfold show_selected_form. apply ui_on_pure. intros item. apply ui_on_pure. intros vis.
  destruct item as [item|]; [|calm]. destruct vis as [vis|]; [|calm].
  destruct (form_visibility_command item vis); [|calm]. apply ui_engine, agreeing_of_shown, agreeing_line.
Qed.
Lemma ui_unlock_form : ui_ok img (unlock_selected_form header_ok).
Proof.
  unfold unlock_selected_form. apply ui_on_pure. intros [item|]; [|calm].
  apply ui_engine, agreeing_of_shown, agreeing_line.
Qed.
Lemma ui_run_line cmd : ui_ok img (run_line header_ok cmd).
Proof.
  unfold run_line. apply ui_then_before.
  - intros u Hu. destruct (ui_client u); [|by apply (ui_stable_ok img _ (ui_status _))].
    by apply (ui_engine img); [apply agreeing_of_shown, agreeing_line|].
  - intros i u [Ha Hc]. split; [by apply HP|]. intros r u' [= <-]. by split.
Qed.
End Confirmed.

Section Events.
Context (img : option ustring) (confirmed : bool).
Context (Hedit : forall c i, confirmed = true -> edit_of c = Some i -> img = Some i -> P c).

Lemma ui_if_confirmed (b : bool) p q :
  (b = true -> confirmed = true) -> (confirmed = true -> ui_ok img p) -> ui_ok img q ->
  ui_ok img (if b then p else q).
Proof. destruct b; auto. Qed.
Lemma ui_forms ev :
  (pressed ev "v" || pressed ev "u" = true -> confirmed = true) -> ui_ok img (handle_normal_forms header_ok ev).
Proof.
  intros Hc. unfold handle_normal_forms, toggle_strings, toggle_varstores, reference_selected_form.
  apply ui_on_view. intros a Ha. cbv zeta.
  do 27 (apply ui_if; [calm|]).
  apply ui_if_confirmed; [intros [H _]%andb_true_iff; apply Hc; by rewrite H|intros H; apply ui_show_form; eauto|].
  apply ui_if_confirmed; [intros [H _]%andb_true_iff; apply Hc; by rewrite H, orb_true_r
                         |intros H; apply ui_unlock_form; eauto|].
  do 6 (apply ui_if; [calm|]).
  apply ui_if; [apply ui_stable_ok, ui_filter|].
  do 2 (apply ui_if; [calm|]). calm.
Qed.
Lemma ui_command_key ev :
  (ev = E_Enter -> confirmed = true) -> ui_ok img (handle_command header_ok sh ev).
Proof.
  intros Hc u Hu. unfold handle_command. destruct (cmd_key sh ev (ui_app u)) as [[a flow]|e| |] eqn:E;
    [|intros ? [=]..].
  apply cmd_key_active in E as [Ha Hf].
  assert (at_ui img {| ui_app := a; ui_client := ui_client u |}) as Hu'.
  { split; [cbn; rewrite Ha|]; apply Hu. }
  destruct flow.
  - assert (ui_ok img (run_line header_ok (ln_s (ap_cmdline a)))) as H by (apply ui_run_line; eauto). by apply H.
  - by apply (ui_stable_ok img); [apply ui_change|].
  - intros u' [= <-]. by exists img.
Qed.
Lemma ui_event_ok ev u :
  at_ui img u -> (confirms ev (ui_app u) = true -> confirmed = true) ->
  wp P (handle_event header_ok sh ev u) (fun r => forall u', r = Ok u' -> ui_agree u').
Proof.
  intros Hu Hc. unfold handle_event, on_view. unfold confirms in Hc. destruct (ap_mode (ui_app u)) eqn:Hm.
  - unfold handle_normal, on_view. destruct (ap_show_help (ui_app u)).
    { apply (ui_stable_ok img); [apply ui_help|done]. }
    destruct (is_tab ev); [apply (ui_stable_ok img); [apply ui_switch_view|done]|].
    destruct (ap_view (ui_app u)); [by apply (ui_image ev img)|]. by apply (ui_forms ev).
  - apply ui_command_key; [|done]. intros ->. by apply Hc.
  - apply ui_command_key; [|done]. intros ->. by apply Hc.
Qed.
End Events.
End Loop.

(** ** Sessions of the client *)

Section Sessions.
Context {JL : JsonLib} {SG : Segmentation} {LC : Lowercase} (header_ok : ustring -> bool) (sh : Shell).

(** The states between two keys, whatever the engine answered. *)
Inductive reached : UI -> Prop :=
| reached_start history client tr u : runs (start header_ok history client) tr (Ok u) -> reached u
| reached_draw u fr : reached u -> reached {| ui_app := draw fr (ui_app u); ui_client := ui_client u |}
| reached_key u ev tr u' : reached u -> runs (handle_event header_ok sh ev u) tr (Ok u') -> reached u'.

Lemma restore_agree s :
  ap_active_image_id (cs_app s) = None ->
  wp (fun _ => True) (restore_session header_ok s)
    (fun r => match snd r with Panic | Diverge => True | _ => agree (fst r) end).
Proof.
  intros Hs. unfold restore_session. unfold mbind at 1, cmd_mbind at 1. apply proc_wp_bind. apply proc_wp_bind.
  set (t := st_active_image_id (cs_state s)).
  eapply proc_wp_mono; [done| |apply (stable_refresh_registry header_ok (fun _ => True) ltac:(done) None t); by split].
  intros [s1 r] [Ha Ht]. cbn [fst] in Ha, Ht.
  assert (forall s2, at_image None t s2 ->
    wp (fun _ => True) ((st ← get_state;
      match st_active_image_id st with
      | None => mret tt
      | Some id =>
          r ← rpc header_ok (Q_ImageNodesList id []);
          match r with
          | inl nodes =>
              _ ← show_tree id nodes;
              on_app (fun a => sanitize_cursor (a <| ap_image_loaded := true |>)
                                 <| ap_status_msg := us "restored" |>)
          | inr e =>
              _ ← on_app (fun a => a <| ap_active_image_id := None |>);
              _ ← on_state (set_active None);
              set_status (us "active image unavailable: " ++ e)
          end
      end) s2)
      (fun r => match snd r with Panic | Diverge => True | _ => agree (fst r) end)) as Hrest.
  { intros s2 [Ha2 Ht2]. unfold mbind at 1, cmd_mbind at 1. cbn [get_state proc_bind].
    rewrite Ht2. destruct t as [id|]; [|unfold agree; cbn; congruence].
    unfold mbind at 1, cmd_mbind at 1, rpc.
    repeat case_match; cbn; try done; (split; [done|]); intros [nodes|e]; done. }
  destruct r as [x|e| |]; cbn; try done; apply Hrest; by split.
Qed.

Lemma start_agree history client tr u : runs (start header_ok history client) tr (Ok u) -> ui_agree u.
Proof.
  destruct client as [st|e]; unfold start.
  - unfold with_engine. cbn [ui_client ui_app]. intros Hr.
    eapply (wp_runs (fun _ => True) _ (fun r => forall u, r = Ok u -> ui_agree u)) in Hr as [_ Hr]; [by apply Hr|].
    apply proc_wp_bind. unfold quietly. apply proc_wp_bind.
    eapply proc_wp_mono; [done| |apply restore_agree; done].
    intros [s [x|e| |]] Hs; cbn; try done; intros ? [= <-]; exists (ap_active_image_id (cs_app s));
      (split; [done|by intros st' [= <-]]).
  - intros [_ [= ->]]. exists None. by split.
Qed.
Lemma event_agree u ev tr u' :
  ui_agree u -> runs (handle_event header_ok sh ev u) tr (Ok u') -> ui_agree u'.
Proof.
  intros [i Hi] Hr. eapply (wp_runs (fun _ => True)) in Hr as [_ Hr].
  2: { eapply (ui_event_ok header_ok sh (fun _ => True) ltac:(done) ltac:(done) i true ltac:(done)); [exact Hi|done]. }
  by apply Hr.
Qed.
Lemma reached_agree u : reached u -> ui_agree u.
Proof. induction 1; [by eapply start_agree|done|by eapply event_agree]. Qed.
Lemma main_loop_reached evs u tr u' :
  reached u -> runs (main_loop header_ok sh evs u) tr (Ok u') -> reached u'.
Proof.
  revert u tr. induction evs as [|[fr ev] evs IH]; intros u tr Hu Hr; [by destruct Hr as [_ [= ->]]|].
  apply (reached_draw _ fr) in Hu. apply runs_bind in Hr as (t1 & t2 & [v|e| |] & _ & H1 & H2); try by destruct H2.
  assert (reached v) as Hv by by eapply reached_key. destruct (ap_quit _); [by destruct H2 as [_ [= ->]]|by eapply IH].
Qed.

(** C10. In every session of the terminal client, whatever the engine answers, the image of
    the screen is the image of the session, and an edit is sent only by a key that confirms
    it - [Enter] on the command line, or the keys that show or unlock the selected form - and
    only for the image on the screen. Browsing never changes an image. *)
Theorem edits_on_screen u ev tr r :
  reached u -> runs (handle_event header_ok sh ev u) tr r ->
  ui_agree u /\
  Forall (fun e => forall i, edit_of (ev_call e) = Some i ->
            confirms ev (ui_app u) = true /\ ap_active_image_id (ui_app u) = Some i) tr.
Proof.
  intros Hu%reached_agree Hr. split; [done|]. destruct Hu as [img Hi].
  pose (P := fun c => forall i, edit_of c = Some i -> confirms ev (ui_app u) = true /\ img = Some i).
  assert (ap_active_image_id (ui_app u) = img) as -> by apply Hi.
  eapply (wp_runs P) in Hr as [Hr _]; [exact Hr|].
  eapply (ui_event_ok header_ok sh P) with (img := img) (confirmed := confirms ev (ui_app u)); try done.
  - intros c Hc i Ec. unfold benign in Hc. by rewrite Ec in Hc.
  - intros c i Hc i' Ec. by destruct c as [? []| | | | | | |].
  - intros c i Hc Ec Ei i' Ec'. split; [done|congruence].
Qed.
End Sessions.

(** ** Single commands *)

Section Traces.
Context {JL : JsonLib} (header_ok : ustring -> bool).

Definition edits (tr : list event) : list Call :=
  List.filter (fun c => negb (bool_decide (edit_of c = None))) (map ev_call tr).
Definition answered (tr : list event) (q : Request) (a : reply q) : Prop :=
  exists auth, {| ev_call := K_Rpc auth q; ev_answer := inl a |} ∈ tr.

Lemma edits_app t1 t2 : edits (t1 ++ t2) = edits t1 ++ edits t2.
Proof. unfold edits. by rewrite map_app, List.filter_app. Qed.
Lemma edits_none tr : Forall (fun e => benign (ev_call e) = true) tr -> edits tr = [].
Proof.
  induction 1 as [|e tr He _ IH]; [done|]. unfold edits in *. cbn. unfold benign in He.
  destruct (edit_of (ev_call e)); [done|]. exact IH.
Qed.
Lemma answered_l t1 t2 q a : answered t1 q a -> answered (t1 ++ t2) q a.
Proof. intros [auth H]. exists auth. apply elem_of_app. by left. Qed.
Lemma answered_r t1 t2 q a : answered t2 q a -> answered (t1 ++ t2) q a.
Proof. intros [auth H]. exists auth. apply elem_of_app. by right. Qed.

(** A command that stops: its error, or the panic. *)
Definition stops {A B} (r1 : outcome ustring A) (r : outcome ustring B) : Prop :=
  match r1, r with
  | Err e, Err e' => e = e'
  | Panic, Panic | Diverge, Diverge => True
  | _, _ => False
  end.
Lemma cmd_bind_runs {A B} (m : cmd A) (k : A -> cmd B) s tr s2 r :
  runs ((x ← m; k x) s) tr (s2, r) ->
  (exists t1 t2 s1 x, tr = t1 ++ t2 /\ runs (m s) t1 (s1, Ok x) /\ runs (k x s1) t2 (s2, r)) \/
  (exists r1, runs (m s) tr (s2, r1) /\ stops r1 r).
Proof.
  unfold mbind, cmd_mbind. intros (t1 & t2 & [s1 r1] & -> & H1 & H2)%runs_bind.
  destruct r1 as [x|e| |]; [left; by exists t1, t2, s1, x|right..]; destruct H2 as [-> [= -> ->]];
    rewrite app_nil_r; (eexists; split; [exact H1|done]).
Qed.
Lemma cmd_bind_ok {A B} (m : cmd A) (k : A -> cmd B) s tr s2 b :
  runs ((x ← m; k x) s) tr (s2, Ok b) ->
  exists t1 t2 s1 x, tr = t1 ++ t2 /\ runs (m s) t1 (s1, Ok x) /\ runs (k x s1) t2 (s2, Ok b).
Proof. intros [H|(r1 & _ & Hs)]%cmd_bind_runs; [exact H|]. by destruct r1. Qed.
Lemma of_outcome_runs {A} (o : outcome ustring A) s tr s' r :
  runs (of_outcome o s) tr (s', r) -> tr = [] /\ s' = s /\ r = o.
Proof. by intros [-> [= -> ->]]. Qed.
Lemma ask_runs c s tr s' r :
  runs (ask c s) tr (s', r) -> s' = s /\ exists a, r = Ok a /\ tr = [{| ev_call := c; ev_answer := a |}].
Proof. intros (a & tr' & -> & -> & [= -> ->]). split; [done|]. by exists a. Qed.
Lemma rpc_runs q s tr s' r :
  runs (rpc header_ok q s) tr (s', r) ->
  s' = s /\ ((tr = [] /\ r = Panic) \/
             exists auth a, r = Ok a /\ tr = [{| ev_call := K_Rpc auth q; ev_answer := a |}]).
Proof.
  unfold rpc. repeat case_match; intros Hr;
    try (apply ask_runs in Hr as (-> & a & -> & ->); split; [done|]; right; by eexists _, a).
  destruct Hr as [-> [= -> ->]]. split; [done|]. by left.
Qed.
Lemma call_runs q s tr s' r :
  runs (call header_ok q s) tr (s', r) ->
  s' = s /\ ((tr = [] /\ r = Panic) \/
             (exists auth a, r = Ok a /\ tr = [{| ev_call := K_Rpc auth q; ev_answer := inl a |}]) \/
             exists auth e, r = Err e /\ tr = [{| ev_call := K_Rpc auth q; ev_answer := inr e |}]).
Proof.
  unfold call. intros [(t1 & t2 & s1 & x & -> & H1 & H2)|(r1 & H1 & Hs)]%cmd_bind_runs;
    apply rpc_runs in H1 as [-> [[-> E]|(auth & a & E & ->)]]; simplify_eq.
  - destruct a as [a|e]; destruct H2 as [-> [= -> ->]]; (split; [done|]); right; [left|right]; by eexists auth, _.
  - split; [done|]. left. split; [done|]. by destruct r.
  - by destruct r.
Qed.
Lemma call_ok q s tr s' a :
  runs (call header_ok q s) tr (s', Ok a) -> s' = s /\ answered tr q a /\ map ev_call tr <> [] /\
  exists auth, tr = [{| ev_call := K_Rpc auth q; ev_answer := inl a |}].
Proof.
  intros [-> [[_ [=]]|[(auth & a' & [= <-] & ->)|(auth & e & [=] & _)]]]%call_runs.
  split; [done|]. split; [exists auth; by left|]. split; [done|by exists auth].
Qed.

(** ** The import of a package *)

(** What the first phase finds in the image: the parent form, free identifiers, targets. *)
Definition package_fits (target : ustring) (refs : RefsSection) (forms : list FormInfo)
  (questions : list QuestionSummary) : Prop :=
  (exists f, f ∈ forms /\ form_in_target target (rs_parent_form_id refs) f = true) /\
  forall e, e ∈ rs_entries refs ->
    (forall qid, rf_question_id e = Some qid -> qid ∉ map su_question_id questions) /\
    forall id, rf_form_id e = Some id -> exists f, f ∈ forms /\
      match rf_formset_guid e with
      | Some guid => form_in_formset guid id f = true
      | None => form_in_target target id f = true
      end.

Lemma existsb_elem {A} (p : A -> bool) l : existsb p l = true -> exists x, x ∈ l /\ p x = true.
Proof. intros (x & Hx & Hp)%existsb_exists. exists x. by rewrite list_elem_of_In. Qed.
Lemma foldM_unit_ok {E A} (f : unit -> A -> outcome E unit) l :
  foldM f l tt = Ok tt -> forall a, a ∈ l -> f tt a = Ok tt.
Proof.
  induction l as [|a l IH]; [by intros _ a ?%elem_of_nil|]. cbn. intros ([] & Ha & Hl)%bind_Ok b [->|Hb]%elem_of_cons; auto.
Qed.
Lemma busy_qids_ok questions busy : busy_qids questions = Ok busy -> busy = map su_question_id questions.
Proof.
  unfold busy_qids. set (f := fun (l : list Z) q => _).
  assert (forall qs acc, foldM f qs acc = Ok busy -> busy = acc ++ map su_question_id qs) as H; [|apply (H _ [])].
  induction qs as [|q qs IH]; intros acc; cbn [foldM map].
  - intros [= <-]. by rewrite app_nil_r.
  - intros (acc' & Hf & Hr)%bind_Ok. unfold f in Hf. apply bind_Ok in Hf as (id & Hid & [= <-]).
    rewrite (IH _ Hr), <- app_assoc. unfold fit_u16 in Hid. destruct (_ <? _); [by injection Hid as <-|discriminate].
Qed.
Lemma checks_fit target refs forms questions busy :
  check_parent forms target (rs_parent_form_id refs) = Ok tt -> busy_qids questions = Ok busy ->
  check_qids refs busy = Ok tt -> check_targets forms target refs = Ok tt ->
  package_fits target refs forms questions.
Proof.
  intros Hp ->%busy_qids_ok Hq Ht. split.
  - unfold check_parent in Hp. case_match; [by apply existsb_elem|done].
  - intros e He. specialize (foldM_unit_ok _ _ Hq e He) as Hqe. specialize (foldM_unit_ok _ _ Ht e He) as Hte.
    cbv beta in Hqe, Hte.
    split.
    + intros qid Eq. rewrite Eq in Hqe. by case_bool_decide.
    + intros id Ei. rewrite Ei in Hte. destruct (rf_formset_guid e);
        (destruct (existsb _ forms) eqn:Ex; [by apply existsb_elem|done]).
Qed.

Lemma benign_trace {A} (m : cmd A) s tr r :
  stable (fun c => benign c = true) m -> runs (m s) tr r -> Forall (fun e => benign (ev_call e) = true) tr.
Proof.
  intros Hm Hr. eapply (wp_runs (fun c => benign c = true)) in Hr as [H _]; [exact H|].
  apply (Hm (ap_active_image_id (cs_app s)) (st_active_image_id (cs_state s))). done.
Qed.

Lemma precheck_runs iid target env s tr s' pre :
  runs (precheck_refs header_ok iid target env s) tr (s', Ok pre) ->
  forall refs, env_refs env = Some refs -> exists forms questions,
    answered tr (Q_HiiListForms iid) forms /\
    answered tr (Q_HiiListQuestions iid target (rs_parent_form_id refs)) questions /\
    package_fits target refs forms questions.
Proof.
  intros Hr refs Er. unfold precheck_refs in Hr. rewrite Er in Hr.
  apply cmd_bind_ok in Hr as (t1 & t2 & s1 & forms & -> & H1 & Hr).
  apply (call_ok (Q_HiiListForms _)) in H1 as (-> & Hf & _ & _).
  apply cmd_bind_ok in Hr as (t3 & t4 & s2 & u & -> & H2 & Hr).
  apply of_outcome_runs in H2 as (-> & -> & H2).
  apply cmd_bind_ok in Hr as (t5 & t6 & s3 & questions & -> & H3 & Hr).
  apply (call_ok (Q_HiiListQuestions _ _ _)) in H3 as (-> & Hq & _ & _).
  apply cmd_bind_ok in Hr as (t7 & t8 & s4 & busy & -> & H4 & Hr).
  apply of_outcome_runs in H4 as (-> & -> & H4).
  apply cmd_bind_ok in Hr as (t9 & t10 & s5 & u' & -> & H5 & Hr).
  apply of_outcome_runs in H5 as (-> & -> & H5).
  apply cmd_bind_ok in Hr as (t11 & t12 & s6 & u'' & -> & H6 & Hr).
  apply of_outcome_runs in H6 as (-> & -> & H6).
  exists forms, questions. split; [by apply answered_l|]. split.
  - apply answered_r, answered_r. by apply answered_l.
  - destruct u, u', u''. eapply checks_fit; by symmetry.
Qed.

Lemma call_edits q s tr s' r :
  runs (call header_ok q s) tr (s', r) -> edits tr = [] \/ exists auth, edits tr = [K_Rpc auth q].
Proof.
  intros [_ [[-> _]|[(auth & a & _ & ->)|(auth & e & _ & ->)]]]%call_runs; [by left|..];
    unfold edits; cbn [map ev_call List.filter]; (case_bool_decide; [by left|right; by exists auth]).
Qed.
Lemma call_no_edit q s tr s' r :
  edited_image q = None -> runs (call header_ok q s) tr (s', r) -> edits tr = [].
Proof.
  intros Hq [_ [[-> _]|[(auth & a & _ & ->)|(auth & e & _ & ->)]]]%call_runs; [done|..];
    unfold edits; cbn [map ev_call List.filter edit_of]; by rewrite Hq.
Qed.

Lemma read_schema_runs file s tr s' text :
  runs (read_schema file s) tr (s', Ok text) ->
  s' = s /\ tr = [{| ev_call := K_ReadText file; ev_answer := inl text |}].
Proof.
  intros (t1 & t2 & s1 & x & -> & (-> & a & [= ->] & ->)%ask_runs & Hr)%cmd_bind_ok.
  destruct a as [b|e]; destruct Hr as [-> [= -> ->]]. done.
Qed.

(** No edit, or the one request. *)
Definition at_most (P : Request -> Prop) (l : list Call) : Prop :=
  l = [] \/ exists auth q, l = [K_Rpc auth q] /\ P q.
Definition adds_form (iid target : ustring) (q : Request) : Prop :=
  exists schema, q = Q_HiiFormAdd iid target schema.
Definition adds_refs (iid target : ustring) (refs : option RefsSection) (q : Request) : Prop :=
  exists r schema, refs = Some r /\ q = Q_HiiQuestionAdd iid (fmt_item target (rs_parent_form_id r)) schema.

Lemma import_form_runs iid target body s tr s' r :
  runs (import_form header_ok iid target body s) tr (s', r) -> at_most (adds_form iid target) (edits tr).
Proof.
  unfold import_form. case_bool_decide; [intros [-> _]; by left|].
  intros [(t1 & t2 & s1 & x & -> & H1 & Hr)|(r1 & H1 & _)]%cmd_bind_runs;
    apply (call_no_edit (Q_HiiListVarstores _ _)) in H1; try done; [|by left].
  rewrite edits_app, H1. clear H1.
  apply cmd_bind_runs in Hr as [(t3 & t4 & s2 & y & -> & (-> & _ & _)%of_outcome_runs & Hr)
    |(r1 & (-> & _ & _)%of_outcome_runs & _)]; [|by left].
  apply cmd_bind_runs in Hr as [(t5 & t6 & s3 & z & -> & (-> & _ & _)%of_outcome_runs & Hr)
    |(r1 & (-> & _ & _)%of_outcome_runs & _)]; [|by left]. cbn [app].
  apply cmd_bind_runs in Hr as [(t7 & t8 & s4 & w & -> & H1 & [-> _])|(r1 & H1 & _)].
  - rewrite app_nil_r. apply (call_edits (Q_HiiFormAdd _ _ _)) in H1 as [->|[auth ->]]; [by left|].
    right. exists auth. eexists. split; [done|]. by eexists.
  - apply (call_edits (Q_HiiFormAdd _ _ _)) in H1 as [->|[auth ->]]; [by left|].
    right. exists auth. eexists. split; [done|]. by eexists.
Qed.
Lemma import_refs_runs iid target refs body inserted busy s tr s' r :
  runs (import_refs header_ok iid target refs body inserted busy s) tr (s', r) ->
  at_most (adds_refs iid target refs) (edits tr).
Proof.
  unfold import_refs. destruct refs as [refs|]; [|intros [-> _]; by left].
  destruct (plan_ref_step _ _ _ _) as [[plan|]|e| |]; try (intros [-> _]; by left).
  cbv zeta. intros [(t1 & t2 & s1 & x & -> & H1 & [-> _])|(r1 & H1 & _)]%cmd_bind_runs;
    apply rpc_runs in H1 as [_ [[-> _]|(auth & a & _ & ->)]]; try (by left).
  all: right; exists auth; eexists; split; [done|]; exists refs; by eexists.
Qed.
Lemma precheck_no_edit iid target env s tr r :
  runs (precheck_refs header_ok iid target env s) tr r -> edits tr = [].
Proof.
  intros Hr. eapply edits_none, benign_trace; [|exact Hr]. by apply stable_precheck.
Qed.
Lemma after_edit_no_edit s tr r : runs (refresh_after_edit header_ok s) tr r -> edits tr = [].
Proof. intros Hr. eapply edits_none, benign_trace; [|exact Hr]. by apply stable_after_edit. Qed.

(** C11. An import is checked before it changes anything: when a package sends an edit, then
    all requests before it were questions to the engine, whose answers show that the parent
    form of its references exists, that their identifiers are free in it and that the forms
    they lead to exist. There are at most two edits, the form and then its references. *)
Theorem import_checks_first iid target file s tr s' r :
  runs (hii_import header_ok iid target file s) tr (s', r) ->
  edits tr = [] \/
  exists before after text env,
    tr = before ++ after /\ edits before = [] /\
    {| ev_call := K_ReadText file; ev_answer := inl text |} ∈ before /\ split_envelope text = Ok env /\
    (forall refs, env_refs env = Some refs -> exists forms questions,
       answered before (Q_HiiListForms iid) forms /\
       answered before (Q_HiiListQuestions iid target (rs_parent_form_id refs)) questions /\
       package_fits target refs forms questions) /\
    exists form refs, edits after = form ++ refs /\ at_most (adds_form iid target) form /\
      at_most (adds_refs iid target (env_refs env)) refs.
Proof.
  unfold hii_import. intros [(t1 & t2 & s1 & text & -> & H1 & Hr)|(r1 & H1 & _)]%cmd_bind_runs.
  2: { left. eapply edits_none, benign_trace; [|exact H1]. by apply stable_read_schema. }
  apply read_schema_runs in H1 as [-> ->].
  apply cmd_bind_runs in Hr as [(t3 & t4 & s2 & env & -> & H2 & Hr)|(r1 & H2 & _)];
    [|left; by apply of_outcome_runs in H2 as (-> & _ & _)].
  apply of_outcome_runs in H2 as (-> & -> & H2). cbn [app].
  assert (split_envelope text = Ok env) as He.
  { destruct (split_envelope text); cbn in H2; congruence. }
  clear H2. apply cmd_bind_runs in Hr as [(t5 & t6 & s3 & pre & -> & H3 & Hr)|(r1 & H3 & _)];
    [|left; exact (precheck_no_edit _ _ _ _ _ _ H3)].
  right. exists ({| ev_call := K_ReadText file; ev_answer := inl text |} :: t5), t6, text, env.
  split; [done|]. split; [exact (precheck_no_edit _ _ _ _ _ _ H3)|]. split; [by left|]. split; [done|]. split.
  { intros refs Er. destruct (precheck_runs _ _ _ _ _ _ _ H3 refs Er) as (forms & qs & Hf & Hq & Hp).
    exists forms, qs. split; [by apply (answered_r [_])|]. split; [by apply (answered_r [_])|done]. }
  apply cmd_bind_runs in Hr as [(t7 & t8 & s4 & added & -> & H4 & Hr)|(r1 & H4 & _)];
    apply import_form_runs in H4; [|exists (edits t6), []; rewrite app_nil_r; split; [done|]; split; [done|by left]].
  exists (edits t7), (edits t8). rewrite edits_app. split; [done|]. split; [done|]. cbv zeta in Hr.
  apply cmd_bind_runs in Hr as [(t9 & t10 & s5 & refs & -> & H5 & Hr)|(r1 & H5 & _)];
    apply import_refs_runs in H5; [|exact H5].
  rewrite edits_app. cut (edits t10 = []); [intros ->; by rewrite app_nil_r|].
  apply cmd_bind_runs in Hr as [(t11 & t12 & s6 & u & -> & H6 & Hr)|(r1 & H6 & _)];
    apply after_edit_no_edit in H6; [|exact H6].
  rewrite edits_app, H6. apply cmd_bind_runs in Hr as [(t13 & t14 & s7 & u' & -> & [-> _] & [-> _])|(r1 & [-> _] & _)]; done.
Qed.

(** ** Reopening an image *)

Definition closed (tr : list event) : list ustring := omap closes (map ev_call tr).
Lemma closed_images_app t1 t2 : closed (t1 ++ t2) = closed t1 ++ closed t2.
Proof. unfold closed. by rewrite map_app, omap_app. Qed.
Lemma closed_none tr : Forall (fun e => benign (ev_call e) = true) tr -> closed tr = [].
Proof.
  induction 1 as [|e tr He _ IH]; [done|]. unfold closed in *. cbn. unfold benign in He.
  destruct (edit_of (ev_call e)); [done|]. destruct (closes (ev_call e)); [done|]. exact IH.
Qed.
Lemma closed_of {A} (m : cmd A) s tr r :
  stable (fun c => benign c = true) m -> runs (m s) tr r -> closed tr = [].
Proof. intros Hm Hr. eapply closed_none, benign_trace; [exact Hm|exact Hr]. Qed.

(** What a session answers was answered to a request of [send]. *)
Lemma open_answered path s tr s' a :
  runs (session_call (fun sid => rpc header_ok (Q_ImageOpen sid path 1 [])) s) tr (s', Ok a) ->
  exists sid, answered tr (Q_ImageOpen sid path 1 []) a.
Proof.
  unfold session_call. intros (t1 & t2 & s1 & u & -> & _ & Hr)%cmd_bind_ok.
  apply cmd_bind_ok in Hr as (t3 & t4 & s2 & sid & -> & _ & Hr).
  apply cmd_bind_ok in Hr as (t5 & t6 & s3 & x & -> & Hx & Hr).
  apply (rpc_runs (Q_ImageOpen _ _ _ _)) in Hx as [-> [[_ [=]]|(auth & x' & [= <-] & ->)]].
  destruct x as [b|e].
  - destruct Hr as [-> [= -> ->]]. exists sid, auth. rewrite !elem_of_app, elem_of_cons. auto.
  - destruct (session_gone e); [|by destruct Hr as [_ [=]]].
    apply cmd_bind_ok in Hr as (t7 & t8 & s4 & u1 & -> & _ & Hr).
    apply cmd_bind_ok in Hr as (t9 & t10 & s5 & u2 & -> & _ & Hr).
    apply cmd_bind_ok in Hr as (t11 & t12 & s6 & sid2 & -> & _ & Hr).
    apply (call_ok (Q_ImageOpen _ _ _ _)) in Hr as (_ & Ha & _).
    exists sid2. by repeat apply answered_r.
Qed.

Lemma stable_open path :
  stable (fun c => benign c = true) (session_call (fun sid => rpc header_ok (Q_ImageOpen sid path 1 []))).
Proof.
  apply stable_session_call; [done|]. intros sid. by apply (stable_rpc header_ok _ (Q_ImageOpen _ _ _ _)).
Qed.

(** What follows the answer of the engine closes at most the old image. *)
Lemma reopen_rest_closed id im a s tr r :
  runs ((nodes ← call header_ok (Q_ImageNodesList (io_image_id a) []);
         _ ← show_tree (io_image_id a) nodes;
         _ ← persist_state_best_effort;
         _ ← rpc header_ok (Q_ImageClose id);
         _ ← quietly (refresh_registry header_ok);
         _ ← refresh_forms_view header_ok;
         _ ← set_status (us "reopened " ++ ii_name im ++ us " in write mode");
         mret (io_image_id a)) s) tr r ->
  closed tr = [] \/ closed tr = [id].
Proof.
  destruct r as [s' r].
  intros [(t1 & t2 & s1 & nodes & -> & H1 & Hr)|(r1 & H1 & _)]%cmd_bind_runs.
  2: { left. eapply closed_of; [|exact H1]. by apply (stable_call header_ok _ (Q_ImageNodesList _ _)). }
  eapply closed_of in H1; [|by apply (stable_call header_ok _ (Q_ImageNodesList _ _))].
  rewrite closed_images_app, H1. clear H1 t1. cbn [app].
  apply cmd_bind_runs in Hr as [(t1 & t3 & s2 & u & -> & [-> _] & Hr)|(r1 & [-> _] & _)]; [|by left].
  apply cmd_bind_runs in Hr as [(t1 & t4 & s3 & u1 & -> & H1 & Hr)|(r1 & H1 & _)];
    (eapply closed_of in H1; [|by apply stable_persist]); [|by left].
  rewrite app_nil_l, closed_images_app, H1. clear H1 t1. cbn [app].
  assert (forall A (k : unit -> cmd A), (forall u, stable (fun c => benign c = true) (k u)) ->
    forall s t r, runs ((_ ← rpc header_ok (Q_ImageClose id); k tt) s) t r -> closed t = [] \/ closed t = [id]) as H.
  { clear. intros A k Hk s t [s' r] [(t1 & t2 & s1 & x & -> & H1 & Hr)|(r1 & H1 & _)]%cmd_bind_runs;
      apply (rpc_runs (Q_ImageClose _)) in H1 as [_ [[-> _]|(auth & x' & _ & ->)]].
    - left. eapply closed_of; [apply (Hk tt)|exact Hr].
    - right. rewrite closed_images_app, (closed_of _ _ _ _ (Hk tt) Hr). done.
    - by left.
    - by right. }
  eapply (H _ (fun _ => _ ← quietly (refresh_registry header_ok); _ ← refresh_forms_view header_ok;
    _ ← set_status (us "reopened " ++ ii_name im ++ us " in write mode"); mret (io_image_id a))); [|exact Hr].
  intros _. apply stable_bind; [apply stable_quietly; by apply stable_refresh_registry|]. intros _.
  apply stable_bind; [by apply stable_forms_view|]. intros _. stable_tac.
Qed.

(** C12. [reopen] never throws away unsaved edits: it closes at most one image, one of the
    registry that is open for reading only, only when writing was asked for, and only after
    the engine has opened the same file for writing. *)
Theorem reopen_spares_unsaved want s tr r :
  runs (reopen header_ok want s) tr r ->
  closed tr = [] \/
  exists im before after sid opened,
    tr = before ++ after /\ closed before = [] /\ closed tr = [ii_image_id im] /\
    want = true /\ im ∈ rg_images (ap_registry (cs_app s)) /\ ii_mode im <> 1 /\
    answered before (Q_ImageOpen sid (ii_path im) 1 []) opened.
Proof.
  destruct r as [s' r]. unfold reopen.
  intros [(t1 & t2 & s1 & a & -> & [-> [= -> ->]] & Hr)|(r1 & [-> _] & _)]%cmd_bind_runs; [|by left].
  apply cmd_bind_runs in Hr as [(t1 & t3 & s2 & id & -> & (-> & -> & _)%of_outcome_runs & Hr)|(r1 & [-> _] & _)]; [|by left].
  apply cmd_bind_runs in Hr as [(t1 & t4 & s3 & im & -> & (-> & -> & Hf)%of_outcome_runs & Hr)|(r1 & [-> _] & _)]; [|by left].
  cbn [app]. destruct (List.find _ _) as [im'|] eqn:E; [injection Hf as ->|done].
  apply find_some in E as [Hin Hid%bool_decide_eq_true].
  destruct want, (Z.eqb_spec (ii_mode im') 1) as [|Hmode]; cbn [reopen_plan] in Hr;
    try (destruct Hr as [-> _]; by left).
  apply cmd_bind_runs in Hr as [(t5 & t6 & s4 & opened & -> & H1 & Hr)|(r1 & H1 & _)];
    [|left; eapply closed_of; [apply stable_open|exact H1]].
  destruct (open_answered _ _ _ _ _ H1) as [sid Ho]. eapply closed_of in H1; [|apply stable_open].
  apply reopen_rest_closed in Hr. rewrite closed_images_app, H1. cbn [app]. destruct Hr as [->| ->]; [by left|].
  right. exists im', t5, t6, sid, opened. rewrite <- Hid. rewrite list_elem_of_In. done.
Qed.
End Traces.

(** ** Packages *)

Section Packages.
Context {JL : JsonLib}.

Lemma keys_differ : us "formset" <> us "meta" /\ us "formset" <> us "refs" /\ us "meta" <> us "refs".
Proof. by vm_compute. Qed.
(** The members of a package. *)
Definition package (v : Value) (meta : Meta) (refs : option RefsSection) : Value :=
  let obj := set_member (us "meta") (of_meta meta) (set_member (us "formset") v empty_object) in
  match refs with Some r => set_member (us "refs") (of_refs r) obj | None => obj end.
Lemma package_members v meta refs :
  let p := package v meta refs in
  is_object p = true /\ member (us "meta") p = Some (of_meta meta) /\
  member (us "formset") p = Some v /\ member (us "refs") p = of_refs <$> refs.
Proof.
  destruct keys_differ as (N1 & N2 & N3). apply not_eq_sym in N1, N2, N3. unfold package. cbv zeta.
  pose proof is_object_empty as H0.
  pose proof (is_object_set (us "formset") v _ H0) as H1.
  pose proof (is_object_set (us "meta") (of_meta meta) _ H1) as H2.
  destruct refs as [r|]; cbn [fmap option_fmap option_map]; repeat split; try done; try (by apply is_object_set).
  - rewrite (member_set_ne (us "refs") (us "meta")) by exact N3. by apply member_set.
  - rewrite (member_set_ne (us "refs") (us "formset")) by exact N2.
    rewrite (member_set_ne (us "meta") (us "formset")) by exact N1. by apply member_set.
  - by apply member_set.
  - by apply member_set.
  - rewrite (member_set_ne (us "meta") (us "formset")) by exact N1. by apply member_set.
  - rewrite !member_set_ne by (by apply not_eq_sym). apply member_empty.
Qed.

(** A document that is read back as it was printed, also inside a package: no floats, and
    not nested as deep as the parser can go. *)
Definition plain (v : Value) : Prop := has_float v = false /\ depth v < 127.

Lemma package_plain v meta refs :
  plain v -> has_float (package v meta refs) = false /\ depth (package v meta refs) < 128.
Proof.
  intros [Hf Hd]. unfold package. set (o1 := set_member (us "formset") v empty_object).
  assert (has_float o1 = false) as F1 by (apply has_float_set; [done|apply has_float_empty]).
  assert (depth o1 < 128) as D1.
  { pose proof (depth_set (us "formset") v empty_object). rewrite depth_empty in *. fold o1 in H. lia. }
  clearbody o1. set (o2 := set_member (us "meta") (of_meta meta) o1).
  assert (has_float o2 = false) as F2 by (apply has_float_set; [apply has_float_meta|done]).
  assert (depth o2 < 128) as D2.
  { pose proof (depth_set (us "meta") (of_meta meta) o1). pose proof (depth_meta meta).
    fold o2 in H. lia. }
  clearbody o2. destruct refs as [r|]; [|done].
  pose proof (depth_set (us "refs") (of_refs r) o2). pose proof (depth_refs r).
  split; [apply has_float_set; [apply has_float_refs|done]|lia].
Qed.

(** C36. A package that is exported is cut into the same parts: its origin, its references and
    the same document as body, for a document without floats and nested less than 127 deep
    and references whose numbers are [u16]. Wrapping panics exactly for a body that is no
    document. *)
Theorem envelope_roundtrip body source refs lossy :
  (forall r, refs = Some r -> refs_fit r = true) ->
  match wrap_export body source refs lossy with
  | Ok text => exists v, from_str body = Ok v /\
      (plain v ->
        split_envelope text = Ok {| env_meta := {| mt_source := source; mt_lossy := lossy |};
                                    env_refs := refs; env_body := to_json v |} /\
        from_str (to_json v) = Ok v)
  | Panic => exists e, from_str body = Err e
  | _ => False
  end.
Proof.
  intros Hfit. unfold wrap_export, expect_json. destruct (from_str_total body) as [HP HD].
  destruct (from_str body) as [v|e| |]; try done; [|by exists e].
  cbn [mbind outcome_bind]. exists v. split; [done|]. intros Hv.
  split; [|by apply from_str_to_json; destruct Hv; [|lia]].
  set (meta := {| mt_source := source; mt_lossy := lossy |}).
  change (split_envelope (to_json_pretty (package v meta refs)) =
          Ok {| env_meta := meta; env_refs := refs; env_body := to_json v |}).
  destruct (package_plain v meta refs Hv) as [Hf Hd].
  unfold split_envelope. rewrite from_str_to_json_pretty by done. cbn [map_err mbind outcome_bind].
  destruct (package_members v meta refs) as (-> & -> & -> & ->). cbn [negb].
  rewrite meta_of_meta. destruct refs as [r|]; cbn; [|done].
  unfold parse_refs. rewrite refs_of_refs; [done|by apply Hfit].
Qed.

(** A store of the package that the target has under the same identifier, but differently. *)
Definition conflicts (target : list VarstoreBrief) (d : Value) : bool :=
  match store_of target (brief_of d) with
  | Some t => negb (identical t (brief_of d))
  | None => false
  end.
Definition unknown (target : list VarstoreBrief) (d : Value) : bool :=
  negb (existsb (fun t => vb_id t =? vb_id (brief_of d)) target).

Lemma store_of_none target b : store_of target b = None <-> existsb (fun t => vb_id t =? vb_id b) target = false.
Proof.
  unfold store_of. induction target as [|t l IH]; cbn; [done|]. by destruct (vb_id t =? vb_id b).
Qed.
Lemma kept_stores target l :
  foldM (fun _ d => check_conflict target d) (List.filter (retained target) l) tt =
    match List.find (conflicts target) l with
    | Some d => Err (EE_VarstoreConflict (vb_id (brief_of d)))
    | None => Ok tt
    end /\
  (List.find (conflicts target) l = None -> List.filter (retained target) l = List.filter (unknown target) l).
Proof.
  induction l as [|d l [IH1 IH2]]; [done|]. cbn [List.filter List.find].
  destruct (store_of target (brief_of d)) as [t|] eqn:E.
  - assert (unknown target d = false) as ->.
    { unfold unknown. destruct (existsb _ target) eqn:Ex; [done|]. apply store_of_none in Ex. congruence. }
    assert (retained target d = negb (identical t (brief_of d))) as -> by (unfold retained; by rewrite E).
    assert (conflicts target d = negb (identical t (brief_of d))) as -> by (unfold conflicts; by rewrite E).
    destruct (identical t (brief_of d)) eqn:Ei; cbn [negb]; [by split|].
    split; [|done]. cbn [foldM].
    assert (check_conflict target d = Err (EE_VarstoreConflict (vb_id (brief_of d)))) as ->
      by (unfold check_conflict; by rewrite E, Ei). done.
  - assert (unknown target d = true) as ->.
    { unfold unknown. apply store_of_none in E. by rewrite E. }
    assert (retained target d = true) as -> by (unfold retained; by rewrite E).
    assert (conflicts target d = false) as -> by (unfold conflicts; by rewrite E).
    split; [|intros Hn; by rewrite IH2]. cbn [foldM].
    assert (check_conflict target d = Ok tt) as -> by (unfold check_conflict; by rewrite E). done.
Qed.

(** The variable stores of a package: the first one that the target has in a different
    form is reported; otherwise exactly the stores whose identifier the target does not have
    are left. A body without a list of stores stays as it is. *)
Theorem plan_varstores_exact body target :
  plan_varstores body target =
    match from_str body with
    | Ok v =>
        match declared_stores v with
        | None => Ok body
        | Some declared =>
            match List.find (conflicts target) declared with
            | Some d => Err (EE_VarstoreConflict (vb_id (brief_of d)))
            | None => Ok (to_json (set_member (us "varstores")
                                     (of_array (List.filter (unknown target) declared)) v))
            end
        end
    | Err e => Err (EE_InvalidJson e)
    | Panic => Panic
    | Diverge => Diverge
    end.
Proof.
  unfold plan_varstores. destruct (from_str body) as [v|e| |]; try done. cbn [map_err mbind outcome_bind].
  destruct (declared_stores v) as [declared|]; [|done]. cbv zeta.
  destruct (kept_stores target declared) as [-> H]. destruct (List.find _ declared); [done|].
  cbn. by rewrite H.
Qed.
End Packages.
