(* ===== verification/Witnesses.v ===== *)
(** The theorems of the development instantiated at concrete images: every
    hypothesis is discharged by evaluating the definitions. *)
From S2P Require Import Prelude Text Types Ffs Tiano TianoFacts Codec Instances Parser.
From S2P Require Import Target Ops ImageParser Builder ParserFacts RoundTrip.
From S2P Require Import OpsFacts EditBuild BuilderFacts.
From S2P Require Import Listing Nvar NvarStores NvarFacts NvarStoresFacts ListingFacts.
Import Samples.

(** An edited sample: the first file removed, a third one inserted at the end. *)
Module Sample.

Definition img : Image := match parse_image 4 image IM_Write [] [] with
  | Ok i => i
  | _ => {| image_id := []; session_id := []; mode := IM_Read;
            root := mkNode None T_Root x00 0 [] [] [] [] NoAction PD_None false false [] |}
  end.
Definition step (r : FfsNode) (e : edit) : FfsNode :=
  match apply_edit r e with Ok r' => r' | _ => r end.
Definition e1 : edit := E_Remove (TG_Guid (guid_of x11)).
Definition e2 : edit := E_Insert (TG_Path [1]) file_c Into.
Definition r1 : FfsNode := step (root img) e1.
Definition r2 : FfsNode := step r1 e2.
Definition out : list byte := match build_node r2 [] with Ok o => o | _ => [] end.
Definition dummy : FfsNode := root img.
Definition r3 : FfsNode := step (root img) (E_Insert (TG_Path [1; 1]) file_c Before).
Definition new_c : FfsNode := match parse_ffs_bytes file_c with Ok n => n | _ => dummy end.
Definition vol : FfsNode := default dummy (node_at_path (root img) [1]).
(** The first file after an edit below it, and its bytes between others. *)
Definition dirty_file : FfsNode :=
  set_action A_Rebuild (default dummy (node_at_path (root img) [1; 0])).
Definition dirty_bytes : list byte := match build_node dirty_file [] with Ok b => b | _ => [] end.
(** An edited LZMA section: a slot of 40 bytes around one raw section. *)
Definition lzma_section : FfsNode :=
  mkNode None T_Section EFI_SECTION_GUID_DEFINED 0 (le_enc 3 64 ++ [x02])
    (guid_to_bytes lzma_guid ++ le_enc 2 24 ++ le_enc 2 1 ++ replicate 40 x00) []
    [mkNode None T_Section x19 0 (le_enc 3 8 ++ [x19]) [x01; x02; x03; x04] [] [] NoAction PD_None
       false false []]
    A_Rebuild (PD_GuidedSection {| gs_guid := lzma_guid; gs_dictionary_size := 0 |})
    false false [].
Definition lzma_bytes : list byte :=
  match build_recompressed_guided build_node lzma_section [] with Ok b => b | _ => [] end.
(** A parsed image with an NVAR store, and the image with one byte of [Setup] set. *)
Definition nimg : Image :=
  match parse_image 4 nvar_image IM_Write [] [] with Ok i => i | _ => img end.
Definition setup : ustring := us "Setup".
Definition set_byte : outcome NvarError (Image * NvarSetOutcome) := nvar_set nimg setup None 1 0xab 1.
Definition nimg' : Image := match set_byte with Ok (i, _) => i | _ => nimg end.
Definition nout : NvarSetOutcome :=
  match set_byte with Ok (_, o) => o | _ => {| applied := []; stores := [] |} end.
Definition rows : list Node := match list_items (root img) None with Ok l => l | _ => [] end.
(** The row of the second file. *)
Definition row : Node := row_of [1; 1] (default dummy (node_at_path (root img) [1; 1])).
End Sample.


(** A comparison of closed integers. *)
Ltac vm_lt := apply Z.ltb_lt; vm_eq.

Lemma parse_build_identity_witness : build_image Sample.img = Ok image.
Proof.
  apply (parse_build_identity 4 image IM_Write [] []); [vm_lt|vm_eq].
Defined.

Lemma edits_are_local_witness :
  edited below_top (root Sample.img) Sample.r2 /\
  bool_decide (Sample.out = image) = false /\
  blen Sample.out = blen image /\ get Sample.out 5 = get image 5.
Proof.
  assert (edited below_top (root Sample.img) Sample.r2) as He.
  { apply edited_step with (r := Sample.r1) (e := Sample.e2); [|simpl; lia|vm_eq].
    apply edited_step with (r := root Sample.img) (e := Sample.e1); [apply edited_nil| |vm_eq].
    intros p Hp. vm_compute in Hp. injection Hp as <-. simpl. lia. }
  destruct (edits_are_local 4 image IM_Write [] [] Sample.img Sample.r2 Sample.out) as [Hl Hj];
    [vm_lt|vm_eq|exact He|vm_eq|].
  split; [exact He|]. split; [vm_eq|]. split; [exact Hl|]. apply Hj;
    [split; [lia|vm_lt]|].
  intros k c c' Hk Hk' Hin. right.
  assert (offset <$> children (root Sample.img) !! k = Some (offset c)) as Ho by (by rewrite Hk).
  assert (node_type <$> children (root Sample.img) !! k = Some (node_type c)) as Hty
    by (by rewrite Hk).
  destruct Hin as [Hin _]. revert Ho Hty Hin.
  generalize (offset c) (node_type c). clear. intros o t Ho Hty Hin.
  destruct k as [|[|[|k]]]; vm_compute in Ho, Hty; simplify_eq; done || lia.
Defined.

(** [r] builds to [b]. *)
Definition builds_to (r : outcome OpsError FfsNode) (b : list byte) : bool :=
  match r with
  | Ok r => match build_node r [] with Ok o => bool_decide (o = b) | _ => false end
  | _ => false
  end.

(** A file inserted into a padding node, and the removal of one, are accepted,
    and the build returns the old image. *)
Example insert_into_padding_lost :
  builds_to (insert (root Sample.img) (TG_Path [0]) file_c Into) image = true.
Proof. vm_eq. Qed.

Example remove_padding_ignored : builds_to (remove (root Sample.img) (TG_Path [0])) image = true.
Proof. vm_eq. Qed.

(** Replacing the body of a volume by its own bytes erases the volume: the
    builder of a volume only places its children. *)
Example replace_volume_body_erases :
  builds_to (replace (root Sample.img) (TG_Path [1]) (body Sample.vol) true)
    (take (Z.to_nat (offset Sample.vol + blen (header Sample.vol))) image
     ++ replicate (length (body Sample.vol)) xff
     ++ drop (Z.to_nat (offset Sample.vol + blen (header Sample.vol)) + length (body Sample.vol))
          image) = true.
Proof. vm_eq. Qed.

Lemma edits_not_lost_witness :
  everywhere (fun n => action n = NoAction -> subtree_dirty n = false) Sample.r2 /\
  everywhere (fun n => copied_whole n = true ->
    existsb subtree_dirty (children n) = false /\
    forall out, build_node n out = Ok (out ++ own_bytes n)) Sample.r2.
Proof.
  apply (edits_not_lost 4 image IM_Write [] [] Sample.img); [vm_lt|vm_eq|].
  apply edited_step with (r := Sample.r1) (e := Sample.e2); [| |vm_eq].
  - apply edited_step with (r := root Sample.img) (e := Sample.e1); [apply edited_nil|exact I|vm_eq].
  - simpl. intros hp n Hhp Hn. vm_compute in Hhp. injection Hhp as <-.
    assert (is_gap <$> node_at_path Sample.r1 [1] = Some false) as Hg by vm_eq.
    rewrite Hn in Hg. by injection Hg.
Defined.

Lemma insert_spec_witness :
  insert (root Sample.img) (TG_Path [1; 1]) file_c Before = Ok Sample.r3 /\
  inserted (root Sample.img) [1; 1] [1] 1 Sample.new_c Sample.vol Sample.r3.
Proof.
  assert (insert (root Sample.img) (TG_Path [1; 1]) file_c Before = Ok Sample.r3) as Hok by vm_eq.
  split; [exact Hok|].
  pose proof (insert_spec (root Sample.img) [1; 1] file_c Before
    ltac:(repeat constructor; lia)) as H.
  assert (parse_ffs_bytes file_c = Ok Sample.new_c) as Hnew by vm_eq.
  assert (node_at_path (root Sample.img) [1] = Some Sample.vol) as Hgp by vm_eq.
  assert ((position Before [1; 1] Sample.vol <=? blen (children Sample.vol)) = true) as Hk by vm_eq.
  rewrite Hnew in H. cbn [host length Nat.sub take] in H. rewrite Hgp, Hk, Hok in H.
  destruct H as [(e & _ & H)|[_ (r' & H & Hi)]]; [destruct (Ok_not_Err _ _ H)|].
  apply Ok_inj in H. rewrite H. exact Hi.
Defined.

Lemma parse_target_path_witness : parse_target (us "0/12/3") = Ok (TG_Path [0; 12; 3]).
Proof.
  change (parse_target (path_string [0; 12; 3]) = Ok (TG_Path [0; 12; 3])).
  apply parse_target_path; [done|]. unfold usize_max. repeat constructor; lia.
Defined.









Lemma rebuilt_file_parses_witness :
  exists f,
    parse_file (zeros 8 ++ Sample.dirty_bytes ++ zeros 8) 8 xff x02 = Ok f /\
    raw f = Sample.dirty_bytes /\ checksums_ok (header f) (body f).
Proof.
  destruct (rebuilt_file_parses Sample.dirty_file Sample.dirty_bytes (zeros 8) (zeros 8) xff x02)
    as (f & Hf & Hr & _ & _ & Hs & _).
  - vm_eq.
  - vm_compute. discriminate.
  - vm_compute. discriminate.
  - vm_eq.
  - left. split; [vm_eq|vm_lt].
  - vm_eq.
  - exists f. split; [exact Hf|]. by split.
Defined.

Lemma recompressed_section_decodes_witness :
  exists ch h stream p,
    Sample.lzma_bytes = h ++ sub (body Sample.lzma_section) 0 p ++ stream /\
    Codec.decompress stream x02 = Ok ch.
Proof.
  assert (build_recompressed_guided build_node Sample.lzma_section [] = Ok Sample.lzma_bytes)
    as Hb by vm_eq.
  destruct (recompressed_section_decodes Sample.lzma_section [] Sample.lzma_bytes Hb)
    as (ch & h & stream & p & _ & _ & Hr & _ & Hd & _).
  exists ch, h, stream, p. split; [exact Hr|exact Hd].
Defined.

Lemma nimg_in_memory : in_memory (root Sample.nimg).
Proof.
  apply (all_nodes_everywhere _ (fun n => blen (body n) <=? usize_max)); [intros m; lia|vm_eq].
Defined.

Lemma set_byte_Ok : Sample.set_byte = Ok (Sample.nimg', Sample.nout).
Proof. vm_eq. Defined.

Lemma nvar_set_effect_witness :
  rewritten (written (root Sample.nimg) Sample.setup None 1 0xab 1)
    (root Sample.nimg) (root Sample.nimg') /\
  exists p n f, node_at_path (root Sample.nimg) p = Some n /\
    edited_var (root Sample.nimg) Sample.setup None p n = Some f.
Proof.
  destruct (nvar_set_effect Sample.nimg Sample.setup None 1 0xab 1 Sample.nimg' Sample.nout)
    as (g & Hg & _ & _ & _ & Hr & Hx & _);
    [exact nimg_in_memory|lia|lia|exact set_byte_Ok|].
  injection Hg as <-. split; [exact Hr|exact Hx].
Defined.

Lemma nvar_set_failures_witness :
  nvar_set Sample.nimg (us "Nope") None 0 0 1 = Err (NV_ValueOpUnsupported (NoSuchVariable (us "Nope"))) /\
  forall p n f, ~ (node_at_path (root Sample.nimg) p = Some n /\
                   edited_var (root Sample.nimg) (us "Nope") None p n = Some f).
Proof.
  assert (nvar_set Sample.nimg (us "Nope") None 0 0 1
          = Err (NV_ValueOpUnsupported (NoSuchVariable (us "Nope")))) as He by vm_eq.
  split; [exact He|].
  pose proof (nvar_set_failures Sample.nimg (us "Nope") None 0 0 1 nimg_in_memory
                ltac:(lia) ltac:(lia)) as H.
  assert (refused_argument Sample.nimg None 0 1 = None) as Ha by vm_eq.
  cbv zeta in H. rewrite Ha, He in H. cbn [guid_arg] in H.
  destruct H as [(p & n & _ & [Hf|(f & _ & [[_ Hf]|[_ Hf]])])|[H _]]; [|discriminate Hf..|exact H].
  exfalso. pose proof (find_var_spec (body n) (us "Nope") None) as Hs. rewrite Hf in Hs.
  destruct Hs as (? & ? & ? & Hs & _). discriminate Hs.
Defined.

Lemma nvar_set_not_lost_witness :
  everywhere (fun n => action n = NoAction -> subtree_dirty n = false) (root Sample.nimg').
Proof.
  apply (nvar_set_not_lost Sample.nimg Sample.setup None 1 0xab 1 Sample.nimg' Sample.nout);
    [exact nimg_in_memory|lia|lia| |exact set_byte_Ok].
  apply clean_dirty_closed.
  apply (all_nodes_everywhere _ (fun n => bool_decide (action n = NoAction) &&
    (negb (is_gap n) || (length (children n) =? 0)%nat))); [|vm_eq].
  intros m [Ha Hg]%andb_true_iff. apply bool_decide_eq_true in Ha. split; [exact Ha|].
  intros Hgap. rewrite Hgap in Hg. by destruct (children m).
Defined.

Lemma listed_paths_resolve_witness :
  exists p n, parse_target (nd_path Sample.row) = Ok (TG_Path p) /\
    find_item (root Sample.img) (TG_Path p) = Ok n /\ Sample.row = row_of p n.
Proof.
  destruct (listed_paths_resolve (root Sample.img) None Sample.rows Sample.row)
    as [(Hp & _)|(p & n & _ & Hp & Hf & _ & Hr)].
  - apply (all_nodes_everywhere _ (fun n => blen (children n) <=? usize_max)); [intros m; lia|vm_eq].
  - vm_eq.
  - apply (list_elem_of_lookup_2 _ 5%nat). vm_eq.
  - exfalso. revert Hp. vm_compute. discriminate.
  - exists p, n. split; [exact Hp|]. split; [exact Hf|exact Hr].
Defined.

Lemma hex_pattern_roundtrip_witness : parse_hex_pattern (hex_bytes [xde; xad]) = Some [xde; xad].
Proof. apply hex_pattern_roundtrip. discriminate. Defined.

Lemma search_modes_spec_witness :
  mode_hit (root Sample.img) [] (us "x") SM_Utf8 = true <->
  exists needle i, needle = as_bytes (us "x") /\ needle <> [] /\ 0 <= i /\
    i + blen needle <= blen (body (root Sample.img)) /\
    sub (body (root Sample.img)) i (i + blen needle) = needle.
Proof. apply (search_modes_spec (root Sample.img) [] (us "x") SM_Utf8). discriminate. Defined.
