(* ===== verification/HiiWitnesses.v ===== *)
(** The theorems on HII data instantiated at concrete packages, and the concrete inputs
    behind the findings. *)
From stdpp Require Import gmap.
From S2P Require Import Prelude Text Types Ffs Instances Hii Ifr Gates Schema FormsetAdd StringPack Spf.
From S2P Require Import HiiInst HiiFacts FormFacts GatesFacts IfrFacts StringFacts.
Import HiiSamples.

Lemma plan_flip_total_witness :
  match plan_flip gated gate with Ok (Some f) => flip_ok gated f /\ 2 <= flip_offset f | _ => False end.
Proof.
  pose proof (plan_flip_total gated gate ltac:(vm_compute; discriminate)) as H.
  assert (plan_flip gated gate = Ok (Some flip)) as Hp by vm_eq. rewrite Hp in *. exact H.
Defined.

Lemma unlock_sound_witness :
  exists body' x, apply_flips gated [flip] = Ok body' /\ decode_expr (gate_region body' gate) = Ok x /\
    is_unlocked_expr x = true.
Proof.
  destruct (unlock_sound gated gate flip) as (body' & x & Ha & _ & _ & Hd & Hx).
  - vm_compute. discriminate.
  - vm_compute. discriminate.
  - vm_eq.
  - split; vm_compute; discriminate.
  - vm_eq.
  - exists body', x. split; [exact Ha|]. split; [exact Hd|exact Hx].
Defined.

Lemma apply_flips_atomic_witness :
  match apply_flips gated [flip] with
  | Ok body' => forall k, get body' k = flipped [flip] gated k
  | _ => False
  end.
Proof.
  pose proof (apply_flips_atomic gated [flip]) as H.
  assert (match apply_flips gated [flip] with Ok _ => true | _ => false end = true) as Hok by vm_eq.
  destruct (apply_flips gated [flip]); [|discriminate Hok..]. apply H.
  constructor; [|constructor]. repeat split; vm_compute; discriminate.
Defined.

(** The planned flip of the comparison with scoped operands hits an opcode. *)
Lemma plan_flip_hits_opcode :
  find_gates quirk target = Ok [quirk_gate] /\
  exists body', plan_flip quirk quirk_gate =
      Ok (Some {| flip_offset := 14; flip_from := [IFR_UINT64_OP]; flip_to := [IFR_TRUE_OP] |}) /\
    apply_flips quirk [{| flip_offset := 14; flip_from := [IFR_UINT64_OP]; flip_to := [IFR_TRUE_OP] |}] = Ok body' /\
    decode_expr (gate_region body' quirk_gate) = Ok GE_Other.
Proof. split; [vm_eq|]. eexists. split; [vm_eq|]. split; [vm_compute; reflexivity|vm_eq]. Qed.

(** Closed conjunctions about the opcodes of a sample. *)
Ltac ops_eq := repeat split; first [vm_eq | vm_compute; discriminate].
Definition op (c ls : byte) : IfrOp := {| op_code := c; op_ls := ls; op_len := Z.land (b2z ls) 0x7F |}.
Definition contents : list IfrOp :=
  [op IFR_UINT64_OP x0a; op IFR_UINT64_OP x0a; op IFR_EQUAL_OP x02; op IFR_FORM_OP x86; plain_end].

Lemma unsuppress_reorders_witness :
  exists body', unsuppress gated {| sc_start := 2; sc_end := 32 |} = Ok body' /\
    ops_at body' 0 ([op IFR_SUPPRESS_IF_OP x82] ++ [plain_end] ++ contents) 34.
Proof.
  destruct (unsuppress_reorders gated 0 [] (op IFR_SUPPRESS_IF_OP x82) contents [] 34 {| sc_start := 2; sc_end := 32 |})
    as [H _].
  - vm_compute. discriminate.
  - ops_eq.
  - ops_eq.
  - destruct H as (body' & Hb & _ & _ & Ho); [ops_eq|vm_compute; reflexivity|]. exists body'. split; [exact Hb|].
    rewrite app_nil_r in Ho. exact Ho.
Defined.

(** A text inserted in front of the reference to form 0x101. *)
Lemma splice_question_ops_correct_witness :
  exists package' at_, splice_question_ops package 0 0x101 (IP_BeforeGoto 0x101) text_op = Ok (package', (at_, 8)) /\
    inserted package package' at_ text_op.
Proof.
  pose proof (splice_question_ops_correct package 0 0x101 (IP_BeforeGoto 0x101) text_op) as H.
  assert (match splice_question_ops package 0 0x101 (IP_BeforeGoto 0x101) text_op with Ok (_, (_, n)) => n =? 8 | _ => false end
          = true) as Hok by vm_eq.
  destruct (splice_question_ops package 0 0x101 (IP_BeforeGoto 0x101) text_op) as [[package' [at_ n]]| | |];
    [|discriminate Hok..]. apply Z.eqb_eq in Hok. subst n.
  destruct H as (_ & Hi & _); [vm_eq|vm_compute; discriminate|]. exists package', at_. split; [reflexivity|exact Hi].
Defined.

Lemma known_id s i : ids !! us s = Some i -> (0 <=? i) && (i <? 2 ^ 16) = true -> known ids (us s).
Proof. intros Hs Hi. exists i. split; [exact Hs|]. unfold in_u16. lia. Defined.
Ltac known := first [apply (known_id "T" 2); vm_eq | apply (known_id "H" 3); vm_eq | apply (known_id "F" 4); vm_eq
                    | apply (known_id "P" 5); vm_eq | apply (known_id "O" 6); vm_eq].

Lemma build_parse_roundtrip_witness :
  parse_form_package package =
    Ok (Some {| fi_guid := GuidInst.of_array [x33; x22; x11; x00; x55; x44; x77; x66; x88; x99; xaa; xbb; xcc; xdd; xee; xff];
                fi_title := 2; fi_forms := [{| rf_form_id := 0x101; rf_title := 4; rf_suppressed := false |}] |}).
Proof.
  destruct (build_parse_roundtrip id schema ids) as (bytes & ops & g & t & Hb & _ & _ & Hg & Ht & Hp).
  - split; [vm_compute; by eexists|]. split; [known|]. split; [known|]. split; [vm_compute; discriminate|].
    split; [|split].
    + constructor; [|constructor]. split; [vm_compute; by eexists|vm_compute; discriminate].
    + constructor; [known|constructor].
    + constructor; [|constructor]. split; [unfold in_u16; cbn; lia|]. split; [known|].
      cbn [form fs_items]. repeat apply Forall_cons_2; [..|apply Forall_nil_2]; cbn -[known sized]; repeat split;
        first [known | unfold sized; lia | apply Forall_cons_2; [known|apply Forall_nil_2]].
  - assert (build_ifr id schema ids = Ok ifr) as Hi by vm_eq. rewrite Hi in Hb. apply Ok_inj in Hb. subst bytes.
    assert (Some g = guid_try_parse (fss_formset_guid schema)) as Hg' by (symmetry; exact Hg). vm_compute in Hg'.
    injection Hg' as ->. assert (Some t = ids !! fss_title schema) as Ht' by (symmetry; exact Ht). vm_compute in Ht'.
    injection Ht' as ->. apply Hp. vm_compute. reflexivity.
Defined.

Lemma strings_blocks : plain_blocks strings (49, scan_start) (57, after_strings).
Proof.
  eapply (pb_cons _ 49 _ SIBT_STRING_UCS2 54); [vm_eq|discriminate|vm_eq|vm_compute; discriminate|vm_compute; reflexivity|].
  eapply (pb_cons _ 54 _ SIBT_STRING_SCSU 57); [vm_eq|discriminate|vm_eq|vm_compute; discriminate|vm_compute; reflexivity|].
  apply pb_nil.
Defined.

Lemma add_strings_reads_back_witness :
  exists body' ids', add_strings_to_body strings [us "C"] = Ok (body', ids') /\
    parse_string_package body' =
      Ok (Some {| sp_language := us "en"; sp_strings := [(1, us "A"); (2, us "B"); (3, us "C")] |}).
Proof.
  destruct (add_strings_reads_back strings [us "C"] 57 after_strings) as (lang & Hl & H).
  - vm_eq.
  - vm_compute. discriminate.
  - exact strings_blocks.
  - vm_eq.
  - discriminate.
  - constructor; [|constructor]. constructor; [|constructor]. split; [left; vm_compute; split; [discriminate|reflexivity]|discriminate].
  - assert (parse_string_package strings = Ok (Some {| sp_language := us "en"; sp_strings := ss_strings after_strings |})) as Hs by vm_eq.
    rewrite Hs in Hl. apply Ok_inj in Hl. injection Hl as <-.
    assert (match add_strings_to_body strings [us "C"] with Ok _ => true | _ => false end = true) as Hok by vm_eq.
    destruct (add_strings_to_body strings [us "C"]) as [[body' ids']| | |]; [|discriminate Hok..].
    exists body', ids'. split; [reflexivity|]. exact (proj1 H).
Defined.

(** Behind an extension block the new string is lost: it lands behind the END. *)
Lemma ext_strings_lost :
  parse_string_package ext_strings = Ok (Some {| sp_language := us "en"; sp_strings := [(1, us "A"); (2, us "B")] |}) /\
  exists body' ids', add_strings_to_body ext_strings [us "C"] = Ok (body', ids') /\ ids' !! us "C" = Some 2 /\
    parse_string_package body' = Ok (Some {| sp_language := us "en"; sp_strings := [(1, us "A"); (2, us "B")] |}).
Proof. split; [vm_eq|]. eexists _, _. split; [vm_compute; reflexivity|]. split; vm_eq. Qed.

Lemma append_record_scanned_witness :
  exists rec, append_question_record container 16 6 1 2 0x80 3 x00 x01 = Ok (container ++ rec, 88) /\
    exists old mid, scan_question_records (container ++ rec) =
      Ok (old ++ mid ++ [{| qr_offset := 88; qr_question_id := 6; qr_ifr_offset := 0x80; qr_failsafe := x00; qr_optimal := x01 |}]).
Proof.
  destruct (append_record_scanned container 0 16 6 1 2 0x80 3 x00 x01) as (rec & old & mid & Ha & _ & _ & Hs & _);
    [vm_eq|lia|vm_compute; discriminate|vm_eq|vm_eq|lia|lia|].
  exists rec. split; [exact Ha|]. exists old, mid. exact Hs.
Defined.
