(* ===== verification/PeWitnesses.v ===== *)
(** A parser of PE images that instantiates the crate [object], an image with a resource
    and a relocation section, and the theorems on PE images applied to it. *)
From S2P Require Import Prelude Text Types Ffs Instances Hii Ifr Gates PeResource HiiFacts PeFacts PeListFacts HiiInst.

Module PeInst.
#[export] Existing Instances GuidInst.lib HiiInst.lib.

Definition u32 (pe : list byte) (off : Z) : Z := default 0 (read_le_u32 pe off).
Definition u16 (pe : list byte) (off : Z) : Z := default 0 (read_le_u16 pe off).
Definition upto (n : Z) : list Z := map Z.of_nat (seq 0 (Z.to_nat n)).

(** The headers of a PE32+ image. *)
Definition table_at (pe : list byte) : Z := u32 pe 0x3c + 24 + u16 pe (u32 pe 0x3c + 20).
Definition section (pe : list byte) (i : Z) : PeSection :=
  let at_ := table_at pe + i * 40 in
  {| virtual_size := u32 pe (at_ + 8); virtual_address := u32 pe (at_ + 12);
     size_of_raw_data := u32 pe (at_ + 16); pointer_to_raw_data := u32 pe (at_ + 20) |}.
Definition sections (pe : list byte) : list PeSection := map (section pe) (upto (u16 pe (u32 pe 0x3c + 6))).
Definition entry (pe : list byte) : option (Z * Z) :=
  let at_ := u32 pe 0x3c + 24 + 112 + 16 in Some (u32 pe at_, u32 pe (at_ + 4)).
Definition range_at (pe : list byte) (rva : Z) : option (Z * Z) :=
  s ← List.find (fun s => (virtual_address s <=? rva)
                          && (rva - virtual_address s <? Z.min (virtual_size s) (size_of_raw_data s))) (sections pe);
  let off := rva - virtual_address s in
  Some (pointer_to_raw_data s + off, Z.min (virtual_size s) (size_of_raw_data s) - off).

(** The entries of a directory table: name or identifier, and offset. *)
Definition table_entries (rsrc : list byte) (off : Z) : list (Z * Z) :=
  map (fun i => (u32 rsrc (off + 16 + i * 8), u32 rsrc (off + 20 + i * 8)))
    (upto (u16 rsrc (off + 12) + u16 rsrc (off + 14))).
Definition sub_table {A} (rsrc : list byte) (k : Z * Z -> A) (off : Z) : option (list A) :=
  if off <? 2 ^ 31 then None else Some (map k (table_entries rsrc (off - 2 ^ 31))).
Definition data_entry (rsrc : list byte) (e : Z * Z) : option RsrcData :=
  if snd e <? 2 ^ 31 then Some {| data_offset := snd e; offset_to_data := u32 rsrc (snd e);
                                  data_size := u32 rsrc (snd e + 4) |}
  else None.
Definition entry_name (rsrc : list byte) (name : Z) : option ustring :=
  if name <? 2 ^ 31 then None
  else let at_ := name - 2 ^ 31 in
       Some (map (fun i => u16 rsrc (at_ + 2 + i * 2)) (upto (u16 rsrc at_))).
Definition tree (pe : list byte) : option RsrcTree :=
  e ← entry pe; r ← range_at pe (fst e);
  let rsrc := sub pe (fst r) (blen pe) in
  Some (map (fun t => (entry_name rsrc (fst t),
                       sub_table rsrc (fun n => sub_table rsrc (data_entry rsrc) (snd n)) (snd t)))
          (table_entries rsrc 0)).

Lemma u32_bounds pe off : 0 <= u32 pe off < 2 ^ 32.
Proof. unfold u32. destruct (read_le_u32 pe off) eqn:H; [by apply read_u32_bounds in H|done]. Qed.

#[export, refine] Instance lib : ObjectPe := {|
  PeFile := list byte;
  pe64_parse pe := if bool_decide (sub pe 0 2 = [x4d; x5a]) && (u16 pe (u32 pe 0x3c + 24) =? 0x20b) then Some pe else None;
  pe32_parse pe := None;
  section_table := sections;
  resource_entry := entry;
  resource_tree := tree;
  pe_file_range_at := range_at
|}.
Proof.
  intros pe. apply Forall_forall. intros s (i & -> & _)%list_elem_of_fmap.
  split; [|split; [|split]]; apply u32_bounds.
Defined.

End PeInst.

Module PeSamples.
#[export] Existing Instances GuidInst.lib HiiInst.lib PeInst.lib.

(** The bytes of [l] with those of [bs] from [off]. *)
Definition put (off : Z) (bs l : list byte) : list byte := splice l off bs.
Definition string_package : list byte := [x08; x00; x00; PACKAGE_STRINGS; x41; x42; x43; x44].
Definition new_package : list byte := [x06; x00; x00; PACKAGE_STRINGS; x45; x46].
Definition hii_list : list byte :=
  replicate 16 x11 ++ le_enc 4 32 ++ string_package ++ [x04; x00; x00; PACKAGE_END].

(** A directory with one HII leaf: the tables, the name, the data entry, the list. *)
Definition dir_table (named ids name data : Z) : list byte :=
  replicate 12 x00 ++ le_enc 2 named ++ le_enc 2 ids ++ le_enc 4 name ++ le_enc 4 data.
Definition rsrc : list byte :=
  dir_table 1 0 0x80000048 0x80000018 ++ dir_table 0 1 1 0x80000030 ++ dir_table 0 1 0x409 0x50
  ++ le_enc 2 3 ++ le_enc 2 0x48 ++ le_enc 2 0x49 ++ le_enc 2 0x49
  ++ le_enc 4 0x1060 ++ le_enc 4 32 ++ replicate 8 x00 ++ hii_list.
Definition reloc : list byte := replicate 16 xaa.
Definition section_header (vsize va raw ptr : Z) : list byte :=
  replicate 8 x00 ++ le_enc 4 vsize ++ le_enc 4 va ++ le_enc 4 raw ++ le_enc 4 ptr ++ replicate 16 x00.
(** [.rsrc] of 128 bytes at 0x198, [.reloc] of 16 bytes behind it. *)
Definition pe : list byte :=
  put 0x3c (le_enc 4 0x40) (put 0 [x4d; x5a] (put 0x46 (le_enc 2 2) (put 0x54 (le_enc 2 240) (put 0x58 (le_enc 2 0x20b)
  (put 0x78 (le_enc 4 0x1000) (put 0x7c (le_enc 4 16) (put 0x90 (le_enc 4 0x3000) (put 0xc4 (le_enc 4 16)
  (put 0xd8 (le_enc 4 0x1000 ++ le_enc 4 128) (put 0xf0 (le_enc 4 0x2000 ++ le_enc 4 16)
  (replicate 0x148 x00)))))))))))
  ++ section_header 128 0x1000 128 0x198 ++ section_header 16 0x2000 16 0x218 ++ rsrc ++ reloc.
Definition file : @PeFile PeInst.lib := pe.
Definition rsrc_span : RsrcSpan :=
  {| sp_header_off := 328; sp_va := 0x1000; sp_vsize := 128; sp_raw_size := 128; sp_raw_ptr := 0x198 |}.
Definition leaf : LeafRef :=
  {| lf_type_name := Some (us "HII"); lf_entry_off := 488; lf_off := 504; lf_len := 32; lf_rva := 0x1060 |}.

(** The same directory with the data entry behind the list. *)
Definition rsrc_behind : list byte :=
  dir_table 1 0 0x80000048 0x80000018 ++ dir_table 0 1 1 0x80000030 ++ dir_table 0 1 0x409 0x70
  ++ le_enc 2 3 ++ le_enc 2 0x48 ++ le_enc 2 0x49 ++ le_enc 2 0x49
  ++ hii_list ++ le_enc 4 0x1050 ++ le_enc 4 32 ++ replicate 8 x00.
Definition pe_behind : list byte := take (Z.to_nat 0x198) pe ++ rsrc_behind ++ reloc.

(** A resource section without raw data, with a file position behind the image. *)
Definition pe_no_raw : list byte :=
  take (Z.to_nat 0x148) pe ++ section_header 128 0x1000 0 0x10000 ++ section_header 16 0x500 16 0x198 ++ reloc.

(** A form set package behind other bytes. *)
Definition forms_package : list byte :=
  [x20; x00; x00; PACKAGE_FORMS; IFR_FORM_SET_OP; x9a] ++ replicate 16 x22 ++ replicate 8 x00 ++ [IFR_END_OP; x02].
Definition body : list byte := replicate 9 x33 ++ forms_package ++ replicate 3 x00.
End PeSamples.
Import PeSamples.

Lemma pe_headers_first : headers_first file 88 328.
Proof.
  split; [vm_compute; discriminate|].
  set (P := fun s => sp_raw_size s <> 0 -> 328 + 40 * section_count file <= sp_raw_ptr s).
  assert (Forall P (file_spans file 328)) as H.
  { apply (Forall_impl (fun s => 408 <= sp_raw_ptr s)).
    - apply (proj1 (bool_decide_eq_true _)). vm_eq.
    - intros s Hs _. exact Hs. }
  exact (proj1 (Forall_forall P _) H).
Defined.

Lemma try_grow_keeps_sections_witness :
  exists pe', try_grow_rsrc_tail pe 6 = Ok (pe', true) /\
    sub pe' 536 552 = replicate 16 x00 /\ sub pe' 552 568 = reloc /\ read_le_u32 pe' (368 + 20) = Some 552.
Proof.
  destruct (try_grow_keeps_sections pe 6 file 88 328 rsrc_span) as [[Hn _]|(p & pe' & Hp & Hg & H)].
  - vm_eq.
  - vm_eq.
  - vm_eq.
  - discriminate.
  - apply pe_headers_first.
  - reflexivity.
  - exfalso. assert (match rsrc_grow_plan file pe 6 with None => false | _ => true end = true) as Ht by vm_eq.
    rewrite Hn in Ht. discriminate Ht.
  - assert (gp_pad p = 16) as Hpad.
    { assert (gp_pad <$> rsrc_grow_plan file pe 6 = Some 16) as Ht by vm_eq. rewrite Hp in Ht.
      cbn in Ht. congruence. }
    cbv zeta in H. rewrite Hpad in H. destruct H as (_ & _ & Hz & Hs & Hr & _).
    exists pe'. split; [exact Hg|]. split; [exact Hz|].
    assert (span_of 328 1 (PeInst.section pe 1) ∈ file_spans file 328) as Hin
      by (apply elem_of_spans; exists 1%nat, (PeInst.section pe 1); split; vm_eq).
    assert (moves_raw rsrc_span 536 (span_of 328 1 (PeInst.section pe 1)) = true) as Hm by vm_eq.
    split.
    + specialize (Hs _ Hin). replace (if moves_raw _ _ _ then _ else _) with 552 in Hs by vm_eq.
      replace (sub pe _ _) with reloc in Hs by vm_eq. apply Hs. vm_compute. discriminate.
    + specialize (Hr _ Hin Hm). replace (Some (_ + 16)) with (Some 552) in Hr by vm_eq. exact Hr.
Defined.

Lemma append_package_reads_back_witness :
  exists pe', append_package_to_resource pe new_package = Ok (pe', true) /\
    parse_package_list (sub pe' 504 542)
    = Ok (Some {| pl_guid := guid_of_array (replicate 16 x11);
                  packages := [{| pk_kind := PACKAGE_STRINGS; pk_bytes := string_package; pk_offset := 20 |};
                               {| pk_kind := PACKAGE_STRINGS; pk_bytes := new_package; pk_offset := 28 |}] |}).
Proof.
  destruct (append_package_reads_back pe new_package file 88 328 rsrc_span leaf)
    as [Hn|(l & kind & grow & pe1 & pe' & Hl & Hk & _ & Ha & H)].
  - vm_eq.
  - vm_eq.
  - vm_eq.
  - apply pe_headers_first.
  - vm_eq.
  - repeat split; vm_compute; discriminate.
  - exfalso. assert (match append_package_to_resource pe new_package with Ok (_, t) => t | _ => false end = true) as Ht by vm_eq.
    rewrite Hn in Ht. discriminate Ht.
  - exists pe'. split; [exact Ha|]. cbv zeta in H. destruct H as [H _].
    assert (parse_package_list (sub pe 504 536)
            = Ok (Some {| pl_guid := guid_of_array (replicate 16 x11);
                          packages := [{| pk_kind := PACKAGE_STRINGS; pk_bytes := string_package; pk_offset := 20 |}] |})) as Hl' by vm_eq.
    assert (Some l = Some {| pl_guid := guid_of_array (replicate 16 x11);
                          packages := [{| pk_kind := PACKAGE_STRINGS; pk_bytes := string_package; pk_offset := 20 |}] |}) as Hle
      by (apply (@Ok_inj Empty_set); exact (eq_trans (eq_sym Hl) Hl')).
    injection Hle as ->. vm_compute in Hk. injection Hk as <-. exact H.
Defined.

Lemma bare_form_packages_sound_witness :
  bare_form_packages body [(0, 4)] = Ok [forms_package] /\ bare_form body [(0, 4)] (9, 32).
Proof.
  destruct (bare_form_packages_sound body [(0, 4)]) as (rs & Hr & Hb & _ & Hp).
  - constructor; [vm_compute; discriminate|constructor].
  - assert (bare_form_package_ranges body [(0, 4)] = Ok [(9, 32)]) as Hr' by vm_eq.
    rewrite Hr in Hr'. apply Ok_inj in Hr'. subst rs. split; [exact Hp|]. by apply Forall_cons in Hb as [Hb _].
Defined.

(** The data entry of the list moves with the bytes behind the list: the new length is
    written to its old place. *)
Example append_behind_entry :
  match append_package_to_resource pe_behind new_package with
  | Ok (pe', ok) => (ok, hii_resource_ranges pe_behind, hii_resource_ranges pe')
  | _ => (false, [], [])
  end = (true, [(488, 32)], []).
Proof. vm_eq. Qed.

(** The filling lies behind the image. *)
Example grow_without_raw_panics : try_grow_rsrc_tail pe_no_raw 6 = Panic.
Proof. vm_eq. Qed.
