(* ===== verification/ImageWitnesses.v ===== *)
(** The theorems on the operations over an image instantiated at an image with a form
    package and a StdDefaults store. *)
From stdpp Require Import gmap.
From S2P Require Import Prelude Text Types Ffs Instances Parser Target Ops Nvar NvarStores.
From S2P Require Import OpsFacts NvarFacts NvarStoresFacts EditBuild.
From S2P Require Import Hii Values Ifr Gates StringPack PeResource ImageStrings ImageGates ImageValues.
From S2P Require Import ImageFacts ImageValuesFacts HiiInst PeWitnesses.
From S2P Require Import Spf Tse.
From S2P Require Import SetupFacts TseFacts.
Import Samples.


Module ImageSamples.
#[export] Existing Instances GuidInst.lib HiiInst.lib PeInst.lib.

Definition node (g : option Guid) (ty : FfsType) (sub : byte) (b : list byte) (cs : list FfsNode) : FfsNode :=
  mkNode g ty sub 0 [] b [] cs NoAction PD_None false false [].
(** A StdDefaults record around the record of the variable store [Setup]. *)
Definition std_record (value : list byte) : list byte :=
  nvar_record [x53; x74; x64; x44; x65; x66; x61; x75; x6c; x74; x73]
    (nvar_record [x53; x65; x74; x75; x70] value ++ replicate 4 xff).
(** A file with a form package and a file that is a store. *)
Definition tree : FfsNode :=
  node None T_Root x00 []
    [node (Some (guid_of x22)) T_File x07 [] [node None T_Section x19 HiiSamples.package []];
     node (Some (guid_of x44)) T_File x01 (std_record (replicate 8 x00)) []].
Definition img : Image := {| image_id := us "i"; session_id := us "s"; root := tree; mode := IM_Write |}.
Definition dbg (s : ustring) : ustring := s.
(** The numeric question with two bytes at offset 2. *)
Definition item : ustring := us "0/0#257:3".
Definition result : Image * outcome HiiError ValueOutcome := set_value dbg item 7 img.
Definition outcome_of : ValueOutcome :=
  match snd result with
  | Ok o => o
  | _ => {| vo_question := {| qi_form_id := 0; qi_question_id := 0; qi_kind := []; qi_var_store_id := 0;
              qi_varstore := None; qi_var_offset := 0; qi_width := 0; qi_min := 0; qi_max := 0; qi_step := 0;
              qi_options := []; qi_defaults := []; qi_seed_value := None; qi_seed_option := None |};
            vo_applied := []; vo_stores := [] |}
  end.
End ImageSamples.
Import ImageSamples.

Lemma result_is : result = (fst result, Ok outcome_of).
Proof. vm_eq. Defined.

Lemma img_in_memory : in_memory (root img).
Proof.
  apply (all_nodes_everywhere _ (fun n => blen (body n) <=? usize_max)); [intros m; lia|vm_eq].
Defined.

(** The store holds [7] at offset 2 of the record. *)
Lemma set_value_effect_witness :
  exists target fid qid map texts vs,
    parse_item_id item = Ok (target, fid, Some qid) /\
    find_question_map img target fid qid = Ok (map, texts) /\ value_stored img (fst result) map vs 7.
Proof.
  pose proof (set_value_effect dbg item 7 img img_in_memory ltac:(lia)) as H.
  fold result in H. rewrite result_is in H. exact H.
Defined.

Lemma set_value_reads_back_witness :
  exists target fid qid map texts,
    parse_item_id item = Ok (target, fid, Some qid) /\
    find_question_map img target fid qid = Ok (map, texts) /\ map_seed (root (fst result)) map = Ok (Some 7).
Proof.
  apply (set_value_reads_back dbg item 7 img (fst result) outcome_of img_in_memory ltac:(lia)).
  - exact result_is.
  - intros p n (Hn & Hs & _).
    assert (everywhere (fun n => std_store n = true -> trailers_clear (body n) = true) (root img)) as He.
    { apply (all_nodes_everywhere _ (fun n => negb (std_store n) || trailers_clear (body n))); [|vm_eq].
      intros m Hm Hst. by rewrite Hst in Hm. }
    exact (everywhere_at _ _ _ _ He Hn Hs).
Defined.

(** Concrete runs for the theorems on setup data: a hide block of three root forms. *)

Import ImageSamples.

Module SetupSamples.
(** The form set of the image and its root form. *)
Definition roots : list (Guid * Z) := match formset_roots img with Ok r => r | _ => [] end.
Definition formset : Guid := match roots with r :: _ => fst r | [] => guid_of x00 end.
Definition root_form : Z := match roots with r :: _ => snd r | [] => 0 end.
Definition known : list Guid := match known_formsets dbg img with Ok k => k | _ => [] end.
Definition entry : StrideEntry := {| te_guid := formset; te_form_id := root_form |}.
Definition block : StrideBlock := {| sb_pe_offset := 0; sb_entries := [entry; entry; entry] |}.
Definition pe : list byte :=
  concat (replicate 3 (entry_bytes formset root_form)) ++ zero_record.
End SetupSamples.
Import SetupSamples.

Lemma known_formset : known = [formset].
Proof. vm_eq. Qed.
Lemma formset_known : formset ∈ known.
Proof. rewrite known_formset. apply list_elem_of_singleton. reflexivity. Qed.

Lemma sample_hides : hides roots known pe formset root_form block 1.
Proof.
  assert (0 < root_form < 0x10000) as Hf by (split; vm_compute; reflexivity).
  pose proof formset_known as Hk.
  split; [|split; vm_eq]. split; [exists 0; split; [lia|reflexivity]|]. split; [|split; [vm_compute; discriminate|repeat (apply Forall_cons; split; [exact Hk|]); apply Forall_nil; exact I]].
  cbn [series sb_pe_offset sb_entries block]. unfold record_at, form_ok.
  split; [vm_eq|]. split; [exact Hf|]. split; [vm_eq|]. split; [exact Hf|]. split; [vm_eq|]. split; [exact Hf|vm_eq].
Qed.

Lemma hide_tail_ambiguous_witness :
  hides roots known pe formset root_form block 1 /\
  exists cands, find_entry dbg img pe formset root_form None = Err (ambiguous cands) /\ 2 <= blen cands.
Proof.
  split; [exact sample_hides|].
  apply (hide_tail_ambiguous dbg img pe formset root_form roots known block 0); [vm_eq|vm_eq|exact sample_hides|vm_compute; discriminate].
Defined.
