(* ===== verification/ServiceWitnesses.v ===== *)
(** The service at concrete states: a session with an image whose requests are run step by
    step, and the inputs behind the findings on the service. *)
From stdpp Require Import gmap sorting.
From S2P Require Import Prelude Text Types Ffs Tiano Codec Listing Parser Target Ops Nvar NvarStores.
From S2P Require Import Hii Values Ifr Gates StringPack Schema PeResource ImageStrings ImageGates ImageValues.
From S2P Require Import Storage Listing ImageParser Builder Server.
From S2P Require Import StorageFacts ServerFacts StoredFacts RequestFacts ServiceFacts.
From S2P Require Import Instances HiiInst PeWitnesses.
Import Samples.

(** ** Checking the inputs of a run *)

Section Checked.
Context {GL : GuidLib}.
#[export] Instance fresh_dec n i w : Decision (fresh n i w).
Proof.
  unfold fresh. assert (forall k, Decision (cache w !! k = None)) by (intros k; destruct (cache w !! k); [by right|by left]).
  apply _.
Defined.
Fixpoint admissible_b {E A} (n : ustring) (ins : list Input) (p : prog E A) (w : World) : bool :=
  match p with
  | Done _ => true
  | Step f => match ins with
              | [] => true
              | i :: ins => bool_decide (fresh n i w) && match f i w with (w', p') => admissible_b n ins p' w' end
              end
  end.
Lemma admissible_check {E A} n ins (p : prog E A) w : admissible_b n ins p w = true -> admissible (fresh n) ins p w.
Proof.
  revert p w. induction ins as [|i ins IH]; intros [o|f] w; cbn; try done.
  intros [Hi%bool_decide_eq_true H]%andb_true_iff. split; [done|]. destruct (f i w). by apply IH.
Qed.
Lemma run_split {E A} ins (p : prog E A) w o : snd (run ins p w) = o -> run ins p w = (fst (run ins p w), o).
Proof. intros <-. by destruct (run ins p w). Qed.
End Checked.

Module ServiceSamples.
#[export] Existing Instances GuidInst.lib LzmaInst.lib LowerInst.lib HiiInst.lib PeInst.lib.

(** No schema file is read by these runs: every text is refused. *)
#[export] Instance text_lib : SchemaText := {|
  formset_of_json := fun _ => Err []; hijack_of_json := fun _ => Err []; question_add_of_json := fun _ => Err [];
  page_add_of_json := fun _ => Err []; json_of_formset := fun _ => Err []; guid_error := fun s => s |}.

Definition dbg (_ : Wraps) : ustring := [].
Definition dbg_str (s : ustring) : ustring := s.
Definition cwd : path := [us "srv"].
Definition data : ustring := us "/data".
Definition req (q : Request) : prog Status Response := handle dbg dbg_str 4 cwd [] data false q.
Definition jobs (l : list Job) : list (prog Status Response) := map (job dbg dbg_str 4 cwd [] data 60 false) l.

(** One input at a time, with the uuid that it would give. *)
Definition at_time (t : Z) (u : String.string) : Input := {| i_now := t; i_uuid := us u; i_fault := [] |}.
Definition inputs (n : nat) (u : String.string) : list Input := replicate n (at_time 100 u).
(** The uuid of the step [n]. *)
Definition drawn (n : nat) (u : String.string) : list Input := inputs n "x" ++ at_time 100 u :: inputs 20 "x".

(** A session, and in it the sample image. *)
Definition w0 : World := empty_world.
Definition q_create : Request := Q_SessionCreate (us "work").
Definition w1 : World := fst (run (inputs 9 "s1") (req q_create) w0).
Definition q_upload : Request := Q_ImageUpload (us "s1") image 1 (us "bios").
Definition w2 : World := fst (run (drawn 1 "i1") (req q_upload) w1).
Definition q_remove (t : String.string) : Request := Q_ImageNodeRemove (us "i1") (us t).
Definition w3 : World := fst (run (inputs 20 "x") (req (q_remove "1/0")) w2).
Definition img2 : Image := match cache w2 !! us "i1" with
  | Some i => i
  | None => {| image_id := []; session_id := []; mode := IM_Read;
               root := mkNode None T_Root x00 0 [] [] [] [] NoAction PD_None false false [] |}
  end.

(** A snapshot before the removal, restored after it. *)
Definition q_snap : Request := Q_ImageSnapshotCreate (us "i1") (us "before").
Definition w4 : World := fst (run (drawn 2 "n1") (req q_snap) w2).
Definition w5 : World := fst (run (inputs 20 "x") (req (q_remove "1/0")) w4).
Definition q_restore : Request := Q_ImageSnapshotRestore (us "i1") (us "n1").
Definition w6 : World := fst (run (inputs 20 "y") (req q_restore) w5).

Definition turns (t : nat) (n : nat) : list (nat * Input) := replicate n (t, at_time 100 "x").
End ServiceSamples.
Import ServiceSamples.

Lemma run_w2 : run (drawn 1 "i1") (req q_upload) w1 = (w2, Some (Ok (R_ImageOpen (us "i1") [] (us "bios")))).
Proof. unfold w2. apply run_split. vm_eq. Qed.
Lemma run_w3 : run (inputs 20 "x") (req (q_remove "1/0")) w2 = (w3, Some (Ok R_Empty)).
Proof. unfold w3. apply run_split. vm_eq. Qed.
Lemma run_w4 : run (drawn 2 "n1") (req q_snap) w2 = (w4, Some (Ok (R_SnapshotCreate (us "n1") 100))).
Proof. unfold w4. apply run_split. vm_eq. Qed.
Lemma run_w5 : run (inputs 20 "x") (req (q_remove "1/0")) w4 = (w5, Some (Ok R_Empty)).
Proof. unfold w5. apply run_split. vm_eq. Qed.
Lemma run_w6 : run (inputs 20 "y") (req q_restore) w5 = (w6, Some (Ok R_Empty)).
Proof. unfold w6. apply run_split. vm_eq. Qed.

(** ** Witnesses *)

Abbreviation serves' := (serves dbg dbg_str 4 cwd [] data 60 false).

(** A request that runs to its end is a step of the service. *)
Lemma serve_request n q ins w w' o :
  careful cwd data false (J_Request q) -> admissible_b n ins (req q) w = true -> run ins (req q) w = (w', Some o) ->
  serves' n w w'.
Proof.
  intros Hc Ha Hr. apply rtc_once. eapply (serve_done _ _ _ _ _ _ _ _ _ _ (J_Request q) ins); [done| |exact Hr].
  by apply admissible_check.
Qed.

Lemma serves_w2 : serves' [] w0 w2.
Proof.
  transitivity w1.
  - apply (serve_request [] q_create (inputs 9 "s1") w0 w1 (Ok (R_SessionCreate (us "s1") (us "s1")))); [done|vm_eq|].
    unfold w1. apply run_split. vm_eq.
  - exact (serve_request [] q_upload (drawn 1 "i1") w1 w2 _ I ltac:(vm_eq) run_w2).
Qed.
Lemma sound_w2 : sound 4 cwd data w2.
Proof. apply (serves_Inv _ _ _ _ _ _ _ _ [] [] w0 w2 (sound_Inv _ _ _ [] w0 (sound_empty _ _ _)) serves_w2). Qed.

Lemma tables_consistent_witness :
  db_ok (db w2) /\
  db_ok (db (fst (schedule (turns 0 3 ++ turns 1 4 ++ turns 0 9)
    (jobs [J_Request (q_remove "1/0"); J_Collect]) w2))).
Proof.
  pose proof (so_db _ _ _ _ sound_w2) as H. split; [exact H|]. exact (tables_consistent _ _ _ _ _ _ _ _ _ _ _ H).
Defined.

Lemma stored_images_sound_witness : sound 4 cwd data w0 /\ sound 4 cwd data w2.
Proof.
  split; [apply sound_empty|].
  exact (stored_images_sound dbg dbg_str 4 cwd [] data 60 false w0 w2 (sound_empty _ _ _) serves_w2).
Defined.

Lemma acknowledged_edits_persist_witness :
  snd (run (inputs 20 "x") (req (q_remove "1/0")) w2) = Some (Ok R_Empty) /\
  persists dbg dbg_str 4 cwd data (q_remove "1/0") w2 R_Empty w3.
Proof.
  split; [vm_eq|]. apply (acknowledged_edits_persist dbg dbg_str 4 cwd [] data false (q_remove "1/0") (inputs 20 "x") w2 w3 R_Empty).
  - exact sound_w2.
  - exact I.
  - apply (admissible_check [] (inputs 20 "x") (req (q_remove "1/0")) w2). vm_eq.
  - exact run_w3.
Defined.

Lemma snapshots_restore_witness :
  exists b, stored cwd data w2 (us "i1") b /\ stored cwd data w6 (us "i1") b /\ cache w6 !! us "i1" = None.
Proof.
  apply (snapshots_restore dbg dbg_str 4 cwd [] data 60 false (us "i1") (us "before")
    (drawn 2 "n1") (inputs 20 "y") w2 w4 w5 w6 (us "n1") 100 R_Empty).
  - exact sound_w2.
  - apply (admissible_check [] (drawn 2 "n1") (req q_snap) w2). vm_eq.
  - exact run_w4.
  - exact (serve_request (us "n1") (q_remove "1/0") (inputs 20 "x") w4 w5 _ I ltac:(vm_eq) run_w5).
  - apply (admissible_check (us "n1") (inputs 20 "y") (req q_restore) w5). vm_eq.
  - exact run_w6.
Defined.

(** The flush of the sample fails when the disk is full at the write of the temporary file. *)
Definition full_disk : list Input :=
  inputs 4 "x" ++ [{| i_now := 100; i_uuid := us "x"; i_fault := [Some {| f_done := 10; f_left := [] |}] |}].
Lemma flush_atomic_witness :
  snd (run full_disk (flush_image 4 cwd data (us "i1")) w2) = Some (Err (internal (AE_Io IO_Fault))) /\
  ((exists b, file_flushed 4 cwd data full_disk w2 img2 b (fst (run full_disk (flush_image 4 cwd data (us "i1")) w2))) \/
   file_at (disk (fst (run full_disk (flush_image 4 cwd data (us "i1")) w2))) (image_at cwd data (session_id img2) (us "i1"))
     = file_at (disk w2) (image_at cwd data (session_id img2) (us "i1")) /\
   Some (Err (internal (AE_Io IO_Fault))) <> Some (Ok tt)).
Proof.
  split; [vm_eq|]. apply (flush_atomic 4 cwd data full_disk (us "i1") img2 w2).
  - vm_eq.
  - eapply bool_decide_eq_true_1. vm_eq.
  - eapply bool_decide_eq_true_1. vm_eq.
  - vm_eq.
  - apply run_split. vm_eq.
Defined.

(** After the time to live the session and its image are collected. *)
Lemma gc_collects_witness :
  exists w', run (at_time 1000 "x" :: replicate 5 (at_time 1000 "x")) (job dbg dbg_str 4 cwd [] data 60 false J_Collect) w2
      = (w', Some (Ok R_Empty)) /\
    (forall r, r ∈ sessions (db w') <-> r ∈ sessions (db w2) /\ 1000 - 60 <= se_last_activity r) /\
    (forall r, r ∈ images (db w') <-> r ∈ images (db w2) /\ exists s, s ∈ sessions (db w') /\ se_id s = im_session_id r).
Proof.
  apply (gc_collects dbg dbg_str 4 cwd [] data 60 false (at_time 1000 "x") (replicate 5 (at_time 1000 "x")) w2).
  - exact (so_db _ _ _ _ sound_w2).
  - repeat constructor.
  - vm_compute. lia.
Defined.

Definition headers (token : String.string) (k : ustring) : option ustring :=
  if bool_decide (k = us "authorization") then Some (us token)
  else if bool_decide (k = us "x-session-id") then Some (us "s1") else None.
Lemma check_auth_spec_witness :
  snd (run [at_time 100 "x"] (check_auth (headers "Bearer s1")) w2) = Some (Ok tt) /\
  (snd (run [at_time 100 "x"] (check_auth (headers "Bearer s2")) w2) = Some (Ok tt) <->
   exists auth sid tok r,
    (headers "Bearer s2" (us "authorization") ≫= header_text) = Some auth /\
    (headers "Bearer s2" (us "x-session-id") ≫= header_text) = Some sid /\
    strip_prefix (us "Bearer ") auth = Some tok /\
    r ∈ sessions (db w2) /\ se_id r = sid /\ se_token r = tok).
Proof.
  split; [vm_eq|]. apply (check_auth_spec (at_time 100 "x") (headers "Bearer s2") w2); [done|].
  exact (so_db _ _ _ _ sound_w2).
Defined.

(** ** Findings *)

Definition stored_file (w : World) : list byte := default [] (file_at (disk w) (image_at cwd data (us "s1") (us "i1"))).
(** Whether the file with the tag is in the stored image. *)
Definition has_ffs (tag : byte) (w : World) : bool :=
  match parse_image 4 (stored_file w) IM_Read [] [] with
  | Ok img => bool_decide (is_Some (find_by_guid (guid_of tag) (root img)))
  | _ => false
  end.

(** The second request edits the image while the first one flushes: the parse of the first
    build replaces the edited tree, the second flush writes it again, and both requests
    succeed; one after the other, they remove both files. *)
Definition overlapping : list (nat * Input) := turns 0 4 ++ turns 1 3 ++ turns 0 10 ++ turns 1 20.
Example lost_update :
  let '(w, ps) := schedule overlapping (jobs [J_Request (q_remove "1/0"); J_Request (q_remove "1/1")]) w2 in
  (map (fun p => match p with Done (Ok R_Empty) => true | _ => false end) ps, has_ffs x11 w, has_ffs x22 w)
    = ([true; true], false, true) /\
  (let '(w, ps) := schedule (turns 0 20 ++ turns 1 20) (jobs [J_Request (q_remove "1/0"); J_Request (q_remove "1/0")]) w2 in
   (map (fun p => match p with Done (Ok R_Empty) => true | _ => false end) ps, has_ffs x11 w, has_ffs x22 w)
    = ([true; true], false, false)).
Proof. vm_compute. done. Qed.

(** Destroying a session with an empty identifier removes no row, but when files are purged
    it removes the files of all sessions. *)
Example destroy_unnamed_purges_all :
  let '(w, o) := run (inputs 5 "x") (session_destroy cwd data true []) w2 in
  (o, bool_decide (is_Some (get_image (us "i1") (db w))), stored_file w)
    = (Some (Ok R_Empty), true, []).
Proof. vm_compute. done. Qed.

(** The image of a destroyed session is still edited and written. *)
Example destroyed_session_is_served :
  let '(w, o1) := run (inputs 5 "x") (req (Q_SessionDestroy (us "s1"))) w2 in
  let '(w', o2) := run (inputs 20 "x") (req (q_remove "1/0")) w in
  (o1, o2, get_image (us "i1") (db w'), has_ffs x11 w, has_ffs x11 w')
    = (Some (Ok R_Empty), Some (Ok R_Empty), None, true, false).
Proof. vm_compute. done. Qed.

(** An edit whose flush failed stays in memory, so the next edit writes it. *)
Example refused_edit_is_written :
  let '(w, o1) := run (inputs 3 "x" ++ full_disk) (req (q_remove "1/0")) w2 in
  let '(w', o2) := run (inputs 20 "x") (req (Q_ImageNodeRebuild (us "i1") (us "1/1"))) w in
  (o1, o2, has_ffs x11 w, has_ffs x11 w')
    = (Some (Err (internal (AE_Io IO_Fault))), Some (Ok R_Empty), true, false).
Proof. vm_compute. done. Qed.
