(* ===== verification/TuiWitnesses.v ===== *)
(** Concrete runs of the terminal client: a scrolled list, the tree of the sample image,
    sessions of keys with an engine that answers, an import, an image that is reopened, an
    implementation of the JSON documents, and the inputs behind the findings on the client. *)
From stdpp Require Import gmap.
From S2P Require Import Prelude Text Types Ffs Instances Parser Target Ops Nvar Listing Hii.
From S2P Require Import Values Ifr Gates ImageStrings ImageGates ImageValues.
From S2P Require Import Schema Channels Hijack FormExport Storage Server.
From S2P Require Import Terminal FormTree App Completion Envelope Client Commands MainLoop.
From S2P Require Import ListingFacts TerminalFacts GotoFacts FormTreeFacts KeyFacts ClientFacts Witnesses ServiceWitnesses.

Lemma scrolled_offset_in_window_witness :
  exists off, compute_scrolled_offset 17 3 10 40 2 = Ok off /\ in_window 17 off 10 40 2.
Proof. apply (scrolled_offset_in_window 17 3 10 40 2); unfold usize_max; lia. Defined.

(** The tree of the sample image with one node expanded below the root. *)
Definition sample_tree : list TreeNode := alter (with_expanded true) 1%nat (build_tree Sample.rows).
Definition sample_app : App := (app_new None) <| ap_tree := sample_tree |>.

Lemma visible_rows_exact_witness :
  nested sample_tree /\
  visible_rows sample_tree = map Z.of_nat (List.filter (shown sample_tree) (seq 0 (length sample_tree))).
Proof.
  assert (nested sample_tree) as H by (vm_compute; repeat split; discriminate).
  split; [exact H|]. apply (visible_rows_exact sample_tree H).
Defined.

Lemma goto_path_selects_witness :
  exists a', goto_path (us "/1/1/0") sample_app = (a', None) /\ selected_path a' = Some (us "1/1/0").
Proof.
  destruct (goto_path_selects (root Sample.img) Sample.rows (us "/1/1/0") sample_app) as [[_ H]|(a' & Ha & _ & Hs)].
  - vm_eq.
  - unfold same_tree. vm_eq.
  - exfalso. revert H. vm_compute. discriminate.
  - exists a'. split; [exact Ha|exact Hs].
Defined.

Lemma history_reload_witness :
  let h := fold_left (fun h cmd => submit cmd h) [us " open bios.bin"; us "goto 0/1"; us "goto 0/1 "] history_empty in
  load_from (Some (save_to h)) = h /\ hs_entries h = [us "open bios.bin"; us "goto 0/1"].
Proof.
  set (cmds := [us " open bios.bin"; us "goto 0/1"; us "goto 0/1 "]). intros h.
  assert (Forall (Forall (fun c => c <> 10)) cmds) as Hc by (apply (bool_decide_unpack _); vm_compute; exact I).
  destruct (history_reload cmds Hc) as [H _]. split; [exact H|]. vm_eq.
Defined.

(** Segmentation of texts in which every character stands for itself. *)
#[local] Instance simple_segmentation : Segmentation.
Proof.
  refine {| graphemes := map (fun c => [c]); split_word_bounds := map (fun c => [c]);
            is_alphanumeric := fun c => is_ascii_digit c || ((97 <=? c) && (c <=? 122)) |}.
  1,3: intros s; induction s as [|c s IH]; [reflexivity|]; cbn [map concat app]; by rewrite IH.
  all: intros s; apply Forall_map, Forall_true; done.
Defined.

(** A directory with two files of a common prefix. *)
Definition two_files (a b : ustring) : Shell :=
  {| sh_home := us "/root"; sh_read_dir := fun _ => Some [(a, false); (b, false)] |}.
Definition ascii_files : Shell := two_files (us "bios-a.rom") (us "bios-b.rom").
(** [open b], a tab, a selection in the menu, and the line is executed. *)
Definition keys : list AppEvent :=
  map E_Key (us "open b") ++ [E_Tab; E_Down; E_Down; E_Enter; E_Left; E_Right; E_Backspace; E_Up; E_Enter].

Ltac ascii_facts := vm_compute; repeat (constructor || split || discriminate || reflexivity).

Lemma ascii_files_data : ascii_data ascii_files sample_app.
Proof.
  split.
  - ascii_facts.
  - intros dir rd name kind [= <-] [[= -> _]|[[= -> _]|[]%elem_of_nil]%elem_of_cons]%elem_of_cons; ascii_facts.
  - ascii_facts.
  - ascii_facts.
  - ascii_facts.
  - ascii_facts.
  - ascii_facts.
  - ascii_facts.
  - ascii_facts.
Qed.

Lemma cmd_keys_safe_witness :
  exists a', run_keys ascii_files keys (enter_command_mode sample_app) = Ok a' /\ session_ok a' /\
    ln_s (ap_cmdline a') = us "open bios-a.rom".
Proof.
  destruct (cmd_keys_safe ascii_files keys sample_app) as (a' & Ha & Hs & _).
  - exact ascii_files_data.
  - constructor.
  - unfold keys. repeat (constructor; [split; [discriminate|reflexivity]|]). repeat constructor.
  - exists a'. split; [exact Ha|]. split; [exact Hs|].
    revert Ha. vm_compute. intros [= <-]. reflexivity.
Defined.

(** Two names that start with the same letter of two bytes: the common prefix is cut inside
    this letter, and the client panics. *)
Example complete_panics :
  complete (two_files [0x444; 49] [0x444; 50]) sample_app (us "open ") = Panic.
Proof. vm_eq. Qed.

(** ** Documents *)

(** Documents as trees of numbers: lists, objects, strings and members are the nodes 0 to 3. *)
Definition J_list (l : list (gen_tree Z)) : gen_tree Z := GenNode 0 l.
Definition J_object (l : list (gen_tree Z)) : gen_tree Z := GenNode 1 l.
Definition J_string (s : ustring) : gen_tree Z := GenNode 2 (map GenLeaf s).
Definition J_member (k : ustring) (x : gen_tree Z) : gen_tree Z := GenNode 3 [J_string k; x].

(** The text of a tree: three numbers for a node or a leaf, children first. *)
Definition print_item (x : nat * nat + Z) : ustring :=
  match x with inl (a, b) => [0; Z.of_nat a; Z.of_nat b] | inr z => [1; z; 0] end.
Definition print_json (v : gen_tree Z) : ustring := concat (map print_item (gen_tree_to_list v)).
Fixpoint read_items (s : ustring) : option (list (nat * nat + Z)) :=
  match s with
  | [] => Some []
  | k :: a :: b :: s => l ← read_items s; Some ((if k =? 0 then inl (Z.to_nat a, Z.to_nat b) else inr a) :: l)
  | _ => None
  end.
Definition read_json (s : ustring) : outcome ustring (gen_tree Z) :=
  match (l ← read_items s; gen_tree_of_list [] l) with Some v => Ok v | None => Err (us "syntax") end.
Lemma read_items_print l : read_items (concat (map print_item l)) = Some l.
Proof.
  induction l as [|[[a b]|z] l IH]; [reflexivity|..]; cbn [map concat print_item app read_items]; rewrite IH;
    cbn; by rewrite ?Nat2Z.id.
Qed.
Lemma read_json_print v : read_json (print_json v) = Ok v.
Proof.
  unfold read_json, print_json. rewrite read_items_print. cbn [mbind option_bind].
  rewrite <- (app_nil_r (gen_tree_to_list v)), gen_tree_of_to_list. done.
Qed.

Definition leaf (v : gen_tree Z) : option Z := match v with GenLeaf z => Some z | _ => None end.
Definition string_of (v : gen_tree Z) : option ustring :=
  match v with GenNode 2%nat l => Some (omap leaf l) | _ => None end.
Lemma string_of_J s : string_of (J_string s) = Some s.
Proof. cbn. f_equal. induction s as [|c s IH]; [done|]. cbn. by rewrite IH. Qed.
Definition is_key (k : ustring) (m : gen_tree Z) : bool :=
  match m with GenNode 3%nat [k'; _] => bool_decide (string_of k' = Some k) | _ => false end.
Definition value_of (m : gen_tree Z) : gen_tree Z := match m with GenNode 3%nat [_; x] => x | m => m end.
Definition j_member (k : ustring) (v : gen_tree Z) : option (gen_tree Z) :=
  match v with GenNode 1%nat l => value_of <$> List.find (is_key k) l | _ => None end.
Definition j_set (k : ustring) (x v : gen_tree Z) : gen_tree Z :=
  match v with
  | GenNode 1%nat l => J_object (J_member k x :: List.filter (fun m => negb (is_key k m)) l)
  | v => v
  end.
Definition j_object (v : gen_tree Z) : bool := match v with GenNode 1%nat _ => true | _ => false end.
Lemma is_key_member k k' x : is_key k (J_member k' x) = bool_decide (k' = k).
Proof.
  unfold is_key, J_member. rewrite string_of_J. apply bool_decide_ext. split; congruence.
Qed.
Lemma j_member_set k x v : j_object v = true -> j_member k (j_set k x v) = Some x.
Proof.
  destruct v as [|[|[|n]] l]; try discriminate. intros _. cbn [j_set j_member J_object List.find].
  by rewrite is_key_member, bool_decide_true.
Qed.
Lemma is_key_inj k k' m : is_key k m = true -> is_key k' m = true -> k = k'.
Proof.
  unfold is_key. destruct m as [|[|[|[|[|n]]]] [|a [|b [|]]]]; try discriminate.
  intros H1%bool_decide_eq_true H2%bool_decide_eq_true. congruence.
Qed.
Lemma j_member_set_ne k k' x v : k <> k' -> j_member k' (j_set k x v) = j_member k' v.
Proof.
  intros Hk. destruct v as [|[|[|n]] l]; try reflexivity. cbn [j_set j_member J_object List.find].
  rewrite is_key_member, bool_decide_false by done. f_equal.
  induction l as [|m l IH]; [done|]. cbn [List.filter List.find].
  destruct (is_key k' m) eqn:E'; destruct (is_key k m) eqn:E; cbn [negb List.find]; rewrite ?E'; try done.
  destruct Hk. by eapply is_key_inj.
Qed.

Lemma j_member_here k x l : j_member k (J_object (J_member k x :: l)) = Some x.
Proof. cbn [j_member J_object List.find]. by rewrite is_key_member, bool_decide_true. Qed.
Lemma j_member_next k k' x l :
  bool_decide (k' = k) = false -> j_member k (J_object (J_member k' x :: l)) = j_member k (J_object l).
Proof. intros Hk. cbn [j_member J_object List.find]. by rewrite is_key_member, Hk. Qed.

(** The records of a package. *)
Definition J_option {A} (f : A -> gen_tree Z) (o : option A) : gen_tree Z :=
  GenNode 4 (match o with Some x => [f x] | None => [] end).
Definition option_of {A} (f : gen_tree Z -> option A) (v : gen_tree Z) : option (option A) :=
  match v with
  | GenNode 4%nat [] => Some None
  | GenNode 4%nat [x] => a ← f x; Some (Some a)
  | _ => None
  end.
Definition list_of {A} (f : gen_tree Z -> option A) (v : gen_tree Z) : option (list A) :=
  match v with GenNode 0%nat l => mapM f l | _ => None end.
Lemma option_of_J {A} (f : A -> gen_tree Z) g o : (forall x, g (f x) = Some x) -> option_of g (J_option f o) = Some o.
Proof. intros H. destruct o as [x|]; [|done]. cbn. by rewrite H. Qed.
Lemma list_of_J {A} (f : A -> gen_tree Z) g l : (forall x, g (f x) = Some x) -> list_of g (J_list (map f l)) = Some l.
Proof. intros H. cbn. induction l as [|x l IH]; [done|]. cbn. by rewrite H, IH. Qed.

Definition J_meta (m : Meta) : gen_tree Z :=
  J_object [J_member (us "source") (J_option (fun s => J_string (sm_formset_guid s)) (mt_source m));
            J_member (us "lossy") (J_list (map J_string (mt_lossy m)))].
Definition read_source (v : gen_tree Z) : option SourceMeta :=
  g ← string_of v; Some {| sm_formset_guid := g |}.
Definition read_meta (v : gen_tree Z) : option Meta :=
  source ← j_member (us "source") v;
  source ← option_of read_source source;
  lossy ← j_member (us "lossy") v;
  lossy ← list_of string_of lossy;
  Some {| mt_source := source; mt_lossy := lossy |}.
Lemma read_meta_J m : read_meta (J_meta m) = Some m.
Proof.
  unfold read_meta, J_meta. rewrite j_member_here, j_member_next, j_member_here by reflexivity.
  cbn [mbind option_bind]. rewrite option_of_J; [|intros [g]; unfold read_source; by rewrite string_of_J].
  cbn [mbind option_bind]. rewrite (list_of_J J_string); [by destruct m|apply string_of_J].
Qed.

Definition J_entry (e : RefEntry) : gen_tree Z :=
  J_list [J_option GenLeaf (rf_form_id e); J_option J_string (rf_formset_guid e); J_option J_string (rf_prompt e);
          J_option J_string (rf_help e); J_option GenLeaf (rf_question_id e)].
Definition read_entry (v : gen_tree Z) : option RefEntry :=
  match v with
  | GenNode 0%nat [f; g; p; h; q] =>
      f ← option_of leaf f; g ← option_of string_of g; p ← option_of string_of p; h ← option_of string_of h;
      q ← option_of leaf q;
      Some {| rf_form_id := f; rf_formset_guid := g; rf_prompt := p; rf_help := h; rf_question_id := q |}
  | _ => None
  end.
Lemma read_entry_J e : read_entry (J_entry e) = Some e.
Proof.
  unfold read_entry, J_entry, J_list at 1. rewrite !option_of_J by (done || apply string_of_J). by destruct e.
Qed.
Definition J_refs (r : RefsSection) : gen_tree Z :=
  J_object [J_member (us "parent_form_id") (GenLeaf (rs_parent_form_id r));
            J_member (us "entries") (J_list (map J_entry (rs_entries r)))].
Definition read_refs (v : gen_tree Z) : option RefsSection :=
  parent ← j_member (us "parent_form_id") v;
  parent ← leaf parent;
  entries ← j_member (us "entries") v;
  entries ← list_of read_entry entries;
  Some {| rs_parent_form_id := parent; rs_entries := entries |}.
Lemma read_refs_J r : read_refs (J_refs r) = Some r.
Proof.
  unfold read_refs, J_refs. rewrite j_member_here, j_member_next, j_member_here by reflexivity.
  cbn [mbind option_bind leaf]. rewrite (list_of_J J_entry); [by destruct r|apply read_entry_J].
Qed.
Definition J_record (r : RefRecord) : gen_tree Z :=
  J_object [J_member (us "form_id") (GenLeaf (rr_form_id r)); J_member (us "prompt") (J_string (rr_prompt r));
            J_member (us "help") (J_string (rr_help r)); J_member (us "question_id") (GenLeaf (rr_question_id r))].
Definition or_error {A} (o : option A) : outcome ustring A := ok_or (us "invalid type") o.
Lemma or_error_total {A} (o : option A) : or_error o <> Panic /\ or_error o <> Diverge.
Proof. by destruct o. Qed.

(** The nesting of lists and objects. *)
Fixpoint j_depth (v : gen_tree Z) : Z :=
  match v with
  | GenLeaf _ => 0
  | GenNode n l => (if (n <? 2)%nat then 1 else 0) + foldr (fun x d => Z.max (j_depth x) d) 0 l
  end.
Definition max_depth (l : list (gen_tree Z)) : Z := foldr (fun x d => Z.max (j_depth x) d) 0 l.
Lemma j_depth_node n l : j_depth (GenNode n l) = (if (n <? 2)%nat then 1 else 0) + max_depth l.
Proof. reflexivity. Qed.
Lemma max_depth_cons x l : max_depth (x :: l) = Z.max (j_depth x) (max_depth l).
Proof. reflexivity. Qed.
Lemma max_depth_nonneg l : 0 <= max_depth l.
Proof. induction l as [|x l IH]; [done|]. rewrite max_depth_cons. lia. Qed.
Lemma max_depth_le l d : 0 <= d -> (forall x, x ∈ l -> j_depth x <= d) -> max_depth l <= d.
Proof.
  intros Hd. induction l as [|x l IH]; intros H; [done|]. rewrite max_depth_cons.
  pose proof (H x ltac:(by left)). assert (max_depth l <= d) by (apply IH; intros; apply H; by right).
  lia.
Qed.
Lemma max_depth_filter f l : max_depth (List.filter f l) <= max_depth l.
Proof.
  induction l as [|x l IH]; [done|]. cbn [List.filter]. destruct (f x); rewrite ?max_depth_cons; lia.
Qed.
Lemma j_depth_string s : j_depth (J_string s) = 0.
Proof.
  unfold J_string. rewrite j_depth_node. cbn [Nat.ltb Nat.leb].
  pose proof (max_depth_nonneg (map GenLeaf s)).
  assert (max_depth (map GenLeaf s) <= 0); [|lia].
  apply max_depth_le; [done|]. intros x (c & -> & _)%list_elem_of_fmap. done.
Qed.
Lemma j_depth_member k x : j_depth (J_member k x) = Z.max 0 (j_depth x).
Proof.
  unfold J_member. rewrite j_depth_node, !max_depth_cons, j_depth_string. cbn. lia.
Qed.
Lemma j_depth_set k x v : j_depth (j_set k x v) <= Z.max (j_depth v) (1 + j_depth x).
Proof.
  destruct v as [|[|[|n]] l]; cbn [j_set]; try lia. unfold J_object.
  rewrite !j_depth_node, max_depth_cons, j_depth_member. cbn [Nat.ltb Nat.leb].
  pose proof (max_depth_filter (fun m => negb (is_key k m)) l). pose proof (max_depth_nonneg l). lia.
Qed.
Lemma j_depth_option {A} (f : A -> gen_tree Z) o : (forall x, j_depth (f x) = 0) -> j_depth (J_option f o) = 0.
Proof. intros H. destruct o as [x|]; [|done]. cbn [J_option j_depth]. cbn. by rewrite H. Qed.
Lemma j_depth_meta m : j_depth (J_meta m) <= 2.
Proof.
  unfold J_meta, J_object. rewrite j_depth_node, !max_depth_cons, !j_depth_member. cbn [Nat.ltb Nat.leb max_depth foldr].
  rewrite j_depth_option by (intros; apply j_depth_string).
  unfold J_list. rewrite j_depth_node. cbn [Nat.ltb Nat.leb].
  assert (max_depth (map J_string (mt_lossy m)) <= 0); [|lia].
  apply max_depth_le; [done|]. intros x (c & -> & _)%list_elem_of_fmap. by rewrite j_depth_string.
Qed.
Lemma j_depth_entry e : j_depth (J_entry e) = 1.
Proof.
  unfold J_entry, J_list. rewrite j_depth_node, !max_depth_cons.
  by rewrite !j_depth_option by (done || apply j_depth_string).
Qed.
Lemma j_depth_refs r : j_depth (J_refs r) <= 3.
Proof.
  unfold J_refs, J_object. rewrite j_depth_node, !max_depth_cons, !j_depth_member. cbn [Nat.ltb Nat.leb max_depth foldr].
  unfold J_list. rewrite j_depth_node. cbn [Nat.ltb Nat.leb j_depth].
  assert (max_depth (map J_entry (rs_entries r)) <= 1); [|lia].
  apply max_depth_le; [done|]. intros x (c & -> & _)%list_elem_of_fmap. by rewrite j_depth_entry.
Qed.

(** An implementation of the documents. *)
#[local] Existing Instance LowerInst.lib.
#[local] Instance tree_json : JsonLib.
Proof.
  refine {|
    Value := gen_tree Z; from_str := read_json; to_json := print_json; to_json_pretty := print_json;
    is_object := j_object; member := j_member; set_member := j_set; empty_object := J_object [];
    of_array := J_list; as_array := fun v => match v with GenNode 0%nat l => Some l | _ => None end;
    as_u64 := leaf; as_str := string_of;
    meta_of := fun v => or_error (read_meta v); of_meta := J_meta;
    refs_of := fun v => or_error (read_refs v); of_refs := J_refs;
    of_records := fun l => J_list (map J_record l); depth := j_depth; has_float := fun _ => false
  |}.
  - intros s. unfold read_json. by case_match.
  - intros v _ _. apply read_json_print.
  - intros v _ _. apply read_json_print.
  - reflexivity.
  - apply j_depth_set.
  - reflexivity.
  - reflexivity.
  - reflexivity.
  - reflexivity.
  - intros k x v. by destruct v as [|[|[|n]] l].
  - apply j_member_set.
  - apply j_member_set_ne.
  - reflexivity.
  - intros v. apply or_error_total.
  - intros m. by rewrite read_meta_J.
  - intros v. apply or_error_total.
  - intros r _. by rewrite read_refs_J.
  - apply j_depth_meta.
  - reflexivity.
  - apply j_depth_refs.
  - reflexivity.
Defined.

(** ** Sessions *)

(** A program with an engine that answers every call. *)
Fixpoint play {A} (o : forall c, answer c) (p : proc A) : list event * A :=
  match p with
  | Ret a => ([], a)
  | Ask c k => let r := play o (k (o c)) in ({| ev_call := c; ev_answer := o c |} :: fst r, snd r)
  end.
Lemma play_runs {A} o (p : proc A) tr a : play o p = (tr, a) -> runs p tr a.
Proof.
  revert tr a. induction p as [x|c k IH]; cbn; intros tr a.
  - intros [= <- <-]. done.
  - destruct (play o (k (o c))) as [tr' a'] eqn:E. intros [= <- <-]. exists (o c), tr'. auto.
Qed.

(** An engine with one image and one form with one question. *)
Definition read_only : ImageInfo :=
  {| ii_image_id := us "i1"; ii_name := us "bios"; ii_path := us "/bios.rom"; ii_mode := 0; ii_size := 16;
     ii_created_at := 0; ii_last_activity := 0 |}.
Definition main_form : FormInfo :=
  {| fo_form_id := us "1/1/0"; fo_formset_guid := us "G"; fo_form_id_ifr := 1; fo_title := us "Main";
     fo_visible := true; fo_formset_ordinal := None |}.
Definition only_question : QuestionSummary :=
  {| su_question_id := 5; su_kind := us "numeric"; su_prompt := us "p"; su_var_store_id := 1; su_var_offset := 0;
     su_width := 1; su_seed_value := None; su_ifr_default := None |}.
Definition answer_rpc (q : Request) : (reply q + ustring)%type :=
  match q return (reply q + ustring)%type with
  | Q_SessionCreate _ => inl (us "s1", us "token")
  | Q_ImageOpen _ _ _ _ => inl {| io_image_id := us "i2"; io_root_guid := []; io_name := us "bios" |}
  | Q_ImagesList _ => inl [read_only]
  | Q_ArtifactsList _ => inl []
  | Q_ImageNodesList _ _ => inl Sample.rows
  | Q_ImageNodeRebuild _ _ => inl tt
  | Q_ImageClose _ => inl tt
  | Q_HiiListForms _ => inl [main_form]
  | Q_HiiFormTree _ => inl []
  | Q_HiiListVarstores _ _ => inl []
  | Q_HiiListQuestions _ _ _ => inl [only_question]
  | Q_HiiGatesList _ _ => inl []
  | Q_HiiFormAdd _ _ _ => inl {| fa_inserted_form_ids := [2]; fa_string_ids := ∅ |}
  | Q_HiiQuestionAdd _ _ _ => inl ([], [])
  | _ => inr (us "unexpected")
  end.
(** The package that the client reads: a document with one reference from the form to the
    form that is added. *)
Definition parent_refs : RefsSection :=
  {| rs_parent_form_id := 1; rs_entries := [{| rf_form_id := None; rf_formset_guid := None; rf_prompt := None; rf_help := None;
                                         rf_question_id := Some 6 |}] |}.
Definition form_body : ustring := print_json (J_object [J_member (us "forms") (J_list [])]).
Definition package_text : ustring :=
  match wrap_export form_body None (Some parent_refs) [] with Ok t => t | _ => [] end.
Definition engine (c : Call) : answer c :=
  match c return answer c with
  | K_Rpc _ q => answer_rpc q
  | K_Read _ => inr (us "unexpected")
  | K_ReadText _ => inl package_text
  | K_Write _ _ | K_WriteState _ => inl tt
  | K_SaveHistory _ => tt
  | K_Cwd | K_TmpDir => None
  end.

Definition saved : State :=
  {| st_session_id := Some (us "s1"); st_token := Some (us "token"); st_active_image_id := Some (us "i1");
     st_sock_path := None |}.
Abbreviation any_header := (fun _ : ustring => true).
Definition outcome_ui (p : proc (pure UI)) : pure UI := snd (play engine p).
(** A key in a window of 20 rows. *)
Definition frame : Frame := {|
  fr_tree_rows := 20; fr_list := 20; fr_questions := 8; fr_bottom := 4; fr_strings := 20; fr_varstores := 20;
  fr_hex_rows := 8; fr_hex_scroll := 0; fr_details_scroll := 0; fr_details_anchor := None |}.
Definition press (c : Z) : Frame * AppEvent := (frame, E_Key c).
(** The client after the start, and after [:rebuild 0] was typed. *)
Definition started : pure UI := outcome_ui (start any_header None (inl saved)).
Definition typed : pure UI :=
  match started with
  | Ok u => outcome_ui (main_loop any_header ascii_files (map press (us ":rebuild 0")) u)
  | r => r
  end.

Lemma reached_started u : started = Ok u -> reached any_header ascii_files u.
Proof.
  intros H. apply (reached_start _ _ None (inl saved) (fst (play engine (start any_header None (inl saved))))).
  apply (play_runs engine). rewrite <- H. apply surjective_pairing.
Qed.
Lemma reached_typed u : typed = Ok u -> reached any_header ascii_files u.
Proof.
  unfold typed. destruct started as [u0|e| |] eqn:E; try discriminate. intros H.
  pose proof (reached_started _ E) as Hr.
  eapply (main_loop_reached _ _ (map press (us ":rebuild 0")) u0); [exact Hr|].
  apply (play_runs engine). rewrite <- H. apply surjective_pairing.
Qed.

(** The key that ends the line sends the edit, for the image of the screen. *)
Lemma edits_on_screen_witness :
  exists u tr r,
    typed = Ok u /\ runs (handle_event any_header ascii_files E_Enter u) tr r /\
    edits tr = [K_Rpc (Some (us "s1", us "token")) (Q_ImageNodeRebuild (us "i1") (us "0"))] /\
    Forall (fun e => forall i, edit_of (ev_call e) = Some i -> ap_active_image_id (ui_app u) = Some i) tr.
Proof.
  assert (match typed with
          | Ok u => edits (fst (play engine (handle_event any_header ascii_files E_Enter u)))
          | _ => [] end = [K_Rpc (Some (us "s1", us "token")) (Q_ImageNodeRebuild (us "i1") (us "0"))]) as He by vm_eq.
  destruct typed as [u|e| |] eqn:E; [|discriminate He..].
  set (p := play engine (handle_event any_header ascii_files E_Enter u)).
  assert (runs (handle_event any_header ascii_files E_Enter u) (fst p) (snd p)) as Hr
    by (apply (play_runs engine); apply surjective_pairing).
  exists u, (fst p), (snd p). split; [reflexivity|]. split; [exact Hr|]. split; [exact He|].
  destruct (edits_on_screen any_header ascii_files u E_Enter (fst p) (snd p) (reached_typed u E) Hr) as [_ H].
  eapply Forall_impl; [exact H|]. intros e Hp i Hi. exact (proj2 (Hp i Hi)).
Defined.

(** The import of the package sends the form and its reference. *)
Definition on_screen : CS := {| cs_app := sample_app <| ap_active_image_id := Some (us "i1") |>; cs_state := saved |}.
Lemma import_checks_first_witness :
  exists tr s' r,
    runs (hii_import any_header (us "i1") (us "1/1/0") (us "/p.json") on_screen) tr (s', r) /\
    length (edits tr) = 2%nat /\
    exists before after text env,
      tr = before ++ after /\ edits before = [] /\
      {| ev_call := K_ReadText (us "/p.json"); ev_answer := inl text |} ∈ before /\ split_envelope text = Ok env.
Proof.
  set (p := play engine (hii_import any_header (us "i1") (us "1/1/0") (us "/p.json") on_screen)).
  assert (length (edits (fst p)) = 2%nat) as Hl by vm_eq.
  assert (runs (hii_import any_header (us "i1") (us "1/1/0") (us "/p.json") on_screen) (fst p)
            (fst (snd p), snd (snd p))) as Hr.
  { apply (play_runs engine). subst p. by destruct (play engine _) as [tr [s' r]]. }
  exists (fst p), (fst (snd p)), (snd (snd p)). split; [exact Hr|]. split; [exact Hl|].
  destruct (import_checks_first any_header _ _ _ _ _ _ _ Hr) as [Hn|(before & after & text & env & H1 & H2 & H3 & H4 & _)].
  - exfalso. clearbody p. rewrite Hn in Hl. discriminate Hl.
  - exists before, after, text, env. auto.
Defined.

(** The image that is open for reading is opened for writing, then closed. *)
Definition registered : CS :=
  on_screen <| cs_app := cs_app on_screen <| ap_registry := ap_registry sample_app <| rg_images := [read_only] |> |> |>.
Lemma reopen_spares_unsaved_witness :
  exists tr r,
    runs (reopen any_header true registered) tr r /\ closed tr = [us "i1"] /\
    exists sid opened, answered tr (Q_ImageOpen sid (us "/bios.rom") 1 []) opened.
Proof.
  set (p := play engine (reopen any_header true registered)).
  assert (closed (fst p) = [us "i1"]) as Hc by vm_eq.
  assert (runs (reopen any_header true registered) (fst p) (snd p)) as Hr
    by (apply (play_runs engine); apply surjective_pairing).
  exists (fst p), (snd p). split; [exact Hr|]. split; [exact Hc|].
  destruct (reopen_spares_unsaved any_header true registered _ _ Hr)
    as [Hn|(im & before & after & sid & opened & Ht & _ & _ & _ & Him & _ & Ha)].
  - exfalso. clearbody p. rewrite Hn in Hc. discriminate Hc.
  - exists sid, opened. rewrite Ht. apply answered_l.
    assert (im = read_only) as -> by (revert Him; cbn; intros [->|[]%elem_of_nil]%elem_of_cons; done).
    exact Ha.
Defined.

(** The package of the session is cut into what it was made of. *)
Lemma envelope_roundtrip_witness :
  split_envelope package_text =
    Ok {| env_meta := {| mt_source := None; mt_lossy := [] |}; env_refs := Some parent_refs; env_body := form_body |}.
Proof.
  assert (forall r, Some parent_refs = Some r -> refs_fit r = true) as Hf by (intros r [= <-]; vm_eq).
  pose proof (envelope_roundtrip form_body None (Some parent_refs) [] Hf) as H. unfold package_text.
  destruct (wrap_export form_body None (Some parent_refs) []) as [text|e| |] eqn:E.
  - destruct H as (v & Hv & H). revert Hv H. unfold form_body at 1.
    change (from_str (print_json (J_object [J_member (us "forms") (J_list [])])))
      with (read_json (print_json (J_object [J_member (us "forms") (J_list [])]))).
    rewrite read_json_print. intros [= <-] H. apply H. split; [reflexivity|vm_lt].
  - destruct H.
  - exfalso. revert E. vm_compute. discriminate.
  - destruct H.
Defined.

(** Two copies of a module give two forms with the same GUID and identifier; the tree has
    a row for the second one only. *)
Definition copy_form (target : ustring) : FormInfo :=
  {| fo_form_id := target; fo_formset_guid := us "G"; fo_form_id_ifr := 1; fo_title := us "Main";
     fo_visible := true; fo_formset_ordinal := None |}.
Example copies_collapse :
  match build_tree_rows [copy_form (us "0/1"); copy_form (us "0/2")] [] {[us "G"]} with
  | Ok rows => map (fun r => match r with FR_Form k _ _ _ _ _ => fk_target k | _ => [] end) rows
  | _ => []
  end = [[]; us "0/2"].
Proof. vm_compute. reflexivity. Qed.

(** Two references without identifiers get the same one. *)
Example shared_question_id :
  let entry f := {| rf_form_id := Some f; rf_formset_guid := None; rf_prompt := None; rf_help := None;
                    rf_question_id := None |} in
  match plan_ref_step {| rs_parent_form_id := 1; rs_entries := [entry 2; entry 3] |} None [] [5] with
  | Ok (Some p) => map rr_question_id (rp_records p)
  | _ => []
  end = [0x7F00; 0x7F00].
Proof. vm_compute. reflexivity. Qed.
